(* ===== verification/_CoqProject ===== *)
-Q . S2P
Prelude.v
Effect.v
OrdMap.v
Text.v
Math128.v
BinStream.v
Amount.v
UserField.v
Crypto.v
DataStream.v
Address.v
Utils.v
EncDec.v
Transaction.v
Packet.v
MetaStorage.v
Double.v
Pool.v
Database.v
Storage.v
StorageSpec.v
ContractRef.v
ContractState.v
Conveyer.v
ConveyerSpec.v
Fee.v
Tail.v
WalletsIds.v
AmountMod.v
WalletsCache.v
Ledger.v
BlockChain.v
BlockChainSpec.v
PoolSync.v
PoolSyncSpec.v
Chain.v
Validator.v
TrxIndex.v
TrxIndexSpec.v
IterValidator.v
NodeIntake.v
Scheduler.v
SolverFsm.v
Stage.v
Random.v
Stage3.v
OnStage2.v
StageStore.v
BlockValidator.v
BlockValidatorSpec.v
Stage1.v
Stage1Spec.v
RoundPackage.v
NodeRounds.v
NodeRoundsSpec.v
Round.v
TimeStamp.v
SolverBlock.v
SolverBlockSpec.v
