(* ===== verification/Prelude.v ===== *)
(** * Credits node: verification library (root file)

    A shallow embedding of the core of the Credits blockchain node: what a node
    holds on chain (amounts, transactions, blocks), what it does with a round's
    transactions (validation, the wallets cache), and how the trusted nodes of a
    round agree (the stages of the consensus).  This file is the root: the
    notations, the machine integers, bytes, results and records that all files
    share.

    ** The program and its parts

    A round goes through these parts, which are modelled by the files named.

    - Binary formats.  csdb serialises through [obstream]/[ibstream]
      (csdb/src/binary_streams.cpp: [BinStream], which has the codec interface
      [CodecOk] that every type below implements), and [IntegralEncDec] is its
      variable-length form (csdb/src/integral_encdec.cpp).  The messages between
      nodes use [cs::IDataStream]/[ODataStream]
      (csnode/include/csnode/datastream.hpp: [DataStream]).
    - On-chain data.  Amounts with their 32- and 64-bit wrap-around and 128-bit
      helpers ([Amount], [Math128]; [AmountMod] has their arithmetic modulo the
      range), their conversions through IEEE doubles ([Double]), addresses
      ([Address]), user fields ([UserField]), transactions ([Transaction]),
      packets of transactions ([Packet]), blocks ([Pool]), references to
      transactions and the kinds of contract transactions ([ContractRef]).
    - The transactions of a round.  What a node does with a packet that it gets
      ([NodeIntake], csnode/src/node.cpp), the conveyer that holds the packets
      and the tables of the last rounds, gives the packet of a round to the
      consensus and makes the block of the accepted transactions ([Conveyer],
      csnode/src/conveyer.cpp, what it guarantees in [ConveyerSpec]), over the
      storage of rounds and the queue of packets ([MetaStorage],
      lib/include/lib/system/metastorage.hpp, csnode/src/packetqueue.cpp).
    - Wallets.  Ids of wallets ([WalletsIds], csnode/src/walletsids.cpp), the
      window of used transaction ids ([Tail]), fees ([Fee]), the balances
      ([WalletsCache], csnode/src/walletscache.cpp) with the abstract ledger
      they implement ([Ledger]).
    - The chain.  A database is an interface with laws, which the tables of
      Berkeley DB satisfy ([Database], csdb/include/csdb/database.hpp,
      csdb/src/database_berkeleydb.cpp); the storage of blocks works over any
      such database ([Storage], csdb/src/storage.cpp, what it guarantees in
      [StorageSpec]), and the node's chain, with its deferred block, the cached
      blocks, the wallets and the group signatures, works over the storage
      ([BlockChain], csnode/src/blockchain.cpp, blockhashes.cpp and
      nodeutils.cpp, what it guarantees in [BlockChainSpec]).  A node that is
      behind asks its neighbours for blocks ([PoolSync],
      csnode/src/poolsynchronizer.cpp, what it guarantees in [PoolSyncSpec]).  The
      transactions of an address are found through an index ([TrxIndex],
      csnode/src/transactionsindex.cpp and transactionsiterator.cpp, what it
      guarantees in [TrxIndexSpec]).  The blocks that are read at the start go
      through the plugins of the validator
      ([BlockValidator], csnode/src/blockvalidator.cpp and
      blockvalidatorplugins.cpp, what it guarantees in [BlockValidatorSpec]); the
      last states of the contracts are records of the database ([ContractState],
      solver/src/smartcontracts.cpp).
    - Following the rounds.  The package of a round, the confirmations of the
      last rounds and the statistics ([RoundPackage], csnode/src/roundpackage.cpp,
      confirmationlist.cpp and roundstat.cpp), and what a node does with
      packages, BigBangs, hash replies and requests, over the conveyer, the chain
      and the synchroniser ([NodeRounds], csnode/src/node.cpp, what it guarantees
      in [NodeRoundsSpec]).
    - Validation.  [Validator] is csnode/src/transactionsvalidator.cpp over the
      copies of the wallets (csnode/src/walletsstate.cpp), [Chain] the lists
      linked through an array that it uses, [IterValidator] is
      csnode/src/itervalidator.cpp, from the signatures to the characteristic.
    - Consensus.  Stage one with the choice of the next round's packets and the
      exchange of hashes ([Stage1], solver/src/states/trustedstage1state.cpp,
      with [Stage1Spec]).  Messages of the stages and their parsing ([Stage], with the
      handlers of csnode/src/node.cpp), the storages of the stages one and three
      ([StageStore], solver/src/solverinterface.cpp), the decisions of stage
      three ([Stage3], [OnStage2], solver/src/states/trustedstage3state.cpp), the
      time of the block, the mean of what the confidants sent, computed in
      doubles ([TimeStamp]), the block that follows the decision with the own
      stage three, the gathered signatures, the waiting and the writing state and
      the gray list ([SolverBlock], solver/src/solvercore.cpp, solverinterface.cpp,
      states/waitingstate.cpp, what it guarantees in [SolverBlockSpec]), the states of the solver's core and their transitions ([SolverFsm],
      solver/src/solvercore.cpp), the scheduler of delayed calls ([Scheduler],
      solver/src/callsqueuescheduler.cpp), the shuffle ([Random]).
    - [Round] composes them: packets, validation, block, fees, wallets.
    - [Text], [OrdMap] and [Utils] hold what the others share: decimal text,
      ordered maps, hexadecimal strings and masks.

    ** How the code is embedded

    An object is a record with the names of its members, an enum an inductive
    type, a method a definition that gives the new state.  Integers are [Z] with
    the wrap-around of their width written out; bytes are a list of [Z].
    Exceptions are values ([result], here); where the code can also be undefined
    (an index past the end of a vector, an empty [back()]) the result is an
    [M] of [Effect], in which [None] is undefined behaviour.  Containers keep
    their order where the code can see it.  The loops that are not structural
    have fuel, and a theorem says how much suffices: 128 steps for the division
    of amounts; for the removal of transactions by graph the number of wallets on
    the stack plus the number of accepted transactions, since every round takes a
    wallet from the stack and puts one there only with a rejected transaction; for
    the lists of a wallet the length of the round; for the characteristic one
    round, since the source never asks for another; for the mean of the time stamps one turn
    more than there are stamps; for the history of an address
    one step for each of its transactions, and for a removed block more steps than
    it has transactions, since the iterator never goes forward.  Threads are
    interleavings of steps of a step relation ([Scheduler]).

    What is not in the repository is a parameter: the cryptographic library
    (class [Cscrypto] with its laws, and a concrete instance for examples), the
    Boost multi-index ([MultiIndex] with its laws and a list that satisfies
    them), [log10] and [pow] ([Libm]), the Thrift decoder, [std::sort] and the
    random generator.  The table of contracts appears as functions that the
    handlers call, and so does the chain where a handler only reads it.

    ** What the theorems show

    - The round.  From the packets of a round to the wallets: the packet that the
      conveyer makes is validated, the block holds exactly the accepted
      transactions, and loading it leaves no debt and conserves the money
      ([Round]).  Synchronised rounds have a packet, packets enter the table
      only with their signatures, what a confidant proposes respects the limits
      of a block, the first stage ends exactly when its three conditions hold.
    - Money.  A round of transfers that the validator accepts (amounts exact as doubles and
      far enough from the bounds of their range, no contract known) leaves no wallet
      below zero, forges no signature and repeats no id; its block loads, keeps
      the sum of all balances, and leaves no debt; solvent wallets' transfers are
      all accepted; the cache refines an abstract ledger, and a reorganisation of
      any depth gives everything back.  The arithmetic of amounts is exact where
      it does not overflow.
    - The chain.  The storage refines a stack of linked blocks, opening it again
      restores it, and a new top cuts it with as many steps as there are blocks
      to remove ([StorageSpec]).  A block joins the chain only behind the last
      one and with its signatures; whatever blocks come and go, the storage and
      the deferred block stay one linked chain; what is asked for covers what is
      missing; a deferred block of transfers can be taken back ([BlockChainSpec]).
      A synchronisation starts with the next missing blocks, and its neighbours
      and requests stay consistent under every order of events ([PoolSyncSpec]).
      A database that opens under the validator is linked, a block that passes its
      plugins is signed, and its check of an account stays in bounds
      ([BlockValidatorSpec]); the states of the contracts refine a map to the
      newest ones ([ContractState]), where a forced update is taken whatever the
      record has.  The index of transactions follows the chain forth and back, and
      the iterator over it gives the whole history of an address, the newest
      transaction first ([TrxIndexSpec]).
    - The rounds of a node.  At the end of its chain a node performs only packages
      that the confidants that it knows for the round before signed and makes only blocks that
      its own validation gives; messages of a round are handled in that round
      ([NodeRoundsSpec]).
    - Agreement.  Two confidants with the same stages one take the same decision;
      a majority finishes; a confidant that finishes has the signatures of the
      valid ones, and with these the block it made passes the checks of the chain
      and of the receivers ([SolverBlockSpec]); writers went through all stages;
      the elected packets have a majority.
    - Formats.  Transactions, packets, blocks, stages, references and masks are
      read back as they were written; truncated input is refused; signatures
      cover what they should, or it is shown what they do not cover.
    - Structure.  The tail refuses exactly the used and the old ids, no two jobs
      of a tag run at once, the queue stays ordered, frozen blocks do not change.
    - Defects.  Some theorems state what the code should not do (a packet with an
      invalid transaction enters the table and costs the round its block, a
      packet above the limits keeps the others out, an all-untrusted mask throws,
      a stored block that is taken back keeps its balances, a fresh chain loses
      its genesis block, the cache of the storage keeps a removed block,
      undoing a contract's new state charges again when it is loaded once more,
      equivocation is blamed on the wrong confidant, a package that trusts nobody
      needs no signature, an old BigBang is made young, a contract's new state
      passes the validator of blocks without signatures, a node left out by its own
      mask finishes without a confidant's signature, equal time stamps are dropped
      after a long pause, hashes and signatures are
      counted instead of their senders, a removed running job starves its tag).

    ** Not modelled

    Sockets and packet buffers (net/), the Thrift API (api/), start-up and
    configuration (client/), the files of Berkeley DB and LMDB and logging are
    input and output.  The table of contracts and their consensus
    (solver/src/smartcontracts.cpp, smartconsensus.cpp) drive an external
    executor; only the references, kinds, stage one, addresses and stored states of
    contracts are here.  Of node.cpp the handlers named above are here; the repeats of
    stages, the stages of contracts, the requests for states, alarms, reports and
    the utility messages are not.  Event reports go to a monitor.  Of the solver's core
    gotStageTwo and the timers that ask for missing stages are not here.
*)

From Stdlib Require Import ZArith Lia Bool.
From stdpp Require Import base tactics numbers option list.

(** ** Notations of the development *)

Declare Scope cs_scope.
Delimit Scope cs_scope with cs.

(** Bytes are integers in [0, 256); a byte buffer ([cs::Bytes]) is a list. *)
Abbreviation byte := Z (only parsing).
Abbreviation bytes := (list Z).

Local Open Scope Z_scope.

(** ** Machine integers

    A [w]-bit unsigned integer is a [Z] in [0, 2^w), a signed one a [Z] in
    [-2^(w-1), 2^(w-1)).  [uwrap] and [swrap] are the conversions to the type
    (the result of an arithmetic operation at that width).  Signed overflow,
    undefined in C++, is given the two's complement result that the
    supported compilers produce; theorems about signed arithmetic say when no
    overflow happens. *)

Definition uwrap (w z : Z) : Z := z mod 2 ^ w.
Definition swrap (w z : Z) : Z := (z + 2 ^ (w - 1)) mod 2 ^ w - 2 ^ (w - 1).

Definition in_u (w z : Z) : Prop := 0 <= z < 2 ^ w.
Definition in_s (w z : Z) : Prop := - 2 ^ (w - 1) <= z < 2 ^ (w - 1).

Abbreviation u8 := (uwrap 8) (only parsing).
Abbreviation u16 := (uwrap 16) (only parsing).
Abbreviation u32 := (uwrap 32) (only parsing).
Abbreviation u64 := (uwrap 64) (only parsing).
Abbreviation s32 := (swrap 32) (only parsing).
Abbreviation s64 := (swrap 64) (only parsing).

Create HintDb cs.
Create Rewrite HintDb csrw.

(** [machine_lia]: linear arithmetic at machine widths: the wrap-arounds and the type
    ranges are unfolded, the [mod]s are left to [lia]. *)
Ltac machine_unfold := unfold uwrap, swrap, in_u, in_s in *; change (8 - 1) with 7 in *;
  change (32 - 1) with 31 in *; change (64 - 1) with 63 in *; change (16 - 1) with 15 in *.
Ltac machine_lia := machine_unfold; Z.to_euclidean_division_equations; lia.

Lemma uwrap_id w z : in_u w z -> uwrap w z = z.
Proof. intros H. unfold uwrap. apply Z.mod_small, H. Qed.

Lemma uwrap_split w z : exists j, uwrap w z = z + j * 2 ^ w.
Proof. exists (- (z / 2 ^ w)). unfold uwrap. destruct (Z.eq_dec (2 ^ w) 0) as [->|H]; [by rewrite Z.mod_0_r, Z.mul_0_r, Z.add_0_r|]. pose proof (Z.div_mod z (2 ^ w) H). lia. Qed.

Lemma uwrap_range w z : 0 <= w -> in_u w (uwrap w z).
Proof. intros Hw. apply Z.mod_pos_bound. by apply Z.pow_pos_nonneg. Qed.

Lemma swrap_id w z : 0 < w -> in_s w z -> swrap w z = z.
Proof.
  intros Hw [H1 H2]. unfold swrap.
  assert (2 ^ w = 2 * 2 ^ (w - 1)) as E by (rewrite <- Z.pow_succ_r by lia; f_equal; lia).
  rewrite Z.mod_small; lia.
Qed.

Lemma swrap_range w z : 0 < w -> in_s w (swrap w z).
Proof.
  intros Hw. unfold swrap, in_s.
  assert (2 ^ w = 2 * 2 ^ (w - 1)) as E by (rewrite <- Z.pow_succ_r by lia; f_equal; lia).
  pose proof (Z.mod_pos_bound (z + 2 ^ (w - 1)) (2 ^ w)).
  assert (0 < 2 ^ (w - 1)) by (apply Z.pow_pos_nonneg; lia). lia.
Qed.

Lemma swrap_uwrap w z : 0 < w -> swrap w (uwrap w z) = swrap w z.
Proof.
  intros Hw. unfold swrap, uwrap. f_equal.
  rewrite Z.add_mod_idemp_l; [done|]. apply Z.pow_nonzero; lia.
Qed.

#[export] Hint Resolve uwrap_range swrap_range : cs.
#[export] Hint Extern 1 (0 <= _) => lia : cs.

(** ** Little-endian bytes

    The machines the node supports are little endian: [le_bytes n z] is the
    object representation of an [n]-byte integer, [le_val] reads it back. *)

Fixpoint le_bytes (n : nat) (z : Z) : bytes :=
  match n with
  | O => []
  | S n' => z mod 256 :: le_bytes n' (z / 256)
  end.

Fixpoint le_val (bs : bytes) : Z :=
  match bs with
  | [] => 0
  | b :: bs' => b + 256 * le_val bs'
  end.

Definition bytes_ok (bs : bytes) : Prop := Forall (fun b => 0 <= b < 256) bs.

Lemma length_le_bytes n z : length (le_bytes n z) = n.
Proof. revert z; induction n; intros z; cbn; auto. Qed.

Lemma le_bytes_ok n z : bytes_ok (le_bytes n z).
Proof.
  revert z; induction n; intros z; cbn; constructor; [|apply IHn].
  apply Z.mod_pos_bound; lia.
Qed.

Lemma pow256_succ n : 256 ^ Z.of_nat (S n) = 256 * 256 ^ Z.of_nat n.
Proof. rewrite Nat2Z.inj_succ, Z.pow_succ_r; lia. Qed.

Lemma pow256_pow2 n : 256 ^ Z.of_nat n = 2 ^ (8 * Z.of_nat n).
Proof. rewrite Z.pow_mul_r by lia. done. Qed.

Lemma le_val_bytes n z : le_val (le_bytes n z) = z mod 256 ^ Z.of_nat n.
Proof.
  revert z; induction n; intros z; cbn [le_bytes le_val].
  - by rewrite Z.mod_1_r.
  - rewrite IHn, pow256_succ, Z.rem_mul_r; lia.
Qed.

Lemma le_val_range bs : bytes_ok bs -> 0 <= le_val bs < 256 ^ Z.of_nat (length bs).
Proof.
  induction 1 as [|b bs Hb _ IH]; cbn [le_val length]; [lia|].
  rewrite pow256_succ. lia.
Qed.

Lemma le_bytes_val bs : bytes_ok bs -> le_bytes (length bs) (le_val bs) = bs.
Proof.
  induction 1 as [|b bs Hb _ IH]; cbn [le_val length le_bytes]; [done|].
  f_equal.
  - replace (b + 256 * le_val bs) with (b + le_val bs * 256) by ring.
    rewrite Z.mod_add by lia. by apply Z.mod_small.
  - replace ((b + 256 * le_val bs) / 256) with (le_val bs); [done|].
    replace (b + 256 * le_val bs) with (b + le_val bs * 256) by ring.
    rewrite Z.div_add by lia. rewrite (Z.div_small b) by lia. lia.
Qed.

Lemma le_bytes_inj n a b :
  0 <= a < 256 ^ Z.of_nat n -> 0 <= b < 256 ^ Z.of_nat n ->
  le_bytes n a = le_bytes n b -> a = b.
Proof.
  intros Ha Hb E. apply (f_equal le_val) in E.
  by rewrite !le_val_bytes, !Z.mod_small in E.
Qed.

#[export] Hint Rewrite length_le_bytes : csrw.
#[export] Hint Resolve le_bytes_ok : cs.

(** ** Bits *)

Lemma lor_disjoint_add b k n : 0 <= n -> 0 <= b < 2 ^ n -> Z.lor b (2 ^ n * k) = b + 2 ^ n * k.
Proof.
  intros Hn Hb. rewrite <- Z.lxor_lor, <- Z.add_nocarry_lxor; [done| |];
    apply Z.bits_inj'; intros i Hi; rewrite Z.land_spec, Z.bits_0, Z.mul_comm, Z.mul_pow2_bits by lia;
    (destruct (Z.ltb_spec i n);
     [by rewrite (Z.testbit_neg_r k), andb_false_r by lia
     |rewrite <- (Z.mod_small b (2 ^ n)), Z.mod_pow2_bits_high by lia; done]).
Qed.

(** [z & (1 << n)] tests bit [n]. *)
Lemma land_pow2_eqb z n : 0 <= n -> (Z.land z (2 ^ n) =? 0) = negb (Z.testbit z n).
Proof.
  intros Hn. assert (Z.land z (2 ^ n) = if Z.testbit z n then 2 ^ n else 0) as ->.
  { apply Z.bits_inj'. intros i Hi. rewrite Z.land_spec, Z.pow2_bits_eqb by lia.
    destruct (Z.eqb_spec n i) as [<-|Hne].
    - destruct (Z.testbit z n) eqn:Et; [by rewrite Z.pow2_bits_true|by rewrite Z.bits_0].
    - rewrite andb_false_r. destruct (Z.testbit z n); [|by rewrite Z.bits_0].
      by rewrite Z.pow2_bits_false. }
  destruct (Z.testbit z n); [|done]. cbn. apply Z.eqb_neq, Z.pow_nonzero; lia.
Qed.

Lemma testbit_odd z n : 0 <= n -> Z.testbit z n = Z.odd (z / 2 ^ n).
Proof. intros Hn. by rewrite Z.testbit_odd, Z.shiftr_div_pow2. Qed.

Lemma land_ones_mod z n : 0 <= n -> Z.land z (2 ^ n - 1) = z mod 2 ^ n.
Proof. intros Hn. rewrite <- Z.land_ones by done. by rewrite Z.ones_equiv, Z.sub_1_r. Qed.

(** ** Exceptions

    The C++ exceptions the modelled code throws, as the error side of a sum. *)

Inductive exn : Set :=
  | invalid_argument
  | overflow_error
  | runtime_error
  | out_of_range
  | length_error.

#[export] Instance exn_eq_dec : EqDecision exn.
Proof. solve_decision. Defined.

Inductive result (A : Type) : Type :=
  | Ok (a : A)
  | Throw (e : exn).
Arguments Ok {A} a.
Arguments Throw {A} e.

Definition rbind {A B} (m : result A) (f : A -> result B) : result B :=
  match m with Ok a => f a | Throw e => Throw e end.
Definition rmap {A B} (f : A -> B) (m : result A) : result B := rbind m (fun a => Ok (f a)).

Notation "'let!' x ':=' m 'in' k" := (rbind m (fun x => k))
  (at level 10, x pattern, m at level 100, k at level 200) : cs_scope.

(** ** Lists *)

Section lists.
Context {A : Type}.
Implicit Types l : list A.

Lemma take_drop_app n l : take n l ++ drop n l = l.
Proof. apply take_drop. Qed.

Lemma take_app_exact l k n : length l = n -> take n (l ++ k) = l.
Proof. intros <-. by rewrite take_app_length. Qed.

Lemma drop_app_exact l k n : length l = n -> drop n (l ++ k) = k.
Proof. intros <-. by rewrite drop_app_length. Qed.

Lemma filter_sublist (P : A -> Prop) `{!forall x, Decision (P x)} l1 l2 :
  sublist l1 l2 -> sublist (filter P l1) (filter P l2).
Proof.
  induction 1 as [|x l1 l2 _ IH|x l1 l2 _ IH]; [done| |]; rewrite ?filter_cons.
  - destruct (decide (P x)); [by constructor|done].
  - destruct (decide (P x)); [by constructor|done].
Qed.

Lemma Forall_sublist (P : A -> Prop) l1 l2 : Forall P l2 -> sublist l1 l2 -> Forall P l1.
Proof. intros Hf Hs. induction Hs; [done| |]; apply Forall_cons in Hf as [? ?]; auto. Qed.

Lemma filter_all (P : A -> Prop) `{!forall x, Decision (P x)} l :
  Forall P l -> filter P l = l.
Proof.
  induction 1 as [|x l Hx _ IH]; [done|]. rewrite filter_cons, decide_True by done.
  by rewrite IH.
Qed.

Lemma filter_ext_elem (P Q : A -> Prop) `{!forall x, Decision (P x), !forall x, Decision (Q x)} l :
  (forall x, x ∈ l -> P x <-> Q x) -> filter P l = filter Q l.
Proof.
  induction l as [|x l IH]; intros Hpq; [done|].
  rewrite !filter_cons, IH by (intros; apply Hpq; by right).
  assert (P x <-> Q x) by (apply Hpq; by left). repeat case_decide; tauto.
Qed.

(** Taking one element out of a list. *)
Lemma length_filter_middle (P : A -> Prop) `{!forall x, Decision (P x)} l k x :
  l !! k = Some x ->
  length (filter P l) = (length (filter P (take k l ++ drop (S k) l)) + if decide (P x) then 1 else 0)%nat.
Proof.
  intros Hk. rewrite <- (take_drop_middle l k x Hk) at 1. rewrite !filter_app, filter_cons, !length_app.
  case_decide; cbn [length]; lia.
Qed.
End lists.

(** ** Record update

    [x <| f := v |>] is [x] with field [f] set to [v], for a record with an
    [Eta] instance (the record rebuilt from its fields). *)

Class Eta (R : Type) := eta : R -> R.

Class Setter {R T} (proj : R -> T) := setter : T -> R -> R.

(** The setter of [proj]: the record rebuilt with one field replaced. *)
Ltac mk_setter :=
  lazymatch goal with
  | |- @Setter ?R ?T ?proj =>
      let i := constr:(_ : Eta R) in
      let i := eval hnf in i in
      let v := fresh "v" in let y := fresh "y" in
      refine (fun (v : T) (y : R) => _);
      let b := eval cbv beta in (i y) in
      lazymatch eval pattern (proj y) in b with
      | ?g _ => let r := eval cbv beta in (g v) in exact r
      end
  end.
#[export] Hint Extern 1 (Setter _) => mk_setter : typeclass_instances.

Definition upd {R T} (proj : R -> T) {S : Setter proj} (v : T) (x : R) : R := S v x.

Notation "x '<|' f ':=' v '|>'" := (upd f v x)
  (at level 12, f at level 99, left associativity, format "x <| f  :=  v |>") : cs_scope.
