(* ===== verification/Effect.v ===== *)
(** * Computations that may throw or be undefined

    [M A] is the result of a piece of C++: [None] is undefined behaviour (an
    [operator[]] out of bounds, a null pointer; or, where a definition says so,
    a parameter without a result), [Some (Throw e)] an exception, and
    [Some (Ok a)] a normal return. *)

From stdpp Require Import base tactics option list.
From S2P Require Import Prelude.

Definition M (A : Type) : Type := option (result A).
Definition ret {A} (a : A) : M A := Some (Ok a).
Definition mthen {A B} (m : M A) (k : A -> M B) : M B :=
  match m with
  | None => None
  | Some (Throw e) => Some (Throw e)
  | Some (Ok a) => k a
  end.
Notation "'do!' x ':=' m 'in' k" := (mthen m (fun x => k))
  (at level 10, x pattern, m at level 100, k at level 200) : cs_scope.

(** [vector::operator[]] and [vector::at] *)
Definition index {A} (l : list A) (i : nat) : M A :=
  match l !! i with Some a => ret a | None => None end.
Definition at_ {A} (l : list A) (i : nat) : M A :=
  Some (match l !! i with Some a => Ok a | None => Throw out_of_range end).

(** The exceptions of the pure operations, and a computation that is known to return. *)
Definition lift {A} (r : result A) : M A := Some r.

Lemma mthen_ok {A B} (m : M A) (k : A -> M B) b :
  mthen m k = Some (Ok b) <-> exists a, m = Some (Ok a) /\ k a = Some (Ok b).
Proof.
  split.
  - destruct m as [[a|e]|]; cbn [mthen]; [|done..]. by exists a.
  - by intros (a & -> & H).
Qed.

(** A loop over a list. *)
Fixpoint mfold {A S} (f : A -> S -> M S) (l : list A) (s : S) : M S :=
  match l with
  | [] => ret s
  | a :: l => mthen (f a s) (mfold f l)
  end.

Lemma mfold_app {A S} (f : A -> S -> M S) l l' s : mfold f (l ++ l') s = mthen (mfold f l s) (mfold f l').
Proof.
  revert s. induction l as [|a l IH]; intros s; cbn [mfold app]; [done|].
  destruct (f a s) as [[s'|e]|]; cbn [mthen]; [apply IH|done|done].
Qed.

(** What each step preserves, the loop preserves. *)
Lemma mfold_inv {A S} (f : A -> S -> M S) (P : S -> Prop) l s s' :
  (forall a s s', a ∈ l -> P s -> f a s = Some (Ok s') -> P s') -> P s -> mfold f l s = Some (Ok s') -> P s'.
Proof.
  revert s. induction l as [|a l IH]; intros s Hf Hs; cbn [mfold].
  - by intros [= <-].
  - intros (s1 & H1 & H2)%mthen_ok. eapply IH; [|eapply Hf; [by left|exact Hs|exact H1]|exact H2].
    intros b t t' Hb. apply Hf. by right.
Qed.
