(* ===== verification/OrdMap.v ===== *)
(** * [std::map] with integer keys

    The node iterates its [std::map]s in ascending key order (the order fixes
    the serialised form), so a map is the list of its pairs, strictly sorted
    by key.  [emplace] keeps an existing binding, [assign] ([m[k] = v])
    replaces it. *)

From Stdlib Require Import Sorted ZArith Lia.
From stdpp Require Import base tactics numbers list.
From S2P Require Import Prelude.

Local Open Scope Z_scope.

Section ordmap.
Context {V : Type}.
Implicit Types m : list (Z * V).

Fixpoint find (k : Z) m : option V :=
  match m with
  | [] => None
  | (k', v) :: m' => if k =? k' then Some v else find k m'
  end.

Fixpoint emplace (k : Z) (v : V) m : list (Z * V) :=
  match m with
  | [] => [(k, v)]
  | (k', v') :: m' =>
      if k <? k' then (k, v) :: m
      else if k =? k' then m
      else (k', v') :: emplace k v m'
  end.

Fixpoint assign (k : Z) (v : V) m : list (Z * V) :=
  match m with
  | [] => [(k, v)]
  | (k', v') :: m' =>
      if k <? k' then (k, v) :: m
      else if k =? k' then (k, v) :: m'
      else (k', v') :: assign k v m'
  end.

(** [m.lower_bound(k)] to [m.end()]: the bindings with keys at least [k]. *)
Fixpoint from_lower_bound (k : Z) m : list (Z * V) :=
  match m with
  | [] => []
  | (k', v') :: m' => if k' <? k then from_lower_bound k m' else m
  end.

Definition sorted m : Prop := StronglySorted (fun a b => a.1 < b.1) m.

Lemma sorted_cons p m : sorted (p :: m) <-> sorted m /\ Forall (fun q => p.1 < q.1) m.
Proof.
  split; [intros H; inversion H; auto|]. intros [? ?]. by constructor.
Qed.

Lemma find_above k m : Forall (fun q => k < q.1) m -> find k m = None.
Proof.
  induction 1 as [|[k' v'] m Hk _ IH]; cbn [find]; [done|]. cbn in Hk.
  destruct (Z.eqb_spec k k'); [lia|done].
Qed.

Lemma assign_above p k v m :
  p < k -> Forall (fun q => p < q.1) m -> Forall (fun q => p < q.1) (assign k v m).
Proof.
  intros Hk. induction 1 as [|[k' v'] m Hk' Hm IH]; cbn [assign]; [by constructor|].
  repeat case_match; repeat constructor; auto.
Qed.

Lemma emplace_above p k v m :
  p < k -> Forall (fun q => p < q.1) m -> Forall (fun q => p < q.1) (emplace k v m).
Proof.
  intros Hk. induction 1 as [|[k' v'] m Hk' Hm IH]; cbn [emplace]; [by constructor|].
  repeat case_match; repeat constructor; auto.
Qed.

Ltac keys := repeat match goal with
  | H : (_ <? _) = true |- _ => apply Z.ltb_lt in H
  | H : (_ <? _) = false |- _ => apply Z.ltb_ge in H
  | H : (_ =? _) = true |- _ => apply Z.eqb_eq in H
  | H : (_ =? _) = false |- _ => apply Z.eqb_neq in H
  end; cbn in *.

Lemma sorted_assign k v m : sorted m -> sorted (assign k v m).
Proof.
  induction m as [|[k' v'] m IH]; cbn [assign]; intros Hs; [repeat constructor|].
  apply sorted_cons in Hs as [Hs Hf].
  repeat case_match; keys; apply sorted_cons; (split; [try apply sorted_cons; auto|]).
  - constructor; [cbn; lia|]. eapply Forall_impl; [exact Hf|]. cbn. lia.
  - by subst.
  - apply assign_above; cbn; [lia|done].
Qed.

Lemma sorted_emplace k v m : sorted m -> sorted (emplace k v m).
Proof.
  induction m as [|[k' v'] m IH]; cbn [emplace]; intros Hs; [repeat constructor|].
  pose proof Hs as Hs0. apply sorted_cons in Hs as [Hs Hf].
  repeat case_match; keys; [apply sorted_cons|done|apply sorted_cons]; (split; [auto|]).
  - constructor; [cbn; lia|]. eapply Forall_impl; [exact Hf|]. cbn. lia.
  - apply emplace_above; cbn; [lia|done].
Qed.

Lemma find_assign k v m j :
  sorted m -> find j (assign k v m) = if j =? k then Some v else find j m.
Proof.
  induction m as [|[k' v'] m IH]; cbn [assign find]; intros Hs; [done|].
  apply sorted_cons in Hs as [Hs Hf].
  repeat case_match; keys; cbn [find]; subst; try done;
    try rewrite IH by done; repeat case_match; keys; try lia; done.
Qed.

Lemma find_emplace k v m j :
  sorted m -> find k m = None -> find j (emplace k v m) = if j =? k then Some v else find j m.
Proof.
  induction m as [|[k' v'] m IH]; cbn [emplace find]; intros Hs Hf; [done|].
  apply sorted_cons in Hs as [Hs Hf'].
  repeat case_match; keys; cbn [find]; subst; try done;
    try rewrite IH by done; repeat case_match; keys; try lia; done.
Qed.

Lemma sorted_map (f : V -> V) m : sorted m -> sorted (map (fun p => (p.1, f p.2)) m).
Proof.
  induction m as [|[k v] m IH]; intros Hs; [done|]. apply sorted_cons in Hs as [Hs Hf]. cbn [map].
  apply sorted_cons. split; [by apply IH|]. apply Forall_map. exact Hf.
Qed.

(** Inserting in ascending key order appends. *)
Lemma emplace_last k v m : Forall (fun q => q.1 < k) m -> emplace k v m = m ++ [(k, v)].
Proof.
  induction 1 as [|[k' v'] m Hk' Hm IH]; cbn [emplace app]; [done|]. cbn in Hk'.
  repeat case_match; keys; [lia|lia|]. by rewrite IH.
Qed.

Lemma from_lower_bound_incl k m p : p ∈ from_lower_bound k m -> p ∈ m.
Proof.
  induction m as [|[k' v'] m IH]; cbn; [done|]. case_match; [|done].
  intros ?. apply list_elem_of_further. auto.
Qed.

Lemma from_lower_bound_spec k m :
  sorted m -> from_lower_bound k m = filter (fun p => k <= p.1) m.
Proof.
  induction m as [|[k' v'] m IH]; intros Hs; [done|].
  apply sorted_cons in Hs as [Hs Hf]. cbn [from_lower_bound].
  rewrite filter_cons. case_match; keys; case_decide as Hd; cbn in Hd; try lia; auto.
  f_equal. symmetry. apply filter_all. eapply Forall_impl; [exact Hf|]. cbn. lia.
Qed.

Lemma sorted_app_inv m1 m2 :
  sorted (m1 ++ m2) -> Forall (fun p => Forall (fun q => p.1 < q.1) m2) m1.
Proof.
  induction m1 as [|p m1 IH]; cbn; intros Hs; [constructor|].
  apply sorted_cons in Hs as [Hs Hf]. constructor; [|auto].
  by apply Forall_app in Hf as [_ ?].
Qed.

Lemma length_from_lower_bound k m : (length (from_lower_bound k m) <= length m)%nat.
Proof. induction m as [|[k' v'] m IH]; cbn; [done|]. case_match; cbn; lia. Qed.

Lemma assign_Forall (P : Z * V -> Prop) k v m : P (k, v) -> Forall P m -> Forall P (assign k v m).
Proof.
  intros Hp. induction 1 as [|[k' v'] m Hk Hm IH]; cbn [assign]; [by constructor|].
  repeat case_match; repeat constructor; auto.
Qed.

Lemma assign_last k v m : Forall (fun q => q.1 < k) m -> assign k v m = m ++ [(k, v)].
Proof.
  induction 1 as [|[k' v'] m Hk' Hm IH]; cbn [assign app]; [done|]. cbn in Hk'.
  repeat case_match; keys; [lia|lia|]. by rewrite IH.
Qed.

(** Copying a map binding by binding. *)
Lemma foldl_assign_sorted acc m :
  sorted (acc ++ m) -> foldl (fun acc p => assign p.1 p.2 acc) acc m = acc ++ m.
Proof.
  revert acc. induction m as [|[k v] m IH]; intros acc Hs; cbn [foldl]; [by rewrite app_nil_r|].
  assert (assign k v acc = acc ++ [(k, v)]) as E.
  { apply assign_last. apply sorted_app_inv in Hs. eapply Forall_impl; [exact Hs|].
    intros p Hp. by apply Forall_cons in Hp as [? _]. }
  cbn [fst snd]. rewrite E, IH; rewrite <- app_assoc; done.
Qed.
(** Erasing by a test on the key. *)
Lemma Forall_filter_list (P : Z * V -> Prop) f m : Forall P m -> Forall P (List.filter f m).
Proof. induction 1 as [|p m Hp _ IH]; cbn [List.filter]; [done|]. destruct (f p); [by constructor|done]. Qed.

Lemma sorted_filter f m : sorted m -> sorted (List.filter f m).
Proof.
  induction m as [|p m IH]; intros Hs; [done|]. apply sorted_cons in Hs as [Hs Hf]. cbn [List.filter].
  destruct (f p); [|by apply IH]. apply sorted_cons. split; [by apply IH|by apply Forall_filter_list].
Qed.

Lemma find_filter (f : Z -> bool) m k : find k (List.filter (fun p => f p.1) m) = if f k then find k m else None.
Proof.
  induction m as [|[k' v'] m IH]; cbn [List.filter find fst]; [by destruct (f k)|].
  destruct (f k') eqn:E; cbn [find]; destruct (Z.eqb_spec k k') as [->|]; rewrite ?E; [done|done|by rewrite IH, E|done].
Qed.

Lemma find_elem k v m : find k m = Some v -> (k, v) ∈ m.
Proof.
  induction m as [|[k' v'] m IH]; cbn [find]; [done|]. destruct (Z.eqb_spec k k') as [->|]; [intros [= ->]; by left|]. intros H. right. by apply IH.
Qed.

Lemma elem_find k v m : sorted m -> (k, v) ∈ m -> find k m = Some v.
Proof.
  induction m as [|[k' v'] m IH]; intros Hs; [by intros ?%elem_of_nil|]. apply sorted_cons in Hs as [Hs Hf]. cbn [find].
  intros [[= -> ->]|Hin]%elem_of_cons; [by rewrite Z.eqb_refl|].
  pose proof (proj1 (Forall_forall _ _) Hf _ Hin) as Hlt. cbn in Hlt. rewrite (proj2 (Z.eqb_neq k k')) by lia. by apply IH.
Qed.
End ordmap.

#[export] Hint Resolve sorted_assign sorted_emplace : cs.
