(* ===== verification/Text.v ===== *)
(** * Decimal text

    What the sources use of the C and C++ libraries to print and to read
    decimal integers: [operator<<] on an unsigned integer ([print_u]) and
    [strtoumax] in base ten.  Text is the list of its character codes; a C
    string ends at its first zero or at the end of the list. *)

From Stdlib Require Import ZArith Lia.
From stdpp Require Import base tactics numbers option list.
From S2P Require Import Prelude.

Local Open Scope Z_scope.

Definition isdigit (c : Z) : bool := (48 <=? c) && (c <=? 57).
Definition isspace (c : Z) : bool := (c =? 32) || ((9 <=? c) && (c <=? 13)).

(** ** Printing: [fuel] digits are enough for numbers below [10 ^ fuel]. *)

Fixpoint print_digits (fuel : nat) (z : Z) (acc : bytes) : bytes :=
  match fuel with
  | O => acc
  | S fuel' =>
      let acc := 48 + z mod 10 :: acc in
      if z / 10 =? 0 then acc else print_digits fuel' (z / 10) acc
  end.

(** A 64-bit unsigned integer has at most 20 digits. *)
Definition print_u (z : Z) : bytes := print_digits 20 z [].

(** ** Reading *)

Fixpoint read_digits (acc : Z) (s : bytes) : Z * bytes :=
  match s with
  | c :: s' => if isdigit c then read_digits (10 * acc + (c - 48)) s' else (acc, s)
  | [] => (acc, [])
  end.

Fixpoint skip_spaces (s : bytes) : bytes :=
  match s with
  | c :: s' => if isspace c then skip_spaces s' else s
  | [] => []
  end.

Definition UINTMAX_MAX : Z := 2 ^ 64 - 1.

(** [strtoumax(s, &end, 10)]: the value and the text from [end] on. *)
Definition strtoumax (s : bytes) : Z * bytes :=
  let s1 := skip_spaces s in
  let '(neg, s2) :=
    match s1 with
    | 45 :: s' => (true, s')
    | 43 :: s' => (false, s')
    | _ => (false, s1)
    end in
  match s2 with
  | c :: _ =>
      if isdigit c then
        let '(v, rest) := read_digits 0 s2 in
        (if UINTMAX_MAX <? v then UINTMAX_MAX else if neg then uwrap 64 (- v) else v, rest)
      else (0, s)
  | [] => (0, s)
  end.

(** ** Reading back what was printed *)

Definition digits (s : bytes) : Prop := Forall (fun c => isdigit c = true) s.

Lemma digit_isdigit z : isdigit (48 + z mod 10) = true.
Proof. unfold isdigit. apply andb_true_iff; rewrite !Z.leb_le. machine_lia. Qed.

Lemma print_digits_app fuel z acc : print_digits fuel z acc = print_digits fuel z [] ++ acc.
Proof.
  revert z acc. induction fuel as [|n IH]; intros z acc; cbn [print_digits]; [done|].
  destruct (z / 10 =? 0); [done|]. rewrite IH, (IH _ [_]). by rewrite <- app_assoc.
Qed.

Lemma print_digits_digits fuel z : digits (print_digits fuel z []).
Proof.
  revert z. induction fuel as [|n IH]; intros z; cbn [print_digits]; [constructor|].
  assert (digits [48 + z mod 10]) by (constructor; [apply digit_isdigit|constructor]).
  destruct (z / 10 =? 0); [done|]. rewrite print_digits_app. apply Forall_app; split; [apply IH|done].
Qed.

Lemma print_digits_nonempty fuel z : exists c s, print_digits (S fuel) z [] = c :: s.
Proof.
  cbn [print_digits]. destruct (z / 10 =? 0); [by eexists _, _|].
  rewrite print_digits_app. destruct (print_digits fuel (z / 10) []) as [|c s]; by eexists _, _.
Qed.

Lemma read_digits_app acc s t :
  digits s -> read_digits acc (s ++ t) = read_digits (fst (read_digits acc s)) t.
Proof.
  intros Hs. revert acc. induction Hs as [|c s Hc _ IH]; intros acc; [done|].
  cbn [app read_digits]. rewrite Hc. apply IH.
Qed.

Lemma read_digits_stop acc t : (forall c t', t = c :: t' -> isdigit c = false) -> read_digits acc t = (acc, t).
Proof. destruct t as [|c t]; intros H; cbn; [done|]. by rewrite (H c t). Qed.

Lemma read_print_digits fuel z :
  0 <= z < 10 ^ Z.of_nat fuel -> read_digits 0 (print_digits fuel z []) = (z, []).
Proof.
  revert z. induction fuel as [|n IH]; intros z Hz; cbn [print_digits].
  - cbn in Hz. cbn. assert (z = 0) as -> by lia. done.
  - rewrite Nat2Z.inj_succ, Z.pow_succ_r in Hz by lia.
    destruct (Z.eqb_spec (z / 10) 0) as [E|E].
    + cbn [read_digits]. rewrite digit_isdigit. repeat f_equal. machine_lia.
    + rewrite print_digits_app, read_digits_app by apply print_digits_digits.
      rewrite IH by machine_lia. cbn [fst read_digits]. rewrite digit_isdigit. repeat f_equal. machine_lia.
Qed.

Lemma print_u_digits z : digits (print_u z).
Proof. apply print_digits_digits. Qed.

Lemma digit_not_space c : isdigit c = true -> isspace c = false /\ c <> 45 /\ c <> 43 /\ c <> 58 /\ c <> 0.
Proof.
  unfold isdigit, isspace. rewrite andb_true_iff, !Z.leb_le. intros Hc.
  split_and!; lia.
Qed.

(** [strtoumax] reads a printed number up to the next character that is not a digit. *)
Lemma strtoumax_print z t :
  in_u 64 z -> (forall c t', t = c :: t' -> isdigit c = false) -> strtoumax (print_u z ++ t) = (z, t).
Proof.
  intros Hz Ht. pose proof (print_u_digits z) as Hd. unfold strtoumax.
  assert (read_digits 0 (print_u z ++ t) = (z, t)) as Hr.
  { rewrite read_digits_app by done. unfold print_u. rewrite read_print_digits by (unfold in_u in Hz; lia).
    by apply read_digits_stop. }
  unfold print_u in *. destruct (print_digits_nonempty 19 z) as (c & s & E). rewrite E in *.
  apply Forall_cons in Hd as [Hc _]. pose proof (digit_not_space c Hc) as (Hsp & H1 & H2 & _).
  cbn [app skip_spaces]. rewrite Hsp.
  assert (match c :: s ++ t with | 45 :: s' => (true, s') | 43 :: s' => (false, s') | _ => (false, c :: s ++ t) end
    = (false, c :: s ++ t)) as Hm.
  { unfold isdigit in Hc. apply andb_true_iff in Hc as [Hc1 Hc2]. apply Z.leb_le in Hc1, Hc2.
    assert (Hcs : In c [48;49;50;51;52;53;54;55;56;57]) by (cbn; lia).
    cbn in Hcs. repeat destruct Hcs as [<-|Hcs]; done. }
  cbn [app] in Hr, Hm |- *. rewrite Hm, Hc, Hr.
  destruct (Z.ltb_spec UINTMAX_MAX z) as [Hlt|_]; [|done]. unfold UINTMAX_MAX, in_u in *. lia.
Qed.
