(* ===== verification/Math128.v ===== *)
(** * 128-bit arithmetic ([csdb/include/csdb/internal/math128ce.hpp])

    [uint128_t] is the pair of 64-bit halves the amounts are multiplied and
    divided with.  Every operation works on the halves with 64-bit wrap-around
    exactly as the constexpr functions do; the theorems relate them to [Z]. *)

From Stdlib Require Import ZArith Lia.
From stdpp Require Import base tactics numbers list.
From S2P Require Import Prelude.

Local Open Scope Z_scope.
Local Open Scope cs_scope.

Record uint128_t := mk128 { lo_ : Z; hi_ : Z }.

Record division64_result := mkDiv { quotient_ : uint128_t; remainder_ : Z }.

Definition max64 : Z := 18446744073709551615.

(** [operator+(uint64_t)]: the carry is computed without overflowing. *)
Definition add64 (x : uint128_t) (summand : Z) : uint128_t :=
  if max64 - lo_ x <? summand
  then mk128 (u64 (lo_ x - u64 (max64 - summand + 1))) (u64 (hi_ x + 1))
  else mk128 (u64 (lo_ x + summand)) (hi_ x).

(** [operator+(const uint128_t&)] *)
Definition add128 (x summand : uint128_t) : uint128_t :=
  if max64 - lo_ x <? lo_ summand
  then mk128 (u64 (lo_ x - u64 (max64 - lo_ summand + 1))) (u64 (hi_ x + hi_ summand + 1))
  else mk128 (u64 (lo_ x + lo_ summand)) (u64 (hi_ x + hi_ summand)).

Definition mul2 (ac ad bc bd : Z) : uint128_t :=
  add64 (add64 (mk128 bd (u64 (ac + Z.shiftr ad 32 + Z.shiftr bc 32)))
               (u64 (Z.shiftl ad 32)))
        (u64 (Z.shiftl bc 32)).

Definition mul1 (a b c d : Z) : uint128_t :=
  mul2 (u64 (a * c)) (u64 (a * d)) (u64 (b * c)) (u64 (b * d)).

Definition mul (a b : Z) : uint128_t :=
  mul1 (Z.shiftr a 32) (Z.land a 4294967295) (Z.shiftr b 32) (Z.land b 4294967295).

Definition div3 (previous : division64_result) (divisor bit dividend : Z) : division64_result :=
  if Z.land 9223372036854775808 (remainder_ previous) =? 0
  then mkDiv (mk128 (u64 (lo_ (quotient_ previous) + (if dividend <? divisor then 0 else bit)))
                    (hi_ (quotient_ previous)))
             (dividend mod divisor)
  else mkDiv (mk128 (u64 (lo_ (quotient_ previous) + bit)) (hi_ (quotient_ previous)))
             (u64 (max64 - divisor + dividend + 1)).

Definition div2 (x : uint128_t) (previous : division64_result) (divisor : Z) (shift : nat) : division64_result :=
  div3 previous divisor (u64 (Z.shiftl 1 (Z.of_nat shift)))
       (u64 (u64 (Z.shiftl (remainder_ previous) 1)
             + Z.land (Z.shiftr (lo_ x) (Z.of_nat shift)) 1)).

Fixpoint div1 (x : uint128_t) (previous : division64_result) (divisor : Z) (shift : nat) : division64_result :=
  match shift with
  | O => div2 x previous divisor O
  | S s => div1 x (div2 x previous divisor shift) divisor s
  end.

Definition div (x : uint128_t) (divisor : Z) : result division64_result :=
  if 0 =? divisor then Throw overflow_error
  else if 1 =? divisor then Ok (mkDiv x 0)
  else Ok (div1 x (mkDiv (mk128 0 (hi_ x / divisor)) (hi_ x mod divisor)) divisor 63).

(** ** Specification *)

Definition uval (x : uint128_t) : Z := lo_ x + 2 ^ 64 * hi_ x.
Definition wf128 (x : uint128_t) : Prop := in_u 64 (lo_ x) /\ in_u 64 (hi_ x).

Lemma uval_range x : wf128 x -> 0 <= uval x < 2 ^ 128.
Proof. unfold wf128, uval, in_u. lia. Qed.

Lemma add64_spec x s :
  wf128 x -> in_u 64 s -> uval x + s < 2 ^ 128 ->
  wf128 (add64 x s) /\ uval (add64 x s) = uval x + s.
Proof.
  destruct x as [lo hi]. unfold wf128, uval, add64, max64; cbn [lo_ hi_]. intros [Hl Hh] Hs Hb.
  case_match; cbn [lo_ hi_]; machine_lia.
Qed.

Lemma add128_spec x y :
  wf128 x -> wf128 y -> uval x + uval y < 2 ^ 128 ->
  wf128 (add128 x y) /\ uval (add128 x y) = uval x + uval y.
Proof.
  destruct x as [lo hi], y as [lo' hi']. unfold wf128, uval, add128, max64; cbn [lo_ hi_].
  intros [Hl Hh] [Hl' Hh'] Hb. case_match; cbn [lo_ hi_]; machine_lia.
Qed.

Lemma low32_spec a : Z.land a 4294967295 = a mod 2 ^ 32.
Proof. change 4294967295 with (Z.ones 32). by rewrite Z.land_ones. Qed.

Lemma mul_halves_bound a b :
  0 <= a < 2 ^ 32 -> 0 <= b < 2 ^ 32 -> 0 <= a * b <= (2 ^ 32 - 1) * (2 ^ 32 - 1).
Proof. nia. Qed.

Lemma mul2_spec ac ad bc bd :
  0 <= ac <= (2 ^ 32 - 1) * (2 ^ 32 - 1) -> 0 <= ad <= (2 ^ 32 - 1) * (2 ^ 32 - 1) ->
  0 <= bc <= (2 ^ 32 - 1) * (2 ^ 32 - 1) -> 0 <= bd <= (2 ^ 32 - 1) * (2 ^ 32 - 1) ->
  wf128 (mul2 ac ad bc bd) /\
  uval (mul2 ac ad bc bd) = bd + 2 ^ 32 * (ad + bc) + 2 ^ 64 * ac.
Proof.
  intros Hac Had Hbc Hbd. unfold mul2.
  rewrite !Z.shiftl_mul_pow2, !Z.shiftr_div_pow2 by lia.
  set (x0 := mk128 bd _).
  assert (wf128 x0 /\ uval x0 = bd + 2 ^ 64 * (ac + ad / 2 ^ 32 + bc / 2 ^ 32)) as [W0 V0].
  { unfold wf128, uval, x0; cbn [lo_ hi_]. machine_lia. }
  assert (u64 (ad * 2 ^ 32) = 2 ^ 32 * (ad mod 2 ^ 32)) as E1 by machine_lia.
  assert (u64 (bc * 2 ^ 32) = 2 ^ 32 * (bc mod 2 ^ 32)) as E2 by machine_lia.
  rewrite E1, E2.
  destruct (add64_spec x0 (2 ^ 32 * (ad mod 2 ^ 32))) as [W1 V1]; [done|machine_lia|machine_lia|].
  destruct (add64_spec (add64 x0 (2 ^ 32 * (ad mod 2 ^ 32))) (2 ^ 32 * (bc mod 2 ^ 32)))
    as [W2 V2]; [done|machine_lia|machine_lia|].
  split; [done|]. rewrite V2, V1, V0. machine_lia.
Qed.

(** The schoolbook product of two 64-bit numbers is exact. *)
Lemma mul_spec a b :
  in_u 64 a -> in_u 64 b -> wf128 (mul a b) /\ uval (mul a b) = a * b.
Proof.
  intros Ha Hb. unfold mul, mul1. rewrite !low32_spec, !Z.shiftr_div_pow2 by lia.
  assert (0 <= a / 2 ^ 32 < 2 ^ 32) as Hah by machine_lia.
  assert (0 <= a mod 2 ^ 32 < 2 ^ 32) as Hal by machine_lia.
  assert (0 <= b / 2 ^ 32 < 2 ^ 32) as Hbh by machine_lia.
  assert (0 <= b mod 2 ^ 32 < 2 ^ 32) as Hbl by machine_lia.
  assert (a = 2 ^ 32 * (a / 2 ^ 32) + a mod 2 ^ 32) as Ea by machine_lia.
  assert (b = 2 ^ 32 * (b / 2 ^ 32) + b mod 2 ^ 32) as Eb by machine_lia.
  set (ah := a / 2 ^ 32) in *. set (al := a mod 2 ^ 32) in *.
  set (bh := b / 2 ^ 32) in *. set (bl := b mod 2 ^ 32) in *. clearbody ah al bh bl.
  pose proof (mul_halves_bound ah bh Hah Hbh). pose proof (mul_halves_bound ah bl Hah Hbl).
  pose proof (mul_halves_bound al bh Hal Hbh). pose proof (mul_halves_bound al bl Hal Hbl).
  rewrite !(uwrap_id 64) by (unfold in_u; lia).
  destruct (mul2_spec (ah * bh) (ah * bl) (al * bh) (al * bl)) as [W V]; try lia.
  split; [done|]. rewrite V, Ea, Eb. ring.
Qed.

(** ** Division

    [div_inv x d s p]: [p] is the state of the bit-by-bit division after the
    bits of [lo_ x] from 63 down to [s] were consumed. *)
Definition div_inv (x : uint128_t) (d s : Z) (p : division64_result) : Prop :=
  hi_ (quotient_ p) = hi_ x / d /\ 0 <= remainder_ p < d /\
  exists k, 0 <= k < 2 ^ (64 - s) /\ lo_ (quotient_ p) = 2 ^ s * k /\
    (hi_ x mod d) * 2 ^ (64 - s) + lo_ x / 2 ^ s = k * d + remainder_ p.

Lemma top_bit_clear r : in_u 64 r -> (Z.land 9223372036854775808 r =? 0) = (r <? 2 ^ 63).
Proof.
  intros Hr. rewrite Z.land_comm. change 9223372036854775808 with (2 ^ 63).
  rewrite land_pow2_eqb, testbit_odd by done. unfold in_u in Hr.
  destruct (Z.ltb_spec r (2 ^ 63)) as [Hlt|Hge].
  - by rewrite Z.div_small by lia.
  - replace (r / 2 ^ 63) with 1; [done|]. machine_lia.
Qed.

Lemma land_1_mod z : Z.land z 1 = z mod 2.
Proof. change 1 with (Z.ones 1) at 1. by rewrite Z.land_ones. Qed.

(** One step of the division: [2 * r + bit] is divided by [d], whether or not
    the shifted remainder overflows 64 bits. *)
Lemma div3_spec p d bit b :
  in_u 64 d -> 0 <= remainder_ p < d -> 0 <= b <= 1 ->
  0 <= lo_ (quotient_ p) -> lo_ (quotient_ p) + bit < 2 ^ 64 -> 0 < bit ->
  let p' := div3 p d bit (u64 (u64 (Z.shiftl (remainder_ p) 1) + b)) in
  exists c, 0 <= c <= 1 /\ hi_ (quotient_ p') = hi_ (quotient_ p) /\
    lo_ (quotient_ p') = lo_ (quotient_ p) + c * bit /\
    0 <= remainder_ p' < d /\ 2 * remainder_ p + b = c * d + remainder_ p'.
Proof.
  intros Hd Hr Hb Hlo Hbit Hbp. unfold div3. rewrite Z.shiftl_mul_pow2 by lia.
  rewrite top_bit_clear by (unfold in_u in *; lia).
  set (r := remainder_ p) in *. set (q := lo_ (quotient_ p)) in *. clearbody r q.
  destruct (Z.ltb_spec r (2 ^ 63)) as [Hs|Hs]; cbn [quotient_ remainder_ lo_ hi_].
  - assert (u64 (u64 (r * 2 ^ 1) + b) = 2 * r + b) as -> by machine_lia.
    destruct (Z.ltb_spec (2 * r + b) d) as [Hlt|Hge].
    + exists 0. rewrite (Z.mod_small (2 * r + b)) by lia. machine_lia.
    + exists 1. assert ((2 * r + b) mod d = 2 * r + b - d) as ->.
      { symmetry. apply Z.mod_unique_pos with 1; lia. }
      machine_lia.
  - exists 1. unfold max64. machine_lia.
Qed.

Lemma lo_step lo s : 0 <= s -> lo / 2 ^ s = 2 * (lo / 2 ^ (s + 1)) + (lo / 2 ^ s) mod 2.
Proof.
  intros Hs. assert (0 < 2 ^ s) by (apply Z.pow_pos_nonneg; lia).
  rewrite Z.pow_add_r by lia. rewrite <- (Z.div_div lo (2 ^ s) (2 ^ 1)) by lia.
  pose proof (Z.div_mod (lo / 2 ^ s) 2). change (2 ^ 1) with 2. lia.
Qed.

Lemma div2_inv x d s p :
  wf128 x -> in_u 64 d -> (s <= 63)%nat ->
  div_inv x d (Z.of_nat s + 1) p -> div_inv x d (Z.of_nat s) (div2 x p d s).
Proof.
  intros [Hlo Hhi] Hd Hs (Hq & Hr & k & Hk & Hl & E). unfold div2.
  rewrite Z.shiftl_1_l, land_1_mod, (Z.shiftr_div_pow2 (lo_ x)) by lia.
  set (z := Z.of_nat s) in *. assert (0 <= z <= 63) as Hz by lia.
  assert (0 < 2 ^ z) as Hpz by (apply Z.pow_pos_nonneg; lia).
  assert (2 ^ (z + 1) = 2 * 2 ^ z) as E1 by (rewrite Z.pow_add_r by lia; lia).
  assert (2 ^ (64 - z) = 2 * 2 ^ (64 - (z + 1))) as E2.
  { rewrite <- Z.pow_succ_r by lia. f_equal. lia. }
  assert (2 ^ 64 = 2 ^ (z + 1) * 2 ^ (64 - (z + 1))) as E3.
  { rewrite <- Z.pow_add_r by lia. f_equal. lia. }
  assert (2 ^ z * 2 * (k + 1) <= 2 ^ 64) as Hk2 by nia.
  pose proof (Z.mod_pos_bound (lo_ x / 2 ^ z) 2).
  rewrite (uwrap_id 64 (2 ^ z)) by (unfold in_u; nia).
  destruct (div3_spec p d (2 ^ z) ((lo_ x / 2 ^ z) mod 2)) as (c & Hc & Hh' & Hl' & Hr' & E');
    [done|done|lia|nia|nia|done|].
  set (p' := div3 _ _ _ _) in *. split; [congruence|]. split; [done|].
  exists (2 * k + c). repeat split; [lia|lia|rewrite Hl', Hl; nia|].
  rewrite (lo_step (lo_ x) z), E2 by lia. nia.
Qed.

Lemma div1_inv x d s p :
  wf128 x -> in_u 64 d -> (s <= 63)%nat ->
  div_inv x d (Z.of_nat s + 1) p -> div_inv x d 0 (div1 x p d s).
Proof.
  intros Hx Hd. revert p. induction s as [|s IH]; intros p Hs Hi; cbn [div1].
  - by apply (div2_inv x d 0 p).
  - apply IH; [lia|]. replace (Z.of_nat s + 1) with (Z.of_nat (S s)) by lia.
    by apply div2_inv.
Qed.

(** The long division is the Euclidean division for every non-zero divisor,
    the ones above 2^63, whose shifted remainder overflows, included. *)
Lemma div_spec x d :
  wf128 x -> in_u 64 d -> d <> 0 ->
  exists r, div x d = Ok r /\ wf128 (quotient_ r) /\
    uval (quotient_ r) = uval x / d /\ remainder_ r = uval x mod d.
Proof.
  intros Hx Hd Hd0. unfold div.
  destruct (Z.eqb_spec 0 d) as [|_]; [lia|].
  destruct (Z.eqb_spec 1 d) as [<-|Hd1].
  { eexists; split; [done|]. cbn. rewrite Z.div_1_r, Z.mod_1_r. done. }
  eexists; split; [done|].
  set (p := mkDiv (mk128 0 (hi_ x / d)) (hi_ x mod d)).
  assert (div_inv x d 64 p) as H64.
  { pose proof (Z.mod_pos_bound (hi_ x) d). unfold in_u in *. destruct Hx as [Hlx Hhx].
    split; [done|]. split; [cbn; lia|]. exists 0. cbn [quotient_ lo_ remainder_ p].
    unfold in_u in *. rewrite Z.div_small by lia. change (64 - 64) with 0. lia. }
  destruct (div1_inv x d 63 p Hx Hd ltac:(lia) H64) as (Hq & Hr & k & Hk & Hl & E).
  set (r := div1 x p d 63) in *. clearbody r.
  change (64 - 0) with 64 in *. rewrite Z.pow_0_r, Z.div_1_r in E. rewrite Z.pow_0_r in Hl.
  destruct Hx as [Hlx Hhx]. unfold in_u in *.
  assert (uval x = d * uval (quotient_ r) + remainder_ r) as Ev.
  { unfold uval. rewrite Hl, Hq. pose proof (Z.div_mod (hi_ x) d). nia. }
  assert (0 <= hi_ x / d < 2 ^ 64).
  { split; [apply Z.div_pos; lia|]. apply Z.div_lt_upper_bound; nia. }
  split; [split; unfold in_u; lia|].
  split; [apply Z.div_unique_pos with (remainder_ r)|apply Z.mod_unique_pos with (uval (quotient_ r))]; lia.
Qed.
