(* ===== verification/BinStream.v ===== *)
(** * Binary streams ([csdb/src/binary_streams.hpp], [binary_streams.cpp])

    An [obstream] is its buffer; [put] appends.  An [ibstream] is the bytes not
    read yet ([data_], [size_]); [get] returns the value read and the rest of
    the stream, or [None] when the C++ method returns [false] (every caller
    then gives the whole object up).

    A [codec] packs the [put]/[get] pair of one C++ type with the values it
    represents faithfully; [CodecOk] is what a type's serialisation promises
    to the types that contain it: [put] appends, [get] reads back what [put]
    wrote and leaves the rest of the stream, and [get] does not look past what
    it consumes.  From these three laws alone follow that every codec is
    prefix-free ([codec_prefix]: truncated input is always rejected) and
    injective ([codec_inj]). *)

From Stdlib Require Import ZArith Lia.
From stdpp Require Import base tactics numbers option list.
From S2P Require Import Prelude OrdMap.

Local Open Scope Z_scope.

Definition obstream := bytes.
Definition ibstream := bytes.

(** ** Reading: the option-state steps of a chain of [get]s *)

Notation "'let?' x ':=' m 'in' k" := (match m with Some x => k | None => None end)
  (at level 10, x pattern, m at level 100, k at level 200) : cs_scope.
Local Open Scope cs_scope.

Record codec (A : Type) := mkCodec {
  put : A -> obstream -> obstream;
  get : ibstream -> option (A * ibstream);
  wf : A -> Prop
}.
Arguments put {A} c a os : rename.
Arguments get {A} c ist : rename.
Arguments wf {A} c a : rename.

Definition enc {A} (c : codec A) (a : A) : bytes := put c a [].

Class CodecOk {A} (c : codec A) : Prop := {
  put_app : forall a os, put c a os = os ++ enc c a;
  get_put : forall a rest, wf c a -> get c (enc c a ++ rest) = Some (a, rest);
  get_app : forall s a r x, get c s = Some (a, r) -> get c (s ++ x) = Some (a, r ++ x)
}.

Section codec_laws.
Context {A} (c : codec A) `{!CodecOk c}.

Lemma get_put_nil a : wf c a -> get c (enc c a) = Some (a, []).
Proof. intros H. rewrite <- (app_nil_r (enc c a)). by apply get_put. Qed.

(** A strict prefix of an encoding is rejected. *)
Lemma codec_prefix a p x : wf c a -> enc c a = p ++ x -> x <> [] -> get c p = None.
Proof.
  intros Hw E Hx. destruct (get c p) as [[b r]|] eqn:G; [|done].
  apply (get_app p b r x) in G. rewrite <- E, get_put_nil in G by done.
  injection G as _ G. by destruct r, x.
Qed.

Lemma codec_inj a b : wf c a -> wf c b -> enc c a = enc c b -> a = b.
Proof.
  intros Ha Hb E. pose proof (get_put_nil a Ha) as Ga. rewrite E, get_put_nil in Ga by done.
  congruence.
Qed.

(** The encodings of two values are never prefixes of one another. *)
Lemma codec_inj_app a b r s :
  wf c a -> wf c b -> enc c a ++ r = enc c b ++ s -> a = b /\ r = s.
Proof.
  intros Ha Hb E. pose proof (get_put a r Ha) as Ga. rewrite E, get_put in Ga by done.
  split; congruence.
Qed.
End codec_laws.

(** ** Fixed-width integers and raw buffers *)

(** [obstream::put(T)] for integral [T] of [n] bytes. *)
Definition put_int (n : nat) (value : Z) (os : obstream) : obstream := os ++ le_bytes n value.

(** [ibstream::get(T&)] for unsigned [T] of [n] bytes. *)
Definition get_uint (n : nat) (ist : ibstream) : option (Z * ibstream) :=
  if (n <=? length ist)%nat then Some (le_val (take n ist), drop n ist) else None.

(** The same read at a signed type. *)
Definition get_sint (n : nat) (ist : ibstream) : option (Z * ibstream) :=
  if (n <=? length ist)%nat
  then Some (swrap (8 * Z.of_nat n) (le_val (take n ist)), drop n ist) else None.

(** [obstream::put(const cs::ByteArray<Size>&)], [put(const void*, size_t)] *)
Definition put_array (value : bytes) (os : obstream) : obstream := os ++ value.

(** [ibstream::get(cs::ByteArray<Size>&)] *)
Definition get_array (size : nat) (ist : ibstream) : option (bytes * ibstream) :=
  if (length ist <? size)%nat then None else Some (take size ist, drop size ist).

(** [ibstream::get(void*, size_t)]: copies [size] bytes out. *)
Definition get_raw (size : nat) (ist : ibstream) : option (bytes * ibstream) :=
  if (length ist <? size)%nat then None else Some (take size ist, drop size ist).

Definition uint_codec (n : nat) : codec Z :=
  mkCodec Z (put_int n) (get_uint n) (fun z => 0 <= z < 256 ^ Z.of_nat n).
Definition sint_codec (n : nat) : codec Z :=
  mkCodec Z (put_int n) (get_sint n) (fun z => in_s (8 * Z.of_nat n) z).
Definition array_codec (size : nat) : codec bytes :=
  mkCodec bytes put_array (get_array size) (fun b => length b = size).

Lemma get_prefix_len {B} (n : nat) (f : bytes -> B) s (x : bytes) b r :
  (if (n <=? length s)%nat then Some (f (take n s), drop n s) else None) = Some (b, r) ->
  (if (n <=? length (s ++ x))%nat then Some (f (take n (s ++ x)), drop n (s ++ x)) else None)
    = Some (b, r ++ x).
Proof.
  destruct (Nat.leb_spec n (length s)) as [Hn|]; [|done]. intros [= <- <-].
  rewrite length_app, take_app_le, drop_app_le by lia.
  destruct (Nat.leb_spec n (length s + length x)); [done|lia].
Qed.

Lemma ltb_leb_swap {B} (a b : nat) (x y : B) :
  (if (a <? b)%nat then x else y) = if (b <=? a)%nat then y else x.
Proof. destruct (Nat.ltb_spec a b), (Nat.leb_spec b a); [lia|done|done|lia]. Qed.

Lemma get_exact {B} n (f : bytes -> B) l rest :
  length l = n ->
  (if (n <=? length (l ++ rest))%nat then Some (f (take n (l ++ rest)), drop n (l ++ rest)) else None)
    = Some (f l, rest).
Proof.
  intros Hl. rewrite take_app_exact, drop_app_exact, length_app by done.
  destruct (Nat.leb_spec n (length l + length rest)); [done|lia].
Qed.

#[export] Instance uint_codec_ok n : CodecOk (uint_codec n).
Proof.
  split; unfold enc, uint_codec; cbn [put get wf]; unfold put_int, get_uint.
  - done.
  - intros a rest Ha. rewrite app_nil_l, (get_exact n le_val) by apply length_le_bytes.
    by rewrite le_val_bytes, Z.mod_small.
  - intros s a r x. apply (get_prefix_len n le_val).
Qed.

#[export] Instance sint_codec_ok n : CodecOk (sint_codec (S n)).
Proof.
  split; unfold enc, sint_codec; cbn [put get wf]; unfold put_int, get_sint.
  - done.
  - intros a rest Ha. rewrite app_nil_l.
    rewrite (get_exact (S n) (fun l => swrap (8 * Z.of_nat (S n)) (le_val l))) by apply length_le_bytes.
    rewrite le_val_bytes, pow256_pow2. fold (uwrap (8 * Z.of_nat (S n)) a).
    rewrite swrap_uwrap, swrap_id by (done || lia). done.
  - intros s a r x. apply (get_prefix_len (S n) (fun l => swrap (8 * Z.of_nat (S n)) (le_val l))).
Qed.

#[export] Instance array_codec_ok n : CodecOk (array_codec n).
Proof.
  split; unfold enc, array_codec; cbn [put get wf]; unfold put_array, get_array.
  - done.
  - intros a rest Ha. rewrite ltb_leb_swap, app_nil_l, (get_exact n (fun l => l)); done.
  - intros s a r x. rewrite !ltb_leb_swap. apply (get_prefix_len n (fun l => l)).
Qed.

Lemma wf_uint n z : in_u (8 * Z.of_nat n) z -> wf (uint_codec n) z.
Proof. unfold in_u. cbn [wf uint_codec]. by rewrite pow256_pow2. Qed.

Lemma wf_u8 z : in_u 8 z -> wf (uint_codec 1) z.
Proof. apply (wf_uint 1). Qed.
Lemma wf_u16 z : in_u 16 z -> wf (uint_codec 2) z.
Proof. apply (wf_uint 2). Qed.
Lemma wf_u32 z : in_u 32 z -> wf (uint_codec 4) z.
Proof. apply (wf_uint 4). Qed.
Lemma wf_u64 z : in_u 64 z -> wf (uint_codec 8) z.
Proof. apply (wf_uint 8). Qed.
#[export] Hint Resolve wf_u8 wf_u16 wf_u32 wf_u64 : cs.

(** ** Strings and byte vectors *)

(** [obstream::put(const std::string&)]: a 32-bit length, then the characters. *)
Definition put_string (value : bytes) (os : obstream) : obstream :=
  put_int 4 (u32 (Z.of_nat (length value))) os ++ value.

Definition get_string (ist : ibstream) : option (bytes * ibstream) :=
  let? (size, ist) := get_uint 4 ist in
  if Z.of_nat (length ist) <? size then None
  else Some (take (Z.to_nat size) ist, drop (Z.to_nat size) ist).

(** [obstream::put(const cs::Bytes&)]: a 64-bit length ([size_t]), then the bytes. *)
Definition put_bytes (value : bytes) (os : obstream) : obstream :=
  put_int 8 (Z.of_nat (length value)) os ++ value.

Definition get_bytes (ist : ibstream) : option (bytes * ibstream) :=
  let? (size, ist) := get_uint 8 ist in
  if Z.of_nat (length ist) <? size then None
  else Some (take (Z.to_nat size) ist, drop (Z.to_nat size) ist).

Definition string_codec : codec bytes :=
  mkCodec bytes put_string get_string (fun b => Z.of_nat (length b) < 2 ^ 32).
Definition bytes_codec : codec bytes :=
  mkCodec bytes put_bytes get_bytes (fun b => Z.of_nat (length b) < 2 ^ 64).

Lemma get_sized_app (size : Z) (ist x v r : bytes) :
  (if Z.of_nat (length ist) <? size then None
   else Some (take (Z.to_nat size) ist, drop (Z.to_nat size) ist)) = Some (v, r) ->
  (if Z.of_nat (length (ist ++ x)) <? size then None
   else Some (take (Z.to_nat size) (ist ++ x), drop (Z.to_nat size) (ist ++ x))) = Some (v, r ++ x).
Proof.
  destruct (Z.ltb_spec (Z.of_nat (length ist)) size) as [|Hs]; [done|]. intros [= <- <-].
  rewrite length_app, take_app_le, drop_app_le by lia.
  destruct (Z.ltb_spec (Z.of_nat (length ist + length x)) size); [lia|done].
Qed.

Lemma get_sized_exact (l rest : bytes) size :
  size = Z.of_nat (length l) ->
  (if Z.of_nat (length (l ++ rest)) <? size then None
   else Some (take (Z.to_nat size) (l ++ rest), drop (Z.to_nat size) (l ++ rest))) = Some (l, rest).
Proof.
  intros ->. rewrite Nat2Z.id, take_app_exact, drop_app_exact, length_app by done.
  case_match eqn:E; [|done]. apply Z.ltb_lt in E. lia.
Qed.

#[export] Instance string_codec_ok : CodecOk string_codec.
Proof.
  split; unfold enc, string_codec; cbn [put get wf]; unfold put_string, get_string.
  - intros a os. unfold put_int. by rewrite !app_nil_l, app_assoc.
  - intros a rest Ha. rewrite <- app_assoc.
    change (put_int 4 (u32 (Z.of_nat (length a))) []) with (enc (uint_codec 4) (u32 (Z.of_nat (length a)))).
    rewrite uwrap_id by (unfold in_u; lia).
    change (get_uint 4) with (get (uint_codec 4)). rewrite get_put by (cbn; lia).
    by apply get_sized_exact.
  - intros s a r x. change (get_uint 4) with (get (uint_codec 4)).
    destruct (get (uint_codec 4) s) as [[size ist]|] eqn:G; [|done].
    rewrite (get_app _ _ _ x G). apply get_sized_app.
Qed.

#[export] Instance bytes_codec_ok : CodecOk bytes_codec.
Proof.
  split; unfold enc, bytes_codec; cbn [put get wf]; unfold put_bytes, get_bytes.
  - intros a os. unfold put_int. by rewrite !app_nil_l, app_assoc.
  - intros a rest Ha. rewrite <- app_assoc.
    change (put_int 8 (Z.of_nat (length a)) []) with (enc (uint_codec 8) (Z.of_nat (length a))).
    change (get_uint 8) with (get (uint_codec 8)). rewrite get_put by (cbn; lia).
    by apply get_sized_exact.
  - intros s a r x. change (get_uint 8) with (get (uint_codec 8)).
    destruct (get (uint_codec 8) s) as [[size ist]|] eqn:G; [|done].
    rewrite (get_app _ _ _ x G). apply get_sized_app.
Qed.

(** ** Repeated elements

    [put_list] and [get_list] are the [for] loops over a [std::vector]. *)
Section lists.
Context {A} (c : codec A).

Fixpoint put_list (l : list A) (os : obstream) : obstream :=
  match l with
  | [] => os
  | a :: l' => put_list l' (put c a os)
  end.

Fixpoint get_list (cnt : nat) (ist : ibstream) : option (list A * ibstream) :=
  match cnt with
  | O => Some ([], ist)
  | S cnt' =>
      let? (a, ist) := get c ist in
      let? (l, ist) := get_list cnt' ist in
      Some (a :: l, ist)
  end.

Context `{!CodecOk c}.

Definition enc_list (l : list A) : bytes := put_list l [].

Lemma put_list_app l os : put_list l os = os ++ enc_list l.
Proof.
  unfold enc_list. revert os. induction l as [|a l IH]; intros os; cbn; [by rewrite app_nil_r|].
  rewrite put_app, (put_app a []), IH, (IH ([] ++ _)), app_nil_l, app_assoc. done.
Qed.

Lemma enc_list_cons a l : enc_list (a :: l) = enc c a ++ enc_list l.
Proof. unfold enc_list at 1. cbn [put_list]. by rewrite put_list_app. Qed.

Lemma enc_list_app l l' : enc_list (l ++ l') = enc_list l ++ enc_list l'.
Proof. induction l as [|a l IH]; cbn [app]; [done|]. by rewrite !enc_list_cons, IH, app_assoc. Qed.

Lemma get_list_put n l rest :
  n = length l -> Forall (wf c) l -> get_list n (enc_list l ++ rest) = Some (l, rest).
Proof.
  intros -> Hl. induction Hl as [|a l Ha _ IH]; [done|].
  rewrite enc_list_cons, <- app_assoc. cbn [length get_list]. by rewrite get_put, IH.
Qed.

Lemma get_list_mono n s l r x : get_list n s = Some (l, r) -> get_list n (s ++ x) = Some (l, r ++ x).
Proof.
  revert s l. induction n as [|n IH]; intros s l; cbn [get_list]; [by intros [= <- <-]|].
  destruct (get c s) as [[a s']|] eqn:G; [|done]. rewrite (get_app _ _ _ x G).
  destruct (get_list n s') as [[l' s'']|] eqn:G'; [|done]. intros [= <- <-].
  by rewrite (IH _ _ G').
Qed.

Lemma get_list_length n s l r : get_list n s = Some (l, r) -> length l = n.
Proof.
  revert s l. induction n as [|n IH]; intros s l; cbn [get_list]; [by intros [= <- <-]|].
  destruct (get c s) as [[a s']|]; [|done].
  destruct (get_list n s') as [[l' s'']|] eqn:G'; [|done]. intros [= <- <-].
  cbn. f_equal. by eapply IH.
Qed.
End lists.

(** ** Maps

    [obstream::put(const std::map&)]: the size as one byte, then the pairs in
    key order; [ibstream::get(std::map&)] emplaces them into a cleared map. *)
Section maps.
Context {V} (kc : codec Z) (vc : codec V).

Fixpoint put_pairs (m : list (Z * V)) (os : obstream) : obstream :=
  match m with
  | [] => os
  | (k, v) :: m' => put_pairs m' (put vc v (put kc k os))
  end.

Definition put_map (value : list (Z * V)) (os : obstream) : obstream :=
  put_pairs value (put_int 1 (u8 (Z.of_nat (length value))) os).

Fixpoint get_pairs (size : nat) (value : list (Z * V)) (ist : ibstream)
  : option (list (Z * V) * ibstream) :=
  match size with
  | O => Some (value, ist)
  | S size' =>
      let? (key, ist) := get kc ist in
      let? (val, ist) := get vc ist in
      get_pairs size' (emplace key val value) ist
  end.

Definition get_map (ist : ibstream) : option (list (Z * V) * ibstream) :=
  let? (size, ist) := get_uint 1 ist in
  get_pairs (Z.to_nat size) [] ist.

Definition wf_map (m : list (Z * V)) : Prop :=
  sorted m /\ Z.of_nat (length m) < 256 /\ Forall (fun p => wf kc p.1 /\ wf vc p.2) m.

Definition map_codec : codec (list (Z * V)) := mkCodec _ put_map get_map wf_map.

Context `{!CodecOk kc, !CodecOk vc}.

Definition enc_pairs (m : list (Z * V)) : bytes := put_pairs m [].

Lemma put_pairs_app m os : put_pairs m os = os ++ enc_pairs m.
Proof.
  unfold enc_pairs. revert os. induction m as [|[k v] m IH]; intros os; cbn [put_pairs].
  - by rewrite app_nil_r.
  - rewrite IH, (IH (put vc v _)), !(put_app v), !(put_app k). by rewrite app_nil_l, !app_assoc.
Qed.

Lemma enc_pairs_cons k v m : enc_pairs ((k, v) :: m) = enc kc k ++ enc vc v ++ enc_pairs m.
Proof.
  unfold enc_pairs at 1. cbn [put_pairs].
  by rewrite put_pairs_app, (put_app v), (put_app k), app_nil_l, app_assoc.
Qed.

Lemma get_pairs_put acc m rest :
  sorted (acc ++ m) -> Forall (fun p => wf kc p.1 /\ wf vc p.2) m ->
  get_pairs (length m) acc (enc_pairs m ++ rest) = Some (acc ++ m, rest).
Proof.
  revert acc. induction m as [|[k v] m IH]; intros acc Hs Hf; cbn [length get_pairs].
  - by rewrite app_nil_r.
  - apply Forall_cons in Hf as [[Hk Hv] Hf].
    rewrite enc_pairs_cons, <- !app_assoc, get_put, get_put by done.
    assert (emplace k v acc = acc ++ [(k, v)]) as ->.
    { apply emplace_last. apply sorted_app_inv in Hs.
      eapply Forall_impl; [exact Hs|]. intros p Hp. by apply Forall_cons in Hp as [? _]. }
    change ((k, v) :: m) with ([(k, v)] ++ m) in *. rewrite app_assoc in *. by apply IH.
Qed.

Lemma get_pairs_mono n acc s m r x :
  get_pairs n acc s = Some (m, r) -> get_pairs n acc (s ++ x) = Some (m, r ++ x).
Proof.
  revert acc s. induction n as [|n IH]; intros acc s; cbn [get_pairs]; [by intros [= <- <-]|].
  destruct (get kc s) as [[k s1]|] eqn:G1; [|done]. rewrite (get_app _ _ _ x G1).
  destruct (get vc s1) as [[v s2]|] eqn:G2; [|done]. rewrite (get_app _ _ _ x G2). apply IH.
Qed.

Lemma get_pairs_sorted n acc s m r :
  sorted acc -> get_pairs n acc s = Some (m, r) -> sorted m.
Proof.
  revert acc s. induction n as [|n IH]; intros acc s Ha; cbn [get_pairs]; [by intros [= <- <-]|].
  destruct (get kc s) as [[k s1]|]; [|done]. destruct (get vc s1) as [[v s2]|]; [|done].
  apply IH. by apply sorted_emplace.
Qed.

#[export] Instance map_codec_ok : CodecOk map_codec.
Proof.
  split; unfold enc, map_codec; cbn [put get wf]; unfold put_map, get_map.
  - intros m os. rewrite (put_pairs_app _ (put_int _ _ os)), (put_pairs_app _ (put_int _ _ [])).
    unfold put_int. by rewrite app_nil_l, app_assoc.
  - intros m rest (Hs & Hn & Hf). rewrite put_pairs_app, <- app_assoc.
    change (put_int 1 ?n []) with (enc (uint_codec 1) n).
    change (get_uint 1) with (get (uint_codec 1)).
    rewrite uwrap_id by (unfold in_u; lia). rewrite get_put by (cbn; lia).
    rewrite Nat2Z.id. by apply (get_pairs_put []).
  - intros s m r x. change (get_uint 1) with (get (uint_codec 1)).
    destruct (get (uint_codec 1) s) as [[n s']|] eqn:G; [|done]. rewrite (get_app _ _ _ x G).
    apply get_pairs_mono.
Qed.
End maps.

(** ** Automation for records

    A record's [put] is a sequence of [put]s and its [get] a chain of [let?]s.
    [codec_put] flattens the former to a concatenation of encodings,
    [codec_read] runs the latter over it, [codec_mono] proves the third law. *)

Ltac codec_wf := solve [eassumption | done | eauto with cs | cbn in *; machine_lia | cbn in *; eauto with cs].
Ltac codec_put := rewrite ?put_app, ?app_nil_l, <- ?app_assoc.
Ltac codec_read := repeat (rewrite get_put by codec_wf).
Ltac codec_mono :=
  repeat match goal with
  | |- context [match get ?c ?s with Some _ => _ | None => None end = Some _] =>
      let G := fresh "G" in
      destruct (get c s) as [[? ?]|] eqn:G; [rewrite (get_app _ _ _ _ G)|done]
  end.

(** ** [obstream::put_smart]

    The map as it is signed: its size, then the [put_for_sig] of the values,
    without the keys. *)
Section smart.
Context {V} (put_for_sig : V -> obstream -> obstream).

Fixpoint put_values (m : list (Z * V)) (os : obstream) : obstream :=
  match m with
  | [] => os
  | (_, v) :: m' => put_values m' (put_for_sig v os)
  end.

Definition put_smart (value : list (Z * V)) (os : obstream) : obstream :=
  put_values value (put_int 1 (u8 (Z.of_nat (length value))) os).

Context (put_for_sig_app : forall v os, put_for_sig v os = os ++ put_for_sig v []).

Lemma put_values_app m os : put_values m os = os ++ put_values m [].
Proof using put_for_sig_app.
  revert os. induction m as [|[k v] m IH]; intros os; cbn [put_values]; [by rewrite app_nil_r|].
  rewrite IH, (put_for_sig_app v os), <- app_assoc. f_equal. by rewrite (IH (put_for_sig v [])).
Qed.

Lemma put_values_cons k v m : put_values ((k, v) :: m) [] = put_for_sig v [] ++ put_values m [].
Proof using put_for_sig_app. cbn [put_values]. apply put_values_app. Qed.
End smart.

(** ** Pairs and counted lists *)

Definition pair_codec {A B} (ca : codec A) (cb : codec B) : codec (A * B) :=
  mkCodec (A * B) (fun p os => put cb p.2 (put ca p.1 os))
    (fun ist => let? (a, ist) := get ca ist in let? (b, ist) := get cb ist in Some ((a, b), ist))
    (fun p => wf ca p.1 /\ wf cb p.2).

#[export] Instance pair_codec_ok {A B} (ca : codec A) (cb : codec B) `{!CodecOk ca, !CodecOk cb} :
  CodecOk (pair_codec ca cb).
Proof.
  split; unfold enc, pair_codec; cbn [put get wf].
  - intros [a b] os. cbn [fst snd]. rewrite !(put_app b), (put_app a os), (put_app a []). by rewrite app_nil_l, app_assoc.
  - intros [a b] rest [Ha Hb]. cbn [fst snd] in *. rewrite (put_app b), (put_app a), app_nil_l, <- app_assoc.
    by rewrite !get_put.
  - intros s [a b] r x. codec_mono. by intros [= <- <- <-].
Qed.

(** A count of [n] bytes, then the elements. *)
Definition list_codec {A} (n : nat) (c : codec A) : codec (list A) :=
  mkCodec (list A)
    (fun l os => put_list c l (put (uint_codec n) (uwrap (8 * Z.of_nat n) (Z.of_nat (length l))) os))
    (fun ist => let? (cnt, ist) := get (uint_codec n) ist in get_list c (Z.to_nat cnt) ist)
    (fun l => in_u (8 * Z.of_nat n) (Z.of_nat (length l)) /\ Forall (wf c) l).

#[export] Instance list_codec_ok {A} n (c : codec A) `{!CodecOk c} : CodecOk (list_codec n c).
Proof.
  split; unfold enc, list_codec; cbn [put get wf].
  - intros l os. rewrite !(put_list_app c l (put _ _ _)), !(put_app (c := uint_codec n)).
    by rewrite app_nil_l, app_assoc.
  - intros l rest [Hn Hl]. rewrite (uwrap_id _ _ Hn), (put_list_app c), <- app_assoc.
    fold (enc (uint_codec n) (Z.of_nat (length l))). rewrite get_put by by apply wf_uint.
    rewrite Nat2Z.id. by apply get_list_put.
  - intros s l r x. codec_mono. by apply get_list_mono.
Qed.

Lemma enc_list_ext {A} (c : codec A) `{!CodecOk c} (f : A -> A) l :
  (forall a, enc c (f a) = enc c a) -> enc_list c (map f l) = enc_list c l.
Proof. intros Hf. induction l as [|a l IH]; [done|]. cbn [map]. by rewrite !enc_list_cons, Hf, IH. Qed.

(** [codec_mono] for the loops. *)
Ltac codec_list_mono :=
  repeat match goal with
  | |- context [match get_list ?c ?n ?s with Some _ => _ | None => None end = Some _] =>
      let G := fresh "G" in
      destruct (get_list c n s) as [[? ?]|] eqn:G; [rewrite (get_list_mono c _ _ _ _ _ G)|done]
  end.

(** A reader that does not look past what it consumes. *)
Definition mono {A} (g : ibstream -> option (A * ibstream)) : Prop :=
  forall s a r x, g s = Some (a, r) -> g (s ++ x) = Some (a, r ++ x).

(** Run the first reader of a chain, known to be [mono] by [lem]. *)
Ltac mono_step lem :=
  let L := fresh "L" in pose proof lem as L;
  lazymatch type of L with
  | mono ?g =>
      lazymatch goal with
      | |- context [g ?s] =>
          let G := fresh "G" in let a := fresh "p" in let ist := fresh "ist" in
          destruct (g s) as [[a ist]|] eqn:G; [rewrite (L _ _ _ _ G); clear G L|done]
      end
  end.
