(* ===== verification/Amount.v ===== *)
(** * Amounts of currency ([csdb/include/csdb/amount.hpp], [csdb/src/amount.cpp])

    A fixed-point number: a signed 32-bit integral part and a fraction in
    units of 10^-18, negative numbers having the complement as fraction.
    [value] is the number it denotes, in units of 10^-18; an amount is [normal]
    when its fraction is a proper one.

    The recursive operators ([*] and [/] negate their arguments and call
    themselves) take fuel; [None] is the unbounded recursion of the code.  The
    theorems give the fuel that suffices and the inputs for which none does. *)

From Stdlib Require Import ZArith Lia.
From stdpp Require Import base tactics numbers option list.
From S2P Require Import Prelude OrdMap Math128 BinStream.

Local Open Scope Z_scope.
Local Open Scope cs_scope.

Record Amount := mkAmount { integral_ : Z; fraction_ : Z }.

#[export] Instance Amount_eq_dec : EqDecision Amount.
Proof. solve_decision. Defined.

Definition AMOUNT_MAX_FRACTION : Z := 1000000000000000000.

(** ** Constructors *)

(** [Amount(int32_t)] *)
Definition of_int (value : Z) : Amount := mkAmount value 0.

Definition _check_fraction (fraction : uint128_t) : result Z :=
  if negb (0 =? hi_ fraction) || (AMOUNT_MAX_FRACTION <=? lo_ fraction)
  then Throw invalid_argument else Ok (lo_ fraction).

(** [Amount(int32_t integral, uint64_t numerator, uint64_t denominator)] *)
Definition of_fraction (integral numerator denominator : Z) : result Amount :=
  let! d := div (add64 (mul numerator AMOUNT_MAX_FRACTION) (denominator / 2)) denominator in
  let! f := _check_fraction (quotient_ d) in
  Ok (mkAmount integral f).

(** [Amount(const division64_result&)] *)
Definition of_division (value : division64_result) : Amount :=
  mkAmount (s32 (lo_ (quotient_ value))) (remainder_ value).

(** [Amount(const uint128_t& value, bool divide)] *)
Definition of_uint128 (value : uint128_t) (divide : bool) : result Amount :=
  rmap of_division
    (if (0 =? lo_ value) && (0 =? hi_ value) then Ok (mkDiv (mk128 0 0) 0)
     else if divide
     then let! d := div value AMOUNT_MAX_FRACTION in div (quotient_ d) AMOUNT_MAX_FRACTION
     else div value AMOUNT_MAX_FRACTION).

Definition round (a : Amount) : Z :=
  if fraction_ a <? AMOUNT_MAX_FRACTION / 2 then integral_ a else s32 (integral_ a + 1).

(** ** Comparison *)

Definition op_eq (a other : Amount) : bool :=
  (integral_ a =? integral_ other) && (fraction_ a =? fraction_ other).
Definition op_ne (a other : Amount) : bool := negb (op_eq a other).
Definition op_lt (a other : Amount) : bool :=
  if integral_ a <? integral_ other then true
  else if integral_ a >? integral_ other then false
  else fraction_ a <? fraction_ other.
Definition op_gt (a other : Amount) : bool :=
  if integral_ a >? integral_ other then true
  else if integral_ a <? integral_ other then false
  else fraction_ a >? fraction_ other.
Definition op_le (a other : Amount) : bool := negb (op_gt a other).
Definition op_ge (a other : Amount) : bool := negb (op_lt a other).

(** ** Addition and subtraction *)

Definition op_neg (a : Amount) : Amount :=
  if 0 =? fraction_ a then of_int (s32 (- integral_ a))
  else mkAmount (s32 (- integral_ a - 1)) (u64 (AMOUNT_MAX_FRACTION - fraction_ a)).

(** [operator+=(const Amount&)] *)
Definition add_assign (a other : Amount) : Amount :=
  let integral := s32 (integral_ a + integral_ other) in
  let fraction := u64 (fraction_ a + fraction_ other) in
  if AMOUNT_MAX_FRACTION <=? fraction
  then mkAmount (s32 (integral + 1)) (u64 (fraction - AMOUNT_MAX_FRACTION))
  else mkAmount integral fraction.

Definition add_assign_int (a : Amount) (other : Z) : Amount :=
  mkAmount (s32 (integral_ a + other)) (fraction_ a).

(** [operator-=(const Amount&)] *)
Definition sub_assign (a other : Amount) : Amount :=
  let integral := s32 (integral_ a - integral_ other) in
  if fraction_ other >? fraction_ a
  then mkAmount (s32 (integral - 1))
                (u64 (fraction_ a + u64 (AMOUNT_MAX_FRACTION - fraction_ other)))
  else mkAmount integral (u64 (fraction_ a - fraction_ other)).

Definition sub_assign_int (a : Amount) (other : Z) : Amount :=
  mkAmount (s32 (integral_ a - other)) (fraction_ a).

(** [operator+(const Amount&)]: note the strict comparison with the limit. *)
Definition op_add (a other : Amount) : Amount :=
  if AMOUNT_MAX_FRACTION <? u64 (fraction_ a + fraction_ other)
  then mkAmount (s32 (integral_ a + integral_ other + 1))
                (u64 (fraction_ a + fraction_ other - AMOUNT_MAX_FRACTION))
  else mkAmount (s32 (integral_ a + integral_ other)) (u64 (fraction_ a + fraction_ other)).

Definition op_add_int (a : Amount) (other : Z) : Amount :=
  mkAmount (s32 (integral_ a + other)) (fraction_ a).

(** [operator-(const Amount&)] *)
Definition op_sub (a other : Amount) : Amount :=
  if fraction_ a <? fraction_ other
  then mkAmount (s32 (integral_ a - integral_ other - 1))
                (u64 (fraction_ a + AMOUNT_MAX_FRACTION - fraction_ other))
  else mkAmount (s32 (integral_ a - integral_ other)) (u64 (fraction_ a - fraction_ other)).

Definition op_sub_int (a : Amount) (other : Z) : Amount :=
  mkAmount (s32 (integral_ a - other)) (fraction_ a).

(** [int32_t - Amount] *)
Definition int_sub (a : Z) (b : Amount) : Amount := op_add_int (op_neg b) a.

(** ** Multiplication and division *)

(** [operator*(const Amount&)] *)
Fixpoint op_mul (fuel : nat) (a other : Amount) : option (result Amount) :=
  match fuel with
  | O => None
  | S fuel =>
      if 0 >? integral_ a then rmap op_neg <$> op_mul fuel (op_neg a) other
      else if 0 >? integral_ other then rmap op_neg <$> op_mul fuel a (op_neg other)
      else Some (
        let! x := of_uint128 (mul (fraction_ a) (integral_ other)) false in
        let! y := of_uint128 (mul (fraction_ other) (integral_ a)) false in
        let! z := of_uint128 (mul (fraction_ a) (fraction_ other)) true in
        Ok (op_add (op_add (op_add (of_int (s32 (integral_ a * integral_ other))) x) y) z))
  end.

(** [operator*(int32_t)] *)
Fixpoint op_mul_int (fuel : nat) (a : Amount) (other : Z) : option (result Amount) :=
  match fuel with
  | O => None
  | S fuel =>
      if 0 >? other then rmap op_neg <$> op_mul_int fuel a (s32 (- other))
      else Some (
        let! x := of_uint128 (mul (fraction_ a) other) false in
        Ok (op_add (of_int (s32 (integral_ a * other))) x))
  end.

(** [operator/(int32_t)] *)
Fixpoint op_div (fuel : nat) (a : Amount) (other : Z) : option (result Amount) :=
  match fuel with
  | O => None
  | S fuel =>
      if 0 =? other then Some (Throw overflow_error)
      else if 0 >? other then rmap op_neg <$> op_div fuel a (s32 (- other))
      else if 1 =? other then Some (Ok a)
      else if 0 >? integral_ a then rmap op_neg <$> op_div fuel (op_neg a) other
      else Some (
        let! d := div (mul (integral_ a) AMOUNT_MAX_FRACTION) other in
        let! x := of_uint128 (quotient_ d) false in
        Ok (op_add x (mkAmount 0 (fraction_ a / other))))
  end.

(** ** Serialisation *)

Definition put_amount (a : Amount) (os : obstream) : obstream :=
  put (uint_codec 8) (fraction_ a) (put (sint_codec 4) (integral_ a) os).

Definition get_amount (ist : ibstream) : option (Amount * ibstream) :=
  let? (integral, ist) := get (sint_codec 4) ist in
  let? (fraction, ist) := get (uint_codec 8) ist in
  Some (mkAmount integral fraction, ist).

Definition toBytes (a : Amount) : bytes := put_amount a [].

(** [fromBytes]: the zero amount when the bytes are not an amount. *)
Definition fromBytes (serializedAmount : bytes) : Amount :=
  match get_amount serializedAmount with Some (res, _) => res | None => mkAmount 0 0 end.

(** ** Specification *)

Definition value (a : Amount) : Z := integral_ a * AMOUNT_MAX_FRACTION + fraction_ a.

(** What the members hold by their types. *)
Definition wf_amount (a : Amount) : Prop := in_s 32 (integral_ a) /\ in_u 64 (fraction_ a).

(** A proper fraction. *)
Definition normal (a : Amount) : Prop :=
  in_s 32 (integral_ a) /\ 0 <= fraction_ a < AMOUNT_MAX_FRACTION.

(** What the operators preserve: [operator+] can return the fraction 10^18. *)
Definition weak (a : Amount) : Prop :=
  in_s 32 (integral_ a) /\ 0 <= fraction_ a <= AMOUNT_MAX_FRACTION.

(** The range, closed under negation up to its upper bound, in which the
    operators cannot overflow. *)
Definition representable (v : Z) : Prop :=
  - (2 ^ 31 - 1) * AMOUNT_MAX_FRACTION <= v < 2 ^ 31 * AMOUNT_MAX_FRACTION.

Definition normalb (a : Amount) : bool :=
  (- 2 ^ 31 <=? integral_ a) && (integral_ a <? 2 ^ 31)
  && (0 <=? fraction_ a) && (fraction_ a <? AMOUNT_MAX_FRACTION).

Lemma normalb_spec a : normalb a = true <-> normal a.
Proof.
  unfold normalb, normal. rewrite !andb_true_iff, !Z.leb_le, !Z.ltb_lt. machine_unfold. lia.
Qed.

Lemma normal_weak a : normal a -> weak a.
Proof. unfold normal, weak. intuition lia. Qed.

Lemma value_inj a b : normal a -> normal b -> value a = value b -> a = b.
Proof.
  destruct a, b. unfold normal, value, AMOUNT_MAX_FRACTION; cbn [integral_ fraction_]. intros.
  f_equal; lia.
Qed.

#[export] Hint Resolve normal_weak : cs.

Ltac amount_lia := unfold value, weak, normal, representable, wf_amount, AMOUNT_MAX_FRACTION in *;
  cbn [integral_ fraction_] in *; machine_lia.

(** *** Comparison *)

Lemma op_lt_spec a b : normal a -> normal b -> op_lt a b = (value a <? value b).
Proof. unfold op_lt. intros Ha Hb. repeat case_match; symmetry; amount_lia. Qed.

Lemma op_gt_spec a b : normal a -> normal b -> op_gt a b = (value b <? value a).
Proof. unfold op_gt. intros Ha Hb. repeat case_match; symmetry; amount_lia. Qed.

Lemma op_eq_spec a b : normal a -> normal b -> op_eq a b = (value a =? value b).
Proof. unfold op_eq. intros Ha Hb. amount_lia. Qed.

(** The six comparison operators of normal amounts are the comparisons of their exact values. *)
Theorem compare_order a b :
  normal a -> normal b ->
  (op_lt a b = true <-> value a < value b) /\ (op_gt a b = true <-> value b < value a) /\
  (op_le a b = true <-> value a <= value b) /\ (op_ge a b = true <-> value b <= value a) /\
  (op_eq a b = true <-> a = b) /\ (op_ne a b = true <-> a <> b).
Proof.
  intros Ha Hb. pose proof (value_inj a b Ha Hb) as Hinj.
  assert (a = b <-> value a = value b) as -> by (split; [by intros ->|done]).
  unfold op_le, op_ge, op_ne. rewrite op_lt_spec, op_gt_spec, op_eq_spec by done.
  rewrite !negb_true_iff, !Z.ltb_lt, !Z.ltb_ge, Z.eqb_eq, Z.eqb_neq. clear. split_and!; lia.
Qed.

(** *** Addition, subtraction, negation *)

Lemma op_add_value a b :
  weak a -> weak b -> representable (value a + value b) ->
  weak (op_add a b) /\ value (op_add a b) = value a + value b.
Proof.
  destruct a as [ia fa], b as [ib fb]. unfold op_add; cbn [integral_ fraction_]. intros Ha Hb Hr.
  case_match eqn:E; amount_lia.
Qed.

(** Amount::operator+= of two normal amounts whose exact sum is representable is that sum, again
    with a proper fraction: the carry is right on every branch. *)
Theorem add_assign_exact a b :
  normal a -> normal b -> representable (value a + value b) ->
  normal (add_assign a b) /\ value (add_assign a b) = value a + value b.
Proof.
  destruct a as [ia fa], b as [ib fb]. unfold add_assign; cbn [integral_ fraction_]. intros Ha Hb Hr.
  case_match eqn:E; amount_lia.
Qed.

(** operator+ and operator+= of normal amounts agree except when the fractions add up to exactly
    one: there operator+ leaves an improper fraction of 10^18 that operator+= carries. *)
Theorem op_add_vs_add_assign a b :
  normal a -> normal b -> representable (value a + value b) ->
  (op_add a b = add_assign a b <-> fraction_ a + fraction_ b <> AMOUNT_MAX_FRACTION) /\
  value (op_add a b) = value a + value b.
Proof.
  intros Ha Hb Hr. split; [|apply op_add_value; auto with cs].
  destruct a as [ia fa], b as [ib fb]. unfold op_add, add_assign.
  cbn [integral_ fraction_]. split.
  - intros E Hs. rewrite Hs in E. change (u64 AMOUNT_MAX_FRACTION) with AMOUNT_MAX_FRACTION in E.
    rewrite Z.ltb_irrefl, Z.leb_refl in E. injection E as _ E. amount_lia.
  - intros Hs. destruct (Z.ltb_spec AMOUNT_MAX_FRACTION (u64 (fa + fb))) as [E|E],
      (Z.leb_spec AMOUNT_MAX_FRACTION (u64 (fa + fb))) as [E'|E']; try amount_lia; f_equal; amount_lia.
Qed.

(** Subtraction of normal amounts is exact, and [operator-] and [operator-=] agree. *)
Theorem op_sub_exact a b :
  normal a -> normal b -> representable (value a - value b) ->
  op_sub a b = sub_assign a b /\ normal (op_sub a b) /\ value (op_sub a b) = value a - value b.
Proof.
  destruct a as [ia fa], b as [ib fb]. unfold op_sub, sub_assign; cbn [integral_ fraction_].
  rewrite Z.gtb_ltb. intros Ha Hb Hr.
  case_match eqn:E; (split; [f_equal; amount_lia|amount_lia]).
Qed.

Lemma op_neg_value a :
  weak a -> -2 ^ 31 * AMOUNT_MAX_FRACTION < value a -> weak (op_neg a) /\ value (op_neg a) = - value a.
Proof.
  destruct a as [ia fa]. unfold op_neg, of_int; cbn [integral_ fraction_]. intros Ha Hr.
  case_match eqn:E; amount_lia.
Qed.

Lemma op_neg_normal a :
  normal a -> -2 ^ 31 * AMOUNT_MAX_FRACTION < value a -> normal (op_neg a).
Proof.
  destruct a as [ia fa]. unfold op_neg, of_int; cbn [integral_ fraction_]. intros Ha Hr.
  case_match eqn:E; amount_lia.
Qed.

Lemma not_min_value a :
  normal a -> a <> mkAmount (- 2 ^ 31) 0 -> -2 ^ 31 * AMOUNT_MAX_FRACTION < value a.
Proof.
  destruct a as [ia fa]. intros Ha Hne.
  destruct (decide (ia = - 2 ^ 31)) as [->|]; [|amount_lia].
  destruct (decide (fa = 0)) as [->|]; [done|amount_lia].
Qed.

(** Negation is exact and its own inverse, but at [INT32_MIN]. *)
Theorem op_neg_exact a :
  normal a -> a <> mkAmount (- 2 ^ 31) 0 ->
  normal (op_neg a) /\ value (op_neg a) = - value a /\ op_neg (op_neg a) = a.
Proof.
  intros Ha Hne. pose proof (not_min_value a Ha Hne) as Hv.
  pose proof (op_neg_normal a Ha Hv) as Hn. destruct (op_neg_value a) as [_ E]; [auto with cs|done|].
  assert (- 2 ^ 31 * AMOUNT_MAX_FRACTION < value (op_neg a)) as Hv'.
  { rewrite E. clear - Ha. amount_lia. }
  split_and!; [done|done|]. apply value_inj; [by apply op_neg_normal|done|].
  destruct (op_neg_value (op_neg a)) as [_ E']; [auto with cs|done|]. lia.
Qed.

(** *** Conversion from 128-bit integers *)

Lemma rmap_ok {A B} (f : A -> B) a : rmap f (Ok a) = Ok (f a).
Proof. done. Qed.

Lemma of_uint128_spec x :
  wf128 x -> uval x / AMOUNT_MAX_FRACTION < 2 ^ 31 ->
  exists r, of_uint128 x false = Ok r /\ normal r /\ value r = uval x.
Proof.
  intros Hx Hb. unfold of_uint128. case_match eqn:E.
  - exists (mkAmount 0 0). split; [done|]. destruct x as [lo hi].
    unfold uval in *; cbn [lo_ hi_] in *. apply andb_true_iff in E as [E1 E2]. amount_lia.
  - destruct (div_spec x AMOUNT_MAX_FRACTION) as (r & -> & [Hl Hh] & Hq & Hr); [done|done|done|].
    eexists. split; [apply rmap_ok|]. unfold of_division.
    pose proof (uval_range x Hx).
    assert (lo_ (quotient_ r) = uval x / AMOUNT_MAX_FRACTION) as El.
    { unfold uval in Hq at 1. unfold in_u in *. pose proof (Z.div_pos (uval x) AMOUNT_MAX_FRACTION).
      unfold AMOUNT_MAX_FRACTION in *. lia. }
    rewrite El, Hr. unfold AMOUNT_MAX_FRACTION in *. amount_lia.
Qed.

Lemma of_uint128_divide_spec x :
  wf128 x -> uval x < AMOUNT_MAX_FRACTION * AMOUNT_MAX_FRACTION ->
  exists r, of_uint128 x true = Ok r /\ normal r /\ value r = uval x / AMOUNT_MAX_FRACTION.
Proof.
  intros Hx Hb. unfold of_uint128. pose proof (uval_range x Hx) as Hr0.
  assert (0 <= uval x / AMOUNT_MAX_FRACTION < AMOUNT_MAX_FRACTION) as Hq0.
  { split; [apply Z.div_pos; [lia|done]|apply Z.div_lt_upper_bound; [done|lia]]. }
  case_match eqn:E.
  - exists (mkAmount 0 0). split; [done|]. destruct x as [lo hi].
    unfold uval in *; cbn [lo_ hi_] in *. apply andb_true_iff in E as [E1 E2]. amount_lia.
  - destruct (div_spec x AMOUNT_MAX_FRACTION) as (r & -> & Hw & Hq & Hr); [done|done|done|].
    cbn [rbind]. destruct (div_spec (quotient_ r) AMOUNT_MAX_FRACTION) as (r' & -> & [Hl Hh] & Hq' & Hr');
      [done|done|done|].
    eexists. split; [apply rmap_ok|]. unfold of_division. rewrite Hq in *.
    rewrite Z.div_small in Hq' by done. rewrite Z.mod_small in Hr' by done.
    assert (lo_ (quotient_ r') = 0) as -> by (unfold uval in Hq'; unfold in_u in *; lia).
    rewrite Hr'. unfold AMOUNT_MAX_FRACTION in *. amount_lia.
Qed.

Lemma normal_fraction a : normal a -> in_u 64 (fraction_ a).
Proof. amount_lia. Qed.

(** The three cross terms of a product. *)
Lemma mul_term f i :
  0 <= f < AMOUNT_MAX_FRACTION -> 0 <= i < 2 ^ 31 ->
  exists x, of_uint128 (mul f i) false = Ok x /\ normal x /\ value x = f * i.
Proof.
  unfold AMOUNT_MAX_FRACTION. intros Hf Hi. destruct (mul_spec f i) as [W V]; [machine_lia|machine_lia|].
  rewrite <- V. apply of_uint128_spec; [done|]. rewrite V.
  apply Z.div_lt_upper_bound; [done|]. unfold AMOUNT_MAX_FRACTION. nia.
Qed.

Lemma mul_fractions f g :
  0 <= f < AMOUNT_MAX_FRACTION -> 0 <= g < AMOUNT_MAX_FRACTION ->
  exists z, of_uint128 (mul f g) true = Ok z /\ normal z /\ value z = f * g / AMOUNT_MAX_FRACTION.
Proof.
  unfold AMOUNT_MAX_FRACTION at 1 2. intros Hf Hg.
  destruct (mul_spec f g) as [W V]; [machine_lia|machine_lia|].
  rewrite <- V. apply of_uint128_divide_spec; [done|]. rewrite V. unfold AMOUNT_MAX_FRACTION. nia.
Qed.

Lemma product_floor M ia fa ib fb :
  0 < M -> (ia * M + fa) * (ib * M + fb) / M = ia * ib * M + fa * ib + fb * ia + fa * fb / M.
Proof.
  intros HM.
  replace ((ia * M + fa) * (ib * M + fb)) with ((ia * ib * M + fa * ib + fb * ia) * M + fa * fb) by ring.
  rewrite Z.div_add_l by lia. done.
Qed.

Lemma of_int_value i : 0 <= i < 2 ^ 31 -> weak (of_int (s32 i)) /\ value (of_int (s32 i)) = i * AMOUNT_MAX_FRACTION.
Proof. unfold of_int. intros. amount_lia. Qed.

(** Adding non-negative terms whose total is in range. *)
Lemma op_add_nonneg a b :
  weak a -> normal b -> 0 <= value a -> 0 <= value b -> value a + value b < 2 ^ 31 * AMOUNT_MAX_FRACTION ->
  weak (op_add a b) /\ value (op_add a b) = value a + value b.
Proof.
  intros Ha Hb Ha0 Hb0 Hs. apply op_add_value; [done|auto with cs|].
  unfold representable, AMOUNT_MAX_FRACTION in *. lia.
Qed.

(** The product of two non-negative amounts, one level of the recursion. *)
Lemma op_mul_nonneg n a b :
  normal a -> normal b -> 0 <= value a -> 0 <= value b ->
  value a * value b < 2 ^ 31 * AMOUNT_MAX_FRACTION * AMOUNT_MAX_FRACTION ->
  exists r, op_mul (S n) a b = Some (Ok r) /\ weak r /\
    value r = value a * value b / AMOUNT_MAX_FRACTION.
Proof.
  intros Ha Hb Ha0 Hb0 Hv. cbn [op_mul].
  assert (0 <= integral_ a < 2 ^ 31 /\ 0 <= integral_ b < 2 ^ 31) as [Hia Hib] by (clear Hv; amount_lia).
  rewrite !Z.gtb_ltb, (proj2 (Z.ltb_ge (integral_ a) 0)), (proj2 (Z.ltb_ge (integral_ b) 0)) by lia.
  destruct Ha as [_ Hfa], Hb as [_ Hfb].
  destruct (mul_term _ _ Hfa Hib) as (x & -> & Hx & Vx).
  destruct (mul_term _ _ Hfb Hia) as (y & -> & Hy & Vy).
  destruct (mul_fractions _ _ Hfa Hfb) as (z & -> & Hz & Vz).
  cbn [rbind]. eexists. split; [done|].
  assert (value a * value b / AMOUNT_MAX_FRACTION < 2 ^ 31 * AMOUNT_MAX_FRACTION) as Htot
    by (apply Z.div_lt_upper_bound; [done|lia]).
  unfold value in Htot at 1 2. unfold value at 2 3. rewrite product_floor in * by done.
  pose proof (Z.div_pos (fraction_ a * fraction_ b) AMOUNT_MAX_FRACTION ltac:(nia) ltac:(done)) as Pz.
  assert (0 <= integral_ a * integral_ b) as Pi by nia.
  assert (0 <= fraction_ a * integral_ b) as Px by nia. assert (0 <= fraction_ b * integral_ a) as Py by nia.
  set (M := AMOUNT_MAX_FRACTION) in *. assert (0 < M) as HM by done.
  assert (integral_ a * integral_ b < 2 ^ 31) as Hii by nia.
  destruct (of_int_value (integral_ a * integral_ b)) as [H0 V0]; [done|]. fold M in V0.
  destruct (op_add_nonneg _ x H0 Hx) as [H1 V1]; [lia|lia|fold M; lia|].
  destruct (op_add_nonneg _ y H1 Hy) as [H2 V2]; [lia|lia|fold M; lia|].
  destruct (op_add_nonneg _ z H2 Hz) as [H3 V3]; [lia|lia|fold M; lia|].
  split; [done|]. lia.
Qed.

(** The operator returns, with a weakly normal amount that denotes [v]. *)
Definition returns (o : option (result Amount)) (v : Z) : Prop :=
  exists r, o = Some (Ok r) /\ weak r /\ value r = v.

Lemma returns_neg o v :
  returns o v -> - 2 ^ 31 * AMOUNT_MAX_FRACTION < v -> returns (rmap op_neg <$> o) (- v).
Proof.
  intros (r & -> & Hr & <-) Hv. destruct (op_neg_value r Hr Hv) as [Hw E].
  exists (op_neg r). done.
Qed.

Lemma op_mul_neg_l n a b :
  integral_ a < 0 -> op_mul (S n) a b = rmap op_neg <$> op_mul n (op_neg a) b.
Proof. intros H. cbn [op_mul]. by rewrite Z.gtb_ltb, (proj2 (Z.ltb_lt _ _) H). Qed.

Lemma op_mul_neg_r n a b :
  0 <= integral_ a -> integral_ b < 0 -> op_mul (S n) a b = rmap op_neg <$> op_mul n a (op_neg b).
Proof.
  intros Ha H. cbn [op_mul].
  by rewrite !Z.gtb_ltb, (proj2 (Z.ltb_ge _ _) Ha), (proj2 (Z.ltb_lt _ _) H).
Qed.

Lemma normal_sign a : normal a -> (0 <= integral_ a <-> 0 <= value a).
Proof. amount_lia. Qed.

Lemma quot_bound x M : 0 < M -> Z.abs x < 2 ^ 31 * M * M -> - 2 ^ 31 * M < Z.quot x M < 2 ^ 31 * M.
Proof.
  intros HM Hx. pose proof (Z.quot_abs x M ltac:(lia)) as E.
  rewrite (Z.abs_eq M), Z.quot_div_nonneg in E by lia.
  assert (Z.abs x / M < 2 ^ 31 * M) by (apply Z.div_lt_upper_bound; lia). lia.
Qed.

Lemma op_mul_pos n a b :
  normal a -> normal b -> 0 <= value a -> - 2 ^ 31 * AMOUNT_MAX_FRACTION < value b ->
  Z.abs (value a * value b) < 2 ^ 31 * AMOUNT_MAX_FRACTION * AMOUNT_MAX_FRACTION ->
  returns (op_mul (2 + n) a b) (Z.quot (value a * value b) AMOUNT_MAX_FRACTION).
Proof.
  intros Ha Hb Ha0 Hb0 Hv. pose proof (quot_bound (value a * value b) AMOUNT_MAX_FRACTION ltac:(done) Hv) as Hq.
  destruct (Z.ltb_spec (integral_ b) 0) as [Hib|Hib].
  - destruct (op_neg_value b) as [_ E]; [auto with cs|done|].
    pose proof (normal_sign b Hb). cbn [Nat.add].
    rewrite op_mul_neg_r by (done || by apply (normal_sign a Ha)).
    replace (Z.quot _ _) with (- Z.quot (value a * value (op_neg b)) AMOUNT_MAX_FRACTION)
      by (rewrite E, Z.mul_opp_r, Z.quot_opp_l by done; lia).
    apply returns_neg.
    + rewrite Z.quot_div_nonneg by (done || lia || nia).
      apply op_mul_nonneg; [done|by apply op_neg_normal|done|lia|lia].
    + rewrite E, (Z.mul_opp_r (value a)), Z.quot_opp_l by done. lia.
  - assert (0 <= value b) by (by apply (normal_sign b Hb)).
    rewrite Z.quot_div_nonneg by (done || nia). apply (op_mul_nonneg (S n)); [done..|lia].
Qed.

(** Amount::operator* (the recursion on the signs, the three 128-bit products and their assembly)
    terminates and gives the exact product truncated towards zero at 18 decimals, for all normal
    factors but INT32_MIN whose product is below 2^31. *)
Theorem op_mul_exact n a b :
  normal a -> normal b -> a <> mkAmount (- 2 ^ 31) 0 -> b <> mkAmount (- 2 ^ 31) 0 ->
  Z.abs (value a * value b) < 2 ^ 31 * AMOUNT_MAX_FRACTION * AMOUNT_MAX_FRACTION ->
  exists r, op_mul (3 + n) a b = Some (Ok r) /\ weak r /\
    value r = Z.quot (value a * value b) AMOUNT_MAX_FRACTION.
Proof.
  intros Ha Hb Hna Hnb Hv. pose proof (quot_bound (value a * value b) AMOUNT_MAX_FRACTION ltac:(done) Hv) as Hq.
  apply (not_min_value a Ha) in Hna. apply (not_min_value b Hb) in Hnb.
  change (returns (op_mul (3 + n) a b) (Z.quot (value a * value b) AMOUNT_MAX_FRACTION)).
  destruct (Z.ltb_spec (integral_ a) 0) as [Hia|Hia].
  - destruct (op_neg_value a) as [_ E]; [auto with cs|done|].
    pose proof (normal_sign a Ha). cbn [Nat.add]. rewrite op_mul_neg_l by done.
    replace (Z.quot _ _) with (- Z.quot (value (op_neg a) * value b) AMOUNT_MAX_FRACTION)
      by (rewrite E, Z.mul_opp_l, Z.quot_opp_l by done; lia).
    apply returns_neg.
    + apply op_mul_pos; [by apply op_neg_normal|done|lia|done|rewrite E; lia].
    + rewrite E, (Z.mul_opp_l (value a)), Z.quot_opp_l by done. lia.
  - apply (op_mul_pos (S n)); [done|done|by apply (normal_sign a Ha)|done|done].
Qed.

(** Multiplying the amount [INT32_MIN] recurses for ever: its negation, wrapped, is itself. *)
Theorem op_mul_min_diverges fuel b :
  op_mul fuel (mkAmount (- 2 ^ 31) 0) b = None.
Proof.
  revert b. induction fuel as [|fuel IH]; intros b; [done|].
  rewrite op_mul_neg_l by done. change (op_neg (mkAmount (- 2 ^ 31) 0)) with (mkAmount (- 2 ^ 31) 0).
  by rewrite IH.
Qed.

(** *** Multiplication and division by an integer *)

Lemma op_mul_int_nonneg n a k :
  normal a -> 0 <= k < 2 ^ 31 -> Z.abs (value a * k) < 2 ^ 31 * AMOUNT_MAX_FRACTION ->
  - 2 ^ 31 < integral_ a * k ->
  returns (op_mul_int (S n) a k) (value a * k).
Proof.
  intros Ha Hk Hv Hi. cbn [op_mul_int]. rewrite Z.gtb_ltb, (proj2 (Z.ltb_ge k 0)) by lia.
  destruct (mul_term (fraction_ a) k) as (x & -> & Hx & Vx); [apply Ha|done|].
  cbn [rbind]. eexists. split; [done|].
  set (M := AMOUNT_MAX_FRACTION) in *. assert (0 < M) as HM by done.
  assert (value a * k = integral_ a * k * M + fraction_ a * k) as E by (unfold value; fold M; ring).
  assert (0 <= fraction_ a * k) as Hf by (destruct Ha as [_ ?]; nia).
  assert (integral_ a * k < 2 ^ 31) as Hi2 by nia.
  assert (weak (of_int (s32 (integral_ a * k))) /\ value (of_int (s32 (integral_ a * k))) = integral_ a * k * M)
    as [W0 V0].
  { rewrite swrap_id by (unfold in_s; lia). unfold M. generalize dependent (integral_ a * k). intros z **.
    unfold of_int. clear E Hv Hf Ha. amount_lia. }
  rewrite E. destruct (op_add_value (of_int (s32 (integral_ a * k))) x W0) as [W V]; [auto with cs| |].
  - unfold representable. fold M. rewrite V0, Vx.
    assert (0 <= (integral_ a * k + (2 ^ 31 - 1)) * M) by (apply Z.mul_nonneg_nonneg; lia). lia.
  - split; [done|]. lia.
Qed.

(** Multiplication by an integer is exact while the product is in range. *)
Theorem op_mul_int_exact n a k :
  normal a -> in_s 32 k -> k <> - 2 ^ 31 ->
  Z.abs (value a * k) < 2 ^ 31 * AMOUNT_MAX_FRACTION -> - 2 ^ 31 < integral_ a * Z.abs k ->
  exists r, op_mul_int (2 + n) a k = Some (Ok r) /\ weak r /\ value r = value a * k.
Proof.
  intros Ha Hk Hk0 Hv Hi. change (returns (op_mul_int (2 + n) a k) (value a * k)).
  assert (- (2 ^ 31 - 1) <= k < 2 ^ 31) as Hk' by (clear Hv Hi; machine_lia).
  destruct (Z.ltb_spec k 0) as [Hn|Hn].
  - cbn [Nat.add op_mul_int]. rewrite Z.gtb_ltb, (proj2 (Z.ltb_lt k 0)) by done.
    rewrite swrap_id by (unfold in_s; lia).
    replace (value a * k) with (- (value a * - k)) by ring. apply returns_neg; [|lia].
    apply (op_mul_int_nonneg n); [done|lia|lia|lia].
  - apply (op_mul_int_nonneg (S n)); [done|lia|lia|lia].
Qed.

(** The quotient truncated towards zero, or one unit of 10^-18 nearer to zero. *)
Definition near_quot (v k w : Z) : Prop :=
  exists e, 0 <= e <= 1 /\ w = Z.sgn v * Z.sgn k * (Z.abs v / Z.abs k - e) /\ (Z.abs v / Z.abs k - e) >= 0.

Lemma op_div_nonneg n a k :
  normal a -> 0 <= value a -> 1 < k < 2 ^ 31 ->
  exists w, returns (op_div (S n) a k) w /\ value a / k - 1 <= w <= value a / k /\ 0 <= w < 2 ^ 30 * AMOUNT_MAX_FRACTION.
Proof.
  intros Ha Ha0 Hk. assert (0 <= integral_ a < 2 ^ 31) as Hia by amount_lia.
  cbn [op_div]. rewrite (proj2 (Z.eqb_neq 0 k)), Z.gtb_ltb, (proj2 (Z.ltb_ge k 0)),
    (proj2 (Z.eqb_neq 1 k)), Z.gtb_ltb, (proj2 (Z.ltb_ge (integral_ a) 0)) by lia.
  destruct Ha as [Ha1 Ha2]. unfold value in *. set (M := AMOUNT_MAX_FRACTION) in *.
  assert (0 < M) as HM by done.
  destruct (mul_spec (integral_ a) M) as [W V]; [unfold in_u; lia|done|].
  destruct (div_spec (mul (integral_ a) M) k W) as (d & -> & Wd & Qd & _); [unfold in_u; lia|lia|].
  rewrite V in Qd. set (q := integral_ a * M / k) in *.
  assert (0 <= q /\ q * 2 <= integral_ a * M) as [Hq0 Hq1].
  { unfold q. split; [apply Z.div_pos; nia|]. pose proof (Z.mul_div_le (integral_ a * M) k). nia. }
  destruct (of_uint128_spec (quotient_ d) Wd) as (x & Ex & Hx & Vx).
  { rewrite Qd. apply Z.div_lt_upper_bound; fold M; nia. }
  cbn [rbind]. rewrite Ex. cbn [rbind]. rewrite Qd in Vx.
  assert (0 <= fraction_ a / k /\ fraction_ a / k * 2 <= fraction_ a) as [Hf0 Hf1].
  { split; [apply Z.div_pos; lia|]. pose proof (Z.mul_div_le (fraction_ a) k). nia. }
  assert (normal (mkAmount 0 (fraction_ a / k)) /\ value (mkAmount 0 (fraction_ a / k)) = fraction_ a / k)
    as [Wy Vy] by (unfold normal, value; cbn [integral_ fraction_]; fold M; unfold in_s; lia).
  destruct (op_add_nonneg x _ (normal_weak _ Hx) Wy) as [Wr Vr]; [lia|lia|fold M; nia|].
  exists (q + fraction_ a / k). split; [eexists; split; [done|]; split; [done|lia]|].
  split; [|nia].
  pose proof (Z.div_mod (integral_ a * M) k ltac:(lia)) as D1.
  pose proof (Z.mod_pos_bound (integral_ a * M) k ltac:(lia)).
  pose proof (Z.div_mod (fraction_ a) k ltac:(lia)) as D2.
  pose proof (Z.mod_pos_bound (fraction_ a) k ltac:(lia)).
  fold q in D1. set (f := fraction_ a / k) in *. clearbody q f.
  assert (q + f <= (integral_ a * M + fraction_ a) / k) by (apply Z.div_le_lower_bound; nia).
  assert ((integral_ a * M + fraction_ a) / k < q + f + 2) by (apply Z.div_lt_upper_bound; nia). lia.
Qed.

Lemma op_div_neg_k n a k :
  k < 0 -> op_div (S n) a k = rmap op_neg <$> op_div n a (s32 (- k)).
Proof.
  intros H. cbn [op_div]. by rewrite (proj2 (Z.eqb_neq 0 k)), Z.gtb_ltb, (proj2 (Z.ltb_lt k 0)) by lia.
Qed.

Lemma op_div_neg_a n a k :
  1 < k -> integral_ a < 0 -> op_div (S n) a k = rmap op_neg <$> op_div n (op_neg a) k.
Proof.
  intros Hk H. cbn [op_div].
  by rewrite (proj2 (Z.eqb_neq 0 k)), !Z.gtb_ltb, (proj2 (Z.ltb_ge k 0)), (proj2 (Z.eqb_neq 1 k)),
    (proj2 (Z.ltb_lt _ _) H) by lia.
Qed.

Lemma near_quot_pos v k w : 0 <= v -> 0 < k -> 0 <= w -> v / k - 1 <= w <= v / k -> near_quot v k w.
Proof.
  intros Hv Hk Hw H. exists (v / k - w). rewrite !Z.abs_eq, (Z.sgn_pos k) by lia.
  destruct (decide (v = 0)) as [->|]; [rewrite Z.div_0_l in * by lia; cbn; lia|].
  rewrite Z.sgn_pos by lia. lia.
Qed.

Lemma near_quot_opp_v v k w : near_quot (- v) k w -> near_quot v k (- w).
Proof. intros (e & He & -> & Hp). exists e. rewrite Z.abs_opp, Z.sgn_opp in *. lia. Qed.

Lemma near_quot_opp_k v k w : near_quot v (- k) w -> near_quot v k (- w).
Proof. intros (e & He & -> & Hp). exists e. rewrite Z.abs_opp, Z.sgn_opp in *. lia. Qed.

Definition divides_to (o : option (result Amount)) (v k : Z) : Prop :=
  exists w, returns o w /\ near_quot v k w /\ - 2 ^ 31 * AMOUNT_MAX_FRACTION < w < 2 ^ 31 * AMOUNT_MAX_FRACTION.

Lemma op_div_pos n a k :
  normal a -> - 2 ^ 31 * AMOUNT_MAX_FRACTION < value a -> 0 < k < 2 ^ 31 ->
  divides_to (op_div (2 + n) a k) (value a) k.
Proof.
  intros Ha Hv Hk. destruct (decide (k = 1)) as [->|Hk1].
  - exists (value a). split; [exists a; auto with cs|].
    split; [|clear Hk; amount_lia]. exists 0.
    rewrite (Z.abs_eq 1), Z.div_1_r, (Z.sgn_pos 1), Z.sub_0_r, Z.mul_1_r by lia. lia.
  - destruct (Z.ltb_spec (integral_ a) 0) as [Hia|Hia].
    + cbn [Nat.add]. rewrite op_div_neg_a by lia.
      destruct (op_neg_value a) as [_ E]; [auto with cs|done|].
      assert (0 <= value (op_neg a)) as Hp by (rewrite E; clear E Hk Hk1; amount_lia).
      destruct (op_div_nonneg n (op_neg a) k) as (w & Hw & Hq & Hr); [by apply op_neg_normal|done|lia|].
      exists (- w). split; [apply returns_neg; [done|unfold AMOUNT_MAX_FRACTION in *; lia]|].
      split; [|unfold AMOUNT_MAX_FRACTION in *; lia]. apply near_quot_opp_v. rewrite <- E.
      apply near_quot_pos; lia.
    + assert (0 <= value a) by (by apply (normal_sign a Ha)).
      destruct (op_div_nonneg (S n) a k) as (w & Hw & Hq & Hr); [done|done|lia|].
      exists w. split; [done|]. split; [apply near_quot_pos; lia|unfold AMOUNT_MAX_FRACTION in *; lia].
Qed.

(** Amount::operator/(int32_t) terminates for every normal amount other than INT32_MIN and every
    divisor other than INT32_MIN and 0, and its result is the exact quotient truncated towards
    zero at 18 decimals or one unit of the last decimal closer to zero than that: never further
    from zero, and of the right sign. *)
Theorem op_div_near n a k :
  normal a -> in_s 32 k -> a <> mkAmount (- 2 ^ 31) 0 -> k <> - 2 ^ 31 -> k <> 0 ->
  exists r, op_div (3 + n) a k = Some (Ok r) /\ weak r /\ near_quot (value a) k (value r).
Proof.
  intros Ha Hk Hna Hk0 Hkz. apply (not_min_value a Ha) in Hna.
  assert (- (2 ^ 31 - 1) <= k < 2 ^ 31) as Hk' by (clear Hna; machine_lia).
  destruct (Z.ltb_spec k 0) as [Hn|Hn].
  - cbn [Nat.add]. rewrite op_div_neg_k, swrap_id by (lia || unfold in_s; lia).
    destruct (op_div_pos n a (- k)) as (w & Hw & Hq & Hr); [done|done|lia|].
    destruct (returns_neg _ _ Hw ltac:(lia)) as (r & Er & Hwr & Vr). exists r.
    split; [done|]. split; [done|]. rewrite Vr. by apply near_quot_opp_k.
  - destruct (op_div_pos (S n) a k) as (w & (r & Er & Hwr & <-) & Hq & Hr); [done|done|lia|]. eauto.
Qed.

Theorem op_div_zero n a : op_div (S n) a 0 = Some (Throw overflow_error).
Proof. done. Qed.

(** *** Fractions *)

Lemma round_div_bound num den :
  in_u 64 num -> in_u 64 den -> num * AMOUNT_MAX_FRACTION + den / 2 < 2 ^ 128.
Proof. unfold AMOUNT_MAX_FRACTION. machine_lia. Qed.

Lemma of_fraction_eq integral numerator denominator :
  in_u 64 numerator -> in_u 64 denominator ->
  of_fraction integral numerator denominator =
    if denominator =? 0 then Throw overflow_error
    else let q := (numerator * AMOUNT_MAX_FRACTION + denominator / 2) / denominator in
         if q <? AMOUNT_MAX_FRACTION then Ok (mkAmount integral q) else Throw invalid_argument.
Proof.
  intros Hn Hd. unfold of_fraction.
  destruct (Z.eqb_spec denominator 0) as [->|Hd0]; [done|].
  destruct (mul_spec numerator AMOUNT_MAX_FRACTION) as [W V]; [done|done|].
  destruct (add64_spec (mul numerator AMOUNT_MAX_FRACTION) (denominator / 2)) as [W' V'];
    [done|machine_lia|rewrite V; by apply round_div_bound|].
  destruct (div_spec _ denominator W' Hd Hd0) as (r & -> & [Hl Hh] & Hq & _). cbn [rbind].
  rewrite V', V in Hq. cbn zeta. rewrite <- Hq. unfold _check_fraction, uval, in_u in *.
  destruct (Z.eqb_spec 0 (hi_ (quotient_ r))) as [<-|Hh0]; cbn [negb orb].
  - rewrite Z.mul_0_r, Z.add_0_r. unfold AMOUNT_MAX_FRACTION.
    destruct (Z.leb_spec 1000000000000000000 (lo_ (quotient_ r))),
      (Z.ltb_spec (lo_ (quotient_ r)) 1000000000000000000); (done || lia).
  - destruct (Z.ltb_spec (lo_ (quotient_ r) + 2 ^ 64 * hi_ (quotient_ r)) AMOUNT_MAX_FRACTION) as [H|]; [|done].
    unfold AMOUNT_MAX_FRACTION in H. lia.
Qed.

Lemma of_fraction_id i f :
  0 <= f < AMOUNT_MAX_FRACTION -> of_fraction i f AMOUNT_MAX_FRACTION = Ok (mkAmount i f).
Proof.
  intros Hf. rewrite of_fraction_eq by (unfold AMOUNT_MAX_FRACTION in *; machine_lia).
  change (AMOUNT_MAX_FRACTION =? 0) with false. cbn zeta iota.
  rewrite (Z.add_comm (f * _)), Z.div_add by done.
  change (AMOUNT_MAX_FRACTION / 2 / AMOUNT_MAX_FRACTION) with 0. rewrite Z.add_0_l.
  by rewrite (proj2 (Z.ltb_lt f AMOUNT_MAX_FRACTION)) by lia.
Qed.

(** [Amount(integral, numerator, denominator)] rounds the fraction to the nearest, and throws when
    it reaches one. *)
Theorem of_fraction_spec integral numerator denominator :
  in_u 64 numerator -> in_u 64 denominator ->
  of_fraction integral numerator denominator =
    if denominator =? 0 then Throw overflow_error
    else let q := (numerator * AMOUNT_MAX_FRACTION + denominator / 2) / denominator in
         if q <? AMOUNT_MAX_FRACTION then Ok (mkAmount integral q) else Throw invalid_argument.
Proof. exact (of_fraction_eq integral numerator denominator). Qed.

(** *** Serialisation *)

Definition amount_codec : codec Amount := mkCodec Amount put_amount get_amount wf_amount.

#[export] Instance amount_codec_ok : CodecOk amount_codec.
Proof.
  split; unfold enc, amount_codec; cbn [put get wf]; unfold put_amount, get_amount.
  - intros a os. rewrite !(put_app (fraction_ a)), !(put_app (integral_ a)). by rewrite app_assoc.
  - intros [i f] rest [Hi Hf]. cbn [integral_ fraction_] in *.
    rewrite (put_app f), (put_app i), app_nil_l, <- app_assoc. by rewrite !get_put.
  - intros s a r x.
    codec_mono. by intros [= <- <-].
Qed.

(** An amount read back from its bytes. *)
Theorem fromBytes_toBytes a : wf_amount a -> fromBytes (toBytes a) = a.
Proof.
  intros Ha. unfold fromBytes. change (get_amount (toBytes a)) with (get amount_codec (enc amount_codec a)).
  by rewrite (get_put_nil amount_codec a Ha).
Qed.


(** ** Witnesses *)

Lemma add_assign_exact_witness :
  let a := mkAmount 1 (AMOUNT_MAX_FRACTION / 2) in let b := mkAmount (-3) (AMOUNT_MAX_FRACTION / 2) in
  normal (add_assign a b) /\ value (add_assign a b) = value a + value b.
Proof.
  apply (add_assign_exact (mkAmount 1 (AMOUNT_MAX_FRACTION / 2)) (mkAmount (-3) (AMOUNT_MAX_FRACTION / 2)));
    by repeat split.
Defined.

Lemma op_add_vs_add_assign_witness :
  let a := mkAmount 0 (AMOUNT_MAX_FRACTION / 2) in
  (op_add a a = add_assign a a <-> fraction_ a + fraction_ a <> AMOUNT_MAX_FRACTION) /\
  value (op_add a a) = value a + value a.
Proof.
  apply (op_add_vs_add_assign (mkAmount 0 (AMOUNT_MAX_FRACTION / 2)) (mkAmount 0 (AMOUNT_MAX_FRACTION / 2)));
    by repeat split.
Defined.

Lemma compare_order_witness :
  let a := mkAmount (-1) 5 in let b := mkAmount 0 4 in
  (op_lt a b = true <-> value a < value b) /\ (op_gt a b = true <-> value b < value a) /\
  (op_le a b = true <-> value a <= value b) /\ (op_ge a b = true <-> value b <= value a) /\
  (op_eq a b = true <-> a = b) /\ (op_ne a b = true <-> a <> b).
Proof. apply (compare_order (mkAmount (-1) 5) (mkAmount 0 4)); by repeat split. Defined.

Lemma op_mul_exact_witness :
  let a := mkAmount 1 (AMOUNT_MAX_FRACTION / 2) in let b := mkAmount (-2) 0 in
  exists r, op_mul 3 a b = Some (Ok r) /\ weak r /\ value r = Z.quot (value a * value b) AMOUNT_MAX_FRACTION.
Proof.
  apply (op_mul_exact 0 (mkAmount 1 (AMOUNT_MAX_FRACTION / 2)) (mkAmount (-2) 0));
    [by repeat split|by repeat split|done|done|done].
Defined.

Lemma op_div_near_witness :
  exists r, op_div 3 (mkAmount 5 0) (-2) = Some (Ok r) /\ weak r /\ near_quot (value (mkAmount 5 0)) (-2) (value r).
Proof. apply (op_div_near 0 (mkAmount 5 0) (-2)); [by repeat split|by split|done|done|done]. Defined.
