(* ===== verification/UserField.v ===== *)
(** * User fields ([csdb/include/csdb/user_field.hpp], [csdb/src/user_field.cpp])

    A typed value attached to a transaction or a pool: an integer, a string or
    an amount, behind a one-byte type tag.  [priv] has a member for each type,
    and [get] writes only the member of the type it read, so reading is a
    function of the object read into. *)

From Stdlib Require Import ZArith Lia.
From stdpp Require Import base tactics numbers option list.
From S2P Require Import Prelude OrdMap Math128 BinStream Amount.

Local Open Scope Z_scope.
Local Open Scope cs_scope.

Inductive Type_ : Set := Unknown | Integer | String_ | Amount_.

#[export] Instance Type_eq_dec : EqDecision Type_.
Proof. solve_decision. Defined.

(** The underlying [char] of the enumerators. *)
Definition type_char (t : Type_) : Z :=
  match t with Unknown => 0 | Integer => 1 | String_ => 2 | Amount_ => 3 end.

Record UserField := mkUserField {
  type_ : Type_;
  i_value_ : Z;
  s_value_ : bytes;
  a_value_ : Amount
}.

#[export] Instance UserField_eq_dec : EqDecision UserField.
Proof. solve_decision. Defined.

(** The [priv] constructors. *)
Definition uf_default : UserField := mkUserField Unknown 0 [] (of_int 0).
Definition uf_of_uint (value : Z) : UserField := mkUserField Integer value [] (of_int 0).
Definition uf_of_string (value : bytes) : UserField := mkUserField String_ 0 value (of_int 0).
Definition uf_of_amount (value : Amount) : UserField := mkUserField Amount_ 0 [] value.

(** The template constructor for integral types and its [bool] case. *)
Definition uf_of_int (value : Z) : UserField := uf_of_uint (u64 value).
Definition uf_of_bool (value : bool) : UserField := uf_of_uint (if value then 1 else 0).

Definition uf_put (f : UserField) (os : obstream) : obstream :=
  match type_ f with
  | Integer => put (uint_codec 8) (i_value_ f) (put (uint_codec 1) (type_char (type_ f)) os)
  | String_ => put string_codec (s_value_ f) (put (uint_codec 1) (type_char (type_ f)) os)
  | Amount_ => put amount_codec (a_value_ f) (put (uint_codec 1) (type_char (type_ f)) os)
  | Unknown => os
  end.

Definition uf_put_for_sig (f : UserField) (os : obstream) : obstream :=
  match type_ f with
  | Integer => put (uint_codec 8) (i_value_ f) os
  | String_ => put string_codec (s_value_ f) os
  | Amount_ => put amount_codec (a_value_ f) os
  | Unknown => os
  end.

Definition set_integer (f : UserField) (v : Z) : UserField := mkUserField Integer v (s_value_ f) (a_value_ f).
Definition set_string (f : UserField) (v : bytes) : UserField := mkUserField String_ (i_value_ f) v (a_value_ f).
Definition set_amount (f : UserField) (v : Amount) : UserField := mkUserField Amount_ (i_value_ f) (s_value_ f) v.

(** [priv::get] on the object [f]. *)
Definition uf_get (f : UserField) (ist : ibstream) : option (UserField * ibstream) :=
  let? (type, ist) := get (uint_codec 1) ist in
  if type =? type_char Integer then
    let? (v, ist) := get (uint_codec 8) ist in Some (set_integer f v, ist)
  else if type =? type_char String_ then
    let? (v, ist) := get string_codec ist in Some (set_string f v, ist)
  else if type =? type_char Amount_ then
    let? (v, ist) := get amount_codec ist in Some (set_amount f v, ist)
  else None.

Definition uf_is_equal (f other : UserField) : bool :=
  if decide (type_ f = type_ other) then
    match type_ f with
    | Integer => i_value_ f =? i_value_ other
    | String_ => bool_decide (s_value_ f = s_value_ other)
    | Amount_ => op_eq (a_value_ f) (a_value_ other)
    | Unknown => true
    end
  else false.

Definition uf_is_valid (f : UserField) : bool := negb (bool_decide (Unknown = type_ f)).

(** The [value<T>] accessors. *)
Definition value_uint (f : UserField) : Z := match type_ f with Integer => i_value_ f | _ => 0 end.
Definition value_string (f : UserField) : bytes := match type_ f with String_ => s_value_ f | _ => [] end.
Definition value_amount (f : UserField) : Amount := match type_ f with Amount_ => a_value_ f | _ => of_int 0 end.
Definition value_bool (f : UserField) : bool := negb (0 =? value_uint f).

(** ** The codec *)

(** The fields [add_user_field] accepts, as the constructors make them. *)
Definition wf_uf (f : UserField) : Prop :=
  match type_ f with
  | Integer => in_u 64 (i_value_ f) /\ f = uf_of_uint (i_value_ f)
  | String_ => Z.of_nat (length (s_value_ f)) < 2 ^ 32 /\ f = uf_of_string (s_value_ f)
  | Amount_ => wf_amount (a_value_ f) /\ f = uf_of_amount (a_value_ f)
  | Unknown => False
  end.

(** Reading into a default-constructed field, as [ibstream::get(std::map&)] does. *)
Definition uf_codec : codec UserField := mkCodec UserField uf_put (uf_get uf_default) wf_uf.

Lemma uf_put_app f os : uf_put f os = os ++ uf_put f [].
Proof.
  unfold uf_put. destruct (type_ f); rewrite ?app_nil_r; [done|..];
    rewrite (put_app _ (put _ _ os)), (put_app _ (put _ _ [])), (put_app _ os), (put_app _ []),
      app_nil_l, app_assoc; done.
Qed.

#[export] Instance uf_codec_ok : CodecOk uf_codec.
Proof.
  split; unfold enc, uf_codec; cbn [put get wf].
  - apply uf_put_app.
  - intros f rest Hf. unfold wf_uf in Hf. unfold uf_put, uf_get.
    destruct (type_ f) eqn:Ht; [done|..]; destruct Hf as [Hv ->];
      rewrite (put_app _ (put _ _ [])), (put_app _ []), app_nil_l, <- app_assoc;
      (rewrite get_put by codec_wf); cbn [Z.eqb Pos.eqb type_char]; codec_read; done.
  - intros s a r x. unfold uf_get. destruct (get (uint_codec 1) s) as [[t s1]|] eqn:G; [|done].
    rewrite (get_app _ _ _ x G). do 3 (destruct (t =? _); [codec_mono; by intros [= <- <-]|]). done.
Qed.

Lemma uf_valid_wf f : wf_uf f -> uf_is_valid f = true.
Proof. unfold wf_uf, uf_is_valid. by destruct (type_ f). Qed.

Lemma uf_is_equal_spec f g : wf_uf f -> wf_uf g -> uf_is_equal f g = true <-> f = g.
Proof.
  unfold wf_uf, uf_is_equal. intros Hf Hg. destruct (decide (type_ f = type_ g)) as [E|E].
  - rewrite <- E in Hg. destruct (type_ f); [done|..]; destruct Hf as [_ ->], Hg as [_ ->]; cbn.
    + rewrite Z.eqb_eq. split; [by intros ->|by intros [=]].
    + rewrite bool_decide_eq_true. split; [by intros ->|by intros [=]].
    + destruct (a_value_ f), (a_value_ g). unfold op_eq; cbn. rewrite andb_true_iff, !Z.eqb_eq.
      split; [by intros [-> ->]|by intros [=]].
  - split; [done|]. intros ->. done.
Qed.
