(* ===== verification/Crypto.v ===== *)
(** * The cryptographic library and the hex printer

    [cscrypto] is a submodule, not part of the repository: its constants and
    functions are the class [Cscrypto], what the node relies on is
    [CscryptoLaws] (sizes, and that a hash has [kHashSize] bytes).  [toy] is a
    concrete instance, used to evaluate examples.

    [Hex] models [csdb/include/csdb/internal/utils.hpp]. *)

From Stdlib Require Import ZArith Lia.
From stdpp Require Import base tactics numbers option list.
From S2P Require Import Prelude.

Local Open Scope Z_scope.

Class Cscrypto := {
  kHashSize : nat;
  kPublicKeySize : nat;
  kSignatureSize : nat;
  calculateHash : bytes -> bytes;
  (** [verifySignature(signature, publicKey, data, size)] *)
  verifySignature : bytes -> bytes -> bytes -> bool
}.

Class CscryptoLaws (C : Cscrypto) : Prop := {
  hash_size_pos : (0 < kHashSize)%nat;
  hash_size_byte : Z.of_nat kHashSize < 256;
  (** a wallet id fits over a public key *)
  public_key_size_4 : (4 <= kPublicKeySize)%nat;
  calculateHash_length : forall data, length (calculateHash data) = kHashSize;
  calculateHash_bytes : forall data, bytes_ok (calculateHash data)
}.

#[export] Hint Resolve calculateHash_length hash_size_pos public_key_size_4 : cs.

(** A stand-in with the library's sizes: a positional checksum. *)
Definition toy_hash (data : bytes) : bytes :=
  le_bytes 32 (foldr (fun b acc => (b + 31 * acc + 7) mod 2 ^ 256) 0 data).

#[export] Instance toy : Cscrypto := {|
  kHashSize := 32; kPublicKeySize := 32; kSignatureSize := 64;
  calculateHash := toy_hash;
  verifySignature := fun sig key data => bool_decide (take 32 sig = toy_hash (key ++ data))
|}.

#[export] Instance toy_laws : CscryptoLaws toy.
Proof.
  split; [cbn; lia|cbn; lia|cbn; lia|..]; intros; [apply length_le_bytes|apply le_bytes_ok].
Qed.

Module Hex.
(** [toupper] of the "C" locale on a [char]. *)
Definition toupper (c : Z) : Z := if (97 <=? c) && (c <=? 122) then c - 32 else c.

Definition digit_from_hex (val : Z) : option Z :=
  let val := toupper val in
  if (48 <=? val) && (val <=? 57) then Some (val - 48)
  else if (65 <=? val) && (val <=? 70) then Some (val - 65 + 10)
  else None.

(** [from_hex(beg, end)]: stops at the end or at the first non-digit. *)
Fixpoint from_hex (val : list Z) : bytes :=
  match val with
  | h :: l :: rest =>
      match digit_from_hex h, digit_from_hex l with
      | Some hi, Some lo => Z.lor (Z.shiftl hi 4) lo :: from_hex rest
      | _, _ => []
      end
  | _ => []
  end.

Definition digit_to_hex (val : Z) : Z := if val <? 10 then val + 48 else val - 10 + 65.

(** [to_hex(beg, end)] *)
Fixpoint to_hex (val : bytes) : list Z :=
  match val with
  | [] => []
  | b :: rest =>
      digit_to_hex (Z.land (Z.shiftr b 4) 15) :: digit_to_hex (Z.land b 15) :: to_hex rest
  end.

Lemma digit_round d : 0 <= d < 16 -> digit_from_hex (digit_to_hex d) = Some d.
Proof.
  intros Hd. unfold digit_to_hex.
  destruct (Z.ltb_spec d 10) as [H|H]; unfold digit_from_hex, toupper.
  - rewrite (proj2 (Z.leb_gt 97 (d + 48))) by lia. cbn [andb].
    rewrite (proj2 (Z.leb_le 48 (d + 48))), (proj2 (Z.leb_le (d + 48) 57)) by lia. cbn [andb].
    f_equal. lia.
  - rewrite (proj2 (Z.leb_gt 97 (d - 10 + 65))) by lia. cbn [andb].
    rewrite (proj2 (Z.leb_gt (d - 10 + 65) 57)), andb_false_r by lia.
    rewrite (proj2 (Z.leb_le 65 (d - 10 + 65))), (proj2 (Z.leb_le (d - 10 + 65) 70)) by lia. cbn [andb].
    f_equal. lia.
Qed.

Lemma hex_nibbles b :
  0 <= b < 256 ->
  0 <= Z.land (Z.shiftr b 4) 15 < 16 /\ 0 <= Z.land b 15 < 16 /\
  Z.lor (Z.shiftl (Z.land (Z.shiftr b 4) 15) 4) (Z.land b 15) = b.
Proof.
  intros Hb. change 15 with (2 ^ 4 - 1). rewrite !land_ones_mod, Z.shiftr_div_pow2 by lia.
  rewrite Z.shiftl_mul_pow2, Z.mul_comm, Z.lor_comm by lia.
  rewrite lor_disjoint_add by machine_lia. machine_lia.
Qed.

Lemma from_hex_to_hex val : bytes_ok val -> from_hex (to_hex val) = val.
Proof.
  induction 1 as [|b val Hb _ IH]; [done|]. cbn [to_hex from_hex].
  destruct (hex_nibbles b Hb) as (Hh & Hl & E). rewrite !digit_round by done.
  by rewrite E, IH.
Qed.

Lemma length_to_hex val : length (to_hex val) = (2 * length val)%nat.
Proof. induction val; cbn; lia. Qed.

(** The result never has more bytes than half the characters. *)
Lemma length_from_hex val : (2 * length (from_hex val) <= length val)%nat.
Proof.
  revert val. fix IH 1. intros [|h [|l rest]]; cbn [from_hex length]; [lia|lia|].
  specialize (IH rest). repeat case_match; cbn [length] in *; lia.
Qed.
End Hex.
