(* ===== verification/DataStream.v ===== *)
(** * The data stream of the node's messages ([csnode/include/csnode/datastream.hpp])

    A read stream is the whole message [data_], the position [index_] and the
    flag [state_]; unlike [ibstream] it never stops reading: a field that does
    not fit clears [state_] and yields a default value.  [isAvailable]
    computes [index_ + size] in [size_t], so a size near 2^64 wraps; a vector
    built from such a size throws [std::length_error], which is the [Throw]
    side of the readers.

    [Streamable] is what a type's pair of stream operators promises: [<<]
    appends, [>>] reads back what [<<] wrote, and never moves backwards, past
    the end, or resets [state_]. *)

From Stdlib Require Import ZArith Lia.
From stdpp Require Import base tactics numbers option list.
From S2P Require Import Prelude BinStream Crypto.

Local Open Scope Z_scope.
Local Open Scope cs_scope.

Record istate := mkStream { data_ : bytes; index_ : Z; state_ : bool }.

Definition dataSize_ (s : istate) : Z := Z.of_nat (length (data_ s)).

(** [DataStream(const char* packet, std::size_t dataSize)] *)
Definition open (packet : bytes) : istate := mkStream packet 0 true.

Definition isValid (s : istate) : bool := if dataSize_ s <? index_ s then false else state_ s.

Definition isAvailable (s : istate) (size : Z) : bool := u64 (index_ s + size) <=? dataSize_ s.

(** [size()] of a read stream *)
Definition size (s : istate) : Z := u64 (dataSize_ s - index_ s).
Definition isEmpty (s : istate) : bool := size s =? 0.

Definition badState (s : istate) : istate := mkStream (data_ s) (index_ s) false.
Definition advance (s : istate) (n : Z) : istate := mkStream (data_ s) (u64 (index_ s + n)) (state_ s).

(** The [n] bytes at the position [i] of the message. *)
Definition slice (s : istate) (i : Z) (n : nat) : bytes := take n (drop (Z.to_nat i) (data_ s)).

Definition reader (A : Type) := istate -> result (A * istate).

(** [parseValue<T>()] for an unsigned [T] of [n] bytes *)
Definition parseValue (n : nat) (s : istate) : Z * istate :=
  if isAvailable s (Z.of_nat n)
  then (le_val (slice s (index_ s) n), advance s (Z.of_nat n))
  else (0, badState s).

(** [parseArray<T, size>()], [parseFixedString<size>()]: zeros on failure. *)
Definition parseArray (n : nat) (s : istate) : bytes * istate :=
  if isAvailable s (Z.of_nat n)
  then (slice s (index_ s) n, advance s (Z.of_nat n))
  else (replicate n 0, badState s).

(** The range constructor [cs::Bytes(first, first + size)]: a size that is
    negative as a [ptrdiff_t] is larger than [max_size()]. *)
Definition make_range (s : istate) (size : Z) : result bytes :=
  if 2 ^ 63 <=? size then Throw length_error
  else Ok (slice s (index_ s) (Z.to_nat size)).

(** [parseVector()], [parseString()] *)
Definition parseVector : reader bytes := fun s =>
  if isAvailable s 8
  then let '(size, s) := parseValue 8 s in
       if isAvailable s size
       then let! result := make_range s size in
            Ok (result, advance s size)
       else Ok ([], badState s)
  else Ok ([], badState s).

(** [parseBytesView()]: the view starts at [data_], not at [data_ + index_]. *)
Definition parseBytesView (s : istate) : bytes * istate :=
  let '(size, s) := parseValue 8 s in
  if isAvailable s size
  then (slice s 0 (Z.to_nat size), advance s size)
  else ([], badState s).

(** [skip<size>()] *)
Definition skip (n : nat) (s : istate) : istate :=
  if isAvailable s (Z.of_nat n) then advance s (Z.of_nat n) else badState s.

(** ** Writing: the appended bytes *)

Definition addValue (n : nat) (value : Z) (os : bytes) : bytes := os ++ le_bytes n value.
Definition addArray (array : bytes) (os : bytes) : bytes := os ++ array.
Definition addVector (data : bytes) (os : bytes) : bytes :=
  addValue 8 (Z.of_nat (length data)) os ++ data.
Definition addBytesView (view : bytes) (os : bytes) : bytes :=
  addValue 8 (Z.of_nat (length view)) os ++ view.

(** ** The stream operators of a type *)

Record streamable (A : Type) := mkStreamable {
  ds_put : A -> bytes -> bytes;
  ds_get : reader A;
  ds_wf : A -> Prop
}.
Arguments ds_put {A} s a os : rename.
Arguments ds_get {A} s ist : rename.
Arguments ds_wf {A} s a : rename.

Definition ds_enc {A} (c : streamable A) (a : A) : bytes := ds_put c a [].

Definition uint_ds (n : nat) : streamable Z :=
  mkStreamable Z (addValue n) (fun s => Ok (parseValue n s)) (fun z => 0 <= z < 256 ^ Z.of_nat n).
Definition array_ds (n : nat) : streamable bytes :=
  mkStreamable bytes addArray (fun s => Ok (parseArray n s)) (fun b => length b = n).
Definition vector_ds : streamable bytes :=
  mkStreamable bytes addVector parseVector (fun b => Z.of_nat (length b) < 2 ^ 63).

(** A position inside a message that fits in memory. *)
Record sane (s : istate) : Prop := {
  sane_index : 0 <= index_ s <= dataSize_ s;
  sane_size : dataSize_ s < 2 ^ 62;
  sane_bytes : bytes_ok (data_ s)
}.

Definition unread (s : istate) : bytes := drop (Z.to_nat (index_ s)) (data_ s).

(** The states a sane reader can leave a stream in. *)
Record after (s s' : istate) : Prop := {
  after_sane : sane s';
  after_data : data_ s' = data_ s;
  after_index : index_ s <= index_ s';
  after_state : state_ s' = true -> state_ s = true
}.

Class Streamable {A} (c : streamable A) : Prop := {
  ds_put_app : forall a os, ds_put c a os = os ++ ds_enc c a;
  ds_get_put : forall a rest s, ds_wf c a -> sane s -> unread s = ds_enc c a ++ rest ->
    ds_get c s = Ok (a, advance s (Z.of_nat (length (ds_enc c a))));
  ds_get_after : forall s a s', sane s -> ds_get c s = Ok (a, s') -> after s s'
}.

(** ** Lemmas *)

Lemma after_refl s : sane s -> after s s.
Proof. by split. Qed.

Lemma after_bad s : sane s -> after s (badState s).
Proof. destruct s. intros [? ? ?]. by split. Qed.

Lemma after_trans s s' s'' : after s s' -> after s' s'' -> after s s''.
Proof. intros [? H1 ? ?] [? H2 ? ?]. split; [done|congruence|lia|auto]. Qed.

Lemma isAvailable_exact s n :
  sane s -> 0 <= n < 2 ^ 62 -> isAvailable s n = (index_ s + n <=? dataSize_ s).
Proof. intros [Hi Hd Hbs] Hn. unfold isAvailable. by rewrite uwrap_id by (unfold in_u; lia). Qed.

Lemma after_advance s n :
  sane s -> 0 <= n -> index_ s + n <= dataSize_ s -> after s (advance s n).
Proof.
  intros [Hi Hd Hbs] Hn Hle. unfold advance. rewrite uwrap_id by (unfold in_u; lia).
  destruct s. split; cbn in *; [split; cbn; unfold dataSize_ in *; cbn in *; [lia|lia|done]|done|lia|done].
Qed.

Lemma length_unread s : sane s -> Z.of_nat (length (unread s)) = dataSize_ s - index_ s.
Proof. intros [Hi Hd Hbs]. unfold unread, dataSize_ in *. rewrite length_drop. lia. Qed.

Lemma slice_unread s n : slice s (index_ s) n = take n (unread s).
Proof. done. Qed.

Lemma unread_advance s l rest :
  sane s -> unread s = l ++ rest -> unread (advance s (Z.of_nat (length l))) = rest.
Proof.
  intros Hs E. pose proof (length_unread s Hs) as L. rewrite E, length_app in L.
  destruct Hs as [Hi Hd Hbs]. unfold unread, advance. rewrite uwrap_id by (unfold in_u; lia).
  destruct s as [d i b]; cbn [data_ index_] in *. unfold unread in E. cbn [data_ index_] in E.
  rewrite Z2Nat.inj_add, Nat2Z.id by lia. rewrite <- drop_drop, E. apply drop_app_length.
Qed.

Lemma available_unread s l rest :
  sane s -> unread s = l ++ rest -> isAvailable s (Z.of_nat (length l)) = true /\
  after s (advance s (Z.of_nat (length l))).
Proof.
  intros Hs E. pose proof (length_unread s Hs) as L. rewrite E, length_app in L.
  pose proof Hs as [Hi Hd Hbs]. rewrite isAvailable_exact by (done || lia).
  split; [apply Z.leb_le; lia|]. apply after_advance; [done|lia|lia].
Qed.

Lemma advance_advance s l l' rest :
  sane s -> unread s = l ++ l' ++ rest ->
  advance (advance s (Z.of_nat (length l))) (Z.of_nat (length l')) =
  advance s (Z.of_nat (length (l ++ l'))).
Proof.
  intros Hs E. pose proof (length_unread s Hs) as L. rewrite E, !length_app in L.
  destruct Hs as [Hi Hd Hbs]. destruct s as [d i b]. unfold advance. cbn in *. f_equal.
  rewrite (uwrap_id _ (i + _)) by (unfold in_u; lia). rewrite length_app. f_equal. lia.
Qed.

#[export] Hint Resolve after_refl after_bad after_sane : cs.


(** A size known at compile time. *)
Class Small (n : nat) : Prop := small : Z.of_nat n < 2 ^ 62.
#[export] Hint Extern 1 (Small ?n) => (unfold Small; reflexivity) : typeclass_instances.

Lemma take_exact {A} (l rest : list A) : take (length l) (l ++ rest) = l.
Proof. apply take_app_length. Qed.

Lemma parseValue_enc n a rest s :
  0 <= a < 256 ^ Z.of_nat n -> sane s -> unread s = le_bytes n a ++ rest ->
  parseValue n s = (a, advance s (Z.of_nat n)).
Proof.
  intros Ha Hs E. destruct (available_unread s _ _ Hs E) as [Hv _].
  rewrite length_le_bytes in Hv. unfold parseValue. rewrite Hv, slice_unread, E.
  rewrite take_app_exact by apply length_le_bytes. by rewrite le_val_bytes, Z.mod_small.
Qed.

Lemma parseValue_after n s a s' :
  Small n -> sane s -> parseValue n s = (a, s') -> after s s' /\ 0 <= index_ s' <= dataSize_ s.
Proof.
  intros Hn Hs. unfold parseValue. rewrite isAvailable_exact by (done || unfold Small in Hn; lia).
  destruct (Z.leb_spec (index_ s + Z.of_nat n) (dataSize_ s)); intros [= <- <-].
  - pose proof (after_advance s (Z.of_nat n) Hs) as Ha. destruct Ha as [Hs' Hd Hi Hb]; [lia..|].
    split; [done|]. destruct Hs' as [? _ _]. unfold dataSize_ in *. rewrite Hd in *. lia.
  - split; [by apply after_bad|]. destruct s, Hs; done.
Qed.

Lemma dataSize_after s s' : after s s' -> dataSize_ s' = dataSize_ s.
Proof. intros [_ H _ _]. unfold dataSize_. by rewrite H. Qed.

#[export] Instance uint_ds_ok n `{!Small n} : Streamable (uint_ds n).
Proof.
  split; unfold ds_enc, uint_ds; cbn [ds_put ds_get ds_wf]; unfold addValue.
  - done.
  - intros a rest s Ha Hs E. rewrite (parseValue_enc n a rest) by done.
    by rewrite app_nil_l, length_le_bytes.
  - intros s a s' Hs [= H]. by eapply parseValue_after.
Qed.

#[export] Instance array_ds_ok n `{!Small n} : Streamable (array_ds n).
Proof.
  split; unfold ds_enc, array_ds; cbn [ds_put ds_get ds_wf]; unfold addArray.
  - done.
  - intros a rest s Ha Hs E. rewrite app_nil_l in *. destruct (available_unread s _ _ Hs E) as [Hv _].
    unfold parseArray. rewrite Ha in Hv. rewrite Hv, slice_unread, E, take_app_exact by done. by rewrite Ha.
  - intros s a s' Hs [= H]. revert H. unfold parseArray.
    rewrite isAvailable_exact by (done || unfold Small in *; lia).
    destruct (Z.leb_spec (index_ s + Z.of_nat n) (dataSize_ s)); intros [= <- <-]; [|by apply after_bad].
    apply after_advance; [done|lia|lia].
Qed.

(** Every size the check lets through either fits or throws. *)
Lemma make_range_after s size r :
  sane s -> 0 <= size < 2 ^ 64 -> isAvailable s size = true -> make_range s size = Ok r ->
  after s (advance s size).
Proof.
  intros Hs Hz Hv. pose proof Hs as [Hi Hd Hbs]. unfold make_range.
  destruct (Z.leb_spec (2 ^ 63) size) as [|Hlt]; [done|]. intros _.
  unfold isAvailable in Hv. rewrite uwrap_id in Hv by (unfold in_u; lia).
  apply Z.leb_le in Hv. apply after_advance; [done|lia|lia].
Qed.

Lemma parseValue_range n s : bytes_ok (data_ s) -> 0 <= (parseValue n s).1 < 256 ^ Z.of_nat n.
Proof.
  intros Hb. unfold parseValue. destruct (isAvailable _ _); cbn [fst]; [|lia].
  assert (bytes_ok (slice s (index_ s) n)) as Hs by by apply Forall_take, Forall_drop.
  pose proof (le_val_range _ Hs) as H. unfold slice in *. rewrite length_take in H.
  split; [lia|]. eapply Z.lt_le_trans; [apply H|]. apply Z.pow_le_mono_r; lia.
Qed.

Lemma parseVector_enc a rest s :
  Z.of_nat (length a) < 2 ^ 63 -> sane s -> unread s = ds_enc vector_ds a ++ rest ->
  parseVector s = Ok (a, advance s (Z.of_nat (length (ds_enc vector_ds a)))).
Proof.
  unfold ds_enc, vector_ds; cbn [ds_put ds_get ds_wf]; unfold addVector, addValue.
  rewrite app_nil_l. intros Ha Hs E. rewrite <- app_assoc in E.
  destruct (available_unread s _ _ Hs E) as [Hv Haf].
  rewrite length_le_bytes in Hv, Haf. unfold parseVector. change (Z.of_nat 8) with 8 in *. rewrite Hv.
  rewrite (parseValue_enc 8 (Z.of_nat (length a)) (a ++ rest)) by (done || lia).
  assert (unread (advance s 8) = a ++ rest) as E1.
  { change 8 with (Z.of_nat 8). rewrite <- (length_le_bytes 8 (Z.of_nat (length a))).
    by apply unread_advance. }
  destruct (available_unread (advance s 8) a rest) as [Hv1 _]; [apply Haf|done|].
  unfold make_range. change (Z.of_nat 8) with 8. rewrite Hv1.
  rewrite (proj2 (Z.leb_gt (2 ^ 63) (Z.of_nat (length a)))) by done. cbn [rbind].
  rewrite slice_unread, E1, Nat2Z.id, take_exact.
  rewrite <- (advance_advance s (le_bytes 8 (Z.of_nat (length a))) a rest) by done.
  by rewrite length_le_bytes.
Qed.

#[export] Instance vector_ds_ok : Streamable vector_ds.
Proof.
  split; cbn [ds_get vector_ds].
  - intros a os. unfold ds_enc, vector_ds; cbn [ds_put]; unfold addVector, addValue.
    by rewrite app_nil_l, app_assoc.
  - intros a rest s Ha Hs E. by eapply parseVector_enc.
  - intros s a s' Hs. unfold parseVector.
    destruct (isAvailable s 8); [|intros [= <- <-]; by apply after_bad].
    destruct (parseValue 8 s) as [sz s1] eqn:G.
    pose proof (parseValue_range 8 s (sane_bytes s Hs)) as Hz. rewrite G in Hz. cbn [fst] in Hz.
    apply parseValue_after in G as [G _]; [|done|done].
    destruct (isAvailable s1 sz) eqn:Hv.
    + destruct (make_range s1 sz) as [r|] eqn:M; [|done]. intros [= <- <-].
      apply (after_trans _ _ _ G), (make_range_after _ _ r); [apply G|exact Hz|done|done].
    + intros [= <- <-]. apply (after_trans _ _ _ G), after_bad, G.
Qed.

(** ** Vectors of entities, packet hashes, pairs *)

Section entities.
Context {A : Type} (c : streamable A).

Fixpoint put_all (l : list A) (os : bytes) : bytes :=
  match l with [] => os | entity :: l' => put_all l' (ds_put c entity os) end.

(** [operator<<(DataStream&, const std::vector<T, U>&)] *)
Definition put_entities (l : list A) (os : bytes) : bytes :=
  put_all l (addValue 8 (Z.of_nat (length l)) os).

Fixpoint get_all (cnt : nat) (s : istate) : result (list A * istate) :=
  match cnt with
  | O => Ok ([], s)
  | S cnt' =>
      let! (entity, s) := ds_get c s in
      let! (l, s) := get_all cnt' s in
      Ok (entity :: l, s)
  end.

(** [operator>>(DataStream&, std::vector<T, U>&)] into an empty vector: a
    count larger than the number of bytes left is skipped, [state_] is not
    touched; [reserve] throws for a count above [max_size()]. *)
Definition get_entities : reader (list A) := fun s =>
  let '(size, s) := parseValue 8 s in
  if size =? 0 then Ok ([], s)
  else if negb (isAvailable s size) then Ok ([], s)
  else if 2 ^ 63 <=? size then Throw length_error
  else get_all (Z.to_nat size) s.

Definition entities_ds : streamable (list A) :=
  mkStreamable (list A) put_entities get_entities
    (fun l => Forall (fun a => ds_wf c a /\ ds_enc c a <> []) l /\ Z.of_nat (length l) < 2 ^ 63).

Context `{!Streamable c}.

Definition enc_all (l : list A) : bytes := put_all l [].

Lemma put_all_app l os : put_all l os = os ++ enc_all l.
Proof using Type*.
  unfold enc_all. revert os. induction l as [|a l IH]; intros os; cbn; [by rewrite app_nil_r|].
  by rewrite IH, (IH (ds_put c a [])), ds_put_app, <- app_assoc.
Qed.

Lemma enc_all_cons a l : enc_all (a :: l) = ds_enc c a ++ enc_all l.
Proof using Type*. unfold enc_all at 1. cbn [put_all]. by rewrite put_all_app. Qed.

Lemma length_enc_all l :
  Forall (fun a => ds_wf c a /\ ds_enc c a <> []) l -> (length l <= length (enc_all l))%nat.
Proof using Type*.
  induction 1 as [|a l [_ Ha] _ IH]; [done|]. rewrite enc_all_cons, length_app. cbn.
  destruct (ds_enc c a); cbn; [done|lia].
Qed.

Lemma get_all_put l rest s :
  Forall (ds_wf c) l -> sane s -> unread s = enc_all l ++ rest ->
  get_all (length l) s = Ok (l, advance s (Z.of_nat (length (enc_all l)))).
Proof using Type*.
  intros Hl. revert s. induction Hl as [|a l Ha _ IH]; intros s Hs E.
  - cbn. destruct s as [d i b]; destruct Hs as [Hi Hd _]. unfold advance. cbn in *.
    rewrite uwrap_id by (unfold in_u; lia). repeat f_equal. lia.
  - rewrite enc_all_cons, <- app_assoc in E. cbn [length get_all].
    rewrite (ds_get_put a _ s Ha Hs E). cbn [rbind].
    rewrite IH; [| |by apply unread_advance].
    + cbn [rbind]. rewrite enc_all_cons. by rewrite <- (advance_advance s _ _ rest).
    + by destruct (available_unread s _ _ Hs E) as [_ [? _ _ _]].
Qed.

Lemma get_all_after n s l s' : sane s -> get_all n s = Ok (l, s') -> after s s'.
Proof using Type*.
  revert s l. induction n as [|n IH]; intros s l Hs; cbn [get_all].
  - intros [= <- <-]. by apply after_refl.
  - destruct (ds_get c s) as [[a s1]|] eqn:G; [|done]. cbn [rbind].
    apply ds_get_after in G; [|done].
    destruct (get_all n s1) as [[k s2]|] eqn:G2; [|done]. cbn [rbind]. intros [= <- <-].
    apply (after_trans _ _ _ G), (IH _ _ (after_sane _ _ G) G2).
Qed.

#[export] Instance entities_ds_ok : Streamable entities_ds.
Proof using Type*.
  split; cbn [ds_get entities_ds].
  - intros l os. unfold ds_enc, entities_ds; cbn [ds_put]; unfold put_entities, addValue.
    by rewrite !(put_all_app l (_ ++ _)), app_nil_l, app_assoc.
  - intros l rest s [Hl Hlen] Hs. unfold ds_enc, entities_ds; cbn [ds_put]; unfold put_entities.
    rewrite put_all_app. unfold addValue. rewrite app_nil_l, <- app_assoc. intros E.
    unfold get_entities. rewrite (parseValue_enc 8 (Z.of_nat (length l)) (enc_all l ++ rest)) by (done || lia).
    destruct (available_unread s _ _ Hs E) as [_ Haf]. rewrite length_le_bytes in Haf.
    assert (unread (advance s (Z.of_nat 8)) = enc_all l ++ rest) as E1.
    { rewrite <- (length_le_bytes 8 (Z.of_nat (length l))). by apply unread_advance. }
    pose proof (length_enc_all l Hl) as Hle.
    pose proof (length_unread _ (after_sane _ _ Haf)) as Hu. rewrite E1, length_app in Hu.
    rewrite <- (advance_advance s (le_bytes 8 (Z.of_nat (length l))) (enc_all l) rest) by done.
    rewrite length_le_bytes.
    assert (get_all (length l) (advance s (Z.of_nat 8)) =
      Ok (l, advance (advance s (Z.of_nat 8)) (Z.of_nat (length (enc_all l))))) as Hall.
    { apply (get_all_put l rest); [|apply Haf|done]. eapply Forall_impl; [exact Hl|]. by intros ? [? _]. }
    destruct (Z.eqb_spec (Z.of_nat (length l)) 0) as [Hz|Hz].
    { destruct l; [exact Hall|done]. }
    pose proof (after_sane _ _ Haf) as Hs1. pose proof Hs1 as [Hi Hd _].
    rewrite isAvailable_exact by (done || lia).
    destruct (Z.leb_spec (index_ (advance s (Z.of_nat 8)) + Z.of_nat (length l))
                (dataSize_ (advance s (Z.of_nat 8)))); [|lia].
    cbn [negb]. destruct (Z.leb_spec (2 ^ 63) (Z.of_nat (length l))); [lia|]. by rewrite Nat2Z.id.
  - intros s l s' Hs. unfold get_entities.
    destruct (parseValue 8 s) as [sz s1] eqn:G. apply parseValue_after in G as [G _]; [|done|done].
    destruct (sz =? 0); [by intros [= <- <-]|].
    destruct (negb _); [by intros [= <- <-]|]. destruct (2 ^ 63 <=? sz); [done|].
    intros H. apply (after_trans _ _ _ G), (get_all_after _ _ _ _ (after_sane _ _ G) H).
Qed.
End entities.

(** ** What the readers do with a hostile length *)

(** DataStream::parseVector on a length field of any value: it returns the bytes when the stream
    holds them, marks the stream bad when it does not, and throws length_error for the lengths
    whose sum with the position wraps in size_t. *)
Theorem parseVector_throws s sz rest :
  sane s -> 0 <= sz < 2 ^ 64 -> unread s = le_bytes 8 sz ++ rest ->
  parseVector s =
    if sz <=? Z.of_nat (length rest) then Ok (take (Z.to_nat sz) rest, advance s (8 + sz))
    else if 2 ^ 64 - (index_ s + 8) <=? sz then Throw length_error
    else Ok ([], badState (advance s 8)).
Proof.
  intros Hs Hz E. destruct (available_unread s _ _ Hs E) as [Hv Haf].
  pose proof (length_unread s Hs) as Hu. rewrite E, length_app in Hu.
  rewrite length_le_bytes in *. unfold parseVector. change (Z.of_nat 8) with 8 in *. rewrite Hv.
  rewrite (parseValue_enc 8 sz rest) by done. change (Z.of_nat 8) with 8.
  assert (unread (advance s 8) = rest) as E1.
  { change 8 with (Z.of_nat (length (le_bytes 8 sz))). by apply unread_advance. }
  pose proof (after_sane _ _ Haf) as Hs1. pose proof (dataSize_after _ _ Haf) as Hds.
  pose proof Hs as [Hi Hd _].
  assert (index_ (advance s 8) = index_ s + 8) as Hix.
  { unfold advance. cbn [index_]. apply uwrap_id. unfold in_u. lia. }
  unfold isAvailable, make_range. rewrite slice_unread, E1, Hix, Hds.
  destruct (Z.leb_spec (2 ^ 64 - (index_ s + 8)) sz) as [Hw|Hw].
  - rewrite (proj2 (Z.leb_gt sz (Z.of_nat (length rest)))) by lia.
    rewrite (proj2 (Z.leb_le (2 ^ 63) sz)) by lia.
    replace (u64 (index_ s + 8 + sz)) with (index_ s + 8 + sz - 2 ^ 64)
      by (unfold uwrap; rewrite <- (Z.mod_add _ (-1)) by lia; rewrite Z.mod_small; lia).
    by rewrite (proj2 (Z.leb_le _ (dataSize_ s))) by lia.
  - rewrite uwrap_id by (unfold in_u; lia).
    destruct (Z.leb_spec sz (Z.of_nat (length rest))) as [Hf|Hf].
    + rewrite (proj2 (Z.leb_le _ (dataSize_ s))) by lia.
      rewrite (proj2 (Z.leb_gt (2 ^ 63) sz)) by lia. cbn [rbind]. do 2 f_equal.
      unfold advance. cbn. f_equal. rewrite (uwrap_id _ (index_ s + 8)) by (unfold in_u; lia). f_equal. lia.
    + by rewrite (proj2 (Z.leb_gt _ (dataSize_ s))) by lia.
Qed.

(** A vector whose count exceeds the bytes left is skipped without marking the stream bad. *)
Theorem get_entities_overlong {A} (c : streamable A) s cnt rest :
  sane s -> unread s = le_bytes 8 cnt ++ rest ->
  Z.of_nat (length rest) < cnt < 2 ^ 64 - (index_ s + 8) ->
  get_entities c s = Ok ([], advance s 8) /\ isValid (advance s 8) = state_ s.
Proof.
  intros Hs E Hc. destruct (available_unread s _ _ Hs E) as [_ Haf].
  rewrite length_le_bytes in Haf. change (Z.of_nat 8) with 8 in Haf.
  pose proof (length_unread s Hs) as Hu. rewrite E, length_app, length_le_bytes in Hu.
  pose proof (dataSize_after _ _ Haf) as Hds. pose proof Hs as [Hi Hd _].
  assert (index_ (advance s 8) = index_ s + 8) as Hix.
  { unfold advance. cbn [index_]. apply uwrap_id. unfold in_u. lia. }
  unfold get_entities. rewrite (parseValue_enc 8 cnt rest) by (done || lia).
  change (Z.of_nat 8) with 8. rewrite (proj2 (Z.eqb_neq cnt 0)) by lia.
  unfold isAvailable, isValid. rewrite Hix, Hds, uwrap_id by (unfold in_u; lia).
  rewrite (proj2 (Z.leb_gt _ (dataSize_ s))), (proj2 (Z.ltb_ge (dataSize_ s) _)) by lia. done.
Qed.

(** [parseBytesView] gives the first bytes of the packet, not those at the stream's position. *)
Theorem parseBytesView_head s view rest :
  sane s -> Z.of_nat (length view) < 2 ^ 63 -> unread s = addBytesView view [] ++ rest ->
  parseBytesView s = (take (length view) (data_ s), advance s (8 + Z.of_nat (length view))).
Proof.
  intros Hs Hl E. unfold addBytesView, addValue in E. rewrite app_nil_l, <- app_assoc in E.
  destruct (available_unread s _ _ Hs E) as [_ Haf]. rewrite length_le_bytes in Haf.
  unfold parseBytesView. rewrite (parseValue_enc 8 (Z.of_nat (length view)) (view ++ rest)) by (done || lia).
  assert (unread (advance s (Z.of_nat 8)) = view ++ rest) as E1.
  { rewrite <- (length_le_bytes 8 (Z.of_nat (length view))). by apply unread_advance. }
  destruct (available_unread _ _ _ (after_sane _ _ Haf) E1) as [-> _].
  unfold slice. rewrite Nat2Z.id. change (Z.to_nat 0) with 0%nat. rewrite drop_0.
  pose proof (length_unread s Hs) as Hu. rewrite E, !length_app, length_le_bytes in Hu. destruct Hs as [Hi Hd _].
  unfold advance. cbn. rewrite (uwrap_id _ (index_ s + 8)) by (unfold in_u; lia).
  by rewrite Z.add_assoc.
Qed.

(** Reading one field of a message built by the matching [<<]. *)
Lemma ds_step {A} (c : streamable A) `{!Streamable c} a rest s :
  ds_wf c a -> sane s -> unread s = ds_enc c a ++ rest ->
  exists s', ds_get c s = Ok (a, s') /\ sane s' /\ unread s' = rest /\ state_ s' = state_ s.
Proof.
  intros Ha Hs E. exists (advance s (Z.of_nat (length (ds_enc c a)))).
  destruct (available_unread s _ _ Hs E) as [_ Haf].
  split; [by eapply ds_get_put|]. split; [apply Haf|]. split; [by apply unread_advance|done].
Qed.

Lemma sane_open packet :
  bytes_ok packet -> Z.of_nat (length packet) < 2 ^ 62 -> sane (open packet).
Proof. intros Hb Hl. split; [|done..]. cbn. unfold dataSize_. cbn. lia. Qed.

Lemma unread_open packet : unread (open packet) = packet.
Proof. done. Qed.

(** A sane stream with nothing left. *)
Lemma unread_nil s : sane s -> unread s = [] -> index_ s = dataSize_ s /\ isValid s = state_ s.
Proof.
  intros Hs E. pose proof (length_unread s Hs) as H. rewrite E in H. cbn in H.
  split; [lia|]. unfold isValid. by rewrite (proj2 (Z.ltb_ge _ _)) by lia.
Qed.

(** Run the first reader of a chain over the encoding of its value. *)
Ltac ds_run :=
  match goal with
  | Hs : sane ?s, E : unread ?s = ds_enc ?c ?a ++ ?rest |- context [ds_get ?c ?s] =>
      let s' := fresh "s" in let G := fresh "G" in let Hs' := fresh "Hs" in
      let E' := fresh "E" in let B := fresh "B" in
      destruct (ds_step c a rest s) as (s' & G & Hs' & E' & B); [ | exact Hs | exact E | ];
      [ | rewrite G; cbn [rbind]; clear G Hs E ]
  end.

(** The flag at the end of a chain that never failed. *)
Ltac ds_state :=
  repeat match goal with B : state_ ?s = _ |- state_ ?s = true => rewrite B; clear B end; reflexivity.

(** Encodings are prefix-free: equal messages have equal first fields. *)
Lemma enc_app_inj {A} (c : streamable A) `{!Streamable c} a b r r' :
  ds_wf c a -> ds_wf c b -> bytes_ok (ds_enc c a ++ r) -> Z.of_nat (length (ds_enc c a ++ r)) < 2 ^ 62 ->
  ds_enc c a ++ r = ds_enc c b ++ r' -> a = b /\ r = r'.
Proof.
  intros Ha Hb Hok Hl E. pose proof (sane_open _ Hok Hl) as Hs.
  pose proof (ds_get_put a r _ Ha Hs (unread_open _)) as G.
  assert (unread (open (ds_enc c a ++ r)) = ds_enc c b ++ r') as E' by exact E.
  rewrite (ds_get_put b r' _ Hb Hs E') in G. injection G as -> _. split; [done|]. by apply app_inv_head in E.
Qed.

(** ** Witnesses *)

(** A size that wraps around the position: the constructor throws. *)
Lemma parseVector_throws_witness :
  let s := open (le_bytes 8 (2 ^ 64 - 1) ++ [1; 2]) in
  parseVector s =
    if 2 ^ 64 - 1 <=? 2 then Ok (take (Z.to_nat (2 ^ 64 - 1)) [1; 2], advance s (8 + (2 ^ 64 - 1)))
    else if 2 ^ 64 - (0 + 8) <=? 2 ^ 64 - 1 then Throw length_error
    else Ok ([], badState (advance s 8)).
Proof.
  apply (parseVector_throws (open (le_bytes 8 (2 ^ 64 - 1) ++ [1; 2])) (2 ^ 64 - 1) [1; 2]); [|lia|done].
  apply sane_open; [by apply (bool_decide_unpack _); vm_compute|done].
Defined.
