(* ===== verification/Address.v ===== *)
(** * Addresses ([csdb/include/csdb/address.hpp], [csdb/src/address.cpp])

    An address is a public key or a wallet id.  [priv] keeps both in a union:
    [data_] is its object representation, as long as a public key; a wallet id
    is the little-endian integer over its first four bytes.

    The copy-on-write pointer [d] ([shared_data_ptr]) detaches on every
    non-const access, so an object has value semantics; the shortcuts for two
    objects sharing a [priv] agree with the comparison of equal values. *)

From Stdlib Require Import ZArith Lia.
From stdpp Require Import base tactics numbers option list.
From S2P Require Import Prelude OrdMap BinStream Crypto.

Local Open Scope Z_scope.
Local Open Scope cs_scope.

Record Address := mkAddress { data_ : bytes; is_wallet_id_ : bool }.

#[export] Instance Address_eq_dec : EqDecision Address.
Proof. solve_decision. Defined.

(** [std::array]'s [operator<]: lexicographical. *)
Fixpoint lex_lt (a b : bytes) : bool :=
  match a, b with
  | _, [] => false
  | [], _ :: _ => true
  | x :: a', y :: b' => if x <? y then true else if y <? x then false else lex_lt a' b'
  end.

Section address.
Context `{!Cscrypto}.

Definition default_address : Address := mkAddress (replicate kPublicKeySize 0) false.

(** The members of the union. *)
Definition data_wallet_id (a : Address) : Z := le_val (take 4 (data_ a)).
Definition set_wallet_id (a : Address) (id : Z) (w : bool) : Address :=
  mkAddress (le_bytes 4 id ++ drop 4 (data_ a)) w.

Definition is_public_key (a : Address) : bool := negb (is_wallet_id_ a).
Definition is_wallet_id (a : Address) : bool := is_wallet_id_ a.
Definition is_valid (a : Address) : bool := is_public_key a || is_wallet_id a.

Definition op_eq (a other : Address) : bool :=
  if negb (bool_decide (is_public_key a = is_public_key other)) then false
  else if is_public_key a then bool_decide (data_ a = data_ other)
  else data_wallet_id a =? data_wallet_id other.

Definition op_lt (a other : Address) : bool :=
  if is_wallet_id_ a && is_wallet_id_ other then data_wallet_id a <? data_wallet_id other
  else if negb (is_wallet_id_ a) && negb (is_wallet_id_ other) then lex_lt (data_ a) (data_ other)
  else if is_wallet_id_ a && negb (is_wallet_id_ other) then lex_lt (data_ a) (data_ other)
  else if negb (is_wallet_id_ a) && is_wallet_id_ other then lex_lt (data_ a) (data_ other)
  else false.

Definition public_key (a : Address) : bytes := data_ a.

(** [wallet_id()]: (WalletId)-1 for a public key. *)
Definition wallet_id (a : Address) : Z := if is_wallet_id a then data_wallet_id a else 4294967295.

(** [from_public_key(const cs::Bytes&)] *)
Definition from_key_bytes (key : bytes) : Address :=
  if decide (kPublicKeySize = length key) then mkAddress key false else default_address.

(** [from_public_key(const cs::PublicKey&)] *)
Definition from_public_key (key : bytes) : Address := mkAddress key false.

Definition from_wallet_id (id : Z) : Address := set_wallet_id default_address id true.

Definition put_address (a : Address) (os : obstream) : obstream :=
  if is_public_key a then put (array_codec kPublicKeySize) (data_ a) os
  else put (uint_codec 4) (data_wallet_id a) os.

(** [get] on the object [a]: the kind is guessed from the size of the stream. *)
Definition get_address (a : Address) (ist : ibstream) : option (Address * ibstream) :=
  if decide (length ist = kPublicKeySize) then
    let? (k, ist) := get (array_codec kPublicKeySize) ist in Some (mkAddress k (is_wallet_id_ a), ist)
  else
    let? (id, ist) := get (uint_codec 4) ist in Some (set_wallet_id a id (is_wallet_id_ a), ist).

(** ** What the constructors build *)

Definition wf_address (a : Address) : Prop :=
  if is_wallet_id_ a then exists id, in_u 32 id /\ a = from_wallet_id id
  else length (data_ a) = kPublicKeySize.

Context `{!CscryptoLaws _}.

Lemma from_wallet_id_id id : in_u 32 id -> data_wallet_id (from_wallet_id id) = id.
Proof.
  intros Hid. unfold from_wallet_id, set_wallet_id, data_wallet_id; cbn [data_].
  rewrite take_app_exact by apply length_le_bytes.
  rewrite le_val_bytes. change (256 ^ Z.of_nat 4) with (2 ^ 32). by apply Z.mod_small.
Qed.

Lemma length_from_wallet_id id : length (data_ (from_wallet_id id)) = kPublicKeySize.
Proof.
  unfold from_wallet_id, set_wallet_id, default_address. pose proof public_key_size_4.
  cbn [data_]. rewrite length_app, length_le_bytes, length_drop, length_replicate. lia.
Qed.

Lemma wf_from_wallet_id id : in_u 32 id -> wf_address (from_wallet_id id).
Proof. intros Hid. unfold wf_address. cbn. by exists id. Qed.

Lemma wf_from_public_key k : length k = kPublicKeySize -> wf_address (from_public_key k).
Proof. done. Qed.

Lemma wf_from_key_bytes k : wf_address (from_key_bytes k).
Proof.
  unfold from_key_bytes. case_decide; unfold wf_address; cbn [is_wallet_id_ data_]; [done|]. apply length_replicate.
Qed.

Lemma wf_address_length a : wf_address a -> length (data_ a) = kPublicKeySize.
Proof.
  unfold wf_address. destruct (is_wallet_id_ a) eqn:E; [|done].
  intros (id & _ & ->). apply length_from_wallet_id.
Qed.

(** Equality of addresses is equality of what they denote. *)
Lemma op_eq_address a b : wf_address a -> wf_address b -> op_eq a b = true <-> a = b.
Proof.
  unfold wf_address, op_eq, is_public_key. destruct a as [da wa], b as [db wb]; cbn [is_wallet_id_ data_].
  destruct wa, wb; cbn [negb].
  - intros (i & Hi & ->) (j & Hj & ->). rewrite bool_decide_true by done. cbn [negb]. rewrite !from_wallet_id_id, Z.eqb_eq by done.
    split; [by intros ->|]. intros E. apply (f_equal data_wallet_id) in E. by rewrite !from_wallet_id_id in E.
  - intros. rewrite bool_decide_false by done. split; [done|]. intros [=].
  - intros. rewrite bool_decide_false by done. split; [done|]. intros [=].
  - intros _ _. rewrite bool_decide_true by done. cbn [negb]. rewrite bool_decide_eq_true. split; [by intros ->|by intros [=]].
Qed.

(** *** Order *)

Lemma lex_lt_irrefl l : lex_lt l l = false.
Proof. induction l as [|x l IH]; cbn; [done|]. by rewrite Z.ltb_irrefl. Qed.

Lemma lex_lt_trans l1 l2 l3 : lex_lt l1 l2 = true -> lex_lt l2 l3 = true -> lex_lt l1 l3 = true.
Proof.
  revert l2 l3. induction l1 as [|x l1 IH]; intros [|y l2] [|z l3]; cbn; try done.
  intros H1 H2. destruct (Z.ltb_spec x y), (Z.ltb_spec y x), (Z.ltb_spec y z), (Z.ltb_spec z y),
    (Z.ltb_spec x z), (Z.ltb_spec z x); (done || lia || by eapply IH).
Qed.

Lemma lex_lt_total l1 l2 : l1 <> l2 -> lex_lt l1 l2 = true \/ lex_lt l2 l1 = true.
Proof.
  revert l2. induction l1 as [|x l1 IH]; intros [|y l2] Hne; cbn; auto.
  destruct (Z.ltb_spec x y); [auto|]. destruct (Z.ltb_spec y x); [auto|].
  apply IH. intros ->. apply Hne. f_equal. lia.
Qed.

(** Among addresses of one kind [operator<] is a strict total order up to [operator==]. *)
Theorem op_lt_same_kind a b c :
  wf_address a -> wf_address b -> wf_address c ->
  is_wallet_id_ a = is_wallet_id_ b -> is_wallet_id_ b = is_wallet_id_ c ->
  op_lt a a = false /\ (op_lt a b = true -> op_lt b c = true -> op_lt a c = true) /\
  (op_eq a b = false -> op_lt a b = true \/ op_lt b a = true).
Proof.
  intros Ha Hb Hc Eab Ebc. rewrite <- (not_true_iff_false (op_eq a b)), op_eq_address by done.
  destruct a as [da wa], b as [db wb], c as [dc wc]. cbn [is_wallet_id_] in Eab, Ebc. subst wb wc.
  unfold op_lt; cbn [is_wallet_id_ data_]. destruct wa; cbn [andb negb].
  - rewrite !Z.ltb_lt, Z.ltb_irrefl. split_and!; [done|lia|]. intros Hne.
    destruct Ha as (i & Hi & Ea), Hb as (j & Hj & Eb). rewrite Ea, Eb, !from_wallet_id_id by done.
    destruct (decide (i = j)) as [->|]; [|lia]. congruence.
  - split_and!; [apply lex_lt_irrefl|apply lex_lt_trans|]. intros Hne. apply lex_lt_total. congruence.
Qed.
End address.

(** Across the two kinds the order compares a key with the bytes of an id, and
    two ids as integers: three addresses can form a cycle, so [operator<] is
    not the strict weak order an ordered container needs. *)
Theorem op_lt_not_an_order `{!Cscrypto, !CscryptoLaws _} :
  exists a b c, wf_address a /\ wf_address b /\ wf_address c /\
    op_lt a b = true /\ op_lt b c = true /\ op_lt c a = true.
Proof.
  pose proof public_key_size_4 as Hs. destruct kPublicKeySize as [|[|[|[|n]]]] eqn:E; [lia..|].
  exists (from_wallet_id 256), (from_public_key ([0; 128; 0; 0] ++ replicate n 0)), (from_wallet_id 1).
  split_and!; [by apply wf_from_wallet_id| |by apply wf_from_wallet_id| | |].
  - apply wf_from_public_key. rewrite length_app, length_replicate, E. done.
  - unfold op_lt, from_wallet_id, set_wallet_id, default_address. rewrite E. reflexivity.
  - unfold op_lt, from_wallet_id, set_wallet_id, default_address. rewrite E. reflexivity.
  - unfold op_lt, data_wallet_id, from_wallet_id, set_wallet_id, default_address. rewrite E. reflexivity.
Qed.

(** [get] never sets the wallet flag, so a wallet id written by [put] is read
    back as a public key that starts with the bytes of the id. *)
Theorem get_put_address `{!Cscrypto, !CscryptoLaws _} a :
  wf_address a -> kPublicKeySize <> 4%nat ->
  get_address default_address (put_address a []) = Some (mkAddress (data_ a) false, []).
Proof.
  intros Ha Hs. unfold wf_address, get_address, put_address, is_public_key in *.
  destruct (is_wallet_id_ a) eqn:Ew; cbn [negb].
  - destruct Ha as (id & Hid & ->). rewrite from_wallet_id_id by done.
    assert (length (put (uint_codec 4) id []) = 4%nat) as ->.
    { cbn [put uint_codec]. unfold put_int. by rewrite app_nil_l, length_le_bytes. }
    rewrite decide_False by done. fold (enc (uint_codec 4) id).
    rewrite (get_put_nil (uint_codec 4) id); [done|]. unfold in_u in Hid. cbn. lia.
  - assert (length (put (array_codec kPublicKeySize) (data_ a) []) = kPublicKeySize) as ->.
    { cbn [put array_codec]. unfold put_array. by rewrite app_nil_l. }
    rewrite decide_True by done. fold (enc (array_codec kPublicKeySize) (data_ a)).
    rewrite (get_put_nil (array_codec kPublicKeySize) (data_ a) Ha). done.
Qed.
