(* ===== verification/Utils.v ===== *)
(** * Utilities ([lib/include/lib/system/utils.hpp])

    The masks of trusted nodes, packed into the bits of a 64-bit integer and
    back, and the hex strings.  A mask is a byte per trusted node; 255 is
    "not trusted", anything else counts as trusted. *)

From Stdlib Require Import ZArith Lia.
From stdpp Require Import base tactics numbers option list.
From S2P Require Import Prelude.

Local Open Scope Z_scope.
Local Open Scope cs_scope.

(** [__builtin_popcountl]: the one bits among the first [n] ones of [z]. *)
Fixpoint popcount_n (n : nat) (z : Z) : Z :=
  match n with
  | O => 0
  | S n' => z mod 2 + popcount_n n' (z / 2)
  end.
Definition popcount (z : Z) : Z := popcount_n 64 z.

Lemma popcount_n_range n z : 0 <= popcount_n n z <= Z.of_nat n.
Proof.
  revert z. induction n as [|n IH]; intros z; cbn [popcount_n]; [lia|].
  specialize (IH (z / 2)). machine_lia.
Qed.

Lemma popcount_u8 z : u8 (popcount z) = popcount z.
Proof. apply uwrap_id. pose proof (popcount_n_range 64 z). unfold popcount, in_u in *. lia. Qed.

Module Utils.
(** The loop of [maskToBits]. *)
Fixpoint mask_loop (mask : bytes) (addition value : Z) : Z :=
  match mask with
  | [] => value
  | it :: mask' =>
      mask_loop mask' (u64 (addition * 2)) (if negb (it =? 255) then u64 (value + addition) else value)
  end.
Definition maskToBits (mask : bytes) : Z := mask_loop mask 1 0.

Fixpoint bits_loop (n : nat) (valCopy : Z) : bytes :=
  match n with
  | O => []
  | S n' => (if valCopy mod 2 =? 1 then 0 else 255) :: bits_loop n' (valCopy / 2)
  end.
Definition bitsToMask (size value : Z) : bytes := bits_loop (Z.to_nat size) value.

Definition maskValue (value : Z) : Z := u8 (popcount value).

(** "0123456789ABCDEF" *)
Definition lut : bytes := [48;49;50;51;52;53;54;55;56;57;65;66;67;68;69;70].
Definition lut_at (i : Z) : Z := nth (Z.to_nat i) lut 0.

Fixpoint stringToHex (input : bytes) : bytes :=
  match input with
  | [] => []
  | c :: input' => lut_at (Z.shiftr c 4) :: lut_at (Z.land c 15) :: stringToHex input'
  end.

(** [std::lower_bound(lut, lut + 16, a)]: the index of the first element not
    less than [a]; [lut + 16] holds the terminating zero. *)
Fixpoint lower_bound (l : bytes) (a : Z) : Z :=
  match l with
  | [] => 0
  | x :: l' => if x <? a then 1 + lower_bound l' a else 0
  end.

Definition hex_digit (a : Z) : result Z :=
  let p := lower_bound lut a in
  if negb (lut_at p =? a) then Throw invalid_argument else Ok p.

Fixpoint hex_loop (input : bytes) : result bytes :=
  match input with
  | a :: b :: input' =>
      let! p := hex_digit a in
      let! q := hex_digit b in
      let! output := hex_loop input' in
      Ok (Z.lor (Z.shiftl p 4) q :: output)
  | _ => Ok []
  end.

Definition hexToString (input : bytes) : result bytes :=
  if negb (Z.land (Z.of_nat (length input)) 1 =? 0) then Throw invalid_argument else hex_loop input.

Definition byteStreamToHex (stream : bytes) : bytes :=
  flat_map (fun c => [lut_at (Z.shiftr c 4); lut_at (Z.land c 15)]) stream.

(** ** Masks *)

Definition trusted (b : Z) : bool := negb (b =? 255).

(** What a mask says, without wrap-around. *)
Fixpoint mask_val (mask : bytes) : Z :=
  match mask with
  | [] => 0
  | it :: mask' => Z.b2z (trusted it) + 2 * mask_val mask'
  end.

Lemma mask_val_range mask : 0 <= mask_val mask < 2 ^ Z.of_nat (length mask).
Proof.
  induction mask as [|b mask IH]; cbn [mask_val length]; [lia|].
  rewrite Nat2Z.inj_succ, Z.pow_succ_r by lia. destruct (trusted b); cbn [Z.b2z]; lia.
Qed.

Lemma mask_loop_val mask k value :
  0 <= k -> k + Z.of_nat (length mask) <= 64 -> 0 <= value < 2 ^ k ->
  mask_loop mask (u64 (2 ^ k)) value = value + 2 ^ k * mask_val mask.
Proof.
  revert k value. induction mask as [|b mask IH]; intros k value Hk Hl Hv;
    cbn [mask_loop mask_val length] in *; [lia|].
  assert (0 <= k < 64) as Hk' by lia.
  assert (2 ^ k < 2 ^ 64) by (apply Z.pow_lt_mono_r; lia).
  assert (2 ^ (k + 1) <= 2 ^ 64) by (apply Z.pow_le_mono_r; lia).
  assert (2 ^ (k + 1) = 2 * 2 ^ k) as E by (rewrite Z.pow_add_r by lia; lia).
  rewrite (uwrap_id 64 (2 ^ k)) by (unfold in_u; lia).
  replace (2 ^ k * 2) with (2 ^ (k + 1)) by lia. fold (trusted b).
  rewrite IH; [|lia..|].
  - destruct (trusted b); cbn [Z.b2z]; rewrite ?uwrap_id by (unfold in_u; lia); lia.
  - destruct (trusted b); rewrite ?uwrap_id by (unfold in_u; lia); lia.
Qed.

(** No more than 64 trusted nodes: the packing is exact. *)
Lemma maskToBits_val mask : (length mask <= 64)%nat -> maskToBits mask = mask_val mask.
Proof.
  intros Hl. unfold maskToBits. change 1 with (u64 (2 ^ 0)). rewrite mask_loop_val by (cbn; lia). lia.
Qed.

Lemma bits_loop_val mask : bits_loop (length mask) (mask_val mask) = map (fun b => if trusted b then 0 else 255) mask.
Proof.
  induction mask as [|b mask IH]; cbn [bits_loop mask_val length map]; [done|].
  replace ((Z.b2z (trusted b) + 2 * mask_val mask) / 2) with (mask_val mask) by (destruct (trusted b); cbn [Z.b2z]; machine_lia).
  replace ((Z.b2z (trusted b) + 2 * mask_val mask) mod 2) with (Z.b2z (trusted b)) by (destruct (trusted b); cbn [Z.b2z]; machine_lia).
  rewrite IH. by destruct (trusted b).
Qed.

Lemma mask_val_bits n v : 0 <= v < 2 ^ Z.of_nat n -> mask_val (bits_loop n v) = v.
Proof.
  revert v. induction n as [|n IH]; intros v Hv; cbn [bits_loop mask_val].
  - cbn in Hv. lia.
  - rewrite Nat2Z.inj_succ, Z.pow_succ_r in Hv by lia. rewrite IH by machine_lia.
    destruct (Z.eqb_spec (v mod 2) 1); cbn [trusted Z.eqb Pos.eqb negb Z.b2z]; machine_lia.
Qed.

Lemma length_bits_loop n v : length (bits_loop n v) = n.
Proof. revert v. induction n as [|n IH]; intros v; cbn; auto. Qed.

Lemma popcount_mask_val n mask :
  (length mask <= n)%nat -> popcount_n n (mask_val mask) = Z.of_nat (length (filter (fun b => trusted b = true) mask)).
Proof.
  revert mask. induction n as [|n IH]; intros [|b mask] Hl; cbn [length mask_val popcount_n] in *; [done|lia|..].
  - change (0 / 2) with (mask_val []). rewrite (IH []) by (cbn; lia). done.
  - replace ((Z.b2z (trusted b) + 2 * mask_val mask) / 2) with (mask_val mask) by (destruct (trusted b); cbn [Z.b2z]; machine_lia).
    replace ((Z.b2z (trusted b) + 2 * mask_val mask) mod 2) with (Z.b2z (trusted b)) by (destruct (trusted b); cbn [Z.b2z]; machine_lia).
    rewrite IH, filter_cons by lia. destruct (trusted b); [rewrite decide_True by done|rewrite decide_False by done]; cbn; lia.
Qed.

(** A mask of at most 64 confidants packed by maskToBits and unpacked by bitsToMask keeps exactly
    the invalid entries (255, the others become 0), and maskValue counts the valid ones. *)
Theorem mask_bits_roundtrip mask :
  (length mask <= 64)%nat ->
  bitsToMask (Z.of_nat (length mask)) (maskToBits mask) = map (fun b => if b =? 255 then 255 else 0) mask /\
  maskValue (maskToBits mask) = Z.of_nat (length (filter (fun b => b <> 255) mask)).
Proof.
  intros Hl. rewrite maskToBits_val by done. split.
  - unfold bitsToMask. rewrite Nat2Z.id, bits_loop_val. apply map_ext. intros b. unfold trusted. by destruct (b =? 255).
  - unfold maskValue, popcount. rewrite popcount_mask_val by done. rewrite uwrap_id.
    + f_equal. f_equal. apply list_filter_iff. intros b. unfold trusted. rewrite negb_true_iff, Z.eqb_neq. done.
    + pose proof (length_filter (fun b => trusted b = true) mask). unfold in_u. lia.
Qed.

(** Bits unpacked to a mask and packed again. *)
Theorem bits_mask_roundtrip size value :
  0 <= size <= 64 -> 0 <= value < 2 ^ size -> maskToBits (bitsToMask size value) = value.
Proof.
  intros Hs Hv. unfold bitsToMask. rewrite maskToBits_val by (rewrite length_bits_loop; lia).
  apply mask_val_bits. by rewrite Z2Nat.id by lia.
Qed.

(** ** Hex strings *)

Lemma hex_digit_lut p : 0 <= p < 16 -> hex_digit (lut_at p) = Ok p.
Proof.
  intros Hp. assert (In p [0;1;2;3;4;5;6;7;8;9;10;11;12;13;14;15]) as H by (cbn; lia).
  cbn in H. repeat destruct H as [<-|H]; done.
Qed.

Lemma nibbles c : 0 <= c < 256 ->
  0 <= Z.shiftr c 4 < 16 /\ 0 <= Z.land c 15 < 16 /\ Z.lor (Z.shiftl (Z.shiftr c 4) 4) (Z.land c 15) = c.
Proof.
  intros Hc. change 15 with (2 ^ 4 - 1). rewrite land_ones_mod, Z.shiftr_div_pow2, Z.shiftl_mul_pow2 by lia.
  split_and!; [machine_lia..|].
  rewrite Z.lor_comm, Z.mul_comm, lor_disjoint_add by machine_lia. machine_lia.
Qed.

Lemma length_stringToHex s : length (stringToHex s) = (2 * length s)%nat.
Proof. induction s as [|c s IH]; cbn [stringToHex length]; lia. Qed.

(** A string printed in hexadecimal and parsed. *)
Theorem hexToString_stringToHex s : bytes_ok s -> hexToString (stringToHex s) = Ok s.
Proof.
  intros Hs. unfold hexToString. rewrite length_stringToHex.
  change 1 with (2 ^ 1 - 1). rewrite land_ones_mod by lia.
  replace (Z.of_nat (2 * length s) mod 2 ^ 1) with 0 by machine_lia. cbn [negb Z.eqb].
  induction Hs as [|c s Hc _ IH]; [done|]. cbn [stringToHex hex_loop].
  destruct (nibbles c Hc) as (H1 & H2 & E). rewrite !hex_digit_lut by done. cbn [rbind].
  by rewrite IH, E.
Qed.

Lemma byteStreamToHex_eq s : byteStreamToHex s = stringToHex s.
Proof. induction s as [|c s IH]; cbn; [done|]. by f_equal; f_equal. Qed.
End Utils.

(** ** Witnesses *)

Lemma mask_bits_roundtrip_witness :
  Utils.bitsToMask 4 (Utils.maskToBits [0; 255; 1; 2]) = [0; 255; 0; 0] /\
  Utils.maskValue (Utils.maskToBits [0; 255; 1; 2]) = 3.
Proof. apply (Utils.mask_bits_roundtrip [0; 255; 1; 2]). cbn. lia. Defined.
