(* ===== verification/EncDec.v ===== *)
(** * Compact integers ([csdb/src/integral_encdec.cpp], [integral_encdec.hpp])

    An integer of up to 64 bits is written in one to nine bytes: the low bits
    of the first byte say, in unary, how many bytes follow, the rest holds the
    value in two's complement, least significant bits first.

    [__builtin_clzl(0)] is undefined: the result is the parameter [clz0]. *)

From Stdlib Require Import ZArith Lia.
From stdpp Require Import base tactics numbers option list.
From S2P Require Import Prelude.

Local Open Scope Z_scope.
Local Open Scope cs_scope.

(** [sizeof(uint64_t) + 1] *)
Definition MAX_INTEGRAL_ENCODED_SIZE : nat := 9.

(** [encode<bool>] and [decode<bool>] *)
Definition encode_bool (value : bool) : bytes := [if value then 1 else 0].
Definition decode_bool (buf : bytes) : option (bool * nat) :=
  match buf with
  | [] => None
  | b :: _ => Some (negb (b =? 0), 1%nat)
  end.

Section encdec.
Context (clz0 : Z).

Definition clz (x : Z) : Z := if x =? 0 then clz0 else 63 - Z.log2 x.

(** The number of bytes after the first. *)
Definition follow_bytes (value : Z) : Z :=
  let copy := if negb (Z.land value 9223372036854775808 =? 0) then Z.lxor value 18446744073709551615 else value in
  let bits := u64 (Z.lxor (clz copy) 63 + 2) in
  let bits := if bits <? 7 then 7 else bits in
  if bits <? 57 then (bits - 1) / 7 else 8.

(** [encode<uint64_t>]: the bytes written to [buf]. *)
Definition encode (value : Z) : bytes :=
  let bs := follow_bytes value in
  if bs <? 8 then
    let first := u8 (Z.lor (u64 (Z.shiftl value (bs + 1))) (Z.shiftl 1 bs - 1)) in
    first :: le_bytes (Z.to_nat bs) (Z.shiftr value (7 - bs))
  else 255 :: le_bytes 8 value.

(** The loop over the low one bits of the first byte. *)
Fixpoint ones (fuel : nat) (mask : Z) : nat :=
  match fuel with
  | O => O
  | S fuel' => if Z.land mask 1 =? 0 then O else S (ones fuel' (Z.shiftr mask 1))
  end.

(** [decode<uint64_t>]: the value and the number of bytes read, [None] for 0. *)
Definition decode (buf : bytes) : option (Z * nat) :=
  match buf with
  | [] => None
  | first :: d =>
      let bs := ones 8 first in
      if (length buf <? bs + 1)%nat then None
      else
        let val := le_val (take bs d) in
        let val :=
          if (bs <? 8)%nat then
            let val := u64 (Z.shiftl val (7 - Z.of_nat bs)) in
            let val := Z.lor val (Z.shiftr first (Z.of_nat bs + 1)) in
            if negb (Z.land (nth bs buf 0) 128 =? 0)
            then Z.lor val (u64 (Z.shiftl 18446744073709551615 ((Z.of_nat bs + 1) * 7)))
            else val
          else val in
        Some (val, (bs + 1)%nat)
  end.

(** Integers of other types go through the 64-bit encoding. *)
Definition encode_int (value : Z) : bytes := encode (u64 value).
Definition decode_uint (w : Z) (buf : bytes) : option (Z * nat) :=
  option_map (fun p => (uwrap w p.1, p.2)) (decode buf).
Definition decode_sint (w : Z) (buf : bytes) : option (Z * nat) :=
  option_map (fun p => (swrap w p.1, p.2)) (decode buf).

(** ** The first byte *)

Lemma ones_spec n fuel q :
  (n < fuel)%nat -> 0 <= q -> ones fuel (2 ^ (Z.of_nat n + 1) * q + (2 ^ Z.of_nat n - 1)) = n.
Proof.
  revert fuel. induction n as [|n IH]; intros [|fuel] Hf Hq; [lia| |lia|]; cbn [ones];
    change 1 with (2 ^ 1 - 1) at 3; rewrite land_ones_mod by lia.
  - replace ((2 ^ (Z.of_nat 0 + 1) * q + (2 ^ Z.of_nat 0 - 1)) mod 2 ^ 1) with 0; [done|]. cbn. machine_lia.
  - rewrite Nat2Z.inj_succ. unfold Z.succ. rewrite (Z.pow_add_r 2 (Z.of_nat n + 1) 1) by lia.
    assert (2 ^ (Z.of_nat n + 1) = 2 * 2 ^ Z.of_nat n) as E by (rewrite Z.pow_add_r by lia; lia).
    assert (0 < 2 ^ Z.of_nat n) by (apply Z.pow_pos_nonneg; lia).
    assert (2 ^ (Z.of_nat n + 1) * 2 ^ 1 * q + (2 ^ (Z.of_nat n + 1) - 1)
      = 1 + 2 * (2 ^ (Z.of_nat n + 1) * q + (2 ^ Z.of_nat n - 1))) as -> by lia.
    set (m := 2 ^ (Z.of_nat n + 1) * q + (2 ^ Z.of_nat n - 1)).
    replace ((1 + 2 * m) mod 2 ^ 1) with 1 by machine_lia. cbn [Z.eqb].
    rewrite Z.shiftr_div_pow2 by lia. replace ((1 + 2 * m) / 2 ^ 1) with m by machine_lia.
    f_equal. apply IH; lia.
Qed.

Lemma nth_le_bytes i n z : (i < n)%nat -> nth i (le_bytes n z) 0 = z / 256 ^ Z.of_nat i mod 256.
Proof.
  revert i z. induction n as [|n IH]; intros [|i] z Hi; cbn [le_bytes nth]; [lia|lia|by rewrite Z.div_1_r|].
  rewrite IH by lia. rewrite pow256_succ, Z.div_div by lia. done.
Qed.

(** ** The width of a value

    [v] is the 64-bit pattern of a value that fits in [w] bits with its sign. *)
Definition fits (w v : Z) : Prop := v < 2 ^ (w - 1) \/ 2 ^ 64 - 2 ^ (w - 1) <= v.

Lemma follow_bytes_range v : 0 <= follow_bytes v <= 8.
Proof.
  unfold follow_bytes. set (b := if _ <? 7 then _ else _). assert (7 <= b).
  { unfold b. case_match eqn:E; [lia|]. apply Z.ltb_ge in E. lia. }
  destruct (Z.ltb_spec b 57); machine_lia.
Qed.

Lemma lxor_63 k : 0 <= k <= 63 -> Z.lxor (63 - k) 63 = k.
Proof.
  intros Hk. assert (forallb (fun k => Z.lxor (63 - k) 63 =? k) (seqZ 0 64) = true) as H by reflexivity.
  rewrite forallb_forall in H. apply Z.eqb_eq, H, list_elem_of_In, elem_of_seqZ. lia.
Qed.

Lemma lxor_ones v : in_u 64 v -> Z.lxor v 18446744073709551615 = 2 ^ 64 - 1 - v.
Proof.
  intros Hv. change 18446744073709551615 with (Z.ones 64). rewrite <- (Z.ones_equiv 64 : _ = 2 ^ 64 - 1).
  rewrite Z.sub_nocarry_ldiff.
  - apply Z.bits_inj'. intros i Hi. rewrite Z.lxor_spec, Z.ldiff_spec.
    destruct (Z.lt_ge_cases i 64).
    + rewrite Z.ones_spec_low by lia. by destruct (Z.testbit v i).
    + rewrite Z.ones_spec_high by lia. rewrite <- (Z.mod_small v (2 ^ 64)), Z.mod_pow2_bits_high by (done || lia). done.
  - apply Z.ldiff_ones_r_low; [apply Hv|]. destruct (Z.eq_dec v 0) as [->|]; [cbn; lia|].
    apply Z.log2_lt_pow2; unfold in_u in Hv; lia.
Qed.

(** The significant bits of [copy] decide the width. *)
Lemma width_enough c : 0 <= c < 2 ^ 63 ->
  let bits := u64 (Z.lxor (clz c) 63 + 2) in
  let bits := if bits <? 7 then 7 else bits in
  let f := if bits <? 57 then (bits - 1) / 7 else 8 in
  f < 8 -> c < 2 ^ (7 * (f + 1) - 1).
Proof.
  intros Hc bits0 bits f Hf. assert (7 <= bits) as H7.
  { unfold bits. destruct (Z.ltb_spec bits0 7); lia. }
  assert (0 <= f) as Hf0. { unfold f. destruct (Z.ltb_spec bits 57); machine_lia. }
  destruct (Z.eq_dec c 0) as [->|Hne].
  { apply Z.pow_pos_nonneg; lia. }
  assert (bits0 = Z.log2 c + 2) as Eb.
  { unfold bits0, clz. rewrite (proj2 (Z.eqb_neq c 0) Hne).
    assert (0 <= Z.log2 c < 63) as Hl.
    { split; [apply Z.log2_nonneg|]. apply Z.log2_lt_pow2; lia. }
    rewrite lxor_63 by lia. apply uwrap_id. unfold in_u. lia. }
  assert (Z.log2 c + 2 <= 7 * (f + 1)) as Hw.
  { unfold f in *. destruct (Z.ltb_spec bits 57); [|lia]. unfold bits in *. destruct (Z.ltb_spec bits0 7); machine_lia. }
  apply Z.log2_lt_pow2; lia.
Qed.

Lemma follow_bytes_fits v : in_u 64 v -> follow_bytes v < 8 -> fits (7 * (follow_bytes v + 1)) v.
Proof.
  intros Hv Hf. unfold fits. unfold follow_bytes in *. change 9223372036854775808 with (2 ^ 63) in *.
  rewrite land_pow2_eqb, negb_involutive, testbit_odd in * by lia.
  destruct (Z.lt_ge_cases v (2 ^ 63)) as [Hs|Hs].
  - replace (v / 2 ^ 63) with 0 in * by (unfold in_u in Hv; machine_lia). cbn [Z.odd] in *. left.
    apply (width_enough v); [unfold in_u in Hv; lia|exact Hf].
  - replace (v / 2 ^ 63) with 1 in * by (unfold in_u in Hv; machine_lia). cbn [Z.odd] in *. right.
    rewrite lxor_ones in * by done.
    pose proof (width_enough (2 ^ 64 - 1 - v)) as H. unfold in_u in Hv. specialize (H ltac:(lia) Hf). lia.
Qed.

(** ** Decoding what was encoded *)

(** The bits below a width and the sign above them. *)
Lemma sign_extend w v :
  in_u 64 v -> 1 <= w <= 63 -> fits w v ->
  (if Z.testbit v (w - 1) then Z.lor (v mod 2 ^ w) (2 ^ 64 - 2 ^ w) else v mod 2 ^ w) = v.
Proof.
  intros Hv Hw Hf. unfold in_u in Hv.
  assert (2 ^ w = 2 * 2 ^ (w - 1)) as E by (rewrite <- Z.pow_succ_r by lia; f_equal; lia).
  assert (0 < 2 ^ (w - 1)) by (apply Z.pow_pos_nonneg; lia).
  assert (2 ^ 64 = 2 ^ w * 2 ^ (64 - w)) as E64 by (rewrite <- Z.pow_add_r by lia; f_equal; lia).
  assert (2 ^ w <= 2 ^ 63) by (apply Z.pow_le_mono_r; lia).
  assert (2 <= 2 ^ (64 - w)) by (change 2 with (2 ^ 1) at 1; apply Z.pow_le_mono_r; lia).
  rewrite testbit_odd by lia. destruct Hf as [Hf|Hf].
  - rewrite (Z.div_small v) by lia. cbn. apply Z.mod_small. lia.
  - assert (v mod 2 ^ w = v - (2 ^ 64 - 2 ^ w)) as Em.
    { symmetry. apply (Z.mod_unique _ _ (2 ^ (64 - w) - 1)); [lia|]. rewrite E64. ring. }
    assert (v / 2 ^ (w - 1) = 2 * 2 ^ (64 - w) - 1) as ->.
    { symmetry. apply (Z.div_unique _ _ _ (v - (2 ^ 64 - 2 ^ (w - 1)))); [lia|]. rewrite E64, E. ring. }
    rewrite Z.odd_sub, Z.odd_mul. cbn [Z.odd andb xorb]. rewrite Em.
    replace (2 ^ 64 - 2 ^ w) with (2 ^ w * (2 ^ (64 - w) - 1)) by (rewrite E64; ring).
    rewrite lor_disjoint_add; [lia|lia|]. rewrite E64 in *. nia.
Qed.

(** The bytes after the first hold the bits from [7 - n] on. *)
Lemma encode_parts v n :
  in_u 64 v -> follow_bytes v = Z.of_nat n -> (n < 8)%nat ->
  encode v = (2 ^ (Z.of_nat n + 1) * (v mod 2 ^ (7 - Z.of_nat n)) + (2 ^ Z.of_nat n - 1))
             :: le_bytes n (v / 2 ^ (7 - Z.of_nat n)).
Proof.
  intros Hv E Hn. unfold encode. rewrite E, Nat2Z.id.
  destruct (Z.ltb_spec (Z.of_nat n) 8); [|lia]. f_equal; [|by rewrite Z.shiftr_div_pow2 by lia].
  rewrite !Z.shiftl_mul_pow2, Z.mul_1_l by lia. set (k := Z.of_nat n) in *.
  assert (0 < 2 ^ k) by (apply Z.pow_pos_nonneg; lia).
  assert (2 ^ (k + 1) = 2 * 2 ^ k) as Ek by (rewrite Z.pow_add_r by lia; lia).
  assert (2 ^ 64 = 2 ^ (k + 1) * 2 ^ (63 - k)) as E64 by (rewrite <- Z.pow_add_r by lia; f_equal; lia).
  assert (2 ^ 8 = 2 ^ (k + 1) * 2 ^ (7 - k)) as E8 by (rewrite <- Z.pow_add_r by lia; f_equal; lia).
  unfold uwrap. rewrite E64, Z.mul_comm, Z.mul_mod_distr_l by (apply Z.pow_nonzero; lia).
  rewrite Z.lor_comm, lor_disjoint_add by lia. rewrite E8.
  assert (v mod 2 ^ (7 - k) = (v mod 2 ^ (63 - k)) mod 2 ^ (7 - k)) as ->.
  { replace (2 ^ (63 - k)) with (2 ^ 56 * 2 ^ (7 - k)) by (rewrite <- Z.pow_add_r by lia; f_equal; lia).
    symmetry. apply Z.mod_mod_divide. by exists (2 ^ 56). }
  set (q := v mod 2 ^ (63 - k)).
  assert (0 < 2 ^ (7 - k)) by (apply Z.pow_pos_nonneg; lia).
  pose proof (Z.mod_pos_bound q (2 ^ (7 - k))) as Hq.
  symmetry. apply (Z.mod_unique _ _ (q / 2 ^ (7 - k))).
  - left. split; [nia|]. nia.
  - rewrite (Z.div_mod q (2 ^ (7 - k))) at 1 by lia. ring.
Qed.

Lemma decode_parts v n rest :
  in_u 64 v -> (n < 8)%nat -> fits (7 * (Z.of_nat n + 1)) v ->
  decode ((2 ^ (Z.of_nat n + 1) * (v mod 2 ^ (7 - Z.of_nat n)) + (2 ^ Z.of_nat n - 1))
          :: le_bytes n (v / 2 ^ (7 - Z.of_nat n)) ++ rest) = Some (v, S n).
Proof.
  intros Hv Hn Hf. set (k := Z.of_nat n) in *. set (q := v mod 2 ^ (7 - k)).
  assert (0 < 2 ^ (7 - k)) by (apply Z.pow_pos_nonneg; lia).
  pose proof (Z.mod_pos_bound v (2 ^ (7 - k))) as Hq. fold q in Hq. specialize (Hq ltac:(lia)).
  assert (0 < 2 ^ k) by (apply Z.pow_pos_nonneg; lia).
  assert (2 ^ (k + 1) = 2 * 2 ^ k) as Ek by (rewrite Z.pow_add_r by lia; lia).
  set (first := 2 ^ (k + 1) * q + (2 ^ k - 1)).
  assert (ones 8 first = n) as Eo by (apply ones_spec; lia).
  unfold decode. rewrite Eo. cbn [length]. rewrite length_app, length_le_bytes.
  destruct (Nat.ltb_spec (S (n + length rest)) (n + 1)); [lia|].
  rewrite take_app_exact, le_val_bytes by apply length_le_bytes.
  destruct (Nat.ltb_spec n 8); [|lia]. rewrite Nat.add_1_r. do 2 f_equal.
  rewrite pow256_pow2. fold k.
  (* the value without the sign *)
  assert (Z.shiftr first (k + 1) = q) as ->.
  { rewrite Z.shiftr_div_pow2 by lia. unfold first. symmetry. apply (Z.div_unique _ _ _ (2 ^ k - 1)); lia. }
  assert (2 ^ (7 * (k + 1)) = 2 ^ (7 - k) * 2 ^ (8 * k)) as Ew by (rewrite <- Z.pow_add_r by lia; f_equal; lia).
  assert (2 ^ (7 * (k + 1)) <= 2 ^ 56) by (apply Z.pow_le_mono_r; lia).
  assert (0 < 2 ^ (8 * k)) by (apply Z.pow_pos_nonneg; lia).
  pose proof (Z.mod_pos_bound (v / 2 ^ (7 - k)) (2 ^ (8 * k)) ltac:(lia)) as Hm.
  assert (Z.lor (u64 (Z.shiftl ((v / 2 ^ (7 - k)) mod 2 ^ (8 * k)) (7 - k))) q = v mod 2 ^ (7 * (k + 1))) as ->.
  { rewrite Z.shiftl_mul_pow2, uwrap_id by (unfold in_u; nia).
    rewrite Z.lor_comm, Z.mul_comm, lor_disjoint_add by lia. rewrite Ew, Z.rem_mul_r by lia. done. }
  (* the sign *)
  assert (nth n (first :: le_bytes n (v / 2 ^ (7 - k)) ++ rest) 0 / 2 ^ 7 mod 2 = v / 2 ^ (7 * (k + 1) - 1) mod 2) as Es.
  { destruct n as [|n'].
    - cbn [nth]. unfold first, q, k. cbn [Z.of_nat]. machine_lia.
    - cbn [nth]. rewrite app_nth1 by (rewrite length_le_bytes; lia). rewrite nth_le_bytes by lia.
      assert (k = Z.of_nat n' + 1) as Ekn by (unfold k; lia).
      rewrite pow256_pow2. set (z := v / 2 ^ (7 - k)).
      assert (v / 2 ^ (7 * (k + 1) - 1) = z / 2 ^ (8 * Z.of_nat n') / 2 ^ 7) as ->.
      { unfold z. rewrite (Z.div_div _ (2 ^ (7 - k))), <- Z.pow_add_r by (lia || apply Z.pow_pos_nonneg; lia).
        rewrite Z.div_div, <- Z.pow_add_r by (lia || apply Z.pow_pos_nonneg; lia). f_equal. f_equal. lia. }
      generalize (z / 2 ^ (8 * Z.of_nat n')). intros y. change 256 with (2 ^ 8). machine_lia. }
  change 128 with (2 ^ 7). rewrite land_pow2_eqb, negb_involutive, Z.testbit_eqb, Es by lia.
  rewrite <- Z.testbit_eqb by lia.
  assert (u64 (Z.shiftl 18446744073709551615 ((k + 1) * 7)) = 2 ^ 64 - 2 ^ (7 * (k + 1))) as ->.
  { rewrite Z.shiftl_mul_pow2 by lia. replace ((k + 1) * 7) with (7 * (k + 1)) by lia. symmetry.
    change 18446744073709551615 with (2 ^ 64 - 1).
    apply (Z.mod_unique _ _ (2 ^ (7 * (k + 1)) - 1)); [|ring]. left.
    assert (0 < 2 ^ (7 * (k + 1))) by (apply Z.pow_pos_nonneg; lia). lia. }
  apply sign_extend; [done|lia|done].
Qed.

(** The first byte tells the length of the encoding. *)
Lemma encode_first v :
  in_u 64 v -> exists first d, encode v = first :: d /\ ones 8 first = length d /\ (length d <= 8)%nat.
Proof.
  intros Hv. pose proof (follow_bytes_range v) as Hr. destruct (Z.lt_ge_cases (follow_bytes v) 8) as [Hf|Hf].
  - set (n := Z.to_nat (follow_bytes v)). assert (follow_bytes v = Z.of_nat n) as E by (unfold n; lia).
    rewrite (encode_parts v n) by (done || lia). eexists _, _. split; [done|]. rewrite length_le_bytes.
    split; [|lia]. apply ones_spec; [lia|]. apply Z.mod_pos_bound, Z.pow_pos_nonneg; lia.
  - unfold encode. destruct (Z.ltb_spec (follow_bytes v) 8); [lia|]. eexists _, _. split; [done|].
    rewrite length_le_bytes. split; [done|lia].
Qed.

(** The variable-length code of an integer decodes to it with anything after it, has at most
    MAX_INTEGRAL_ENCODED_SIZE bytes, and no strict prefix of it decodes. *)
Theorem decode_encode v rest :
  in_u 64 v ->
  decode (encode v ++ rest) = Some (v, length (encode v)) /\ (length (encode v) <= MAX_INTEGRAL_ENCODED_SIZE)%nat /\
  forall p x, encode v = p ++ x -> x <> [] -> decode p = None.
Proof.
  intros Hv. pose proof (follow_bytes_range v) as Hr.
  destruct (encode_first v Hv) as (first & d & Ed & Eo & Hd). split_and!.
  - clear first d Ed Eo Hd. destruct (Z.lt_ge_cases (follow_bytes v) 8) as [Hf|Hf].
    + set (n := Z.to_nat (follow_bytes v)). assert (follow_bytes v = Z.of_nat n) as E by (unfold n; lia).
      rewrite (encode_parts v n) by (done || lia). cbn [app length]. rewrite length_le_bytes.
      apply decode_parts; [done|lia|]. rewrite <- E. by apply follow_bytes_fits.
    + unfold encode. destruct (Z.ltb_spec (follow_bytes v) 8); [lia|].
      cbn [app]. unfold decode. change (ones 8 255) with 8%nat.
      cbn [length]. rewrite length_app, length_le_bytes.
      destruct (Nat.ltb_spec (S (8 + length rest)) (8 + 1)); [lia|].
      rewrite take_app_exact, le_val_bytes by apply length_le_bytes. cbn [Nat.ltb Nat.leb].
      rewrite Z.mod_small by exact Hv. done.
  - rewrite Ed. unfold MAX_INTEGRAL_ENCODED_SIZE. cbn [length]. lia.
  - intros [|b p] x E Hx; [done|]. rewrite Ed in E. injection E as <- ->. unfold decode. rewrite Eo.
    cbn [length]. rewrite length_app. destruct x; [done|]. cbn [length].
    destruct (Nat.ltb_spec (S (length p)) (length p + S (length x) + 1)); [done|lia].
Qed.
End encdec.

(** ** Witnesses *)

Lemma decode_encode_witness :
  let v := 300 in
  decode (encode 63 v ++ [9; 9]) = Some (v, length (encode 63 v)) /\
  (length (encode 63 v) <= MAX_INTEGRAL_ENCODED_SIZE)%nat /\
  forall p x, encode 63 v = p ++ x -> x <> [] -> decode p = None.
Proof. apply (decode_encode 63 300 [9; 9]). split; lia. Defined.
