(* ===== verification/Transaction.v ===== *)
(** * Transactions ([csdb/src/transaction.cpp], [transaction_p.hpp])

    The transaction's identifier, currency and fee, the transaction object
    with its guarded setters, its serialisation and the bytes its sender
    signs. *)

From Stdlib Require Import ZArith Lia.
From stdpp Require Import base tactics numbers option list.
From S2P Require Import Prelude OrdMap Text Math128 BinStream Amount UserField Crypto Address.

Local Open Scope Z_scope.
Local Open Scope cs_scope.

(** ** [TransactionID] *)

Definition kWrongSequence : Z := 2 ^ 64 - 1.

Record TransactionID := mkTransactionID { pool_seq_ : Z; index_ : Z }.

#[export] Instance TransactionID_eq_dec : EqDecision TransactionID.
Proof. solve_decision. Defined.

Module TxId.
Definition default : TransactionID := mkTransactionID kWrongSequence 0.
Definition is_valid (i : TransactionID) : bool := negb (pool_seq_ i =? kWrongSequence).

Definition to_string (i : TransactionID) : bytes := print_u (pool_seq_ i) ++ [58] ++ print_u (index_ i).

(** [str.find(':')] *)
Fixpoint find_colon (s : bytes) : option nat :=
  match s with
  | [] => None
  | c :: s' => if c =? 58 then Some O else option_map S (find_colon s')
  end.

(** The character at a C string's position. *)
Definition char_at (s : bytes) : Z := match s with [] => 0 | c :: _ => c end.

Definition from_string (str : bytes) : TransactionID :=
  match find_colon str with
  | Some pos =>
      let '(pSeq, fin) := strtoumax str in
      if (length str - length fin =? pos)%nat then
        let start := drop (pos + 1) str in
        if negb (char_at start =? 0) then
          let '(idx, fin) := strtoumax start in
          if negb (length fin =? length start)%nat && (char_at fin =? 0)
          then mkTransactionID pSeq idx else default
        else default
      else default
  | None => default
  end.

Definition op_eq (a b : TransactionID) : bool := (pool_seq_ a =? pool_seq_ b) && (index_ a =? index_ b).
Definition op_lt (a b : TransactionID) : bool :=
  if pool_seq_ a =? pool_seq_ b then index_ a <? index_ b else pool_seq_ a <? pool_seq_ b.

Definition put_id (i : TransactionID) (os : obstream) : obstream :=
  put (uint_codec 8) (index_ i) (put (uint_codec 8) (pool_seq_ i) os).
Definition get_id (ist : ibstream) : option (TransactionID * ibstream) :=
  let? (p, ist) := get (uint_codec 8) ist in
  let? (i, ist) := get (uint_codec 8) ist in
  Some (mkTransactionID p i, ist).

Definition wf_id (i : TransactionID) : Prop := in_u 64 (pool_seq_ i) /\ in_u 64 (index_ i).

Definition id_codec : codec TransactionID := mkCodec _ put_id get_id wf_id.

#[global] Instance id_codec_ok : CodecOk id_codec.
Proof.
  split; unfold enc, id_codec; cbn [put get wf]; unfold put_id, get_id.
  - intros a os. rewrite !(put_app (index_ a)), (put_app (pool_seq_ a) os), (put_app (pool_seq_ a) []).
    by rewrite app_nil_l, app_assoc.
  - intros [p i] rest [Hp Hi]. cbn [pool_seq_ index_] in *.
    rewrite (put_app i), (put_app p), app_nil_l, <- app_assoc. codec_read. done.
  - intros s a r x. codec_mono. by intros [= <- <-].
Qed.

Lemma find_colon_digits s t : digits s -> find_colon (s ++ 58 :: t) = Some (length s).
Proof.
  induction 1 as [|c s Hc _ IH]; [done|]. cbn [app find_colon length].
  destruct (digit_not_space c Hc) as (_ & _ & _ & Hne & _). rewrite (proj2 (Z.eqb_neq c 58) Hne).
  by rewrite IH.
Qed.

(** A transaction id printed and parsed. *)
Theorem transaction_id_from_to_string i : wf_id i -> from_string (to_string i) = i.
Proof.
  destruct i as [p i]. intros [Hp Hi]. cbn [pool_seq_ index_] in *. unfold from_string, to_string.
  cbn [pool_seq_ index_ app]. rewrite find_colon_digits by apply print_u_digits.
  rewrite strtoumax_print; [|done|by intros c t' [= <- _]].
  rewrite length_app. cbn [length]. rewrite Nat.add_sub, Nat.eqb_refl.
  rewrite drop_app_ge, Nat.add_comm, Nat.add_sub by lia. cbn [drop].
  pose proof (print_u_digits i) as Hd. unfold print_u in *.
  destruct (print_digits_nonempty 19 i) as (c & s & E).
  assert (strtoumax (print_digits 20 i []) = (i, [])) as Hs.
  { rewrite <- (app_nil_r (print_digits 20 i [])). by apply (strtoumax_print i []). }
  rewrite E in *. apply Forall_cons in Hd as [Hc _].
  destruct (digit_not_space c Hc) as (_ & _ & _ & _ & Hne).
  change (drop 0 (c :: s)) with (c :: s). cbn [char_at].
  rewrite (proj2 (Z.eqb_neq c 0) Hne). cbn [negb]. by rewrite Hs.
Qed.

(** [operator<] is a strict total order that agrees with [operator==]. *)
Lemma op_lt_strict a b c :
  op_lt a a = false /\ (op_lt a b = true -> op_lt b c = true -> op_lt a c = true) /\
  (op_lt a b = false -> op_lt b a = false -> op_eq a b = true).
Proof.
  unfold op_lt, op_eq. destruct a as [p1 i1], b as [p2 i2], c as [p3 i3]; cbn.
  split_and!; repeat case_match; lia.
Qed.
End TxId.

(** ** [Currency] and [AmountCommission]

    A currency is its one-byte [id]; a fee is its 16 [bits] (the cached double
    of the C++ object is recomputed from them). *)

Definition Currency := Z.
Definition AmountCommission := Z.

Definition currency_is_valid (c : Currency) : bool := true.
Definition currency_eq (c other : Currency) : bool := c =? other.
Definition currency_lt (c other : Currency) : bool := c <? other.
Definition put_currency (c : Currency) (os : obstream) : obstream := put (uint_codec 1) c os.
Definition get_currency (ist : ibstream) : option (Currency * ibstream) := get (uint_codec 1) ist.

Definition put_fee (u_bits : AmountCommission) (os : obstream) : obstream := put (uint_codec 2) u_bits os.
Definition get_fee (ist : ibstream) : option (AmountCommission * ibstream) := get (uint_codec 2) ist.

Definition currency_codec : codec Currency := uint_codec 1.
Definition fee_codec : codec AmountCommission := uint_codec 2.
#[export] Instance currency_codec_ok : CodecOk currency_codec := uint_codec_ok 1.
#[export] Instance fee_codec_ok : CodecOk fee_codec := uint_codec_ok 2.

(** ** [Transaction] *)

Record Transaction := mkTransaction {
  read_only_ : bool;
  id_ : TransactionID;
  innerID_ : Z;
  source_ : Address;
  target_ : Address;
  currency_ : Currency;
  amount_ : Amount;
  max_fee_ : AmountCommission;
  counted_fee_ : AmountCommission;
  signature_ : bytes;
  user_fields_ : list (Z * UserField);
  time_ : Z
}.

Module Tx.
Section tx.
Context `{!Cscrypto}.

Definition default : Transaction :=
  mkTransaction false TxId.default 0 default_address default_address 0 (of_int 0) 0 0
    (replicate kSignatureSize 0) [] 0.

(** The public constructor. *)
Definition make (innerID : Z) (source target : Address) (currency : Currency) (amount : Amount)
    (max_fee counted_fee : AmountCommission) (signature : bytes) : Transaction :=
  mkTransaction false TxId.default innerID source target currency amount max_fee counted_fee signature [] 0.

(** [priv::_update_id]: the pool numbers the transaction and freezes it. *)
Definition _update_id (t : Transaction) (pool_seq index : Z) : Transaction :=
  mkTransaction true (mkTransactionID pool_seq index) (innerID_ t) (source_ t) (target_ t) (currency_ t)
    (amount_ t) (max_fee_ t) (counted_fee_ t) (signature_ t) (user_fields_ t) (time_ t).

(** [priv::clone]: the fields one by one, the user fields into an empty map. *)
Definition clone (t : Transaction) : Transaction :=
  mkTransaction (read_only_ t) (id_ t) (innerID_ t) (source_ t) (target_ t) (currency_ t) (amount_ t)
    (max_fee_ t) (counted_fee_ t) (signature_ t)
    (foldl (fun m uf => assign uf.1 uf.2 m) [] (user_fields_ t)) (time_ t).

Definition is_valid (t : Transaction) : bool :=
  Address.is_valid (source_ t) && Address.is_valid (target_ t) && currency_is_valid (currency_ t)
  && op_ge (amount_ t) (of_int 0).

(** *** The setters: no effect on a read-only transaction *)

Definition set_innerID (v : Z) (t : Transaction) : Transaction :=
  if negb (read_only_ t) then
    mkTransaction (read_only_ t) (id_ t) v (source_ t) (target_ t) (currency_ t) (amount_ t) (max_fee_ t)
      (counted_fee_ t) (signature_ t) (user_fields_ t) (time_ t)
  else t.
Definition set_source (v : Address) (t : Transaction) : Transaction :=
  if negb (read_only_ t) then
    mkTransaction (read_only_ t) (id_ t) (innerID_ t) v (target_ t) (currency_ t) (amount_ t) (max_fee_ t)
      (counted_fee_ t) (signature_ t) (user_fields_ t) (time_ t)
  else t.
Definition set_target (v : Address) (t : Transaction) : Transaction :=
  if negb (read_only_ t) then
    mkTransaction (read_only_ t) (id_ t) (innerID_ t) (source_ t) v (currency_ t) (amount_ t) (max_fee_ t)
      (counted_fee_ t) (signature_ t) (user_fields_ t) (time_ t)
  else t.
Definition set_currency (v : Currency) (t : Transaction) : Transaction :=
  if negb (read_only_ t) then
    mkTransaction (read_only_ t) (id_ t) (innerID_ t) (source_ t) (target_ t) v (amount_ t) (max_fee_ t)
      (counted_fee_ t) (signature_ t) (user_fields_ t) (time_ t)
  else t.
Definition set_amount (v : Amount) (t : Transaction) : Transaction :=
  if negb (read_only_ t) then
    mkTransaction (read_only_ t) (id_ t) (innerID_ t) (source_ t) (target_ t) (currency_ t) v (max_fee_ t)
      (counted_fee_ t) (signature_ t) (user_fields_ t) (time_ t)
  else t.
Definition set_max_fee (v : AmountCommission) (t : Transaction) : Transaction :=
  if negb (read_only_ t) then
    mkTransaction (read_only_ t) (id_ t) (innerID_ t) (source_ t) (target_ t) (currency_ t) (amount_ t) v
      (counted_fee_ t) (signature_ t) (user_fields_ t) (time_ t)
  else t.
Definition set_counted_fee (v : AmountCommission) (t : Transaction) : Transaction :=
  if negb (read_only_ t) then
    mkTransaction (read_only_ t) (id_ t) (innerID_ t) (source_ t) (target_ t) (currency_ t) (amount_ t)
      (max_fee_ t) v (signature_ t) (user_fields_ t) (time_ t)
  else t.
Definition set_signature (v : bytes) (t : Transaction) : Transaction :=
  if negb (read_only_ t) then
    mkTransaction (read_only_ t) (id_ t) (innerID_ t) (source_ t) (target_ t) (currency_ t) (amount_ t)
      (max_fee_ t) (counted_fee_ t) v (user_fields_ t) (time_ t)
  else t.
(** [set_time] is not guarded. *)
Definition set_time (ts : Z) (t : Transaction) : Transaction :=
  mkTransaction (read_only_ t) (id_ t) (innerID_ t) (source_ t) (target_ t) (currency_ t) (amount_ t)
    (max_fee_ t) (counted_fee_ t) (signature_ t) (user_fields_ t) ts.

Definition add_user_field (id : Z) (field : UserField) (t : Transaction) : bool * Transaction :=
  if read_only_ t || negb (uf_is_valid field) then (false, t)
  else (true,
    mkTransaction (read_only_ t) (id_ t) (innerID_ t) (source_ t) (target_ t) (currency_ t) (amount_ t)
      (max_fee_ t) (counted_fee_ t) (signature_ t) (assign id field (user_fields_ t)) (time_ t)).

Definition user_field (id : Z) (t : Transaction) : UserField :=
  match find id (user_fields_ t) with Some f => f | None => uf_default end.

(** The keys, in the order of the map (a [std::set] of them). *)
Definition user_field_ids (t : Transaction) : list Z := map fst (user_fields_ t).

(** *** Serialisation *)

(** The six bytes of [innerID], the kinds of the addresses in the top bits. *)
Definition innerID_bytes (t : Transaction) : bytes :=
  alter (fun b => u8 (Z.lor b (Z.lor (Z.shiftl (Z.b2z (is_wallet_id (source_ t))) 7)
                                     (Z.shiftl (Z.b2z (is_wallet_id (target_ t))) 6))))
    5%nat (take 6 (le_bytes 8 (u64 (innerID_ t)))).

Definition put_party (a : Address) (os : obstream) : obstream :=
  if is_wallet_id a then put (uint_codec 4) (wallet_id a) os
  else put (array_codec kPublicKeySize) (public_key a) os.

(** What [put] and [to_byte_stream_for_sig] begin with. *)
Definition put_core (t : Transaction) (os : obstream) : obstream :=
  let innerID := innerID_bytes t in
  let os := put (uint_codec 2) (le_val (take 2 innerID)) os in
  let os := put (uint_codec 4) (le_val (drop 2 innerID)) os in
  let os := put_party (source_ t) os in
  let os := put_party (target_ t) os in
  let os := put amount_codec (amount_ t) os in
  let os := put fee_codec (max_fee_ t) os in
  put currency_codec (currency_ t) os.

Definition fields_codec : codec (list (Z * UserField)) := map_codec (sint_codec 4) uf_codec.

Definition put_tx (t : Transaction) (os : obstream) : obstream :=
  let os := put_core t os in
  let os := put fields_codec (user_fields_ t) os in
  let os := put (array_codec kSignatureSize) (signature_ t) os in
  put fee_codec (counted_fee_ t) os.

Definition to_byte_stream_for_sig (t : Transaction) : bytes :=
  let os := put_core t [] in
  let custom_user_fields := from_lower_bound 0 (user_fields_ t) in
  if negb (length custom_user_fields =? 0)%nat then put_smart uf_put_for_sig custom_user_fields os
  else put (uint_codec 1) 0 os.

Definition get_party (wallet : bool) (ist : ibstream) : option (Address * ibstream) :=
  if wallet then let? (id, ist) := get (uint_codec 4) ist in Some (from_wallet_id id, ist)
  else let? (key, ist) := get (array_codec kPublicKeySize) ist in Some (from_public_key key, ist).

(** [get] into [t]: a field that is not read keeps its value. *)
Definition get_tx (t : Transaction) (ist : ibstream) : option (Transaction * ibstream) :=
  let? (lo, ist) := get (uint_codec 2) ist in
  let? (hi, ist) := get (uint_codec 4) ist in
  let innerID := Z.lor (Z.shiftl (Z.land hi 1073741823) 16) lo in
  let? (source, ist) := get_party (negb (Z.land hi 2147483648 =? 0)) ist in
  let? (target, ist) := get_party (negb (Z.land hi 1073741824 =? 0)) ist in
  let? (amount, ist) := get amount_codec ist in
  let? (max_fee, ist) := get fee_codec ist in
  let? (parse, ist) := get currency_codec ist in
  let? (user_fields, ist) := get fields_codec ist in
  let? (signature, ist) := get (array_codec kSignatureSize) ist in
  let? (counted_fee, ist) := get fee_codec ist in
  Some (mkTransaction (read_only_ t) (id_ t) innerID source target parse amount max_fee counted_fee
          signature user_fields (time_ t), ist).

Definition to_byte_stream (t : Transaction) : bytes := put_tx t [].

Definition to_binary (t : Transaction) : bytes := if negb (is_valid t) then [] else put_tx t [].

Definition from_binary (data : bytes) : Transaction :=
  match get_tx default data with Some (t, _) => t | None => default end.

Definition from_byte_stream (data : bytes) : Transaction :=
  match get_tx default data with Some (t, _) => t | None => default end.

Definition verify_signature (t : Transaction) (public_key : bytes) : bool :=
  verifySignature (signature_ t) public_key (to_byte_stream_for_sig t).

(** *** The identifier and the flags *)

Definition flags (s w : bool) (id : Z) : Z := id / 2 ^ 16 + 2 ^ 30 * Z.b2z w + 2 ^ 31 * Z.b2z s.

Lemma innerID_lo_hi t :
  0 <= innerID_ t < 2 ^ 46 ->
  le_val (take 2 (innerID_bytes t)) = innerID_ t mod 2 ^ 16 /\
  le_val (drop 2 (innerID_bytes t))
    = flags (is_wallet_id (source_ t)) (is_wallet_id (target_ t)) (innerID_ t).
Proof.
  intros Hid. unfold innerID_bytes, flags. set (id := innerID_ t) in *.
  rewrite uwrap_id by (unfold in_u; lia).
  cbn [le_bytes take drop alter list_alter le_val].
  assert (0 <= id / 256 / 256 / 256 / 256 / 256 < 64) as Hb by machine_lia.
  assert (u8 (Z.lor (id / 256 / 256 / 256 / 256 / 256 mod 256)
      (Z.lor (Z.shiftl (Z.b2z (is_wallet_id (source_ t))) 7) (Z.shiftl (Z.b2z (is_wallet_id (target_ t))) 6)))
    = id / 256 / 256 / 256 / 256 / 256 + 64 * Z.b2z (is_wallet_id (target_ t))
      + 128 * Z.b2z (is_wallet_id (source_ t))) as ->.
  { rewrite (Z.mod_small (_ / _) 256) by lia.
    set (b := id / 256 / 256 / 256 / 256 / 256) in *.
    destruct (is_wallet_id (source_ t)), (is_wallet_id (target_ t)); cbn [Z.b2z];
      match goal with |- context [Z.lor b ?k] => let k' := eval vm_compute in (k / 64) in
        change k with (2 ^ 6 * k') end;
      rewrite lor_disjoint_add by lia; rewrite uwrap_id by (unfold in_u; lia); lia. }
  clearbody id. clear -Hid Hb.
  destruct (is_wallet_id (source_ t)), (is_wallet_id (target_ t)); cbn [Z.b2z]; machine_lia.
Qed.

Lemma flags_decode s w id :
  0 <= id < 2 ^ 46 ->
  in_u 32 (flags s w id) /\
  Z.lor (Z.shiftl (Z.land (flags s w id) 1073741823) 16) (id mod 2 ^ 16) = id /\
  negb (Z.land (flags s w id) 2147483648 =? 0) = s /\
  negb (Z.land (flags s w id) 1073741824 =? 0) = w.
Proof.
  intros Hid. assert (in_u 32 (flags s w id)) as Hr.
  { unfold flags. destruct s, w; cbn [Z.b2z]; machine_lia. }
  split_and!; [done|..].
  - change 1073741823 with (2 ^ 30 - 1). rewrite land_ones_mod by lia.
    assert (flags s w id mod 2 ^ 30 = id / 2 ^ 16) as ->.
    { unfold flags. destruct s, w; cbn [Z.b2z]; machine_lia. }
    rewrite Z.lor_comm, Z.shiftl_mul_pow2, Z.mul_comm by lia.
    rewrite lor_disjoint_add by machine_lia. machine_lia.
  - change 2147483648 with (2 ^ 31). rewrite land_pow2_eqb, negb_involutive, testbit_odd by lia.
    assert (flags s w id / 2 ^ 31 = Z.b2z s) as ->; [|by destruct s].
    unfold flags. destruct s, w; cbn [Z.b2z]; machine_lia.
  - change 1073741824 with (2 ^ 30). rewrite land_pow2_eqb, negb_involutive, testbit_odd by lia.
    assert (flags s w id / 2 ^ 30 = Z.b2z w + 2 * Z.b2z s) as ->; [|by destruct s, w].
    unfold flags. destruct s, w; cbn [Z.b2z]; machine_lia.
Qed.

(** *** Encodings of the parts *)

Definition enc_party (a : Address) : bytes := put_party a [].

Lemma put_party_app a os : put_party a os = os ++ enc_party a.
Proof. unfold enc_party, put_party. destruct (is_wallet_id a); apply put_app. Qed.

Definition core_enc (t : Transaction) : bytes :=
  enc (uint_codec 2) (le_val (take 2 (innerID_bytes t))) ++ enc (uint_codec 4) (le_val (drop 2 (innerID_bytes t)))
  ++ enc_party (source_ t) ++ enc_party (target_ t) ++ enc amount_codec (amount_ t)
  ++ enc fee_codec (max_fee_ t) ++ enc currency_codec (currency_ t).

Lemma put_core_app t os : put_core t os = os ++ core_enc t.
Proof.
  unfold put_core, core_enc. rewrite (put_app (c := currency_codec)), (put_app (c := fee_codec)),
    (put_app (c := amount_codec)), !put_party_app, (put_app (c := uint_codec 4)), (put_app (c := uint_codec 2)).
  by rewrite <- !app_assoc.
Qed.

Lemma put_tx_app t os :
  put_tx t os = os ++ core_enc t ++ enc fields_codec (user_fields_ t)
    ++ enc (array_codec kSignatureSize) (signature_ t) ++ enc fee_codec (counted_fee_ t).
Proof.
  unfold put_tx. rewrite (put_app (c := fee_codec)), (put_app (c := array_codec _)),
    (put_app (c := fields_codec)), put_core_app. by rewrite <- !app_assoc.
Qed.

(** *** Well-formed transactions *)

Definition wf_tx (t : Transaction) : Prop :=
  0 <= innerID_ t < 2 ^ 46 /\ wf_address (source_ t) /\ wf_address (target_ t) /\
  wf currency_codec (currency_ t) /\ wf_amount (amount_ t) /\
  wf fee_codec (max_fee_ t) /\ wf fee_codec (counted_fee_ t) /\
  length (signature_ t) = kSignatureSize /\ wf fields_codec (user_fields_ t).

(** What the serialised form does not hold: a transaction just read is not
    in a pool. *)
Definition fresh (t : Transaction) : Transaction :=
  mkTransaction false TxId.default (innerID_ t) (source_ t) (target_ t) (currency_ t) (amount_ t)
    (max_fee_ t) (counted_fee_ t) (signature_ t) (user_fields_ t) 0.

Definition tx_codec : codec Transaction :=
  mkCodec Transaction put_tx (get_tx default) (fun t => wf_tx t /\ t = fresh t).

Context `{!CscryptoLaws _}.

Lemma get_party_enc a rest :
  wf_address a -> get_party (is_wallet_id a) (enc_party a ++ rest) = Some (a, rest).
Proof.
  unfold wf_address, get_party, enc_party, put_party, is_wallet_id, wallet_id.
  destruct a as [d w]; cbn [is_wallet_id_ data_ public_key]. destruct w.
  - intros (id & Hid & E). unfold is_wallet_id. rewrite E, from_wallet_id_id by done. cbn [is_wallet_id_ from_wallet_id set_wallet_id].
    fold (enc (uint_codec 4) id). rewrite get_put by (unfold in_u in Hid; cbn; lia). done.
  - intros Hl. fold (enc (array_codec kPublicKeySize) d). by rewrite get_put.
Qed.

Lemma get_party_app w s a r x : get_party w s = Some (a, r) -> get_party w (s ++ x) = Some (a, r ++ x).
Proof. unfold get_party. destruct w; codec_mono; by intros [= <- <-]. Qed.

Lemma get_tx_enc t t' rest :
  wf_tx t -> get_tx t' (put_tx t [] ++ rest)
  = Some (mkTransaction (read_only_ t') (id_ t') (innerID_ t) (source_ t) (target_ t) (currency_ t)
      (amount_ t) (max_fee_ t) (counted_fee_ t) (signature_ t) (user_fields_ t) (time_ t'), rest).
Proof.
  intros (Hid & Hs & Ht & Hc & Ha & Hm & Hf & Hg & Hu). rewrite put_tx_app. unfold core_enc.
  destruct (innerID_lo_hi t Hid) as [-> ->].
  destruct (flags_decode (is_wallet_id (source_ t)) (is_wallet_id (target_ t)) _ Hid) as (Hr & El & E1 & E2).
  rewrite app_nil_l, <- !app_assoc. unfold get_tx.
  rewrite get_put by (cbn; machine_lia). rewrite get_put by (unfold in_u in Hr; cbn; lia).
  rewrite E1, E2, !get_party_enc by done. rewrite El.
  rewrite (get_put (c := amount_codec)) by done. rewrite (get_put (c := fee_codec)) by done.
  rewrite (get_put (c := currency_codec)) by done. rewrite (get_put (c := fields_codec)) by done.
  rewrite (get_put (c := array_codec _)) by done. by rewrite (get_put (c := fee_codec)).
Qed.

#[global] Instance tx_codec_ok : CodecOk tx_codec.
Proof.
  split; unfold enc, tx_codec; cbn [put get wf].
  - intros t os. by rewrite put_tx_app, (put_tx_app t []).
  - intros t rest [Hw E]. rewrite get_tx_enc by done. do 2 f_equal. symmetry. exact E.
  - intros s t r x. unfold get_tx. do 2 codec_mono.
    do 2 match goal with |- context [get_party ?w ?s] =>
      destruct (get_party w s) as [[? ?]|] eqn:Gp; [rewrite (get_party_app _ _ _ _ x Gp); clear Gp|done] end.
    codec_mono. by intros [= <- <-].
Qed.

(** *** Reading a transaction back *)

(** Reading a transaction's byte stream back, with anything after it, gives the transaction with
    its inner id, its addresses of either kind packed in the id's top bits, amount, fees,
    currency, fields and signature; only the id in the pool and the time are reset. *)
Theorem from_binary_to_byte_stream t x :
  wf_tx t -> from_binary (to_byte_stream t ++ x) = fresh t /\ from_byte_stream (to_byte_stream t ++ x) = fresh t.
Proof.
  intros Hw. unfold from_binary, from_byte_stream, to_byte_stream. by rewrite get_tx_enc.
Qed.

(** Every strict prefix of a transaction's byte stream is refused: from_binary returns the default
    transaction. *)
Theorem transaction_truncated t p x :
  wf_tx t -> x <> [] -> to_byte_stream t = p ++ x -> from_binary p = default.
Proof.
  intros Hw Hx E. unfold from_binary. change (get_tx default) with (get tx_codec).
  rewrite (codec_prefix tx_codec (fresh t) p x); [done|..|done].
  - split; [exact Hw|done].
  - rewrite <- E. done.
Qed.

(** *** What a signature covers *)

(** The part of a transaction [put_core] writes. *)
Definition core (t : Transaction) :=
  (innerID_ t, source_ t, target_ t, amount_ t, max_fee_ t, currency_ t).

Lemma core_enc_core t t' : core t = core t' -> core_enc t = core_enc t'.
Proof. unfold core, core_enc, innerID_bytes. by intros [= -> -> -> -> -> ->]. Qed.

Lemma core_enc_inj t t' r r' :
  wf_tx t -> wf_tx t' -> core_enc t ++ r = core_enc t' ++ r' -> core t = core t' /\ r = r'.
Proof.
  intros (Hid & Hs & Ht & Hc & Ha & Hm & _) (Hid' & Hs' & Ht' & Hc' & Ha' & Hm' & _).
  unfold core_enc, core.
  destruct (innerID_lo_hi t Hid) as [-> ->]. destruct (innerID_lo_hi t' Hid') as [-> ->].
  destruct (flags_decode (is_wallet_id (source_ t)) (is_wallet_id (target_ t)) _ Hid) as (Hr & El & E1 & E2).
  destruct (flags_decode (is_wallet_id (source_ t')) (is_wallet_id (target_ t')) _ Hid') as (Hr' & El' & E1' & E2').
  rewrite <- !app_assoc. intros E.
  apply (codec_inj_app (uint_codec 2)) in E as [Elo E]; [|cbn; machine_lia..].
  apply (codec_inj_app (uint_codec 4)) in E as [Ehi E]; [|by eauto with cs..].
  rewrite Ehi in E1, E2, El. rewrite Elo in El.
  assert (is_wallet_id (source_ t) = is_wallet_id (source_ t')) as Es by congruence.
  assert (is_wallet_id (target_ t) = is_wallet_id (target_ t')) as Et by congruence.
  assert (innerID_ t = innerID_ t') as -> by congruence.
  pose proof (f_equal (get_party (is_wallet_id (source_ t))) E) as G.
  rewrite get_party_enc, Es, get_party_enc in G by done. apply (inj Some), pair_equal_spec in G as [-> G].
  apply (f_equal (get_party (is_wallet_id (target_ t)))) in G.
  rewrite get_party_enc, Et, get_party_enc in G by done. apply (inj Some), pair_equal_spec in G as [-> G].
  apply (codec_inj_app amount_codec) in G as [-> G]; [|done..].
  apply (codec_inj_app fee_codec) in G as [-> G]; [|done..].
  apply (codec_inj_app currency_codec) in G as [-> G]; done.
Qed.

Definition custom_fields (t : Transaction) : list (Z * UserField) := from_lower_bound 0 (user_fields_ t).

Lemma put_for_sig_app f os : uf_put_for_sig f os = os ++ uf_put_for_sig f [].
Proof. unfold uf_put_for_sig. destruct (type_ f); rewrite ?app_nil_r; [done|..]; apply put_app. Qed.

Lemma sig_stream_enc t :
  to_byte_stream_for_sig t = core_enc t ++ enc (uint_codec 1) (u8 (Z.of_nat (length (custom_fields t))))
    ++ put_values uf_put_for_sig (custom_fields t) [].
Proof.
  unfold to_byte_stream_for_sig. fold (custom_fields t). rewrite put_core_app, app_nil_l.
  destruct (Nat.eqb_spec (length (custom_fields t)) 0) as [E|E]; cbn [negb].
  - rewrite put_app. apply nil_length_inv in E. rewrite E. cbn [put_values]. by rewrite app_nil_r.
  - unfold put_smart. rewrite (put_values_app _ put_for_sig_app).
    change (put_int 1 ?n ?os) with (put (uint_codec 1) n os). by rewrite put_app, <- app_assoc.
Qed.

(** C38: Two well-formed transactions have the same signed bytes exactly when their inner id,
    source, target, amount, maximal fee and currency are equal and their custom fields are as many
    and are written to the same bytes: a signature binds every one of these and, of the custom
    fields, the values only. *)
Theorem signed_stream_spec t t' :
  wf_tx t -> wf_tx t' ->
  to_byte_stream_for_sig t = to_byte_stream_for_sig t' <->
  core t = core t' /\ length (custom_fields t) = length (custom_fields t') /\
  put_values uf_put_for_sig (custom_fields t) [] = put_values uf_put_for_sig (custom_fields t') [].
Proof.
  intros Hw Hw'. rewrite !sig_stream_enc.
  assert (forall u, wf_tx u -> in_u 8 (Z.of_nat (length (custom_fields u)))) as Hl.
  { intros u (_ & _ & _ & _ & _ & _ & _ & _ & Hu). destruct Hu as (_ & Hn & _).
    pose proof (length_from_lower_bound 0 (user_fields_ u)). unfold custom_fields, in_u. lia. }
  split.
  - intros E. apply core_enc_inj in E as [Ec E]; [|done..].
    apply (codec_inj_app (uint_codec 1)) in E as [En E]; [|by eauto with cs..].
    rewrite !uwrap_id in En by auto. split_and!; [done|lia|done].
  - intros (Ec & El & Ev). by rewrite (core_enc_core t t' Ec), El, Ev.
Qed.

Lemma put_values_snd m m' os :
  map snd m = map snd m' -> put_values uf_put_for_sig m os = put_values uf_put_for_sig m' os.
Proof.
  revert m' os. induction m as [|[k v] m IH]; intros [|[k' v'] m'] os E; cbn in E; [done..|].
  injection E as -> E. cbn [put_values]. by apply IH.
Qed.

(** A signature binds the values of the custom fields, not their ids: the
    same signature verifies for every transaction with the same core and the
    same values. *)
Lemma signed_stream_values t t' :
  core t = core t' -> map snd (custom_fields t) = map snd (custom_fields t') ->
  to_byte_stream_for_sig t = to_byte_stream_for_sig t'.
Proof.
  intros Ec Ev. rewrite !sig_stream_enc, (core_enc_core t t' Ec), (put_values_snd _ _ [] Ev).
  apply (f_equal length) in Ev. rewrite !length_map in Ev. by rewrite Ev.
Qed.

(** *** Read-only transactions *)

Inductive op : Set :=
  | SetInnerID (v : Z) | SetSource (v : Address) | SetTarget (v : Address) | SetCurrency (v : Currency)
  | SetAmount (v : Amount) | SetMaxFee (v : AmountCommission) | SetCountedFee (v : AmountCommission)
  | SetSignature (v : bytes) | SetTime (v : Z) | AddUserField (id : Z) (f : UserField).

Definition run_op (t : Transaction) (o : op) : Transaction :=
  match o with
  | SetInnerID v => set_innerID v t | SetSource v => set_source v t | SetTarget v => set_target v t
  | SetCurrency v => set_currency v t | SetAmount v => set_amount v t | SetMaxFee v => set_max_fee v t
  | SetCountedFee v => set_counted_fee v t | SetSignature v => set_signature v t | SetTime v => set_time v t
  | AddUserField id f => snd (add_user_field id f t)
  end.

Definition wf_op (o : op) : Prop :=
  match o with
  | SetInnerID v => 0 <= v < 2 ^ 46 | SetSource v | SetTarget v => wf_address v
  | SetCurrency v => wf currency_codec v | SetAmount v => wf_amount v
  | SetMaxFee v | SetCountedFee v => wf fee_codec v
  | SetSignature v => length v = kSignatureSize | SetTime v => True
  | AddUserField id f => in_s 32 id /\ wf_uf f
  end.

(** Once a pool has numbered a transaction (_update_id), no sequence of setters changes its byte
    stream or its id. *)
Theorem read_only_frozen t ops seq i :
  to_byte_stream (foldl run_op (_update_id t seq i) ops) = to_byte_stream t /\
  id_ (foldl run_op (_update_id t seq i) ops) = mkTransactionID seq i.
Proof.
  assert (forall u, read_only_ u = true -> let u' := foldl run_op u ops in
    to_byte_stream u' = to_byte_stream u /\ id_ u' = id_ u /\ read_only_ u' = true) as H1.
  { induction ops as [|o ops IH]; intros u Hu; cbn [foldl]; [done|].
    assert (to_byte_stream (run_op u o) = to_byte_stream u /\ id_ (run_op u o) = id_ u
      /\ read_only_ (run_op u o) = true) as (E1 & E2 & E3).
    { destruct o; cbn [run_op]; unfold set_innerID, set_source, set_target, set_currency, set_amount,
        set_max_fee, set_counted_fee, set_signature, add_user_field; rewrite ?Hu; done. }
    destruct (IH _ E3) as (F1 & F2 & F3). split_and!; [by rewrite F1|by rewrite F2|done]. }
  destruct (H1 (_update_id t seq i)) as (E1 & E2 & _); [done|]. by rewrite E1, E2.
Qed.

(** Every setter of a transaction, applied to a well-formed transaction with a value of the
    field's type, gives a well-formed transaction (innerID in 46 bits, addresses, amount and fees
    in their ranges, the signature's size, user fields sorted by distinct ids) as long as there
    are fewer than 256 user fields. *)
Theorem setters_keep_wf t o :
  wf_tx t -> wf_op o -> Z.of_nat (length (user_fields_ (run_op t o))) < 256 -> wf_tx (run_op t o).
Proof.
  intros Hw Ho. assert (Ht := Hw). destruct Ht as (Hid & Hs & Ht & Hc & Ha & Hm & Hf & Hg & Hu).
  destruct o; cbn [run_op wf_op] in *; unfold set_innerID, set_source, set_target, set_currency, set_amount,
        set_max_fee, set_counted_fee, set_signature, add_user_field;
    try (destruct (read_only_ t); cbn [negb]; [done|]; intros _; unfold wf_tx;
      cbn [innerID_ source_ target_ currency_ amount_ max_fee_ counted_fee_ signature_ user_fields_]; tauto).
  - destruct Ho as [Hi Hw']. rewrite (uf_valid_wf _ Hw'). destruct (read_only_ t); cbn [orb negb snd]; [done|].
    cbn [user_fields_]. intros Hl. destruct Hu as (Hu1 & Hu2 & Hu3).
    assert (wf fields_codec (assign id f (user_fields_ t))).
    { split; [by apply sorted_assign|]. split; [done|]. apply assign_Forall; [split; [exact Hi|exact Hw']|done]. }
    unfold wf_tx. cbn [innerID_ source_ target_ currency_ amount_ max_fee_ counted_fee_ signature_ user_fields_]. tauto.
Qed.

Lemma clone_id t : sorted (user_fields_ t) -> clone t = t.
Proof. intros Hs. unfold clone. rewrite (foldl_assign_sorted [] (user_fields_ t) Hs). by destruct t. Qed.
End tx.
End Tx.

(** ** Witnesses *)

(** From a public key to a wallet id, with a custom field under the given id. *)
Definition sample_tx (id : Z) : Transaction :=
  snd (Tx.add_user_field id (uf_of_string [104; 105])
    (Tx.make 5 (from_public_key (replicate 32 1)) (from_wallet_id 77) 1 (mkAmount 3 500) 10 20 (replicate 64 9))).

Lemma sample_tx_wf id : in_s 32 id -> Tx.wf_tx (sample_tx id).
Proof.
  intros Hid. unfold Tx.wf_tx.
  split_and!; try (by apply (bool_decide_unpack _); vm_compute).
  - apply wf_from_public_key. reflexivity.
  - by apply wf_from_wallet_id.
  - split; [repeat constructor|]. split; [vm_compute; reflexivity|].
    constructor; [|constructor]. split; [exact Hid|by vm_compute].
Qed.

Lemma from_binary_to_byte_stream_witness :
  Tx.from_binary (Tx.to_byte_stream (sample_tx 1) ++ [1; 2]) = Tx.fresh (sample_tx 1) /\
  Tx.from_byte_stream (Tx.to_byte_stream (sample_tx 1) ++ [1; 2]) = Tx.fresh (sample_tx 1).
Proof. apply (Tx.from_binary_to_byte_stream (sample_tx 1) [1; 2]). by apply sample_tx_wf. Defined.

Definition sample_tx_prefix : bytes := take 40 (Tx.to_byte_stream (sample_tx 1)).

Lemma transaction_truncated_witness : Tx.from_binary sample_tx_prefix = Tx.default.
Proof.
  apply (Tx.transaction_truncated (sample_tx 1) sample_tx_prefix (drop 40 (Tx.to_byte_stream (sample_tx 1))));
    [by apply sample_tx_wf|by apply (bool_decide_unpack _); vm_compute|by unfold sample_tx_prefix; rewrite take_drop].
Defined.

(** The same value under another id: both sides hold. *)
Lemma signed_stream_spec_witness :
  Tx.to_byte_stream_for_sig (sample_tx 1) = Tx.to_byte_stream_for_sig (sample_tx 2) <->
  Tx.core (sample_tx 1) = Tx.core (sample_tx 2) /\
  length (Tx.custom_fields (sample_tx 1)) = length (Tx.custom_fields (sample_tx 2)) /\
  put_values uf_put_for_sig (Tx.custom_fields (sample_tx 1)) [] =
    put_values uf_put_for_sig (Tx.custom_fields (sample_tx 2)) [].
Proof. apply (Tx.signed_stream_spec (sample_tx 1) (sample_tx 2)); by apply sample_tx_wf. Defined.

Lemma setters_keep_wf_witness : Tx.wf_tx (Tx.run_op (sample_tx 1) (Tx.SetAmount (mkAmount 7 5))).
Proof.
  apply (Tx.setters_keep_wf (sample_tx 1) (Tx.SetAmount (mkAmount 7 5))); [by apply sample_tx_wf| |by vm_compute].
  cbn [Tx.wf_op]. by vm_compute.
Defined.
