(* ===== verification/Packet.v ===== *)
(** * Packets of transactions ([csnode/src/transactionspacket.cpp],
      [csnode/include/csnode/transactionspacket.hpp])

    The hash of a packet and the packet itself: its three serialised parts, of
    which the last two may be missing, the hash of the first one, and the
    signatures of the sender or of the confidants of a contract's consensus.

    The messages that [verify] returns as strings (empty: verified) are the
    constructors of [Verdict]. *)

From Stdlib Require Import ZArith Lia.
From stdpp Require Import base tactics numbers option list.
From S2P Require Import Prelude BinStream Amount UserField Crypto Address Transaction.

Local Open Scope Z_scope.
Local Open Scope cs_scope.

(** ** [TransactionsPacketHash] *)

Module PacketHash.
Section packet_hash.
Context `{!Cscrypto}.

Definition t : Type := bytes.

Definition fromString (str : bytes) : t :=
  match str with
  | [] => []
  | _ => let hash := Hex.from_hex str in if (kHashSize =? length hash)%nat then hash else []
  end.
Definition fromBinary (data : bytes) : t := if (kHashSize =? length data)%nat then data else [].
Definition calcFromData (data : bytes) : t := calculateHash data.

Definition isEmpty (h : t) : bool := match h with [] => true | _ => false end.
Definition size (h : t) : Z := Z.of_nat (length h).
Definition toString (h : t) : bytes := Hex.to_hex h.
Definition op_eq (h other : t) : bool := bool_decide (h = other).
Definition op_lt (h other : t) : bool := lex_lt h other.

Context `{!CscryptoLaws _}.

(** What is read is a hash or empty. *)
Lemma fromBinary_size data : fromBinary data = [] \/ length (fromBinary data) = kHashSize.
Proof. unfold fromBinary. destruct (Nat.eqb_spec kHashSize (length data)); [by right|by left]. Qed.

Theorem fromString_toString h : bytes_ok h -> h = [] \/ length h = kHashSize -> fromString (toString h) = h.
Proof.
  intros Hb Hl. unfold fromString, toString. destruct h as [|b h]; [done|].
  destruct Hl as [|Hl]; [done|]. pose proof (Hex.from_hex_to_hex _ Hb) as E.
  destruct (Hex.to_hex (b :: h)); [done|]. by rewrite E, Hl, Nat.eqb_refl.
Qed.
End packet_hash.
End PacketHash.

(** ** [TransactionsPacket] *)

Record TransactionsPacket := mkPacket {
  hash_ : bytes;
  transactions_ : list Transaction;
  stateTransactions_ : list Transaction;
  signatures_ : list (Z * bytes)
}.
#[global] Instance eta_packet : Eta TransactionsPacket := fun p =>
  mkPacket (hash_ p) (transactions_ p) (stateTransactions_ p) (signatures_ p).

(** The bits of [Serialization]. *)
Definition Transactions : Z := 1.
Definition States : Z := 2.
Definition Signatures : Z := 4.
Definition SignaturesAndStates : Z := Z.lor Signatures States.
Definition All : Z := Z.lor SignaturesAndStates Transactions.

(** What [verify] says. *)
Inductive Verdict : Set :=
  | Verified
  | NoHash
  | WrongNumber (size : Z)
  | IndexOutOfRange
  | InvalidSignature
  | NotEnough (size : Z) (bad : list Z).

Module Packet.
Section packet.
Context `{!Cscrypto}.
(** [cscrypto::generateSignature]: of the data with the private key. *)
Context (generateSignature : bytes -> bytes -> bytes).

Definition empty : TransactionsPacket := mkPacket [] [] [] [].

Definition sig_codec : codec (Z * bytes) := pair_codec (uint_codec 1) (array_codec kSignatureSize).

(** The size of a vector, and its elements. *)
Definition put_vector {A} (c : codec A) (l : list A) (os : obstream) : obstream :=
  put_list c l (put (uint_codec 8) (Z.of_nat (length l)) os).

Definition put (p : TransactionsPacket) (options : Z) (os : obstream) : obstream :=
  let os := if negb (Z.land options Transactions =? 0) then put_vector Tx.tx_codec (transactions_ p) os else os in
  let os := if negb (Z.land options States =? 0) then put_vector Tx.tx_codec (stateTransactions_ p) os else os in
  if negb (Z.land options Signatures =? 0) then put_vector sig_codec (signatures_ p) os else os.

Definition toBinary (p : TransactionsPacket) (options : Z) : bytes := put p options [].

(** [vector::max_size] of transactions (a pointer each) and of signatures;
    [reserve] beyond it throws.  The memory it takes below is not modelled. *)
Definition max_transactions : Z := (2 ^ 63 - 1) / 8.
Definition max_signatures : Z := (2 ^ 63 - 1) / Z.of_nat (1 + kSignatureSize).

(** The count has been read: [reserve] and the loop. *)
Definition get_elements {A} (c : codec A) (max count : Z) (ist : ibstream) : result (option (list A * ibstream)) :=
  if max <? count then Throw length_error else Ok (get_list c (Z.to_nat count) ist).

Definition get_states (ist : ibstream) : result (option (list Transaction * ibstream)) :=
  match BinStream.get (uint_codec 8) ist with
  | None => Ok (Some ([], ist))
  | Some (statesCount, ist) => get_elements Tx.tx_codec max_transactions statesCount ist
  end.
Definition get_signatures (ist : ibstream) : result (option (list (Z * bytes) * ibstream)) :=
  match BinStream.get (uint_codec 8) ist with
  | None => Ok (Some ([], ist))
  | Some (signaturesCount, ist) => get_elements sig_codec max_signatures signaturesCount ist
  end.

(** [get] on a new packet: [None] when it returns false. *)
Definition get (ist : ibstream) : result (option (TransactionsPacket * ibstream)) :=
  match BinStream.get (uint_codec 8) ist with
  | None => Ok None
  | Some (transactionsCount, ist) =>
      let! r := get_elements Tx.tx_codec max_transactions transactionsCount ist in
      match r with
      | None => Ok None
      | Some (transactions, ist) =>
          let! r := get_states ist in
          match r with
          | None => Ok None
          | Some (states, ist) =>
              let! r := get_signatures ist in
              match r with
              | None => Ok None
              | Some (signatures, ist) => Ok (Some (mkPacket [] transactions states signatures, ist))
              end
          end
      end
  end.

Definition isHashEmpty (p : TransactionsPacket) : bool := PacketHash.isEmpty (hash_ p).

Definition makeHash (p : TransactionsPacket) : bool * TransactionsPacket :=
  let isEmpty := isHashEmpty p in
  (isEmpty, if isEmpty then p <| hash_ := PacketHash.calcFromData (toBinary p Transactions) |> else p).

Definition fromByteStream (data : bytes) : result TransactionsPacket :=
  let! r := get data in
  match r with
  | None => Ok empty
  | Some (res, _) => Ok (snd (makeHash res))
  end.
Definition fromBinary (data : bytes) : result TransactionsPacket := fromByteStream data.

Definition transactionsCount (p : TransactionsPacket) : Z := Z.of_nat (length (transactions_ p)).

Definition addTransaction (tr : Transaction) (p : TransactionsPacket) : bool * TransactionsPacket :=
  if negb (Tx.is_valid tr) || negb (isHashEmpty p) then (false, p)
  else (true, p <| transactions_ := transactions_ p ++ [tr] |>).
Definition addStateTransaction (tr : Transaction) (p : TransactionsPacket) : bool * TransactionsPacket :=
  if negb (Tx.is_valid tr) || negb (isHashEmpty p) then (false, p)
  else (true, p <| stateTransactions_ := stateTransactions_ p ++ [tr] |>).
Definition addSignature (index : Z) (signature : bytes) (p : TransactionsPacket) : bool * TransactionsPacket :=
  if existsb (fun element => index =? element.1) (signatures_ p) then (false, p)
  else (true, p <| signatures_ := signatures_ p ++ [(index, signature)] |>).

(** [sign]; the key is [None] when it holds no data. *)
Definition sign (privateKey : option bytes) (p : TransactionsPacket) : bool * TransactionsPacket :=
  match privateKey with
  | None => (false, p)
  | Some key =>
      if (0 <? length (signatures_ p))%nat then (false, p)
      else if isHashEmpty p then (false, p)
      else (true, p <| signatures_ := signatures_ p ++ [(0, generateSignature key (hash_ p))] |>)
  end.

(** [verify(publicKey)]: the signature of the sender *)
Definition verify (publicKey : bytes) (p : TransactionsPacket) : Verdict :=
  if isHashEmpty p then NoHash
  else match signatures_ p with
       | [(_, signature)] => if verifySignature signature publicKey (hash_ p) then Verified else InvalidSignature
       | l => WrongNumber (Z.of_nat (length l))
       end.

(** The loop of [verify(publicKeys)]: [None] when an index is out of range. *)
Fixpoint verify_loop (hash : bytes) (publicKeys : list bytes) (l : list (Z * bytes)) (count : Z) (bad : list Z)
  : option (Z * list Z) :=
  match l with
  | [] => Some (count, bad)
  | (i, signature) :: l =>
      if i <? Z.of_nat (length publicKeys) then
        match publicKeys !! Z.to_nat i with
        | Some key => if verifySignature signature key hash then verify_loop hash publicKeys l (count + 1) bad
                      else verify_loop hash publicKeys l count (bad ++ [i])
        | None => None
        end
      else None
  end.

(** [verify(publicKeys)]: the signatures of confidants *)
Definition verify_confidants (publicKeys : list bytes) (p : TransactionsPacket) : Verdict :=
  if isHashEmpty p then NoHash
  else if (length (signatures_ p) <? 3)%nat then WrongNumber (Z.of_nat (length (signatures_ p)))
  else match verify_loop (hash_ p) publicKeys (signatures_ p) 0 [] with
       | None => IndexOutOfRange
       | Some (count, bad) =>
           if count <=? Z.of_nat (length publicKeys) / 2 then NotEnough (Z.of_nat (length (signatures_ p))) bad else Verified
       end.

Definition isSmart (p : TransactionsPacket) : bool := (1 <? length (signatures_ p))%nat.
Definition clear (p : TransactionsPacket) : TransactionsPacket := p <| transactions_ := [] |>.

(** *** Round trip *)

Context `{!CscryptoLaws _}.

#[global] Instance sig_codec_ok : CodecOk sig_codec.
Proof. unfold sig_codec. apply _. Qed.

(** The packets that a stream can hold: transactions that are not in a pool, and
    counts that a vector can have. *)
Record wf_packet (p : TransactionsPacket) : Prop := {
  wf_transactions : Forall (wf Tx.tx_codec) (transactions_ p);
  wf_states : Forall (wf Tx.tx_codec) (stateTransactions_ p);
  wf_signatures : Forall (wf sig_codec) (signatures_ p);
  wf_counts : Z.of_nat (length (transactions_ p)) <= max_transactions /\
    Z.of_nat (length (stateTransactions_ p)) <= max_transactions /\ Z.of_nat (length (signatures_ p)) <= max_signatures
}.

Definition enc_vector {A} (c : codec A) (l : list A) : bytes := put_vector c l [].

Lemma put_vector_app {A} (c : codec A) `{!CodecOk c} l os : put_vector c l os = os ++ enc_vector c l.
Proof.
  unfold enc_vector, put_vector. rewrite !(put_list_app c l (BinStream.put _ _ _)), (put_app (c := uint_codec 8)), (put_app (c := uint_codec 8) _ []).
  by rewrite app_nil_l, app_assoc.
Qed.

Lemma max_range : 0 <= max_transactions < 2 ^ 64 /\ 0 <= max_signatures < 2 ^ 64.
Proof.
  split; [by vm_compute|]. unfold max_signatures. pose proof (Z.div_pos (2 ^ 63 - 1) (Z.of_nat (1 + kSignatureSize)) ltac:(lia) ltac:(lia)).
  pose proof (Z.div_le_upper_bound (2 ^ 63 - 1) (Z.of_nat (1 + kSignatureSize)) (2 ^ 63 - 1) ltac:(lia) ltac:(nia)). lia.
Qed.

Lemma get_vector {A} (c : codec A) `{!CodecOk c} max l rest :
  Forall (wf c) l -> Z.of_nat (length l) <= max -> max < 2 ^ 64 ->
  match BinStream.get (uint_codec 8) (enc_vector c l ++ rest) with
  | None => False
  | Some (count, ist) => get_elements c max count ist = Ok (Some (l, rest))
  end.
Proof.
  intros Hl Hn Hm. unfold enc_vector, put_vector. rewrite (put_list_app c), <- app_assoc.
  change (BinStream.put (uint_codec 8) ?n []) with (enc (uint_codec 8) n).
  rewrite get_put by (apply wf_u64; unfold in_u; lia). unfold get_elements.
  rewrite (proj2 (Z.ltb_ge _ _) Hn), Nat2Z.id. f_equal. by apply get_list_put.
Qed.

(** What is left of a packet when only the parts [states] and [signatures] are written. *)
Lemma get_put_parts p rest :
  wf_packet p ->
  get (put p All [] ++ rest) = Ok (Some (mkPacket [] (transactions_ p) (stateTransactions_ p) (signatures_ p), rest)) /\
  (length rest < 8 -> get (put p Transactions [] ++ rest) = Ok (Some (mkPacket [] (transactions_ p) [] [], rest)))%nat.
Proof.
  intros [H1 H2 H3 (N1 & N2 & N3)]. destruct max_range as [[_ M1] [_ M2]].
  assert (forall ist, (length ist < 8)%nat -> BinStream.get (uint_codec 8) ist = None) as Hshort.
  { intros ist Hi. unfold BinStream.get, uint_codec, get_uint. by rewrite (proj2 (Nat.leb_gt _ _) Hi). }
  unfold get, put. cbn [Z.land Z.lor All Transactions States Signatures SignaturesAndStates].
  change (Z.land All Transactions =? 0) with false. change (Z.land All States =? 0) with false. change (Z.land All Signatures =? 0) with false.
  change (Z.land Transactions Transactions =? 0) with false. change (Z.land Transactions States =? 0) with true.
  change (Z.land Transactions Signatures =? 0) with true. cbn [negb].
  rewrite (put_vector_app sig_codec), (put_vector_app Tx.tx_codec (stateTransactions_ p)), <- !app_assoc. split.
  - pose proof (get_vector Tx.tx_codec max_transactions (transactions_ p)
      (enc_vector Tx.tx_codec (stateTransactions_ p) ++ enc_vector sig_codec (signatures_ p) ++ rest) H1 N1 M1) as G1.
    fold (enc_vector Tx.tx_codec (transactions_ p)). destruct (BinStream.get (uint_codec 8) _) as [[n1 r1]|]; [|done]. rewrite G1. cbn [rbind].
    unfold get_states. pose proof (get_vector Tx.tx_codec max_transactions (stateTransactions_ p)
      (enc_vector sig_codec (signatures_ p) ++ rest) H2 N2 M1) as G2.
    destruct (BinStream.get (uint_codec 8) _) as [[n2 r2]|]; [|done]. rewrite G2. cbn [rbind].
    unfold get_signatures. pose proof (get_vector sig_codec max_signatures (signatures_ p) rest H3 N3 M2) as G3.
    destruct (BinStream.get (uint_codec 8) _) as [[n3 r3]|]; [|done]. rewrite G3. done.
  - intros Hr. pose proof (get_vector Tx.tx_codec max_transactions (transactions_ p) rest H1 N1 M1) as G1.
    fold (enc_vector Tx.tx_codec (transactions_ p)). destruct (BinStream.get (uint_codec 8) _) as [[n1 r1]|]; [|done]. rewrite G1. cbn [rbind].
    unfold get_states. rewrite Hshort by done. cbn [rbind]. unfold get_signatures. by rewrite Hshort by done.
Qed.

(** A well-formed packet is read back from its full binary form with its transactions, states and
    signatures, and from the form of its transactions alone with these; in both cases its hash is
    the one of its transactions. *)
Theorem packet_roundtrip p :
  wf_packet p ->
  fromBinary (toBinary p All) = Ok (p <| hash_ := PacketHash.calcFromData (toBinary p Transactions) |>) /\
  fromBinary (toBinary p Transactions)
    = Ok (p <| hash_ := PacketHash.calcFromData (toBinary p Transactions) |> <| stateTransactions_ := [] |> <| signatures_ := [] |>).
Proof.
  intros Hp. destruct (get_put_parts p [] Hp) as [G1 G2]. rewrite app_nil_r in G1, G2. specialize (G2 ltac:(cbn; lia)).
  unfold fromBinary, fromByteStream, toBinary. rewrite G1, G2. done.
Qed.

(** The hash of a packet covers its transactions only: two well-formed packets with the same
    transactions and any states and signatures are read with the same hash. *)
Theorem packet_hash_ignores p q :
  wf_packet p -> wf_packet q -> transactions_ p = transactions_ q ->
  rmap hash_ (fromBinary (toBinary p All)) = rmap hash_ (fromBinary (toBinary q All)).
Proof.
  intros Hp Hq E. destruct (get_put_parts p [] Hp) as [G1 _], (get_put_parts q [] Hq) as [G2 _]. rewrite app_nil_r in G1, G2.
  unfold fromBinary, fromByteStream, toBinary. rewrite G1, G2. unfold rmap. cbn [rbind makeHash isHashEmpty PacketHash.isEmpty hash_ snd].
  cbn [upd hash_]. unfold toBinary, put. cbn. by rewrite E.
Qed.

(** A packet that announces more transactions than a vector can hold makes fromBinary throw
    length_error out of the vector's reserve. *)
Theorem hostile_count_throws count x :
  max_transactions < count < 2 ^ 64 -> fromBinary (le_bytes 8 count ++ x) = Throw length_error.
Proof.
  intros Hc. destruct max_range as [[H0 _] _]. unfold fromBinary, fromByteStream, get.
  change (le_bytes 8 count) with (enc (uint_codec 8) count). rewrite get_put by (apply wf_u64; unfold in_u; lia).
  unfold get_elements. by rewrite (proj2 (Z.ltb_lt _ _)) by lia.
Qed.

(** *** The confidants' signatures *)

Definition valid_for (hash : bytes) (keys : list bytes) (s : Z * bytes) : bool :=
  match keys !! Z.to_nat s.1 with Some key => verifySignature s.2 key hash | None => false end.
Definition valid_count (hash : bytes) (keys : list bytes) (l : list (Z * bytes)) : Z :=
  Z.of_nat (length (List.filter (valid_for hash keys) l)).

Lemma verify_loop_spec hash keys l count bad :
  Forall (fun s => 0 <= s.1) l ->
  match verify_loop hash keys l count bad with
  | None => Exists (fun s => Z.of_nat (length keys) <= s.1) l
  | Some (count', _) => count' = count + valid_count hash keys l /\ Forall (fun s => 0 <= s.1 < Z.of_nat (length keys)) l
  end.
Proof.
  unfold valid_count. revert count bad. induction l as [|[i sg] l IH]; intros count bad Hl; cbn [verify_loop List.filter].
  { split; [cbn; lia|constructor]. }
  apply Forall_cons in Hl as [Hi Hl]. cbn [fst] in Hi. destruct (Z.ltb_spec i (Z.of_nat (length keys))) as [Hlt|]; [|by left].
  unfold valid_for at 1. cbn [fst snd]. destruct (lookup_lt_is_Some_2 keys (Z.to_nat i)) as [key Ek]; [lia|]. rewrite Ek.
  destruct (verifySignature sg key hash).
  - specialize (IH (count + 1) bad Hl). destruct (verify_loop _ _ _ _ _) as [[c b]|]; [|by right].
    destruct IH as [-> Hf]. cbn [length]. split; [lia|]. by constructor.
  - specialize (IH count (bad ++ [i]) Hl). destruct (verify_loop _ _ _ _ _) as [[c b]|]; [|by right].
    destruct IH as [-> Hf]. split; [done|]. by constructor.
Qed.

(** The confidants one of whose signatures in the packet is valid. *)
Definition signers (keys : list bytes) (p : TransactionsPacket) : list Z :=
  List.filter (fun i => existsb (fun s => (s.1 =? i) && valid_for (hash_ p) keys s) (signatures_ p))
    (map Z.of_nat (seq 0 (length keys))).

Lemma signers_many keys p :
  NoDup (map fst (signatures_ p)) -> Forall (fun s => 0 <= s.1 < Z.of_nat (length keys)) (signatures_ p) ->
  valid_count (hash_ p) keys (signatures_ p) <= Z.of_nat (length (signers keys p)).
Proof.
  intros Hn Hf. unfold valid_count. rewrite <- (length_map fst). apply inj_le, submseteq_length, NoDup_submseteq.
  - assert (map fst (List.filter (valid_for (hash_ p) keys) (signatures_ p)) `sublist_of` map fst (signatures_ p)) as Hs.
    { induction (signatures_ p) as [|s l IH]; cbn; [done|]. apply NoDup_cons in Hn as [_ Hn]. apply Forall_cons in Hf as [_ Hf].
      destruct (valid_for _ _ _); cbn; [by apply sublist_skip, IH|by apply sublist_cons, IH]. }
    by eapply sublist_NoDup.
  - intros i (s & <- & Hs)%list_elem_of_In%in_map_iff. apply filter_In in Hs as [Hs Hv]. rewrite <- list_elem_of_In in Hs.
    rewrite Forall_forall in Hf. specialize (Hf s Hs). apply list_elem_of_In, filter_In. split.
    + apply in_map_iff. exists (Z.to_nat s.1). split; [lia|]. apply in_seq. lia.
    + apply existsb_exists. exists s. split; [by apply list_elem_of_In|]. by rewrite Z.eqb_refl, Hv.
Qed.

(** What is counted: the entries that are valid for the confidant they name *)
Lemma verify_loop_counts hash keys l count bad count' bad' :
  verify_loop hash keys l count bad = Some (count', bad') -> count' = count + valid_count hash keys l.
Proof.
  unfold valid_count. revert count bad. induction l as [|[i sg] l IH]; intros count bad; cbn [verify_loop List.filter].
  { intros [= <- _]. cbn. lia. }
  destruct (_ <? _); [|done]. unfold valid_for at 1. cbn [fst snd]. destruct (keys !! Z.to_nat i) as [key|]; [|done].
  destruct (verifySignature sg key hash); intros E%IH; cbn [length]; lia.
Qed.

Lemma verify_confidants_counts keys p :
  verify_confidants keys p = Verified -> Z.of_nat (length keys) < 2 * valid_count (hash_ p) keys (signatures_ p).
Proof.
  unfold verify_confidants. destruct (isHashEmpty p); [done|]. destruct (_ <? 3)%nat; [done|].
  destruct (verify_loop _ _ _ _ _) as [[c b]|] eqn:E; [|done]. apply verify_loop_counts in E as ->.
  destruct (Z.leb_spec (0 + valid_count (hash_ p) keys (signatures_ p)) (Z.of_nat (length keys) / 2)) as [|Hc]; [done|]. intros _.
  pose proof (Z.div_mod (Z.of_nat (length keys)) 2 ltac:(lia)). pose proof (Z.mod_pos_bound (Z.of_nat (length keys)) 2 ltac:(lia)). lia.
Qed.

(** When verify accepts a packet of contract transactions whose signatures name distinct
    confidants, more than half of the confidants signed the packet's hash. *)
Theorem verify_confidants_majority keys p :
  Forall (fun s => 0 <= s.1) (signatures_ p) -> NoDup (map fst (signatures_ p)) ->
  verify_confidants keys p = Verified ->
  Z.of_nat (length keys) < 2 * Z.of_nat (length (signers keys p)).
Proof.
  intros H0 Hn. unfold verify_confidants. destruct (isHashEmpty p); [done|]. destruct (_ <? 3)%nat; [done|].
  pose proof (verify_loop_spec (hash_ p) keys (signatures_ p) 0 [] H0) as Hv.
  destruct (verify_loop _ _ _ _ _) as [[c b]|]; [|done]. destruct Hv as [-> Hf].
  destruct (Z.leb_spec (0 + valid_count (hash_ p) keys (signatures_ p)) (Z.of_nat (length keys) / 2)) as [|Hc]; [done|]. intros _.
  pose proof (signers_many keys p Hn Hf). pose proof (Z.div_mod (Z.of_nat (length keys)) 2 ltac:(lia)).
  pose proof (Z.mod_pos_bound (Z.of_nat (length keys)) 2 ltac:(lia)). lia.
Qed.

(** verify counts signatures and not signers: one confidant whose valid signature is repeated
    often enough makes a packet accepted alone. *)
Theorem verify_confidants_repeats keys p i key sg n :
  0 <= i -> keys !! Z.to_nat i = Some key -> isHashEmpty p = false -> verifySignature sg key (hash_ p) = true ->
  signatures_ p = replicate n (i, sg) -> (3 <= n)%nat -> Z.of_nat (length keys) / 2 < Z.of_nat n ->
  verify_confidants keys p = Verified.
Proof.
  intros Hi Ek He Hv Es Hn Hk. pose proof (lookup_lt_Some _ _ _ Ek). unfold verify_confidants. rewrite He, Es, length_replicate.
  rewrite (proj2 (Nat.ltb_ge _ _) Hn).
  pose proof (verify_loop_spec (hash_ p) keys (replicate n (i, sg)) 0 []) as Hl.
  assert (Forall (fun s : Z * bytes => 0 <= s.1) (replicate n (i, sg))) as Hpos by by apply Forall_replicate.
  specialize (Hl Hpos). destruct (verify_loop _ _ _ _ _) as [[c b]|].
  - destruct Hl as [-> _]. assert (valid_count (hash_ p) keys (replicate n (i, sg)) = Z.of_nat n) as ->.
    { unfold valid_count. f_equal. clear -Ek Hv. induction n as [|n IH]; cbn; [done|].
      unfold valid_for at 1. cbn [fst snd]. rewrite Ek, Hv. cbn. by rewrite IH. }
    by rewrite (proj2 (Z.leb_gt _ _)) by lia.
  - exfalso. apply Exists_exists in Hl as (s & Hs & Hle). assert (Forall (fun s => s = (i, sg)) (replicate n (i, sg))) as Hall by by apply Forall_replicate.
    rewrite Forall_forall in Hall. specialize (Hall s Hs). cbn beta in Hall. subst s. cbn [fst] in Hle. lia.
Qed.

(** [addSignature] never adds a second signature of one confidant. *)
Lemma addSignature_nodup i sg p :
  NoDup (map fst (signatures_ p)) -> NoDup (map fst (signatures_ (snd (addSignature i sg p)))).
Proof.
  intros Hn. unfold addSignature. destruct (existsb _ _) eqn:E; [done|]. cbn [snd upd signatures_].
  rewrite map_app. apply NoDup_app. split_and!; [done| |apply NoDup_singleton].
  intros j Hj Ej%list_elem_of_singleton. cbn [fst] in Ej. subst j. apply not_true_iff_false in E. apply E, existsb_exists.
  apply list_elem_of_In, in_map_iff in Hj as (s & <- & Hs). exists s. split; [done|]. apply Z.eqb_refl.
Qed.
End packet.
End Packet.

(** ** Witnesses *)

Definition sample_packet (states : list Transaction) : TransactionsPacket :=
  mkPacket [] [sample_tx 1; sample_tx 2] states [(0, replicate 64 5); (2, replicate 64 6)].

Lemma sample_packet_wf states : Forall (wf Tx.tx_codec) states -> (length states < 8)%nat -> Packet.wf_packet (sample_packet states).
Proof.
  intros Hs Hl. assert (forall i, in_s 32 i -> wf Tx.tx_codec (sample_tx i)) as Ht.
  { intros i Hi. split; [by apply sample_tx_wf|]. done. }
  split; cbn [transactions_ stateTransactions_ signatures_ sample_packet].
  - apply Forall_cons. split; [apply Ht; unfold in_s; lia|]. apply Forall_singleton, Ht. unfold in_s. lia.
  - done.
  - apply Forall_cons. split; [|apply Forall_singleton]; (split; [cbn; lia|done]).
  - assert (100 <= Packet.max_transactions) by by vm_compute. assert (100 <= Packet.max_signatures) by by vm_compute.
    cbn [length]. lia.
Qed.

Lemma packet_roundtrip_witness :
  Packet.fromBinary (Packet.toBinary (sample_packet []) All)
    = Ok (sample_packet [] <| hash_ := PacketHash.calcFromData (Packet.toBinary (sample_packet []) Transactions) |>) /\
  Packet.fromBinary (Packet.toBinary (sample_packet []) Transactions)
    = Ok (sample_packet [] <| hash_ := PacketHash.calcFromData (Packet.toBinary (sample_packet []) Transactions) |>
            <| stateTransactions_ := [] |> <| signatures_ := [] |>).
Proof. apply (Packet.packet_roundtrip (sample_packet [])). apply sample_packet_wf; [constructor|cbn; lia]. Defined.

Lemma packet_hash_ignores_witness :
  rmap hash_ (Packet.fromBinary (Packet.toBinary (sample_packet []) All))
  = rmap hash_ (Packet.fromBinary (Packet.toBinary (sample_packet [sample_tx 3]) All)).
Proof.
  apply (Packet.packet_hash_ignores (sample_packet []) (sample_packet [sample_tx 3]));
    [apply sample_packet_wf; [constructor|cbn; lia]|apply sample_packet_wf; [|cbn; lia]|done].
  constructor; [|constructor]. split; [apply sample_tx_wf; unfold in_s; lia|done].
Defined.

Lemma hostile_count_throws_witness : Packet.fromBinary (le_bytes 8 (2 ^ 64 - 1) ++ [1; 2]) = Throw length_error.
Proof. apply (Packet.hostile_count_throws (2 ^ 64 - 1) [1; 2]). by vm_compute. Defined.

Definition packet_key (i : Z) : bytes := le_bytes 32 (200 + i).
Definition packet_sign (i : Z) (h : bytes) : bytes := toy_hash (packet_key i ++ h) ++ replicate 32 0.
Definition packet_hash : bytes := replicate 32 7.
Definition packet_keys : list bytes := [packet_key 0; packet_key 1; packet_key 2; packet_key 3].

Lemma verify_confidants_majority_witness :
  let p := mkPacket packet_hash [] [] [(0, packet_sign 0 packet_hash); (1, packet_sign 1 packet_hash); (3, packet_sign 3 packet_hash)] in
  Z.of_nat (length packet_keys) < 2 * Z.of_nat (length (Packet.signers packet_keys p)).
Proof.
  apply Packet.verify_confidants_majority; [repeat constructor; cbn; lia| |by vm_compute].
  apply (bool_decide_unpack _). by vm_compute.
Defined.

(** Three copies of one signature pass for four confidants. *)
Lemma verify_confidants_repeats_witness :
  Packet.verify_confidants packet_keys (mkPacket packet_hash [] [] (replicate 3 (2, packet_sign 2 packet_hash))) = Verified.
Proof.
  apply (Packet.verify_confidants_repeats packet_keys _ 2 (packet_key 2) (packet_sign 2 packet_hash) 3);
    [lia|done|done|by vm_compute|done|lia|by vm_compute].
Defined.
