(* ===== verification/MetaStorage.v ===== *)
(** * Storages by round ([lib/include/lib/system/metastorage.hpp]) and the
      queue of packets ([csnode/src/packetqueue.cpp],
      [csnode/include/csnode/packetqueue.hpp])

    A [MetaStorage] is a circular buffer of at most [capacity] elements with
    distinct rounds, the oldest first; a full buffer loses its oldest element
    when one is appended.  A [PacketQueue] collects the transactions of a node in
    packets and gives out at most so many packets a round. *)

From Stdlib Require Import ZArith Lia.
From stdpp Require Import base tactics numbers option list.
From S2P Require Import Prelude Effect Crypto Transaction Packet.

Local Open Scope Z_scope.
Local Open Scope cs_scope.

(** ** [MetaStorage] *)

Record Meta (T : Type) := mkMeta { capacity_ : nat; buffer_ : list (Z * T) }.
Arguments mkMeta {T}. Arguments capacity_ {T}. Arguments buffer_ {T}.

Module MetaStorage.
Section meta.
Context {T : Type}.

Definition new (size : nat) : Meta T := mkMeta size [].

(** [boost::circular_buffer::push_back] *)
Definition push_back (x : Z * T) (m : Meta T) : Meta T :=
  if (capacity_ m =? 0)%nat then m
  else mkMeta (capacity_ m) ((if (length (buffer_ m) =? capacity_ m)%nat then tl (buffer_ m) else buffer_ m) ++ [x]).

Definition size (m : Meta T) : nat := length (buffer_ m).

Definition value (round : Z) (m : Meta T) : option T := snd <$> List.find (fun x => x.1 =? round) (buffer_ m).
Definition contains (round : Z) (m : Meta T) : bool := existsb (fun x => x.1 =? round) (buffer_ m).
Definition append (x : Z * T) (m : Meta T) : bool * Meta T :=
  if existsb (fun y => y.1 =? x.1) (buffer_ m) then (false, m) else (true, push_back x m).

(** [get]: what the pointer shows, and a write through it. *)
Definition get (round : Z) (m : Meta T) : option T := value round m.
Fixpoint write_first (round : Z) (f : T -> T) (l : list (Z * T)) : list (Z * T) :=
  match l with
  | [] => []
  | (r, t) :: l => if r =? round then (r, f t) :: l else (r, t) :: write_first round f l
  end.
Definition write (round : Z) (f : T -> T) (m : Meta T) : Meta T := mkMeta (capacity_ m) (write_first round f (buffer_ m)).

Fixpoint erase_first (round : Z) (l : list (Z * T)) : list (Z * T) :=
  match l with
  | [] => []
  | (r, t) :: l => if r =? round then l else (r, t) :: erase_first round l
  end.
Definition extract (round : Z) (m : Meta T) : option T * Meta T :=
  (value round m, mkMeta (capacity_ m) (erase_first round (buffer_ m))).

(** [last] and [max]: of an empty storage they are undefined. *)
Definition last (m : Meta T) : M T := match list.last (buffer_ m) with Some x => ret x.2 | None => None end.
Definition max_loop (l : list (Z * T)) (acc : Z * option T) : Z * option T :=
  foldl (fun acc x => if acc.1 <=? x.1 then (x.1, Some x.2) else acc) acc l.
Definition max (m : Meta T) : M T := match (max_loop (buffer_ m) (0, None)).2 with Some t => ret t | None => None end.

(** *** Well-formed storages *)

Record wf (m : Meta T) : Prop := {
  wf_size : (length (buffer_ m) <= capacity_ m)%nat;
  wf_nodup : NoDup (map fst (buffer_ m))
}.

Lemma contains_value round m : contains round m = true <-> is_Some (value round m).
Proof.
  unfold contains, value. induction (buffer_ m) as [|[r t] l IH]; cbn; [split; [done|intros [? ?]; done]|].
  destruct (r =? round); [cbn; split; [by eexists|done]|exact IH].
Qed.

Lemma contains_elem round m : contains round m = true <-> round ∈ map fst (buffer_ m).
Proof.
  unfold contains. rewrite existsb_exists. rewrite list_elem_of_fmap. split.
  - intros (x & Hx & E%Z.eqb_eq). exists x. split; [done|]. by apply list_elem_of_In.
  - intros (x & -> & Hx). exists x. split; [by apply list_elem_of_In|apply Z.eqb_refl].
Qed.

Lemma wf_append x m : wf m -> wf (append x m).2.
Proof.
  intros [Hs Hn]. unfold append. destruct (existsb _ _) eqn:E; [done|]. cbn [snd]. unfold push_back.
  destruct (Nat.eqb_spec (capacity_ m) 0); [done|].
  assert (x.1 ∉ map fst (buffer_ m)) as Hx.
  { intros Hin. apply (contains_elem x.1 m) in Hin. unfold contains in Hin. congruence. }
  split; cbn [capacity_ buffer_].
  - destruct (Nat.eqb_spec (length (buffer_ m)) (capacity_ m)); rewrite length_app; cbn [length]; [|lia].
    destruct (buffer_ m); cbn [tl length] in *; lia.
  - rewrite map_app. apply NoDup_app. destruct (Nat.eqb (length (buffer_ m)) (capacity_ m)).
    + destruct (buffer_ m) as [|y l]; cbn [tl map] in *; [split_and!; [constructor|by intros ? ?%not_elem_of_nil|apply NoDup_singleton]|].
      apply NoDup_cons in Hn as [_ Hn]. split_and!; [done| |apply NoDup_singleton].
      intros z Hz ->%list_elem_of_singleton. apply Hx. by right.
    + split_and!; [done| |apply NoDup_singleton]. intros z Hz ->%list_elem_of_singleton. done.
Qed.

Lemma map_fst_write round f l : map fst (write_first round f l) = map fst l.
Proof. induction l as [|[r t] l IH]; [done|]. cbn. destruct (r =? round); cbn; [done|]. by rewrite IH. Qed.

Lemma wf_write round f m : wf m -> wf (write round f m).
Proof.
  intros [Hs Hn]. split; cbn [capacity_ buffer_ write]; [|by rewrite map_fst_write].
  pose proof (f_equal length (map_fst_write round f (buffer_ m))) as E. rewrite !length_map in E. lia.
Qed.

Lemma value_write round f m round' :
  value round' (write round f m) = if round' =? round then f <$> value round' m else value round' m.
Proof.
  unfold value, write. cbn [buffer_]. induction (buffer_ m) as [|[r t] l IH]; cbn; [by destruct (round' =? round)|].
  destruct (Z.eqb_spec r round) as [->|Hr]; cbn.
  - destruct (Z.eqb_spec round round') as [->|]; [by rewrite Z.eqb_refl|]. by rewrite (proj2 (Z.eqb_neq round' round)) by congruence.
  - destruct (Z.eqb_spec r round') as [->|]; [|exact IH]. by rewrite (proj2 (Z.eqb_neq round' round)) by done.
Qed.

Lemma erase_sub round l : sublist (map fst (erase_first round l)) (map fst l).
Proof. induction l as [|[r t] l IH]; [done|]. cbn. destruct (r =? round); cbn; by constructor. Qed.

Lemma wf_extract round m : wf m -> wf (extract round m).2.
Proof.
  intros [Hs Hn]. pose proof (erase_sub round (buffer_ m)) as Hsub. split; cbn [extract snd capacity_ buffer_].
  - apply sublist_length in Hsub. rewrite !length_map in Hsub. lia.
  - by eapply sublist_NoDup.
Qed.

(** A round that is stored is found until so many others have been appended. *)
Lemma value_append x m : capacity_ m <> 0%nat -> contains x.1 m = false -> value x.1 (append x m).2 = Some x.2.
Proof.
  intros Hc Hn. unfold append. unfold contains in Hn. rewrite Hn. cbn [snd]. unfold push_back.
  rewrite (proj2 (Nat.eqb_neq _ _)) by done. unfold value. cbn [buffer_].
  assert (forall l, existsb (fun y => y.1 =? x.1) l = false -> List.find (fun y => y.1 =? x.1) (l ++ [x]) = Some x) as Hf.
  { intros l. induction l as [|y l IH]; cbn; [by rewrite Z.eqb_refl|]. intros [-> H]%orb_false_iff. by apply IH. }
  rewrite Hf; [done|]. destruct (Nat.eqb _ _); [|done]. destruct (buffer_ m); [done|]. cbn in *. by apply orb_false_iff in Hn as [_ ?].
Qed.
End meta.
End MetaStorage.

(** ** [PacketQueue] *)

Record Queue := mkQueue {
  queue_ : list TransactionsPacket;
  maxQueueSize_ : nat;
  maxTransactionsSize_ : nat;
  maxPacketsPerRound_ : nat;
  cachedRound_ : Z;
  cachedPackets_ : nat
}.
#[global] Instance eta_queue : Eta Queue := fun q =>
  mkQueue (queue_ q) (maxQueueSize_ q) (maxTransactionsSize_ q) (maxPacketsPerRound_ q) (cachedRound_ q) (cachedPackets_ q).

Module PacketQueue.

Definition new (queueSize transactionsSize packetsPerRound : nat) : Queue :=
  mkQueue [] queueSize transactionsSize packetsPerRound 0 0.

(** [push(transaction)] *)
Definition push (transaction : Transaction) (q : Queue) : bool * Queue :=
  if (maxQueueSize_ q <=? length (queue_ q))%nat then (false, q)
  else
    let queue :=
      match last (queue_ q) with
      | Some p => if (maxTransactionsSize_ q <=? length (transactions_ p))%nat then queue_ q ++ [Packet.empty] else queue_ q
      | None => queue_ q ++ [Packet.empty]
      end in
    match last queue with
    | Some p =>
        let '(added, p) := Packet.addTransaction transaction p in
        (added, q <| queue_ := removelast queue ++ [p] |>)
    | None => (false, q <| queue_ := queue |>)
    end.

(** [push(packet)] *)
Definition push_packet (packet : TransactionsPacket) (q : Queue) : Queue := q <| queue_ := queue_ q ++ [packet; Packet.empty] |>.

(** [pop()] in the round *)
Definition pop (round : Z) (q : Queue) : list TransactionsPacket * Queue :=
  if (round =? cachedRound_ q) && (maxPacketsPerRound_ q <=? cachedPackets_ q)%nat then ([], q)
  else
    let cachedPackets := if negb (round =? cachedRound_ q) then O else cachedPackets_ q in
    let block := take (maxPacketsPerRound_ q - cachedPackets) (queue_ q) in
    (block, q <| queue_ := drop (maxPacketsPerRound_ q - cachedPackets) (queue_ q) |>
              <| cachedPackets_ := (cachedPackets + length block)%nat |> <| cachedRound_ := round |>).

Definition size (q : Queue) : nat := length (queue_ q).
Definition isEmpty (q : Queue) : bool := match queue_ q with [] => true | _ => false end.

(** *** Nothing is lost, and the order is kept *)

Inductive action : Set :=
  | Push (t : Transaction)
  | PushPacket (p : TransactionsPacket)
  | Pop (round : Z).

(** The transactions given out and the queue after the actions; what [push] accepted goes in. *)
Fixpoint run (l : list action) (q : Queue) : list Transaction * list Transaction * Queue :=
  match l with
  | [] => ([], [], q)
  | Push t :: l =>
      let '(added, q) := push t q in
      let '(pushed, popped, q) := run l q in
      (if added then t :: pushed else pushed, popped, q)
  | PushPacket p :: l =>
      let '(pushed, popped, q) := run l (push_packet p q) in
      (transactions_ p ++ pushed, popped, q)
  | Pop round :: l =>
      let '(block, q) := pop round q in
      let '(pushed, popped, q) := run l q in
      (pushed, concat (map transactions_ block) ++ popped, q)
  end.

Definition content (q : Queue) : list Transaction := concat (map transactions_ (queue_ q)).

Lemma content_snoc q p : concat (map transactions_ (q ++ [p])) = concat (map transactions_ q) ++ transactions_ p.
Proof. by rewrite map_app, concat_app, <- (app_nil_r (transactions_ p)). Qed.

Lemma push_content t q : content (push t q).2 = content q ++ if (push t q).1 then [t] else [].
Proof.
  unfold push. destruct (_ <=? _)%nat; [by rewrite app_nil_r|].
  set (queue := match last (queue_ q) with Some _ => _ | None => _ end).
  assert (concat (map transactions_ queue) = content q) as Ec.
  { unfold content. subst queue. destruct (last (queue_ q)) as [p|]; [destruct (_ <=? _)%nat|]; try done; by rewrite content_snoc, app_nil_r. }
  destruct (last queue) as [p|] eqn:El.
  - apply last_Some in El as [l' El]. rewrite El in Ec. rewrite El, removelast_last. unfold Packet.addTransaction.
    destruct (_ || _); cbn [fst snd upd queue_]; unfold content at 1; cbn [upd queue_]; rewrite content_snoc; cbn [upd transactions_];
      rewrite content_snoc in Ec; [by rewrite app_nil_r|]. by rewrite app_assoc, Ec.
  - cbn [fst snd upd queue_]. unfold content at 1. cbn [upd queue_]. by rewrite app_nil_r.
Qed.

Lemma push_packet_content p q : content (push_packet p q) = content q ++ transactions_ p.
Proof. unfold content, push_packet. cbn [upd queue_]. rewrite map_app, concat_app. cbn. by rewrite !app_nil_r. Qed.

Lemma pop_content round q : concat (map transactions_ (pop round q).1) ++ content (pop round q).2 = content q.
Proof.
  unfold pop. destruct (_ && _); [done|]. cbn [fst snd upd queue_]. unfold content. cbn [upd queue_].
  by rewrite <- concat_app, <- map_app, take_drop.
Qed.

(** Whatever is pushed to and popped from the queue of packets, in any order and with any limits
    on its packets: the transactions that come out, with the ones that are left, are the ones that
    went in and were not refused, in their order. *)
Theorem queue_fifo l q :
  let '(pushed, popped, q') := run l q in content q ++ pushed = popped ++ content q'.
Proof.
  revert q. induction l as [|[t|p|round] l IH]; intros q; cbn [run].
  - by rewrite app_nil_r.
  - pose proof (push_content t q) as E. destruct (push t q) as [added q1]. specialize (IH q1). destruct (run l q1) as [[pushed popped] q'].
    cbn [fst snd] in *. rewrite <- IH, E. destruct added; [by rewrite <- app_assoc|by rewrite app_nil_r].
  - specialize (IH (push_packet p q)). destruct (run l _) as [[pushed popped] q']. rewrite <- IH, push_packet_content. by rewrite app_assoc.
  - pose proof (pop_content round q) as E. destruct (pop round q) as [block q1]. specialize (IH q1). destruct (run l q1) as [[pushed popped] q'].
    cbn [fst snd] in *. rewrite <- E, <- !app_assoc, IH. done.
Qed.

(** Not more than [maxPacketsPerRound_] packets leave the queue in a round. *)
Lemma pop_limit round q :
  (length (pop round q).1 + (if (round =? cachedRound_ q)%Z then cachedPackets_ q else 0) <= Nat.max (maxPacketsPerRound_ q) (cachedPackets_ q))%nat.
Proof.
  unfold pop. destruct (Z.eqb_spec round (cachedRound_ q)), (Nat.leb_spec (maxPacketsPerRound_ q) (cachedPackets_ q)); cbn [andb negb fst length];
    rewrite ?length_take; lia.
Qed.
End PacketQueue.
