(* ===== verification/Double.v ===== *)
(** * Doubles: amounts and commissions ([csdb/src/amount.cpp],
      [csdb/include/csdb/amount_commission.hpp])

    [double] is IEEE 754 binary64 rounded to nearest, ties to even, as the
    Standard Library specifies it ([SpecFloat] with 53 bits and the exponent
    limit 1024).  The constructor [AmountCommission(double)] goes through
    [log10] and [pow] of the C library, which no standard fixes to the last
    bit: they are the operations of a class. *)

From Stdlib Require Import ZArith Lia SpecFloat.
From stdpp Require Import base tactics numbers option list.
From S2P Require Import Prelude Effect BinStream Math128 Amount Transaction.

Local Open Scope Z_scope.
Local Open Scope cs_scope.

Definition double : Type := spec_float.

(** ** The operations of the language *)

Definition dmul : double -> double -> double := SFmul 53 1024.
Definition dadd : double -> double -> double := SFadd 53 1024.
Definition dsub : double -> double -> double := SFsub 53 1024.
Definition ddiv : double -> double -> double := SFdiv 53 1024.
Definition dlt (x y : double) : bool := SFltb x y.
Definition dopp : double -> double := SFopp.

(** [static_cast<double>] of an integer; a floating literal [n / d]. *)
Definition of_Z (n : Z) : double := binary_normalize 53 1024 n 0 false.
Definition literal (n d : Z) : double := ddiv (of_Z n) (of_Z d).

(** [m * 2 ^ e] without its fraction *)
Definition trunc_pos (m : positive) (e : Z) : Z := if 0 <=? e then Zpos m * 2 ^ e else Zpos m / 2 ^ (- e).

(** The integer part, towards zero; [None] for an infinity or a NaN. *)
Definition trunc (x : double) : option Z :=
  match x with
  | S754_zero _ => Some 0
  | S754_finite s m e => Some (if s then - trunc_pos m e else trunc_pos m e)
  | _ => None
  end.

(** [static_cast<int32_t>], [static_cast<uint64_t>]: undefined when the value does not fit. *)
Definition to_int32 (x : double) : option Z :=
  let? z := trunc x in if (- 2 ^ 31 <=? z) && (z <? 2 ^ 31) then Some z else None.
Definition to_uint64 (x : double) : option Z :=
  let? z := trunc x in if (0 <=? z) && (z <? 2 ^ 64) then Some z else None.

(** ** [Amount] *)

(** [std::numeric_limits<double>::digits10], and [gen_pow(10, digits)] *)
Definition factor : Z := 10 ^ 15.

(** [Amount::Amount(double)] *)
Definition of_double (value : double) : M Amount :=
  if dlt value (of_Z (- 2 ^ 31)) || dlt (of_Z (2 ^ 31 - 1)) value then lift (Throw overflow_error)
  else
    match to_int32 value with
    | None => None
    | Some integral =>
        let integral := if dlt value (of_Z 0) then s32 (integral - 1) else integral in
        let frac := dmul (dsub value (of_Z integral)) (of_Z factor) in
        match to_uint64 (dadd frac (literal 1 2)) with
        | None => None
        | Some digits =>
            let fraction := u64 (digits * (AMOUNT_MAX_FRACTION / factor)) in
            ret (if AMOUNT_MAX_FRACTION <=? fraction
                 then mkAmount (s32 (integral + 1)) (fraction - AMOUNT_MAX_FRACTION)
                 else mkAmount integral fraction)
        end
    end.

(** [Amount::to_double] *)
Definition to_double (a : Amount) : double :=
  dadd (of_Z (integral_ a)) (ddiv (of_Z (fraction_ a)) (of_Z AMOUNT_MAX_FRACTION)).

(** ** [AmountCommission] *)

(** The bit fields of [u_]. *)
Definition commission_frac (bits : AmountCommission) : Z := Z.land bits 1023.
Definition commission_exp (bits : AmountCommission) : Z := Z.land (Z.shiftr bits 10) 31.
Definition commission_sign (bits : AmountCommission) : Z := Z.shiftr bits 15.

(** [pows::kTensPows] *)
Definition kTensPows (i : Z) : double := if i <? 18 then literal 1 (10 ^ (18 - i)) else of_Z (10 ^ (i - 18)).

(** [AmountCommission::to_double] *)
Definition commission_to_double (bits : AmountCommission) : double :=
  dmul (dmul (dmul (if negb (commission_sign bits =? 0) then of_Z (- 1) else of_Z 1) (of_Z (commission_frac bits)))
             (literal 1 1024))
       (kTensPows (commission_exp bits)).

(** [csdb::Amount(fee.to_double())] *)
Definition fee_amount (bits : AmountCommission) : M Amount := of_double (commission_to_double bits).

(** The functions of the C library that [AmountCommission(double)] calls. *)
Class Libm := { log10 : double -> double; pow10 : Z -> double }.

(** [lround]: to the nearest integer, halves away from zero. *)
Definition lround (x : double) : option Z :=
  match x with
  | S754_zero _ => Some 0
  | S754_finite s m e =>
      let n := if 0 <=? e then Zpos m * 2 ^ e else (Zpos m * 2 + 2 ^ (- e)) / (2 * 2 ^ (- e)) in
      Some (if s then - n else n)
  | _ => None
  end.

(** [AmountCommission::AmountCommission(double)] *)
Definition commission_of_double `{!Libm} (value : double) : M AmountCommission :=
  let sign := if dlt value (of_Z 0) then 1 else 0 in
  let value := SFabs value in
  let expf := if SFeqb value (of_Z 0) then of_Z 0 else log10 value in
  match to_int32 (if negb (dlt expf (of_Z 0)) then dadd expf (literal 1 2) else dsub expf (literal 1 2)) with
  | None => None
  | Some expi =>
      let value := ddiv value (pow10 expi) in
      let '(value, expi) := if negb (dlt value (of_Z 1)) then (dmul value (literal 1 10), s32 (expi + 1)) else (value, expi) in
      match lround (dmul value (of_Z 1024)) with
      | None => None
      | Some frac =>
          ret (Z.lor (Z.land (u16 frac) 1023)
                 (Z.lor (Z.shiftl (Z.land (u16 (expi + 18)) 31) 10) (Z.shiftl sign 15)))
      end
  end.

(** ** Rounding

    A finite double as an integer: its value times [2 ^ 1074].  A rounded
    operation differs from the exact result by at most one part in [2 ^ 52]. *)

Definition scale : Z := 2 ^ 1074.

Definition scaled (x : double) : Z :=
  match x with
  | S754_finite s m e => (if s then -1 else 1) * (Zpos m * 2 ^ (e + 1074))
  | _ => 0
  end.

(** Finite, with an exponent between the bounds. *)
Definition fin (lo hi : Z) (x : double) : Prop :=
  match x with
  | S754_zero _ => True
  | S754_finite _ m e => lo <= e <= hi /\ Zpos m < 2 ^ 54
  | _ => False
  end.

Definition rounds (exact r : Z) : Prop := 2 ^ 52 * Z.abs (r - exact) <= Z.abs exact.

Lemma digits_bound p : 2 ^ (Zpos (digits2_pos p) - 1) <= Zpos p < 2 ^ Zpos (digits2_pos p).
Proof.
  induction p as [p IH|p IH|]; cbn [digits2_pos]; [..|done]; rewrite Pos2Z.inj_succ;
    replace (Z.succ (Zpos (digits2_pos p)) - 1) with (Z.succ (Zpos (digits2_pos p) - 1)) by lia;
    rewrite !Z.pow_succ_r by lia; lia.
Qed.

Lemma digits_le p n : 0 <= n -> Zpos p < 2 ^ n -> Zpos (digits2_pos p) <= n.
Proof.
  intros Hn Hp. pose proof (digits_bound p) as [Hb _]. apply Z.nlt_ge. intros Hlt.
  assert (2 ^ n <= 2 ^ (Zpos (digits2_pos p) - 1)) by (apply Z.pow_le_mono_r; lia). lia.
Qed.

Lemma digits_ge p n : 0 <= n -> 2 ^ n <= Zpos p -> n < Zpos (digits2_pos p).
Proof.
  intros Hn Hp. pose proof (digits_bound p) as [_ Hb]. apply Z.nle_gt. intros Hle.
  assert (2 ^ Zpos (digits2_pos p) <= 2 ^ n) by (apply Z.pow_le_mono_r; lia). lia.
Qed.

Lemma shr_1_m r : 0 <= shr_m r -> shr_m (shr_1 r) = shr_m r / 2.
Proof.
  destruct r as [m r s]; cbn. destruct m as [|p|p]; [done| |lia]. intros _.
  destruct p as [p|p|]; [| |done]; cbn [shr_m].
  - rewrite (Pos2Z.inj_xI p). apply Z.div_unique with 1; lia.
  - rewrite (Pos2Z.inj_xO p). apply Z.div_unique with 0; lia.
Qed.

Lemma iter_shr p r : 0 <= shr_m r -> shr_m (SpecFloat.iter_pos shr_1 p r) = shr_m r / 2 ^ Zpos p.
Proof.
  revert r. induction p as [p IH|p IH|]; intros r Hr; cbn [SpecFloat.iter_pos].
  - assert (0 <= shr_m r / 2) by (apply Z.div_pos; lia).
    assert (0 <= shr_m (shr_1 r)) by (rewrite shr_1_m; done).
    assert (0 < 2 ^ Zpos p) by (apply Z.pow_pos_nonneg; lia).
    rewrite IH, IH, shr_1_m; [|done|done|rewrite IH by done; apply Z.div_pos; lia].
    rewrite !Z.div_div by lia. f_equal. rewrite (Pos2Z.inj_xI p).
    replace (2 * Zpos p + 1) with (Zpos p + Zpos p + 1) by lia. rewrite !Z.pow_add_r by lia. lia.
  - assert (0 < 2 ^ Zpos p) by (apply Z.pow_pos_nonneg; lia).
    rewrite IH, IH; [|done|rewrite IH by done; apply Z.div_pos; lia].
    rewrite Z.div_div by lia. f_equal. rewrite (Pos2Z.inj_xO p).
    replace (2 * Zpos p) with (Zpos p + Zpos p) by lia. by rewrite Z.pow_add_r by lia.
  - by apply shr_1_m.
Qed.

(** Shifting an exact positive mantissa to 53 digits. *)
Lemma shr_fexp_small m e : -1074 <= e -> Zpos m < 2 ^ 53 ->
  shr_fexp 53 1024 (Zpos m) e loc_Exact = ({| shr_m := Zpos m; shr_r := false; shr_s := false |}, e).
Proof.
  intros He Hm. apply digits_le in Hm; [|lia]. unfold shr_fexp, fexp, emin. cbn [shr_record_of_loc Zdigits2].
  destruct (_ - e) as [|p|p] eqn:E; [done| |done]. lia.
Qed.

Lemma shr_fexp_big m e : -1074 <= e -> 2 ^ 53 <= Zpos m ->
  let n := Zpos (digits2_pos m) - 53 in
  0 < n /\ exists r, shr_fexp 53 1024 (Zpos m) e loc_Exact = (r, e + n) /\ shr_m r = Zpos m / 2 ^ n.
Proof.
  intros He Hm n. apply digits_ge in Hm; [|lia]. split; [lia|]. unfold shr_fexp, fexp, emin. cbn [shr_record_of_loc Zdigits2].
  destruct (Z.max _ _ - e) as [|p|p] eqn:E; [lia| |lia]. cbn [shr].
  eexists. split; [f_equal; lia|]. rewrite iter_shr by (cbn; lia). cbn [shr_m]. do 2 f_equal. lia.
Qed.

Lemma round_even_cases m l : round_nearest_even m l = m \/ round_nearest_even m l = m + 1.
Proof. destruct l as [|[]]; cbn; auto. destruct (Z.even m); auto. Qed.

Lemma round_spec k s mx ex : -1074 <= ex -> 0 <= k -> ex + k <= 970 -> Zpos mx < 2 ^ (53 + k) ->
  exists m e, binary_round_aux 53 1024 s (Zpos mx) ex loc_Exact = S754_finite s m e /\
    ex <= e <= ex + k + 1 /\ Zpos m < 2 ^ 54 /\ rounds (Zpos mx) (Zpos m * 2 ^ (e - ex)) /\
    (Zpos mx < 2 ^ 53 -> m = mx /\ e = ex) /\ (2 ^ 52 <= Zpos mx -> 2 ^ 52 <= Zpos m < 2 ^ 53).
Proof.
  intros Hx Hk Hxk Hm. unfold binary_round_aux. destruct (Z.lt_ge_cases (Zpos mx) (2 ^ 53)) as [Hs|Hb].
  - rewrite shr_fexp_small by lia. cbn [shr_m loc_of_shr_record round_nearest_even].
    rewrite shr_fexp_small by lia. cbn [shr_m]. rewrite (proj2 (Z.leb_le _ _)) by lia.
    exists mx, ex. split; [done|]. split; [lia|]. split; [lia|]. split; [|by split]. unfold rounds. rewrite Z.sub_diag, Z.mul_1_r, Z.sub_diag. cbn. lia.
  - destruct (shr_fexp_big mx ex) as (Hn & r & -> & Hr); [lia|done|].
    set (n := Zpos (digits2_pos mx) - 53) in *. pose proof (digits_bound mx) as [D1 D2].
    assert (n <= k) by (apply digits_le in Hm; lia).
    assert (2 ^ (Zpos (digits2_pos mx) - 1) = 2 ^ 52 * 2 ^ n) as E1 by (rewrite <- Z.pow_add_r by lia; f_equal; lia).
    assert (2 ^ Zpos (digits2_pos mx) = 2 ^ 53 * 2 ^ n) as E2 by (rewrite <- Z.pow_add_r by lia; f_equal; lia).
    rewrite E1 in D1. rewrite E2 in D2. assert (0 < 2 ^ n) as Hp by (apply Z.pow_pos_nonneg; lia).
    pose proof (Z.div_mod (Zpos mx) (2 ^ n) ltac:(lia)) as Hdm. pose proof (Z.mod_pos_bound (Zpos mx) (2 ^ n) Hp) as Hmod.
    set (m1 := Zpos mx / 2 ^ n) in *. set (q := 2 ^ n) in *.
    assert (2 ^ 52 <= m1 < 2 ^ 53) as H1 by nia.
    assert (exists m2, round_nearest_even (shr_m r) (loc_of_shr_record r) = Zpos m2 /\ m1 <= Zpos m2 <= m1 + 1) as (m2 & -> & H2).
    { rewrite Hr. exists (Z.to_pos (round_nearest_even m1 (loc_of_shr_record r))).
      destruct (round_even_cases m1 (loc_of_shr_record r)) as [->| ->]; rewrite Z2Pos.id; lia. }
    assert (rounds (Zpos mx) (Zpos m2 * q)) as Hround by (unfold rounds; nia).
    destruct (Z.lt_ge_cases (Zpos m2) (2 ^ 53)) as [Hs2|Hb2].
    + rewrite shr_fexp_small by lia. cbn [shr_m]. rewrite (proj2 (Z.leb_le _ _)) by lia.
      exists m2, (ex + n). replace (ex + n - ex) with n by lia. split; [done|]. split; [lia|]. split; [lia|]. split; [done|]. split; lia.
    + assert (m2 = 9007199254740992%positive) as -> by lia.
      destruct (shr_fexp_big 9007199254740992 (ex + n)) as (_ & r2 & -> & ->); [lia|lia|].
      change (Zpos (digits2_pos 9007199254740992) - 53) with 1. change (9007199254740992 / 2 ^ 1) with (Zpos 4503599627370496).
      cbv beta iota. rewrite (proj2 (Z.leb_le _ _)) by lia.
      exists 4503599627370496%positive, (ex + n + 1). split; [done|]. split; [lia|]. split; [lia|]. split; [|split; lia].
      replace (ex + n + 1 - ex) with (n + 1) by lia. rewrite Z.pow_add_r by lia. fold q. unfold rounds in *. lia.
Qed.

Lemma rounds_scale c exact r : 0 < c -> rounds exact r -> rounds (exact * c) (r * c).
Proof. unfold rounds. intros Hc H. rewrite <- Z.mul_sub_distr_r, !Z.abs_mul, (Z.abs_eq c) by lia. nia. Qed.

Lemma pow_scale e e' : -1074 <= e <= e' -> 2 ^ (e' + 1074) = 2 ^ (e' - e) * 2 ^ (e + 1074).
Proof. intros H. rewrite <- Z.pow_add_r by lia. f_equal. lia. Qed.

Lemma iter_xO mx d : Zpos (Pos.iter xO mx d) = Zpos mx * 2 ^ Zpos d.
Proof.
  induction d as [|d IH] using Pos.peano_ind; [cbn; lia|].
  rewrite Pos.iter_succ, (Pos2Z.inj_xO (Pos.iter _ _ _)), IH, Pos2Z.inj_succ, Z.pow_succ_r by lia. lia.
Qed.

Lemma shl_align_spec mx ex ex' :
  ex' <= ex -> exists mz, shl_align mx ex ex' = (mz, ex') /\ Zpos mz = Zpos mx * 2 ^ (ex - ex').
Proof.
  intros He. unfold shl_align. destruct (ex' - ex) as [|d|d] eqn:E; [|lia|].
  - exists mx. replace ex' with ex by lia. rewrite Z.sub_diag. split; [done|]. cbn. lia.
  - exists (Pos.iter xO mx d). split; [done|]. rewrite iter_xO. do 2 f_equal. lia.
Qed.

Lemma binary_round_spec k s mx ex : -1074 <= ex -> 0 <= k -> ex + k <= 970 -> Zpos mx < 2 ^ (53 + k) ->
  exists m e, binary_round 53 1024 s mx ex = S754_finite s m e /\
    Z.max (ex - 53) (-1074) <= e <= ex + k + 1 /\ Zpos m < 2 ^ 54 /\
    rounds (Zpos mx * 2 ^ (ex + 1074)) (Zpos m * 2 ^ (e + 1074)) /\
    (Zpos mx < 2 ^ 53 -> Zpos m * 2 ^ (e + 1074) = Zpos mx * 2 ^ (ex + 1074)).
Proof.
  intros Hx Hk Hxk Hm. unfold binary_round. pose proof (digits_bound mx) as [D1 D2].
  set (ez := fexp 53 1024 (Zpos (digits2_pos mx) + ex)).
  assert (ez = Z.max (Zpos (digits2_pos mx) + ex - 53) (-1074)) as Ez by done.
  assert (0 < 2 ^ (ex + 1074)) as Hp by (apply Z.pow_pos_nonneg; lia).
  destruct (Z.le_gt_cases ez ex) as [Hle|Hgt].
  - destruct (shl_align_spec mx ex ez Hle) as (mz & -> & Emz). cbv beta iota.
    assert (Zpos mz < 2 ^ 53) as Hmz.
    { rewrite Emz. apply Z.lt_le_trans with (2 ^ Zpos (digits2_pos mx) * 2 ^ (ex - ez)); [|rewrite <- Z.pow_add_r by lia; apply Z.pow_le_mono_r; lia].
      apply Z.mul_lt_mono_pos_r; [apply Z.pow_pos_nonneg; lia|lia]. }
    destruct (round_spec 0 s mz ez) as (m & e & -> & He & Hme & _ & Hex & _); [lia..|].
    destruct (Hex Hmz) as [-> ->]. exists mz, ez. split; [done|]. split; [lia|]. split; [lia|].
    assert (Zpos mz * 2 ^ (ez + 1074) = Zpos mx * 2 ^ (ex + 1074)) as E
      by (rewrite Emz, (pow_scale ez ex) by lia; lia).
    split; [|done]. rewrite E. unfold rounds. rewrite Z.sub_diag. lia.
  - assert (shl_align mx ex ez = (mx, ex)) as ->.
    { unfold shl_align. destruct (ez - ex) eqn:E; [done|done|lia]. }
    destruct (round_spec k s mx ex) as (m & e & -> & He & Hme & Hr & Hex & _); [lia..|].
    exists m, e. split; [done|]. split; [lia|]. split; [lia|]. rewrite (pow_scale ex e) by lia. rewrite Z.mul_assoc.
    split; [by apply rounds_scale|]. intros Hs. destruct (Hex Hs) as [-> ->]. rewrite Z.sub_diag. lia.
Qed.

Lemma normalize_spec k m ex : -1074 <= ex -> 0 <= k -> ex + k <= 970 -> Z.abs m < 2 ^ (53 + k) ->
  let x := binary_normalize 53 1024 m ex false in
  fin (Z.max (ex - 53) (-1074)) (ex + k + 1) x /\ rounds (m * 2 ^ (ex + 1074)) (scaled x) /\
  (Z.abs m < 2 ^ 53 -> scaled x = m * 2 ^ (ex + 1074)).
Proof.
  intros Hx Hk Hxk Hm x. unfold x, binary_normalize. destruct m as [|p|p].
  - split; [done|]. split; [unfold rounds; cbn; lia|done].
  - destruct (binary_round_spec k false p ex) as (m & e & -> & He & Hme & Hr & Hex); [lia..|]. unfold fin, scaled.
    rewrite Z.mul_1_l. split; [lia|]. by split.
  - destruct (binary_round_spec k true p ex) as (m & e & -> & He & Hme & Hr & Hex); [lia..|]. unfold fin, scaled.
    split; [lia|]. change (Zneg p) with (- Zpos p). split; [|intros Hp; rewrite Hex by lia; lia].
    unfold rounds in *. rewrite Z.mul_opp_l. set (M := Zpos m * 2 ^ (e + 1074)) in *. set (X := Zpos p * 2 ^ (ex + 1074)) in *. lia.
Qed.

Lemma scaled_align (s : bool) m e ez : -1074 <= ez <= e ->
  (if s then -1 else 1) * (Zpos m * 2 ^ (e + 1074))
  = cond_Zopp s (Zpos (fst (shl_align m e ez))) * 2 ^ (ez + 1074).
Proof.
  intros H. destruct (shl_align_spec m e ez) as (mz & -> & E); [lia|]. cbn [fst]. rewrite E, (pow_scale ez e) by lia.
  destruct s; cbn [cond_Zopp]; lia.
Qed.

(** ** The operations on finite doubles *)

Lemma fin_le lo lo' hi hi' x : lo' <= lo -> hi <= hi' -> fin lo hi x -> fin lo' hi' x.
Proof. destruct x; cbn; [done|done|done|]. lia. Qed.

Lemma of_Z_spec n : Z.abs n < 2 ^ 53 -> fin (-53) 1 (of_Z n) /\ scaled (of_Z n) = n * scale.
Proof.
  intros Hn. destruct (normalize_spec 0 n 0) as (F & _ & E); [lia..|]. split; [done|]. by apply E.
Qed.

Lemma aligned_bound s m e ez d : ez <= e <= ez + d -> 0 <= d -> Zpos m < 2 ^ 54 ->
  Z.abs (cond_Zopp s (Zpos (fst (shl_align m e ez)))) < 2 ^ (54 + d).
Proof.
  intros He Hd Hm. destruct (shl_align_spec m e ez) as (mz & -> & E); [lia|]. cbn [fst].
  assert (Z.abs (cond_Zopp s (Zpos mz)) = Zpos mz) as -> by (destruct s; cbn; lia). rewrite E.
  apply Z.lt_le_trans with (2 ^ 54 * 2 ^ (e - ez)); [apply Z.mul_lt_mono_pos_r; [apply Z.pow_pos_nonneg; lia|lia]|].
  rewrite <- Z.pow_add_r by lia. apply Z.pow_le_mono_r; lia.
Qed.

Definition add_bounds (lo hi hz : Z) (x : double) : Prop :=
  fin (Z.max (lo - 53) (-1074)) (Z.max hi (hz + (hi - lo) + 4)) x.

Lemma dadd_spec lo hi hz x y : -1074 <= lo <= hz -> hz <= hi -> hz + (hi - lo) <= 960 -> fin lo hi x -> fin lo hz y ->
  add_bounds lo hi hz (dadd x y) /\ rounds (scaled x + scaled y) (scaled (dadd x y)).
Proof.
  intros Hlo Hhz Hhi Hx Hy. unfold add_bounds. assert (forall z, rounds z z) as Rr by (intros z; unfold rounds; rewrite Z.sub_diag; lia).
  destruct x as [s| | |s m e], y as [s'| | |s' m' e']; try done; cbn [dadd SFadd].
  - split; [by destruct s, s'|]. destruct s, s'; apply Rr.
  - split; [eapply fin_le; [..|exact Hy]; lia|]. rewrite Z.add_0_l. apply Rr.
  - split; [eapply fin_le; [..|exact Hx]; lia|]. rewrite Z.add_0_r. apply Rr.
  - cbn in Hx, Hy. set (ez := Z.min e e').
    pose proof (aligned_bound s m e ez (hi - lo)) as B1. pose proof (aligned_bound s' m' e' ez (hi - lo)) as B2.
    specialize (B1 ltac:(lia) ltac:(lia) ltac:(lia)). specialize (B2 ltac:(lia) ltac:(lia) ltac:(lia)).
    set (X := cond_Zopp s _) in *. set (Y := cond_Zopp s' _) in *.
    destruct (normalize_spec (hi - lo + 2) (X + Y) ez) as (F & R & _); [lia..| |].
    { replace (53 + (hi - lo + 2)) with (54 + (hi - lo) + 1) by lia. rewrite Z.pow_add_r by lia. lia. }
    unfold dadd, SFadd. fold ez X Y. split; [eapply fin_le; [..|exact F]; lia|].
    cbn [scaled]. rewrite (scaled_align s m e ez), (scaled_align s' m' e' ez) by lia. fold X Y.
    rewrite <- Z.mul_add_distr_r. exact R.
Qed.

Lemma dsub_dadd x y : fin (-1074) 960 y -> dsub x y = dadd x (dopp y) \/ (scaled x = 0 /\ scaled y = 0 /\ dsub x y = S754_zero false).
Proof.
  intros Hy. destruct x as [s| | |s m e], y as [s'| | |s' m' e']; try done; cbn; auto.
  - destruct s, s'; cbn; auto.
  - left. f_equal. destruct s'; cbn; lia.
Qed.

Lemma dopp_spec lo hi y : fin lo hi y -> fin lo hi (dopp y) /\ scaled (dopp y) = - scaled y.
Proof. destruct y as [s| | |s m e]; cbn; try done. intros H. split; [done|]. destruct s; cbn [negb]; lia. Qed.

Lemma dsub_spec lo hi hz x y : -1074 <= lo <= hz -> hz <= hi -> hz + (hi - lo) <= 960 -> fin lo hi x -> fin lo hz y ->
  add_bounds lo hi hz (dsub x y) /\ rounds (scaled x - scaled y) (scaled (dsub x y)).
Proof.
  intros Hlo Hhz Hhi Hx Hy. destruct (dopp_spec lo hz y Hy) as [Fy Ey].
  destruct (dsub_dadd x y) as [->|(Ex & Ey' & ->)].
  - eapply fin_le; [..|exact Hy]; lia.
  - rewrite <- Z.add_opp_r, <- Ey. by apply dadd_spec.
  - split; [done|]. rewrite Ex, Ey'. done.
Qed.

Lemma mul_scales m m' e e' : -1074 <= e -> -1074 <= e' -> -1074 <= e + e' ->
  Zpos m * 2 ^ (e + 1074) * (Zpos m' * 2 ^ (e' + 1074)) = Zpos (m * m') * (2 ^ (e + e' + 1074) * scale).
Proof.
  intros H1 H2 H3. assert (2 ^ (e + 1074) * 2 ^ (e' + 1074) = 2 ^ (e + e' + 1074) * scale) as E
    by (unfold scale; rewrite <- !Z.pow_add_r by lia; f_equal; lia).
  rewrite <- E, Pos2Z.inj_mul. lia.
Qed.

Lemma scale_pos : 0 < scale.
Proof. by apply Z.pow_pos_nonneg. Qed.

Lemma rounds_sign (s : bool) exact r :
  rounds exact r -> rounds ((if s then -1 else 1) * exact) ((if s then -1 else 1) * r).
Proof. unfold rounds. destruct s; lia. Qed.

Lemma dmul_spec lx hx ly hy x y : -1074 <= lx -> -1074 <= ly -> -1074 <= lx + ly -> hx + hy <= 910 ->
  fin lx hx x -> fin ly hy y ->
  fin (lx + ly) (hx + hy + 56) (dmul x y) /\ rounds (scaled x * scaled y) (scaled (dmul x y) * scale).
Proof.
  intros Hlx Hly Hl Hh Hx Hy. destruct x as [s| | |s m e], y as [s'| | |s' m' e']; try done;
    try (split; [done|]; cbn [dmul SFmul scaled]; rewrite ?Z.mul_0_l, ?Z.mul_0_r; done).
  cbn in Hx, Hy. unfold dmul, SFmul.
  destruct (round_spec 55 (xorb s s') (m * m') (e + e')) as (mr & er & -> & He & Hm & R & _ & _); [lia..|nia|].
  split; [cbn; lia|]. cbn [scaled]. apply (rounds_scale (2 ^ (e + e' + 1074) * scale)) in R;
    [|pose proof scale_pos; assert (0 < 2 ^ (e + e' + 1074)) by (apply Z.pow_pos_nonneg; lia); nia].
  rewrite <- mul_scales in R by lia. apply (rounds_sign (xorb s s')) in R.
  assert (forall a b c d : Z, a = c -> b = d -> rounds a b -> rounds c d) as Rw by (by intros ? ? ? ? -> ->).
  eapply Rw; [..|exact R].
  - destruct s, s'; cbn [xorb]; ring.
  - rewrite (pow_scale (e + e') er) by lia. ring.
Qed.

Lemma trunc_spec lo hi x : -1074 <= lo -> fin lo hi x -> trunc x = Some (Z.quot (scaled x) scale).
Proof.
  intros Hlo Hx. destruct x as [s| | |s m e]; [done|done..|]. cbn in Hx. cbn [trunc scaled]. f_equal. pose proof scale_pos as Hp.
  assert (trunc_pos m e = Zpos m * 2 ^ (e + 1074) / scale) as ->.
  { unfold trunc_pos, scale. destruct (Z.leb_spec 0 e).
    - rewrite Z.pow_add_r by lia. rewrite Z.mul_assoc, Z.div_mul by (apply Z.pow_nonzero; lia). done.
    - replace 1074 with (e + 1074 + - e) at 2 by lia. rewrite (Z.pow_add_r 2 (e + 1074)) by lia.
      rewrite (Z.mul_comm (2 ^ (e + 1074))), Z.div_mul_cancel_r by (apply Z.pow_nonzero; lia). done. }
  assert (0 <= Zpos m * 2 ^ (e + 1074)) as Hn by (assert (0 <= 2 ^ (e + 1074)) by (apply Z.pow_nonneg; lia); lia).
  destruct s; rewrite ?Z.mul_1_l; [|by rewrite Z.quot_div_nonneg].
  assert (-1 * (Zpos m * 2 ^ (e + 1074)) = - (Zpos m * 2 ^ (e + 1074))) as -> by ring.
  by rewrite Z.quot_opp_l, Z.quot_div_nonneg by lia.
Qed.

(** *** Normalised doubles, on which [<] is the order of the values *)

Definition norm (x : double) : Prop :=
  match x with
  | S754_zero _ => True
  | S754_finite _ m e => -1074 <= e /\ 2 ^ 52 <= Zpos m < 2 ^ 53
  | _ => False
  end.

Lemma norm_scaled m e e' m' : -1074 <= e -> 2 ^ 52 <= Zpos m < 2 ^ 53 -> -1074 <= e' -> 2 ^ 52 <= Zpos m' < 2 ^ 53 ->
  e < e' -> Zpos m * 2 ^ (e + 1074) < Zpos m' * 2 ^ (e' + 1074).
Proof.
  intros He Hm He' Hm' Hlt. assert (0 < 2 ^ (e + 1074)) by (apply Z.pow_pos_nonneg; lia).
  assert (2 * 2 ^ (e + 1074) <= 2 ^ (e' + 1074)).
  { rewrite <- (Z.pow_succ_r 2) by lia. apply Z.pow_le_mono_r; lia. }
  nia.
Qed.

Lemma dlt_norm x y : norm x -> norm y -> dlt x y = (scaled x <? scaled y).
Proof.
  intros Hx Hy. unfold dlt, SFltb.
  assert (forall m e, -1074 <= e -> 0 < Zpos m * 2 ^ (e + 1074)) as Hpos.
  { intros m e He. assert (0 < 2 ^ (e + 1074)) by (apply Z.pow_pos_nonneg; lia). lia. }
  destruct x as [s| | |s m e], y as [s'| | |s' m' e']; try done; cbn [norm] in Hx, Hy; cbn [SFcompare scaled]; symmetry.
  - pose proof (Hpos m' e'). destruct s'; [apply Z.ltb_ge|apply Z.ltb_lt]; lia.
  - pose proof (Hpos m e). destruct s; [apply Z.ltb_lt|apply Z.ltb_ge]; lia.
  - pose proof (Hpos m e) as P1. pose proof (Hpos m' e') as P2.
    assert (e = e' -> 2 ^ (e + 1074) = 2 ^ (e' + 1074)) as He by (by intros ->).
    pose proof (norm_scaled m e e' m'). pose proof (norm_scaled m' e' e m).
    assert (0 < 2 ^ (e + 1074)) by (apply Z.pow_pos_nonneg; lia).
    change (Pos.compare_cont Eq m m') with (Pos.compare m m').
    destruct s, s'; rewrite ?Z.mul_1_l.
    + destruct (Z.compare_spec e e'); [|apply Z.ltb_ge; lia|apply Z.ltb_lt; lia].
      rewrite <- He by done. destruct (Pos.compare_spec m m'); cbn [CompOpp];
        [apply Z.ltb_ge; subst; lia|apply Z.ltb_ge; nia|apply Z.ltb_lt; nia].
    + apply Z.ltb_lt. lia.
    + apply Z.ltb_ge. lia.
    + destruct (Z.compare_spec e e'); [|apply Z.ltb_lt; lia|apply Z.ltb_ge; lia].
      rewrite <- He by done. destruct (Pos.compare_spec m m');
        [apply Z.ltb_ge; subst; lia|apply Z.ltb_lt; nia|apply Z.ltb_ge; nia].
Qed.

(** ** [Amount(double)] *)

Lemma dlt_zero lo hi x : -1074 <= lo -> fin lo hi x -> dlt x (of_Z 0) = (scaled x <? 0).
Proof.
  intros Hlo. destruct x as [s| | |s m e]; try done. intros Hx. cbn in Hx.
  assert (0 < 2 ^ (e + 1074)) as Hp by (apply Z.pow_pos_nonneg; lia). cbn [scaled].
  destruct s; cbn; symmetry; [apply Z.ltb_lt|apply Z.ltb_ge]; nia.
Qed.

(** The integer part that [Amount(double)] takes: below the double, and what is left at most one. *)
Definition floor_of (x : double) : Z := Z.quot (scaled x) scale - (if scaled x <? 0 then 1 else 0).

Lemma floor_of_rest x : 0 <= scaled x - floor_of x * scale <= scale.
Proof.
  unfold floor_of. pose proof scale_pos as Hp. pose proof (Z.quot_rem (scaled x) scale ltac:(lia)) as E.
  destruct (Z.ltb_spec (scaled x) 0).
  - pose proof (Z.rem_bound_pos_neg scale (scaled x)). pose proof (Z.rem_nonpos (scaled x) scale). 
    pose proof (Z.rem_bound_abs (scaled x) scale). nia.
  - pose proof (Z.rem_bound_pos (scaled x) scale). nia.
Qed.

Lemma literal_half : fin (-53) (-53) (literal 1 2) /\ 2 * scaled (literal 1 2) = scale.
Proof. split; [by vm_compute|]. vm_compute. reflexivity. Qed.

Lemma factor_double : fin (-3) (-3) (of_Z factor) /\ scaled (of_Z factor) = factor * scale.
Proof. split; [by vm_compute|]. vm_compute. reflexivity. Qed.

(** The digits of the fraction: the 15 decimal digits next to it, with the errors of three roundings. *)
Lemma digits_spec x i :
  fin (-300) 100 x -> Z.abs i < 2 ^ 53 -> 0 <= scaled x - i * scale <= scale ->
  exists z, to_uint64 (dadd (dmul (dsub x (of_Z i)) (of_Z factor)) (literal 1 2)) = Some z /\
  0 <= z <= factor + 1 /\ 10 * Z.abs (z * scale - (scaled x - i * scale) * factor) <= 12 * scale.
Proof.
  intros Hx Hi Hd. destruct (of_Z_spec i Hi) as [Fi Ei]. destruct literal_half as [Fh Eh]. destruct factor_double as [Ff Ef].
  generalize dependent (literal 1 2). intros half Fh Eh. generalize dependent (of_Z factor). intros fac Ff Ef.
  generalize dependent (of_Z i). intros xi Fi Ei.
  destruct (dsub_spec (-300) 100 1 x xi) as [F1 R1]; [lia..|exact Hx|apply (fin_le (-53) _ 1); [lia..|exact Fi]|].
  unfold add_bounds in F1. rewrite Ei in R1. generalize dependent (dsub x xi). intros S F1 R1. set (D := scaled x - i * scale) in *.
  destruct (dmul_spec (-353) 405 (-3) (-3) S fac) as [F2 R2]; [lia..|exact F1|exact Ff|].
  rewrite Ef in R2. generalize dependent (dmul S fac). intros R F2 R2.
  destruct (dadd_spec (-356) 458 (-53) R half) as [F3 R3]; [lia..|exact F2|apply (fin_le (-53) _ (-53)); [lia..|exact Fh]|].
  unfold add_bounds in F3. generalize dependent (dadd R half). intros T F3 R3.
  unfold to_uint64. rewrite (trunc_spec (-409) 765 T) by (lia || exact F3).
  pose proof scale_pos as Hp. set (P := scale) in *. clearbody P.
  assert (rounds (scaled S * factor) (scaled R)) as R2'.
  { unfold rounds in *. rewrite Z.mul_assoc, <- Z.mul_sub_distr_r, !Z.abs_mul, (Z.abs_eq P) in R2 by lia. nia. }
  clear R2. unfold rounds in *. unfold factor in *.
  assert (0 <= scaled S /\ 0 <= scaled R /\ 0 <= scaled T) as (HS & HR & HT) by lia.
  rewrite Z.quot_div_nonneg by lia. pose proof (Z.div_mod (scaled T) P ltac:(lia)) as Hdm.
  pose proof (Z.mod_pos_bound (scaled T) P Hp) as Hmod. pose proof (Z.div_pos (scaled T) P HT Hp) as Hz0.
  set (z := scaled T / P) in *. clearbody z.
  assert (10 * Z.abs (z * P - D * 10 ^ 15) <= 12 * P) as Hn by lia.
  assert (z * P < (10 ^ 15 + 2) * P) as Hz by lia. apply Z.mul_lt_mono_pos_r in Hz; [|lia].
  rewrite (proj2 (Z.leb_le 0 z)), (proj2 (Z.ltb_lt z _)) by lia. exists z. split; [done|]. split; [lia|exact Hn].
Qed.

Lemma floor_of_range x :
  - 2 ^ 31 * scale < scaled x < (2 ^ 31 - 1) * scale -> - 2 ^ 31 <= floor_of x < 2 ^ 31 - 1.
Proof.
  intros Hr. pose proof scale_pos as Hp. pose proof (floor_of_rest x) as Hf. split.
  - assert ((- 2 ^ 31 - 1) * scale < floor_of x * scale) as H by lia. apply Z.mul_lt_mono_pos_r in H; lia.
  - apply (Z.mul_lt_mono_pos_r scale); lia.
Qed.

Lemma of_double_bound x a :
  fin (-300) 100 x -> - 2 ^ 31 * scale < scaled x < (2 ^ 31 - 1) * scale -> of_double x = Some (Ok a) ->
  normal a /\ Z.abs (value a * scale - scaled x * AMOUNT_MAX_FRACTION) <= 1200 * scale.
Proof.
  intros Hx Hr. pose proof scale_pos as Hp. pose proof (floor_of_rest x) as Hf. pose proof (floor_of_range x Hr) as Hi.
  unfold of_double. destruct (_ || _); [done|]. unfold to_int32 at 1.
  rewrite (trunc_spec (-300) 100 x) by (lia || exact Hx). destruct (_ && _); [|done].
  rewrite (dlt_zero (-300) 100 x) by (lia || exact Hx).
  assert ((if scaled x <? 0 then s32 (Z.quot (scaled x) scale - 1) else Z.quot (scaled x) scale) = floor_of x) as ->.
  { clear Hf. revert Hi. unfold floor_of. destruct (scaled x <? 0); intros Hi; [|lia]. apply swrap_id; unfold in_s; lia. }
  set (i := floor_of x) in *. clearbody i.
  destruct (digits_spec x i Hx ltac:(lia) Hf) as (z & -> & Hz & Hn). change (AMOUNT_MAX_FRACTION / factor) with 1000.
  unfold factor in Hz, Hn. rewrite (uwrap_id 64 (z * 1000)) by (unfold in_u; lia). clear Hr. set (P := scale) in *. clearbody P.
  unfold normal, value, in_s. destruct (Z.leb_spec AMOUNT_MAX_FRACTION (z * 1000)); intros [= <-];
    cbn [integral_ fraction_]; rewrite ?swrap_id by (unfold in_s; lia); unfold AMOUNT_MAX_FRACTION in *; split; lia.
Qed.

Lemma dmul_norm lx hx ly hy x y : -1074 <= lx + ly -> hx + hy <= 910 ->
  fin lx hx x -> fin ly hy y -> norm x -> norm y -> norm (dmul x y).
Proof.
  intros Hl Hh Hx Hy Nx Ny. destruct x as [s| | |s m e], y as [s'| | |s' m' e']; try done.
  cbn in Hx, Hy, Nx, Ny. unfold dmul, SFmul.
  destruct (round_spec 55 (xorb s s') (m * m') (e + e')) as (mr & er & -> & He & Hm & _ & _ & Hn); [lia..|nia|].
  cbn [norm]. split; [lia|]. apply Hn. nia.
Qed.

Lemma of_Z_norm n : Z.abs n < 2 ^ 53 -> norm (of_Z n).
Proof.
  assert (forall s p, Zpos p < 2 ^ 53 -> norm (binary_round 53 1024 s p 0)) as Hr.
  { intros s p Hp. unfold binary_round. pose proof (digits_bound p) as [D1 D2].
    pose proof (digits_le p 53 ltac:(lia) Hp) as Hd.
    set (ez := fexp 53 1024 (Zpos (digits2_pos p) + 0)).
    assert (ez = Zpos (digits2_pos p) - 53) as Ez by (unfold ez, fexp, emin; lia).
    destruct (shl_align_spec p 0 ez) as (mz & -> & E); [lia|].
    assert (2 ^ (Zpos (digits2_pos p) - 1) * 2 ^ (0 - ez) = 2 ^ 52) as E1 by (rewrite <- Z.pow_add_r by lia; f_equal; lia).
    assert (2 ^ Zpos (digits2_pos p) * 2 ^ (0 - ez) = 2 ^ 53) as E2 by (rewrite <- Z.pow_add_r by lia; f_equal; lia).
    assert (0 < 2 ^ (0 - ez)) by (apply Z.pow_pos_nonneg; lia).
    assert (2 ^ 52 <= Zpos mz < 2 ^ 53) as Hmz by (rewrite E; nia).
    destruct (round_spec 0 s mz ez) as (m & e & -> & He & _ & _ & _ & Hn); [lia..|].
    cbn [norm]. split; [lia|]. apply Hn. lia. }
  intros Hn. destruct n as [|p|p]; [done|apply Hr; lia|apply Hr; lia].
Qed.

(** A double inside the range of [int32_t] is an amount. *)
Lemma of_double_total x :
  fin (-300) 100 x -> norm x -> - 2 ^ 31 * scale < scaled x < (2 ^ 31 - 1) * scale ->
  exists a, of_double x = Some (Ok a).
Proof.
  intros Hx Nx Hr. pose proof scale_pos as Hp. pose proof (floor_of_rest x) as Hf. pose proof (floor_of_range x Hr) as Hi.
  unfold of_double. destruct (of_Z_spec (- 2 ^ 31)) as [_ E1]; [lia|]. destruct (of_Z_spec (2 ^ 31 - 1)) as [_ E2]; [lia|].
  rewrite (dlt_norm x (of_Z (- 2 ^ 31))), (dlt_norm (of_Z (2 ^ 31 - 1))), E1, E2 by (exact Nx || apply of_Z_norm; lia).
  rewrite (proj2 (Z.ltb_ge (scaled x) _)), (proj2 (Z.ltb_ge ((2 ^ 31 - 1) * scale) _)) by lia. cbn [orb].
  unfold to_int32 at 1. rewrite (trunc_spec (-300) 100 x) by (lia || exact Hx).
  assert (Z.quot (scaled x) scale = floor_of x + (if scaled x <? 0 then 1 else 0)) as Eq by (unfold floor_of; lia).
  rewrite (proj2 (Z.leb_le _ _)), (proj2 (Z.ltb_lt _ _)) by (rewrite Eq; destruct (scaled x <? 0); lia). cbn [andb].
  rewrite (dlt_zero (-300) 100 x) by (lia || exact Hx).
  assert ((if scaled x <? 0 then s32 (Z.quot (scaled x) scale - 1) else Z.quot (scaled x) scale) = floor_of x) as ->.
  { rewrite Eq. destruct (scaled x <? 0); [|lia]. rewrite swrap_id; unfold in_s; lia. }
  destruct (digits_spec x (floor_of x) Hx ltac:(lia) Hf) as (z & -> & _). by eexists.
Qed.

(** ** The amount of a commission *)

(** A relative error of [n] units of [2 ^ -52]. *)
Definition near (n exact r : Z) : Prop := 2 ^ 52 * Z.abs (r - exact) <= n * Z.abs exact.

Lemma near_rounds n exact x r : 0 <= n <= 2 ^ 20 -> near n exact x -> rounds x r -> near (n + 2) exact r.
Proof. unfold near, rounds. nia. Qed.

Lemma near_mul n n' e e' r r' : 0 <= n <= 2 ^ 20 -> 0 <= n' <= 2 ^ 20 ->
  near n e r -> near n' e' r' -> near (n + n' + 1) (e * e') (r * r').
Proof.
  unfold near. intros Hn Hn' H H'. set (d := r - e) in *. set (d' := r' - e') in *.
  assert (r * r' - e * e' = e * d' + e' * d + d * d') as -> by (unfold d, d'; ring).
  assert (Z.abs (e * d' + e' * d + d * d') <= Z.abs e * Z.abs d' + Z.abs e' * Z.abs d + Z.abs d * Z.abs d') as Ht
    by (rewrite <- !Z.abs_mul; lia).
  rewrite Z.abs_mul. pose proof (Z.abs_nonneg e). pose proof (Z.abs_nonneg e'). pose proof (Z.abs_nonneg d).
  pose proof (Z.abs_nonneg d'). set (a := Z.abs e) in *. set (a' := Z.abs e') in *. set (b := Z.abs d) in *. set (b' := Z.abs d') in *.
  assert (2 ^ 52 * (a * b') <= n' * (a * a')) by nia. assert (2 ^ 52 * (a' * b) <= n * (a * a')) by nia.
  assert (2 ^ 52 * (b * b') <= a * a').
  { assert ((2 ^ 52 * b) * (2 ^ 52 * b') <= (n * a) * (n' * a')) as K1 by (apply Z.mul_le_mono_nonneg; lia).
    assert (n * n' <= 2 ^ 20 * 2 ^ 20) as K2 by (apply Z.mul_le_mono_nonneg; lia).
    assert (n * n' * (a * a') <= 2 ^ 20 * 2 ^ 20 * (a * a')) as K3 by (apply Z.mul_le_mono_nonneg_r; [nia|lia]). lia. }
  lia.
Qed.

Lemma near_exact n e : 0 <= n -> near n e e.
Proof. intros Hn. unfold near. rewrite Z.sub_diag. nia. Qed.

Definition tens_ok (i : Z) : bool :=
  match kTensPows i with
  | S754_finite false m e =>
      (-112 <=? e) && (e <=? -9) && (2 ^ 52 <=? Zpos m) && (Zpos m <? 2 ^ 53)
      && (2 ^ 52 * Z.abs (Zpos m * 2 ^ (e + 1074) * 10 ^ 18 - 10 ^ i * scale) <=? 1 * Z.abs (10 ^ i * scale))
  | _ => false
  end.

Lemma tens_spec i : 0 <= i < 32 ->
  fin (-112) (-9) (kTensPows i) /\ norm (kTensPows i) /\ near 1 (10 ^ i * scale) (scaled (kTensPows i) * 10 ^ 18).
Proof.
  intros Hi. assert (Forall (fun k => tens_ok (Z.of_nat k) = true) (seq 0 32)) as H by (apply (bool_decide_unpack _); by vm_compute).
  rewrite Forall_forall in H. specialize (H (Z.to_nat i)). rewrite Z2Nat.id in H by lia.
  specialize (H ltac:(apply elem_of_seq; lia)). unfold tens_ok in H.
  destruct (kTensPows i) as [s| | |[] m e]; try done. rewrite !andb_true_iff, !Z.leb_le, Z.ltb_lt in H.
  unfold near. cbn [fin norm scaled]. rewrite Z.mul_1_l. lia.
Qed.

(** The commission times [1024 * 10 ^ 18]. *)
Definition commission_value (bits : AmountCommission) : Z :=
  (if negb (commission_sign bits =? 0) then -1 else 1) * commission_frac bits * 10 ^ commission_exp bits.

Lemma commission_ranges bits : 0 <= bits -> 0 <= commission_frac bits < 1024 /\ 0 <= commission_exp bits < 32.
Proof.
  intros Hb. unfold commission_frac, commission_exp.
  change 1023 with (Z.ones 10). change 31 with (Z.ones 5). rewrite !Z.land_ones by lia.
  split; apply Z.mod_pos_bound; lia.
Qed.

Lemma thousandth : fin (-62) (-62) (literal 1 1024) /\ norm (literal 1 1024) /\ scaled (literal 1 1024) * 1024 = scale.
Proof. split; [by vm_compute|]. split; [by vm_compute|]. vm_compute. reflexivity. Qed.

Lemma sign_double (b : bool) : let x := if b then of_Z (- 1) else of_Z 1 in
  fin (-52) (-52) x /\ norm x /\ scaled x = (if b then -1 else 1) * scale.
Proof. destruct b; (split; [by vm_compute|]; split; [by vm_compute|]; vm_compute; reflexivity). Qed.

Lemma near_cancel n e r c : 0 < c -> near n (e * c) (r * c) -> near n e r.
Proof. unfold near. intros Hc. rewrite <- Z.mul_sub_distr_r, !Z.abs_mul, (Z.abs_eq c) by lia. nia. Qed.

Lemma commission_double bits : 0 <= bits ->
  let x := commission_to_double bits in
  fin (-300) 100 x /\ norm x /\ near 20 (commission_value bits * scale) (scaled x * (1024 * 10 ^ 18)).
Proof.
  intros Hb. destruct (commission_ranges bits Hb) as [Hf He]. unfold commission_to_double, commission_value.
  destruct (sign_double (negb (commission_sign bits =? 0))) as (F1 & N1 & E1).
  set (sg := if negb (commission_sign bits =? 0) then -1 else 1) in *.
  generalize dependent (if negb (commission_sign bits =? 0) then of_Z (- 1) else of_Z 1). intros a F1 N1 E1.
  destruct (of_Z_spec (commission_frac bits)) as [F2 E2]; [lia|]. pose proof (of_Z_norm (commission_frac bits) ltac:(lia)) as N2.
  generalize dependent (of_Z (commission_frac bits)). intros b F2 E2 N2.
  destruct thousandth as (F3 & N3 & E3). generalize dependent (literal 1 1024). intros c F3 N3 E3.
  destruct (tens_spec (commission_exp bits) He) as (F4 & N4 & E4). generalize dependent (kTensPows (commission_exp bits)). intros d F4 N4 E4.
  destruct (dmul_spec (-52) (-52) (-53) 1 a b) as [G1 R1]; [lia..|done|done|].
  pose proof (dmul_norm (-52) (-52) (-53) 1 a b ltac:(lia) ltac:(lia) F1 F2 N1 N2) as M1.
  generalize dependent (dmul a b). intros ab G1 R1 M1.
  destruct (dmul_spec (-105) 5 (-62) (-62) ab c) as [G2 R2]; [lia..|done|done|].
  pose proof (dmul_norm (-105) 5 (-62) (-62) ab c ltac:(lia) ltac:(lia) G1 F3 M1 N3) as M2.
  generalize dependent (dmul ab c). intros abc G2 R2 M2.
  destruct (dmul_spec (-167) (-1) (-112) (-9) abc d) as [G3 R3]; [lia..|done|done|].
  pose proof (dmul_norm (-167) (-1) (-112) (-9) abc d ltac:(lia) ltac:(lia) G2 F4 M2 N4) as M3.
  generalize dependent (dmul abc d). intros x G3 R3 M3. split; [by eapply fin_le; [..|exact G3]|]. split; [done|].
  clear G1 G2 G3 M1 M2 M3 N1 N2 N3 N4 F1 F2 F3 F4. pose proof scale_pos as Hp. set (P := scale) in *. clearbody P.
  set (f := commission_frac bits) in *. set (t := 10 ^ commission_exp bits) in *. clearbody f t sg.
  rewrite E1, E2 in R1.
  (* the first product *)
  assert (near 2 (sg * f * P) (scaled ab)) as A1.
  { apply (near_cancel _ _ _ P Hp). replace (sg * f * P * P) with (sg * P * (f * P)) by ring.
    apply (near_rounds 0 _ (sg * P * (f * P))); [lia|by apply near_exact|done]. }
  assert (near 5 (sg * f * P) (scaled abc * 1024)) as A2.
  { apply (near_cancel _ _ _ P Hp). replace (scaled abc * 1024 * P) with (scaled abc * P * 1024) by ring.
    apply (near_rounds 3 _ (scaled ab * scaled c * 1024)); [lia| |by apply rounds_scale].
    rewrite <- (Z.mul_assoc (scaled ab)), E3. apply (near_mul 2 0); [lia..|done|by apply near_exact]. }
  assert (near 9 (sg * f * t * P) (scaled x * (1024 * 10 ^ 18))) as A3.
  { apply (near_cancel _ _ _ P Hp). replace (sg * f * t * P * P) with (sg * f * P * (t * P)) by ring.
    replace (scaled x * (1024 * 10 ^ 18) * P) with (scaled x * P * (1024 * 10 ^ 18)) by ring.
    apply (near_rounds 7 _ (scaled abc * scaled d * (1024 * 10 ^ 18))); [lia| |by apply rounds_scale].
    replace (scaled abc * scaled d * (1024 * 10 ^ 18)) with (scaled abc * 1024 * (scaled d * 10 ^ 18)) by ring.
    by apply (near_mul 5 1). }
  unfold near in *. lia.
Qed.

(** Every commission of 16 bits with an exponent of at most 27 converts through double to a normal
    amount, within 1200 units of the last decimal plus 20 / 2^52 of the value of its fraction,
    exponent and sign. *)
Theorem fee_amount_spec bits :
  in_u 16 bits -> commission_exp bits <= 27 ->
  exists a, fee_amount bits = Some (Ok a) /\ normal a /\
    2 ^ 52 * Z.abs (1024 * value a - commission_value bits)
    <= 2 ^ 52 * 1024 * 1200 + 20 * Z.abs (commission_value bits).
Proof.
  intros Hb He. destruct (commission_double bits) as (F & N & R); [apply Hb|]. unfold fee_amount.
  set (x := commission_to_double bits) in *. clearbody x. pose proof scale_pos as Hp.
  destruct (commission_ranges bits (proj1 Hb)) as [Hf Hx].
  assert (Z.abs (commission_value bits) <= 1023 * 10 ^ 27) as Hv.
  { unfold commission_value. rewrite !Z.abs_mul, (Z.abs_eq (commission_frac bits)), (Z.abs_eq (10 ^ _)) by (try apply Z.pow_nonneg; lia).
    assert (Z.abs (if negb (commission_sign bits =? 0) then -1 else 1) = 1) as -> by by destruct (negb _).
    rewrite Z.mul_1_l. apply Z.mul_le_mono_nonneg; [lia..|apply Z.pow_nonneg; lia|apply Z.pow_le_mono_r; lia]. }
  assert (- 2 ^ 31 * scale < scaled x < (2 ^ 31 - 1) * scale) as Hr.
  { unfold near in R. set (v := commission_value bits) in *. clearbody v. set (P := scale) in *. clearbody P.
    rewrite (Z.abs_mul v), (Z.abs_eq P) in R by lia.
    assert (Z.abs (v * P) <= 1023 * 10 ^ 27 * P) by (rewrite Z.abs_mul, (Z.abs_eq P) by lia; apply Z.mul_le_mono_nonneg_r; lia).
    assert (Z.abs v * P <= 1023 * 10 ^ 27 * P) by (apply Z.mul_le_mono_nonneg_r; lia). lia. }
  destruct (of_double_total x F N Hr) as [a Ha]. exists a. split; [done|].
  destruct (of_double_bound x a F Hr Ha) as [Hna Hva]. split; [exact Hna|]. unfold near in R.
  set (v := commission_value bits) in *. clearbody v. set (w := value a) in *. clearbody w. clear Hr Ha F N.
  unfold AMOUNT_MAX_FRACTION in Hva. set (P := scale) in *. clearbody P.
  rewrite (Z.abs_mul v), (Z.abs_eq P) in R by lia.
  assert ((2 ^ 52 * Z.abs (1024 * w - v)) * P <= (2 ^ 52 * 1024 * 1200 + 20 * Z.abs v) * P) as H; [|by apply Z.mul_le_mono_pos_r in H].
  assert (Z.abs (1024 * w - v) * P = Z.abs (1024 * (w * P) - v * P)) as E
    by (rewrite <- (Z.abs_eq P) at 1 by lia; rewrite <- Z.abs_mul; f_equal; ring).
  rewrite <- Z.mul_assoc, E. lia.
Qed.

(** Amount(double) returns a normal amount for every finite number inside the range of int32_t,
    within 1200 units of the last decimal (10^-15 and the rounding of the fraction). *)
Theorem of_double_spec x :
  fin (-300) 100 x -> norm x -> - 2 ^ 31 * scale < scaled x < (2 ^ 31 - 1) * scale ->
  exists a, of_double x = Some (Ok a) /\ normal a /\
    Z.abs (value a * scale - scaled x * AMOUNT_MAX_FRACTION) <= 1200 * scale.
Proof.
  intros F N Hr. destruct (of_double_total x F N Hr) as [a Ha]. exists a. split; [done|]. by apply of_double_bound.
Qed.

(** A commission of 2^31 or more makes Amount(double) throw overflow_error. *)
Theorem fee_amount_overflow bits :
  0 <= bits -> 2147483648 * (1024 * 10 ^ 18) <= commission_value bits ->
  fee_amount bits = Some (Throw overflow_error).
Proof.
  intros Hb Hv. destruct (commission_double bits Hb) as (F & N & R). unfold fee_amount, of_double.
  set (x := commission_to_double bits) in *. clearbody x. pose proof scale_pos as Hp.
  destruct (of_Z_spec (- 2 ^ 31)) as [_ E1]; [lia|]. destruct (of_Z_spec (2 ^ 31 - 1)) as [_ E2]; [lia|].
  rewrite (dlt_norm x (of_Z (- 2 ^ 31))), (dlt_norm (of_Z (2 ^ 31 - 1))), E1, E2 by (exact N || apply of_Z_norm; lia).
  assert ((2 ^ 31 - 1) * scale < scaled x) as Hx.
  { unfold near in R. set (v := commission_value bits) in *. clearbody v. set (P := scale) in *. clearbody P.
    assert (2147483648 * (1024 * 10 ^ 18) * P <= v * P) by (apply Z.mul_le_mono_nonneg_r; lia). lia. }
  by rewrite (proj2 (Z.ltb_lt _ (scaled x)) Hx), orb_true_r.
Qed.

(** ** Witnesses *)

(** The least fee of the node, 0.008745, as the constructor encodes it: 896 / 1024 / 100. *)
Lemma fee_amount_spec_witness :
  exists a, fee_amount 17280 = Some (Ok a) /\ normal a /\
    2 ^ 52 * Z.abs (1024 * value a - commission_value 17280)
    <= 2 ^ 52 * 1024 * 1200 + 20 * Z.abs (commission_value 17280).
Proof. apply (fee_amount_spec 17280); [unfold in_u; lia|by vm_compute]. Defined.

Lemma of_double_spec_witness :
  exists a, of_double (literal (-3) 2) = Some (Ok a) /\ normal a /\
    Z.abs (value a * scale - scaled (literal (-3) 2) * AMOUNT_MAX_FRACTION) <= 1200 * scale.
Proof.
  apply (of_double_spec (literal (-3) 2)); [by vm_compute|by vm_compute|].
  split; apply Z.ltb_lt; vm_compute; reflexivity.
Defined.

(** A fee of four thousand million tokens: 410 / 1024 * 10 ^ 10. *)
Lemma fee_amount_overflow_witness : fee_amount (410 + 28 * 1024) = Some (Throw overflow_error).
Proof. apply (fee_amount_overflow (410 + 28 * 1024)); [lia|]. apply Z.leb_le. by vm_compute. Defined.
