(* ===== verification/Pool.v ===== *)
(** * Pools, the blocks of the chain ([csdb/include/csdb/pool.hpp], [csdb/src/pool.cpp])

    [PoolHash] is the hash of a block; [Pool] the block: its metadata, its
    transactions, the new wallets, the trusted nodes and their signatures,
    and the binary representation it was composed to or read from.

    [updateHash] reads [hashingLength_] bytes of the binary representation
    without comparing the two lengths, so the operations that call it return
    [None] where the read is out of bounds (undefined behaviour). *)

From Stdlib Require Import ZArith Lia.
From stdpp Require Import base tactics numbers option list.
From S2P Require Import Prelude OrdMap Text Math128 BinStream Amount UserField Crypto Address Utils Transaction.

Local Open Scope Z_scope.
Local Open Scope cs_scope.

(** ** [PoolHash] *)

Module PoolHash.
Section pool_hash.
Context `{!Cscrypto}.

Definition t := bytes.

Definition is_empty (d : t) : bool := (length d =? 0)%nat.
Definition size (d : t) : nat := length d.
Definition to_string (d : t) : bytes := Hex.to_hex d.
Definition to_binary (d : t) : bytes := d.

Definition from_binary (data : bytes) : t :=
  let sz := length data in if (0 =? sz)%nat || (kHashSize =? sz)%nat then data else [].

Definition from_string (str : bytes) : t :=
  let hash := Hex.from_hex str in
  let sz := length hash in if (0 =? sz)%nat || (kHashSize =? sz)%nat then hash else [].

Definition op_eq (d other : t) : bool := bool_decide (d = other).
Definition op_lt (d other : t) : bool := lex_lt d other.

(** The first eight bytes; out of bounds on an empty hash. *)
Definition calcHash (d : t) : option Z := if (8 <=? length d)%nat then Some (le_val (take 8 d)) else None.

Definition calc_from_data (data : bytes) : t := calculateHash data.

Definition put_hash (d : t) (os : obstream) : obstream :=
  let size := length d in
  let os := put (uint_codec 1) (u8 (Z.of_nat size)) os in
  if negb (is_empty d) then os ++ d else os.

Definition get_hash (ist : ibstream) : option (t * ibstream) :=
  let? (size, ist) := get (uint_codec 1) ist in
  if size =? 0 then Some ([], ist)
  else if negb (size =? Z.of_nat kHashSize) || (length ist <? kHashSize)%nat then None
  else get_raw kHashSize ist.

Definition wf_hash (d : t) : Prop := d = [] \/ length d = kHashSize.

Definition hash_codec : codec t := mkCodec t put_hash get_hash wf_hash.

Context `{!CscryptoLaws _}.

#[global] Instance hash_codec_ok : CodecOk hash_codec.
Proof.
  split; unfold enc, hash_codec; cbn [put get wf]; unfold put_hash, get_hash, is_empty.
  - intros d os. rewrite !(put_app (c := uint_codec 1)), app_nil_l.
    destruct (length d =? 0)%nat; cbn [negb]; [done|]. by rewrite app_assoc.
  - intros d rest [->|Hd].
    + cbn [length Nat.eqb negb]. fold (enc (uint_codec 1) (u8 (Z.of_nat 0))).
      rewrite get_put by by apply wf_u8. done.
    + pose proof hash_size_pos. pose proof hash_size_byte.
      destruct (Nat.eqb_spec (length d) 0); [lia|]. cbn [negb]. rewrite <- app_assoc.
      fold (enc (uint_codec 1) (u8 (Z.of_nat (length d)))).
      rewrite get_put by eauto with cs. rewrite uwrap_id by (unfold in_u; lia). rewrite Hd.
      destruct (Z.eqb_spec (Z.of_nat kHashSize) 0); [lia|]. rewrite Z.eqb_refl. cbn [negb orb].
      rewrite length_app, Hd. destruct (Nat.ltb_spec (kHashSize + length rest) kHashSize); [lia|].
      change (get_raw kHashSize) with (get (array_codec kHashSize)).
      change (d ++ rest) with (enc (array_codec kHashSize) d ++ rest). by rewrite get_put.
  - intros s d r x. codec_mono. destruct (_ =? 0); [by intros [= <- <-]|].
    destruct (_ =? Z.of_nat kHashSize); cbn [negb orb]; [|done].
    destruct (Nat.ltb_spec (length i) kHashSize); [done|].
    rewrite length_app. destruct (Nat.ltb_spec (length i + length x) kHashSize); [lia|].
    change (get_raw kHashSize) with (get (array_codec kHashSize)). by apply get_app.
Qed.

(** What a string or a buffer is read to is a hash or the empty hash. *)
Lemma from_binary_wf data : wf_hash (from_binary data).
Proof.
  unfold from_binary, wf_hash. destruct data as [|b data]; [by left|].
  cbn [length Nat.eqb orb]. destruct (Nat.eqb_spec kHashSize (S (length data))); [right|left]; done.
Qed.

(** A pool hash printed and parsed. *)
Theorem pool_hash_from_to_string d : bytes_ok d -> wf_hash d -> from_string (to_string d) = d.
Proof.
  intros Hb Hd. unfold from_string, to_string. rewrite Hex.from_hex_to_hex by done.
  destruct Hd as [->|Hd]; [done|]. rewrite Hd, Nat.eqb_refl, orb_true_r. done.
Qed.

Lemma calc_from_data_wf data : wf_hash (calc_from_data data).
Proof. right. apply calculateHash_length. Qed.
End pool_hash.
End PoolHash.

(** ** Elements of a pool *)

Module Pool.

(** [AddressId]: a bit field, 63 bits and 1 bit of a [size_t]. *)
Record NewWalletInfo := mkNewWalletInfo { trxInd_ : Z; addressType_ : Z; walletId_ : Z }.

Definition AddressIsSource : Z := 0.
Definition AddressIsTarget : Z := 1.

Definition asSizeType (w : NewWalletInfo) : Z := Z.lor (trxInd_ w) (2 ^ 63 * addressType_ w).

Definition new_wallet_eq (w rh : NewWalletInfo) : bool :=
  (trxInd_ w =? trxInd_ rh) && (addressType_ w =? addressType_ rh) && (walletId_ w =? walletId_ rh).

Definition put_wallet (w : NewWalletInfo) (os : obstream) : obstream :=
  put (uint_codec 4) (walletId_ w) (put (uint_codec 8) (asSizeType w) os).

Definition get_wallet (ist : ibstream) : option (NewWalletInfo * ibstream) :=
  let? (address_id, ist) := get (uint_codec 8) ist in
  let? (wallet_id, ist) := get (uint_codec 4) ist in
  Some (mkNewWalletInfo (address_id mod 2 ^ 63) (address_id / 2 ^ 63) wallet_id, ist).

Definition wf_wallet (w : NewWalletInfo) : Prop :=
  0 <= trxInd_ w < 2 ^ 63 /\ 0 <= addressType_ w < 2 /\ in_u 32 (walletId_ w).

Definition wallet_codec : codec NewWalletInfo := mkCodec NewWalletInfo put_wallet get_wallet wf_wallet.

#[global] Instance wallet_codec_ok : CodecOk wallet_codec.
Proof.
  split; unfold enc, wallet_codec; cbn [put get wf]; unfold put_wallet, get_wallet.
  - intros w os. rewrite !(put_app (c := uint_codec 4)), !(put_app (c := uint_codec 8)).
    by rewrite app_nil_l, app_assoc.
  - intros [i t w] rest (Hi & Ht & Hw). cbn [trxInd_ addressType_ walletId_] in *.
    rewrite (put_app (c := uint_codec 4)), (put_app (c := uint_codec 8)), app_nil_l, <- app_assoc.
    unfold asSizeType; cbn [trxInd_ addressType_ walletId_]. rewrite lor_disjoint_add by lia.
    rewrite get_put by (apply wf_u64; unfold in_u; lia). rewrite get_put by eauto with cs.
    do 2 f_equal. f_equal; machine_lia.
  - intros s w r x. codec_mono. by intros [= <- <-].
Qed.

Record SmartSignature := mkSmartSignature {
  smartKey : bytes;
  smartConsensusPool : Z;
  smart_signatures : list (Z * bytes)
}.

Section elements.
Context `{!Cscrypto}.

(** A (index, signature) pair. *)
Definition block_signature_codec : codec (Z * bytes) := pair_codec (uint_codec 1) (array_codec kSignatureSize).
Definition block_signatures_codec : codec (list (Z * bytes)) := list_codec 1 block_signature_codec.

(** The body of the loop over the smart signatures, in [put] and in
    [getSmartSignatures]. *)
Definition put_smart_signature (it : SmartSignature) (os : obstream) : obstream :=
  let os := put (array_codec kPublicKeySize) (smartKey it) os in
  let os := put (uint_codec 8) (smartConsensusPool it) os in
  put block_signatures_codec (smart_signatures it) os.

Definition get_smart_signature (ist : ibstream) : option (SmartSignature * ibstream) :=
  let? (key, ist) := get (array_codec kPublicKeySize) ist in
  let? (pool, ist) := get (uint_codec 8) ist in
  let? (sigs, ist) := get block_signatures_codec ist in
  Some (mkSmartSignature key pool sigs, ist).

Definition smart_codec : codec SmartSignature :=
  mkCodec SmartSignature put_smart_signature get_smart_signature
    (fun it => length (smartKey it) = kPublicKeySize /\ in_u 64 (smartConsensusPool it)
      /\ wf block_signatures_codec (smart_signatures it)).

#[global] Instance smart_codec_ok : CodecOk smart_codec.
Proof.
  split; unfold enc, smart_codec; cbn [put get wf]; unfold put_smart_signature, get_smart_signature.
  - intros it os. rewrite !(put_app (c := block_signatures_codec)), !(put_app (c := uint_codec 8)),
      !(put_app (c := array_codec _)). by rewrite app_nil_l, <- !app_assoc.
  - intros [k p s] rest (Hk & Hp & Hs). cbn [smartKey smartConsensusPool smart_signatures] in *.
    rewrite (put_app (c := block_signatures_codec)), (put_app (c := uint_codec 8)),
      (put_app (c := array_codec _)), app_nil_l, <- !app_assoc.
    rewrite get_put by done. rewrite get_put by eauto with cs. by rewrite get_put.
  - intros s it r x. codec_mono. by intros [= <- <-].
Qed.
End elements.

(** ** The pool *)

Record priv := mkPool {
  is_valid_ : bool;
  read_only_ : bool;
  version_ : Z;
  hash_ : PoolHash.t;
  previous_hash_ : PoolHash.t;
  sequence_ : Z;
  confidants_ : list bytes;
  transactions_ : list Transaction;
  transactionsCount_ : Z;
  newWallets_ : list NewWalletInfo;
  user_fields_ : list (Z * UserField);
  numberTrusted_ : Z;
  realTrusted_ : Z;
  numberConfirmations_ : Z;
  roundConfirmationMask_ : Z;
  hashingLength_ : Z;
  roundCost_ : Amount;
  signatures_ : list bytes;
  roundConfirmations_ : list bytes;
  smartSignatures_ : list SmartSignature;
  binary_representation_ : bytes;
  (** the [Storage::WeakPtr], an opaque handle ([0]: none) *)
  storage_ : nat
}.

#[global] Instance eta_priv : Eta priv := fun p =>
  mkPool (is_valid_ p) (read_only_ p) (version_ p) (hash_ p) (previous_hash_ p) (sequence_ p) (confidants_ p)
    (transactions_ p) (transactionsCount_ p) (newWallets_ p) (user_fields_ p) (numberTrusted_ p) (realTrusted_ p)
    (numberConfirmations_ p) (roundConfirmationMask_ p) (hashingLength_ p) (roundCost_ p) (signatures_ p)
    (roundConfirmations_ p) (smartSignatures_ p) (binary_representation_ p) (storage_ p).

Definition default : priv :=
  mkPool false false 0 [] [] 0 [] [] 0 [] [] 0 0 0 0 0 (of_int 0) [] [] [] [] 0.

(** [Pool(previous_hash, sequence, storage)] *)
Definition make (previous_hash : PoolHash.t) (sequence : Z) (storage : nat) : priv :=
  default <| is_valid_ := true |> <| previous_hash_ := previous_hash |> <| sequence_ := sequence |>
    <| storage_ := storage |>.

Section pool.
Context `{!Cscrypto}.

(** *** Writing *)

(** [put(os, true)]: what the block hash covers. *)
Definition put_hashed (p : priv) (os : obstream) : obstream :=
  let os := put (uint_codec 1) (version_ p) os in
  let os := put PoolHash.hash_codec (previous_hash_ p) os in
  let os := put (uint_codec 8) (sequence_ p) os in
  let os := put Tx.fields_codec (user_fields_ p) os in
  let os := put amount_codec (roundCost_ p) os in
  let os := put (uint_codec 4) (u32 (Z.of_nat (length (transactions_ p)))) os in
  let os := put_list Tx.tx_codec (transactions_ p) os in
  let os := put (uint_codec 4) (u32 (Z.of_nat (length (newWallets_ p)))) os in
  let os := put_list wallet_codec (newWallets_ p) os in
  let os := put (uint_codec 1) (numberTrusted_ p) os in
  let os := put (uint_codec 8) (realTrusted_ p) os in
  let os := put_list (array_codec kPublicKeySize) (confidants_ p) os in
  let os := put (uint_codec 1) (numberConfirmations_ p) os in
  let os := put (uint_codec 8) (roundConfirmationMask_ p) os in
  put_list (array_codec kSignatureSize) (roundConfirmations_ p) os.

(** [put(os, doHash)]: the stream and the object, whose [hashingLength_] is
    set unless [doHash]. *)
Definition put_pool (p : priv) (doHash : bool) (os : obstream) : obstream * priv :=
  let os := put_hashed p os in
  if doHash then (os, p)
  else
    let p := p <| hashingLength_ := Z.of_nat (length os) |> in
    let os := put (uint_codec 8) (hashingLength_ p) os in
    let os := put_list (array_codec kSignatureSize) (signatures_ p) os in
    let os := put (uint_codec 1) (u8 (Z.of_nat (length (smartSignatures_ p)))) os in
    (put_list smart_codec (smartSignatures_ p) os, p).

Definition put_for_sig (p : priv) (os : obstream) : obstream :=
  let os := put (uint_codec 1) 0 os in
  let os := put PoolHash.hash_codec (previous_hash_ p) os in
  let os := put (uint_codec 8) (sequence_ p) os in
  let os := put Tx.fields_codec (user_fields_ p) os in
  let os := put amount_codec (roundCost_ p) os in
  let os := put (uint_codec 4) (u32 (Z.of_nat (length (transactions_ p)))) os in
  let os := put_list Tx.tx_codec (transactions_ p) os in
  let os := put (uint_codec 4) (u32 (Z.of_nat (length (newWallets_ p)))) os in
  let os := put_list wallet_codec (newWallets_ p) os in
  let os := put (uint_codec 1) (u8 (Z.of_nat (length (confidants_ p)))) os in
  let os := put_list (array_codec kPublicKeySize) (confidants_ p) os in
  put (uint_codec 8) (realTrusted_ p) os.

(** *** Reading into the object [p] *)

Definition get_meta (p : priv) (ist : ibstream) : option (priv * Z * ibstream) :=
  let? (version, ist) := get (uint_codec 1) ist in
  let? (previous_hash, ist) := get PoolHash.hash_codec ist in
  let? (sequence, ist) := get (uint_codec 8) ist in
  let? (user_fields, ist) := get Tx.fields_codec ist in
  let? (roundCost, ist) := get amount_codec ist in
  let? (cnt, ist) := get (uint_codec 4) ist in
  Some (p <| version_ := version |> <| previous_hash_ := previous_hash |> <| sequence_ := sequence |>
          <| user_fields_ := user_fields |> <| roundCost_ := roundCost |> <| transactionsCount_ := cnt |>
          <| is_valid_ := true |>, cnt, ist).

Definition getTransactions (p : priv) (cnt : Z) (ist : ibstream) : option (priv * ibstream) :=
  let? (transactions, ist) := get_list Tx.tx_codec (Z.to_nat cnt) ist in
  Some (p <| transactions_ := transactions |>, ist).

Definition getNewWallets (p : priv) (ist : ibstream) : option (priv * ibstream) :=
  let? (cnt, ist) := get (uint_codec 4) ist in
  let? (newWallets, ist) := get_list wallet_codec (Z.to_nat cnt) ist in
  Some (p <| newWallets_ := newWallets |>, ist).

Definition getConfidants (p : priv) (ist : ibstream) : option (priv * ibstream) :=
  let? (confidants, ist) := get_list (array_codec kPublicKeySize) (Z.to_nat (numberTrusted_ p)) ist in
  Some (p <| confidants_ := confidants |>, ist).

Definition getTrustedConfirmation (p : priv) (ist : ibstream) : option (priv * ibstream) :=
  let? (numberConfirmations, ist) := get (uint_codec 1) ist in
  let? (mask, ist) := get (uint_codec 8) ist in
  let cnt := u8 (popcount mask) in
  let? (confirmations, ist) := get_list (array_codec kSignatureSize) (Z.to_nat cnt) ist in
  Some (p <| numberConfirmations_ := numberConfirmations |> <| roundConfirmationMask_ := mask |>
          <| roundConfirmations_ := confirmations |>, ist).

Definition getSignatures (p : priv) (ist : ibstream) : option (priv * ibstream) :=
  let cnt := u8 (popcount (realTrusted_ p)) in
  let? (signatures, ist) := get_list (array_codec kSignatureSize) (Z.to_nat cnt) ist in
  Some (p <| signatures_ := signatures |>, ist).

Definition getSmartSignatures (p : priv) (ist : ibstream) : option (priv * ibstream) :=
  let? (cnt, ist) := get (uint_codec 1) ist in
  let? (smartSignatures, ist) := get_list smart_codec (Z.to_nat cnt) ist in
  Some (p <| smartSignatures_ := smartSignatures |>, ist).

Definition get_hashed_data (p : priv) (ist : ibstream) : option (priv * ibstream) :=
  let? (p, cnt, ist) := get_meta p ist in
  let? (p, ist) := getTransactions p cnt ist in
  let? (p, ist) := getNewWallets p ist in
  let? (numberTrusted, ist) := get (uint_codec 1) ist in
  let p := p <| numberTrusted_ := numberTrusted |> in
  let? (realTrusted, ist) := get (uint_codec 8) ist in
  let p := p <| realTrusted_ := realTrusted |> in
  let? (p, ist) := getConfidants p ist in
  let? (p, ist) := getTrustedConfirmation p ist in
  let? (hashingLength, ist) := get (uint_codec 8) ist in
  Some (p <| hashingLength_ := hashingLength |>, ist).

Definition get_pool (p : priv) (ist : ibstream) : option (priv * ibstream) :=
  let? (p, ist) := get_hashed_data p ist in
  let? (p, ist) := getSignatures p ist in
  let? (p, ist) := getSmartSignatures p ist in
  Some (p <| is_valid_ := true |>, ist).

(** *** The hash and the binary representation *)

(** [updateHash()]: [None] when [binary_representation_] is shorter than
    [hashingLength_]. *)
Definition updateHash (p : priv) : option priv :=
  if Z.of_nat (length (binary_representation_ p)) <? hashingLength_ p then None
  else Some (p <| hash_ := PoolHash.calc_from_data (take (Z.to_nat (hashingLength_ p)) (binary_representation_ p)) |>).

Definition update_binary_representation_with (p : priv) (bs : bytes) : priv :=
  p <| binary_representation_ := bs |>.

Definition update_binary_representation (p : priv) : priv :=
  let '(os, p) := put_pool p false [] in update_binary_representation_with p os.

Definition number_transactions (seq : Z) (l : list Transaction) : list Transaction :=
  imap (fun idx t => Tx._update_id t seq (Z.of_nat idx)) l.

Definition update_transactions (p : priv) : option priv :=
  let p := p <| read_only_ := true |> in
  match updateHash p with
  | Some p => Some (p <| transactions_ := number_transactions (sequence_ p) (transactions_ p) |>)
  | None => None
  end.

Definition priv_compose (p : priv) : option priv :=
  if negb (is_valid_ p) then Some (p <| binary_representation_ := [] |> <| hash_ := [] |>)
  else update_transactions (update_binary_representation p).

(** [Pool::compose] *)
Definition compose (p : priv) : option (bool * priv) :=
  if read_only_ p then Some (true, p)
  else match priv_compose p with Some p => Some (is_valid_ p, p) | None => None end.

(** [Pool::hash]: computed on the first call. *)
Definition hash (p : priv) : option (PoolHash.t * priv) :=
  if PoolHash.is_empty (hash_ p) then
    match updateHash p with Some p => Some (hash_ p, p) | None => None end
  else Some (hash_ p, p).

Definition to_binary (p : priv) : bytes := binary_representation_ p.

Definition to_byte_stream (p : priv) : bytes * priv :=
  let p := if (length (binary_representation_ p) =? 0)%nat then update_binary_representation p else p in
  (binary_representation_ p, p).

Definition to_byte_stream_for_sig (p : priv) : bytes := fst (put_pool p true []).

(** The static readers: a default pool when the data cannot be parsed. *)
Definition from_binary (data : bytes) : option priv :=
  match get_pool default data with
  | None => Some default
  | Some (p, _) => update_transactions (update_binary_representation_with p data)
  end.

Definition hash_from_binary (data : bytes) : option PoolHash.t :=
  match get_hashed_data default data with
  | None => Some []
  | Some (p, _) => option_map hash_ (updateHash (update_binary_representation_with p data))
  end.

Definition meta_from_binary (data : bytes) : priv * option Z :=
  match get_meta default data with
  | None => (default, None)
  | Some (p, cnt, _) => (update_binary_representation_with p data, Some cnt)
  end.

Definition meta_from_byte_stream (data : bytes) : priv :=
  match get_meta default data with None => default | Some (p, _, _) => p end.

Definition from_lz4_byte_stream (uncompressedSize : nat) : option priv :=
  let p := default <| binary_representation_ := replicate uncompressedSize 0 |> in
  match get_pool p (binary_representation_ p) with
  | None => Some default
  | Some (p, _) => updateHash p
  end.

(** [priv::clone] *)
Definition clone (p : priv) : priv :=
  p <| transactions_ := map Tx.clone (transactions_ p) |>
    <| user_fields_ := foldl (fun m uf => assign uf.1 uf.2 m) [] (user_fields_ p) |>.

(** *** Look-up *)

Definition transaction (p : priv) (index : nat) : Transaction :=
  if (index <? length (transactions_ p))%nat then nth index (transactions_ p) Tx.default else Tx.default.

Definition transaction_by_id (p : priv) (id : TransactionID) : Transaction :=
  if negb (is_valid_ p) || negb (read_only_ p) || negb (TxId.is_valid id)
     || negb (pool_seq_ id =? sequence_ p) || (Z.of_nat (length (transactions_ p)) <=? index_ id)
  then Tx.default
  else nth (Z.to_nat (index_ id)) (transactions_ p) Tx.default.

(** The loop from [rbegin] to [rend]. *)
Fixpoint last_by (party : Transaction -> Address) (a : Address) (rev_transactions : list Transaction) : Transaction :=
  match rev_transactions with
  | [] => Tx.default
  | t :: rest => if Address.op_eq (party t) a then t else last_by party a rest
  end.

Definition get_last_by_source (p : priv) (source : Address) : Transaction :=
  if negb (is_valid_ p) then Tx.default else last_by source_ source (rev (transactions_ p)).

Definition get_last_by_target (p : priv) (target : Address) : Transaction :=
  if negb (is_valid_ p) then Tx.default else last_by target_ target (rev (transactions_ p)).

(** [getWalletAddress]: [None] for [false]. *)
Definition getWalletAddress (p : priv) (info : NewWalletInfo) : option Address :=
  let transactions := transactions_ p in
  let conf := confidants_ p in
  let max_new_wallets_size := Z.of_nat (length transactions + length conf) in
  let idx := trxInd_ info in
  if max_new_wallets_size <=? idx then None
  else if idx <? Z.of_nat (length transactions) then
    let trx := nth (Z.to_nat idx) transactions Tx.default in
    Some (if addressType_ info =? AddressIsSource then source_ trx else target_ trx)
  else Some (from_public_key (nth (Z.to_nat (idx - Z.of_nat (length transactions))) conf [])).

(** The index of the first mask element that is not 255. *)
Fixpoint first_trusted (mask : bytes) : nat :=
  match mask with
  | [] => 0
  | it :: mask' => if negb (it =? 255) then 0 else S (first_trusted mask')
  end.

(** [writer_public_key]; [at] throws past the end, out of a [noexcept] method. *)
Definition writer_public_key (p : priv) : result bytes :=
  if (length (confidants_ p) =? 0)%nat then Ok (replicate kPublicKeySize 0)
  else
    let index := first_trusted (Utils.bitsToMask (numberTrusted_ p) (realTrusted_ p)) in
    match confidants_ p !! index with Some k => Ok k | None => Throw out_of_range end.

(** *** Changing a pool *)

Definition add_transaction (transaction : Transaction) (p : priv) : bool * priv :=
  if read_only_ p then (false, p)
  else if negb (Tx.is_valid transaction) then (false, p)
  else (true, p <| transactions_ := transactions_ p ++ [transaction] |>
                <| transactionsCount_ := u32 (transactionsCount_ p + 1) |>).

Definition recount (p : priv) : priv :=
  p <| transactionsCount_ := u32 (Z.of_nat (length (transactions_ p))) |>.

Definition set_version (v : Z) (p : priv) : priv :=
  if read_only_ p then p else p <| is_valid_ := true |> <| version_ := v |>.
Definition set_sequence (seq : Z) (p : priv) : priv :=
  if read_only_ p then p else p <| is_valid_ := true |> <| sequence_ := seq |>.
Definition setRoundCost (roundCost : Amount) (p : priv) : priv :=
  if read_only_ p then p else p <| is_valid_ := true |> <| roundCost_ := roundCost |>.
Definition set_previous_hash (previous_hash : PoolHash.t) (p : priv) : priv :=
  if read_only_ p then p else p <| is_valid_ := true |> <| previous_hash_ := previous_hash |>.
Definition set_confidants (confidants : list bytes) (p : priv) : priv :=
  if read_only_ p then p else p <| is_valid_ := true |> <| confidants_ := confidants |>.
Definition set_signatures (blockSignatures : list bytes) (p : priv) : priv :=
  if read_only_ p then p else p <| is_valid_ := true |> <| signatures_ := blockSignatures |>.

(** These are not guarded by [read_only_]. *)
Definition add_smart_signature (s : SmartSignature) (p : priv) : priv :=
  p <| is_valid_ := true |> <| smartSignatures_ := smartSignatures_ p ++ [s] |>.
Definition add_round_confirmations (confirmations : list bytes) (p : priv) : priv :=
  p <| is_valid_ := true |> <| roundConfirmations_ := confirmations |>.
Definition add_real_trusted (trustedMask : Z) (p : priv) : priv :=
  p <| is_valid_ := true |> <| realTrusted_ := trustedMask |>.
Definition add_confirmation_mask (confMask : Z) (p : priv) : priv :=
  p <| is_valid_ := true |> <| roundConfirmationMask_ := confMask |>.
Definition add_number_trusted (trustedNumber : Z) (p : priv) : priv :=
  p <| is_valid_ := true |> <| numberTrusted_ := trustedNumber |>.
Definition add_number_confirmations (confNumber : Z) (p : priv) : priv :=
  p <| is_valid_ := true |> <| numberConfirmations_ := confNumber |>.
Definition set_storage (storage : nat) (p : priv) : priv :=
  p <| is_valid_ := true |> <| storage_ := storage |>.

(** [newWallets()] gives the caller the vector only while the pool can be
    changed; the caller's changes are [f]. *)
Definition edit_newWallets (f : list NewWalletInfo -> list NewWalletInfo) (p : priv) : priv :=
  if read_only_ p then p else p <| newWallets_ := f (newWallets_ p) |>.

Definition add_user_field (id : Z) (field : UserField) (p : priv) : bool * priv :=
  if read_only_ p || negb (uf_is_valid field) then (false, p)
  else (true, p <| is_valid_ := true |> <| user_fields_ := assign id field (user_fields_ p) |>).

Definition user_field (id : Z) (p : priv) : UserField :=
  match find id (user_fields_ p) with Some f => f | None => uf_default end.

Definition user_field_ids (p : priv) : list Z := map fst (user_fields_ p).

(** *** Encodings *)

Definition hashed_enc (p : priv) : bytes :=
  enc (uint_codec 1) (version_ p) ++ enc PoolHash.hash_codec (previous_hash_ p) ++ enc (uint_codec 8) (sequence_ p)
  ++ enc Tx.fields_codec (user_fields_ p) ++ enc amount_codec (roundCost_ p)
  ++ enc (uint_codec 4) (u32 (Z.of_nat (length (transactions_ p)))) ++ enc_list Tx.tx_codec (transactions_ p)
  ++ enc (uint_codec 4) (u32 (Z.of_nat (length (newWallets_ p)))) ++ enc_list wallet_codec (newWallets_ p)
  ++ enc (uint_codec 1) (numberTrusted_ p) ++ enc (uint_codec 8) (realTrusted_ p)
  ++ enc_list (array_codec kPublicKeySize) (confidants_ p)
  ++ enc (uint_codec 1) (numberConfirmations_ p) ++ enc (uint_codec 8) (roundConfirmationMask_ p)
  ++ enc_list (array_codec kSignatureSize) (roundConfirmations_ p).

Definition tail_enc (p : priv) : bytes :=
  enc_list (array_codec kSignatureSize) (signatures_ p)
  ++ enc (uint_codec 1) (u8 (Z.of_nat (length (smartSignatures_ p)))) ++ enc_list smart_codec (smartSignatures_ p).

(** A pool whose counts agree with its vectors and whose values fit. *)
Record wf_pool (p : priv) : Prop := {
  wf_version : in_u 8 (version_ p);
  wf_previous : PoolHash.wf_hash (previous_hash_ p);
  wf_sequence : in_u 64 (sequence_ p);
  wf_fields : wf Tx.fields_codec (user_fields_ p);
  wf_cost : wf_amount (roundCost_ p);
  wf_trx_count : in_u 32 (Z.of_nat (length (transactions_ p)));
  wf_trx : Forall Tx.wf_tx (transactions_ p);
  wf_wallet_count : in_u 32 (Z.of_nat (length (newWallets_ p)));
  wf_wallets : Forall wf_wallet (newWallets_ p);
  wf_trusted : in_u 8 (numberTrusted_ p);
  wf_real : in_u 64 (realTrusted_ p);
  wf_conf_count : numberTrusted_ p = Z.of_nat (length (confidants_ p));
  wf_conf : Forall (fun k => length k = kPublicKeySize) (confidants_ p);
  wf_nconf : in_u 8 (numberConfirmations_ p);
  wf_mask : in_u 64 (roundConfirmationMask_ p);
  wf_rc_count : popcount (roundConfirmationMask_ p) = Z.of_nat (length (roundConfirmations_ p));
  wf_rc : Forall (fun k => length k = kSignatureSize) (roundConfirmations_ p);
  wf_sig_count : popcount (realTrusted_ p) = Z.of_nat (length (signatures_ p));
  wf_sigs : Forall (fun k => length k = kSignatureSize) (signatures_ p);
  wf_smart : wf (list_codec 1 smart_codec) (smartSignatures_ p);
  wf_length : in_u 64 (Z.of_nat (length (hashed_enc p)))
}.

Context `{!CscryptoLaws _}.

Lemma put_hashed_app p os : put_hashed p os = os ++ hashed_enc p.
Proof.
  unfold put_hashed, hashed_enc.
  rewrite (put_list_app (array_codec kSignatureSize)), (put_app (c := uint_codec 8)), (put_app (c := uint_codec 1)),
    (put_list_app (array_codec kPublicKeySize)), (put_app (c := uint_codec 8)), (put_app (c := uint_codec 1)),
    (put_list_app wallet_codec), (put_app (c := uint_codec 4)), (put_list_app Tx.tx_codec),
    (put_app (c := uint_codec 4)), (put_app (c := amount_codec)), (put_app (c := Tx.fields_codec)),
    (put_app (c := uint_codec 8)), (put_app (c := PoolHash.hash_codec)), (put_app (c := uint_codec 1)).
  by rewrite <- !app_assoc.
Qed.

Lemma put_pool_app p :
  put_pool p false [] =
  (hashed_enc p ++ enc (uint_codec 8) (Z.of_nat (length (hashed_enc p))) ++ tail_enc p,
   p <| hashingLength_ := Z.of_nat (length (hashed_enc p)) |>).
Proof.
  unfold put_pool, tail_enc. rewrite put_hashed_app, app_nil_l. cbn [upd hashingLength_ signatures_ smartSignatures_].
  rewrite (put_list_app smart_codec), (put_app (c := uint_codec 1)), (put_list_app (array_codec _)),
    (put_app (c := uint_codec 8)). by rewrite <- !app_assoc.
Qed.

Lemma to_byte_stream_for_sig_enc p : to_byte_stream_for_sig p = hashed_enc p.
Proof. unfold to_byte_stream_for_sig, put_pool. cbn [fst]. by rewrite put_hashed_app. Qed.

(** The object [p0] after the hashed part of [p] was read into it. *)
Definition read_hashed (p0 p : priv) : priv :=
  mkPool true (read_only_ p0) (version_ p) (hash_ p0) (previous_hash_ p) (sequence_ p) (confidants_ p)
    (map Tx.fresh (transactions_ p)) (Z.of_nat (length (transactions_ p))) (newWallets_ p) (user_fields_ p)
    (numberTrusted_ p) (realTrusted_ p) (numberConfirmations_ p) (roundConfirmationMask_ p)
    (Z.of_nat (length (hashed_enc p))) (roundCost_ p) (signatures_ p0) (roundConfirmations_ p)
    (smartSignatures_ p0) (binary_representation_ p0) (storage_ p0).

Lemma enc_fresh l : enc_list Tx.tx_codec (map Tx.fresh l) = enc_list Tx.tx_codec l.
Proof. by apply enc_list_ext; [exact _|]. Qed.

Lemma wf_fresh l : Forall Tx.wf_tx l -> Forall (wf Tx.tx_codec) (map Tx.fresh l).
Proof. intros Hl. apply Forall_map. eapply Forall_impl; [exact Hl|]. intros t Ht. split; [exact Ht|done]. Qed.

Lemma get_hashed_enc p0 p n rest :
  wf_pool p -> in_u 64 n ->
  get_hashed_data p0 (hashed_enc p ++ enc (uint_codec 8) n ++ rest)
  = Some ((read_hashed p0 p) <| hashingLength_ := n |>, rest).
Proof.
  intros [] Hn. unfold hashed_enc. rewrite <- enc_fresh, <- !app_assoc.
  unfold get_hashed_data, get_meta.
  rewrite get_put by eauto with cs. rewrite (get_put (c := PoolHash.hash_codec)) by done.
  rewrite get_put by eauto with cs. rewrite (get_put (c := Tx.fields_codec)) by done.
  rewrite (get_put (c := amount_codec)) by done. rewrite get_put by eauto with cs.
  unfold getTransactions. rewrite uwrap_id by done. rewrite Nat2Z.id.
  rewrite (get_list_put Tx.tx_codec) by (rewrite ?length_map; auto using wf_fresh).
  unfold getNewWallets. rewrite uwrap_id by done. rewrite get_put by eauto with cs. rewrite Nat2Z.id.
  rewrite (get_list_put wallet_codec) by done.
  rewrite get_put by eauto with cs. rewrite get_put by eauto with cs.
  unfold getConfidants. cbn [upd numberTrusted_]. rewrite wf_conf_count0, Nat2Z.id.
  rewrite (get_list_put (array_codec kPublicKeySize)) by done.
  unfold getTrustedConfirmation. rewrite get_put by eauto with cs. rewrite get_put by eauto with cs.
  rewrite popcount_u8, wf_rc_count0, Nat2Z.id. rewrite (get_list_put (array_codec kSignatureSize)) by done.
  rewrite get_put by eauto with cs. rewrite <- wf_conf_count0. done.
Qed.

(** *** Composing and reading back *)

Lemma updateHash_composed p :
  updateHash (update_binary_representation p <| read_only_ := true |>)
  = Some (update_binary_representation p <| read_only_ := true |>
      <| hash_ := PoolHash.calc_from_data (hashed_enc p) |>).
Proof.
  unfold updateHash, update_binary_representation, update_binary_representation_with. rewrite put_pool_app.
  cbn [upd binary_representation_ hashingLength_].
  destruct (Z.ltb_spec (Z.of_nat (length (hashed_enc p ++ enc (uint_codec 8) (Z.of_nat (length (hashed_enc p))) ++ tail_enc p)))
    (Z.of_nat (length (hashed_enc p)))) as [Hlt|_]; [rewrite length_app in Hlt; lia|].
  by rewrite Nat2Z.id, take_app_exact.
Qed.

(** What [compose] makes of a valid pool. *)
Definition composed (p : priv) : priv :=
  update_binary_representation p <| read_only_ := true |> <| hash_ := PoolHash.calc_from_data (hashed_enc p) |>
    <| transactions_ := number_transactions (sequence_ p) (transactions_ p) |>.

Lemma composed_binary p :
  binary_representation_ (composed p)
  = hashed_enc p ++ enc (uint_codec 8) (Z.of_nat (length (hashed_enc p))) ++ tail_enc p.
Proof. unfold composed, update_binary_representation, update_binary_representation_with. by rewrite put_pool_app. Qed.

Lemma compose_valid p :
  read_only_ p = false -> is_valid_ p = true -> compose p = Some (true, composed p).
Proof.
  intros Hr Hv. unfold compose, priv_compose. rewrite Hr, Hv. cbn [negb]. unfold update_transactions.
  rewrite updateHash_composed.
  unfold composed, update_binary_representation, update_binary_representation_with. rewrite put_pool_app.
  cbn [upd is_valid_]. by rewrite Hv.
Qed.

Lemma get_pool_enc p0 p rest :
  wf_pool p ->
  get_pool p0 (hashed_enc p ++ enc (uint_codec 8) (Z.of_nat (length (hashed_enc p))) ++ tail_enc p ++ rest)
  = Some (read_hashed p0 p <| signatures_ := signatures_ p |> <| smartSignatures_ := smartSignatures_ p |>, rest).
Proof.
  intros Hw. unfold get_pool. rewrite get_hashed_enc by (done || apply Hw). destruct Hw.
  unfold tail_enc. rewrite <- !app_assoc. unfold getSignatures. cbn [upd read_hashed realTrusted_].
  rewrite popcount_u8, wf_sig_count0, Nat2Z.id, (get_list_put (array_codec kSignatureSize)) by done.
  unfold getSmartSignatures. destruct wf_smart0 as [Hc Hs]. rewrite uwrap_id by done.
  rewrite get_put by eauto with cs. rewrite Nat2Z.id, (get_list_put smart_codec) by done. done.
Qed.

(** The pool a reader of the binary gets: [composed p] without what is not
    written (the storage handle, the times of the transactions). *)
Definition reread (p : priv) : priv :=
  composed p <| is_valid_ := true |> <| storage_ := 0%nat |> <| transactionsCount_ := Z.of_nat (length (transactions_ p)) |>
    <| transactions_ := number_transactions (sequence_ p) (map Tx.fresh (transactions_ p)) |>.

(** The binary of a composed pool, read whole, only for its hash, and only as far as its transactions *)
Lemma composed_readable p (bin := binary_representation_ (composed p)) :
  wf_pool p ->
  from_binary bin = Some (reread p) /\ hash_from_binary bin = Some (hash_ (composed p)) /\
  exists q, meta_from_binary bin = (q, Some (Z.of_nat (length (transactions_ p)))) /\
    is_valid_ q = true /\ sequence_ q = sequence_ p /\ previous_hash_ q = previous_hash_ p /\ transactions_ q = [] /\
    newWallets_ q = [] /\ confidants_ q = [] /\ numberTrusted_ q = 0 /\ realTrusted_ q = 0 /\ hash_ q = [] /\ hashingLength_ q = 0.
Proof.
  intros Hw. subst bin. rewrite composed_binary.
  set (bin := hashed_enc p ++ _). assert (length (hashed_enc p) <= length bin)%nat as Hl.
  { unfold bin. rewrite length_app. lia. }
  assert ((Z.of_nat (length bin) <? Z.of_nat (length (hashed_enc p))) = false) as Hb by (apply Z.ltb_ge; lia).
  assert (take (length (hashed_enc p)) bin = hashed_enc p) as Ht by by apply take_app_exact.
  split_and!.
  - unfold from_binary. replace bin with (bin ++ []) at 1 by apply app_nil_r. unfold bin at 1.
    rewrite <- !app_assoc, get_pool_enc by done. unfold update_transactions, updateHash, update_binary_representation_with.
    cbn [upd binary_representation_ hashingLength_ read_hashed]. rewrite Hb, Nat2Z.id, Ht.
    unfold reread, composed, update_binary_representation, update_binary_representation_with. rewrite put_pool_app.
    reflexivity.
  - unfold hash_from_binary. unfold bin at 1. rewrite get_hashed_enc by (done || apply Hw).
    unfold updateHash, update_binary_representation_with.
    cbn [upd binary_representation_ hashingLength_ read_hashed]. by rewrite Hb, Nat2Z.id, Ht.
  - unfold meta_from_binary. unfold bin at 1. destruct Hw. unfold get_meta, hashed_enc. rewrite <- !app_assoc.
    rewrite get_put by eauto with cs. rewrite (get_put (c := PoolHash.hash_codec)) by done.
    rewrite get_put by eauto with cs. rewrite (get_put (c := Tx.fields_codec)) by done.
    rewrite (get_put (c := amount_codec)) by done. rewrite get_put by eauto with cs. rewrite uwrap_id by done. by eexists.
Qed.

(** Composing a valid writable pool and reading its binary back gives the composed pool (what is
    not written apart), with the transactions numbered and the same hash, which is the hash of the
    bytes to_byte_stream_for_sig gives. *)
Theorem from_binary_compose p :
  read_only_ p = false -> is_valid_ p = true -> wf_pool p ->
  exists q, compose p = Some (true, q) /\
    from_binary (to_binary q) = Some (reread p) /\
    hash_from_binary (to_binary q) = Some (hash_ q) /\
    hash_ q = calculateHash (to_byte_stream_for_sig p).
Proof.
  intros Hr Hv Hw. exists (composed p). rewrite compose_valid by done. split; [done|].
  destruct (composed_readable p Hw) as (E1 & E2 & _). split; [exact E1|]. split; [exact E2|].
  by rewrite to_byte_stream_for_sig_enc.
Qed.

(** *** Input that [compose] did not write *)

Lemma get_meta_mono p : mono (get_meta p).
Proof. intros s a r x. unfold get_meta. codec_mono. by intros [= <- <-]. Qed.
Lemma getTransactions_mono p cnt : mono (getTransactions p cnt).
Proof. intros s a r x. unfold getTransactions. codec_list_mono. by intros [= <- <-]. Qed.
Lemma getNewWallets_mono p : mono (getNewWallets p).
Proof. intros s a r x. unfold getNewWallets. codec_mono. codec_list_mono. by intros [= <- <-]. Qed.
Lemma getConfidants_mono p : mono (getConfidants p).
Proof. intros s a r x. unfold getConfidants. codec_list_mono. by intros [= <- <-]. Qed.
Lemma getTrustedConfirmation_mono p : mono (getTrustedConfirmation p).
Proof. intros s a r x. unfold getTrustedConfirmation. codec_mono. codec_list_mono. by intros [= <- <-]. Qed.
Lemma getSignatures_mono p : mono (getSignatures p).
Proof. intros s a r x. unfold getSignatures. codec_list_mono. by intros [= <- <-]. Qed.
Lemma getSmartSignatures_mono p : mono (getSmartSignatures p).
Proof. intros s a r x. unfold getSmartSignatures. codec_mono. codec_list_mono. by intros [= <- <-]. Qed.

Lemma get_hashed_mono p : mono (get_hashed_data p).
Proof.
  intros s q r x. unfold get_hashed_data. mono_step (get_meta_mono p). destruct p0 as [p1 cnt].
  mono_step (getTransactions_mono p1 cnt). mono_step (getNewWallets_mono p0). codec_mono.
  match goal with |- context [getConfidants ?p2 _] => mono_step (getConfidants_mono p2) end.
  match goal with |- context [getTrustedConfirmation ?p2 _] => mono_step (getTrustedConfirmation_mono p2) end.
  codec_mono. by intros [= <- <-].
Qed.

Lemma get_pool_mono p : mono (get_pool p).
Proof.
  intros s q r x. unfold get_pool. mono_step (get_hashed_mono p). mono_step (getSignatures_mono p0).
  mono_step (getSmartSignatures_mono p1). by intros [= <- <-].
Qed.

(** Every strict prefix of the binary of a composed pool is refused: from_binary returns the
    default pool. *)
Theorem pool_truncated p q s x :
  read_only_ p = false -> is_valid_ p = true -> wf_pool p -> compose p = Some (true, q) ->
  to_binary q = s ++ x -> x <> [] -> from_binary s = Some default.
Proof.
  intros Hr Hv Hw Hc Hs Hx. rewrite compose_valid in Hc by done. injection Hc as <-.
  unfold to_binary in Hs. rewrite composed_binary in Hs.
  unfold from_binary. destruct (get_pool default s) as [[q r]|] eqn:G; [|done].
  apply (get_pool_mono _ _ _ _ x) in G. rewrite <- Hs in G.
  pose proof (get_pool_enc default p [] Hw) as E. rewrite app_nil_r, G in E. injection E as _ E.
  by destruct r, x.
Qed.

(** from_binary trusts the hashing length a block carries: with the length n in place of the real
    one the block is read as valid with the hash of its first n bytes, and n beyond the data makes
    the hash read out of bounds. *)
Theorem from_binary_any_hashing_length p n :
  wf_pool p -> in_u 64 n ->
  let data := hashed_enc p ++ enc (uint_codec 8) n ++ tail_enc p in
  if Z.of_nat (length data) <? n then from_binary data = None
  else exists q, from_binary data = Some q /\ is_valid_ q = true /\
    hash_ q = calculateHash (take (Z.to_nat n) data) /\
    transactions_ q = number_transactions (sequence_ p) (map Tx.fresh (transactions_ p)).
Proof.
  intros Hw Hn data. assert (get_pool default data =
    Some (read_hashed default p <| hashingLength_ := n |> <| signatures_ := signatures_ p |>
      <| smartSignatures_ := smartSignatures_ p |>, [])) as G.
  { unfold get_pool, data. rewrite get_hashed_enc by done. destruct Hw.
    unfold tail_enc. rewrite <- (app_nil_r (enc_list smart_codec _)).
    unfold getSignatures. cbn [upd read_hashed realTrusted_].
    rewrite popcount_u8, wf_sig_count0, Nat2Z.id, (get_list_put (array_codec kSignatureSize)) by done.
    unfold getSmartSignatures. destruct wf_smart0 as [Hc Hs]. rewrite uwrap_id by done.
    rewrite get_put by eauto with cs. rewrite Nat2Z.id, (get_list_put smart_codec) by done. done. }
  unfold from_binary. rewrite G. unfold update_transactions, updateHash, update_binary_representation_with.
  cbn [upd binary_representation_ hashingLength_]. destruct (Z.of_nat (length data) <? n); [done|].
  eexists. split; [done|]. done.
Qed.

(** *** A composed pool is frozen *)

Inductive op : Set :=
  | AddTransaction (t : Transaction) | SetVersion (v : Z) | SetSequence (v : Z) | SetRoundCost (a : Amount)
  | SetPreviousHash (h : PoolHash.t) | SetConfidants (l : list bytes) | SetSignatures (l : list bytes)
  | AddSmartSignature (s : SmartSignature) | AddRoundConfirmations (l : list bytes) | AddRealTrusted (m : Z)
  | AddConfirmationMask (m : Z) | AddNumberTrusted (n : Z) | AddNumberConfirmations (n : Z)
  | SetStorage (h : nat) | EditNewWallets (f : list NewWalletInfo -> list NewWalletInfo)
  | AddUserField (id : Z) (f : UserField) | Recount | Compose.

Definition run_op (p : priv) (o : op) : option priv :=
  match o with
  | AddTransaction t => Some (snd (add_transaction t p))
  | SetVersion v => Some (set_version v p)
  | SetSequence v => Some (set_sequence v p)
  | SetRoundCost a => Some (setRoundCost a p)
  | SetPreviousHash h => Some (set_previous_hash h p)
  | SetConfidants l => Some (set_confidants l p)
  | SetSignatures l => Some (set_signatures l p)
  | AddSmartSignature s => Some (add_smart_signature s p)
  | AddRoundConfirmations l => Some (add_round_confirmations l p)
  | AddRealTrusted m => Some (add_real_trusted m p)
  | AddConfirmationMask m => Some (add_confirmation_mask m p)
  | AddNumberTrusted n => Some (add_number_trusted n p)
  | AddNumberConfirmations n => Some (add_number_confirmations n p)
  | SetStorage h => Some (set_storage h p)
  | EditNewWallets f => Some (edit_newWallets f p)
  | AddUserField id f => Some (snd (add_user_field id f p))
  | Recount => Some (recount p)
  | Compose => option_map snd (compose p)
  end.

Fixpoint run_ops (p : priv) (ops : list op) : option priv :=
  match ops with
  | [] => Some p
  | o :: ops' => match run_op p o with Some p => run_ops p ops' | None => None end
  end.

(** What the operations of a composed pool cannot change. *)
Definition frozen (p : priv) :=
  (read_only_ p, hash_ p, binary_representation_ p, hashingLength_ p, version_ p, previous_hash_ p, sequence_ p,
   confidants_ p, transactions_ p, newWallets_ p, user_fields_ p, roundCost_ p, signatures_ p).

Lemma run_op_frozen p o : read_only_ p = true -> exists q, run_op p o = Some q /\ frozen q = frozen p.
Proof.
  intros Hr. destruct o; cbn [run_op]; unfold add_transaction, set_version, set_sequence, setRoundCost,
    set_previous_hash, set_confidants, set_signatures, edit_newWallets, add_user_field, compose;
    rewrite ?Hr; cbn [orb snd option_map]; eexists; (split; [done|]); reflexivity.
Qed.

(** A composed pool is frozen: no sequence of operations on it (setters guarded or not, adding
    transactions, composing again) changes its hash, its binary, its transactions or the other
    guarded fields, and hash() returns the composed hash. *)
Theorem composed_pool_frozen p ops :
  read_only_ p = false -> is_valid_ p = true ->
  exists q q', compose p = Some (true, q) /\ run_ops q ops = Some q' /\ frozen q' = frozen q /\
    hash q' = Some (hash_ q, q').
Proof.
  intros Hr Hv. exists (composed p). rewrite compose_valid by done.
  assert (forall p, read_only_ p = true -> exists q', run_ops p ops = Some q' /\ frozen q' = frozen p) as Hops.
  { induction ops as [|o ops IH]; intros p1 Hp1; cbn [run_ops]; [by exists p1|].
    destruct (run_op_frozen p1 o Hp1) as (p2 & E & F). rewrite E.
    destruct (IH p2) as (p3 & E3 & F3); [by injection F as ->|]. exists p3. by rewrite E3, F3. }
  destruct (Hops (composed p)) as (q' & E & F).
  { unfold composed. reflexivity. }
  exists q'. split_and!; [done..|]. unfold hash, PoolHash.is_empty.
  assert (hash_ q' = hash_ (composed p)) as -> by by injection F.
  assert (hash_ (composed p) = calculateHash (hashed_enc p)) as Eh by done.
  rewrite Eh, calculateHash_length. pose proof hash_size_pos.
  destruct (Nat.eqb_spec kHashSize 0); [lia|done].
Qed.

(** *** Look-up *)

(** In a composed pool the transaction with the pool's sequence and index i is the i-th one added,
    carrying that very id; looking it up by id or by index agree. *)
Theorem transaction_by_id_composed p q i t :
  read_only_ p = false -> is_valid_ p = true -> sequence_ p <> kWrongSequence ->
  compose p = Some (true, q) -> transactions_ p !! i = Some t ->
  transaction_by_id q (mkTransactionID (sequence_ p) (Z.of_nat i)) = Tx._update_id t (sequence_ p) (Z.of_nat i) /\
  id_ (transaction q i) = mkTransactionID (sequence_ p) (Z.of_nat i).
Proof.
  intros Hr Hv Hs Hc Ht. rewrite compose_valid in Hc by done. injection Hc as <-.
  assert (transactions_ (composed p) !! i = Some (Tx._update_id t (sequence_ p) (Z.of_nat i))) as Hq.
  { unfold composed. cbn [upd transactions_]. unfold number_transactions. by rewrite list_lookup_imap, Ht. }
  assert (is_valid_ (composed p) = true) as Hv'.
  { unfold composed, update_binary_representation, update_binary_representation_with. by rewrite put_pool_app. }
  assert (sequence_ (composed p) = sequence_ p) as Hseq.
  { unfold composed, update_binary_representation, update_binary_representation_with. by rewrite put_pool_app. }
  pose proof (lookup_lt_Some _ _ _ Hq) as Hl. apply (nth_lookup_Some _ _ Tx.default) in Hq.
  unfold transaction_by_id, transaction, TxId.is_valid. cbn [pool_seq_ index_].
  rewrite Hv', Hseq, Nat2Z.id, Hq, Z.eqb_refl. change (read_only_ (composed p)) with true.
  rewrite (proj2 (Z.eqb_neq _ _) Hs). cbn [negb orb].
  destruct (Z.leb_spec (Z.of_nat (length (transactions_ (composed p)))) (Z.of_nat i)); [lia|].
  destruct (Nat.ltb_spec i (length (transactions_ (composed p)))); [done|lia].
Qed.

Lemma last_by_spec party a l :
  (exists l1 t l2, l = l1 ++ t :: l2 /\ last_by party a (rev l) = t /\ Address.op_eq (party t) a = true /\
     Forall (fun u => Address.op_eq (party u) a = false) l2) \/
  (last_by party a (rev l) = Tx.default /\ Forall (fun u => Address.op_eq (party u) a = false) l).
Proof.
  induction l as [|t l IH] using rev_ind; [by right|].
  rewrite rev_app_distr. cbn [rev app last_by]. destruct (Address.op_eq (party t) a) eqn:E.
  - left. exists l, t, []. split_and!; done.
  - destruct IH as [(l1 & u & l2 & -> & El & Eu & Hf)|[El Hf]].
    + left. exists l1, u, (l2 ++ [t]). split_and!; [by rewrite <- app_assoc|done|done|].
      apply Forall_app. split; [done|]. by constructor.
    + right. split; [done|]. apply Forall_app. split; [done|]. by constructor.
Qed.

(** [get_last_by_source] is the last transaction of that source, if any. *)
Theorem get_last_by_source_spec p source :
  is_valid_ p = true ->
  (exists l1 t l2, transactions_ p = l1 ++ t :: l2 /\ get_last_by_source p source = t /\
     Address.op_eq (source_ t) source = true /\ Forall (fun u => Address.op_eq (source_ u) source = false) l2) \/
  (get_last_by_source p source = Tx.default /\
     Forall (fun u => Address.op_eq (source_ u) source = false) (transactions_ p)).
Proof. intros Hv. unfold get_last_by_source. rewrite Hv. apply last_by_spec. Qed.

Lemma first_trusted_spec n v :
  let i := first_trusted (Utils.bits_loop n v) in
  (forall j, (j < i)%nat -> Z.testbit v (Z.of_nat j) = false) /\
  ((i < n)%nat /\ Z.testbit v (Z.of_nat i) = true \/ i = n).
Proof.
  revert v. induction n as [|n IH]; intros v; cbn [Utils.bits_loop first_trusted]; [split; [lia|by right]|].
  pose proof (Z.bit0_eqb v) as E0.
  destruct (v mod 2 =? 1) eqn:E; cbn [Z.eqb negb first_trusted].
  - split; [lia|]. left. split; [lia|done].
  - destruct (IH (v / 2)) as [Hlt Hi]. cbn [Pos.eqb negb].
    assert (forall j, Z.testbit (v / 2) (Z.of_nat j) = Z.testbit v (Z.of_nat (S j))) as Hd.
    { intros j. by rewrite Z.div2_bits, <- Nat2Z.inj_succ by lia. }
    split.
    + intros [|j] Hj; [done|]. rewrite <- Hd. apply Hlt. lia.
    + destruct Hi as [[Hi Ht]|Hi]; [left|right; lia]. split; [lia|]. by rewrite <- Hd.
Qed.

(** The writer's key is the first trusted confidant's; without one [at] throws. *)
Theorem writer_public_key_spec p :
  confidants_ p <> [] -> numberTrusted_ p = Z.of_nat (length (confidants_ p)) ->
  (exists i k, confidants_ p !! i = Some k /\ writer_public_key p = Ok k /\
     Z.testbit (realTrusted_ p) (Z.of_nat i) = true /\
     forall j, (j < i)%nat -> Z.testbit (realTrusted_ p) (Z.of_nat j) = false) \/
  (writer_public_key p = Throw out_of_range /\
     forall j, (j < length (confidants_ p))%nat -> Z.testbit (realTrusted_ p) (Z.of_nat j) = false).
Proof.
  intros Hne Hn. unfold writer_public_key, Utils.bitsToMask. rewrite Hn, Nat2Z.id.
  destruct (Nat.eqb_spec (length (confidants_ p)) 0) as [E|_]; [by apply nil_length_inv in E|].
  destruct (first_trusted_spec (length (confidants_ p)) (realTrusted_ p)) as [Hlt [[Hi Ht]|Hi]].
  - left. destruct (lookup_lt_is_Some_2 _ _ Hi) as [k Ek]. rewrite Ek. eexists _, k. split_and!; [exact Ek|done|done|done].
  - right. rewrite Hi in *. by rewrite lookup_ge_None_2 by lia.
Qed.
End pool.
End Pool.

(** ** Witnesses *)

Definition sample_key (n : Z) : bytes := le_bytes 32 n.
Definition sample_signature (n : Z) : bytes := le_bytes 64 n.

(** Two transactions, one new wallet, three confidants of which two signed. *)
Definition sample_pool : Pool.priv :=
  Pool.mkPool true false 1 [] (sample_key 11) 9 [sample_key 1; sample_key 2; sample_key 3]
    [sample_tx 1; sample_tx 2] 2 [Pool.mkNewWalletInfo 0 0 4] [(1, uf_of_uint 6)] 3 5 2 3 0 (mkAmount 0 700)
    [sample_signature 1; sample_signature 3] [sample_signature 1; sample_signature 2]
    [Pool.mkSmartSignature (sample_key 8) 4 [(0, sample_signature 5)]] [] 0.

Lemma sample_pool_wf : Pool.wf_pool sample_pool.
Proof.
  split; try (by apply (bool_decide_unpack _); vm_compute).
  - split; [repeat constructor|]. split; [vm_compute; reflexivity|].
    constructor; [|constructor]. split; by apply (bool_decide_unpack _); vm_compute.
  - constructor; [|constructor; [|constructor]]; by apply sample_tx_wf.
  - split; [by vm_compute|]. constructor; [|constructor]. split; [reflexivity|].
    split; [by apply (bool_decide_unpack _); vm_compute|]. split; [by vm_compute|].
    constructor; [|constructor]. split; [by vm_compute|reflexivity].
Qed.

Lemma from_binary_compose_witness :
  exists q, Pool.compose sample_pool = Some (true, q) /\
    Pool.from_binary (Pool.to_binary q) = Some (Pool.reread sample_pool) /\
    Pool.hash_from_binary (Pool.to_binary q) = Some (Pool.hash_ q) /\
    Pool.hash_ q = calculateHash (Pool.to_byte_stream_for_sig sample_pool).
Proof. apply (Pool.from_binary_compose sample_pool); [done|done|apply sample_pool_wf]. Defined.

Definition sample_composed : Pool.priv :=
  match Pool.compose sample_pool with Some (_, q) => q | None => Pool.default end.
Definition sample_pool_prefix : bytes := take 100 (Pool.to_binary sample_composed).

Lemma sample_composed_eq : Pool.compose sample_pool = Some (true, sample_composed).
Proof. vm_compute. reflexivity. Qed.

Lemma pool_truncated_witness : Pool.from_binary sample_pool_prefix = Some Pool.default.
Proof.
  apply (Pool.pool_truncated sample_pool sample_composed sample_pool_prefix (drop 100 (Pool.to_binary sample_composed)));
    [done|done|apply sample_pool_wf|apply sample_composed_eq| |].
  - unfold sample_pool_prefix. by rewrite take_drop.
  - by apply (bool_decide_unpack _); vm_compute.
Defined.

Lemma from_binary_any_hashing_length_witness :
  let data := Pool.hashed_enc sample_pool ++ enc (uint_codec 8) 5 ++ Pool.tail_enc sample_pool in
  if Z.of_nat (length data) <? 5 then Pool.from_binary data = None
  else exists q, Pool.from_binary data = Some q /\ Pool.is_valid_ q = true /\
    Pool.hash_ q = calculateHash (take (Z.to_nat 5) data) /\
    Pool.transactions_ q =
      Pool.number_transactions (Pool.sequence_ sample_pool) (map Tx.fresh (Pool.transactions_ sample_pool)).
Proof. apply (Pool.from_binary_any_hashing_length sample_pool 5); [apply sample_pool_wf|unfold in_u; lia]. Defined.

Lemma composed_pool_frozen_witness :
  let ops := [Pool.SetSequence 3; Pool.AddTransaction (sample_tx 3); Pool.AddRealTrusted 7; Pool.Compose] in
  exists q q', Pool.compose sample_pool = Some (true, q) /\ Pool.run_ops q ops = Some q' /\
    Pool.frozen q' = Pool.frozen q /\ Pool.hash q' = Some (Pool.hash_ q, q').
Proof. apply (Pool.composed_pool_frozen sample_pool); done. Defined.

Lemma transaction_by_id_composed_witness :
  Pool.transaction_by_id sample_composed (mkTransactionID 9 1) = Tx._update_id (sample_tx 2) 9 1 /\
  id_ (Pool.transaction sample_composed 1) = mkTransactionID 9 1.
Proof.
  apply (Pool.transaction_by_id_composed sample_pool sample_composed 1 (sample_tx 2));
    [done|done|done|apply sample_composed_eq|done].
Defined.
