(* ===== verification/Database.v ===== *)
(** * The database of blocks

    [csdb/include/csdb/database.hpp] is an abstract class: what the storage calls
    is [Database], what it relies on is [DatabaseLaws] (a table from numbers to
    blocks and one from hashes to numbers).  [BerkeleyDB] models
    [csdb/src/database_berkeleydb.cpp], the implementation that the node uses,
    and satisfies the laws; that it does not keep the promise of [seq_no] is
    shown here.

    Berkeley DB is a third-party library: a table is a finite map, a recno table
    has no record zero, and an operation fails only for a missing record or
    key.  Transactions, the log files and the error texts are left out. *)

From Stdlib Require Import ZArith Lia Sorted.
From stdpp Require Import base tactics numbers option list gmap sorting.
From S2P Require Import Prelude.

Local Open Scope Z_scope.
Local Open Scope cs_scope.

Class Database (B : Type) := {
  db_is_open : B -> bool;
  (** [put(key, seq_no, value)] *)
  db_put : bytes -> Z -> bytes -> B -> bool * B;
  (** [get(key)], [get(key, &value)], [get(seq_no, &value)] *)
  db_has : bytes -> B -> bool;
  db_get : bytes -> B -> option bytes;
  db_get_no : Z -> B -> option bytes;
  db_remove : bytes -> B -> bool * B;
  (** [seq_no(key, &value)]: the sequence of a block's hash *)
  db_seq_no : bytes -> B -> option Z;
  (** keys and values as an iterator gives them from [seek_to_first] on *)
  db_items : B -> list (Z * bytes);
  db_update_contract : bytes -> bytes -> B -> bool * B;
  db_get_contract : bytes -> B -> option bytes
}.

(** The numbers that fit: [seq_no + 1] is a record number of 32 bits. *)
Definition number_ok (n : Z) : Prop := 0 <= n < 4294967295.

Class DatabaseLaws {B} (DB : Database B) (ok : B -> Prop) (rows : B -> gmap Z bytes) (names : B -> gmap bytes Z) : Prop := {
  db_ok_open b : ok b -> db_is_open b = true;
  db_put_spec key n v b : ok b -> number_ok n ->
    exists b', db_put key n v b = (true, b') /\ ok b' /\ rows b' = <[n := v]> (rows b) /\ names b' = <[key := n]> (names b);
  db_has_spec key b : ok b -> db_has key b = bool_decide (is_Some (names b !! key));
  db_get_spec key b : ok b -> db_get key b = names b !! key ≫= fun n => rows b !! n;
  db_get_no_spec n b : ok b -> number_ok n -> db_get_no n b = rows b !! n;
  db_remove_spec key b : ok b ->
    exists done b', db_remove key b = (done, b') /\ ok b' /\
    match names b !! key with
    | None => done = false /\ rows b' = rows b /\ names b' = names b
    | Some n => done = bool_decide (is_Some (rows b !! n)) /\ rows b' = delete n (rows b) /\ names b' = delete key (names b)
    end;
  db_items_spec b : ok b ->
    StronglySorted (fun x y => x.1 < y.1) (db_items b) /\ forall n v, (n, v) ∈ db_items b <-> rows b !! n = Some v
}.

Module BerkeleyDB.

(** The three tables, once [open] has succeeded *)
Record Tables := mkTables {
  db_blocks_ : gmap Z bytes;
  db_seq_no_ : gmap bytes Z;
  db_contracts_ : gmap bytes bytes
}.
#[export] Instance eta_tables : Eta Tables := fun t => mkTables (db_blocks_ t) (db_seq_no_ t) (db_contracts_ t).

Definition t := option Tables.

Definition is_open (b : t) : bool := bool_decide (is_Some b).

Definition put (key : bytes) (seq_no : Z) (value : bytes) (b : t) : bool * t :=
  match b with
  | None => (false, b)
  | Some tables =>
      let db_seq_no := u32 (seq_no + 1) in
      if db_seq_no =? 0 then (false, b)
      else (true, Some (tables <| db_blocks_ := <[db_seq_no := value]> (db_blocks_ tables) |>
                               <| db_seq_no_ := <[key := db_seq_no]> (db_seq_no_ tables) |>))
  end.

Definition has (key : bytes) (b : t) : bool :=
  match b with None => false | Some tables => bool_decide (is_Some (db_seq_no_ tables !! key)) end.

Definition get (key : bytes) (b : t) : option bytes :=
  tables ← b; db_seq_no ← db_seq_no_ tables !! key; db_blocks_ tables !! db_seq_no.

Definition get_no (seq_no : Z) (b : t) : option bytes := tables ← b; db_blocks_ tables !! u32 (seq_no + 1).

(** [remove]: the hash goes first, whatever happens to the block. *)
Definition remove (key : bytes) (b : t) : bool * t :=
  match b with
  | None => (false, b)
  | Some tables =>
      match db_seq_no_ tables !! key with
      | None => (false, b)
      | Some db_seq_no =>
          let tables := tables <| db_seq_no_ := delete key (db_seq_no_ tables) |> in
          match db_blocks_ tables !! db_seq_no with
          | None => (false, Some tables)
          | Some _ => (true, Some (tables <| db_blocks_ := delete db_seq_no (db_blocks_ tables) |>))
          end
      end
  end.

Definition seq_no (key : bytes) (b : t) : option Z := tables ← b; db_seq_no_ tables !! key.

(** The cursor: records in the order of their numbers; [set_key] makes the keys 0-based. *)
Definition record_le (x y : Z * bytes) : Prop := x.1 <= y.1.
#[export] Instance record_le_trans : Transitive record_le.
Proof. intros x y z. unfold record_le. lia. Qed.
#[export] Instance record_le_total : Total record_le.
Proof. intros x y. unfold record_le. lia. Qed.
#[export] Instance record_le_dec : RelDecision record_le := fun x y => decide (x.1 <= y.1).
Definition items (b : t) : list (Z * bytes) :=
  match b with
  | None => []
  | Some tables => map (fun x => (u32 (x.1 - 1), x.2)) (merge_sort record_le (map_to_list (db_blocks_ tables)))
  end.

Definition updateContractData (key data : bytes) (b : t) : bool * t :=
  match b with
  | None => (false, b)
  | Some tables => (true, Some (tables <| db_contracts_ := <[key := data]> (db_contracts_ tables) |>))
  end.
Definition getContractData (key : bytes) (b : t) : option bytes := tables ← b; db_contracts_ tables !! key.

#[global] Instance berkeley : Database t := {|
  db_is_open := is_open; db_put := put; db_has := has; db_get := get; db_get_no := get_no; db_remove := remove;
  db_seq_no := seq_no; db_items := items; db_update_contract := updateContractData; db_get_contract := getContractData |}.

(** ** The implementation satisfies the interface *)

Definition ok (b : t) : Prop :=
  match b with
  | None => False
  | Some tables => forall n, is_Some (db_blocks_ tables !! n) -> 1 <= n < 4294967296
  end.
Definition rows (b : t) : gmap Z bytes := match b with None => ∅ | Some tables => kmap Z.pred (db_blocks_ tables) end.
Definition names (b : t) : gmap bytes Z := match b with None => ∅ | Some tables => Z.pred <$> db_seq_no_ tables end.

#[local] Instance pred_inj : Inj (=) (=) Z.pred.
Proof. intros x y H. lia. Qed.

Lemma rows_lookup tables n : rows (Some tables) !! n = db_blocks_ tables !! (n + 1).
Proof. cbn [rows]. replace n with (Z.pred (n + 1)) at 1 by lia. apply (lookup_kmap Z.pred). Qed.

Lemma record_number n : number_ok n -> u32 (n + 1) = n + 1.
Proof. unfold number_ok. intros H. apply uwrap_id. unfold in_u. lia. Qed.

Lemma items_sorted tables : ok (Some tables) -> StronglySorted (fun x y => x.1 < y.1) (items (Some tables)).
Proof.
  intros Hok. cbn [items]. set (l := merge_sort record_le (map_to_list (db_blocks_ tables))).
  assert (l ≡ₚ map_to_list (db_blocks_ tables)) as Hp by apply merge_sort_Permutation.
  assert (NoDup (l.*1)) as Hn by (rewrite Hp; apply NoDup_fst_map_to_list).
  assert (Forall (fun x => 1 <= x.1 < 4294967296) l) as Hf.
  { rewrite Hp. apply Forall_forall. intros [n v] Hin%elem_of_map_to_list. apply Hok. by exists v. }
  assert (StronglySorted record_le l) as Hs.
  { apply (StronglySorted_merge_sort record_le). }
  clearbody l. clear Hp. induction Hs as [|x l Hs IH Hx]; cbn [map fmap list_fmap] in *; [constructor|].
  apply NoDup_cons in Hn as [Hnx Hn]. apply Forall_cons in Hf as [Rx Hf].
  constructor; [by apply IH|]. apply Forall_map, Forall_forall. intros y Hy. cbn [fst].
  rewrite Forall_forall in Hx, Hf. specialize (Hx y Hy). specialize (Hf y Hy). unfold record_le in Hx.
  assert (x.1 <> y.1) by (intros E; apply Hnx; rewrite E; by apply list_elem_of_fmap_2).
  rewrite !uwrap_id by (unfold in_u; lia). lia.
Qed.

Lemma items_elem tables n v : ok (Some tables) -> (n, v) ∈ items (Some tables) <-> rows (Some tables) !! n = Some v.
Proof.
  intros Hok. rewrite rows_lookup. cbn [items]. rewrite list_elem_of_In, in_map_iff. setoid_rewrite <- list_elem_of_In.
  setoid_rewrite (merge_sort_Permutation record_le). setoid_rewrite elem_of_map_to_list'. split.
  - intros ([k w] & [= <- <-] & E). cbn [fst snd] in *. pose proof (Hok k ltac:(by exists w)).
    rewrite uwrap_id by (unfold in_u; lia). by replace (k - 1 + 1) with k by lia.
  - intros E. pose proof (Hok (n + 1) ltac:(by exists v)). exists (n + 1, v). cbn [fst snd]. split; [|done].
    rewrite uwrap_id by (unfold in_u; lia). f_equal. lia.
Qed.

#[global] Instance berkeley_laws : DatabaseLaws berkeley ok rows names.
Proof.
  split.
  - by intros [tables|].
  - intros key n v [tables|] Hok Hn; [|done]. cbn [db_put berkeley put]. rewrite record_number by done.
    destruct (Z.eqb_spec (n + 1) 0) as [E|_]; [unfold number_ok in Hn; lia|]. eexists. split; [done|]. split_and!.
    + intros k. cbn [upd db_blocks_]. rewrite lookup_insert_is_Some. unfold number_ok in Hn. intros [<-|[_ E]]; [lia|]. by apply Hok.
    + cbn [rows upd db_blocks_]. rewrite (kmap_insert Z.pred). by replace (Z.pred (n + 1)) with n by lia.
    + cbn [names upd db_seq_no_]. rewrite fmap_insert. by replace (Z.pred (n + 1)) with n by lia.
  - intros key [tables|] Hok; [|done]. cbn. rewrite lookup_fmap. apply bool_decide_ext. by rewrite fmap_is_Some.
  - intros key [tables|] Hok; [|done]. change (db_get key (Some tables)) with (db_seq_no_ tables !! key ≫= fun n => db_blocks_ tables !! n).
    cbn [names]. rewrite lookup_fmap. destruct (db_seq_no_ tables !! key) as [n|]; [|reflexivity].
    change (db_blocks_ tables !! n = rows (Some tables) !! Z.pred n). rewrite rows_lookup. f_equal. lia.
  - intros n [tables|] Hok Hn; [|done]. change (db_get_no n (Some tables)) with (db_blocks_ tables !! u32 (n + 1)).
    by rewrite record_number, rows_lookup by done.
  - intros key [tables|] Hok; [|done]. cbn [db_remove berkeley remove names]. rewrite lookup_fmap.
    destruct (db_seq_no_ tables !! key) as [n|] eqn:En; cbn [fmap option_fmap option_map]; [|by do 2 eexists].
    rewrite rows_lookup. replace (Z.pred n + 1) with n by lia. cbn [upd db_blocks_].
    destruct (db_blocks_ tables !! n) as [v|] eqn:Ev; do 2 eexists; (split; [done|]); split_and!.
    + intros k. cbn [upd db_blocks_]. rewrite lookup_delete_is_Some. intros [_ E]. by apply Hok.
    + by rewrite bool_decide_true by by exists v.
    + cbn [rows upd db_blocks_]. by rewrite (kmap_delete Z.pred).
    + cbn [names upd db_seq_no_]. by rewrite fmap_delete.
    + done.
    + rewrite bool_decide_false; [done|]. intros [? [=]].
    + cbn [rows upd db_blocks_]. rewrite delete_id; [done|]. by rewrite (lookup_kmap Z.pred).
    + cbn [names upd db_seq_no_]. by rewrite fmap_delete.
  - intros [tables|] Hok; [|done]. split; [by apply items_sorted|]. intros n v. by apply items_elem.
Qed.

(** After a block is put under a number, seq_no of its hash is the number plus one: the 1-based
    record number of the table, not the sequence that the interface promises. *)
Theorem seq_no_off_by_one key n v b :
  ok b -> number_ok n -> forall b', put key n v b = (true, b') -> seq_no key b' = Some (n + 1) /\ get_no n b' = Some v.
Proof.
  intros Hok Hn b'. destruct b as [tables|]; [|done]. cbn [put]. rewrite record_number by done.
  destruct (n + 1 =? 0); [done|]. intros [= <-]. unfold seq_no, get_no. cbn [mbind option_bind upd db_seq_no_ db_blocks_].
  by rewrite record_number, !lookup_insert_eq by done.
Qed.

End BerkeleyDB.

Lemma seq_no_off_by_one_witness :
  BerkeleyDB.ok (Some (BerkeleyDB.mkTables ∅ ∅ ∅)) /\ number_ok 7 /\
  exists b', BerkeleyDB.put [1; 2] 7 [3] (Some (BerkeleyDB.mkTables ∅ ∅ ∅)) = (true, b') /\
    BerkeleyDB.seq_no [1; 2] b' = Some (7 + 1) /\ BerkeleyDB.get_no 7 b' = Some [3].
Proof.
  assert (BerkeleyDB.ok (Some (BerkeleyDB.mkTables ∅ ∅ ∅))) as Hok by (intros n [v E]; cbn in E; by rewrite lookup_empty in E).
  assert (number_ok 7) as Hn by (unfold number_ok; lia). split; [exact Hok|]. split; [exact Hn|].
  eexists. split; [reflexivity|]. apply (BerkeleyDB.seq_no_off_by_one [1; 2] 7 [3] _ Hok Hn). reflexivity.
Defined.
