(* ===== verification/Storage.v ===== *)
(** * The storage of blocks ([csdb/src/storage.cpp])

    The blocks in a [Database], with the hash of the last one, their number, and
    a cache of 10000 blocks that is searched before the database.  What every
    operation does is here with all its branches, and that a storage behaves as
    a stack of linked blocks, as far as the cache lets it.

    The thread that wrote blocks is not started by the source any more: its queue
    is kept, nothing is ever added to it.  The text of the last error is left
    out.  Which element of the cache its hashed index puts first is a parameter. *)

From Stdlib Require Import ZArith Lia.
From stdpp Require Import base tactics numbers option list gmap.
From S2P Require Import Prelude Effect BinStream Amount UserField Crypto Address Utils Transaction Pool Database.

Local Open Scope Z_scope.
Local Open Scope cs_scope.

(** What is undefined when there is no value *)
Definition defined {A} (o : option A) : M A := match o with Some a => ret a | None => None end.

Record PoolElement := mkElement { pe_seq : Z; pe_hash : bytes; pe_pool : Pool.priv }.

(** The members of [Storage::priv] *)
Record Storage (B : Type) := mkStorage {
  db_ : option B;
  last_hash_ : bytes;
  count_pool : Z;
  pools_cache : list PoolElement;
  write_queue : list Pool.priv
}.
Arguments mkStorage {B}.
Arguments db_ {B}.
Arguments last_hash_ {B}.
Arguments count_pool {B}.
Arguments pools_cache {B}.
Arguments write_queue {B}.
#[export] Instance eta_storage {B} : Eta (Storage B) :=
  fun s => mkStorage (db_ s) (last_hash_ s) (count_pool s) (pools_cache s) (write_queue s).

Module Storage.

Definition cacheSize : Z := 10000.

Definition closed {B} : Storage B := mkStorage None [] 0 [] [].

Section storage.
Context `{!Cscrypto} {B : Type} `{!Database B} (begin : list PoolElement -> nat).
Implicit Types s : Storage B.

(** *** The cache *)

Definition find_seq (seq : Z) (l : list PoolElement) : option PoolElement := List.find (fun e => pe_seq e =? seq) l.
Definition find_hash (hash : bytes) (l : list PoolElement) : option PoolElement := List.find (fun e => PoolHash.op_eq (pe_hash e) hash) l.

(** Both indices are unique: [insert] does nothing when one has the key. *)
Definition cache_insert (e : PoolElement) (l : list PoolElement) : list PoolElement :=
  match find_seq (pe_seq e) l, find_hash (pe_hash e) l with None, None => l ++ [e] | _, _ => l end.

Definition pools_cache_insert (seq : Z) (hash : bytes) (pool : Pool.priv) s : Storage B :=
  let cache := pools_cache s in
  let cache := if Z.of_nat (length cache) =? cacheSize then delete (begin cache) cache else cache in
  s <| pools_cache := cache_insert (mkElement seq hash pool) cache |>.

(** *** Opening *)

(** [d->db] when [isOpen()] *)
Definition opened s : option B := b ← db_ s; if db_is_open b then Some b else None.
Definition isOpen s : bool := match opened s with Some _ => true | None => false end.

(** The loop of [rescan]; [on_block] receives [read_block_event] and may ask to stop. *)
Fixpoint rescan_loop {T} (on_block : Pool.priv -> T -> M (bool * T)) (callback : Z -> bool) (items : list (Z * bytes))
  (progress : Z) s (t : T) : M (bool * Storage B * T) :=
  match items with
  | [] => ret (true, s, t)
  | (_, v) :: items =>
      do! p := defined (Pool.from_binary v) in
      if negb (Pool.is_valid_ p) then ret (false, s, t)
      else
        do! (hash, p) := defined (Pool.hash p) in
        let s := pools_cache_insert (Pool.sequence_ p) hash p s in
        let s := s <| last_hash_ := hash |> <| count_pool := u64 (count_pool s + 1) |> in
        do! (test_failed, t) := on_block p t in
        if test_failed : bool then ret (false, s, t)
        else if callback (progress + 1) then ret (false, s, t)
        else rescan_loop on_block callback items (progress + 1) s t
  end.
Definition rescan {T} (on_block : Pool.priv -> T -> M (bool * T)) (callback : Z -> bool) (b : B) s (t : T) : M (bool * Storage B * T) :=
  rescan_loop on_block callback (db_items b) 0 (s <| last_hash_ := [] |> <| count_pool := 0 |>) t.

(** The loop that removes the blocks above a new top *)
Fixpoint remove_above (fuel : nat) (seqToRemove seqLast : Z) (b : B) : M (bool * B) :=
  match fuel with
  | O => None
  | S fuel =>
      if seqToRemove <=? seqLast then
        let poolBinary := db_get_no seqToRemove b in
        let seqToRemove := u32 (seqToRemove + 1) in
        match poolBinary with
        | None => remove_above fuel seqToRemove seqLast b
        | Some data =>
            do! hash := defined (Pool.hash_from_binary data) in
            if PoolHash.is_empty hash then
              match db_get_no seqToRemove b with
              | None => ret (false, b)
              | Some next =>
                  let next_pool := (Pool.meta_from_binary next).1 in
                  if negb (Pool.is_valid_ next_pool) then ret (false, b)
                  else
                    let '(removed, b) := db_remove (Pool.previous_hash_ next_pool) b in
                    if removed then remove_above fuel seqToRemove seqLast b else ret (false, b)
              end
            else
              let '(removed, b) := db_remove hash b in
              if removed then remove_above fuel seqToRemove seqLast b else ret (true, b)
        end
      else ret (true, b)
  end.

(** [open(opt, callback)] *)
Definition open {T} (fuel : nat) (on_block : Pool.priv -> T -> M (bool * T)) (callback : Z -> bool) (optdb : option B) (newBlockchainTop : Z) s (t : T)
  : M (bool * Storage B * T) :=
  match optdb with
  | None => ret (false, s, t)
  | Some b =>
      let s := s <| db_ := Some b |> in
      if negb (db_is_open b) then ret (false, s, t)
      else if negb (newBlockchainTop =? kWrongSequence) then
        let seqToRemove := u32 (newBlockchainTop + 1) in
        let seqLast := match last (db_items b) with Some (key, _) => if key =? 4294967295 then seqToRemove else key | None => seqToRemove end in
        do! (done, b) := remove_above fuel seqToRemove seqLast b in
        ret (done, s <| db_ := Some b |>, t)
      else
        do! (done, s, t) := rescan on_block callback b s t in
        ret (done, if done : bool then s else s <| db_ := None |>, t)
  end.

Definition close s : Storage B := s <| db_ := None |>.
Definition last_hash s : bytes := last_hash_ s.
Definition size s : Z := count_pool s.

(** *** Writing *)

Definition pool_save (pool : Pool.priv) s : M (bool * Storage B) :=
  match opened s with
  | None => ret (false, s)
  | Some b =>
      if negb (Pool.is_valid_ pool) then ret (false, s)
      else
        do! (hash, pool) := defined (Pool.hash pool) in
        if db_has hash b then ret (false, s)
        else
          let b := (db_put hash (u32 (Pool.sequence_ pool)) (Pool.to_binary pool) b).2 in
          let s := s <| db_ := Some b |> <| count_pool := u64 (count_pool s + 1) |> in
          let s := if PoolHash.op_eq (last_hash_ s) (Pool.previous_hash_ pool) then s <| last_hash_ := hash |> else s in
          ret (true, pools_cache_insert (Pool.sequence_ pool) hash pool s)
  end.

(** *** Reading *)

(** A block of the queue with the hash *)
Fixpoint queue_find (hash : bytes) (l : list Pool.priv) : M (option Pool.priv) :=
  match l with
  | [] => ret None
  | p :: l =>
      do! (h, p) := defined (Pool.hash p) in
      if PoolHash.op_eq h hash then ret (Some p) else queue_find hash l
  end.

(** [pool_load_internal]: the block and the number of its transactions, if it is written *)
Definition pool_load_internal (hash : bytes) (metaOnly : bool) s : M (Pool.priv * option Z * Storage B) :=
  match opened s with
  | None => ret (Pool.default, None, s)
  | Some b =>
      if PoolHash.is_empty hash then ret (Pool.default, None, s)
      else
        match find_hash hash (pools_cache s) with
        | Some e =>
            if negb (Pool.is_valid_ (pe_pool e)) then ret (Pool.default, None, s)
            else ret (pe_pool e, Some (Z.of_nat (length (Pool.transactions_ (pe_pool e)))), s)
        | None =>
            let checked res trxCnt s := ret (if negb (Pool.is_valid_ res) then Pool.default else res, trxCnt, s) in
            match db_get hash b with
            | Some data =>
                if metaOnly then let '(res, trxCnt) := Pool.meta_from_binary data in checked res trxCnt s
                else
                  do! res := defined (Pool.from_binary data) in
                  do! (h, res) := defined (Pool.hash res) in
                  checked res (Some (Z.of_nat (length (Pool.transactions_ res)))) (pools_cache_insert (Pool.sequence_ res) h res s)
            | None =>
                do! found := queue_find hash (write_queue s) in
                match found with
                | Some res => checked res (Some (Z.of_nat (length (Pool.transactions_ res)))) s
                | None => ret (Pool.default, None, s)
                end
            end
        end
  end.

Definition pool_load_hash (hash : bytes) s : M (Pool.priv * Storage B) :=
  do! r := pool_load_internal hash false s in ret (r.1.1, r.2).

(** [pool_load(sequence)] *)
Definition pool_load (sequence : Z) s : M (Pool.priv * Storage B) :=
  match opened s with
  | None => ret (Pool.default, s)
  | Some b =>
      match find_seq sequence (pools_cache s) with
      | Some e => ret (if negb (Pool.is_valid_ (pe_pool e)) then Pool.default else pe_pool e, s)
      | None =>
          match db_get_no (u32 sequence) b with
          | Some data =>
              do! res := defined (Pool.from_binary data) in
              do! (h, res) := defined (Pool.hash res) in
              ret (res, pools_cache_insert (Pool.sequence_ res) h res s)
          | None => ret (default Pool.default (List.find (fun p => Pool.sequence_ p =? sequence) (write_queue s)), s)
          end
      end
  end.

(** [pool_load_meta]: the block and [cnt] *)
Definition pool_load_meta (hash : bytes) s : M (Pool.priv * option Z) :=
  match opened s with
  | None => ret (Pool.default, None)
  | Some b =>
      if PoolHash.is_empty hash then ret (Pool.default, None)
      else
        do! found := queue_find hash (write_queue s) in
        match found with
        | Some res => ret (res, None)
        | None => match db_get hash b with None => ret (Pool.default, None) | Some data => ret (Pool.meta_from_binary data) end
        end
  end.

(** *** Removing *)

(** [write_queue_pop] *)
Definition write_queue_pop s : option (Pool.priv * Storage B) :=
  res ← last (write_queue s); Some (res, s <| write_queue := removelast (write_queue s) |>).

Definition pool_remove_last s : M (Pool.priv * Storage B) :=
  match opened s with
  | None => ret (Pool.default, s)
  | Some b =>
      match write_queue_pop s with
      | Some (res, s) => ret (res, s <| last_hash_ := Pool.previous_hash_ res |>)
      | None =>
          if PoolHash.is_empty (last_hash_ s) then ret (Pool.default, s)
          else
            match db_get (last_hash_ s) b with
            | None => ret (Pool.default, s)
            | Some data =>
                let res := (Pool.meta_from_binary data).1 in
                if negb (Pool.is_valid_ res) then ret (Pool.default, s)
                else
                  let b := (db_remove (last_hash_ s) b).2 in
                  ret (res, s <| db_ := Some b |> <| count_pool := u64 (count_pool s - 1) |> <| last_hash_ := Pool.previous_hash_ res |>)
            end
      end
  end.

Definition pool_remove_last_repair (test_sequence : Z) (test_hash : bytes) s : M (bool * Storage B) :=
  match opened s with
  | None => ret (false, s)
  | Some b =>
      if test_sequence =? 0 then ret (false, s)
      else if PoolHash.is_empty test_hash then ret (false, s)
      else if negb (u64 (test_sequence + 1) =? count_pool s) then ret (false, s)
      else
        let s := s <| write_queue := [] |> in
        let wrong := match db_seq_no test_hash b with Some tmp => negb (tmp =? test_sequence) | None => false end in
        if wrong then ret (false, s)
        else
          let '(removed, b) := db_remove test_hash b in
          let s := s <| db_ := Some b |> in
          if negb removed then ret (false, s)
          else
            let s := s <| count_pool := u64 (count_pool s - 1) |> in
            do! (last, s) := pool_load (test_sequence - 1) s in
            if Pool.is_valid_ last then
              do! (h, _) := defined (Pool.hash last) in ret (true, s <| last_hash_ := h |>)
            else ret (false, s <| last_hash_ := [] |>)
  end.

(** *** Look-up *)

(** [transaction(id)] *)
Definition transaction (id : TransactionID) s : M (Transaction * Storage B) :=
  if negb (TxId.is_valid id) then ret (Tx.default, s)
  else do! (p, s) := pool_load (pool_seq_ id) s in ret (Pool.transaction_by_id p id, s).

(** [get_last_by_source], [get_last_by_target]: back along the previous hashes *)
Fixpoint last_by (fuel : nat) (get : Pool.priv -> Transaction) (curr : Pool.priv) s : M (Transaction * Storage B) :=
  match fuel with
  | O => None
  | S fuel =>
      if Pool.is_valid_ curr then
        let t := get curr in
        if Tx.is_valid t then ret (t, s)
        else do! (curr, s) := pool_load_hash (Pool.previous_hash_ curr) s in last_by fuel get curr s
      else ret (Tx.default, s)
  end.
Definition get_last_by_source (fuel : nat) (source : Address) s : M (Transaction * Storage B) :=
  do! (curr, s) := pool_load_hash (last_hash s) s in last_by fuel (fun p => Pool.get_last_by_source p source) curr s.
Definition get_last_by_target (fuel : nat) (target : Address) s : M (Transaction * Storage B) :=
  do! (curr, s) := pool_load_hash (last_hash s) s in last_by fuel (fun p => Pool.get_last_by_target p target) curr s.

(** [pool_sequence] *)
Definition pool_sequence (hash : bytes) s : Z :=
  match opened s with
  | None => kWrongSequence
  | Some b => if PoolHash.is_empty hash then kWrongSequence else default kWrongSequence (db_seq_no hash b)
  end.

(** [pool_hash]: a block of the queue only is not enough, the database is asked again. *)
Definition pool_hash (sequence : Z) s : M bytes :=
  match opened s with
  | None => ret []
  | Some b =>
      match db_get_no (u32 sequence) b with
      | None => ret []
      | Some data =>
          do! res := defined (Pool.from_binary data) in
          if negb (Pool.is_valid_ res) then ret []
          else do! (h, _) := defined (Pool.hash res) in ret h
      end
  end.

Definition get_contract_data (abs_addr : Address) s : option bytes :=
  b ← db_ s; db_get_contract (public_key abs_addr) b.
Definition update_contract_data (abs_addr : Address) (data : bytes) s : bool * Storage B :=
  match db_ s with
  | None => (false, s)
  | Some b => let '(done, b) := db_update_contract (public_key abs_addr) data b in (done, s <| db_ := Some b |>)
  end.

(** [Pool::save], through the handle that [set_storage] has put into the block *)
Definition save (pool : Pool.priv) s : M (bool * Pool.priv * Storage B) :=
  if negb (Pool.is_valid_ pool) then ret (false, pool, s)
  else if negb (isOpen s) then ret (false, pool, s)
  else
    do! pool := (if PoolHash.is_empty (Pool.hash_ pool) then defined (Pool.updateHash pool) else ret pool) in
    do! (saved, s) := pool_save pool s in
    ret (saved, pool, s).

End storage.
End Storage.
