(* ===== verification/StorageSpec.v ===== *)
(** * A storage is a stack of linked blocks

    [stored]: the database holds exactly the blocks of a chain, each under its
    place and its hash, linked by the previous hashes.  Saving the next block
    pushes it ([save_pushes]), removing the last one pops it ([remove_pops]), and
    what is loaded is what was saved, as long as the cache holds no other block
    ([load_saved]).  But removing does not touch the cache: after the last block
    is replaced, its place still gives the old one ([replaced_block_is_stale]). *)

From Stdlib Require Import ZArith Lia Sorted.
From stdpp Require Import base tactics numbers option list gmap sorting.
From S2P Require Import Prelude Effect BinStream Amount UserField Crypto Address Utils Transaction Pool Database Storage.

Local Open Scope Z_scope.
Local Open Scope cs_scope.

Module StorageSpec.
Import Storage.

Section spec.
Context `{!Cscrypto, !CscryptoLaws _} {B : Type} `{DB : !Database B} {ok : B -> Prop} {rows : B -> gmap Z bytes} {names : B -> gmap bytes Z}.
Context `{!DatabaseLaws DB ok rows names} (begin : list PoolElement -> nat).
Implicit Types (s : Storage B) (p q : Pool.priv).

(** *** Blocks *)

(** What the database gets of a block, and its hash *)
Definition bin p : bytes := Pool.to_binary (Pool.composed p).
Definition hash_of p : bytes := Pool.hash_ (Pool.composed p).

Lemma hash_of_length p : length (hash_of p) = kHashSize.
Proof. apply calculateHash_length. Qed.

Lemma hash_of_nonempty p : PoolHash.is_empty (hash_of p) = false.
Proof. unfold PoolHash.is_empty. rewrite hash_of_length. pose proof hash_size_pos. apply Nat.eqb_neq. lia. Qed.

(** [q] is the block [p], composed or read back. *)
Record copy p q : Prop := {
  copy_valid : Pool.is_valid_ q = true;
  copy_hash : Pool.hash_ q = hash_of p;
  copy_binary : Pool.binary_representation_ q = bin p;
  copy_sequence : Pool.sequence_ q = Pool.sequence_ p;
  copy_previous : Pool.previous_hash_ q = Pool.previous_hash_ p;
  copy_confidants : Pool.confidants_ q = Pool.confidants_ p
}.

Lemma copy_composed p : Pool.is_valid_ p = true -> copy p (Pool.composed p).
Proof. intros Hv. by split. Qed.

Lemma copy_reread p : copy p (Pool.reread p).
Proof. by split. Qed.

Lemma hash_copy p q : copy p q -> Pool.hash q = Some (hash_of p, q).
Proof. intros Hc. unfold Pool.hash. by rewrite (copy_hash _ _ Hc), hash_of_nonempty. Qed.

Lemma from_binary_bin p : Pool.wf_pool p -> Pool.from_binary (bin p) = Some (Pool.reread p).
Proof. intros Hw. by destruct (Pool.composed_readable p Hw). Qed.

(** *** The chain *)

Definition tip (chain : list Pool.priv) : bytes := match last chain with None => [] | Some p => hash_of p end.

Record linked (chain : list Pool.priv) : Prop := {
  linked_wf : Forall Pool.wf_pool chain;
  linked_at i p : chain !! i = Some p -> Pool.sequence_ p = Z.of_nat i /\ Pool.previous_hash_ p = tip (take i chain);
  linked_hashes : NoDup (map hash_of chain);
  linked_short : Z.of_nat (length chain) < 4294967295
}.

(** The two tables of the database *)
Record holds (m : gmap Z bytes) (chain : list Pool.priv) : Prop := {
  holds_at (i : nat) : m !! Z.of_nat i = bin <$> chain !! i;
  holds_only n : n < 0 -> m !! n = None
}.
Definition indexed (m : gmap bytes Z) (chain : list Pool.priv) : Prop :=
  forall h n, m !! h = Some n <-> exists i p, n = Z.of_nat i /\ chain !! i = Some p /\ hash_of p = h.

Definition db_holds (b : B) (chain : list Pool.priv) : Prop := ok b /\ holds (rows b) chain /\ indexed (names b) chain.

Record stored s (chain : list Pool.priv) : Prop := {
  stored_linked : linked chain;
  stored_db : exists b, db_ s = Some b /\ db_holds b chain;
  stored_last : last_hash_ s = tip chain;
  stored_count : count_pool s = Z.of_nat (length chain);
  stored_queue : write_queue s = []
}.

(** Every cached block is the one that the chain has in its place. *)
Definition cached (chain : list Pool.priv) (e : PoolElement) : Prop :=
  exists i p, chain !! i = Some p /\ pe_seq e = Z.of_nat i /\ pe_hash e = hash_of p /\ copy p (pe_pool e).
Definition cache_ok s (chain : list Pool.priv) : Prop := Forall (cached chain) (pools_cache s).

Lemma tip_snoc chain p : tip (chain ++ [p]) = hash_of p.
Proof. unfold tip. by rewrite last_snoc. Qed.

Lemma opened_ok s b : db_ s = Some b -> ok b -> opened s = Some b.
Proof. intros E Hb. unfold opened. rewrite E. cbn [mbind option_bind]. by rewrite (db_ok_open b Hb). Qed.

Lemma linked_snoc chain p :
  linked chain -> Pool.wf_pool p -> Pool.sequence_ p = Z.of_nat (length chain) -> Pool.previous_hash_ p = tip chain ->
  hash_of p ∉ map hash_of chain -> Z.of_nat (length chain) < 4294967294 -> linked (chain ++ [p]).
Proof.
  intros [Hw Hat Hn Hs] Hp Hseq Hprev Hfresh Hlen. split.
  - apply Forall_app. split; [done|]. by apply Forall_singleton.
  - intros i q. rewrite lookup_app. destruct (chain !! i) as [x|] eqn:E.
    + intros [= <-]. rewrite take_app_le by (apply lookup_lt_Some in E; lia). by apply Hat.
    + intros Ei. apply lookup_ge_None in E. destruct (i - length chain)%nat eqn:Ed; cbn in Ei; [|done]. injection Ei as <-.
      assert (i = length chain) as -> by lia. rewrite take_app_le, firstn_all by lia. done.
  - rewrite map_app. apply NoDup_app. split; [done|]. split; [|apply NoDup_singleton].
    intros h Hh Hh'%list_elem_of_singleton. by subst h.
  - rewrite length_app. cbn [length]. lia.
Qed.

Lemma linked_init chain p : linked (chain ++ [p]) -> linked chain.
Proof.
  intros [Hw Hat Hn Hs]. apply Forall_app in Hw as [Hw _]. rewrite map_app in Hn. apply NoDup_app in Hn as (Hn & _ & _).
  rewrite length_app in Hs. split; [done| |done|lia].
  intros i q Hi. destruct (Hat i q) as [E1 E2]; [by apply lookup_app_l_Some|]. split; [done|].
  rewrite E2. rewrite take_app_le; [done|]. apply lookup_lt_Some in Hi. lia.
Qed.

(** *** The cache *)

Lemma insert_elem (e x : PoolElement) l : e ∈ cache_insert x l -> e ∈ l \/ e = x.
Proof.
  unfold cache_insert. destruct (find_seq (pe_seq x) l), (find_hash (pe_hash x) l); try by left.
  rewrite elem_of_app, list_elem_of_singleton. tauto.
Qed.

Lemma pools_cache_insert_elem seq hash pool s e :
  e ∈ pools_cache (pools_cache_insert begin seq hash pool s) -> e ∈ pools_cache s \/ e = mkElement seq hash pool.
Proof.
  unfold pools_cache_insert. cbn [upd pools_cache]. intros [He|He]%insert_elem; [|by right]. left.
  destruct (Z.of_nat _ =? cacheSize); [|done]. eapply elem_of_submseteq; [exact He|]. apply sublist_submseteq, sublist_delete.
Qed.

Lemma find_seq_spec n l e : find_seq n l = Some e -> e ∈ l /\ pe_seq e = n.
Proof. unfold find_seq. intros [Hin He]%List.find_some. apply list_elem_of_In in Hin. apply Z.eqb_eq in He. done. Qed.

Lemma find_hash_spec h l e : find_hash h l = Some e -> e ∈ l /\ pe_hash e = h.
Proof. unfold find_hash. intros [Hin He]%List.find_some. apply list_elem_of_In in Hin. by apply bool_decide_eq_true in He. Qed.

Lemma stored_frame s s' chain :
  db_ s' = db_ s -> last_hash_ s' = last_hash_ s -> count_pool s' = count_pool s -> write_queue s' = write_queue s ->
  stored s chain -> stored s' chain.
Proof. intros E1 E2 E3 E4 [? ? ? ? ?]. split; [done|by rewrite E1|by rewrite E2|by rewrite E3|by rewrite E4]. Qed.

Lemma stored_insert seq hash pool s chain : stored s chain -> stored (pools_cache_insert begin seq hash pool s) chain.
Proof. by apply stored_frame. Qed.
(** *** Saving *)

Lemma stored_number s chain : stored s chain -> number_ok (Z.of_nat (length chain)).
Proof. intros Hs. pose proof (linked_short _ (stored_linked _ _ Hs)). unfold number_ok. lia. Qed.

(** The tables with one block more *)
Lemma rows_snoc m chain p : holds m chain -> holds (<[Z.of_nat (length chain) := bin p]> m) (chain ++ [p]).
Proof.
  intros [Hm Hneg]. split; [|intros n Hn; rewrite lookup_insert_ne by lia; by apply Hneg].
  intros i. destruct (decide (i = length chain)) as [->|Hi].
  - by rewrite lookup_insert_eq, list_lookup_middle by done.
  - rewrite lookup_insert_ne by lia. rewrite Hm. destruct (decide (i < length chain)%nat).
    + by rewrite lookup_app_l by done.
    + rewrite !lookup_ge_None_2; [done|rewrite length_app; cbn [length]; lia|lia].
Qed.

Lemma names_snoc m chain p :
  hash_of p ∉ map hash_of chain -> indexed m chain -> indexed (<[hash_of p := Z.of_nat (length chain)]> m) (chain ++ [p]).
Proof.
  intros Hfresh Hm h n. unfold indexed in Hm. rewrite lookup_insert_Some. split.
  - intros [[<- <-]|[Hne Hh]].
    + exists (length chain), p. by rewrite list_lookup_middle.
    + apply Hm in Hh as (i & q & -> & Hi & Hq). exists i, q. split; [done|]. split; [by apply lookup_app_l_Some|done].
  - intros (i & q & -> & Hi & Hq). apply lookup_app_Some in Hi as [Hi|[Hl Hi]].
    + right. split; [|apply Hm; by exists i, q]. intros E. apply Hfresh. rewrite E, <- Hq.
      apply list_elem_of_In, in_map, list_elem_of_In. by eapply list_elem_of_lookup_2.
    + apply list_lookup_singleton_Some in Hi as [Hi <-]. left. split; [done|]. f_equal. lia.
Qed.

Lemma cached_snoc chain p e : cached chain e -> cached (chain ++ [p]) e.
Proof. intros (i & q & Hi & E). exists i, q. split; [by apply lookup_app_l_Some|done]. Qed.

Lemma cached_new chain p q : copy p q -> Pool.sequence_ p = Z.of_nat (length chain) -> cached (chain ++ [p]) (mkElement (Pool.sequence_ q) (hash_of p) q).
Proof.
  intros Hc Hseq. exists (length chain), p. rewrite list_lookup_middle by done. cbn [pe_seq pe_hash pe_pool].
  by rewrite (copy_sequence _ _ Hc), Hseq.
Qed.

Lemma cache_ok_insert seq hash pool s chain :
  cache_ok s chain -> cached chain (mkElement seq hash pool) -> cache_ok (pools_cache_insert begin seq hash pool s) chain.
Proof. intros Hs He. apply Forall_forall. intros e [Hin| ->]%pools_cache_insert_elem; [|done]. unfold cache_ok in Hs. rewrite Forall_forall in Hs. by apply Hs. Qed.

Lemma save_pushes s chain p q :
  stored s chain -> Pool.wf_pool p -> copy p q -> Pool.sequence_ p = Z.of_nat (length chain) -> Pool.previous_hash_ p = tip chain ->
  hash_of p ∉ map hash_of chain -> Z.of_nat (length chain) < 4294967294 ->
  exists s', pool_save begin q s = ret (true, s') /\ stored s' (chain ++ [p]) /\ (cache_ok s chain -> cache_ok s' (chain ++ [p])).
Proof.
  intros Hs Hw Hc Hseq Hprev Hfresh Hlen. destruct Hs as [Hl (b & Eb & Hb & Hrows & Hnames) Hlast Hcount Hq].
  assert (number_ok (Z.of_nat (length chain))) as Hnum by (unfold number_ok; lia).
  assert (names b !! hash_of p = None) as Enone.
  { apply eq_None_not_Some. intros [n (i & x & -> & Hi & Hx)%Hnames]. apply Hfresh. rewrite <- Hx.
    apply list_elem_of_In, in_map, list_elem_of_In. by eapply list_elem_of_lookup_2. }
  destruct (db_put_spec (hash_of p) (Z.of_nat (length chain)) (bin p) b Hb Hnum) as (b' & Eput & Hb' & Er & En).
  unfold pool_save. rewrite (opened_ok s b) by done. rewrite (copy_valid _ _ Hc), (hash_copy p q) by done. cbn [negb defined mthen ret].
  rewrite (db_has_spec (hash_of p) b Hb), Enone. rewrite bool_decide_false by (intros [? [=]]).
  rewrite (copy_sequence _ _ Hc), Hseq. rewrite (uwrap_id 32) by (unfold number_ok, in_u in *; lia).
  unfold Pool.to_binary. rewrite (copy_binary _ _ Hc), Eput. cbn [snd upd last_hash_].
  rewrite (copy_previous _ _ Hc), Hprev, Hlast. unfold PoolHash.op_eq. rewrite bool_decide_true by done.
  eexists. split; [reflexivity|]. split.
  - apply stored_insert. split; cbn [upd db_ last_hash_ count_pool write_queue].
    + by apply linked_snoc.
    + exists b'. split; [done|]. unfold db_holds. rewrite Er, En. split; [done|]. split; [by apply rows_snoc|by apply names_snoc].
    + by rewrite tip_snoc.
    + rewrite Hcount, length_app. cbn [length]. rewrite uwrap_id by (unfold in_u; lia). lia.
    + done.
  - intros Hcache. apply cache_ok_insert.
    + eapply Forall_impl; [exact Hcache|]. intros e. apply cached_snoc.
    + rewrite <- Hseq. rewrite <- (copy_sequence _ _ Hc) at 1. by apply cached_new.
Qed.
(** *** Removing *)

Lemma rows_init m chain p : holds m (chain ++ [p]) -> holds (delete (Z.of_nat (length chain)) m) chain.
Proof.
  intros [Hm Hneg]. split; [|intros n Hn; rewrite lookup_delete_ne by lia; by apply Hneg].
  intros i. destruct (decide (i = length chain)) as [->|Hi].
  - by rewrite lookup_delete_eq, lookup_ge_None_2.
  - rewrite lookup_delete_ne by lia. rewrite Hm. destruct (decide (i < length chain)%nat).
    + by rewrite lookup_app_l by done.
    + rewrite !lookup_ge_None_2; [done|lia|rewrite length_app; cbn [length]; lia].
Qed.

Lemma names_init m chain p : NoDup (map hash_of (chain ++ [p])) -> indexed m (chain ++ [p]) -> indexed (delete (hash_of p) m) chain.
Proof.
  intros Hn Hm h n. unfold indexed in Hm. rewrite map_app in Hn. apply NoDup_app in Hn as (_ & Hn & _). rewrite lookup_delete_Some, Hm. split.
  - intros [Hne (i & q & -> & Hi & Hq)]. apply lookup_app_Some in Hi as [Hi|[_ Hi]]; [by exists i, q|].
    apply list_lookup_singleton_Some in Hi as [_ <-]. done.
  - intros (i & q & -> & Hi & Hq). split; [|exists i, q; split; [done|]; split; [by apply lookup_app_l_Some|done]].
    intros E. apply (Hn (hash_of p)); [|by apply list_elem_of_singleton]. rewrite E, <- Hq.
    apply list_elem_of_In, in_map, list_elem_of_In. by eapply list_elem_of_lookup_2.
Qed.

(** What [pool_remove_last] returns of the block [p] *)
Record meta_only p q : Prop := {
  meta_valid : Pool.is_valid_ q = true;
  meta_sequence : Pool.sequence_ q = Pool.sequence_ p;
  meta_previous : Pool.previous_hash_ q = Pool.previous_hash_ p;
  meta_transactions : Pool.transactions_ q = [];
  meta_wallets : Pool.newWallets_ q = [];
  meta_confidants : Pool.confidants_ q = [];
  meta_trusted : Pool.numberTrusted_ q = 0 /\ Pool.realTrusted_ q = 0;
  meta_unhashed : Pool.hash_ q = [] /\ Pool.hashingLength_ q = 0
}.

Lemma remove_pops s chain p :
  stored s (chain ++ [p]) ->
  exists q s', pool_remove_last s = ret (q, s') /\ stored s' chain /\ meta_only p q /\ pools_cache s' = pools_cache s.
Proof.
  intros [Hl (b & Eb & Hb & Hrows & Hnames) Hlast Hcount Hq].
  pose proof (linked_init _ _ Hl) as Hl'. destruct (linked_at _ Hl (length chain) p) as [Hseq Hprev]; [by rewrite list_lookup_middle|].
  rewrite take_app_le, firstn_all in Hprev by done. rewrite tip_snoc in Hlast.
  assert (Pool.wf_pool p) as Hw.
  { eapply Forall_forall; [apply (linked_wf _ Hl)|]. rewrite elem_of_app, list_elem_of_singleton. by right. }
  assert (names b !! hash_of p = Some (Z.of_nat (length chain))) as Ename.
  { apply Hnames. exists (length chain), p. by rewrite list_lookup_middle. }
  assert (rows b !! Z.of_nat (length chain) = Some (bin p)) as Erow by by rewrite (holds_at _ _ Hrows), list_lookup_middle.
  destruct (db_remove_spec (hash_of p) b Hb) as (done & b' & Erem & Hb' & R). rewrite Ename in R. destruct R as (_ & Er & En).
  unfold pool_remove_last. rewrite (opened_ok s b) by done. unfold write_queue_pop. rewrite Hq. cbn [last mbind option_bind].
  rewrite Hlast, hash_of_nonempty, (db_get_spec (hash_of p) b Hb), Ename. cbn [mbind option_bind]. rewrite Erow.
  destruct (Pool.composed_readable p Hw) as (_ & _ & q & Emeta & V1 & V2 & V3 & V4 & V5 & V6 & V7 & V8 & V9 & V10).
  change (Pool.binary_representation_ (Pool.composed p)) with (bin p) in Emeta. rewrite Emeta. cbn [fst]. rewrite V1. cbn [negb].
  rewrite Erem. cbn [snd]. do 2 eexists. split; [reflexivity|]. split; [|by split].
  split; cbn [upd db_ last_hash_ count_pool write_queue].
  - exact Hl'.
  - exists b'. split; [done|]. unfold db_holds. rewrite Er, En. split; [done|]. split; [by eapply rows_init|]. eapply names_init; [apply (linked_hashes _ Hl)|done].
  - by rewrite V3.
  - rewrite Hcount, length_app. cbn [length]. pose proof (linked_short _ Hl) as Hs. rewrite length_app in Hs. cbn [length] in Hs.
    rewrite uwrap_id by (unfold in_u; lia). lia.
  - done.
Qed.

(** *** Loading *)

Lemma stored_lookup s chain i p : stored s chain -> chain !! i = Some p -> Pool.wf_pool p /\ number_ok (Z.of_nat i) /\ Pool.sequence_ p = Z.of_nat i.
Proof.
  intros Hs Hi. pose proof (linked_short _ (stored_linked _ _ Hs)). pose proof (lookup_lt_Some _ _ _ Hi).
  split; [|split; [unfold number_ok; lia|by eapply linked_at; [apply (stored_linked _ _ Hs)|]]].
  eapply Forall_lookup_1; [apply (linked_wf _ (stored_linked _ _ Hs))|done].
Qed.

(** What the cache or the database gives for a place or a hash is the block there. *)
Lemma load_saved s chain i p :
  stored s chain -> cache_ok s chain -> chain !! i = Some p ->
  (exists q s', pool_load begin (Z.of_nat i) s = ret (q, s') /\ copy p q /\ stored s' chain /\ cache_ok s' chain) /\
  (exists q s', pool_load_hash begin (hash_of p) s = ret (q, s') /\ copy p q /\ stored s' chain /\ cache_ok s' chain).
Proof.
  intros Hs Hcache Hi. destruct (stored_lookup s chain i p Hs Hi) as (Hw & Hnum & Hseq).
  destruct (stored_db _ _ Hs) as (b & Eb & Hb & Hrows & Hnames).
  assert (cached chain (mkElement (Pool.sequence_ (Pool.reread p)) (hash_of p) (Pool.reread p))) as Hnew.
  { exists i, p. cbn [pe_seq pe_hash pe_pool]. split_and!; [done|exact Hseq|done|apply copy_reread]. }
  split.
  - unfold pool_load. rewrite (opened_ok s b) by done. destruct (find_seq (Z.of_nat i) (pools_cache s)) as [e|] eqn:Ef.
    + apply find_seq_spec in Ef as [He Eseq]. unfold cache_ok in Hcache. rewrite Forall_forall in Hcache.
      destruct (Hcache e He) as (j & q & Hj & Ej & _ & Hc). assert (j = i) as -> by lia. rewrite Hi in Hj. injection Hj as <-.
      rewrite (copy_valid _ _ Hc). cbn [negb]. do 2 eexists. split; [reflexivity|]. split; [exact Hc|]. split; [done|]. by apply Forall_forall.
    + rewrite uwrap_id by (unfold number_ok, in_u in *; lia). rewrite (db_get_no_spec _ b Hb Hnum), (holds_at _ _ Hrows), Hi.
      cbn [fmap option_fmap option_map]. rewrite from_binary_bin by done. cbn [defined mthen ret].
      rewrite (hash_copy p) by apply copy_reread. cbn [defined mthen ret].
      do 2 eexists. split; [reflexivity|]. split; [apply copy_reread|]. split; [by apply stored_insert|by apply cache_ok_insert].
  - unfold pool_load_hash, pool_load_internal. rewrite (opened_ok s b) by done. rewrite hash_of_nonempty.
    destruct (find_hash (hash_of p) (pools_cache s)) as [e|] eqn:Ef.
    + apply find_hash_spec in Ef as [He Eh]. unfold cache_ok in Hcache. rewrite Forall_forall in Hcache.
      destruct (Hcache e He) as (j & q & Hj & _ & Ej & Hc). assert (q = p) as ->.
      { rewrite Eh in Ej. assert (j = i) as ->; [|rewrite Hi in Hj; by injection Hj].
        eapply (NoDup_lookup (map hash_of chain)); [apply (linked_hashes _ (stored_linked _ _ Hs))| |].
        - rewrite list_lookup_fmap, Hj. cbn [fmap option_fmap option_map]. rewrite <- Ej. reflexivity.
        - rewrite list_lookup_fmap, Hi. done. }
      rewrite (copy_valid _ _ Hc). cbn [negb mthen ret fst snd]. do 2 eexists. split; [reflexivity|]. split; [exact Hc|]. split; [done|]. by apply Forall_forall.
    + assert (names b !! hash_of p = Some (Z.of_nat i)) as En by (apply Hnames; by exists i, p).
      rewrite (db_get_spec _ b Hb), En. cbn [mbind option_bind]. rewrite (holds_at _ _ Hrows), Hi. cbn [fmap option_fmap option_map].
      rewrite from_binary_bin by done. cbn [defined mthen ret]. rewrite (hash_copy p) by apply copy_reread. cbn [defined mthen ret].
      change (Pool.is_valid_ (Pool.reread p)) with true. cbn [negb mthen ret fst snd].
      do 2 eexists. split; [reflexivity|]. split; [apply copy_reread|]. split; [by apply stored_insert|by apply cache_ok_insert].
Qed.
(** *** A stack *)

(** [p] may follow the chain. *)
Record next (chain : list Pool.priv) p : Prop := {
  next_wf : Pool.wf_pool p;
  next_sequence : Pool.sequence_ p = Z.of_nat (length chain);
  next_previous : Pool.previous_hash_ p = tip chain;
  next_fresh : hash_of p ∉ map hash_of chain;
  next_short : Z.of_nat (length chain) < 4294967294
}.

Inductive change : Type := Push (q : Pool.priv) | Pop.

(** The results: what [pool_save] returns, and whether [pool_remove_last] returns a valid block. *)
Fixpoint run (l : list change) s : M (list bool * Storage B) :=
  match l with
  | [] => ret ([], s)
  | ch :: l =>
      do! (done, s) :=
        match ch with
        | Push q => pool_save begin q s
        | Pop => do! (q, s) := pool_remove_last s in ret (Pool.is_valid_ q, s)
        end in
      do! (results, s) := run l s in ret (done :: results, s)
  end.

(** The changes of a list of blocks *)
Inductive follows : list Pool.priv -> list change -> list Pool.priv -> Prop :=
  | follows_nil chain : follows chain [] chain
  | follows_push chain p q l chain' : next chain p -> copy p q -> follows (chain ++ [p]) l chain' -> follows chain (Push q :: l) chain'
  | follows_pop chain p l chain' : follows chain l chain' -> follows (chain ++ [p]) (Pop :: l) chain'.

Lemma next_saved s chain p q :
  stored s chain -> next chain p -> copy p q ->
  exists s', pool_save begin q s = ret (true, s') /\ stored s' (chain ++ [p]) /\ (cache_ok s chain -> cache_ok s' (chain ++ [p])).
Proof. intros Hs [] Hc. by apply save_pushes. Qed.

Lemma pool_hash_stored s chain i :
  stored s chain -> number_ok (Z.of_nat i) ->
  pool_hash (Z.of_nat i) s = ret (match chain !! i with Some p => hash_of p | None => [] end).
Proof.
  intros Hs Hn. destruct (stored_db _ _ Hs) as (b & Eb & Hb & Hrows & _). unfold pool_hash. rewrite (opened_ok s b) by done.
  rewrite uwrap_id by (unfold number_ok, in_u in *; lia). rewrite (db_get_no_spec _ b Hb Hn), (holds_at _ _ Hrows).
  destruct (chain !! i) as [p|] eqn:Hi; [|done]. cbn [fmap option_fmap option_map].
  destruct (stored_lookup s chain i p Hs Hi) as (Hw & _). rewrite from_binary_bin by done. cbn [defined mthen ret].
  by rewrite (hash_copy p) by apply copy_reread.
Qed.

(** C11: Refinement: over any database that satisfies the interface, a storage that holds a linked
    chain behaves as a stack. Any sequence of saves of blocks that follow the chain and of
    removals of the last block succeeds at every step, and afterwards the last hash, the size and
    the hash at every number are those of the abstract chain. *)
Theorem storage_is_a_stack s chain l chain' :
  stored s chain -> follows chain l chain' ->
  exists s', run l s = ret (map (fun _ => true) l, s') /\
    last_hash s' = tip chain' /\ size s' = Z.of_nat (length chain') /\
    forall i, number_ok (Z.of_nat i) -> pool_hash (Z.of_nat i) s' = ret (match chain' !! i with Some p => hash_of p | None => [] end).
Proof.
  intros Hs Hf. revert s Hs. induction Hf as [chain|chain p q l chain' Hn Hc _ IH|chain p l chain' _ IH]; intros s Hs; cbn [run map].
  - exists s. split; [done|]. split; [apply (stored_last _ _ Hs)|]. split; [apply (stored_count _ _ Hs)|]. intros i. by apply pool_hash_stored.
  - destruct (next_saved s chain p q Hs Hn Hc) as (s1 & E & Hs1 & _). rewrite E. cbn [mthen ret].
    destruct (IH s1 Hs1) as (s' & E' & R). exists s'. by rewrite E'.
  - destruct (remove_pops s chain p Hs) as (q & s1 & E & Hs1 & Hm & _). rewrite E. cbn [mthen ret]. rewrite (meta_valid _ _ Hm).
    destruct (IH s1 Hs1) as (s' & E' & R). exists s'. by rewrite E'.
Qed.

(** *** The cache of a block that is replaced *)

Lemma find_seq_app n l l' : find_seq n (l ++ l') = match find_seq n l with Some e => Some e | None => find_seq n l' end.
Proof. unfold find_seq. induction l as [|e l IH]; [done|]. cbn [app List.find]. by destruct (pe_seq e =? n). Qed.

(** When the last block is removed and another one is saved in its place, loading by its number
    still gives the removed block as long as it is in the cache, though the last hash and the
    database have the new one: the removal does not touch the cache and a new element does not
    replace one with the same number. *)
Theorem replaced_block_is_stale s chain p e p' q' :
  stored s (chain ++ [p]) -> find_seq (Z.of_nat (length chain)) (pools_cache s) = Some e -> Pool.is_valid_ (pe_pool e) = true ->
  Z.of_nat (length (pools_cache s)) <> cacheSize ->
  next chain p' -> copy p' q' ->
  exists q s1 s2, pool_remove_last s = ret (q, s1) /\ pool_save begin q' s1 = ret (true, s2) /\
    last_hash s2 = hash_of p' /\ pool_hash (Z.of_nat (length chain)) s2 = ret (hash_of p') /\
    pool_load begin (Z.of_nat (length chain)) s2 = ret (pe_pool e, s2).
Proof.
  intros Hs He Hv Hsize Hn Hc. destruct (remove_pops s chain p Hs) as (q & s1 & E1 & Hs1 & _ & Ecache).
  destruct (next_saved s1 chain p' q' Hs1 Hn Hc) as (s2 & E2 & Hs2 & _). exists q, s1, s2. split; [done|]. split; [done|].
  split; [change (last_hash s2) with (last_hash_ s2); by rewrite (stored_last _ _ Hs2), tip_snoc|]. split.
  { rewrite (pool_hash_stored s2 (chain ++ [p'])), list_lookup_middle by (done || by eapply stored_number). done. }
  destruct (stored_db _ _ Hs2) as (b2 & Eb2 & Hb2 & _). unfold pool_load. rewrite (opened_ok s2 b2) by done.
  assert (find_seq (Z.of_nat (length chain)) (pools_cache s2) = Some e) as ->; [|by rewrite Hv].
  unfold pool_save in E2. destruct (opened s1) as [b|]; [|done]. destruct (Pool.is_valid_ q'); [|done]. cbn [negb] in E2.
  rewrite (hash_copy p' q' Hc) in E2. cbn [defined mthen ret] in E2. destruct (db_has (hash_of p') b); [done|]. injection E2 as <-.
  unfold pools_cache_insert. cbn [upd pools_cache].
  match goal with |- context [pools_cache (if ?c then ?x else ?y)] => replace (pools_cache (if c then x else y)) with (pools_cache s) by (by destruct c) end.
  destruct (Z.eqb_spec (Z.of_nat (length (pools_cache s))) cacheSize) as [E|_]; [done|].
  unfold cache_insert. cbn [pe_seq pe_hash]. destruct (find_seq (Pool.sequence_ q') (pools_cache s)); [done|].
  destruct (find_hash (hash_of p') (pools_cache s)); [done|]. by rewrite find_seq_app, He.
Qed.
(** *** Opening *)

Definition item_lt (x y : Z * bytes) : Prop := x.1 < y.1.

#[local] Instance item_lt_trans : Transitive item_lt.
Proof. intros x y z. unfold item_lt. lia. Qed.
#[local] Instance item_lt_antisymm : AntiSymm (=) item_lt.
Proof. intros x y. unfold item_lt. lia. Qed.

(** The blocks of a chain as the iterator gives them, from the place [k] on *)
Definition items_of (k : nat) (chain : list Pool.priv) : list (Z * bytes) := imap (fun i p => (Z.of_nat (k + i), bin p)) chain.

Lemma items_of_elem k chain n v : (n, v) ∈ items_of k chain <-> exists i p, n = Z.of_nat (k + i) /\ chain !! i = Some p /\ v = bin p.
Proof.
  unfold items_of. rewrite elem_of_lookup_imap. split.
  - intros (i & p & [= -> ->] & Hi). by exists i, p.
  - intros (i & p & -> & Hi & ->). by exists i, p.
Qed.

Lemma items_of_cons k p chain : items_of k (p :: chain) = (Z.of_nat k, bin p) :: items_of (S k) chain.
Proof. unfold items_of. cbn [imap]. rewrite Nat.add_0_r. f_equal. apply imap_ext. intros i x _. cbn. do 2 f_equal. lia. Qed.

Lemma items_of_sorted k chain : StronglySorted item_lt (items_of k chain).
Proof.
  revert k. induction chain as [|p chain IH]; intros k; [constructor|]. rewrite items_of_cons. constructor; [apply IH|].
  apply Forall_forall. intros [n v] (i & q & -> & _)%items_of_elem. unfold item_lt. cbn [fst]. lia.
Qed.

Lemma sorted_nodup (l : list (Z * bytes)) : StronglySorted item_lt l -> NoDup l.
Proof.
  induction 1 as [|x l _ IH Hx]; constructor; [|done]. intros Hin. rewrite Forall_forall in Hx. specialize (Hx x Hin). unfold item_lt in Hx. lia.
Qed.

Lemma db_items_chain b chain : db_holds b chain -> db_items b = items_of 0 chain.
Proof.
  intros (Hb & Hrows & _). destruct (db_items_spec b Hb) as [Hsort Helem].
  apply (Sorted_unique item_lt); [by apply StronglySorted_Sorted|apply StronglySorted_Sorted, items_of_sorted|].
  apply NoDup_Permutation; [by apply sorted_nodup|apply sorted_nodup, items_of_sorted|]. intros [n v]. rewrite Helem, items_of_elem. split.
  - intros E. destruct (Z.ltb_spec n 0) as [Hn|Hn]; [by rewrite (holds_only _ _ Hrows n Hn) in E|].
    replace n with (Z.of_nat (Z.to_nat n)) in E by lia. rewrite (holds_at _ _ Hrows) in E. apply fmap_Some in E as (p & Hp & ->).
    exists (Z.to_nat n), p. split; [lia|done].
  - intros (i & p & -> & Hi & ->). cbn [Nat.add]. by rewrite (holds_at _ _ Hrows), Hi.
Qed.

(** The blocks as [rescan] gives them to its receiver *)
Definition feed {T} (f : Pool.priv -> T -> T) (chain : list Pool.priv) (t : T) : T := foldl (fun t p => f (Pool.reread p) t) t chain.

Lemma rescan_chain {T} (f : Pool.priv -> T -> T) b done rest progress s (t : T) :
  db_holds b (done ++ rest) -> linked (done ++ rest) ->
  last_hash_ s = tip done -> count_pool s = Z.of_nat (length done) -> cache_ok s (done ++ rest) ->
  exists s', rescan_loop begin (fun p t => ret (false, f p t)) (fun _ => false) (items_of (length done) rest) progress s t = ret (true, s', feed f rest t) /\
    db_ s' = db_ s /\ write_queue s' = write_queue s /\ last_hash_ s' = tip (done ++ rest) /\
    count_pool s' = Z.of_nat (length (done ++ rest)) /\ cache_ok s' (done ++ rest).
Proof.
  revert done progress s t. induction rest as [|p rest IH]; intros done progress s t Hdb Hl Hlast Hcount Hcache.
  - rewrite app_nil_r in *. exists s. by split_and!.
  - rewrite items_of_cons. cbn [rescan_loop].
    assert ((done ++ p :: rest) !! length done = Some p) as Hi by by apply list_lookup_middle.
    assert (Pool.wf_pool p) as Hw by (eapply Forall_lookup_1; [apply (linked_wf _ Hl)|done]).
    rewrite from_binary_bin by done. cbn [defined mthen ret]. change (Pool.is_valid_ (Pool.reread p)) with true. cbn [negb].
    rewrite (hash_copy p) by apply copy_reread. cbn [defined mthen ret].
    replace (done ++ p :: rest) with ((done ++ [p]) ++ rest) in * by by rewrite <- app_assoc.
    replace (S (length done)) with (length (done ++ [p])) by (rewrite length_app; cbn; lia).
    match goal with |- context [rescan_loop _ _ _ _ _ ?s1 _] => destruct (IH (done ++ [p]) (progress + 1) s1 (f (Pool.reread p) t)) as (s' & E & R) end.
    + done.
    + done.
    + cbn [upd last_hash_]. by rewrite tip_snoc.
    + cbn [upd count_pool pools_cache_insert]. unfold pools_cache_insert. cbn [upd count_pool]. rewrite Hcount, length_app. cbn [length].
      pose proof (linked_short _ Hl) as Hs. rewrite !length_app in Hs. cbn [length] in Hs. rewrite uwrap_id by (unfold in_u; lia). lia.
    + unfold cache_ok. cbn [upd pools_cache]. apply cache_ok_insert; [done|]. exists (length done), p. cbn [pe_seq pe_hash pe_pool].
      split; [done|]. split; [|split; [done|apply copy_reread]]. by destruct (linked_at _ Hl _ _ Hi).
    + exists s'. split; [exact E|]. exact R.
Qed.

(** C27: Opening a database that holds a linked chain succeeds, hands all blocks to the reader in
    their order, restores the last hash and the size, and every block can then be loaded by its
    number as it was saved. *)
Theorem reopening_restores {T} (f : Pool.priv -> T -> T) fuel b chain (t : T) :
  db_holds b chain -> linked chain ->
  exists s, open begin fuel (fun p t => ret (false, f p t)) (fun _ => false) (Some b) kWrongSequence closed t = ret (true, s, feed f chain t) /\
    stored s chain /\ forall i p, chain !! i = Some p -> exists q s', pool_load begin (Z.of_nat i) s = ret (q, s') /\ copy p q.
Proof.
  intros Hdb Hl. unfold open. rewrite (db_ok_open b) by apply Hdb. cbn [negb]. rewrite Z.eqb_refl. cbn [negb]. unfold rescan.
  rewrite (db_items_chain b chain Hdb).
  destruct (rescan_chain f b [] chain 0 (closed <| db_ := Some b |> <| last_hash_ := [] |> <| count_pool := 0 |>) t) as (s & E & E1 & E2 & E3 & E4 & E5);
    [done..|by apply Forall_nil|]. cbn [length] in E. rewrite E. cbn [mthen ret]. exists s. split; [done|].
  assert (stored s chain) as Hs by (split; [done| |done|done|by rewrite E2]; exists b; split; [by rewrite E1|done]).
  split; [done|]. intros i p Hi. destruct (load_saved s chain i p Hs E5 Hi) as [(q & s' & Eq & Hc & _) _]. by exists q, s'.
Qed.
(** *** A new top *)

(** The blocks from [n] on are removed up to [k]. *)
Record between (b : B) (chain : list Pool.priv) (n k : nat) : Prop := {
  between_ok : ok b;
  between_rows (i : nat) : rows b !! Z.of_nat i = if decide ((i < n)%nat \/ (k <= i)%nat) then bin <$> chain !! i else None;
  between_only m : m < 0 -> rows b !! m = None;
  between_names h m : names b !! h = Some m <->
    exists i p, m = Z.of_nat i /\ chain !! i = Some p /\ hash_of p = h /\ ((i < n)%nat \/ (k <= i)%nat)
}.

Lemma between_start b chain n : db_holds b chain -> between b chain n n.
Proof.
  intros (Hb & [Hrows Hneg] & Hnames). split; [done| |done|].
  - intros i. rewrite Hrows. by rewrite decide_True by lia.
  - intros h m. rewrite (Hnames h m). split; intros (i & p & ?); exists i, p; [destruct_and?; split_and!; try done; lia|by destruct_and?].
Qed.

Lemma between_end b chain n k : (n <= length chain <= k)%nat -> between b chain n k -> db_holds b (take n chain).
Proof.
  intros Hn [Hb Hrows Hneg Hnames]. split; [done|]. split; [split; [|done]|].
  - intros i. rewrite Hrows. destruct (decide (i < n)%nat).
    + by rewrite decide_True, lookup_take_lt by (done || lia).
    + rewrite lookup_take_ge by lia. destruct (decide _); [|done]. by rewrite lookup_ge_None_2 by lia.
  - intros h m. rewrite Hnames. split; intros (i & p & -> & Hi & E); exists i, p; (split; [done|]).
    + destruct E as [E [Hlt|Hge]]; [by rewrite lookup_take_lt|]. apply lookup_lt_Some in Hi. lia.
    + apply lookup_take_Some in Hi as [Hi Hlt]. split; [done|]. split; [done|]. by left.
Qed.

Lemma between_step b chain n k p :
  linked chain -> between b chain n k -> (n <= k)%nat -> chain !! k = Some p ->
  exists b', db_remove (hash_of p) b = (true, b') /\ between b' chain n (S k).
Proof.
  intros Hl [Hb Hrows Hneg Hnames] Hn Hk. destruct (db_remove_spec (hash_of p) b Hb) as (done & b' & E & Hb' & R).
  assert (names b !! hash_of p = Some (Z.of_nat k)) as En by (apply Hnames; exists k, p; split_and!; try done; lia).
  rewrite En in R. destruct R as (-> & Er & Enames).
  assert (rows b !! Z.of_nat k = Some (bin p)) as Erow by (rewrite Hrows, Hk; by rewrite decide_True by lia).
  exists b'. split; [rewrite E; f_equal; apply bool_decide_true; by rewrite Erow|]. split; [done|..].
  - intros i. rewrite Er. destruct (decide (i = k)) as [->|Hi].
    + by rewrite lookup_delete_eq, decide_False by lia.
    + rewrite lookup_delete_ne, Hrows by lia. by apply decide_ext; lia.
  - intros m Hm. rewrite Er, lookup_delete_ne by lia. by apply Hneg.
  - intros h m. rewrite Enames, lookup_delete_Some, Hnames. split.
    + intros (Hne & i & q & -> & Hi & Eq & Hor). exists i, q. split_and!; try done. destruct Hor; [by left|]. right.
      destruct (decide (i = k)) as [->|]; [|lia]. rewrite Hk in Hi. injection Hi as ->. done.
    + intros (i & q & -> & Hi & Eq & Hor). assert (i <> k) as Hik by lia. split.
      * intros Eh. apply Hik. eapply (NoDup_lookup (map hash_of chain)); [apply (linked_hashes _ Hl)| |].
        -- rewrite list_lookup_fmap, Hi. cbn [fmap option_fmap option_map]. rewrite Eq. reflexivity.
        -- rewrite list_lookup_fmap, Hk. cbn [fmap option_fmap option_map]. by rewrite Eh.
      * exists i, q. split_and!; try done. lia.
Qed.

Lemma remove_above_chain fuel b chain n k :
  linked chain -> between b chain n k -> (n <= k <= length chain)%nat -> (length chain - k < fuel)%nat ->
  exists b', remove_above fuel (Z.of_nat k) (Z.of_nat (length chain) - 1) b = ret (true, b') /\ db_holds b' (take n chain).
Proof.
  intros Hl. pose proof (linked_short _ Hl) as Hshort. revert b k. induction fuel as [|fuel IH]; intros b k Hp Hk Hf; [lia|]. cbn [remove_above].
  destruct (Z.leb_spec (Z.of_nat k) (Z.of_nat (length chain) - 1)) as [Hle|Hgt].
  - destruct (lookup_lt_is_Some_2 chain k) as [p Hkp]; [lia|].
    rewrite (db_get_no_spec _ b (between_ok _ _ _ _ Hp)) by (unfold number_ok; lia). rewrite (between_rows _ _ _ _ Hp), Hkp, decide_True by lia.
    cbn [fmap option_fmap option_map]. assert (Pool.wf_pool p) as Hw by (eapply Forall_lookup_1; [apply (linked_wf _ Hl)|done]).
    destruct (Pool.composed_readable p Hw) as (_ & Eh & _). change (Pool.hash_from_binary (bin p) = Some (hash_of p)) in Eh.
    rewrite Eh. cbn [defined mthen ret]. rewrite hash_of_nonempty.
    destruct (between_step b chain n k p Hl Hp ltac:(lia) Hkp) as (b' & Er & Hp'). rewrite Er.
    rewrite uwrap_id by (unfold in_u; lia). replace (Z.of_nat k + 1) with (Z.of_nat (S k)) by lia. apply IH; [done|lia|lia].
  - exists b. split; [done|]. apply (between_end b chain n k); [lia|done].
Qed.

Lemma last_items k chain : chain <> [] -> exists v, last (items_of k chain) = Some (Z.of_nat (k + length chain) - 1, v).
Proof.
  intros Hne. destruct chain as [|p chain _] using rev_ind; [done|]. unfold items_of. rewrite imap_app. cbn [imap]. rewrite last_snoc.
  eexists. rewrite length_app. cbn [length]. do 2 f_equal. lia.
Qed.

(** C33: Opening with a new top ends: as many steps of the removing loop as there are blocks above
    the top, and one, are enough, after which the database holds exactly the blocks up to the top. *)
Theorem new_top_truncates {T} (on_block : Pool.priv -> T -> M (bool * T)) callback fuel top b chain s (t : T) :
  db_holds b chain -> linked chain -> 0 <= top < Z.of_nat (length chain) -> Z.of_nat (length chain) - top <= Z.of_nat fuel ->
  exists b', open begin fuel on_block callback (Some b) top s t = ret (true, s <| db_ := Some b' |>, t) /\
    db_holds b' (take (Z.to_nat (top + 1)) chain).
Proof.
  intros Hdb Hl Htop Hf. pose proof (linked_short _ Hl) as Hshort. unfold open. rewrite (db_ok_open b) by apply Hdb. cbn [negb].
  destruct (Z.eqb_spec top kWrongSequence) as [E|_]; [unfold kWrongSequence in E; lia|]. cbn [negb].
  rewrite (db_items_chain b chain Hdb). destruct (last_items 0 chain) as [v ->]; [by destruct chain; cbn in Htop; [lia|]|].
  destruct (Z.eqb_spec (Z.of_nat (0 + length chain) - 1) 4294967295) as [E|_]; [lia|]. rewrite uwrap_id by (unfold in_u; lia).
  destruct (remove_above_chain fuel b chain (Z.to_nat (top + 1)) (Z.to_nat (top + 1))) as (b' & E & Hb'); [done|by apply between_start|lia|lia|].
  replace (Z.of_nat (Z.to_nat (top + 1))) with (top + 1) in E by lia. replace (Z.of_nat (0 + length chain)) with (Z.of_nat (length chain)) by lia.
  rewrite E. cbn [mthen ret]. exists b'. split; [done|exact Hb'].
Qed.
End spec.

(** *** The repair with Berkeley DB *)

Section repair.
Context `{!Cscrypto, !CscryptoLaws _} (begin : list PoolElement -> nat).
#[local] Abbreviation bdb_stored := (stored (ok := BerkeleyDB.ok) (rows := BerkeleyDB.rows) (names := BerkeleyDB.names)).

Lemma names_seq_no key (b : BerkeleyDB.t) n : BerkeleyDB.names b !! key = Some n -> BerkeleyDB.seq_no key b = Some (n + 1).
Proof.
  destruct b as [tables|]; [|done]. cbn [BerkeleyDB.names]. rewrite lookup_fmap. intros (m & E & ->)%fmap_Some.
  unfold BerkeleyDB.seq_no. cbn [mbind option_bind]. rewrite E. f_equal. lia.
Qed.

(** With Berkeley DB the repair of the last block always refuses and pool_sequence is one too
    high, since the database returns 1-based record numbers. *)
Theorem repair_refuses s chain p :
  bdb_stored s (chain ++ [p]) ->
  pool_remove_last_repair begin (Z.of_nat (length chain)) (hash_of p) s = ret (false, s) /\
  pool_sequence (hash_of p) s = Z.of_nat (length chain) + 1.
Proof.
  intros Hs. destruct (stored_db _ _ Hs) as (b & Eb & Hb & _ & Hnames).
  assert (BerkeleyDB.seq_no (hash_of p) b = Some (Z.of_nat (length chain) + 1)) as En.
  { apply names_seq_no, Hnames. exists (length chain), p. by rewrite list_lookup_middle. }
  unfold pool_remove_last_repair, pool_sequence. rewrite (opened_ok s b), hash_of_nonempty by done.
  change (db_seq_no (hash_of p) b) with (BerkeleyDB.seq_no (hash_of p) b). rewrite En. split; [|done].
  destruct (Z.of_nat (length chain) =? 0); [done|]. destruct (u64 _ =? count_pool s); [|done]. cbn [negb].
  destruct (Z.eqb_spec (Z.of_nat (length chain) + 1) (Z.of_nat (length chain))) as [E|_]; [lia|]. cbn [negb].
  rewrite <- (stored_queue _ _ Hs). by destruct s.
Qed.
End repair.
End StorageSpec.

(** ** Witnesses *)

(** The block of [Pool] at a place; [genesis] and two that may follow it *)
Definition block_at (previous : bytes) (sequence version : Z) : Pool.priv :=
  sample_pool <| Pool.version_ := version |> <| Pool.previous_hash_ := previous |> <| Pool.sequence_ := sequence |>.
Definition genesis : Pool.priv := block_at [] 0 1.
Definition genesis_hash : bytes := Eval vm_compute in StorageSpec.hash_of genesis.
Definition second : Pool.priv := block_at genesis_hash 1 1.
Definition other : Pool.priv := block_at genesis_hash 1 2.

Lemma block_at_wf previous sequence version :
  PoolHash.wf_hash previous -> in_u 64 sequence -> in_u 8 version -> in_u 64 (Z.of_nat (length (Pool.hashed_enc (block_at previous sequence version)))) ->
  Pool.wf_pool (block_at previous sequence version).
Proof. intros H1 H2 H3 H4. destruct sample_pool_wf. by split. Qed.

#[local] Abbreviation stored := (StorageSpec.stored (ok := BerkeleyDB.ok) (rows := BerkeleyDB.rows) (names := BerkeleyDB.names)).
#[local] Abbreviation first_element := (fun _ : list PoolElement => 0%nat).

Definition empty_storage : Storage BerkeleyDB.t := mkStorage (Some (Some (BerkeleyDB.mkTables ∅ ∅ ∅))) [] 0 [] [].

Lemma empty_stored : stored empty_storage [].
Proof.
  split; [|eexists; split; [reflexivity|]|done..].
  - by split; [constructor|intros i p; rewrite lookup_nil|constructor|].
  - split; [|split; [split|]].
    + intros n [v E]. cbn in E. by rewrite lookup_empty in E.
    + intros i. cbn [BerkeleyDB.rows BerkeleyDB.db_blocks_]. by rewrite kmap_empty, lookup_empty.
    + intros n _. cbn [BerkeleyDB.rows BerkeleyDB.db_blocks_]. by rewrite kmap_empty, lookup_empty.
    + intros h n. cbn [BerkeleyDB.names BerkeleyDB.db_seq_no_]. rewrite fmap_empty, lookup_empty. split; [done|].
      intros (i & p & _ & E & _). by rewrite lookup_nil in E.
Qed.

Lemma genesis_next : StorageSpec.next [] genesis.
Proof.
  split; [|done..| |cbn; lia].
  - apply block_at_wf; [by left|unfold in_u; lia..|]. by apply (bool_decide_unpack _); vm_compute.
  - apply not_elem_of_nil.
Qed.

Lemma second_next version : version = 1 \/ version = 2 -> StorageSpec.next [genesis] (block_at genesis_hash 1 version).
Proof.
  intros Hv. split; [|done| | |cbn; lia].
  - destruct Hv as [-> | ->]; (apply block_at_wf; [by right|unfold in_u; lia..|]; by apply (bool_decide_unpack _); vm_compute).
  - symmetry. by vm_compute.
  - cbn [map]. intros E%list_elem_of_singleton. apply (bool_decide_unpack (StorageSpec.hash_of (block_at genesis_hash 1 version) <> StorageSpec.hash_of genesis)); [|exact E].
    by destruct Hv as [-> | ->]; vm_compute.
Qed.

Lemma composed_copy previous sequence version : StorageSpec.copy (block_at previous sequence version) (Pool.composed (block_at previous sequence version)).
Proof. by apply StorageSpec.copy_composed. Qed.

Definition two_blocks : list StorageSpec.change := [StorageSpec.Push (Pool.composed genesis); StorageSpec.Push (Pool.composed second)].
Definition sample_storage : Storage BerkeleyDB.t :=
  match StorageSpec.run first_element two_blocks empty_storage with Some (Ok (_, s)) => s | _ => empty_storage end.

Lemma sample_stored : stored sample_storage [genesis; second].
Proof.
  destruct (StorageSpec.next_saved first_element _ _ _ _ empty_stored genesis_next (composed_copy _ _ _)) as (s1 & E1 & Hs1 & _).
  destruct (StorageSpec.next_saved first_element _ _ _ _ Hs1 (second_next 1 ltac:(by left)) (composed_copy _ _ _)) as (s2 & E2 & Hs2 & _).
  unfold sample_storage, two_blocks. cbn [StorageSpec.run]. unfold genesis. rewrite E1. cbn [mthen ret]. unfold second. rewrite E2. exact Hs2.
Qed.

Lemma sample_linked : StorageSpec.linked [genesis; second].
Proof. apply (StorageSpec.stored_linked _ _ sample_stored). Qed.

Lemma storage_is_a_stack_witness :
  exists s', StorageSpec.run first_element (two_blocks ++ [StorageSpec.Pop; StorageSpec.Push (Pool.composed other)]) empty_storage = ret ([true; true; true; true], s') /\
    Storage.last_hash s' = StorageSpec.hash_of other /\ Storage.size s' = 2 /\
    forall i, number_ok (Z.of_nat i) ->
      Storage.pool_hash (Z.of_nat i) s' = ret (match [genesis; other] !! i with Some p => StorageSpec.hash_of p | None => [] end).
Proof.
  destruct (StorageSpec.storage_is_a_stack first_element empty_storage [] (two_blocks ++ [StorageSpec.Pop; StorageSpec.Push (Pool.composed other)])
    [genesis; other] empty_stored) as (s' & E1 & E2 & E3 & E4); [|exists s'; split; [exact E1|]; split; [exact E2|]; split; [exact E3|exact E4]].
  apply (StorageSpec.follows_push [] genesis); [exact genesis_next|apply composed_copy|].
  apply (StorageSpec.follows_push [genesis] second); [apply second_next; by left|apply composed_copy|].
  apply (StorageSpec.follows_pop [genesis] second).
  apply (StorageSpec.follows_push [genesis] other); [apply second_next; by right|apply composed_copy|constructor].
Defined.

Definition cached_second : PoolElement := mkElement 1 (StorageSpec.hash_of second) (Pool.composed second).

Lemma second_is_cached : Storage.find_seq 1 (pools_cache sample_storage) = Some cached_second.
Proof. vm_compute. reflexivity. Qed.

Lemma replaced_block_is_stale_witness :
  exists q s1 s2, Storage.pool_remove_last sample_storage = ret (q, s1) /\ Storage.pool_save first_element (Pool.composed other) s1 = ret (true, s2) /\
    Storage.last_hash s2 = StorageSpec.hash_of other /\ Storage.pool_hash 1 s2 = ret (StorageSpec.hash_of other) /\
    Storage.pool_load first_element 1 s2 = ret (Pool.composed second, s2) /\ StorageSpec.hash_of second <> StorageSpec.hash_of other.
Proof.
  destruct (StorageSpec.replaced_block_is_stale first_element sample_storage [genesis] second cached_second other (Pool.composed other))
    as (q & s1 & s2 & E1 & E2 & E3 & E4 & E5);
    [exact sample_stored|exact second_is_cached|reflexivity|by apply (bool_decide_unpack _); vm_compute|apply second_next; by right|apply composed_copy|].
  exists q, s1, s2. split; [exact E1|]. split; [exact E2|]. split; [exact E3|]. split; [exact E4|]. split; [exact E5|].
  by apply (bool_decide_unpack _); vm_compute.
Defined.

Lemma sample_db : exists b, db_ sample_storage = Some b /\
  StorageSpec.db_holds (ok := BerkeleyDB.ok) (rows := BerkeleyDB.rows) (names := BerkeleyDB.names) b [genesis; second].
Proof. apply (StorageSpec.stored_db _ _ sample_stored). Qed.

Lemma reopening_restores_witness :
  exists b s, db_ sample_storage = Some b /\
    Storage.open first_element 1 (fun p t => ret (false, t ++ [Pool.hash_ p])) (fun _ => false) (Some b) kWrongSequence Storage.closed []
      = ret (true, s, [StorageSpec.hash_of genesis; StorageSpec.hash_of second]) /\
    stored s [genesis; second] /\
    forall i p, [genesis; second] !! i = Some p -> exists q s', Storage.pool_load first_element (Z.of_nat i) s = ret (q, s') /\ StorageSpec.copy p q.
Proof.
  destruct sample_db as (b & Eb & Hb). exists b.
  destruct (StorageSpec.reopening_restores first_element (fun p t => t ++ [Pool.hash_ p]) 1 b [genesis; second] [] Hb sample_linked) as (s & E & R).
  exists s. split; [exact Eb|]. split; [exact E|exact R].
Defined.

Lemma new_top_truncates_witness :
  exists b b', db_ sample_storage = Some b /\
    Storage.open first_element 2 (fun _ t => ret (false, t)) (fun _ => false) (Some b) 0 Storage.closed tt = ret (true, Storage.closed <| db_ := Some b' |>, tt) /\
    StorageSpec.db_holds (ok := BerkeleyDB.ok) (rows := BerkeleyDB.rows) (names := BerkeleyDB.names) b' [genesis].
Proof.
  destruct sample_db as (b & Eb & Hb). exists b.
  destruct (StorageSpec.new_top_truncates first_element (fun _ t => ret (false, t)) (fun _ => false) 2 0 b [genesis; second] Storage.closed tt Hb sample_linked)
    as (b' & E & Hb'); [cbn; lia|cbn; lia|].
  exists b'. split; [exact Eb|]. split; [exact E|exact Hb'].
Defined.

Lemma repair_refuses_witness :
  Storage.pool_remove_last_repair first_element 1 (StorageSpec.hash_of second) sample_storage = ret (false, sample_storage) /\
  Storage.pool_sequence (StorageSpec.hash_of second) sample_storage = 2.
Proof. apply (StorageSpec.repair_refuses first_element sample_storage [genesis] second sample_stored). Defined.
