(* ===== verification/ContractRef.v ===== *)
(** * Contract transactions ([solver/include/solver/smartcontracts.hpp],
      [solver/src/smartcontracts.cpp])

    The reference to a transaction of a block ([SmartContractRef]) with its
    serialised form and its order, and the predicates by which the node tells
    deployments, calls and new states from plain transactions. *)

From Stdlib Require Import ZArith Lia.
From stdpp Require Import base tactics numbers option list.
From S2P Require Import Prelude Effect BinStream Amount UserField Crypto DataStream Address Transaction Pool.

Local Open Scope Z_scope.
Local Open Scope cs_scope.

(** [trx_uf]: the ids of the user fields *)
Definition deploy_Code : Z := 0.
Definition start_Methods : Z := 0.
Definition start_RefState : Z := 1.
Definition new_state_Value : Z := -2.
Definition new_state_RefStart : Z := 1.
Definition new_state_Fee : Z := 2.
Definition new_state_RetVal : Z := 3.
Definition new_state_Hash : Z := 4.
Definition smart_gen_RefStart : Z := 0.

(** ** [SmartContractRef] *)

Record SmartContractRef := mkRef { sequence : Z; transaction : Z }.

#[export] Instance ref_eq_dec : EqDecision SmartContractRef.
Proof. solve_decision. Defined.

Module Ref.

Definition max : Z := 2 ^ 64 - 1.
Definition invalid : SmartContractRef := mkRef max max.
Definition is_valid (r : SmartContractRef) : bool := negb (sequence r =? max) && negb (transaction r =? max).

(** [SmartContractRef(const csdb::TransactionID&)] *)
Definition of_id (tid : TransactionID) : SmartContractRef :=
  if TxId.is_valid tid then mkRef (pool_seq_ tid) (index_ tid) else invalid.
Definition getTransactionID (r : SmartContractRef) : TransactionID := mkTransactionID (sequence r) (transaction r).

Definition op_eq (l r : SmartContractRef) : bool := (transaction l =? transaction r) && (sequence l =? sequence r).

Definition op_lt (l r : SmartContractRef) : bool :=
  if negb (is_valid l) then is_valid r
  else if negb (is_valid r) then false
  else if sequence l <? sequence r then true
  else if sequence l >? sequence r then false
  else transaction l <? transaction r.

Definition op_gt (l r : SmartContractRef) : bool :=
  if negb (is_valid r) then is_valid l
  else if negb (is_valid l) then false
  else negb (op_lt l r) && negb (op_eq l r).

(** An empty hash first, for compatibility. *)
Definition to_user_field (r : SmartContractRef) : UserField :=
  uf_of_string (addValue 8 (transaction r) (addValue 8 (sequence r) (addVector [] []))).

Definition from_user_field (fld : UserField) : result SmartContractRef :=
  let stream := open (value_string fld) in
  let! (dummy, stream) := parseVector stream in
  let '(sequence, stream) := parseValue 8 stream in
  let '(transaction, stream) := parseValue 8 stream in
  Ok (if negb (isValid stream) || isAvailable stream 1 then invalid else mkRef sequence transaction).

Definition wf_ref (r : SmartContractRef) : Prop := in_u 64 (sequence r) /\ in_u 64 (transaction r).

Lemma le_bytes_open r : wf_ref r ->
  sane (open (value_string (to_user_field r))) /\
  unread (open (value_string (to_user_field r)))
  = ds_enc vector_ds [] ++ ds_enc (uint_ds 8) (sequence r) ++ ds_enc (uint_ds 8) (transaction r) ++ [].
Proof.
  intros [Hs Ht]. split; [|rewrite app_nil_r; done].
  unfold to_user_field, value_string, uf_of_string. cbn [type_ s_value_]. apply sane_open.
  - unfold addVector, addValue. repeat first [apply le_bytes_ok | apply Forall_app; split | apply Forall_nil_2 | exact I].
  - unfold addVector, addValue. rewrite !length_app, !length_le_bytes. cbn. lia.
Qed.

(** A reference to a transaction written into a user field by to_user_field is read back by
    from_user_field. *)
Theorem ref_roundtrip r : wf_ref r -> from_user_field (to_user_field r) = Ok r.
Proof.
  intros Hr. destruct (le_bytes_open r Hr) as [Hs E]. unfold from_user_field. set (st := open _) in *.
  destruct Hr as [Rs Rt]. unfold in_u in Rs, Rt.
  destruct (ds_step vector_ds [] _ st ltac:(cbn; lia) Hs E) as (s1 & G1 & S1 & U1 & B1). cbn [ds_get vector_ds] in G1.
  rewrite G1. cbn [rbind].
  destruct (ds_step (uint_ds 8) (sequence r) _ s1 ltac:(cbn; lia) S1 U1) as (s2 & G2 & S2 & U2 & B2). cbn [ds_get uint_ds] in G2.
  injection G2 as ->. 
  destruct (ds_step (uint_ds 8) (transaction r) _ s2 ltac:(cbn; lia) S2 U2) as (s3 & G3 & S3 & U3 & B3). cbn [ds_get uint_ds] in G3.
  injection G3 as ->. destruct (unread_nil s3 S3 U3) as [Ei ->].
  rewrite B3, B2, B1. rewrite isAvailable_exact by (done || lia). rewrite (proj2 (Z.leb_gt _ _)) by lia. cbn. by destruct r.
Qed.

(** The order of the references: all that are not valid come first, as equals. *)
Lemma op_gt_flip l r : op_gt l r = op_lt r l.
Proof.
  unfold op_gt, op_lt, op_eq. destruct (is_valid r), (is_valid l); cbn [negb]; try done.
  destruct (Z.ltb_spec (sequence l) (sequence r)), (Z.ltb_spec (sequence r) (sequence l)), (Z.gtb_spec (sequence l) (sequence r)),
    (Z.gtb_spec (sequence r) (sequence l)), (Z.ltb_spec (transaction l) (transaction r)), (Z.ltb_spec (transaction r) (transaction l)),
    (Z.eqb_spec (transaction l) (transaction r)), (Z.eqb_spec (sequence l) (sequence r)); try done; lia.
Qed.

Lemma op_lt_irrefl r : op_lt r r = false.
Proof. unfold op_lt. destruct (is_valid r); [|done]. cbn [negb]. rewrite Z.ltb_irrefl, Z.gtb_ltb, !Z.ltb_irrefl. done. Qed.

(** What [std::map] asks of a key: a strict weak order. *)
Theorem ref_order_strict_weak a b c :
  (op_lt a b = true -> op_lt b a = false) /\
  (op_lt a b = true -> op_lt b c = true -> op_lt a c = true) /\
  (op_lt a b = false -> op_lt b c = false -> op_lt a c = false).
Proof.
  unfold op_lt. destruct (is_valid a), (is_valid b), (is_valid c); cbn [negb]; try done; rewrite !Z.gtb_ltb.
  all: repeat match goal with |- context [?x <? ?y] => destruct (Z.ltb_spec x y) end; split_and!; try done; lia.
Qed.
End Ref.

(** ** The kinds of transactions *)

Module Contracts.
Section contracts.
(** The method in a serialised [api::SmartContractInvocation] (generated by Thrift), and the block storage. *)
Context (invocation_method : bytes -> bytes) (loadBlock : Z -> Pool.priv).

Definition is_string (f : UserField) : bool := bool_decide (type_ f = String_).

Definition is_executable (tr : Transaction) : bool :=
  if negb (Tx.is_valid tr) then false
  else let f := Tx.user_field deploy_Code tr in uf_is_valid f && is_string f.

Definition is_deploy (tr : Transaction) : bool :=
  if negb (is_executable tr) then false
  else
    let uf := Tx.user_field deploy_Code tr in
    if negb (uf_is_valid uf) then false else bool_decide (invocation_method (value_string uf) = []).

Definition is_start (tr : Transaction) : bool := is_executable tr && negb (is_deploy tr).

Definition is_new_state (tr : Transaction) : bool :=
  if negb (Tx.is_valid tr) then false
  else if negb (is_string (Tx.user_field new_state_RefStart tr)) then false
  else is_string (Tx.user_field new_state_Value tr) || is_string (Tx.user_field new_state_Hash tr).

Definition is_smart_contract (tr : Transaction) : bool := is_executable tr || is_new_state tr.

Definition is_state_updated (tr : Transaction) : bool :=
  if negb (is_new_state tr) then false
  else
    let fld := Tx.user_field new_state_Value tr in
    if uf_is_valid fld then negb (bool_decide (value_string fld = []))
    else
      let fld := Tx.user_field new_state_Hash tr in
      if uf_is_valid fld then
        let tmp := value_string fld in
        if (length tmp =? kHashSize)%nat then negb (bool_decide (tmp = replicate kHashSize 0)) else false
      else false.

(** [get_transaction(storage, contract)] *)
Definition get_transaction (contract : SmartContractRef) : result Transaction :=
  let block := loadBlock (sequence contract) in
  if negb (Pool.is_valid_ block) then Ok Tx.default
  else if Pool.transactionsCount_ block <=? transaction contract then Ok Tx.default
  else match Pool.transactions_ block !! Z.to_nat (transaction contract) with
       | Some tr => Ok tr
       | None => Throw out_of_range
       end.

(** [get_transaction(storage, state_transaction)] *)
Definition get_init_transaction (state_transaction : Transaction) : result Transaction :=
  if negb (is_new_state state_transaction) then Ok Tx.default
  else
    let fld := Tx.user_field new_state_RefStart state_transaction in
    if negb (uf_is_valid fld) then Ok Tx.default
    else let! ref := Ref.from_user_field fld in get_transaction ref.

(** A new state that updates is a new state; a deployment or a call has the field of its code. *)
Lemma kinds_spec tr :
  (is_state_updated tr = true -> is_new_state tr = true) /\
  (is_executable tr = true <-> Tx.is_valid tr = true /\ type_ (Tx.user_field deploy_Code tr) = String_).
Proof.
  split.
  - unfold is_state_updated. destruct (is_new_state tr); [done|done].
  - unfold is_executable, is_string, uf_is_valid. destruct (Tx.is_valid tr); cbn [negb]; [|naive_solver].
    destruct (type_ (Tx.user_field deploy_Code tr)); cbn; naive_solver.
Qed.
End contracts.
End Contracts.

(** ** Witnesses *)

Lemma ref_roundtrip_witness : Ref.from_user_field (Ref.to_user_field (mkRef 12 3)) = Ok (mkRef 12 3).
Proof. apply (Ref.ref_roundtrip (mkRef 12 3)). split; unfold in_u; cbn; lia. Defined.
