(* ===== verification/ContractState.v ===== *)
(** * The states of contracts in the database ([solver/src/smartcontracts.cpp])

    The last state of a contract is kept in the database under the contract's
    key, with the reference of the transaction that started the execution:
    [dbcache_update], [dbcache_read] and [get_contract_state].  Only a
    newer state replaces one, unless the update is forced, so that over any
    database the records behave as a map from keys to states ([contract_cache_refines]). *)

From Stdlib Require Import ZArith Lia.
From stdpp Require Import base tactics numbers option list gmap.
From S2P Require Import Prelude Effect BinStream Amount UserField Crypto DataStream Address Utils Transaction Pool Database Storage ContractRef.

Local Open Scope Z_scope.
Local Open Scope cs_scope.

(** What the records of contracts promise: an update is found under its key, and nothing else changes. *)
Class ContractRecords {B} (DB : Database B) (ok : B -> Prop) : Prop := {
  update_contract_ok key data b : ok b -> exists b', db_update_contract key data b = (true, b') /\ ok b';
  get_contract_update key key' data b : ok b ->
    db_get_contract key' (db_update_contract key data b).2 = if decide (key = key') then Some data else db_get_contract key' b
}.

#[export] Instance berkeley_contracts : ContractRecords BerkeleyDB.berkeley (fun b => is_Some b).
Proof.
  split.
  - intros key data b [tables ->]. eexists. by split.
  - intros key key' data b [tables ->]. cbn. by rewrite lookup_insert.
Qed.

Module ContractState.
Section cache.
Context `{!Cscrypto} {B : Type} `{DB : !Database B}.
Implicit Types (s : Storage B) (abs_addr : Address) (ref : SmartContractRef) (state : bytes).

(** [stream << ref_start.sequence << ref_start.transaction << state] *)
Definition record_of ref state : bytes := addVector state (addValue 8 (transaction ref) (addValue 8 (sequence ref) [])).

(** The reference at the head of a record *)
Definition read_ref (data : bytes) : SmartContractRef * istate :=
  let stream := open data in
  let '(sequence, stream) := parseValue 8 stream in
  let '(transaction, stream) := parseValue 8 stream in
  (mkRef sequence transaction, stream).

(** [dbcache_update]: the test whether the new data is newer, and the update *)
Definition is_newer ref (current : SmartContractRef) : bool :=
  if sequence ref <? sequence current then false
  else negb ((sequence current =? sequence ref) && (transaction ref <=? transaction current)).
Definition dbcache_update abs_addr ref state (force_update : bool) s : bool * Storage B :=
  let newer :=
    if force_update then true
    else match Storage.get_contract_data abs_addr s with Some data => is_newer ref (read_ref data).1 | None => true end in
  if newer then Storage.update_contract_data abs_addr (record_of ref state) s else (false, s).

(** [dbcache_read]: the outputs keep what they had when there is no record. *)
Definition dbcache_read abs_addr ref state s : result (bool * SmartContractRef * bytes) :=
  match Storage.get_contract_data abs_addr s with
  | None => Ok (false, ref, state)
  | Some data =>
      let '(ref, stream) := read_ref data in
      let! (state, stream) := parseVector stream in
      let! (state, stream) := (if isAvailable stream 8 && (length state =? kHashSize)%nat then parseVector stream else Ok (state, stream)) in
      let ok := isValid stream && negb (isAvailable stream 1) in
      Ok (ok, ref, if ok then state else [])
  end.

(** [get_contract_state] *)
Definition get_contract_state abs_addr s : result bytes :=
  let! (_, _, state) := dbcache_read abs_addr Ref.invalid [] s in Ok state.

(** *** A record is read back *)

Definition wf_record ref state : Prop := Ref.wf_ref ref /\ bytes_ok state /\ Z.of_nat (length state) < 2 ^ 61.

Lemma record_parts ref state :
  record_of ref state = ds_enc (uint_ds 8) (sequence ref) ++ ds_enc (uint_ds 8) (transaction ref) ++ ds_enc vector_ds state ++ [].
Proof.
  unfold record_of, ds_enc. cbn [ds_put uint_ds vector_ds]. unfold addVector, addValue. by rewrite !app_nil_l, app_nil_r, !app_assoc.
Qed.

Lemma record_sane ref state : wf_record ref state -> sane (open (record_of ref state)).
Proof.
  intros (Hr & Hb & Hl). unfold record_of, addVector, addValue. apply sane_open.
  - repeat first [apply le_bytes_ok | apply Forall_app; split | apply Forall_nil_2 | exact Hb].
  - rewrite !length_app, !length_le_bytes. cbn. lia.
Qed.

Lemma read_ref_record ref state : wf_record ref state ->
  exists stream, read_ref (record_of ref state) = (ref, stream) /\ sane stream /\ unread stream = ds_enc vector_ds state ++ [] /\ state_ stream = true.
Proof.
  intros Hw. pose proof (record_sane _ _ Hw) as Hs. destruct Hw as ([Rs Rt] & Hb & Hl). unfold in_u in Rs, Rt.
  pose proof (unread_open (record_of ref state)) as E. rewrite record_parts in E at 2. unfold read_ref. set (st := open _) in *.
  assert (state_ st = true) as Hst by done.
  destruct (ds_step (uint_ds 8) (sequence ref) _ st ltac:(cbn; lia) Hs E) as (s1 & G1 & S1 & U1 & B1). cbn [ds_get uint_ds] in G1. injection G1 as ->.
  destruct (ds_step (uint_ds 8) (transaction ref) _ s1 ltac:(cbn; lia) S1 U1) as (s2 & G2 & S2 & U2 & B2). cbn [ds_get uint_ds] in G2. injection G2 as ->.
  exists s2. destruct ref. split_and!; try done. congruence.
Qed.

Lemma read_record abs_addr ref state r st s :
  wf_record ref state -> Storage.get_contract_data abs_addr s = Some (record_of ref state) -> dbcache_read abs_addr r st s = Ok (true, ref, state).
Proof.
  intros Hw E. unfold dbcache_read. rewrite E. destruct (read_ref_record ref state Hw) as (stream & -> & Hs & U & Hst).
  destruct Hw as (_ & _ & Hl).
  destruct (ds_step vector_ds state _ stream ltac:(cbn; lia) Hs U) as (s3 & G3 & S3 & U3 & B3). cbn [ds_get vector_ds] in G3. rewrite G3. cbn [rbind].
  destruct (unread_nil s3 S3 U3) as [Ei Ev]. rewrite isAvailable_exact by (done || lia). rewrite (proj2 (Z.leb_gt _ _)) by lia. cbn [andb rbind].
  rewrite Ev, isAvailable_exact by (done || lia). rewrite (proj2 (Z.leb_gt _ _)) by lia. by rewrite B3, Hst.
Qed.

(** *** The records are a map *)
Section map.
Context {ok : B -> Prop} `{!ContractRecords DB ok}.

(** The newest state of each key: *)
#[local] Abbreviation table := (gmap bytes (SmartContractRef * bytes)).

Record represents s (m : table) : Prop := {
  represents_open : exists b, db_ s = Some b /\ ok b;
  represents_records abs_addr : Storage.get_contract_data abs_addr s = (fun x => record_of x.1 x.2) <$> m !! public_key abs_addr;
  represents_wf key ref state : m !! key = Some (ref, state) -> wf_record ref state
}.

(** An update: a contract, the reference, the state and [force_update] *)
Record update := mkUpdate { up_addr : Address; up_ref : SmartContractRef; up_state : bytes; up_force : bool }.

(** The references in the order of the blocks and of the transactions in them *)
Definition older (current ref : SmartContractRef) : Prop :=
  sequence current < sequence ref \/ (sequence current = sequence ref /\ transaction current < transaction ref).
#[global] Instance older_dec current ref : Decision (older current ref).
Proof. unfold older. apply _. Defined.

Definition table_update (u : update) (m : table) : bool * table :=
  let key := public_key (up_addr u) in
  let newest := up_force u || match m !! key with Some (current, _) => bool_decide (older current (up_ref u)) | None => true end in
  (newest, if newest then <[key := (up_ref u, up_state u)]> m else m).

(** The updates in turn, with their results *)
Fixpoint run (l : list update) s : list bool * Storage B :=
  match l with
  | [] => ([], s)
  | u :: l => let '(done, s) := dbcache_update (up_addr u) (up_ref u) (up_state u) (up_force u) s in let '(results, s) := run l s in (done :: results, s)
  end.
Fixpoint run_table (l : list update) (m : table) : list bool * table :=
  match l with
  | [] => ([], m)
  | u :: l => let '(done, m) := table_update u m in let '(results, m) := run_table l m in (done :: results, m)
  end.

Lemma is_newer_older ref current : is_newer ref current = bool_decide (older current ref).
Proof.
  unfold is_newer. symmetry. unfold older. destruct (Z.ltb_spec (sequence ref) (sequence current)).
  - apply bool_decide_false. lia.
  - destruct (Z.eqb_spec (sequence current) (sequence ref)), (Z.leb_spec (transaction ref) (transaction current)); cbn [andb negb];
      [apply bool_decide_false; lia|apply bool_decide_true; lia..].
Qed.

Lemma update_written abs_addr ref state s m :
  represents s m -> wf_record ref state ->
  exists s', Storage.update_contract_data abs_addr (record_of ref state) s = (true, s') /\ represents s' (<[public_key abs_addr := (ref, state)]> m).
Proof.
  intros [(b & Eb & Hb) Hrec Hwf] Hw. unfold Storage.update_contract_data. rewrite Eb.
  destruct (update_contract_ok (public_key abs_addr) (record_of ref state) b Hb) as (b' & E & Hb'). rewrite E. eexists. split; [done|]. split.
  - by exists b'.
  - intros addr. unfold Storage.get_contract_data. cbn [upd db_ mbind option_bind].
    pose proof (get_contract_update (public_key abs_addr) (public_key addr) (record_of ref state) b Hb) as G. rewrite E in G. cbn [snd] in G. rewrite G.
    rewrite lookup_insert. destruct (decide _); [done|]. rewrite <- Hrec. unfold Storage.get_contract_data. by rewrite Eb.
  - intros key r st. rewrite lookup_insert. destruct (decide _); [by intros [= <- <-]|apply Hwf].
Qed.

Lemma update_step u s m :
  represents s m -> wf_record (up_ref u) (up_state u) ->
  exists s', dbcache_update (up_addr u) (up_ref u) (up_state u) (up_force u) s = ((table_update u m).1, s') /\ represents s' (table_update u m).2.
Proof.
  intros Hr Hw. pose proof Hr as [_ Hrec Hwf]. unfold dbcache_update, table_update. destruct (up_force u); cbn [orb]; [by apply update_written|]. rewrite Hrec.
  destruct (m !! public_key (up_addr u)) as [[current state]|] eqn:E; cbn [fmap option_fmap option_map fst snd]; [|by apply update_written].
  destruct (read_ref_record current state (Hwf _ _ _ E)) as (stream & -> & _). cbn [fst]. rewrite is_newer_older.
  case_bool_decide; [by apply update_written|by exists s].
Qed.

(** C13: The records of the contracts in the database refine a map from the contracts' keys to
    their newest states: in any sequence of updates, forced or not, each is accepted exactly when
    it is forced or its reference is strictly newer than the one the map has for its contract, if
    any (an equal one is refused), and dbcache_read gives for every contract what the map has. *)
Theorem contract_cache_refines l s m :
  represents s m -> Forall (fun u => wf_record (up_ref u) (up_state u)) l ->
  exists s', run l s = ((run_table l m).1, s') /\ represents s' (run_table l m).2 /\
    forall abs_addr, dbcache_read abs_addr Ref.invalid [] s' =
      Ok match (run_table l m).2 !! public_key abs_addr with Some (ref, state) => (true, ref, state) | None => (false, Ref.invalid, []) end.
Proof.
  intros Hr Hl. assert (exists s', run l s = ((run_table l m).1, s') /\ represents s' (run_table l m).2) as (s' & E & Hs').
  { revert s m Hr. induction Hl as [|u l Hu _ IH]; intros s m Hr; [by exists s|]. cbn [run run_table].
    destruct (update_step u s m Hr Hu) as (s1 & E & Hr1). rewrite E. destruct (table_update u m) as [done m1]. cbn [fst snd] in *.
    destruct (IH s1 m1 Hr1) as (s2 & E2 & Hr2). rewrite E2. destruct (run_table l m1) as [results m2]. by exists s2. }
  exists s'. split; [done|]. split; [done|]. intros abs_addr. destruct Hs' as [_ Hrec Hwf]. specialize (Hrec abs_addr).
  destruct ((run_table l m).2 !! public_key abs_addr) as [[ref state]|] eqn:Em.
  - apply read_record; [by eapply Hwf|exact Hrec].
  - unfold dbcache_read. by rewrite Hrec.
Qed.
End map.
End cache.
End ContractState.

(** ** Witnesses *)

(** An open database without contracts, two contracts, an old state that comes late, and one that is
    forced *)
Definition no_contracts : Storage BerkeleyDB.t := mkStorage (Some (Some (BerkeleyDB.mkTables ∅ ∅ ∅))) [] 0 [] [].
Definition contract_key (n : Z) : Address := Address.from_public_key (le_bytes 32 n).
Definition four_updates : list ContractState.update :=
  [ContractState.mkUpdate (contract_key 1) (mkRef 7 2) [10] false; ContractState.mkUpdate (contract_key 2) (mkRef 5 0) [20] false;
   ContractState.mkUpdate (contract_key 1) (mkRef 7 1) [30] false; ContractState.mkUpdate (contract_key 2) (mkRef 4 0) [40] true].

Lemma contract_cache_refines_witness :
  exists s, ContractState.run four_updates no_contracts = ([true; true; false; true], s) /\
    ContractState.dbcache_read (contract_key 1) Ref.invalid [] s = Ok (true, mkRef 7 2, [10]) /\
    ContractState.dbcache_read (contract_key 2) Ref.invalid [] s = Ok (true, mkRef 4 0, [40]).
Proof.
  destruct (ContractState.contract_cache_refines (ok := fun b => is_Some b) four_updates no_contracts ∅) as (s & E & _ & R).
  - split.
    + eexists. split; [reflexivity|]. by eexists.
    + intros abs_addr. by rewrite lookup_empty.
    + intros key ref state. by rewrite lookup_empty.
  - repeat constructor; cbn; lia.
  - exists s. split; [exact E|]. split; [exact (R (contract_key 1))|exact (R (contract_key 2))].
Defined.
