(* ===== verification/Conveyer.v ===== *)
(** * The conveyer ([csnode/src/conveyer.cpp],
      [csnode/include/csnode/conveyer.hpp], [csnode/include/csnode/nodecore.hpp],
      [csnode/include/csnode/sendcachedata.hpp])

    The node's store of packets: the queue of its own transactions, the table of
    packets by their hashes, what it knows of each round (the round's table, the
    hashes it still misses, the characteristic), and the own packets that may
    have to be sent again.  It assembles the transactions of a round for the
    validator ([createPacket]) and the block of those that the characteristic
    accepts ([applyCharacteristic]).

    Every method is one step (the source holds the lock for each of them); the
    signals are the second result.  [Impl] is [ConveyerBase::Impl]. *)

From Stdlib Require Import ZArith Lia.
From stdpp Require Import base tactics numbers option list gmap.
From S2P Require Import Prelude Effect BinStream UserField Crypto DataStream Address Utils Transaction Packet MetaStorage Pool ContractRef.

Local Open Scope Z_scope.
Local Open Scope cs_scope.

Import Contracts.

(** [RoundTable] *)
Record RoundTable := mkRoundTable { rt_round : Z; rt_confidants : list bytes; rt_hashes : list bytes }.

(** [ConveyerMeta]; of the characteristic the mask *)
Record ConveyerMeta := mkConveyerMeta {
  characteristic_ : bytes;
  hashTable_ : gmap bytes TransactionsPacket;
  neededHashes_ : list bytes;
  roundTable_ : RoundTable;
  notifications_ : list bytes;
  invalidTransactions_ : TransactionsPacket
}.
#[global] Instance eta_meta : Eta ConveyerMeta := fun m =>
  mkConveyerMeta (characteristic_ m) (hashTable_ m) (neededHashes_ m) (roundTable_ m) (notifications_ m) (invalidTransactions_ m).

(** [CharacteristicMeta] *)
Record CharacteristicMeta := mkCharacteristicMeta { cm_bytes : bytes; cm_sender : bytes; cm_signatures : list bytes; cm_realTrusted : bytes }.

(** [PoolMetaInfo]: the parts that [applyCharacteristic] reads *)
Record PoolMetaInfo := mkPoolMetaInfo { pm_timestamp : bytes; pm_previousHash : bytes; pm_sequenceNumber : Z; pm_realTrustedMask : bytes }.

(** [SendCacheData]; the multimap is the list of its pairs, sorted by the round. *)
Record SendCacheData := mkSendCacheData { sc_hash : bytes; sc_count : Z }.

(** [ConveyerBase::Impl] *)
Record Impl := mkImpl {
  packetQueue_ : Queue;
  packetsTable_ : gmap bytes TransactionsPacket;
  sendPacketsCache_ : list (Z * SendCacheData);
  metaStorage_ : Meta ConveyerMeta;
  characteristicMetas_ : Meta CharacteristicMeta;
  currentRound_ : Z;
  privateKey_ : option bytes
}.
#[global] Instance eta_impl : Eta Impl := fun s =>
  mkImpl (packetQueue_ s) (packetsTable_ s) (sendPacketsCache_ s) (metaStorage_ s) (characteristicMetas_ s) (currentRound_ s) (privateKey_ s).

Inductive Signal :=
  | RoundChanged (round : Z)
  | PacketFlushed (p : TransactionsPacket)
  | StatesCreated (l : list Transaction).

Module Conveyer.

Definition MaxPacketTransactions : nat := 100.
Definition MaxPacketsPerRound : nat := 10.
Definition MaxQueueSize : nat := 1000 * 1000.
Definition MetaCapacity : nat := 100.
Definition smartContractDetector : nat := 1.

Definition no_round : RoundTable := mkRoundTable 0 [] [].
Definition no_meta : ConveyerMeta := mkConveyerMeta [] ∅ [] no_round [] Packet.empty.

(** The constructor, with the sizes as arguments *)
Definition init (queueSize transactionsSize packetsPerRound metaSize : nat) : Impl :=
  mkImpl (PacketQueue.new queueSize transactionsSize packetsPerRound) ∅ []
    (MetaStorage.append (0, no_meta) (MetaStorage.new metaSize)).2 (MetaStorage.new 5) 0 None.

Section conveyer.
Context `{!Cscrypto} (generateSignature : bytes -> bytes -> bytes).
(** [conveyerData()] of the configuration *)
Context (sendCacheValue maxResends : Z).
(** what an uninitialised [smartConsensusPool] holds *)
Context (indeterminate : Z).

(** *** Rounds *)

Definition setRound (round : Z) (s : Impl) : Impl * list Signal :=
  if currentRound_ s <? round then (s <| currentRound_ := round |>, [RoundChanged round]) else (s, []).

Definition changeRound (round : Z) (s : Impl) : Impl * list Signal :=
  if negb (currentRound_ s =? round) then (s <| currentRound_ := round |>, [RoundChanged round]) else (s, []).

(** [Impl::validMeta]: null when there is none at all *)
Definition validMeta (s : Impl) : M ConveyerMeta :=
  match MetaStorage.get (currentRound_ s) (metaStorage_ s) with
  | Some meta => ret meta
  | None => MetaStorage.max (metaStorage_ s)
  end.
Definition currentRoundTable (s : Impl) : M RoundTable := do! meta := validMeta s in ret (roundTable_ meta).
Definition confidants (s : Impl) : M (list bytes) := do! table := currentRoundTable s in ret (rt_confidants table).
Definition confidantsCount (s : Impl) : M nat := do! keys := confidants s in ret (length keys).
Definition isConfidantExists (index : nat) (s : Impl) : M bool := do! keys := confidants s in ret (index <? length keys)%nat.
Definition isConfidantKey (confidant : bytes) (s : Impl) : M bool := do! keys := confidants s in ret (bool_decide (confidant ∈ keys)).
Definition confidantByIndex (i : nat) (s : Impl) : M bytes := do! keys := confidants s in index keys i.
Definition confidantIfExists (i : nat) (s : Impl) : M (option bytes) :=
  do! exists_ := isConfidantExists i s in
  if exists_ : bool then do! key := confidantByIndex i s in ret (Some key) else ret None.
Definition roundTable (round : Z) (s : Impl) : option RoundTable := roundTable_ <$> MetaStorage.get round (metaStorage_ s).
Definition currentNeededHashes (s : Impl) : M (list bytes) := do! meta := validMeta s in ret (neededHashes_ meta).
Definition neededHashes (round : Z) (s : Impl) : option (list bytes) := neededHashes_ <$> MetaStorage.get round (metaStorage_ s).

(** A change through the pointer of [metaStorage.get(round)] *)
Definition write_meta (round : Z) (f : ConveyerMeta -> ConveyerMeta) (s : Impl) : Impl :=
  s <| metaStorage_ := MetaStorage.write round f (metaStorage_ s) |>.

(** [setTable] *)
Definition setTable (table : RoundTable) (s : Impl) : Impl * list Signal :=
  if rt_round table <? currentRound_ s then (s, [])
  else
    let needed := filter (fun hash => packetsTable_ s !! hash = None) (rt_hashes table) in
    let '(s, signals) := changeRound (rt_round table) s in
    let meta := no_meta <| neededHashes_ := needed |> <| roundTable_ := table |> in
    (if negb (MetaStorage.contains (currentRound_ s) (metaStorage_ s))
     then s <| metaStorage_ := (MetaStorage.append (rt_round table, meta) (metaStorage_ s)).2 |> else s, signals).

(** The loop of [updateRoundTable]; the round is a 64-bit integer. *)
Fixpoint drop_rounds (fuel : nat) (round cachedRound : Z) (m : Meta ConveyerMeta) : M (Meta ConveyerMeta) :=
  match fuel with
  | O => None
  | S fuel =>
      if round <=? cachedRound then drop_rounds fuel round (u64 (cachedRound - 1)) (MetaStorage.extract cachedRound m).2
      else ret m
  end.

(** [updateRoundTable] *)
Definition updateRoundTable (fuel : nat) (cachedRound : Z) (table : RoundTable) (s : Impl) : M (Impl * list Signal) :=
  do! m := drop_rounds fuel (rt_round table) cachedRound (metaStorage_ s) in
  let '(s, signals) := changeRound (rt_round table) (s <| metaStorage_ := m |>) in
  let '(s, more) := setTable table s in
  ret (s, signals ++ more).

(** *** Packets *)

Definition addTransaction (transaction : Transaction) (s : Impl) : Impl :=
  if negb (Tx.is_valid transaction) then s
  else s <| packetQueue_ := (PacketQueue.push transaction (packetQueue_ s)).2 |>.

Definition addSeparatePacket (packet : TransactionsPacket) (s : Impl) : Impl :=
  match packetsTable_ s !! hash_ packet with
  | None => s <| packetQueue_ := PacketQueue.push_packet packet (packetQueue_ s) |>
  | Some _ => s
  end.

(** [std::map::emplace] *)
Definition emplace_packet (hash : bytes) (packet : TransactionsPacket) (t : gmap bytes TransactionsPacket) : gmap bytes TransactionsPacket :=
  match t !! hash with Some _ => t | None => <[hash := packet]> t end.

Definition in_metas (hash : bytes) (s : Impl) : bool :=
  existsb (fun x => bool_decide (is_Some (hashTable_ x.2 !! hash))) (buffer_ (metaStorage_ s)).
Definition isPacketAtCache (packet : TransactionsPacket) (s : Impl) : bool :=
  bool_decide (is_Some (packetsTable_ s !! hash_ packet)) || in_metas (hash_ packet) s.

Definition addTransactionsPacket (packet : TransactionsPacket) (s : Impl) : Impl :=
  if negb (isPacketAtCache packet s) then s <| packetsTable_ := emplace_packet (hash_ packet) packet (packetsTable_ s) |> else s.

(** The transactions of a packet that [TransactionsPacket::addTransaction] takes *)
Definition add_all (l : list Transaction) (p : TransactionsPacket) : TransactionsPacket :=
  foldl (fun p t => (Packet.addTransaction t p).2) p l.

(** The loop of [createPacket] *)
Fixpoint create_loop (table : gmap bytes TransactionsPacket) (hashes : list bytes) (packet : TransactionsPacket) (smarts : list TransactionsPacket)
  : option (TransactionsPacket * list TransactionsPacket) :=
  match hashes with
  | [] => Some (packet, smarts)
  | hash :: hashes =>
      match table !! hash with
      | None => None
      | Some p =>
          let smarts := if (smartContractDetector <? length (signatures_ p))%nat then smarts ++ [p] else smarts in
          create_loop table hashes (add_all (transactions_ p) packet) smarts
      end
  end.

(** [createPacket] *)
Definition createPacket (round : Z) (s : Impl) : option (TransactionsPacket * list TransactionsPacket) :=
  match MetaStorage.get round (metaStorage_ s) with
  | None => None
  | Some meta => create_loop (packetsTable_ s) (rt_hashes (roundTable_ meta)) Packet.empty []
  end.

(** [hashes.erase(std::find(..))] *)
Fixpoint erase_hash (hash : bytes) (l : list bytes) : list bytes :=
  match l with
  | [] => []
  | h :: l => if decide (h = hash) then l else h :: erase_hash hash l
  end.

(** [addFoundPacket] *)
Definition addFoundPacket (round : Z) (packet : TransactionsPacket) (s : Impl) : Impl :=
  match MetaStorage.get round (metaStorage_ s) with
  | None => s
  | Some meta =>
      if bool_decide (hash_ packet ∈ neededHashes_ meta) then
        let s := write_meta round (fun m => m <| neededHashes_ := erase_hash (hash_ packet) (neededHashes_ m) |>) s in
        if round =? currentRound_ s then s <| packetsTable_ := emplace_packet (hash_ packet) packet (packetsTable_ s) |>
        else write_meta round (fun m => m <| hashTable_ := emplace_packet (hash_ packet) packet (hashTable_ m) |>) s
      else s
  end.

(** [isSyncCompleted(round)], [isSyncCompleted()] *)
Definition isSyncCompleted (round : Z) (s : Impl) : bool :=
  match MetaStorage.get round (metaStorage_ s) with
  | None => true
  | Some meta => match neededHashes_ meta with [] => true | _ => false end
  end.
Definition isCurrentSyncCompleted (s : Impl) : bool := isSyncCompleted (currentRound_ s) s.

(** *** Notifications and characteristics *)

Definition notifications (s : Impl) : M (list bytes) := do! meta := validMeta s in ret (notifications_ meta).
Definition addNotification (b : bytes) (s : Impl) : Impl :=
  write_meta (currentRound_ s) (fun m => m <| notifications_ := notifications_ m ++ [b] |>) s.
Definition neededNotificationsCount (s : Impl) : nat :=
  match MetaStorage.get (currentRound_ s) (metaStorage_ s) with
  | Some meta => length (rt_confidants (roundTable_ meta)) / 2 + 1
  | None => 0
  end.
(** [isEnoughNotifications]; [equal] is [NotificationState::Equal]. *)
Definition isEnoughNotifications (equal : bool) (s : Impl) : M bool :=
  do! l := notifications s in
  ret (if equal then (length l =? neededNotificationsCount s)%nat else (neededNotificationsCount s <=? length l)%nat).

Definition addCharacteristicMeta (round : Z) (c : CharacteristicMeta) (s : Impl) : Impl :=
  if negb (MetaStorage.contains round (characteristicMetas_ s))
  then s <| characteristicMetas_ := (MetaStorage.append (round, c) (characteristicMetas_ s)).2 |> else s.
Definition characteristicMeta (round : Z) (s : Impl) : option CharacteristicMeta * Impl :=
  if negb (MetaStorage.contains round (characteristicMetas_ s)) then (None, s)
  else let '(meta, m) := MetaStorage.extract round (characteristicMetas_ s) in (meta, s <| characteristicMetas_ := m |>).

Definition setCharacteristic (mask : bytes) (round : Z) (s : Impl) : Impl :=
  write_meta round (fun m => m <| characteristic_ := mask |>) s.
Definition characteristic (round : Z) (s : Impl) : option bytes := characteristic_ <$> MetaStorage.get round (metaStorage_ s).
Definition characteristicHash (round : Z) (s : Impl) : bytes :=
  match characteristic round s with
  | None => replicate kHashSize 0
  | Some mask => calculateHash mask
  end.

(** *** The send cache *)

(** [multimap::emplace]: after the elements of the same round *)
Fixpoint emplace_send (round : Z) (d : SendCacheData) (l : list (Z * SendCacheData)) : list (Z * SendCacheData) :=
  match l with
  | [] => [(round, d)]
  | (r, e) :: l => if round <? r then (round, d) :: (r, e) :: l else (r, e) :: emplace_send round d l
  end.

Definition isHashAtSendCache (hash : bytes) (s : Impl) : bool := existsb (fun x => bool_decide (sc_hash x.2 = hash)) (sendPacketsCache_ s).
Definition isHashAtSendCacheRound (round : Z) (hash : bytes) (s : Impl) : bool :=
  existsb (fun x => (x.1 =? round) && bool_decide (sc_hash x.2 = hash)) (sendPacketsCache_ s).

Fixpoint remove_send (hash : bytes) (l : list (Z * SendCacheData)) : list (Z * SendCacheData) :=
  match l with
  | [] => []
  | x :: l => if decide (sc_hash x.2 = hash) then l else x :: remove_send hash l
  end.
Definition removeHashFromSendCache (hash : bytes) (s : Impl) : Impl := s <| sendPacketsCache_ := remove_send hash (sendPacketsCache_ s) |>.

(** [removeHashesFromTable] *)
Definition removeHashesFromTable (hashes : list bytes) (s : Impl) : Impl :=
  foldl (fun s hash => removeHashFromSendCache hash (s <| packetsTable_ := delete hash (packetsTable_ s) |>)) s hashes.

(** Up to [upper_bound(delta)] and the rest *)
Fixpoint split_send (delta : Z) (l : list (Z * SendCacheData)) : list SendCacheData * list (Z * SendCacheData) :=
  match l with
  | [] => ([], [])
  | (r, e) :: l => if delta <? r then ([], (r, e) :: l) else let '(a, b) := split_send delta l in (e :: a, b)
  end.

(** The loop that sends the packets again: what is missing, the table (with the hashes made), the signals *)
Fixpoint resend (hashesToSend : list SendCacheData) (table : gmap bytes TransactionsPacket)
  : list bytes * gmap bytes TransactionsPacket * list Signal :=
  match hashesToSend with
  | [] => ([], table, [])
  | element :: hashesToSend =>
      match table !! sc_hash element with
      | Some p =>
          let p := (Packet.makeHash p).2 in
          let '(notFound, table, signals) := resend hashesToSend (<[sc_hash element := p]> table) in
          (notFound, table, PacketFlushed p :: signals)
      | None =>
          let '(notFound, table, signals) := resend hashesToSend table in
          (sc_hash element :: notFound, table, signals)
      end
  end.

(** [checkSendCache] *)
Definition checkSendCache (s : Impl) : Impl * list Signal :=
  match sendPacketsCache_ s with
  | [] => (s, [])
  | _ :: _ =>
      let round := currentRound_ s in
      if round <? sendCacheValue then (s, [])
      else
        let delta := round - sendCacheValue in
        if round <? delta then (s, [])
        else
          let '(old, rest) := split_send delta (sendPacketsCache_ s) in
          let again e := (sc_count e <? maxResends) || (maxResends =? 0) in
          let hashesToSend := List.filter again old in
          let hashesToRemove := List.filter (fun e => negb (again e)) old in
          let table := foldl (fun t e => delete (sc_hash e) t) (packetsTable_ s) hashesToRemove in
          if (length hashesToSend =? 0)%nat && (length hashesToRemove =? 0)%nat then (s, [])
          else
            let '(notFound, table, signals) := resend hashesToSend table in
            let cache := foldl (fun cache e =>
              if bool_decide (sc_hash e ∈ notFound) then cache
              else emplace_send round (mkSendCacheData (sc_hash e) (u64 (sc_count e + 1))) cache) rest hashesToSend in
            (s <| packetsTable_ := table |> <| sendPacketsCache_ := cache |>, signals)
  end.

(** [addPacketToMeta] *)
Definition addPacketToMeta (round : Z) (packet : TransactionsPacket) (s : Impl) : Impl :=
  let s := if negb (isHashAtSendCache (hash_ packet) s)
           then s <| sendPacketsCache_ := emplace_send round (mkSendCacheData (hash_ packet) 0) (sendPacketsCache_ s) |> else s in
  addTransactionsPacket packet s.

(** The loop of [flushTransactions]: the first packet that cannot be signed ends it. *)
Fixpoint flush_loop (round : Z) (packets : list TransactionsPacket) (s : Impl) : Impl * list Signal :=
  match packets with
  | [] => (s, [])
  | packet :: packets =>
      if Packet.transactionsCount packet =? 0 then flush_loop round packets s
      else
        let '(hashed, packet) := if Packet.isHashEmpty packet then Packet.makeHash packet else (true, packet) in
        if negb hashed then flush_loop round packets s
        else
          let '(signed, packet) :=
            if (length (signatures_ packet) =? 0)%nat then Packet.sign generateSignature (privateKey_ s) packet else (true, packet) in
          if negb signed then (s, [])
          else
            let '(s, signals) := flush_loop round packets (addPacketToMeta round packet s) in
            (s, PacketFlushed packet :: signals)
  end.

(** [flushTransactions] *)
Definition flushTransactions (s : Impl) : Impl * list Signal :=
  let '(packets, queue) := PacketQueue.pop (currentRound_ s) (packetQueue_ s) in
  let '(s, signals) := flush_loop (currentRound_ s) packets (s <| packetQueue_ := queue |>) in
  let '(s, more) := checkSendCache s in
  (s, signals ++ more).

(** *** Looking for packets *)

(** [findPacket], [findPacketAtMeta] *)
Definition findPacket (hash : bytes) (round : Z) (s : Impl) : option TransactionsPacket :=
  match packetsTable_ s !! hash with
  | Some p => Some p
  | None => match MetaStorage.get round (metaStorage_ s) with
            | None => None
            | Some meta => hashTable_ meta !! hash
            end
  end.
Fixpoint find_in (hash : bytes) (l : list (Z * ConveyerMeta)) : option TransactionsPacket :=
  match l with
  | [] => None
  | (_, m) :: l => match hashTable_ m !! hash with Some p => Some p | None => find_in hash l end
  end.
Definition findPacketAtMeta (hash : bytes) (s : Impl) : option TransactionsPacket :=
  match packetsTable_ s !! hash with Some p => Some p | None => find_in hash (buffer_ (metaStorage_ s)) end.

Definition isMetaTransactionInvalid (id : Z) (s : Impl) : bool :=
  existsb (fun x => existsb (fun t => innerID_ t =? id) (transactions_ (invalidTransactions_ x.2))) (buffer_ (metaStorage_ s)).

Definition packetQueueTransactionsCount (s : Impl) : Z :=
  foldl (fun count p => count + Packet.transactionsCount p) 0 (queue_ (packetQueue_ s)).

(** [addRejectedHashToCache] *)
Definition addRejectedHashToCache (hash : bytes) (s : Impl) : bool * Impl :=
  if isHashAtSendCache hash s then (false, s)
  else match findPacketAtMeta hash s with
       | None => (false, s)
       | Some packet =>
           (true, s <| sendPacketsCache_ := emplace_send (currentRound_ s) (mkSendCacheData hash 0) (sendPacketsCache_ s) |>
                    <| packetsTable_ := emplace_packet hash packet (packetsTable_ s) |>)
       end.

(** *** The block of a round *)

(** What [applyCharacteristic] has collected *)
Record Applied := mkApplied {
  newPool : Pool.priv;
  maskIndex : nat;
  invalid : TransactionsPacket;
  states : list Transaction;
  isStateRejected : bool;
  hashTable : gmap bytes TransactionsPacket
}.
#[local] Instance eta_applied : Eta Applied := fun a =>
  mkApplied (newPool a) (maskIndex a) (invalid a) (states a) (isStateRejected a) (hashTable a).

(** The transactions of a packet *)
Definition apply_transaction (mask : bytes) (a : Applied) (transaction : Transaction) : Applied :=
  (match mask !! maskIndex a with
   | Some m =>
       if negb (m =? 0) then a <| newPool := (Pool.add_transaction transaction (newPool a)).2 |>
       else a <| invalid := (Packet.addTransaction transaction (invalid a)).2 |>
   | None => a
   end) <| maskIndex := S (maskIndex a) |>.

(** The signatures of a packet of contract transactions: its first transaction has the contract and the call's block. *)
Definition smart_signature (packet : TransactionsPacket) (stateTransaction : Transaction) : M Pool.SmartSignature :=
  let userField := Tx.user_field new_state_RefStart stateTransaction in
  do! pool :=
    (if uf_is_valid userField then
       do! reference := lift (Ref.from_user_field userField) in
       ret (if Ref.is_valid reference then sequence reference else indeterminate)
     else ret indeterminate) in
  ret (Pool.mkSmartSignature (Address.public_key (source_ stateTransaction)) pool (signatures_ packet)).

(** The signatures and states of such a packet; the first transaction of an empty one is undefined. *)
Definition apply_smart (mask : bytes) (packet : TransactionsPacket) (a : Applied) : M Applied :=
  if Packet.isSmart packet then
    match transactions_ packet with
    | [] => None
    | stateTransaction :: _ =>
        do! a :=
          (match mask !! maskIndex a with
           | Some m =>
               if negb (m =? 0) then
                 do! smartSignatures := smart_signature packet stateTransaction in
                 ret (a <| newPool := Pool.add_smart_signature smartSignatures (newPool a) |>)
               else ret (a <| isStateRejected := true |>)
           | None => ret a
           end) in
        ret (if negb (isStateRejected a) then a <| states := states a ++ stateTransactions_ packet |> else a)
    end
  else ret a.

(** The loop over the hashes; [None] where the source gives up. *)
Fixpoint apply_loop (round : Z) (mask : bytes) (s : Impl) (hashes : list bytes) (a : Applied) : M (option Applied) :=
  match hashes with
  | [] => ret (Some a)
  | hash :: hashes =>
      match findPacket hash round s with
      | None => ret None
      | Some packet =>
          do! a := apply_smart mask packet a in
          let a := foldl (apply_transaction mask) a (transactions_ packet) in
          if (length mask <? maskIndex a)%nat then ret None
          else apply_loop round mask s hashes (a <| hashTable := emplace_packet hash packet (hashTable a) |>)
      end
  end.

(** The fields of the pool that follow the transactions *)
Definition finish_pool (info : PoolMetaInfo) (p : Pool.priv) : Pool.priv :=
  let p := Pool.set_sequence (pm_sequenceNumber info) p in
  let p := (Pool.add_user_field 0 (uf_of_string (pm_timestamp info)) p).2 in
  let p := Pool.add_number_trusted (u8 (Z.of_nat (length (pm_realTrustedMask info)))) p in
  let p := Pool.add_real_trusted (Utils.maskToBits (pm_realTrustedMask info)) p in
  Pool.set_previous_hash (pm_previousHash info) p.

Definition nothing_applied : Applied := mkApplied Pool.default 0 Packet.empty [] false ∅.

(** [applyCharacteristic] *)
Definition applyCharacteristic (info : PoolMetaInfo) (s : Impl) : M (option Pool.priv * Impl * list Signal) :=
  let round := pm_sequenceNumber info in
  match MetaStorage.get round (metaStorage_ s) with
  | None => ret (None, s, [])
  | Some meta =>
      let localHashes := rt_hashes (roundTable_ meta) in
      do! r := apply_loop round (characteristic_ meta) s localHashes nothing_applied in
      let s := removeHashesFromTable localHashes s in
      match r with
      | None => ret (None, s, [])
      | Some a =>
          let s := write_meta round (fun m => m <| hashTable_ := hashTable a |> <| invalidTransactions_ := invalid a |>) s in
          ret (Some (finish_pool info (newPool a)), s, match states a with [] => [] | l => [StatesCreated l] end)
      end
  end.
End conveyer.
End Conveyer.
