(* ===== verification/ConveyerSpec.v ===== *)
(** * What the conveyer guarantees

    The packet of a round holds the valid transactions of the packets of its
    table ([createPacket_open]); a synchronised round has one
    ([synchronised_round]); the block has exactly the transactions that the mask
    accepts ([applyCharacteristic_spec]), and exists for a mask of the packet's
    length exactly when no transaction was left out of the packet
    ([block_of_packet]). *)

From Stdlib Require Import ZArith Lia.
From stdpp Require Import base tactics numbers option list gmap.
From S2P Require Import Prelude Effect BinStream Amount UserField Crypto DataStream Address Utils Transaction Packet MetaStorage Pool ContractRef.
From S2P Require Import Conveyer.

Local Open Scope Z_scope.
Local Open Scope cs_scope.

Module Guarantees.
Import Conveyer.Conveyer.

(** ** The packet of a round *)

Definition all_transactions (ps : list TransactionsPacket) : list Transaction := concat (map transactions_ ps).

Lemma addTransaction_open t p : hash_ p = [] ->
  (Packet.addTransaction t p).2 = if Tx.is_valid t then p <| transactions_ := transactions_ p ++ [t] |> else p.
Proof. intros Hh. unfold Packet.addTransaction, Packet.isHashEmpty. rewrite Hh. by destruct (Tx.is_valid t). Qed.

Lemma add_all_spec l p : hash_ p = [] ->
  add_all l p = p <| transactions_ := transactions_ p ++ List.filter Tx.is_valid l |>.
Proof.
  intros Hh. unfold add_all. revert p Hh. induction l as [|t l IH]; intros p Hh; cbn [foldl List.filter].
  - rewrite app_nil_r. by destruct p.
  - rewrite addTransaction_open by done. destruct (Tx.is_valid t); rewrite IH by done; [|done]. cbn [upd transactions_]. by rewrite <- app_assoc.
Qed.

Lemma create_loop_spec table hashes packet smarts : hash_ packet = [] ->
  create_loop table hashes packet smarts =
    ps ← mapM (fun hash => table !! hash) hashes;
    Some (packet <| transactions_ := transactions_ packet ++ List.filter Tx.is_valid (all_transactions ps) |>,
          smarts ++ List.filter Packet.isSmart ps).
Proof.
  revert packet smarts. induction hashes as [|h hashes IH]; intros packet smarts Hh; cbn [create_loop mapM].
  - cbn. rewrite !app_nil_r. by destruct packet.
  - destruct (table !! h) as [p|]; [|done]. cbn [mbind option_bind]. rewrite add_all_spec by done. rewrite IH by done.
    destruct (mapM _ hashes) as [ps|]; [|done]. cbn [mbind option_bind mret option_ret]. unfold all_transactions. cbn [map concat List.filter].
    cbn [upd transactions_]. rewrite List.filter_app, app_assoc. change (smartContractDetector <? length (signatures_ p))%nat with (Packet.isSmart p).
    destruct (Packet.isSmart p); [|done]. by rewrite <- (app_assoc smarts).
Qed.

Lemma createPacket_open round s :
  createPacket round s =
    meta ← MetaStorage.get round (metaStorage_ s);
    ps ← mapM (fun hash => packetsTable_ s !! hash) (rt_hashes (roundTable_ meta));
    Some (mkPacket [] (List.filter Tx.is_valid (all_transactions ps)) [] [], List.filter Packet.isSmart ps).
Proof. unfold createPacket. destruct (MetaStorage.get round (metaStorage_ s)); [|done]. by rewrite create_loop_spec. Qed.
(** ** Synchronisation *)

Section sync.
Context `{!Cscrypto} (generateSignature : bytes -> bytes -> bytes) (sendCacheValue : Z).

(** What may happen between the table of a round and its packet; here no packet is sent too often ([maxResends] is 0). *)
Inductive action : Type :=
  | AddTransaction (t : Transaction)
  | AddSeparatePacket (p : TransactionsPacket)
  | AddTransactionsPacket (p : TransactionsPacket)
  | AddFoundPacket (round : Z) (p : TransactionsPacket)
  | AddNotification (b : bytes)
  | SetCharacteristic (mask : bytes) (round : Z)
  | AddRejectedHash (hash : bytes)
  | AddCharacteristicMeta (round : Z) (c : CharacteristicMeta)
  | FlushTransactions.

Definition act (a : action) (s : Impl) : Impl :=
  match a with
  | AddTransaction t => addTransaction t s
  | AddSeparatePacket p => addSeparatePacket p s
  | AddTransactionsPacket p => addTransactionsPacket p s
  | AddFoundPacket round p => addFoundPacket round p s
  | AddNotification b => addNotification b s
  | SetCharacteristic mask round => setCharacteristic mask round s
  | AddRejectedHash hash => (addRejectedHashToCache hash s).2
  | AddCharacteristicMeta round c => addCharacteristicMeta round c s
  | FlushTransactions => (flushTransactions generateSignature sendCacheValue 0 s).1
  end.

(** A packet of the table stays there. *)
Definition keeps (t t' : gmap bytes TransactionsPacket) : Prop := forall h, is_Some (t !! h) -> is_Some (t' !! h).

(** Every hash of the current round's table is in the packets' table or needed. *)
Record tracked (table : RoundTable) (s : Impl) : Prop := {
  tracked_round : currentRound_ s = rt_round table;
  tracked_meta : exists meta, MetaStorage.get (currentRound_ s) (metaStorage_ s) = Some meta /\ roundTable_ meta = table /\
    forall h, h ∈ rt_hashes table -> h ∈ neededHashes_ meta \/ is_Some (packetsTable_ s !! h)
}.

Lemma keeps_emplace h p t : keeps t (emplace_packet h p t) /\ is_Some (emplace_packet h p t !! h).
Proof.
  unfold emplace_packet. destruct (t !! h) eqn:E; [rewrite E; split; [by intros h'|by eexists]|]. split; [|rewrite lookup_insert_eq; by eexists].
  intros h' Hh'. destruct (decide (h = h')) as [<-|]; [rewrite lookup_insert_eq; by eexists|by rewrite lookup_insert_ne].
Qed.

(** Same rounds and needed hashes, and no packet less *)
Lemma tracked_keeps table s s' :
  currentRound_ s' = currentRound_ s ->
  (forall round meta, MetaStorage.get round (metaStorage_ s) = Some meta ->
     exists meta', MetaStorage.get round (metaStorage_ s') = Some meta' /\ roundTable_ meta' = roundTable_ meta /\ neededHashes_ meta' = neededHashes_ meta) ->
  keeps (packetsTable_ s) (packetsTable_ s') -> tracked table s -> tracked table s'.
Proof.
  intros Er Hm Hk [Hr (meta & Hg & Ht & Hh)]. split; [congruence|]. destruct (Hm _ _ Hg) as (meta' & Hg' & Et & En).
  exists meta'. rewrite Er. split_and!; [done|congruence|]. intros h Hin. rewrite En. destruct (Hh h Hin); [by left|right; by apply Hk].
Qed.

Lemma same_metas m round (meta : ConveyerMeta) :
  MetaStorage.get round m = Some meta ->
  exists meta', MetaStorage.get round m = Some meta' /\ roundTable_ meta' = roundTable_ meta /\ neededHashes_ meta' = neededHashes_ meta.
Proof. intros E. by exists meta. Qed.
#[local] Hint Resolve same_metas : core.

Lemma get_write_meta round f s round' :
  MetaStorage.get round' (metaStorage_ (write_meta round f s))
  = if round' =? round then f <$> MetaStorage.get round' (metaStorage_ s) else MetaStorage.get round' (metaStorage_ s).
Proof. apply MetaStorage.value_write. Qed.

Lemma tracked_write table round f s :
  (forall m, roundTable_ (f m) = roundTable_ m) -> (forall m, neededHashes_ (f m) = neededHashes_ m) ->
  tracked table s -> tracked table (write_meta round f s).
Proof.
  intros Ht Hn. apply tracked_keeps; [done| |by intros h]. intros round' meta E. rewrite get_write_meta, E.
  destruct (round' =? round); [exists (f meta); split_and!; [done|apply Ht|apply Hn]|by exists meta].
Qed.

Lemma erase_hash_elem h h' l : h' ∈ l -> h' <> h -> h' ∈ erase_hash h l.
Proof.
  induction l as [|x l IH]; cbn; [done|]. intros [->|Hin]%elem_of_cons Hne; destruct (decide (x = h)) as [->|]; try done; [by left|].
  right. by apply IH.
Qed.

Lemma tracked_found table round p s : tracked table s -> tracked table (addFoundPacket round p s).
Proof.
  intros T. unfold addFoundPacket. destruct (MetaStorage.get round (metaStorage_ s)) as [meta|] eqn:E; [|done].
  case_bool_decide; [|done]. pose proof T as [Hr (meta0 & Hg & Ht & Hh)].
  change (currentRound_ (write_meta round ?f s)) with (currentRound_ s). destruct (Z.eqb_spec round (currentRound_ s)) as [->|Hne].
  - rewrite E in Hg. injection Hg as <-. split; [exact Hr|]. exists (meta <| neededHashes_ := erase_hash (hash_ p) (neededHashes_ meta) |>).
    split_and!; [|exact Ht|].
    { etransitivity; [exact (get_write_meta (currentRound_ s) _ s (currentRound_ s))|]. by rewrite E, Z.eqb_refl. }
    intros h Hin. cbn [upd neededHashes_ packetsTable_ write_meta]. destruct (keeps_emplace (hash_ p) p (packetsTable_ s)) as [Hk Hs].
    destruct (decide (h = hash_ p)) as [->|Hne]; [by right|]. destruct (Hh h Hin); [left; by apply erase_hash_elem|right; by apply Hk].
  - apply tracked_write; [done..|]. split; [exact Hr|]. exists meta0. split_and!; [|done|exact Hh].
    etransitivity; [exact (get_write_meta round _ s (currentRound_ s))|]. by rewrite (proj2 (Z.eqb_neq _ _)) by done.
Qed.

(** Changes of the caches and additions to the packets' table *)
Record same (s s' : Impl) : Prop := {
  same_round : currentRound_ s' = currentRound_ s;
  same_meta : metaStorage_ s' = metaStorage_ s;
  same_table : keeps (packetsTable_ s) (packetsTable_ s')
}.
#[local] Instance same_preorder : PreOrder same.
Proof. split; [by intros s; split; [..|intros h]|]. intros s1 s2 s3 [R1 M1 K1] [R2 M2 K2]. split; [congruence..|]. intros h Hh. by apply K2, K1. Qed.

Lemma same_eq s s' : currentRound_ s' = currentRound_ s -> metaStorage_ s' = metaStorage_ s -> packetsTable_ s' = packetsTable_ s -> same s s'.
Proof. intros R M E. split; [done..|]. rewrite E. by intros h. Qed.

Lemma tracked_same table s s' : same s s' -> tracked table s -> tracked table s'.
Proof. intros [R M K]. apply tracked_keeps; [done| |done]. intros round meta E. exists meta. by rewrite M. Qed.

Lemma same_packet p s : same s (addTransactionsPacket p s).
Proof. unfold addTransactionsPacket. destruct (isPacketAtCache p s); [done|]. split; [done..|]. apply keeps_emplace. Qed.

Lemma same_to_meta round p s : same s (addPacketToMeta round p s).
Proof. unfold addPacketToMeta. destruct (isHashAtSendCache _ s); cbn [negb]; [apply same_packet|]. etransitivity; [|apply same_packet]. by apply same_eq. Qed.

Lemma same_flush_loop round packets s : same s (flush_loop generateSignature round packets s).1.
Proof.
  revert s. induction packets as [|p packets IH]; intros s; cbn [flush_loop]; [done|].
  destruct (_ =? 0); [apply IH|]. destruct (if Packet.isHashEmpty p then _ else _) as [[] p1]; cbn [negb]; [|apply IH].
  destruct (if (_ =? 0)%nat then _ else _) as [[] p2]; cbn [negb]; [|done].
  etransitivity; [apply (same_to_meta round p2)|]. specialize (IH (addPacketToMeta round p2 s)). by destruct (flush_loop _ _ _ _).
Qed.

Lemma keeps_resend l table : keeps table (resend l table).1.2.
Proof.
  revert table. induction l as [|e l IH]; intros table; cbn [resend]; [by intros h|].
  destruct (table !! sc_hash e) as [p|].
  - specialize (IH (<[sc_hash e := (Packet.makeHash p).2]> table)). destruct (resend l _) as [[nf t] sg]. cbn [fst snd] in *.
    intros h Hh. apply IH. destruct (decide (sc_hash e = h)) as [<-|]; [rewrite lookup_insert_eq; by eexists|by rewrite lookup_insert_ne].
  - specialize (IH table). by destruct (resend l table) as [[nf t] sg].
Qed.

Lemma same_check s : same s (checkSendCache sendCacheValue 0 s).1.
Proof.
  unfold checkSendCache. destruct (sendPacketsCache_ s); [done|]. destruct (_ <? _); [done|]. destruct (_ <? _); [done|].
  destruct (split_send _ _) as [old rest]. cbn zeta. rewrite Z.eqb_refl.
  assert (List.filter (fun e => negb ((sc_count e <? 0) || true)) old = []) as ->.
  { induction old as [|e old IH]; cbn [List.filter]; [done|]. by rewrite orb_true_r. }
  destruct (_ && _); [done|]. cbn [foldl]. pose proof (keeps_resend (List.filter (fun e => (sc_count e <? 0) || true) old) (packetsTable_ s)) as K.
  destruct (resend _ _) as [[nf t] sg]. split; [done..|exact K].
Qed.

Lemma same_flush s : same s (flushTransactions generateSignature sendCacheValue 0 s).1.
Proof.
  unfold flushTransactions. destruct (PacketQueue.pop _ _) as [packets queue].
  pose proof (same_flush_loop (currentRound_ s) packets (s <| packetQueue_ := queue |>)) as S1. destruct (flush_loop _ _ _ _) as [s1 sg]. cbn [fst] in S1.
  pose proof (same_check s1) as S2. destruct (checkSendCache _ _ s1) as [s2 sg2]. cbn [fst] in *.
  etransitivity; [|exact S2]. destruct S1 as [R M K]. by split.
Qed.

Lemma tracked_act table a s : tracked table s -> tracked table (act a s).
Proof.
  intros T. destruct a; cbn [act].
  - apply (tracked_same _ s); [|done]. unfold addTransaction. destruct (Tx.is_valid t); by apply same_eq.
  - apply (tracked_same _ s); [|done]. unfold addSeparatePacket. destruct (_ !! _); by apply same_eq.
  - apply (tracked_same _ s); [apply same_packet|done].
  - by apply tracked_found.
  - by apply tracked_write.
  - by apply tracked_write.
  - apply (tracked_same _ s); [|done]. unfold addRejectedHashToCache. destruct (isHashAtSendCache hash s); [done|].
    destruct (findPacketAtMeta hash s); [|done]. split; [done..|]. apply keeps_emplace.
  - apply (tracked_same _ s); [|done]. unfold addCharacteristicMeta. destruct (MetaStorage.contains _ _); by apply same_eq.
  - apply (tracked_same _ s); [apply same_flush|done].
Qed.

Lemma tracked_acts table l s : tracked table s -> tracked table (foldl (fun s a => act a s) s l).
Proof. revert s. induction l as [|a l IH]; intros s T; cbn [foldl]; [done|]. by apply IH, tracked_act. Qed.

Lemma tracked_packet table s : tracked table s -> isCurrentSyncCompleted s = true -> is_Some (createPacket (currentRound_ s) s).
Proof.
  intros [_ (meta & Hg & Ht & Hh)]. unfold isCurrentSyncCompleted, isSyncCompleted. rewrite Hg.
  destruct (neededHashes_ meta) eqn:En; [|done]. intros _. rewrite createPacket_open, Hg. cbn [mbind option_bind]. rewrite Ht.
  assert (is_Some (mapM (fun hash => packetsTable_ s !! hash) (rt_hashes table))) as [ps ->]; [|by eexists].
  apply mapM_is_Some. apply Forall_forall. intros h Hin. destruct (Hh h Hin) as [?%not_elem_of_nil|]; done.
Qed.

(** The hashes of a table that the node lacks *)
Definition missing (table : RoundTable) (s : Impl) : list bytes := filter (fun hash => packetsTable_ s !! hash = None) (rt_hashes table).

Lemma setTable_spec table s :
  currentRound_ s <= rt_round table -> MetaStorage.contains (rt_round table) (metaStorage_ s) = false -> capacity_ (metaStorage_ s) <> 0%nat ->
  let s' := (setTable table s).1 in
  currentRound_ s' = rt_round table /\ packetsTable_ s' = packetsTable_ s /\
  MetaStorage.get (rt_round table) (metaStorage_ s') = Some (no_meta <| neededHashes_ := missing table s |> <| roundTable_ := table |>).
Proof.
  intros Hr Hc Hcap. unfold setTable. rewrite (proj2 (Z.ltb_ge _ _)) by done. fold (missing table s).
  assert (currentRound_ (changeRound (rt_round table) s).1 = rt_round table /\ metaStorage_ (changeRound (rt_round table) s).1 = metaStorage_ s /\
    packetsTable_ (changeRound (rt_round table) s).1 = packetsTable_ s) as (E1 & E2 & E3).
  { unfold changeRound. by destruct (Z.eqb_spec (currentRound_ s) (rt_round table)). }
  destruct (changeRound _ s) as [s1 sg]. cbn [fst] in *. rewrite E1, E2, Hc. cbn [negb fst upd currentRound_ packetsTable_ metaStorage_].
  split_and!; [done|done|]. by apply (MetaStorage.value_append (rt_round table, _)).
Qed.

Lemma erase_perm h l1 l2 : l2 ≡ₚ h :: l1 -> erase_hash h l2 ≡ₚ l1.
Proof.
  intros Hp. enough (h ∈ l2 -> l2 ≡ₚ h :: erase_hash h l2) as Hd.
  { apply (inj (cons h)). rewrite <- Hp. symmetry. apply Hd. rewrite Hp. by left. }
  clear Hp. induction l2 as [|x l2 IH]; [by intros ?%not_elem_of_nil|]. cbn [erase_hash]. destruct (decide (x = h)) as [->|Hne]; [done|].
  intros [->|Hin]%elem_of_cons; [done|]. rewrite IH at 1 by done. apply Permutation_swap.
Qed.

Lemma found_needed meta p s :
  MetaStorage.get (currentRound_ s) (metaStorage_ s) = Some meta -> hash_ p ∈ neededHashes_ meta ->
  let s' := addFoundPacket (currentRound_ s) p s in
  currentRound_ s' = currentRound_ s /\
  exists meta', MetaStorage.get (currentRound_ s) (metaStorage_ s') = Some meta' /\ neededHashes_ meta' = erase_hash (hash_ p) (neededHashes_ meta).
Proof.
  intros E Hin. unfold addFoundPacket. rewrite E, bool_decide_true by done.
  change (currentRound_ (write_meta (currentRound_ s) ?f s)) with (currentRound_ s). rewrite Z.eqb_refl. split; [done|].
  exists (meta <| neededHashes_ := erase_hash (hash_ p) (neededHashes_ meta) |>). split; [|done].
  etransitivity; [exact (get_write_meta (currentRound_ s) _ s (currentRound_ s))|]. by rewrite E, Z.eqb_refl.
Qed.

Lemma found_all ps s meta :
  MetaStorage.get (currentRound_ s) (metaStorage_ s) = Some meta -> map hash_ ps ≡ₚ neededHashes_ meta ->
  isCurrentSyncCompleted (foldl (fun s p => addFoundPacket (currentRound_ s) p s) s ps) = true.
Proof.
  revert s meta. induction ps as [|p ps IH]; intros s meta E Hp; cbn [foldl].
  - unfold isCurrentSyncCompleted, isSyncCompleted. rewrite E. by apply Permutation_nil in Hp as ->.
  - cbn [map] in Hp. destruct (found_needed meta p s E) as (Er & meta' & E' & En); [rewrite <- Hp; by left|].
    apply (IH _ meta'); [by rewrite Er|]. rewrite En. symmetry. by apply erase_perm.
Qed.

(** C22: After setTable with a later round's table, whatever sequence of additions of packets,
    hashes, notifications and characteristics follows: the conveyer stays in the round, and when
    isSyncCompleted holds createPacket has a packet; and once every packet that was missing is
    found, isSyncCompleted holds. *)
Theorem synchronised_round table s :
  currentRound_ s <= rt_round table -> MetaStorage.contains (rt_round table) (metaStorage_ s) = false -> capacity_ (metaStorage_ s) <> 0%nat ->
  let s0 := (setTable table s).1 in
  (forall l, let s' := foldl (fun s a => act a s) s0 l in
     currentRound_ s' = rt_round table /\ (isCurrentSyncCompleted s' = true -> is_Some (createPacket (rt_round table) s'))) /\
  (forall ps, map hash_ ps ≡ₚ missing table s ->
     isCurrentSyncCompleted (foldl (fun s p => addFoundPacket (currentRound_ s) p s) s0 ps) = true).
Proof.
  intros Hr Hc Hcap s0. destruct (setTable_spec table s Hr Hc Hcap) as (E1 & E2 & E3). fold s0 in E1, E2, E3.
  assert (tracked table s0) as T.
  { split; [done|]. eexists. rewrite E1. split_and!; [exact E3|done|]. intros h Hin. rewrite E2. cbn [upd neededHashes_].
    destruct (packetsTable_ s !! h) eqn:Eh; [right; by eexists|left]. by apply list_elem_of_filter. }
  split.
  - intros l s'. pose proof (tracked_acts table l s0 T) as T'. split; [apply T'|]. rewrite <- (tracked_round _ _ T'). exact (tracked_packet table s' T').
  - intros ps Hps. eapply found_all; [by rewrite E1|]. exact Hps.
Qed.
End sync.
(** ** The block of a round *)

Section block.
Context `{!Cscrypto} (indeterminate : Z).

(** The transactions whose byte of the mask satisfies [keep] *)
Definition chosen (keep : Z -> bool) (l : list Transaction) (mask : bytes) : list Transaction :=
  map fst (List.filter (fun x => keep x.2) (zip l mask)).
Definition accepting (b : Z) : bool := negb (b =? 0).
Definition rejecting (b : Z) : bool := b =? 0.

Lemma chosen_app keep l1 l2 mask : chosen keep (l1 ++ l2) mask = chosen keep l1 mask ++ chosen keep l2 (drop (length l1) mask).
Proof.
  unfold chosen. rewrite <- map_app, <- List.filter_app. f_equal. f_equal. revert mask. induction l1 as [|t l1 IH]; intros mask; cbn; [done|].
  destruct mask as [|b mask]; cbn; [by destruct l2|]. by rewrite IH.
Qed.

Lemma chosen_take keep l mask : chosen keep l (take (length l) mask) = chosen keep l mask.
Proof. unfold chosen. do 2 f_equal. revert mask. induction l as [|t l IH]; intros [|b mask]; cbn; [done..|]. by rewrite IH. Qed.

Definition pool_all (l : list Transaction) (p : Pool.priv) : Pool.priv := foldl (fun p t => (Pool.add_transaction t p).2) p l.

Lemma apply_transactions_spec mask txs a :
  foldl (apply_transaction mask) a txs =
    mkApplied (pool_all (chosen accepting txs (drop (maskIndex a) mask)) (newPool a)) (maskIndex a + length txs)
      (add_all (chosen rejecting txs (drop (maskIndex a) mask)) (invalid a)) (states a) (isStateRejected a) (hashTable a).
Proof.
  revert a. induction txs as [|t txs IH]; intros a; cbn [foldl length].
  - rewrite Nat.add_0_r. by destruct a.
  - rewrite IH. unfold apply_transaction. destruct (mask !! maskIndex a) as [m|] eqn:E.
    + rewrite (drop_S _ _ _ E). unfold chosen. cbn [zip zip_with List.filter]. unfold accepting, rejecting. cbn [snd].
      rewrite <- Nat.add_succ_comm. by destruct (m =? 0).
    + apply lookup_ge_None in E. cbn [upd maskIndex newPool invalid states isStateRejected hashTable].
      rewrite !drop_ge by lia. rewrite <- Nat.add_succ_comm. unfold chosen. by rewrite !zip_with_nil_r.
Qed.

(** The packets with their parts of the mask *)
Fixpoint parts (mask : bytes) (ps : list TransactionsPacket) : list (TransactionsPacket * bytes) :=
  match ps with
  | [] => []
  | p :: ps => (p, take (length (transactions_ p)) mask) :: parts (drop (length (transactions_ p)) mask) ps
  end.
Definition first_accepted (m : bytes) : bool := match m with [] => false | b :: _ => accepting b end.

(** The packets of contracts with an accepted first transaction *)
Definition accepted_smarts (l : list (TransactionsPacket * bytes)) : list TransactionsPacket :=
  map fst (List.filter (fun x => Packet.isSmart x.1 && first_accepted x.2) l).

(** The states of the packets of contracts before the first rejected one *)
Fixpoint new_states (l : list (TransactionsPacket * bytes)) : list Transaction :=
  match l with
  | [] => []
  | (p, m) :: l => if Packet.isSmart p then if first_accepted m then stateTransactions_ p ++ new_states l else [] else new_states l
  end.

Definition signed_by (sg : TransactionsPacket -> Pool.SmartSignature) (p : TransactionsPacket) : Prop :=
  Packet.isSmart p = true -> exists t l, transactions_ p = t :: l /\ smart_signature indeterminate p t = ret (sg p).

(** The pool with these transactions and signatures, and the packet of these transactions *)
Definition content (b : bool) (T : list Transaction) (S : list Pool.SmartSignature) : Pool.priv :=
  Pool.default <| Pool.is_valid_ := b |> <| Pool.transactions_ := T |> <| Pool.transactionsCount_ := u32 (Z.of_nat (length T)) |>
    <| Pool.smartSignatures_ := S |>.
Definition packet_of (l : list Transaction) : TransactionsPacket := mkPacket [] l [] [].

Lemma pool_all_content l b T S : pool_all l (content b T S) = content b (T ++ List.filter Tx.is_valid l) S.
Proof.
  revert T. induction l as [|t l IH]; intros T; cbn [pool_all foldl List.filter]; [by rewrite app_nil_r|]. fold (pool_all l).
  unfold Pool.add_transaction. change (Pool.read_only_ (content b T S)) with false. cbn iota.
  destruct (Tx.is_valid t); cbn [negb snd]; [|apply IH].
  transitivity (pool_all l (content b (T ++ [t]) S)); [|by rewrite IH, <- app_assoc]. f_equal. unfold content. cbn [upd Pool.transactionsCount_ Pool.transactions_]. f_equal. f_equal.
  unfold u32, uwrap. rewrite length_app, Nat2Z.inj_add, Zplus_mod_idemp_l. done.
Qed.

Lemma add_all_packet l I : add_all l (packet_of I) = packet_of (I ++ List.filter Tx.is_valid l).
Proof. by apply add_all_spec. Qed.

Lemma apply_smart_spec sg mask p a :
  signed_by sg p -> (maskIndex a + length (transactions_ p) <= length mask)%nat ->
  let m := take (length (transactions_ p)) (drop (maskIndex a) mask) in
  let rejected := isStateRejected a || Packet.isSmart p && negb (first_accepted m) in
  apply_smart indeterminate mask p a = ret (mkApplied
    (if Packet.isSmart p && first_accepted m then Pool.add_smart_signature (sg p) (newPool a) else newPool a) (maskIndex a) (invalid a)
    (if Packet.isSmart p && negb rejected then states a ++ stateTransactions_ p else states a) rejected (hashTable a)).
Proof.
  intros Hs Hl m rejected. unfold apply_smart. subst rejected. destruct (Packet.isSmart p) eqn:E; cbn [andb].
  - destruct (Hs E) as (t & l & Et & Es). rewrite Et in *. cbn [length] in *.
    destruct (lookup_lt_is_Some_2 mask (maskIndex a)) as [b Eb]; [lia|]. rewrite Eb.
    subst m. rewrite Et, (drop_S _ _ _ Eb). cbn [length take first_accepted]. unfold accepting. destruct (b =? 0); cbn [negb].
    + destruct a as [? ? ? ? [] ?]; reflexivity.
    + rewrite Es. destruct a as [? ? ? ? [] ?]; reflexivity.
  - rewrite orb_false_r. by destruct a.
Qed.

Lemma apply_smart_returns sg mask p a : signed_by sg p ->
  exists a', apply_smart indeterminate mask p a = ret a' /\ maskIndex a' = maskIndex a.
Proof.
  intros Hs. unfold apply_smart. destruct (Packet.isSmart p) eqn:E; [|by eexists]. destruct (Hs E) as (t & l & -> & Es).
  destruct (mask !! maskIndex a) as [b|]; [destruct (negb (b =? 0)); [rewrite Es|]|]; cbn [mthen ret]; eexists; (split; [reflexivity|]); by case_match.
Qed.

Lemma smart_content c g b T S :
  exists b', (if c : bool then Pool.add_smart_signature g (content b T S) else content b T S) = content b' T (S ++ if c then [g] else []).
Proof. destruct c; [exists true; reflexivity|exists b; by rewrite app_nil_r]. Qed.

Lemma apply_loop_spec sg round mask s hashes ps b T S i I st rej tbl :
  mapM (fun hash => findPacket hash round s) hashes = Some ps -> Forall (signed_by sg) ps -> (i <= length mask)%nat ->
  if (i + length (all_transactions ps) <=? length mask)%nat then
    exists b' tbl', apply_loop indeterminate round mask s hashes (mkApplied (content b T S) i (packet_of I) st rej tbl)
      = ret (Some (mkApplied
          (content b' (T ++ List.filter Tx.is_valid (chosen accepting (all_transactions ps) (drop i mask)))
             (S ++ map sg (accepted_smarts (parts (drop i mask) ps))))
          (i + length (all_transactions ps))
          (packet_of (I ++ List.filter Tx.is_valid (chosen rejecting (all_transactions ps) (drop i mask))))
          (if rej then st else st ++ new_states (parts (drop i mask) ps))
          (rej || existsb (fun x => Packet.isSmart x.1 && negb (first_accepted x.2)) (parts (drop i mask) ps)) tbl')) /\
      (forall h, tbl' !! h = match tbl !! h with Some p => Some p | None => if bool_decide (h ∈ hashes) then findPacket h round s else None end)
  else apply_loop indeterminate round mask s hashes (mkApplied (content b T S) i (packet_of I) st rej tbl) = ret None.
Proof.
  revert ps b T S i I st rej tbl. induction hashes as [|h hashes IH]; intros ps b T S i I st rej tbl Hps Hsg Hi.
  - injection Hps as <-. cbn [all_transactions map concat length parts new_states accepted_smarts]. rewrite Nat.add_0_r, (proj2 (Nat.leb_le _ _)) by done.
    exists b, tbl. split; [|intros h; rewrite bool_decide_false by apply not_elem_of_nil; by destruct (tbl !! h)].
    cbn [apply_loop]. unfold chosen, accepted_smarts. cbn. rewrite !app_nil_r, orb_false_r. by destruct rej.
  - cbn [mapM] in Hps. destruct (findPacket h round s) as [p|] eqn:Ep; [|done]. cbn [mbind option_bind] in Hps.
    destruct (mapM _ hashes) as [ps'|] eqn:Eps; [|done]. injection Hps as <-. apply Forall_cons in Hsg as [Hp Hsg].
    assert (all_transactions (p :: ps') = transactions_ p ++ all_transactions ps') as -> by done. rewrite length_app.
    cbn [apply_loop]. rewrite Ep. set (a := mkApplied _ i _ st rej tbl). destruct (Nat.leb_spec (i + length (transactions_ p)) (length mask)) as [Hfit|Hfit].
    + rewrite (apply_smart_spec sg) by done. cbn [mthen ret]. rewrite apply_transactions_spec.
      subst a. cbn [maskIndex newPool invalid states isStateRejected hashTable upd]. rewrite (proj2 (Nat.ltb_ge _ _)) by done.
      set (c := Packet.isSmart p && first_accepted _). set (rej1 := rej || _).
      destruct (smart_content c (sg p) b T S) as [b1 ->]. rewrite pool_all_content, add_all_packet.
      specialize (IH ps' b1 (T ++ List.filter Tx.is_valid (chosen accepting (transactions_ p) (drop i mask))) (S ++ if c then [sg p] else [])
        (i + length (transactions_ p))%nat (I ++ List.filter Tx.is_valid (chosen rejecting (transactions_ p) (drop i mask)))
        (if Packet.isSmart p && negb rej1 then st ++ stateTransactions_ p else st) rej1 (emplace_packet h p tbl) eq_refl Hsg Hfit).
      rewrite <- Nat.add_assoc in IH. destruct (_ <=? _)%nat; [|exact IH].
      destruct IH as (b' & tbl' & IH & Htbl). exists b', tbl'. split.
      * etransitivity; [exact IH|]. rewrite !chosen_app, !drop_drop. cbn [parts]. rewrite !drop_drop. set (P := parts _ ps'). set (m := take _ _) in *.
        do 3 f_equal.
        { f_equal; [by rewrite List.filter_app, app_assoc|]. rewrite <- app_assoc. f_equal. unfold accepted_smarts. cbn [List.filter fst snd].
          fold c. by destruct c. }
        { by rewrite List.filter_app, app_assoc. }
        { subst rej1. cbn [new_states]. destruct rej, (Packet.isSmart p), (first_accepted m); cbn; rewrite ?app_nil_r, <- ?app_assoc; done. }
        { subst rej1. cbn [existsb fst snd]. by rewrite orb_assoc. }
      * intros h'. rewrite Htbl. unfold emplace_packet. destruct (tbl !! h) as [q|] eqn:Eq.
        { destruct (tbl !! h') eqn:Eh'; [done|]. assert (h' <> h) by congruence.
          rewrite (bool_decide_ext (h' ∈ h :: hashes) (h' ∈ hashes)); [done|]. rewrite elem_of_cons. naive_solver. }
        destruct (decide (h = h')) as [<-|Hne]; [rewrite lookup_insert_eq, Eq, bool_decide_true by (by left); done|].
        rewrite lookup_insert_ne by done. rewrite (bool_decide_ext (h' ∈ h :: hashes) (h' ∈ hashes)); [done|]. rewrite elem_of_cons. naive_solver.
    + destruct (apply_smart_returns sg mask p a Hp) as (a' & -> & Ea). cbn [mthen ret]. rewrite apply_transactions_spec.
      cbn [maskIndex]. rewrite Ea. subst a. cbn [maskIndex]. rewrite (proj2 (Nat.ltb_lt _ _)) by done.
      by rewrite (proj2 (Nat.leb_gt _ _)) by lia.
Qed.

Lemma removeHashes_spec hashes s :
  let s' := removeHashesFromTable hashes s in
  metaStorage_ s' = metaStorage_ s /\ currentRound_ s' = currentRound_ s /\
  forall h, packetsTable_ s' !! h = if bool_decide (h ∈ hashes) then None else packetsTable_ s !! h.
Proof.
  unfold removeHashesFromTable. revert s. induction hashes as [|x hashes IH]; intros s; cbn [foldl].
  - split_and!; [done..|]. intros h. by rewrite bool_decide_false by apply not_elem_of_nil.
  - destruct (IH (removeHashFromSendCache x (s <| packetsTable_ := delete x (packetsTable_ s) |>))) as (E1 & E2 & E3).
    split_and!; [exact E1|exact E2|]. intros h. rewrite E3. unfold removeHashFromSendCache. cbn [upd packetsTable_].
    destruct (decide (h = x)) as [->|Hne].
    + rewrite lookup_delete_eq, (bool_decide_true (x ∈ x :: hashes)) by (by left). by case_bool_decide.
    + rewrite lookup_delete_ne by done. rewrite (bool_decide_ext (h ∈ x :: hashes) (h ∈ hashes)); [done|]. rewrite elem_of_cons. naive_solver.
Qed.

(** The packets of the table that is stored for a round *)
Definition round_packets (round : Z) (s : Impl) : option (list TransactionsPacket) :=
  meta ← MetaStorage.get round (metaStorage_ s);
  mapM (fun hash => findPacket hash round s) (rt_hashes (roundTable_ meta)).

Lemma finish_content info b T S : finish_pool info (content b T S) = finish_pool info (content true T S).
Proof.
  unfold finish_pool. assert (forall n, Pool.set_sequence n (content b T S) = Pool.set_sequence n (content true T S)) as E by reflexivity. by rewrite E.
Qed.

Lemma applyCharacteristic_open info s meta ps sg :
  MetaStorage.get (pm_sequenceNumber info) (metaStorage_ s) = Some meta ->
  round_packets (pm_sequenceNumber info) s = Some ps -> Forall (signed_by sg) ps ->
  let mask := characteristic_ meta in
  let hashes := rt_hashes (roundTable_ meta) in
  exists pool s' signals,
    applyCharacteristic indeterminate info s = ret (pool, s', signals) /\
    (forall h, packetsTable_ s' !! h = if bool_decide (h ∈ hashes) then None else packetsTable_ s !! h) /\
    if (length (all_transactions ps) <=? length mask)%nat then
      pool = Some (finish_pool info (content true (List.filter Tx.is_valid (chosen accepting (all_transactions ps) mask))
        (map sg (accepted_smarts (parts mask ps))))) /\
      signals = match new_states (parts mask ps) with [] => [] | l => [StatesCreated l] end /\
      (forall h, h ∈ hashes -> findPacket h (pm_sequenceNumber info) s' = findPacket h (pm_sequenceNumber info) s) /\
      exists meta', MetaStorage.get (pm_sequenceNumber info) (metaStorage_ s') = Some meta' /\
        transactions_ (invalidTransactions_ meta') = List.filter Tx.is_valid (chosen rejecting (all_transactions ps) mask)
    else pool = None /\ signals = [].
Proof.
  intros Hm Hps Hsg mask hashes. unfold round_packets in Hps. rewrite Hm in Hps. cbn [mbind option_bind] in Hps. fold hashes in Hps.
  unfold applyCharacteristic. rewrite Hm. fold mask hashes.
  pose proof (apply_loop_spec sg (pm_sequenceNumber info) mask s hashes ps false [] [] 0 [] [] false ∅ Hps Hsg ltac:(lia)) as L.
  destruct (removeHashes_spec hashes s) as (E1 & E2 & E3). cbn [Nat.add] in L.
  change (mkApplied (content false [] []) 0 (packet_of []) [] false ∅) with nothing_applied in L.
  destruct (_ <=? _)%nat.
  - destruct L as (b' & tbl' & -> & Htbl). cbn [mthen ret]. do 3 eexists. split; [reflexivity|].
    split; [exact E3|]. cbn [newPool invalid states hashTable]. rewrite drop_0. split_and!; [by rewrite finish_content|done| |].
    + intros h Hin. unfold findPacket. cbn [write_meta upd packetsTable_ metaStorage_].
      rewrite E3, bool_decide_true by done. unfold MetaStorage.get at 1. rewrite MetaStorage.value_write, Z.eqb_refl, E1.
      change (MetaStorage.value ?r ?m) with (MetaStorage.get r m). rewrite Hm. cbn [fmap option_fmap option_map upd hashTable_].
      specialize (Htbl h). rewrite lookup_empty, bool_decide_true in Htbl by done. rewrite Htbl. unfold findPacket. by rewrite Hm.
    + exists (meta <| hashTable_ := tbl' |> <| invalidTransactions_ := packet_of (List.filter Tx.is_valid (chosen rejecting (all_transactions ps) mask)) |>).
      split; [|done]. cbn [write_meta upd metaStorage_]. unfold MetaStorage.get. rewrite MetaStorage.value_write, Z.eqb_refl, E1.
      change (MetaStorage.value ?r ?m) with (MetaStorage.get r m). by rewrite Hm.
  - rewrite L. cbn [mthen ret]. do 3 eexists. split; [reflexivity|]. by split.
Qed.

(** With a packet that is not found the loop gives up, if not before, where the mask ends. *)
Lemma apply_loop_missing sg round mask s hashes a :
  mapM (fun hash => findPacket hash round s) hashes = None ->
  (forall h p, h ∈ hashes -> findPacket h round s = Some p -> signed_by sg p) ->
  apply_loop indeterminate round mask s hashes a = ret None.
Proof.
  revert a. induction hashes as [|h hashes IH]; intros a Hn Hsg; [done|]. cbn [mapM] in Hn. cbn [apply_loop].
  destruct (findPacket h round s) as [p|] eqn:Ep; [|done]. cbn [mbind option_bind] in Hn.
  destruct (apply_smart_returns sg mask p a) as (a1 & -> & _); [by apply (Hsg h); [left|]|]. cbn [mthen ret]. case_match; [done|].
  apply IH; [|intros h' p' Hh'; apply Hsg; by right]. by destruct (mapM _ hashes).
Qed.

(** C23: applyCharacteristic on every branch, when every contract packet of the round begins with
    a transaction whose reference to the contract's start can be read: for a round without meta
    nothing changes and there is no block. With one, the round's packets leave the table of
    packets; when all of them are found and the mask covers all transactions, the block holds the
    valid transactions the mask accepts, in the packets' order, with the signatures of the
    contract packets it accepts, the new states are signalled, the packets stay findable in the
    round and the rejected transactions go to the invalid ones; with a packet that is not found or
    a shorter mask there is no block and no signal. *)
Theorem applyCharacteristic_spec info s sg :
  let round := pm_sequenceNumber info in
  (MetaStorage.get round (metaStorage_ s) = None -> applyCharacteristic indeterminate info s = ret (None, s, [])) /\
  forall meta, MetaStorage.get round (metaStorage_ s) = Some meta ->
  let mask := characteristic_ meta in
  let hashes := rt_hashes (roundTable_ meta) in
  (forall h p, h ∈ hashes -> findPacket h round s = Some p -> signed_by sg p) ->
  exists pool s' signals,
    applyCharacteristic indeterminate info s = ret (pool, s', signals) /\
    (forall h, packetsTable_ s' !! h = if bool_decide (h ∈ hashes) then None else packetsTable_ s !! h) /\
    match round_packets round s with
    | Some ps =>
        if (length (all_transactions ps) <=? length mask)%nat then
          pool = Some (finish_pool info (content true (List.filter Tx.is_valid (chosen accepting (all_transactions ps) mask))
            (map sg (accepted_smarts (parts mask ps))))) /\
          signals = match new_states (parts mask ps) with [] => [] | l => [StatesCreated l] end /\
          (forall h, h ∈ hashes -> findPacket h round s' = findPacket h round s) /\
          exists meta', MetaStorage.get round (metaStorage_ s') = Some meta' /\
            transactions_ (invalidTransactions_ meta') = List.filter Tx.is_valid (chosen rejecting (all_transactions ps) mask)
        else pool = None /\ signals = []
    | None => pool = None /\ signals = []
    end.
Proof.
  intros round. split; [intros Hm; unfold applyCharacteristic; fold round; by rewrite Hm|]. intros meta Hm mask hashes Hsg.
  destruct (round_packets round s) as [ps|] eqn:Hps.
  - apply (applyCharacteristic_open info s meta ps sg Hm Hps). unfold round_packets in Hps. rewrite Hm in Hps. apply mapM_Some in Hps.
    apply Forall_forall. intros p (i & Hi)%list_elem_of_lookup. destruct (Forall2_lookup_r _ _ _ _ _ Hps Hi) as (h & Hh & Ef).
    apply (Hsg h); [by eapply list_elem_of_lookup_2|exact Ef].
  - unfold round_packets in Hps. rewrite Hm in Hps. cbn [mbind option_bind] in Hps. unfold applyCharacteristic. fold round. rewrite Hm.
    rewrite (apply_loop_missing sg) by done. cbn [mthen ret]. do 3 eexists. split; [reflexivity|]. split; [apply removeHashes_spec|done].
Qed.

Lemma get_setCharacteristic mask round s :
  MetaStorage.get round (metaStorage_ (setCharacteristic mask round s))
  = (fun m => m <| characteristic_ := mask |>) <$> MetaStorage.get round (metaStorage_ s).
Proof. unfold setCharacteristic. by rewrite get_write_meta, Z.eqb_refl. Qed.

Lemma findPacket_setCharacteristic mask round s h : findPacket h round (setCharacteristic mask round s) = findPacket h round s.
Proof.
  unfold findPacket. change (packetsTable_ (setCharacteristic mask round s)) with (packetsTable_ s).
  rewrite get_setCharacteristic. by destruct (MetaStorage.get round (metaStorage_ s)).
Qed.

Lemma round_packets_setCharacteristic mask round s : round_packets round (setCharacteristic mask round s) = round_packets round s.
Proof.
  unfold round_packets. rewrite get_setCharacteristic.
  destruct (MetaStorage.get round (metaStorage_ s)) as [meta|]; [|done]. cbn [fmap option_fmap option_map mbind option_bind upd roundTable_].
  apply mapM_ext. intros h. apply findPacket_setCharacteristic.
Qed.

Lemma createPacket_packets round s packet smarts :
  createPacket round s = Some (packet, smarts) ->
  exists ps, round_packets round s = Some ps /\ transactions_ packet = List.filter Tx.is_valid (all_transactions ps) /\
    smarts = List.filter Packet.isSmart ps.
Proof.
  rewrite createPacket_open. unfold round_packets. destruct (MetaStorage.get round (metaStorage_ s)) as [meta|]; [|done]. cbn [mbind option_bind].
  destruct (mapM (fun hash => packetsTable_ s !! hash) _) as [ps|] eqn:E; [|done]. intros [= <- <-]. exists ps. split; [|done].
  apply mapM_Some. apply mapM_Some in E. eapply Forall2_impl; [exact E|]. intros h p Ep. cbn beta in *. unfold findPacket. by rewrite Ep.
Qed.

Lemma filter_shorter (l : list Transaction) :
  (length (List.filter Tx.is_valid l) <= length l)%nat /\
  (length (List.filter Tx.is_valid l) = length l -> List.filter Tx.is_valid l = l) /\
  (Forall (fun t => Tx.is_valid t = true) l <-> length (List.filter Tx.is_valid l) = length l).
Proof.
  induction l as [|t l (IH1 & IH2 & IH3)]; cbn [List.filter length]; [split_and!; [done|done|by split]|].
  rewrite Forall_cons. destruct (Tx.is_valid t); cbn [length]; split_and!; try lia; try (intros; f_equal; apply IH2; lia); try naive_solver lia.
Qed.

(** C24: The packet that createPacket gives to the validator and the block that
    applyCharacteristic makes fit together only without invalid transactions: then the block holds
    exactly the transactions the characteristic accepts, otherwise (createPacket drops the invalid
    ones, so the mask is too short) the round ends without a block. *)
Theorem block_of_packet info s packet smarts mask :
  createPacket (pm_sequenceNumber info) s = Some (packet, smarts) -> length mask = length (transactions_ packet) ->
  exists ps, round_packets (pm_sequenceNumber info) s = Some ps /\
    transactions_ packet = List.filter Tx.is_valid (all_transactions ps) /\
    forall sg, Forall (signed_by sg) ps ->
    exists pool s' signals,
      applyCharacteristic indeterminate info (setCharacteristic mask (pm_sequenceNumber info) s) = ret (pool, s', signals) /\
      (Forall (fun t => Tx.is_valid t = true) (all_transactions ps) ->
        exists p, pool = Some p /\ Pool.transactions_ p = chosen accepting (transactions_ packet) mask) /\
      (~ Forall (fun t => Tx.is_valid t = true) (all_transactions ps) -> pool = None).
Proof.
  intros Hc Hl. destruct (createPacket_packets _ _ _ _ Hc) as (ps & Hps & Et & _). exists ps. split_and!; [done..|]. intros sg Hsg.
  rewrite <- (round_packets_setCharacteristic mask) in Hps. unfold round_packets in Hps.
  destruct (MetaStorage.get _ (metaStorage_ (setCharacteristic mask _ s))) as [meta|] eqn:Em; [|done].
  assert (characteristic_ meta = mask) as Emask.
  { rewrite get_setCharacteristic in Em. destruct (MetaStorage.get _ (metaStorage_ s)); [|done]. by injection Em as <-. }
  destruct (applyCharacteristic_open info _ meta ps sg Em) as (pool & s' & signals & E & _ & R); [unfold round_packets; by rewrite Em|done|].
  rewrite Emask in R. exists pool, s', signals. split; [done|]. rewrite Hl, Et in *. destruct (filter_shorter (all_transactions ps)) as (F1 & F2 & F3).
  destruct (Nat.leb_spec (length (all_transactions ps)) (length (List.filter Tx.is_valid (all_transactions ps)))) as [Hle|Hlt].
  - destruct R as (-> & _). assert (length (List.filter Tx.is_valid (all_transactions ps)) = length (all_transactions ps)) as El by lia.
    split; [|intros Hn; destruct Hn; by apply F3]. intros Hv. eexists. split; [done|]. rewrite (F2 El).
    change (List.filter Tx.is_valid (chosen accepting (all_transactions ps) mask) = chosen accepting (all_transactions ps) mask).
    apply filter_shorter. apply filter_shorter. unfold chosen. apply Forall_forall. intros t (x & -> & Hx)%list_elem_of_fmap.
    apply list_elem_of_In, filter_In in Hx as [Hx _]. apply list_elem_of_In in Hx. destruct x as [t b]. apply elem_of_zip_l in Hx.
    rewrite Forall_forall in Hv. by apply Hv.
  - destruct R as (-> & _). split; [|done]. intros Hv%F3. lia.
Qed.

End block.
(** ** The table of an earlier round *)

Lemma drop_rounds_ends fuel round cached m :
  1 <= round -> 0 <= cached < 2 ^ 64 -> (Z.to_nat (cached - round + 1) < fuel)%nat -> exists m', drop_rounds fuel round cached m = ret m'.
Proof.
  intros Hr. revert cached m. induction fuel as [|fuel IH]; intros cached m Hc Hf; [lia|]. cbn [drop_rounds].
  destruct (Z.leb_spec round cached); [|by eexists]. rewrite uwrap_id by (unfold in_u; lia). apply IH; lia.
Qed.

Lemma drop_rounds_endless fuel round cached m : round <= 0 -> 0 <= cached -> drop_rounds fuel round cached m = None.
Proof.
  intros Hr. revert cached m. induction fuel as [|fuel IH]; intros cached m Hc; cbn [drop_rounds]; [done|].
  rewrite (proj2 (Z.leb_le _ _)) by lia. apply IH. apply (uwrap_range 64 _). lia.
Qed.

(** updateRoundTable returns exactly for the tables of round one and later: for round zero the
    loop that drops the rounds from the cached one never ends, since no unsigned number is below
    zero. *)
Theorem updateRoundTable_ends cachedRound table s :
  0 <= cachedRound < 2 ^ 64 ->
  ((exists fuel r, updateRoundTable fuel cachedRound table s = ret r) <-> 1 <= rt_round table).
Proof.
  intros Hc. unfold updateRoundTable. split.
  - intros (fuel & r & E). destruct (Z.le_gt_cases 1 (rt_round table)) as [|Hlt]; [done|].
    rewrite drop_rounds_endless in E by lia. done.
  - intros Hr. exists (S (Z.to_nat (cachedRound - rt_round table + 1))).
    destruct (drop_rounds_ends (S (Z.to_nat (cachedRound - rt_round table + 1))) (rt_round table) cachedRound (metaStorage_ s)) as [m ->]; [lia..|].
    cbn [mthen ret]. destruct (changeRound _ _). destruct (setTable _ _). by eexists.
Qed.
End Guarantees.

(** ** Witnesses *)

Definition ref_tx (id : Z) : Transaction := snd (Tx.add_user_field new_state_RefStart (Ref.to_user_field (mkRef 12 3)) (sample_tx id)).
Definition plain_packet : TransactionsPacket := mkPacket [1] [sample_tx 1; sample_tx 2] [] [(0, replicate 64 5)].
Definition contract_packet (hash : Z) : TransactionsPacket :=
  mkPacket [hash] [ref_tx (10 + hash); sample_tx hash] [sample_tx (20 + hash)] [(0, replicate 64 5); (1, replicate 64 6); (2, replicate 64 7)].
Definition bad_packet : TransactionsPacket :=
  mkPacket [4] [Tx.set_amount (of_int (-5)) (sample_tx 3)] [] [(0, replicate 64 5)].

Definition table_of (hashes : list bytes) : RoundTable := mkRoundTable 7 [replicate 32 1; replicate 32 2; replicate 32 3] hashes.
Definition start_state : Impl := Conveyer.addTransactionsPacket plain_packet (Conveyer.init 10 10 10 5).
Definition round_of (packets : list TransactionsPacket) : Impl :=
  foldl (fun s p => Conveyer.addTransactionsPacket p s) (Conveyer.setTable (table_of (map hash_ packets)) (Conveyer.init 10 10 10 5)).1 packets.
Definition round_info : PoolMetaInfo := mkPoolMetaInfo [49; 50] [9] 7 [0; 1; 255].

Lemma synchronised_round_witness :
  let s0 := (Conveyer.setTable (table_of [[1]; [2]]) start_state).1 in
  Guarantees.missing (table_of [[1]; [2]]) start_state = [[2]] /\
  Conveyer.isCurrentSyncCompleted (Conveyer.addFoundPacket 7 (contract_packet 2) s0) = true /\
  forall l, let s' := foldl (fun s a => Guarantees.act (fun _ _ => []) 10 a s) s0 l in
    currentRound_ s' = 7 /\ (Conveyer.isCurrentSyncCompleted s' = true -> is_Some (Conveyer.createPacket 7 s')).
Proof.
  destruct (Guarantees.synchronised_round (fun _ _ => []) 10 (table_of [[1]; [2]]) start_state) as [H1 H2]; [by vm_compute|by vm_compute|by vm_compute|].
  intros s0. split; [by vm_compute|]. split; [|exact H1]. apply (H2 [contract_packet 2]). apply (bool_decide_unpack _). by vm_compute.
Defined.

(** The second contract's first transaction is rejected; the states of the third, which is accepted, are not announced. *)
Definition three_contracts : list TransactionsPacket := [contract_packet 1; contract_packet 2; contract_packet 3].
Definition three_state : Impl := Conveyer.setCharacteristic [1; 1; 0; 1; 1; 0] 7 (round_of three_contracts).
Definition contract_signature (p : TransactionsPacket) : Pool.SmartSignature := Pool.mkSmartSignature (replicate 32 1) 12 (signatures_ p).

Lemma applyCharacteristic_spec_witness :
  exists pool s', Conveyer.applyCharacteristic 99 round_info three_state = ret (Some pool, s', [StatesCreated [sample_tx 21]]) /\
    Pool.transactions_ pool = [ref_tx 11; sample_tx 1; sample_tx 2; ref_tx 13] /\
    Pool.smartSignatures_ pool = map contract_signature [contract_packet 1; contract_packet 3] /\
    Conveyer.findPacket [2] 7 s' = Some (contract_packet 2) /\ packetsTable_ s' !! [2] = None.
Proof.
  destruct (MetaStorage.get 7 (metaStorage_ three_state)) as [meta|] eqn:Em; [|by vm_compute in Em].
  destruct (proj2 (Guarantees.applyCharacteristic_spec 99 round_info three_state contract_signature) meta Em) as (pool & s' & signals & E & Et & R).
  { intros h p Hh Hp. vm_compute in Em. injection Em as <-. cbn [roundTable_ rt_hashes] in Hh. rewrite !elem_of_cons in Hh.
    destruct Hh as [-> | [-> | [-> | Hh]]]; [..|by apply not_elem_of_nil in Hh];
      (vm_compute in Hp; injection Hp as <-; intros _; do 2 eexists; split; [done|by vm_compute]). }
  replace (Guarantees.round_packets _ three_state) with (Some three_contracts) in R by (by vm_compute).
  vm_compute in Em. injection Em as <-. cbn [characteristic_ roundTable_ rt_hashes] in *.
  replace (_ <=? _)%nat with true in R by (by vm_compute). destruct R as (-> & -> & Ef & _).
  do 2 eexists. split; [exact E|]. split_and!; [by vm_compute|by vm_compute|rewrite Ef by (by (right; left)); by vm_compute|by rewrite Et].
Defined.

(** The packet with the negative amount leaves the round without a block. *)
Lemma block_of_packet_witness :
  exists smarts pool s' signals,
    Conveyer.createPacket 7 (round_of [plain_packet; bad_packet]) = Some (mkPacket [] [sample_tx 1; sample_tx 2] [] [], smarts) /\
    Conveyer.applyCharacteristic 99 round_info (Conveyer.setCharacteristic [1; 1] 7 (round_of [plain_packet; bad_packet])) = ret (pool, s', signals) /\
    pool = None.
Proof.
  eexists. destruct (Guarantees.block_of_packet 99 round_info (round_of [plain_packet; bad_packet]) (mkPacket [] [sample_tx 1; sample_tx 2] [] []) [] [1; 1])
    as (ps & Eps & _ & B); [by vm_compute|done|].
  assert (Guarantees.round_packets (pm_sequenceNumber round_info) (round_of [plain_packet; bad_packet]) = Some [plain_packet; bad_packet]) as E'
    by by vm_compute.
  rewrite E' in Eps. injection Eps as <-.
  destruct (B contract_signature) as (pool & s' & signals & E & _ & R); [repeat constructor; by intros ?|].
  exists pool, s', signals. split; [by vm_compute|]. split; [exact E|]. apply R. intros Hv.
  pose proof (Forall_lookup_1 _ _ 2 _ Hv eq_refl) as Hbad. by vm_compute in Hbad.
Defined.

Lemma updateRoundTable_ends_witness :
  (exists fuel r, Conveyer.updateRoundTable fuel 9 (table_of []) start_state = ret r) <-> 1 <= 7.
Proof. apply (Guarantees.updateRoundTable_ends 9 (table_of []) start_state). lia. Defined.
