(* ===== verification/Fee.v ===== *)
(** * Fees of transactions ([csnode/src/fee.cpp], [csnode/include/csnode/fee.hpp])

    The fee of a transaction by its size, as a double that is encoded as a
    commission of 16 bits.  [log10] and [pow] are those of [Libm]; decimal
    literals of the source are correctly rounded quotients. *)

From Stdlib Require Import ZArith Lia Floats.SpecFloat.
From stdpp Require Import base tactics numbers option list.
From S2P Require Import Prelude Effect BinStream Amount UserField Crypto Address Transaction Double Pool ContractRef.

Local Open Scope Z_scope.
Local Open Scope cs_scope.

Import Contracts.

Module Fee.

Definition kCommonTrSize : Z := 152.

(** [feeLevels]: the bound of the size, the fee of a deployment, of the others. *)
Definition feeLevels : list (Z * double * double) :=
  [ (5 * 1024, literal 8745 100000, literal 8745 1000000);
    (20 * 1024, literal 17490 100000, literal 34980 1000000);
    (50 * 1024, literal 43726 100000, literal 139922 1000000);
    (100 * 1024, literal 1790996 100000, literal 1790996 100000);
    (256 * 1024, literal 8954982 100000, literal 8954982 100000);
    (512 * 1024, literal 35819930 100000, literal 35819930 100000);
    (768 * 1024, literal 143279718 100000, literal 143279718 100000);
    (1024 * 1024, literal 573118874 100000, literal 573118874 100000);
    (5 * 1024 * 1024, literal 2292475494 100000, literal 2292475494 100000);
    (15 * 1024 * 1024, literal 9169901978 100000, literal 9169901978 100000);
    (50 * 1024 * 1024, literal 36679607910 100000, literal 36679607910 100000);
    (100 * 1024 * 1024, literal 146718431642 100000, literal 146718431642 100000);
    (500 * 1024 * 1024, literal 586873726566 100000, literal 586873726566 100000);
    (1000 * 1024 * 1024, literal 2347494906266 100000, literal 2347494906266 100000) ].
Definition last_level : Z * double * double := (1000 * 1024 * 1024, literal 2347494906266 100000, literal 2347494906266 100000).

Definition minFee : double := match feeLevels with l :: _ => l.2 | [] => of_Z 0 end.
Definition minContractStateFee : double := minFee.

Section fee.
Context `{!Cscrypto, !Libm} (invocation_method : bytes -> bytes).

(** The loop of [getFee] over the levels. *)
Fixpoint level_fee (size : Z) (deploy : bool) (levels : list (Z * double * double)) : option double :=
  match levels with
  | [] => None
  | (bound, deploy_fee, fee) :: levels =>
      if size <? bound then Some (if deploy then deploy_fee else fee) else level_fee size deploy levels
  end.

(** [getFee] *)
Definition getFee (t : Transaction) : M AmountCommission :=
  let size := Z.of_nat (length (Tx.to_byte_stream t)) in
  if negb (is_smart_contract t) && (size <=? kCommonTrSize) then commission_of_double minFee
  else match level_fee size (is_deploy invocation_method t) feeLevels with
       | Some fee => commission_of_double fee
       | None =>
           let k := ddiv (of_Z size) (of_Z last_level.1.1) in
           commission_of_double (dmul last_level.1.2 k)
       end.

Definition getContractStateMinFee : M AmountCommission := commission_of_double minContractStateFee.

(** [estimateMaxFee]: whether the greatest fee suffices, and the counted fee;
    [is_payable_call] is that of the contracts. *)
Definition estimateMaxFee (is_payable_call : Transaction -> bool) (t : Transaction) : M (bool * AmountCommission) :=
  do! countedFee := getFee t in
  do! countedFee :=
    (if is_executable t || is_payable_call t then
       do! stateFee := getContractStateMinFee in
       commission_of_double (dadd (commission_to_double countedFee) (commission_to_double stateFee))
     else ret countedFee) in
  ret (dlt (literal 1 (2 ^ 52)) (dsub (commission_to_double (max_fee_ t)) (commission_to_double countedFee)), countedFee).

(** [setCountedFees] *)
Fixpoint setCountedFees (trxs : list Transaction) : M (list Transaction) :=
  match trxs with
  | [] => ret []
  | t :: trxs =>
      do! fee := getFee t in
      do! trxs := setCountedFees trxs in
      ret (Tx.set_counted_fee fee t :: trxs)
  end.

(** [getExecutionFee] *)
Definition getExecutionFee (duration_mcs : Z) : M Amount :=
  let FEE_IN_MCS := dmul (dmul minContractStateFee (literal 1 1000)) (literal 1 1000) in
  of_double (dmul (of_Z duration_mcs) FEE_IN_MCS).

Lemma level_fee_spec size deploy levels f :
  level_fee size deploy levels = Some f ->
  exists l1 l l2, levels = l1 ++ l :: l2 /\ Forall (fun l => l.1.1 <= size) l1 /\ size < l.1.1 /\
    f = if deploy then l.1.2 else l.2.
Proof.
  induction levels as [|[[bound df] ff] levels IH]; cbn [level_fee]; [done|].
  destruct (Z.ltb_spec size bound).
  - intros [= <-]. exists [], (bound, df, ff), levels. by split_and!.
  - intros (l1 & l & l2 & -> & Hl & Hs & ->)%IH. exists ((bound, df, ff) :: l1), l, l2. split_and!; try done. by constructor.
Qed.

(** Below the greatest level there is always one, and the levels are looked up in order. *)
Lemma level_fee_total size deploy : size < last_level.1.1 -> is_Some (level_fee size deploy feeLevels).
Proof.
  cbn [last_level fst]. intros Hs. cbn [feeLevels level_fee].
  repeat match goal with |- context [size <? ?b] => destruct (Z.ltb_spec size b); [by eexists|] end.
  exfalso. lia.
Qed.

(** getFee by the size of the transaction's bytes: below 5 KiB the least fee, ten times that for a
    deployment; below 1000 MiB the fee of the first level whose bound exceeds the size (its first
    column for a deployment); from there on the last fee times the size over the last bound. *)
Theorem getFee_levels t :
  (is_deploy invocation_method t = true -> is_smart_contract t = true) /\
  let size := Z.of_nat (length (Tx.to_byte_stream t)) in
  let deploy := is_deploy invocation_method t in
  (size < 5 * 1024 -> getFee t = commission_of_double (if deploy then literal 8745 100000 else minFee)) /\
  (size < last_level.1.1 ->
     exists l1 l l2, feeLevels = l1 ++ l :: l2 /\ Forall (fun l => l.1.1 <= size) l1 /\ size < l.1.1 /\
       getFee t = commission_of_double (if deploy then l.1.2 else l.2)) /\
  (last_level.1.1 <= size -> getFee t = commission_of_double (dmul last_level.1.2 (ddiv (of_Z size) (of_Z last_level.1.1)))).
Proof.
  assert (is_deploy invocation_method t = true -> is_smart_contract t = true) as Hd.
  { unfold is_deploy, is_smart_contract. by destruct (is_executable t). }
  split; [exact Hd|]. cbv zeta. set (size := Z.of_nat _).
  assert (size < 5 * 1024 -> getFee t = commission_of_double (if is_deploy invocation_method t then literal 8745 100000 else minFee)) as Hsmall.
  { intros Hs. unfold getFee. fold size. cbn [feeLevels level_fee]. rewrite (proj2 (Z.ltb_lt size (5 * 1024))) by lia.
    destruct (is_deploy invocation_method t); [rewrite Hd by done; done|]. destruct (negb _ && _); done. }
  split; [exact Hsmall|]. split.
  - intros Hs. destruct (level_fee_total size (is_deploy invocation_method t) Hs) as [f Ef].
    destruct (level_fee_spec _ _ _ _ Ef) as (l1 & l & l2 & E & Hl & Hlt & ->). exists l1, l, l2. split_and!; [done|done|done|].
    destruct (Z.lt_ge_cases size (5 * 1024)) as [Hsm|Hbig].
    + rewrite (Hsmall Hsm). destruct l1 as [|l0 l1]; [by injection E as <- _|]. exfalso.
      injection E as <- _. apply Forall_cons in Hl as [Hl _]. cbn [fst] in Hl. lia.
    + unfold getFee. fold size. unfold kCommonTrSize. rewrite (proj2 (Z.leb_gt _ _)), andb_false_r by lia. by rewrite Ef.
  - intros Hs. cbn [last_level fst] in Hs. unfold getFee. fold size. unfold kCommonTrSize. rewrite (proj2 (Z.leb_gt _ _)), andb_false_r by lia.
    assert (level_fee size (is_deploy invocation_method t) feeLevels = None) as ->; [|done].
    cbn [feeLevels level_fee]. repeat match goal with |- context [size <? ?b] => rewrite (proj2 (Z.ltb_ge size b)) by lia end. done.
Qed.
End fee.

(** A fraction that rounds up to 1024 does not fit its ten bits. *)

(** The commission made of 0.9996, whose fraction rounds to 1024, is zero: the fraction does not
    fit its ten bits. *)
Theorem commission_wraps `{!Libm} :
  (let expf := log10 (literal 9996 10000) in
   to_int32 (if negb (dlt expf (of_Z 0)) then dadd expf (literal 1 2) else dsub expf (literal 1 2)) = Some 0) ->
  pow10 0 = of_Z 1 ->
  exists c, commission_of_double (literal 9996 10000) = ret c /\ commission_frac c = 0 /\ fee_amount c = ret (of_int 0).
Proof.
  intros Hl Hp. unfold commission_of_double.
  change (SFabs (literal 9996 10000)) with (literal 9996 10000). 
  assert (SFeqb (literal 9996 10000) (of_Z 0) = false) as -> by by vm_compute.
  cbv zeta in Hl. rewrite Hl, Hp.
  assert (ddiv (literal 9996 10000) (of_Z 1) = literal 9996 10000) as -> by by vm_compute.
  assert (dlt (literal 9996 10000) (of_Z 1) = true) as -> by by vm_compute. cbn [negb].
  assert (lround (dmul (literal 9996 10000) (of_Z 1024)) = Some 1024) as -> by by vm_compute.
  eexists. split; [reflexivity|]. split; by vm_compute.
Qed.
End Fee.

(** ** Witnesses *)

(** A C library whose [log10] is only right to the nearest integer, which is all
    that the constructor of commissions uses. *)
Fixpoint round_log10 (fuel : nat) (k : Z) (x : double) : Z :=
  match fuel with
  | O => k
  | S fuel => if dlt (dmul x x) (if 0 <=? 2 * k + 1 then of_Z (10 ^ (2 * k + 1)) else literal 1 (10 ^ (- (2 * k + 1))))
              then k else round_log10 fuel (k + 1) x
  end.
Definition toy_libm : Libm := {|
  log10 := fun x => of_Z (round_log10 40 (-20) x);
  pow10 := fun k => if 0 <=? k then of_Z (10 ^ k) else literal 1 (10 ^ (- k))
|}.

Lemma commission_wraps_witness :
  exists c, commission_of_double (H := toy_libm) (literal 9996 10000) = ret c /\ commission_frac c = 0 /\ fee_amount c = ret (of_int 0).
Proof. apply (@Fee.commission_wraps toy_libm); by vm_compute. Defined.
