(* ===== verification/Tail.v ===== *)
(** * Replay protection ([csnode/include/csnode/bitheap.hpp], [transactionstail.hpp])

    [BitHeap] keeps the greatest value pushed and a bit for each of the
    [BitSize] values below it; [TransactionsTail] is the node's memory of the
    transaction ids a wallet has spent.  [std::bitset] is the integer of its
    bits; the values are 64-bit signed integers. *)

From Stdlib Require Import ZArith Lia.
From stdpp Require Import base tactics numbers option list.
From S2P Require Import Prelude.

Local Open Scope Z_scope.
Local Open Scope cs_scope.

Module BitHeap.

Record t := mkHeap { greatest_ : Z; isValueSet_ : bool; bits_ : Z }.
#[export] Instance eta_heap : Eta t := fun h => mkHeap (greatest_ h) (isValueSet_ h) (bits_ h).

Section bitheap.
Context (BitSize : Z).

(** [std::bitset<BitSize>]: set, reset, test and the shifts. *)
Definition bit_set (bs ind : Z) : Z := Z.lor bs (2 ^ ind).
Definition bit_reset (bs ind : Z) : Z := Z.ldiff bs (2 ^ ind).
Definition bit_shl (bs n : Z) : Z := if n <? BitSize then Z.shiftl bs n mod 2 ^ BitSize else 0.
Definition bit_shr1 (bs : Z) : Z := bs / 2.

Definition empty_heap : t := mkHeap (2 ^ 63 - 1) false 0.

Definition push (val : Z) (h : t) : t :=
  if negb (isValueSet_ h) then h <| greatest_ := val |> <| isValueSet_ := true |>
  else if greatest_ h <? val then
    let shift := s64 (val - greatest_ h) in
    let bits := bit_shl (bits_ h) (u64 shift) in
    let ind := u64 (shift - 1) in
    let bits := if ind <? BitSize then bit_set bits ind else bits in
    h <| bits_ := bits |> <| greatest_ := val |>
  else if val <? greatest_ h then
    let ind := u64 (s64 (greatest_ h - val - 1)) in
    if ind <? BitSize then h <| bits_ := bit_set (bits_ h) ind |> else h
  else h.

(** The loop of [pop]: the heap and what is left of [count]. *)
Fixpoint pop_loop (count : nat) (h : t) : t * bool :=
  if Z.testbit (bits_ h) 0 then (h, true)
  else match count with
       | O => (h, false)
       | S count' =>
           pop_loop count' (h <| bits_ := bit_shr1 (bits_ h) |> <| greatest_ := s64 (greatest_ h - 1) |>)
       end.

Definition pop (val : Z) (h : t) : t :=
  if val <? greatest_ h then
    let ind := u64 (s64 (greatest_ h - val - 1)) in
    if ind <? BitSize then h <| bits_ := bit_reset (bits_ h) ind |> else h
  else if val =? greatest_ h then
    let '(h, found) := pop_loop (Z.to_nat BitSize) (h <| greatest_ := s64 (greatest_ h - 1) |>) in
    if negb found then h <| isValueSet_ := false |>
    else h <| bits_ := bit_shr1 (bits_ h) |>
  else h.

Definition empty (h : t) : bool := negb (isValueSet_ h).

Definition minMaxRange (h : t) : Z * Z := (s64 (u64 (greatest_ h - BitSize)), greatest_ h).

Definition contains (val : Z) (h : t) : bool :=
  if greatest_ h <? val then false
  else if val =? greatest_ h then true
  else
    let ind := u64 (s64 (greatest_ h - val - 1)) in
    if ind <? BitSize then Z.testbit (bits_ h) ind else false.

(** ** The set a heap stands for

    [ok h]: a heap of values at most 2^62 in size, so that no difference
    overflows; [mem h x] for [x] among the greatest value and the [BitSize]
    values below it. *)

Definition small (x : Z) : Prop := - 2 ^ 61 <= x < 2 ^ 61.

Record ok (h : t) : Prop := {
  ok_greatest : isValueSet_ h = true -> small (greatest_ h);
  ok_bits : forall i, BitSize <= i -> Z.testbit (bits_ h) i = false;
  ok_unset : isValueSet_ h = false -> bits_ h = 0
}.

Definition mem (h : t) (x : Z) : Prop :=
  isValueSet_ h = true /\ (x = greatest_ h \/ x < greatest_ h /\ Z.testbit (bits_ h) (greatest_ h - x - 1) = true).

Context (BitSize_pos : 0 < BitSize < 2 ^ 31).

Lemma diff_small g x : small g -> small x -> x < g -> u64 (s64 (g - x - 1)) = g - x - 1.
Proof using BitSize_pos.
  intros Hg Hx Hlt. unfold small in *. rewrite swrap_id by (unfold in_s; lia).
  apply uwrap_id. unfold in_u. lia.
Qed.

Lemma contains_mem h x : ok h -> small x -> isValueSet_ h = true -> contains x h = true <-> mem h x.
Proof using BitSize_pos.
  intros [Hg Hb _] Hx Hs. unfold contains, mem. specialize (Hg Hs).
  destruct (Z.ltb_spec (greatest_ h) x); [split; [done|]; intros [_ [|[]]]; lia|].
  destruct (Z.eqb_spec x (greatest_ h)) as [->|Hne]; [split; [by auto|done]|].
  rewrite diff_small by (done || lia).
  destruct (Z.ltb_spec (greatest_ h - x - 1) BitSize) as [Hi|Hi].
  - split; [intros Ht; split; [done|]; right; split; [lia|done]|]. intros [_ [|[_ ?]]]; [lia|done].
  - rewrite Hb by lia. split; [done|]. intros [_ [|[_ ?]]]; [lia|done].
Qed.

Lemma testbit_shl bs n i :
  0 <= n -> 0 <= i < BitSize -> Z.testbit (bit_shl bs n) i = Z.testbit bs (i - n).
Proof using BitSize_pos.
  intros Hn Hi. unfold bit_shl. destruct (Z.ltb_spec n BitSize).
  - rewrite Z.mod_pow2_bits_low by lia. by rewrite Z.shiftl_spec by lia.
  - rewrite Z.bits_0, Z.testbit_neg_r by lia. done.
Qed.

Lemma testbit_shl_high bs n i : BitSize <= i -> Z.testbit (bit_shl bs n) i = false.
Proof using BitSize_pos.
  intros Hi. unfold bit_shl. case_match; [|apply Z.bits_0]. apply Z.mod_pow2_bits_high. lia.
Qed.

Lemma testbit_set bs ind i : 0 <= ind -> Z.testbit (bit_set bs ind) i = Z.testbit bs i || (ind =? i).
Proof. intros Hi. unfold bit_set. by rewrite Z.lor_spec, Z.pow2_bits_eqb. Qed.

(** [push val] adds [val] and keeps what is inside the window of the new
    greatest value. *)
Lemma push_mem h v :
  ok h -> small v ->
  ok (push v h) /\ isValueSet_ (push v h) = true /\
  (isValueSet_ h = false -> greatest_ (push v h) = v) /\
  (isValueSet_ h = true -> greatest_ (push v h) = Z.max (greatest_ h) v) /\
  forall x, mem (push v h) x <-> (x = v \/ mem h x) /\ greatest_ (push v h) - BitSize <= x.
Proof using BitSize_pos.
  intros [Hg Hb Hu] Hv. unfold push. destruct (isValueSet_ h) eqn:Hs; cbn [negb].
  2:{ specialize (Hu eq_refl). cbn [upd greatest_ isValueSet_]. split_and!; [|done..|].
      - split; cbn [upd greatest_ isValueSet_ bits_]; [done| |done]. rewrite Hu. intros; apply Z.bits_0.
      - intros x. unfold mem. rewrite Hs. cbn [upd greatest_ isValueSet_ bits_]. rewrite Hu.
        split; [intros [_ [->|[_ Ht]]]; [split; [by left|lia]|by rewrite Z.bits_0 in Ht]|].
        intros [[->|[]] _]; [|done]. split; [done|by left]. }
  specialize (Hg eq_refl).
  destruct (Z.ltb_spec (greatest_ h) v) as [Hlt|Hge].
  - assert (s64 (v - greatest_ h) = v - greatest_ h) as ->.
    { apply swrap_id; [lia|]. unfold small, in_s in *. lia. }
    rewrite !uwrap_id by (unfold small, in_u in *; lia).
    set (bs := if v - greatest_ h - 1 <? BitSize then _ else _).
    assert (forall i, 0 <= i < BitSize ->
      Z.testbit bs i = Z.testbit (bits_ h) (i - (v - greatest_ h)) || (v - greatest_ h - 1 =? i)) as Hlow.
    { intros i Hi. unfold bs. destruct (Z.ltb_spec (v - greatest_ h - 1) BitSize).
      - rewrite testbit_set, testbit_shl by lia. done.
      - rewrite testbit_shl by lia. destruct (Z.eqb_spec (v - greatest_ h - 1) i); [lia|by rewrite orb_false_r]. }
    assert (forall i, BitSize <= i -> Z.testbit bs i = false) as Hhigh.
    { intros i Hi. unfold bs. destruct (Z.ltb_spec (v - greatest_ h - 1) BitSize).
      - rewrite testbit_set, testbit_shl_high by lia. destruct (Z.eqb_spec (v - greatest_ h - 1) i); [lia|done].
      - by rewrite testbit_shl_high. }
    cbn [upd greatest_ isValueSet_]. split_and!; [|done|done|lia|].
    + split; cbn [upd greatest_ isValueSet_ bits_]; [done|done|]. by rewrite Hs.
    + intros x. unfold mem. cbn [upd greatest_ isValueSet_ bits_]. rewrite Hs. split.
      * intros [_ [->|[Hx Ht]]]; [split; [by left|lia]|].
        destruct (Z.lt_ge_cases (v - x - 1) BitSize) as [Hi|Hi]; [|by rewrite Hhigh in Ht by lia].
        rewrite Hlow in Ht by lia. split; [|lia]. right. split; [done|].
        replace (v - x - 1 - (v - greatest_ h)) with (greatest_ h - x - 1) in Ht by lia.
        apply orb_true_iff in Ht as [Ht|Ht]; [|apply Z.eqb_eq in Ht; left; lia].
        destruct (Z.lt_ge_cases x (greatest_ h)) as [|]; [by right|].
        rewrite Z.testbit_neg_r in Ht by lia. done.
      * intros [[->|[_ Hm]] Hw]; [split; [done|by left]|]. split; [done|]. right.
        assert (x <= greatest_ h) by (destruct Hm as [->|[]]; lia). split; [lia|].
        rewrite Hlow by lia. apply orb_true_iff. destruct Hm as [->|[Hx Ht]].
        -- right. apply Z.eqb_eq. lia.
        -- left. by replace (v - x - 1 - (v - greatest_ h)) with (greatest_ h - x - 1) by lia.
  - destruct (Z.ltb_spec v (greatest_ h)) as [Hlt|Hge'].
    + rewrite diff_small by done.
      assert (forall x, mem h x -> greatest_ h - BitSize <= x) as Hwin.
      { intros x [_ [->|[Hx Ht]]]; [lia|]. destruct (Z.lt_ge_cases x (greatest_ h - BitSize)); [|lia].
        rewrite Hb in Ht by lia. done. }
      destruct (Z.ltb_spec (greatest_ h - v - 1) BitSize) as [Hi|Hi].
      * cbn [upd greatest_ isValueSet_]. split_and!; [|done|done|lia|].
        -- split; cbn [upd greatest_ isValueSet_ bits_]; [done| |by rewrite Hs].
           intros i Hi'. rewrite testbit_set, Hb by lia. apply Z.eqb_neq. lia.
        -- intros x. unfold mem. cbn [upd greatest_ isValueSet_ bits_]. rewrite testbit_set, orb_true_iff, Z.eqb_eq by lia.
           rewrite Hs. split.
           ++ intros [_ Hx]. split; [|].
              ** destruct Hx as [->|[Hx [Ht|Ht]]]; [right; split; [done|by left]|right; split; [done|by right]|left; lia].
              ** destruct Hx as [->|[Hx [Ht|Ht]]]; [lia| |lia]. apply Hwin. split; [done|by right].
           ++ intros [[->|[_ Hm]] _]; split; [done|right; split; [lia|by right]|done|].
              destruct Hm as [->|[Hx Ht]]; [by left|right; split; [done|by left]].
      * split_and!; [split; [done|done|congruence]|done|done|lia|]. intros x. split.
        -- intros Hm. split; [by right|by apply Hwin].
        -- intros [[->|Hm] Hw]; [lia|done].
    + assert (v = greatest_ h) as -> by lia. split_and!; [split; [done|done|congruence]|done|done|lia|].
      intros x. split.
      * intros Hm. split; [by right|]. destruct Hm as [_ [->|[Hx Ht]]]; [lia|].
        destruct (Z.lt_ge_cases x (greatest_ h - BitSize)); [|lia]. rewrite Hb in Ht by lia. done.
      * intros [[->|Hm] Hw]; [split; [done|by left]|done].
Qed.

(** While [pop] looks for the next greatest value, bit [i] stands for
    [greatest_ - i]. *)
Definition shifted (h : t) (x : Z) : Prop :=
  x <= greatest_ h /\ Z.testbit (bits_ h) (greatest_ h - x) = true.

Lemma pop_loop_spec n h :
  - 2 ^ 62 + Z.of_nat n <= greatest_ h < 2 ^ 62 -> (forall i, BitSize <= i -> Z.testbit (bits_ h) i = false) ->
  let '(h', found) := pop_loop n h in
  (forall x, shifted h' x <-> shifted h x) /\ isValueSet_ h' = isValueSet_ h /\
  (forall i, BitSize <= i -> Z.testbit (bits_ h') i = false) /\
  (found = true -> Z.testbit (bits_ h') 0 = true) /\
  (found = false -> forall i, 0 <= i <= Z.of_nat n -> Z.testbit (bits_ h) i = false).
Proof using BitSize_pos.
  revert h. induction n as [|n IH]; intros h Hg Hb; cbn [pop_loop];
    (destruct (Z.testbit (bits_ h) 0) eqn:E0; [by split_and!|]).
  - split_and!; [done|done|done|done|]. intros _ i Hi. by replace i with 0 by lia.
  - set (h1 := upd greatest_ _ _).
    assert (greatest_ h1 = greatest_ h - 1) as Eg.
    { unfold h1. cbn [upd greatest_]. apply swrap_id; [lia|]. unfold in_s. lia. }
    assert (forall i, 0 <= i -> Z.testbit (bits_ h1) i = Z.testbit (bits_ h) (Z.succ i)) as Eb.
    { intros i Hi. unfold h1, bit_shr1. cbn [upd bits_]. by apply Z.div2_bits. }
    specialize (IH h1). destruct (pop_loop n h1) as [h' found]. destruct IH as (H1 & H2 & H3 & H4 & H5).
    + lia.
    + intros i Hi. rewrite Eb by lia. apply Hb. lia.
    + split_and!; [|done|done|done|].
      * intros x. rewrite H1. unfold shifted. rewrite Eg. split.
        -- intros [Hx Ht]. rewrite Eb in Ht by lia. split; [lia|].
           by replace (greatest_ h - x) with (Z.succ (greatest_ h - 1 - x)) by lia.
        -- intros [Hx Ht]. destruct (Z.eq_dec x (greatest_ h)) as [->|].
           { by rewrite Z.sub_diag, E0 in Ht. }
           split; [lia|]. rewrite Eb by lia. by replace (Z.succ (greatest_ h - 1 - x)) with (greatest_ h - x) by lia.
      * intros Hf i Hi. destruct (Z.eq_dec i 0) as [->|]; [done|].
        specialize (H5 Hf (i - 1)). rewrite Eb in H5 by lia. replace i with (Z.succ (i - 1)) by lia. apply H5. lia.
Qed.

(** BitHeap::pop of a member removes that member and nothing else and keeps the heap well formed,
    also when the greatest element is removed and the bits are shifted to the next one. *)
Theorem pop_mem h v :
  ok h -> (forall x, mem h x -> small x) -> small v -> mem h v ->
  ok (pop v h) /\ forall x, mem (pop v h) x <-> mem h x /\ x <> v.
Proof using BitSize_pos.
  intros Hok Hms Hv Hm. pose proof Hok as [Hg Hb Hu]. pose proof Hm as [Hs Hmv]. specialize (Hg Hs).
  unfold pop. destruct (Z.ltb_spec v (greatest_ h)) as [Hlt|Hge].
  - destruct Hmv as [|[_ Ht]]; [lia|]. rewrite diff_small by done.
    destruct (Z.ltb_spec (greatest_ h - v - 1) BitSize) as [Hi|Hi]; [|by rewrite Hb in Ht by lia].
    assert (forall i, Z.testbit (bit_reset (bits_ h) (greatest_ h - v - 1)) i
      = Z.testbit (bits_ h) i && negb (greatest_ h - v - 1 =? i)) as Er.
    { intros i. unfold bit_reset. by rewrite Z.ldiff_spec, Z.pow2_bits_eqb by lia. }
    split.
    + split; cbn [upd greatest_ isValueSet_ bits_]; [done| |congruence]. intros i Hi'. by rewrite Er, Hb.
    + intros x. unfold mem. cbn [upd greatest_ isValueSet_ bits_]. rewrite Er, andb_true_iff, negb_true_iff, Z.eqb_neq, Hs.
      split; [intros [_ [->|(Hx & Hx' & Hne)]]; [split; [|lia]; by auto|split; [by auto|]; lia]|].
      intros [[_ [->|[Hx Hx']]] Hne]; split; try done; [by left|right; split; [done|]; split; [done|lia]].
  - assert (v = greatest_ h) as -> by (destruct Hmv as [|[]]; lia). rewrite Z.eqb_refl.
    assert (s64 (greatest_ h - 1) = greatest_ h - 1) as ->.
    { apply swrap_id; [lia|]. unfold small, in_s in *. lia. }
    set (h1 := h <| greatest_ := greatest_ h - 1 |>).
    assert (forall x, shifted h1 x <-> mem h x /\ x <> greatest_ h) as Hsh.
    { intros x. unfold shifted, mem, h1. cbn [upd greatest_ bits_]. rewrite Hs.
      replace (greatest_ h - 1 - x) with (greatest_ h - x - 1) by lia.
      split; [intros [Hx Ht]; split; [split; [done|right; split; [lia|done]]|lia]|].
      intros [[_ [->|[Hx Ht]]] Hne]; [done|split; [lia|done]]. }
    pose proof (pop_loop_spec (Z.to_nat BitSize) h1) as HL.
    destruct (pop_loop (Z.to_nat BitSize) h1) as [h' found].
    destruct HL as (H1 & H2 & H3 & H4 & H5).
    { unfold h1. cbn [upd greatest_]. unfold small in Hg. lia. }
    { exact Hb. }
    assert (forall x, mem (h' <| bits_ := bit_shr1 (bits_ h') |>) x ->
      found = true -> shifted h' x) as Hin.
    { intros x [_ Hx] Hf. unfold shifted. cbn [upd greatest_ bits_] in Hx. unfold bit_shr1 in Hx.
      destruct Hx as [->|[Hx Ht]]; [split; [lia|rewrite Z.sub_diag; by apply H4]|].
      rewrite Z.div2_bits in Ht by lia. split; [lia|]. by replace (greatest_ h' - x) with (Z.succ (greatest_ h' - x - 1)) by lia. }
    destruct found; cbn [negb].
    + split.
      * split; cbn [upd greatest_ isValueSet_ bits_].
        -- intros _. apply Hms. apply Hsh, H1. apply Hin; [|done]. split; [cbn [upd isValueSet_]; rewrite H2; done|by left].
        -- intros i Hi. unfold bit_shr1. rewrite Z.div2_bits by lia. apply H3. lia.
        -- rewrite H2. unfold h1. cbn [upd isValueSet_]. congruence.
      * intros x. rewrite <- Hsh, <- H1. split; [intros; by apply Hin|].
        intros [Hx Ht]. split; cbn [upd greatest_ isValueSet_ bits_]; [by rewrite H2|].
        destruct (Z.eq_dec x (greatest_ h')); [by left|]. right. split; [lia|].
        unfold bit_shr1. rewrite Z.div2_bits by lia. by replace (Z.succ (greatest_ h' - x - 1)) with (greatest_ h' - x) by lia.
    + assert (forall x, ~ shifted h' x) as Hno.
      { intros x Hx. apply H1 in Hx as [Hx Ht]. destruct (Z.le_gt_cases (greatest_ h1 - x) (Z.of_nat (Z.to_nat BitSize))).
        - by rewrite H5 in Ht by (done || lia).
        - rewrite Hb in Ht by lia. done. }
      split.
      * split; cbn [upd greatest_ isValueSet_ bits_]; [done|exact H3|]. intros _. apply Z.bits_inj_0. intros i.
        destruct (Z.testbit (bits_ h') i) eqn:E; [|done]. destruct (Z.neg_nonneg_cases i).
        { by rewrite Z.testbit_neg_r in E. }
        exfalso. apply (Hno (greatest_ h' - i)). split; [lia|]. by replace (greatest_ h' - (greatest_ h' - i)) with i by lia.
      * intros x. rewrite <- Hsh, <- H1. split; [intros [Hc _]; by cbn in Hc|]. intros Hx. by apply Hno in Hx.
Qed.
End bitheap.
End BitHeap.

(** ** [TransactionsTail] *)

Module TransactionsTail.

Definition BitSize : Z := 1024.

Definition t := BitHeap.t.
Definition new : t := BitHeap.empty_heap.

Definition empty (heap_ : t) : bool := BitHeap.empty heap_.
Definition push (trxId : Z) (heap_ : t) : t := BitHeap.push BitSize trxId heap_.
Definition getLastTransactionId (heap_ : t) : Z := snd (BitHeap.minMaxRange BitSize heap_).

Definition isAllowed (heap_ : t) (trxId : Z) : bool :=
  if BitHeap.empty heap_ then true
  else
    let range := BitHeap.minMaxRange BitSize heap_ in
    if snd range <? trxId then true
    else if trxId <? fst range then false
    else negb (BitHeap.contains BitSize trxId heap_).

Definition isDuplicated (heap_ : t) (trxId : Z) : bool :=
  if negb (BitHeap.empty heap_) then BitHeap.contains BitSize trxId heap_ else false.

(** The tail of a wallet whose transactions were accepted in the order [ids]. *)
Definition pushed (ids : list Z) : t := foldl (fun h id => push id h) new ids.

Definition greatest (x : Z) (ids : list Z) : Z := foldl Z.max x ids.

Lemma greatest_ge x ids : x <= greatest x ids /\ Forall (fun y => y <= greatest x ids) ids.
Proof.
  revert x. induction ids as [|y ids IH]; intros x; cbn [greatest foldl]; [split; [lia|constructor]|].
  destruct (IH (Z.max x y)) as [H1 H2]. unfold greatest in *. split; [lia|]. constructor; [lia|done].
Qed.

Lemma BitSize_pos : 0 < BitSize < 2 ^ 31.
Proof. unfold BitSize. lia. Qed.

Lemma pushed_spec x ids :
  Forall BitHeap.small (x :: ids) ->
  let h := pushed (x :: ids) in
  BitHeap.ok BitSize h /\ BitHeap.isValueSet_ h = true /\ BitHeap.greatest_ h = greatest x ids /\
  forall y, BitHeap.mem h y <-> y ∈ x :: ids /\ greatest x ids - BitSize <= y.
Proof.
  pose proof BitSize_pos as HB. induction ids as [|z ids IH] using rev_ind; intros Hf.
  - apply Forall_cons in Hf as [Hx _].
    destruct (BitHeap.push_mem BitSize HB new x) as (H1 & H2 & H3 & _ & H5); [|done|].
    { split; cbn; [done|intros; apply Z.bits_0|done]. }
    cbn [pushed foldl]. change (BitHeap.push BitSize x new) with (push x new) in *.
    split_and!; [done|done|by apply H3|]. intros y. cbn [greatest foldl]. rewrite H5, (H3 eq_refl).
    rewrite list_elem_of_singleton. unfold new, BitHeap.mem; cbn. unfold BitSize. intuition congruence.
  - rewrite app_comm_cons in Hf. apply Forall_app in Hf as [Hf Hz]. apply Forall_cons in Hz as [Hz _].
    destruct (IH Hf) as (H1 & H2 & H3 & H4).
    assert (pushed (x :: ids ++ [z]) = push z (pushed (x :: ids))) as ->.
    { unfold pushed. rewrite app_comm_cons, foldl_app. done. }
    assert (greatest x (ids ++ [z]) = Z.max (greatest x ids) z) as Eg.
    { unfold greatest. by rewrite foldl_app. }
    destruct (BitHeap.push_mem BitSize HB (pushed (x :: ids)) z H1 Hz) as (K1 & K2 & _ & K4 & K5).
    specialize (K4 H2). fold (push z (pushed (x :: ids))) in *.
    split_and!; [done|done|by rewrite K4, H3|]. intros y. rewrite K5, H4, K4, H3, Eg.
    rewrite app_comm_cons, elem_of_app, list_elem_of_singleton.
    split; [intros [[->|[? ?]] ?]; auto|]. intros [[Hy| ->] Hl]; [|by auto]. split; [right; split; [done|lia]|done].
Qed.

Lemma isAllowed_pushed ids id :
  Forall BitHeap.small ids -> BitHeap.small id ->
  (isAllowed (pushed ids) id = true) <->
  match ids with
  | [] => True
  | x :: ids' => (id ∉ x :: ids') /\ greatest x ids' - BitSize <= id
  end.
Proof.
  intros Hf Hid. destruct ids as [|x ids]; [done|].
  destruct (pushed_spec x ids Hf) as (H1 & H2 & H3 & H4). destruct (greatest_ge x ids) as [G1 G2].
  unfold isAllowed, BitHeap.empty. rewrite H2. cbn [negb]. unfold BitHeap.minMaxRange. cbn [fst snd].
  pose proof (BitHeap.ok_greatest _ _ H1 H2) as Hg. rewrite H3 in Hg |- *.
  assert (s64 (u64 (greatest x ids - BitSize)) = greatest x ids - BitSize) as ->.
  { rewrite swrap_uwrap by lia. apply swrap_id; [lia|]. unfold BitSize, BitHeap.small, in_s in *. lia. }
  assert (id ∈ x :: ids -> id <= greatest x ids) as Hle.
  { intros He. rewrite Forall_forall in G2. apply elem_of_cons in He as [->|He]; [done|by apply G2]. }
  destruct (Z.ltb_spec (greatest x ids) id).
  { split; [|done]. intros _. split; [|unfold BitSize; lia]. intros He. apply Hle in He. lia. }
  destruct (Z.ltb_spec id (greatest x ids - BitSize)); [split; [done|intros [_ ?]; lia]|].
  rewrite negb_true_iff, <- not_true_iff_false, (BitHeap.contains_mem BitSize BitSize_pos _ _ H1 Hid H2), H4.
  split; [intros Hn; split; [|lia]; intros He; apply Hn; split; [done|lia]|]. intros [Hn _] [He _]. done.
Qed.

(** After any sequence of pushed transaction ids, TransactionsTail::isAllowed accepts an id
    exactly when it was not pushed and is not older than BitSize below the greatest pushed id: no
    replay is accepted in the window and everything below the window is refused. *)
Theorem isAllowed_spec ids id :
  Forall BitHeap.small ids -> BitHeap.small id ->
  (isAllowed (pushed ids) id = true) <->
  match ids with
  | [] => True
  | x :: ids' => (id ∉ x :: ids') /\ greatest x ids' - BitSize <= id
  end.
Proof. apply isAllowed_pushed. Qed.

End TransactionsTail.

(** ** Witnesses *)

Lemma isAllowed_spec_witness :
  (TransactionsTail.isAllowed (TransactionsTail.pushed [5; 9; 7]) 8 = true) <->
  (8 ∉ [5; 9; 7]) /\ TransactionsTail.greatest 5 [9; 7] - TransactionsTail.BitSize <= 8.
Proof.
  apply (TransactionsTail.isAllowed_spec [5; 9; 7] 8); unfold BitHeap.small; [repeat constructor; lia|lia].
Defined.

(** The heap of 3 and 1. *)
Lemma pop_mem_witness :
  let h := BitHeap.mkHeap 3 true 2 in
  BitHeap.ok 1024 (BitHeap.pop 1024 3 h) /\
  forall x, BitHeap.mem (BitHeap.pop 1024 3 h) x <-> BitHeap.mem h x /\ x <> 3.
Proof.
  apply (BitHeap.pop_mem 1024); [lia| | |unfold BitHeap.small; lia|split; [done|by left]].
  - split; cbn [BitHeap.isValueSet_ BitHeap.greatest_ BitHeap.bits_]; [unfold BitHeap.small; lia| |done].
    intros i Hi. rewrite Z.bits_above_log2; [done|done|]. change (Z.log2 2) with 1. lia.
  - intros x [_ [->|[Hx Hb]]]; unfold BitHeap.small; cbn [BitHeap.greatest_ BitHeap.bits_] in *; [lia|].
    destruct (decide (3 - x - 1 <= 1)); [lia|].
    rewrite Z.bits_above_log2 in Hb; [done|done|]. change (Z.log2 2) with 1. lia.
Defined.
