(* ===== verification/WalletsIds.v ===== *)
(** * Wallet identifiers ([csnode/include/csnode/walletsids.hpp], [csnode/src/walletsids.cpp])

    The node numbers the public keys it meets: normal ids are assigned by the
    blocks of the chain, special ones (top bit set) are a stop-gap for keys
    that no block has numbered.  The wallets are in a Boost container with two
    unique hashed indices, by address and by id: that container is the
    interface [MultiIndex], with its documented behaviour as [MultiIndexLaws],
    and the theorems hold for every implementation of it.  [list_index] is
    one.

    Every method returns the state next to its result, because an exception
    leaves the changes made before it. *)

From Stdlib Require Import ZArith Lia.
From stdpp Require Import base tactics numbers option list.
From S2P Require Import Prelude BinStream Crypto Address.
From S2P Require Pool.

Local Open Scope Z_scope.
Local Open Scope cs_scope.

Record Wallet := mkWallet { address : Address; id : Z }.

#[export] Instance Wallet_eq_dec : EqDecision Wallet.
Proof. solve_decision. Defined.

(** ** The container *)

Class MultiIndex (D : Type) := {
  mi_empty : D;
  (** the elements, in any order *)
  mi_elems : D -> list Wallet;
  (** the element an iterator points to, or [None] for [end()] *)
  mi_find_address : Address -> D -> option Wallet;
  mi_find_id : Z -> D -> option Wallet;
  (** the element inserted or the one that prevents the insertion *)
  mi_insert : Wallet -> D -> D * (Wallet * bool);
  mi_erase : Wallet -> D -> D;
  (** [modify] of the id of an element *)
  mi_modify_id : Wallet -> Z -> D -> D
}.

(** The container's documented behaviour. *)
Class MultiIndexLaws {D} (M : MultiIndex D) (ok : D -> Prop) : Prop := {
  mi_empty_ok : ok mi_empty;
  mi_empty_elems w : ~ w ∈ mi_elems mi_empty;
  (** both indices are unique *)
  mi_unique_address d w w' : ok d -> w ∈ mi_elems d -> w' ∈ mi_elems d -> address w = address w' -> w = w';
  mi_unique_id d w w' : ok d -> w ∈ mi_elems d -> w' ∈ mi_elems d -> id w = id w' -> w = w';
  mi_find_address_spec d a w : ok d -> mi_find_address a d = Some w <-> w ∈ mi_elems d /\ address w = a;
  mi_find_id_spec d i w : ok d -> mi_find_id i d = Some w <-> w ∈ mi_elems d /\ id w = i;
  mi_insert_new d w :
    ok d -> (forall w', w' ∈ mi_elems d -> address w' <> address w /\ id w' <> id w) ->
    snd (mi_insert w d) = (w, true) /\ ok (fst (mi_insert w d)) /\
    forall w', w' ∈ mi_elems (fst (mi_insert w d)) <-> w' = w \/ w' ∈ mi_elems d;
  mi_insert_banned d w w' :
    ok d -> w' ∈ mi_elems d -> address w' = address w \/ id w' = id w ->
    fst (mi_insert w d) = d /\
    exists b, snd (mi_insert w d) = (b, false) /\ b ∈ mi_elems d /\ (address b = address w \/ id b = id w);
  mi_erase_spec d w :
    ok d -> ok (mi_erase w d) /\ forall w', w' ∈ mi_elems (mi_erase w d) <-> w' ∈ mi_elems d /\ w' <> w;
  mi_modify_spec d w i :
    ok d -> w ∈ mi_elems d -> (forall w', w' ∈ mi_elems d -> w' <> w -> id w' <> i) ->
    ok (mi_modify_id w i d) /\
    forall w', w' ∈ mi_elems (mi_modify_id w i d) <-> w' = mkWallet (address w) i \/ w' ∈ mi_elems d /\ w' <> w
}.

(** ** An implementation: a list *)

Definition clash (w w' : Wallet) : bool := bool_decide (address w' = address w) || (id w' =? id w).

#[export] Instance list_index : MultiIndex (list Wallet) := {|
  mi_empty := [];
  mi_elems := fun d => d;
  mi_find_address := fun a d => List.find (fun w => bool_decide (address w = a)) d;
  mi_find_id := fun i d => List.find (fun w => id w =? i) d;
  mi_insert := fun w d =>
    match List.find (clash w) d with Some b => (d, (b, false)) | None => (d ++ [w], (w, true)) end;
  mi_erase := fun w d => filter (fun w' => w' <> w) d;
  mi_modify_id := fun w i d =>
    let rest := filter (fun w' => w' <> w) d in
    if List.existsb (fun w' => id w' =? i) rest then rest else rest ++ [mkWallet (address w) i]
|}.

(** ** The class *)

Section wallets_ids.
Context {D} `{!MultiIndex D} `{!Cscrypto}.

Record WalletsIds := mkWalletsIds { data_ : D; nextId_ : Z; nextIdSpecial_ : Z }.
#[local] Instance eta_ids : Eta WalletsIds := fun n => mkWalletsIds (data_ n) (nextId_ n) (nextIdSpecial_ n).

Definition maskSpecial_ : Z := Z.shiftl 1 31.
Definition noSpecial_ : Z := 0.
(** [numeric_limits<WalletId>::max()] *)
Definition max_id : Z := 4294967295.

Definition makeSpecial (i : Z) : Z := Z.lor i maskSpecial_.
Definition makeNormal (i : Z) : Z := Z.land i (Z.lxor maskSpecial_ max_id).
Definition isSpecial (i : Z) : bool := negb (Z.land i maskSpecial_ =? 0).

Definition new_ids : WalletsIds := mkWalletsIds mi_empty 0 (makeSpecial 0).

(** [Normal::insert] *)
Definition insert (a : Address) (i : Z) (n : WalletsIds) : WalletsIds * result bool :=
  if is_wallet_id a then (n, Ok false)
  else if is_public_key a then
    let '(data, (_, second)) := mi_insert (mkWallet a i) (data_ n) in
    let n := n <| data_ := data |> in
    if second && (nextId_ n <=? i) then
      if max_id / 2 <=? i then (n, Throw runtime_error)
      else (n <| nextId_ := i + 1 |>, Ok second)
    else (n, Ok second)
  else (n, Ok false).

(** [Normal::find]: [None] for [false]. *)
Definition find (a : Address) (n : WalletsIds) : option Z :=
  if is_wallet_id a then Some (wallet_id a)
  else if is_public_key a then option_map id (mi_find_address a (data_ n))
  else None.

(** [Normal::findaddr] *)
Definition findaddr (i : Z) (n : WalletsIds) : option Address := option_map address (mi_find_id i (data_ n)).

(** [Normal::get]: the [id] assigned and whether it is new. *)
Definition get (a : Address) (n : WalletsIds) : WalletsIds * result (Z * bool) :=
  if is_wallet_id a then (n, Ok (wallet_id a, false))
  else if is_public_key a then
    let '(data, (first, second)) := mi_insert (mkWallet a (nextId_ n)) (data_ n) in
    let n := n <| data_ := data |> in
    if second then
      if max_id / 2 <=? nextId_ n then (n, Throw runtime_error)
      else (n <| nextId_ := u32 (nextId_ n + 1) |>, Ok (id first, second))
    else (n, Ok (id first, second))
  else (n, Ok (0, false)).

(** [Normal::remove] *)
Definition remove (a : Address) (n : WalletsIds) : WalletsIds * bool :=
  if is_wallet_id a then (n, false)
  else
    match mi_find_address a (data_ n) with
    | Some w =>
        let n := n <| data_ := mi_erase w (data_ n) |> in
        (if 0 <? nextId_ n then n <| nextId_ := nextId_ n - 1 |> else n, true)
    | None => (n, true)
    end.

(** [Special::insertNormal]: the special id replaced and the result. *)
Definition insertNormal (a : Address) (idNormal : Z) (n : WalletsIds) : WalletsIds * (Z * result bool) :=
  if is_wallet_id a then (n, (noSpecial_, Ok false))
  else if is_public_key a then
    let '(data, (first, isInserted)) := mi_insert (mkWallet a idNormal) (data_ n) in
    let n := n <| data_ := data |> in
    let value := id first in
    let proceed (n : WalletsIds) (idSpecial : Z) :=
      if nextId_ n <=? idNormal then
        if max_id / 2 <=? idNormal then (n, (idSpecial, Throw runtime_error))
        else (n <| nextId_ := idNormal + 1 |>, (idSpecial, Ok true))
      else (n, (idSpecial, Ok true)) in
    if negb isInserted then
      if negb (isSpecial value) then (n, (noSpecial_, Ok false))
      else proceed (n <| data_ := mi_modify_id first idNormal (data_ n) |>) value
    else proceed n noSpecial_
  else (n, (noSpecial_, Ok false)).

(** [Special::findAnyOrInsertSpecial] *)
Definition findAnyOrInsertSpecial (a : Address) (n : WalletsIds) : WalletsIds * result (Z * bool) :=
  if is_wallet_id a then (n, Ok (wallet_id a, true))
  else if is_public_key a then
    let '(data, (first, second)) := mi_insert (mkWallet a (nextIdSpecial_ n)) (data_ n) in
    let n := n <| data_ := data |> in
    if second then
      if nextIdSpecial_ n =? max_id then (n, Throw runtime_error)
      else (n <| nextIdSpecial_ := nextIdSpecial_ n + 1 |>, Ok (id first, true))
    else (n, Ok (id first, true))
  else (n, Ok (0, false)).

(** *** The chain's use of the ids ([csnode/src/blockchain.cpp])

    [updateWalletIds] numbers the new wallets of a block; an exception is
    caught and makes the result [false]. *)
Fixpoint update_loop (pool : Pool.Pool.priv) (newWallets : list Pool.Pool.NewWalletInfo) (n : WalletsIds)
  : WalletsIds * bool :=
  match newWallets with
  | [] => (n, true)
  | newWall :: rest =>
      match Pool.Pool.getWalletAddress pool newWall with
      | None => (n, false)
      | Some newWallAddress =>
          match insert newWallAddress (Pool.Pool.walletId_ newWall) n with
          | (n, Ok _) => update_loop pool rest n
          | (n, Throw _) => (n, false)
          end
      end
  end.
Definition updateWalletIds (pool : Pool.Pool.priv) (n : WalletsIds) : WalletsIds * bool :=
  update_loop pool (Pool.Pool.newWallets_ pool) n.

Fixpoint remove_loop (pool : Pool.Pool.priv) (newWallets : list Pool.Pool.NewWalletInfo) (n : WalletsIds)
  : WalletsIds :=
  match newWallets with
  | [] => n
  | newWall :: rest =>
      match Pool.Pool.getWalletAddress pool newWall with
      | None => n
      | Some newWallAddress => remove_loop pool rest (fst (remove newWallAddress n))
      end
  end.
Definition removeWalletsInPoolFromCache (pool : Pool.Pool.priv) (n : WalletsIds) : WalletsIds :=
  remove_loop pool (Pool.Pool.newWallets_ pool) n.
End wallets_ids.
Arguments WalletsIds D : clear implicits.
#[export] Instance eta_wallets_ids {D} : Eta (WalletsIds D) :=
  fun n => mkWalletsIds (data_ n) (nextId_ n) (nextIdSpecial_ n).

(** ** The list implements the container *)

Definition list_ok (d : list Wallet) : Prop := NoDup (map address d) /\ NoDup (map id d).

Lemma nodup_map_inj {A B} (f : A -> B) l x y : NoDup (map f l) -> x ∈ l -> y ∈ l -> f x = f y -> x = y.
Proof.
  induction l as [|z l IH]; [by intros _ ?%not_elem_of_nil|]. cbn [map].
  intros [Hn Hd]%NoDup_cons Hx Hy E. apply elem_of_cons in Hx as [->|Hx], Hy as [->|Hy]; [done|..].
  - exfalso. apply Hn. rewrite E. by apply (list_elem_of_fmap_2 f).
  - exfalso. apply Hn. rewrite <- E. by apply (list_elem_of_fmap_2 f).
  - by apply IH.
Qed.

Lemma find_some_iff {A} (p : A -> bool) l x :
  (forall y z, y ∈ l -> z ∈ l -> p y = true -> p z = true -> y = z) ->
  List.find p l = Some x <-> x ∈ l /\ p x = true.
Proof.
  intros Hu. split.
  - intros [Hin Hp]%List.find_some. by rewrite list_elem_of_In.
  - intros [Hin Hp]. destruct (List.find p l) as [y|] eqn:E.
    + apply List.find_some in E as [Hy Hpy]. rewrite <- list_elem_of_In in Hy. f_equal. by apply Hu.
    + rewrite list_elem_of_In in Hin. by rewrite (List.find_none _ _ E x Hin) in Hp.
Qed.

Lemma clash_spec w w' : clash w w' = true <-> address w' = address w \/ id w' = id w.
Proof. unfold clash. by rewrite orb_true_iff, bool_decide_eq_true, Z.eqb_eq. Qed.

Lemma nodup_map_filter {A B} (f : A -> B) (P : A -> Prop) `{!forall x, Decision (P x)} l :
  NoDup (map f l) -> NoDup (map f (filter P l)).
Proof.
  induction l as [|x l IH]; [done|]. cbn [map]. intros [Hn Hd]%NoDup_cons. rewrite filter_cons.
  case_decide; [|by apply IH]. cbn [map]. apply NoDup_cons. split; [|by apply IH].
  intros Hin. apply Hn. apply (list_elem_of_fmap f) in Hin as (y & -> & Hy). apply list_elem_of_filter in Hy as [_ Hy].
  by apply (list_elem_of_fmap_2 f).
Qed.

Lemma nodup_map_snoc {A B} (f : A -> B) l x :
  NoDup (map f l) -> (forall y, y ∈ l -> f y <> f x) -> NoDup (map f (l ++ [x])).
Proof.
  intros Hd Hn. rewrite map_app. apply NoDup_app. split_and!; [done| |apply NoDup_singleton].
  intros y Hy Hx. cbn in Hx. apply list_elem_of_singleton in Hx as ->.
  apply (list_elem_of_fmap f) in Hy as (z & E & Hz). by apply (Hn z).
Qed.

#[export] Instance list_index_laws : MultiIndexLaws list_index list_ok.
Proof.
  split; cbn [list_index mi_elems mi_empty mi_find_address mi_find_id mi_insert mi_erase mi_modify_id].
  - split; constructor.
  - intros w. apply not_elem_of_nil.
  - intros d w w' [Ha _]. by apply nodup_map_inj.
  - intros d w w' [_ Hi]. by apply nodup_map_inj.
  - intros d a w [Ha _]. rewrite find_some_iff, bool_decide_eq_true; [done|].
    intros y z Hy Hz Ey%bool_decide_eq_true Ez%bool_decide_eq_true. eapply nodup_map_inj; [exact Ha|done..|congruence].
  - intros d i w [_ Hi]. rewrite find_some_iff, Z.eqb_eq; [done|].
    intros y z Hy Hz Ey%Z.eqb_eq Ez%Z.eqb_eq. eapply nodup_map_inj; [exact Hi|done..|congruence].
  - intros d w [Ha Hi] Hn. destruct (List.find (clash w) d) as [b|] eqn:E.
    { apply List.find_some in E as [Hb Hc]. rewrite <- list_elem_of_In in Hb. apply clash_spec in Hc.
      destruct (Hn b Hb) as [? ?]. by destruct Hc. }
    cbn [fst snd]. split_and!; [done|split; apply nodup_map_snoc; (done || by intros y Hy; apply Hn)|].
    intros w'. rewrite elem_of_app, list_elem_of_singleton. tauto.
  - intros d w w' Hok Hin Hc. destruct (List.find (clash w) d) as [b|] eqn:E.
    + apply List.find_some in E as [Hb Hcb]. rewrite <- list_elem_of_In in Hb. apply clash_spec in Hcb.
      split; [done|]. by exists b.
    + rewrite list_elem_of_In in Hin. apply clash_spec in Hc. by rewrite (List.find_none _ _ E w' Hin) in Hc.
  - intros d w [Ha Hi]. split; [split; by apply nodup_map_filter|]. intros w'. rewrite list_elem_of_filter. tauto.
  - intros d w i [Ha Hi] Hw Hn.
    destruct (List.existsb _ _) eqn:E.
    { apply List.existsb_exists in E as (w' & Hin & Hw'%Z.eqb_eq). rewrite <- list_elem_of_In in Hin.
      apply list_elem_of_filter in Hin as [Hne Hin]. destruct (Hn w' Hin Hne Hw'). }
    split.
    + split; apply nodup_map_snoc; try (by apply nodup_map_filter); intros y [Hne Hy]%list_elem_of_filter; cbn.
      * intros Ea. apply Hne. by apply (nodup_map_inj address d).
      * by apply Hn.
    + intros w'. rewrite elem_of_app, list_elem_of_filter, list_elem_of_singleton. tauto.
Qed.

(** ** The numbering *)

Section numbering.
Context {D} `{!MultiIndex D} {ok : D -> Prop} `{!MultiIndexLaws _ ok} `{!Cscrypto}.
Implicit Types n : WalletsIds D.

Definition two31 : Z := 2147483648.

(** Normal ids are below [nextId_], special ones below [nextIdSpecial_]. *)
Record ids_ok n : Prop := {
  ids_data : ok (data_ n);
  ids_next : 0 <= nextId_ n < two31;
  ids_special : two31 <= nextIdSpecial_ n < 2 * two31;
  ids_elems w : w ∈ mi_elems (data_ n) -> is_wallet_id (address w) = false /\
    (0 <= id w < nextId_ n \/ two31 <= id w < nextIdSpecial_ n)
}.

Lemma isSpecial_ge i : 0 <= i < 2 * two31 -> isSpecial i = (two31 <=? i).
Proof.
  intros Hi. unfold isSpecial, maskSpecial_. change (Z.shiftl 1 31) with (2 ^ 31).
  rewrite land_pow2_eqb, negb_involutive, testbit_odd by lia. unfold two31 in *.
  destruct (Z.leb_spec 2147483648 i).
  - replace (i / 2 ^ 31) with 1 by machine_lia. done.
  - replace (i / 2 ^ 31) with 0 by machine_lia. done.
Qed.

Definition public_key_address (a : Address) : Prop := is_wallet_id a = false.

Lemma public_is_public a : public_key_address a -> is_public_key a = true.
Proof. unfold public_key_address, is_wallet_id, is_public_key. by intros ->. Qed.

Definition known (a : Address) n : Prop := exists w, w ∈ mi_elems (data_ n) /\ address w = a.
Definition used (i : Z) n : Prop := exists w, w ∈ mi_elems (data_ n) /\ id w = i.

Lemma insert_cases n a i :
  ok (data_ n) ->
  (~ known a n /\ ~ used i n /\ snd (mi_insert (mkWallet a i) (data_ n)) = (mkWallet a i, true) /\
     ok (fst (mi_insert (mkWallet a i) (data_ n))) /\
     forall w, w ∈ mi_elems (fst (mi_insert (mkWallet a i) (data_ n))) <-> w = mkWallet a i \/ w ∈ mi_elems (data_ n)) \/
  (fst (mi_insert (mkWallet a i) (data_ n)) = data_ n /\
     exists b, snd (mi_insert (mkWallet a i) (data_ n)) = (b, false) /\ b ∈ mi_elems (data_ n)
       /\ (address b = a \/ id b = i)).
Proof.
  intros Hok. destruct (mi_insert (mkWallet a i) (data_ n)) as [d [b s]] eqn:E. cbn [fst snd].
  destruct (decide (Exists (fun w => address w = a \/ id w = i) (mi_elems (data_ n)))) as [He|He].
  - right. apply Exists_exists in He as (w & Hw & Hc).
    destruct (mi_insert_banned (data_ n) (mkWallet a i) w Hok Hw Hc) as [E1 (b' & E2 & Hb & Hcb)].
    rewrite E in E1, E2. cbn [fst snd] in E1, E2. injection E2 as -> ->. split; [done|]. by exists b'.
  - left. assert (forall w, w ∈ mi_elems (data_ n) -> address w <> a /\ id w <> i) as Hn.
    { intros w Hw. split; intros Ew; apply He, Exists_exists; exists w; auto. }
    destruct (mi_insert_new (data_ n) (mkWallet a i) Hok Hn) as (E1 & E2 & E3). rewrite E in E1, E2, E3.
    cbn [fst snd] in *. split_and!; [..|done|done|done].
    + intros (w & Hw & Ew). by destruct (Hn w Hw).
    + intros (w & Hw & Ew). by destruct (Hn w Hw).
Qed.

Lemma find_known n a : ids_ok n -> public_key_address a -> forall i,
  find a n = Some i <-> mkWallet a i ∈ mi_elems (data_ n).
Proof.
  intros [Hok _ _ _] Ha i. unfold find. rewrite Ha, (public_is_public a Ha).
  destruct (mi_find_address a (data_ n)) as [w|] eqn:E; cbn [option_map].
  - apply (mi_find_address_spec _ _ _ Hok) in E as [Hw <-]. split.
    + intros [= <-]. by destruct w.
    + intros Hin. f_equal. by rewrite (mi_unique_address _ _ _ Hok Hw Hin).
  - split; [done|]. intros Hin. assert (mi_find_address a (data_ n) = Some (mkWallet a i)) as E'.
    { by apply (mi_find_address_spec _ _ _ Hok). }
    congruence.
Qed.

Lemma known_or_not a n : ids_ok n -> known a n \/ ~ known a n.
Proof.
  intros [Hok _ _ _]. destruct (mi_find_address a (data_ n)) as [w|] eqn:E.
  - left. exists w. by apply (mi_find_address_spec _ _ _ Hok).
  - right. intros (w & Hw). apply (mi_find_address_spec _ _ _ Hok) in Hw. congruence.
Qed.

(** A fresh key with a fresh id. *)
Lemma ids_ok_insert n d a i next nexts :
  ids_ok n -> public_key_address a -> ok d ->
  (forall w, w ∈ mi_elems d <-> w = mkWallet a i \/ w ∈ mi_elems (data_ n)) ->
  nextId_ n <= next < two31 -> nextIdSpecial_ n <= nexts < 2 * two31 ->
  0 <= i < next \/ two31 <= i < nexts ->
  ids_ok (mkWalletsIds d next nexts).
Proof.
  intros [Hok Hn Hs He] Ha Hd Hin Hnext Hnexts Hi. split; cbn [data_ nextId_ nextIdSpecial_]; [done|lia|lia|].
  intros w [->|Hw]%Hin; [split; [done|]; cbn; lia|]. destruct (He w Hw) as [Hp Hr]. split; [done|]. lia.
Qed.

Lemma next_unused n : ids_ok n -> ~ used (nextId_ n) n.
Proof. intros [Hok Hnx Hsp He] (w & Hw & Ew). destruct (He w Hw) as [_ Hr]. unfold two31 in *. lia. Qed.

Lemma get_new n a :
  ids_ok n -> public_key_address a -> nextId_ n < max_id / 2 -> ~ known a n ->
  exists n', get a n = (n', Ok (nextId_ n, true)) /\ ids_ok n' /\ nextId_ n' = nextId_ n + 1 /\
    forall w, w ∈ mi_elems (data_ n') <-> w = mkWallet a (nextId_ n) \/ w ∈ mi_elems (data_ n).
Proof.
  intros Hn Ha Hmax Hk. pose proof Hn as [Hok Hnx Hsp He].
  destruct (insert_cases n a (nextId_ n) Hok) as [(_ & _ & E1 & E2 & E3)|(_ & b & _ & Hb & Hc)].
  2:{ exfalso. destruct Hc; [apply Hk|apply (next_unused n Hn)]; by exists b. }
  unfold get. rewrite Ha, (public_is_public a Ha).
  destruct (mi_insert (mkWallet a (nextId_ n)) (data_ n)) as [d [b s]]. cbn [fst snd] in *. injection E1 as -> ->.
  cbn [upd nextId_]. destruct (Z.leb_spec (max_id / 2) (nextId_ n)); [lia|]. cbn [id].
  assert (max_id / 2 = 2147483647) as Emax by done. rewrite Emax in *.
  rewrite uwrap_id by (unfold in_u; lia). eexists. split; [done|]. split_and!; [|done|exact E3].
  apply (ids_ok_insert n d a (nextId_ n)); [done..| | |]; cbn; unfold two31 in *; lia.
Qed.

(** An insertion prevented by an element gives that element's id. *)
Lemma get_banned n a w :
  ok (data_ n) -> public_key_address a -> w ∈ mi_elems (data_ n) -> address w = a \/ id w = nextId_ n ->
  exists b, get a n = (n <| data_ := data_ n |>, Ok (id b, false)) /\ b ∈ mi_elems (data_ n) /\
    (address b = a \/ id b = nextId_ n).
Proof.
  intros Hok Ha Hw Hc. destruct (mi_insert_banned (data_ n) (mkWallet a (nextId_ n)) w Hok Hw Hc) as [E1 (b & E2 & Hb & Hcb)].
  exists b. split; [|done]. unfold get. rewrite Ha, (public_is_public a Ha).
  destruct (mi_insert (mkWallet a (nextId_ n)) (data_ n)) as [d [b' s]]. cbn [fst snd] in *.
  injection E2 as -> ->. by rewrite E1.
Qed.

(** WalletsIds::Normal::get of a public key: a known key keeps its id, an unknown one gets the
    next id, which no other wallet had, is found by key and by id from then on, and the known keys
    keep theirs. *)
Theorem get_spec n a :
  ids_ok n -> public_key_address a -> nextId_ n < max_id / 2 ->
  (forall i, find a n = Some i -> get a n = (n <| data_ := data_ n |>, Ok (i, false))) /\
  (find a n = None ->
     exists n', get a n = (n', Ok (nextId_ n, true)) /\ ids_ok n' /\ nextId_ n' = nextId_ n + 1 /\
       find a n' = Some (nextId_ n) /\ findaddr (nextId_ n) n' = Some a /\ findaddr (nextId_ n) n = None /\
       forall b i, public_key_address b -> find b n = Some i -> find b n' = Some i /\ i <> nextId_ n).
Proof.
  intros Hn Ha Hmax. pose proof Hn as [Hok _ _ _]. split.
  - intros i Hi. apply find_known in Hi; [|done..].
    destruct (get_banned n a _ Hok Ha Hi) as (b & E & Hb & Hc); [by left|]. rewrite E.
    destruct Hc as [Hc|Hc]; [|destruct (next_unused n Hn); by exists b].
    by rewrite (mi_unique_address _ b (mkWallet a i) Hok Hb Hi Hc).
  - intros Hf. assert (~ known a n) as Hk.
    { intros (w & Hw & Ew). assert (find a n = Some (id w)); [|congruence].
      apply find_known; [done..|]. by destruct w; cbn in *; subst. }
    destruct (get_new n a Hn Ha Hmax Hk) as (n' & E & Hn' & Hx & He). exists n'.
    split_and!; [done..| | | |].
    + apply find_known; [done..|]. apply He. by left.
    + unfold findaddr. rewrite (proj2 (mi_find_id_spec (data_ n') (nextId_ n) (mkWallet a (nextId_ n)) (ids_data _ Hn'))); [done|].
      split; [|done]. apply He. by left.
    + unfold findaddr. destruct (mi_find_id (nextId_ n) (data_ n)) as [w|] eqn:Ef; [|done].
      apply (mi_find_id_spec _ _ _ Hok) in Ef. destruct (next_unused n Hn). by exists w.
    + intros b i Hb Hi. apply find_known in Hi; [|done..]. split.
      * apply find_known; [done..|]. apply He. by right.
      * intros ->. apply (next_unused n Hn). by exists (mkWallet b (nextId_ n)).
Qed.

Lemma insert_fresh n a i :
  ids_ok n -> public_key_address a -> ~ known a n -> ~ used i n -> nextId_ n <= i < max_id / 2 ->
  exists n', insert a i n = (n', Ok true) /\ ids_ok n' /\ nextId_ n' = i + 1 /\ nextIdSpecial_ n' = nextIdSpecial_ n /\
    forall w, w ∈ mi_elems (data_ n') <-> w = mkWallet a i \/ w ∈ mi_elems (data_ n).
Proof.
  intros Hn Ha Hk Hu Hi. pose proof Hn as [Hok Hnx Hsp He].
  destruct (insert_cases n a i Hok) as [(_ & _ & E1 & E2 & E3)|(_ & b & _ & Hb & Hc)].
  2:{ exfalso. destruct Hc; [apply Hk|apply Hu]; by exists b. }
  unfold insert. rewrite Ha, (public_is_public a Ha).
  destruct (mi_insert (mkWallet a i) (data_ n)) as [d [b s]]. cbn [fst snd] in *. injection E1 as -> ->.
  cbn [upd nextId_]. destruct (Z.leb_spec (nextId_ n) i); [|lia]. cbn [andb].
  destruct (Z.leb_spec (max_id / 2) i); [lia|]. assert (max_id / 2 = 2147483647) as Emax by done.
  eexists. split; [done|]. split_and!; [|done|done|exact E3].
  apply (ids_ok_insert n d a i); [done..| | |]; cbn; unfold two31 in *; lia.
Qed.

Lemma remove_known n a w :
  ok (data_ n) -> public_key_address a -> w ∈ mi_elems (data_ n) -> address w = a -> 0 < nextId_ n ->
  exists n', remove a n = (n', true) /\ ok (data_ n') /\ nextId_ n' = nextId_ n - 1 /\
    nextIdSpecial_ n' = nextIdSpecial_ n /\
    forall w', w' ∈ mi_elems (data_ n') <-> w' ∈ mi_elems (data_ n) /\ w' <> w.
Proof.
  intros Hok Ha Hw Ew Hpos. unfold remove. rewrite Ha.
  rewrite (proj2 (mi_find_address_spec (data_ n) a w Hok)) by done.
  destruct (mi_erase_spec (data_ n) w Hok) as [Ho He]. cbn [upd nextId_].
  destruct (Z.ltb_spec 0 (nextId_ n)); [|lia]. eexists. split; [done|]. split_and!; [exact Ho|done|done|exact He].
Qed.

(** The same wallets under the same counters, however the container holds them. *)
Definition same_ids n n' : Prop :=
  nextId_ n = nextId_ n' /\ nextIdSpecial_ n = nextIdSpecial_ n' /\
  forall w, w ∈ mi_elems (data_ n) <-> w ∈ mi_elems (data_ n').

#[global] Instance same_ids_equiv : Equivalence same_ids.
Proof.
  split.
  - by intros n.
  - intros n n' (H1 & H2 & H3). split_and!; [done..|]. intros w. by rewrite H3.
  - intros n n' n'' (H1 & H2 & H3) (K1 & K2 & K3). split_and!; [congruence..|]. intros w. by rewrite H3.
Qed.

(** The new wallets of a block as [addNewWalletToPool] makes them: unknown
    public keys, numbered from [nextId_] on. *)
Fixpoint fresh_wallets (pool : Pool.Pool.priv) (l : list Pool.Pool.NewWalletInfo) (next : Z) (seen : list Address) : Prop :=
  match l with
  | [] => True
  | w :: l' =>
      exists a, Pool.Pool.getWalletAddress pool w = Some a /\ public_key_address a /\ (a ∉ seen) /\
        Pool.Pool.walletId_ w = next /\ next < max_id / 2 /\ fresh_wallets pool l' (next + 1) (a :: seen)
  end.

Lemma fresh_wallets_seen pool l next seen seen' :
  (forall a, a ∈ seen' -> a ∈ seen) -> fresh_wallets pool l next seen -> fresh_wallets pool l next seen'.
Proof.
  revert next seen seen'. induction l as [|w l IH]; intros next seen seen' Hs; cbn [fresh_wallets]; [done|].
  intros (a & H1 & H2 & H3 & H4 & H5 & H6). exists a. split_and!; try done; [by intros ?%Hs|].
  eapply IH; [|exact H6]. intros b [->|Hb]%elem_of_cons; [left|right; by apply Hs].
Qed.

(** What [update_loop] adds and [remove_loop] takes away. *)
Fixpoint added (pool : Pool.Pool.priv) (l : list Pool.Pool.NewWalletInfo) : list Wallet :=
  match l with
  | [] => []
  | w :: l' =>
      match Pool.Pool.getWalletAddress pool w with
      | Some a => mkWallet a (Pool.Pool.walletId_ w) :: added pool l'
      | None => []
      end
  end.

Lemma added_not_seen pool l next seen a x :
  fresh_wallets pool l next seen -> a ∈ seen -> x ∈ added pool l -> address x <> a.
Proof.
  revert next seen. induction l as [|w l IH]; intros next seen; cbn [added fresh_wallets].
  - by intros _ _ ?%not_elem_of_nil.
  - intros (b & Eb & Hb & Hnb & _ & _ & Hf) Hs. rewrite Eb. intros [->|Hx]%elem_of_cons; [by cbn; intros <-|].
    eapply IH; [exact Hf| |exact Hx]. by right.
Qed.

Lemma update_loop_spec pool l n :
  ids_ok n -> (forall w, w ∈ mi_elems (data_ n) -> id w < nextId_ n \/ two31 <= id w) ->
  fresh_wallets pool l (nextId_ n) (map address (mi_elems (data_ n))) ->
  exists n', update_loop pool l n = (n', true) /\ ids_ok n' /\ nextId_ n' = nextId_ n + Z.of_nat (length l) /\
    nextIdSpecial_ n' = nextIdSpecial_ n /\
    forall w, w ∈ mi_elems (data_ n') <-> w ∈ added pool l \/ w ∈ mi_elems (data_ n).
Proof.
  revert n. induction l as [|w l IH]; intros n Hn _ Hf; cbn [update_loop added fresh_wallets length] in *.
  - exists n. split_and!; [done|done|lia|done|]. intros w. split; [by right|intros [?%not_elem_of_nil|]; done].
  - destruct Hf as (a & Ea & Ha & Hns & Eid & Hmax & Hf). rewrite Ea, Eid.
    assert (~ known a n) as Hk.
    { intros (x & Hx & <-). apply Hns. by apply (list_elem_of_fmap_2 address). }
    assert (~ used (nextId_ n) n) as Hu.
    { intros (x & Hx & Ex). destruct (ids_elems _ Hn x Hx) as [_ Hr]. destruct Hn. lia. }
    destruct (insert_fresh n a (nextId_ n) Hn Ha Hk Hu) as (n1 & E1 & Hn1 & Hx1 & Hs1 & He1); [lia|].
    rewrite E1. destruct (IH n1 Hn1) as (n2 & E2 & Hn2 & Hx2 & Hs2 & He2).
    { intros x Hx. destruct (ids_elems _ Hn1 x Hx) as [_ Hr]. lia. }
    { rewrite Hx1. eapply fresh_wallets_seen; [|exact Hf]. intros b Hb.
      apply (list_elem_of_fmap address) in Hb as (x & -> & Hx). apply He1 in Hx as [->|Hx]; [left|right].
      by apply (list_elem_of_fmap_2 address). }
    exists n2. rewrite E2, Hx2, Hx1, Hs2, Hs1. split_and!; [done|done|lia|done|].
    intros x. rewrite He2, He1, elem_of_cons. tauto.
Qed.

Lemma remove_loop_spec pool l n next seen :
  fresh_wallets pool l next seen -> ok (data_ n) -> Z.of_nat (length l) <= nextId_ n ->
  (forall w, w ∈ added pool l -> w ∈ mi_elems (data_ n)) ->
  let n' := remove_loop pool l n in
  ok (data_ n') /\ nextId_ n' = nextId_ n - Z.of_nat (length l) /\ nextIdSpecial_ n' = nextIdSpecial_ n /\
  forall w, w ∈ mi_elems (data_ n') <-> w ∈ mi_elems (data_ n) /\ w ∉ added pool l.
Proof.
  revert n next seen. induction l as [|w l IH]; intros n next seen Hf Hok Hlen Hin; cbn [remove_loop added fresh_wallets length] in *.
  - split_and!; [done|lia|done|]. intros w. split; [intros; split; [done|apply not_elem_of_nil]|by intros []].
  - destruct Hf as (a & Ea & Ha & Hns & Eid & Hmax & Hf). rewrite Ea in *.
    destruct (remove_known n a (mkWallet a (Pool.Pool.walletId_ w)) Hok Ha) as (n1 & E1 & Ho1 & Hx1 & Hs1 & He1);
      [apply Hin; by left|done|lia|].
    rewrite E1. cbn [fst].
    assert (forall x, x ∈ added pool l -> address x <> a) as Hne.
    { intros x Hx. eapply added_not_seen; [exact Hf| |exact Hx]. by left. }
    destruct (IH n1 (next + 1) (a :: seen) Hf Ho1) as (H1 & H2 & H3 & H4); [lia| |].
    { intros x Hx. apply He1. split; [apply Hin; by right|]. intros ->. by apply Hne in Hx. }
    split_and!; [done|lia|congruence|]. intros x. rewrite H4, He1, not_elem_of_cons. tauto.
Qed.

(** Numbering the new wallets of a block (BlockChain::updateWalletIds) succeeds, keeps the ids
    well formed, and removing that block (removeWalletsInPoolFromCache) gives back the same
    wallets and counters, for every container that behaves as the documented multi-index. *)
Theorem rollback_wallet_ids pool n :
  ids_ok n ->
  fresh_wallets pool (Pool.Pool.newWallets_ pool) (nextId_ n) (map address (mi_elems (data_ n))) ->
  exists n', updateWalletIds pool n = (n', true) /\ ids_ok n' /\
    same_ids (removeWalletsInPoolFromCache pool n') n.
Proof.
  intros Hn Hf. destruct (update_loop_spec pool (Pool.Pool.newWallets_ pool) n Hn) as (n' & E & Hn' & Hx & Hs & He); [|done|].
  { intros w Hw. destruct (ids_elems _ Hn w Hw) as [_ Hr]. lia. }
  exists n'. split; [done|]. split; [done|]. unfold removeWalletsInPoolFromCache.
  destruct (remove_loop_spec pool (Pool.Pool.newWallets_ pool) n' (nextId_ n) (map address (mi_elems (data_ n))))
    as (H1 & H2 & H3 & H4); [done|apply Hn'|destruct Hn; lia| |].
  { intros w Hw. apply He. by left. }
  split_and!; [lia|congruence|]. intros w. rewrite H4, He. split; [intros [[?|?] ?]; done|].
  intros Hw. split; [by right|]. intros Ha.
  apply (added_not_seen _ _ _ _ (address w) w Hf) in Ha; [done|]. by apply (list_elem_of_fmap_2 address).
Qed.

(** Removing a wallet that is not the last one numbered makes the next key's id collide: the new
    key gets the id of another wallet and is not inserted. *)
Theorem remove_then_get_collides n a b c :
  ids_ok n -> nextId_ n + 1 < max_id / 2 ->
  public_key_address a -> public_key_address b -> public_key_address c -> a <> b -> a <> c -> b <> c ->
  ~ known a n -> ~ known b n -> ~ known c n ->
  exists n1 n2 n3, get a n = (n1, Ok (nextId_ n, true)) /\ get b n1 = (n2, Ok (nextId_ n + 1, true)) /\
    remove a n2 = (n3, true) /\ get c n3 = (n3 <| data_ := data_ n3 |>, Ok (nextId_ n + 1, false)) /\
    find b n3 = Some (nextId_ n + 1) /\ find c n3 = None.
Proof.
  intros Hn Hmax Ha Hb Hc Hab Hac Hbc Ka Kb Kc.
  destruct (get_new n a Hn Ha) as (n1 & E1 & Hn1 & Hx1 & He1); [lia|done|].
  assert (forall d, d <> a -> ~ known d n -> ~ known d n1) as Kn1.
  { intros d Hd Kd (w & Hw & Ew). apply He1 in Hw as [->|Hw]; [by cbn in Ew|]. apply Kd. by exists w. }
  destruct (get_new n1 b Hn1 Hb) as (n2 & E2 & Hn2 & Hx2 & He2); [lia|by apply Kn1|].
  destruct (remove_known n2 a (mkWallet a (nextId_ n))) as (n3 & E3 & Hok3 & Hx3 & _ & He3);
    [apply Hn2|done|apply He2; right; apply He1; by left|done|destruct Hn; lia|].
  assert (mkWallet b (nextId_ n1) ∈ mi_elems (data_ n3)) as Hb3.
  { apply He3. split; [apply He2; by left|]. intros [=]. by destruct Hab. }
  assert (nextId_ n3 = nextId_ n + 1) as Hx by lia.
  destruct (get_banned n3 c (mkWallet b (nextId_ n1)) Hok3 Hc Hb3) as (d & Ed & Hd & Hcd); [right; cbn; lia|].
  assert (~ known c n3) as Kc3.
  { intros (w & Hw & Ew). apply He3 in Hw as [Hw _]. apply He2 in Hw as [->|Hw]; [by cbn in Ew|].
    by apply (Kn1 c); [congruence|done|exists w]. }
  exists n1, n2, n3. rewrite Hx1 in E2. split_and!; [done..| | |].
  - rewrite Ed. destruct Hcd as [Hcd|Hcd]; [destruct Kc3; by exists d|]. by rewrite Hcd, Hx.
  - unfold find. rewrite Hb, (public_is_public b Hb).
    rewrite (proj2 (mi_find_address_spec (data_ n3) b (mkWallet b (nextId_ n1)) Hok3)) by done. cbn. by rewrite Hx1.
  - unfold find. rewrite Hc, (public_is_public c Hc).
    destruct (mi_find_address c (data_ n3)) as [w|] eqn:Ef; [|done].
    apply (mi_find_address_spec _ _ _ Hok3) in Ef. destruct Kc3. by exists w.
Qed.
End numbering.

(** ** Witnesses *)

Definition sample_public (k : Z) : Address := from_public_key (le_bytes 32 k).

(** One wallet is known, under the id 0. *)
Definition sample_ids : WalletsIds (list Wallet) := mkWalletsIds [mkWallet (sample_public 50) 0] 1 two31.

Lemma sample_ids_ok : ids_ok (ok := list_ok) sample_ids.
Proof.
  split; cbn [data_ nextId_ nextIdSpecial_ sample_ids]; unfold two31; [|lia|lia|].
  - split; apply NoDup_singleton.
  - intros w Hw. cbn in Hw. apply list_elem_of_singleton in Hw as ->. split; [done|]. cbn. lia.
Qed.

(** A block whose first transaction's source and whose second confidant are new. *)
Definition sample_block : Pool.Pool.priv :=
  Pool.Pool.edit_newWallets (fun _ => [Pool.Pool.mkNewWalletInfo 0 0 1; Pool.Pool.mkNewWalletInfo 3 0 2])
    Pool.sample_pool.

Lemma rollback_wallet_ids_witness :
  exists n', updateWalletIds sample_block sample_ids = (n', true) /\ ids_ok (ok := list_ok) n' /\
    same_ids (removeWalletsInPoolFromCache sample_block n') sample_ids.
Proof.
  apply (rollback_wallet_ids sample_block sample_ids sample_ids_ok).
  eexists. split; [vm_compute; reflexivity|]. split_and!;
    [done|by apply (bool_decide_unpack _); vm_compute|done|done|].
  eexists. split; [vm_compute; reflexivity|]. split_and!;
    [done|by apply (bool_decide_unpack _); vm_compute|done|done|done].
Defined.

Lemma get_spec_witness :
  let a := sample_public 51 in
  (forall i, find a sample_ids = Some i -> get a sample_ids = (sample_ids, Ok (i, false))) /\
  (find a sample_ids = None ->
     exists n', get a sample_ids = (n', Ok (1, true)) /\ ids_ok (ok := list_ok) n' /\ nextId_ n' = 1 + 1 /\
       find a n' = Some 1 /\ findaddr 1 n' = Some a /\ findaddr 1 sample_ids = None /\
       forall b i, public_key_address b -> find b sample_ids = Some i -> find b n' = Some i /\ i <> 1).
Proof. apply (get_spec sample_ids (sample_public 51) sample_ids_ok); done. Defined.

Lemma sample_unknown k : 50 < k < 256 -> ~ known (sample_public k) sample_ids.
Proof.
  intros Hk (w & Hw & Ew). cbn in Hw. apply list_elem_of_singleton in Hw as ->.
  injection Ew. machine_lia.
Qed.

Lemma remove_then_get_collides_witness :
  let a := sample_public 51 in let b := sample_public 52 in let c := sample_public 53 in
  exists n1 n2 n3, get a sample_ids = (n1, Ok (1, true)) /\ get b n1 = (n2, Ok (1 + 1, true)) /\
    remove a n2 = (n3, true) /\ get c n3 = (n3 <| data_ := data_ n3 |>, Ok (1 + 1, false)) /\
    find b n3 = Some (1 + 1) /\ find c n3 = None.
Proof.
  apply (remove_then_get_collides (ok := list_ok) sample_ids (sample_public 51) (sample_public 52) (sample_public 53));
    [apply sample_ids_ok|done|done|done|done|..].
  1-3: by apply (bool_decide_unpack _); vm_compute.
  all: apply sample_unknown; lia.
Defined.
