(* ===== verification/AmountMod.v ===== *)
(** * Amounts as a group

    The balances of wallets are sums and differences of amounts that wrap
    around silently in 32 bits: [+=] and [-=] are exact modulo [2 ^ 32] units.
    A normal amount is the only one in its class, so equations between
    balances can be solved there, with setoid rewriting.  The second operand
    may have the fraction 10^18, as [operator+] leaves it. *)

From Stdlib Require Import ZArith Lia Morphisms RelationClasses.
From stdpp Require Import base tactics numbers option list.
From S2P Require Import Prelude Math128 Amount.

Local Open Scope Z_scope.
Local Open Scope cs_scope.

(** The integers modulo the range of the amounts. *)
Definition modulus : Z := 2 ^ 32 * AMOUNT_MAX_FRACTION.
Definition eqm (x y : Z) : Prop := exists k, x = y + k * modulus.
Infix "≡ₐ" := eqm (at level 70) : cs_scope.

#[export] Instance eqm_equiv : Equivalence eqm.
Proof.
  split.
  - intros x. exists 0. lia.
  - intros x y [k ->]. exists (- k). lia.
  - intros x y z [k ->] [k' ->]. exists (k + k'). lia.
Qed.

#[export] Instance eqm_add : Proper (eqm ==> eqm ==> eqm) Z.add.
Proof. intros x x' [k ->] y y' [k' ->]. exists (k + k'). lia. Qed.
#[export] Instance eqm_sub : Proper (eqm ==> eqm ==> eqm) Z.sub.
Proof. intros x x' [k ->] y y' [k' ->]. exists (k - k'). lia. Qed.
#[export] Instance eqm_opp : Proper (eqm ==> eqm) Z.opp.
Proof. intros x x' [k ->]. exists (- k). lia. Qed.

Lemma eqm_eq x y : x = y -> x ≡ₐ y.
Proof. by intros ->. Qed.

(** [x ≡ₐ y] whose sides are equal up to reordering. *)
Ltac eqm_ring := apply eqm_eq; ring.

Lemma swrap_eqm z f : swrap 32 z * AMOUNT_MAX_FRACTION + f ≡ₐ z * AMOUNT_MAX_FRACTION + f.
Proof.
  unfold swrap. pose proof (Z.div_mod (z + 2 ^ (32 - 1)) (2 ^ 32) ltac:(lia)) as E.
  exists (- ((z + 2 ^ (32 - 1)) / 2 ^ 32)). unfold modulus. nia.
Qed.

Lemma swrap_eqm0 z : swrap 32 z * AMOUNT_MAX_FRACTION ≡ₐ z * AMOUNT_MAX_FRACTION.
Proof. pose proof (swrap_eqm z 0) as H. by rewrite !Z.add_0_r in H. Qed.

Lemma swrap32_range z : in_s 32 (swrap 32 z).
Proof. apply swrap_range. lia. Qed.

Lemma of_int_mod z : in_s 32 z -> normal (of_int z) /\ value (of_int z) ≡ₐ z * AMOUNT_MAX_FRACTION.
Proof.
  intros Hz. split; [|unfold value; cbn; rewrite Z.add_0_r; reflexivity]. split; [done|]. cbn. unfold AMOUNT_MAX_FRACTION. lia.
Qed.

Lemma add_assign_mod a b : normal a -> weak b ->
  normal (add_assign a b) /\ value (add_assign a b) ≡ₐ value a + value b.
Proof.
  intros [Ra Fa] [Rb Fb]. unfold add_assign. unfold AMOUNT_MAX_FRACTION in Fa, Fb. rewrite (uwrap_id 64 (fraction_ a + _)) by (unfold in_u; lia).
  unfold normal, value. destruct (Z.leb_spec AMOUNT_MAX_FRACTION (fraction_ a + fraction_ b)); cbn [integral_ fraction_].
  - unfold AMOUNT_MAX_FRACTION in *. rewrite uwrap_id by (unfold in_u; lia). split; [split; [apply swrap32_range|lia]|].
    fold AMOUNT_MAX_FRACTION. rewrite swrap_eqm.
    change 1000000000000000000 with AMOUNT_MAX_FRACTION.
    transitivity (swrap 32 (integral_ a + integral_ b) * AMOUNT_MAX_FRACTION + (fraction_ a + fraction_ b)); [eqm_ring|].
    rewrite swrap_eqm. eqm_ring.
  - unfold AMOUNT_MAX_FRACTION in *. split; [split; [apply swrap32_range|lia]|].
    change 1000000000000000000 with AMOUNT_MAX_FRACTION. rewrite swrap_eqm. eqm_ring.
Qed.

Lemma sub_assign_mod a b : normal a -> weak b ->
  normal (sub_assign a b) /\ value (sub_assign a b) ≡ₐ value a - value b.
Proof.
  intros [Ra Fa] [Rb Fb]. unfold sub_assign. unfold AMOUNT_MAX_FRACTION in Fa, Fb. rewrite Z.gtb_ltb.
  unfold normal, value. destruct (Z.ltb_spec (fraction_ a) (fraction_ b)); cbn [integral_ fraction_].
  - rewrite (uwrap_id 64 (AMOUNT_MAX_FRACTION - _)) by (unfold in_u, AMOUNT_MAX_FRACTION; lia).
    rewrite uwrap_id by (unfold in_u, AMOUNT_MAX_FRACTION; lia).
    split; [split; [apply swrap32_range|unfold AMOUNT_MAX_FRACTION; lia]|].
    rewrite swrap_eqm.
    transitivity (swrap 32 (integral_ a - integral_ b) * AMOUNT_MAX_FRACTION + (fraction_ a - fraction_ b)); [eqm_ring|].
    rewrite swrap_eqm. eqm_ring.
  - rewrite uwrap_id by (unfold in_u; lia). split; [split; [apply swrap32_range|unfold AMOUNT_MAX_FRACTION; lia]|].
    rewrite swrap_eqm. eqm_ring.
Qed.

Lemma op_sub_mod a b : normal a -> weak b -> normal (op_sub a b) /\ value (op_sub a b) ≡ₐ value a - value b.
Proof.
  intros [Ra Fa] [Rb Fb]. unfold op_sub. unfold AMOUNT_MAX_FRACTION in Fa, Fb.
  unfold normal, value. destruct (Z.ltb_spec (fraction_ a) (fraction_ b)); cbn [integral_ fraction_];
    rewrite uwrap_id by (unfold in_u, AMOUNT_MAX_FRACTION; lia); (split; [split; [apply swrap32_range|unfold AMOUNT_MAX_FRACTION; lia]|]);
    rewrite swrap_eqm; eqm_ring.
Qed.

Lemma value_inj_mod a b : normal a -> normal b -> value a ≡ₐ value b -> a = b.
Proof.
  intros [Ra Fa] [Rb Fb] [k E]. unfold value, modulus, AMOUNT_MAX_FRACTION, in_s in *.
  assert (integral_ a - integral_ b - k * 2 ^ 32 = 0) by lia. assert (k = 0) by lia.
  destruct a, b; cbn in *. f_equal; lia.
Qed.

(** *** The operators that return a new amount, on weak amounts *)

Lemma op_add_weak a b : weak a -> weak b -> weak (op_add a b) /\ value (op_add a b) ≡ₐ value a + value b.
Proof.
  intros [Ra Fa] [Rb Fb]. unfold op_add. unfold AMOUNT_MAX_FRACTION in Fa, Fb. rewrite (uwrap_id 64 (fraction_ a + fraction_ b)) by (unfold in_u; lia).
  unfold weak, value. destruct (Z.ltb_spec AMOUNT_MAX_FRACTION (fraction_ a + fraction_ b)); cbn [integral_ fraction_].
  - unfold AMOUNT_MAX_FRACTION in *. rewrite uwrap_id by (unfold in_u; lia). split; [split; [apply swrap32_range|lia]|].
    change 1000000000000000000 with AMOUNT_MAX_FRACTION. rewrite swrap_eqm. eqm_ring.
  - unfold AMOUNT_MAX_FRACTION in *. split; [split; [apply swrap32_range|lia]|].
    change 1000000000000000000 with AMOUNT_MAX_FRACTION. rewrite swrap_eqm. eqm_ring.
Qed.

Lemma op_sub_weak a b : weak a -> weak b -> weak (op_sub a b) /\ value (op_sub a b) ≡ₐ value a - value b.
Proof.
  intros [Ra Fa] [Rb Fb]. unfold op_sub. unfold AMOUNT_MAX_FRACTION in Fa, Fb.
  unfold weak, value. destruct (Z.ltb_spec (fraction_ a) (fraction_ b)); cbn [integral_ fraction_];
    rewrite uwrap_id by (unfold in_u, AMOUNT_MAX_FRACTION; lia); (split; [split; [apply swrap32_range|unfold AMOUNT_MAX_FRACTION; lia]|]);
    rewrite swrap_eqm; eqm_ring.
Qed.

Lemma op_neg_weak a : weak a -> normal (op_neg a) /\ value (op_neg a) ≡ₐ - value a.
Proof.
  intros [Ra Fa]. unfold op_neg. unfold AMOUNT_MAX_FRACTION in Fa.
  unfold normal, value. destruct (Z.eqb_spec 0 (fraction_ a)) as [E|E]; cbn [integral_ fraction_ of_int].
  - split; [split; [apply swrap32_range|unfold AMOUNT_MAX_FRACTION; lia]|]. rewrite swrap_eqm, <- E. eqm_ring.
  - rewrite ?uwrap_id by (unfold in_u, AMOUNT_MAX_FRACTION; lia).
    split; [split; [apply swrap32_range|unfold AMOUNT_MAX_FRACTION; lia]|]. rewrite swrap_eqm. eqm_ring.
Qed.

(** Two representatives within half the range. *)
Lemma eqm_range x y :
  - 2 ^ 31 * AMOUNT_MAX_FRACTION <= x <= 2 ^ 31 * AMOUNT_MAX_FRACTION ->
  - 2 ^ 31 * AMOUNT_MAX_FRACTION < y < 2 ^ 31 * AMOUNT_MAX_FRACTION -> x ≡ₐ y -> x = y.
Proof. intros Hx Hy [k E]. unfold modulus, AMOUNT_MAX_FRACTION in *. assert (k = 0) by lia. lia. Qed.

Lemma weak_range a : weak a -> - 2 ^ 31 * AMOUNT_MAX_FRACTION <= value a <= 2 ^ 31 * AMOUNT_MAX_FRACTION.
Proof. intros [R F]. unfold in_s, value, AMOUNT_MAX_FRACTION in *. lia. Qed.

(** The comparisons of weak amounts that the validator makes: with zero, and of a normal
    amount with a weak one. *)
Lemma op_lt_zero a : weak a -> op_lt a (of_int 0) = (integral_ a <? 0).
Proof.
  intros [R F]. unfold op_lt. cbn [of_int integral_ fraction_]. destruct (Z.ltb_spec (integral_ a) 0); [done|].
  rewrite (proj2 (Z.ltb_ge (fraction_ a) 0)) by lia. by destruct (_ >? _).
Qed.

Lemma nonneg_value a : weak a -> 0 <= integral_ a -> 0 <= value a.
Proof. intros [R F] H. unfold value, AMOUNT_MAX_FRACTION in *. lia. Qed.

Lemma op_le_value a b : normal a -> weak b -> op_le a b = true -> value a <= value b.
Proof.
  intros [Ra Fa] [Rb Fb]. unfold op_le, op_gt. rewrite !Z.gtb_ltb. unfold value, AMOUNT_MAX_FRACTION in *.
  destruct (Z.ltb_spec (integral_ b) (integral_ a)); [done|]. destruct (Z.ltb_spec (integral_ a) (integral_ b)); [lia|].
  destruct (Z.ltb_spec (fraction_ b) (fraction_ a)); [done|lia].
Qed.
