(* ===== verification/WalletsCache.v ===== *)
(** * The wallets cache ([csnode/src/walletscache.cpp],
      [csnode/include/csnode/walletscache.hpp])

    The balances of all wallets, kept up to date block by block.  Loading a
    block moves the amounts of its transactions, charges the fees and pays
    them to the confidants; the same functions with [inverse] undo a block.

    A wallet is named by its public key; an address that is a wallet id is
    translated with [WalletsIds].  The C++ keeps references into the map
    ([auto& wallData = getWalletData(...)]): here every assignment goes to the
    map at that key, which is the same since references into an
    [std::unordered_map] stay valid.  An exception leaves the members half
    changed; what is left then is not described. *)

From Stdlib Require Import ZArith Lia.
From stdpp Require Import base tactics numbers option list gmap.
From S2P Require Import Prelude Effect Text BinStream Amount UserField Crypto Address Utils Transaction Double Pool.
From S2P Require Import ContractRef Tail WalletsIds AmountMod.

Local Open Scope Z_scope.
Local Open Scope cs_scope.

Import Contracts.

(** [WalletsCache::WalletData] *)
Record WalletData := mkWalletData {
  balance_ : Amount;
  trxTail_ : TransactionsTail.t;
  transNum_ : Z;
  lastTransaction_ : TransactionID
}.
#[global] Instance eta_wallet : Eta WalletData := fun w =>
  mkWalletData (balance_ w) (trxTail_ w) (transNum_ w) (lastTransaction_ w).

(** The members of [WalletsCache] but the ids. *)
Record Cache := mkCache {
  smartPayableTransactions_ : list TransactionID;
  canceledSmarts_ : list (Address * list TransactionID);
  wallets_ : gmap bytes WalletData
}.
#[global] Instance eta_cache : Eta Cache := fun c =>
  mkCache (smartPayableTransactions_ c) (canceledSmarts_ c) (wallets_ c).

Module WalletsCache.

Definition new_wallet : WalletData := mkWalletData (of_int 0) TransactionsTail.new 0 TxId.default.
Definition new_cache : Cache := mkCache [] [] ∅.

(** [data_.wallets_[key]], read and changed: a missing wallet is created. *)
Definition getWalletData (key : bytes) (c : Cache) : WalletData := default new_wallet (wallets_ c !! key).
Definition touch (key : bytes) (f : WalletData -> WalletData) (c : Cache) : Cache :=
  c <| wallets_ := <[key := f (getWalletData key c)]> (wallets_ c) |>.

(** [findWallet] *)
Definition findWallet (key : bytes) (c : Cache) : option WalletData := wallets_ c !! key.

(** [balance_ += a], [balance_ -= a]; the other way round when [inverse]. *)
Definition credit (a : Amount) (w : WalletData) : WalletData := w <| balance_ := add_assign (balance_ w) a |>.
Definition debit (a : Amount) (w : WalletData) : WalletData := w <| balance_ := sub_assign (balance_ w) a |>.
Definition credit_if (inverse : bool) (a : Amount) : WalletData -> WalletData := if negb inverse then credit a else debit a.
Definition debit_if (inverse : bool) (a : Amount) : WalletData -> WalletData := if negb inverse then debit a else credit a.

Definition kUntrustedMarker : Z := 255.
Definition getRealTrustedNum (realTrusted : list Z) : Z :=
  Z.of_nat (length (filter (fun m => m <> kUntrustedMarker) realTrusted)).

(** *** [canceledSmarts_], a [std::map] found by the equivalence of [operator<] *)

Definition equivalent (a b : Address) : bool := negb (Address.op_lt a b) && negb (Address.op_lt b a).

Fixpoint canceled_find (a : Address) (m : list (Address * list TransactionID)) : option (list TransactionID) :=
  match m with
  | [] => None
  | (k, l) :: m => if equivalent k a then Some l else canceled_find a m
  end.
Fixpoint canceled_set (a : Address) (l : list TransactionID) (m : list (Address * list TransactionID))
  : list (Address * list TransactionID) :=
  match m with
  | [] => [(a, l)]
  | (k, l') :: m => if equivalent k a then (k, l) :: m else (k, l') :: canceled_set a l m
  end.
Fixpoint canceled_erase (a : Address) (m : list (Address * list TransactionID)) : list (Address * list TransactionID) :=
  match m with
  | [] => []
  | (k, l) :: m => if equivalent k a then m else (k, l) :: canceled_erase a m
  end.

(** [std::list::remove], the erasure of the first equal one, [std::find] *)
Definition remove_id (tid : TransactionID) (l : list TransactionID) : list TransactionID :=
  List.filter (fun i => negb (TxId.op_eq i tid)) l.
Fixpoint erase_id (tid : TransactionID) (l : list TransactionID) : list TransactionID :=
  match l with
  | [] => []
  | i :: l => if TxId.op_eq i tid then l else i :: erase_id tid l
  end.
Definition has_id (tid : TransactionID) (l : list TransactionID) : bool := existsb (fun i => TxId.op_eq i tid) l.

(** [isCanceledSmart] *)
Definition isCanceledSmart (contract_addr : Address) (tid : TransactionID) (c : Cache) : bool :=
  match canceled_find contract_addr (canceledSmarts_ c) with
  | None => false
  | Some l => has_id tid l
  end.

(** The list up to its first transaction that is not after [tid]. *)
Fixpoint erase_from (tid : TransactionID) (l : list TransactionID) : list TransactionID :=
  match l with
  | [] => []
  | i :: l =>
      if (pool_seq_ i <=? pool_seq_ tid) || ((pool_seq_ i =? pool_seq_ tid) && (index_ i <=? index_ tid))
      then [] else i :: erase_from tid l
  end.

(** [checkCanceledSmart] *)
Definition checkCanceledSmart (contract_addr : Address) (tid : TransactionID) (inverse : bool) (c : Cache) : Cache :=
  if inverse then
    c <| canceledSmarts_ :=
      match canceled_find contract_addr (canceledSmarts_ c) with
      | None => canceled_set contract_addr [tid] (canceledSmarts_ c)
      | Some l => canceled_set contract_addr (tid :: l) (canceledSmarts_ c)
      end |>
  else
    match canceled_find contract_addr (canceledSmarts_ c) with
    | None => c
    | Some l =>
        c <| canceledSmarts_ :=
          match erase_from tid l with
          | [] => canceled_erase contract_addr (canceledSmarts_ c)
          | l' => canceled_set contract_addr l' (canceledSmarts_ c)
          end |>
    end.

(** [std::atoll]: the digits after the blanks and a sign; beyond the range of
    [long long] the value is not specified (here: the bound). *)
Definition atoll (s : bytes) : Z :=
  let s1 := skip_spaces s in
  let '(neg, s2) := match s1 with 45 :: s' => (true, s') | 43 :: s' => (false, s') | _ => (false, s1) end in
  let v := fst (read_digits 0 s2) in
  Z.max (- 2 ^ 63) (Z.min (2 ^ 63 - 1) (if neg : bool then - v else v)).

(** [Pool::get_time] *)
Definition get_time (p : Pool.priv) : Z := u64 (atoll (value_string (Pool.user_field 0 p))).

Section cache.
Context {D : Type} `{!MultiIndex D} (ids : WalletsIds D).
(** [blockchain.loadBlock] *)
Context (loadBlock : Z -> Pool.priv).

(** [toPublicKey] *)
Definition toPublicKey (addr : Address) : bytes :=
  if Address.is_public_key addr then Address.public_key addr
  else match findaddr (Address.wallet_id addr) ids with
       | Some res => Address.public_key res
       | None => Address.public_key addr
       end.

Definition touch_addr (a : Address) : (WalletData -> WalletData) -> Cache -> Cache := touch (toPublicKey a).

(** [rollbackExceededTimeoutContract] *)
Definition rollbackExceededTimeoutContract (transaction : Transaction) (execFee : Amount) (inverse : bool) (c : Cache)
  : M Cache :=
  let source := source_ transaction in
  do! max_fee := fee_amount (max_fee_ transaction) in
  do! counted_fee := fee_amount (counted_fee_ transaction) in
  let c := touch_addr source (credit_if inverse (amount_ transaction)) c in
  let c := touch_addr source (credit_if inverse max_fee) c in
  let c := touch_addr source (debit_if inverse counted_fee) c in
  if is_executable transaction then
    match canceled_find (target_ transaction) (canceledSmarts_ c), inverse with
    | None, false => ret (c <| canceledSmarts_ := canceled_set (target_ transaction) [id_ transaction] (canceledSmarts_ c) |>)
    | None, true => None
    | Some l, false =>
        ret (c <| canceledSmarts_ := canceled_set (target_ transaction) (id_ transaction :: l) (canceledSmarts_ c) |>)
    | Some l, true =>
        ret (c <| canceledSmarts_ :=
               match remove_id (id_ transaction) l with
               | [] => canceled_erase (target_ transaction) (canceledSmarts_ c)
               | l' => canceled_set (target_ transaction) l' (canceledSmarts_ c)
               end |>)
    end
  else
    if has_id (id_ transaction) (smartPayableTransactions_ c) && negb inverse then
      ret (touch_addr source (debit execFee)
             (c <| smartPayableTransactions_ := erase_id (id_ transaction) (smartPayableTransactions_ c) |>))
    else if inverse then
      ret (touch_addr source (credit execFee)
             (c <| smartPayableTransactions_ := smartPayableTransactions_ c ++ [id_ transaction] |>))
    else ret c.

(** [checkSmartWaitingForMoney] *)
Definition checkSmartWaitingForMoney (initTransaction newStateTransaction : Transaction) (inverse : bool) (c : Cache)
  : M Cache :=
  let new_fee := value_amount (Tx.user_field new_state_Fee newStateTransaction) in
  if negb (is_state_updated newStateTransaction) then
    let fld := Tx.user_field new_state_Fee newStateTransaction in
    rollbackExceededTimeoutContract initTransaction (if uf_is_valid fld then value_amount fld else of_int 0) inverse c
  else
    let source := source_ initTransaction in
    let waiting := has_id (id_ initTransaction) (smartPayableTransactions_ c) in
    if negb waiting && inverse then
      do! counted_fee := fee_amount (counted_fee_ initTransaction) in
      do! max_fee := fee_amount (max_fee_ initTransaction) in
      do! new_counted_fee := fee_amount (counted_fee_ newStateTransaction) in
      let c := c <| smartPayableTransactions_ := smartPayableTransactions_ c ++ [id_ initTransaction] |> in
      let c := touch_addr source (credit new_fee) c in
      let c := touch_addr source (credit counted_fee) c in
      let c := touch_addr source (debit max_fee) c in
      let c := touch_addr source (credit new_counted_fee) c in
      ret (touch_addr (target_ initTransaction) (debit (amount_ initTransaction)) c)
    else if waiting && negb inverse then
      do! counted_fee := fee_amount (counted_fee_ initTransaction) in
      do! max_fee := fee_amount (max_fee_ initTransaction) in
      do! new_counted_fee := fee_amount (counted_fee_ newStateTransaction) in
      let c := c <| smartPayableTransactions_ := erase_id (id_ initTransaction) (smartPayableTransactions_ c) |> in
      let c := touch_addr source (debit new_fee) c in
      let c := touch_addr source (debit counted_fee) c in
      let c := touch_addr source (credit max_fee) c in
      let c := touch_addr source (debit new_counted_fee) c in
      ret (touch_addr (target_ initTransaction) (credit (amount_ initTransaction)) c)
    else ret c.

(** The transaction that a new state answers, as [loadTrxForSource] looks it up;
    when it finds none it keeps a default one (which is valid). *)
Definition load_init (tr : Transaction) : M Transaction :=
  let fld := Tx.user_field new_state_RefStart tr in
  if uf_is_valid fld then
    do! ref := lift (Ref.from_user_field fld) in
    let pool := loadBlock (sequence ref) in
    if Pool.is_valid_ pool && (transaction ref <? Pool.transactionsCount_ pool)
    then index (Pool.transactions_ pool) (Z.to_nat (transaction ref))
    else ret Tx.default
  else ret Tx.default.

(** The new state [tr] of the transaction [init], at the wallet that started it. *)
Definition load_new_state (tr init : Transaction) (key : bytes) (inverse : bool) (c : Cache) : M Cache :=
  do! start_max_fee := fee_amount (max_fee_ init) in
  do! start_counted_fee := fee_amount (counted_fee_ init) in
  let c := if isCanceledSmart (target_ init) (id_ init) c then
             let c := touch key (debit_if inverse (amount_ init)) c in
             let c := touch key (debit_if inverse start_max_fee) c in
             touch key (credit_if inverse start_counted_fee) c
           else c in
  let c := checkCanceledSmart (target_ init) (id_ init) inverse c in
  if is_executable init then
    do! counted_fee := fee_amount (counted_fee_ tr) in
    let c := touch key (credit_if inverse start_max_fee) c in
    let c := touch key (debit_if inverse start_counted_fee) c in
    let c := touch key (debit_if inverse counted_fee) c in
    ret (touch key (debit_if inverse (value_amount (Tx.user_field new_state_Fee tr))) c)
  else checkSmartWaitingForMoney init tr inverse c.

(** The counters and the tail of the source of a transaction. *)
Definition count_source (tr : Transaction) (inverse : bool) (w : WalletData) : WalletData :=
  if negb inverse
  then w <| transNum_ := u64 (transNum_ w + 1) |> <| trxTail_ := TransactionsTail.push (innerID_ tr) (trxTail_ w) |>
         <| lastTransaction_ := id_ tr |>
  else w <| transNum_ := u64 (transNum_ w - 1) |>.

(** [loadTrxForSource]; the counted fee that it returns is read again by the caller. *)
Definition loadTrxForSource (tr : Transaction) (inverse : bool) (c : Cache) : M Cache :=
  let smartIniter := is_new_state tr in
  do! initTransaction := (if smartIniter then load_init tr else ret Tx.default) in
  let wallAddress := if smartIniter then source_ initTransaction else source_ tr in
  let key := toPublicKey wallAddress in
  let c := touch key (fun w => w) c in
  do! c :=
    (if is_executable tr then
       do! max_fee := fee_amount (max_fee_ tr) in ret (touch key (debit_if inverse max_fee) c)
     else if is_new_state tr then
       do! c := (if negb (Tx.is_valid initTransaction) then ret c
                 else load_new_state tr initTransaction key inverse c) in
       ret (touch_addr (source_ tr) (count_source tr inverse) c)
     else
       do! counted_fee := fee_amount (counted_fee_ tr) in ret (touch key (debit_if inverse counted_fee) c)) in
  if negb smartIniter
  then ret (touch key (count_source tr inverse) (touch key (debit_if inverse (amount_ tr)) c))
  else ret c.

(** [loadTrxForTarget] *)
Definition loadTrxForTarget (tr : Transaction) (inverse : bool) (c : Cache) : Cache :=
  let c := touch_addr (target_ tr) (fun w =>
    if negb inverse then credit (amount_ tr) w <| lastTransaction_ := id_ tr |> else debit (amount_ tr) w) c in
  if negb (Address.op_eq (source_ tr) (target_ tr))
  then touch_addr (target_ tr) (fun w => w <| transNum_ := u64 (if negb inverse then transNum_ w + 1 else transNum_ w - 1) |>) c
  else c.

(** [load] *)
Definition load (tr : Transaction) (inverse : bool) (c : Cache) : M Cache :=
  loadTrxForSource tr inverse (loadTrxForTarget tr inverse c).

(** The loop of [fundConfidantsWalletsWithFee] and of [fundConfidantsWalletsWithExecFee]:
    the confidants that the mask trusts get equal parts, the last one the rest. *)
Fixpoint fund_loop (confidants : list bytes) (realTrusted : list Z) (total fee payed : Amount) (realTrustedNumber num : Z)
  (inverse : bool) (c : Cache) : Cache :=
  match confidants, realTrusted with
  | key :: confidants, mark :: realTrusted =>
      if mark =? kUntrustedMarker then fund_loop confidants realTrusted total fee payed realTrustedNumber num inverse c
      else
        let c := touch key (credit_if inverse fee) c in
        let payed := add_assign payed fee in
        let num := num + 1 in
        let fee := if num =? realTrustedNumber - 1 then op_sub total payed else fee in
        fund_loop confidants realTrusted total fee payed realTrustedNumber num inverse c
  | _, _ => c
  end.

(** The division has returned with the fuel 3: once for the sign of the amount. *)
Definition fund (total : Amount) (confidants : list bytes) (realTrusted : list Z) (inverse : bool) (c : Cache) : M Cache :=
  let realTrustedNumber := getRealTrustedNum realTrusted in
  do! fee := op_div 3 total realTrustedNumber in
  ret (fund_loop confidants realTrusted total fee (of_int 0) realTrustedNumber 0 inverse c).

(** [fundConfidantsWalletsWithFee] *)
Definition fundConfidantsWalletsWithFee (totalFee : Amount) (confidants : list bytes) (realTrusted : list Z) (inverse : bool)
  (c : Cache) : M Cache :=
  match confidants with [] => ret c | _ => fund totalFee confidants realTrusted inverse c end.

(** [fundConfidantsWalletsWithExecFee] *)
Definition fundConfidantsWalletsWithExecFee (tr : Transaction) (inverse : bool) (c : Cache) : M Cache :=
  if negb (is_new_state tr) then ret c
  else
    do! smartRef := lift (Ref.from_user_field (Tx.user_field new_state_RefStart tr)) in
    if negb (Ref.is_valid smartRef) then ret c
    else
      let pool := loadBlock (sequence smartRef) in
      if negb (Pool.is_valid_ pool) then ret c
      else fund (value_amount (Tx.user_field new_state_Fee tr)) (Pool.confidants_ pool)
             (Utils.bitsToMask (Pool.numberTrusted_ pool) (Pool.realTrusted_ pool)) inverse c.

(** One turn of the loop of [loadNextBlock], with the total of the counted fees. *)
Definition load_transaction (inverse : bool) (tr : Transaction) (st : Amount * Cache) : M (Amount * Cache) :=
  do! c := load tr inverse st.2 in
  do! counted_fee := fee_amount (counted_fee_ tr) in
  do! c := (if is_new_state tr then fundConfidantsWalletsWithExecFee tr inverse c else ret c) in
  ret (add_assign st.1 counted_fee, c).

(** [loadNextBlock]: the pool with the times of its transactions set, and the cache. *)
Definition loadNextBlock (pool : Pool.priv) (confidants : list bytes) (inverse : bool) (c : Cache) : M (Pool.priv * Cache) :=
  let pool := pool <| Pool.transactions_ := map (Tx.set_time (get_time pool)) (Pool.transactions_ pool) |> in
  do! (total, c) := mfold (load_transaction inverse) (Pool.transactions_ pool) (of_int 0, c) in
  do! c := (if op_gt total (of_int 0)
            then fundConfidantsWalletsWithFee total confidants
                   (Utils.bitsToMask (Pool.numberTrusted_ pool) (Pool.realTrusted_ pool)) inverse c
            else ret c) in
  ret (pool, c).

(** [invokeReplenishPayableContract] *)
Definition invokeReplenishPayableContract (tr : Transaction) (inverse : bool) (c : Cache) : M Cache :=
  let c := touch_addr (target_ tr) (debit_if inverse (amount_ tr)) c in
  let c := c <| smartPayableTransactions_ :=
             if negb inverse then smartPayableTransactions_ c ++ [id_ tr]
             else remove_id (id_ tr) (smartPayableTransactions_ c) |> in
  if negb (is_executable tr) then
    do! counted_fee := fee_amount (counted_fee_ tr) in
    do! max_fee := fee_amount (max_fee_ tr) in
    ret (touch_addr (source_ tr) (debit_if inverse max_fee) (touch_addr (source_ tr) (credit_if inverse counted_fee) c))
  else ret c.

(** [smartSourceTransactionReleased] *)
Definition smartSourceTransactionReleased (smartSourceTrx initTrx : Transaction) (inverse : bool) (c : Cache) : M Cache :=
  do! countedFee := fee_amount (counted_fee_ smartSourceTrx) in
  ret (touch_addr (source_ initTrx) (debit_if inverse countedFee)
         (touch_addr (source_ smartSourceTrx) (credit_if inverse countedFee) c)).

(** [updateLastTransactions]: of the known wallets only *)
Fixpoint updateLastTransactions (updates : list (bytes * TransactionID)) (c : Cache) : Cache :=
  match updates with
  | [] => c
  | u :: updates =>
      updateLastTransactions updates
        (match findWallet u.1 c with
         | Some w => c <| wallets_ := <[u.1 := w <| lastTransaction_ := u.2 |>]> (wallets_ c) |>
         | None => c
         end)
  end.
End cache.

(** ** Balances *)

(** The balance of a wallet (zero when there is none), and the sum of all balances. *)
Definition bal (k : bytes) (c : Cache) : Z := value (balance_ (getWalletData k c)).
Definition total (c : Cache) : Z := map_fold (fun _ w acc => value (balance_ w) + acc) 0 (wallets_ c).

(** The members of every wallet are in the range of their types, the fractions proper. *)
Definition good (w : WalletData) : Prop := normal (balance_ w) /\ in_u 64 (transNum_ w).
Definition ok (c : Cache) : Prop := map_Forall (fun _ w => good w) (wallets_ c).

Lemma ok_get k c : ok c -> good (getWalletData k c).
Proof.
  intros Hc. unfold getWalletData. destruct (wallets_ c !! k) as [w|] eqn:E; [by apply (Hc k)|]. by vm_compute.
Qed.

Lemma total_insert k w c :
  total (c <| wallets_ := <[k := w]> (wallets_ c) |>) = total c - bal k c + value (balance_ w).
Proof.
  unfold total, bal, getWalletData. cbn [upd wallets_]. set (m := wallets_ c).
  assert (forall w (m' : gmap bytes WalletData), m' !! k = None ->
    map_fold (fun _ w acc => value (balance_ w) + acc) 0 (<[k := w]> m')
    = value (balance_ w) + map_fold (fun _ w acc => value (balance_ w) + acc) 0 m') as Hi
    by (intros ? m' Hm; apply (map_fold_insert_L (fun _ w acc => value (balance_ w) + acc)); [intros; lia|done]).
  rewrite <- insert_delete_eq, Hi by apply lookup_delete_eq. destruct (m !! k) as [w0|] eqn:E; cbn [default from_option Datatypes.id].
  - pose proof (Hi w0 (delete k m) (lookup_delete_eq _ _)) as E0. rewrite insert_delete_id in E0 by done. rewrite E0. ring.
  - rewrite delete_id by done. change (value (balance_ new_wallet)) with 0. ring.
Qed.

Lemma get_touch k k' f c : getWalletData k (touch k' f c) = if decide (k = k') then f (getWalletData k' c) else getWalletData k c.
Proof.
  unfold getWalletData at 1, touch. cbn [upd wallets_]. destruct (decide (k = k')) as [->|Hne].
  - by rewrite lookup_insert_eq.
  - by rewrite lookup_insert_ne.
Qed.

(** From [c] to [c']: the balances change by [d], their sum by [t] and the numbers
    of transactions by [n], which wrap around in 64 bits. *)
Definition num (k : bytes) (c : Cache) : Z := transNum_ (getWalletData k c).
Record moved (d : bytes -> Z) (t : Z) (n : bytes -> Z) (c c' : Cache) : Prop := {
  moved_ok : ok c';
  moved_bal k : bal k c' ≡ₐ bal k c + d k;
  moved_total : total c' ≡ₐ total c + t;
  moved_num k : exists j, num k c' = num k c + n k + j * 2 ^ 64
}.

(** [f] adds [x] to the balance and [m] to the number of transactions. *)
Definition shifts (x m : Z) (f : WalletData -> WalletData) : Prop :=
  forall w, good w ->
    good (f w) /\ value (balance_ (f w)) ≡ₐ value (balance_ w) + x /\
    exists j, transNum_ (f w) = transNum_ w + m + j * 2 ^ 64.

Definition at_key (k' : bytes) (x : Z) (k : bytes) : Z := if decide (k = k') then x else 0.

Lemma touch_moved k' x m f c : ok c -> shifts x m f -> moved (at_key k' x) x (at_key k' m) c (touch k' f c).
Proof.
  intros Hc Hf. destruct (Hf (getWalletData k' c) (ok_get k' c Hc)) as (Hn & Hv & j & Hj). split.
  - unfold ok, touch. cbn [upd wallets_]. by apply map_Forall_insert_2.
  - intros k. unfold bal, at_key. rewrite get_touch. destruct (decide (k = k')) as [->|Hne]; [exact Hv|].
    rewrite Z.add_0_r. reflexivity.
  - unfold touch. rewrite total_insert, Hv. unfold bal. eqm_ring.
  - intros k. unfold num, at_key. rewrite get_touch. destruct (decide (k = k')) as [->|Hne]; [by exists j|]. exists 0. lia.
Qed.

Lemma moved_refl c : ok c -> moved (fun _ => 0) 0 (fun _ => 0) c c.
Proof. intros Hc. split; [done|intros k|..|intros k; exists 0; lia]; rewrite Z.add_0_r; reflexivity. Qed.

Lemma moved_trans d t n d' t' n' c c' c'' :
  moved d t n c c' -> moved d' t' n' c' c'' -> moved (fun k => d k + d' k) (t + t') (fun k => n k + n' k) c c''.
Proof.
  intros [_ H1 H2 H3] [H4 H5 H6 H7]. split; [done|intros k|..|intros k].
  - rewrite H5, H1. eqm_ring.
  - rewrite H6, H2. eqm_ring.
  - destruct (H3 k) as [j E], (H7 k) as [j' E']. exists (j + j'). lia.
Qed.

Lemma moved_ext d t n d' t' n' c c' :
  moved d t n c c' -> (forall k, d k ≡ₐ d' k) -> t ≡ₐ t' -> (forall k, n k = n' k) -> moved d' t' n' c c'.
Proof.
  intros [H1 H2 H3 H4] Hd Ht Hn. split; [done|intros k|..|intros k].
  - by rewrite H2, (Hd k).
  - by rewrite H3, Ht.
  - rewrite <- Hn. apply H4.
Qed.

(** The sign of an operation. *)
Definition sg (inverse : bool) : Z := if inverse then -1 else 1.

Lemma credit_shifts inverse a : weak a -> shifts (sg inverse * value a) 0 (credit_if inverse a).
Proof.
  intros Ha w [Hw Hu]. destruct (add_assign_mod _ _ Hw Ha) as [Hn Hv]. destruct (sub_assign_mod _ _ Hw Ha) as [Hn' Hv'].
  unfold credit_if, credit, debit. destruct inverse; cbn [negb sg upd balance_ transNum_];
    (split; [done|split; [|exists 0; lia]]).
  - rewrite Hv'. eqm_ring.
  - rewrite Hv. eqm_ring.
Qed.

Lemma debit_shifts inverse a : weak a -> shifts (- (sg inverse * value a)) 0 (debit_if inverse a).
Proof.
  intros Ha. replace (debit_if inverse a) with (credit_if (negb inverse) a) by by destruct inverse.
  replace (- (sg inverse * value a)) with (sg (negb inverse) * value a) by (destruct inverse; cbn; lia).
  by apply credit_shifts.
Qed.

Lemma count_shifts tr inverse : shifts 0 (sg inverse) (count_source tr inverse).
Proof.
  intros w [Hw Hu]. unfold count_source. destruct inverse; cbn [negb sg upd balance_ transNum_];
    (split; [split; [done|apply uwrap_range; lia]|split; [rewrite Z.add_0_r; reflexivity|]]).
  - destruct (uwrap_split 64 (transNum_ w - 1)) as [j E]. exists j. lia.
  - destruct (uwrap_split 64 (transNum_ w + 1)) as [j E]. exists j. lia.
Qed.

(** A step of [load] in either direction: it returns and moves by [d], [t], [n] or back. *)
Definition reversible (f : bool -> Cache -> M Cache) (d : bytes -> Z) (t : Z) (n : bytes -> Z) : Prop :=
  forall inverse c, ok c -> exists c', f inverse c = ret c' /\
    moved (fun k => sg inverse * d k) (sg inverse * t) (fun k => sg inverse * n k) c c'.

Lemma sg_sign inverse : sg inverse = 1 \/ sg inverse = -1.
Proof. destruct inverse; [by right|by left]. Qed.

Lemma reversible_ext f d t n d' t' n' :
  reversible f d t n -> (forall k, d k ≡ₐ d' k) -> t ≡ₐ t' -> (forall k, n k = n' k) -> reversible f d' t' n'.
Proof.
  intros Hf Hd Ht Hn inverse c Hc. destruct (Hf inverse c Hc) as (c' & E & Hm). exists c'. split; [done|].
  eapply moved_ext; [exact Hm|intros k; cbn beta| |intros k; cbn beta; by rewrite Hn].
  - destruct (sg_sign inverse) as [->| ->]; [rewrite !Z.mul_1_l; apply Hd|]. 
    replace (-1 * d k) with (- d k) by ring. replace (-1 * d' k) with (- d' k) by ring. by rewrite (Hd k).
  - destruct (sg_sign inverse) as [->| ->]; [by rewrite !Z.mul_1_l|].
    replace (-1 * t) with (- t) by ring. replace (-1 * t') with (- t') by ring. by rewrite Ht.
Qed.

Lemma reversible_bind f g d t n d' t' n' :
  reversible f d t n -> reversible g d' t' n' ->
  reversible (fun inverse c => do! c := f inverse c in g inverse c) (fun k => d k + d' k) (t + t') (fun k => n k + n' k).
Proof.
  intros Hf Hg inverse c Hc. destruct (Hf inverse c Hc) as (c1 & E & Hm). destruct (Hg inverse c1 (moved_ok _ _ _ _ _ Hm)) as (c2 & E' & Hm').
  exists c2. split; [by rewrite E|]. eapply moved_ext; [by eapply moved_trans|intros k| |intros k]; cbn beta; try (apply eqm_eq); ring.
Qed.

Lemma reversible_ret : reversible (fun _ c => ret c) (fun _ => 0) 0 (fun _ => 0).
Proof.
  intros inverse c Hc. exists c. split; [done|]. eapply moved_ext; [by apply moved_refl|intros k| |intros k]; cbn beta;
    try (apply eqm_eq); lia.
Qed.

Lemma reversible_touch k' x m (f : bool -> WalletData -> WalletData) :
  (forall inverse, shifts (sg inverse * x) (sg inverse * m) (f inverse)) ->
  reversible (fun inverse c => ret (touch k' (f inverse) c)) (at_key k' x) x (at_key k' m).
Proof.
  intros Hf inverse c Hc. exists (touch k' (f inverse) c). split; [done|].
  eapply moved_ext; [by apply touch_moved, Hf|intros k| |intros k]; cbn beta; unfold at_key;
    try (apply eqm_eq); try destruct (decide _); lia.
Qed.

Lemma reversible_eq f g d t n : (forall inverse c, f inverse c = g inverse c) -> reversible f d t n -> reversible g d t n.
Proof. intros E Hf inverse c Hc. rewrite <- E. by apply Hf. Qed.

Lemma reversible_credit k a : weak a -> reversible (fun inverse c => ret (touch k (credit_if inverse a) c)) (at_key k (value a)) (value a) (fun _ => 0).
Proof.
  intros Ha. eapply reversible_ext; [apply (reversible_touch k (value a) 0 (fun inverse => credit_if inverse a))|..].
  - intros inverse. rewrite Z.mul_0_r. by apply credit_shifts.
  - reflexivity.
  - reflexivity.
  - intros k0. unfold at_key. by destruct (decide _).
Qed.

Lemma reversible_debit k a : weak a -> reversible (fun inverse c => ret (touch k (debit_if inverse a) c)) (at_key k (- value a)) (- value a) (fun _ => 0).
Proof.
  intros Ha. eapply reversible_ext; [apply (reversible_touch k (- value a) 0 (fun inverse => debit_if inverse a))|..].
  - intros inverse. rewrite Z.mul_0_r, Z.mul_opp_r. by apply debit_shifts.
  - reflexivity.
  - reflexivity.
  - intros k0. unfold at_key. by destruct (decide _).
Qed.

(** *** Transfers *)

(** A transaction that is neither a deployment or call of a contract nor a new state,
    with the fee that its commission denotes. *)
Record plain (tr : Transaction) (fee : Amount) : Prop := {
  plain_executable : is_executable tr = false;
  plain_state : is_new_state tr = false;
  plain_amount : normal (amount_ tr);
  plain_fee : fee_amount (counted_fee_ tr) = ret fee;
  plain_fee_normal : normal fee
}.

Lemma plain_set_time tr fee ts : plain tr fee -> plain (Tx.set_time ts tr) fee.
Proof. intros [H1 H2 H3 H4 H5]. by split. Qed.

Section transfers.
Context {D : Type} `{!MultiIndex D} (ids : WalletsIds D) (loadBlock : Z -> Pool.priv).

(** What a transfer adds to the balance and to the counter of a wallet. *)
Definition transfer (tr : Transaction) (fee : Amount) (k : bytes) : Z :=
  at_key (toPublicKey ids (target_ tr)) (value (amount_ tr)) k
  - at_key (toPublicKey ids (source_ tr)) (value (amount_ tr) + value fee) k.
Definition transfer_num (tr : Transaction) (k : bytes) : Z :=
  (if Address.op_eq (source_ tr) (target_ tr) then 0 else at_key (toPublicKey ids (target_ tr)) 1 k)
  + at_key (toPublicKey ids (source_ tr)) 1 k.

Lemma target_reversible tr :
  normal (amount_ tr) ->
  reversible (fun inverse c => ret (loadTrxForTarget ids tr inverse c))
    (at_key (toPublicKey ids (target_ tr)) (value (amount_ tr))) (value (amount_ tr))
    (fun k => if Address.op_eq (source_ tr) (target_ tr) then 0 else at_key (toPublicKey ids (target_ tr)) 1 k).
Proof.
  intros Ha%normal_weak. unfold loadTrxForTarget, touch_addr. set (kt := toPublicKey ids (target_ tr)).
  set (f := fun inverse w => if negb inverse then credit (amount_ tr) w <| lastTransaction_ := id_ tr |> else debit (amount_ tr) w).
  assert (reversible (fun inverse c => ret (touch kt (f inverse) c)) (at_key kt (value (amount_ tr))) (value (amount_ tr)) (at_key kt 0)) as Hf.
  { apply reversible_touch. intros inverse w Hw. pose proof (credit_shifts inverse _ Ha w Hw) as H.
    rewrite Z.mul_0_r. by destruct inverse. }
  destruct (Address.op_eq _ _); cbn [negb].
  - eapply reversible_ext; [exact Hf|reflexivity|reflexivity|intros k; unfold at_key; by destruct (decide _)].
  - set (g := fun (inverse : bool) w => w <| transNum_ := u64 (if negb inverse then transNum_ w + 1 else transNum_ w - 1) |>).
    assert (reversible (fun inverse c => ret (touch kt (g inverse) c)) (at_key kt 0) 0 (at_key kt 1)) as Hg.
    { apply reversible_touch. intros inverse w Hw. rewrite Z.mul_0_r, Z.mul_1_r.
      pose proof (count_shifts tr inverse w Hw) as H. by destruct inverse. }
    eapply reversible_ext; [eapply reversible_eq; [|eapply reversible_bind; [exact Hf|exact Hg]]|..]; [done|intros k| |intros k];
      cbn beta; try apply eqm_eq; unfold at_key; try destruct (decide _); lia.
Qed.

Lemma load_plain tr fee :
  plain tr fee -> reversible (load ids loadBlock tr) (transfer tr fee) (- value fee) (transfer_num tr).
Proof.
  intros [H1 H2 H3 H4 H5]. unfold load, loadTrxForSource. set (ks := toPublicKey ids (source_ tr)).
  pose proof (target_reversible tr H3) as Rt.
  assert (reversible (fun _ c => ret (touch ks (fun w => w) c)) (at_key ks 0) 0 (at_key ks 0)) as R0.
  { apply reversible_touch. intros inverse w Hw. rewrite Z.mul_0_r, Z.add_0_r. split; [done|]. split; [reflexivity|exists 0; lia]. }
  assert (reversible (fun inverse c => ret (touch ks (count_source tr inverse) c)) (at_key ks 0) 0 (at_key ks 1)) as Rc.
  { apply reversible_touch. intros inverse. rewrite Z.mul_0_r, Z.mul_1_r. apply count_shifts. }
  pose proof (reversible_debit ks fee (normal_weak _ H5)) as Rf.
  pose proof (reversible_debit ks (amount_ tr) (normal_weak _ H3)) as Ra.
  eapply reversible_ext; [eapply reversible_eq;
    [|exact (reversible_bind _ _ _ _ _ _ _ _ Rt (reversible_bind _ _ _ _ _ _ _ _ R0
        (reversible_bind _ _ _ _ _ _ _ _ Rf (reversible_bind _ _ _ _ _ _ _ _ Ra Rc))))]|..].
  - intros inverse c. cbn [mthen ret]. rewrite H1, H2, H4. done.
  - intros k. cbn beta. apply eqm_eq. unfold transfer, at_key. fold ks. repeat destruct (decide _); lia.
  - apply eqm_eq. lia.
  - intros k. cbn beta. unfold transfer_num, at_key. fold ks. destruct (Address.op_eq _ _); repeat destruct (decide _); lia.
Qed.
End transfers.

(** *** The confidants' share *)

(** The confidants that the mask trusts. *)
Fixpoint trusted_keys (confidants : list bytes) (mask : list Z) : list bytes :=
  match confidants, mask with
  | key :: confidants, mark :: mask =>
      if mark =? kUntrustedMarker then trusted_keys confidants mask else key :: trusted_keys confidants mask
  | _, _ => []
  end.

(** What a wallet gets of [T]: each of the keys [fee], the last one the rest. *)
Fixpoint paid (keys : list bytes) (fee T : Z) (k : bytes) : Z :=
  match keys with
  | [] => 0
  | [key] => at_key key T k
  | key :: keys => at_key key fee k + paid keys fee (T - fee) k
  end.

Lemma trusted_length confidants mask :
  (length mask <= length confidants)%nat -> Z.of_nat (length (trusted_keys confidants mask)) = getRealTrustedNum mask.
Proof.
  unfold getRealTrustedNum. revert mask. induction confidants as [|key confidants IH]; intros [|mark mask] Hl; cbn [length trusted_keys] in *;
    [done|lia|done|].
  rewrite filter_cons. destruct (Z.eqb_spec mark kUntrustedMarker) as [->|Hm].
  - rewrite decide_False by naive_solver. apply IH. lia.
  - rewrite decide_True by done. cbn [length]. specialize (IH mask ltac:(lia)). lia.
Qed.

Lemma at_key_eqm key x y k : x ≡ₐ y -> at_key key x k ≡ₐ at_key key y k.
Proof. intros H. unfold at_key. by destruct (decide _). Qed.

Lemma paid_eqm keys fee T fee' T' k :
  ((1 < length keys)%nat -> fee = fee') -> T ≡ₐ T' -> paid keys fee T k ≡ₐ paid keys fee' T' k.
Proof.
  revert T T'. induction keys as [|key [|key' keys] IH]; intros T T' Hf HT; [reflexivity|by apply at_key_eqm|].
  rewrite (Hf ltac:(cbn; lia)). change (at_key key fee' k + paid (key' :: keys) fee' (T - fee') k
    ≡ₐ at_key key fee' k + paid (key' :: keys) fee' (T' - fee') k).
  rewrite (Hf ltac:(cbn; lia)) in IH. rewrite (IH (T - fee') (T' - fee')); [reflexivity|done|by rewrite HT].
Qed.

Definition paid_total (keys : list bytes) (T : Z) : Z := match keys with [] => 0 | _ => T end.

Lemma paid_cons key keys fee T k :
  (keys = [] -> fee ≡ₐ T) -> at_key key fee k + paid keys fee (T - fee) k ≡ₐ paid (key :: keys) fee T k.
Proof.
  intros HT. destruct keys as [|key' keys]; [|reflexivity]. cbn [paid]. rewrite Z.add_0_r. by apply at_key_eqm, HT.
Qed.

(** What is left is at every turn the total without what was payed; the fee of the last is all of it. *)
Lemma fund_loop_reversible confidants mask total n : forall fee payed num,
  normal total -> normal payed -> weak fee ->
  n - num = Z.of_nat (length (trusted_keys confidants mask)) ->
  (n - num = 1 -> value fee ≡ₐ value total - value payed) ->
  reversible (fun inverse c => ret (fund_loop confidants mask total fee payed n num inverse c))
    (paid (trusted_keys confidants mask) (value fee) (value total - value payed))
    (paid_total (trusted_keys confidants mask) (value total - value payed)) (fun _ => 0).
Proof.
  revert mask. induction confidants as [|key confidants IH]; intros mask fee payed num Ht Hp Hf Hn H1.
  { apply reversible_ret. }
  destruct mask as [|mark mask]; [apply reversible_ret|]. cbn [fund_loop trusted_keys] in *.
  destruct (mark =? kUntrustedMarker); [by apply IH|]. cbn [length] in Hn.
  set (keys := trusted_keys confidants mask) in *. set (payed' := add_assign payed fee).
  set (fee' := if num + 1 =? n - 1 then op_sub total payed' else fee).
  destruct (add_assign_mod _ _ Hp Hf) as [Hp' Ep]. destruct (op_sub_mod total payed' Ht (normal_weak _ Hp')) as [Hs Es].
  assert (n - (num + 1) = 1 /\ value fee' ≡ₐ value total - value payed' /\ weak fee' \/ n - (num + 1) <> 1 /\ fee' = fee) as Hfee'.
  { subst fee'. destruct (Z.eqb_spec (num + 1) (n - 1)); [left; split; [lia|]|right; split; [lia|done]]. split; [done|by apply normal_weak]. }
  assert (reversible (fun inverse c => ret (fund_loop confidants mask total fee' payed' n (num + 1) inverse c))
    (paid keys (value fee') (value total - value payed')) (paid_total keys (value total - value payed')) (fun _ => 0)) as R.
  { apply IH; [done|done| |fold keys; lia|]; destruct Hfee' as [(? & ? & ?)|[? ->]]; try done; intros; lia. }
  assert (keys = [] -> value fee ≡ₐ value total - value payed) as H1' by (intros E; apply H1; rewrite E in Hn; cbn in Hn; lia).
  eapply reversible_ext; [eapply reversible_eq;
    [|exact (reversible_bind _ _ _ _ _ _ _ _ (reversible_credit key fee Hf) R)]|..]; [done|intros k| |done]; cbn beta.
  - rewrite <- paid_cons by exact H1'.
    rewrite (paid_eqm keys (value fee') (value total - value payed') (value fee) (value total - value payed - value fee)); [reflexivity|..].
    + intros Hk. destruct Hfee' as [(? & _)|[_ ->]]; [lia|done].
    + subst payed'. rewrite Ep. eqm_ring.
  - destruct keys as [|key' keys']; cbn [paid_total].
    + rewrite Z.add_0_r. by apply H1'.
    + subst payed'. rewrite Ep. eqm_ring.
Qed.

Lemma fund_reversible total confidants mask :
  normal total -> 0 <= value total -> (length mask <= length confidants)%nat -> 0 < getRealTrustedNum mask < 2 ^ 31 ->
  exists fee, value total / getRealTrustedNum mask - 1 <= fee <= value total / getRealTrustedNum mask /\
    reversible (fund total confidants mask) (paid (trusted_keys confidants mask) fee (value total)) (value total) (fun _ => 0).
Proof.
  intros Ht H0 Hl Hn. set (n := getRealTrustedNum mask) in *.
  assert (exists fee, op_div 3 total n = ret fee /\ weak fee /\ value total / n - 1 <= value fee <= value total / n
    /\ (n = 1 -> value fee = value total)) as (fee & Ed & Hw & Hv & H1).
  { destruct (Z.eq_dec n 1) as [->|Hn1].
    - exists total. split; [done|]. split; [by apply normal_weak|]. rewrite Z.div_1_r. split; [lia|done].
    - destruct (op_div_nonneg 2 total n) as (w & (fee & Ed & Hw & Ev) & Hq & _); [done|done|lia|].
      exists fee. split; [done|]. split; [done|]. rewrite Ev. split; [done|lia]. }
  exists (value fee). split; [done|].
  pose proof (trusted_length confidants mask Hl) as Hk. fold n in Hk.
  pose proof (fund_loop_reversible confidants mask total n fee (of_int 0) 0 Ht) as R.
  eapply reversible_ext; [eapply reversible_eq; [|apply R]|..].
  - intros inverse c. unfold fund. fold n. by rewrite Ed.
  - by vm_compute.
  - done.
  - lia.
  - intros E. rewrite H1 by lia. change (value (of_int 0)) with 0. rewrite Z.sub_0_r. reflexivity.
  - intros k. change (value (of_int 0)) with 0. rewrite Z.sub_0_r. reflexivity.
  - change (value (of_int 0)) with 0. rewrite Z.sub_0_r. destruct (trusted_keys confidants mask); [cbn in Hk; lia|reflexivity].
  - done.
Qed.

(** *** Blocks of transfers *)

Lemma foldr_map {A B C} (f : B -> C -> C) (g : A -> B) b l : foldr f b (map g l) = foldr (fun x => f (g x)) b l.
Proof. induction l as [|x l IH]; cbn; [done|by rewrite IH]. Qed.

(** *** The sum of the balances, exactly *)

(** [d] sums up to [t]: so does every list of distinct keys that holds some keys. *)
Definition sum_over (X : list bytes) (d : bytes -> Z) : Z := foldr (fun k acc => d k + acc) 0 X.
Definition sums_to (d : bytes -> Z) (t : Z) : Prop := exists S, forall X, NoDup X -> S ⊆ X -> sum_over X d = t.

Lemma sum_over_add X d d' : sum_over X (fun k => d k + d' k) = sum_over X d + sum_over X d'.
Proof. unfold sum_over. induction X as [|k X IH]; cbn [foldr]; lia. Qed.

Lemma sum_over_ext X d d' : (forall k, k ∈ X -> d k = d' k) -> sum_over X d = sum_over X d'.
Proof.
  unfold sum_over. induction X as [|k X IH]; intros H; [done|]. cbn [foldr]. rewrite (H k) by set_solver. rewrite IH; [done|]. set_solver.
Qed.

Lemma sum_over_zero X : sum_over X (fun _ => 0) = 0.
Proof. unfold sum_over. induction X as [|k X IH]; [done|]. cbn [foldr]. lia. Qed.

Lemma sum_over_absent X key x : key ∉ X -> sum_over X (at_key key x) = 0.
Proof.
  intros Hk. unfold sum_over, at_key. induction X as [|k X IH]; [done|]. cbn [foldr]. rewrite decide_False by set_solver. rewrite IH; [done|set_solver].
Qed.

Lemma sum_over_key X key x : NoDup X -> key ∈ X -> sum_over X (at_key key x) = x.
Proof.
  induction 1 as [|k X Hk _ IH]; [by intros ?%not_elem_of_nil|]. intros [E|Hin]%elem_of_cons; [subst k|]; unfold sum_over; cbn [foldr]; fold (sum_over X (at_key key x)).
  - unfold at_key at 1. rewrite decide_True, sum_over_absent by done. lia.
  - unfold at_key at 1. rewrite decide_False, IH by (done || set_solver). done.
Qed.

Lemma sums_to_key key x : sums_to (at_key key x) x.
Proof. exists [key]. intros X HX HS. apply sum_over_key; [done|set_solver]. Qed.

Lemma sums_to_add d t d' t' : sums_to d t -> sums_to d' t' -> sums_to (fun k => d k + d' k) (t + t').
Proof.
  intros [S H] [S' H']. exists (S ++ S'). intros X HX HS. rewrite sum_over_add, H, H'; set_solver.
Qed.

Lemma sums_to_ext d t d' t' : sums_to d t -> (forall k, d k = d' k) -> t = t' -> sums_to d' t'.
Proof. intros [S H] Hd <-. exists S. intros X HX HS. rewrite <- (H X HX HS). by apply sum_over_ext. Qed.

Lemma sums_to_zero : sums_to (fun _ => 0) 0.
Proof. exists []. intros X _ _. apply sum_over_zero. Qed.

(** The sum of the balances over any keys that hold all wallets' *)
Lemma total_sum c X : NoDup X -> (forall k, is_Some (wallets_ c !! k) -> k ∈ X) -> total c = sum_over X (fun k => bal k c).
Proof.
  unfold total, bal, getWalletData. generalize (wallets_ c) as m. intros m. revert X. induction m as [|k w m Hk IH] using map_ind; intros X HX Hall.
  - rewrite map_fold_empty. symmetry. rewrite (sum_over_ext X _ (fun _ => 0)) by (intros k _; by rewrite lookup_empty). apply sum_over_zero.
  - rewrite (map_fold_insert_L (fun _ w acc => value (balance_ w) + acc)) by (done || (intros; lia)).
    rewrite (IH X HX) by (intros k' Hk'; apply Hall, lookup_insert_is_Some'; by right).
    rewrite <- (sum_over_key X k (value (balance_ w)) HX) by (apply Hall; rewrite lookup_insert_eq; by eexists).
    rewrite <- sum_over_add. apply sum_over_ext. intros k' _. unfold at_key. destruct (decide (k' = k)) as [->|Hne].
    + rewrite lookup_insert_eq, Hk. change (value (balance_ w) + 0 = value (balance_ w)). lia.
    + by rewrite lookup_insert_ne.
Qed.

(** When every balance moves by exactly its part of a zero sum, the sum stays what it was. *)
Lemma total_exact c c' d : (forall k, bal k c' = bal k c + d k) -> sums_to d 0 -> total c' = total c.
Proof.
  intros Hd [S HS]. set (X := remove_dups (S ++ map fst (map_to_list (wallets_ c)) ++ map fst (map_to_list (wallets_ c')))).
  pose proof (NoDup_remove_dups _ : NoDup X) as HX.
  assert (forall k, k ∈ S \/ is_Some (wallets_ c !! k) \/ is_Some (wallets_ c' !! k) -> k ∈ X) as Hin.
  { intros k Hk. apply elem_of_remove_dups. rewrite !elem_of_app. destruct Hk as [Hk|[[w Hw]|[w Hw]]]; [by left|right; left|right; right];
      apply list_elem_of_fmap; exists (k, w); (split; [done|by apply elem_of_map_to_list]). }
  rewrite (total_sum c' X HX), (total_sum c X HX) by (intros k Hk; apply Hin; tauto).
  rewrite (sum_over_ext X _ (fun k => bal k c + d k)) by (intros k _; apply Hd). rewrite sum_over_add, (HS X HX); [lia|]. intros k Hk. apply Hin. by left.
Qed.

Section blocks.
Context {D : Type} `{!MultiIndex D} (ids : WalletsIds D) (loadBlock : Z -> Pool.priv).

(** What the transfers add to a balance and to a counter, and the total of their fees. *)
Definition transfers (l : list (Transaction * Amount)) (k : bytes) : Z :=
  foldr (fun p acc => transfer ids p.1 p.2 k + acc) 0 l.
Definition transfers_num (l : list (Transaction * Amount)) (k : bytes) : Z :=
  foldr (fun p acc => transfer_num ids p.1 k + acc) 0 l.
Definition fees_from (acc : Amount) (l : list (Transaction * Amount)) : Amount := foldl add_assign acc (map snd l).

Lemma fees_from_mod l acc :
  normal acc -> Forall (fun p => plain p.1 p.2) l ->
  normal (fees_from acc l) /\ value (fees_from acc l) ≡ₐ value acc + foldr (fun p s => value p.2 + s) 0 l.
Proof.
  unfold fees_from. revert acc. induction l as [|p l IH]; intros acc Ha Hl; cbn [map foldl foldr].
  - split; [done|]. rewrite Z.add_0_r. reflexivity.
  - apply Forall_cons in Hl as [Hp Hl]. destruct (add_assign_mod acc p.2 Ha) as [Hn Hv].
    { apply normal_weak, Hp. }
    destruct (IH _ Hn Hl) as [Hn' Hv']. split; [done|]. rewrite Hv', Hv. eqm_ring.
Qed.

Lemma transactions_reversible l acc :
  Forall (fun p => plain p.1 p.2) l ->
  reversible (fun inverse c => do! r := mfold (load_transaction ids loadBlock inverse) (map fst l) (acc, c) in ret r.2)
    (transfers l) (- foldr (fun p s => value p.2 + s) 0 l) (transfers_num l) /\
  forall inverse c r, mfold (load_transaction ids loadBlock inverse) (map fst l) (acc, c) = ret r -> r.1 = fees_from acc l.
Proof.
  unfold fees_from, transfers, transfers_num. revert acc. induction l as [|p l IH]; intros acc Hl.
  { split; [apply reversible_ret|]. by intros inverse c r [= <-]. }
  apply Forall_cons in Hl as [Hp Hl]. destruct (IH (add_assign acc p.2) Hl) as [IH1 IH2].
  assert (forall inverse c, load_transaction ids loadBlock inverse p.1 (acc, c)
    = do! c := load ids loadBlock p.1 inverse c in ret (add_assign acc p.2, c)) as E.
  { intros inverse c. unfold load_transaction. cbn [fst snd]. rewrite (plain_fee _ _ Hp), (plain_state _ _ Hp).
    cbn [mthen ret]. by destruct (load _ _ _ _ _) as [[]|]. }
  split.
  - eapply reversible_ext; [eapply reversible_eq; [|exact (reversible_bind _ _ _ _ _ _ _ _ (load_plain ids loadBlock _ _ Hp) IH1)]|..].
    + intros inverse c. cbn [map mfold]. rewrite E. by destruct (load _ _ _ _ _) as [[]|].
    + intros k. reflexivity.
    + apply eqm_eq. cbn [foldr]. lia.
    + done.
  - intros inverse c r. cbn [map mfold foldl]. rewrite E. destruct (load _ _ _ _ _) as [[c'|]|]; [|done..]. cbn [mthen ret].
    apply IH2.
Qed.

(** The pairs with the times that [loadNextBlock] sets. *)
Definition timed (ts : Z) (l : list (Transaction * Amount)) : list (Transaction * Amount) :=
  map (fun p => (Tx.set_time ts p.1, p.2)) l.

Lemma timed_spec ts l :
  Forall (fun p => plain p.1 p.2) l ->
  Forall (fun p => plain p.1 p.2) (timed ts l) /\ map fst (timed ts l) = map (Tx.set_time ts) (map fst l) /\
  fees_from (of_int 0) (timed ts l) = fees_from (of_int 0) l /\
  (forall k, transfers (timed ts l) k = transfers l k) /\ (forall k, transfers_num (timed ts l) k = transfers_num l k).
Proof.
  intros Hp. unfold timed, fees_from, transfers, transfers_num. rewrite !map_map. split_and!; [|done|done|..].
  - apply Forall_map. eapply Forall_impl; [exact Hp|]. intros p. apply plain_set_time.
  - intros k. by rewrite foldr_map.
  - intros k. by rewrite foldr_map.
Qed.

(** The fee of a share is the quotient or one less. *)
Definition is_share (fee total n : Z) : Prop := total / n - 1 <= fee <= total / n.

Definition mask (pool : Pool.priv) : list Z := Utils.bitsToMask (Pool.numberTrusted_ pool) (Pool.realTrusted_ pool).

(** The conditions under which a block of transfers loads. *)
Record transfer_block (pool : Pool.priv) (l : list (Transaction * Amount)) (confidants : list bytes) : Prop := {
  block_plain : Forall (fun p => plain p.1 p.2) l;
  block_transactions : Pool.transactions_ pool = map fst l;
  block_fees : 0 <= value (fees_from (of_int 0) l);
  block_mask : (length (mask pool) <= length confidants)%nat;
  block_trusted : 0 < getRealTrustedNum (mask pool) < 2 ^ 31
}.

Definition block_delta (pool : Pool.priv) (l : list (Transaction * Amount)) (confidants : list bytes) (fee : Z) (k : bytes) : Z :=
  let total := value (fees_from (of_int 0) l) in
  transfers l k + (if 0 <? total then paid (trusted_keys confidants (mask pool)) fee total k else 0).

Lemma block_reversible pool l confidants :
  transfer_block pool l confidants ->
  exists fee, is_share fee (value (fees_from (of_int 0) l)) (getRealTrustedNum (mask pool)) /\
    reversible (fun inverse c => do! r := loadNextBlock ids loadBlock pool confidants inverse c in ret r.2)
      (block_delta pool l confidants fee) 0 (transfers_num l).
Proof.
  intros [Hp Ht H0 Hm Hn]. destruct (timed_spec (get_time pool) l Hp) as (Hp' & Et & Ef & Etr & Etn).
  rewrite <- Ht in Et. set (l' := timed (get_time pool) l) in *.
  destruct (fees_from_mod l (of_int 0)) as [Nf Vf]; [by vm_compute|done|].
  change (value (of_int 0)) with 0 in Vf. rewrite Z.add_0_l in Vf.
  destruct (transactions_reversible l' (of_int 0) Hp') as [Rt Hacc].
  replace (foldr (fun p s => value p.2 + s) 0 l') with (foldr (fun p s => value p.2 + s) 0 l) in Rt
    by (unfold l', timed; by rewrite foldr_map).
  set (total := fees_from (of_int 0) l) in *.
  destruct (fund_reversible total confidants (mask pool) Nf H0 Hm Hn) as (fee & Hfee & Rf).
  exists fee. split; [exact Hfee|].
  assert (reversible (fun inverse c => if op_gt total (of_int 0) then fundConfidantsWalletsWithFee total confidants (mask pool) inverse c else ret c)
    (fun k => if 0 <? value total then paid (trusted_keys confidants (mask pool)) fee (value total) k else 0) (value total) (fun _ => 0)) as Rp.
  { rewrite op_gt_spec by (done || by vm_compute). change (value (of_int 0)) with 0. destruct (Z.ltb_spec 0 (value total)).
    - eapply reversible_eq; [|exact Rf]. intros inverse c. unfold fundConfidantsWalletsWithFee.
      destruct confidants; [|done]. exfalso. destruct (mask pool); [change (getRealTrustedNum []) with 0 in Hn; lia|cbn in Hm; lia].
    - replace (value total) with 0 by lia. apply reversible_ret. }
  eapply reversible_ext; [eapply reversible_eq; [|exact (reversible_bind _ _ _ _ _ _ _ _ Rt Rp)]|..].
  - intros inverse c. unfold loadNextBlock. cbn [upd Pool.transactions_]. rewrite <- Et.
    destruct (mfold _ _ _) as [[r|e]|] eqn:E; cbn [mthen ret]; [|done..]. pose proof (Hacc _ _ _ E) as Ea. rewrite Ef in Ea.
    destruct r as [total' c']. cbn [fst snd] in *. subst total'.
    unfold mask. by destruct (if op_gt _ _ then _ else _) as [[]|].
  - intros k. cbn beta. unfold block_delta. fold total. rewrite Etr. reflexivity.
  - rewrite <- Vf. eqm_ring.
  - intros k. cbn beta. rewrite Etn. lia.
Qed.


(** Loading a block of plain transfers and then loading it inverted gives every wallet back its
    balance and its number of transactions, whatever wrapped around in between. *)
Theorem rollback_restores pool l confidants c :
  transfer_block pool l confidants -> ok c ->
  exists pool' c' pool'' c'',
    loadNextBlock ids loadBlock pool confidants false c = ret (pool', c') /\
    loadNextBlock ids loadBlock pool confidants true c' = ret (pool'', c'') /\
    forall k, balance_ (getWalletData k c'') = balance_ (getWalletData k c) /\
              transNum_ (getWalletData k c'') = transNum_ (getWalletData k c).
Proof.
  intros Hb Hc. destruct (block_reversible pool l confidants Hb) as (fee & _ & R).
  destruct (R false c Hc) as (c' & E & M1). pose proof (moved_ok _ _ _ _ _ M1) as Hc'.
  destruct (R true c' Hc') as (c'' & E' & M2). pose proof (moved_ok _ _ _ _ _ M2) as Hc''.
  destruct (loadNextBlock ids loadBlock pool confidants false c) as [[[pool' c1]|]|] eqn:E1; [|done..]. injection E as ->.
  destruct (loadNextBlock ids loadBlock pool confidants true c') as [[[pool'' c2]|]|] eqn:E2; [|done..]. injection E' as ->.
  exists pool', c', pool'', c''. split_and!; [done|done|]. intros k.
  destruct (ok_get k c Hc) as [Nb Nu], (ok_get k c'' Hc'') as [Nb' Nu']. split.
  - apply value_inj_mod; [done..|]. change (bal k c'' ≡ₐ bal k c). rewrite (moved_bal _ _ _ _ _ M2), (moved_bal _ _ _ _ _ M1).
    cbn [sg]. eqm_ring.
  - destruct (moved_num _ _ _ _ _ M1 k) as [j1 E3], (moved_num _ _ _ _ _ M2 k) as [j2 E4]. unfold num in *. cbn [sg] in *.
    unfold in_u in *. assert (j1 + j2 = 0) by lia. lia.
Qed.

(** *** What a block moves sums up to zero *)

Lemma sums_to_paid keys fee T : keys <> [] -> sums_to (paid keys fee T) T.
Proof.
  revert T. induction keys as [|key [|key' keys] IH]; intros T Hk; [done|apply sums_to_key|].
  eapply sums_to_ext; [apply sums_to_add; [apply (sums_to_key key fee)|apply (IH (T - fee)); done]|done|lia].
Qed.

Lemma sums_to_transfers l : sums_to (transfers l) (- foldr (fun p s => value p.2 + s) 0 l).
Proof.
  induction l as [|p l IH]; [exact sums_to_zero|]. unfold transfers in *. cbn [foldr].
  eapply sums_to_ext; [apply sums_to_add; [apply sums_to_add; [apply (sums_to_key (toPublicKey ids (target_ p.1)) (value (amount_ p.1)))|
    apply (sums_to_key (toPublicKey ids (source_ p.1)) (- (value (amount_ p.1) + value p.2)))]|exact IH]| |lia].
  intros k. cbn beta. unfold transfer, at_key. destruct (decide _), (decide _); lia.
Qed.

(** ... when its fees, added as amounts, do not wrap around. *)
Lemma sums_to_block pool l confidants fee :
  transfer_block pool l confidants -> value (fees_from (of_int 0) l) = foldr (fun p s => value p.2 + s) 0 l ->
  sums_to (block_delta pool l confidants fee) 0.
Proof.
  intros [_ _ H0 Hm Hn] Ef. unfold block_delta. rewrite Ef in H0 |- *. set (T := foldr _ 0 l) in *. destruct (Z.ltb_spec 0 T).
  - eapply sums_to_ext; [apply sums_to_add; [apply (sums_to_transfers l)|apply (sums_to_paid (trusted_keys confidants (mask pool)) fee T)]|done|fold T; lia].
    intros E. pose proof (trusted_length confidants (mask pool) Hm) as Hl. rewrite E in Hl. cbn in Hl. lia.
  - eapply sums_to_ext; [apply (sums_to_transfers l)|intros k; cbn beta; lia|fold T; lia].
Qed.

(** A block of plain transfers with a positive total of fees whose mask trusts nobody makes
    loadNextBlock throw: the fees are divided by the number of trusted confidants, which is zero. *)
Theorem all_untrusted_throws pool l confidants inverse c :
  Forall (fun p => plain p.1 p.2) l -> Pool.transactions_ pool = map fst l -> ok c ->
  0 < value (fees_from (of_int 0) l) -> confidants <> [] -> getRealTrustedNum (mask pool) = 0 ->
  loadNextBlock ids loadBlock pool confidants inverse c = Some (Throw overflow_error).
Proof.
  intros Hp Ht Hc H0 Hn Hm. destruct (timed_spec (get_time pool) l Hp) as (Hp' & Et & Ef & _).
  rewrite <- Ht in Et. set (l' := timed (get_time pool) l) in *.
  destruct (transactions_reversible l' (of_int 0) Hp') as [Rt Hacc]. destruct (Rt inverse c Hc) as (c' & E & _).
  unfold loadNextBlock. cbn [upd Pool.transactions_]. rewrite <- Et.
  destruct (mfold _ _ _) as [[r|e]|] eqn:Em; [|done..]. pose proof (Hacc _ _ _ Em) as Ea. rewrite Ef in Ea.
  destruct r as [total' c1]. cbn [fst snd mthen] in *. subst total'.
  destruct (fees_from_mod l (of_int 0)) as [Nf _]; [by vm_compute|done|].
  rewrite op_gt_spec by (done || by vm_compute). change (value (of_int 0)) with 0. rewrite (proj2 (Z.ltb_lt _ _) H0).
  unfold fundConfidantsWalletsWithFee. destruct confidants; [done|]. unfold fund.
  change (getRealTrustedNum _) with (getRealTrustedNum (mask pool)). by rewrite Hm.
Qed.

(** *** What a rollback does not undo *)

Definition tail (k : bytes) (c : Cache) : TransactionsTail.t := trxTail_ (getWalletData k c).

Lemma tail_touch k k' f c : (forall w, trxTail_ (f w) = trxTail_ w) -> tail k (touch k' f c) = tail k c.
Proof. intros Hf. unfold tail. rewrite get_touch. destruct (decide (k = k')) as [->|]; [apply Hf|done]. Qed.

Lemma load_tail tr fee inverse c :
  plain tr fee ->
  exists c', load ids loadBlock tr inverse c = ret c' /\
    let k := toPublicKey ids (source_ tr) in
    tail k c' = if inverse then tail k c else TransactionsTail.push (innerID_ tr) (tail k c).
Proof.
  intros [H1 H2 H3 H4 H5]. unfold load, loadTrxForSource. rewrite H1, H2, H4. cbn [mthen ret negb].
  eexists. split; [reflexivity|]. set (ks := toPublicKey ids (source_ tr)).
  assert (forall a w, trxTail_ (debit_if inverse a w) = trxTail_ w) as Hd by (by destruct inverse).
  assert (tail ks (loadTrxForTarget ids tr inverse c) = tail ks c) as Ht.
  { unfold loadTrxForTarget, touch_addr. destruct (negb _); rewrite !tail_touch; try done; by destruct inverse. }
  cbn zeta. unfold tail at 1. rewrite get_touch, decide_True by done. unfold count_source.
  destruct inverse; cbn [negb upd trxTail_]; [|f_equal]; fold (tail ks (touch ks (fun w => w) c));
    match goal with |- trxTail_ (getWalletData ks ?x) = _ => change (tail ks x = tail ks c) end;
    rewrite !tail_touch; done.
Qed.

(** Undoing a transfer does not take its id out of the tail of its source: after load and its
    inverse the tail refuses the transaction, whatever was in it before. *)
Theorem rollback_keeps_tail tr fee pushed c :
  plain tr fee -> Forall BitHeap.small pushed -> BitHeap.small (innerID_ tr) ->
  tail (toPublicKey ids (source_ tr)) c = TransactionsTail.pushed pushed ->
  exists c1 c2, load ids loadBlock tr false c = ret c1 /\ load ids loadBlock tr true c1 = ret c2 /\
    TransactionsTail.isAllowed (tail (toPublicKey ids (source_ tr)) c2) (innerID_ tr) = false.
Proof.
  intros Hp Hs Hi Et. destruct (load_tail tr fee false c Hp) as (c1 & E1 & T1). destruct (load_tail tr fee true c1 Hp) as (c2 & E2 & T2).
  exists c1, c2. split_and!; [done|done|]. rewrite T2, T1, Et.
  assert (TransactionsTail.push (innerID_ tr) (TransactionsTail.pushed pushed) = TransactionsTail.pushed (pushed ++ [innerID_ tr])) as ->
    by (unfold TransactionsTail.pushed; by rewrite foldl_app).
  apply not_true_iff_false. rewrite TransactionsTail.isAllowed_pushed by (try apply Forall_app; auto).
  destruct pushed as [|x pushed]; cbn [app]; intros [Hn _]; apply Hn; [by left|]. right. apply elem_of_app. right. by left.
Qed.

Lemma equivalent_refl a : equivalent a a = true.
Proof.
  unfold equivalent. assert (Address.op_lt a a = false) as ->; [|done]. unfold Address.op_lt.
  destruct (is_wallet_id_ a); cbn [andb negb]; [apply Z.ltb_irrefl|apply Address.lex_lt_irrefl].
Qed.

Lemma canceled_find_set a l m : canceled_find a (canceled_set a l m) = Some l.
Proof.
  induction m as [|[k l'] m IH]; cbn; [by rewrite equivalent_refl|].
  destruct (equivalent k a) eqn:E; cbn; by rewrite E.
Qed.

Lemma canceled_pushed a tid c : isCanceledSmart a tid (checkCanceledSmart a tid true c) = true.
Proof.
  unfold isCanceledSmart, checkCanceledSmart. cbn [upd canceledSmarts_].
  destruct (canceled_find a (canceledSmarts_ c)); rewrite canceled_find_set; cbn; unfold TxId.op_eq; by rewrite ?Z.eqb_refl.
Qed.

(** The amounts that [load_new_state] moves. *)
Record exec_amounts (tr init : Transaction) (start_max start_counted counted : Amount) : Prop := {
  exec_start_max : fee_amount (max_fee_ init) = ret start_max;
  exec_start_counted : fee_amount (counted_fee_ init) = ret start_counted;
  exec_counted : fee_amount (counted_fee_ tr) = ret counted;
  exec_normal : Forall normal [start_max; start_counted; counted; amount_ init; value_amount (Tx.user_field new_state_Fee tr)]
}.

Lemma bal_check k a tid inverse c : bal k (checkCanceledSmart a tid inverse c) = bal k c.
Proof. unfold checkCanceledSmart. destruct inverse; [done|]. by destruct (canceled_find a (canceledSmarts_ c)). Qed.

Lemma ok_check a tid inverse c : ok c -> ok (checkCanceledSmart a tid inverse c).
Proof. unfold ok, checkCanceledSmart. destruct inverse; [done|]. by destruct (canceled_find a (canceledSmarts_ c)). Qed.

(** One direction of [load_new_state]: a run that is recorded as canceled is charged once more. *)
Lemma load_new_state_run tr init key start_max start_counted counted inverse c :
  is_executable init = true -> exec_amounts tr init start_max start_counted counted -> ok c ->
  exists c', load_new_state ids tr init key inverse c = ret c' /\ ok c' /\
    canceledSmarts_ c' = canceledSmarts_ (checkCanceledSmart (target_ init) (id_ init) inverse c) /\
    bal key c' ≡ₐ bal key c + sg inverse *
      ((if isCanceledSmart (target_ init) (id_ init) c then - value (amount_ init) - value start_max + value start_counted else 0)
       + (value start_max - value start_counted - value counted - value (value_amount (Tx.user_field new_state_Fee tr)))).
Proof.
  intros He [E1 E2 E3 Hn] Hc. rewrite !Forall_cons in Hn. destruct Hn as (N1 & N2 & N3 & N4 & N5 & _).
  apply normal_weak in N1, N2, N3, N4, N5. unfold load_new_state. rewrite E1, E2, E3, He. cbn [mthen ret].
  eexists. split; [reflexivity|].
  set (ef := value_amount (Tx.user_field new_state_Fee tr)) in *.
  assert (forall c a, ok c -> weak a -> ok (touch key (credit_if inverse a) c) /\
    bal key (touch key (credit_if inverse a) c) ≡ₐ bal key c + sg inverse * value a) as Hcr.
  { intros c0 a Hc0 Ha. destruct (touch_moved key _ _ _ c0 Hc0 (credit_shifts inverse a Ha)) as [M1 M2 _ _]. split; [done|].
    rewrite M2. unfold at_key. rewrite decide_True by done. reflexivity. }
  assert (forall c a, ok c -> weak a -> ok (touch key (debit_if inverse a) c) /\
    bal key (touch key (debit_if inverse a) c) ≡ₐ bal key c - sg inverse * value a) as Hdb.
  { intros c0 a Hc0 Ha. destruct (touch_moved key _ _ _ c0 Hc0 (debit_shifts inverse a Ha)) as [M1 M2 _ _]. split; [done|].
    rewrite M2. unfold at_key. rewrite decide_True by done. eqm_ring. }
  set (b := isCanceledSmart _ _ c). set (c1 := if b then _ else c).
  assert (ok c1 /\ canceledSmarts_ c1 = canceledSmarts_ c /\
    bal key c1 ≡ₐ bal key c + sg inverse * (if b then - value (amount_ init) - value start_max + value start_counted else 0)) as (O1 & K1 & B1).
  { subst c1. destruct b; [|split_and!; [done|done|]; eqm_ring].
    destruct (Hdb c (amount_ init) Hc N4) as [Oa Ba]. destruct (Hdb _ start_max Oa N1) as [Ob Bb].
    destruct (Hcr _ start_counted Ob N2) as [Oc Bc]. split_and!; [done|done|]. rewrite Bc, Bb, Ba. eqm_ring. }
  set (c2 := checkCanceledSmart _ _ inverse c1).
  assert (ok c2 /\ bal key c2 = bal key c1 /\ canceledSmarts_ c2 = canceledSmarts_ (checkCanceledSmart (target_ init) (id_ init) inverse c)) as (O2 & B2 & K2).
  { subst c2. split_and!; [by apply ok_check|by apply bal_check|]. unfold checkCanceledSmart. rewrite K1.
    destruct inverse; [done|]. by destruct (canceled_find _ _). }
  clearbody c2. destruct (Hcr c2 start_max O2 N1) as [Oa Ba]. destruct (Hdb _ start_counted Oa N2) as [Ob Bb].
  destruct (Hdb _ counted Ob N3) as [Oc Bc]. destruct (Hdb _ ef Oc N5) as [Od Bd]. split_and!; [done|done|].
  rewrite Bd, Bc, Bb, Ba, B2, B1. eqm_ring.
Qed.

(** Undoing a new state always records the run as canceled, though it was not before: the balance
    is restored, but when the new state is loaded again the wallet that started the run pays the
    amount and the greatest fee (less the counted one) once more. *)
Theorem reload_charges_again tr init key start_max start_counted counted c :
  is_executable init = true -> exec_amounts tr init start_max start_counted counted -> ok c ->
  canceled_find (target_ init) (canceledSmarts_ c) = None ->
  exists c1 c2 c3, load_new_state ids tr init key false c = ret c1 /\ load_new_state ids tr init key true c1 = ret c2 /\
    load_new_state ids tr init key false c2 = ret c3 /\
    bal key c2 ≡ₐ bal key c /\
    bal key c3 ≡ₐ bal key c1 - value (amount_ init) - value start_max + value start_counted.
Proof.
  intros He Ha Hc Hf.
  destruct (load_new_state_run tr init key _ _ _ false c He Ha Hc) as (c1 & E1 & O1 & K1 & B1).
  destruct (load_new_state_run tr init key _ _ _ true c1 He Ha O1) as (c2 & E2 & O2 & K2 & B2).
  destruct (load_new_state_run tr init key _ _ _ false c2 He Ha O2) as (c3 & E3 & O3 & K3 & B3).
  exists c1, c2, c3. split_and!; [done..| |].
  all: assert (isCanceledSmart (target_ init) (id_ init) c = false) as F by (unfold isCanceledSmart; by rewrite Hf).
  all: assert (isCanceledSmart (target_ init) (id_ init) c1 = false) as F1
    by (unfold isCanceledSmart; rewrite K1; unfold checkCanceledSmart; by rewrite !Hf).
  all: assert (isCanceledSmart (target_ init) (id_ init) c2 = true) as F2
    by (rewrite <- (canceled_pushed (target_ init) (id_ init) c1); unfold isCanceledSmart; by rewrite K2).
  all: rewrite ?F, ?F1, ?F2 in *; cbn [sg] in *.
  - rewrite B2, B1. eqm_ring.
  - rewrite B3, B2. eqm_ring.
Qed.
End blocks.
End WalletsCache.

(** ** Witnesses *)

Definition sample_key (k : Z) : bytes := le_bytes 32 k.

(** The commission 896 / 1024 / 100 and its amount, 0.00875. *)
Definition sample_fee : Amount := mkAmount 0 8750000000000000.

Definition sample_transfer (inner from to amount : Z) : Transaction :=
  Tx._update_id (Tx.make inner (sample_public from) (sample_public to) 1 (of_int amount) 17280 17280 []) 7 inner.
Definition sample_transfers : list (Transaction * Amount) :=
  [(sample_transfer 1 50 51 100, sample_fee); (sample_transfer 2 51 52 30, sample_fee)].

(** Three confidants, the second one not trusted (the mask 101). *)
Definition sample_transfer_pool (real : Z) : Pool.priv :=
  Pool.default <| Pool.transactions_ := map fst sample_transfers |> <| Pool.numberTrusted_ := 3 |> <| Pool.realTrusted_ := real |>.
Definition sample_confidants : list bytes := [sample_key 71; sample_key 72; sample_key 73].

(** A wallet with a thousand tokens that has sent the transactions 4 and 3. *)
Definition sample_cache : Cache :=
  mkCache [] [] {[ sample_key 50 := WalletsCache.new_wallet <| balance_ := of_int 1000 |>
                     <| trxTail_ := TransactionsTail.pushed [4; 3] |> ]}.

Lemma sample_cache_ok : WalletsCache.ok sample_cache.
Proof. unfold WalletsCache.ok. apply map_Forall_singleton. by vm_compute. Qed.

Lemma sample_plain : Forall (fun p => WalletsCache.plain p.1 p.2) sample_transfers.
Proof. repeat constructor; by vm_compute. Qed.

Lemma sample_transfer_block : WalletsCache.transfer_block (sample_transfer_pool 5) sample_transfers sample_confidants.
Proof. split; [exact sample_plain|by vm_compute|by vm_compute| |by vm_compute]. by apply (bool_decide_unpack _); vm_compute. Qed.


Lemma rollback_restores_witness :
  exists pool' c' pool'' c'',
    WalletsCache.loadNextBlock sample_ids (fun _ => Pool.default) (sample_transfer_pool 5) sample_confidants false sample_cache
      = ret (pool', c') /\
    WalletsCache.loadNextBlock sample_ids (fun _ => Pool.default) (sample_transfer_pool 5) sample_confidants true c' = ret (pool'', c'') /\
    forall k, balance_ (WalletsCache.getWalletData k c'') = balance_ (WalletsCache.getWalletData k sample_cache) /\
              transNum_ (WalletsCache.getWalletData k c'') = transNum_ (WalletsCache.getWalletData k sample_cache).
Proof.
  apply (WalletsCache.rollback_restores sample_ids (fun _ => Pool.default) _ sample_transfers);
    [exact sample_transfer_block|exact sample_cache_ok].
Defined.

Lemma all_untrusted_throws_witness :
  WalletsCache.loadNextBlock sample_ids (fun _ => Pool.default) (sample_transfer_pool 0) sample_confidants false sample_cache
  = Some (Throw overflow_error).
Proof.
  apply (WalletsCache.all_untrusted_throws sample_ids (fun _ => Pool.default) _ sample_transfers);
    [exact sample_plain|by vm_compute|exact sample_cache_ok|by vm_compute|done|by vm_compute].
Defined.

Lemma rollback_keeps_tail_witness :
  let tr := sample_transfer 5 50 51 100 in
  exists c1 c2, WalletsCache.load sample_ids (fun _ => Pool.default) tr false sample_cache = ret c1 /\
    WalletsCache.load sample_ids (fun _ => Pool.default) tr true c1 = ret c2 /\
    TransactionsTail.isAllowed (WalletsCache.tail (WalletsCache.toPublicKey sample_ids (source_ tr)) c2) (innerID_ tr) = false.
Proof.
  apply (WalletsCache.rollback_keeps_tail sample_ids (fun _ => Pool.default) _ sample_fee [4; 3]).
  - split; by vm_compute.
  - repeat constructor; unfold BitHeap.small; lia.
  - unfold BitHeap.small. cbn. lia.
  - unfold WalletsCache.tail, WalletsCache.getWalletData. change (WalletsCache.toPublicKey _ _) with (sample_key 50).
    cbn [sample_cache wallets_]. by rewrite lookup_singleton_eq.
Defined.

(** A call of a contract for the greatest fee of a quarter of a token and the new state that answers it. *)
Definition sample_call : Transaction :=
  snd (Tx.add_user_field deploy_Code (uf_of_string []) (Tx.make 1 (sample_public 50) (sample_public 51) 1 (of_int 10) 18688 17280 [])).
Definition sample_new_state : Transaction :=
  Tx.make 2 (sample_public 51) (sample_public 51) 1 (of_int 0) 17280 17280 [].

Lemma reload_charges_again_witness :
  exists c1 c2 c3,
    WalletsCache.load_new_state sample_ids sample_new_state sample_call (sample_key 50) false sample_cache = ret c1 /\
    WalletsCache.load_new_state sample_ids sample_new_state sample_call (sample_key 50) true c1 = ret c2 /\
    WalletsCache.load_new_state sample_ids sample_new_state sample_call (sample_key 50) false c2 = ret c3 /\
    WalletsCache.bal (sample_key 50) c2 ≡ₐ WalletsCache.bal (sample_key 50) sample_cache /\
    WalletsCache.bal (sample_key 50) c3 ≡ₐ WalletsCache.bal (sample_key 50) c1 - value (amount_ sample_call)
      - value (mkAmount 0 250000000000000000) + value sample_fee.
Proof.
  apply (WalletsCache.reload_charges_again sample_ids sample_new_state sample_call (sample_key 50)
    (mkAmount 0 250000000000000000) sample_fee sample_fee sample_cache);
    [by vm_compute| |exact sample_cache_ok|done].
  split; [by vm_compute..|]. repeat constructor; by vm_compute.
Defined.
