(* ===== verification/Ledger.v ===== *)
(** * The wallets cache as a ledger

    An abstract specification of [csnode/src/walletscache.cpp]: a ledger gives
    every key an integer, and a block adds to it what its transfers and the
    shares of its fees move.  The cache implements it for any sequence of blocks
    that are loaded and undone; the amounts of the cache are those of the ledger
    wherever these fit the 32 bits of the integral part.

    The ids of the wallets are the same throughout the sequence. *)

From Stdlib Require Import ZArith Lia.
From stdpp Require Import base tactics numbers option list gmap.
From S2P Require Import Prelude Effect Amount Transaction Pool WalletsIds AmountMod WalletsCache.

Local Open Scope Z_scope.
Local Open Scope cs_scope.

Import WalletsCache.

(** A block of transfers, its confidants, and whether it is loaded or undone. *)
Record Turn := mkTurn { pool_ : Pool.priv; transfers_ : list (Transaction * Amount); confidants_ : list bytes; inverse_ : bool }.
#[global] Instance eta_turn : Eta Turn := fun t => mkTurn (pool_ t) (transfers_ t) (confidants_ t) (inverse_ t).

Module Ledger.

Definition ledger : Type := bytes -> Z.

Definition undo (t : Turn) : Turn := t <| inverse_ := negb (inverse_ t) |>.
Definition turn_ok (t : Turn) : Prop := transfer_block (pool_ t) (transfers_ t) (confidants_ t).
Definition share_ok (t : Turn) (share : Z) : Prop :=
  is_share share (value (fees_from (of_int 0) (transfers_ t))) (getRealTrustedNum (mask (pool_ t))).

Section ledger.
Context {D : Type} `{!MultiIndex D} (ids : WalletsIds D) (loadBlock : Z -> Pool.priv).

(** The abstract step: [share] is what each trusted confidant gets of the fees. *)
Definition post (t : Turn) (share : Z) (l : ledger) : ledger :=
  fun k => l k + sg (inverse_ t) * block_delta ids (pool_ t) (transfers_ t) (confidants_ t) share k.
Fixpoint post_all (ts : list Turn) (shares : list Z) (l : ledger) : ledger :=
  match ts, shares with
  | t :: ts, share :: shares => post_all ts shares (post t share l)
  | _, _ => l
  end.

(** The concrete one: [loadNextBlock] for each block. *)
Definition load_turn (t : Turn) (c : Cache) : M Cache :=
  do! r := loadNextBlock ids loadBlock (pool_ t) (confidants_ t) (inverse_ t) c in ret r.2.
Definition load_all : list Turn -> Cache -> M Cache := mfold load_turn.

(** The simulation relation *)
Definition represents (c : Cache) (l : ledger) : Prop := ok c /\ forall k, bal k c ≡ₐ l k.

(** What a block does is the same number for loading and for undoing. *)
Definition shared (t : Turn) (share : Z) (n : bytes -> Z) : Prop :=
  share_ok t share /\ reversible (fun inverse => load_turn (t <| inverse_ := inverse |>))
    (block_delta ids (pool_ t) (transfers_ t) (confidants_ t) share) 0 n.

Lemma turn_shared t : turn_ok t -> exists share, shared t share (transfers_num ids (transfers_ t)).
Proof. intros Ht. destruct (block_reversible ids loadBlock _ _ _ Ht) as (share & Hs & R). by exists share. Qed.

Lemma turns_shared ts : Forall turn_ok ts -> exists shares, Forall2 (fun t share => shared t share (transfers_num ids (transfers_ t))) ts shares.
Proof.
  induction 1 as [|t ts Ht _ (shares & IH)]; [by exists []|]. destruct (turn_shared t Ht) as [share Hs].
  exists (share :: shares). by constructor.
Qed.

Lemma shared_run t share n c : shared t share n -> ok c ->
  exists c', load_turn t c = ret c' /\
    moved (fun k => sg (inverse_ t) * block_delta ids (pool_ t) (transfers_ t) (confidants_ t) share k) 0 (fun k => sg (inverse_ t) * n k) c c'.
Proof.
  intros [_ R] Hc. destruct (R (inverse_ t) c Hc) as (c' & E & Hm). exists c'. split; [exact E|].
  eapply moved_ext; [exact Hm|done|by rewrite Z.mul_0_r|done].
Qed.

Lemma shared_undo t share n : shared t share n -> shared (undo t) share n.
Proof. done. Qed.

(** What a sequence of turns adds to a wallet. *)
Definition sum_delta (ts : list Turn) (shares : list Z) (k : bytes) : Z := post_all ts shares (fun _ => 0) k.

(** ... and to the numbers of transactions *)
Definition num_delta (ts : list Turn) (k : bytes) : Z :=
  foldr (fun t acc => sg (inverse_ t) * transfers_num ids (transfers_ t) k + acc) 0 ts.

Lemma num_delta_app ts1 ts2 k : num_delta (ts1 ++ ts2) k = num_delta ts1 k + num_delta ts2 k.
Proof. induction ts1 as [|t ts1 IH]; [done|]. unfold num_delta in *. cbn [app foldr]. rewrite IH. lia. Qed.

Lemma num_delta_undo ts k : num_delta (rev (map undo ts)) k = - num_delta ts k.
Proof.
  induction ts as [|t ts IH]; [done|]. cbn [map rev]. rewrite num_delta_app, IH. unfold num_delta, undo. cbn [foldr upd inverse_ transfers_].
  destruct (inverse_ t); cbn [negb sg]; lia.
Qed.

Lemma post_all_add ts shares l k : post_all ts shares l k = l k + sum_delta ts shares k.
Proof.
  unfold sum_delta. revert shares l. induction ts as [|t ts IH]; intros [|share shares] l; cbn [post_all]; try lia.
  rewrite IH, (IH shares (post t share (fun _ => 0))). unfold post. lia.
Qed.

Lemma load_all_moved ts shares c :
  Forall2 (fun t share => shared t share (transfers_num ids (transfers_ t))) ts shares -> ok c ->
  exists c', load_all ts c = ret c' /\
    moved (sum_delta ts shares) 0 (num_delta ts) c c'.
Proof.
  intros Hs. revert c. induction Hs as [|t share ts shares Ht _ IH]; intros c Hc; cbn [load_all mfold].
  { exists c. split; [done|]. by apply moved_refl. }
  destruct (shared_run _ _ _ _ Ht Hc) as (c1 & E1 & M1). destruct (IH c1 (moved_ok _ _ _ _ _ M1)) as (c2 & E2 & M2).
  exists c2. unfold load_all in E2 |- *. cbn [mfold]. rewrite E1. cbn [mthen ret]. split; [done|].
  eapply moved_ext; [exact (moved_trans _ _ _ _ _ _ _ _ _ M1 M2)|intros k|done|intros k; done].
  cbn beta. unfold sum_delta at 2. cbn [post_all]. rewrite post_all_add. unfold post. apply eqm_eq. lia.
Qed.

(** C10: The wallets cache implements an abstract ledger of unbounded integers: for any sequence
    of loading and undoing blocks of plain transfers with normal amounts and fees, each with fees
    that are not negative in sum and a mask that fits its confidants and trusts at least one of
    them (fewer than 2^31), loadNextBlock succeeds at every step, the balances are the ledger's
    modulo the range of the amounts and equal to them where these fit, and their sum stays the
    same modulo that range. *)
Theorem cache_refines_ledger ts c l :
  Forall turn_ok ts -> represents c l ->
  exists shares c', Forall2 share_ok ts shares /\ load_all ts c = ret c' /\
    represents c' (post_all ts shares l) /\ total c' ≡ₐ total c /\
    forall k, - 2 ^ 31 * AMOUNT_MAX_FRACTION < post_all ts shares l k < 2 ^ 31 * AMOUNT_MAX_FRACTION ->
      bal k c' = post_all ts shares l k.
Proof.
  intros Ht [Hc Hl]. destruct (turns_shared ts Ht) as (shares & Hs). destruct (load_all_moved ts shares c Hs Hc) as (c' & E & [M1 M2 M3 _]).
  assert (forall k, bal k c' ≡ₐ post_all ts shares l k) as Hb by (intros k; rewrite M2, post_all_add, Hl; reflexivity).
  exists shares, c'. split_and!; [|done|by split|rewrite M3; eqm_ring|].
  - eapply Forall2_impl; [exact Hs|]. by intros t share [H _].
  - intros k Hk. pose proof (ok_get k c' M1) as [Nk _]. apply eqm_range; [by apply weak_range, normal_weak|done|apply Hb].
Qed.

Lemma sum_delta_app ts1 sh1 ts2 sh2 k : length ts1 = length sh1 ->
  sum_delta (ts1 ++ ts2) (sh1 ++ sh2) k = sum_delta ts1 sh1 k + sum_delta ts2 sh2 k.
Proof.
  revert sh1. induction ts1 as [|t ts1 IH]; intros [|share sh1] Hl; try done. cbn [app]. injection Hl as Hl.
  unfold sum_delta in *. cbn [post_all]. rewrite !(post_all_add _ _ (post t share _)). unfold sum_delta. rewrite IH by done. lia.
Qed.

Lemma sum_delta_undo ts shares k : length ts = length shares ->
  sum_delta (rev (map undo ts)) (rev shares) k = - sum_delta ts shares k.
Proof.
  revert shares. induction ts as [|t ts IH]; intros [|share shares] Hl; try done. injection Hl as Hl. cbn [map rev].
  rewrite sum_delta_app by (rewrite !length_rev, length_map; done). rewrite IH by done.
  unfold sum_delta at 2 3. cbn [post_all]. rewrite (post_all_add ts shares (post t share _)). unfold post, undo. cbn [upd inverse_ pool_ transfers_ confidants_].
  destruct (inverse_ t); cbn [negb sg]; lia.
Qed.

(** A reorganisation of any depth: after any sequence of blocks of transfers is loaded and then
    undone from the last to the first, every wallet has the balance and the number of transactions
    it had before. *)
Theorem reorganisation_restores ts c :
  Forall turn_ok ts -> ok c ->
  exists c1 c2, load_all ts c = ret c1 /\ load_all (rev (map undo ts)) c1 = ret c2 /\
    forall k, balance_ (getWalletData k c2) = balance_ (getWalletData k c) /\ transNum_ (getWalletData k c2) = transNum_ (getWalletData k c).
Proof.
  intros Ht Hc. destruct (turns_shared ts Ht) as (shares & Hs). destruct (load_all_moved ts shares c Hs Hc) as (c1 & E1 & M1).
  assert (Forall2 (fun t share => shared t share (transfers_num ids (transfers_ t))) (rev (map undo ts)) (rev shares)) as Hs'.
  { clear -Hs. induction Hs as [|t share ts shares Ht _ IH]; [constructor|]. cbn [map rev].
    apply Forall2_app; [exact IH|]. constructor; [|constructor]. exact Ht. }
  destruct (load_all_moved _ _ c1 Hs' (moved_ok _ _ _ _ _ M1)) as (c2 & E2 & M2). exists c1, c2. split; [done|]. split; [done|]. intros k.
  pose proof (moved_trans _ _ _ _ _ _ _ _ _ M1 M2) as [Hc2 Hb _ Hn]. destruct (ok_get k c Hc) as [Nb Nu], (ok_get k c2 Hc2) as [Nb' Nu']. split.
  - apply value_inj_mod; [done..|]. change (bal k c2 ≡ₐ bal k c). rewrite Hb. cbn beta.
    rewrite sum_delta_undo by by eapply Forall2_length. eqm_ring.
  - destruct (Hn k) as [j E]. unfold num in E.
    rewrite num_delta_undo in E. unfold in_u in *. assert (j = 0) by lia. lia.
Qed.
End ledger.
End Ledger.

(** ** Witnesses *)

Definition sample_turns : list Turn :=
  [mkTurn (sample_transfer_pool 5) sample_transfers sample_confidants false;
   mkTurn (sample_transfer_pool 7) sample_transfers sample_confidants false].

Lemma sample_turns_ok : Forall Ledger.turn_ok sample_turns.
Proof.
  repeat constructor; try (exact sample_plain); try (by vm_compute); apply (bool_decide_unpack _); by vm_compute.
Qed.

Lemma cache_refines_ledger_witness :
  exists shares c', Forall2 Ledger.share_ok sample_turns shares /\
    Ledger.load_all sample_ids (fun _ => Pool.default) sample_turns sample_cache = ret c' /\
    Ledger.represents c' (Ledger.post_all sample_ids sample_turns shares (fun k => bal k sample_cache)) /\
    total c' ≡ₐ total sample_cache /\
    forall k, - 2 ^ 31 * AMOUNT_MAX_FRACTION < Ledger.post_all sample_ids sample_turns shares (fun k => bal k sample_cache) k
        < 2 ^ 31 * AMOUNT_MAX_FRACTION ->
      bal k c' = Ledger.post_all sample_ids sample_turns shares (fun k => bal k sample_cache) k.
Proof.
  apply (Ledger.cache_refines_ledger sample_ids (fun _ => Pool.default) sample_turns sample_cache (fun k => bal k sample_cache));
    [exact sample_turns_ok|]. split; [exact sample_cache_ok|reflexivity].
Defined.

Lemma reorganisation_restores_witness :
  exists c1 c2, Ledger.load_all sample_ids (fun _ => Pool.default) sample_turns sample_cache = ret c1 /\
    Ledger.load_all sample_ids (fun _ => Pool.default) (rev (map Ledger.undo sample_turns)) c1 = ret c2 /\
    forall k, balance_ (getWalletData k c2) = balance_ (getWalletData k sample_cache) /\
              transNum_ (getWalletData k c2) = transNum_ (getWalletData k sample_cache).
Proof.
  apply (Ledger.reorganisation_restores sample_ids (fun _ => Pool.default) sample_turns sample_cache);
    [exact sample_turns_ok|exact sample_cache_ok].
Defined.
