(* ===== verification/BlockChain.v ===== *)
(** * The chain of blocks of a node ([csnode/src/blockchain.cpp])

    The last block is deferred: it is written to the storage when the next one
    comes, so that it can still get more signatures.  Blocks that are ahead of
    the chain are cached by their number.  A new block is checked against the
    chain and its signatures, its wallets are numbered, its transactions go to
    the wallets cache; a block that does not continue the chain makes the last
    one fall.

    The LMDB tables of the hashes ([csnode/src/blockhashes.cpp]) are finite maps
    (LMDB refuses an empty key); the index of transactions, the log and what the
    receivers of the signals do are left out.  The blocks that the wallets cache
    asks for are looked up without a trace in the storage's cache.  When an
    exception ends [loadNextBlock] half-way it is caught here: what it leaves
    of the block and of the wallets is a parameter. *)

From Stdlib Require Import ZArith Lia.
From stdpp Require Import base tactics numbers option list gmap.
From S2P Require Import Prelude Effect OrdMap BinStream Amount UserField Crypto DataStream Address Utils Transaction Packet MetaStorage Double Pool.
From S2P Require Import Database Storage ContractRef Conveyer Fee Tail WalletsIds WalletsCache.

Local Open Scope Z_scope.
Local Open Scope cs_scope.

(** [BlockChain::NonEmptyBlockData] *)
Record NonEmptyBlockData := mkNonEmpty { poolSeq : Z; transCount : Z }.

(** [BlockChain::BlockMeta] *)
Record BlockMeta := mkBlockMeta { bm_pool : Pool.priv; by_sync : bool }.

(** The signals *)
Inductive ChainEvent : Type :=
  | StoreBlockEvent (pool : Pool.priv)
  | CachedBlockEvent (sequence : Z)
  | RemoveBlockEvent (pool : Pool.priv).

(** The members of [BlockChain] *)
Record BlockChain (B D : Type) := mkBlockChain {
  bc_storage_ : Storage B;
  seqDb_ : gmap Z bytes;
  hashDb_ : gmap bytes Z;
  walletIds_ : WalletsIds D;
  walletsCache_ : Cache;
  total_transactions_count_ : Z;
  previousNonEmpty_ : gmap Z NonEmptyBlockData;
  lastNonEmptyBlock_ : NonEmptyBlockData;
  cachedBlocks_ : list (Z * BlockMeta);
  deferredBlock_ : Pool.priv;
  uuid_ : Z;
  lastSequence_ : Z;
  blocksToBeRemoved_ : Z
}.
Arguments mkBlockChain {B D}.
Arguments bc_storage_ {B D}.
Arguments seqDb_ {B D}.
Arguments hashDb_ {B D}.
Arguments walletIds_ {B D}.
Arguments walletsCache_ {B D}.
Arguments total_transactions_count_ {B D}.
Arguments previousNonEmpty_ {B D}.
Arguments lastNonEmptyBlock_ {B D}.
Arguments cachedBlocks_ {B D}.
Arguments deferredBlock_ {B D}.
Arguments uuid_ {B D}.
Arguments lastSequence_ {B D}.
Arguments blocksToBeRemoved_ {B D}.
#[export] Instance eta_blockchain {B D} : Eta (BlockChain B D) := fun c =>
  mkBlockChain (bc_storage_ c) (seqDb_ c) (hashDb_ c) (walletIds_ c) (walletsCache_ c) (total_transactions_count_ c) (previousNonEmpty_ c)
    (lastNonEmptyBlock_ c) (cachedBlocks_ c) (deferredBlock_ c) (uuid_ c) (lastSequence_ c) (blocksToBeRemoved_ c).

Module NodeUtils.
Section utils.
Context `{!Cscrypto}.

(** The loop over the mask: the confidants, the signatures still to come and the result so far *)
Fixpoint check_loop (mask : bytes) (confidants signatures : list bytes) (hash : bytes) (validSig : bool) : M bool :=
  match mask with
  | [] => ret validSig
  | it :: mask =>
      if negb (it =? 255) then
        match signatures, confidants with
        | signature :: signatures, confidant :: confidants =>
            check_loop mask confidants signatures hash (validSig && verifySignature signature confidant hash)
        | _, _ => None
        end
      else check_loop mask (tail confidants) signatures hash validSig
  end.

Definition realTrustedValue (mask : bytes) : nat := length (filter (fun it => it <> 255) mask).

Definition checkGroupSignature (confidants : list bytes) (mask : bytes) (signatures : list bytes) (hash : bytes) : M bool :=
  if (length confidants =? 0)%nat then ret false
  else if negb (length confidants =? length mask)%nat then ret false
  else if negb (length signatures =? realTrustedValue mask)%nat then ret false
  else check_loop mask confidants signatures hash true.

Definition getTrustedMask (block : Pool.priv) : bytes :=
  if negb (Pool.is_valid_ block) then [] else Utils.bitsToMask (Pool.numberTrusted_ block) (Pool.realTrusted_ block).
End utils.
End NodeUtils.

Module BlockHashes.
Section hashes.
Context `{!Cscrypto} {B D : Type}.
Implicit Types c : BlockChain B D.

Definition find (seq : Z) c : bytes := match seqDb_ c !! seq with Some value => PoolHash.from_binary value | None => [] end.
Definition find_hash (hash : bytes) c : Z := if PoolHash.is_empty hash then kWrongSequence else default kWrongSequence (hashDb_ c !! hash).

Definition update (block : Pool.priv) c : M (BlockChain B D) :=
  do! (hash, _) := defined (Pool.hash block) in
  let seq := Pool.sequence_ block in
  if PoolHash.op_eq (find seq c) hash then ret c
  else
    let c := c <| seqDb_ := <[seq := hash]> (seqDb_ c) |> in
    ret (if PoolHash.is_empty hash then c else c <| hashDb_ := <[hash := seq]> (hashDb_ c) |>).

Definition remove_seq (sequence : Z) c : bool * BlockChain B D :=
  let hash := find sequence c in
  if PoolHash.is_empty hash then (false, c)
  else (true, c <| seqDb_ := delete sequence (seqDb_ c) |> <| hashDb_ := delete hash (hashDb_ c) |>).
Definition remove_hash (hash : bytes) c : bool * BlockChain B D :=
  let sequence := find_hash hash c in
  if sequence =? kWrongSequence then (false, c)
  else (true, c <| seqDb_ := delete sequence (seqDb_ c) |> <| hashDb_ := delete hash (hashDb_ c) |>).
End hashes.
End BlockHashes.

Module BlockChain.
Section chain.
Context `{!Cscrypto, !Libm} {B : Type} `{!Database B} {D : Type} `{!MultiIndex D}.
Context (begin : list PoolElement -> nat) (invocation_method : bytes -> bytes) (genesisAddress_ : Address).
Context (interrupted : Pool.priv -> bool -> Cache -> Pool.priv * Cache).
Implicit Types c : BlockChain B D.

(** *** Reading *)

Definition getLastSeq c : Z := lastSequence_ c.

Definition getLastHash c : M bytes :=
  if Pool.is_valid_ (deferredBlock_ c) then do! (h, _) := defined (Pool.hash (deferredBlock_ c)) in ret h
  else ret (Storage.last_hash (bc_storage_ c)).

Definition getSize c : Z :=
  let storageSize := Storage.size (bc_storage_ c) in
  if Pool.is_valid_ (deferredBlock_ c) then storageSize + 1 else storageSize.

(** [loadBlock(sequence)] *)
Definition loadBlock (sequence : Z) c : M (Pool.priv * BlockChain B D) :=
  if Pool.is_valid_ (deferredBlock_ c) && (Pool.sequence_ (deferredBlock_ c) =? sequence) then ret (Pool.clone (deferredBlock_ c), c)
  else if getLastSeq c <? sequence then ret (Pool.default, c)
  else do! (p, s) := Storage.pool_load begin sequence (bc_storage_ c) in ret (p, c <| bc_storage_ := s |>).

(** [loadBlock(hash)] *)
Definition loadBlockByHash (ph : bytes) c : M (Pool.priv * BlockChain B D) :=
  if PoolHash.is_empty ph then ret (Pool.default, c)
  else
    do! (h, _) := defined (Pool.hash (deferredBlock_ c)) in
    if PoolHash.op_eq h ph then ret (Pool.clone (deferredBlock_ c), c)
    else do! (p, s) := Storage.pool_load_hash begin ph (bc_storage_ c) in ret (p, c <| bc_storage_ := s |>).

(** [loadBlockMeta] *)
Definition loadBlockMeta (ph : bytes) c : M (Pool.priv * option Z) :=
  do! (h, _) := defined (Pool.hash (deferredBlock_ c)) in
  if PoolHash.op_eq h ph then ret (Pool.clone (deferredBlock_ c), None) else Storage.pool_load_meta ph (bc_storage_ c).

Definition getLastBlock c : M (Pool.priv * BlockChain B D) := loadBlock (getLastSeq c) c.

(** [loadTransaction] *)
Definition loadTransaction (transId : TransactionID) c : M (Transaction * BlockChain B D) :=
  if Pool.sequence_ (deferredBlock_ c) =? pool_seq_ transId then
    ret (Tx.set_time (WalletsCache.get_time (deferredBlock_ c)) (Tx.clone (Pool.transaction_by_id (deferredBlock_ c) transId)), c)
  else
    do! (transaction, s) := Storage.transaction begin transId (bc_storage_ c) in
    do! (p, s) := Storage.pool_load begin (pool_seq_ transId) s in
    ret (Tx.set_time (WalletsCache.get_time p) transaction, c <| bc_storage_ := s |>).

Definition getLastTimeStamp c : M (bytes * BlockChain B D) :=
  if Pool.is_valid_ (deferredBlock_ c) then
    ret (if existsb (Z.eqb 0) (Pool.user_field_ids (deferredBlock_ c)) then value_string (Pool.user_field 0 (deferredBlock_ c)) else [48], c)
  else do! (p, c) := getLastBlock c in ret (value_string (Pool.user_field 0 p), c).

Definition getLastRealTrusted c : M (bytes * BlockChain B D) :=
  if Pool.is_valid_ (deferredBlock_ c) then
    ret (Utils.bitsToMask (Pool.numberTrusted_ (deferredBlock_ c)) (Pool.realTrusted_ (deferredBlock_ c)), c)
  else do! (p, c) := getLastBlock c in ret (Utils.bitsToMask (Pool.numberTrusted_ p) (Pool.realTrusted_ p), c).

Definition getHashBySequence (seq : Z) c : M bytes :=
  if Pool.sequence_ (deferredBlock_ c) =? seq then do! (h, _) := defined (Pool.hash (deferredBlock_ c)) in ret h
  else
    let tmp := BlockHashes.find seq c in
    if negb (PoolHash.is_empty tmp) then ret tmp else Storage.pool_hash seq (bc_storage_ c).

Definition getSequenceByHash (hash : bytes) c : M Z :=
  do! (h, _) := defined (Pool.hash (deferredBlock_ c)) in
  if PoolHash.op_eq h hash then ret (Pool.sequence_ (deferredBlock_ c))
  else
    let seq := BlockHashes.find_hash hash c in
    ret (if negb (seq =? kWrongSequence) then seq else Storage.pool_sequence hash (bc_storage_ c)).

Definition getWalletsCountWithBalance c : Z :=
  Z.of_nat (length (filter (fun kw : bytes * WalletData => op_ge (balance_ kw.2) (of_int 0) = true) (map_to_list (wallets_ (walletsCache_ c))))).

Definition getLastNonEmptyBlock c : Z * Z := (poolSeq (lastNonEmptyBlock_ c), transCount (lastNonEmptyBlock_ c)).
Definition getPreviousNonEmptyBlock (seq : Z) c : Z * Z :=
  match previousNonEmpty_ c !! seq with Some d => (poolSeq d, transCount d) | None => (kWrongSequence, 0) end.

Definition getCachedBlocksSize c : nat := length (cachedBlocks_ c).
Definition clearBlockCache c : BlockChain B D := c <| cachedBlocks_ := [] |>.

Definition setBlocksToBeRemoved (number : Z) c : BlockChain B D :=
  if 0 <? blocksToBeRemoved_ c then c else c <| blocksToBeRemoved_ := number |>.

(** [uuidFromBlock] *)
Definition uuidFromBlock (block : Pool.priv) : M Z :=
  if Pool.is_valid_ block then
    do! (h, _) := defined (Pool.hash block) in
    if PoolHash.is_empty h then ret 0 else defined (PoolHash.calcHash h)
  else ret 0.

(** *** The wallets of a block *)

(** [getWalletId]: whether the id is new *)
Definition getWalletId (address : Address) (ids : WalletsIds D) : WalletsIds D * result (Z * bool) :=
  if is_wallet_id address then (ids, Ok (wallet_id address, false)) else WalletsIds.get address ids.

Definition addNewWalletToPool (walletAddress : Address) (trxInd type : Z) (st : WalletsIds D * list Pool.NewWalletInfo) : M (WalletsIds D * list Pool.NewWalletInfo) :=
  if negb (is_public_key walletAddress) then ret st
  else if op_eq walletAddress genesisAddress_ then ret st
  else
    match getWalletId walletAddress st.1 with
    | (ids, Ok (id, true)) => ret (ids, st.2 ++ [Pool.mkNewWalletInfo trxInd type id])
    | (ids, Ok (_, false)) => ret (ids, st.2)
    | (_, Throw e) => Some (Throw e)
    end.

Definition addNewWalletsToPool (pool : Pool.priv) c : M (Pool.priv * BlockChain B D) :=
  if Pool.read_only_ pool then ret (pool, c)
  else
    let transactions := Pool.transactions_ pool in
    let wallet (x : nat * Address * Z) st := addNewWalletToPool x.1.2 (Z.of_nat x.1.1) x.2 st in
    do! st := mfold wallet
      (concat (imap (fun idx t => [(idx, source_ t, Pool.AddressIsSource); (idx, target_ t, Pool.AddressIsTarget)]) transactions) ++
       imap (fun i key => (length transactions + i, from_public_key key, Pool.AddressIsTarget)%nat) (Pool.confidants_ pool))
      (walletIds_ c, []) in
    ret (Pool.edit_newWallets (fun _ => st.2) pool, c <| walletIds_ := st.1 |>).

Definition updateWalletIds (pool : Pool.priv) c : bool * BlockChain B D :=
  let '(ids, done) := WalletsIds.updateWalletIds pool (walletIds_ c) in (done, c <| walletIds_ := ids |>).
Definition removeWalletsInPoolFromCache (pool : Pool.priv) c : BlockChain B D :=
  c <| walletIds_ := WalletsIds.removeWalletsInPoolFromCache pool (walletIds_ c) |>.

(** [setTransactionsFees(pool)] *)
Definition setTransactionsFees (pool : Pool.priv) : M Pool.priv :=
  do! txs := Fee.setCountedFees invocation_method (Pool.transactions_ pool) in ret (pool <| Pool.transactions_ := txs |>).

(** *** The wallets cache *)

(** [loadNextBlock] of the updater: the blocks that it asks for *)
Definition loadNextBlock (pool : Pool.priv) (inverse : bool) c : M (Pool.priv * Cache) :=
  WalletsCache.loadNextBlock (walletIds_ c) (fun seq => match loadBlock seq c with Some (Ok (p, _)) => p | _ => Pool.default end)
    pool (Pool.confidants_ pool) inverse (walletsCache_ c).

Definition updateFromNextBlock (nextPool : Pool.priv) c : M (bool * Pool.priv * BlockChain B D) :=
  match loadNextBlock nextPool false c with
  | None => None
  | Some (Throw _) => let '(pool, cache) := interrupted nextPool false (walletsCache_ c) in ret (false, pool, c <| walletsCache_ := cache |>)
  | Some (Ok (pool, cache)) => do! c := BlockHashes.update pool (c <| walletsCache_ := cache |>) in ret (true, pool, c)
  end.

Definition updateNonEmptyBlocks (pool : Pool.priv) c : BlockChain B D :=
  let cntTr := Z.of_nat (length (Pool.transactions_ pool)) in
  if 0 <? cntTr then
    let c := c <| total_transactions_count_ := u64 (total_transactions_count_ c + cntTr) |> in
    let c := if negb (transCount (lastNonEmptyBlock_ c) =? 0) && negb (Pool.sequence_ pool =? poolSeq (lastNonEmptyBlock_ c))
             then c <| previousNonEmpty_ := <[Pool.sequence_ pool := lastNonEmptyBlock_ c]> (previousNonEmpty_ c) |> else c in
    c <| lastNonEmptyBlock_ := mkNonEmpty (Pool.sequence_ pool) (u32 cntTr) |>
  else c.

(** *** Checking and recording *)

(** What the confidants of the block before sign: the block's number and its confidants *)
Definition trusted_hash (sequence : Z) (confidants : list bytes) : bytes :=
  calculateHash (put_entities (array_ds kPublicKeySize) confidants (addValue 8 sequence [])).

(** [finalizeBlock] *)
Definition finalizeBlock (pool : Pool.priv) (isTrusted : bool) (lastConfidants : list bytes) c : M (bool * Pool.priv * BlockChain B D) :=
  do! (composed, pool) := defined (Pool.compose pool) in
  if negb composed then ret (false, pool, c)
  else
    let currentSequence := Pool.sequence_ pool in
    do! confirmed :=
      (if 1 <? currentSequence then
         let trustedHash := trusted_hash currentSequence (Pool.confidants_ pool) in
         let confMask := Utils.bitsToMask (Pool.numberConfirmations_ pool) (Pool.roundConfirmationMask_ pool) in
         if (1 <? length confMask)%nat then NodeUtils.checkGroupSignature lastConfidants confMask (Pool.roundConfirmations_ pool) trustedHash
         else ret true
       else ret true) in
    if negb confirmed then ret (false, pool, c)
    else if (length (Pool.signatures_ pool) =? 0)%nat && (negb isTrusted || negb (currentSequence =? 0)) then ret (false, pool, c)
    else if (Z.of_nat (length (Pool.signatures_ pool)) <? Utils.maskValue (Pool.realTrusted_ pool)) && negb isTrusted && negb (currentSequence =? 0)
    then ret (false, pool, c)
    else
      let mask := Utils.bitsToMask (Pool.numberTrusted_ pool) (Pool.realTrusted_ pool) in
      do! signed :=
        (if 0 <? currentSequence then
           do! (hash, _) := defined (Pool.hash pool) in
           NodeUtils.checkGroupSignature (Pool.confidants_ pool) mask (Pool.signatures_ pool) hash
         else ret true) in
      if negb signed then ret (false, pool, c)
      else updateFromNextBlock pool (updateNonEmptyBlocks pool c).

(** [checkForConsistency] *)
Definition checkForConsistency (pool : Pool.priv) : M bool :=
  if Pool.sequence_ pool =? 0 then ret true
  else if (length (Pool.confidants_ pool) <? length (Pool.signatures_ pool))%nat then ret false
  else if negb (Utils.maskValue (Pool.realTrusted_ pool) =? Z.of_nat (length (Pool.signatures_ pool))) then ret false
  else
    do! (composed, tmp) := defined (Pool.compose (Pool.clone pool)) in
    if negb composed then ret false
    else
      do! tmpCopy := defined (Pool.from_binary (Pool.to_binary tmp)) in
      ret (negb (Pool.sequence_ tmpCopy =? 0)).

(** The deferred block goes to the storage. *)
Definition flush c : M (BlockChain B D) :=
  if Pool.is_valid_ (deferredBlock_ c) then
    do! (saved, deferred, s) := Storage.save begin (deferredBlock_ c) (bc_storage_ c) in
    let c := c <| deferredBlock_ := deferred |> <| bc_storage_ := s |> in
    if saved && (uuid_ c =? 0) && (Pool.sequence_ deferred =? 1) then do! uuid := uuidFromBlock deferred in ret (c <| uuid_ := uuid |>)
    else ret c
  else ret c.

(** The confidants of the block before the one with the number *)
Definition last_confidants (pool_seq : Z) c : M (list bytes * BlockChain B D) :=
  if 1 <? pool_seq then
    if u64 (Pool.sequence_ (deferredBlock_ c) + 1) =? pool_seq then ret (Pool.confidants_ (deferredBlock_ c), c)
    else do! (p, c) := loadBlock (pool_seq - 1) c in ret (Pool.confidants_ p, c)
  else ret ([], c).

(** [recordBlock]: the recorded block, if any, the argument afterwards, the chain and the signals *)
Definition recordBlock (pool : Pool.priv) (isTrusted : bool) c : M (option Pool.priv * Pool.priv * BlockChain B D * list ChainEvent) :=
  let pool_seq := Pool.sequence_ pool in
  if negb (u64 (getLastSeq c + 1) =? pool_seq) then ret (None, pool, c, [])
  else
    do! lastHash := getLastHash c in
    let pool := Pool.set_previous_hash lastHash pool in
    do! consistent := checkForConsistency pool in
    if negb consistent then ret (None, pool, c, [])
    else
      do! consistent := checkForConsistency (deferredBlock_ c) in
      if negb consistent then ret (None, pool, c, [])
      else
        do! c := flush c in
        do! (lastConfidants, c) := last_confidants pool_seq c in
        do! (done, deferred, c) := finalizeBlock pool isTrusted lastConfidants (c <| deferredBlock_ := pool |> <| lastSequence_ := pool_seq |>) in
        let c := c <| deferredBlock_ := deferred |> in
        if done : bool then let pool := Pool.clone deferred in ret (Some pool, pool, c, [StoreBlockEvent pool])
        else ret (None, pool, setBlocksToBeRemoved 1 c, []).

Definition createBlock (pool : Pool.priv) c : M (option Pool.priv * BlockChain B D * list ChainEvent) :=
  do! (r, _, c, events) := recordBlock pool true c in ret (r, c, events).

(** *** Removing the last block *)

Definition removeLastBlock c : M (BlockChain B D * list ChainEvent) :=
  if blocksToBeRemoved_ c =? 0 then ret (c, [])
  else
    let remove_seq := lastSequence_ c in
    let remove_hash := BlockHashes.find remove_seq c in
    do! (pool, c) :=
      (if Pool.is_valid_ (deferredBlock_ c) then ret (deferredBlock_ c, c <| deferredBlock_ := Pool.default |>)
       else do! (p, s) := Storage.pool_remove_last (bc_storage_ c) in ret (p, c <| bc_storage_ := s |>)) in
    let finish remove_hash c :=
      let '(removed, c) := BlockHashes.remove_seq remove_seq c in
      let c := if removed : bool then c else (BlockHashes.remove_hash remove_hash c).2 in
      c <| lastSequence_ := u64 (lastSequence_ c - 1) |> in
    if negb (Pool.is_valid_ pool) then
      if PoolHash.is_empty remove_hash then ret (c, [])
      else
        do! (repaired, s) := Storage.pool_remove_last_repair begin remove_seq remove_hash (bc_storage_ c) in
        let c := c <| bc_storage_ := s |> in
        if negb repaired then ret (c, []) else ret (finish remove_hash c, [])
    else
      do! (h, pool) := defined (Pool.hash pool) in
      let remove_hash := if PoolHash.op_eq remove_hash h then remove_hash else h in
      if Pool.sequence_ pool =? 0 then ret (c, [])
      else
        let c := c <| total_transactions_count_ := u64 (total_transactions_count_ c - Z.of_nat (length (Pool.transactions_ pool))) |> in
        do! (pool, cache) := loadNextBlock pool true c in
        let c := removeWalletsInPoolFromCache pool (c <| walletsCache_ := cache |>) in
        let c := if poolSeq (lastNonEmptyBlock_ c) =? Pool.sequence_ pool then
                   c <| lastNonEmptyBlock_ := default (mkNonEmpty 0 0) (previousNonEmpty_ c !! poolSeq (lastNonEmptyBlock_ c)) |>
                     <| previousNonEmpty_ := delete (Pool.sequence_ pool) (previousNonEmpty_ c) |>
                 else c in
        ret (finish remove_hash c, [RemoveBlockEvent pool]).

(** *** A block from outside *)

(** [storeBlock]: the result, the argument afterwards, the chain and the signals *)
Definition storeBlock (pool : Pool.priv) (bySync : bool) c : M (bool * Pool.priv * BlockChain B D * list ChainEvent) :=
  let lastSequence := getLastSeq c in
  let poolSequence := Pool.sequence_ pool in
  if poolSequence <=? lastSequence then ret (true, pool, c, [])
  else if ((Pool.numberConfirmations_ pool =? 0) || (length (Pool.roundConfirmations_ pool) =? 0)%nat) && (1 <? poolSequence) then ret (false, pool, c, [])
  else if poolSequence =? u64 (lastSequence + 1) then
    do! lastHash := getLastHash c in
    if negb (PoolHash.op_eq (Pool.previous_hash_ pool) lastHash) then
      if PoolHash.is_empty (Pool.previous_hash_ pool) then ret (false, pool, c, [])
      else do! (c, events) := removeLastBlock c in ret (false, pool, c, events)
    else
      do! pool := setTransactionsFees pool in
      do! (pool, c) := (if bySync then ret (pool, (updateWalletIds pool c).2) else addNewWalletsToPool pool c) in
      do! (recorded, pool, c, events) := recordBlock pool false c in
      match recorded with
      | Some _ => ret (true, pool, c <| blocksToBeRemoved_ := 1 |>, events)
      | None =>
          let c := removeWalletsInPoolFromCache pool c in
          let c := if lastSequence_ c =? poolSequence then c <| lastSequence_ := u64 (lastSequence_ c - 1) |> <| deferredBlock_ := Pool.default |> else c in
          ret (false, pool, c, events)
      end
  else
    match OrdMap.find poolSequence (cachedBlocks_ c) with
    | Some _ => ret (true, pool, c, [CachedBlockEvent poolSequence])
    | None => ret (true, pool, c <| cachedBlocks_ := OrdMap.emplace poolSequence (mkBlockMeta pool bySync) (cachedBlocks_ c) |>, [CachedBlockEvent poolSequence])
    end.

(** [testCachedBlocks]; the fuel is the number of cached blocks. *)
Fixpoint test_loop (fuel : nat) (lastSeq : Z) c : M (BlockChain B D * list ChainEvent) :=
  match cachedBlocks_ c with
  | [] => ret (c, [])
  | (seq, data) :: _ =>
      match fuel with
      | O => None
      | S fuel =>
          if seq =? lastSeq then
            do! (ok, _, c, events) := storeBlock (bm_pool data) (by_sync data) c in
            let c := c <| cachedBlocks_ := List.filter (fun kv => negb (kv.1 =? seq)) (cachedBlocks_ c) |> in
            if negb ok then ret (c, events)
            else do! (c, more) := test_loop fuel (u64 (lastSeq + 1)) c in ret (c, events ++ more)
          else ret (c, [])
      end
  end.
Definition testCachedBlocks c : M (BlockChain B D * list ChainEvent) :=
  let lastSeq := u64 (getLastSeq c + 1) in
  let c := c <| cachedBlocks_ := OrdMap.from_lower_bound lastSeq (cachedBlocks_ c) |> in
  test_loop (length (cachedBlocks_ c)) lastSeq c.

(** *** What is missing *)

(** The loop over the cached blocks from the second on: [sequence] is the block before *)
Fixpoint gaps (sequence : Z) (l : list Z) : list (Z * Z) :=
  match l with
  | [] => []
  | first :: l =>
      let sequence := u64 (sequence + 1) in
      if negb (first =? sequence) then (sequence, u64 (first - 1)) :: gaps first l else gaps sequence l
  end.

(** [getRequiredBlocks] in the round *)
Definition getRequiredBlocks (currentRoundNumber : Z) c : list (Z * Z) :=
  let firstSequence := u64 (getLastSeq c + 1) in
  if currentRoundNumber <=? firstSequence then []
  else
    let roundNumber := if 0 <? currentRoundNumber then Z.max firstSequence (currentRoundNumber - 1) else 0 in
    let keys := map fst (cachedBlocks_ c) in
    let vec :=
      match List.filter (fun k => firstSequence <? k) keys with
      | [] => [(firstSequence, roundNumber)]
      | sequence :: rest => (firstSequence, sequence - 1) :: gaps sequence rest
      end in
    match last keys with
    | Some lastCached => if lastCached <? roundNumber then vec ++ [(lastCached, roundNumber)] else vec
    | None => vec
    end.

(** *** More signatures for the deferred block *)

(** [deferredBlockExchange]: what the package brings are its mask and its signatures. *)
Definition deferredBlockExchange (info : PoolMetaInfo) (poolSignatures : list bytes) (newPool : Pool.priv) c : M (bool * BlockChain B D) :=
  let deferred := Pool.set_signatures poolSignatures newPool in
  do! (_, deferred) := defined (Pool.compose deferred) in
  do! (hash, deferred) := defined (Pool.hash deferred) in
  do! c := BlockHashes.update deferred (c <| deferredBlock_ := deferred |>) in
  do! good := NodeUtils.checkGroupSignature (Pool.confidants_ deferred) (pm_realTrustedMask info) poolSignatures hash in
  ret (good, c).

(** [updateLastBlock(rPackage, poolFrom)] *)
Definition updateLastBlockFrom (info : PoolMetaInfo) (poolSignatures : list bytes) (poolFrom : Pool.priv) c : M (bool * BlockChain B D) :=
  if negb (Pool.sequence_ poolFrom =? pm_sequenceNumber info) then ret (false, c)
  else if (length poolSignatures <=? length (Pool.signatures_ poolFrom))%nat then ret (true, c)
  else if negb (PoolHash.op_eq (Pool.previous_hash_ poolFrom) (pm_previousHash info)) then ret (false, c)
  else
    let tmpPool := Pool.set_sequence (Pool.sequence_ poolFrom) Pool.default in
    let tmpPool := Pool.set_previous_hash (Pool.previous_hash_ poolFrom) tmpPool in
    let tmpPool := Pool.add_real_trusted (Utils.maskToBits (pm_realTrustedMask info)) tmpPool in
    let tmpPool := Pool.add_number_trusted (u8 (Z.of_nat (length (pm_realTrustedMask info)))) tmpPool in
    let tmpPool := Pool.setRoundCost (Pool.roundCost_ poolFrom) tmpPool in
    let tmpPool := Pool.set_confidants (Pool.confidants_ poolFrom) tmpPool in
    let tmpPool := foldl (fun p t => (Pool.add_transaction t p).2) tmpPool (Pool.transactions_ poolFrom) in
    let tmpPool := (Pool.add_user_field 0 (uf_of_string (pm_timestamp info)) tmpPool).2 in
    let tmpPool := foldl (fun p s => Pool.add_smart_signature s p) tmpPool (Pool.smartSignatures_ poolFrom) in
    let tmpPool := Pool.edit_newWallets (fun l => l ++ Pool.newWallets_ poolFrom) tmpPool in
    let tmpPool :=
      if 1 <? pm_sequenceNumber info then
        let tmpPool := Pool.add_number_confirmations (Pool.numberConfirmations_ poolFrom) tmpPool in
        let tmpPool := Pool.add_confirmation_mask (Pool.roundConfirmationMask_ poolFrom) tmpPool in
        Pool.add_round_confirmations (Pool.roundConfirmations_ poolFrom) tmpPool
      else tmpPool in
    deferredBlockExchange info poolSignatures tmpPool c.
Definition updateLastBlock (info : PoolMetaInfo) (poolSignatures : list bytes) c : M (bool * BlockChain B D) :=
  updateLastBlockFrom info poolSignatures (deferredBlock_ c) c.

(** *** Start and end *)

(** [writeGenesisBlock]; the text of the first wallet's address is decoded by the Base58 library. *)
Definition genesis_transaction (target : Address) (fee : AmountCommission) : Transaction :=
  Tx.set_innerID 0 (Tx.set_counted_fee fee (Tx.set_max_fee fee (Tx.set_amount (mkAmount 249471071 0)
    (Tx.set_currency 1 (Tx.set_source genesisAddress_ (Tx.set_target target Tx.default)))))).

Definition writeGenesisBlock (target : Address) c : M (BlockChain B D * list ChainEvent) :=
  do! fee := commission_of_double (of_Z 0) in
  let genesis := (Pool.add_transaction (genesis_transaction target fee) Pool.default).2 in
  let genesis := Pool.set_sequence 0 (Pool.set_previous_hash [] genesis) in
  do! (genesis, c) := addNewWalletsToPool genesis c in
  do! (_, genesis, c) := finalizeBlock genesis true [] c in
  ret (c <| deferredBlock_ := genesis |>, [StoreBlockEvent genesis]).

(** [onReadFromDB]: whether to stop *)
Definition onReadFromDB (block : Pool.priv) c : M (bool * BlockChain B D) :=
  let c := c <| lastSequence_ := Pool.sequence_ block |> in
  do! c := (if Pool.sequence_ block =? 1 then do! uuid := uuidFromBlock block in ret (c <| uuid_ := uuid |>) else ret c) in
  let '(done, c) := updateWalletIds block c in
  if negb done then ret (true, c)
  else
    do! c := BlockHashes.update block c in
    let c := updateNonEmptyBlocks block c in
    do! (_, cache) := loadNextBlock block false c in
    ret (false, c <| walletsCache_ := cache |>).

(** [init]; [optdb] is the database that [Storage::open] opens. *)
Definition init (fuel : nat) (optdb : option B) (newBlockchainTop : Z) (target : Address) c : M (bool * BlockChain B D * list ChainEvent) :=
  do! (opened, s, c) := Storage.open begin fuel onReadFromDB (fun _ => false) optdb newBlockchainTop (bc_storage_ c) (c <| lastSequence_ := 0 |>) in
  let totalLoaded := match optdb with Some b => Z.of_nat (length (db_items b)) | None => 0 end in
  let c := c <| bc_storage_ := s |> in
  if negb opened then ret (false, c, [])
  else if negb (newBlockchainTop =? kWrongSequence) then ret (true, c, [])
  else
    let finish c := c <| blocksToBeRemoved_ := u64 (totalLoaded - 1) |> in
    if PoolHash.is_empty (Storage.last_hash s) then
      if negb (Storage.size s =? 0) then ret (false, c, [])
      else do! (c, events) := writeGenesisBlock target c in ret (true, finish c, events)
    else ret (true, finish c, []).

(** [tryFlushDeferredBlock] *)
Definition tryFlushDeferredBlock c : M (BlockChain B D) :=
  let deferred := deferredBlock_ c in
  if Pool.is_valid_ deferred && Pool.read_only_ deferred then
    do! (hash, deferred) := defined (Pool.hash deferred) in
    let mask := Utils.bitsToMask (Pool.numberTrusted_ deferred) (Pool.realTrusted_ deferred) in
    do! good := NodeUtils.checkGroupSignature (Pool.confidants_ deferred) mask (Pool.signatures_ deferred) hash in
    if good : bool then
      do! (saved, deferred, s) := Storage.save begin deferred (bc_storage_ c) in
      ret (c <| bc_storage_ := s |> <| deferredBlock_ := if saved : bool then Pool.default else deferred |>)
    else ret c
  else ret c.

Definition close c : M (BlockChain B D) :=
  do! c := tryFlushDeferredBlock c in ret (c <| bc_storage_ := Storage.close (bc_storage_ c) |>).

End chain.
End BlockChain.
