(* ===== verification/BlockChainSpec.v ===== *)
(** * What the chain of blocks guarantees

    A block joins the chain only behind the last one, with the signatures of its
    confidants under its hash and of the confidants before it under its own
    ([recorded_block_is_signed]), unless it names less than two confirmations
    ([single_confirmation_unchecked]).  Whatever comes, the storage and the
    deferred block stay one linked chain ([chain_stays_linked]).  The blocks that
    are asked for cover all that are missing ([required_blocks_cover]).  A
    block that is taken back from the deferred place gives the balances back
    ([deferred_block_undone]), one that is taken back from the storage does not
    ([stored_block_keeps_balances]). *)

From Stdlib Require Import ZArith Lia Sorted.
From stdpp Require Import base tactics numbers option list gmap sorting.
From S2P Require Import Prelude Effect OrdMap BinStream Amount UserField Crypto DataStream Address Utils Transaction Packet MetaStorage Double Pool.
From S2P Require Import Database Storage StorageSpec ContractRef Conveyer Fee Tail WalletsIds AmountMod WalletsCache BlockChain.

Local Open Scope Z_scope.
Local Open Scope cs_scope.

(** ** Group signatures *)

Module GroupSpec.
Import NodeUtils.
Section group.
Context `{!Cscrypto}.

(** The confidants that a mask trusts *)
Fixpoint trusted_by (mask : bytes) (confidants : list bytes) : list bytes :=
  match mask, confidants with
  | it :: mask, confidant :: confidants => if negb (it =? 255) then confidant :: trusted_by mask confidants else trusted_by mask confidants
  | _, _ => []
  end.

(** Each of them signed the hash. *)
Definition all_signed (mask : bytes) (confidants signatures : list bytes) (hash : bytes) : Prop :=
  Forall2 (fun key signature => verifySignature signature key hash = true) (trusted_by mask confidants) signatures.

Lemma realTrustedValue_cons it mask : realTrustedValue (it :: mask) = if negb (it =? 255) then S (realTrustedValue mask) else realTrustedValue mask.
Proof. unfold realTrustedValue. rewrite filter_cons. destruct (Z.eqb_spec it 255); [by rewrite decide_False by lia|by rewrite decide_True]. Qed.

Lemma check_loop_spec mask confidants signatures hash valid :
  length confidants = length mask -> length signatures = realTrustedValue mask ->
  exists b, check_loop mask confidants signatures hash valid = ret b /\ (b = true <-> valid = true /\ all_signed mask confidants signatures hash).
Proof.
  revert confidants signatures valid. induction mask as [|it mask IH]; intros confidants signatures valid Hc Hs.
  - destruct confidants, signatures; try done. exists valid. split; [done|]. unfold all_signed. cbn. split; [by split|tauto].
  - destruct confidants as [|confidant confidants]; [done|]. injection Hc as Hc. rewrite realTrustedValue_cons in Hs. cbn [check_loop].
    unfold all_signed. cbn [trusted_by tail]. destruct (negb (it =? 255)).
    + destruct signatures as [|signature signatures]; [done|]. injection Hs as Hs.
      destruct (IH confidants signatures (valid && verifySignature signature confidant hash) Hc Hs) as (b & E & Hb). exists b. split; [done|].
      rewrite Hb, andb_true_iff, Forall2_cons. unfold all_signed. tauto.
    + apply (IH confidants signatures valid Hc Hs).
Qed.

Lemma checkGroupSignature_spec confidants mask signatures hash :
  exists b, checkGroupSignature confidants mask signatures hash = ret b /\
    (b = true <-> confidants <> [] /\ length confidants = length mask /\ length signatures = realTrustedValue mask /\ all_signed mask confidants signatures hash).
Proof.
  unfold checkGroupSignature. destruct (Nat.eqb_spec (length confidants) 0) as [E|Hne].
  { exists false. split; [done|]. split; [done|]. intros [Hn _]. by apply nil_length_inv in E. }
  destruct (Nat.eqb_spec (length confidants) (length mask)) as [Hc|Hc]; cbn [negb].
  2: { exists false. split; [done|]. split; [done|]. by intros (_ & E & _). }
  destruct (Nat.eqb_spec (length signatures) (realTrustedValue mask)) as [Hs|Hs]; cbn [negb].
  2: { exists false. split; [done|]. split; [done|]. by intros (_ & _ & E & _). }
  destruct (check_loop_spec mask confidants signatures hash true Hc Hs) as (b & E & Hb). exists b. split; [done|]. rewrite Hb. split.
  - intros [_ Ha]. split_and!; try done. by intros ->.
  - by intros (_ & _ & _ & Ha).
Qed.

(** [checkGroupSignature] as a boolean *)
Lemma group_true confidants mask signatures hash :
  checkGroupSignature confidants mask signatures hash = ret true ->
  confidants <> [] /\ length confidants = length mask /\ length signatures = realTrustedValue mask /\ all_signed mask confidants signatures hash.
Proof. intros E. destruct (checkGroupSignature_spec confidants mask signatures hash) as (b & E' & Hb). rewrite E in E'. injection E' as <-. by apply Hb. Qed.
End group.
End GroupSpec.

Module ChainSpec.
Import BlockChain GroupSpec.

Section spec.
Context `{!Cscrypto, !CscryptoLaws _, !Libm} {B : Type} `{DB : !Database B} {ok : B -> Prop} {rows : B -> gmap Z bytes} {names : B -> gmap bytes Z}.
Context `{!DatabaseLaws DB ok rows names} {D : Type} `{!MultiIndex D}.
Context (begin : list PoolElement -> nat) (invocation_method : bytes -> bytes) (genesisAddress_ : Address).
Context (interrupted : Pool.priv -> bool -> Cache -> Pool.priv * Cache).
Implicit Types (c : BlockChain B D) (p q : Pool.priv).

#[local] Abbreviation finalize := (finalizeBlock begin interrupted).
#[local] Abbreviation record := (recordBlock begin interrupted).
#[local] Abbreviation store := (storeBlock begin invocation_method genesisAddress_ interrupted).
#[local] Abbreviation remove := (removeLastBlock begin).
#[local] Abbreviation load := (BlockChain.loadNextBlock begin).

(** *** Finishing a block *)

Definition confirmation_mask p : bytes := Utils.bitsToMask (Pool.numberConfirmations_ p) (Pool.roundConfirmationMask_ p).
Definition trust_mask p : bytes := Utils.bitsToMask (Pool.numberTrusted_ p) (Pool.realTrusted_ p).

(** The confidants of the block before signed this block's. *)
Definition confirmed p (lastConfidants : list bytes) : Prop :=
  1 < Pool.sequence_ p -> (1 < length (confirmation_mask p))%nat ->
  all_signed (confirmation_mask p) lastConfidants (Pool.roundConfirmations_ p) (trusted_hash (Pool.sequence_ p) (Pool.confidants_ p)) /\
  length lastConfidants = length (confirmation_mask p).

(** The confidants that the block trusts signed its hash. *)
Definition signed p : Prop :=
  0 < Pool.sequence_ p ->
  exists hash p', Pool.hash p = Some (hash, p') /\
    Pool.signatures_ p <> [] /\ Pool.confidants_ p <> [] /\ length (Pool.confidants_ p) = length (trust_mask p) /\
    all_signed (trust_mask p) (Pool.confidants_ p) (Pool.signatures_ p) hash.

(** The parts of the chain that only the storing of blocks changes *)
Record same_store c c' : Prop := {
  same_storage : bc_storage_ c' = bc_storage_ c;
  same_deferred : deferredBlock_ c' = deferredBlock_ c;
  same_last : lastSequence_ c' = lastSequence_ c;
  same_cached : cachedBlocks_ c' = cachedBlocks_ c;
  same_ids : walletIds_ c' = walletIds_ c
}.

Lemma same_store_refl c : same_store c c.
Proof. by split. Qed.
Lemma same_store_trans c1 c2 c3 : same_store c1 c2 -> same_store c2 c3 -> same_store c1 c3.
Proof. intros [] []. split; by etrans. Qed.

Lemma update_same block c c' : BlockHashes.update block c = ret c' -> same_store c c' /\ walletsCache_ c' = walletsCache_ c.
Proof.
  unfold BlockHashes.update. intros ((hash & b) & _ & E)%mthen_ok. cbn beta iota in E.
  destruct (PoolHash.op_eq _ _); [by injection E as <-|]. destruct (PoolHash.is_empty hash); by injection E as <-.
Qed.

Lemma nonempty_same p c : same_store c (updateNonEmptyBlocks p c) /\ walletsCache_ (updateNonEmptyBlocks p c) = walletsCache_ c.
Proof. unfold updateNonEmptyBlocks. destruct (0 <? _); [|by split]. by destruct (_ && _). Qed.

Lemma fromNext_same p c b q c' : updateFromNextBlock begin interrupted p c = ret (b, q, c') -> same_store c c'.
Proof.
  unfold updateFromNextBlock. destruct (load p false c) as [[[pool cache]|e]|] eqn:E; [| |done].
  - intros (c1 & E1 & E2)%mthen_ok. injection E2 as <- <- <-. destruct (update_same _ _ _ E1) as [Hsame _].
    eapply same_store_trans; [|exact Hsame]. by split.
  - destruct (interrupted _ _ _) as [pool cache]. intros [= <- <- <-]. by split.
Qed.

(** What [finalizeBlock] has seen when it succeeds *)
Lemma finalizeBlock_true p isTrusted lastConfidants c q c' :
  finalize p isTrusted lastConfidants c = ret (true, q, c') ->
  exists r cache, Pool.compose p = Some (true, r) /\ confirmed r lastConfidants /\ signed r /\
    load r false (updateNonEmptyBlocks r c) = ret (q, cache) /\ walletsCache_ c' = cache /\ same_store c c'.
Proof.
  unfold finalizeBlock. destruct (Pool.compose p) as [[[] r]|] eqn:Ec; [|done..]. cbn [defined mthen ret negb].
  intros (b & Econf & E)%mthen_ok. destruct b; [|done]. cbn [negb] in E.
  destruct (_ && _) eqn:Enosig in E; [done|]. destruct (_ && _ && _) in E; [done|]. apply mthen_ok in E as (b & Esig & E). destruct b; [|done]. cbn [negb] in E.
  pose proof (fromNext_same _ _ _ _ _ E) as Hsame. destruct (nonempty_same r c) as [Hs1 Hc1].
  unfold updateFromNextBlock in E. destruct (load r false (updateNonEmptyBlocks r c)) as [[[pool cache]|e]|] eqn:El; [| |done].
  2: { by destruct (interrupted _ _ _) in E. }
  apply mthen_ok in E as (c1 & E1 & E). injection E as <- <-. destruct (update_same _ _ _ E1) as [_ Hw].
  exists r, cache. split; [done|]. split; [|split; [|split; [done|split; [done|by eapply same_store_trans]]]].
  - intros Hseq Hlen. rewrite (proj2 (Z.ltb_lt _ _) Hseq) in Econf. fold (confirmation_mask r) in Econf.
    rewrite (proj2 (Nat.ltb_lt _ _) Hlen) in Econf. apply group_true in Econf as (_ & Hl & _ & Ha). done.
  - intros Hseq. rewrite (proj2 (Z.ltb_lt _ _) Hseq) in Esig. apply mthen_ok in Esig as ((hash & r') & Eh & Esig).
    destruct (Pool.hash r) as [[h r1]|] eqn:Ehash; [|done]. injection Eh as <- <-. exists h, r1. split; [done|].
    apply group_true in Esig as (Hne & Hl & Hsig & Ha). split_and!; [|done..].
    intros En. rewrite En in Enosig. cbn [length Nat.eqb andb] in Enosig. apply orb_false_iff in Enosig as [_ E0].
    destruct (Z.eqb_spec (Pool.sequence_ r) 0); [lia|done].
Qed.
(** *** What the operations leave of a block *)

Definition header p :=
  (Pool.sequence_ p, Pool.confidants_ p, Pool.signatures_ p, (Pool.numberTrusted_ p, Pool.realTrusted_ p),
   (Pool.numberConfirmations_ p, Pool.roundConfirmationMask_ p, Pool.roundConfirmations_ p)).

Lemma header_compose p b r : Pool.compose p = Some (b, r) -> header r = header p /\ Pool.previous_hash_ r = Pool.previous_hash_ p.
Proof.
  unfold Pool.compose. destruct (Pool.read_only_ p); [by intros [= _ <-]|]. unfold Pool.priv_compose.
  destruct (Pool.is_valid_ p) eqn:Ev; cbn [negb]; [|by intros [= _ <-]].
  unfold Pool.update_transactions, Pool.update_binary_representation. destruct (Pool.put_pool p false []) as [os p1] eqn:Ep.
  rewrite Pool.put_pool_app in Ep. injection Ep as _ <-. unfold Pool.update_binary_representation_with, Pool.updateHash.
  destruct (_ <? _); [done|]. by intros [= _ <-].
Qed.

Lemma load_pool p inverse c q cache :
  load p inverse c = ret (q, cache) -> exists txs, q = p <| Pool.transactions_ := txs |>.
Proof.
  unfold BlockChain.loadNextBlock, WalletsCache.loadNextBlock. intros ((total & c1) & _ & E)%mthen_ok.
  apply mthen_ok in E as (c2 & _ & E). injection E as <- <-. by eexists.
Qed.

Lemma setFees_pool p q : setTransactionsFees invocation_method p = ret q -> exists txs, q = p <| Pool.transactions_ := txs |>.
Proof. unfold setTransactionsFees. intros (txs & _ & E)%mthen_ok. injection E as <-. by eexists. Qed.

Lemma addWallets_same p c q c' :
  addNewWalletsToPool genesisAddress_ p c = ret (q, c') ->
  header q = header p /\ Pool.previous_hash_ q = Pool.previous_hash_ p /\ exists ids, c' = c <| walletIds_ := ids |>.
Proof.
  unfold addNewWalletsToPool. destruct (Pool.read_only_ p) eqn:Er.
  - intros [= <- <-]. split; [done|]. split; [done|]. exists (walletIds_ c). by destruct c.
  - intros (st & _ & E)%mthen_ok. injection E as <- <-. unfold Pool.edit_newWallets. rewrite Er. split; [done|]. split; [done|]. by eexists.
Qed.

Lemma signed_same p q : header q = header p -> Pool.hash_ q = Pool.hash_ p -> Pool.binary_representation_ q = Pool.binary_representation_ p ->
  Pool.hashingLength_ q = Pool.hashingLength_ p -> signed p -> signed q.
Proof.
  intros Hh E1 E2 E3 Hs Hseq. injection Hh as H1 H2 H3 H4 H5 _ _ _. rewrite H1 in Hseq. destruct (Hs Hseq) as (hash & p' & Eh & R).
  unfold trust_mask in *. rewrite H2, H3, H4, H5. unfold Pool.hash, Pool.updateHash in *. rewrite E1, E2, E3.
  destruct (PoolHash.is_empty (Pool.hash_ p)).
  - destruct (_ <? _); [done|]. injection Eh as Eh _. cbn [upd Pool.hash_] in Eh. eexists _, _. split; [reflexivity|]. cbn [upd Pool.hash_]. by rewrite Eh.
  - injection Eh as <- _. by eexists _, _.
Qed.

Lemma confirmed_same p q lastConfidants : header q = header p -> confirmed p lastConfidants -> confirmed q lastConfidants.
Proof. intros Hh Hc. injection Hh as H1 H2 H3 H4 H5 H6 H7 H8. unfold confirmed, confirmation_mask in *. by rewrite H1, H2, H6, H7, H8. Qed.

(** *** Recording *)

Lemma recordBlock_some p isTrusted c r p' c' events :
  record p isTrusted c = ret (Some r, p', c', events) ->
  exists tip c1 lastConfidants c2 q c3,
    Pool.sequence_ p = u64 (lastSequence_ c + 1) /\ getLastHash c = ret tip /\ flush begin c = ret c1 /\
    last_confidants begin (Pool.sequence_ p) c1 = ret (lastConfidants, c2) /\
    finalize (Pool.set_previous_hash tip p) isTrusted lastConfidants
      (c2 <| deferredBlock_ := Pool.set_previous_hash tip p |> <| lastSequence_ := Pool.sequence_ p |>) = ret (true, q, c3) /\
    c' = c3 <| deferredBlock_ := q |> /\ r = Pool.clone q /\ p' = r /\ events = [StoreBlockEvent r].
Proof.
  unfold recordBlock. destruct (Z.eqb_spec (u64 (getLastSeq c + 1)) (Pool.sequence_ p)) as [Eseq|]; [|done]. cbn [negb].
  intros (tip & Etip & E)%mthen_ok. apply mthen_ok in E as (b1 & _ & E). destruct b1; [|done]. cbn [negb] in E.
  apply mthen_ok in E as (b2 & _ & E). destruct b2; [|done]. cbn [negb] in E. apply mthen_ok in E as (c1 & E1 & E).
  apply mthen_ok in E as ((lc & c2) & E2 & E). apply mthen_ok in E as (((done & q) & c3) & E3 & E).
  destruct done; [|done]. injection E as <- <- <- <-. exists tip, c1, lc, c2, q, c3. split; [by symmetry|done].
Qed.

Lemma flush_deferred c c1 : flush begin c = ret c1 ->
  header (deferredBlock_ c1) = header (deferredBlock_ c) /\ lastSequence_ c1 = lastSequence_ c.
Proof.
  unfold flush. destruct (Pool.is_valid_ (deferredBlock_ c)); [|by intros [= <-]]. intros (((saved & deferred) & s) & E & E')%mthen_ok.
  assert (header deferred = header (deferredBlock_ c)) as Hd.
  { unfold Storage.save in E. destruct (negb _); [by injection E as _ <- _|]. destruct (negb _); [by injection E as _ <- _|].
    apply mthen_ok in E as (d & Ed & E). apply mthen_ok in E as ((saved' & s') & _ & E). injection E as _ <- _.
    destruct (PoolHash.is_empty _); [|by injection Ed as <-]. unfold Pool.updateHash in Ed. destruct (_ <? _); [done|]. by injection Ed as <-. }
  destruct (_ && _) in E'; [|by injection E' as <-]. apply mthen_ok in E' as (uuid & _ & E'). by injection E' as <-.
Qed.

Lemma header_previous p tip : header (Pool.set_previous_hash tip p) = header p.
Proof. unfold Pool.set_previous_hash. by destruct (Pool.read_only_ p). Qed.

(** The block that [recordBlock] has put in the deferred place *)
Lemma recorded_deferred p isTrusted c r p' c' events :
  record p isTrusted c = ret (Some r, p', c', events) ->
  exists lastConfidants c1 c2, flush begin c = ret c1 /\ last_confidants begin (Pool.sequence_ p) c1 = ret (lastConfidants, c2) /\
    header (deferredBlock_ c') = header p /\ signed (deferredBlock_ c') /\ confirmed (deferredBlock_ c') lastConfidants /\
    lastSequence_ c' = Pool.sequence_ p /\ Pool.sequence_ p = u64 (lastSequence_ c + 1) /\ r = Pool.clone (deferredBlock_ c').
Proof.
  intros (tip & c1 & lc & c2 & q & c3 & Eseq & Etip & E1 & E2 & E3 & -> & Er & _)%recordBlock_some. exists lc, c1, c2. split; [done|]. split; [done|].
  apply finalizeBlock_true in E3 as (x & cache & Ec & Hconf & Hsig & El & _ & [_ _ Hlast _ _]).
  apply header_compose in Ec as [Hx _]. destruct (load_pool _ _ _ _ _ El) as (txs & ->). cbn [upd deferredBlock_ lastSequence_].
  assert (header (x <| Pool.transactions_ := txs |>) = header x) as Hq by done. split; [by rewrite Hq, Hx, header_previous|].
  split; [by eapply signed_same|]. split; [by eapply confirmed_same|]. split; [exact Hlast|]. by split.
Qed.

Lemma header_clone p : header (Pool.clone p) = header p.
Proof. done. Qed.

Lemma clone_previous p : Pool.previous_hash_ (Pool.clone p) = Pool.previous_hash_ p.
Proof. done. Qed.

Lemma header_sequence p q : header p = header q -> Pool.sequence_ p = Pool.sequence_ q.
Proof. by intros [=]. Qed.

Lemma clone_signed p : signed p -> signed (Pool.clone p).
Proof. by apply signed_same. Qed.

(** The chain links a block to the one that [getLastHash] gives. *)
Lemma recorded_previous p isTrusted c r p' c' events tip :
  record p isTrusted c = ret (Some r, p', c', events) -> getLastHash c = ret tip -> Pool.previous_hash_ p = tip ->
  Pool.previous_hash_ (deferredBlock_ c') = tip.
Proof.
  intros (tip' & c1 & lc & c2 & q & c3 & _ & Etip & _ & _ & E3 & -> & _)%recordBlock_some Etip' Ep. rewrite Etip' in Etip. injection Etip as <-.
  apply finalizeBlock_true in E3 as (x & cache & Ec & _ & _ & El & _). apply header_compose in Ec as [_ Hx].
  destruct (load_pool _ _ _ _ _ El) as (txs & ->). cbn [upd deferredBlock_ Pool.previous_hash_]. rewrite Hx.
  unfold Pool.set_previous_hash. by destruct (Pool.read_only_ p).
Qed.

(** Without a recorded block there are no signals. *)
Lemma recordBlock_none p isTrusted c p' c' events : record p isTrusted c = ret (None, p', c', events) -> events = [].
Proof.
  unfold recordBlock. destruct (negb (_ =? _)); [by intros [= _ _ <-]|].
  intros (t & _ & E)%mthen_ok. apply mthen_ok in E as (b1 & _ & E). destruct b1; [|by injection E].
  apply mthen_ok in E as (b2 & _ & E). destruct b2; [|by injection E]. cbn [negb] in E.
  apply mthen_ok in E as (d1 & _ & E). apply mthen_ok in E as ((lc & d2) & _ & E). apply mthen_ok in E as (((done & q) & d3) & _ & E).
  destruct done; [done|]. by injection E.
Qed.

(** Removing emits no stored block. *)
Lemma remove_events c c' events r : remove c = ret (c', events) -> StoreBlockEvent r ∉ events.
Proof.
  unfold removeLastBlock. destruct (blocksToBeRemoved_ c =? 0); [intros [= <- <-]; apply not_elem_of_nil|].
  intros ((pool & c1) & _ & E)%mthen_ok. destruct (Pool.is_valid_ pool); cbn [negb] in E.
  - apply mthen_ok in E as ((h & pool') & _ & E). destruct (Pool.sequence_ pool' =? 0); [injection E as <- <-; apply not_elem_of_nil|].
    apply mthen_ok in E as ((q & cache) & _ & E). injection E as _ <-. by intros [=]%list_elem_of_singleton.
  - destruct (PoolHash.is_empty _); [injection E as <- <-; apply not_elem_of_nil|].
    apply mthen_ok in E as ((repaired & s) & _ & E). destruct repaired; injection E as _ <-; apply not_elem_of_nil.
Qed.

(** A block that [storeBlock] announces went through [recordBlock]. *)
Lemma storeBlock_announced p bySync c ok' p' c' events r :
  store p bySync c = ret (ok', p', c', events) -> StoreBlockEvent r ∈ events ->
  exists q c1 q' c2, record q false c1 = ret (Some r, q', c2, events) /\ c' = (c2 <| blocksToBeRemoved_ := 1 |>) /\ ok' = true /\
    header q = header p /\ Pool.previous_hash_ q = Pool.previous_hash_ p /\ getLastHash c = ret (Pool.previous_hash_ p) /\
    lastSequence_ c < Pool.sequence_ p /\
    (1 < Pool.sequence_ p -> Pool.numberConfirmations_ p <> 0 /\ Pool.roundConfirmations_ p <> []) /\
    (exists ids, c1 = (c <| walletIds_ := ids |>)).
Proof.
  unfold storeBlock. destruct (Z.leb_spec (Pool.sequence_ p) (getLastSeq c)) as [|Hseq]; [intros [= <- <- <- <-] []%not_elem_of_nil|].
  destruct (_ && (1 <? Pool.sequence_ p)) eqn:Econf; [intros [= <- <- <- <-] []%not_elem_of_nil|].
  destruct (Pool.sequence_ p =? _).
  2: { destruct (OrdMap.find _ _); intros [= <- <- <- <-] [=]%list_elem_of_singleton. }
  intros (tip & Etip & E)%mthen_ok. unfold PoolHash.op_eq in E. destruct (bool_decide_reflect (Pool.previous_hash_ p = tip)) as [Ep|_]; cbn [negb] in E.
  2: { destruct (PoolHash.is_empty _); [injection E as <- <- <- <-; by intros []%not_elem_of_nil|].
       apply mthen_ok in E as ((c1 & ev) & Er & E). injection E as <- <- <- <-. intros Hin. by apply (remove_events _ _ _ r) in Er. }
  apply mthen_ok in E as (p1 & E1 & E). apply mthen_ok in E as ((p2 & c1) & E2 & E). apply mthen_ok in E as ((((rec & q') & c2) & ev) & E3 & E).
  apply setFees_pool in E1 as (txs & ->).
  assert (header p2 = header p /\ Pool.previous_hash_ p2 = Pool.previous_hash_ p /\ exists ids, c1 = (c <| walletIds_ := ids |>)) as (Hh & Hp & Hc).
  { destruct bySync; [injection E2 as <- <-; split; [done|]; split; [done|]; unfold updateWalletIds; destruct (WalletsIds.updateWalletIds _ _); by eexists|].
    apply addWallets_same in E2 as (Hh & Hp & ids & ->). split; [by rewrite Hh|]. split; [by rewrite Hp|]. by eexists. }
  destruct rec as [r'|].
  - injection E as <- <- <- <-. intros Hin. pose proof E3 as E4. apply recordBlock_some in E4 as (t & d1 & lc & d2 & q & d3 & _ & _ & _ & _ & _ & _ & _ & _ & Eev).
    rewrite Eev in Hin. apply list_elem_of_singleton in Hin as [= <-]. exists p2, c1, q', c2. rewrite Etip, Ep. split_and!; try done; [by rewrite Hp|].
    intros Hgt. rewrite (proj2 (Z.ltb_lt _ _) Hgt), andb_true_r in Econf. apply orb_false_iff in Econf as [E5 E6].
    split; [by apply Z.eqb_neq|]. intros En. by rewrite En in E6.
  - injection E as _ _ _ <-. rewrite (recordBlock_none _ _ _ _ _ _ E3). by intros []%not_elem_of_nil.
Qed.

(** The confidants of the block before the one with the number: of the deferred block, or of a stored one *)
Definition previous_confidants c (sequence : Z) (confidants : list bytes) : Prop :=
  if u64 (Pool.sequence_ (deferredBlock_ c) + 1) =? sequence then confidants = Pool.confidants_ (deferredBlock_ c)
  else exists ids c1 q c2, flush begin (c <| walletIds_ := ids |>) = ret c1 /\ loadBlock begin (sequence - 1) c1 = ret (q, c2) /\ confidants = Pool.confidants_ q.

Lemma last_confidants_previous c ids c1 sequence lastConfidants c2 :
  flush begin (c <| walletIds_ := ids |>) = ret c1 -> last_confidants begin sequence c1 = ret (lastConfidants, c2) -> 1 < sequence ->
  previous_confidants c sequence lastConfidants.
Proof.
  intros E1 E2 Hseq. unfold last_confidants in E2. rewrite (proj2 (Z.ltb_lt _ _) Hseq) in E2. destruct (flush_deferred _ _ E1) as [Hh _].
  cbn [upd deferredBlock_] in Hh. injection Hh as H1 H2 _ _ _ _ _ _. unfold previous_confidants. rewrite H1, H2 in E2.
  destruct (_ =? sequence); [by injection E2 as <- _|]. apply mthen_ok in E2 as ((q & c3) & E & E2). injection E2 as <- _.
  exists ids, c1, q, c3. done.
Qed.

(** C5: A block that storeBlock announces as stored continues the chain: it has the next number
    and the hash of the last block, the confidants that its mask trusts signed its hash, and, when
    its confirmation mask has two bits or more, those whom that mask marks among the confidants of
    the previous block (of the deferred block when it has the number before, else of what
    loadBlock gives for that number, cached or not) signed its list of confidants; it is the
    deferred block now. *)
Theorem recorded_block_is_signed p bySync c ok' p' c' events r :
  store p bySync c = ret (ok', p', c', events) -> StoreBlockEvent r ∈ events ->
  ok' = true /\ r = Pool.clone (deferredBlock_ c') /\ lastSequence_ c' = Pool.sequence_ p /\ Pool.sequence_ p = u64 (lastSequence_ c + 1) /\
  header r = header p /\ getLastHash c = ret (Pool.previous_hash_ r) /\ signed r /\
  (1 < Pool.sequence_ p -> Pool.numberConfirmations_ p <> 0 /\ Pool.roundConfirmations_ p <> [] /\
    exists lastConfidants, previous_confidants c (Pool.sequence_ p) lastConfidants /\ confirmed r lastConfidants).
Proof.
  intros E Hin. destruct (storeBlock_announced _ _ _ _ _ _ _ _ E Hin) as (q & c1 & q' & c2 & Erec & -> & -> & Hh & Hp & Etip & Hseq & Hconf & ids & ->).
  pose proof (recorded_previous _ _ _ _ _ _ _ _ Erec Etip Hp) as Hprev.
  apply recorded_deferred in Erec as (lc & d1 & d2 & Ed1 & Ed2 & Hdh & Hsig & Hcf & Hlast & Hnext & ->).
  rewrite (header_sequence _ _ Hh) in *. cbn [upd deferredBlock_ lastSequence_]. split_and!; try done.
  - by rewrite header_clone, Hdh.
  - by rewrite clone_previous, Hprev.
  - by apply clone_signed.
  - intros Hgt. destruct (Hconf Hgt) as [Hn Hr]. split; [done|]. split; [done|]. exists lc.
    split; [by eapply last_confidants_previous|]. by apply (confirmed_same (deferredBlock_ c2)).
Qed.

(** *** Less than two confirmations *)

Lemma length_bitsToMask size mask : length (Utils.bitsToMask size mask) = Z.to_nat size.
Proof. apply Utils.length_bits_loop. Qed.

(** A block that names at most one confirmation is finished without a look at the confidants of
    the block before: the result is the same whoever they are. *)
Theorem single_confirmation_unchecked p isTrusted confidants confidants' c :
  0 <= Pool.numberConfirmations_ p <= 1 ->
  finalize p isTrusted confidants c = finalize p isTrusted confidants' c.
Proof.
  intros Hn. unfold finalizeBlock. destruct (Pool.compose p) as [[b q]|] eqn:Ec; [|done]. cbn [defined mthen ret].
  apply header_compose in Ec as [Hh _]. injection Hh as _ _ _ _ _ Hnum _ _. rewrite Hnum.
  replace (1 <? _)%nat with false; [done|]. symmetry. apply Nat.ltb_ge. rewrite length_bitsToMask. lia.
Qed.

(** *** The chain *)

#[local] Abbreviation stored := (StorageSpec.stored (ok := ok) (rows := rows) (names := names)).
#[local] Abbreviation copy := StorageSpec.copy.
#[local] Abbreviation hash_of := StorageSpec.hash_of.

(** The storage and the deferred block are one chain. *)
Record holds_chain c (chain : list Pool.priv) : Prop := {
  held_parts : exists saved, stored (bc_storage_ c) saved /\
    (Pool.is_valid_ (deferredBlock_ c) = false /\ chain = saved \/
     exists p, chain = saved ++ [p] /\ StorageSpec.next saved p /\ copy p (deferredBlock_ c));
  held_last : lastSequence_ c = Z.of_nat (length chain) - 1;
  held_some : chain <> [];
  held_short : Z.of_nat (length chain) < 4294967294
}.

Lemma held_tip c chain tip : holds_chain c chain -> getLastHash c = ret tip -> tip = StorageSpec.tip chain.
Proof.
  intros [(saved & Hs & Hd) _ _ _] E. unfold getLastHash in E. destruct Hd as [[Hv ->]|(p & -> & Hn & Hc)].
  - rewrite Hv in E. injection E as <-. apply (StorageSpec.stored_last _ _ Hs).
  - rewrite (StorageSpec.copy_valid _ _ Hc), (StorageSpec.hash_copy _ _ Hc) in E. injection E as <-. by rewrite StorageSpec.tip_snoc.
Qed.

Lemma held_linked c chain : holds_chain c chain -> StorageSpec.linked chain.
Proof.
  intros [(saved & Hs & Hd) _ _ Hlen]. destruct Hd as [[_ ->]|(p & -> & [] & _)]; [apply (StorageSpec.stored_linked _ _ Hs)|].
  apply StorageSpec.linked_snoc; [apply (StorageSpec.stored_linked _ _ Hs)|assumption..].
Qed.

Lemma linked_at_last chain p : StorageSpec.linked (chain ++ [p]) -> Pool.sequence_ p = Z.of_nat (length chain).
Proof. intros Hl. destruct (StorageSpec.linked_at _ Hl (length chain) p) as [Hseq _]; [by rewrite list_lookup_middle|done]. Qed.

Lemma held_size c chain : holds_chain c chain -> getSize c = Z.of_nat (length chain).
Proof.
  intros [(saved & Hs & Hd) _ _ _]. pose proof (StorageSpec.stored_count _ _ Hs) as Hc. unfold getSize, Storage.size. destruct Hd as [[-> ->]|(p & -> & _ & Hcp)].
  - done.
  - rewrite (StorageSpec.copy_valid _ _ Hcp), Hc, length_app. cbn [length]. lia.
Qed.

(** [flush] writes the deferred block behind what is stored. *)
Lemma flush_writes c c1 saved p :
  stored (bc_storage_ c) saved -> StorageSpec.next saved p -> copy p (deferredBlock_ c) -> flush begin c = ret c1 -> stored (bc_storage_ c1) (saved ++ [p]).
Proof.
  intros Hs Hn Hc E. unfold flush in E. rewrite (StorageSpec.copy_valid _ _ Hc) in E. destruct (StorageSpec.next_saved begin _ _ _ _ Hs Hn Hc) as (s' & Es & Hs' & _).
  destruct (StorageSpec.stored_db _ _ Hs) as (b & Eb & Hb & _).
  unfold Storage.save, Storage.isOpen in E. rewrite (StorageSpec.copy_valid _ _ Hc), (StorageSpec.opened_ok _ b Eb Hb), (StorageSpec.copy_hash _ _ Hc), StorageSpec.hash_of_nonempty in E.
  cbn [negb mthen ret] in E. rewrite Es in E. cbn [mthen ret] in E. destruct (_ && _) in E; [apply mthen_ok in E as (uuid & _ & E)|]; by injection E as <-.
Qed.

Lemma flush_stores c c1 chain : holds_chain c chain -> flush begin c = ret c1 -> stored (bc_storage_ c1) chain.
Proof.
  intros [(saved & Hs & Hd) _ _ _] E. destruct Hd as [[Hv ->]|(p & -> & Hn & Hc)]; [|by eapply flush_writes].
  unfold flush in E. rewrite Hv in E. by injection E as <-.
Qed.

(** Reading a block changes at most the storage's cache. *)
Lemma loadBlock_stores sequence c q c1 chain :
  stored (bc_storage_ c) chain -> loadBlock begin sequence c = ret (q, c1) ->
  stored (bc_storage_ c1) chain /\ cachedBlocks_ c1 = cachedBlocks_ c.
Proof.
  intros Hs. unfold loadBlock. destruct (_ && _); [by intros [= _ <-]|]. destruct (getLastSeq c <? sequence); [by intros [= _ <-]|].
  intros ((x & s) & E & E')%mthen_ok. injection E' as _ <-. cbn [upd bc_storage_ cachedBlocks_]. split; [|done]. unfold Storage.pool_load in E.
  destruct (Storage.opened _) as [b|]; [|by injection E as _ <-]. destruct (Storage.find_seq _ _); [by injection E as _ <-|].
  destruct (db_get_no _ b); [|by injection E as _ <-]. apply mthen_ok in E as (res & _ & E). apply mthen_ok in E as ((h & res') & _ & E).
  injection E as _ <-. by apply StorageSpec.stored_insert.
Qed.

Lemma last_confidants_stores sequence c lc c1 chain :
  stored (bc_storage_ c) chain -> last_confidants begin sequence c = ret (lc, c1) ->
  stored (bc_storage_ c1) chain /\ cachedBlocks_ c1 = cachedBlocks_ c.
Proof.
  intros Hs. unfold last_confidants. destruct (1 <? sequence); [|by intros [= _ <-]]. destruct (_ =? sequence); [by intros [= _ <-]|].
  intros ((q & c2) & E & E')%mthen_ok. injection E' as _ <-. by eapply loadBlock_stores.
Qed.

Lemma flush_cached c c1 : flush begin c = ret c1 -> cachedBlocks_ c1 = cachedBlocks_ c.
Proof.
  unfold flush. destruct (Pool.is_valid_ _); [|by intros [= <-]]. intros (((saved & deferred) & s) & _ & E)%mthen_ok.
  destruct (_ && _) in E; [apply mthen_ok in E as (uuid & _ & E)|]; by injection E as <-.
Qed.

(** Whatever [finalizeBlock] finds, it leaves the storage and the numbers. *)
Lemma finalizeBlock_same p isTrusted lc c b q c' : finalize p isTrusted lc c = ret (b, q, c') -> same_store c c'.
Proof.
  unfold finalizeBlock. intros ((composed & r) & _ & E)%mthen_ok. destruct composed; [|injection E as _ _ <-; apply same_store_refl]. cbn [negb] in E.
  apply mthen_ok in E as (conf & _ & E). destruct conf; [|injection E as _ _ <-; apply same_store_refl]. cbn [negb] in E.
  destruct (_ && _) in E; [injection E as _ _ <-; apply same_store_refl|]. destruct (_ && _ && _) in E; [injection E as _ _ <-; apply same_store_refl|].
  apply mthen_ok in E as (sig & _ & E). destruct sig; [|injection E as _ _ <-; apply same_store_refl]. cbn [negb] in E.
  eapply same_store_trans; [apply nonempty_same|]. by eapply fromNext_same.
Qed.

(** A block that another node has composed *)
Record received p q : Prop := {
  received_wf : Pool.wf_pool p;
  received_copy : copy p q;
  received_frozen : Pool.read_only_ q = true
}.

Lemma received_transactions p q txs : received p q -> received p (q <| Pool.transactions_ := txs |>).
Proof. intros [? [] ?]. split; [done|by split|done]. Qed.

Lemma received_next chain p q c :
  holds_chain c chain -> received p q -> Pool.sequence_ q = u64 (lastSequence_ c + 1) -> Pool.previous_hash_ q = StorageSpec.tip chain ->
  hash_of p ∉ map hash_of chain -> StorageSpec.next chain p.
Proof.
  intros [_ Hl _ Hlen] [Hw Hc _] Hseq Hp Hf. split; [done| | |done|done].
  - rewrite <- (StorageSpec.copy_sequence _ _ Hc), Hseq, Hl. rewrite uwrap_id by (unfold in_u; lia). lia.
  - by rewrite <- (StorageSpec.copy_previous _ _ Hc).
Qed.

(** What [recordBlock] makes of a received block *)
Lemma record_holds c chain p q isTrusted rec q' c' events :
  holds_chain c chain -> received p q -> Pool.previous_hash_ q = StorageSpec.tip chain -> hash_of p ∉ map hash_of chain ->
  Z.of_nat (length chain) < 4294967293 -> record q isTrusted c = ret (rec, q', c', events) ->
  cachedBlocks_ c' = cachedBlocks_ c /\
  match rec with
  | Some _ => holds_chain c' (chain ++ [p])
  | None => holds_chain c' chain /\ lastSequence_ c' = lastSequence_ c \/ stored (bc_storage_ c') chain /\ lastSequence_ c' = Z.of_nat (length chain)
  end.
Proof.
  intros Hh Hr Hp Hf Hlen. pose proof (held_last _ _ Hh) as Hl. unfold recordBlock.
  destruct (Z.eqb_spec (u64 (getLastSeq c + 1)) (Pool.sequence_ q)) as [Es|_]; cbn [negb]; [|by intros [= <- _ <- _]; split; [|left]].
  pose proof (received_next _ _ _ _ Hh Hr (eq_sym Es) Hp Hf) as Hn.
  intros (t & _ & E)%mthen_ok. apply mthen_ok in E as (b1 & _ & E). destruct b1; [|by injection E as <- _ <- _; split; [|left]].
  apply mthen_ok in E as (b2 & _ & E). destruct b2; [|by injection E as <- _ <- _; split; [|left]]. cbn [negb] in E.
  apply mthen_ok in E as (c1 & E1 & E). pose proof (flush_stores _ _ _ Hh E1) as Hs1.
  apply mthen_ok in E as ((lc & c2) & E2 & E). destruct (last_confidants_stores _ _ _ _ _ Hs1 E2) as [Hs2 Hc2].
  apply mthen_ok in E as (((done & d) & c3) & E3 & E). destruct (finalizeBlock_same _ _ _ _ _ _ _ E3) as [Hs3 _ Hl3 Hc3 _].
  cbn [upd bc_storage_ cachedBlocks_ lastSequence_] in Hs3, Hl3, Hc3.
  assert (Pool.sequence_ q = Z.of_nat (length chain)) as Eq by (rewrite (StorageSpec.copy_sequence _ _ (received_copy _ _ Hr)); apply Hn).
  assert (cachedBlocks_ c3 = cachedBlocks_ c) as Ec by (by rewrite Hc3, Hc2, (flush_cached _ _ E1)).
  destruct done; injection E as <- _ <- _.
  - split; [exact Ec|]. apply finalizeBlock_true in E3 as (x & cache & Ex & _ & _ & El & _). destruct (load_pool _ _ _ _ _ El) as (txs & ->).
    assert (x = q) as ->.
    { unfold Pool.set_previous_hash in Ex. rewrite (received_frozen _ _ Hr) in Ex. unfold Pool.compose in Ex. rewrite (received_frozen _ _ Hr) in Ex. by injection Ex. }
    split; cbn [upd bc_storage_ deferredBlock_ lastSequence_].
    + exists chain. rewrite Hs3. split; [done|]. right. exists p. split; [done|]. split; [done|]. apply (received_transactions _ _ txs Hr).
    + rewrite Hl3, Eq, length_app. cbn [length]. lia.
    + by destruct chain.
    + rewrite length_app. cbn [length]. lia.
  - assert (cachedBlocks_ (setBlocksToBeRemoved 1 (c3 <| deferredBlock_ := d |>)) = cachedBlocks_ c3 /\
      bc_storage_ (setBlocksToBeRemoved 1 (c3 <| deferredBlock_ := d |>)) = bc_storage_ c3 /\
      lastSequence_ (setBlocksToBeRemoved 1 (c3 <| deferredBlock_ := d |>)) = lastSequence_ c3) as (F1 & F2 & F3)
      by (unfold setBlocksToBeRemoved; by destruct (0 <? _)).
    rewrite F1, F2, F3. split; [exact Ec|]. right. rewrite Hs3, Hl3, Eq. done.
Qed.

(** *** Removing and storing *)

Lemma hash_sequence p h q : Pool.hash p = Some (h, q) -> Pool.sequence_ q = Pool.sequence_ p.
Proof.
  unfold Pool.hash, Pool.updateHash. destruct (PoolHash.is_empty _); [|by intros [= _ <-]]. destruct (_ <? _); [done|]. by intros [= _ <-].
Qed.

(** What the removing of the hashes and the counting down leave *)
Lemma remove_hashes rs rh c (r := BlockHashes.remove_seq rs c) (d := if r.1 then r.2 else (BlockHashes.remove_hash rh r.2).2) :
  bc_storage_ d = bc_storage_ c /\ deferredBlock_ d = deferredBlock_ c /\ cachedBlocks_ d = cachedBlocks_ c /\ lastSequence_ d = lastSequence_ c /\
  walletsCache_ d = walletsCache_ c /\ walletIds_ d = walletIds_ c /\ total_transactions_count_ d = total_transactions_count_ c.
Proof.
  subst d r. unfold BlockHashes.remove_seq. destruct (PoolHash.is_empty _); [|done]. cbn [fst snd]. unfold BlockHashes.remove_hash. by destruct (_ =? _).
Qed.

(** The block that [removeLastBlock] takes, and the chain without it *)
Definition taken c : M (Pool.priv * BlockChain B D) :=
  if Pool.is_valid_ (deferredBlock_ c) then ret (deferredBlock_ c, c <| deferredBlock_ := Pool.default |>)
  else do! (p, s) := Storage.pool_remove_last (bc_storage_ c) in ret (p, c <| bc_storage_ := s |>).

Definition uncounted q c : BlockChain B D :=
  c <| total_transactions_count_ := u64 (total_transactions_count_ c - Z.of_nat (length (Pool.transactions_ q))) |>.

(** Its effect: on what is stored, on the wallets and on the numbers *)
Record removed_from c1 q r cache c' : Prop := {
  removed_storage : bc_storage_ c' = bc_storage_ c1;
  removed_deferred : deferredBlock_ c' = deferredBlock_ c1;
  removed_cached : cachedBlocks_ c' = cachedBlocks_ c1;
  removed_last : lastSequence_ c' = u64 (lastSequence_ c1 - 1);
  removed_wallets : walletsCache_ c' = cache;
  removed_ids : walletIds_ c' = WalletsIds.removeWalletsInPoolFromCache r (walletIds_ c1);
  removed_count : total_transactions_count_ c' = total_transactions_count_ (uncounted q c1)
}.

Lemma remove_run c c1 pool h q :
  blocksToBeRemoved_ c <> 0 -> taken c = ret (pool, c1) -> Pool.is_valid_ pool = true -> Pool.sequence_ pool <> 0 -> Pool.hash pool = Some (h, q) ->
  match load q true (uncounted q c1) with
  | Some (Ok (r, cache)) => exists c', remove c = ret (c', [RemoveBlockEvent r]) /\ removed_from c1 q r cache c'
  | Some (Throw e) => remove c = Some (Throw e)
  | None => remove c = None
  end.
Proof.
  intros Hb E Hv Hseq Eh. unfold removeLastBlock. unfold taken in E. rewrite (proj2 (Z.eqb_neq _ _) Hb), E. cbn [mthen ret]. rewrite Hv. cbn [negb].
  rewrite Eh. cbn [defined mthen ret]. rewrite (hash_sequence _ _ _ Eh), (proj2 (Z.eqb_neq _ _) Hseq). fold (uncounted q c1).
  destruct (load q true (uncounted q c1)) as [[[r cache]|e]|]; cbn [mthen ret]; [|done..]. eexists. split; [reflexivity|].
  match goal with |- context [BlockHashes.remove_seq ?rs ?d] => set (c2 := d); destruct (remove_hashes rs (if PoolHash.op_eq (BlockHashes.find (lastSequence_ c) c) h then BlockHashes.find (lastSequence_ c) c else h) c2) as (F1 & F2 & F3 & F4 & F5 & F6 & F7);
    destruct (BlockHashes.remove_seq rs c2) as [removed c3] eqn:E1 end.
  cbn [fst snd] in *.
  assert (bc_storage_ c2 = bc_storage_ c1 /\ deferredBlock_ c2 = deferredBlock_ c1 /\ cachedBlocks_ c2 = cachedBlocks_ c1 /\ lastSequence_ c2 = lastSequence_ c1 /\
    walletsCache_ c2 = cache /\ walletIds_ c2 = WalletsIds.removeWalletsInPoolFromCache r (walletIds_ c1) /\
    total_transactions_count_ c2 = total_transactions_count_ (uncounted q c1)) as (G1 & G2 & G3 & G4 & G5 & G6 & G7) by (subst c2; by destruct (_ =? _)).
  split; cbn [upd bc_storage_ deferredBlock_ cachedBlocks_ lastSequence_ walletsCache_ walletIds_ total_transactions_count_]; congruence.
Qed.

(** The rest of [removeLastBlock] takes one off the number of the last block and keeps what is stored. *)
Lemma remove_rest c c1 pool c' events :
  blocksToBeRemoved_ c <> 0 -> Pool.sequence_ pool <> 0 -> Pool.is_valid_ pool = true -> taken c = ret (pool, c1) -> remove c = ret (c', events) ->
  exists q r cache, removed_from c1 q r cache c'.
Proof.
  intros Hb Hseq Hv E E'. destruct (Pool.hash pool) as [[h q]|] eqn:Eh.
  - pose proof (remove_run c c1 pool h q Hb E Hv Hseq Eh) as R. destruct (load _ _ _) as [[[r cache]|e]|]; [|by rewrite R in E'..].
    destruct R as (c2 & E2 & R). rewrite E2 in E'. injection E' as <- _. by exists q, r, cache.
  - unfold removeLastBlock in E'. unfold taken in E. rewrite (proj2 (Z.eqb_neq _ _) Hb), E in E'. cbn [mthen ret] in E'. rewrite Hv in E'. cbn [negb] in E'. by rewrite Eh in E'.
Qed.

(** Unless nothing may be removed, there has to be a block above the genesis. *)
Definition may_remove c : Prop := 0 < lastSequence_ c \/ blocksToBeRemoved_ c = 0.

Lemma remove_holds c chain c' events :
  holds_chain c chain -> may_remove c -> remove c = ret (c', events) ->
  cachedBlocks_ c' = cachedBlocks_ c /\ exists chain', holds_chain c' chain' /\ (blocksToBeRemoved_ c = 0 /\ chain' = chain \/ exists p, chain = chain' ++ [p]).
Proof.
  intros Hh Hmay E. destruct (decide (blocksToBeRemoved_ c = 0)) as [E0|Hne].
  { unfold removeLastBlock in E. rewrite (proj2 (Z.eqb_eq _ _) E0) in E. injection E as <- _. split; [done|]. exists chain. split; [done|by left]. }
  destruct Hmay as [Hpos|]; [|done]. pose proof Hh as [(saved & Hs & Hd) Hl Hne' Hlen]. destruct Hd as [[Hv <-]|(p & -> & Hn & Hc)].
  - destruct chain as [|p saved _] using rev_ind; [done|]. destruct (StorageSpec.remove_pops _ _ _ Hs) as (q & s & Er & Hs' & Hm & _).
    rewrite length_app in Hl, Hlen. cbn [length] in Hl, Hlen.
    destruct (StorageSpec.linked_at _ (held_linked _ _ Hh) (length saved) p) as [Hseq _]; [by rewrite list_lookup_middle|].
    destruct (remove_rest c (c <| bc_storage_ := s |>) q c' events) as (q' & r & cache & [F1 F2 F3 F4 _ _ _]); [done|..|exact E|].
    { rewrite (StorageSpec.meta_sequence _ _ Hm), Hseq. lia. } { apply Hm. } { unfold taken. rewrite Hv, Er. done. }
    cbn [upd bc_storage_ deferredBlock_ cachedBlocks_ lastSequence_] in *. split; [done|]. exists saved. split; [|right; by exists p]. split.
    + exists saved. rewrite F1, F2. split; [done|]. by left.
    + rewrite F4, Hl. rewrite uwrap_id by (unfold in_u; lia). lia.
    + intros ->. cbn in Hl. lia.
    + lia.
  - rewrite length_app in Hl, Hlen. cbn [length] in Hl, Hlen.
    destruct (remove_rest c (c <| deferredBlock_ := Pool.default |>) (deferredBlock_ c) c' events) as (q' & r & cache & [F1 F2 F3 F4 _ _ _]); [done|..|exact E|].
    { rewrite (StorageSpec.copy_sequence _ _ Hc), (StorageSpec.next_sequence _ _ Hn). lia. } { apply Hc. } { unfold taken. by rewrite (StorageSpec.copy_valid _ _ Hc). }
    cbn [upd bc_storage_ deferredBlock_ cachedBlocks_ lastSequence_] in *. split; [done|]. exists saved. split; [|right; by exists p]. split.
    + exists saved. rewrite F1, F2. split; [done|]. by left.
    + rewrite F4, Hl. rewrite uwrap_id by (unfold in_u; lia). lia.
    + intros ->. cbn in Hl. lia.
    + lia.
Qed.

(** Parts of the chain that do not say what is stored *)
Lemma holds_ext c c' chain :
  bc_storage_ c' = bc_storage_ c -> deferredBlock_ c' = deferredBlock_ c -> lastSequence_ c' = lastSequence_ c -> holds_chain c chain -> holds_chain c' chain.
Proof. intros E1 E2 E3 [? ? ? ?]. split; [by rewrite E1, E2|by rewrite E3|done|done]. Qed.

(** Storing [q] takes nothing back from the genesis block alone: with only the genesis block, and
    when something may be removed, it is not a block of the number 1 that names another hash. *)
Definition spares_genesis c q : Prop :=
  may_remove c \/ Pool.sequence_ q <> 1 \/ PoolHash.is_empty (Pool.previous_hash_ q) = true \/ getLastHash c = ret (Pool.previous_hash_ q).

Lemma spares_cached c l q : spares_genesis c q -> spares_genesis (c <| cachedBlocks_ := l |>) q.
Proof. done. Qed.

Lemma store_holds c chain p q bySync ok' q' c' events :
  holds_chain c chain -> spares_genesis c q -> received p q -> (Pool.sequence_ p = Z.of_nat (length chain) -> hash_of p ∉ map hash_of chain) ->
  Z.of_nat (length chain) < 4294967293 -> store q bySync c = ret (ok', q', c', events) ->
  (ok' = true -> forall b, spares_genesis c b -> spares_genesis c' b) /\
  (cachedBlocks_ c' = cachedBlocks_ c \/ exists seq, cachedBlocks_ c' = OrdMap.emplace seq (mkBlockMeta q bySync) (cachedBlocks_ c)) /\
  exists chain', holds_chain c' chain' /\ (chain' = chain \/ (exists r, chain = chain' ++ [r]) \/ chain' = chain ++ [p]).
Proof.
  intros Hh Hmay Hr Hf Hlen. pose proof (held_last _ _ Hh) as Hl. unfold storeBlock.
  destruct (Pool.sequence_ q <=? getLastSeq c); [by intros [= _ _ <- _]; split; [|split; [left|exists chain; split; [|left]]]|].
  destruct (_ && (1 <? Pool.sequence_ q)); [by intros [= <- _ <- _]; split; [|split; [left|exists chain; split; [|left]]]|].
  destruct (Z.eqb_spec (Pool.sequence_ q) (u64 (getLastSeq c + 1))) as [Es|_].
  2: { destruct (OrdMap.find _ _); intros [= _ _ <- _]; (split; [done|]); (split; [|exists chain; split; [by eapply holds_ext; [..|exact Hh]|by left]]); [by left|].
       right. by eexists. }
  assert (Pool.sequence_ q = Z.of_nat (length chain)) as Eq.
  { rewrite Es. unfold getLastSeq. rewrite Hl. rewrite uwrap_id by (unfold in_u; pose proof (held_some _ _ Hh); destruct chain; cbn in *; [done|lia]). lia. }
  rewrite (StorageSpec.copy_sequence _ _ (received_copy _ _ Hr)) in Eq. specialize (Hf Eq). rewrite <- (StorageSpec.copy_sequence _ _ (received_copy _ _ Hr)) in Eq.
  intros (t & Et & E)%mthen_ok. rewrite (held_tip _ _ _ Hh Et) in *. unfold PoolHash.op_eq in E.
  destruct (bool_decide_reflect (Pool.previous_hash_ q = StorageSpec.tip chain)) as [Ep|Hnp]; cbn [negb] in E.
  2: { destruct (PoolHash.is_empty _) eqn:Eem; [injection E as <- _ <- _; split; [done|]; split; [by left|]; exists chain; split; [done|by left]|].
       apply mthen_ok in E as ((c1 & ev) & Er & E). injection E as <- _ <- _. assert (may_remove c) as Hm.
       { destruct Hmay as [Hm|[Hm|[Hm|Hm]]]; [done| |congruence|rewrite (held_tip _ _ _ Hh Hm) in Hnp; by destruct Hnp].
         left. pose proof (held_some _ _ Hh). destruct chain as [|? [|]]; cbn [length] in *; [done|lia|lia]. }
       destruct (remove_holds _ _ _ _ Hh Hm Er) as (Hc & chain' & Hh' & Hor).
       split; [done|]. split; [by left|]. exists chain'. split; [done|]. destruct Hor; tauto. }
  apply mthen_ok in E as (p1 & E1 & E). apply setFees_pool in E1 as (txs & ->). apply (received_transactions _ _ txs) in Hr.
  change (Pool.previous_hash_ (q <| Pool.transactions_ := txs |>) = StorageSpec.tip chain) in Ep. set (q1 := q <| Pool.transactions_ := txs |>) in *.
  apply mthen_ok in E as ((p2 & c1) & E2 & E).
  assert (p2 = q1 /\ exists ids, c1 = (c <| walletIds_ := ids |>)) as (-> & ids & ->).
  { destruct bySync; [injection E2 as <- <-; split; [done|]; unfold updateWalletIds; destruct (WalletsIds.updateWalletIds _ _); by eexists|].
    unfold addNewWalletsToPool in E2. rewrite (received_frozen _ _ Hr) in E2. injection E2 as <- <-. split; [done|]. exists (walletIds_ c). by destruct c. }
  apply mthen_ok in E as ((((rec & q2) & c2) & ev) & E3 & E).
  apply (record_holds _ chain p) in E3 as [Ec Hrec]; [|by eapply holds_ext; [..|exact Hh]|done..].
  destruct rec; injection E as <- _ <- _.
  - split; [|split; [by left|]].
    { intros _ b _. left; left. cbn [upd lastSequence_]. pose proof (held_last _ _ Hrec) as El. rewrite length_app in El. cbn [length] in El.
      pose proof (held_some _ _ Hh). destruct chain; cbn [length] in *; [done|lia]. }
    exists (chain ++ [p]). split; [by eapply holds_ext; [..|exact Hrec]|]. by right; right.
  - split; [done|].
    cbn [removeWalletsInPoolFromCache upd lastSequence_ cachedBlocks_] in *. destruct Hrec as [[Hrec El]|[Hrec El]].
    + rewrite El, Hl, Eq. rewrite (proj2 (Z.eqb_neq _ _)) by lia. split; [by left|]. exists chain. split; [by eapply holds_ext; [..|exact Hrec]|by left].
    + rewrite El, Eq, Z.eqb_refl. split; [by left|]. exists chain. split; [|by left]. split.
      * exists chain. split; [exact Hrec|]. by left.
      * cbn [upd lastSequence_]. rewrite uwrap_id by (unfold in_u; pose proof (held_some _ _ Hh); destruct chain; cbn in *; [done|lia]). lia.
      * apply (held_some _ _ Hh).
      * apply (held_short _ _ Hh).
Qed.

(** *** Every order of operations *)

(** All blocks that are around, whatever is in them; those of one hash, which is made of the
    number too, have the same number, but may differ in the signatures. *)
Record world (U : Pool.priv -> Prop) : Prop := {
  world_wf p : U p -> Pool.wf_pool p;
  world_hash p p' : U p -> U p' -> hash_of p = hash_of p' -> Pool.sequence_ p = Pool.sequence_ p'
}.

Definition from_world (U : Pool.priv -> Prop) q : Prop := exists p, U p /\ received p q.

Record chain_of (U : Pool.priv -> Prop) c (chain : list Pool.priv) : Prop := {
  chain_held : holds_chain c chain;
  chain_world : Forall U chain;
  chain_cached : Forall (fun kv => from_world U (bm_pool kv.2)) (cachedBlocks_ c)
}.

(** What the node does with its chain when blocks come from outside; the sequence stays below 2^32. *)
Inductive step (U : Pool.priv -> Prop) c c' : Prop :=
  | step_store q bySync ok' q' events : spares_genesis c q -> lastSequence_ c < 4294967291 -> from_world U q -> store q bySync c = ret (ok', q', c', events) -> step U c c'
  | step_cached events : Forall (fun kv => spares_genesis c (bm_pool kv.2)) (cachedBlocks_ c) -> lastSequence_ c + Z.of_nat (length (cachedBlocks_ c)) < 4294967291 ->
      testCachedBlocks begin invocation_method genesisAddress_ interrupted c = ret (c', events) -> step U c c'
  | step_remove events : may_remove c -> remove c = ret (c', events) -> step U c c'
  | step_clear : c' = clearBlockCache c -> step U c c'
  | step_allow n : c' = setBlocksToBeRemoved n c -> step U c c'.

Lemma world_fresh U chain p : world U -> StorageSpec.linked chain -> Forall U chain -> U p -> Pool.sequence_ p = Z.of_nat (length chain) -> hash_of p ∉ map hash_of chain.
Proof.
  intros [_ Hu] Hl HU Hp Hseq Hin. apply list_elem_of_In, in_map_iff in Hin as (x & Ex & Hx%list_elem_of_In). apply list_elem_of_lookup in Hx as [i Hi].
  assert (Pool.sequence_ x = Pool.sequence_ p) as E; [by apply Hu; [eapply Forall_lookup_1|..]|].
  destruct (StorageSpec.linked_at _ Hl i x Hi) as [Hs _]. apply lookup_lt_Some in Hi. lia.
Qed.

Lemma Forall_emplace {V} (P : Z * V -> Prop) k v m : Forall P m -> P (k, v) -> Forall P (OrdMap.emplace k v m).
Proof. intros Hm Hp. induction Hm as [|[k' v'] m Hk Hm IH]; cbn [OrdMap.emplace]; [by constructor|]. repeat case_match; repeat constructor; auto. Qed.

Lemma Forall_lower_bound {V} (P : Z * V -> Prop) k m : Forall P m -> Forall P (OrdMap.from_lower_bound k m).
Proof. induction 1 as [|[k' v'] m Hk Hm IH]; cbn [OrdMap.from_lower_bound]; [done|]. destruct (k' <? k); [done|by constructor]. Qed.

Lemma length_lower_bound {V} k (m : list (Z * V)) : (length (OrdMap.from_lower_bound k m) <= length m)%nat.
Proof. induction m as [|[k' v'] m IH]; cbn [OrdMap.from_lower_bound length]; [done|]. destruct (k' <? k); cbn [length]; lia. Qed.

(** The chain grows by one block, loses its last one, or stays. *)
Definition moves (chain chain' : list Pool.priv) : Prop := chain' = chain \/ (exists r, chain = chain' ++ [r]) \/ (exists p, chain' = chain ++ [p]).

Lemma store_step U c chain q bySync ok' q' c' events :
  world U -> chain_of U c chain -> spares_genesis c q -> from_world U q -> Z.of_nat (length chain) < 4294967293 -> store q bySync c = ret (ok', q', c', events) ->
  (ok' = true -> (forall b, spares_genesis c b -> spares_genesis c' b) /\
     (cachedBlocks_ c' = cachedBlocks_ c \/ exists seq, cachedBlocks_ c' = OrdMap.emplace seq (mkBlockMeta q bySync) (cachedBlocks_ c))) /\
  exists chain', chain_of U c' chain' /\ moves chain chain'.
Proof.
  intros Hw [Hh HU Hca] Hmay (p & Hp & Hr) Hlen E.
  destruct (store_holds c chain p q bySync ok' q' c' events) as (Hok & Hc & chain' & Hh' & Hor); [done|done|done|intros Hseq; by apply (world_fresh U chain p Hw (held_linked _ _ Hh))|done|done|].
  split; [intros Eok; split; [by apply Hok|done]|]. exists chain'. split; [|destruct Hor as [->|[[r ->]| ->]]; [by left|right; left; by exists r|right; right; by exists p]].
  split; [done| |].
  - destruct Hor as [->|[[r ->]| ->]]; [done|by apply Forall_app in HU as []|]. apply Forall_app. split; [done|]. by apply Forall_singleton.
  - destruct Hc as [->|[seq ->]]; [done|]. apply Forall_emplace; [done|]. by exists p.
Qed.

(** A chain that moves keeps its first block, as long as it has one. *)
Lemma moves_head chain chain' : moves chain chain' -> chain <> [] -> chain' <> [] -> head chain' = head chain.
Proof. intros [->|[[r ->]|[p ->]]] H1 H2; [done|by destruct chain'|by destruct chain]. Qed.

Lemma test_loop_chain U fuel lastSeq c chain c' events :
  world U -> chain_of U c chain -> Forall (fun kv => spares_genesis c (bm_pool kv.2)) (cachedBlocks_ c) -> Z.of_nat (length chain) + Z.of_nat fuel < 4294967293 ->
  test_loop begin invocation_method genesisAddress_ interrupted fuel lastSeq c = ret (c', events) ->
  exists chain', chain_of U c' chain' /\ head chain' = head chain.
Proof.
  intros Hw. revert lastSeq c chain events. induction fuel as [|fuel IH]; intros lastSeq c chain events Hc Hmay Hlen; cbn [test_loop];
    destruct (cachedBlocks_ c) as [|[seq data] l] eqn:Ecache; try done; [by intros [= <- _]; exists chain..|].
  destruct (seq =? lastSeq); [|by intros [= <- _]; exists chain]. pose proof (chain_cached _ _ _ Hc) as Hca. rewrite Ecache in Hca.
  apply Forall_cons in Hca as [Hd _]. cbn [snd] in Hd. pose proof Hmay as [Hmay0 _]%Forall_cons. cbn [snd] in Hmay0. intros ((((ok' & q') & c1) & ev) & E1 & E)%mthen_ok.
  destruct (store_step U c chain _ _ _ _ _ _ Hw Hc Hmay0 Hd ltac:(lia) E1) as (Hok & chain1 & [Hh1 HU1 Hca1] & Hmv).
  assert (head chain1 = head chain) as Ehead by (apply (moves_head _ _ Hmv); [apply (held_some _ _ (chain_held _ _ _ Hc))|apply (held_some _ _ Hh1)]).
  assert (chain_of U (c1 <| cachedBlocks_ := List.filter (fun kv => negb (kv.1 =? seq)) (cachedBlocks_ c1) |>) chain1) as Hc1.
  { split; [by eapply holds_ext; [..|exact Hh1]|done|]. cbn [upd cachedBlocks_]. apply Forall_forall. intros kv [Hin _]%list_elem_of_In%filter_In.
    rewrite Forall_forall in Hca1. by apply Hca1, list_elem_of_In. }
  destruct ok'; cbn [negb] in E; [|injection E as <- _; by exists chain1].
  apply mthen_ok in E as ((c2 & more) & E2 & E). injection E as <- _. destruct (Hok eq_refl) as [Hsp Hcache].
  assert (Forall (fun kv => spares_genesis c1 (bm_pool kv.2)) (List.filter (fun kv => negb (kv.1 =? seq)) (cachedBlocks_ c1))) as Hmay1.
  { rewrite Ecache in Hcache. assert (Forall (fun kv => spares_genesis c1 (bm_pool kv.2)) (cachedBlocks_ c1)) as Hall.
    { assert (Forall (fun kv => spares_genesis c1 (bm_pool kv.2)) ((seq, data) :: l)) as Ho by (eapply Forall_impl; [exact Hmay|]; intros kv; apply Hsp).
      destruct Hcache as [->|[k ->]]; [done|]. apply Forall_emplace; [done|]. cbn [snd bm_pool]. by apply Hsp. }
    apply Forall_forall. intros kv [Hin _]%list_elem_of_In%filter_In. rewrite Forall_forall in Hall. by apply Hall, list_elem_of_In. }
  edestruct (fun H => IH _ _ chain1 _ Hc1 Hmay1 H E2) as (chain' & Hc' & E').
  - destruct Hmv as [->|[[r ->]|[p ->]]]; rewrite ?length_app in *; cbn [length] in *; lia.
  - exists chain'. split; [done|]. by rewrite E'.
Qed.

Lemma step_chain U c c' chain : world U -> chain_of U c chain -> step U c c' -> exists chain', chain_of U c' chain' /\ head chain' = head chain.
Proof.
  intros Hw Hc. pose proof (chain_held _ _ _ Hc) as Hh. pose proof (held_last _ _ Hh) as Hl.
  intros [q bySync ok' q' events Hmay Hlen Hq E|events Hmay Hlen E|events Hmay E|E|n E].
  - destruct (store_step U c chain q bySync ok' q' c' events Hw Hc Hmay Hq ltac:(lia) E) as (_ & chain' & Hc' & Hmv). exists chain'. split; [done|].
    apply (moves_head _ _ Hmv); [apply (held_some _ _ Hh)|apply (held_some _ _ (chain_held _ _ _ Hc'))].
  - unfold testCachedBlocks in E. set (l := OrdMap.from_lower_bound _ _) in E. pose proof (length_lower_bound (u64 (getLastSeq c + 1)) (cachedBlocks_ c)) as Hll.
    eapply (test_loop_chain U _ _ (c <| cachedBlocks_ := l |>) chain c' events Hw); [|exact (Forall_lower_bound _ _ _ Hmay)| |exact E].
    + split; [by eapply holds_ext; [..|exact Hh]|apply Hc|]. apply Forall_lower_bound, Hc.
    + cbn [upd cachedBlocks_]. fold l in Hll. lia.
  - destruct (remove_holds c chain c' events Hh Hmay E) as (Hca & chain' & Hh' & Hor). exists chain'. destruct Hc as [_ HU Hc]. split.
    + split; [done| |by rewrite Hca]. destruct Hor as [[_ ->]|[p ->]]; [done|]. by apply Forall_app in HU as [].
    + apply (moves_head chain); [|apply (held_some _ _ Hh)|apply (held_some _ _ Hh')]. destruct Hor as [[_ ->]|Hor]; [by left|by right; left].
  - exists chain. split; [|done]. subst c'. destruct Hc as [_ HU Hc]. split; [by eapply holds_ext; [..|exact Hh]|done|constructor].
  - exists chain. split; [|done]. subst c'. unfold setBlocksToBeRemoved. destruct (0 <? _); [done|]. destruct Hc as [_ HU Hc].
    split; [by eapply holds_ext; [..|exact Hh]|done|done].
Qed.

(** C9: Invariant: under any sequence of stored blocks of other nodes (by the synchronisation or
    not, good or bad, of any number, as read from their bytes), of tests of the cached blocks and
    of removals, the storage and the deferred block stay one chain in which every block has its
    place as number and the hash of the one before, with the same first block, and the last number
    and the size say how long it is. It holds as long as no operation takes the genesis block back
    when it stands alone (a removal, or, while removals are allowed, a block number 1 that names
    another hash before it), the numbers stay below 2^32 and blocks of the same hash have the same
    number (their signatures may differ). *)
Theorem chain_stays_linked U c c' chain :
  world U -> chain_of U c chain -> rtc (step U) c c' ->
  exists chain', StorageSpec.linked chain' /\ head chain' = head chain /\ getLastSeq c' = Z.of_nat (length chain') - 1 /\
    getSize c' = Z.of_nat (length chain') /\ chain_of U c' chain'.
Proof.
  intros Hw Hc Hsteps. revert chain Hc. induction Hsteps as [c|c c1 c' H1 _ IH]; intros chain Hc.
  - exists chain. pose proof (chain_held _ _ _ Hc) as Hh. split; [by eapply held_linked|]. split; [done|]. split; [apply Hh|]. split; [by apply held_size|done].
  - destruct (step_chain U c c1 chain Hw Hc H1) as (chain1 & Hc1 & E1). destruct (IH chain1 Hc1) as (chain' & Hl & E & R). exists chain'. rewrite E, E1. done.
Qed.

(** *** A stored block that is taken back *)

Lemma load_empty p inverse c : Pool.transactions_ p = [] -> load p inverse c = ret (p, walletsCache_ c).
Proof. intros E. unfold BlockChain.loadNextBlock, WalletsCache.loadNextBlock. rewrite E. cbn. rewrite <- E. by destruct p. Qed.

Lemma unhashed_hash q : Pool.hash_ q = [] -> Pool.hashingLength_ q = 0 -> exists h, Pool.hash q = Some (h, q <| Pool.hash_ := h |>).
Proof.
  intros E1 E2. unfold Pool.hash, Pool.updateHash. rewrite E1, E2. cbn [PoolHash.is_empty length Nat.eqb].
  rewrite (proj2 (Z.ltb_ge _ _)) by lia. by eexists.
Qed.

(** When the last block is already in the storage, removeLastBlock shortens the chain but leaves
    all balances, the ids of wallets and the number of transactions as they were: pool_remove_last
    returns only the head of the block, without its transactions. *)
Theorem stored_block_keeps_balances c chain p :
  holds_chain c (chain ++ [p]) -> Pool.is_valid_ (deferredBlock_ c) = false -> chain <> [] -> blocksToBeRemoved_ c <> 0 ->
  exists c' events, remove c = ret (c', events) /\ holds_chain c' chain /\
    walletsCache_ c' = walletsCache_ c /\ walletIds_ c' = walletIds_ c /\ total_transactions_count_ c' = u64 (total_transactions_count_ c).
Proof.
  intros Hh Hv Hne Hb. assert (may_remove c) as Hmay.
  { left. rewrite (held_last _ _ Hh), length_app. cbn [length]. destruct chain; [done|cbn [length]; lia]. }
  pose proof Hh as [(saved & Hs & [[_ <-]|(x & _ & _ & Hc)]) Hl _ _]; [|by rewrite (StorageSpec.copy_valid _ _ Hc) in Hv].
  destruct (StorageSpec.remove_pops _ _ _ Hs) as (q & s & Er & _ & Hm & _). destruct (StorageSpec.meta_unhashed _ _ Hm) as [U1 U2].
  destruct (unhashed_hash q U1 U2) as (h & Eh).
  destruct (StorageSpec.linked_at _ (held_linked _ _ Hh) (length chain) p) as [Hseq _]; [by rewrite list_lookup_middle|].
  assert (taken c = ret (q, c <| bc_storage_ := s |>)) as Et by (unfold taken; by rewrite Hv, Er).
  pose proof (remove_run c (c <| bc_storage_ := s |>) q h (q <| Pool.hash_ := h |>) Hb Et (StorageSpec.meta_valid _ _ Hm)) as R. rewrite (StorageSpec.meta_sequence _ _ Hm), Hseq in R.
  specialize (R ltac:(destruct chain; [done|cbn [length]; lia]) Eh). rewrite load_empty in R by apply Hm.
  destruct R as (c' & E & [_ _ _ _ F1 F2 F3]). cbn [uncounted upd walletIds_ walletsCache_ total_transactions_count_ Pool.transactions_] in F1, F2, F3.
  unfold WalletsIds.removeWalletsInPoolFromCache in F2. cbn [upd Pool.newWallets_] in F2. rewrite (StorageSpec.meta_wallets _ _ Hm) in F2.
  rewrite (StorageSpec.meta_transactions _ _ Hm) in F3. cbn [length] in F3. rewrite Z.sub_0_r in F3.
  exists c', [RemoveBlockEvent (q <| Pool.hash_ := h |>)]. split; [done|]. split; [|done]. destruct (remove_holds _ _ _ _ Hh Hmay E) as (_ & chain' & Hh' & [[E0 _]|[r Er']]); [done|].
  by apply app_inj_tail in Er' as [-> _].
Qed.

(** *** A deferred block that is taken back *)

Lemma load_transaction_any (ids : WalletsIds D) f f' inverse tr st :
  Contracts.is_new_state tr = false -> WalletsCache.load_transaction ids f inverse tr st = WalletsCache.load_transaction ids f' inverse tr st.
Proof. intros E. unfold WalletsCache.load_transaction, WalletsCache.load, WalletsCache.loadTrxForSource. by rewrite E. Qed.

Lemma load_any (ids : WalletsIds D) f f' pool confidants inverse (cache : Cache) :
  Forall (fun t => Contracts.is_new_state t = false) (Pool.transactions_ pool) ->
  WalletsCache.loadNextBlock ids f pool confidants inverse cache = WalletsCache.loadNextBlock ids f' pool confidants inverse cache.
Proof.
  intros Ht. unfold WalletsCache.loadNextBlock. cbn [upd Pool.transactions_]. set (st := (of_int 0, cache)). clearbody st.
  assert (mfold (WalletsCache.load_transaction ids f inverse) (map (Tx.set_time (WalletsCache.get_time pool)) (Pool.transactions_ pool)) st =
    mfold (WalletsCache.load_transaction ids f' inverse) (map (Tx.set_time (WalletsCache.get_time pool)) (Pool.transactions_ pool)) st) as ->; [|done].
  revert st. induction Ht as [|t l E Hl IH]; intros st; [done|]. cbn [map mfold]. rewrite (load_transaction_any ids f f') by exact E.
  destruct (WalletsCache.load_transaction _ _ _ _ _) as [[st'|e]|]; [apply IH|done|done].
Qed.

(** Loading sets the times of the transactions once and for all. *)
Definition timed q : Pool.priv := q <| Pool.transactions_ := map (Tx.set_time (WalletsCache.get_time q)) (Pool.transactions_ q) |>.

Lemma load_timed (ids : WalletsIds D) f q confidants inverse (cache : Cache) :
  WalletsCache.loadNextBlock ids f (timed q) confidants inverse cache = WalletsCache.loadNextBlock ids f q confidants inverse cache.
Proof.
  unfold WalletsCache.loadNextBlock. change (WalletsCache.get_time (timed q)) with (WalletsCache.get_time q). cbn [timed upd Pool.transactions_].
  rewrite map_map. by erewrite (map_ext _ (Tx.set_time (WalletsCache.get_time q))).
Qed.

Lemma load_returns_timed q inverse c d cache : load q inverse c = ret (d, cache) -> d = timed q.
Proof.
  unfold BlockChain.loadNextBlock, WalletsCache.loadNextBlock. intros ((total & c1) & _ & E)%mthen_ok. apply mthen_ok in E as (c2 & _ & E). by injection E as <- _.
Qed.

(** What the loading of the wallets sees of a chain *)
Definition same_wallets c c' : Prop := walletsCache_ c' = walletsCache_ c /\ walletIds_ c' = walletIds_ c.

Lemma same_wallets_trans c1 c2 c3 : same_wallets c1 c2 -> same_wallets c2 c3 -> same_wallets c1 c3.
Proof. intros [] []. split; congruence. Qed.

Lemma flush_wallets c c1 : flush begin c = ret c1 -> same_wallets c c1.
Proof.
  unfold flush. destruct (Pool.is_valid_ _); [|by intros [= <-]]. intros (((saved & deferred) & s) & _ & E)%mthen_ok.
  destruct (_ && _) in E; [apply mthen_ok in E as (uuid & _ & E)|]; by injection E as <-.
Qed.

Lemma last_confidants_wallets sequence c lc c1 : last_confidants begin sequence c = ret (lc, c1) -> same_wallets c c1.
Proof.
  unfold last_confidants. destruct (1 <? sequence); [|by intros [= _ <-]]. destruct (_ =? sequence); [by intros [= _ <-]|].
  intros ((q & c2) & E & E')%mthen_ok. injection E' as _ <-. unfold loadBlock in E. destruct (_ && _); [by injection E as _ <-|].
  destruct (getLastSeq c <? _); [by injection E as _ <-|]. apply mthen_ok in E as ((x & s) & _ & E). by injection E as _ <-.
Qed.

Lemma nonempty_wallets p c : same_wallets c (updateNonEmptyBlocks p c).
Proof. split; [apply nonempty_same|apply nonempty_same]. Qed.

Lemma load_cache (ids : WalletsIds D) f q inverse c cache r :
  same_wallets (c <| walletIds_ := ids |> <| walletsCache_ := cache |>) c -> Forall (fun t => Contracts.is_new_state t = false) (Pool.transactions_ q) ->
  WalletsCache.loadNextBlock ids f q (Pool.confidants_ q) inverse cache = ret r -> load q inverse c = ret r.
Proof.
  intros [E1 E2] Ht E. cbn [upd walletsCache_ walletIds_] in E1, E2. unfold BlockChain.loadNextBlock. rewrite E1, E2.
  by rewrite (load_any ids _ f).
Qed.

Lemma recorded_load p q isTrusted c r q' c1 events :
  received p q -> record q isTrusted c = ret (Some r, q', c1, events) ->
  deferredBlock_ c1 = timed q /\ walletIds_ c1 = walletIds_ c /\
  exists c0, same_wallets c c0 /\ load q false c0 = ret (timed q, walletsCache_ c1).
Proof.
  intros Hr (tip & c2 & lc & c3 & d & c4 & _ & _ & E1 & E2 & E3 & -> & _)%recordBlock_some.
  apply finalizeBlock_true in E3 as (x & cache & Ex & _ & _ & El & <- & [_ _ _ _ Hids]).
  assert (x = q) as ->.
  { unfold Pool.set_previous_hash in Ex. rewrite (received_frozen _ _ Hr) in Ex. unfold Pool.compose in Ex. rewrite (received_frozen _ _ Hr) in Ex. by injection Ex. }
  pose proof (load_returns_timed _ _ _ _ _ El) as ->. destruct (flush_wallets _ _ E1) as [F1 F2]. destruct (last_confidants_wallets _ _ _ _ E2) as [F3 F4].
  split; [done|]. cbn [upd walletIds_] in Hids |- *. split; [congruence|]. eexists. split; [|exact El].
  eapply same_wallets_trans; [|apply nonempty_wallets]. split; cbn [upd walletsCache_ walletIds_]; congruence.
Qed.

(** C26: Recording a received block of plain transfers and removing it again before the next one
    succeeds and gives back the chain, the balance and the number of transactions of every wallet. *)
Theorem deferred_block_undone c chain p q l isTrusted r q' c1 events :
  holds_chain c chain -> received p q -> Pool.previous_hash_ q = StorageSpec.tip chain -> hash_of p ∉ map hash_of chain ->
  Z.of_nat (length chain) < 4294967293 -> WalletsCache.transfer_block q l (Pool.confidants_ q) -> WalletsCache.ok (walletsCache_ c) ->
  record q isTrusted c = ret (Some r, q', c1, events) -> blocksToBeRemoved_ c1 <> 0 ->
  exists c2 d, remove c1 = ret (c2, [RemoveBlockEvent d]) /\ holds_chain c2 chain /\ getLastSeq c2 = getLastSeq c /\
    forall k, balance_ (WalletsCache.getWalletData k (walletsCache_ c2)) = balance_ (WalletsCache.getWalletData k (walletsCache_ c)) /\
      transNum_ (WalletsCache.getWalletData k (walletsCache_ c2)) = transNum_ (WalletsCache.getWalletData k (walletsCache_ c)).
Proof.
  intros Hh Hr Hp Hf Hlen Hb Hok Erec Hrem. destruct (record_holds _ _ _ _ _ _ _ _ _ Hh Hr Hp Hf Hlen Erec) as [_ Hh1].
  destruct (recorded_load _ _ _ _ _ _ _ _ Hr Erec) as (Ed & Hids & c0 & [F1 F2] & El).
  assert (Forall (fun t => Contracts.is_new_state t = false) (Pool.transactions_ q)) as Ht.
  { rewrite (WalletsCache.block_transactions _ _ _ Hb). apply Forall_map. eapply Forall_impl; [apply (WalletsCache.block_plain _ _ _ Hb)|]. by intros x []. }
  destruct (WalletsCache.rollback_restores (walletIds_ c) (fun _ => Pool.default) q l (Pool.confidants_ q) (walletsCache_ c) Hb Hok)
    as (d1 & cache1 & d2 & cache2 & E1 & E2 & Hk).
  rewrite (load_cache (walletIds_ c) (fun _ => Pool.default) q false c0 (walletsCache_ c) (d1, cache1)) in El by (done || by split; cbn; congruence).
  injection El as -> Ecache. subst cache1.
  assert (copy p (deferredBlock_ c1)) as Hc by (rewrite Ed; apply (received_transactions _ _ _ Hr)).
  assert (may_remove c1) as Hmay.
  { left. rewrite (held_last _ _ Hh1), length_app. cbn [length]. pose proof (held_some _ _ Hh). destruct chain; cbn [length]; [done|lia]. }
  assert (taken c1 = ret (timed q, c1 <| deferredBlock_ := Pool.default |>)) as Et by (unfold taken; by rewrite (StorageSpec.copy_valid _ _ Hc), Ed).
  pose proof (remove_run c1 _ (timed q) (hash_of p) (timed q) Hrem Et) as R. rewrite Ed in Hc.
  specialize (R (StorageSpec.copy_valid _ _ Hc)). rewrite (StorageSpec.copy_sequence _ _ Hc) in R.
  pose proof (linked_at_last _ _ (held_linked _ _ Hh1)) as Hseq. rewrite Hseq in R. pose proof (held_some _ _ Hh) as Hne.
  specialize (R ltac:(destruct chain; [done|cbn [length]; lia]) (StorageSpec.hash_copy _ _ Hc)).
  rewrite (load_cache (walletIds_ c) (fun _ => Pool.default) (timed q) true _ (walletsCache_ c1) (d2, cache2)) in R.
  2: { by split. } 2: { cbn [timed upd Pool.transactions_]. apply Forall_map. exact Ht. } 2: { rewrite load_timed. exact E2. }
  destruct R as (c2 & E & Hfrom). destruct (remove_holds _ _ _ _ Hh1 Hmay E) as (_ & chain' & Hh2 & [[E0 _]|[x Ex]]); [done|].
  apply app_inj_tail in Ex as [<- _]. exists c2, d2. split; [done|]. split; [done|]. unfold getLastSeq. rewrite (held_last _ _ Hh2), (held_last _ _ Hh). split; [done|].
  by rewrite (removed_wallets _ _ _ _ _ Hfrom).
Qed.

(** *** The genesis block *)

(** A wrong block behind a chain makes its last block fall. *)
Lemma store_wrong c q bySync tip :
  Pool.sequence_ q = u64 (getLastSeq c + 1) -> getLastSeq c < Pool.sequence_ q -> Pool.sequence_ q <= 1 -> getLastHash c = ret tip -> Pool.previous_hash_ q <> tip ->
  Pool.previous_hash_ q <> [] ->
  store q bySync c = (do! (c', events) := remove c in ret (false, q, c', events)).
Proof.
  intros Hseq Hlt Hle Etip Hne Hp. unfold storeBlock. rewrite (proj2 (Z.leb_gt _ _) Hlt). rewrite (proj2 (Z.ltb_ge 1 (Pool.sequence_ q))), andb_false_r by done.
  rewrite (proj2 (Z.eqb_eq _ _) Hseq), Etip. cbn [mthen ret]. unfold PoolHash.op_eq. rewrite bool_decide_false by done. cbn [negb].
  unfold PoolHash.is_empty. by destruct (Pool.previous_hash_ q).
Qed.

(** The chain that has lost its genesis *)
Record headless c : Prop := {
  headless_storage : stored (bc_storage_ c) [];
  headless_deferred : Pool.is_valid_ (deferredBlock_ c) = false;
  headless_last : lastSequence_ c = 0;
  headless_remove : blocksToBeRemoved_ c <> 0
}.

Lemma headless_store c p bySync :
  headless c -> Pool.sequence_ p = 1 -> Pool.previous_hash_ p <> [] -> exists c', store p bySync c = ret (false, p, c', []) /\ headless c' /\ getSize c' = 0.
Proof.
  intros [Hs Hv Hl Hb] Hseq Hp. destruct (StorageSpec.stored_db _ _ Hs) as (b & Eb & Hok & _).
  assert (getSize c = 0) as Hsize by (unfold getSize, Storage.size; by rewrite Hv, (StorageSpec.stored_count _ _ Hs)).
  rewrite (store_wrong c p bySync []); unfold getLastSeq; rewrite ?Hl, ?Hseq; try done; [|unfold getLastHash, Storage.last_hash; by rewrite Hv, (StorageSpec.stored_last _ _ Hs)].
  unfold removeLastBlock. rewrite (proj2 (Z.eqb_neq _ _) Hb), Hv. unfold Storage.pool_remove_last, Storage.write_queue_pop.
  rewrite (StorageSpec.opened_ok _ b Eb Hok), (StorageSpec.stored_queue _ _ Hs). cbn [last mbind option_bind].
  rewrite (StorageSpec.stored_last _ _ Hs). cbn [StorageSpec.tip last PoolHash.is_empty length Nat.eqb mthen ret]. change (Pool.is_valid_ Pool.default) with false. cbn [negb].
  assert (c <| bc_storage_ := bc_storage_ c |> = c) as -> by by destruct c.
  destruct (PoolHash.is_empty (BlockHashes.find (lastSequence_ c) c)); [by exists c|].
  unfold Storage.pool_remove_last_repair. rewrite (StorageSpec.opened_ok _ b Eb Hok), Hl. cbn [Z.eqb mthen ret negb].
  exists c. split; [by destruct c|done].
Qed.

(** A fresh chain, which may remove blocks, loses its genesis block with the first block that has
    another previous hash: removeLastBlock drops the deferred block before it sees that it is the
    genesis. The size is zero afterwards and every block that follows the genesis is refused. *)
Theorem bad_first_block_loses_genesis c g q bySync :
  holds_chain c [g] -> Pool.is_valid_ (deferredBlock_ c) = true -> blocksToBeRemoved_ c <> 0 ->
  Pool.sequence_ q = 1 -> Pool.previous_hash_ q <> [] -> Pool.previous_hash_ q <> hash_of g ->
  exists c', store q bySync c = ret (false, q, c', []) /\ getSize c' = 0 /\ getLastSeq c' = getLastSeq c /\
    forall p bySync', StorageSpec.next [g] p -> Pool.sequence_ p = 1 ->
      exists c'', store p bySync' c' = ret (false, p, c'', []) /\ getSize c'' = 0.
Proof.
  intros Hh Hv Hb Hseq Hp Hne. pose proof (held_last _ _ Hh) as Hl. cbn [length] in Hl.
  destruct Hh as [(saved & Hs & [[Hv' _]|(x & Ex & Hn & Hc)]) _ _ _]; [congruence|]. destruct saved as [|y saved]; [|by destruct saved].
  injection Ex as <-. set (c' := c <| deferredBlock_ := Pool.default |>).
  assert (headless c') as Hheadless by (split; [done|done|exact Hl|done]).
  assert (remove c = ret (c', [])) as Er.
  { unfold removeLastBlock. rewrite (proj2 (Z.eqb_neq _ _) Hb), Hv. cbn [mthen ret]. rewrite Hv. cbn [negb].
    rewrite (StorageSpec.hash_copy _ _ Hc). cbn [defined mthen ret]. rewrite (StorageSpec.copy_sequence _ _ Hc), (StorageSpec.next_sequence _ _ Hn). done. }
  exists c'. split; [|split; [|split; [done|]]].
  - rewrite (store_wrong c q bySync (hash_of g)); unfold getLastSeq; rewrite ?Hl, ?Hseq; try done; [by rewrite Er|].
    unfold getLastHash. by rewrite Hv, (StorageSpec.hash_copy _ _ Hc).
  - unfold getSize, Storage.size. cbn [c' upd deferredBlock_ bc_storage_]. by rewrite (StorageSpec.stored_count _ _ Hs).
  - intros p bySync' Hnp Hsp. destruct (headless_store c' p bySync' Hheadless Hsp) as (c'' & E & _ & Hsize); [|by exists c''].
    rewrite (StorageSpec.next_previous _ _ Hnp). change (StorageSpec.tip [g]) with (hash_of g). intros E. pose proof (StorageSpec.hash_of_nonempty g) as En. by rewrite E in En.
Qed.

(** *** What is asked for *)

Definition covers (l : list (Z * Z)) (n : Z) : Prop := exists lo hi, (lo, hi) ∈ l /\ lo <= n <= hi.

Lemma covers_cons lo hi l n : covers ((lo, hi) :: l) n <-> lo <= n <= hi \/ covers l n.
Proof.
  split.
  - intros (a & b & [[= -> ->]|Hin]%elem_of_cons & Hn); [by left|]. right. by exists a, b.
  - intros [Hn|(a & b & Hin & Hn)]; [exists lo, hi|exists a, b]; by rewrite elem_of_cons; auto.
Qed.

Lemma covers_app l l' n : covers (l ++ l') n <-> covers l n \/ covers l' n.
Proof. unfold covers. setoid_rewrite elem_of_app. naive_solver. Qed.

Lemma gaps_cover l s n :
  StronglySorted Z.lt (s :: l) -> Forall (in_u 64) (s :: l) -> s < n -> n ∉ l -> (exists k, last l = Some k /\ n < k) -> covers (gaps s l) n.
Proof.
  revert s. induction l as [|first l IH]; intros s Hs Hu Hn Hin (k & Hk & Hlt); [done|]. cbn [gaps].
  apply StronglySorted_inv in Hs as [Hs Hall]. apply Forall_cons in Hall as [Hsf _]. apply Forall_cons in Hu as [Hus Hu].
  pose proof Hu as [Huf _]%Forall_cons. apply not_elem_of_cons in Hin as [Hne Hin]. unfold in_u in *.
  rewrite (uwrap_id 64 (s + 1)), (uwrap_id 64 (first - 1)) by (unfold in_u; lia).
  assert (first < n -> covers (gaps first l) n) as Hrest.
  { intros Hfn. apply IH; try done. exists k. split; [|done]. destruct l as [|x l]; [|done]. cbn in Hk. injection Hk as ->. lia. }
  destruct (Z.eqb_spec first (s + 1)) as [Ef|_]; cbn [negb].
  - rewrite <- Ef. apply Hrest. lia.
  - apply covers_cons. destruct (decide (n < first)); [left; lia|right]. apply Hrest. lia.
Qed.

Lemma above_suffix a (l : list Z) :
  StronglySorted Z.lt l -> exists pre, l = pre ++ List.filter (fun k => a <? k) l /\ Forall (fun k => k <= a) pre.
Proof.
  induction l as [|x l IH]; intros Hs; [by exists []|]. apply StronglySorted_inv in Hs as [Hs Hall]. cbn [List.filter]. destruct (Z.ltb_spec a x) as [Hlt|Hge].
  - exists []. split; [|constructor]. cbn [app]. f_equal. symmetry. clear IH Hs. induction Hall as [|y l Hy Hall IH]; [done|]. cbn [List.filter].
    rewrite (proj2 (Z.ltb_lt a y)) by lia. by f_equal.
  - destruct (IH Hs) as (pre & E & Hp). exists (x :: pre). split; [cbn [app]; by f_equal|]. by constructor.
Qed.

Lemma sorted_keys {V} (m : list (Z * V)) : OrdMap.sorted m -> StronglySorted Z.lt (map fst m).
Proof. induction 1 as [|kv m Hs IH Hall]; [constructor|]. cbn [map]. constructor; [done|]. apply Forall_map. exact Hall. Qed.

Lemma find_none {V} n (m : list (Z * V)) : OrdMap.find n m = None -> n ∉ map fst m.
Proof.
  induction m as [|[k v] m IH]; cbn [OrdMap.find map fst]; [intros _; apply not_elem_of_nil|].
  destruct (Z.eqb_spec n k) as [|Hne]; [done|]. intros E. apply not_elem_of_cons. split; [done|by apply IH].
Qed.

(** Every number above the last block and below the current round that is not cached lies in an
    interval that getRequiredBlocks asks for. *)
Theorem required_blocks_cover c currentRoundNumber n :
  OrdMap.sorted (cachedBlocks_ c) -> Forall (fun kv => in_u 64 kv.1) (cachedBlocks_ c) -> 0 <= getLastSeq c ->
  currentRoundNumber < 2 ^ 64 -> getLastSeq c + 1 < currentRoundNumber -> getLastSeq c < n < currentRoundNumber ->
  OrdMap.find n (cachedBlocks_ c) = None ->
  covers (getRequiredBlocks currentRoundNumber c) n.
Proof.
  intros Hs%sorted_keys Hu Hl Hr Hlr Hn Hf%find_none. apply (Forall_map fst (in_u 64)) in Hu. unfold getRequiredBlocks.
  rewrite (uwrap_id 64) by (unfold in_u; lia). rewrite (proj2 (Z.leb_gt _ _)) by lia. rewrite (proj2 (Z.ltb_lt 0 _)) by lia. rewrite Z.max_r by lia.
  set (keys := map fst (cachedBlocks_ c)) in *. destruct (above_suffix (getLastSeq c + 1) keys Hs) as (pre & Ek & Hpre).
  destruct (List.filter (fun k => getLastSeq c + 1 <? k) keys) as [|s rest] eqn:Efil.
  { assert (covers [(getLastSeq c + 1, currentRoundNumber - 1)] n) as Hcov by (apply covers_cons; left; lia).
    destruct (last keys) as [k|]; [|done]. destruct (k <? _); [|done]. apply covers_app. by left. }
  destruct (last keys) as [lastCached|] eqn:Elast; [|apply last_None in Elast; rewrite Ek in Elast; by destruct pre].
  assert (covers ((getLastSeq c + 1, s - 1) :: gaps s rest) n \/ lastCached < n) as Hcov.
  { rewrite Ek in Hf, Hs, Hu, Elast. apply not_elem_of_app in Hf as [_ Hf]. apply Forall_app in Hu as [_ Hu].
    apply not_elem_of_cons in Hf as [Hns Hf].
    destruct (decide (lastCached < n)) as [|Hge]; [by right|left]. apply covers_cons. destruct (decide (n < s)); [left; lia|right].
    rewrite last_app_cons in Elast. apply gaps_cover; [by apply StronglySorted_app in Hs as (_ & _ & Hs)|done|lia|done|].
    destruct rest as [|x rest]; [cbn in Elast; injection Elast as ->; lia|]. exists lastCached. split; [done|].
    assert (lastCached ∈ x :: rest) as Hin by (by apply last_Some_elem_of). assert (n <> lastCached) by (intros ->; done). lia. }
  destruct Hcov as [Hcov|Hlast]; [by destruct (lastCached <? _); [apply covers_app; left|]|].
  rewrite (proj2 (Z.ltb_lt _ _)) by lia. apply covers_app. right. apply covers_cons. left. lia.
Qed.

(** *** Signatures that arrive later *)

(** When the signatures that a round package brings for the deferred block do not verify,
    deferredBlockExchange returns false but keeps them: the block with these signatures is in the
    storage once the next block is recorded. *)
Theorem bad_signatures_are_stored info signatures p (x := Pool.set_signatures signatures p) c c1 saved q isTrusted r q' c2 events :
  Pool.read_only_ p = false -> StorageSpec.next saved x -> stored (bc_storage_ c) saved ->
  deferredBlockExchange info signatures p c = ret (false, c1) -> record q isTrusted c1 = ret (Some r, q', c2, events) ->
  NodeUtils.checkGroupSignature (Pool.confidants_ x) (pm_realTrustedMask info) signatures (hash_of x) = ret false /\
  Pool.signatures_ x = signatures /\ stored (bc_storage_ c2) (saved ++ [x]).
Proof.
  intros Hro Hn Hs E Erec. unfold deferredBlockExchange in E. fold x in E.
  assert (Pool.read_only_ x = false /\ Pool.is_valid_ x = true /\ Pool.signatures_ x = signatures) as (Hx1 & Hx2 & Hx3)
    by (unfold x, Pool.set_signatures; by rewrite Hro).
  rewrite Pool.compose_valid in E by done. cbn [defined mthen ret] in E.
  pose proof (StorageSpec.copy_composed x Hx2) as Hc. rewrite (StorageSpec.hash_copy _ _ Hc) in E. cbn [defined mthen ret] in E.
  apply mthen_ok in E as (c0 & E0 & E). apply mthen_ok in E as (good & Eg & E). injection E as -> <-.
  destruct (update_same _ _ _ E0) as [[H1 H2 _ _ _] _]. cbn [upd bc_storage_ deferredBlock_] in H1, H2.
  split; [exact Eg|]. split; [done|].
  apply recordBlock_some in Erec as (tip & d1 & lc & d2 & d & d3 & _ & _ & E1 & E2 & E3 & -> & _). cbn [upd bc_storage_].
  destruct (finalizeBlock_same _ _ _ _ _ _ _ E3) as [F _ _ _ _]. rewrite F. cbn [upd bc_storage_].
  eapply last_confidants_stores; [|exact E2]. eapply flush_writes; [|exact Hn| |exact E1]; [by rewrite H1|by rewrite H2].
Qed.
End spec.
End ChainSpec.

(** ** Witnesses *)

#[local] Existing Instance toy_libm.

#[local] Abbreviation chain_t := (BlockChain BerkeleyDB.t (list Wallet)).
#[local] Abbreviation first_element := (fun _ : list PoolElement => 0%nat).
#[local] Abbreviation caught := (fun (p : Pool.priv) (_ : bool) (cache : Cache) => (p, cache)).
#[local] Abbreviation no_method := (fun _ : bytes => @nil Z).
#[local] Abbreviation genesis_address := (sample_public 200).
#[local] Abbreviation holds_chain := (ChainSpec.holds_chain (ok := BerkeleyDB.ok) (rows := BerkeleyDB.rows) (names := BerkeleyDB.names)).

Definition sign_block (key : bytes) (hash : bytes) : bytes := toy_hash (key ++ hash) ++ replicate 32 0.

(** The genesis is stored, the second block is deferred, the third one comes. *)
Definition one_block : Storage BerkeleyDB.t :=
  match Storage.pool_save first_element (Pool.composed genesis) empty_storage with Some (Ok (_, s)) => s | _ => empty_storage end.
Definition sample_chain : chain_t :=
  mkBlockChain one_block ∅ ∅ sample_ids sample_cache 0 ∅ (mkNonEmpty 0 0) [] (Pool.composed second) 0 1 1.

(** A block with its confirmations, signed by the first and the third confidant *)
Definition sealed (p : Pool.priv) (n mask : Z) (confirmations : list bytes) : Pool.priv :=
  let q := p <| Pool.numberConfirmations_ := n |> <| Pool.roundConfirmationMask_ := mask |> <| Pool.roundConfirmations_ := confirmations |> in
  q <| Pool.signatures_ := map (fun k => sign_block (sample_key k) (StorageSpec.hash_of q)) [1; 3] |>.

Definition third_body : Pool.priv := block_at (StorageSpec.hash_of second) 2 1.
Definition third : Pool.priv :=
  sealed third_body 3 6 (map (fun k => sign_block (sample_key k) (BlockChain.trusted_hash 2 (Pool.confidants_ third_body))) [2; 3]).

#[local] Abbreviation sample_store := (BlockChain.storeBlock first_element no_method genesis_address caught).

Lemma one_block_stored : StorageSpec.stored (ok := BerkeleyDB.ok) (rows := BerkeleyDB.rows) (names := BerkeleyDB.names) one_block [genesis].
Proof.
  destruct (StorageSpec.next_saved first_element _ _ _ _ empty_stored genesis_next (composed_copy _ _ _)) as (s & E & Hs & _).
  unfold one_block, genesis. rewrite E. exact Hs.
Qed.

Lemma sample_chain_holds : holds_chain sample_chain [genesis; second].
Proof.
  split; [|done|done|cbn; lia]. exists [genesis]. split; [apply one_block_stored|]. right. exists second.
  split; [done|]. split; [apply second_next; by left|apply composed_copy].
Qed.

Lemma wf_signed p signatures :
  Pool.wf_pool p -> Pool.read_only_ p = false -> popcount (Pool.realTrusted_ p) = Z.of_nat (length signatures) -> Forall (fun k => length k = kSignatureSize) signatures ->
  Pool.wf_pool (Pool.set_signatures signatures p).
Proof. intros [] Hr H1 H2. unfold Pool.set_signatures. rewrite Hr. split; assumption. Qed.

Lemma wf_sealed p n mask confirmations :
  Pool.wf_pool p -> in_u 8 n -> in_u 64 mask -> popcount mask = Z.of_nat (length confirmations) -> Forall (fun k => length k = kSignatureSize) confirmations ->
  popcount (Pool.realTrusted_ p) = 2 -> in_u 64 (Z.of_nat (length (Pool.hashed_enc (sealed p n mask confirmations)))) ->
  Pool.wf_pool (sealed p n mask confirmations).
Proof. intros [] H1 H2 H3 H4 H5 H7. split; try assumption. repeat constructor. Qed.

Lemma third_wf : Pool.wf_pool third.
Proof.
  apply wf_sealed; [|by apply (bool_decide_unpack _); vm_compute..].
  apply block_at_wf; [by right|by apply (bool_decide_unpack _); vm_compute..].
Qed.

Lemma third_received : ChainSpec.received third (Pool.composed third).
Proof. split; [apply third_wf|by apply StorageSpec.copy_composed|done]. Qed.

Lemma third_previous : Pool.previous_hash_ (Pool.composed third) = StorageSpec.tip [genesis; second].
Proof. vm_compute. reflexivity. Qed.

Lemma third_fresh : StorageSpec.hash_of third ∉ map StorageSpec.hash_of [genesis; second].
Proof. apply (bool_decide_unpack _). by vm_compute. Qed.

(** The block of a result that announces one *)
Lemma announced {A} n (m : M (bool * A * chain_t * list ChainEvent)) :
  match m with Some (Ok (true, _, c, [StoreBlockEvent _])) => lastSequence_ c =? n | _ => false end = true ->
  exists p c r, m = ret (true, p, c, [StoreBlockEvent r]) /\ lastSequence_ c = n.
Proof. destruct m as [[[[[[|] p] c] [|[r| |] [|]]]|e]|]; try done. intros E%Z.eqb_eq. by exists p, c, r. Qed.

Lemma third_stored : exists p c r, sample_store (Pool.composed third) true sample_chain = ret (true, p, c, [StoreBlockEvent r]) /\ lastSequence_ c = 2.
Proof. apply announced. vm_compute. reflexivity. Qed.

Lemma recorded_block_is_signed_witness :
  exists p c r, sample_store (Pool.composed third) true sample_chain = ret (true, p, c, [StoreBlockEvent r]) /\
    lastSequence_ c = 2 /\ ChainSpec.signed r /\
    exists lastConfidants, ChainSpec.previous_confidants first_element sample_chain 2 lastConfidants /\ ChainSpec.confirmed r lastConfidants.
Proof.
  destruct third_stored as (p & c & r & E & _). exists p, c, r.
  destruct (ChainSpec.recorded_block_is_signed first_element no_method genesis_address caught (Pool.composed third) true sample_chain true p c [StoreBlockEvent r] r E ltac:(by apply list_elem_of_here))
    as (_ & _ & E1 & _ & _ & _ & E2 & E3).
  split; [exact E|]. split; [exact E1|]. split; [exact E2|]. destruct (E3 ltac:(reflexivity)) as (_ & _ & R). exact R.
Defined.

(** A block with one confirmation that nobody has given *)
Definition forged : Pool.priv := sealed third_body 1 1 [replicate 64 0].

Definition accepted (m : M (bool * Pool.priv * chain_t)) : bool := match m with Some (Ok (b, _, _)) => b | _ => false end.
#[local] Abbreviation finish lastConfidants := (BlockChain.finalizeBlock first_element caught (Pool.composed forged) false lastConfidants sample_chain).

Lemma forged_accepted : accepted (finish []) = true.
Proof. vm_compute. reflexivity. Qed.

Lemma single_confirmation : 0 <= Pool.numberConfirmations_ (Pool.composed forged) <= 1.
Proof. split; by apply (bool_decide_unpack _); vm_compute. Qed.

Lemma single_confirmation_unchecked_witness : accepted (finish (Pool.confidants_ second)) = true.
Proof.
  exact (eq_trans (f_equal accepted (ChainSpec.single_confirmation_unchecked first_element caught (Pool.composed forged) false (Pool.confidants_ second) []
    sample_chain single_confirmation)) forged_accepted).
Defined.

(** *** The chain of the three blocks *)

Definition sample_world (p : Pool.priv) : Prop := p ∈ [genesis; second; third].

Lemma sample_world_ok : ChainSpec.world sample_world.
Proof.
  assert (NoDup (map StorageSpec.hash_of [genesis; second; third])) as Hn by (apply (bool_decide_unpack _); by vm_compute).
  split.
  - intros p [->|[->|[->|[]%elem_of_nil]%elem_of_cons]%elem_of_cons]%elem_of_cons; [apply (StorageSpec.next_wf _ _ genesis_next)| |apply third_wf].
    apply (StorageSpec.next_wf _ _ (second_next 1 ltac:(by left))).
  - intros p p' [i Hi]%list_elem_of_lookup [j Hj]%list_elem_of_lookup E.
    assert (i = j) as ->; [|rewrite Hi in Hj; by injection Hj as ->].
    eapply (NoDup_lookup _ _ _ (StorageSpec.hash_of p') Hn); rewrite list_lookup_fmap; [rewrite Hi|by rewrite Hj]. cbn [fmap option_fmap option_map]. by rewrite E.
Qed.

Lemma sample_chain_of : ChainSpec.chain_of (ok := BerkeleyDB.ok) (rows := BerkeleyDB.rows) (names := BerkeleyDB.names) sample_world sample_chain [genesis; second].
Proof.
  split; [apply sample_chain_holds| |constructor]. unfold sample_world. repeat constructor.
Qed.

#[local] Abbreviation sample_step := (ChainSpec.step first_element no_method genesis_address caught sample_world).

Lemma third_step : exists c, sample_step sample_chain c /\ lastSequence_ c = 2.
Proof.
  destruct third_stored as (p & c & r & E & El). exists c. split; [|exact El].
  apply (ChainSpec.step_store _ _ _ _ _ _ _ (Pool.composed third) true true p [StoreBlockEvent r]); [by left; left|done| |exact E].
  exists third. split; [by right; right; left|apply third_received].
Qed.

Lemma chain_stays_linked_witness :
  exists c chain, rtc sample_step sample_chain c /\ lastSequence_ c = 2 /\ StorageSpec.linked chain /\ head chain = Some genesis /\
    BlockChain.getSize c = Z.of_nat (length chain).
Proof.
  destruct third_step as (c & Hstep & Hlast).
  destruct (ChainSpec.chain_stays_linked first_element no_method genesis_address caught sample_world sample_chain c [genesis; second] sample_world_ok sample_chain_of)
    as (chain & Hl & Eh & _ & Es & _); [by apply rtc_once|].
  exists c, chain. split; [by apply rtc_once|]. split; [exact Hlast|]. split; [exact Hl|]. split; [exact Eh|exact Es].
Defined.

(** *** Taking back *)

Definition stored_chain : chain_t := sample_chain <| bc_storage_ := sample_storage |> <| deferredBlock_ := Pool.default |>.

Lemma stored_chain_holds : holds_chain stored_chain ([genesis] ++ [second]).
Proof.
  split; [|reflexivity|discriminate|reflexivity]. exists [genesis; second]. split; [exact sample_stored|]. left. split; reflexivity.
Qed.

Lemma stored_block_keeps_balances_witness :
  exists c events, BlockChain.removeLastBlock first_element stored_chain = ret (c, events) /\ holds_chain c [genesis] /\
    walletsCache_ c = sample_cache /\ walletIds_ c = sample_ids /\ total_transactions_count_ c = 0.
Proof.
  destruct (ChainSpec.stored_block_keeps_balances first_element stored_chain [genesis] second stored_chain_holds eq_refl ltac:(discriminate) ltac:(discriminate))
    as (c & events & E & R).
  exists c, events. split; [exact E|exact R].
Defined.

Definition third_transfers : list (Transaction * Amount) := map (fun t => (t, of_int 0)) (Pool.transactions_ (Pool.composed third)).

Lemma third_transfer_block : WalletsCache.transfer_block (Pool.composed third) third_transfers (Pool.confidants_ (Pool.composed third)).
Proof.
  split; [|by vm_compute|by vm_compute|by apply (bool_decide_unpack _); vm_compute|by apply (bool_decide_unpack _); vm_compute].
  repeat constructor; by vm_compute.
Qed.

Lemma one_recorded {A E} n (m : M (option Pool.priv * A * chain_t * E)) :
  match m with Some (Ok (Some _, _, c, _)) => blocksToBeRemoved_ c =? n | _ => false end = true ->
  exists r p c events, m = ret (Some r, p, c, events) /\ blocksToBeRemoved_ c = n.
Proof. destruct m as [[[[[[r|] p] c] ev]|e]|]; try done. intros E'%Z.eqb_eq. by exists r, p, c, ev. Qed.

Lemma third_recorded : exists r p c events,
  BlockChain.recordBlock first_element caught (Pool.composed third) false sample_chain = ret (Some r, p, c, events) /\ blocksToBeRemoved_ c = 1.
Proof. apply one_recorded. vm_compute. reflexivity. Qed.

Lemma deferred_block_undone_witness :
  exists r p c events c' d, BlockChain.recordBlock first_element caught (Pool.composed third) false sample_chain = ret (Some r, p, c, events) /\
    BlockChain.removeLastBlock first_element c = ret (c', [RemoveBlockEvent d]) /\ holds_chain c' [genesis; second] /\ lastSequence_ c' = 1 /\
    forall k, balance_ (WalletsCache.getWalletData k (walletsCache_ c')) = balance_ (WalletsCache.getWalletData k sample_cache).
Proof.
  destruct third_recorded as (r & p & c & events & E & Er).
  destruct (ChainSpec.deferred_block_undone first_element caught sample_chain [genesis; second] third (Pool.composed third) third_transfers false r p c events
    sample_chain_holds third_received third_previous third_fresh ltac:(reflexivity) third_transfer_block sample_cache_ok E ltac:(rewrite Er; discriminate))
    as (c' & d & E1 & E2 & E3 & E4).
  exists r, p, c, events, c', d. split; [exact E|]. split; [exact E1|]. split; [exact E2|]. split; [exact E3|]. intros k. apply (E4 k).
Defined.

(** *** A fresh chain *)

Definition fresh_chain : chain_t :=
  sample_chain <| bc_storage_ := empty_storage |> <| deferredBlock_ := Pool.composed genesis |> <| lastSequence_ := 0 |> <| blocksToBeRemoved_ := u64 (0 - 1) |>.
Definition stray : Pool.priv := Pool.composed (block_at (replicate 32 1) 1 1).

Lemma fresh_chain_holds : holds_chain fresh_chain [genesis].
Proof.
  split; [|reflexivity|discriminate|reflexivity]. exists []. split; [exact empty_stored|]. right. exists genesis.
  split; [reflexivity|]. split; [exact genesis_next|apply composed_copy].
Qed.

Lemma stray_other : Pool.previous_hash_ stray <> StorageSpec.hash_of genesis.
Proof. apply (bool_decide_unpack _). vm_compute. exact I. Qed.

Lemma bad_first_block_loses_genesis_witness :
  exists c, sample_store stray false fresh_chain = ret (false, stray, c, []) /\ BlockChain.getSize c = 0 /\
    exists c', sample_store second true c = ret (false, second, c', []) /\ BlockChain.getSize c' = 0.
Proof.
  destruct (ChainSpec.bad_first_block_loses_genesis first_element no_method genesis_address caught fresh_chain genesis stray false fresh_chain_holds eq_refl
    ltac:(discriminate) eq_refl ltac:(discriminate) stray_other) as (c & E1 & E2 & _ & R).
  exists c. split; [exact E1|]. split; [exact E2|]. apply (R second true); [apply second_next; by left|reflexivity].
Defined.

(** *** Missing blocks *)

Definition gap_chain : chain_t :=
  sample_chain <| lastSequence_ := 2 |> <| cachedBlocks_ := map (fun n => (n, mkBlockMeta Pool.default true)) [5; 6; 9] |>.

Lemma required_blocks_cover_witness : ChainSpec.covers (BlockChain.getRequiredBlocks 20 gap_chain) 8 /\ BlockChain.getRequiredBlocks 20 gap_chain = [(3, 4); (7, 8); (9, 19)].
Proof.
  split; [|reflexivity]. apply (ChainSpec.required_blocks_cover gap_chain 20 8); try (unfold BlockChain.getLastSeq; cbn; lia); [| |reflexivity].
  - repeat constructor.
  - repeat constructor; unfold in_u; cbn; lia.
Defined.

(** *** A package with bad signatures *)

Definition bad_signatures : list bytes := [replicate 64 1; replicate 64 2].
Definition bad_package : PoolMetaInfo := mkPoolMetaInfo [] genesis_hash 1 [0; 255; 0].
Definition resigned : Pool.priv := Pool.set_signatures bad_signatures second.

Lemma exchanged : exists c, BlockChain.deferredBlockExchange bad_package bad_signatures second sample_chain = ret (false, c) /\
  exists r p c2 events, BlockChain.recordBlock first_element caught (Pool.composed third) false c = ret (Some r, p, c2, events) /\ blocksToBeRemoved_ c2 = 1.
Proof.
  assert (forall m : M (bool * chain_t), match m with Some (Ok (false, c)) =>
      match BlockChain.recordBlock first_element caught (Pool.composed third) false c with Some (Ok (Some _, _, c, _)) => blocksToBeRemoved_ c =? 1 | _ => false end
    | _ => false end = true -> exists c, m = ret (false, c) /\
      exists r p c2 events, BlockChain.recordBlock first_element caught (Pool.composed third) false c = ret (Some r, p, c2, events) /\ blocksToBeRemoved_ c2 = 1) as H.
  { intros [[[[|] c]|e]|]; try (intros E; discriminate E). intros E%one_recorded. exists c. split; [reflexivity|exact E]. }
  apply H. vm_compute. reflexivity.
Qed.

Lemma resigned_next : StorageSpec.next [genesis] resigned.
Proof.
  destruct (second_next 1 ltac:(by left)) as [Hw H1 H2 H3 H4]. split; [|exact H1|exact H2|exact H3|exact H4].
  apply wf_signed; [exact Hw|reflexivity|reflexivity|repeat constructor].
Qed.

Lemma bad_signatures_are_stored_witness :
  exists c r p c2 events, BlockChain.deferredBlockExchange bad_package bad_signatures second sample_chain = ret (false, c) /\
    BlockChain.recordBlock first_element caught (Pool.composed third) false c = ret (Some r, p, c2, events) /\
    StorageSpec.stored (ok := BerkeleyDB.ok) (rows := BerkeleyDB.rows) (names := BerkeleyDB.names) (bc_storage_ c2) ([genesis] ++ [resigned]) /\
    Pool.signatures_ resigned = bad_signatures.
Proof.
  destruct exchanged as (c & E1 & r & p & c2 & events & E2 & _).
  destruct (ChainSpec.bad_signatures_are_stored first_element caught bad_package bad_signatures second sample_chain c [genesis] (Pool.composed third) false r p c2 events
    eq_refl resigned_next one_block_stored E1 E2) as (_ & E3 & E4).
  exists c, r, p, c2, events. split; [exact E1|]. split; [exact E2|]. split; [exact E4|exact E3].
Defined.
