(* ===== verification/PoolSync.v ===== *)
(** * The synchroniser of blocks ([csnode/src/poolsynchronizer.cpp])

    A node that is behind asks its neighbours for the blocks that it misses: each
    neighbour is given some numbers, a map counts how often a number was asked
    for, and timers decide when to ask again.

    The connections of the transport, the round of the conveyer and the settings
    are arguments; a timer is whether it runs; a request to a neighbour is an
    output.  The slots are connected exactly while [isSyncroStarted_] is set.
    The log is left out. *)

From Stdlib Require Import ZArith Lia SpecFloat.
From stdpp Require Import base tactics numbers option list gmap.
From S2P Require Import Prelude Effect OrdMap BinStream Amount UserField Crypto DataStream Address Utils Transaction Packet MetaStorage Double Pool.
From S2P Require Import Database Storage ContractRef Conveyer Fee Tail WalletsIds WalletsCache BlockChain.

Local Open Scope Z_scope.
Local Open Scope cs_scope.

(** [PoolSyncData] *)
Record PoolSyncData := mkSyncData {
  oneReplyBlock : bool;
  sd_isFastMode : bool;
  blockPoolsCount : Z;
  requestRepeatRoundCount : Z;
  neighbourPacketsCount : Z;
  sequencesVerificationFrequency : Z
}.

(** A connection of the transport *)
Record Connection := mkConnection { cn_key : bytes; isSignal : bool; cn_lastSeq : Z }.

Inductive CounterType := ROUND | TIMER.
Inductive SequenceRemovalAccuracy := EXACT | LOWER_BOUND | UPPER_BOUND.

Record NeighboursSetElemet := mkNeighbour { neighbourIndex_ : Z; nb_key_ : bytes; sequences_ : list Z; roundCounter_ : Z }.
#[export] Instance eta_neighbour : Eta NeighboursSetElemet := fun n =>
  mkNeighbour (neighbourIndex_ n) (nb_key_ n) (sequences_ n) (roundCounter_ n).

(** A request: the target, the numbers and how often they were asked for *)
Record Request := mkRequest { rq_target : Connection; rq_sequences : list Z; rq_packet : Z }.

(** The members of [PoolSynchronizer], with the static counter of [onTimeOut] *)
Record PoolSynchronizer := mkSync {
  isSyncroStarted_ : bool;
  requestedSequences_ : list (Z * Z);
  neighbours_ : list NeighboursSetElemet;
  timer_ : bool;
  roundSimulation_ : bool;
  fastCounter : Z
}.
#[export] Instance eta_sync : Eta PoolSynchronizer := fun s =>
  mkSync (isSyncroStarted_ s) (requestedSequences_ s) (neighbours_ s) (timer_ s) (roundSimulation_ s) (fastCounter s).

(** ** Binary search

    [std::upper_bound], [std::lower_bound]: the number of elements before the
    bound.  [before] says that an element is before it. *)
Fixpoint bound_go (fuel : nat) (before : Z -> bool) (l : list Z) (first len : nat) : nat :=
  match fuel with
  | O => first
  | S fuel =>
      if (len =? 0)%nat then first
      else
        let half := Nat.div2 len in
        let middle := (first + half)%nat in
        if before (default 0 (l !! middle)) then bound_go fuel before l (S middle) (len - half - 1)
        else bound_go fuel before l first half
  end.
Definition bound (before : Z -> bool) (l : list Z) : nat := bound_go (length l) before l 0 (length l).
Definition upper_bound (v : Z) (l : list Z) : nat := bound (fun x => x <=? v) l.
Definition lower_bound (v : Z) (l : list Z) : nat := bound (fun x => x <? v) l.

Module Neighbour.
Implicit Types n : NeighboursSetElemet.

(** [std::find] and [erase] *)
Fixpoint erase_first (v : Z) (l : list Z) : list Z :=
  match l with [] => [] | x :: l => if x =? v then l else x :: erase_first v l end.

Definition removeSequnce (sequence : Z) (accuracy : SequenceRemovalAccuracy) n : bool * NeighboursSetElemet :=
  let l := sequences_ n in
  match accuracy with
  | EXACT => if existsb (Z.eqb sequence) l then (true, n <| sequences_ := erase_first sequence l |>) else (false, n)
  | LOWER_BOUND =>
      let it := upper_bound sequence l in
      if (it =? 0)%nat then (false, n) else (true, n <| sequences_ := drop it l |>)
  | UPPER_BOUND =>
      let it := lower_bound sequence l in
      if (it =? length l)%nat then (false, n) else (true, n <| sequences_ := take it l |>)
  end.
Definition setSequences (sequences : list Z) n : NeighboursSetElemet := n <| sequences_ := sequences |>.
Definition addSequences (sequence : Z) n : NeighboursSetElemet := n <| sequences_ := sequences_ n ++ [sequence] |>.
Definition resetSequences n : NeighboursSetElemet := n <| sequences_ := [] |>.
Definition resetRoundCounter n : NeighboursSetElemet := n <| roundCounter_ := 0 |>.
Definition reset n : NeighboursSetElemet := resetRoundCounter (resetSequences n).
Definition increaseRoundCounter n : NeighboursSetElemet :=
  match sequences_ n with [] => n | _ => n <| roundCounter_ := u64 (roundCounter_ n + 1) |> end.
Definition setIndex (num : Z) n : NeighboursSetElemet := n <| neighbourIndex_ := num |>.
Definition setPublicKey (key : bytes) n : NeighboursSetElemet := n <| nb_key_ := key |>.
(** [operator<] *)
Definition op_lt n n' : bool :=
  match sequences_ n, sequences_ n' with
  | x :: _, y :: _ => x <? y
  | l, l' => (length l' <? length l)%nat
  end.
End Neighbour.

(** ** Single-precision floats *)

Definition float_of (n : Z) : spec_float := binary_normalize 24 128 n 0 false.
(** [static_cast<uint32_t>] *)
Definition to_uint32 (x : spec_float) : M Z :=
  match trunc x with Some z => if (0 <=? z) && (z <? 2 ^ 32) then ret z else None | None => None end.

Module PoolSync.
Section sync.
Context `{!Cscrypto, !Libm} {B : Type} `{!Database B} {D : Type} `{!MultiIndex D}.
Context (begin : list PoolElement -> nat) (invocation_method : bytes -> bytes) (genesisAddress_ : Address).
Context (interrupted : Pool.priv -> bool -> Cache -> Pool.priv * Cache).
(** [std::sort] with [Neighbour.op_lt], the settings, the connections and the current round *)
Context (sort : list NeighboursSetElemet -> list NeighboursSetElemet) (settings : PoolSyncData).
Context (transport : list Connection) (currentRoundNumber : Z).
Implicit Types (s : PoolSynchronizer) (c : BlockChain B D) (n : NeighboursSetElemet).

Definition roundDifferentForSync : Z := 5.

(** *** Reading *)

(** What is left of the way to the current round, in [uint64_t] *)
Definition distance c : Z :=
  u64 (currentRoundNumber - BlockChain.getLastSeq c - Z.of_nat (BlockChain.getCachedBlocksSize c)).

Definition isFastMode s c : bool :=
  if negb (isSyncroStarted_ s) || negb (sd_isFastMode settings) then false else blockPoolsCount settings * 3 <? distance c.
Definition isLastRequest c : bool := distance c <=? blockPoolsCount settings.

(** A division by zero is undefined. *)
Definition isAvailableRequest n : M bool :=
  if roundCounter_ n =? 0 then ret false
  else if requestRepeatRoundCount settings =? 0 then None
  else ret (roundCounter_ n mod requestRepeatRoundCount settings =? 0).

Definition connectionByKey (key : bytes) : option Connection := List.find (fun x => bool_decide (cn_key x = key)) transport.
Definition getConnection n : option Connection :=
  match connectionByKey (nb_key_ n) with Some x => Some x | None => transport !! Z.to_nat (neighbourIndex_ n) end.
Definition getNeighboursCountWithoutSS : nat := length (List.filter (fun x => negb (isSignal x)) transport).
Definition getConnectionLastSequence (x : Connection) : Z := if isSignal x then 0 else cn_lastSeq x.

(** [showSyncronizationProgress]: whether nothing remains.  The casts of a NaN
    and of a difference above 32 bits are undefined. *)
Definition showSyncronizationProgress (lastWrittenSequence : Z) c : M bool :=
  if currentRoundNumber =? 0 then ret false
  else
    let last := float_of (u64 (lastWrittenSequence + Z.of_nat (BlockChain.getCachedBlocksSize c))) in
    let global := float_of (currentRoundNumber - 1) in
    if SFltb global last then ret false
    else
      let maxValue := float_of 100 in
      let percent := SFmul 24 128 (SFdiv 24 128 last global) maxValue in
      do! _ := to_uint32 (if SFltb maxValue percent then maxValue else percent) in
      do! remaining := to_uint32 (SFsub 24 128 global last) in
      ret (remaining =? 0).

(** *** The neighbours *)

Definition synchroFinished s : PoolSynchronizer :=
  s <| timer_ := false |> <| roundSimulation_ := false |> <| isSyncroStarted_ := false |> <| requestedSequences_ := [] |> <| neighbours_ := [] |>.

(** The multimap of the last numbers and the connections, the greatest first *)
Fixpoint insert_desc (x : Z * nat) (l : list (Z * nat)) : list (Z * nat) :=
  match l with
  | [] => [x]
  | y :: l => if y.1 <? x.1 then x :: y :: l else y :: insert_desc x l
  end.
Definition sortBySeqDesc : list nat :=
  map snd (foldl (fun l x => insert_desc x l) [] (imap (fun i x => (getConnectionLastSequence x, i)) transport)).

(** The next number of the iteration: [it] is what is left of the map. *)
Definition next_number (i : nat) (it : list nat) : nat * list nat := match it with [] => (i, []) | k :: it => (k, it) end.

Definition set_at (i : nat) (k : nat) (key : bytes) (l : list NeighboursSetElemet) : list NeighboursSetElemet :=
  alter (fun n => Neighbour.setPublicKey key (Neighbour.setIndex (u8 (Z.of_nat k)) n)) i l.

(** The loop over the known neighbours *)
Fixpoint update_known (count i : nat) (it : list nat) (l : list NeighboursSetElemet) : M (list NeighboursSetElemet * list nat) :=
  match count with
  | O => ret (l, it)
  | S count =>
      let '(k, it) := next_number i it in
      do! neighbour := index transport k in
      if isSignal neighbour then
        if (getNeighboursCountWithoutSS <=? S k)%nat then ret (l, it)
        else do! neighbour := index transport (S k) in update_known count (S i) it (set_at i (S k) (cn_key neighbour) l)
      else update_known count (S i) it (set_at i k (cn_key neighbour) l)
  end.

(** The loop that adds the new ones *)
Fixpoint add_new (count i : nat) (it : list nat) (l : list NeighboursSetElemet) : list NeighboursSetElemet :=
  match count with
  | O => l
  | S count =>
      let '(k, it) := next_number i it in
      let l :=
        match transport !! k with
        | Some neighbour =>
            if negb (isSignal neighbour) && negb (cn_lastSeq neighbour =? 0) && negb (existsb (fun el => neighbourIndex_ el =? Z.of_nat k) l)
            then l ++ [mkNeighbour (u8 (Z.of_nat k)) (cn_key neighbour) [] 0] else l
        | None => l
        end in
      add_new count (S i) it l
  end.

(** The loop over the connections when there are too many neighbours *)
Fixpoint refresh_index (count i currentNh : nat) (it : list nat) (l : list NeighboursSetElemet) : M (list NeighboursSetElemet) :=
  match count with
  | O => ret l
  | S count =>
      let '(k, it) := next_number i it in
      match transport !! k with
      | Some neighbour =>
          if isSignal neighbour then refresh_index count (S i) currentNh it l
          else do! _ := index l currentNh in refresh_index count (S i) (S currentNh) it (set_at currentNh k (cn_key neighbour) l)
      | None => refresh_index count (S i) currentNh it l
      end
  end.

(** One step of the loop that removes the last neighbours: the numbers that only it has are not requested any more. *)
Definition pop_neighbour s : PoolSynchronizer :=
  match last (neighbours_ s) with
  | None => s
  | Some back =>
      let others := removelast (neighbours_ s) in
      let available seq := negb (existsb (fun el => existsb (Z.eqb seq) (sequences_ el)) others) in
      s <| requestedSequences_ := List.filter (fun kv => negb (existsb (Z.eqb kv.1) (List.filter available (sequences_ back)))) (requestedSequences_ s) |>
        <| neighbours_ := others |>
  end.

Definition refreshNeighbours s : M PoolSynchronizer :=
  let needed := getNeighboursCountWithoutSS in
  let nSize := length (neighbours_ s) in
  let all := length transport in
  if (nSize =? needed)%nat then ret s
  else if (nSize <? needed)%nat then
    do! (l, it) := update_known nSize 0 sortBySeqDesc (neighbours_ s) in
    ret (s <| neighbours_ := add_new (all - nSize) nSize it l |>)
  else
    do! l := refresh_index all 0 0 sortBySeqDesc (neighbours_ s) in
    ret (Nat.iter (nSize - needed) pop_neighbour (s <| neighbours_ := l |>)).

(** *** Removing numbers *)

Definition checkNeighbourSequence (sequence : Z) (accuracy : SequenceRemovalAccuracy) s : PoolSynchronizer :=
  match neighbours_ s with
  | [] => s
  | front :: _ =>
      match sequences_ front with
      | [] => s
      | _ =>
          let removed := map (Neighbour.removeSequnce sequence accuracy) (neighbours_ s) in
          let l := map (fun r => match sequences_ r.2 with [] => Neighbour.resetRoundCounter r.2 | _ => r.2 end) removed in
          s <| neighbours_ := if existsb fst removed then sort l else l |>
      end
  end.

Definition removeExistingSequence (sequence : Z) (accuracy : SequenceRemovalAccuracy) s : PoolSynchronizer :=
  let s := checkNeighbourSequence sequence accuracy s in
  let keep k := match accuracy with EXACT => negb (k =? sequence) | LOWER_BOUND => sequence <? k | UPPER_BOUND => k <? sequence end in
  s <| requestedSequences_ := List.filter (fun kv => keep kv.1) (requestedSequences_ s) |>.

(** The slots *)
Definition onWriteBlock (sequence : Z) s : PoolSynchronizer := removeExistingSequence sequence EXACT s.
Definition onRemoveBlock (removedSequence : Z) s : PoolSynchronizer :=
  match neighbours_ s with
  | front :: rest =>
      if (removedSequence <? currentRoundNumber) && (roundDifferentForSync <? currentRoundNumber - removedSequence)
      then s <| neighbours_ := Neighbour.addSequences removedSequence front :: rest |>
      else removeExistingSequence removedSequence EXACT s
  | [] => removeExistingSequence removedSequence EXACT s
  end.
Definition slot (e : ChainEvent) s : PoolSynchronizer :=
  if negb (isSyncroStarted_ s) then s
  else match e with
       | StoreBlockEvent pool => onWriteBlock (Pool.sequence_ pool) s
       | CachedBlockEvent sequence => onWriteBlock sequence s
       | RemoveBlockEvent pool => onRemoveBlock (Pool.sequence_ pool) s
       end.
Definition slots (events : list ChainEvent) s : PoolSynchronizer := foldl (fun s e => slot e s) s events.

(** *** Whether to ask *)

Fixpoint round_activity (l : list NeighboursSetElemet) (isNeedRequest : bool) : M (bool * list NeighboursSetElemet) :=
  match l with
  | [] => ret (isNeedRequest, [])
  | neighbour :: l =>
      let neighbour := Neighbour.increaseRoundCounter neighbour in
      do! isNeedRequest := (if isNeedRequest then ret true else isAvailableRequest neighbour) in
      do! (isNeedRequest, l) := round_activity l isNeedRequest in
      ret (isNeedRequest, neighbour :: l)
  end.

Definition checkActivity (counterType : CounterType) s : M (bool * PoolSynchronizer) :=
  do! s := refreshNeighbours s in
  match neighbours_ s with
  | [] => ret (false, s)
  | _ =>
      match counterType with
      | ROUND => do! (isNeedRequest, l) := round_activity (neighbours_ s) false in ret (isNeedRequest, s <| neighbours_ := l |>)
      | TIMER => ret (existsb (fun n => (length (sequences_ n) =? 0)%nat) (neighbours_ s), s)
      end
  end.

(** *** What to ask for *)

(** The loop over the pairs of missing blocks from the second on; [previous] is the pair before. *)
Fixpoint within_pairs (sequence : Z) (previous : Z * Z) (pairs : list (Z * Z)) : Z :=
  match pairs with
  | [] => sequence
  | next :: pairs =>
      if (next.1 <? sequence) && (sequence <? next.2) then sequence
      else if (previous.2 <? sequence) && (sequence <? next.1) then next.1
      else within_pairs sequence next pairs
  end.

Fixpoint new_sequences (count : nat) (sequence : Z) (first : Z * Z) (rest : list (Z * Z)) : list Z :=
  match count with
  | O => []
  | S count =>
      let sequence := u64 (sequence + 1) in
      let back := (default first (last rest)).2 in
      if negb (back =? 0) && (back <? sequence) then []
      else let sequence := within_pairs sequence first rest in sequence :: new_sequences count sequence first rest
  end.

(** [getNeededSequences] for the neighbour with the number [i] *)
Definition getNeededSequences (i : nat) s c : M (bool * PoolSynchronizer) :=
  do! neighbour := index (neighbours_ s) i in
  let set n s := s <| neighbours_ := <[i := n]> (neighbours_ s) |> in
  let isLastPacket := isLastRequest c in
  if isLastPacket && (0 <? length (requestedSequences_ s))%nat then
    let requested := match sequences_ neighbour with
                     | front :: _ => match OrdMap.find front (requestedSequences_ s) with Some _ => true | None => false end
                     | [] => false
                     end in
    if requested then
      do! available := isAvailableRequest neighbour in
      if available then ret (true, set (Neighbour.resetRoundCounter neighbour) s) else ret (false, s)
    else ret (true, set (Neighbour.setSequences (map fst (requestedSequences_ s)) (Neighbour.reset neighbour)) s)
  else
    match BlockChain.getRequiredBlocks currentRoundNumber c with
    | [] => ret (true, s)
    | first :: rest =>
        let lastWrittenSequence := BlockChain.getLastSeq c in
        let isNeededHelp :=
          if (0 <? neighbourPacketsCount settings) && negb isLastPacket
          then List.find (fun kv => neighbourPacketsCount settings <=? kv.2) (requestedSequences_ s) else None in
        let from sequence :=
          match sequences_ neighbour with
          | _ :: _ => ret (false, s)
          | [] => ret (true, set (Neighbour.setSequences (new_sequences (Z.to_nat (blockPoolsCount settings)) sequence first rest) neighbour) s)
          end in
        match last (requestedSequences_ s) with
        | None => from lastWrittenSequence
        | Some back =>
            match isNeededHelp with
            | Some (sequence, _) =>
                match List.find (fun el => match sequences_ el with front :: _ => front =? sequence | [] => false end) (neighbours_ s) with
                | None => ret (false, s)
                | Some needy =>
                    if bool_decide (sequences_ neighbour = sequences_ needy) then ret (true, s)
                    else
                      let '(neighbour, s) :=
                        match sequences_ neighbour with
                        | front :: _ =>
                            if negb (sequence =? front) then
                              (Neighbour.reset neighbour,
                               s <| requestedSequences_ := List.filter (fun kv => negb (existsb (Z.eqb kv.1) (sequences_ neighbour))) (requestedSequences_ s) |>)
                            else (neighbour, s)
                        | [] => (neighbour, s)
                        end in
                      ret (true, set (Neighbour.setSequences (sequences_ needy) neighbour) s)
                end
            | None =>
                do! available := isAvailableRequest neighbour in
                if available then ret (true, set (Neighbour.resetRoundCounter neighbour) s) else from (Z.max back.1 lastWrittenSequence)
            end
        end
    end.

(** [sendBlock]: the counters of the numbers, and the request *)
Definition count_request (r : list (Z * Z) * Z) (sequence : Z) : list (Z * Z) * Z :=
  let packet := u64 (default 0 (OrdMap.find sequence r.1) + 1) in (OrdMap.assign sequence packet r.1, packet).
Definition sendBlock (neighbour : NeighboursSetElemet) s : PoolSynchronizer * list Request :=
  match getConnection neighbour with
  | None => (s, [])
  | Some target =>
      let '(requested, packet) := foldl count_request (requestedSequences_ s, 0) (sequences_ neighbour) in
      (s <| requestedSequences_ := requested |>, [mkRequest target (sequences_ neighbour) packet])
  end.

(** The loop over the neighbours from the number [i] on *)
Fixpoint request_loop (count i : nat) s c : M (PoolSynchronizer * list Request) :=
  match count with
  | O => ret (s, [])
  | S count =>
      do! (needed, s) := getNeededSequences i s c in
      if negb needed then request_loop count (S i) s c
      else
        do! neighbour := index (neighbours_ s) i in
        match sequences_ neighbour with
        | [] => ret (s, [])
        | _ =>
            let '(s, requests) := sendBlock neighbour s in
            do! (s, more) := request_loop count (S i) s c in
            ret (s, requests ++ more)
        end
  end.

Definition sendBlockRequest s c : M (PoolSynchronizer * list Request) :=
  match neighbours_ s with
  | [] => ret (s, [])
  | _ =>
      let s := removeExistingSequence (BlockChain.getLastSeq c) LOWER_BOUND s in
      request_loop (length (neighbours_ s)) 0 s c
  end.

(** *** The timers *)

Definition onTimeOut s c : M (PoolSynchronizer * list Request) :=
  if negb (isSyncroStarted_ s) then ret (s, [])
  else
    do! (isAvailable, s) :=
      (if isFastMode s c then
         let counter := u8 (fastCounter s + 1) in
         if 20 <? counter then checkActivity ROUND (s <| fastCounter := 0 |>) else ret (false, s <| fastCounter := counter |>)
       else ret (false, s)) in
    do! (isAvailable, s) := (if isAvailable : bool then ret (true, s) else checkActivity TIMER s) in
    if isAvailable : bool then sendBlockRequest s c else ret (s, []).

Definition onRoundSimulation s c : M (PoolSynchronizer * list Request) :=
  do! (isAvailable, s) := checkActivity ROUND s in
  if isAvailable : bool then sendBlockRequest s c else ret (s, []).

(** *** [sync] *)

Definition sync (roundNum difference : Z) (isBigBand : bool) s c : M (PoolSynchronizer * BlockChain B D * list Request) :=
  if (length transport =? 0)%nat then ret (s, c, [])
  else
    let lastWrittenSequence := BlockChain.getLastSeq c in
    if roundNum <=? lastWrittenSequence then
      do! isFinished := showSyncronizationProgress lastWrittenSequence c in
      ret (if isFinished : bool then synchroFinished s else s, c, [])
    else if negb (isSyncroStarted_ s) && (roundNum <? u64 (lastWrittenSequence + difference)) then ret (s, c, [])
    else
      let roundNum := if isSyncroStarted_ s && (0 <? roundNum) then roundNum - 1 else roundNum in
      let totalBlocks := u64 (lastWrittenSequence + Z.of_nat (BlockChain.getCachedBlocksSize c)) in
      let '(c, totalBlocks) := if roundNum <? totalBlocks then (BlockChain.clearBlockCache c, lastWrittenSequence) else (c, totalBlocks) in
      if u64 (roundNum - totalBlocks) =? 0 then
        do! _ := showSyncronizationProgress lastWrittenSequence c in
        ret (synchroFinished s, c, [])
      else
        let useTimer := 1 <? sequencesVerificationFrequency settings in
        let s := if isSyncroStarted_ s && negb useTimer then s <| timer_ := isBigBand |> else s in
        if negb (isSyncroStarted_ s) then
          do! s := refreshNeighbours (s <| isSyncroStarted_ := true |>) in
          do! (s, requests) := sendBlockRequest s c in
          ret (s <| timer_ := timer_ s || isBigBand || useTimer |> <| roundSimulation_ := true |>, c, requests)
        else if 0 <? requestRepeatRoundCount settings then
          do! (isNeedRequest, s) := checkActivity ROUND s in
          do! (isAvailable, s) := (if sequencesVerificationFrequency settings =? 1 then checkActivity TIMER s else ret (false, s)) in
          do! (s, requests) := (if isNeedRequest || isAvailable then sendBlockRequest s c else ret (s, [])) in
          ret (if forallb (fun n => (length (sequences_ n) =? 0)%nat) (neighbours_ s) then synchroFinished s else s, c, requests)
        else ret (s, c, []).

Definition syncLastPool s c : PoolSynchronizer * list Request :=
  let lastWrittenSequence := BlockChain.getLastSeq c in
  match List.find (fun x => lastWrittenSequence <? cn_lastSeq x) (List.filter (fun x => negb (isSignal x)) transport) with
  | None => (s, [])
  | Some connection => (s <| isSyncroStarted_ := true |>, [mkRequest connection [u64 (lastWrittenSequence + 1)] 0])
  end.

(** *** The blocks that come *)

Fixpoint reply_loop (poolsBlock : list Pool.priv) (lastWrittenSequence : Z) s c : M (Z * PoolSynchronizer * BlockChain B D) :=
  match poolsBlock with
  | [] => ret (lastWrittenSequence, s, c)
  | pool :: poolsBlock =>
      if Pool.sequence_ pool <? lastWrittenSequence then reply_loop poolsBlock lastWrittenSequence s c
      else if (length (Pool.signatures_ pool) =? 0)%nat then reply_loop poolsBlock lastWrittenSequence s c
      else
        do! (stored, _, c, events) := BlockChain.storeBlock begin invocation_method genesisAddress_ interrupted pool true c in
        let s := slots events s in
        if stored : bool then
          do! (c, events) := BlockChain.testCachedBlocks begin invocation_method genesisAddress_ interrupted c in
          reply_loop poolsBlock (BlockChain.getLastSeq c) (slots events s) c
        else reply_loop poolsBlock lastWrittenSequence s c
  end.

Definition getBlockReply (poolsBlock : list Pool.priv) s c : M (PoolSynchronizer * BlockChain B D) :=
  match poolsBlock with
  | [] => None
  | _ =>
      let oldLastWrittenSequence := BlockChain.getLastSeq c in
      let oldCachedBlocksSize := BlockChain.getCachedBlocksSize c in
      do! (lastWrittenSequence, s, c) := reply_loop poolsBlock oldLastWrittenSequence s c in
      if negb (oldCachedBlocksSize =? BlockChain.getCachedBlocksSize c)%nat || negb (oldLastWrittenSequence =? lastWrittenSequence) then
        do! isFinished := showSyncronizationProgress lastWrittenSequence c in
        ret (if isFinished : bool then synchroFinished s else s, c)
      else ret (s, c)
  end.
End sync.
End PoolSync.
