(* ===== verification/PoolSyncSpec.v ===== *)
(** * What the synchroniser of blocks guarantees

    In every state that the operations reach, a neighbour is waited for only if
    the first one is, which is what the early return of
    [checkNeighbourSequence] relies on, and without a synchronisation nothing is
    requested ([synchroniser_inv]).  New requests name ascending numbers above
    the chain and above what is requested already ([new_numbers]); a node that is
    behind asks for the next blocks at once ([sync_asks_next]).  What can go
    wrong: a repeat count of 0 divides by zero ([repeat_never_divides]), and the
    progress in single precision ends the synchronisation too early
    ([progress_is_rounded]). *)

From Stdlib Require Import ZArith Lia Sorted SpecFloat.
From stdpp Require Import base tactics numbers option list gmap sorting.
From S2P Require Import Prelude Effect OrdMap BinStream Amount UserField Crypto DataStream Address Utils Transaction Packet MetaStorage Double Pool.
From S2P Require Import Database Storage StorageSpec ContractRef Conveyer Fee Tail WalletsIds AmountMod WalletsCache BlockChain BlockChainSpec PoolSync.

Local Open Scope Z_scope.
Local Open Scope cs_scope.

(** ** Binary search *)

Module BoundSpec.
Section bound.
Context (before : Z -> bool).

Lemma bound_go_spec l1 l2 fuel first len :
  Forall (fun x => before x = true) l1 -> Forall (fun x => before x = false) l2 ->
  (first <= length l1 <= first + len)%nat -> (first + len <= length (l1 ++ l2))%nat -> (len <= fuel)%nat ->
  bound_go fuel before (l1 ++ l2) first len = length l1.
Proof.
  intros H1 H2. revert first len. induction fuel as [|fuel IH]; intros first len Hf Hl Hfuel; cbn [bound_go]; [lia|].
  destruct (Nat.eqb_spec len 0) as [->|Hne]; [lia|]. cbv zeta.
  pose proof (Nat.div2_odd len) as Hd. set (half := Nat.div2 len) in *.
  assert (half < len)%nat as Hh by (destruct (Nat.odd len); cbn in Hd; lia).
  destruct (decide (first + half < length l1)%nat) as [Hlt|Hge].
  - destruct (lookup_lt_is_Some_2 l1 (first + half) Hlt) as [x Hx].
    rewrite (lookup_app_l_Some _ _ _ _ Hx). change (default 0 (Some x)) with x. rewrite (Forall_lookup_1 _ _ _ _ H1 Hx). apply IH; lia.
  - rewrite lookup_app_r by lia. rewrite length_app in Hl.
    destruct (lookup_lt_is_Some_2 l2 (first + half - length l1)) as [x Hx]; [lia|].
    rewrite Hx. change (default 0 (Some x)) with x. rewrite (Forall_lookup_1 _ _ _ _ H2 Hx). apply IH; rewrite ?length_app; lia.
Qed.

(** On a partitioned list the search gives the end of the first part. *)
Lemma bound_spec l1 l2 :
  Forall (fun x => before x = true) l1 -> Forall (fun x => before x = false) l2 -> bound before (l1 ++ l2) = length l1.
Proof. intros H1 H2. unfold bound. apply bound_go_spec; try done; rewrite ?length_app; lia. Qed.
End bound.

(** An ascending list is partitioned by every number. *)
Lemma sorted_split v l :
  StronglySorted Z.lt l -> exists l1 l2, l = l1 ++ l2 /\ Forall (fun x => x <= v) l1 /\ Forall (fun x => v < x) l2.
Proof.
  induction 1 as [|x l Hs IH Hx]; [by exists [], []|]. destruct (Z.le_gt_cases x v) as [Hle|Hgt].
  - destruct IH as (l1 & l2 & -> & H1 & H2). exists (x :: l1), l2. by repeat constructor.
  - exists [], (x :: l). split; [done|]. split; [constructor|]. constructor; [done|]. eapply Forall_impl; [exact Hx|]. cbn. lia.
Qed.

(** NeighboursSetElemet::removeSequnce with LOWER_BOUND on ascending numbers keeps those above. *)
Lemma remove_lower v n :
  StronglySorted Z.lt (sequences_ n) ->
  sequences_ (Neighbour.removeSequnce v LOWER_BOUND n).2 = List.filter (fun x => v <? x) (sequences_ n).
Proof.
  intros Hs. destruct (sorted_split v _ Hs) as (l1 & l2 & E & H1 & H2). cbn [Neighbour.removeSequnce].
  assert (upper_bound v (sequences_ n) = length l1) as ->.
  { rewrite E. apply bound_spec; (eapply Forall_impl; [eassumption|]); cbn; intros x Hx; [by apply Z.leb_le|apply Z.leb_gt; lia]. }
  assert (List.filter (fun x => v <? x) (sequences_ n) = l2) as ->.
  { rewrite E, List.filter_app. clear E Hs. replace (List.filter (fun x => v <? x) l1) with (@nil Z).
    - cbn [app]. induction H2 as [|x l2 Hx _ IH]; cbn [List.filter]; [done|]. by rewrite (proj2 (Z.ltb_lt v x) Hx), IH.
    - symmetry. induction H1 as [|x l1 Hx _ IH]; cbn [List.filter]; [done|]. by rewrite (proj2 (Z.ltb_ge v x) Hx). }
  destruct (Nat.eqb_spec (length l1) 0) as [Hz|Hz]; cbn [snd upd sequences_].
  - apply nil_length_inv in Hz as ->. exact E.
  - rewrite E. apply drop_app_length.
Qed.
End BoundSpec.

(** ** The numbers of a request *)

Module NumbersSpec.
Import PoolSync.

Lemma within_pairs_ge sequence previous l : sequence <= within_pairs sequence previous l.
Proof.
  revert previous. induction l as [|[a b] l IH]; intros previous; cbn [within_pairs fst snd]; [lia|].
  destruct (Z.ltb_spec a sequence); destruct (Z.ltb_spec sequence b); cbn [andb]; try lia;
    destruct (Z.ltb_spec previous.2 sequence); destruct (Z.ltb_spec sequence a); cbn [andb]; try lia; apply IH.
Qed.

Lemma within_pairs_cases sequence previous l :
  within_pairs sequence previous l = sequence \/ exists p, p ∈ l /\ within_pairs sequence previous l = p.1.
Proof.
  revert previous. induction l as [|q l IH]; intros previous; cbn [within_pairs]; [by left|].
  destruct (_ && _); [by left|]. destruct (_ && _); [right; exists q; split; [by left|done]|].
  destruct (IH q) as [E|(p & Hp & E)]; [by left|]. right. exists p. split; [by right|done].
Qed.

(** The end of the last pair bounds the starts. *)
Definition bounded_by (back : Z) (l : list (Z * Z)) : Prop := Forall (fun p => p.1 <= back) l.

Lemma new_sequences_spec count sequence first rest :
  let back := (default first (last rest)).2 in
  0 <= sequence < 2 ^ 64 - 1 -> 0 < back < 2 ^ 64 - 1 -> bounded_by back rest ->
  let l := new_sequences count sequence first rest in
  (length l <= count)%nat /\ StronglySorted Z.lt l /\ Forall (fun x => sequence < x <= back) l.
Proof.
  intros back H0 Hb Hr. revert sequence H0. induction count as [|count IH]; intros sequence H0; cbn [new_sequences]; cbv zeta.
  { repeat constructor. }
  rewrite uwrap_id by (unfold in_u; lia). fold back. rewrite (proj2 (Z.eqb_neq back 0)) by lia. cbn [negb andb].
  destruct (Z.ltb_spec back (sequence + 1)) as [Hlt|Hge]; [repeat constructor; cbn; lia|].
  pose proof (within_pairs_ge (sequence + 1) first rest) as Hw.
  assert (within_pairs (sequence + 1) first rest <= back) as Hle.
  { destruct (within_pairs_cases (sequence + 1) first rest) as [->|(p & Hp & ->)]; [lia|]. exact (proj1 (Forall_forall _ _) Hr p Hp). }
  destruct (IH (within_pairs (sequence + 1) first rest)) as (Hl & Hs & Hf); [lia|].
  split; [cbn [length]; lia|]. split.
  - constructor; [done|]. eapply Forall_impl; [exact Hf|]. cbn. lia.
  - constructor; [lia|]. eapply Forall_impl; [exact Hf|]. cbn. lia.
Qed.

(** With one pair of missing blocks the numbers are the next ones. *)
Lemma new_sequences_next count sequence a back :
  0 <= sequence -> sequence <= back < 2 ^ 64 - 1 -> 0 < back ->
  new_sequences count sequence (a, back) [] = seqZ (sequence + 1) (Z.min (Z.of_nat count) (back - sequence)).
Proof.
  intros H0 Hb Hp. revert sequence H0 Hb. induction count as [|count IH]; intros sequence H0 Hb; [by rewrite Z.min_l by lia|].
  cbn [new_sequences]. cbv zeta. change (default (a, back) (last [])).2 with back. rewrite uwrap_id by (unfold in_u; lia).
  rewrite (proj2 (Z.eqb_neq back 0)) by lia. cbn [negb andb within_pairs].
  destruct (Z.ltb_spec back (sequence + 1)); [by rewrite seqZ_nil by lia|].
  rewrite (seqZ_cons (sequence + 1)) by lia. f_equal. rewrite IH by lia. f_equal; lia.
Qed.

(** The pairs of missing blocks between the cached ones *)
Lemma gaps_inside last_ s l :
  StronglySorted Z.lt (s :: l) -> 0 <= s -> Forall (fun k => k <= last_) (s :: l) -> last_ < 2 ^ 64 - 1 ->
  Forall (fun p => s < p.1 <= p.2 /\ p.2 < last_) (BlockChain.gaps s l).
Proof.
  revert s. induction l as [|x l IH]; intros s Hs H0 Hk Hl; cbn [BlockChain.gaps]; [constructor|].
  apply StronglySorted_inv in Hs as [Hs Hx]. apply Forall_cons in Hx as [Hx _]. apply Forall_cons in Hk as [_ Hk].
  assert (x <= last_) by by apply Forall_cons in Hk as [? _].
  assert (Forall (fun p => s < p.1 <= p.2 /\ p.2 < last_) (BlockChain.gaps x l)) as Hg.
  { eapply Forall_impl; [apply IH; [done|lia|done|done]|]. cbn. lia. }
  rewrite !(uwrap_id 64) by (unfold in_u; lia). destruct (Z.eqb_spec x (s + 1)) as [->|Hne]; cbn [negb]; [done|].
  constructor; [cbn; lia|done].
Qed.

Lemma gaps_last last_ s l :
  StronglySorted Z.lt (s :: l) -> 0 <= s -> Forall (fun k => k <= last_) (s :: l) -> last_ < 2 ^ 64 - 1 ->
  forall d, bounded_by (default d (last (BlockChain.gaps s l))).2 (BlockChain.gaps s l).
Proof.
  revert s. induction l as [|x l IH]; intros s Hs H0 Hk Hl d; cbn [BlockChain.gaps]; [constructor|].
  pose proof (gaps_inside last_ s (x :: l) Hs H0 Hk Hl) as Hin. cbn [BlockChain.gaps] in Hin.
  apply StronglySorted_inv in Hs as [Hs Hx]. apply Forall_cons in Hx as [Hx _]. apply Forall_cons in Hk as [_ Hk].
  assert (x <= last_) by by apply Forall_cons in Hk as [? _].
  rewrite !(uwrap_id 64) in * by (unfold in_u; lia). destruct (Z.eqb_spec x (s + 1)) as [->|Hne]; cbn [negb] in *; [apply IH; [done|lia|done|done]|].
  pose proof (IH x Hs ltac:(lia) Hk Hl (s + 1, x - 1)) as IH'. pose proof (gaps_inside last_ x l Hs ltac:(lia) Hk Hl) as Hin2.
  destruct (BlockChain.gaps x l) as [|p g] eqn:Eg; [constructor; [cbn; lia|constructor]|].
  change (last ((s + 1, x - 1) :: p :: g)) with (last (p :: g)).
  destruct (last (p :: g)) as [q|] eqn:Eq; [|by apply last_None in Eq]. cbn [from_option Datatypes.id] in *.
  constructor; [|exact IH']. apply last_Some_elem_of in Eq. pose proof (proj1 (Forall_forall _ _) Hin2 q Eq). cbn in *. lia.
Qed.
End NumbersSpec.

(** ** The invariant *)

Module SyncSpec.
Import PoolSync.
Section spec.
Context `{!Cscrypto, !Libm} {B : Type} `{!Database B} {D : Type} `{!MultiIndex D}.
Context (begin : list PoolElement -> nat) (invocation_method : bytes -> bytes) (genesisAddress_ : Address).
Context (interrupted : Pool.priv -> bool -> Cache -> Pool.priv * Cache).
(** [std::sort] gives a permutation that is sorted. *)
Context (sort : list NeighboursSetElemet -> list NeighboursSetElemet) (sort_perm : forall l, sort l ≡ₚ l).
Context (sort_sorted : forall l, StronglySorted (fun x y => Neighbour.op_lt y x = false) (sort l)).
Implicit Types (s : PoolSynchronizer) (c : BlockChain B D) (n : NeighboursSetElemet).

Definition waits n : Prop := sequences_ n <> [].
Definition free n : Prop := sequences_ n = [].
Definition idle n : Prop := sequences_ n = [] /\ roundCounter_ n = 0.

#[local] Instance free_dec n : Decision (free n).
Proof. unfold free. apply _. Defined.

(** The first neighbour is waited for, or none is. *)
Definition front_first (l : list NeighboursSetElemet) : Prop := Forall free l \/ exists n l', l = n :: l' /\ waits n.

Record inv s : Prop := {
  inv_sorted : OrdMap.sorted (requestedSequences_ s);
  inv_front : front_first (neighbours_ s);
  inv_idle : isSyncroStarted_ s = false -> requestedSequences_ s = [] /\ Forall idle (neighbours_ s)
}.

(** What the index and the key of a neighbour have no part in *)
Definition core n : list Z * Z := (sequences_ n, roundCounter_ n).

Lemma front_sequences l l' : map sequences_ l = map sequences_ l' -> front_first l -> front_first l'.
Proof.
  intros E [Hf|(n & k & -> & Hn)].
  - left. revert l' E. induction Hf as [|n l Hn Hf IH]; intros [|n' l'] E; try done. injection E as E1 E2.
    constructor; [unfold free in *; congruence|by apply IH].
  - destruct l' as [|n' l']; [done|]. injection E as E1 E2. right. exists n', l'. split; [done|]. unfold waits in *. congruence.
Qed.

Lemma front_core l l' : map core l = map core l' -> front_first l -> front_first l'.
Proof. intros E. apply front_sequences. apply (f_equal (map fst)) in E. by rewrite !map_map in E. Qed.

Lemma idle_core l l' : map core l = map core l' -> Forall idle l -> Forall idle l'.
Proof.
  intros E Hf. revert l' E. induction Hf as [|n l [Hn Hr] Hf IH]; intros [|n' l'] E; try done. injection E as E1 E2 E3.
  constructor; [unfold idle in *; split; congruence|by apply IH].
Qed.

Lemma front_app_idle l k : front_first l -> Forall free k -> front_first (l ++ k).
Proof.
  intros [Hf|(n & m & -> & Hn)] Hk; [left; by apply Forall_app|]. right. by exists n, (m ++ k).
Qed.

Lemma front_removelast l : front_first l -> front_first (removelast l).
Proof.
  intros [Hf|(n & m & -> & Hn)].
  - left. induction Hf as [|n l Hn Hf IH]; [constructor|]. destruct l; [constructor|]. cbn [removelast]. by constructor.
  - destruct m as [|n' m]; [left; constructor|]. right. by exists n, (removelast (n' :: m)).
Qed.

Lemma idle_free l : Forall idle l -> Forall free l.
Proof. intros Hl. eapply Forall_impl; [exact Hl|]. by intros n [? _]. Qed.

(** *** Refreshing *)

Lemma core_set_at i k key l : map core (set_at i k key l) = map core l.
Proof. unfold set_at. revert i. induction l as [|n l IH]; intros [|i]; cbn; [done..|]. f_equal. apply IH. Qed.

Lemma core_update_known transport count i it l l' it' :
  update_known transport count i it l = ret (l', it') -> map core l' = map core l.
Proof.
  revert i it l. induction count as [|count IH]; intros i it l; cbn [update_known]; [by intros [= <- <-]|].
  destruct (next_number i it) as [k it1]. intros (nb & _ & E)%mthen_ok. destruct (isSignal nb).
  - destruct (_ <=? _)%nat; [by injection E as <- <-|]. apply mthen_ok in E as (nb' & _ & E).
    rewrite (IH _ _ _ E). apply core_set_at.
  - rewrite (IH _ _ _ E). apply core_set_at.
Qed.

Lemma core_refresh_index transport count i k it l l' :
  refresh_index transport count i k it l = ret l' -> map core l' = map core l.
Proof.
  revert i k it l. induction count as [|count IH]; intros i k it l; cbn [refresh_index]; [by intros [= <-]|].
  destruct (next_number i it) as [j it1]. destruct (transport !! j) as [nb|]; [|apply IH]. destruct (isSignal nb); [apply IH|].
  intros (nb' & _ & E)%mthen_ok. rewrite (IH _ _ _ _ E). apply core_set_at.
Qed.

Lemma add_new_app transport count i it l : exists k, add_new transport count i it l = l ++ k /\ Forall idle k.
Proof.
  revert i it l. induction count as [|count IH]; intros i it l; cbn [add_new]; [exists []; by rewrite app_nil_r|].
  destruct (next_number i it) as [j it1]. destruct (transport !! j) as [nb|]; [|apply IH].
  destruct (_ && _); [|apply IH]. destruct (IH (S i) it1 (l ++ [mkNeighbour (u8 (Z.of_nat j)) (cn_key nb) [] 0])) as (k & E & Hk).
  exists (mkNeighbour (u8 (Z.of_nat j)) (cn_key nb) [] 0 :: k). rewrite E, <- app_assoc. split; [done|]. by repeat constructor.
Qed.

Lemma removelast_Forall (P : NeighboursSetElemet -> Prop) l : Forall P l -> Forall P (removelast l).
Proof. induction 1 as [|n l Hn Hl IH]; [constructor|]. destruct l; [constructor|]. cbn [removelast]. by constructor. Qed.

Lemma pop_started s : isSyncroStarted_ (pop_neighbour s) = isSyncroStarted_ s.
Proof. unfold pop_neighbour. by case_match. Qed.

Lemma pops_started m s : isSyncroStarted_ (Nat.iter m pop_neighbour s) = isSyncroStarted_ s.
Proof. induction m as [|m IH]; [done|]. by rewrite Nat.iter_succ, pop_started. Qed.

Lemma inv_pop s : inv s -> inv (pop_neighbour s).
Proof.
  intros [Hs Hf Hi]. unfold pop_neighbour. destruct (last (neighbours_ s)) as [back|]; [|by split]. split; cbn [upd requestedSequences_ neighbours_ isSyncroStarted_].
  - by apply OrdMap.sorted_filter.
  - by apply front_removelast.
  - intros E. destruct (Hi E) as [-> Hn]. split; [done|by apply removelast_Forall].
Qed.

(** Replacing the neighbours by ones with the same numbers and counters, and adding idle ones *)
Lemma inv_neighbours s l k : inv s -> map core l = map core (neighbours_ s) -> Forall idle k -> inv (s <| neighbours_ := l ++ k |>).
Proof.
  intros [Hs Hf Hi] E Hk. split; cbn [upd requestedSequences_ neighbours_ isSyncroStarted_]; [done| |].
  - apply front_app_idle; [by apply (front_core (neighbours_ s))|by apply idle_free].
  - intros Es. destruct (Hi Es) as [-> Hn]. split; [done|]. apply Forall_app. split; [by apply (idle_core (neighbours_ s))|done].
Qed.

Lemma inv_refresh transport s s' : inv s -> refreshNeighbours transport s = ret s' -> inv s'.
Proof.
  intros Hs. unfold refreshNeighbours. destruct (_ =? _)%nat; [by intros [= <-]|]. destruct (_ <? _)%nat.
  - intros ([l it] & E & E')%mthen_ok. injection E' as <-. apply core_update_known in E.
    destruct (add_new_app transport (length transport - length (neighbours_ s)) (length (neighbours_ s)) it l) as (k & -> & Hk).
    by apply inv_neighbours.
  - intros (l & E & E')%mthen_ok. injection E' as <-. apply core_refresh_index in E.
    assert (inv (s <| neighbours_ := l |>)) as Hl by (rewrite <- (app_nil_r l); by apply inv_neighbours).
    induction (length (neighbours_ s) - getNeighboursCountWithoutSS transport)%nat as [|m IH]; [done|]. cbn [Nat.iter]. by apply inv_pop.
Qed.

(** *** Removing *)

Lemma front_sort l : front_first (sort l).
Proof using sort_sorted.
  pose proof (sort_sorted l) as Hs. destruct (sort l) as [|n k]; [left; constructor|]. apply StronglySorted_inv in Hs as [_ Hs].
  destruct (decide (free n)) as [Hn|Hn]; [|right; by exists n, k]. left. constructor; [done|]. eapply Forall_impl; [exact Hs|].
  intros m Hm. unfold free, Neighbour.op_lt in *. rewrite Hn in Hm. by destruct (sequences_ m).
Qed.

Lemma removed_fst sequence accuracy n : (Neighbour.removeSequnce sequence accuracy n).1 = false -> (Neighbour.removeSequnce sequence accuracy n).2 = n.
Proof. unfold Neighbour.removeSequnce. destruct accuracy; by case_match. Qed.

Lemma removed_free sequence accuracy n : free n -> (Neighbour.removeSequnce sequence accuracy n).2 = n.
Proof. unfold free, Neighbour.removeSequnce. intros E. rewrite E. by destruct accuracy. Qed.

Definition settle n : NeighboursSetElemet := match sequences_ n with [] => Neighbour.resetRoundCounter n | _ => n end.

Lemma settle_sequences n : sequences_ (settle n) = sequences_ n.
Proof. unfold settle. by case_match. Qed.

Lemma checkNeighbourSequence_front sequence accuracy s :
  front_first (neighbours_ s) -> front_first (neighbours_ (checkNeighbourSequence sort sequence accuracy s)).
Proof using sort_sorted.
  intros Hf. unfold checkNeighbourSequence. destruct (neighbours_ s) as [|front rest] eqn:En; [by rewrite En|].
  destruct (sequences_ front) as [|x xs] eqn:Ef; [by rewrite En|]. cbn [upd neighbours_]. rewrite <- En in *. clear rest En.
  destruct (existsb fst _) eqn:Ex; [apply front_sort|].
  apply (front_sequences (neighbours_ s)); [|done]. rewrite !map_map.
  clear Hf front x xs Ef. induction (neighbours_ s) as [|n l IH]; [done|]. cbn [map existsb] in *. apply orb_false_iff in Ex as [Ex1 Ex2].
  rewrite <- IH by done. f_equal. fold (settle (Neighbour.removeSequnce sequence accuracy n).2). by rewrite settle_sequences, (removed_fst _ _ _ Ex1).
Qed.

Lemma inv_remove sequence accuracy s : inv s -> inv (removeExistingSequence sort sequence accuracy s).
Proof using sort_sorted.
  intros [Hs Hf Hi]. unfold removeExistingSequence.
  assert (requestedSequences_ (checkNeighbourSequence sort sequence accuracy s) = requestedSequences_ s /\
    isSyncroStarted_ (checkNeighbourSequence sort sequence accuracy s) = isSyncroStarted_ s) as [Er Est].
  { unfold checkNeighbourSequence. by repeat case_match. }
  split; cbn [upd requestedSequences_ neighbours_ isSyncroStarted_]; rewrite ?Er, ?Est.
  - by apply OrdMap.sorted_filter.
  - by apply checkNeighbourSequence_front.
  - intros E. destruct (Hi E) as [-> Hn]. split; [done|]. unfold checkNeighbourSequence.
    destruct (neighbours_ s) as [|front rest] eqn:En; [by rewrite En|]. apply Forall_cons in Hn as Hn'. destruct Hn' as [[-> _] _]. by rewrite En.
Qed.

Lemma inv_slot currentRoundNumber e s : inv s -> inv (slot sort currentRoundNumber e s).
Proof using sort_sorted.
  intros Hs. unfold slot. destruct (isSyncroStarted_ s) eqn:Est; cbn [negb]; [|done].
  destruct e as [pool|sequence|pool]; [by apply inv_remove..|]. unfold onRemoveBlock.
  destruct (neighbours_ s) as [|front rest] eqn:En; [by apply inv_remove|]. destruct (_ && _); [|by apply inv_remove].
  destruct Hs as [Hs Hf Hi]. split; cbn [upd requestedSequences_ neighbours_ isSyncroStarted_]; [done| |by rewrite Est].
  right. do 2 eexists. split; [done|]. unfold waits. cbn. by destruct (sequences_ front).
Qed.

Lemma inv_slots currentRoundNumber events s : inv s -> inv (slots sort currentRoundNumber events s).
Proof using sort_sorted.
  unfold slots. revert s. induction events as [|e events IH]; intros s Hs; cbn [foldl]; [done|]. by apply IH, inv_slot.
Qed.

Lemma inv_finished s : inv (synchroFinished s).
Proof. split; cbn; [constructor|left; constructor|by repeat constructor]. Qed.

(** *** Asking *)

Lemma round_activity_spec settings l need need' l' :
  round_activity settings l need = ret (need', l') ->
  map sequences_ l' = map sequences_ l /\ (Forall idle l -> need = false -> need' = false /\ Forall idle l').
Proof.
  revert need l'. induction l as [|n l IH]; intros need l'; cbn [round_activity]; [intros [= <- <-]; by split|].
  intros (need1 & E1 & ([need2 l2] & E2 & E3)%mthen_ok)%mthen_ok. injection E3 as <- <-. destruct (IH _ _ E2) as [Em Hidle].
  split.
  - cbn [map]. rewrite Em. f_equal. unfold Neighbour.increaseRoundCounter. by destruct (sequences_ n) eqn:En.
  - intros [[Hn Hr] Hl]%Forall_cons ->. assert (Neighbour.increaseRoundCounter n = n) as En by (unfold Neighbour.increaseRoundCounter; by rewrite Hn).
    rewrite En in *. unfold isAvailableRequest in E1. rewrite Hr in E1. cbn in E1. injection E1 as <-.
    destruct (Hidle Hl eq_refl) as [-> Hl2]. split; [done|]. by constructor.
Qed.

(** What counts the rounds asks for nothing when there is no synchronisation. *)
Lemma inv_checkActivity settings transport counterType s b s' :
  inv s -> checkActivity settings transport counterType s = ret (b, s') ->
  inv s' /\ isSyncroStarted_ s' = isSyncroStarted_ s /\ (isSyncroStarted_ s = false -> counterType = ROUND -> b = false).
Proof.
  intros Hs. unfold checkActivity. intros (s1 & E1 & E2)%mthen_ok.
  assert (isSyncroStarted_ s1 = isSyncroStarted_ s) as Est.
  { unfold refreshNeighbours in E1. destruct (_ =? _)%nat; [by injection E1 as <-|]. destruct (_ <? _)%nat.
    - apply mthen_ok in E1 as ([l it] & _ & E). by injection E as <-.
    - apply mthen_ok in E1 as (l & _ & E). injection E as <-. by rewrite pops_started. }
  apply inv_refresh in E1; [|done]. rewrite <- Est. clear Hs Est s.
  destruct (neighbours_ s1) as [|n l] eqn:En; [injection E2 as <- <-; by split_and!|].
  destruct counterType; [|injection E2 as <- <-; by split_and!].
  apply mthen_ok in E2 as ([need l'] & Er & E2). injection E2 as <- <-. apply round_activity_spec in Er as [Em Hidle].
  destruct E1 as [Hs Hf Hi]. rewrite En in *. split_and!; [|done|].
  - split; cbn [upd requestedSequences_ neighbours_ isSyncroStarted_]; [done|by apply (front_sequences (n :: l))|].
    intros E. destruct (Hi E) as [-> Hn]. split; [done|]. by apply Hidle.
  - intros E _. destruct (Hi E) as [_ Hn]. by destruct (Hidle Hn eq_refl).
Qed.

Section asking.
Context (settings : PoolSyncData) (transport : list Connection) (currentRoundNumber : Z).

Definition busy (l : list NeighboursSetElemet) : Prop := exists n l', l = n :: l' /\ waits n.

(** A number was asked for too often, and no neighbour starts with it. *)
Definition stuck s c : Prop :=
  isLastRequest settings currentRoundNumber c = false /\ 0 < neighbourPacketsCount settings /\
  exists kv, List.find (fun kv => neighbourPacketsCount settings <=? kv.2) (requestedSequences_ s) = Some kv /\
    List.find (fun el => match sequences_ el with front :: _ => front =? kv.1 | [] => false end) (neighbours_ s) = None.

Lemma sequences_insert i n n' l :
  l !! i = Some n -> sequences_ n' = sequences_ n -> map sequences_ l = map sequences_ (<[i := n']> l).
Proof.
  intros Hi E. change (map sequences_) with (fmap (M := list) sequences_). rewrite list_fmap_insert, E. symmetry. apply list_insert_id.
  by rewrite list_lookup_fmap, Hi.
Qed.

Lemma busy_insert i n l : is_Some (l !! i) -> i = 0%nat \/ busy l -> waits n -> busy (<[i := n]> l).
Proof.
  intros Hi Hb Hn. destruct i as [|i].
  - destruct l as [|m l]; [by destruct Hi|]. by exists n, l.
  - destruct Hb as [Hb|(m & k & -> & Hm)]; [done|]. by exists m, (<[i := n]> k).
Qed.

Lemma busy_front l : busy l -> front_first l.
Proof. intros Hb. by right. Qed.

Lemma not_busy_free l : front_first l -> busy l \/ Forall free l.
Proof. intros [Hf|Hb]; [by right|by left]. Qed.

(** What one question to the neighbour [i] keeps *)
Definition asked i c s b s' : Prop :=
  OrdMap.sorted (requestedSequences_ s') /\ front_first (neighbours_ s') /\ isSyncroStarted_ s' = isSyncroStarted_ s /\
  (busy (neighbours_ s') \/ stuck s' c \/ (b = true /\ exists n, neighbours_ s' !! i = Some n /\ free n)).

Lemma asked_set i c s s1 n n' :
  inv s -> neighbours_ s !! i = Some n -> i = 0%nat \/ busy (neighbours_ s) -> OrdMap.sorted (requestedSequences_ s1) ->
  neighbours_ s1 = neighbours_ s -> isSyncroStarted_ s1 = isSyncroStarted_ s -> waits n' \/ free n ->
  asked i c s true (s1 <| neighbours_ := <[i := n']> (neighbours_ s1) |>).
Proof.
  intros [Hs Hf Hi] Hn Hb Hs1 -> Est Hw. unfold asked. cbn [upd requestedSequences_ neighbours_ isSyncroStarted_].
  destruct (decide (free n')) as [Hn'|Hn'].
  - destruct Hw as [Hw|Hw]; [done|]. pose proof (sequences_insert i n n' _ Hn) as E.
    split_and!; [done| |done|].
    + apply (front_sequences (neighbours_ s)); [apply E; unfold free in *; congruence|done].
    + right. right. split; [done|]. exists n'. split; [|done]. apply list_lookup_insert_eq. by eapply lookup_lt_Some.
  - assert (busy (<[i := n']> (neighbours_ s))) as Hbusy by (apply busy_insert; [by exists n|done|done]).
    split_and!; [done|by apply busy_front|done|by left].
Qed.

Lemma asked_same i c s b n n' :
  inv s -> neighbours_ s !! i = Some n -> busy (neighbours_ s) \/ (b = true /\ free n) -> sequences_ n' = sequences_ n ->
  asked i c s b (s <| neighbours_ := <[i := n']> (neighbours_ s) |>).
Proof.
  intros [Hs Hf Hi] Hn Hb E. unfold asked. cbn [upd requestedSequences_ neighbours_ isSyncroStarted_].
  pose proof (sequences_insert i n n' _ Hn E) as Em.
  split_and!; [done|by apply (front_sequences (neighbours_ s))|done|]. destruct Hb as [(m & k & Ek & Hm)|[-> Hfr]].
  - left. rewrite Ek in *. destruct i as [|i]; [injection Hn as ->; exists n', k; split; [done|unfold waits in *; congruence]|by exists m, (<[i := n']> k)].
  - right. right. split; [done|]. exists n'. split; [apply list_lookup_insert_eq; by eapply lookup_lt_Some|unfold free in *; congruence].
Qed.

(** The neighbour [i] is waited for, or it is free: then it is the first one and all are. *)
Lemma first_or_busy i n s : neighbours_ s !! i = Some n -> i = 0%nat \/ busy (neighbours_ s) -> busy (neighbours_ s) \/ free n.
Proof.
  intros Hn [->|Hb]; [|by left]. destruct (neighbours_ s) as [|m l]; [done|]. injection Hn as ->.
  destruct (decide (free n)); [by right|]. left. by exists n, l.
Qed.

Lemma asked_keep i c s b n :
  inv s -> neighbours_ s !! i = Some n -> busy (neighbours_ s) \/ stuck s c \/ (b = true /\ free n) -> asked i c s b s.
Proof. intros [Hs Hf Hi] Hn Hb. split_and!; [done..|]. destruct Hb as [Hb|[Hb|[-> Hb]]]; [by left|by right; left|]. right. right. eauto. Qed.

(** New numbers for a neighbour that waits for nothing *)
Lemma fresh_asked i s c n l b s' :
  match sequences_ n with
  | _ :: _ => ret (false, s)
  | [] => ret (true, s <| neighbours_ := <[i := Neighbour.setSequences l n]> (neighbours_ s) |>)
  end = ret (b, s') ->
  inv s -> neighbours_ s !! i = Some n -> i = 0%nat \/ busy (neighbours_ s) -> asked i c s b s'.
Proof.
  intros E Hs Hi Hib. destruct (first_or_busy i n s Hi Hib) as [Hfb|Hfb].
  - destruct (sequences_ n) eqn:En; injection E as <- <-; [|apply (asked_keep i c s false n); auto].
    apply (asked_set i c s s n); [done..|apply Hs|done|done|by right].
  - unfold free in Hfb. rewrite Hfb in E. injection E as <- <-. apply (asked_set i c s s n); [done..|apply Hs|done|done|by right].
Qed.

(** The neighbour takes over the numbers of the needy one. *)
Lemma help_asked i s c n needy sequence :
  inv s -> neighbours_ s !! i = Some n -> i = 0%nat \/ busy (neighbours_ s) -> waits needy ->
  asked i c s true
    (let '(neighbour, s) :=
       match sequences_ n with
       | front :: _ =>
           if negb (sequence =? front) then
             (Neighbour.reset n,
              s <| requestedSequences_ := List.filter (fun kv => negb (existsb (Z.eqb kv.1) (sequences_ n))) (requestedSequences_ s) |>)
           else (n, s)
       | [] => (n, s)
       end in s <| neighbours_ := <[i := Neighbour.setSequences (sequences_ needy) neighbour]> (neighbours_ s) |>).
Proof.
  intros Hs Hi Hib Hw. pose proof (inv_sorted s Hs) as Hsort.
  destruct (sequences_ n) as [|front k]; [by apply (asked_set i c s s n); auto|].
  destruct (negb _); [|by apply (asked_set i c s s n); auto].
  match goal with |- asked _ _ _ _ (?s1 <| neighbours_ := _ |>) => apply (asked_set i c s s1 n); auto end.
  by apply OrdMap.sorted_filter.
Qed.

Lemma getNeededSequences_free i s c b s' :
  getNeededSequences settings currentRoundNumber i s c = ret (b, s') ->
  inv s -> i = 0%nat \/ busy (neighbours_ s) -> asked i c s b s'.
Proof.
  intros E Hs Hib. unfold getNeededSequences in E. apply mthen_ok in E as (n & Hn & E).
  assert (neighbours_ s !! i = Some n) as Hi by (unfold index in Hn; destruct (neighbours_ s !! i); by inversion Hn). clear Hn.
  pose proof (first_or_busy i n s Hi Hib) as Hfb. pose proof (inv_sorted s Hs) as Hsort.
  destruct (isLastRequest settings currentRoundNumber c) eqn:Elast; cbn [andb negb] in E.
  1: destruct (requestedSequences_ s) as [|r rs] eqn:Er; cbn [length Nat.ltb Nat.leb] in E.
  2: { destruct (sequences_ n) as [|front k] eqn:En.
       - injection E as <- <-. apply (asked_set i c s s n); [done|done|done|by rewrite Er|done|done|by left].
       - assert (busy (neighbours_ s)) as Hbusy by (destruct Hfb as [|Hfr]; [done|unfold free in Hfr; congruence]).
         destruct (OrdMap.find front (r :: rs)).
         + apply mthen_ok in E as ([] & _ & E); injection E as <- <-.
           * apply (asked_same i c s true n); auto.
           * apply (asked_keep i c s false n); auto.
         + injection E as <- <-. apply (asked_set i c s s n); [done|done|done|by rewrite Er|done|done|by left]. }
  all: destruct (BlockChain.getRequiredBlocks currentRoundNumber c) as [|first rest];
    [injection E as <- <-; apply (asked_keep i c s true n); tauto|].
  { cbn [last] in E. by apply (fresh_asked i s c n) in E. }
  destruct (last (requestedSequences_ s)) as [back|] eqn:El; [|by apply (fresh_asked i s c n) in E].
  destruct (Z.ltb_spec 0 (neighbourPacketsCount settings)) as [Hp|Hp]; cbn [andb] in E.
  1: destruct (List.find _ (requestedSequences_ s)) as [[sequence count]|] eqn:Ehelp.
  1: destruct (List.find _ (neighbours_ s)) as [needy|] eqn:Eneedy.
  - destruct (bool_decide _); [injection E as <- <-; apply (asked_keep i c s true n); tauto|].
    assert (waits needy) as Hw.
    { apply List.find_some in Eneedy as [_ Eq]. unfold waits. by destruct (sequences_ needy). }
    pose proof (help_asked i s c n needy sequence Hs Hi Hib Hw) as Ha.
    destruct (match sequences_ n with [] => _ | _ => _ end) as [n1 s1]. injection E as <- <-. exact Ha.
  - injection E as <- <-. apply (asked_keep i c s false n); auto. right. left. split; [done|]. split; [done|]. by exists (sequence, count).
  - apply mthen_ok in E as ([] & _ & E); [injection E as <- <-; apply (asked_same i c s true n); tauto|by apply (fresh_asked i s c n) in E].
  - apply mthen_ok in E as ([] & _ & E); [injection E as <- <-; apply (asked_same i c s true n); tauto|by apply (fresh_asked i s c n) in E].
Qed.

Lemma getNeededSequences_stuck i s c b s' :
  getNeededSequences settings currentRoundNumber i s c = ret (b, s') ->
  inv s -> stuck s c -> Forall free (neighbours_ s) -> asked i c s b s'.
Proof.
  intros E Hs Hst Hfree. unfold getNeededSequences in E. apply mthen_ok in E as (n & Hn & E).
  assert (neighbours_ s !! i = Some n) as Hi by (unfold index in Hn; destruct (neighbours_ s !! i); by inversion Hn). clear Hn.
  pose proof Hst as (Hl & Hp & [sequence count] & Hkv & Hneedy). rewrite Hl in E. cbn [andb negb fst] in E, Hneedy.
  destruct (BlockChain.getRequiredBlocks currentRoundNumber c) as [|first rest]; [injection E as <- <-; apply (asked_keep i c s true n); auto|].
  destruct (last (requestedSequences_ s)) as [back|] eqn:El; [|apply last_None in El; by rewrite El in Hkv].
  rewrite (proj2 (Z.ltb_lt _ _)) in E by exact Hp. cbn [andb] in E. rewrite Hkv, Hneedy in E.
  injection E as <- <-. apply (asked_keep i c s false n); auto.
Qed.

Lemma getNeededSequences_asked i s c b s' :
  getNeededSequences settings currentRoundNumber i s c = ret (b, s') ->
  inv s -> i = 0%nat \/ busy (neighbours_ s) \/ stuck s c -> asked i c s b s'.
Proof.
  intros E Hs [->|[Hb|Hb]]; [apply getNeededSequences_free; auto..|].
  destruct (not_busy_free _ (inv_front s Hs)) as [Hu|Hu]; [by apply getNeededSequences_free; auto|by apply getNeededSequences_stuck].
Qed.

Lemma count_request_sorted l r : OrdMap.sorted r.1 -> OrdMap.sorted (foldl count_request r l).1.
Proof. revert r. induction l as [|x l IH]; intros r Hr; cbn [foldl]; [done|]. apply IH. by apply OrdMap.sorted_assign. Qed.

Lemma sendBlock_keeps n s s' requests :
  sendBlock transport n s = (s', requests) -> OrdMap.sorted (requestedSequences_ s) ->
  OrdMap.sorted (requestedSequences_ s') /\ neighbours_ s' = neighbours_ s /\ isSyncroStarted_ s' = isSyncroStarted_ s.
Proof.
  unfold sendBlock. destruct (getConnection transport n) as [target|]; [|by intros [= <- <-]].
  destruct (foldl count_request _ _) as [requested packet] eqn:E. intros [= <- <-] Hs. split_and!; [|done..].
  pose proof (count_request_sorted (sequences_ n) (requestedSequences_ s, 0) Hs) as Hc. by rewrite E in Hc.
Qed.

Lemma inv_started s :
  OrdMap.sorted (requestedSequences_ s) -> front_first (neighbours_ s) -> isSyncroStarted_ s = true -> inv s.
Proof. intros Hs Hf Hst. split; [done..|]. by rewrite Hst. Qed.

Lemma waits_busy i n l : front_first l -> l !! i = Some n -> waits n -> busy l.
Proof. intros [Hf|Hb] Hn Hw; [|done]. by pose proof (Forall_lookup_1 _ _ _ _ Hf Hn). Qed.

Lemma inv_request_loop count i s c s' requests :
  request_loop settings transport currentRoundNumber count i s c = ret (s', requests) -> inv s -> isSyncroStarted_ s = true ->
  i = 0%nat \/ busy (neighbours_ s) \/ stuck s c -> inv s' /\ isSyncroStarted_ s' = true.
Proof.
  revert i s requests. induction count as [|count IH]; intros i s requests E Hs Hst Hb; cbn [request_loop] in E; [by injection E as <- <-|].
  apply mthen_ok in E as ([b s1] & E1 & E). apply getNeededSequences_asked in E1 as (Hs1 & Hf1 & Hst1 & Hb1); [|done..].
  rewrite Hst in Hst1. pose proof (inv_started s1 Hs1 Hf1 Hst1) as Hi1.
  destruct b; cbn [negb] in E.
  - apply mthen_ok in E as (n & Hn & E).
    assert (neighbours_ s1 !! i = Some n) as Hi by (unfold index in Hn; destruct (neighbours_ s1 !! i); by inversion Hn). clear Hn.
    destruct (sequences_ n) as [|x l] eqn:En; [by injection E as <- <-|].
    destruct (sendBlock transport n s1) as [s2 rq] eqn:E2. apply sendBlock_keeps in E2 as (Hs2 & En2 & Hst2); [|done].
    apply mthen_ok in E as ([s3 more] & E3 & E). injection E as <- <-.
    assert (busy (neighbours_ s2)) as Hb2 by (rewrite En2; apply (waits_busy i n); [done..|unfold waits; by rewrite En]).
    apply (IH _ _ _ E3); [|congruence|by right; left]. apply inv_started; [done|by apply busy_front|congruence].
  - apply (IH _ _ _ E); [done..|]. destruct Hb1 as [Hb1|[Hb1|[? _]]]; [by right; left|by right; right|done].
Qed.

Lemma inv_sendBlockRequest s c s' requests :
  sendBlockRequest sort settings transport currentRoundNumber s c = ret (s', requests) -> inv s -> isSyncroStarted_ s = true ->
  inv s' /\ isSyncroStarted_ s' = true.
Proof using sort_sorted.
  unfold sendBlockRequest. intros E Hs Hst. destruct (neighbours_ s); [by injection E as <- <-|].
  apply inv_request_loop in E; [done|by apply inv_remove| |by left].
  unfold removeExistingSequence, checkNeighbourSequence. by repeat case_match.
Qed.

(** *** The operations *)

Lemma inv_timer t s : inv s -> inv (s <| timer_ := t |>).
Proof. intros [Hs Hf Hi]. by split. Qed.
Lemma inv_simulation t s : inv s -> inv (s <| roundSimulation_ := t |>).
Proof. intros [Hs Hf Hi]. by split. Qed.
Lemma inv_counter t s : inv s -> inv (s <| fastCounter := t |>).
Proof. intros [Hs Hf Hi]. by split. Qed.
Lemma inv_start s : inv s -> inv (s <| isSyncroStarted_ := true |>).
Proof. intros [Hs Hf Hi]. by split. Qed.

Lemma inv_onRoundSimulation s c s' requests :
  onRoundSimulation sort settings transport currentRoundNumber s c = ret (s', requests) -> inv s -> inv s'.
Proof using sort_sorted.
  unfold onRoundSimulation. intros ([b s1] & E1 & E)%mthen_ok Hs. apply inv_checkActivity in E1 as (Hs1 & Hst1 & Hb); [|done].
  destruct b; [|by injection E as <- <-]. destruct (isSyncroStarted_ s) eqn:Hst; [|by discriminate (Hb eq_refl eq_refl)].
  by apply inv_sendBlockRequest in E as [? _].
Qed.

Lemma inv_onTimeOut s c s' requests :
  onTimeOut sort settings transport currentRoundNumber s c = ret (s', requests) -> inv s -> inv s'.
Proof using sort_sorted.
  unfold onTimeOut. destruct (isSyncroStarted_ s) eqn:Hst; cbn [negb]; [|by intros [= <- <-]].
  intros ([b s1] & E1 & ([b2 s2] & E2 & E)%mthen_ok)%mthen_ok Hs.
  assert (inv s1 /\ isSyncroStarted_ s1 = true) as [Hs1 Hst1].
  { destruct (isFastMode settings currentRoundNumber s c); [|by injection E1 as <- <-]. destruct (20 <? _).
    - apply inv_checkActivity in E1 as (Hs1 & Hst1 & _); [|by apply inv_counter]. split; [done|]. by rewrite Hst1.
    - injection E1 as <- <-. split; [by apply inv_counter|done]. }
  assert (inv s2 /\ isSyncroStarted_ s2 = true) as [Hs2 Hst2].
  { destruct b; [by injection E2 as <- <-|]. apply inv_checkActivity in E2 as (Hs2 & Hst2 & _); [|done]. split; [done|congruence]. }
  destruct b2; [|by injection E as <- <-]. by apply inv_sendBlockRequest in E as [? _].
Qed.

Lemma inv_sync roundNum difference isBigBand s c s' c' requests :
  sync sort settings transport currentRoundNumber roundNum difference isBigBand s c = ret (s', c', requests) -> inv s -> inv s'.
Proof using sort_sorted.
  unfold sync. intros E Hs. destruct (_ =? 0)%nat; [by injection E as <- _ _|].
  destruct (roundNum <=? _); [apply mthen_ok in E as (b & _ & E); injection E as <- _ _; destruct b; [apply inv_finished|done]|].
  destruct (negb (isSyncroStarted_ s) && _); [by injection E as <- _ _|].
  destruct (if _ <? _ then _ else _) as [c1 totalBlocks].
  destruct (_ =? 0); [apply mthen_ok in E as (b & _ & E); injection E as <- _ _; apply inv_finished|].
  destruct (isSyncroStarted_ s) eqn:Hst; cbn [andb negb] in E.
  - set (useTimer := 1 <? _) in E. set (s0 := if negb useTimer then _ else s) in E.
    assert (inv s0 /\ isSyncroStarted_ s0 = true) as [Hs0 Hst0] by (unfold s0; destruct (negb useTimer); [split; [by apply inv_timer|done]|done]).
    rewrite Hst0 in E. cbn [negb] in E. destruct (0 <? _); [|by injection E as <- _ _].
    apply mthen_ok in E as ([b1 s1] & E1 & E). apply inv_checkActivity in E1 as (Hs1 & Hst1 & _); [|done].
    apply mthen_ok in E as ([b2 s2] & E2 & E).
    assert (inv s2 /\ isSyncroStarted_ s2 = true) as [Hs2 Hst2].
    { destruct (_ =? 1); [|injection E2 as <- <-; split; [done|congruence]]. apply inv_checkActivity in E2 as (Hs2 & Hst2 & _); [|done]. split; [done|congruence]. }
    apply mthen_ok in E as ([s3 rq] & E3 & E). injection E as <- _ _.
    assert (inv s3) as Hs3 by (destruct (b1 || b2); [by apply inv_sendBlockRequest in E3 as [? _]|by injection E3 as <- _]).
    destruct (forallb _ _); [apply inv_finished|done].
  - rewrite Hst in E. cbn [negb] in E. apply mthen_ok in E as (s1 & E1 & E). apply mthen_ok in E as ([s2 rq] & E2 & E). injection E as <- _ _.
    assert (isSyncroStarted_ s1 = true) as Hst1.
    { unfold refreshNeighbours in E1. destruct (_ =? _)%nat; [by injection E1 as <-|]. destruct (_ <? _)%nat.
      - apply mthen_ok in E1 as ([l it] & _ & E). by injection E as <-.
      - apply mthen_ok in E1 as (l & _ & E). injection E as <-. by rewrite pops_started. }
    apply inv_refresh in E1; [|by apply inv_start]. apply inv_sendBlockRequest in E2 as [Hs2 _]; [|done..].
    by apply inv_simulation, inv_timer.
Qed.

Lemma inv_syncLastPool s c : inv s -> inv (syncLastPool transport s c).1.
Proof. unfold syncLastPool. intros Hs. destruct (List.find _ _); [by apply inv_start|done]. Qed.

Lemma inv_reply_loop poolsBlock lastSeq s c lastSeq' s' c' :
  reply_loop begin invocation_method genesisAddress_ interrupted sort currentRoundNumber poolsBlock lastSeq s c = ret (lastSeq', s', c') -> inv s -> inv s'.
Proof using sort_sorted.
  revert lastSeq s c. induction poolsBlock as [|pool l IH]; intros lastSeq s c; cbn [reply_loop]; [by intros [= <- <- <-]|].
  destruct (_ <? _); [apply IH|]. destruct (_ =? _)%nat; [apply IH|].
  intros ([[[stored q] c1] events] & _ & E)%mthen_ok Hs. pose proof (inv_slots currentRoundNumber events s Hs) as Hs1. cbv zeta in E.
  destruct stored; [|by apply (IH _ _ _ E)]. apply mthen_ok in E as ([c2 more] & _ & E). apply (IH _ _ _ E). by apply inv_slots.
Qed.

Lemma inv_getBlockReply poolsBlock s c s' c' :
  getBlockReply begin invocation_method genesisAddress_ interrupted sort currentRoundNumber poolsBlock s c = ret (s', c') -> inv s -> inv s'.
Proof using sort_sorted.
  unfold getBlockReply. destruct poolsBlock as [|pool l]; [done|]. intros ([[lastSeq s1] c1] & E1 & E)%mthen_ok Hs.
  apply inv_reply_loop in E1; [|done]. destruct (_ || _); [|by injection E as <- _].
  apply mthen_ok in E as (b & _ & E). injection E as <- _. destruct b; [apply inv_finished|done].
Qed.
End asking.

(** *** Reachable states *)

(** One operation, with whatever chain, connections and round there are *)
Inductive sync_step (settings : PoolSyncData) : PoolSynchronizer -> PoolSynchronizer -> Prop :=
  | StepSync transport currentRoundNumber roundNum difference isBigBand s c s' c' requests :
      sync sort settings transport currentRoundNumber roundNum difference isBigBand s c = ret (s', c', requests) -> sync_step settings s s'
  | StepLastPool transport s c : sync_step settings s (syncLastPool transport s c).1
  | StepReply currentRoundNumber poolsBlock s c s' c' :
      getBlockReply begin invocation_method genesisAddress_ interrupted sort currentRoundNumber poolsBlock s c = ret (s', c') -> sync_step settings s s'
  | StepTimeOut transport currentRoundNumber s c s' requests :
      onTimeOut sort settings transport currentRoundNumber s c = ret (s', requests) -> sync_step settings s s'
  | StepSimulation transport currentRoundNumber s c s' requests :
      onRoundSimulation sort settings transport currentRoundNumber s c = ret (s', requests) -> sync_step settings s s'
  | StepSlot currentRoundNumber e s : sync_step settings s (slot sort currentRoundNumber e s).

(** The state after the constructor, with the connections of that moment *)
Definition fresh_sync : PoolSynchronizer := mkSync false [] [] false false 0.
Definition initial s : Prop := exists transport, refreshNeighbours transport fresh_sync = ret s.

Inductive reachable (settings : PoolSyncData) : PoolSynchronizer -> Prop :=
  | ReachInit s : initial s -> reachable settings s
  | ReachStep s s' : reachable settings s -> sync_step settings s s' -> reachable settings s'.

Lemma inv_step settings s s' : sync_step settings s s' -> inv s -> inv s'.
Proof using sort_sorted.
  intros Hst Hs. destruct Hst; [by eapply inv_sync|by apply inv_syncLastPool|by eapply inv_getBlockReply|by eapply inv_onTimeOut|by eapply inv_onRoundSimulation|by apply inv_slot].
Qed.

Lemma inv_reachable settings s : reachable settings s -> inv s.
Proof using sort_sorted.
  induction 1 as [s [transport Hi]|s s' _ IH Hst]; [|by apply (inv_step settings s)].
  apply inv_refresh in Hi; [done|]. split; cbn; [constructor|left; constructor|by repeat constructor].
Qed.

(** C17: Whatever operations run in whatever order, with any blocks, connections and rounds: the
    map of the requested blocks stays a map; a neighbour has numbers to send only if the first
    neighbour has, so that the early return of checkNeighbourSequence skips nothing; and without a
    synchronisation nothing is requested and no neighbour has numbers or counted rounds. *)
Theorem synchroniser_inv settings s :
  reachable settings s ->
  OrdMap.sorted (requestedSequences_ s) /\
  (forall n l, neighbours_ s = n :: l -> sequences_ n = [] -> Forall (fun m => sequences_ m = []) l) /\
  (isSyncroStarted_ s = false -> requestedSequences_ s = [] /\ Forall (fun n => sequences_ n = [] /\ roundCounter_ n = 0) (neighbours_ s)).
Proof using sort_sorted.
  intros Hr. destruct (inv_reachable _ _ Hr) as [Hs Hf Hi]. split_and!; [done| |exact Hi].
  intros n l E En. destruct Hf as [Hf|(m & k & E' & Hm)]; rewrite E in *; [by apply Forall_cons in Hf as [_ Hf]|].
  injection E' as <- <-. by destruct Hm.
Qed.

Lemma erase_first_notin v l : NoDup l -> v ∉ Neighbour.erase_first v l.
Proof.
  induction 1 as [|x l Hx Hl IH]; cbn [Neighbour.erase_first]; [by apply not_elem_of_nil|].
  destruct (Z.eqb_spec x v) as [->|Hne]; [done|]. apply not_elem_of_cons. split; [congruence|done].
Qed.

(** When a block is written, its number is not requested any more and no neighbour is waited for
    with it, in every reachable state in which no neighbour has a number twice. *)
Theorem written_not_waited settings sequence s :
  reachable settings s -> Forall (fun n => NoDup (sequences_ n)) (neighbours_ s) ->
  let s' := onWriteBlock sort sequence s in
  OrdMap.find sequence (requestedSequences_ s') = None /\ Forall (fun n => sequence ∉ sequences_ n) (neighbours_ s').
Proof using sort_sorted sort_perm.
  intros Hr Hnd s'. pose proof (inv_reachable _ _ Hr) as [Hs Hf _]. split.
  { unfold s', onWriteBlock, removeExistingSequence. cbn [upd requestedSequences_].
    rewrite (OrdMap.find_filter (fun k => negb (k =? sequence))). by rewrite Z.eqb_refl. }
  unfold s', onWriteBlock, removeExistingSequence. cbn [upd neighbours_]. unfold checkNeighbourSequence.
  destruct (neighbours_ s) as [|front rest] eqn:En; [rewrite En; constructor|].
  destruct (sequences_ front) as [|x xs] eqn:Ef.
  { rewrite En. destruct Hf as [Hf|(n & k & E & Hn)]; [|injection E as <- <-; by destruct Hn].
    eapply Forall_impl; [exact Hf|]. intros n ->. apply not_elem_of_nil. }
  cbn [upd neighbours_]. rewrite <- En in *. clear x xs Ef.
  assert (Forall (fun n => sequence ∉ sequences_ n) (map (fun r => settle r.2) (map (Neighbour.removeSequnce sequence EXACT) (neighbours_ s)))) as Hall.
  { clear Hf Hr Hs s' En front rest. induction Hnd as [|n l Hn _ IH]; cbn [map]; [constructor|]. constructor; [|done].
    rewrite settle_sequences. unfold Neighbour.removeSequnce. destruct (existsb (Z.eqb sequence) (sequences_ n)) eqn:E; cbn [snd].
    - by apply erase_first_notin.
    - intros Hin. assert (existsb (Z.eqb sequence) (sequences_ n) = true) as E'; [|congruence].
      apply existsb_exists. exists sequence. split; [by apply list_elem_of_In|apply Z.eqb_refl]. }
  unfold settle in Hall. destruct (existsb fst _); [|exact Hall]. rewrite sort_perm. exact Hall.
Qed.

(** *** Requests *)

(** The missing blocks of a chain: the starts do not pass the end. *)
Lemma required_bounded c currentRoundNumber first rest :
  OrdMap.sorted (cachedBlocks_ c) -> Forall (fun kv => 0 <= kv.1 < 2 ^ 64 - 1) (cachedBlocks_ c) -> 0 <= BlockChain.getLastSeq c ->
  0 < currentRoundNumber < 2 ^ 64 -> BlockChain.getLastSeq c + 1 < currentRoundNumber ->
  BlockChain.getRequiredBlocks currentRoundNumber c = first :: rest ->
  first.1 = BlockChain.getLastSeq c + 1 /\ NumbersSpec.bounded_by (default first (last rest)).2 rest /\ 0 < (default first (last rest)).2 < 2 ^ 64 - 1.
Proof.
  intros Hs%ChainSpec.sorted_keys Hu Hl Hr Hlr. apply (Forall_map fst (fun k => 0 <= k < 2 ^ 64 - 1)) in Hu. unfold BlockChain.getRequiredBlocks.
  rewrite (uwrap_id 64) by (unfold in_u; lia). rewrite (proj2 (Z.leb_gt _ _)) by lia. rewrite (proj2 (Z.ltb_lt 0 _)) by lia. rewrite Z.max_r by lia.
  set (keys := map fst (cachedBlocks_ c)) in *. destruct (ChainSpec.above_suffix (BlockChain.getLastSeq c + 1) keys Hs) as (pre & Ek & Hpre).
  destruct (List.filter (fun k => BlockChain.getLastSeq c + 1 <? k) keys) as [|x l] eqn:Efil.
  { destruct (last keys) as [k|]; [destruct (Z.ltb_spec k (currentRoundNumber - 1)); cbn [app]|]; intros [= <- <-]; cbn [fst snd from_option Datatypes.id last];
      (split; [done|]; split; [repeat constructor; cbn; lia|cbn; lia]). }
  assert (BlockChain.getLastSeq c + 1 < x) as Hx.
  { assert (x ∈ List.filter (fun k => BlockChain.getLastSeq c + 1 <? k) keys) as Hin by (rewrite Efil; by left).
    apply list_elem_of_In, filter_In in Hin as [_ Hin]. by apply Z.ltb_lt. }
  rewrite Ek in Hs, Hu. apply StronglySorted_app in Hs as (_ & _ & Hs). apply Forall_app in Hu as [_ Hu].
  destruct (last keys) as [lastCached|] eqn:Elast; [|apply last_None in Elast; rewrite Elast in Ek; by destruct pre].
  rewrite Ek, last_app_cons in Elast.
  assert (Forall (fun k => k <= lastCached) (x :: l)) as Hle.
  { clear -Hs Elast. revert x Hs Elast. induction l as [|y l IH]; intros x Hs Elast; [injection Elast as ->; repeat constructor; lia|].
    apply StronglySorted_inv in Hs as [Hs Hx]. change (last (x :: y :: l)) with (last (y :: l)) in Elast. pose proof (IH y Hs Elast) as Hy.
    constructor; [|done]. apply Forall_cons in Hx as [Hx _]. apply Forall_cons in Hy as [Hy _]. lia. }
  assert (0 <= lastCached < 2 ^ 64 - 1) as Hlc by (apply last_Some_elem_of in Elast; exact (proj1 (Forall_forall _ _) Hu _ Elast)).
  assert (0 <= x) as Hx0 by lia.
  pose proof (NumbersSpec.gaps_inside lastCached x l Hs Hx0 Hle ltac:(lia)) as Hin.
  pose proof (NumbersSpec.gaps_last lastCached x l Hs Hx0 Hle ltac:(lia) (BlockChain.getLastSeq c + 1, x - 1)) as Hlast.
  assert (x <= lastCached) as Hxl by by apply Forall_cons in Hle as [? _].
  destruct (Z.ltb_spec lastCached (currentRoundNumber - 1)) as [Hlt|Hge]; cbn [app]; intros [= <- <-]; cbn [fst].
  - rewrite last_snoc. cbn [from_option Datatypes.id snd]. split; [done|].
    split; [|lia]. apply Forall_app. split; [|repeat constructor; cbn; lia].
    eapply Forall_impl; [exact Hin|]. cbn. lia.
  - split; [done|]. split; [done|]. destruct (last (BlockChain.gaps x l)) as [q|] eqn:Eq; cbn [from_option Datatypes.id snd]; [|lia].
    apply last_Some_elem_of in Eq. pose proof (proj1 (Forall_forall _ _) Hin q Eq). cbn in *. lia.
Qed.

Lemma sorted_last (m : list (Z * Z)) back : OrdMap.sorted m -> last m = Some back -> Forall (fun kv => kv.1 <= back.1) m.
Proof.
  induction m as [|x m IH]; intros Hs El; [done|]. apply OrdMap.sorted_cons in Hs as [Hs Hx].
  destruct m as [|y m]; [injection El as ->; repeat constructor; lia|]. change (last (x :: y :: m)) with (last (y :: m)) in El.
  pose proof (IH Hs El) as Hy. constructor; [|done]. apply Forall_cons in Hx as [Hx _]. apply Forall_cons in Hy as [Hy _]. lia.
Qed.

(** What getNeededSequences gives a neighbour that is waited for with nothing, when no request was
    repeated too often: at most blockPoolsCount ascending numbers, all above the chain's last
    block and above every number that is already requested, and none beyond the last missing
    block. *)
Theorem new_numbers settings currentRoundNumber i s c n first rest :
  neighbours_ s !! i = Some n -> sequences_ n = [] -> roundCounter_ n = 0 -> OrdMap.sorted (requestedSequences_ s) ->
  Forall (fun kv => 0 <= kv.1 < 2 ^ 64 - 1 /\ kv.2 < neighbourPacketsCount settings) (requestedSequences_ s) ->
  OrdMap.sorted (cachedBlocks_ c) -> Forall (fun kv => 0 <= kv.1 < 2 ^ 64 - 1) (cachedBlocks_ c) -> 0 <= BlockChain.getLastSeq c ->
  0 < currentRoundNumber < 2 ^ 64 -> BlockChain.getLastSeq c + 1 < currentRoundNumber ->
  isLastRequest settings currentRoundNumber c = false -> BlockChain.getRequiredBlocks currentRoundNumber c = first :: rest ->
  exists numbers,
    getNeededSequences settings currentRoundNumber i s c = ret (true, s <| neighbours_ := <[i := n <| sequences_ := numbers |>]> (neighbours_ s) |>) /\
    (length numbers <= Z.to_nat (blockPoolsCount settings))%nat /\ StronglySorted Z.lt numbers /\
    Forall (fun x => BlockChain.getLastSeq c < x <= (default first (last rest)).2 /\ Forall (fun kv => kv.1 < x) (requestedSequences_ s)) numbers.
Proof.
  intros Hi En Ern Hs Hkv Hcs Hck Hl Hr Hlr Elast Er.
  destruct (required_bounded c currentRoundNumber first rest Hcs Hck Hl Hr Hlr Er) as (_ & Hbound & Hback).
  unfold getNeededSequences. unfold index. rewrite Hi. cbn [mthen ret]. rewrite Elast, Er, En. cbn [andb negb].
  assert (List.find (fun kv => neighbourPacketsCount settings <=? kv.2) (requestedSequences_ s) = None) as Hnone.
  { clear -Hkv. induction Hkv as [|kv m [_ Hk] _ IH]; cbn [List.find]; [done|]. by rewrite (proj2 (Z.leb_gt _ _)) by lia. }
  rewrite Hnone, andb_true_r. replace (if 0 <? neighbourPacketsCount settings then None else None) with (@None (Z * Z)) by by destruct (0 <? _).
  assert (forall sequence, BlockChain.getLastSeq c <= sequence < 2 ^ 64 - 1 -> Forall (fun kv => kv.1 <= sequence) (requestedSequences_ s) ->
    let numbers := new_sequences (Z.to_nat (blockPoolsCount settings)) sequence first rest in
    (length numbers <= Z.to_nat (blockPoolsCount settings))%nat /\ StronglySorted Z.lt numbers /\
    Forall (fun x => BlockChain.getLastSeq c < x <= (default first (last rest)).2 /\ Forall (fun kv => kv.1 < x) (requestedSequences_ s)) numbers) as Hnew.
  { intros sequence Hseq Hall. destruct (NumbersSpec.new_sequences_spec (Z.to_nat (blockPoolsCount settings)) sequence first rest) as (H1 & H2 & H3); [lia|done..|].
    split; [done|]. split; [done|]. eapply Forall_impl; [exact H3|]. cbv beta. intros x Hx. split; [lia|].
    eapply Forall_impl; [exact Hall|]. cbn. lia. }
  destruct (last (requestedSequences_ s)) as [back|] eqn:El.
  - unfold isAvailableRequest. rewrite Ern. cbn [Z.eqb mthen ret]. eexists. split; [reflexivity|].
    pose proof (sorted_last _ back Hs El) as Hle. apply last_Some_elem_of in El. pose proof (proj1 (Forall_forall _ _) Hkv _ El) as [Hbk _].
    apply Hnew; [lia|]. eapply Forall_impl; [exact Hle|]. cbn. lia.
  - eexists. split; [reflexivity|]. apply last_None in El. apply Hnew; [lia|]. rewrite El. constructor.
Qed.

(** *** The first request *)

(** With a repeat count every question has an answer. *)
Lemma needed_total settings currentRoundNumber i s c :
  0 < requestRepeatRoundCount settings -> (i < length (neighbours_ s))%nat ->
  exists b s', getNeededSequences settings currentRoundNumber i s c = ret (b, s') /\
    length (neighbours_ s') = length (neighbours_ s) /\ isSyncroStarted_ s' = isSyncroStarted_ s.
Proof.
  intros Hrep Hi. destruct (lookup_lt_is_Some_2 _ _ Hi) as [n Hn].
  assert (exists a, isAvailableRequest settings n = ret a) as [a Ha].
  { unfold isAvailableRequest. destruct (_ =? 0); [by eexists|]. rewrite (proj2 (Z.eqb_neq _ _)) by lia. by eexists. }
  unfold getNeededSequences, index. rewrite Hn. cbn [mthen ret]. rewrite Ha. cbn [mthen ret].
  repeat case_match; simplify_eq; do 2 eexists; (split; [reflexivity|]); cbn [upd neighbours_]; rewrite ?length_insert; done.
Qed.

Lemma request_loop_total settings transport currentRoundNumber count i s c :
  0 < requestRepeatRoundCount settings -> (i + count <= length (neighbours_ s))%nat ->
  exists s' requests, request_loop settings transport currentRoundNumber count i s c = ret (s', requests) /\ isSyncroStarted_ s' = isSyncroStarted_ s.
Proof.
  intros Hrep. revert i s. induction count as [|count IH]; intros i s Hi; cbn [request_loop]; [by do 2 eexists|].
  destruct (needed_total settings currentRoundNumber i s c Hrep) as (b & s1 & -> & Hl & Hst); [lia|]. cbn [mthen ret].
  destruct b; cbn [negb]; [|destruct (IH (S i) s1) as (s' & rq & -> & Hst'); [lia|do 2 eexists; split; [done|congruence]]].
  unfold index. destruct (lookup_lt_is_Some_2 (neighbours_ s1) i) as [n ->]; [lia|]. cbn [mthen ret].
  destruct (sequences_ n); [by do 2 eexists|].
  destruct (sendBlock transport n s1) as [s2 rq] eqn:E2.
  assert (neighbours_ s2 = neighbours_ s1 /\ isSyncroStarted_ s2 = isSyncroStarted_ s1) as [En2 Hst2].
  { unfold sendBlock in E2. destruct (getConnection transport n); [|by injection E2 as <- _].
    destruct (foldl count_request _ _); by injection E2 as <- _. }
  destruct (IH (S i) s2) as (s' & more & -> & Hst'); [rewrite En2; lia|]. do 2 eexists. split; [done|congruence].
Qed.

(** The first of the connections with the greatest last number *)
Lemma insert_desc_perm x l : insert_desc x l ≡ₚ x :: l.
Proof. induction l as [|y l IH]; cbn [insert_desc]; [done|]. destruct (_ <? _); [done|]. rewrite IH. apply Permutation_swap. Qed.

Lemma sort_desc_lt transport k : k ∈ sortBySeqDesc transport -> (k < length transport)%nat.
Proof.
  unfold sortBySeqDesc. set (g := imap _ transport).
  assert (foldl (fun l x => insert_desc x l) [] g ≡ₚ g) as ->.
  { assert (forall acc, foldl (fun l x => insert_desc x l) acc g ≡ₚ acc ++ g) as Hg; [|apply (Hg [])].
    induction g as [|x g IH]; intros acc; cbn [foldl]; [by rewrite app_nil_r|]. rewrite IH, insert_desc_perm. apply Permutation_middle. }
  unfold g. intros (x & -> & Hx)%list_elem_of_fmap. apply elem_of_lookup_imap in Hx as (i & y & -> & Hy). cbn. by eapply lookup_lt_Some.
Qed.

Lemma sort_desc_nonempty transport : transport <> [] -> exists k l, sortBySeqDesc transport = k :: l.
Proof.
  intros Hne. assert (length (sortBySeqDesc transport) = length transport) as Hl.
  { unfold sortBySeqDesc. rewrite length_map. set (g := imap _ transport).
    assert (forall acc, length (foldl (fun l x => insert_desc x l) acc g) = (length acc + length g)%nat) as Hg.
    { induction g as [|x g IH]; intros acc; cbn [foldl length]; [lia|]. rewrite IH, insert_desc_perm. cbn. lia. }
    rewrite Hg. unfold g. by rewrite length_imap. }
  destruct (sortBySeqDesc transport) as [|k l]; [by destruct transport|]. by exists k, l.
Qed.

Lemma connection_found transport k x : transport !! k = Some x -> exists y, connectionByKey transport (cn_key x) = Some y /\ cn_key y = cn_key x.
Proof.
  intros Hx. unfold connectionByKey. destruct (List.find _ transport) as [y|] eqn:E.
  - exists y. split; [done|]. apply List.find_some in E as [_ E]. by apply bool_decide_eq_true in E.
  - assert (In x transport) as Hin by (apply list_elem_of_In; by eapply list_elem_of_lookup_2).
    pose proof (List.find_none _ _ E x Hin) as Hf. by apply bool_decide_eq_false in Hf.
Qed.

Lemma count_request_first l m p :
  OrdMap.sorted m -> NoDup l -> Forall (fun x => OrdMap.find x m = None) l ->
  (foldl count_request (m, p) l).2 = match l with [] => p | _ => 1 end.
Proof.
  revert m p. induction l as [|x l IH]; intros m p Hm Hnd Hf; [done|]. apply NoDup_cons in Hnd as [Hx Hnd]. apply Forall_cons in Hf as [Hfx Hf].
  cbn [foldl]. unfold count_request at 2. cbn [fst]. rewrite Hfx. change (u64 (default 0 None + 1)) with 1. rewrite IH; [by destruct l|by apply OrdMap.sorted_assign|done|].
  apply Forall_forall. intros y Hy. rewrite OrdMap.find_assign by done. destruct (Z.eqb_spec y x) as [->|]; [done|].
  exact (proj1 (Forall_forall _ _) Hf y Hy).
Qed.

(** What the first neighbour is asked for *)
Lemma first_question settings transport currentRoundNumber count s c n rest target numbers :
  neighbours_ s = n :: rest -> sequences_ n = [] -> requestedSequences_ s = [] -> getConnection transport n = Some target ->
  BlockChain.getRequiredBlocks currentRoundNumber c = [(BlockChain.getLastSeq c + 1, currentRoundNumber - 1)] ->
  new_sequences (Z.to_nat (blockPoolsCount settings)) (BlockChain.getLastSeq c) (BlockChain.getLastSeq c + 1, currentRoundNumber - 1) [] = numbers ->
  numbers <> [] -> NoDup numbers -> 0 < requestRepeatRoundCount settings -> (S count <= length (neighbours_ s))%nat ->
  exists s' more, request_loop settings transport currentRoundNumber (S count) 0 s c = ret (s', mkRequest target numbers 1 :: more) /\ isSyncroStarted_ s' = isSyncroStarted_ s.
Proof.
  intros En Efr Erq Etarget Erb Enum Hne Hnd Hrep Hlen. cbn [request_loop]. unfold getNeededSequences at 1, index at 1. rewrite En. cbn [lookup list_lookup mthen ret].
  rewrite Erq, Erb. cbn [length Nat.ltb Nat.leb last]. rewrite andb_false_r, Efr, Enum. cbn [mthen ret negb].
  set (s1 := s <| neighbours_ := _ |>). unfold index at 1. change (neighbours_ s1 !! 0%nat) with (Some (Neighbour.setSequences numbers n)). cbn [mthen ret].
  change (sequences_ (Neighbour.setSequences numbers n)) with numbers. 
  replace (match numbers with [] => ret (s1, []) | _ => _ end) with (let '(s, requests) := sendBlock transport (Neighbour.setSequences numbers n) s1 in
    do! (s, more) := request_loop settings transport currentRoundNumber count 1 s c in ret (s, requests ++ more)) by by destruct numbers.
  unfold sendBlock. change (getConnection transport (Neighbour.setSequences numbers n)) with (getConnection transport n). rewrite Etarget.
  change (sequences_ (Neighbour.setSequences numbers n)) with numbers. change (requestedSequences_ s1) with (requestedSequences_ s). rewrite Erq.
  pose proof (count_request_first numbers [] 0 ltac:(constructor) Hnd ltac:(apply Forall_forall; done)) as Ep.
  destruct (foldl count_request ([], 0) numbers) as [requested packet]. cbn [snd] in Ep. assert (packet = 1) as -> by by destruct numbers. clear Ep.
  set (s2 := s1 <| requestedSequences_ := requested |>).
  destruct (request_loop_total settings transport currentRoundNumber count 1 s2 c Hrep) as (s' & more & -> & Hst).
  { change (neighbours_ s2) with (neighbours_ s1). rewrite En in Hlen. exact Hlen. }
  cbn [mthen ret app]. do 2 eexists. split; [done|exact Hst].
Qed.

(** C30: A node that is behind by at least the given difference, with an empty block cache and
    neighbours that all have blocks, starts the synchronisation at once: its first request asks
    one of the neighbours, for the first time, for the blocks right after its last one, as many as
    blockPoolsCount and the current round allow. *)
Theorem sync_asks_next settings transport currentRoundNumber difference c :
  transport <> [] -> Forall (fun x => isSignal x = false /\ cn_lastSeq x <> 0) transport -> 0 < requestRepeatRoundCount settings ->
  0 < blockPoolsCount settings -> cachedBlocks_ c = [] -> 0 <= BlockChain.getLastSeq c -> 0 <= difference ->
  BlockChain.getLastSeq c + difference <= currentRoundNumber -> BlockChain.getLastSeq c + 1 < currentRoundNumber -> currentRoundNumber < 2 ^ 64 - 1 ->
  exists s' target more,
    sync sort settings transport currentRoundNumber currentRoundNumber difference false fresh_sync c =
      ret (s', c, mkRequest target (seqZ (BlockChain.getLastSeq c + 1)
        (Z.min (blockPoolsCount settings) (currentRoundNumber - 1 - BlockChain.getLastSeq c))) 1 :: more) /\
    isSyncroStarted_ s' = true /\ exists x, x ∈ transport /\ cn_key target = cn_key x.
Proof.
  intros Hne Hall Hrep Hcount Hcache Hl Hd Hdiff Hround Hsmall.
  assert (exists n rest, refreshNeighbours transport (fresh_sync <| isSyncroStarted_ := true |>) = ret (fresh_sync <| isSyncroStarted_ := true |> <| neighbours_ := n :: rest |>) /\
    sequences_ n = [] /\ exists target x, getConnection transport n = Some target /\ x ∈ transport /\ cn_key target = cn_key x) as (n & rest & Eref & Efr & target & x & Etg & Hx & Ekey).
  { assert (getNeighboursCountWithoutSS transport = length transport) as Ecount.
    { unfold getNeighboursCountWithoutSS. f_equal. clear -Hall. induction Hall as [|y l [Hy _] _ IH]; cbn [List.filter]; [done|]. by rewrite Hy, IH. }
    destruct (sort_desc_nonempty transport Hne) as (k & it & Esort).
    destruct (lookup_lt_is_Some_2 transport k) as [y Hy]; [apply sort_desc_lt; rewrite Esort; by left|].
    destruct (proj1 (Forall_lookup _ _) Hall k y Hy) as [Hsig Hseq].
    unfold refreshNeighbours. rewrite Ecount. destruct transport as [|t0 ts]; [done|]. cbn [length Nat.eqb Nat.ltb Nat.leb neighbours_ fresh_sync upd update_known mthen ret].
    rewrite Esort. cbn [Nat.sub add_new next_number]. rewrite Hy, Hsig, (proj2 (Z.eqb_neq _ _) Hseq). cbn [negb andb existsb app].
    destruct (add_new_app (t0 :: ts) (length ts) 1 it [mkNeighbour (u8 (Z.of_nat k)) (cn_key y) [] 0]) as (more & -> & _).
    do 2 eexists. split; [reflexivity|]. split; [done|]. destruct (connection_found (t0 :: ts) k y Hy) as (z & Ez & Ekz).
    exists z, y. split; [unfold getConnection; cbn [nb_key_]; by rewrite Ez|]. split; [by eapply list_elem_of_lookup_2|done]. }
  assert (BlockChain.getCachedBlocksSize c = 0%nat) as Ecs by (unfold BlockChain.getCachedBlocksSize; by rewrite Hcache).
  assert (BlockChain.getRequiredBlocks currentRoundNumber c = [(BlockChain.getLastSeq c + 1, currentRoundNumber - 1)]) as Erb.
  { unfold BlockChain.getRequiredBlocks. rewrite (uwrap_id 64) by (unfold in_u; lia). rewrite (proj2 (Z.leb_gt _ _)), (proj2 (Z.ltb_lt _ _)), Z.max_r by lia.
    by rewrite Hcache. }
  set (l := BlockChain.getLastSeq c) in *. set (numbers := seqZ _ _).
  assert (new_sequences (Z.to_nat (blockPoolsCount settings)) l (l + 1, currentRoundNumber - 1) [] = numbers) as Enum.
  { rewrite NumbersSpec.new_sequences_next by lia. unfold numbers. f_equal; lia. }
  unfold sync. fold l. rewrite (proj2 (Nat.eqb_neq _ _)) by (destruct transport; [done|cbn; lia]). rewrite (proj2 (Z.leb_gt _ _)) by lia.
  rewrite (uwrap_id 64 (l + difference)) by (unfold in_u; lia). rewrite (proj2 (Z.ltb_ge _ _)) by lia. cbn [isSyncroStarted_ fresh_sync negb andb].
  rewrite Ecs, Z.add_0_r, (uwrap_id 64 l) by (unfold in_u; lia). rewrite (proj2 (Z.ltb_ge _ l)) by lia.
  rewrite (uwrap_id 64) by (unfold in_u; lia). rewrite (proj2 (Z.eqb_neq _ 0)) by lia. rewrite Eref. cbn [mthen ret].
  unfold sendBlockRequest. cbn [upd neighbours_]. unfold removeExistingSequence, checkNeighbourSequence. cbn [upd neighbours_]. rewrite Efr. cbn [upd requestedSequences_ fresh_sync List.filter length neighbours_].
  match goal with |- context [request_loop _ _ _ _ _ ?s1 _] =>
    destruct (first_question settings transport currentRoundNumber (length rest) s1 c n rest target numbers) as (s' & more & E & Hst) end;
    [done|done|done|done|done|done| | |done|done|].
  - unfold numbers. rewrite seqZ_cons by lia. done.
  - apply NoDup_seqZ.
  - rewrite E. cbn [mthen ret]. do 3 eexists. split; [reflexivity|]. split; [exact Hst|]. by exists x.
Qed.

(** *** What can go wrong *)

Lemma never_available settings n : requestRepeatRoundCount settings = 0 -> isAvailableRequest settings n = ret false \/ isAvailableRequest settings n = None.
Proof. intros Hz. unfold isAvailableRequest. rewrite Hz. destruct (_ =? 0); [by left|by right]. Qed.

(** The setting 0 of requestRepeatRoundCount, which means never, divides by zero: as soon as a
    neighbour is waited for, the next tick of the round simulation, which runs during every
    synchronisation, is undefined. *)
Theorem repeat_never_divides settings transport currentRoundNumber s c n :
  requestRepeatRoundCount settings = 0 -> length (neighbours_ s) = getNeighboursCountWithoutSS transport ->
  n ∈ neighbours_ s -> sequences_ n <> [] -> 0 <= roundCounter_ n < 2 ^ 64 - 1 ->
  onRoundSimulation sort settings transport currentRoundNumber s c = None.
Proof.
  intros Hz Hl Hn Hw Hr. unfold onRoundSimulation, checkActivity, refreshNeighbours. rewrite Hl, Nat.eqb_refl. cbn [mthen ret].
  assert (round_activity settings (neighbours_ s) false = None) as E.
  { clear Hl. induction (neighbours_ s) as [|m l IH]; [by apply elem_of_nil in Hn|]. cbn [round_activity].
    destruct (never_available settings (Neighbour.increaseRoundCounter m) Hz) as [Ea|Ea]; rewrite Ea; [|done]. cbn [mthen ret].
    apply elem_of_cons in Hn as [->|Hn]; [|by rewrite (IH Hn)]. exfalso. revert Ea. unfold isAvailableRequest, Neighbour.increaseRoundCounter.
    destruct (sequences_ m); [done|]. cbn [upd roundCounter_]. rewrite uwrap_id by (unfold in_u; lia). rewrite (proj2 (Z.eqb_neq _ 0)), Hz by lia. done. }
  destruct (neighbours_ s) as [|m l]; [by apply elem_of_nil in Hn|]. by rewrite E.
Qed.

(** The progress is computed in single precision: with 2^27 blocks stored and five missing before
    the current round, which getRequiredBlocks names, showSyncronizationProgress finds that
    nothing remains. *)
Theorem progress_is_rounded c :
  cachedBlocks_ c = [] -> BlockChain.getLastSeq c = 2 ^ 27 ->
  showSyncronizationProgress (2 ^ 27 + 6) (BlockChain.getLastSeq c) c = ret true /\
  BlockChain.getRequiredBlocks (2 ^ 27 + 6) c = [(2 ^ 27 + 1, 2 ^ 27 + 5)].
Proof.
  intros Hc Hl. unfold showSyncronizationProgress, BlockChain.getRequiredBlocks, BlockChain.getCachedBlocksSize. rewrite Hc, Hl. split; vm_compute; reflexivity.
Qed.
End spec.
End SyncSpec.

(** ** Witnesses *)

#[local] Existing Instance toy_libm.

Definition sorted_before (n m : NeighboursSetElemet) : Prop := Neighbour.op_lt m n = false.
#[local] Instance sorted_before_dec : RelDecision sorted_before.
Proof. intros n m. unfold sorted_before. apply _. Defined.

#[local] Instance sorted_before_total : Total sorted_before.
Proof.
  intros n m. unfold sorted_before, Neighbour.op_lt. destruct (sequences_ n) as [|x l], (sequences_ m) as [|y k]; cbn [length]; [by left|by right|by left|].
  destruct (Z.ltb_spec y x); [right; apply Z.ltb_ge; lia|by left].
Qed.
#[local] Instance sorted_before_trans : Transitive sorted_before.
Proof.
  intros n m o. unfold sorted_before, Neighbour.op_lt. destruct (sequences_ n) as [|x l], (sequences_ m) as [|y k], (sequences_ o) as [|z j]; cbn [length]; try done.
  rewrite !Z.ltb_ge. lia.
Qed.

Definition sort_neighbours (l : list NeighboursSetElemet) : list NeighboursSetElemet := merge_sort sorted_before l.
Lemma sort_neighbours_perm l : sort_neighbours l ≡ₚ l.
Proof. apply merge_sort_Permutation. Qed.
Lemma sort_neighbours_sorted l : StronglySorted (fun x y => Neighbour.op_lt y x = false) (sort_neighbours l).
Proof. apply (StronglySorted_merge_sort sorted_before). Qed.

#[local] Abbreviation chain_t := (BlockChain BerkeleyDB.t (list Wallet)).
#[local] Abbreviation first_element := (fun _ : list PoolElement => 0%nat).
#[local] Abbreviation caught := (fun (p : Pool.priv) (_ : bool) (cache : Cache) => (p, cache)).
#[local] Abbreviation no_method := (fun _ : bytes => @nil Z).
#[local] Abbreviation genesis_address := (sample_public 200).

(** A chain whose last block has the number *)
Definition chain_at (n : Z) : chain_t := mkBlockChain empty_storage ∅ ∅ sample_ids sample_cache 0 ∅ (mkNonEmpty 0 0) [] Pool.default 0 n 0.
Definition sync_settings : PoolSyncData := mkSyncData true false 3 20 10 350.
Definition sync_neighbours : list Connection := [mkConnection [1] false 40; mkConnection [2] false 50].

Lemma answered {A} (P : A -> bool) (m : M A) : match m with Some (Ok a) => P a | _ => false end = true -> exists a, m = ret a /\ P a = true.
Proof. destruct m as [[a|]|]; try done. intros E. by exists a. Qed.

(** At the block 10 in the round 30 the neighbours are asked for 11 to 13 and for 14 to 16. *)
Definition asking (a : PoolSynchronizer * chain_t * list Request) : bool :=
  bool_decide (map rq_sequences a.2 = [[11; 12; 13]; [14; 15; 16]]) && bool_decide (map sequences_ (neighbours_ a.1.1) = [[11; 12; 13]; [14; 15; 16]]).
Lemma sample_asks : exists a, PoolSync.sync sort_neighbours sync_settings sync_neighbours 30 30 5 false SyncSpec.fresh_sync (chain_at 10) = ret a /\ asking a = true.
Proof. apply answered. vm_compute. reflexivity. Qed.

Lemma sample_reached : exists s, SyncSpec.reachable (B := BerkeleyDB.t) (D := list Wallet) first_element no_method genesis_address caught sort_neighbours sync_settings s /\
  map sequences_ (neighbours_ s) = [[11; 12; 13]; [14; 15; 16]].
Proof.
  destruct sample_asks as ([[s c] requests] & E & Ea). exists s. split.
  - apply (SyncSpec.ReachStep _ _ _ _ _ _ SyncSpec.fresh_sync); [|by eapply SyncSpec.StepSync].
    apply SyncSpec.ReachInit. by exists [].
  - apply andb_true_iff in Ea as [_ Ea]. by apply bool_decide_eq_true in Ea.
Qed.

Lemma synchroniser_inv_witness :
  exists s, map sequences_ (neighbours_ s) = [[11; 12; 13]; [14; 15; 16]] /\ OrdMap.sorted (requestedSequences_ s) /\
    (forall n l, neighbours_ s = n :: l -> sequences_ n = [] -> Forall (fun m => sequences_ m = []) l).
Proof.
  destruct sample_reached as (s & Hr & En). exists s. split; [done|].
  destruct (SyncSpec.synchroniser_inv _ _ _ _ sort_neighbours sort_neighbours_sorted sync_settings s Hr) as (H1 & H2 & _). by split.
Defined.

Lemma written_not_waited_witness :
  exists s, map sequences_ (neighbours_ s) = [[11; 12; 13]; [14; 15; 16]] /\
    Forall (fun n => 11 ∉ sequences_ n) (neighbours_ (PoolSync.onWriteBlock sort_neighbours 11 s)).
Proof.
  destruct sample_reached as (s & Hr & En). exists s. split; [done|].
  apply (SyncSpec.written_not_waited _ _ _ _ sort_neighbours sort_neighbours_perm sort_neighbours_sorted sync_settings 11 s Hr).
  apply (Forall_map sequences_ NoDup). rewrite En. repeat constructor; by apply (bool_decide_unpack _).
Defined.

Lemma new_numbers_witness :
  let s := mkSync true [(11, 1); (12, 1)] [mkNeighbour 0 [1] [] 0] true true 0 in
  exists numbers, PoolSync.getNeededSequences sync_settings 30 0 s (chain_at 10) =
      ret (true, s <| neighbours_ := <[0%nat := mkNeighbour 0 [1] [] 0 <| sequences_ := numbers |>]> (neighbours_ s) |>) /\
    (length numbers <= 3)%nat /\ StronglySorted Z.lt numbers /\ Forall (fun x => 10 < x <= 29 /\ Forall (fun kv => kv.1 < x) [(11, 1); (12, 1)]) numbers.
Proof.
  apply (SyncSpec.new_numbers sync_settings 30 0 (mkSync true [(11, 1); (12, 1)] [mkNeighbour 0 [1] [] 0] true true 0) (chain_at 10) (mkNeighbour 0 [1] [] 0) (11, 29) []);
    try reflexivity; try (cbn; lia); repeat constructor; cbn; lia.
Defined.

Lemma sync_asks_next_witness :
  exists s' target more,
    PoolSync.sync sort_neighbours sync_settings sync_neighbours 30 30 5 false SyncSpec.fresh_sync (chain_at 10) =
      ret (s', chain_at 10, mkRequest target (seqZ 11 3) 1 :: more) /\
    isSyncroStarted_ s' = true /\ exists x, x ∈ sync_neighbours /\ cn_key target = cn_key x.
Proof.
  apply (SyncSpec.sync_asks_next sort_neighbours sync_settings sync_neighbours 30 5 (chain_at 10));
    first [done | reflexivity | (cbn; lia) | by repeat constructor].
Defined.

Lemma repeat_never_divides_witness :
  PoolSync.onRoundSimulation sort_neighbours (mkSyncData true false 3 0 10 350) [mkConnection [1] false 40] 30
    (mkSync true [(11, 1)] [mkNeighbour 0 [1] [11] 0] true true 0) (chain_at 10) = None.
Proof.
  apply (SyncSpec.repeat_never_divides sort_neighbours (mkSyncData true false 3 0 10 350) [mkConnection [1] false 40] 30
    (mkSync true [(11, 1)] [mkNeighbour 0 [1] [11] 0] true true 0) (chain_at 10) (mkNeighbour 0 [1] [11] 0)); try done. by left.
Defined.

Lemma progress_is_rounded_witness :
  PoolSync.showSyncronizationProgress (2 ^ 27 + 6) (2 ^ 27) (chain_at (2 ^ 27)) = ret true /\
  BlockChain.getRequiredBlocks (2 ^ 27 + 6) (chain_at (2 ^ 27)) = [(2 ^ 27 + 1, 2 ^ 27 + 5)].
Proof. apply (SyncSpec.progress_is_rounded (chain_at (2 ^ 27))); reflexivity. Defined.
