(* ===== verification/Chain.v ===== *)
(** * Lists linked through an array

    [chained stop t h l]: from the head [h] the links in [t] run through the
    indices [l] and end at the value [stop], which is the index of none. *)

From Stdlib Require Import ZArith Lia.
From stdpp Require Import base tactics numbers option list.
From S2P Require Import Prelude.

Local Open Scope Z_scope.

Section chain.
Context (stop : Z).

Fixpoint chained (t : list Z) (h : Z) (l : list nat) : Prop :=
  match l with
  | [] => h = stop
  | i :: l => h = Z.of_nat i /\ Z.of_nat i <> stop /\ exists n, t !! i = Some n /\ chained t n l
  end.

(** Only the links of its members matter. *)
Lemma chained_insert t h l i v : i ∉ l -> chained t h l -> chained (<[i := v]> t) h l.
Proof.
  revert h. induction l as [|j l IH]; intros h Hi; cbn; [done|].
  apply not_elem_of_cons in Hi as [Hne Hi]. intros (-> & Hs & n & Hn & Hc). split_and!; [done|done|]. exists n.
  rewrite list_lookup_insert_ne by done. split; [done|]. by apply IH.
Qed.

(** A new first member. *)
Lemma chained_push t h l i :
  chained t h l -> (i < length t)%nat -> i ∉ l -> Z.of_nat i <> stop -> chained (<[i := h]> t) (Z.of_nat i) (i :: l).
Proof.
  intros Hc Hi Hn Hs. split_and!; [done|done|]. exists h. rewrite list_lookup_insert_eq by done. split; [done|].
  by apply chained_insert.
Qed.

(** The head of what follows a prefix. *)
Lemma chained_app t h pre l :
  chained t h (pre ++ l) ->
  match last pre with
  | None => chained t h l
  | Some j => exists n, t !! j = Some n /\ chained t n l
  end.
Proof.
  revert h. induction pre as [|i pre IH]; intros h; cbn [app]; [done|].
  intros (-> & _ & n & Hn & Hc). specialize (IH n Hc). rewrite last_cons. destruct (last pre) as [j|]; [done|]. by exists n.
Qed.

(** A member is taken out: the link before it goes to the next one. *)
Lemma chained_remove t h pre i l n :
  NoDup (pre ++ i :: l) -> chained t h (pre ++ i :: l) -> t !! i = Some n ->
  match last pre with
  | None => h = Z.of_nat i /\ chained (<[i := stop]> t) n l
  | Some j => chained (<[i := stop]> (<[j := n]> t)) h (pre ++ l)
  end.
Proof.
  revert h. induction pre as [|j pre IH]; intros h Hd Hc Hn.
  - cbn [app last] in *. destruct Hc as (-> & _ & n' & Hn' & Hc). rewrite Hn in Hn'. injection Hn' as <-.
    split; [done|]. apply NoDup_cons in Hd as [Hd _]. by apply chained_insert.
  - cbn [app] in Hd, Hc. destruct Hc as (-> & Hs & m & Hm & Hc). apply NoDup_cons in Hd as [Hj Hd].
    assert (j < length t)%nat as Hlt by by eapply lookup_lt_Some.
    assert (j <> i) as Hji by (intros ->; apply Hj, elem_of_app; right; by left).
    specialize (IH m Hd Hc Hn). rewrite last_cons. destruct (last pre) as [j'|] eqn:El.
    + assert (j' <> j) as Hne.
      { intros ->. apply Hj, elem_of_app. left. apply last_Some in El as [p' ->]. apply elem_of_app. right. by left. }
      cbn [app chained]. split_and!; [done|done|]. exists m. rewrite !list_lookup_insert_ne by done. by split.
    + destruct pre as [|j0 pre]; [|rewrite last_cons in El; by destruct (last pre)].
      cbn [app] in *. destruct Hc as (_ & _ & n' & Hn' & Hc). rewrite Hn in Hn'. injection Hn' as <-.
      apply NoDup_cons in Hd as [Hd _]. cbn [chained]. split_and!; [done|done|]. exists n.
      rewrite list_lookup_insert_ne, list_lookup_insert_eq by done. split; [done|].
      apply chained_insert; [done|]. apply chained_insert; [|done]. intros Hin. apply Hj. by right.
Qed.
End chain.
