(* ===== verification/Validator.v ===== *)
(** * The validator of transactions ([csnode/src/transactionsvalidator.cpp],
      [csnode/include/csnode/transactionsvalidator.hpp],
      [csnode/src/walletsstate.cpp], [csnode/include/csnode/walletsstate.hpp],
      [csnode/include/csnode/eventreport.hpp])

    Which transactions of a round can be executed together: each one in order
    against a copy of its wallets ([validateTransaction]), then the wallets that
    went below zero, whose transactions are removed until they are not
    ([validateByGraph]).

    The nodes are the wallets' copies, named by their public keys; a pointer to
    a node is its key, since references into the [unordered_map] stay valid.
    The transactions of a wallet are linked from the last to the first one:
    [lastTrxInd_] of the node is the head, [trxList_] the next ones, and the
    [TransactionIndex* prevNext] of the removals is a [link].

    What the contracts know (known and closed addresses), the ids of the wallets
    and the wallets cache are fixed during a validation; they are variables here. *)

From Stdlib Require Import ZArith Lia.
From stdpp Require Import base tactics numbers option list gmap.
From S2P Require Import Prelude Effect BinStream Amount UserField Crypto Address Transaction Double Pool.
From S2P Require Import ContractRef Tail WalletsIds AmountMod WalletsCache Chain.

Local Open Scope Z_scope.
Local Open Scope cs_scope.

Import Contracts.

(** [Reject::Reason] *)
Inductive Reason : Set :=
  | None_
  | WrongSignature | InsufficientMaxFee | NegativeResult | SourceIsTarget | DisabledInnerID | DuplicatedInnerID
  | MalformedContractAddress | MalformedTransaction | ContractClosed | NewStateOutOfFee | EmittedOutOfFee | CompleteReject
  | LimitExceeded.

#[export] Instance Reason_eq_dec : EqDecision Reason.
Proof. solve_decision. Defined.

(** [WalletsState::noInd_] *)
Definition noInd_ : Z := 2 ^ 32 - 1.

(** [WalletsState::WalletData] *)
Record Node := mkNode { lastTrxInd_ : Z; node_balance_ : Amount; node_tail_ : TransactionsTail.t }.
#[global] Instance eta_node : Eta Node := fun n => mkNode (lastTrxInd_ n) (node_balance_ n) (node_tail_ n).

(** The members of [TransactionsValidator], the storage of its [WalletsState], and
    the characteristic mask that its functions get by reference. *)
Record State := mkState {
  storage_ : gmap bytes Node;
  trxList_ : list Z;
  payableMaxFees_ : list (Address * Amount);
  rejectedNewStates_ : list (Address * Reason);
  validNewStates_ : list (Z * bool);
  duplicatedNewStates_ : list Address;
  (** the top of the stack first *)
  negativeNodes_ : list bytes;
  cntRemovedTrxs_ : Z;
  mask_ : list Reason
}.
#[global] Instance eta_state : Eta State := fun s =>
  mkState (storage_ s) (trxList_ s) (payableMaxFees_ s) (rejectedNewStates_ s) (validNewStates_ s)
    (duplicatedNewStates_ s) (negativeNodes_ s) (cntRemovedTrxs_ s) (mask_ s).

(** [TransactionIndex* prevNext] *)
Inductive link : Set :=
  | Head
  | After (i : Z).

Module Validator.

(** *** The containers keyed by addresses *)

Fixpoint find_by {A} (eqb : Address -> Address -> bool) (a : Address) (m : list (Address * A)) : option A :=
  match m with
  | [] => None
  | (k, v) :: m => if eqb k a then Some v else find_by eqb a m
  end.
Fixpoint set_by {A} (eqb : Address -> Address -> bool) (a : Address) (v : A) (m : list (Address * A)) : list (Address * A) :=
  match m with
  | [] => [(a, v)]
  | (k, w) :: m => if eqb k a then (k, v) :: m else (k, w) :: set_by eqb a v m
  end.

(** [isRejectedSmart], [getRejectReason], [saveNewState], [clearCaches], [reset] *)
Definition isRejectedSmart (addr : Address) (s : State) : bool :=
  match find_by Address.op_eq addr (rejectedNewStates_ s) with Some _ => true | None => false end.
Definition getRejectReason (addr : Address) (s : State) : Reason :=
  match find_by Address.op_eq addr (rejectedNewStates_ s) with Some r => r | None => None_ end.
Definition saveNewState (addr : Address) (index : Z) (rejectReason : Reason) (s : State) : State :=
  if bool_decide (rejectReason <> None_) then s <| rejectedNewStates_ := set_by Address.op_eq addr rejectReason (rejectedNewStates_ s) |>
  else s <| validNewStates_ := validNewStates_ s ++ [(index, true)] |>.
Definition clearCaches (s : State) : State :=
  s <| payableMaxFees_ := [] |> <| rejectedNewStates_ := [] |> <| validNewStates_ := [] |> <| duplicatedNewStates_ := [] |>.
Definition reset (transactionsNum : nat) (s : State) : State :=
  s <| trxList_ := replicate transactionsNum noInd_ |> <| negativeNodes_ := [] |> <| cntRemovedTrxs_ := 0 |>.

(** [WalletsState::updateFromSource] *)
Definition updateFromSource (s : State) : State := s <| storage_ := ∅ |>.

(** [container[i] = v] *)
Definition set_index {A} (l : list A) (i : Z) (v : A) : M (list A) :=
  do! _ := index l (Z.to_nat i) in ret (<[Z.to_nat i := v]> l).

(** [validNewStates_.back()]; undefined when it is empty *)
Definition back {A} (l : list A) : M A := match last l with Some a => ret a | None => None end.

Section validator.
Context {D : Type} `{!MultiIndex D} (ids : WalletsIds D) (loadBlock : Z -> Pool.priv) (cache : Cache).
(** [is_known_smart_contract], [is_closed_smart_contract] *)
Context (known closed : Address -> bool).

(** [BlockChain::getAddressByType(addr, PublicKey)], which is [SmartContracts::absolute_address] *)
Definition absolute_address (addr : Address) : Address :=
  if Address.is_public_key addr then addr
  else match findaddr (Address.wallet_id addr) ids with Some a => a | None => addr end.

Definition pk (a : Address) : bytes := WalletsCache.toPublicKey ids a.

Definition zeroBalance_ : Amount := of_int 0.

(** [WalletsState::getData]: the copy of the wallet in the cache, made when it is first asked for. *)
Definition from_cache (k : bytes) : Node :=
  match WalletsCache.findWallet k cache with
  | Some w => mkNode noInd_ (balance_ w) (trxTail_ w)
  | None => mkNode noInd_ (of_int 0) TransactionsTail.new
  end.
Definition node (k : bytes) (s : State) : Node := default (from_cache k) (storage_ s !! k).
Definition edit (k : bytes) (f : Node -> Node) (s : State) : State := s <| storage_ := <[k := f (node k s)]> (storage_ s) |>.
Definition getData (k : bytes) (s : State) : State := edit k (fun n => n) s.
Definition set_balance (k : bytes) (a : Amount) : State -> State := edit k (fun n => n <| node_balance_ := a |>).

(** [duplicatedNewState] *)
Definition duplicatedNewState (addr : Address) (s : State) : bool :=
  existsb (Address.op_eq (absolute_address addr)) (duplicatedNewStates_ s).

(** *** One transaction *)

(** [validateNewStateAsSource] *)
Definition validateNewStateAsSource (trx : Transaction) (s : State) : M (Reason * State) :=
  if closed (target_ trx) then ret (ContractClosed, s)
  else
    do! initTransaction := lift (get_init_transaction loadBlock trx) in
    if negb (Tx.is_valid initTransaction) then ret (MalformedTransaction, s)
    else
      let feeField := Tx.user_field new_state_Fee trx in
      if negb (uf_is_valid feeField) then ret (MalformedTransaction, s)
      else
        let feeForExecution := value_amount feeField in
        do! init_max := fee_amount (max_fee_ initTransaction) in
        do! init_counted := fee_amount (counted_fee_ initTransaction) in
        do! counted := fee_amount (counted_fee_ trx) in
        if Amount.op_lt (op_sub init_max init_counted) (op_add counted feeForExecution) then ret (InsufficientMaxFee, s)
        else
          let k := pk (source_ initTransaction) in
          let s := getData k s in
          let newBalance :=
            op_sub (op_sub (op_sub (op_sub (op_add (node_balance_ (node k s)) init_max) init_counted) (amount_ trx)) feeForExecution)
              counted in
          let s := set_balance k newBalance s in
          ret (if Amount.op_lt newBalance zeroBalance_ then NegativeResult else None_, s).

(** The part of [validateCommonAsSource] about the transactions that a contract emits:
    what is left of the starter's greatest fee. *)
Definition validateEmitted (trxs : list Transaction) (trx : Transaction) (s : State) : M (Reason * State) :=
  let sourceAbsAddr := absolute_address (source_ trx) in
  if isRejectedSmart sourceAbsAddr s then ret (CompleteReject, s)
  else if (length (validNewStates_ s) =? 0)%nat then ret (MalformedTransaction, s)
  else
    do! b := back (validNewStates_ s) in
    do! state := index trxs (Z.to_nat b.1) in
    do! initTransaction := lift (get_init_transaction loadBlock state) in
    let invalidate (r : Reason) : State :=
      s <| rejectedNewStates_ := set_by Address.op_eq sourceAbsAddr r (rejectedNewStates_ s) |>
        <| validNewStates_ := removelast (validNewStates_ s) ++ [(b.1, false)] |> in
    if Tx.is_valid initTransaction && Address.op_eq (absolute_address (target_ initTransaction)) sourceAbsAddr then
      let initerAddr := absolute_address (source_ initTransaction) in
      do! counted := fee_amount (counted_fee_ trx) in
      do! leftFromMaxFee :=
        (match find_by WalletsCache.equivalent initerAddr (payableMaxFees_ s) with
         | None => do! init_max := fee_amount (max_fee_ initTransaction) in ret (op_sub init_max counted)
         | Some rest => ret (op_sub rest counted)
         end) in
      if Amount.op_lt leftFromMaxFee zeroBalance_ then ret (InsufficientMaxFee, invalidate InsufficientMaxFee)
      else ret (None_, s <| payableMaxFees_ := set_by WalletsCache.equivalent initerAddr leftFromMaxFee (payableMaxFees_ s) |>)
    else ret (MalformedTransaction, invalidate MalformedTransaction).

(** [validateCommonAsSource]; [k] is the key of [wallState]. *)
Definition validateCommonAsSource (trxs : list Transaction) (trxInd : Z) (k : bytes) (s : State) : M (Reason * State) :=
  do! trx := index trxs (Z.to_nat trxInd) in
  if Address.op_eq (source_ trx) (target_ trx) then ret (SourceIsTarget, s)
  else
    do! max_fee := fee_amount (max_fee_ trx) in
    do! counted_fee := fee_amount (counted_fee_ trx) in
    if Amount.op_lt max_fee counted_fee then ret (InsufficientMaxFee, s)
    else
      let balance := node_balance_ (node k s) in
      if is_executable trx then ret (None_, set_balance k (op_sub (op_sub balance (amount_ trx)) max_fee) s)
      else if known (source_ trx) then
        do! (r, s) := validateEmitted trxs trx s in
        ret (r, if bool_decide (r = None_) then set_balance k (op_sub balance (amount_ trx)) s else s)
      else if known (target_ trx) then ret (None_, set_balance k (op_sub (op_sub balance (amount_ trx)) max_fee) s)
      else ret (None_, set_balance k (op_sub (op_sub balance (amount_ trx)) counted_fee) s).

(** The transaction [i] becomes the first one of the node. *)
Definition link_transaction (k : bytes) (i : Z) (innerID : Z) (s : State) : M State :=
  let s := edit k (fun n => n <| node_tail_ := TransactionsTail.push innerID (node_tail_ n) |>) s in
  do! l := set_index (trxList_ s) i (lastTrxInd_ (node k s)) in
  ret (edit k (fun n => n <| lastTrxInd_ := u32 i |>) (s <| trxList_ := l |>)).

(** [validateTransactionAsSource] *)
Definition validateTransactionAsSource (trxs : list Transaction) (trxInd : Z) (s : State) : M (Reason * State) :=
  do! trx := index trxs (Z.to_nat trxInd) in
  let k := pk (source_ trx) in
  let s := getData k s in
  let trxTail := node_tail_ (node k s) in
  if negb (TransactionsTail.isAllowed trxTail (innerID_ trx)) then
    let r := if TransactionsTail.isDuplicated trxTail (innerID_ trx) then DuplicatedInnerID else DisabledInnerID in
    let addr := absolute_address (source_ trx) in
    ret (r, if is_new_state trx
            then saveNewState addr trxInd r s <| duplicatedNewStates_ := addr :: duplicatedNewStates_ s |>
            else s)
  else
    do! (r, s) :=
      (if is_new_state trx then
         let absAddr := absolute_address (source_ trx) in
         do! (r, s) :=
           (if isRejectedSmart absAddr s then ret (getRejectReason absAddr s, s) else validateNewStateAsSource trx s) in
         ret (r, saveNewState absAddr trxInd r s)
       else validateCommonAsSource trxs trxInd k s) in
    if bool_decide (r <> None_) then ret (r, s)
    else
      let negative := Amount.op_lt (node_balance_ (node k s)) zeroBalance_ && negb (is_new_state trx) in
      if negative && known (source_ trx) then ret (NegativeResult, s)
      else
        let s := if negative then s <| negativeNodes_ := k :: negativeNodes_ s |> else s in
        do! s := link_transaction k trxInd (innerID_ trx) s in
        ret (None_, s).

(** [validateTransactionAsTarget] *)
Definition validateTransactionAsTarget (trx : Transaction) (s : State) : State :=
  let k := pk (target_ trx) in
  let s := getData k s in
  set_balance k (op_add (node_balance_ (node k s)) (amount_ trx)) s.

(** [validateTransaction] *)
Definition validateTransaction (trxs : list Transaction) (trxInd : Z) (s : State) : M (Reason * State) :=
  do! (r, s) := validateTransactionAsSource trxs trxInd s in
  if bool_decide (r = None_) then
    do! trx := index trxs (Z.to_nat trxInd) in
    ret (None_, validateTransactionAsTarget trx s)
  else ret (r, s).

(** *** The transactions of contracts that went below zero *)

(** The loop of [makeSmartsValid] *)
Fixpoint makeSmartsValid (smarts : list (Transaction * Z)) (source : Address) (restoredCounter : Z) (s : State) : M (Z * State) :=
  match smarts with
  | [] => ret (restoredCounter, s)
  | (trx, i) :: smarts =>
      if Address.op_eq (absolute_address (source_ trx)) (absolute_address source) && (i <? Z.of_nat (length (mask_ s))) then
        let s := s <| mask_ := <[Z.to_nat i := None_]> (mask_ s) |> in
        do! s := link_transaction (pk (source_ trx)) i (innerID_ trx) (getData (pk (source_ trx)) s) in
        makeSmartsValid smarts source (restoredCounter + 1) s
      else makeSmartsValid smarts source restoredCounter s
  end.

(** The first loop of [checkRejectedSmarts]: the accepted new states and the transactions whose
    contract is below zero. *)
Fixpoint collectSmarts (trxs : list Transaction) (i : Z) (newStates : list Transaction) (rejected : list (Transaction * Z)) (s : State)
  : list Transaction * list (Transaction * Z) * State :=
  match trxs with
  | [] => (newStates, rejected, s)
  | t :: trxs =>
      if (i <? Z.of_nat (length (mask_ s))) && known (source_ t) && negb (is_new_state t) then
        let k := pk (source_ t) in
        let s := getData k s in
        collectSmarts trxs (i + 1) newStates
          (if Amount.op_lt (node_balance_ (node k s)) zeroBalance_ then rejected ++ [(t, i)] else rejected) s
      else if (i <? Z.of_nat (length (mask_ s))) && is_new_state t && bool_decide (mask_ s !! Z.to_nat i = Some None_) then
        collectSmarts trxs (i + 1) (newStates ++ [t]) rejected s
      else collectSmarts trxs (i + 1) newStates rejected s
  end.

(** The second loop: a new state replenishes its contract. *)
Fixpoint replenishSmarts (newStates : list Transaction) (rejected : list (Transaction * Z)) (restoredCounter : Z) (s : State)
  : M (Z * State) :=
  match newStates with
  | [] => ret (restoredCounter, s)
  | state :: newStates =>
      do! initTransaction := lift (get_init_transaction loadBlock state) in
      let absAddr := absolute_address (target_ initTransaction) in
      match List.find (fun o => Address.op_eq (absolute_address (source_ o.1)) absAddr) rejected with
      | None => replenishSmarts newStates rejected restoredCounter s
      | Some (trx, _) =>
          let k := pk (source_ trx) in
          let s := getData k s in
          let balance := add_assign (node_balance_ (node k s)) (amount_ initTransaction) in
          let s := set_balance k balance s in
          do! (restoredCounter, s) :=
            (if op_ge balance zeroBalance_ then makeSmartsValid rejected (source_ trx) restoredCounter s
             else ret (restoredCounter, s)) in
          replenishSmarts newStates rejected restoredCounter s
      end
  end.

(** [checkRejectedSmarts] *)
Definition checkRejectedSmarts (trxs : list Transaction) (s : State) : M (Z * State) :=
  let '(newStates, rejected, s) := collectSmarts trxs 0 [] [] s in
  replenishSmarts newStates rejected 0 s.

(** *** The removal of transactions *)

Definition read_link (k : bytes) (l : link) (s : State) : M Z :=
  match l with Head => ret (lastTrxInd_ (node k s)) | After i => index (trxList_ s) (Z.to_nat i) end.
Definition write_link (k : bytes) (l : link) (v : Z) (s : State) : M State :=
  match l with
  | Head => ret (edit k (fun n => n <| lastTrxInd_ := v |>) s)
  | After i => do! t := set_index (trxList_ s) i v in ret (s <| trxList_ := t |>)
  end.

(** What the source of a transaction pays besides the amount. *)
Definition fee_of (trx : Transaction) : M Amount := fee_amount (if known (target_ trx) then max_fee_ trx else counted_fee_ trx).
(** [Amount trxCost = trx.amount().to_double()], with the fee. *)
Definition trx_cost (trx : Transaction) : M Amount :=
  do! a := of_double (to_double (amount_ trx)) in
  do! fee := fee_of trx in
  ret (add_assign a fee).

(** The transaction is rejected, its amounts go back, and it is taken out of the list after [l]. *)
Definition remove_transaction (k : bytes) (l : link) (trxInd : Z) (trx : Transaction) (s : State) : M State :=
  let kd := pk (target_ trx) in
  do! mask := set_index (mask_ s) trxInd NegativeResult in
  let s := s <| mask_ := mask |> in
  do! fee := fee_of trx in
  let s := set_balance k (op_add (op_add (node_balance_ (node k s)) (amount_ trx)) fee) s in
  let s := set_balance kd (op_sub (node_balance_ (node kd s)) (amount_ trx)) s in
  do! next := index (trxList_ s) (Z.to_nat trxInd) in
  do! s := write_link k l next s in
  do! t := set_index (trxList_ s) trxInd noInd_ in
  ret (s <| trxList_ := t |> <| cntRemovedTrxs_ := u64 (cntRemovedTrxs_ s + 1) |>).

(** The loops of the four functions below.  [one]: only one transaction that costs
    as much as is missing; [positive]: only those whose target can pay them back
    (else a target that cannot is put on the stack).  The result without fuel is [None],
    like the loop that does not end. *)
Fixpoint remove_loop (one positive : bool) (trxs : list Transaction) (k : bytes) (absBalance : Amount) (fuel : nat) (l : link)
  (s : State) : M (bool * State) :=
  match fuel with
  | O => None
  | S fuel =>
      do! trxInd := read_link k l s in
      if trxInd =? noInd_ then ret (false, s)
      else
        do! trx := index trxs (Z.to_nat trxInd) in
        do! cheap := (if one then do! trxCost := trx_cost trx in ret (Amount.op_lt trxCost absBalance) else ret false) in
        if cheap then remove_loop one positive trxs k absBalance fuel (After trxInd) s
        else
          let kd := pk (target_ trx) in
          let s := getData kd s in
          if positive && negb (op_le (amount_ trx) (node_balance_ (node kd s)))
          then remove_loop one positive trxs k absBalance fuel (After trxInd) s
          else
            do! s := remove_transaction k l trxInd trx s in
            let s := if negb positive && Amount.op_lt (node_balance_ (node kd s)) zeroBalance_
                     then s <| negativeNodes_ := kd :: negativeNodes_ s |> else s in
            if one then ret (true, s)
            else if op_ge (node_balance_ (node k s)) zeroBalance_ then ret (true, s)
            else remove_loop one positive trxs k absBalance fuel l s
  end.

(** The common beginning: nothing to do, or the loop with what is missing. *)
Definition remove_from (one positive : bool) (trxs : list Transaction) (k : bytes) (s : State) : M (bool * State) :=
  if op_ge (node_balance_ (node k s)) zeroBalance_ then ret (true, s)
  else remove_loop one positive trxs k (op_neg (node_balance_ (node k s))) (S (length (trxList_ s))) Head s.

Definition removeTransactions_PositiveOne := remove_from true true.
Definition removeTransactions_PositiveAll := remove_from false true.
Definition removeTransactions_NegativeOne := remove_from true false.
Definition removeTransactions_NegativeAll := remove_from false false.

(** [removeTransactions] *)
Definition removeTransactions (trxs : list Transaction) (k : bytes) (s : State) : M State :=
  do! (done1, s) := removeTransactions_PositiveOne trxs k s in
  if done1 : bool then ret s
  else
    do! (done2, s) := removeTransactions_PositiveAll trxs k s in
    if done2 : bool then ret s
    else
      do! (done3, s) := removeTransactions_NegativeOne trxs k s in
      if done3 : bool then ret s
      else
        do! (_, s) := removeTransactions_NegativeAll trxs k s in
        ret s.

(** [validateByGraph] *)
Fixpoint validateByGraph (fuel : nat) (trxs : list Transaction) (s : State) : M State :=
  match negativeNodes_ s with
  | [] => ret s
  | k :: stack =>
      match fuel with
      | O => None
      | S fuel =>
          let s := s <| negativeNodes_ := stack |> in
          if op_ge (node_balance_ (node k s)) zeroBalance_ then validateByGraph fuel trxs s
          else do! s := removeTransactions trxs k s in validateByGraph fuel trxs s
      end
  end.
End validator.

(** ** Transfers

    What follows is about transactions that are plain transfers while no contract is known. *)

(** A transfer, its fee, and an amount that its double represents exactly. *)
Record transfer_ok (tr : Transaction) (fee : Amount) : Prop := {
  ok_plain : WalletsCache.plain tr fee;
  ok_amount : 0 <= value (amount_ tr);
  ok_fee : 0 <= value fee;
  ok_max_fee : exists max_fee, fee_amount (max_fee_ tr) = ret max_fee;
  ok_exact : of_double (to_double (amount_ tr)) = ret (amount_ tr)
}.

(** The transactions that a mask accepts. *)
Fixpoint accepted (l : list (Transaction * Amount)) (mask : list Reason) : list (Transaction * Amount) :=
  match l, mask with
  | p :: l, r :: mask => if decide (r = None_) then p :: accepted l mask else accepted l mask
  | _, _ => []
  end.

(** Everything that the transactions can take from a wallet. *)
Definition cost_of (l : list (Transaction * Amount)) : Z := foldr (fun p acc => value (amount_ p.1) + value p.2 + acc) 0 l.

Section transfers.
Context {D : Type} `{!MultiIndex D} (ids : WalletsIds D) (loadBlock : Z -> Pool.priv) (cache : Cache).
Context (known closed : Address -> bool) (known_none : forall a, known a = false).

#[local] Abbreviation nd := (node cache).
#[local] Abbreviation pk := (pk ids).
#[local] Abbreviation eff := (WalletsCache.transfer ids).
#[local] Abbreviation sum := (WalletsCache.transfers ids).
#[local] Abbreviation nval k s := (value (node_balance_ (nd k s))).

Lemma node_edit k k' f s : nd k (edit cache k' f s) = if decide (k = k') then f (nd k' s) else nd k s.
Proof.
  unfold node at 1, edit. cbn [upd storage_]. destruct (decide (k = k')) as [->|Hne].
  - by rewrite lookup_insert_eq.
  - by rewrite lookup_insert_ne.
Qed.

Lemma node_getData k k' s : nd k (getData cache k' s) = nd k s.
Proof. unfold getData. rewrite node_edit. by destruct (decide (k = k')) as [->|]. Qed.

Lemma node_set_balance k k' a s :
  nd k (set_balance cache k' a s) = if decide (k = k') then nd k' s <| node_balance_ := a |> else nd k s.
Proof. apply node_edit. Qed.

(** *** Sums over accepted transactions *)

#[local] Arguments WalletsCache.transfers : simpl never.
#[local] Arguments WalletsCache.transfer : simpl never.

Lemma sum_cons p l k : sum (p :: l) k = eff p.1 p.2 k + sum l k.
Proof. done. Qed.

Lemma sum_app l l' k : sum (l ++ l') k = sum l k + sum l' k.
Proof. induction l as [|p l IH]; cbn [app]; [done|]. rewrite !sum_cons, IH. lia. Qed.

Lemma accepted_reject l mask i p r k :
  mask !! i = Some None_ -> l !! i = Some p -> r <> None_ ->
  sum (accepted l (<[i := r]> mask)) k = sum (accepted l mask) k - eff p.1 p.2 k.
Proof.
  revert mask i. induction l as [|q l IH]; intros [|r0 mask] [|i] Hm Hl Hr; cbn in *; try done.
  - injection Hm as ->. injection Hl as ->. rewrite decide_False, decide_True by done. rewrite sum_cons. lia.
  - destruct (decide (r0 = None_)); rewrite ?sum_cons, (IH _ i) by done; lia.
Qed.

Lemma accepted_take_S l mask m p :
  l !! m = Some p -> (m < length mask)%nat ->
  accepted (take (S m) l) mask = accepted (take m l) mask ++ (if decide (mask !! m = Some None_) then [p] else []).
Proof.
  revert mask m. induction l as [|q l IH]; intros [|r mask] [|m] Hl Hm; cbn [length] in Hm; try done; try lia.
  - injection Hl as ->. cbn. by destruct (decide (r = None_)), (decide (Some r = Some None_)); try naive_solver.
  - cbn [lookup list_lookup] in Hl. change (accepted (take (S (S m)) (q :: l)) (r :: mask)) with
      (if decide (r = None_) then q :: accepted (take (S m) l) mask else accepted (take (S m) l) mask).
    change (accepted (take (S m) (q :: l)) (r :: mask)) with
      (if decide (r = None_) then q :: accepted (take m l) mask else accepted (take m l) mask).
    rewrite (IH mask m) by (done || lia). cbn [lookup list_lookup]. by destruct (decide (r = None_)).
Qed.

(** The reasons of later transactions do not matter. *)
Lemma accepted_insert_ge l mask m r : (length l <= m)%nat -> accepted l (<[m := r]> mask) = accepted l mask.
Proof.
  revert mask m. induction l as [|q l IH]; intros [|r0 mask] [|m] Hm; cbn [length] in Hm; cbn; try done; try lia.
  by rewrite IH by lia.
Qed.

Lemma sum_bounds l k :
  Forall (fun p => transfer_ok p.1 p.2) l -> - cost_of l <= sum l k <= cost_of l /\ 0 <= cost_of l.
Proof.
  induction 1 as [|p l Hp _ IH]; [unfold WalletsCache.transfers; cbn; lia|]. rewrite sum_cons. cbn [cost_of foldr]. fold (cost_of l).
  pose proof (ok_amount _ _ Hp). pose proof (ok_fee _ _ Hp). unfold WalletsCache.transfer, WalletsCache.at_key.
  repeat destruct (decide _); lia.
Qed.

Lemma accepted_cost l mask :
  Forall (fun p => transfer_ok p.1 p.2) l ->
  Forall (fun p => transfer_ok p.1 p.2) (accepted l mask) /\ cost_of (accepted l mask) <= cost_of l.
Proof.
  intros Hl. revert mask. induction Hl as [|p l Hp Hl IH]; intros mask; [done|].
  destruct mask as [|r mask]; cbn [accepted].
  - split; [constructor|]. pose proof (proj2 (sum_bounds (p :: l) [] (Forall_cons_2 _ _ _ Hp Hl))). exact H.
  - destruct (IH mask) as [H1 H2]. pose proof (ok_amount _ _ Hp). pose proof (ok_fee _ _ Hp).
    destruct (decide (r = None_)); cbn [cost_of foldr]; fold (cost_of l) (cost_of (accepted l mask)); split; try done; try lia. by constructor.
Qed.

Lemma cost_of_take l m : Forall (fun p => transfer_ok p.1 p.2) l -> cost_of (take m l) <= cost_of l.
Proof.
  intros Hl. revert m. induction Hl as [|p l Hp Hl IH]; intros [|m]; cbn [take]; try (cbn; lia).
  - apply (proj2 (sum_bounds (p :: l) [] (Forall_cons_2 _ _ _ Hp Hl))).
  - cbn [cost_of foldr]. fold (cost_of (take m l)) (cost_of l). specialize (IH m). lia.
Qed.

Lemma cost_of_lookup l i p :
  Forall (fun p => transfer_ok p.1 p.2) l -> l !! i = Some p -> value (amount_ p.1) + value p.2 <= cost_of l.
Proof.
  intros Hl. revert i. induction Hl as [|q l Hq Hl IH]; intros [|i] El; [done|done| |]; cbn [cost_of foldr]; fold (cost_of l).
  - injection El as ->. pose proof (proj2 (sum_bounds l [] Hl)). lia.
  - specialize (IH i El). pose proof (ok_amount _ _ Hq). pose proof (ok_fee _ _ Hq). lia.
Qed.

(** *** The linked transactions of a wallet *)

Context (l : list (Transaction * Amount)) (l_ok : Forall (fun p => transfer_ok p.1 p.2) l).
Context (l_len : Z.of_nat (length l) < noInd_).

Definition source_of (i : nat) : option bytes := (fun p => pk (source_ p.1)) <$> l !! i.

(** The accepted ones among the first [m] transactions whose source is [k], the last one first. *)
Definition own (mask : list Reason) (k : bytes) (m : nat) : list nat :=
  filter (fun i => mask !! i = Some None_ /\ source_of i = Some k) (rev (seq 0 m)).

Lemma own_S mask k m :
  own mask k (S m) = (if decide (mask !! m = Some None_ /\ source_of m = Some k) then [m] else []) ++ own mask k m.
Proof.
  unfold own. rewrite seq_S, rev_app_distr. cbn [rev app Nat.add]. rewrite filter_cons. by destruct (decide _).
Qed.

Lemma own_elem mask k m i : i ∈ own mask k m <-> (i < m)%nat /\ mask !! i = Some None_ /\ source_of i = Some k.
Proof.
  unfold own. rewrite list_elem_of_filter, (list_elem_of_In (rev _)), <- in_rev, in_seq. split; [intros [[] ?]|intros (? & ? & ?)]; split_and!; (done || lia).
Qed.

Lemma own_nodup mask k m : NoDup (own mask k m).
Proof. apply NoDup_filter. rewrite NoDup_ListNoDup. apply NoDup_rev, seq_NoDup. Qed.

Lemma own_reject mask k m i r :
  r <> None_ -> own (<[i := r]> mask) k m = filter (fun j => j <> i) (own mask k m).
Proof.
  intros Hr. unfold own. rewrite list_filter_filter. apply list_filter_iff. intros j.
  destruct (decide (j = i)) as [->|Hne].
  - split; [|naive_solver]. intros [Hm _]. destruct (decide (i < length mask)%nat).
    + rewrite list_lookup_insert_eq in Hm by done. naive_solver.
    + rewrite lookup_ge_None_2 in Hm; [done|]. rewrite length_insert. lia.
  - rewrite list_lookup_insert_ne by done. naive_solver.
Qed.

Lemma own_insert_ge mask k m i r : (m <= i)%nat -> own (<[i := r]> mask) k m = own mask k m.
Proof.
  intros Hm. unfold own. apply filter_ext_elem. intros j Hj. apply list_elem_of_In, in_rev, in_seq in Hj.
  rewrite list_lookup_insert_ne by lia. done.
Qed.

Lemma filter_out pre i (post : list nat) : NoDup (pre ++ i :: post) -> filter (fun j => j <> i) (pre ++ i :: post) = pre ++ post.
Proof.
  intros Hd. rewrite filter_app, filter_cons, decide_False by naive_solver.
  apply NoDup_app in Hd as (_ & Hx & [Hi _]%NoDup_cons).
  f_equal; apply filter_all, Forall_forall; intros j Hj ->; [by apply (Hx i Hj); left|done].
Qed.

(** *** The invariant *)

Context (cache_ok : WalletsCache.ok cache).
Context (rich : forall k, 0 <= WalletsCache.bal k cache /\ WalletsCache.bal k cache + cost_of l < 2 ^ 31 * AMOUNT_MAX_FRACTION).

(** The balance that follows from the accepted ones among the first [m] transactions. *)
Definition expected (mask : list Reason) (m : nat) (k : bytes) : Z :=
  WalletsCache.bal k cache + sum (accepted (take m l) mask) k.

Lemma expected_range mask m k : - 2 ^ 31 * AMOUNT_MAX_FRACTION < expected mask m k < 2 ^ 31 * AMOUNT_MAX_FRACTION.
Proof.
  unfold expected. destruct (accepted_cost (take m l) mask (Forall_take _ _ _ l_ok)) as [H1 H2].
  destruct (sum_bounds _ k H1) as [H3 _]. destruct (rich k) as [R1 R2]. pose proof (cost_of_take l m l_ok). lia.
Qed.

Lemma exact_balance a mask m k : weak a -> value a ≡ₐ expected mask m k -> value a = expected mask m k.
Proof. intros Ha He. apply eqm_range; [by apply weak_range|apply expected_range|done]. Qed.

(** After the first [m] transactions: balances, lists. *)
Record inv (m : nat) (s : State) : Prop := {
  inv_mask : length (mask_ s) = length l;
  inv_links : length (trxList_ s) = length l;
  inv_weak k : weak (node_balance_ (nd k s));
  inv_bal k : nval k s = expected (mask_ s) m k;
  inv_chain k : chained noInd_ (trxList_ s) (lastTrxInd_ (nd k s)) (own (mask_ s) k m)
}.

(** The wallets below zero are on the stack. *)
Definition covered (P : bytes -> Prop) (s : State) : Prop :=
  forall k, P k -> nval k s < 0 -> k ∈ negativeNodes_ s.

(** The fields that [inv] is about. *)
Lemma inv_same m s s' :
  inv m s -> mask_ s' = mask_ s -> trxList_ s' = trxList_ s -> (forall k, nd k s' = nd k s) -> inv m s'.
Proof. intros [H1 H2 H3 H4 H5] Em El Hn. split; rewrite ?Em, ?El; try done; intros k; rewrite Hn; auto. Qed.

Lemma from_cache_spec k : normal (node_balance_ (from_cache cache k)) /\ value (node_balance_ (from_cache cache k)) = WalletsCache.bal k cache.
Proof.
  pose proof (WalletsCache.ok_get k cache cache_ok) as [H _]. unfold from_cache, WalletsCache.bal, WalletsCache.findWallet.
  unfold WalletsCache.getWalletData in *. by destruct (wallets_ cache !! k).
Qed.

Lemma inv_init s :
  storage_ s = ∅ -> trxList_ s = replicate (length l) noInd_ -> length (mask_ s) = length l -> inv 0 s.
Proof.
  intros Es Et Hm. assert (forall k, nd k s = from_cache cache k) as Hn by (intros k; unfold node; rewrite Es, lookup_empty; done).
  split; [done|by rewrite Et, length_replicate|..]; intros k; rewrite Hn; destruct (from_cache_spec k) as [H1 H2].
  - by apply normal_weak.
  - unfold expected. cbn [take accepted]. unfold WalletsCache.transfers. cbn. by rewrite Z.add_0_r.
  - cbn. unfold from_cache. by destruct (WalletsCache.findWallet k cache).
Qed.

Lemma set_index_ok {A} (t : list A) i v : (i < length t)%nat -> set_index t (Z.of_nat i) v = ret (<[i := v]> t).
Proof.
  intros Hi. unfold set_index, index. rewrite Nat2Z.id. destruct (lookup_lt_is_Some_2 t i Hi) as [x ->]. done.
Qed.

Lemma lookup_fst i p : l !! i = Some p -> map fst l !! i = Some p.1.
Proof. intros E. by rewrite list_lookup_fmap, E. Qed.

Lemma index_fst i p : l !! i = Some p -> index (map fst l) (Z.to_nat (Z.of_nat i)) = ret p.1.
Proof. intros E. unfold index. rewrite Nat2Z.id. by rewrite (lookup_fst i p E). Qed.

(** *** One transfer *)

(** The results about contracts stay. *)
Definition quiet (s s' : State) : Prop :=
  rejectedNewStates_ s' = rejectedNewStates_ s /\ validNewStates_ s' = validNewStates_ s.

Lemma quiet_refl s : quiet s s.
Proof. done. Qed.

Lemma quiet_trans s1 s2 s3 : quiet s1 s2 -> quiet s2 s3 -> quiet s1 s3.
Proof. unfold quiet. intros [-> ->] [-> ->]. done. Qed.

(** What an accepted transfer [i] changes; the tail and the list only of the source. *)
Record accept_transfer (i : nat) (p : Transaction * Amount) (s s' : State) : Prop := {
  at_quiet : quiet s s';
  at_mask : mask_ s' = mask_ s;
  at_links : trxList_ s' = <[i := lastTrxInd_ (nd (pk (source_ p.1)) s)]> (trxList_ s);
  at_stack : negativeNodes_ s' =
    if Amount.op_lt (op_sub (op_sub (node_balance_ (nd (pk (source_ p.1)) s)) (amount_ p.1)) p.2) zeroBalance_
    then pk (source_ p.1) :: negativeNodes_ s else negativeNodes_ s;
  at_last k : lastTrxInd_ (nd k s') = if decide (k = pk (source_ p.1)) then u32 (Z.of_nat i) else lastTrxInd_ (nd k s);
  at_tail k : node_tail_ (nd k s') =
    if decide (k = pk (source_ p.1)) then TransactionsTail.push (innerID_ p.1) (node_tail_ (nd k s)) else node_tail_ (nd k s);
  at_balance k : node_balance_ (nd k s') =
    let b := if decide (k = pk (source_ p.1)) then op_sub (op_sub (node_balance_ (nd k s)) (amount_ p.1)) p.2 else node_balance_ (nd k s) in
    if decide (k = pk (target_ p.1)) then op_add b (amount_ p.1) else b
}.

(** Why a transfer is not accepted. *)
Definition refused (p : Transaction * Amount) (s : State) : Prop :=
  TransactionsTail.isAllowed (node_tail_ (nd (pk (source_ p.1)) s)) (innerID_ p.1) = false \/
  Address.op_eq (source_ p.1) (target_ p.1) = true \/
  exists max_fee, fee_amount (max_fee_ p.1) = ret max_fee /\ Amount.op_lt max_fee p.2 = true.

Lemma validate_transfer i p s :
  l !! i = Some p -> length (trxList_ s) = length l ->
  exists r s', validateTransaction ids loadBlock cache known closed (map fst l) (Z.of_nat i) s = ret (r, s') /\
    if decide (r = None_)
    then accept_transfer i p s s' /\ Address.op_eq (source_ p.1) (target_ p.1) = false /\
      TransactionsTail.isAllowed (node_tail_ (nd (pk (source_ p.1)) s)) (innerID_ p.1) = true
    else quiet s s' /\ mask_ s' = mask_ s /\ trxList_ s' = trxList_ s /\ negativeNodes_ s' = negativeNodes_ s /\
      (forall k, nd k s' = nd k s) /\ refused p s.
Proof.
  intros El Hlen. destruct p as [trx fee]. cbn [fst snd].
  assert (transfer_ok trx fee) as [[Px Ps Pa Pf Pn] Ha Hf [mfee Em] _] by exact (Forall_lookup_1 _ _ _ _ l_ok El).
  unfold validateTransaction, validateTransactionAsSource. rewrite (index_fst i (trx, fee) El). cbn [mthen ret fst].
  set (k := pk (source_ trx)). set (s1 := getData cache k s).
  assert (forall k', nd k' s1 = nd k' s) as N1 by (intros; apply node_getData).
  assert (mask_ s1 = mask_ s /\ trxList_ s1 = trxList_ s /\ negativeNodes_ s1 = negativeNodes_ s) as (F1 & F2 & F3) by done.
  rewrite !N1, Ps.
  destruct (TransactionsTail.isAllowed _ _) eqn:Et; cbn [negb].
  2:{ assert (refused (trx, fee) s) as Hr by by left.
      destruct (TransactionsTail.isDuplicated _ _); [by exists DuplicatedInnerID, s1|by exists DisabledInnerID, s1]. }
  unfold validateCommonAsSource. rewrite (index_fst i (trx, fee) El). cbn [mthen ret fst].
  destruct (Address.op_eq (source_ trx) (target_ trx)) eqn:Eq.
  { assert (refused (trx, fee) s) as Hr by by right; left. by exists SourceIsTarget, s1. }
  rewrite Em, Pf. cbn [mthen ret]. destruct (Amount.op_lt mfee fee) eqn:Emax.
  { assert (refused (trx, fee) s) as Hr by (right; right; by exists mfee). by exists InsufficientMaxFee, s1. }
  rewrite Px, !known_none. rewrite N1. cbn [bool_decide decide mthen ret].
  rewrite bool_decide_false by naive_solver. rewrite node_set_balance, decide_True by done. cbn [upd node_balance_].
  set (b := op_sub (op_sub (node_balance_ (nd k s)) (amount_ trx)) fee).
  rewrite andb_true_r, andb_false_r. set (s2 := set_balance cache k b s1).
  set (s3 := if Amount.op_lt b zeroBalance_ then s2 <| negativeNodes_ := k :: negativeNodes_ s2 |> else s2).
  assert (forall k', nd k' s3 = nd k' s2) as N3 by (subst s3; intros; by destruct (Amount.op_lt b zeroBalance_)).
  assert (mask_ s3 = mask_ s /\ trxList_ s3 = trxList_ s /\ negativeNodes_ s3 = if Amount.op_lt b zeroBalance_ then k :: negativeNodes_ s else negativeNodes_ s)
    as (G1 & G2 & G3) by (subst s3; by destruct (Amount.op_lt b zeroBalance_)).
  unfold link_transaction. assert (i < length l)%nat as Hi by by eapply lookup_lt_Some.
  rewrite set_index_ok by (cbn [edit upd trxList_]; rewrite G2; lia). cbn [mthen ret fst].
  eexists None_, _. split; [reflexivity|]. rewrite decide_True by done. split; [|done].
  unfold validateTransactionAsTarget. set (kd := pk (target_ trx)).
  match goal with |- accept_transfer _ _ _ (set_balance _ _ _ (getData _ _ ?x)) => set (s5 := x) end.
  assert (forall k', nd k' s5 = if decide (k' = k) then mkNode (u32 (Z.of_nat i)) b (TransactionsTail.push (innerID_ trx) (node_tail_ (nd k s))) else nd k' s) as N5.
  { intros k'. subst s5. rewrite node_edit. destruct (decide (k' = k)) as [->|Hne].
    - match goal with |- context [nd k (?y <| trxList_ := ?t |>)] => change (nd k (y <| trxList_ := t |>)) with (nd k y) end.
      rewrite node_edit, decide_True, N3 by done. subst s2. rewrite node_set_balance, decide_True, N1 by done. done.
    - match goal with |- context [nd k' (?y <| trxList_ := ?t |>)] => change (nd k' (y <| trxList_ := t |>)) with (nd k' y) end.
      rewrite node_edit, decide_False, N3 by done. subst s2. rewrite node_set_balance, decide_False, N1 by done. done. }
  assert (forall k', nd k' (set_balance cache kd (op_add (node_balance_ (nd kd s5)) (amount_ trx)) (getData cache kd s5))
    = if decide (k' = kd) then nd kd s5 <| node_balance_ := op_add (node_balance_ (nd kd s5)) (amount_ trx) |> else nd k' s5) as N6.
  { intros k'. rewrite node_set_balance, !node_getData. done. }
  assert (quiet s s3) as Q3 by (subst s3; by destruct (Amount.op_lt b zeroBalance_)).
  rewrite node_getData. split; cbn [fst snd]; fold k kd; fold b.
  - destruct Q3. by split.
  - done.
  - subst s5. cbn [edit upd trxList_ set_balance getData]. rewrite G2. f_equal. rewrite node_edit, decide_True, N3 by done.
    subst s2. by rewrite node_set_balance, decide_True, N1 by done.
  - done.
  - intros k'. rewrite N6. destruct (decide (k' = kd)) as [->|]; cbn [upd lastTrxInd_]; rewrite N5; by destruct (decide _).
  - intros k'. rewrite N6. destruct (decide (k' = kd)) as [->|]; cbn [upd node_tail_]; rewrite N5; by destruct (decide _) as [->|].
  - intros k'. rewrite N6. destruct (decide (k' = kd)) as [->|]; cbn [upd node_balance_]; rewrite N5; cbv zeta;
      destruct (decide (_ = k)) as [->|]; done.
Qed.

(** *** The invariant in the first pass *)

Lemma expected_S mask i p k :
  l !! i = Some p -> length mask = length l ->
  expected mask (S i) k = expected mask i k + if decide (mask !! i = Some None_) then eff p.1 p.2 k else 0.
Proof.
  intros El Hm. unfold expected. rewrite (accepted_take_S l mask i p El) by (rewrite Hm; by eapply lookup_lt_Some).
  rewrite sum_app. destruct (decide _); [rewrite sum_cons|]; unfold WalletsCache.transfers; cbn [foldr]; lia.
Qed.

Lemma expected_insert_ge mask i r k : expected (<[i := r]> mask) i k = expected mask i k.
Proof. unfold expected. rewrite accepted_insert_ge; [done|]. rewrite length_take. lia. Qed.

(** A transaction that is not accepted. *)
Lemma inv_skip i s : inv i s -> (i < length l)%nat -> mask_ s !! i <> Some None_ -> inv (S i) s.
Proof.
  intros [H1 H2 H3 H4 H5] Hi Hm. split; try done; intros k.
  - destruct (lookup_lt_is_Some_2 l i Hi) as [p Ep]. rewrite (expected_S _ _ p k Ep H1), decide_False, Z.add_0_r by done. apply H4.
  - rewrite own_S, decide_False by naive_solver. apply H5.
Qed.

Lemma inv_reject i s r : inv i s -> (i < length l)%nat -> r <> None_ -> inv (S i) (s <| mask_ := <[i := r]> (mask_ s) |>).
Proof.
  intros [H1 H2 H3 H4 H5] Hi Hr. apply inv_skip; [|done|].
  - split; cbn [upd mask_ trxList_]; [by rewrite length_insert|done|exact H3|..]; intros k.
    + rewrite expected_insert_ge. apply H4.
    + rewrite own_insert_ge by done. apply H5.
  - cbn [upd mask_]. rewrite list_lookup_insert_eq by lia. congruence.
Qed.

Lemma own_fresh mask k i : i ∉ own mask k i.
Proof. rewrite own_elem. lia. Qed.

Lemma nat_index i : (i < length l)%nat -> u32 (Z.of_nat i) = Z.of_nat i /\ Z.of_nat i <> noInd_.
Proof. intros Hi. unfold noInd_ in *. rewrite uwrap_id by (unfold in_u; lia). lia. Qed.

Lemma source_of_lookup i p : l !! i = Some p -> source_of i = Some (pk (source_ p.1)).
Proof. intros E. unfold source_of. by rewrite E. Qed.

Lemma inv_accept i p s s' :
  inv i s -> l !! i = Some p -> mask_ s !! i = Some None_ -> accept_transfer i p s s' -> inv (S i) s'.
Proof.
  intros [H1 H2 H3 H4 H5] El Hm [_ A1 A2 _ A4 _ A6]. assert (i < length l)%nat as Hi by by eapply lookup_lt_Some.
  destruct (Forall_lookup_1 _ _ _ _ l_ok El) as [[_ _ Pa _ Pn] _ _ _ _]. apply normal_weak in Pa, Pn.
  assert (forall k, weak (node_balance_ (nd k s')) /\ nval k s' ≡ₐ nval k s + eff p.1 p.2 k) as Hb.
  { intros k. rewrite A6. cbv zeta. unfold WalletsCache.transfer, WalletsCache.at_key.
    set (b := if decide (k = pk (source_ p.1)) then _ else _).
    assert (weak b /\ value b ≡ₐ nval k s - if decide (k = pk (source_ p.1)) then value (amount_ p.1) + value p.2 else 0) as [Wb Vb].
    { subst b. destruct (decide _).
      - destruct (op_sub_weak _ _ (H3 k) Pa) as [W1 V1]. destruct (op_sub_weak _ _ W1 Pn) as [W2 V2].
        split; [done|]. rewrite V2, V1. eqm_ring.
      - split; [apply H3|]. rewrite Z.sub_0_r. reflexivity. }
    fold (pk (target_ p.1)) (pk (source_ p.1)).
    change (WalletsCache.toPublicKey ids) with (Validator.pk ids).
    destruct (decide (k = pk (target_ p.1))).
    - destruct (op_add_weak _ _ Wb Pa) as [W V]. split; [done|]. rewrite V, Vb. eqm_ring.
    - split; [done|]. rewrite Vb. eqm_ring. }
  split.
  - by rewrite A1.
  - by rewrite A2, length_insert.
  - intros k. apply Hb.
  - intros k. destruct (Hb k) as [W V]. apply exact_balance; [done|]. rewrite V, H4, A1.
    rewrite (expected_S _ _ p k El H1), decide_True by done. reflexivity.
  - intros k. rewrite A1, A2, A4, own_S, (source_of_lookup i p El). destruct (nat_index i Hi) as [-> Hne].
    destruct (decide (k = pk (source_ p.1))) as [->|Hk].
    + rewrite decide_True by done. cbn [app]. apply chained_push; [apply H5|lia|apply own_fresh|done].
    + rewrite decide_False by naive_solver. cbn [app]. apply chained_insert; [apply own_fresh|apply H5].
Qed.

(** Only the source of an accepted transfer gets poorer. *)
Lemma covered_accept i p s s' :
  inv i s -> inv (S i) s' -> l !! i = Some p -> mask_ s !! i = Some None_ -> accept_transfer i p s s' ->
  covered (fun _ => True) s -> covered (fun _ => True) s'.
Proof.
  intros I I' El Hm A Hc k _ Hk. destruct (Forall_lookup_1 _ _ _ _ l_ok El) as [[_ _ Pa _ Pn] Ha Hf _ _]. apply normal_weak in Pa, Pn.
  rewrite (inv_bal _ _ I'), (at_mask _ _ _ _ A), (expected_S _ _ p k El (inv_mask _ _ I)), decide_True in Hk by done.
  rewrite <- (inv_bal _ _ I) in Hk. rewrite (at_stack _ _ _ _ A).
  unfold WalletsCache.transfer, WalletsCache.at_key in Hk. change (WalletsCache.toPublicKey ids) with (Validator.pk ids) in Hk.
  destruct (decide (k = pk (source_ p.1))) as [->|Hne].
  - set (b := op_sub _ _) in *.
    assert (weak b /\ value b ≡ₐ nval (pk (source_ p.1)) s - value (amount_ p.1) - value p.2) as [Wb Vb].
    { destruct (op_sub_weak _ _ (inv_weak _ _ I (pk (source_ p.1))) Pa) as [W1 V1]. destruct (op_sub_weak _ _ W1 Pn) as [W2 V2].
      split; [done|]. subst b. rewrite V2, V1. reflexivity. }
    unfold zeroBalance_. rewrite (op_lt_zero b Wb). destruct (Z.ltb_spec (integral_ b) 0); [by left|].
    destruct (decide (nval (pk (source_ p.1)) s < 0)); [apply Hc; done|]. exfalso.
    (* no wrap around: the balance before the target's part is the expected one *)
    pose proof (nonneg_value b Wb ltac:(lia)) as Hb0. pose proof (weak_range b Wb). pose proof (weak_range _ (inv_weak _ _ I (pk (source_ p.1)))).
    assert (value (amount_ p.1) + value p.2 < 2 ^ 31 * AMOUNT_MAX_FRACTION) as Hlt.
    { pose proof (rich (pk (source_ p.1))). pose proof (cost_of_lookup l i p l_ok El). lia. }
    pose proof (expected_range (mask_ s) i (pk (source_ p.1))) as Hx. rewrite <- (inv_bal _ _ I) in Hx.
    assert (value b = nval (pk (source_ p.1)) s - value (amount_ p.1) - value p.2) as Eb by (apply eqm_range; [done|lia|done]).
    destruct (decide _); lia.
  - assert (k ∈ negativeNodes_ s) as Hin by (apply Hc; [done|]; destruct (decide _); lia).
    destruct (Amount.op_lt _ _); [by right|done].
Qed.

(** *** The removal of one transaction *)

#[local] Abbreviation n := (length l).

(** The link after the first indices [pre] of a list. *)
Definition link_of (pre : list nat) : link := match last pre with None => Head | Some j => After (Z.of_nat j) end.

Lemma read_link_of k pre post s :
  inv n s -> own (mask_ s) k n = pre ++ post ->
  read_link cache k (link_of pre) s = ret (match post with [] => noInd_ | i :: _ => Z.of_nat i end).
Proof.
  intros I Eo. pose proof (inv_chain _ _ I k) as Hc. rewrite Eo in Hc. apply chained_app in Hc.
  unfold link_of, read_link, index. destruct (last pre) as [j|].
  - destruct Hc as (m & Hm & Hc). rewrite Nat2Z.id, Hm. destruct post as [|i post]; cbn in Hc; [by rewrite Hc|]. by destruct Hc as [-> _].
  - destruct post as [|i post]; cbn in Hc; [by rewrite Hc|]. by destruct Hc as [-> _].
Qed.

Lemma last_in {A} (l0 : list A) x : last l0 = Some x -> x ∈ l0.
Proof. intros [l' ->]%last_Some. apply elem_of_app. right. by left. Qed.

(** Other lists do not run through the members of this one. *)
Lemma own_disjoint mask k k' m i : i ∈ own mask k m -> k' <> k -> i ∉ own mask k' m.
Proof. rewrite !own_elem. intros (_ & _ & E) Hne (_ & _ & E'). congruence. Qed.

Lemma own_member k pre i post s :
  inv n s -> own (mask_ s) k n = pre ++ i :: post ->
  exists p, l !! i = Some p /\ pk (source_ p.1) = k /\ mask_ s !! i = Some None_ /\ (i < n)%nat /\ i ∈ own (mask_ s) k n.
Proof.
  intros I Eo. assert (i ∈ own (mask_ s) k n) as Hin by (rewrite Eo; apply elem_of_app; right; by left).
  pose proof Hin as (Hi & Hm & Hs)%own_elem. destruct (lookup_lt_is_Some_2 l i Hi) as [p Ep]. exists p.
  rewrite (source_of_lookup i p Ep) in Hs. split_and!; (done || congruence).
Qed.

Lemma expected_reject mask i p k :
  length mask = n -> mask !! i = Some None_ -> l !! i = Some p ->
  expected (<[i := NegativeResult]> mask) n k = expected mask n k - eff p.1 p.2 k.
Proof.
  intros Hl Hm Ep. unfold expected. rewrite !take_ge by lia. rewrite (accepted_reject l mask i p) by done. lia.
Qed.

Lemma remove_transaction_spec k pre i post p s :
  inv n s -> own (mask_ s) k n = pre ++ i :: post -> l !! i = Some p ->
  exists s', remove_transaction ids cache known k (link_of pre) (Z.of_nat i) p.1 s = ret s' /\
    inv n s' /\ own (mask_ s') k n = pre ++ post /\ mask_ s' = <[i := NegativeResult]> (mask_ s) /\
    negativeNodes_ s' = negativeNodes_ s.
Proof.
  intros I Eo Ep. destruct (own_member k pre i post s I Eo) as (p' & Ep' & Ek & Hm & Hi & Hin). rewrite Ep in Ep'. injection Ep' as <-.
  destruct (Forall_lookup_1 _ _ _ _ l_ok Ep) as [[_ _ Pa Pf Pn] _ _ _ _]. apply normal_weak in Pa, Pn.
  destruct I as [I1 I2 I3 I4 I5]. unfold remove_transaction, fee_of. rewrite known_none.
  rewrite (set_index_ok (mask_ s)) by lia. cbn [mthen ret]. rewrite Pf. cbn [mthen ret].
  set (s1 := s <| mask_ := <[i := NegativeResult]> (mask_ s) |>). change (nd k s1) with (nd k s).
  set (b := op_add (op_add (node_balance_ (nd k s)) (amount_ p.1)) p.2). set (s2 := set_balance cache k b s1).
  set (kd := pk (target_ p.1)). set (s3 := set_balance cache kd (op_sub (node_balance_ (nd kd s2)) (amount_ p.1)) s2).
  assert (weak b /\ value b ≡ₐ nval k s + value (amount_ p.1) + value p.2) as [Wb Vb].
  { destruct (op_add_weak _ _ (I3 k) Pa) as [W1 V1]. destruct (op_add_weak _ _ W1 Pn) as [W2 V2]. split; [done|]. subst b. by rewrite V2, V1. }
  assert (forall k', lastTrxInd_ (nd k' s3) = lastTrxInd_ (nd k' s)) as L3.
  { intros k'. subst s3 s2. rewrite node_set_balance. destruct (decide (k' = kd)) as [->|]; cbn [upd lastTrxInd_];
      rewrite node_set_balance; by destruct (decide _) as [->|]. }
  assert (forall k', weak (node_balance_ (nd k' s3)) /\ nval k' s3 ≡ₐ nval k' s - eff p.1 p.2 k') as B3.
  { assert (forall k', weak (node_balance_ (nd k' s2)) /\ nval k' s2 ≡ₐ nval k' s + if decide (k' = k) then value (amount_ p.1) + value p.2 else 0) as B2.
    { intros k'. subst s2. rewrite node_set_balance. destruct (decide (k' = k)) as [->|]; cbn [upd node_balance_].
      - split; [done|]. rewrite Vb. eqm_ring.
      - split; [apply I3|]. change (nd k' s1) with (nd k' s). rewrite Z.add_0_r. reflexivity. }
    intros k'. unfold WalletsCache.transfer, WalletsCache.at_key. change (WalletsCache.toPublicKey ids) with (Validator.pk ids).
    rewrite Ek. fold kd. subst s3. rewrite node_set_balance. destruct (B2 k') as [W2 V2]. destruct (decide (k' = kd)) as [->|]; cbn [upd node_balance_].
    - destruct (op_sub_weak _ _ W2 Pa) as [W V]. split; [done|]. rewrite V, V2. eqm_ring.
    - split; [done|]. rewrite V2. eqm_ring. }
  pose proof (I5 k) as Hc. rewrite Eo in Hc.
  assert (exists m, trxList_ s !! i = Some m) as [m Hmi] by (apply lookup_lt_is_Some_2; lia).
  pose proof (chained_remove noInd_ _ _ pre i post m ltac:(rewrite <- Eo; apply own_nodup) Hc Hmi) as Hr.
  change (trxList_ s3) with (trxList_ s). unfold index at 1. rewrite Nat2Z.id, Hmi. cbn [mthen ret].
  assert (forall s4, mask_ s4 = <[i := NegativeResult]> (mask_ s) -> length (trxList_ s4) = n ->
    (forall k', node_balance_ (nd k' s4) = node_balance_ (nd k' s3)) ->
    (forall k', chained noInd_ (trxList_ s4) (lastTrxInd_ (nd k' s4)) (own (mask_ s4) k' n)) -> inv n s4) as Hinv.
  { intros s4 E1 E2 E3 E4. split; [by rewrite E1, length_insert|done|..|done]; intros k'; rewrite E3.
    - apply B3.
    - destruct (B3 k') as [W V]. apply exact_balance; [done|]. rewrite E1, (expected_reject _ _ p), <- I4 by done. exact V. }
  assert (forall k', k' <> k -> own (<[i := NegativeResult]> (mask_ s)) k' n = own (mask_ s) k' n) as Hother.
  { intros k' Hne. rewrite own_reject by done. apply filter_all, Forall_forall. intros j Hj ->. by apply (own_disjoint _ k k' n i Hin Hne). }
  assert (own (<[i := NegativeResult]> (mask_ s)) k n = pre ++ post) as Hown.
  { rewrite own_reject, Eo by done. apply filter_out. rewrite <- Eo. apply own_nodup. }
  unfold link_of. destruct (last pre) as [j|] eqn:El; cbn [write_link].
  - assert (j ∈ own (mask_ s) k n) as Hj by (rewrite Eo; apply elem_of_app; left; by apply last_in).
    assert (j < n)%nat as Hjn by by (apply own_elem in Hj as (? & _)).
     rewrite set_index_ok by (change (trxList_ s3) with (trxList_ s); lia). cbn [mthen ret upd trxList_].
    change (trxList_ s3) with (trxList_ s). rewrite set_index_ok by (rewrite length_insert; lia). cbn [mthen ret].
    eexists. split; [reflexivity|]. split; [|split_and!; [exact Hown|reflexivity|reflexivity]]. apply Hinv; [done|cbn [upd trxList_]; by rewrite !length_insert|done|].
    intros k'. cbn [upd trxList_ mask_]. change (lastTrxInd_ (nd k' _)) with (lastTrxInd_ (nd k' s3)). rewrite L3.
    change (mask_ s3) with (<[i := NegativeResult]> (mask_ s)). destruct (decide (k' = k)) as [->|Hne]; [by rewrite Hown|].
    rewrite Hother by done. apply chained_insert; [by apply (own_disjoint _ k)|]. apply chained_insert; [by apply (own_disjoint _ k)|]. apply I5.
  - destruct Hr as [Eh Hr]. cbn [mthen ret]. change (trxList_ (edit _ _ _ s3)) with (trxList_ s). rewrite set_index_ok by lia. cbn [mthen ret].
    eexists. split; [reflexivity|]. split; [|split_and!; [exact Hown|reflexivity|reflexivity]]. apply Hinv; [done|cbn [upd trxList_]; by rewrite !length_insert|..].
    + intros k'. match goal with |- node_balance_ (nd k' (?x <| trxList_ := ?t |> <| cntRemovedTrxs_ := ?c |>)) = _ =>
        change (node_balance_ (nd k' x) = node_balance_ (nd k' s3)) end. rewrite node_edit. by destruct (decide _) as [->|].
    + intros k'. match goal with |- context [nd k' (?x <| trxList_ := ?t |> <| cntRemovedTrxs_ := ?c |>)] =>
        change (nd k' (x <| trxList_ := t |> <| cntRemovedTrxs_ := c |>)) with (nd k' x) end.
      cbn [upd trxList_ mask_]. change (mask_ (edit _ _ _ s3)) with (<[i := NegativeResult]> (mask_ s)). rewrite node_edit.
      destruct (decide (k' = k)) as [->|Hne]; cbn [upd lastTrxInd_].
      * rewrite Hown. apply last_None in El as ->. exact Hr.
      * rewrite L3, Hother by done. apply chained_insert; [by apply (own_disjoint _ k)|]. apply I5.
Qed.

(** *** The loops of the removal *)

Definition accepted_count (mask : list Reason) : nat := length (filter (fun r => r = None_) mask).

(** Every removal accepts one transaction less and puts at most one wallet on the stack. *)
Definition potential (s : State) : nat := (length (negativeNodes_ s) + accepted_count (mask_ s))%nat.

Lemma accepted_count_reject mask i r :
  mask !! i = Some None_ -> r <> None_ -> accepted_count mask = S (accepted_count (<[i := r]> mask)).
Proof.
  intros Hm Hr. unfold accepted_count. rewrite (length_filter_middle _ mask i None_ Hm), decide_True by done.
  assert (i < length mask)%nat by by eapply lookup_lt_Some.
  rewrite (length_filter_middle _ (<[i := r]> mask) i r), decide_False by (done || by apply list_lookup_insert_eq).
  rewrite take_insert_ge, drop_insert_lt by lia. lia.
Qed.

Lemma below_zero s k : inv n s -> nval k s < 0 -> op_ge (node_balance_ (nd k s)) zeroBalance_ = false.
Proof.
  intros I Hk. unfold op_ge, zeroBalance_. rewrite (op_lt_zero _ (inv_weak _ _ I k)).
  destruct (Z.ltb_spec (integral_ (node_balance_ (nd k s))) 0); [done|]. pose proof (nonneg_value _ (inv_weak _ _ I k) H). lia.
Qed.

(** After a removal the wallets other than the source and the target are as they were. *)
Lemma removed_balance s s' i p k :
  inv n s -> inv n s' -> mask_ s !! i = Some None_ -> l !! i = Some p -> mask_ s' = <[i := NegativeResult]> (mask_ s) ->
  nval k s' = nval k s - eff p.1 p.2 k.
Proof.
  intros I I' Hm Ep Em. rewrite (inv_bal _ _ I), (inv_bal _ _ I'), Em. apply expected_reject; [apply I|done|done].
Qed.

Lemma eff_spec i p k :
  l !! i = Some p -> eff p.1 p.2 k = (if decide (k = pk (target_ p.1)) then value (amount_ p.1) else 0)
    - (if decide (k = pk (source_ p.1)) then value (amount_ p.1) + value p.2 else 0).
Proof. done. Qed.

(** The cost that is compared with what is missing. *)
Lemma cost_spec i p :
  l !! i = Some p ->
  exists cost, trx_cost known p.1 = ret cost /\ normal cost /\ value cost = value (amount_ p.1) + value p.2.
Proof.
  intros Ep. destruct (Forall_lookup_1 _ _ _ _ l_ok Ep) as [[_ _ Pa Pf Pn] Ha Hf _ Ex]. unfold trx_cost, fee_of.
  rewrite Ex, known_none. cbn [mthen ret]. rewrite Pf. cbn [mthen ret]. eexists. split; [reflexivity|].
  destruct (add_assign_mod _ _ Pa (normal_weak _ Pn)) as [N V]. split; [done|].
  apply eqm_range; [apply weak_range, normal_weak, N| |done].
  pose proof (cost_of_lookup l i p l_ok Ep). pose proof (rich []). unfold AMOUNT_MAX_FRACTION in *. lia.
Qed.

(** Enough is paid back. *)
Lemma cheap_spec s k i p cost :
  inv n s -> l !! i = Some p -> trx_cost known p.1 = ret cost -> pk (target_ p.1) <> k -> pk (source_ p.1) = k ->
  Amount.op_lt cost (op_neg (node_balance_ (nd k s))) = false -> 0 <= nval k s - eff p.1 p.2 k.
Proof.
  intros I Ep Ec Hd Hk Hlt. destruct (cost_spec i p Ep) as (cost' & Ec' & Nc & Vc). rewrite Ec in Ec'. injection Ec' as <-.
  destruct (op_neg_weak _ (inv_weak _ _ I k)) as [Nn Vn]. rewrite (op_lt_spec _ _ Nc Nn), Z.ltb_ge in Hlt.
  rewrite (eff_spec i p k Ep), decide_False, decide_True by done.
  assert (value (op_neg (node_balance_ (nd k s))) = - nval k s) as Ev; [|lia].
  apply eqm_range; [apply weak_range, normal_weak, Nn| |done]. pose proof (expected_range (mask_ s) n k) as Hx.
  rewrite <- (inv_bal _ _ I) in Hx. lia.
Qed.

(** Some accepted transactions are rejected. *)
Definition pruned (mask mask' : list Reason) : Prop :=
  forall i, mask' !! i = mask !! i \/ mask !! i = Some None_ /\ mask' !! i = Some NegativeResult.

Lemma pruned_refl mask : pruned mask mask.
Proof. by left. Qed.

Lemma pruned_trans m1 m2 m3 : pruned m1 m2 -> pruned m2 m3 -> pruned m1 m3.
Proof. intros H1 H2 i. destruct (H1 i) as [E1|[E1 E1']], (H2 i) as [E2|[E2 E2']]; (left; congruence) || (right; split; congruence). Qed.

Lemma pruned_reject mask i : mask !! i = Some None_ -> pruned mask (<[i := NegativeResult]> mask).
Proof.
  intros Hm j. destruct (decide (j = i)) as [->|Hne]; [right|left; by rewrite list_lookup_insert_ne].
  by rewrite list_lookup_insert_eq by by eapply lookup_lt_Some.
Qed.

#[local] Hint Resolve pruned_refl pruned_trans pruned_reject : core.

(** What a call of one of the loops leaves. *)
Record removed (one positive : bool) (k : bytes) (pre : list nat) (b : bool) (s s' : State) : Prop := {
  rm_inv : inv n s';
  rm_covered : covered (fun k' => k' <> k) s';
  rm_mask : pruned (mask_ s) (mask_ s');
  rm_potential : (potential s' <= potential s)%nat;
  rm_done : b = true -> nval k s' < 0 -> k ∈ negativeNodes_ s';
  rm_all : b = false -> one = false -> positive = false -> own (mask_ s') k n = pre
}.

Lemma removed_same one positive k pre pre' b s s1 s' :
  potential s1 = potential s -> mask_ s1 = mask_ s -> (one = false -> positive = false -> pre' = pre) ->
  removed one positive k pre' b s1 s' -> removed one positive k pre b s s'.
Proof.
  intros Ep Em Eq [H1 H2 H3 H4 H5 H6]. split; try done; [by rewrite <- Em|lia|]. intros Hb Ho Hp. by rewrite <- Eq, H6.
Qed.

Lemma link_of_snoc pre i : link_of (pre ++ [i]) = After (Z.of_nat i).
Proof. unfold link_of. by rewrite last_snoc. Qed.

(** The removal itself, and the push of a target that cannot pay. *)
Lemma removal_step positive k pre i post p s :
  inv n s -> covered (fun k' => k' <> k) s -> own (mask_ s) k n = pre ++ i :: post -> l !! i = Some p ->
  let kd := pk (target_ p.1) in
  positive && negb (op_le (amount_ p.1) (node_balance_ (nd kd s))) = false ->
  exists s2, remove_transaction ids cache known k (link_of pre) (Z.of_nat i) p.1 s = ret s2 /\
    let s3 := if negb positive && Amount.op_lt (node_balance_ (nd kd s2)) zeroBalance_
              then s2 <| negativeNodes_ := kd :: negativeNodes_ s2 |> else s2 in
    inv n s3 /\ covered (fun k' => k' <> k) s3 /\ pruned (mask_ s) (mask_ s3) /\ (potential s3 <= potential s)%nat /\ own (mask_ s3) k n = pre ++ post /\
    (forall k', nval k' s3 = nval k' s - eff p.1 p.2 k') /\
    (positive = false -> nval kd s3 < 0 -> kd ∈ negativeNodes_ s3).
Proof.
  intros I Hc Eo Ep kd Hpos. destruct (own_member k pre i post s I Eo) as (p' & Ep' & Ek & Hm & Hi & Hin).
  rewrite Ep in Ep'. injection Ep' as <-.
  destruct (remove_transaction_spec k pre i post p s I Eo Ep) as (s2 & E2 & I2 & Eo2 & Em2 & En2). exists s2. split; [done|].
  intros s3. assert (forall k', nd k' s3 = nd k' s2) as N3 by (subst s3; by destruct (negb positive && _)).
  assert (mask_ s3 = mask_ s2 /\ trxList_ s3 = trxList_ s2) as [M3 T3] by (subst s3; by destruct (negb positive && _)).
  assert (forall x, x ∈ negativeNodes_ s -> x ∈ negativeNodes_ s3) as Hsub.
  { intros x Hx. rewrite <- En2 in Hx. subst s3. destruct (negb positive && _); [by right|done]. }
  assert (inv n s3) as I3 by by apply (inv_same n s2).
  assert (forall k', nval k' s3 = nval k' s - eff p.1 p.2 k') as V3.
  { intros k'. rewrite N3. by apply (removed_balance s s2 i). }
  assert (positive = false -> nval kd s3 < 0 -> kd ∈ negativeNodes_ s3) as Hpush.
  { intros -> Hneg. rewrite N3 in Hneg. pose proof (below_zero s2 kd I2 Hneg) as Hz. unfold op_ge in Hz. apply negb_false_iff in Hz.
    subst s3. cbn [negb andb]. rewrite Hz. by left. }
  split_and!; [done| |rewrite M3, Em2; auto| |by rewrite M3|done|done].
  - intros k' Hk' Hneg. rewrite V3, (eff_spec i p k' Ep), Ek, (decide_False (P := k' = k)) in Hneg by done.
    destruct (decide (k' = pk (target_ p.1))) as [->|]; [|apply Hsub, Hc; [done|lia]].
    destruct positive; cbn [andb] in Hpos.
    + apply negb_false_iff in Hpos. exfalso. destruct (Forall_lookup_1 _ _ _ _ l_ok Ep) as [[_ _ Pa _ _] _ _ _ _].
      pose proof (op_le_value _ _ Pa (inv_weak _ _ I kd) Hpos). fold kd in Hneg. lia.
    + apply Hpush; [done|]. fold kd. rewrite V3, (eff_spec i p kd Ep), Ek. fold kd. rewrite decide_True, decide_False by done. fold kd in Hneg. lia.
  - unfold potential. rewrite M3, Em2. pose proof (accepted_count_reject _ _ NegativeResult Hm ltac:(done)).
    subst s3. destruct (negb positive && _); cbn [upd negativeNodes_ length]; rewrite En2; lia.
Qed.
Lemma inv_getData k s : inv n s -> inv n (getData cache k s).
Proof. intros I. apply (inv_same n s); [done..|]. intros. apply node_getData. Qed.

Lemma covered_getData P k s : covered P s -> covered P (getData cache k s).
Proof. intros Hc k' Hk' Hn. rewrite node_getData in Hn. by apply Hc. Qed.

(** A wallet below zero cannot pay anything back. *)
Lemma cannot_pay s k p i :
  inv n s -> l !! i = Some p -> integral_ (node_balance_ (nd k s)) < 0 -> op_le (amount_ p.1) (node_balance_ (nd k s)) = false.
Proof.
  intros I Ep Hk. destruct (Forall_lookup_1 _ _ _ _ l_ok Ep) as [[_ _ Pa _ _] Ha _ _ _].
  assert (0 <= integral_ (amount_ p.1)) by (destruct Pa; unfold value in Ha; destruct (amount_ p.1); cbn in *; unfold AMOUNT_MAX_FRACTION in *; lia).
  unfold op_le, Amount.op_gt. rewrite Z.gtb_ltb, (proj2 (Z.ltb_lt _ _)) by lia. done.
Qed.

Lemma remove_list_spec one positive k abs fuel pre post s :
  (length post < fuel)%nat -> inv n s -> covered (fun k' => k' <> k) s -> own (mask_ s) k n = pre ++ post ->
  integral_ (node_balance_ (nd k s)) < 0 -> (one = true -> abs = op_neg (node_balance_ (nd k s))) ->
  exists b s', remove_loop ids cache known one positive (map fst l) k abs fuel (link_of pre) s = ret (b, s') /\
    removed one positive k pre b s s'.
Proof.
  revert pre post s. induction fuel as [|fuel IH]; intros pre post s Hf I Hc Eo Hneg Habs; [lia|]. cbn [remove_loop].
  rewrite (read_link_of k pre post s I Eo). cbn [mthen ret]. destruct post as [|i post].
  { rewrite Z.eqb_refl. exists false, s. split; [done|]. split; try done. intros _ _ _. by rewrite Eo, app_nil_r. }
  destruct (own_member k pre i post s I Eo) as (p & Ep & Ek & Hm & Hi & Hin).
  destruct (nat_index i Hi) as [_ Hno]. rewrite (proj2 (Z.eqb_neq _ _) Hno), (index_fst i p Ep). cbn [mthen ret].
  assert (own (mask_ s) k n = (pre ++ [i]) ++ post) as Eo' by (by rewrite Eo, <- app_assoc).
  destruct (cost_spec i p Ep) as (cost & Ec & _ & _).
  set (cheap := if one then Amount.op_lt cost abs else false).
  replace (if one then _ else ret false) with (ret cheap) by (subst cheap; destruct one; [rewrite Ec|]; done). cbn [mthen ret].
  cbn [length] in Hf. destruct cheap eqn:Ech; subst cheap.
  { destruct one; [|done]. rewrite <- (link_of_snoc pre i). destruct (IH (pre ++ [i]) post s) as (b & s' & E & R); [lia|done..|].
    exists b, s'. split; [done|]. by apply (removed_same true positive k pre (pre ++ [i]) b s s). }
  set (kd := pk (target_ p.1)). set (s1 := getData cache kd s).
  assert (forall k', nd k' s1 = nd k' s) as N1 by (intros; apply node_getData).
  pose proof (inv_getData kd s I) as I1. pose proof (covered_getData _ kd s Hc) as Hc1. fold s1 in I1, Hc1.
  destruct (positive && _) eqn:Epos.
  { apply andb_true_iff in Epos as [-> _]. rewrite <- (link_of_snoc pre i).
    destruct (IH (pre ++ [i]) post s1) as (b & s' & E & R); [lia|done|done|done|by rewrite N1|intros; rewrite N1; auto|].
    exists b, s'. split; [done|]. by apply (removed_same one true k pre (pre ++ [i]) b s s1). }
  destruct (removal_step positive k pre i post p s1 I1 Hc1 Eo Ep Epos) as (s2 & E2 & I3 & Hc3 & M3 & P3 & Eo3 & V3 & Hpush).
  rewrite E2. cbn [mthen ret]. fold kd in I3, Hc3, M3, P3, Eo3, V3, Hpush |- *.
  set (s3 := if negb positive && Amount.op_lt (node_balance_ (nd kd s2)) zeroBalance_ then _ else s2) in *.
  destruct one.
  - exists true, s3. split; [done|]. split; try done. intros _ Hk. destruct (decide (kd = k)) as [Ekd|Hne].
    + rewrite <- Ekd. destruct positive; [|apply Hpush; [done|by rewrite Ekd]]. cbn [andb] in Epos. exfalso.
      rewrite Ekd, (cannot_pay s1 k p i I1 Ep) in Epos by (by rewrite N1). done.
    + exfalso. rewrite V3 in Hk. rewrite (Habs eq_refl), <- (N1 k) in Ech.
      pose proof (cheap_spec s1 k i p cost I1 Ep Ec Hne Ek Ech). lia.
  - destruct (op_ge (node_balance_ (nd k s3)) zeroBalance_) eqn:Ege.
    + exists true, s3. split; [done|]. split; try done. intros _ Hk. by rewrite (below_zero s3 k I3 Hk) in Ege.
    + unfold op_ge, zeroBalance_ in Ege. rewrite (op_lt_zero _ (inv_weak _ _ I3 k)) in Ege.
      destruct (IH pre post s3) as (b & s' & E & [R1 R2 R3 R4 R5 R6]); [lia|done|done|done|lia|done|].
      exists b, s'. split; [done|]. split; try done; [by eapply pruned_trans|]. change (potential s1) with (potential s) in P3. lia.
Qed.
Lemma remove_from_spec one positive k s :
  inv n s -> covered (fun k' => k' <> k) s ->
  exists b s', remove_from ids cache known one positive (map fst l) k s = ret (b, s') /\ removed one positive k [] b s s'.
Proof.
  intros I Hc. unfold remove_from. destruct (op_ge _ _) eqn:Ege.
  - exists true, s. split; [done|]. split; try done. intros _ Hk. by rewrite (below_zero s k I Hk) in Ege.
  - unfold op_ge, zeroBalance_ in Ege. rewrite (op_lt_zero _ (inv_weak _ _ I k)) in Ege.
    destruct (remove_list_spec one positive k (op_neg (node_balance_ (nd k s))) (S (length (trxList_ s))) [] (own (mask_ s) k n) s)
      as (b & s' & E & R); [|done|done|done|lia|done|by exists b, s'].
    rewrite (inv_links _ _ I). unfold own. pose proof (length_filter (fun i => mask_ s !! i = Some None_ /\ source_of i = Some k) (rev (seq 0 n))).
    rewrite length_rev, length_seq in H. lia.
Qed.

(** A wallet without accepted transactions of its own only receives. *)
Lemma accepted_in l0 mask p : p ∈ accepted l0 mask -> exists i, l0 !! i = Some p /\ mask !! i = Some None_.
Proof.
  revert mask. induction l0 as [|q l0 IH]; intros [|r mask] Hin; cbn in Hin; try by apply not_elem_of_nil in Hin.
  destruct (decide (r = None_)) as [->|].
  - apply elem_of_cons in Hin as [->|Hin]; [by exists 0%nat|]. destruct (IH mask Hin) as (i & E). by exists (S i).
  - destruct (IH mask Hin) as (i & E). by exists (S i).
Qed.

Lemma sum_receives l0 k : Forall (fun p => transfer_ok p.1 p.2 /\ pk (source_ p.1) <> k) l0 -> 0 <= sum l0 k.
Proof.
  induction 1 as [|p l0 [Hp Hk] _ IH]; [done|]. rewrite sum_cons. pose proof (ok_amount _ _ Hp).
  unfold WalletsCache.transfer, WalletsCache.at_key. change (WalletsCache.toPublicKey ids) with (Validator.pk ids).
  rewrite (decide_False (P := k = pk (source_ p.1))) by done. destruct (decide _); lia.
Qed.

Lemma own_nil_expected mask k : own mask k n = [] -> 0 <= expected mask n k.
Proof.
  intros Eo. unfold expected. rewrite take_ge by lia. destruct (rich k) as [Hb _].
  enough (0 <= sum (accepted l mask) k) by lia. apply sum_receives, Forall_forall. intros p (i & Ep & Hm)%accepted_in.
  split; [by apply (Forall_lookup_1 _ _ _ _ l_ok Ep)|]. intros Hk. assert (i ∈ own mask k n) as Hin; [|rewrite Eo in Hin; by apply not_elem_of_nil in Hin].
  apply own_elem. split_and!; [by eapply lookup_lt_Some|done|]. rewrite (source_of_lookup i p Ep). congruence.
Qed.

Lemma covered_all k s : covered (fun k' => k' <> k) s -> (nval k s < 0 -> k ∈ negativeNodes_ s) -> covered (fun _ => True) s.
Proof. intros Hc Hk k' _ Hn. destruct (decide (k' = k)) as [->|]; auto. Qed.

Lemma removeTransactions_spec k s :
  inv n s -> covered (fun k' => k' <> k) s ->
  exists s', removeTransactions ids cache known (map fst l) k s = ret s' /\
    inv n s' /\ covered (fun _ => True) s' /\ pruned (mask_ s) (mask_ s') /\ (potential s' <= potential s)%nat.
Proof.
  intros I Hc. unfold removeTransactions, removeTransactions_PositiveOne, removeTransactions_PositiveAll, removeTransactions_NegativeOne,
    removeTransactions_NegativeAll.
  destruct (remove_from_spec true true k s I Hc) as (b1 & s1 & E1 & R1).
  destruct (remove_from_spec false true k s1 (rm_inv _ _ _ _ _ _ _ R1) (rm_covered _ _ _ _ _ _ _ R1)) as (b2 & s2 & E2 & R2).
  destruct (remove_from_spec true false k s2 (rm_inv _ _ _ _ _ _ _ R2) (rm_covered _ _ _ _ _ _ _ R2)) as (b3 & s3 & E3 & R3).
  destruct (remove_from_spec false false k s3 (rm_inv _ _ _ _ _ _ _ R3) (rm_covered _ _ _ _ _ _ _ R3)) as (b4 & s4 & E4 & R4).
  destruct R1 as [I1 C1 M1 P1 D1 _], R2 as [I2 C2 M2 P2 D2 _], R3 as [I3 C3 M3 P3 D3 _], R4 as [I4 C4 M4 P4 D4 A4].
  rewrite E1. cbn [mthen ret]. destruct b1; [exists s1; split_and!; eauto; by apply (covered_all k); auto|].
  rewrite E2. cbn [mthen ret]. destruct b2; [exists s2; split_and!; eauto; [by apply (covered_all k); auto|lia]|].
  rewrite E3. cbn [mthen ret]. destruct b3; [exists s3; split_and!; eauto; [by apply (covered_all k); auto|lia]|].
  rewrite E4. cbn [mthen ret]. exists s4. split_and!; eauto; [|lia]. apply (covered_all k); [done|]. intros Hk.
  destruct b4; [by apply D4|]. rewrite (inv_bal _ _ I4) in Hk. pose proof (own_nil_expected (mask_ s4) k (A4 eq_refl eq_refl eq_refl)). lia.
Qed.

(** The stack becomes empty, and then no wallet is below zero. *)
Lemma validateByGraph_spec fuel s :
  (potential s <= fuel)%nat -> inv n s -> covered (fun _ => True) s ->
  exists s', validateByGraph ids cache known fuel (map fst l) s = ret s' /\
    inv n s' /\ pruned (mask_ s) (mask_ s') /\ forall k, 0 <= nval k s'.
Proof.
  revert s. induction fuel as [|fuel IH]; intros s Hf I Hc; destruct (negativeNodes_ s) as [|k stack] eqn:En; cbn [validateByGraph]; rewrite En.
  1, 3: exists s; split_and!; auto; intros k; destruct (Z.lt_ge_cases (nval k s) 0) as [Hk|]; [|lia];
    apply Hc in Hk; [rewrite En in Hk; by apply not_elem_of_nil in Hk|done].
  { unfold potential in Hf. rewrite En in Hf. cbn in Hf. lia. }
  set (s1 := s <| negativeNodes_ := stack |>). assert (inv n s1) as I1 by by apply (inv_same n s).
  assert (S (potential s1) = potential s) as P1 by (unfold potential; by rewrite En).
  assert (covered (fun k' => k' <> k) s1) as C1.
  { intros k' Hk' Hn. apply Hc in Hn; [|done]. rewrite En in Hn. by apply elem_of_cons in Hn as [->|]. }
  destruct (op_ge _ _) eqn:Ege.
  - apply (IH s1); [lia|done|]. apply (covered_all k); [done|]. intros Hk. by rewrite (below_zero s1 k I1 Hk) in Ege.
  - destruct (removeTransactions_spec k s1 I1 C1) as (s2 & E2 & I2 & C2 & M2 & P2). rewrite E2. cbn [mthen ret].
    destruct (IH s2 ltac:(lia) I2 C2) as (s' & E & I' & M' & H'). exists s'. split_and!; eauto.
Qed.
(** *** The removals do not touch the results about contracts *)

Lemma remove_transaction_quiet k lk i trx s s' : remove_transaction ids cache known k lk i trx s = ret s' -> quiet s s'.
Proof.
  unfold remove_transaction. intros (mask & _ & H)%mthen_ok. apply mthen_ok in H as (fee & _ & H).
  apply mthen_ok in H as (next & _ & H). apply mthen_ok in H as (s2 & H2 & H). apply mthen_ok in H as (t & _ & [= <-]).
  destruct lk as [|j]; cbn [write_link] in H2.
  - by injection H2 as <-.
  - by apply mthen_ok in H2 as (t2 & _ & [= <-]).
Qed.

Lemma remove_loop_quiet one positive trxs k abs fuel lk s b s' :
  remove_loop ids cache known one positive trxs k abs fuel lk s = ret (b, s') -> quiet s s'.
Proof.
  revert lk s. induction fuel as [|fuel IH]; intros lk s; cbn [remove_loop]; [done|].
  intros (i & _ & H)%mthen_ok. destruct (i =? noInd_); [by injection H as _ <-|].
  apply mthen_ok in H as (trx & _ & H). apply mthen_ok in H as (cheap & _ & H). destruct cheap; [by apply IH in H|].
  destruct (positive && _); [by apply IH in H|]. apply mthen_ok in H as (s2 & H2%remove_transaction_quiet & H).
  set (s3 := if negb positive && _ then _ else s2) in H. assert (quiet s s3) as Q3.
  { eapply quiet_trans; [exact H2|]. subst s3. by destruct (negb positive && _). }
  destruct one; [by injection H as _ <-|]. destruct (op_ge _ _); [by injection H as _ <-|].
  eapply quiet_trans; [exact Q3|]. by apply IH in H.
Qed.

Lemma remove_from_quiet one positive trxs k s b s' : remove_from ids cache known one positive trxs k s = ret (b, s') -> quiet s s'.
Proof. unfold remove_from. destruct (op_ge _ _); [by intros [= _ <-]|]. apply remove_loop_quiet. Qed.

Lemma removeTransactions_quiet trxs k s s' : removeTransactions ids cache known trxs k s = ret s' -> quiet s s'.
Proof.
  unfold removeTransactions. intros ([[] s1] & H1%remove_from_quiet & H)%mthen_ok; [by injection H as <-|].
  apply mthen_ok in H as ([[] s2] & H2%remove_from_quiet & H); [injection H as <-; eauto using quiet_trans|].
  apply mthen_ok in H as ([[] s3] & H3%remove_from_quiet & H); [injection H as <-; eauto using quiet_trans|].
  apply mthen_ok in H as ([b s4] & H4%remove_from_quiet & [= <-]). eauto using quiet_trans.
Qed.

Lemma validateByGraph_quiet fuel trxs s s' : validateByGraph ids cache known fuel trxs s = ret s' -> quiet s s'.
Proof.
  revert s. induction fuel as [|fuel IH]; intros s; cbn [validateByGraph]; destruct (negativeNodes_ s) as [|k stack]; [by intros [= <-]|done|by intros [= <-]|].
  destruct (op_ge _ _); [by intros H%IH|]. intros (s2 & H2%removeTransactions_quiet & H%IH)%mthen_ok. by eapply quiet_trans.
Qed.
End transfers.

(** The sum of a debt and the amount that settles it is a zero that counts as negative. *)

(** A debt below one to which operator+ adds what settles it is worth zero and compares as
    negative, so the wallet counts as below zero. *)
Theorem settled_debt_looks_negative f :
  0 < f < AMOUNT_MAX_FRACTION ->
  let balance := op_add (mkAmount (-1) f) (mkAmount 0 (AMOUNT_MAX_FRACTION - f)) in
  value balance = 0 /\ op_ge balance zeroBalance_ = false.
Proof.
  intros Hf. cbv zeta.
  assert (op_add (mkAmount (-1) f) (mkAmount 0 (AMOUNT_MAX_FRACTION - f)) = mkAmount (-1) AMOUNT_MAX_FRACTION) as ->; [|by vm_compute].
  unfold op_add. cbn [integral_ fraction_]. rewrite Zplus_minus. by vm_compute.
Qed.
End Validator.

(** ** Witnesses *)

Lemma settled_debt_looks_negative_witness :
  let balance := op_add (mkAmount (-1) (5 * 10 ^ 17)) (mkAmount 0 (AMOUNT_MAX_FRACTION - 5 * 10 ^ 17)) in
  value balance = 0 /\ op_ge balance Validator.zeroBalance_ = false.
Proof. apply (Validator.settled_debt_looks_negative (5 * 10 ^ 17)). unfold AMOUNT_MAX_FRACTION. lia. Defined.
