(* ===== verification/TrxIndex.v ===== *)
(** * The index of transactions ([csnode/src/transactionsindex.cpp],
      [csnode/src/transactionsiterator.cpp])

    For each address and each block with transactions of the address, the index
    has the number of the block before with such transactions.  The wallets cache
    has the last transaction of each wallet, so that an iterator goes back from
    there through all transactions of an address.

    The key-value store is a map; failures of its file are not modelled.  What the
    iterator reads of the chain is a function of the number of a block.  The
    iterator may go on as long as the index tells, so that its walk has fuel;
    [TrxIndexSpec] shows that one step for each block is enough. *)

From Stdlib Require Import ZArith Lia.
From stdpp Require Import base tactics numbers option list gmap.
From S2P Require Import Prelude Effect BinStream Amount UserField Crypto Address Utils Transaction Pool Storage WalletsIds WalletsCache Validator.

Local Open Scope Z_scope.
Local Open Scope cs_scope.

(** The members of [TransactionsIndex]; the file of the last number, when it is mapped *)
Record TransactionsIndex := mkIndex {
  ti_db_ : gmap bytes Z;
  lastIndexedPool_ : Z;
  recreate_ : bool;
  lastIndexedFile_ : option Z;
  lapoos_ : list (Address * Z)
}.
#[export] Instance eta_index : Eta TransactionsIndex := fun i => mkIndex (ti_db_ i) (lastIndexedPool_ i) (recreate_ i) (lastIndexedFile_ i) (lapoos_ i).

(** [TransactionsIterator]; the reverse iterator [it_] by the number of elements from its own on to the front *)
Record TransactionsIterator := mkIterator { addr_ : Address; lapoo_ : Pool.priv; it_ : nat }.

Module TrxIndex.
Section index.
Context `{!Cscrypto} {D : Type} `{!MultiIndex D} (ids : WalletsIds D) (cache : Cache) (loadBlock : Z -> Pool.priv) (autoShutdownEnabled : bool).
Implicit Types (idx : TransactionsIndex) (i : TransactionsIterator) (pool : Pool.priv) (t : Transaction) (addr key : Address).

(** *** What the index asks of the chain *)

(** [getAddressByType(addr, PublicKey)], [isEqual], [getLastTransaction] *)
Definition publicKeyAddress addr : Address := Validator.absolute_address ids addr.
Definition isEqual (laddr raddr : Address) : bool := Address.op_eq (publicKeyAddress laddr) (publicKeyAddress raddr).
Definition getLastTransaction addr : TransactionID :=
  match WalletsCache.findWallet (public_key (publicKeyAddress addr)) cache with Some w => lastTransaction_ w | None => TxId.default end.

(** *** The entries *)

Definition getTrxIndexKey (pubKey : bytes) (seq : Z) : bytes := pubKey ++ le_bytes 8 seq.
Definition setPrevTransBlock (pubKey : bytes) (curr prev : Z) idx : TransactionsIndex :=
  idx <| ti_db_ := <[getTrxIndexKey pubKey curr := prev]> (ti_db_ idx) |>.
Definition removeLastTransBlock (pubKey : bytes) (curr : Z) idx : TransactionsIndex := idx <| ti_db_ := delete (getTrxIndexKey pubKey curr) (ti_db_ idx) |>.
Definition getPrevTransBlock addr (prev : Z) idx : Z :=
  default kWrongSequence (ti_db_ idx !! getTrxIndexKey (public_key (publicKeyAddress addr)) prev).

Definition updateLastIndexed idx : TransactionsIndex :=
  idx <| lastIndexedFile_ := match lastIndexedFile_ idx with Some _ => Some (lastIndexedPool_ idx) | None => None end |>.
Definition invalidate idx : TransactionsIndex := updateLastIndexed (idx <| lastIndexedPool_ := kWrongSequence |>).

(** [BlockChain::getPreviousPoolSeq]: an entry that names its own block ends the walk, and the index is given up. *)
Definition getPreviousPoolSeq addr (ps : Z) idx : Z * TransactionsIndex :=
  let prev_seq := getPrevTransBlock addr ps idx in
  if prev_seq =? ps then (kWrongSequence, if autoShutdownEnabled then invalidate idx else idx) else (prev_seq, idx).

(** *** Opening *)

(** [hasToRecreate]: the answer and the number, which stays as it was when there is no file *)
Definition hasToRecreate (file : option Z) (lastIndexedPool : Z) : bool * Z :=
  match file with None => (true, lastIndexedPool) | Some v => (v =? kWrongSequence, v) end.

(** The constructor: the number is not initialised before. *)
Definition make (recreate : bool) (file : option Z) (mapped : bool) (indeterminate : Z) (db : gmap bytes Z) : TransactionsIndex :=
  let '(recreate, lastIndexedPool) := if recreate then (true, indeterminate) else hasToRecreate file indeterminate in
  mkIndex db lastIndexedPool recreate (if mapped then Some (default 0 file) else None) [].

Definition onStartReadFromDb (lastWrittenPoolSeq : Z) idx : TransactionsIndex :=
  if negb (recreate_ idx) && negb (lastIndexedPool_ idx =? lastWrittenPoolSeq) then idx <| recreate_ := true |> else idx.

(** [reset] and [init]: an empty store *)
Definition reset idx : TransactionsIndex := idx <| ti_db_ := ∅ |>.

(** *** A new block *)

(** A set of addresses has one of those that are neither before nor after each other. *)
Definition contains addr (l : list Address) : bool := existsb (fun a => WalletsCache.equivalent a addr) l.

(** The lambda of [updateFromNextBlock], with the addresses that were indexed *)
Definition index_address pool addr (st : list Address * TransactionsIndex) : list Address * TransactionsIndex :=
  let '(indexedAddrs, idx) := st in
  let key := publicKeyAddress addr in
  if contains key indexedAddrs then st
  else
    let '(lapoo, idx) :=
      if recreate_ idx
      then (default kWrongSequence (Validator.find_by WalletsCache.equivalent key (lapoos_ idx)),
            idx <| lapoos_ := Validator.set_by WalletsCache.equivalent key (Pool.sequence_ pool) (lapoos_ idx) |>)
      else (pool_seq_ (getLastTransaction key), idx) in
    (indexedAddrs ++ [key],
     if negb (lapoo =? Pool.sequence_ pool) then setPrevTransBlock (public_key key) (Pool.sequence_ pool) lapoo idx else idx).

Definition updateFromNextBlock pool idx : TransactionsIndex :=
  let idx := (foldl (fun st t => index_address pool (target_ t) (index_address pool (source_ t) st)) ([], idx) (Pool.transactions_ pool)).2 in
  updateLastIndexed (idx <| lastIndexedPool_ := Pool.sequence_ pool |>).
Definition update pool idx : TransactionsIndex := updateFromNextBlock pool idx.

Definition onReadFromDb pool idx : TransactionsIndex :=
  let idx := if (Pool.sequence_ pool =? 0) && recreate_ idx then reset idx else idx in
  if recreate_ idx || (lastIndexedPool_ idx <? Pool.sequence_ pool) then updateFromNextBlock pool idx else idx.

Definition onDbReadFinished idx : TransactionsIndex :=
  if recreate_ idx then idx <| recreate_ := false |> <| lapoos_ := [] |> else updateLastIndexed idx.

(** *** The iterator *)

(** A transaction from or to the address *)
Definition involves addr t : bool := isEqual (source_ t) addr || isEqual (target_ t) addr.

(** The loops over the transactions of a block, from [pos] elements on to the front *)
Fixpoint scan addr (trxs : list Transaction) (pos : nat) : nat :=
  match pos with
  | O => O
  | S p => match trxs !! p with Some t => if involves addr t then pos else scan addr trxs p | None => scan addr trxs p end
  end.

Definition isValid i : bool := Pool.is_valid_ (lapoo_ i).

(** [operator->] *)
Definition deref i : M Transaction := match it_ i with O => None | S p => index (Pool.transactions_ (lapoo_ i)) p end.

(** [setFromTransId] and the first constructor *)
Definition from_last addr : M TransactionsIterator :=
  let lTrans := getLastTransaction addr in
  if TxId.is_valid lTrans then
    let lapoo := loadBlock (pool_seq_ lTrans) in
    if index_ lTrans <? Z.of_nat (length (Pool.transactions_ lapoo))
    then ret (mkIterator (publicKeyAddress addr) lapoo (S (Z.to_nat (index_ lTrans)))) else None
  else ret (mkIterator (publicKeyAddress addr) Pool.default 0).

(** The second constructor *)
Definition from_pool addr pool : TransactionsIterator :=
  let pos := scan (publicKeyAddress addr) (Pool.transactions_ pool) (length (Pool.transactions_ pool)) in
  mkIterator (publicKeyAddress addr) (if (pos =? 0)%nat then Pool.default else pool) pos.

(** [next] after the last transaction of a block: the block before, until one has transactions;
    when its last one is another's, the iterator goes on from there. *)
Fixpoint previous (fuel : nat) addr (sequence : Z) idx : M (TransactionsIterator * TransactionsIndex) :=
  match fuel with
  | O => None
  | S fuel =>
      let '(ps, idx) := getPreviousPoolSeq addr sequence idx in
      let lapoo := loadBlock ps in
      if negb (Pool.is_valid_ lapoo) then ret (mkIterator addr lapoo 0, idx)
      else
        match last (Pool.transactions_ lapoo) with
        | None => previous fuel addr (Pool.sequence_ lapoo) idx
        | Some t =>
            let size := length (Pool.transactions_ lapoo) in
            if involves addr t then ret (mkIterator addr lapoo size, idx)
            else
              let pos := scan addr (Pool.transactions_ lapoo) (size - 1) in
              if (pos =? 0)%nat then previous fuel addr (Pool.sequence_ lapoo) idx else ret (mkIterator addr lapoo pos, idx)
        end
  end.
Definition next (fuel : nat) i idx : M (TransactionsIterator * TransactionsIndex) :=
  match it_ i with
  | O => None
  | S p =>
      let pos := scan (addr_ i) (Pool.transactions_ (lapoo_ i)) p in
      if (pos =? 0)%nat then previous fuel (addr_ i) (Pool.sequence_ (lapoo_ i)) idx
      else ret (mkIterator (addr_ i) (lapoo_ i) pos, idx)
  end.

(** *** Loops over the iterator *)

(** [BlockChain::getTransactions]; a limit of zero wraps around. *)
Fixpoint transactions_loop (fuel : nat) (offset limit : Z) i idx : M (list Transaction * TransactionsIndex) :=
  match fuel with
  | O => None
  | S fuel' =>
      if negb (isValid i) then ret ([], idx)
      else if 0 <? offset then do! (i, idx) := next fuel i idx in transactions_loop fuel' (offset - 1) limit i idx
      else
        do! t := deref i in
        let t := Tx.set_time (WalletsCache.get_time (lapoo_ i)) t in
        let limit := u64 (limit - 1) in
        if limit =? 0 then ret ([t], idx)
        else
          do! (i, idx) := next fuel i idx in
          do! (l, idx) := transactions_loop fuel' offset limit i idx in
          ret (t :: l, idx)
  end.
Definition getTransactions (fuel : nat) addr (offset limit : Z) idx : M (list Transaction * TransactionsIndex) :=
  do! i := from_last addr in transactions_loop fuel offset limit i idx.

(** [BlockChain::getTransaction] with an inner id *)
Fixpoint transaction_loop (fuel : nat) (innerId : Z) i idx : M (option Transaction * TransactionsIndex) :=
  match fuel with
  | O => None
  | S fuel' =>
      if negb (isValid i) then ret (None, idx)
      else
        do! t := deref i in
        if innerID_ t =? innerId then ret (Some t, idx)
        else do! (i, idx) := next fuel i idx in transaction_loop fuel' innerId i idx
  end.
Definition getTransaction (fuel : nat) addr (innerId : Z) idx : M (option Transaction * TransactionsIndex) :=
  do! i := from_last addr in transaction_loop fuel innerId i idx.

(** *** A removed block *)

(** The id of the last transaction below the number [sq] *)
Fixpoint earlier (fuel : nat) (sq : Z) i idx : M (option TransactionID * TransactionsIndex) :=
  match fuel with
  | O => None
  | S fuel' =>
      if negb (isValid i) then ret (None, idx)
      else
        do! t := deref i in
        if pool_seq_ (id_ t) <? sq then ret (Some (id_ t), idx)
        else do! (i, idx) := next fuel i idx in earlier fuel' sq i idx
  end.

(** The lambda of [onRemoveBlock] *)
Definition remove_address (fuel : nat) pool (sq : Z) addr (st : list Address * list (bytes * TransactionID) * TransactionsIndex)
  : M (list Address * list (bytes * TransactionID) * TransactionsIndex) :=
  let '(uniqueAddresses, updates, idx) := st in
  let key := publicKeyAddress addr in
  if contains key uniqueAddresses then ret st
  else
    do! (found, idx) := earlier fuel sq (from_pool addr pool) idx in
    let id := match found with Some id => id | None => mkTransactionID kWrongSequence kWrongSequence end in
    ret (uniqueAddresses ++ [key], updates ++ [(public_key key, id)], removeLastTransBlock (public_key key) sq idx).

(** [onRemoveBlock]: the index and the wallets cache after it *)
Definition onRemoveBlock (fuel : nat) pool idx : M (TransactionsIndex * Cache) :=
  do! (_, updates, idx) :=
    mfold (fun t st =>
      do! st := remove_address fuel pool (lastIndexedPool_ st.2) (source_ t) st in
      remove_address fuel pool (lastIndexedPool_ st.2) (target_ t) st) (Pool.transactions_ pool) ([], [], idx) in
  let idx := updateLastIndexed (idx <| lastIndexedPool_ := u64 (lastIndexedPool_ idx - 1) |>) in
  ret (idx, WalletsCache.updateLastTransactions updates cache).
End index.
End TrxIndex.
