(* ===== verification/TrxIndexSpec.v ===== *)
(** * What the index of transactions promises

    [indexed]: for each address the entries of the index are the blocks with its
    transactions, each with the one before.  A new block keeps it
    ([update_indexes]) and a removed block takes it back ([removal_restores]);
    an index that is created anew while the chain is read makes the iterator give
    all transactions of an address, the newest first
    ([recreated_index_lists_history]). *)

From Stdlib Require Import ZArith Lia.
From stdpp Require Import base tactics numbers option list gmap.
From S2P Require Import Prelude Effect BinStream Amount UserField Crypto Address Utils Transaction Pool Storage WalletsIds WalletsCache Validator TrxIndex.

Local Open Scope Z_scope.
Local Open Scope cs_scope.

Module IndexSpec.
Import TrxIndex.

Section spec.
Context `{!Cscrypto} {D : Type} `{!MultiIndex D} (ids : WalletsIds D).
Implicit Types (idx : TransactionsIndex) (i : TransactionsIterator) (p q : Pool.priv) (t : Transaction) (key : Address) (chain : list Pool.priv).

(** *** Addresses that are keys *)

Definition is_key key : Prop := Address.is_public_key key = true /\ length (public_key key) = kPublicKeySize.

Lemma key_ext a b : is_key a -> is_key b -> public_key a = public_key b -> a = b.
Proof. intros [Ha _] [Hb _]. destruct a as [da wa], b as [db wb]. unfold Address.is_public_key in *. cbn in *. by destruct wa, wb; intros ->. Qed.

Lemma key_eq a b : is_key a -> is_key b -> Address.op_eq a b = bool_decide (a = b).
Proof.
  intros Ha Hb. pose proof (key_ext a b Ha Hb) as He. destruct Ha as [Ha _], Hb as [Hb _]. unfold Address.op_eq. rewrite Ha, Hb, bool_decide_true by done.
  cbn [negb]. apply bool_decide_ext. split; [apply He|by intros ->].
Qed.

Lemma key_equivalent a b : is_key a -> is_key b -> WalletsCache.equivalent a b = bool_decide (a = b).
Proof.
  intros Ha Hb. pose proof (key_ext a b Ha Hb) as He. destruct Ha as [Ha _], Hb as [Hb _]. unfold Address.is_public_key in *.
  apply negb_true_iff in Ha, Hb. unfold WalletsCache.equivalent, Address.op_lt. rewrite Ha, Hb. cbn [negb andb].
  symmetry. case_bool_decide as E; [subst b; by rewrite lex_lt_irrefl|].
  destruct (lex_lt_total (public_key a) (public_key b)) as [R|R]; [by intros R; apply E, He|..]; unfold public_key in R; rewrite R; [done|].
  by rewrite andb_false_r.
Qed.

Lemma entry_inj a b (n m : Z) : is_key a -> is_key b -> in_u 64 n -> in_u 64 m ->
  getTrxIndexKey (public_key a) n = getTrxIndexKey (public_key b) m -> a = b /\ n = m.
Proof.
  intros Ha Hb Hn Hm E. unfold getTrxIndexKey in E. apply app_inj_1 in E as [E1 E2]; [|by destruct Ha as [_ ->], Hb as [_ ->]].
  apply le_bytes_inj in E2; [|unfold in_u in *; cbn; lia..]. split; [by apply key_ext|done].
Qed.

(** *** The chain *)

Local Notation key_of := (publicKeyAddress ids).

(** The transactions have their places as ids, and all their addresses are known. *)
Record good_block (n : nat) p : Prop := {
  good_valid : Pool.is_valid_ p = true;
  good_sequence : Pool.sequence_ p = Z.of_nat n;
  good_ids k t : Pool.transactions_ p !! k = Some t -> id_ t = mkTransactionID (Z.of_nat n) (Z.of_nat k);
  good_keys t : t ∈ Pool.transactions_ p -> is_key (key_of (source_ t)) /\ is_key (key_of (target_ t))
}.
Record good_chain chain : Prop := {
  good_blocks n p : chain !! n = Some p -> good_block n p;
  good_length : Z.of_nat (length chain) < kWrongSequence
}.

(** From or to a key *)
Definition involved key t : bool := bool_decide (key_of (source_ t) = key) || bool_decide (key_of (target_ t) = key).
Definition in_block key p : bool := existsb (involved key) (Pool.transactions_ p).

(** The number of the last block below [n] with a transaction of the key *)
Fixpoint last_block key (n : nat) chain : Z :=
  match n with
  | O => kWrongSequence
  | S n => match chain !! n with Some p => if in_block key p then Z.of_nat n else last_block key n chain | None => last_block key n chain end
  end.

(** All transactions of the key below [n] with their blocks, the newest first *)
Definition of_block key p (pos : nat) : list (Pool.priv * Transaction) := map (pair p) (rev (List.filter (involved key) (take pos (Pool.transactions_ p)))).
Fixpoint history key (n : nat) chain : list (Pool.priv * Transaction) :=
  match n with
  | O => []
  | S n => match chain !! n with Some p => of_block key p (length (Pool.transactions_ p)) ++ history key n chain | None => history key n chain end
  end.

(** The entries of the index *)
Definition entry key (n : nat) chain : option Z := p ← chain !! n; if in_block key p then Some (last_block key n chain) else None.
Definition indexed_for key idx chain : Prop :=
  forall n : nat, in_u 64 (Z.of_nat n) -> ti_db_ idx !! getTrxIndexKey (public_key key) (Z.of_nat n) = entry key n chain.
Definition indexed idx chain : Prop := forall key, is_key key -> indexed_for key idx chain.

(** *** Facts on the chain *)

Lemma last_block_cases key n chain :
  (last_block key n chain = kWrongSequence /\ history key n chain = []) \/
  exists m p, (m < n)%nat /\ last_block key n chain = Z.of_nat m /\ chain !! m = Some p /\ in_block key p = true /\ history key n chain = history key (S m) chain.
Proof.
  induction n as [|n IH]; cbn [last_block history]; [by left|].
  destruct (chain !! n) as [p|] eqn:Ep.
  - destruct (in_block key p) eqn:Ei.
    + right. exists n, p. rewrite Ep. split_and!; try done. lia.
    + assert (of_block key p (length (Pool.transactions_ p)) = []) as ->.
      { unfold of_block. rewrite take_ge by lia. unfold in_block in Ei. induction (Pool.transactions_ p) as [|t l IHl]; [done|].
        cbn [existsb List.filter] in *. apply orb_false_iff in Ei as [-> Ei]. by apply IHl. }
      destruct IH as [IH|(m & q & Hm & IH)]; [by left|right]. exists m, q. split; [lia|]. exact IH.
  - destruct IH as [IH|(m & q & Hm & IH)]; [by left|right]. exists m, q. split; [lia|]. exact IH.
Qed.

Lemma last_block_app key n chain p : (n <= length chain)%nat -> last_block key n (chain ++ [p]) = last_block key n chain.
Proof. induction n as [|n IH]; intros Hn; [done|]. cbn [last_block]. by rewrite lookup_app_l, IH by lia. Qed.

Lemma history_app key n chain p : (n <= length chain)%nat -> history key n (chain ++ [p]) = history key n chain.
Proof. induction n as [|n IH]; intros Hn; [done|]. cbn [history]. by rewrite lookup_app_l, IH by lia. Qed.

Lemma entry_app key n chain p :
  entry key n (chain ++ [p]) = if decide (n = length chain) then if in_block key p then Some (last_block key n chain) else None else entry key n chain.
Proof.
  unfold entry. destruct (decide (n = length chain)) as [->|Hn].
  - rewrite lookup_app_r, Nat.sub_diag by lia. cbn. by rewrite last_block_app.
  - destruct (decide (n < length chain)%nat); [by rewrite lookup_app_l, last_block_app by lia|].
    rewrite (lookup_ge_None_2 (chain ++ [p])), (lookup_ge_None_2 chain) by (rewrite ?length_app; cbn; lia). done.
Qed.

(** *** The transactions of a block *)

Lemma key_of_key key : is_key key -> key_of key = key.
Proof. intros [E _]. unfold publicKeyAddress, Validator.absolute_address. by rewrite E. Qed.

Lemma involves_involved n p key t : good_block n p -> is_key key -> t ∈ Pool.transactions_ p -> involves ids key t = involved key t.
Proof.
  intros Hg Hk Ht. destruct (good_keys _ _ Hg t Ht) as [H1 H2]. unfold involves, isEqual, involved. by rewrite (key_of_key key), !key_eq by done.
Qed.

Lemma of_block_S key p k t : Pool.transactions_ p !! k = Some t ->
  of_block key p (S k) = if involved key t then (p, t) :: of_block key p k else of_block key p k.
Proof.
  intros E. unfold of_block. rewrite (take_S_r _ _ _ E), List.filter_app, rev_app_distr, map_app. cbn [List.filter]. by destruct (involved key t).
Qed.

Lemma scan_spec n p key pos :
  good_block n p -> is_key key -> (pos <= length (Pool.transactions_ p))%nat ->
  (scan ids key (Pool.transactions_ p) pos = 0%nat /\ of_block key p pos = []) \/
  exists k t, scan ids key (Pool.transactions_ p) pos = S k /\ (k < pos)%nat /\ Pool.transactions_ p !! k = Some t /\ involved key t = true /\
    of_block key p pos = (p, t) :: of_block key p k.
Proof.
  intros Hg Hk. induction pos as [|pos IH]; intros Hp; cbn [scan]; [by left|].
  destruct (lookup_lt_is_Some_2 (Pool.transactions_ p) pos) as [t Et]; [lia|]. rewrite Et, (of_block_S key p pos t Et).
  rewrite (involves_involved n p) by (done || by eapply list_elem_of_lookup_2). destruct (involved key t) eqn:Ei.
  - right. exists pos, t. split_and!; done || lia.
  - destruct IH as [IH|(k & u & E1 & E2 & R)]; [lia|by left|]. right. exists k, u. split; [done|]. split; [lia|exact R].
Qed.

Lemma of_block_in n p key : good_block n p -> in_block key p = true -> of_block key p (length (Pool.transactions_ p)) <> [].
Proof.
  intros _ Hi. unfold of_block. rewrite take_ge by lia. unfold in_block in Hi. apply existsb_exists in Hi as (t & Hin & Ht). intros E.
  apply map_eq_nil, (f_equal (@rev _)) in E. rewrite rev_involutive in E. cbn in E.
  assert (In t (List.filter (involved key) (Pool.transactions_ p))) as Hf by by apply filter_In. by rewrite E in Hf.
Qed.

(** *** The iterator *)

(** The iterator is at the head of a list; it is over when the list is empty. *)
Definition at_list key chain i (l : list (Pool.priv * Transaction)) : Prop :=
  addr_ i = key /\
  match l with
  | [] => isValid i = false
  | x :: l => exists n k, chain !! n = Some (lapoo_ i) /\ it_ i = S k /\ Pool.transactions_ (lapoo_ i) !! k = Some x.2 /\ x.1 = lapoo_ i /\
      involved key x.2 = true /\ l = of_block key (lapoo_ i) k ++ history key n chain
  end.

Section walk.
Context (loadBlock : Z -> Pool.priv) (autoShutdownEnabled : bool).

(** The first [n] blocks can be loaded. *)
Definition loads (n : nat) chain : Prop :=
  (forall m p, (m < n)%nat -> chain !! m = Some p -> loadBlock (Z.of_nat m) = p) /\ Pool.is_valid_ (loadBlock kWrongSequence) = false.

Lemma loads_le n m chain : (m <= n)%nat -> loads n chain -> loads m chain.
Proof. intros Hm [H1 H2]. split; [|done]. intros k p Hk. apply H1. lia. Qed.

Lemma previous_goes fuel key n p idx chain :
  good_chain chain -> indexed_for key idx chain -> loads n chain -> is_key key -> chain !! n = Some p -> in_block key p = true -> (0 < fuel)%nat ->
  exists i, previous ids loadBlock autoShutdownEnabled fuel key (Z.of_nat n) idx = ret (i, idx) /\ at_list key chain i (history key n chain).
Proof.
  intros Hg Hi Hl Hk Hp Hin Hf. destruct fuel as [|fuel]; [lia|]. cbn [previous].
  assert (in_u 64 (Z.of_nat n)) as Hn by (pose proof (good_length _ Hg); apply lookup_lt_Some in Hp; unfold in_u, kWrongSequence in *; lia).
  assert (getPreviousPoolSeq ids autoShutdownEnabled key (Z.of_nat n) idx = (last_block key n chain, idx)) as ->.
  { unfold getPreviousPoolSeq, getPrevTransBlock. rewrite key_of_key, (Hi n) by done. unfold entry. rewrite Hp. cbn [mbind option_bind]. rewrite Hin. cbn [from_option Datatypes.id].
    destruct (Z.eqb_spec (last_block key n chain) (Z.of_nat n)) as [E|]; [|done]. exfalso.
    destruct (last_block_cases key n chain) as [[E1 _]|(m & q & Hm & E1 & _)]; [|lia]. pose proof (good_length _ Hg). apply lookup_lt_Some in Hp. lia. }
  destruct (last_block_cases key n chain) as [[-> ->]|(m & q & Hm & -> & Hq & Hqin & ->)].
  - rewrite (proj2 Hl). cbn [negb]. eexists. split; [done|]. split; [done|]. unfold isValid. cbn [lapoo_]. apply Hl.
  - rewrite (proj1 Hl m q Hm Hq). pose proof (good_blocks _ Hg m q Hq) as Gq. rewrite (good_valid _ _ Gq). cbn [negb].
    pose proof (of_block_in m q key Gq Hqin) as Hne. set (size := length (Pool.transactions_ q)) in *.
    cbn [history]. rewrite Hq. fold size. destruct (scan_spec m q key size Gq Hk ltac:(done)) as [[_ E]|(k & t & Es & Hks & Ek & Hti & E)]; [done|].
    rewrite E. destruct (last (Pool.transactions_ q)) as [u|] eqn:Eu; [|apply last_None in Eu; by rewrite Eu in Ek].
    rewrite last_lookup in Eu. fold size in Eu. assert (size = S (Nat.pred size)) as Hsz by lia.
    assert (u ∈ Pool.transactions_ q) as Hu by by eapply list_elem_of_lookup_2.
    rewrite Hsz in Es. cbn [scan] in Es. rewrite Eu in Es. rewrite (involves_involved m q) in Es |- * by done. destruct (involved key u) eqn:Eui.
    + assert (Nat.pred size = k) as <- by lia. eexists. split; [done|]. split; [done|]. exists m, (Nat.pred size). cbn [lapoo_ it_ fst snd]. by split_and!.
    + rewrite <- Nat.sub_1_r in Es. rewrite Es. cbn [Nat.eqb]. eexists. split; [done|]. split; [done|]. exists m, k. cbn [lapoo_ it_ fst snd]. by split_and!.
Qed.

Lemma of_block_nonempty n p key k : good_block n p -> of_block key p k <> [] -> in_block key p = true.
Proof.
  intros _ Hne. unfold of_block in Hne. destruct (in_block key p) eqn:E; [done|]. exfalso. apply Hne. clear Hne. unfold in_block in E.
  rewrite <- (take_drop k (Pool.transactions_ p)), existsb_app in E. apply orb_false_iff in E as [E _].
  induction (take k (Pool.transactions_ p)) as [|t l IH]; [done|]. cbn [existsb List.filter] in *. apply orb_false_iff in E as [-> E]. by apply IH.
Qed.

Lemma next_goes fuel key i x l idx chain :
  good_chain chain -> indexed_for key idx chain -> is_key key -> at_list key chain i (x :: l) -> (0 < fuel)%nat ->
  (forall n, chain !! n = Some (lapoo_ i) -> loads n chain) ->
  exists i', next ids loadBlock autoShutdownEnabled fuel i idx = ret (i', idx) /\ at_list key chain i' l.
Proof.
  intros Hg Hi Hk (Ea & m & k & Hm & Eit & Et & Ex & Hx & ->) Hf Hl. unfold next. rewrite Eit, Ea.
  pose proof (good_blocks _ Hg m _ Hm) as Gm. pose proof (lookup_lt_Some _ _ _ Et) as Hlt.
  destruct (scan_spec m (lapoo_ i) key k Gm Hk ltac:(lia)) as [[-> ->]|(j & t & -> & Hj & Ej & Ht & ->)]; cbn [Nat.eqb].
  - cbn [app]. rewrite (good_sequence _ _ Gm). apply previous_goes with (p := lapoo_ i); try done; [by apply Hl|].
    apply (of_block_nonempty m _ _ (S k) Gm). by rewrite (of_block_S _ _ _ _ Et), Hx.
  - eexists. split; [done|]. split; [done|]. exists m, j. by split_and!.
Qed.

Lemma history_head key n chain p t l :
  good_chain chain -> is_key key -> history key n chain = (p, t) :: l ->
  exists m k, (m < n)%nat /\ chain !! m = Some p /\ Pool.transactions_ p !! k = Some t /\ involved key t = true /\
    l = of_block key p k ++ history key m chain.
Proof.
  intros Hg Hk E. destruct (last_block_cases key n chain) as [[_ E1]|(m & q & Hm & _ & Hq & Hin & E1)]; [congruence|].
  rewrite E1 in E. cbn [history] in E. rewrite Hq in E. pose proof (good_blocks _ Hg m q Hq) as Gq.
  destruct (scan_spec m q key (length (Pool.transactions_ q)) Gq Hk ltac:(done)) as [[_ E2]|(k & u & _ & _ & Ek & Hu & E2)].
  - by destruct (of_block_in m q key Gq Hin).
  - rewrite E2 in E. injection E as -> -> <-. by exists m, k.
Qed.

(** The wallets cache has the last transaction of a key. *)
Definition last_known (cache : Cache) key chain : Prop :=
  match history key (length chain) chain with
  | [] => TxId.is_valid (getLastTransaction ids cache key) = false
  | (_, t) :: _ => getLastTransaction ids cache key = id_ t
  end.

Lemma from_last_head cache addr chain :
  good_chain chain -> is_key (key_of addr) -> loads (length chain) chain -> last_known cache (key_of addr) chain ->
  exists i, from_last ids cache loadBlock addr = ret i /\ at_list (key_of addr) chain i (history (key_of addr) (length chain) chain).
Proof.
  intros Hg Hk Hl Hlast. unfold from_last, last_known in *.
  assert (getLastTransaction ids cache addr = getLastTransaction ids cache (key_of addr)) as -> by (unfold getLastTransaction; by rewrite (key_of_key (key_of addr))).
  destruct (history _ _ chain) as [|[p t] l] eqn:E; [rewrite Hlast; eexists; by split|].
  destruct (history_head _ _ _ _ _ _ Hg Hk E) as (m & k & Hm & Hp & Ht & Hi & ->). rewrite Hlast, (good_ids _ _ (good_blocks _ Hg m p Hp) k t Ht).
  unfold TxId.is_valid. cbn [pool_seq_ index_]. pose proof (good_length _ Hg).
  destruct (Z.eqb_spec (Z.of_nat m) kWrongSequence); [lia|]. cbn [negb]. rewrite (proj1 Hl m p Hm Hp).
  pose proof (lookup_lt_Some _ _ _ Ht). rewrite (proj2 (Z.ltb_lt _ _)) by lia. rewrite Nat2Z.id. eexists. split; [done|]. split; [done|].
  exists m, k. by split_and!.
Qed.

Lemma at_list_deref key chain i x l : at_list key chain i (x :: l) -> deref i = ret x.2 /\ lapoo_ i = x.1.
Proof. intros (_ & n & k & Hn & Ei & Et & Ex & _). unfold deref, index. by rewrite Ei, Et. Qed.

Lemma at_list_valid key chain i l : good_chain chain -> at_list key chain i l -> isValid i = negb (bool_decide (l = [])).
Proof.
  intros Hg [_ Hat]. destruct l as [|x l]; [done|]. destruct Hat as (n & k & Hn & _). by apply (good_valid _ _ (good_blocks _ Hg _ _ Hn)).
Qed.

Lemma next_loaded fuel key i x l idx chain :
  good_chain chain -> indexed_for key idx chain -> is_key key -> loads (length chain) chain -> at_list key chain i (x :: l) -> (0 < fuel)%nat ->
  exists i', next ids loadBlock autoShutdownEnabled fuel i idx = ret (i', idx) /\ at_list key chain i' l.
Proof.
  intros Hg Hi Hk Hl Hat Hf. eapply next_goes; [done..|]. intros n Hn. eapply loads_le; [|exact Hl]. apply lookup_lt_Some in Hn. lia.
Qed.

(** A transaction as [getTransactions] gives it *)
Definition timed (x : Pool.priv * Transaction) : Transaction := Tx.set_time (WalletsCache.get_time x.1) x.2.

(** How many transactions the counter of [getTransactions] lets through: it is decremented before
    the test, so that no limit at all (0) counts as 2^64. *)
Definition counted (limit : Z) : Z := if limit =? 0 then 2 ^ 64 else limit.

Lemma counted_next limit : 0 <= limit < 2 ^ 64 ->
  Z.to_nat (counted limit) = S (Z.to_nat (u64 (limit - 1))) /\ 0 <= u64 (limit - 1) < 2 ^ 64.
Proof. intros Hlim. unfold counted. destruct (Z.eqb_spec limit 0); machine_lia. Qed.

Lemma transactions_loop_spec fuel offset limit key i l idx chain :
  good_chain chain -> indexed_for key idx chain -> is_key key -> loads (length chain) chain -> at_list key chain i l -> (length l < fuel)%nat ->
  0 <= offset -> 0 <= limit < 2 ^ 64 ->
  transactions_loop ids loadBlock autoShutdownEnabled fuel offset limit i idx = ret (map timed (take (Z.to_nat (counted limit)) (drop (Z.to_nat offset) l)), idx).
Proof.
  intros Hg Hi Hk Hl. revert offset limit i l. induction fuel as [|fuel IH]; intros offset limit i l Hat Hf Ho Hlim; [lia|].
  cbn [transactions_loop]. rewrite (at_list_valid _ _ _ _ Hg Hat). destruct l as [|x l]; [by rewrite drop_nil, take_nil|]. cbn [negb bool_decide].
  rewrite bool_decide_false by done. cbn [negb length] in *. destruct (next_loaded (S fuel) _ _ _ _ idx _ Hg Hi Hk Hl Hat ltac:(lia)) as (i' & En & Hat').
  destruct (Z.ltb_spec 0 offset) as [Hpos|].
  - rewrite En. cbn [mthen ret]. rewrite (IH _ _ _ _ Hat') by lia. replace (Z.to_nat offset) with (S (Z.to_nat (offset - 1))) by lia. done.
  - assert (offset = 0) as -> by lia. destruct (at_list_deref _ _ _ _ _ Hat) as [-> Ep]. cbn [mthen ret].
    destruct (counted_next limit Hlim) as [-> Hu]. set (rest := u64 (limit - 1)) in *. cbn [Z.to_nat drop take map].
    rewrite Ep. fold (timed x). destruct (Z.eqb_spec rest 0) as [->|Hne]; [done|].
    rewrite En. cbn [mthen ret]. rewrite (IH _ _ _ _ Hat') by lia. unfold counted. by rewrite (proj2 (Z.eqb_neq rest 0)).
Qed.

Lemma transaction_loop_spec fuel innerId key i l idx chain :
  good_chain chain -> indexed_for key idx chain -> is_key key -> loads (length chain) chain -> at_list key chain i l -> (length l < fuel)%nat ->
  transaction_loop ids loadBlock autoShutdownEnabled fuel innerId i idx = ret (snd <$> List.find (fun x => innerID_ x.2 =? innerId) l, idx).
Proof.
  intros Hg Hi Hk Hl. revert i l. induction fuel as [|fuel IH]; intros i l Hat Hf; [lia|].
  cbn [transaction_loop]. rewrite (at_list_valid _ _ _ _ Hg Hat). destruct l as [|x l]; [done|].
  rewrite bool_decide_false by done. cbn [negb length List.find] in *. destruct (at_list_deref _ _ _ _ _ Hat) as [-> _]. cbn [mthen ret].
  destruct (_ =? innerId); [done|]. destruct (next_loaded (S fuel) _ _ _ _ idx _ Hg Hi Hk Hl Hat ltac:(lia)) as (i' & -> & Hat').
  cbn [mthen ret]. apply IH; [done|lia].
Qed.
End walk.

(** *** A new block *)

Lemma find_set_by {A} key k (v : A) m : is_key key -> is_key k -> Forall (fun x => is_key x.1) m ->
  Validator.find_by WalletsCache.equivalent key (Validator.set_by WalletsCache.equivalent k v m) =
    if decide (k = key) then Some v else Validator.find_by WalletsCache.equivalent key m.
Proof.
  intros Hk Hk' Hm. induction Hm as [|[a w] m Ha _ IH]; cbn [Validator.set_by Validator.find_by fst] in *.
  - rewrite key_equivalent by done. by repeat case_decide; repeat case_bool_decide.
  - rewrite !(key_equivalent a) by done. destruct (bool_decide_reflect (a = k)) as [->|Hne]; cbn [Validator.find_by].
    + rewrite key_equivalent by done. by repeat case_decide; repeat case_bool_decide.
    + rewrite key_equivalent, IH by done. repeat case_decide; repeat case_bool_decide; congruence.
Qed.

Lemma set_by_keys {A} k (v : A) m : is_key k -> Forall (fun x => is_key x.1) m -> Forall (fun x => is_key x.1) (Validator.set_by WalletsCache.equivalent k v m).
Proof. intros Hk. induction 1 as [|[a w] m Ha Hm IH]; cbn [Validator.set_by]; [by constructor|]. case_match; by constructor. Qed.

Lemma contains_keys key l : is_key key -> Forall is_key l -> contains key l = bool_decide (key ∈ l).
Proof.
  intros Hk. induction 1 as [|a l Ha Hl IH]; cbn [contains existsb]; [done|]. fold (contains key l). rewrite IH, key_equivalent by done.
  repeat case_bool_decide; cbn [orb]; set_solver.
Qed.

(** What the index takes for the block before *)
Definition ready (cache : Cache) idx chain : Prop :=
  if recreate_ idx
  then Forall (fun x => is_key x.1) (lapoos_ idx) /\
    forall key, is_key key -> default kWrongSequence (Validator.find_by WalletsCache.equivalent key (lapoos_ idx)) = last_block key (length chain) chain
  else forall key, is_key key -> last_known cache key chain.

Lemma last_known_block cache key chain :
  good_chain chain -> is_key key -> last_known cache key chain -> pool_seq_ (getLastTransaction ids cache key) = last_block key (length chain) chain.
Proof.
  intros Hg Hk. unfold last_known. destruct (last_block_cases key (length chain) chain) as [[-> ->]|(m & p & Hm & -> & Hp & Hin & ->)].
  - unfold TxId.is_valid. destruct (Z.eqb_spec (pool_seq_ (getLastTransaction ids cache key)) kWrongSequence); done.
  - cbn [history]. rewrite Hp. pose proof (good_blocks _ Hg m p Hp) as Gp.
    destruct (scan_spec m p key (length (Pool.transactions_ p)) Gp Hk ltac:(done)) as [[_ E]|(k & t & _ & _ & Et & _ & ->)]; [by destruct (of_block_in m p key Gp Hin)|].
    cbn [app]. intros ->. by rewrite (good_ids _ _ Gp k t Et).
Qed.

Lemma last_block_lt key n chain : (n <= length chain)%nat -> good_chain chain -> last_block key n chain <> Z.of_nat n.
Proof.
  intros Hn Hg E. pose proof (good_length _ Hg). destruct (last_block_cases key n chain) as [[E1 _]|(m & q & Hm & E1 & _)]; lia.
Qed.

Section next_block.
Context (cache : Cache) (chain : list Pool.priv) (p : Pool.priv) (idx0 : TransactionsIndex).
Context (Hg : good_chain (chain ++ [p])) (Hg0 : good_chain chain) (Hi : indexed idx0 chain) (Hr : ready cache idx0 chain).

(** The index after the addresses [seen] *)
Record indexing (seen : list Address) idx : Prop := {
  indexing_seen : Forall is_key seen;
  indexing_recreate : recreate_ idx = recreate_ idx0;
  indexing_db key (n : nat) : is_key key -> in_u 64 (Z.of_nat n) ->
    ti_db_ idx !! getTrxIndexKey (public_key key) (Z.of_nat n) =
      if decide (n = length chain /\ key ∈ seen) then Some (last_block key (length chain) chain) else entry key n chain;
  indexing_keys : recreate_ idx0 = true -> Forall (fun x => is_key x.1) (lapoos_ idx);
  indexing_lapoos key : recreate_ idx0 = true -> is_key key ->
    default kWrongSequence (Validator.find_by WalletsCache.equivalent key (lapoos_ idx)) =
      if decide (key ∈ seen) then Z.of_nat (length chain) else last_block key (length chain) chain
}.

Lemma last_good : good_block (length chain) p.
Proof. apply (good_blocks _ Hg). by rewrite lookup_app_r, Nat.sub_diag by lia. Qed.

Lemma place_ok : in_u 64 (Z.of_nat (length chain)).
Proof. pose proof (good_length _ Hg0). unfold in_u, kWrongSequence in *. lia. Qed.

Lemma indexing_start : indexing [] idx0.
Proof.
  split; try done.
  - intros key n Hk Hn. rewrite decide_False by (intros [_ ?%elem_of_nil]; done). by apply (Hi key Hk).
  - intros E. unfold ready in Hr. rewrite E in Hr. apply Hr.
  - intros key E Hk. unfold ready in Hr. rewrite E in Hr. by apply Hr.
Qed.

Lemma index_address_step addr seen idx :
  is_key (key_of addr) -> indexing seen idx ->
  exists seen' idx', index_address ids cache p addr (seen, idx) = (seen', idx') /\ indexing seen' idx' /\ forall key, key ∈ seen' <-> key ∈ seen \/ key = key_of addr.
Proof.
  intros Hk Hx. pose proof Hx as [Hseen Hrec Hdb Hkeys Hlap]. unfold index_address. rewrite contains_keys by done. case_bool_decide as Hin.
  { exists seen, idx. split; [done|]. split; [done|]. intros key. split; [by left|]. by intros [Hs|Hs]; [|rewrite Hs]. }
  set (key := key_of addr) in *. pose proof last_good as Gp. pose proof place_ok as Hplace. rewrite (good_sequence _ _ Gp).
  assert (exists idx1, (if recreate_ idx
      then (default kWrongSequence (Validator.find_by WalletsCache.equivalent key (lapoos_ idx)),
            idx <| lapoos_ := Validator.set_by WalletsCache.equivalent key (Z.of_nat (length chain)) (lapoos_ idx) |>)
      else (pool_seq_ (getLastTransaction ids cache key), idx)) = (last_block key (length chain) chain, idx1) /\
      ti_db_ idx1 = ti_db_ idx /\ recreate_ idx1 = recreate_ idx /\
      (recreate_ idx0 = true -> lapoos_ idx1 = Validator.set_by WalletsCache.equivalent key (Z.of_nat (length chain)) (lapoos_ idx))) as (idx1 & -> & D1 & R1 & L1).
  { rewrite Hrec. destruct (recreate_ idx0) eqn:E.
    - eexists. split; [f_equal; rewrite Hlap by done; by rewrite decide_False|by split_and!].
    - exists idx. split_and!; try done. f_equal. unfold ready in Hr. rewrite E in Hr. by apply last_known_block, Hr. }
  rewrite (proj2 (Z.eqb_neq _ _)) by by apply last_block_lt. cbn [negb]. eexists _, _. split; [done|]. split; [split|].
  - apply Forall_app. split; [done|]. by constructor.
  - unfold setPrevTransBlock. cbn [upd recreate_]. by rewrite R1.
  - intros k n Hk' Hn. unfold setPrevTransBlock. cbn [upd ti_db_]. rewrite D1. destruct (decide (key = k /\ n = length chain)) as [[<- ->]|Hne].
    + rewrite lookup_insert_eq, decide_True; [done|]. split; [done|]. set_solver.
    + rewrite lookup_insert_ne by (intros E; apply entry_inj in E as [? ?]; [|done..]; apply Hne; split; [done|lia]).
      rewrite Hdb by done. apply decide_ext. split; intros [-> ?]; (split; [done|]); set_solver.
  - intros E. unfold setPrevTransBlock. cbn [upd lapoos_]. rewrite L1 by done. by apply set_by_keys, Hkeys.
  - intros k E Hk'. unfold setPrevTransBlock. cbn [upd lapoos_]. rewrite L1, find_set_by by auto. destruct (decide (key = k)) as [<-|Hne].
    + rewrite decide_True by set_solver. done.
    + rewrite Hlap by done. apply decide_ext. set_solver.
  - intros k. set_solver.
Qed.

Lemma index_all trxs seen idx :
  (forall t, t ∈ trxs -> t ∈ Pool.transactions_ p) -> indexing seen idx ->
  exists seen' idx', foldl (fun st t => index_address ids cache p (target_ t) (index_address ids cache p (source_ t) st)) (seen, idx) trxs = (seen', idx') /\
    indexing seen' idx' /\ forall key, key ∈ seen' <-> key ∈ seen \/ existsb (involved key) trxs = true.
Proof.
  revert seen idx. induction trxs as [|t trxs IH]; intros seen idx Hin Hx; cbn [foldl existsb].
  - exists seen, idx. split; [done|]. split; [done|]. intros key. split; [by left|]. by intros [?|?].
  - destruct (good_keys _ _ last_good t) as [K1 K2]; [apply Hin; by left|].
    destruct (index_address_step (source_ t) seen idx K1 Hx) as (s1 & i1 & -> & H1 & S1).
    destruct (index_address_step (target_ t) s1 i1 K2 H1) as (s2 & i2 & -> & H2 & S2).
    destruct (IH s2 i2) as (s3 & i3 & -> & H3 & S3); [intros u Hu; apply Hin; by right|done|]. exists s3, i3. split; [done|]. split; [done|].
    intros key. rewrite S3, S2, S1, orb_true_iff. unfold involved at 2. rewrite orb_true_iff, !bool_decide_eq_true. naive_solver.
Qed.

Lemma update_next :
  indexed (updateFromNextBlock ids cache p idx0) (chain ++ [p]) /\ recreate_ (updateFromNextBlock ids cache p idx0) = recreate_ idx0 /\
  lastIndexedPool_ (updateFromNextBlock ids cache p idx0) = Z.of_nat (length chain) /\
  (recreate_ idx0 = true -> forall cache', ready cache' (updateFromNextBlock ids cache p idx0) (chain ++ [p])).
Proof.
  destruct (index_all (Pool.transactions_ p) [] idx0) as (seen & idx & E & [Hseen Hrec Hdb Hkeys Hlap] & Hs); [done|apply indexing_start|].
  assert (forall key, key ∈ seen <-> in_block key p = true) as Hs' by (intros key; rewrite Hs, elem_of_nil; unfold in_block; tauto).
  unfold updateFromNextBlock. rewrite E. cbn [snd]. unfold updateLastIndexed. cbn [upd ti_db_ recreate_ lastIndexedPool_ lapoos_].
  split_and!; [|done|by rewrite (good_sequence _ _ last_good)|].
  - intros key Hk n Hn. cbn [upd ti_db_]. rewrite Hdb, entry_app by done. specialize (Hs' key).
    destruct (decide (n = length chain)) as [->|Hne]; [|by rewrite decide_False by naive_solver].
    destruct (in_block key p); [by rewrite decide_True by naive_solver|]. rewrite decide_False by naive_solver.
    unfold entry. by rewrite lookup_ge_None_2.
  - intros Er cache'. unfold ready. cbn [upd recreate_ lapoos_]. rewrite Hrec, Er. split; [by apply Hkeys|]. intros key Hk. rewrite Hlap by done.
    rewrite length_app. cbn [length]. rewrite Nat.add_1_r. cbn [last_block]. rewrite lookup_app_r, Nat.sub_diag by lia. cbn [lookup list_lookup].
    rewrite last_block_app by lia. specialize (Hs' key). destruct (in_block key p); case_decide; naive_solver.
Qed.
End next_block.

Lemma good_init chain p : good_chain (chain ++ [p]) -> good_chain chain.
Proof.
  intros [Hb Hl]. rewrite length_app in Hl. cbn in Hl. split; [|lia]. intros n q Hq. apply Hb. by apply lookup_app_l_Some.
Qed.

(** C15: A new block keeps the index: when its entries are those of the chain, and the block
    before of every address is known, from the cache of the wallets or while the index is created
    anew, then the entries after update are those of the chain with the block, and an index that
    is created anew knows the block before of every address again. *)
Theorem update_indexes cache chain p idx :
  good_chain (chain ++ [p]) -> indexed idx chain -> ready cache idx chain ->
  indexed (update ids cache p idx) (chain ++ [p]) /\ lastIndexedPool_ (update ids cache p idx) = Z.of_nat (length chain) /\
  (recreate_ idx = true -> forall cache', ready cache' (update ids cache p idx) (chain ++ [p])).
Proof.
  intros Hg Hi Hr. destruct (update_next cache chain p idx Hg (good_init _ _ Hg) Hi Hr) as (H1 & _ & H2 & H3). by split_and!.
Qed.

(** *** Reading the chain *)

Lemma reading_indexes reads done idx :
  good_chain (done ++ map snd reads) -> done <> [] -> recreate_ idx = true -> indexed idx done -> (forall cache, ready cache idx done) ->
  let idx' := foldl (fun idx r => onReadFromDb ids r.1 r.2 idx) idx reads in recreate_ idx' = true /\ indexed idx' (done ++ map snd reads).
Proof.
  revert done idx. induction reads as [|[cache p] reads IH]; intros done idx Hg Hne Er Hi Hr; cbn [foldl map fst snd] in *; [by rewrite app_nil_r|].
  rewrite cons_middle, app_assoc in Hg |- *. assert (good_chain (done ++ [p])) as Hg1.
  { destruct Hg as [Hb Hl]. rewrite length_app in Hl. split; [|lia]. intros n q Hq. apply Hb. by apply lookup_app_l_Some. }
  assert (Pool.sequence_ p <> 0) as Hs.
  { rewrite (good_sequence (length done) p); [by destruct done|]. apply (good_blocks _ Hg1). by rewrite lookup_app_r, Nat.sub_diag by lia. }
  assert (onReadFromDb ids cache p idx = updateFromNextBlock ids cache p idx) as ->.
  { unfold onReadFromDb. rewrite (proj2 (Z.eqb_neq _ _) Hs). cbn [andb]. by rewrite Er. }
  destruct (update_next cache done p idx Hg1 (good_init _ _ Hg1) Hi (Hr cache)) as (H1 & H2 & _ & H3).
  apply (IH (done ++ [p])); [done|by destruct done|congruence|done|by apply H3].
Qed.

Lemma recreated_indexed reads idx :
  good_chain (map snd reads) -> reads <> [] -> recreate_ idx = true -> lapoos_ idx = [] ->
  indexed (onDbReadFinished (foldl (fun idx r => onReadFromDb ids r.1 r.2 idx) idx reads)) (map snd reads).
Proof.
  intros Hg Hne Er Hlap. destruct reads as [|[cache p] reads]; [done|]. cbn [foldl map fst snd] in *.
  assert (good_chain [p]) as Hg1.
  { destruct Hg as [Hb Hl]. cbn in Hl. split; [|cbn; lia]. intros [|n] q Hq; [by apply (Hb 0%nat)|done]. }
  assert (indexed (onReadFromDb ids cache p idx) [p] /\ recreate_ (onReadFromDb ids cache p idx) = true /\
    forall cache', ready cache' (onReadFromDb ids cache p idx) [p]) as (H1 & H2 & H3).
  { assert (onReadFromDb ids cache p idx = updateFromNextBlock ids cache p (idx <| ti_db_ := ∅ |>)) as ->.
    { unfold onReadFromDb. rewrite (good_sequence 0 p) by by apply (good_blocks _ Hg1). rewrite Er. unfold reset. change ((Z.of_nat 0 =? 0) && true) with true. cbn [upd recreate_]. by rewrite Er. }
    destruct (update_next cache [] p (idx <| ti_db_ := ∅ |>) Hg1) as (H1 & H2 & _ & H3).
    - by apply (good_init [] p).
    - intros key Hk n Hn. cbn [upd ti_db_]. by rewrite lookup_empty.
    - unfold ready. cbn [upd recreate_ lapoos_]. rewrite Er, Hlap. by split; [constructor|].
    - split; [done|]. split; [by rewrite H2|]. by apply H3. }
  destruct (reading_indexes reads [p] (onReadFromDb ids cache p idx)) as [E1 E2]; [done..|].
  unfold onDbReadFinished. rewrite E1. exact E2.
Qed.

(** C14: An index that is created anew while the chain is read makes getTransactions give all
    transactions of an address: when the cache knows the last one, the result is the address's
    transactions in the chain, the newest first, without the first [offset] ones and no more than
    [limit], where a limit of 0 counts as 2^64 and gives all of them; a step for each of them is
    enough for the walk to end. *)
Theorem recreated_index_lists_history loadBlock autoShutdownEnabled reads idx cache addr offset limit fuel :
  let chain := map snd reads in
  let l := history (key_of addr) (length chain) chain in
  let idx' := onDbReadFinished (foldl (fun idx r => onReadFromDb ids r.1 r.2 idx) idx reads) in
  good_chain chain -> reads <> [] -> recreate_ idx = true -> lapoos_ idx = [] -> loads loadBlock (length chain) chain ->
  is_key (key_of addr) -> last_known cache (key_of addr) chain -> (length l < fuel)%nat -> 0 <= offset -> 0 <= limit < 2 ^ 64 ->
  getTransactions ids cache loadBlock autoShutdownEnabled fuel addr offset limit idx' =
    ret (map timed (take (Z.to_nat (counted limit)) (drop (Z.to_nat offset) l)), idx').
Proof.
  intros chain l idx' Hg Hne Er Hlap Hl Hk Hlast Hf Ho Hlim. pose proof (recreated_indexed reads idx Hg Hne Er Hlap) as Hi.
  unfold getTransactions. destruct (from_last_head loadBlock cache addr chain Hg Hk Hl Hlast) as (i & -> & Hat). cbn [mthen ret].
  by apply (transactions_loop_spec _ _ _ _ _ (key_of addr) i l idx' chain); try done; apply Hi.
Qed.

(** *** A removed block *)

(** The id of the last transaction of a key below [n] *)
Definition last_id key (n : nat) chain : TransactionID :=
  match history key n chain with (_, t) :: _ => id_ t | [] => mkTransactionID kWrongSequence kWrongSequence end.

Lemma update_last key (seen : list Address) (f : Address -> TransactionID) c :
  is_key key -> Forall is_key seen ->
  WalletsCache.findWallet (public_key key) (WalletsCache.updateLastTransactions (map (fun k => (public_key k, f k)) seen) c) =
    (fun w => if decide (key ∈ seen) then w <| lastTransaction_ := f key |> else w) <$> WalletsCache.findWallet (public_key key) c.
Proof.
  intros Hk Hs. revert c. induction Hs as [|k seen Hk' _ IH]; intros c; cbn [map WalletsCache.updateLastTransactions fst snd].
  { destruct (WalletsCache.findWallet _ c) as [w|]; [|done]. cbn. by rewrite decide_False by apply not_elem_of_nil. }
  rewrite IH. unfold WalletsCache.findWallet. destruct (wallets_ c !! public_key k) as [w|] eqn:Ew.
  - cbn [upd wallets_]. destruct (decide (k = key)) as [->|Hne].
    + rewrite lookup_insert_eq, Ew. cbn [fmap option_fmap option_map]. f_equal. rewrite (decide_True (P := key ∈ key :: seen)) by (by left). by case_decide; destruct w.
    + rewrite lookup_insert_ne by (intros E; apply Hne; by apply key_ext). destruct (wallets_ c !! public_key key); [|done]. cbn [fmap option_fmap option_map]. f_equal.
      apply decide_ext. set_solver.
  - destruct (wallets_ c !! public_key key) as [w|] eqn:Ew'; [|done]. cbn [fmap option_fmap option_map]. f_equal. apply decide_ext. rewrite elem_of_cons.
    split; [by right|]. intros [->|?]; [congruence|done].
Qed.

Section removal.
Context (cache : Cache) (loadBlock : Z -> Pool.priv) (autoShutdownEnabled : bool) (chain : list Pool.priv) (p : Pool.priv).
Context (Hg : good_chain (chain ++ [p])) (Hl : loads loadBlock (length chain) chain).

Lemma removed_good : good_block (length chain) p.
Proof. apply (good_blocks _ Hg). by rewrite lookup_app_r, Nat.sub_diag by lia. Qed.

Lemma removed_loads n : (chain ++ [p]) !! n = Some p -> loads loadBlock n (chain ++ [p]).
Proof.
  intros Hn. assert (n = length chain) as ->.
  { pose proof (good_sequence _ _ (good_blocks _ Hg n p Hn)). pose proof (good_sequence _ _ removed_good). lia. }
  split; [|apply Hl]. intros m q Hm Hq. rewrite lookup_app_l in Hq by done. by apply Hl.
Qed.

(** The walk through the removed block's own transactions *)
Lemma earlier_spec fuel key k i idx :
  indexed_for key idx (chain ++ [p]) -> is_key key -> at_list key (chain ++ [p]) i (of_block key p k ++ history key (length chain) chain) ->
  (lapoo_ i = p \/ of_block key p k = []) -> (k < fuel)%nat -> (k <= length (Pool.transactions_ p))%nat ->
  earlier ids loadBlock autoShutdownEnabled fuel (Z.of_nat (length chain)) i idx =
    ret (match history key (length chain) chain with (_, t) :: _ => Some (id_ t) | [] => None end, idx).
Proof.
  intros Hi Hk. revert k i. induction fuel as [|fuel IH]; intros k i Hat Hp Hf Hkl; [lia|]. cbn [earlier]. rewrite (at_list_valid _ _ _ _ Hg Hat).
  destruct (of_block key p k) as [|[q t] l] eqn:Eb.
  - cbn [app] in *. destruct (history key (length chain) chain) as [|[q t] l] eqn:Eh; [done|]. rewrite bool_decide_false by done. cbn [negb].
    destruct (at_list_deref _ _ _ _ _ Hat) as [-> _]. cbn [mthen ret snd].
    destruct (history_head _ _ _ _ _ _ (good_init _ _ Hg) Hk Eh) as (m & j & Hm & Hq & Ht & _).
    rewrite (good_ids _ _ (good_blocks _ (good_init _ _ Hg) m q Hq) j t Ht). cbn [pool_seq_]. by rewrite (proj2 (Z.ltb_lt _ _)) by lia.
  - cbn [app] in *. rewrite bool_decide_false by done. cbn [negb]. destruct (at_list_deref _ _ _ _ _ Hat) as [-> _]. cbn [mthen ret snd].
    pose proof removed_good as Gp. destruct (scan_spec _ p key k Gp Hk Hkl) as [[_ E]|(j & u & _ & Hj & Eu & Hu & E)]; [congruence|].
    rewrite Eb in E. injection E as -> -> ->. rewrite (good_ids _ _ Gp j u Eu). cbn [pool_seq_]. rewrite (proj2 (Z.ltb_ge _ _)) by lia.
    destruct Hp as [Hp|]; [|done].
    destruct (next_goes loadBlock autoShutdownEnabled (S fuel) key i _ _ idx _ Hg Hi Hk Hat ltac:(lia)) as (i' & -> & Hat').
    { rewrite Hp. apply removed_loads. }
    cbn [mthen ret]. apply (IH j); [done| |lia|lia]. destruct (of_block key p j) as [|y l'] eqn:Ej; [by right|left].
    destruct Hat' as (_ & n & k' & Hn & _ & _ & Ex & _). cbn [app] in *.
    assert (y.1 = p) as <-; [|done]. assert (y ∈ of_block key p j) as Hy by (rewrite Ej; by left).
    unfold of_block in Hy. by apply list_elem_of_In, in_map_iff in Hy as (v & <- & _).
Qed.

Lemma from_pool_head addr : is_key (key_of addr) -> in_block (key_of addr) p = true ->
  addr_ (from_pool ids addr p) = key_of addr /\ lapoo_ (from_pool ids addr p) = p /\
  at_list (key_of addr) (chain ++ [p]) (from_pool ids addr p)
    (of_block (key_of addr) p (length (Pool.transactions_ p)) ++ history (key_of addr) (length chain) chain).
Proof.
  intros Hk Hin. pose proof removed_good as Gp. unfold from_pool.
  destruct (scan_spec _ p (key_of addr) _ Gp Hk (le_n _)) as [[_ E]|(k & t & -> & Hlt & Et & Hi & ->)].
  - by destruct (of_block_in _ p (key_of addr) Gp Hin).
  - cbn [Nat.eqb]. split; [done|]. split; [done|]. split; [done|]. exists (length chain), k. cbn [lapoo_ it_ fst snd].
    split_and!; try done; [by rewrite lookup_app_r, Nat.sub_diag by lia|]. by rewrite history_app by lia.
Qed.

(** The state after the addresses [seen] *)
Record removing (seen : list Address) (updates : list (bytes * TransactionID)) idx : Prop := {
  removing_seen : Forall is_key seen;
  removing_last : lastIndexedPool_ idx = Z.of_nat (length chain);
  removing_db key (n : nat) : is_key key -> in_u 64 (Z.of_nat n) ->
    ti_db_ idx !! getTrxIndexKey (public_key key) (Z.of_nat n) =
      if decide (n = length chain /\ key ∈ seen) then None else entry key n (chain ++ [p]);
  removing_updates : updates = map (fun key => (public_key key, last_id key (length chain) chain)) seen
}.

Lemma remove_address_step fuel addr seen updates idx :
  is_key (key_of addr) -> in_block (key_of addr) p = true -> (length (Pool.transactions_ p) < fuel)%nat -> removing seen updates idx ->
  exists seen' updates' idx', remove_address ids loadBlock autoShutdownEnabled fuel p (Z.of_nat (length chain)) addr (seen, updates, idx) = ret (seen', updates', idx') /\
    removing seen' updates' idx' /\ forall key, key ∈ seen' <-> key ∈ seen \/ key = key_of addr.
Proof.
  intros Hk Hin Hf Hx. pose proof Hx as [Hseen Hlast Hdb ->]. unfold remove_address. rewrite contains_keys by done. case_bool_decide as Hc.
  { eexists _, _, _. split; [done|]. split; [done|]. intros key. split; [by left|]. by intros [Hs|Hs]; [|rewrite Hs]. }
  destruct (from_pool_head addr Hk Hin) as (_ & Ep & Hat).
  rewrite (earlier_spec fuel (key_of addr) (length (Pool.transactions_ p))); [|..|exact Hat|by left|done|done]; [|intros n Hn; rewrite Hdb by done; by rewrite decide_False by naive_solver|done].
  cbn [mthen ret]. eexists _, _, _. split; [done|]. split; [split|].
  - apply Forall_app. split; [done|]. by constructor.
  - done.
  - intros k n Hk' Hn. unfold removeLastTransBlock. cbn [upd ti_db_]. destruct (decide (key_of addr = k /\ n = length chain)) as [[<- ->]|Hne].
    + rewrite lookup_delete_eq, decide_True; [done|]. split; [done|]. set_solver.
    + assert (in_u 64 (Z.of_nat (length chain))) as Hplace by (pose proof (good_length _ (good_init _ _ Hg)); unfold in_u, kWrongSequence in *; lia).
      rewrite lookup_delete_ne by (intros E; apply entry_inj in E as [? ?]; [|done..]; apply Hne; split; [done|lia]).
      rewrite Hdb by done. apply decide_ext. split; intros [-> ?]; (split; [done|]); set_solver.
  - rewrite map_app. cbn [map]. unfold last_id. do 3 f_equal. by destruct (history (key_of addr) (length chain) chain) as [|[q t] l].
  - intros k. set_solver.
Qed.

Lemma remove_all fuel trxs seen updates idx :
  (forall t, t ∈ trxs -> t ∈ Pool.transactions_ p) -> (length (Pool.transactions_ p) < fuel)%nat -> removing seen updates idx ->
  exists seen' updates' idx', mfold (fun t st =>
      do! st := remove_address ids loadBlock autoShutdownEnabled fuel p (lastIndexedPool_ st.2) (source_ t) st in
      remove_address ids loadBlock autoShutdownEnabled fuel p (lastIndexedPool_ st.2) (target_ t) st) trxs (seen, updates, idx) = ret (seen', updates', idx') /\
    removing seen' updates' idx' /\ forall key, key ∈ seen' <-> key ∈ seen \/ existsb (involved key) trxs = true.
Proof.
  revert seen updates idx. induction trxs as [|t trxs IH]; intros seen updates idx Hin Hf Hx; cbn [mfold existsb].
  - eexists _, _, _. split; [done|]. split; [done|]. intros key. split; [by left|]. by intros [?|?].
  - assert (t ∈ Pool.transactions_ p) as Ht by (apply Hin; by left). destruct (good_keys _ _ removed_good t Ht) as [K1 K2].
    assert (forall key, involved key t = true -> in_block key p = true) as Hb by (intros key Hi; apply existsb_exists; exists t; split; [by apply list_elem_of_In|done]).
    destruct (remove_address_step fuel (source_ t) seen updates idx K1) as (s1 & u1 & i1 & E1 & H1 & S1); [apply Hb; unfold involved; by rewrite bool_decide_true|done..|].
    destruct (remove_address_step fuel (target_ t) s1 u1 i1 K2) as (s2 & u2 & i2 & E2 & H2 & S2); [apply Hb; unfold involved; by rewrite (bool_decide_true (_ (target_ t) = _)), orb_true_r|done..|].
    cbn [snd]. rewrite (removing_last _ _ _ Hx), E1. cbn [mthen ret snd]. rewrite (removing_last _ _ _ H1), E2. cbn [mthen ret].
    destruct (IH s2 u2 i2) as (s3 & u3 & i3 & -> & H3 & S3); [intros v Hv; apply Hin; by right|done..|]. eexists _, _, _. split; [done|]. split; [done|].
    intros key. rewrite S3, S2, S1, orb_true_iff. unfold involved at 2. rewrite orb_true_iff, !bool_decide_eq_true. naive_solver.
Qed.

End removal.

(** C16: Removing the last block takes the index and the last transactions back: when the entries
    are those of the chain with the block, onRemoveBlock gives those of the chain without it, and
    the cache, where it knew the last transaction of an address before, knows the last one that is
    left. *)
Theorem removal_restores cache loadBlock autoShutdownEnabled fuel chain p idx :
  good_chain (chain ++ [p]) -> loads loadBlock (length chain) chain -> indexed idx (chain ++ [p]) ->
  lastIndexedPool_ idx = Z.of_nat (length chain) -> (length (Pool.transactions_ p) < fuel)%nat ->
  exists idx' cache', onRemoveBlock ids cache loadBlock autoShutdownEnabled fuel p idx = ret (idx', cache') /\
    indexed idx' chain /\ lastIndexedPool_ idx' = u64 (Z.of_nat (length chain) - 1) /\
    forall key, is_key key -> last_known cache key (chain ++ [p]) -> last_known cache' key chain.
Proof.
  intros Hg Hl Hi Hlast Hf. unfold onRemoveBlock.
  destruct (remove_all loadBlock autoShutdownEnabled chain p Hg Hl fuel (Pool.transactions_ p) [] [] idx) as (seen & updates & idx1 & E & [Hseen H1 H2 ->] & Hs); [done|done| |].
  { split; try done. intros key n Hk Hn. rewrite decide_False by (intros [_ ?%elem_of_nil]; done). by apply (Hi key Hk). }
  rewrite E. cbn [mthen ret]. eexists _, _. split; [done|]. unfold updateLastIndexed. split_and!; [|cbn [upd lastIndexedPool_]; by rewrite H1|].
  - intros key Hk n Hn. cbn [upd ti_db_]. rewrite H2, entry_app by done. specialize (Hs key). rewrite elem_of_nil in Hs. fold (in_block key p) in Hs.
    destruct (decide (n = length chain)) as [->|Hne]; [|by rewrite decide_False by naive_solver].
    assert (entry key (length chain) chain = None) as -> by (unfold entry; by rewrite lookup_ge_None_2).
    destruct (in_block key p); [by rewrite decide_True by naive_solver|by rewrite decide_False by naive_solver].
  - intros key Hk Hknown. unfold last_known, getLastTransaction in *. rewrite (key_of_key key Hk) in *.
    rewrite (update_last key seen (fun k => last_id k (length chain) chain)) by done.
    rewrite length_app in Hknown. cbn [length] in Hknown. rewrite Nat.add_1_r in Hknown. cbn [history] in Hknown.
    rewrite lookup_app_r, Nat.sub_diag in Hknown by lia. cbn [lookup list_lookup] in Hknown. rewrite history_app in Hknown by lia.
    specialize (Hs key). rewrite elem_of_nil in Hs. fold (in_block key p) in Hs.
    destruct (WalletsCache.findWallet (public_key key) cache) as [w|]; cbn [fmap option_fmap option_map].
    + destruct (decide (key ∈ seen)) as [Hin|Hin].
      * cbn [upd lastTransaction_]. unfold last_id. by destruct (history key (length chain) chain) as [|[q t] l].
      * assert (of_block key p (length (Pool.transactions_ p)) = []) as Eb.
        { destruct (of_block key p _) eqn:Eb; [done|]. exfalso. apply Hin, Hs. right. eapply (of_block_nonempty _ p key); [by apply removed_good|]. by rewrite Eb. }
        rewrite Eb in Hknown. exact Hknown.
    + destruct (of_block key p (length (Pool.transactions_ p))) as [|[q t] l] eqn:Eb; [exact Hknown|]. exfalso. cbn [app] in Hknown.
      pose proof (removed_good chain p Hg) as Gp.
      destruct (scan_spec _ p key _ Gp Hk (le_n _)) as [[_ E1]|(k & u & _ & _ & Eu & _ & E1)]; [congruence|].
      rewrite Eb in E1. injection E1 as -> -> _. rewrite (good_ids _ _ Gp k u Eu) in Hknown. injection Hknown as E2 _.
      pose proof (good_length _ (good_init _ _ Hg)). lia.
Qed.
End spec.
End IndexSpec.

(** ** Witnesses *)

(** Two blocks: a payment to a wallet, and two more; the first payer is also written with its wallet id. *)
Definition index_payment (inner : Z) (source target : Address) : Transaction := Tx.make inner source target 1 (of_int 5) 10 20 (replicate 64 0).
Definition index_block (n : Z) (trxs : list Transaction) : Pool.priv :=
  Pool.make (replicate 32 n) n 0 <| Pool.transactions_ := Pool.number_transactions n trxs |>.
Definition index_0 : Pool.priv := index_block 0 [index_payment 1 (sample_public 50) (sample_public 9)].
Definition index_1 : Pool.priv :=
  index_block 1 [index_payment 2 (Address.from_wallet_id 0) (sample_public 7); index_payment 1 (sample_public 9) (sample_public 50)].
Definition index_chain : list Pool.priv := [index_0; index_1].

(** The cache after the two blocks, and an index that is to be created anew *)
Definition index_cache : Cache :=
  foldl (fun c x => WalletsCache.touch (le_bytes 32 x.1) (fun w => w <| lastTransaction_ := mkTransactionID 1 x.2 |>) c) WalletsCache.new_cache [(50, 1); (9, 1); (7, 0)].
Definition new_index : TransactionsIndex := TrxIndex.make true None true 0 ∅.
Definition index_load (n : Z) : Pool.priv := if n =? 0 then index_0 else if n =? 1 then index_1 else Pool.default.

#[local] Abbreviation reads := (map (fun p => (WalletsCache.new_cache, p)) index_chain).

Lemma index_chain_good : IndexSpec.good_chain sample_ids index_chain.
Proof.
  split; [|done]. intros [|[|n]] p E; [injection E as <-..|done].
  - split; [done|done| |].
    + intros [|k] t Et; [by injection Et as <-|done].
    + intros t Ht. apply list_elem_of_singleton in Ht as ->. by split; split; vm_compute.
  - split; [done|done| |].
    + intros [|[|k]] t Et; [by injection Et as <-..|done].
    + intros t Ht. apply elem_of_cons in Ht as [->|Ht%list_elem_of_singleton]; [|subst t]; by split; split; vm_compute.
Qed.

Lemma index_loads n : (n <= 2)%nat -> IndexSpec.loads index_load n index_chain.
Proof. intros Hn. split; [|done]. intros [|[|m]] p Hm E; [by injection E as <-..|done]. Qed.

Lemma index_last k : k = 50 \/ k = 9 \/ k = 7 -> IndexSpec.last_known sample_ids index_cache (sample_public k) index_chain.
Proof. intros [-> | [-> | ->]]; vm_compute; reflexivity. Qed.

Lemma recreated_index_lists_history_witness :
  exists l idx, TrxIndex.getTransactions sample_ids index_cache index_load false 4 (Address.from_wallet_id 0) 0 10
    (TrxIndex.onDbReadFinished (foldl (fun idx r => TrxIndex.onReadFromDb sample_ids r.1 r.2 idx) new_index reads)) = ret (l, idx) /\
    map innerID_ l = [1; 2; 1].
Proof.
  eexists _, _. split.
  - apply (IndexSpec.recreated_index_lists_history sample_ids index_load false reads new_index index_cache (Address.from_wallet_id 0) 0 10 4).
    + exact index_chain_good.
    + discriminate.
    + reflexivity.
    + reflexivity.
    + by apply index_loads.
    + by split; vm_compute.
    + apply (index_last 50). by left.
    + apply Nat.ltb_lt. vm_compute. reflexivity.
    + lia.
    + lia.
  - vm_compute. reflexivity.
Defined.

(** The index of the first block, while the cache knows its transaction *)
Definition first_cache : Cache :=
  foldl (fun c k => WalletsCache.touch (le_bytes 32 k) (fun w => w <| lastTransaction_ := mkTransactionID 0 0 |>) c) WalletsCache.new_cache [50; 9].
Definition first_index : TransactionsIndex := TrxIndex.onReadFromDb sample_ids WalletsCache.new_cache index_0 new_index.
Definition both_index : TransactionsIndex := TrxIndex.onReadFromDb sample_ids first_cache index_1 first_index.

Lemma first_indexed : IndexSpec.indexed sample_ids first_index [index_0] /\ IndexSpec.ready sample_ids first_cache first_index [index_0].
Proof.
  destruct (IndexSpec.update_next sample_ids WalletsCache.new_cache [] index_0 (new_index <| ti_db_ := ∅ |>)) as (H1 & _ & _ & H3).
  - apply (IndexSpec.good_init sample_ids [index_0] index_1). exact index_chain_good.
  - apply (IndexSpec.good_init sample_ids [] index_0), (IndexSpec.good_init sample_ids [index_0] index_1). exact index_chain_good.
  - intros key Hk n Hn. cbn [upd ti_db_]. by rewrite lookup_empty.
  - split; [constructor|done].
  - split; [exact H1|by apply H3].
Qed.

Lemma update_indexes_witness :
  IndexSpec.indexed sample_ids (TrxIndex.update sample_ids first_cache index_1 first_index) index_chain /\
  lastIndexedPool_ (TrxIndex.update sample_ids first_cache index_1 first_index) = 1.
Proof.
  destruct (IndexSpec.update_indexes sample_ids first_cache [index_0] index_1 first_index index_chain_good) as (H1 & H2 & _);
    [exact (proj1 first_indexed)|exact (proj2 first_indexed)|]. split; [exact H1|exact H2].
Defined.

Lemma both_indexed : IndexSpec.indexed sample_ids both_index index_chain.
Proof.
  destruct (IndexSpec.update_next sample_ids first_cache [index_0] index_1 first_index) as (H1 & _);
    [exact index_chain_good|apply (IndexSpec.good_init sample_ids [index_0] index_1); exact index_chain_good|exact (proj1 first_indexed)|exact (proj2 first_indexed)|exact H1].
Qed.

Lemma removal_restores_witness :
  exists idx cache, TrxIndex.onRemoveBlock sample_ids index_cache index_load false 3 index_1 both_index = ret (idx, cache) /\
    IndexSpec.indexed sample_ids idx [index_0] /\ lastIndexedPool_ idx = 0 /\ IndexSpec.last_known sample_ids cache (sample_public 50) [index_0].
Proof.
  destruct (IndexSpec.removal_restores sample_ids index_cache index_load false 3 [index_0] index_1 both_index index_chain_good) as (idx & cache & E & H1 & H2 & H3).
  - split; [|done]. intros [|m] p Hm E; [by injection E as <-|cbn in Hm; lia].
  - exact both_indexed.
  - reflexivity.
  - cbn. lia.
  - exists idx, cache. split; [exact E|]. split; [exact H1|]. split; [exact H2|]. apply H3; [by split; vm_compute|]. apply (index_last 50). by left.
Defined.
