(* ===== verification/IterValidator.v ===== *)
(** * The validation of a round's transactions ([csnode/src/itervalidator.cpp],
      [csnode/include/csnode/itervalidator.hpp])

    [formCharacteristic]: the signatures of all transactions, the fees, one pass
    of the validator over them, the removal of those that bring a wallet below
    zero, and the contracts whose new states are rejected.  The result is the
    mask of reject reasons and the executions to reject; [normalizeCharacteristic]
    makes it the bytes of the characteristic.

    The contracts' table (known and closed addresses, deployments, payable
    targets) and the Thrift decoder of invocations are parameters. *)

From Stdlib Require Import ZArith Lia Floats.SpecFloat.
From stdpp Require Import base tactics numbers option list gmap.
From S2P Require Import Prelude Effect BinStream Amount UserField Crypto DataStream Address Transaction Packet Double Pool.
From S2P Require Import ContractRef Fee Tail WalletsIds AmountMod WalletsCache Chain Validator.

Local Open Scope Z_scope.
Local Open Scope cs_scope.

Import Contracts.

(** The parts of [api::SmartContractInvocation] that the validator reads. *)
Record Invocation := mkInvocation { method : bytes; byteCodeObjects : list bytes }.

(** The byte of a reason in the mask *)
Definition reason_byte (r : Reason) : Z :=
  match r with
  | None_ => 0 | WrongSignature => 1 | InsufficientMaxFee => 2 | NegativeResult => 3 | SourceIsTarget => 4 | DisabledInnerID => 5
  | DuplicatedInnerID => 6 | MalformedContractAddress => 7 | MalformedTransaction => 8 | ContractClosed => 9
  | NewStateOutOfFee => 10 | EmittedOutOfFee => 11 | CompleteReject => 12 | LimitExceeded => 13
  end.

(** [SimpleValidator::RejectCode] *)
Inductive RejectCode : Set :=
  | kAllCorrect | kInsufficientBalance | kWrongSignature | kInsufficientMaxFee | kSourceDoesNotExists | kTooLarge
  | kContractViolation.

(** [Consensus::MaxTransactionSize] *)
Definition MaxTransactionSize : Z := 100 * 1024.

(** [pTransval_] and [smartSourceInvalidSignatures_] *)
Record IterState := mkIter { val_ : State; invalid_ : list Address }.
#[global] Instance eta_iter : Eta IterState := fun s => mkIter (val_ s) (invalid_ s).

Module IterValidator.

(** [normalizeCharacteristic] *)
Definition normalizeCharacteristic (mask : bytes) : bytes := map (fun item => if item =? reason_byte None_ then 1 else 0) mask.

(** [std::set<csdb::Address>::find] and [insert] *)
Definition in_set (a : Address) (l : list Address) : bool := existsb (WalletsCache.equivalent a) l.
Definition insert_set (a : Address) (l : list Address) : list Address := if in_set a l then l else a :: l.

Section itervalidator.
Context `{!Cscrypto, !Libm} {D : Type} `{!MultiIndex D} (ids : WalletsIds D) (loadBlock : Z -> Pool.priv) (cache : Cache).
Context (known closed : Address -> bool).
(** the Thrift decoder; [find_deploy_info] and [is_payable_target] of the contracts *)
Context (deserialize : bytes -> Invocation) (find_deploy_info : Address -> option Invocation) (is_payable_target : Transaction -> bool).

Definition invocation_method (data : bytes) : bytes := method (deserialize data).

(** [SmartContracts::get_smart_contract] *)
Definition get_smart_contract (tr : Transaction) : option Invocation :=
  let smart := is_smart_contract tr in
  let is_replenish_contract := if smart then false else is_payable_target tr in
  if negb smart && negb is_replenish_contract then None
  else
    let abs_addr := Validator.absolute_address ids (target_ tr) in
    if is_new_state tr || is_replenish_contract then find_deploy_info abs_addr
    else
      let fld := Tx.user_field deploy_Code tr in
      if uf_is_valid fld then
        let data := value_string fld in
        if bool_decide (data <> []) then
          let invoke := deserialize data in
          if bool_decide (method invoke = []) then Some invoke
          else match find_deploy_info abs_addr with
               | Some deploy => Some (mkInvocation (method invoke) (byteCodeObjects deploy))
               | None => None
               end
        else None
      else None.

(** [SmartContracts::get_valid_smart_address] *)
Definition kInnerIdSize : nat := 6.
Definition get_valid_smart_address (deployer : Address) (trId : Z) (code : list bytes) : Address :=
  let strToHash := Address.public_key deployer ++ le_bytes kInnerIdSize (u64 trId) ++ concat code in
  let hash := calculateHash strToHash in
  Address.from_public_key (hash ++ replicate (kPublicKeySize - length hash) 0).

(** [deployAdditionalCheck] *)
Definition deployAdditionalCheck (transaction : Transaction) : Reason :=
  match get_smart_contract transaction with
  | Some sci =>
      if bool_decide (method sci = []) then
        let deployer_abs_addr := Validator.absolute_address ids (source_ transaction) in
        let contract_addr := get_valid_smart_address deployer_abs_addr (innerID_ transaction) (byteCodeObjects sci) in
        if negb (Address.op_eq contract_addr (target_ transaction)) then MalformedContractAddress else None_
      else None_
  | None => None_
  end.

(** *** Signatures *)

(** [cscrypto::verifySignature] of the hash of a packet: it reads [kHashSize] bytes. *)
Definition verify_hash (signature key hash : bytes) : M bool :=
  if (length hash <? kHashSize)%nat then None else ret (verifySignature signature key (take kHashSize hash)).

(** The loop over the signatures of a packet. *)
Fixpoint count_signatures (confidants : list bytes) (hash : bytes) (signatures : list (Z * bytes)) (correct : Z) : M Z :=
  match signatures with
  | [] => ret correct
  | (i, signature) :: signatures =>
      if i <? Z.of_nat (length confidants) then
        do! key := index confidants (Z.to_nat i) in
        do! ok := verify_hash signature key hash in
        count_signatures confidants hash signatures (if ok : bool then correct + 1 else correct)
      else count_signatures confidants hash signatures correct
  end.

(** One packet of [checkSignaturesSmartSource] *)
Definition check_packet (p : TransactionsPacket) (invalid : list Address) : M (list Address) :=
  match Packet.transactions_ p with
  | [] => ret invalid
  | transaction :: _ =>
      (** [new_state::RefStart] or [smart_gen::RefStart] *)
      do! smartRef := lift (Ref.from_user_field
        (Tx.user_field (if is_new_state transaction then new_state_RefStart else smart_gen_RefStart) transaction)) in
      if negb (Ref.is_valid smartRef) then ret (insert_set (source_ transaction) invalid)
      else
        let poolWithInitTr := loadBlock (sequence smartRef) in
        if negb (Pool.is_valid_ poolWithInitTr) then ret (insert_set (source_ transaction) invalid)
        else
          let confidants := Pool.confidants_ poolWithInitTr in
          do! correct := count_signatures confidants (hash_ p) (signatures_ p) 0 in
          ret (if correct <? Z.of_nat (length confidants) / 2 + 1 then insert_set (source_ transaction) invalid else invalid)
  end.

(** [checkSignaturesSmartSource] *)
Definition checkSignaturesSmartSource (smartContractsPackets : list TransactionsPacket) : M (list Address) :=
  mfold check_packet smartContractsPackets [].

(** [checkTransactionSignature] *)
Definition checkTransactionSignature (invalid : list Address) (transaction : Transaction) : bool :=
  let src := source_ transaction in
  let smartSourceTransaction := if is_smart_contract transaction then false else known src in
  if negb (is_new_state transaction) && negb smartSourceTransaction then
    if Address.is_wallet_id src
    then Tx.verify_signature transaction (Address.public_key (Validator.absolute_address ids src))
    else Tx.verify_signature transaction (Address.public_key src)
  else if is_new_state transaction && negb (Address.op_eq src (target_ transaction)) then false
  else negb (in_set src invalid).

(** The loop of [checkTransactionsSignatures] from the index [i] on. *)
Fixpoint check_signatures (invalid : list Address) (transactions : list Transaction) (i : nat) (s : State) : State :=
  match transactions with
  | [] => s
  | t :: transactions =>
      check_signatures invalid transactions (S i)
        (if (i <? length (mask_ s))%nat && negb (checkTransactionSignature invalid t) then
           let s := s <| mask_ := <[i := WrongSignature]> (mask_ s) |> in
           if is_new_state t then Validator.saveNewState (Validator.absolute_address ids (source_ t)) (Z.of_nat i) WrongSignature s
           else s
         else s)
  end.

(** [checkTransactionsSignatures] *)
Definition checkTransactionsSignatures (transactions : list Transaction) (smartsPackets : list TransactionsPacket) (s : IterState)
  : M IterState :=
  do! invalid := checkSignaturesSmartSource smartsPackets in
  ret (mkIter (check_signatures invalid transactions 0 (val_ s)) invalid).

(** *** The pass over the transactions *)

(** The loop of [validateTransactions] over the indices; with [blockedCounter]. *)
Fixpoint validate_loop (transactions : list Transaction) (inds : list nat) (blockedCounter : Z) (s : State) : M (Z * State) :=
  match inds with
  | [] => ret (blockedCounter, s)
  | i :: inds =>
      do! r := index (mask_ s) i in
      if bool_decide (r <> None_) then validate_loop transactions inds blockedCounter s
      else
        do! transaction := index transactions i in
        do! (r, s) := Validator.validateTransaction ids loadBlock cache known closed transactions (Z.of_nat i) s in
        let r := if bool_decide (r = None_) && is_deploy invocation_method transaction then deployAdditionalCheck transaction else r in
        if bool_decide (r <> None_) then
          validate_loop transactions inds (blockedCounter + 1) (s <| mask_ := <[i := r]> (mask_ s) |>)
        else validate_loop transactions inds blockedCounter s
  end.

(** The fuel of [validateByGraph]: every round takes a wallet from the stack, and puts one on it only
    when it rejects an accepted transaction. *)
Definition graph_fuel (s : State) : nat := Validator.potential s.

(** [validateTransactions]; the iterations are switched off in the source. *)
Definition validateTransactions (transactions : list Transaction) (s : State) : M (bool * State) :=
  do! (blockedCounter, s) := validate_loop transactions (seq 0 (length transactions)) 0 s in
  let needOneMoreIteration := 0 <? blockedCounter in
  do! (restoredCounter, s) := Validator.checkRejectedSmarts ids loadBlock cache known transactions s in
  let needOneMoreIteration := needOneMoreIteration && negb (blockedCounter =? restoredCounter) in
  do! s := Validator.validateByGraph ids cache known (graph_fuel s) transactions s in
  let needOneMoreIteration := needOneMoreIteration || (0 <? cntRemovedTrxs_ s) in
  let needOneMoreIteration := false in
  ret (needOneMoreIteration, s).

(** *** Rejected contracts *)

(** [tryAddToRejected]: the executions to reject and the contracts seen first. *)
Definition tryAddToRejected (s : State) (tr : Transaction) (absAddr : Address) (acc : list (Z * Z) * list Address)
  : M (list (Z * Z) * list Address) :=
  let '(rejectList, firstRejected) := acc in
  if Validator.duplicatedNewState ids (source_ tr) s then ret acc
  else if in_set absAddr firstRejected then ret acc
  else
    let firstRejected := absAddr :: firstRejected in
    let fld := Tx.user_field new_state_RefStart tr in
    if uf_is_valid fld then
      do! ref := lift (Ref.from_user_field fld) in
      ret (rejectList ++ [(sequence ref, u32 (transaction ref))], firstRejected)
    else ret (rejectList, firstRejected).

(** The loop over the new states, from the last to the first. *)
Definition reject_invalidated (transactions : list Transaction) (s : State) (acc : list (Z * Z) * list Address)
  : M (list (Z * Z) * list Address) :=
  mfold (fun (p : Z * bool) acc =>
    if p.2 then ret acc
    else
      do! t := index transactions (Z.to_nat p.1) in
      let absAddr := Validator.absolute_address ids (source_ t) in
      if Validator.isRejectedSmart absAddr s then tryAddToRejected s t absAddr acc else ret acc)
    (rev (validNewStates_ s)) acc.

(** The loop over the transactions, from the index [i] on: the accepted ones of rejected contracts are rejected. *)
Fixpoint reject_loop (transactions : list Transaction) (i : nat) (acc : list (Z * Z) * list Address) (s : State)
  : M (list (Z * Z) * list Address * State) :=
  match transactions with
  | [] => ret (acc, s)
  | t :: transactions =>
      match mask_ s !! i with
      | None => ret (acc, s)
      | Some r =>
          let absAddr := Validator.absolute_address ids (source_ t) in
          let valid := bool_decide (r = None_) in
          if negb valid && is_new_state t then
            do! acc := tryAddToRejected s t absAddr acc in
            reject_loop transactions (S i) acc s
          else if valid && Validator.isRejectedSmart absAddr s then
            reject_loop transactions (S i) acc (s <| mask_ := <[i := Validator.getRejectReason absAddr s]> (mask_ s) |>)
          else reject_loop transactions (S i) acc s
      end
  end.

(** [IterValidator::checkRejectedSmarts]; the list is what [send_rejected_smarts] gets, when it is not empty. *)
Definition checkRejectedSmarts (transactions : list Transaction) (s : State) : M (list (Z * Z) * State) :=
  do! acc := reject_invalidated transactions s ([], []) in
  do! (acc, s) := reject_loop transactions 0 acc s in
  ret (acc.1, s).

(** *** The characteristic *)

(** The [do]-loop of [formCharacteristic] *)
Fixpoint iterations (fuel : nat) (transactions : list Transaction) (s : State) : M (list Transaction * State) :=
  match fuel with
  | O => None
  | S fuel =>
      do! transactions := Fee.setCountedFees invocation_method transactions in
      let s := Validator.reset (length transactions) (Validator.updateFromSource s) in
      do! (needNewIteration, s) := validateTransactions transactions s in
      if needNewIteration : bool then iterations fuel transactions s else ret (transactions, s)
  end.

(** [formCharacteristic]: the transactions with their fees, the mask, the rejected executions. *)
Definition formCharacteristic (transactions : list Transaction) (smartsPackets : list TransactionsPacket) (s : IterState)
  : M (list Transaction * list Reason * list (Z * Z) * IterState) :=
  do! s := checkTransactionsSignatures transactions smartsPackets
    (s <| val_ := val_ s <| mask_ := replicate (length transactions) None_ |> |>) in
  do! (transactions, v) := iterations 1 transactions (val_ s) in
  do! (rejectList, v) := checkRejectedSmarts transactions v in
  ret (transactions, mask_ v, rejectList, mkIter (Validator.clearCaches v) (invalid_ s)).

(** [BlockChain::findWalletData(address, wallData)] *)
Definition findWalletData (address : Address) : option WalletData :=
  if Address.is_wallet_id address
  then WalletsCache.findWallet (Address.public_key (Validator.absolute_address ids (Address.from_wallet_id (Address.wallet_id address)))) cache
  else WalletsCache.findWallet (Address.public_key address) cache.

(** [SimpleValidator::validate]; [test_violations] and [is_payable_call] are those of the contracts. *)
Definition validate (test_violations : Transaction -> Z) (is_payable_call : Transaction -> bool) (t : Transaction)
  : M (bool * AmountCommission * RejectCode) :=
  do! (enough, countedFee) := Fee.estimateMaxFee invocation_method is_payable_call t in
  do! rc :=
    (if negb enough then ret kInsufficientMaxFee
     else if (known (source_ t) || known (target_ t)) && negb (test_violations t =? 0) then ret kContractViolation
     else match findWalletData (source_ t) with
          | None => ret kSourceDoesNotExists
          | Some wallet =>
              do! max_fee := fee_amount (max_fee_ t) in
              if Amount.op_lt (balance_ wallet) (op_add (amount_ t) max_fee) then ret kInsufficientBalance
              else if Z.of_nat (length (Tx.to_byte_stream t)) >? MaxTransactionSize then ret kTooLarge
              else if negb (Tx.verify_signature t (Address.public_key (Validator.absolute_address ids (source_ t))))
              then ret kWrongSignature
              else ret kAllCorrect
          end) in
  ret (match rc with kAllCorrect => true | _ => false end, countedFee, rc).
End itervalidator.
(** ** Rounds of transfers *)

Section round.
Context `{!Cscrypto, !Libm} {D : Type} `{!MultiIndex D} (ids : WalletsIds D) (loadBlock : Z -> Pool.priv) (cache : Cache).
Context (known closed : Address -> bool) (known_none : forall a, known a = false).
Context (deserialize : bytes -> Invocation) (find_deploy_info : Address -> option Invocation) (is_payable_target : Transaction -> bool).
(** The transactions with their fees as amounts *)
Context (l : list (Transaction * Amount)) (l_ok : Forall (fun p => Validator.transfer_ok p.1 p.2) l).
Context (l_len : Z.of_nat (length l) < noInd_).
Context (cache_ok : WalletsCache.ok cache).
Context (rich : forall k, 0 <= WalletsCache.bal k cache /\ WalletsCache.bal k cache + Validator.cost_of l < 2 ^ 31 * AMOUNT_MAX_FRACTION).
(** The inner ids of the transactions that the wallets have sent before *)
Context (history : bytes -> list Z).
Context (history_ok : forall k, node_tail_ (Validator.from_cache cache k) = TransactionsTail.pushed (history k) /\ Forall BitHeap.small (history k)).
Context (ids_small : Forall (fun p => BitHeap.small (innerID_ p.1)) l).

#[local] Abbreviation nd := (Validator.node cache).
#[local] Abbreviation pk := (Validator.pk ids).
#[local] Abbreviation inv := (Validator.inv ids cache l).
#[local] Abbreviation n := (length l).

(** The inner ids of the accepted transactions of a wallet *)
Definition inner_ids (l : list (Transaction * Amount)) (k : bytes) : list Z :=
  map (fun p => innerID_ p.1) (filter (fun p => pk (source_ p.1) = k) l).

Lemma inner_ids_app l1 l2 k : inner_ids (l1 ++ l2) k = inner_ids l1 k ++ inner_ids l2 k.
Proof. unfold inner_ids. by rewrite filter_app, map_app. Qed.

Lemma inner_ids_small l0 k : Forall (fun p => BitHeap.small (innerID_ p.1)) l0 -> Forall BitHeap.small (inner_ids l0 k).
Proof.
  unfold inner_ids. induction 1 as [|p l0 Hp _ IH]; [constructor|]. rewrite filter_cons. destruct (decide _); cbn [map]; [by constructor|done].
Qed.

Lemma accepted_Forall (P : Transaction * Amount -> Prop) l0 mask : Forall P l0 -> Forall P (Validator.accepted l0 mask).
Proof. intros Hf. apply Forall_forall. intros p (i & Ep & _)%Validator.accepted_in. by apply (Forall_lookup_1 _ _ _ _ Hf Ep). Qed.

(** After the first [m] transactions. *)
Record pass (mask0 : list Reason) (m : nat) (s : State) : Prop := {
  ps_inv : inv m s;
  ps_covered : Validator.covered cache (fun _ => True) s;
  ps_quiet : rejectedNewStates_ s = [] /\ validNewStates_ s = [];
  ps_mask i : mask_ s !! i = Some None_ -> mask0 !! i = Some None_;
  ps_tail k : node_tail_ (nd k s) = TransactionsTail.pushed (history k ++ inner_ids (Validator.accepted (take m l) (mask_ s)) k);
  ps_fresh k : NoDup (inner_ids (Validator.accepted (take m l) (mask_ s)) k) /\
    Forall (fun id => id ∉ history k) (inner_ids (Validator.accepted (take m l) (mask_ s)) k)
}.

Lemma accepted_skip m (mask : list Reason) : (m < n)%nat -> length mask = n -> mask !! m <> Some None_ ->
  Validator.accepted (take (S m) l) mask = Validator.accepted (take m l) mask.
Proof.
  intros Hm Hl Hn. destruct (lookup_lt_is_Some_2 l m Hm) as [p Ep]. rewrite (Validator.accepted_take_S l mask m p Ep) by lia.
  rewrite decide_False by done. by rewrite app_nil_r.
Qed.

Lemma pass_skip mask0 m s : pass mask0 m s -> (m < n)%nat -> mask_ s !! m <> Some None_ -> pass mask0 (S m) s.
Proof.
  intros [H1 H2 H3 H4 H5 H6] Hm Hn. pose proof (accepted_skip m (mask_ s) Hm (Validator.inv_mask _ _ _ _ _ H1) Hn) as E.
  split; rewrite ?E; try done. by apply Validator.inv_skip.
Qed.

(** A rejected transfer. *)
Lemma pass_reject mask0 m s r : pass mask0 m s -> (m < n)%nat -> r <> None_ -> pass mask0 (S m) (s <| mask_ := <[m := r]> (mask_ s) |>).
Proof.
  intros [H1 H2 H3 H4 H5 H6] Hm Hr. pose proof (Validator.inv_mask _ _ _ _ _ H1) as Hl.
  assert (Validator.accepted (take (S m) l) (<[m := r]> (mask_ s)) = Validator.accepted (take m l) (mask_ s)) as E.
  { rewrite accepted_skip.
    - apply Validator.accepted_insert_ge. rewrite length_take. lia.
    - done.
    - by rewrite length_insert.
    - rewrite list_lookup_insert_eq by lia. congruence. }
  split; cbn [upd mask_]; rewrite ?E; try done.
  - by apply Validator.inv_reject.
  - intros i Hi. destruct (decide (i = m)) as [->|Hne]; [by rewrite list_lookup_insert_eq in Hi by lia; naive_solver|].
    rewrite list_lookup_insert_ne in Hi by done. by apply H4.
Qed.

(** Only the balances, the lists, the tails and the stack matter. *)
Lemma pass_same mask0 m s s' :
  pass mask0 m s -> Validator.quiet s s' -> mask_ s' = mask_ s -> trxList_ s' = trxList_ s -> negativeNodes_ s' = negativeNodes_ s ->
  (forall k, nd k s' = nd k s) -> pass mask0 m s'.
Proof.
  intros [H1 H2 [H3 H3'] H4 H5 H6] [Q1 Q2] Em El En Hn. split; rewrite ?Em, ?Q1, ?Q2; try done.
  - by apply (Validator.inv_same _ _ _ m s).
  - intros k _ Hk. rewrite Hn in Hk. rewrite En. by apply H2.
  - intros k. rewrite Hn. apply H5.
Qed.

Lemma pushed_snoc hist id : TransactionsTail.pushed (hist ++ [id]) = TransactionsTail.push id (TransactionsTail.pushed hist).
Proof. unfold TransactionsTail.pushed. by rewrite foldl_app. Qed.

(** An allowed id is none of those before. *)
Lemma allowed_fresh hist id :
  Forall BitHeap.small hist -> BitHeap.small id -> TransactionsTail.isAllowed (TransactionsTail.pushed hist) id = true -> id ∉ hist.
Proof.
  intros Hh Hi Ha. apply (TransactionsTail.isAllowed_pushed hist id Hh Hi) in Ha. destruct hist; [apply not_elem_of_nil|by apply Ha].
Qed.

Lemma pass_accept mask0 m p s s' :
  pass mask0 m s -> l !! m = Some p -> mask_ s !! m = Some None_ -> Validator.accept_transfer ids cache m p s s' ->
  TransactionsTail.isAllowed (node_tail_ (nd (pk (source_ p.1)) s)) (innerID_ p.1) = true -> pass mask0 (S m) s'.
Proof.
  intros [H1 H2 H3 H4 H5 H6] Ep Hm A Hal. pose proof (Validator.inv_mask _ _ _ _ _ H1) as Hl.
  assert (inv (S m) s') as I' by (by eapply Validator.inv_accept).
  destruct (Validator.at_quiet _ _ _ _ _ _ A) as [Q1 Q2]. pose proof (Validator.at_mask _ _ _ _ _ _ A) as Em.
  assert (Validator.accepted (take (S m) l) (mask_ s') = Validator.accepted (take m l) (mask_ s) ++ [p]) as Ea.
  { rewrite Em, (Validator.accepted_take_S l _ m p Ep) by (rewrite Hl; by eapply lookup_lt_Some). by rewrite decide_True. }
  assert (forall k, inner_ids [p] k = if decide (k = pk (source_ p.1)) then [innerID_ p.1] else []) as Es.
  { intros k. unfold inner_ids. rewrite filter_cons. destruct (decide (k = pk (source_ p.1))) as [->|Hne].
    - by rewrite decide_True.
    - by rewrite decide_False by congruence. }
  split; try rewrite Q1, Q2; try rewrite Em; try done.
  - by apply (Validator.covered_accept ids cache l l_ok rich m p s s').
  - intros k. rewrite <- Em, Ea, inner_ids_app, Es, (Validator.at_tail _ _ _ _ _ _ A), H5. destruct (decide (k = _)) as [->|].
    + by rewrite app_assoc, pushed_snoc.
    + by rewrite app_nil_r.
  - intros k. rewrite <- Em, Ea, inner_ids_app, Es. destruct (H6 k) as [N F]. destruct (decide (k = _)) as [->|]; [|by rewrite app_nil_r].
    rewrite H5 in Hal. apply allowed_fresh in Hal.
    + apply not_elem_of_app in Hal as [Hh Hi]. split.
      * apply NoDup_app. split_and!; [done| |apply NoDup_singleton]. intros x Hx ->%list_elem_of_singleton. done.
      * apply Forall_app. split; [done|]. by constructor.
    + apply Forall_app. split; [apply history_ok|]. apply inner_ids_small, accepted_Forall, Forall_take, ids_small.
    + by apply (Forall_lookup_1 _ _ _ _ ids_small Ep).
Qed.
Lemma validate_loop_spec mask0 m cnt bc s :
  pass mask0 m s -> (m + cnt = n)%nat ->
  exists bc' s', validate_loop ids loadBlock cache known closed deserialize find_deploy_info is_payable_target (map fst l) (seq m cnt) bc s
    = ret (bc', s') /\ pass mask0 n s'.
Proof.
  revert m bc s. induction cnt as [|cnt IH]; intros m bc s Hp Hn; cbn [seq validate_loop].
  { exists bc, s. split; [done|]. by replace n with m by lia. }
  pose proof Hp as [Hi _ _ _ _ _]. pose proof (Validator.inv_mask _ _ _ _ _ Hi) as Hl.
  destruct (lookup_lt_is_Some_2 (mask_ s) m ltac:(lia)) as [r Er]. destruct (lookup_lt_is_Some_2 l m ltac:(lia)) as [p Ep].
  unfold index at 1. rewrite Er. cbn [mthen ret]. destruct (decide (r = None_)) as [->|Hr].
  2:{ rewrite bool_decide_true by done. apply IH; [|lia]. apply pass_skip; [done|lia|]. rewrite Er. naive_solver. }
  rewrite bool_decide_false by naive_solver. unfold index. rewrite (Validator.lookup_fst l m p Ep). cbn [mthen ret].
  destruct (Validator.validate_transfer ids loadBlock cache known closed known_none l l_ok rich m p s Ep
    (Validator.inv_links _ _ _ _ _ Hi)) as (r & s1 & E1 & H1). rewrite E1. cbn [mthen ret].
  assert (is_deploy (invocation_method deserialize) p.1 = false) as Hd.
  { unfold is_deploy. by rewrite (WalletsCache.plain_executable _ _ (Validator.ok_plain _ _ (Forall_lookup_1 _ _ _ _ l_ok Ep))). }
  rewrite Hd, andb_false_r. destruct (decide (r = None_)) as [->|Hr].
  - rewrite bool_decide_false by naive_solver. destruct H1 as (A & _ & Hal). apply IH; [|lia]. by eapply pass_accept.
  - rewrite bool_decide_true by done. destruct H1 as (Q & Em & Et & En & Hnd & _). apply IH; [|lia]. apply pass_reject; [|lia|done].
    by apply (pass_same _ _ s).
Qed.

(** Without contracts nothing is restored. *)
Lemma collect_nothing trxs i s :
  Forall (fun t => is_new_state t = false) trxs -> Validator.collectSmarts ids cache known trxs i [] [] s = ([], [], s).
Proof.
  intros Ht. revert i. induction Ht as [|t trxs Hn _ IH]; intros i; cbn [Validator.collectSmarts]; [done|].
  rewrite known_none, Hn, !andb_false_r. cbn [andb]. apply IH.
Qed.

Lemma l_plain : Forall (fun t => is_new_state t = false) (map fst l).
Proof.
  apply Forall_fmap. eapply Forall_impl; [exact l_ok|]. intros p Hp. apply (WalletsCache.plain_state _ _ (Validator.ok_plain _ _ Hp)).
Qed.

(** All of [validateTransactions]. *)
Lemma validateTransactions_spec mask0 s :
  pass mask0 0 s ->
  exists s' s1, validateTransactions ids loadBlock cache known closed deserialize find_deploy_info is_payable_target (map fst l) s = ret (false, s') /\
    pass mask0 n s1 /\ inv n s' /\ Validator.pruned (mask_ s1) (mask_ s') /\ Validator.quiet s1 s' /\
    forall k, 0 <= value (node_balance_ (nd k s')).
Proof.
  intros Hp. unfold validateTransactions. rewrite length_map.
  destruct (validate_loop_spec mask0 0 n 0 s Hp ltac:(lia)) as (bc & s1 & E1 & P1). rewrite E1. cbn [mthen ret].
  pose proof P1 as [I1 C1 _ _ _ _].
  unfold Validator.checkRejectedSmarts. rewrite (collect_nothing _ _ _ l_plain). cbn [Validator.replenishSmarts mthen ret].
  destruct (Validator.validateByGraph_spec ids cache known known_none l l_ok l_len rich (graph_fuel s1) s1 ltac:(done) I1 C1) as (s2 & E2 & I2 & M2 & H2).
  rewrite E2. cbn [mthen ret]. exists s2, s1. split_and!; [done|done|done|done| |done].
  by eapply Validator.validateByGraph_quiet.
Qed.
(** *** The parts around the pass *)

Lemma check_signatures_spec invalid txs i s :
  Forall (fun t => is_new_state t = false) txs -> (i + length txs <= length (mask_ s))%nat ->
  let s' := check_signatures ids known invalid txs i s in
  Validator.quiet s s' /\ length (mask_ s') = length (mask_ s) /\
  forall j, mask_ s' !! j = Some None_ <->
    mask_ s !! j = Some None_ /\ forall t, (i <= j)%nat -> txs !! (j - i)%nat = Some t -> checkTransactionSignature ids known invalid t = true.
Proof.
  intros Ht. revert i s. induction Ht as [|t txs Hn _ IH]; intros i s Hi; cbn [check_signatures].
  { split; [done|]. split; [done|]. intros j. split; [|naive_solver]. intros Hj. split; [done|]. intros t _ Hl. done. }
  cbn [length] in Hi. rewrite Hn, (proj2 (Nat.ltb_lt i _)) by lia. cbn [andb].
  set (ok := checkTransactionSignature ids known invalid t).
  set (s1 := if negb ok then s <| mask_ := <[i := WrongSignature]> (mask_ s) |> else s).
  assert (Validator.quiet s s1) as Q1 by (subst s1; by destruct ok).
  assert (length (mask_ s1) = length (mask_ s)) as L1 by (subst s1; destruct ok; cbn [negb upd mask_]; by rewrite ?length_insert).
  specialize (IH (S i) s1 ltac:(lia)). cbv zeta in IH. destruct IH as (Q2 & L2 & HM).
  split; [by eapply Validator.quiet_trans|]. split; [by rewrite L2|]. intros j. rewrite HM. clear HM.
  assert (mask_ s1 !! j = Some None_ <-> mask_ s !! j = Some None_ /\ (j = i -> ok = true)) as HM1.
  { subst s1. destruct ok eqn:Eok; cbn [negb upd mask_]; [naive_solver|]. destruct (decide (j = i)) as [->|Hne].
    - rewrite list_lookup_insert_eq by lia. naive_solver.
    - rewrite list_lookup_insert_ne by done. naive_solver. }
  rewrite HM1. clear HM1. split.
  - intros [[Hm Hok] Hr]. split; [done|]. intros t' Hij Hl. destruct (decide (j = i)) as [->|Hne].
    + rewrite Nat.sub_diag in Hl. injection Hl as <-. by apply Hok.
    + replace (j - i)%nat with (S (j - S i)) in Hl by lia. apply Hr; [lia|done].
  - intros [Hm Hr]. split; [split; [done|]|].
    + intros ->. apply Hr; [lia|]. by rewrite Nat.sub_diag.
    + intros t' Hij Hl. apply Hr; [lia|]. by replace (j - i)%nat with (S (j - S i)) by lia.
Qed.

(** The signature of a transaction that is neither a new state nor sent by a contract is that of its source. *)
Lemma plain_signature invalid t :
  is_new_state t = false -> checkTransactionSignature ids known invalid t =
  Tx.verify_signature t (Address.public_key (Validator.absolute_address ids (source_ t))).
Proof.
  intros Hn. unfold checkTransactionSignature. rewrite Hn, known_none. cbn [negb andb].
  replace (negb (if is_smart_contract t then false else false)) with true by by destruct (is_smart_contract t).
  unfold Address.is_wallet_id. destruct (is_wallet_id_ (source_ t)) eqn:E; [done|].
  unfold Validator.absolute_address, Address.is_public_key. by rewrite E.
Qed.

Lemma reject_nothing txs i acc s :
  Forall (fun t => is_new_state t = false) txs -> rejectedNewStates_ s = [] -> reject_loop ids txs i acc s = ret (acc, s).
Proof.
  intros Ht Hr. revert i. induction Ht as [|t txs Hn _ IH]; intros i; cbn [reject_loop]; [done|].
  destruct (mask_ s !! i); [|done]. rewrite Hn, andb_false_r. unfold Validator.isRejectedSmart. rewrite Hr. cbn [Validator.find_by].
  rewrite andb_false_r. apply IH.
Qed.

Lemma setCountedFees_spec method txs txs' :
  Fee.setCountedFees method txs = ret txs' -> Forall2 (fun t t' => exists fee, t' = Tx.set_counted_fee fee t) txs txs'.
Proof.
  revert txs'. induction txs as [|t txs IH]; intros txs'; cbn [Fee.setCountedFees]; [intros [= <-]; constructor|].
  intros (fee & _ & Hm)%mthen_ok. apply mthen_ok in Hm as (txs2 & H2 & [= <-]). constructor; [by exists fee|]. by apply IH.
Qed.

Lemma fees_keep_kind fee t : is_new_state (Tx.set_counted_fee fee t) = is_new_state t.
Proof. unfold Tx.set_counted_fee. by destruct (read_only_ t). Qed.
Lemma fees_keep_plain txs txs' :
  Forall2 (fun t t' => exists fee, t' = Tx.set_counted_fee fee t) txs txs' ->
  Forall (fun t => is_new_state t = false) txs' -> Forall (fun t => is_new_state t = false) txs.
Proof.
  induction 1 as [|t t' txs txs' [fee ->] _ IH]; intros Hl; [constructor|]. apply Forall_cons in Hl as [H1 H2].
  rewrite fees_keep_kind in H1. constructor; [done|by apply IH].
Qed.

(** The state in which the pass begins. *)
Lemma pass_init s :
  storage_ s = ∅ -> trxList_ s = replicate n noInd_ -> negativeNodes_ s = [] -> length (mask_ s) = n ->
  rejectedNewStates_ s = [] -> validNewStates_ s = [] -> pass (mask_ s) 0 s.
Proof.
  intros Es Et En Hm Hr Hv. assert (forall k, nd k s = Validator.from_cache cache k) as Hn.
  { intros k. unfold Validator.node. by rewrite Es, lookup_empty. }
  split; try done.
  - by apply Validator.inv_init.
  - intros k _ Hk. exfalso. destruct (Validator.from_cache_spec cache cache_ok k) as [_ Hv']. rewrite Hn, Hv' in Hk.
    destruct (rich k). lia.
  - intros k. rewrite Hn. cbn [take Validator.accepted]. unfold inner_ids. cbn. rewrite app_nil_r. apply history_ok.
  - intros k. cbn. split; constructor.
Qed.

Lemma pruned_accepted (l0 : list (Transaction * Amount)) mask mask' k :
  Validator.pruned mask mask' -> length mask = length mask' ->
  sublist (inner_ids (Validator.accepted l0 mask') k) (inner_ids (Validator.accepted l0 mask) k).
Proof.
  intros Hp Hl. unfold inner_ids. apply fmap_sublist.
  assert (sublist (Validator.accepted l0 mask') (Validator.accepted l0 mask)) as Hs; [|by apply filter_sublist].
  revert mask mask' Hp Hl. induction l0 as [|p l0 IH]; intros [|r mask] [|r' mask'] Hp Hl; try done.
  cbn [length] in Hl. cbn [Validator.accepted]. assert (Validator.pruned mask mask') as Hp' by (intros i; apply (Hp (S i))).
  specialize (IH mask mask' Hp' ltac:(lia)). specialize (Hp 0%nat). cbn in Hp.
  destruct (decide (r' = None_)), (decide (r = None_)); [by constructor| |by constructor|done]. naive_solver.
Qed.

(** What [formCharacteristic] does around [validateTransactions]. *)
Lemma form_plain txs packets invalid s0 :
  Fee.setCountedFees (invocation_method deserialize) txs = ret (map fst l) ->
  checkSignaturesSmartSource loadBlock packets = ret invalid ->
  rejectedNewStates_ (val_ s0) = [] -> validNewStates_ (val_ s0) = [] ->
  exists s, pass (mask_ s) 0 s /\ negativeNodes_ s = [] /\
    (forall i, mask_ s !! i = Some None_ <->
       exists t, txs !! i = Some t /\ Tx.verify_signature t (Address.public_key (Validator.absolute_address ids (source_ t))) = true) /\
    forall s', validateTransactions ids loadBlock cache known closed deserialize find_deploy_info is_payable_target (map fst l) s
        = ret (false, s') -> rejectedNewStates_ s' = [] -> validNewStates_ s' = [] ->
      formCharacteristic ids loadBlock cache known closed deserialize find_deploy_info is_payable_target txs packets s0
        = ret (map fst l, mask_ s', [], mkIter (Validator.clearCaches s') invalid).
Proof.
  intros Hfee Hsig Hr Hv. pose proof (setCountedFees_spec _ _ _ Hfee) as Hset.
  assert (length txs = n) as Hlen by (rewrite (Forall2_length _ _ _ Hset); apply length_map).
  assert (Forall (fun t => is_new_state t = false) txs) as Hplain by (eapply fees_keep_plain; [exact Hset|apply l_plain]).
  set (s1 := val_ s0 <| mask_ := replicate (length txs) None_ |>).
  destruct (check_signatures_spec invalid txs 0 s1 Hplain) as ([Q1 Q1'] & L1 & M1); [subst s1; cbn [upd mask_]; rewrite length_replicate; lia|].
  set (s2 := check_signatures ids known invalid txs 0 s1) in *.
  assert (length (mask_ s2) = n) as L2 by (rewrite L1; subst s1; cbn [upd mask_]; rewrite length_replicate; lia).
  exists (Validator.reset n (Validator.updateFromSource s2)). split_and!.
  - apply (pass_init (Validator.reset n (Validator.updateFromSource s2))); try done;
      [by transitivity (rejectedNewStates_ s1)|by transitivity (validNewStates_ s1)].
  - done.
  - intros i. change (mask_ (Validator.reset n _)) with (mask_ s2). rewrite M1. subst s1. cbn [upd mask_]. split.
    + intros [Hi Hok]. apply lookup_replicate in Hi as [_ Hi]. destruct (lookup_lt_is_Some_2 txs i Hi) as [t Et]. exists t.
      split; [done|]. rewrite <- (plain_signature invalid t (Forall_lookup_1 _ _ _ _ Hplain Et)). apply Hok; [lia|]. by rewrite Nat.sub_0_r.
    + intros (t & Et & Hok). rewrite Nat.sub_0_r. split; [apply lookup_replicate; split; [done|by eapply lookup_lt_Some]|].
      intros t' _ Et'. rewrite Et in Et'. injection Et' as <-. by rewrite (plain_signature invalid t (Forall_lookup_1 _ _ _ _ Hplain Et)).
  - intros s' E Hr' Hv'. unfold formCharacteristic, checkTransactionsSignatures. rewrite Hsig. cbn [mthen ret upd val_ invalid_].
    fold s1. fold s2. cbn [iterations]. rewrite Hfee. cbn [mthen ret]. rewrite length_map, E. cbn [mthen ret].
    unfold checkRejectedSmarts, reject_invalidated. rewrite Hv'. cbn [rev mfold mthen ret].
    by rewrite (reject_nothing _ 0 _ s' l_plain Hr').
Qed.

Lemma formCharacteristic_spec txs packets invalid s0 :
  Fee.setCountedFees (invocation_method deserialize) txs = ret (map fst l) ->
  checkSignaturesSmartSource loadBlock packets = ret invalid ->
  rejectedNewStates_ (val_ s0) = [] -> validNewStates_ (val_ s0) = [] ->
  exists mask s',
    formCharacteristic ids loadBlock cache known closed deserialize find_deploy_info is_payable_target txs packets s0
      = ret (map fst l, mask, [], s') /\
    length mask = n /\ rejectedNewStates_ (val_ s') = [] /\ validNewStates_ (val_ s') = [] /\
    (forall k, 0 <= WalletsCache.bal k cache + WalletsCache.transfers ids (Validator.accepted l mask) k) /\
    (forall i t, txs !! i = Some t -> mask !! i = Some None_ ->
       Tx.verify_signature t (Address.public_key (Validator.absolute_address ids (source_ t))) = true) /\
    (forall k, NoDup (inner_ids (Validator.accepted l mask) k) /\
       Forall (fun id => id ∉ history k) (inner_ids (Validator.accepted l mask) k)).
Proof.
  intros Hfee Hsig Hr Hv. destruct (form_plain txs packets invalid s0 Hfee Hsig Hr Hv) as (s & P & _ & M & Hform).
  destruct (validateTransactions_spec _ s P) as (s4 & s5 & E4 & [I5 _ [Qr Qv] M5 _ F5] & I4 & Pr & [Q4 Q4'] & B4).
  exists (mask_ s4). eexists. rewrite (Hform s4 E4) by congruence. split; [done|].
  pose proof (Validator.inv_mask _ _ _ _ _ I4) as L4. pose proof (Validator.inv_mask _ _ _ _ _ I5) as L5.
  split_and!; [done|done|done|..].
  - intros k. specialize (B4 k). rewrite (Validator.inv_bal _ _ _ _ _ I4) in B4. unfold Validator.expected in B4. by rewrite take_ge in B4 by lia.
  - intros i t Ht Hm. assert (mask_ s5 !! i = Some None_) as Hm5 by (destruct (Pr i) as [E|[E E']]; congruence).
    apply M5, M in Hm5 as (t' & Et' & Hok). congruence.
  - intros k. destruct (F5 k) as [N5 D5]. rewrite take_ge in N5, D5 by lia.
    pose proof (pruned_accepted l _ _ k Pr ltac:(lia)) as Hsub. split; [by eapply sublist_NoDup|].
    eapply Forall_sublist; [|exact Hsub]. exact D5.
Qed.

(** C2: No overdraft, no forgery, no replay, for a round of plain transfers (no contract is called
    or known, no new state) whose amounts and fees are normal and not negative, whose amounts are
    exactly representable as doubles and whose greatest fees convert to amounts, at most 2^32 - 2
    of them, with inner ids below 2^61 in absolute value, wallets whose tails hold the ids of
    their history, balances that start at 0 or more and stay within the range of the amounts when
    once the cost of the round (all amounts and fees) is added, and no new states pending in the
    validator, when the counted fees can be set and the signatures of the contract packets
    counted: formCharacteristic ends with a mask under which no wallet's balance becomes negative,
    every accepted transfer carries its source's signature, and the inner ids accepted from a
    wallet are distinct and new to it. *)
Theorem no_overdraft txs packets invalid s0 :
  Fee.setCountedFees (invocation_method deserialize) txs = ret (map fst l) ->
  checkSignaturesSmartSource loadBlock packets = ret invalid ->
  rejectedNewStates_ (val_ s0) = [] -> validNewStates_ (val_ s0) = [] ->
  exists mask s',
    formCharacteristic ids loadBlock cache known closed deserialize find_deploy_info is_payable_target txs packets s0
      = ret (map fst l, mask, [], s') /\
    length mask = n /\ rejectedNewStates_ (val_ s') = [] /\ validNewStates_ (val_ s') = [] /\
    (forall k, 0 <= WalletsCache.bal k cache + WalletsCache.transfers ids (Validator.accepted l mask) k) /\
    (forall i t, txs !! i = Some t -> mask !! i = Some None_ ->
       Tx.verify_signature t (Address.public_key (Validator.absolute_address ids (source_ t))) = true) /\
    (forall k, NoDup (inner_ids (Validator.accepted l mask) k) /\
       Forall (fun id => id ∉ history k) (inner_ids (Validator.accepted l mask) k)).
Proof. exact (formCharacteristic_spec txs packets invalid s0). Qed.

(** *** Solvent wallets *)

(** What a wallet sends *)
Definition spent (l : list (Transaction * Amount)) (k : bytes) : Z :=
  foldr (fun p acc => (if decide (pk (source_ p.1) = k) then value (amount_ p.1) + value p.2 else 0) + acc) 0 l.

Lemma spent_nonneg l0 k : Forall (fun p => Validator.transfer_ok p.1 p.2) l0 -> 0 <= spent l0 k.
Proof.
  induction 1 as [|p l0 Hp _ IH]; [done|]. cbn [spent foldr]. fold (spent l0 k).
  pose proof (Validator.ok_amount _ _ Hp). pose proof (Validator.ok_fee _ _ Hp). destruct (decide _); lia.
Qed.

Lemma sum_spent l0 k : Forall (fun p => Validator.transfer_ok p.1 p.2) l0 -> - spent l0 k <= WalletsCache.transfers ids l0 k.
Proof.
  induction 1 as [|p l0 Hp _ IH]; [done|]. rewrite Validator.sum_cons. cbn [spent foldr]. fold (spent l0 k).
  unfold WalletsCache.transfer, WalletsCache.at_key. change (WalletsCache.toPublicKey ids) with pk.
  pose proof (Validator.ok_amount _ _ Hp). pose proof (Validator.ok_fee _ _ Hp).
  destruct (decide (pk (source_ p.1) = k)) as [<-|Hne]; [rewrite (decide_True (P := pk (source_ p.1) = pk (source_ p.1))) by done|
    rewrite (decide_False (P := k = pk (source_ p.1))) by congruence]; destruct (decide _); lia.
Qed.

Lemma spent_take l0 m p :
  Forall (fun p => Validator.transfer_ok p.1 p.2) l0 -> l0 !! m = Some p ->
  spent (take m l0) (pk (source_ p.1)) + (value (amount_ p.1) + value p.2) <= spent l0 (pk (source_ p.1)).
Proof.
  intros Hl. revert m. induction Hl as [|q l0 Hq Hl IH]; intros [|m] Ep; [done|done| |]; cbn [take spent foldr]; fold (spent l0 (pk (source_ p.1))).
  - injection Ep as ->. rewrite decide_True by done. pose proof (spent_nonneg l0 (pk (source_ p.1)) Hl). lia.
  - fold (spent (take m l0) (pk (source_ p.1))). specialize (IH m Ep). lia.
Qed.

Lemma spent_other l0 k : Forall (fun p => pk (source_ p.1) <> k) l0 -> spent l0 k = 0.
Proof. induction 1 as [|p l0 Hp _ IH]; [done|]. cbn [spent foldr]. fold (spent l0 k). by rewrite decide_False, IH by done. Qed.

Lemma accepted_all (l0 : list (Transaction * Amount)) m : (length l0 <= m)%nat -> Validator.accepted l0 (replicate m None_) = l0.
Proof.
  revert m. induction l0 as [|p l0 IH]; intros [|m] Hm; cbn [length] in Hm; try done; [lia|]. cbn [replicate Validator.accepted].
  rewrite decide_True by done. by rewrite IH by lia.
Qed.

(** A source with more than it sends does not go below zero. *)
Lemma source_stays mask0 m p s :
  pass mask0 m s -> mask_ s = replicate n None_ -> l !! m = Some p ->
  spent l (pk (source_ p.1)) < WalletsCache.bal (pk (source_ p.1)) cache ->
  Amount.op_lt (op_sub (op_sub (node_balance_ (nd (pk (source_ p.1)) s)) (amount_ p.1)) p.2) Validator.zeroBalance_ = false.
Proof.
  intros [I _ _ _ _ _] Em Ep Hs. set (k := pk (source_ p.1)) in *.
  destruct (Forall_lookup_1 _ _ _ _ l_ok Ep) as [[_ _ Pa _ Pn] Ha Hf _ _]. apply normal_weak in Pa, Pn.
  destruct (op_sub_weak _ _ (Validator.inv_weak _ _ _ _ _ I k) Pa) as [W1 V1]. destruct (op_sub_weak _ _ W1 Pn) as [W2 V2].
  set (b := op_sub (op_sub _ _) _) in *. unfold Validator.zeroBalance_. rewrite (op_lt_zero b W2). apply Z.ltb_ge.
  pose proof (Validator.inv_bal _ _ _ _ _ I k) as Hb. unfold Validator.expected in Hb. rewrite Em, accepted_all in Hb by (rewrite length_take; lia).
  pose proof (sum_spent (take m l) k (Forall_take _ _ _ l_ok)). pose proof (spent_take l m p l_ok Ep). fold k in H2.
  destruct (Validator.sum_bounds ids (take m l) k (Forall_take _ _ _ l_ok)) as [S1 _].
  pose proof (Validator.cost_of_take ids l m l_ok) as S2. destruct (rich k) as [R1 R2].
  assert (value b = value (node_balance_ (nd k s)) - value (amount_ p.1) - value p.2) as Eb.
  { apply eqm_range; [by apply weak_range|unfold AMOUNT_MAX_FRACTION in *; lia|]. rewrite V2, V1. reflexivity. }
  destruct W2 as [_ F]. unfold value at 1 in Eb. unfold AMOUNT_MAX_FRACTION in *. lia.
Qed.

(** A transfer that nothing speaks against, as the [i]-th. *)
Definition acceptable (i : nat) (p : Transaction * Amount) : Prop :=
  Address.op_eq (source_ p.1) (target_ p.1) = false /\
  (forall max_fee, fee_amount (max_fee_ p.1) = ret max_fee -> Amount.op_lt max_fee p.2 = false) /\
  TransactionsTail.isAllowed (TransactionsTail.pushed (history (pk (source_ p.1)) ++ inner_ids (take i l) (pk (source_ p.1)))) (innerID_ p.1) = true.

Lemma solvent_loop mask0 m cnt bc s :
  (forall k, spent l k = 0 \/ spent l k < WalletsCache.bal k cache) -> (forall i p, l !! i = Some p -> acceptable i p) ->
  (forall i p, l !! i = Some p -> 0 < value (amount_ p.1) + value p.2) ->
  pass mask0 m s -> (m + cnt = n)%nat -> mask_ s = replicate n None_ -> negativeNodes_ s = [] ->
  exists bc' s', validate_loop ids loadBlock cache known closed deserialize find_deploy_info is_payable_target (map fst l) (seq m cnt) bc s
    = ret (bc', s') /\ pass mask0 n s' /\ mask_ s' = replicate n None_ /\ negativeNodes_ s' = [].
Proof.
  intros Hsol Hacc Hpos. revert m bc s. induction cnt as [|cnt IH]; intros m bc s Hp Hn Em En; cbn [seq validate_loop].
  { exists bc, s. split; [done|]. by replace n with m at 1 by lia. }
  pose proof Hp as [Hi _ _ _ Ht _]. destruct (lookup_lt_is_Some_2 l m ltac:(lia)) as [p Ep]. pose proof (Hacc m p Ep) as (A1 & A2 & A3).
  assert (mask_ s !! m = Some None_) as Er by (rewrite Em; apply lookup_replicate; split; [done|lia]).
  unfold index at 1. rewrite Er. cbn [mthen ret]. rewrite bool_decide_false by naive_solver.
  unfold index. rewrite (Validator.lookup_fst l m p Ep). cbn [mthen ret].
  destruct (Validator.validate_transfer ids loadBlock cache known closed known_none l l_ok rich m p s Ep
    (Validator.inv_links _ _ _ _ _ Hi)) as (r & s1 & E1 & H1). rewrite E1. cbn [mthen ret].
  assert (is_deploy (invocation_method deserialize) p.1 = false) as Hd.
  { unfold is_deploy. by rewrite (WalletsCache.plain_executable _ _ (Validator.ok_plain _ _ (Forall_lookup_1 _ _ _ _ l_ok Ep))). }
  rewrite Hd, andb_false_r. rewrite <- (accepted_all (take m l) n) in A3 by (rewrite length_take; lia). rewrite <- Em, <- Ht in A3.
  destruct (decide (r = None_)) as [->|Hr].
  2:{ exfalso. destruct H1 as (_ & _ & _ & _ & _ & [H1|[H1|(mf & Emf & H1)]]); [congruence|congruence|]. by rewrite (A2 mf Emf) in H1. }
  rewrite bool_decide_false by naive_solver. destruct H1 as (A & _ & Hal). apply IH; [by eapply pass_accept|lia|..].
  - by rewrite (Validator.at_mask _ _ _ _ _ _ A).
  - rewrite (Validator.at_stack _ _ _ _ _ _ A). rewrite (source_stays mask0 m p s Hp Em Ep); [done|].
    destruct (Hsol (pk (source_ p.1))) as [Hz|]; [|done]. exfalso. pose proof (spent_take l m p l_ok Ep).
    pose proof (spent_nonneg (take m l) (pk (source_ p.1)) (Forall_take _ _ _ l_ok)). specialize (Hpos m p Ep). lia.
Qed.

(** C35: For a round of plain transfers (no contract is called or known, no new state) whose
    amounts and fees are normal and not negative, whose amounts are exactly representable as
    doubles and whose greatest fees convert to amounts, at most 2^32 - 2 of them, with inner ids
    below 2^61 in absolute value, wallets whose tails hold the ids of their history, balances that
    start at 0 or more and stay within the range of the amounts when once the cost of the round
    (all amounts and fees) is added, and no new states pending in the validator, when the counted
    fees can be set and the signatures of the contract packets counted, each of them moving
    something (amount plus fee positive): when every wallet that sends has more than all it sends
    in the round, and each transfer is signed by its source and has an inner id that is allowed
    after those before it, a source that is not its target and a greatest fee that suffices,
    formCharacteristic accepts all of them. *)
Theorem solvent_round_accepted txs packets invalid s0 :
  Fee.setCountedFees (invocation_method deserialize) txs = ret (map fst l) ->
  checkSignaturesSmartSource loadBlock packets = ret invalid ->
  rejectedNewStates_ (val_ s0) = [] -> validNewStates_ (val_ s0) = [] ->
  (forall k, spent l k = 0 \/ spent l k < WalletsCache.bal k cache) -> (forall i p, l !! i = Some p -> acceptable i p) ->
  (forall i p, l !! i = Some p -> 0 < value (amount_ p.1) + value p.2) ->
  Forall (fun t => Tx.verify_signature t (Address.public_key (Validator.absolute_address ids (source_ t))) = true) txs ->
  exists s', formCharacteristic ids loadBlock cache known closed deserialize find_deploy_info is_payable_target txs packets s0
    = ret (map fst l, replicate n None_, [], s').
Proof.
  intros Hfee Hsig Hr Hv Hsol Hacc Hpos Hver. destruct (form_plain txs packets invalid s0 Hfee Hsig Hr Hv) as (s & P & En & M & Hform).
  pose proof P as [I _ _ _ _ _]. pose proof (Forall2_length _ _ _ (setCountedFees_spec _ _ _ Hfee)) as Hlen. rewrite length_map in Hlen.
  assert (mask_ s = replicate n None_) as Em.
  { apply list_eq. intros i. destruct (decide (i < n)%nat).
    - rewrite lookup_replicate_2 by done. apply M. destruct (lookup_lt_is_Some_2 txs i ltac:(lia)) as [t Et]. exists t. split; [done|].
      by apply (Forall_lookup_1 _ _ _ _ Hver Et).
    - rewrite !lookup_ge_None_2; [done|rewrite length_replicate; lia|rewrite (Validator.inv_mask _ _ _ _ _ I); lia]. }
  destruct (solvent_loop (mask_ s) 0 n 0 s Hsol Hacc Hpos P ltac:(lia) Em En) as (bc & s1 & E1 & [I1 _ [Qr Qv] _ _ _] & Em1 & En1).
  assert (validateTransactions ids loadBlock cache known closed deserialize find_deploy_info is_payable_target (map fst l) s = ret (false, s1)) as E.
  { unfold validateTransactions. rewrite length_map, E1. cbn [mthen ret]. unfold Validator.checkRejectedSmarts.
    rewrite (collect_nothing _ _ _ l_plain). cbn [Validator.replenishSmarts mthen ret].
    by destruct (graph_fuel s1); cbn [Validator.validateByGraph]; rewrite En1. }
  eexists. rewrite (Hform s1 E Qr Qv), Em1. done.
Qed.
(** *** From the characteristic to the stored block *)

Lemma fees_range l0 :
  Forall (fun p => Validator.transfer_ok p.1 p.2) l0 ->
  0 <= foldr (fun p s => value p.2 + s) 0 l0 <= Validator.cost_of l0.
Proof.
  induction 1 as [|p l0 Hp _ IH]; [done|]. cbn [foldr Validator.cost_of]. fold (Validator.cost_of l0).
  pose proof (Validator.ok_amount _ _ Hp). pose proof (Validator.ok_fee _ _ Hp). lia.
Qed.

Lemma paid_range keys fee T k :
  0 <= fee -> Z.of_nat (length keys) * fee <= T -> 0 <= WalletsCache.paid keys fee T k <= T.
Proof.
  intros Hf. revert T. induction keys as [|key keys IH]; intros T HT; cbn [WalletsCache.paid]; [cbn in HT; lia|].
  cbn [length] in HT. rewrite Nat2Z.inj_succ, Z.mul_succ_l in HT. specialize (IH (T - fee) ltac:(lia)).
  unfold WalletsCache.at_key. destruct keys; destruct (decide _); lia.
Qed.

Lemma accepted_block_stores txs packets invalid s0 mask s' pool confidants :
  Fee.setCountedFees (invocation_method deserialize) txs = ret (map fst l) ->
  checkSignaturesSmartSource loadBlock packets = ret invalid ->
  rejectedNewStates_ (val_ s0) = [] -> validNewStates_ (val_ s0) = [] ->
  (forall k, WalletsCache.bal k cache + 2 * Validator.cost_of l < 2 ^ 31 * AMOUNT_MAX_FRACTION) ->
  formCharacteristic ids loadBlock cache known closed deserialize find_deploy_info is_payable_target txs packets s0
    = ret (map fst l, mask, [], s') ->
  WalletsCache.transfer_block pool (Validator.accepted l mask) confidants ->
  WalletsCache.getRealTrustedNum (WalletsCache.mask pool) <= foldr (fun p s => value p.2 + s) 0 (Validator.accepted l mask) ->
  exists pool' c',
    WalletsCache.loadNextBlock ids loadBlock pool confidants false cache = ret (pool', c') /\
    WalletsCache.ok c' /\ WalletsCache.total c' = WalletsCache.total cache /\ forall k, 0 <= WalletsCache.bal k c'.
Proof.
  intros Hfee Hsig Hr Hv Hbig Hform Hb Hn.
  destruct (formCharacteristic_spec txs packets invalid s0 Hfee Hsig Hr Hv) as (mask' & s1 & E & _ & _ & _ & Hbal & _).
  rewrite Hform in E. injection E as <- <-. set (acc := Validator.accepted l mask) in *.
  destruct (Validator.accepted_cost ids l mask l_ok) as [Hok Hcost]. fold acc in Hok, Hcost.
  pose proof (WalletsCache.block_plain _ _ _ Hb) as Hp.
  destruct (WalletsCache.fees_from_mod acc (of_int 0) ltac:(by vm_compute) Hp) as [Nf Vf].
  change (value (of_int 0)) with 0 in Vf. rewrite Z.add_0_l in Vf. pose proof (fees_range acc Hok) as Hfr.
  set (fees := foldr (fun p s => value p.2 + s) 0 acc) in *. pose proof (rich []) as [R0 R1].
  assert (value (WalletsCache.fees_from (of_int 0) acc) = fees) as Ef.
  { apply eqm_range; [apply weak_range, normal_weak, Nf|unfold AMOUNT_MAX_FRACTION in *; lia|done]. }
  pose proof (WalletsCache.block_trusted _ _ _ Hb) as Ht.
  destruct (WalletsCache.block_reversible ids loadBlock pool acc confidants Hb) as (fee & Hfee' & Rev).
  destruct (Rev false cache cache_ok) as (c' & E & [M1 M2 M3 _]).
  destruct (WalletsCache.loadNextBlock ids loadBlock pool confidants false cache) as [[[pool' c'']|]|]; [|done..]. injection E as <-.
  rewrite Ef in Hfee'.
  assert (forall k, WalletsCache.bal k c'' = WalletsCache.bal k cache + WalletsCache.block_delta ids pool acc confidants fee k /\
                    0 <= WalletsCache.bal k cache + WalletsCache.block_delta ids pool acc confidants fee k) as Hex.
  { intros k. specialize (M2 k). pose proof (WalletsCache.ok_get k c'' M1) as [Nk _].
    assert (fee_ok : 0 <= fee /\ Z.of_nat (length (WalletsCache.trusted_keys confidants (WalletsCache.mask pool))) * fee <= fees).
    { rewrite WalletsCache.trusted_length by apply (WalletsCache.block_mask _ _ _ Hb). unfold WalletsCache.is_share in Hfee'.
      set (N := WalletsCache.getRealTrustedNum _) in *. pose proof (Z.div_le_lower_bound fees N 1 ltac:(lia) ltac:(lia)).
      pose proof (Z.mul_div_le fees N ltac:(lia)). nia. }
    destruct fee_ok as [F0 F1]. pose proof (paid_range _ fee fees k F0 F1) as Hpaid.
    assert (0 <= WalletsCache.bal k cache + WalletsCache.block_delta ids pool acc confidants fee k < 2 ^ 31 * AMOUNT_MAX_FRACTION) as Hrange.
    { unfold WalletsCache.block_delta. rewrite Ef. specialize (Hbal k). specialize (Hbig k).
      destruct (Validator.sum_bounds ids acc k Hok) as [S1 _]. destruct (0 <? fees); lia. }
    unfold WalletsCache.sg in M2. rewrite Z.mul_1_l in M2. split; [|lia].
    apply eqm_range; [by apply weak_range, normal_weak|unfold AMOUNT_MAX_FRACTION in *; lia|done]. }
  exists pool', c''. split_and!; [done|done| |intros k; destruct (Hex k); lia].
  apply (WalletsCache.total_exact _ _ (WalletsCache.block_delta ids pool acc confidants fee)); [intros k; apply Hex|].
  by apply WalletsCache.sums_to_block.
Qed.

(** C3: From the validator to the ledger, for a round of plain transfers (no contract is called or
    known, no new state) whose amounts and fees are normal and not negative, whose amounts are
    exactly representable as doubles and whose greatest fees convert to amounts, at most 2^32 - 2
    of them, with inner ids below 2^61 in absolute value, wallets whose tails hold the ids of
    their history, balances that start at 0 or more and stay within the range of the amounts when
    twice the cost of the round (all amounts and fees) is added, and no new states pending in the
    validator, when the counted fees can be set and the signatures of the contract packets
    counted: the block of the transfers that formCharacteristic accepted, with confidants that fit
    its mask, at least one of them trusted (fewer than 2^31) and fees of at least one unit for
    each trusted one, loads into the wallets cache; the sum of the balances is exactly what it was
    and no wallet is below zero. *)
Theorem validated_round_stores txs packets invalid s0 mask s' pool confidants :
  Fee.setCountedFees (invocation_method deserialize) txs = ret (map fst l) ->
  checkSignaturesSmartSource loadBlock packets = ret invalid ->
  rejectedNewStates_ (val_ s0) = [] -> validNewStates_ (val_ s0) = [] ->
  (forall k, WalletsCache.bal k cache + 2 * Validator.cost_of l < 2 ^ 31 * AMOUNT_MAX_FRACTION) ->
  formCharacteristic ids loadBlock cache known closed deserialize find_deploy_info is_payable_target txs packets s0
    = ret (map fst l, mask, [], s') ->
  WalletsCache.transfer_block pool (Validator.accepted l mask) confidants ->
  WalletsCache.getRealTrustedNum (WalletsCache.mask pool) <= foldr (fun p s => value p.2 + s) 0 (Validator.accepted l mask) ->
  exists pool' c',
    WalletsCache.loadNextBlock ids loadBlock pool confidants false cache = ret (pool', c') /\
    WalletsCache.ok c' /\ WalletsCache.total c' = WalletsCache.total cache /\ forall k, 0 <= WalletsCache.bal k c'.
Proof. exact (accepted_block_stores txs packets invalid s0 mask s' pool confidants). Qed.
End round.
End IterValidator.

(** ** Witnesses *)

(** A signed transfer of [amount] with the greatest fee 0.25 and no counted fee yet. *)
Definition signed_transfer (inner from to amount : Z) : Transaction :=
  let t := Tx.make inner (sample_public from) (sample_public to) 1 (of_int amount) 18688 0 [] in
  Tx.set_signature (calculateHash (Address.public_key (sample_public from) ++ Tx.to_byte_stream_for_sig t) ++ replicate 32 0) t.

(** The wallet 51 spends what it gets, and then more than it has. *)
Definition round_txs : list Transaction := [signed_transfer 5 50 51 100; signed_transfer 1 51 52 30; signed_transfer 2 51 53 400].
Definition no_contracts (_ : Address) : bool := false.
Definition no_invocation (_ : bytes) : Invocation := mkInvocation [] [].
Definition round_state : IterState := mkIter (mkState ∅ [] [] [] [] [] [] 0 []) [].
#[local] Existing Instance toy_libm.

Definition with_fees (l : list Transaction) : list (Transaction * Amount) :=
  match Fee.setCountedFees (IterValidator.invocation_method no_invocation) l with
  | Some (Ok l) => omap (fun t => match fee_amount (counted_fee_ t) with Some (Ok a) => Some (t, a) | _ => None end) l
  | _ => []
  end.

Definition round_transfers : list (Transaction * Amount) := Eval vm_compute in with_fees round_txs.
Definition round_history (k : bytes) : list Z := if decide (k = sample_key 50) then [4; 3] else [].

Lemma round_ok : Forall (fun p => Validator.transfer_ok p.1 p.2) round_transfers.
Proof.
  unfold round_transfers. repeat constructor; try (by vm_compute); try (eexists; by vm_compute); by apply (bool_decide_unpack _); vm_compute.
Qed.

Lemma round_fees : Fee.setCountedFees (IterValidator.invocation_method no_invocation) round_txs = ret (map fst round_transfers).
Proof. by vm_compute. Qed.

Lemma round_bal k : WalletsCache.bal k sample_cache = if decide (k = sample_key 50) then 1000 * AMOUNT_MAX_FRACTION else 0.
Proof.
  unfold WalletsCache.bal, WalletsCache.getWalletData, sample_cache. cbn [wallets_]. destruct (decide (k = sample_key 50)) as [->|Hne].
  - by rewrite lookup_singleton_eq.
  - by rewrite lookup_singleton_ne by congruence.
Qed.

Lemma round_cost : Validator.cost_of round_transfers = 530026220703125000000.
Proof. by vm_compute. Qed.

Lemma round_rich k : 0 <= WalletsCache.bal k sample_cache /\
  WalletsCache.bal k sample_cache + Validator.cost_of round_transfers < 2 ^ 31 * AMOUNT_MAX_FRACTION.
Proof. rewrite round_bal, round_cost. unfold AMOUNT_MAX_FRACTION. destruct (decide _); lia. Qed.

Lemma round_history_ok k :
  node_tail_ (Validator.from_cache sample_cache k) = TransactionsTail.pushed (round_history k) /\ Forall BitHeap.small (round_history k).
Proof.
  unfold Validator.from_cache, WalletsCache.findWallet, sample_cache, round_history. cbn [wallets_]. destruct (decide (k = sample_key 50)) as [->|Hne].
  - rewrite lookup_singleton_eq. split; [done|]. repeat constructor; unfold BitHeap.small; lia.
  - rewrite lookup_singleton_ne by congruence. by split.
Qed.

Lemma round_small : Forall (fun p => BitHeap.small (innerID_ p.1)) round_transfers.
Proof. unfold round_transfers. repeat constructor; cbn; unfold BitHeap.small; lia. Qed.

(** The third one would bring the wallet 51 below zero. *)
Example round_mask :
  exists s', IterValidator.formCharacteristic sample_ids (fun _ => Pool.default) sample_cache no_contracts no_contracts no_invocation
      (fun _ => None) (fun _ => false) round_txs [] round_state
    = ret (map fst round_transfers, [None_; None_; NegativeResult], [], s').
Proof. eexists. vm_compute. reflexivity. Qed.

Lemma no_overdraft_witness :
  exists mask s',
    IterValidator.formCharacteristic sample_ids (fun _ => Pool.default) sample_cache no_contracts no_contracts no_invocation
      (fun _ => None) (fun _ => false) round_txs [] round_state = ret (map fst round_transfers, mask, [], s') /\
    length mask = length round_transfers /\ rejectedNewStates_ (val_ s') = [] /\ validNewStates_ (val_ s') = [] /\
    (forall k, 0 <= WalletsCache.bal k sample_cache + WalletsCache.transfers sample_ids (Validator.accepted round_transfers mask) k) /\
    (forall i t, round_txs !! i = Some t -> mask !! i = Some None_ ->
       Tx.verify_signature t (Address.public_key (Validator.absolute_address sample_ids (source_ t))) = true) /\
    (forall k, NoDup (IterValidator.inner_ids sample_ids (Validator.accepted round_transfers mask) k) /\
       Forall (fun id => id ∉ round_history k) (IterValidator.inner_ids sample_ids (Validator.accepted round_transfers mask) k)).
Proof.
  apply (IterValidator.no_overdraft sample_ids (fun _ => Pool.default) sample_cache no_contracts no_contracts (fun _ => eq_refl) no_invocation
    (fun _ => None) (fun _ => false) round_transfers round_ok ltac:(by vm_compute) sample_cache_ok round_rich round_history
    round_history_ok round_small round_txs [] [] round_state round_fees); by vm_compute.
Defined.

(** The first two alone are accepted: the wallet 50 is rich enough, and 51 sends nothing. *)
Definition solvent_txs : list Transaction := [signed_transfer 5 50 51 100; signed_transfer 6 50 52 30].
Definition solvent_transfers : list (Transaction * Amount) := Eval vm_compute in with_fees solvent_txs.

Lemma solvent_sources : Forall (fun p => Validator.pk sample_ids (source_ p.1) = sample_key 50) solvent_transfers.
Proof. unfold solvent_transfers. repeat constructor; by vm_compute. Qed.

Lemma solvent_round_accepted_witness :
  exists s', IterValidator.formCharacteristic sample_ids (fun _ => Pool.default) sample_cache no_contracts no_contracts no_invocation
      (fun _ => None) (fun _ => false) solvent_txs [] round_state
    = ret (map fst solvent_transfers, replicate 2 None_, [], s').
Proof.
  apply (IterValidator.solvent_round_accepted sample_ids (fun _ => Pool.default) sample_cache no_contracts no_contracts (fun _ => eq_refl)
    no_invocation (fun _ => None) (fun _ => false) solvent_transfers) with (invalid := []) (history := round_history).
  - unfold solvent_transfers. repeat constructor; try (by vm_compute); try (eexists; by vm_compute); by apply (bool_decide_unpack _); vm_compute.
  - by vm_compute.
  - exact sample_cache_ok.
  - intros k. rewrite round_bal. assert (Validator.cost_of solvent_transfers = 130017480468750000000) as -> by by vm_compute.
    unfold AMOUNT_MAX_FRACTION. destruct (decide _); lia.
  - exact round_history_ok.
  - unfold solvent_transfers. repeat constructor; cbn; unfold BitHeap.small; lia.
  - by vm_compute.
  - done.
  - done.
  - done.
  - intros k. rewrite round_bal. destruct (decide (k = sample_key 50)) as [->|Hne]; [right; by vm_compute|left].
    apply IterValidator.spent_other. eapply Forall_impl; [exact solvent_sources|]. cbn beta. congruence.
  - intros [|[|i]] p [= <-]; (split; [by vm_compute|split; [|by vm_compute]]); intros mf Hmf;
      (assert (mf = mkAmount 0 250000000000000000) as -> by (vm_compute in Hmf; congruence)); by vm_compute.
  - intros [|[|i]] p [= <-]; by vm_compute.
  - unfold solvent_txs. repeat constructor; by vm_compute.
Defined.

Definition round_accepted : list (Transaction * Amount) := Validator.accepted round_transfers [None_; None_; NegativeResult].
Definition round_pool : Pool.priv :=
  Pool.default <| Pool.transactions_ := map fst round_accepted |> <| Pool.numberTrusted_ := 3 |> <| Pool.realTrusted_ := 5 |>.

Lemma round_block : WalletsCache.transfer_block round_pool round_accepted sample_confidants.
Proof.
  split; [|by vm_compute|by vm_compute|apply (bool_decide_unpack _); by vm_compute|split; vm_compute; reflexivity].
  apply Forall_forall. intros p (i & Ep & _)%Validator.accepted_in. apply (Validator.ok_plain _ _ (Forall_lookup_1 _ _ _ _ round_ok Ep)).
Qed.

Lemma validated_round_stores_witness :
  exists pool' c',
    WalletsCache.loadNextBlock sample_ids (fun _ => Pool.default) round_pool sample_confidants false sample_cache = ret (pool', c') /\
    WalletsCache.ok c' /\ WalletsCache.total c' = WalletsCache.total sample_cache /\ forall k, 0 <= WalletsCache.bal k c'.
Proof.
  destruct round_mask as [s' E].
  apply (IterValidator.validated_round_stores sample_ids (fun _ => Pool.default) sample_cache no_contracts no_contracts (fun _ => eq_refl)
    no_invocation (fun _ => None) (fun _ => false) round_transfers round_ok ltac:(by vm_compute) sample_cache_ok round_rich round_history
    round_history_ok round_small round_txs [] [] round_state [None_; None_; NegativeResult] s' round_pool sample_confidants round_fees);
    [by vm_compute|done|done| |exact E| |].
  - intros k. rewrite round_bal, round_cost. unfold AMOUNT_MAX_FRACTION. destruct (decide _); lia.
  - exact round_block.
  - apply (bool_decide_unpack _); by vm_compute.
Defined.

(** ** A negative amount *)

(** The wallet 51 signs a transfer of -900 to the wallet 50. *)
Definition negative_tx : Transaction := signed_transfer 7 51 50 (-900).
Definition negative_pool (fee : AmountCommission) : Pool.priv :=
  Pool.default <| Pool.transactions_ := [Tx.set_counted_fee fee negative_tx] |> <| Pool.numberTrusted_ := 3 |> <| Pool.realTrusted_ := 5 |>.

(** The validator accepts a signed transfer of -900 of a wallet without any money, and loading its
    block takes 900 from the target: the validator and the cache alone never look at the sign of
    an amount; only the filters of createPacket and applyCharacteristic keep such a transfer out
    of a block. *)
Theorem negative_amount_takes :
  exists s' pool' c',
    IterValidator.formCharacteristic sample_ids (fun _ => Pool.default) sample_cache no_contracts no_contracts no_invocation
        (fun _ => None) (fun _ => false) [negative_tx] [] round_state
      = ret ([Tx.set_counted_fee 17279 negative_tx], [None_], [], s') /\
    WalletsCache.loadNextBlock sample_ids (fun _ => Pool.default) (negative_pool 17279) sample_confidants false sample_cache = ret (pool', c') /\
    WalletsCache.bal (sample_key 50) sample_cache = 1000 * AMOUNT_MAX_FRACTION /\
    WalletsCache.bal (sample_key 50) c' = 100 * AMOUNT_MAX_FRACTION /\
    WalletsCache.bal (sample_key 51) sample_cache = 0 /\ 899 * AMOUNT_MAX_FRACTION < WalletsCache.bal (sample_key 51) c'.
Proof.
  do 3 eexists. split; [vm_compute; reflexivity|]. split; [vm_compute; reflexivity|]. by vm_compute.
Qed.
