(* ===== verification/NodeIntake.v ===== *)
(** * Packets that arrive at the node ([csnode/src/node.cpp])

    [Node::getTransactionsPacket]: the parsing of a message with a packet, the
    check of its signatures (one of the sender, or those of the confidants of the
    block that started a contract's call), the check of its transactions, the
    penalties of the sender, and the table of the conveyer, in which the
    packets wait for a round. *)

From Stdlib Require Import ZArith Lia.
From stdpp Require Import base tactics numbers option list gmap.
From S2P Require Import Prelude Effect BinStream Amount UserField Crypto DataStream Address Transaction Packet MetaStorage Double Pool.
From S2P Require Import ContractRef Conveyer Fee WalletsIds WalletsCache Validator IterValidator.

Local Open Scope Z_scope.
Local Open Scope cs_scope.

Import Contracts.

(** The members of [Node] that these handlers change, and the conveyer *)
Record Intake := mkIntake { blackListCounter_ : gmap bytes Z; conveyer_ : Impl }.
#[global] Instance eta_intake : Eta Intake := fun s => mkIntake (blackListCounter_ s) (conveyer_ s).

(** [addToBlackList(key, isMarked)] *)
Inductive Penalty : Set := BlackList (key : bytes) (isMarked : bool).

Module NodeIntake.

Definition BlackListCounterMaxValue : Z := 100000.
Definition BlackListCounterSinglePenalty : Z := 10000.
Definition MaxContractResultTransactions : Z := 100.
Definition AccusalPacketSize : Z := 10.

(** [addToBlackListCounter] *)
Definition addToBlackListCounter (key : bytes) (counters : gmap bytes Z) : gmap bytes Z * list Penalty :=
  match counters !! key with
  | None => (<[key := BlackListCounterSinglePenalty]> counters, [])
  | Some count =>
      let count := u64 (count + BlackListCounterSinglePenalty) in
      (<[key := count]> counters, if BlackListCounterMaxValue <? count then [BlackList key true] else [])
  end.

(** [updateBlackListCounter] *)
Definition updateBlackListCounter (counters : gmap bytes Z) : gmap bytes Z :=
  omap (fun count => let count := u64 (count - 1) in if count =? 0 then None else Some count) counters.

Section intake.
Context `{!Cscrypto, !Libm} {D : Type} `{!MultiIndex D} (ids : WalletsIds D) (loadBlock : Z -> Pool.priv) (cache : Cache).
Context (known : Address -> bool) (deserialize : bytes -> Invocation) (test_violations : Transaction -> Z) (is_payable_call : Transaction -> bool).

(** [verifyPacketSignatures]; the first transaction of an empty packet is undefined. *)
Definition verifyPacketSignatures (packet : TransactionsPacket) (sender : bytes) : M bool :=
  let verified v := match v with Verified => true | _ => false end in
  if (length (signatures_ packet) =? 1)%nat then ret (verified (Packet.verify sender packet))
  else if (2 <? length (signatures_ packet))%nat then
    match transactions_ packet with
    | [] => None
    | tr :: _ =>
        if is_new_state tr then
          let fld := Tx.user_field new_state_RefStart tr in
          if uf_is_valid fld then
            do! reference := lift (Ref.from_user_field fld) in
            if Ref.is_valid reference then
              let block := loadBlock (sequence reference) in
              if Pool.is_valid_ block then ret (verified (Packet.verify_confidants (Pool.confidants_ block) packet)) else ret true
            else ret false
          else ret false
        else ret false
    end
  else ret false.

(** The transactions that [SimpleValidator::validate] takes *)
Fixpoint count_valid (transactions : list Transaction) : M Z :=
  match transactions with
  | [] => ret 0
  | t :: transactions =>
      do! r := IterValidator.validate ids cache known deserialize test_violations is_payable_call t in
      do! sum := count_valid transactions in
      ret (if r.1.1 then 1 + sum else sum)
  end.

(** [verifyPacketTransactions] *)
Definition verifyPacketTransactions (packet : TransactionsPacket) (key : bytes) (counters : gmap bytes Z) : M (bool * gmap bytes Z * list Penalty) :=
  let cnt := Packet.transactionsCount packet in
  do! sum := (if (length (signatures_ packet) =? 1)%nat then count_valid (transactions_ packet) else ret 0) in
  if (2 <? length (signatures_ packet))%nat then
    ret (negb (MaxContractResultTransactions <? Z.of_nat (length (transactions_ packet))), counters, [])
  else if negb (length (signatures_ packet) =? 1)%nat then ret (false, counters, [])
  else if sum =? cnt then ret (true, counters, [])
  else if AccusalPacketSize <? cnt then
    if sum <? cnt / 2 then ret (false, counters, [])
    else let '(counters, penalties) := addToBlackListCounter key counters in ret (true, counters, penalties)
  else if sum <? cnt / 2 then let '(counters, penalties) := addToBlackListCounter key counters in ret (true, counters, penalties)
  else ret (true, counters, []).

(** [istream_ >> packet] *)
Definition read_packet (data : bytes) : result TransactionsPacket :=
  let! (bytes, _) := parseVector (open data) in
  match bytes with
  | [] => Ok Packet.empty
  | _ => Packet.fromBinary bytes
  end.

(** [getTransactionsPacket], with [processTransactionsPacket] *)
Definition getTransactionsPacket (data sender : bytes) (s : Intake) : M (Intake * list Penalty) :=
  do! packet := lift (read_packet data) in
  if Packet.isHashEmpty packet then ret (s, [])
  else
    do! signed := verifyPacketSignatures packet sender in
    do! (good, counters, penalties) :=
      (if signed : bool then verifyPacketTransactions packet sender (blackListCounter_ s) else ret (false, blackListCounter_ s, [])) in
    let s := s <| blackListCounter_ := counters |> in
    if good : bool then ret (s <| conveyer_ := Conveyer.addTransactionsPacket packet (conveyer_ s) |>, penalties)
    else ret (s, penalties ++ [BlackList sender true]).

(** *** What enters the table *)

(** With one signature, the sender's; with three or more, and when the block of the call is known,
    more entries than half of its confidants that are valid for the confidant they name.  Entries
    are counted, also repeated ones; when they name distinct confidants, more than half of the
    confidants signed. *)
Definition authentic (sender : bytes) (p : TransactionsPacket) : Prop :=
  (exists i sg, signatures_ p = [(i, sg)] /\ verifySignature sg sender (hash_ p) = true) \/
  ((2 < length (signatures_ p))%nat /\ exists tr l ref, transactions_ p = tr :: l /\ is_new_state tr = true /\
     Ref.from_user_field (Tx.user_field new_state_RefStart tr) = Ok ref /\
     (Pool.is_valid_ (loadBlock (sequence ref)) = true ->
        let keys := Pool.confidants_ (loadBlock (sequence ref)) in
        Z.of_nat (length keys) < 2 * Packet.valid_count (hash_ p) keys (signatures_ p) /\
        (Forall (fun s => 0 <= s.1) (signatures_ p) -> NoDup (map fst (signatures_ p)) ->
           Z.of_nat (length keys) < 2 * Z.of_nat (length (Packet.signers keys p))))).

Lemma verifyPacketSignatures_spec packet sender : verifyPacketSignatures packet sender = ret true -> authentic sender packet.
Proof.
  unfold verifyPacketSignatures. destruct (Nat.eqb_spec (length (signatures_ packet)) 1) as [E1|]; [intros [= Hv]; left|].
  { unfold Packet.verify in Hv. destruct (Packet.isHashEmpty packet); [done|]. destruct (signatures_ packet) as [|[i sg] [|? ?]]; [done| |done].
    exists i, sg. split; [done|]. by destruct (verifySignature _ _ _). }
  destruct (Nat.ltb_spec 2 (length (signatures_ packet))) as [E2|]; [|done]. destruct (transactions_ packet) as [|tr l] eqn:Et; [done|].
  destruct (is_new_state tr) eqn:En; [|done]. destruct (uf_is_valid _); [|done]. intros (ref & Er & E)%mthen_ok.
  right. split; [done|]. exists tr, l, ref. split_and!; [done|done|by injection Er|]. intros Hb keys.
  destruct (Ref.is_valid ref); [|done]. rewrite Hb in E. injection E as E.
  assert (Packet.verify_confidants keys packet = Verified) as Hv by by destruct (Packet.verify_confidants _ _).
  split; [by apply Packet.verify_confidants_counts|]. intros Hpos Hn. by apply Packet.verify_confidants_majority.
Qed.

(** A packet that has been read has the hash of its transactions, or none. *)
Definition content_hash (p : TransactionsPacket) : bytes := PacketHash.calcFromData (Packet.toBinary p Transactions).

Lemma get_hash ist q ist' : Packet.get ist = Ok (Some (q, ist')) -> hash_ q = [].
Proof.
  unfold Packet.get. destruct (BinStream.get _ ist) as [[n r]|]; [|done].
  destruct (Packet.get_elements _ _ _ _) as [[[l1 r1]|]|]; cbn [rbind]; [|done..].
  destruct (Packet.get_states _) as [[[l2 r2]|]|]; cbn [rbind]; [|done..].
  destruct (Packet.get_signatures _) as [[[l3 r3]|]|]; cbn [rbind]; [|done..]. by intros [= <- <-].
Qed.

Lemma read_packet_hash data p : read_packet data = Ok p -> hash_ p = [] \/ hash_ p = content_hash p.
Proof.
  unfold read_packet. destruct (parseVector (open data)) as [[[|b l] st]|]; cbn [rbind]; [intros [= <-]; by left| |done].
  unfold Packet.fromBinary, Packet.fromByteStream. destruct (Packet.get (b :: l)) as [[[q ist]|]|] eqn:Eg; cbn [rbind]; [|intros [= <-]; by left|done].
  intros [= <-]. apply get_hash in Eg. unfold Packet.makeHash, Packet.isHashEmpty. rewrite Eg. by right.
Qed.

Lemma addTransactionsPacket_lookup p s h q :
  packetsTable_ (Conveyer.addTransactionsPacket p s) !! h = Some q -> packetsTable_ s !! h = Some q \/ (h = hash_ p /\ q = p).
Proof.
  unfold Conveyer.addTransactionsPacket. destruct (Conveyer.isPacketAtCache p s); cbn [negb]; [by left|]. cbn [upd packetsTable_].
  unfold Conveyer.emplace_packet. destruct (packetsTable_ s !! hash_ p); [by left|].
  destruct (decide (hash_ p = h)) as [<-|]; [rewrite lookup_insert_eq; intros [= ->]; by right|rewrite lookup_insert_ne by done; by left].
Qed.

(** C4: A packet of the conveyer's table after getTransactionsPacket was there before or is stored
    under the hash of its own transactions and is authentic: it has one signature, which verifies
    under the sender's key, or it has more than two, begins with a new state that refers to a
    block, and, when loadBlock gives a valid block for that reference, more than half as many
    entries as the block has confidants are valid signatures of the packet's hash under the key of
    the confidant that the entry names (an entry that is repeated counts each time); when the
    entries name distinct confidants, these are more than half of the block's confidants. *)
Theorem intake_authentic data sender s s' penalties h p :
  getTransactionsPacket data sender s = ret (s', penalties) ->
  packetsTable_ (conveyer_ s') !! h = Some p ->
  packetsTable_ (conveyer_ s) !! h = Some p \/ (h = content_hash p /\ hash_ p = h /\ authentic sender p).
Proof.
  unfold getTransactionsPacket. intros (packet & Er & E)%mthen_ok. injection Er as Er. apply read_packet_hash in Er.
  destruct (Packet.isHashEmpty packet) eqn:Eh; [injection E as <- <-; by left|].
  apply mthen_ok in E as (signed & Es & E). apply mthen_ok in E as ([[good counters] pen] & Ev & E). destruct good; [|injection E as <- <-; by left].
  injection E as <- <-. cbn [upd conveyer_]. intros [?|[-> ->]]%addTransactionsPacket_lookup; [by left|right].
  destruct Er as [Er|Er]; [unfold Packet.isHashEmpty in Eh; by rewrite Er in Eh|]. split_and!; [done|done|].
  destruct signed; [by apply verifyPacketSignatures_spec|done].
Qed.

(** What the check of the transactions says of a packet with one signature *)
Lemma verifyPacketTransactions_spec packet key counters sum :
  length (signatures_ packet) = 1%nat -> count_valid (transactions_ packet) = ret sum ->
  exists counters' penalties,
    verifyPacketTransactions packet key counters
      = ret (negb ((AccusalPacketSize <? Packet.transactionsCount packet) && negb (sum =? Packet.transactionsCount packet)
                   && (sum <? Packet.transactionsCount packet / 2)), counters', penalties).
Proof.
  intros E1 Es. unfold verifyPacketTransactions. rewrite E1, Es. cbn [Nat.eqb Nat.ltb Nat.leb mthen ret negb].
  destruct (sum =? _) eqn:E; cbn [negb andb]; [rewrite andb_false_r; by do 2 eexists|].
  destruct (AccusalPacketSize <? _); destruct (sum <? _); cbn [andb negb]; repeat (destruct (addToBlackListCounter _ _)); by do 2 eexists.
Qed.

(** A packet of at most ten transactions whose sender signed it is stored whatever its
    transactions are, invalid ones included: the check of the transactions can only add to the
    sender's penalty. *)
Theorem small_packets_pass data sender s packet sum :
  read_packet data = Ok packet -> Packet.isHashEmpty packet = false -> Packet.verify sender packet = Verified ->
  Packet.transactionsCount packet <= AccusalPacketSize -> count_valid (transactions_ packet) = ret sum ->
  Conveyer.isPacketAtCache packet (conveyer_ s) = false ->
  exists s' penalties, getTransactionsPacket data sender s = ret (s', penalties) /\
    packetsTable_ (conveyer_ s') = <[hash_ packet := packet]> (packetsTable_ (conveyer_ s)).
Proof.
  intros Er Eh Ev Hn Es Hc. assert (length (signatures_ packet) = 1%nat) as E1.
  { unfold Packet.verify in Ev. rewrite Eh in Ev. by destruct (signatures_ packet) as [|[? ?] [|? ?]]. }
  destruct (verifyPacketTransactions_spec packet sender (blackListCounter_ s) sum E1 Es) as (counters' & penalties & E).
  rewrite (proj2 (Z.ltb_ge _ _)) in E by done. cbn [andb negb] in E.
  do 2 eexists. split.
  - unfold getTransactionsPacket, lift. rewrite Er. cbn [mthen ret]. rewrite Eh. unfold verifyPacketSignatures. rewrite E1. cbn [Nat.eqb].
    rewrite Ev. cbn [mthen ret]. rewrite E. cbn [mthen ret]. reflexivity.
  - cbn [upd conveyer_]. unfold Conveyer.addTransactionsPacket. rewrite Hc. cbn [negb upd packetsTable_]. unfold Conveyer.emplace_packet.
    unfold Conveyer.isPacketAtCache in Hc. apply orb_false_iff in Hc as [Hc _]. apply bool_decide_eq_false in Hc.
    by apply eq_None_not_Some in Hc as ->.
Qed.

Context `{!CscryptoLaws _}.

(** A packet without transactions and with three signatures or more is undefined behaviour in the
    node that gets it: verifyPacketSignatures takes the first transaction of an empty vector. *)
Theorem empty_contract_packet_undefined p sender s :
  Packet.wf_packet p -> transactions_ p = [] -> (2 < length (signatures_ p))%nat ->
  Z.of_nat (length (Packet.toBinary p All)) < 2 ^ 61 -> bytes_ok (ds_enc vector_ds (Packet.toBinary p All)) ->
  getTransactionsPacket (ds_enc vector_ds (Packet.toBinary p All)) sender s = None.
Proof.
  intros Hp Ht Hs Hl Hb. destruct (Packet.get_put_parts p [] Hp) as [G _]. rewrite app_nil_r, Ht in G.
  set (raw := Packet.toBinary p All) in *. change (Packet.put p All []) with raw in G.
  assert (Z.of_nat (length (ds_enc vector_ds raw)) < 2 ^ 62) as Hl2.
  { change (ds_enc vector_ds raw) with (addVector raw []). unfold addVector, addValue. rewrite ?length_app, ?length_le_bytes. cbn [length]. lia. }
  destruct (ds_step vector_ds raw [] (open (ds_enc vector_ds raw))) as (st & E & _); [cbn; lia|by apply sane_open|by rewrite app_nil_r|].
  unfold getTransactionsPacket, read_packet, lift. cbn [ds_get vector_ds] in E. rewrite E. cbn [rbind].
  assert (raw <> []) as Hne by (intros E0; rewrite E0 in G; by cbn in G).
  destruct raw as [|b raw]; [done|]. unfold Packet.fromBinary, Packet.fromByteStream. rewrite G. cbn [rbind].
  unfold Packet.makeHash, Packet.isHashEmpty. cbn [hash_ PacketHash.isEmpty snd upd mthen ret].
  assert (PacketHash.isEmpty (PacketHash.calcFromData (Packet.toBinary (mkPacket [] [] (stateTransactions_ p) (signatures_ p)) Transactions)) = false) as ->.
  { pose proof (calculateHash_length (Packet.toBinary (mkPacket [] [] (stateTransactions_ p) (signatures_ p)) Transactions)) as Hh.
    pose proof hash_size_pos. unfold PacketHash.calcFromData. destruct (calculateHash _); [cbn in Hh; lia|done]. }
  unfold verifyPacketSignatures. cbn [upd signatures_ transactions_]. destruct (Nat.eqb_spec (length (signatures_ p)) 1); [lia|].
  by rewrite (proj2 (Nat.ltb_lt _ _)) by done.
Qed.
End intake.
End NodeIntake.

(** ** Witnesses *)

(** The transfer of -900 in a packet that its sender has signed *)
Definition sender_key : bytes := sample_key 51.
Definition unsigned_packet : TransactionsPacket := mkPacket [] [negative_tx] [] [].
Definition negative_packet : TransactionsPacket := Eval vm_compute in
  let hash := NodeIntake.content_hash unsigned_packet in
  mkPacket hash [Tx.from_binary (Tx.to_byte_stream negative_tx)] [] [(0, toy_hash (sender_key ++ hash) ++ replicate 32 0)].
Definition negative_message : bytes := Eval vm_compute in ds_enc vector_ds (Packet.toBinary negative_packet All).
#[local] Existing Instance toy_libm.
Definition start_intake : Intake := mkIntake ∅ (Conveyer.init 10 10 10 5).
#[local] Abbreviation receive_sample message := (NodeIntake.getTransactionsPacket sample_ids (fun _ => Pool.default) sample_cache no_contracts
  no_invocation (fun _ => 0) (fun _ => false) message sender_key start_intake).

Lemma small_packets_pass_witness :
  exists s' penalties, receive_sample negative_message = ret (s', penalties) /\
    packetsTable_ (conveyer_ s') = <[hash_ negative_packet := negative_packet]> (packetsTable_ (conveyer_ start_intake)).
Proof.
  apply (NodeIntake.small_packets_pass sample_ids (fun _ => Pool.default) sample_cache no_contracts no_invocation (fun _ => 0) (fun _ => false)
    negative_message sender_key start_intake negative_packet 0); by vm_compute.
Defined.

Lemma receive_negative : exists r, receive_sample negative_message = ret r.
Proof. eexists. vm_compute. reflexivity. Qed.

Lemma intake_authentic_witness :
  exists s' penalties, receive_sample negative_message = ret (s', penalties) /\
    forall h p, packetsTable_ (conveyer_ s') !! h = Some p ->
      packetsTable_ (conveyer_ start_intake) !! h = Some p \/
      (h = NodeIntake.content_hash p /\ hash_ p = h /\ NodeIntake.authentic (fun _ => Pool.default) sender_key p).
Proof.
  destruct receive_negative as [[s' penalties] E]. exists s', penalties. split; [exact E|].
  intros h p. exact (NodeIntake.intake_authentic sample_ids (fun _ => Pool.default) sample_cache no_contracts no_invocation (fun _ => 0)
    (fun _ => false) negative_message sender_key start_intake s' penalties h p E).
Defined.

Definition empty_contract_packet : TransactionsPacket := mkPacket [] [] [] [(0, replicate 64 1); (1, replicate 64 2); (2, replicate 64 3)].

Lemma empty_contract_packet_undefined_witness : receive_sample (ds_enc vector_ds (Packet.toBinary empty_contract_packet All)) = None.
Proof.
  apply (NodeIntake.empty_contract_packet_undefined sample_ids (fun _ => Pool.default) sample_cache no_contracts no_invocation (fun _ => 0)
    (fun _ => false) empty_contract_packet sender_key start_intake).
  - split; [constructor|constructor| |by vm_compute].
    repeat (apply Forall_cons; split; [split; [cbn; lia|done]|]). constructor.
  - done.
  - cbn. lia.
  - by vm_compute.
  - apply (bool_decide_unpack _). by vm_compute.
Defined.
