(* ===== verification/Scheduler.v ===== *)
(** * The calls scheduler ([solver/src/callsqueuescheduler.cpp], [callsqueuescheduler.hpp])

    Timed calls wait in [_queue], ordered by time.  The worker thread moves
    the due ones to the node's [CallsQueue], whose single thread runs them;
    [_exe_sync] counts, per tag, the calls queued and done, to keep a second
    call of a tag out while the first is still waiting or running.

    Every method holds [_mtx_queue], so the system is a step relation whose
    steps are the critical sections: the client's methods, one turn of the
    worker's loop, and the two locked sections of a job, before and after the
    call itself.  [pending] and [running] are the jobs inside [CallsQueue] (the
    order in which it picks them is left open).  A procedure is a number; its
    type's [hash_code] is a parameter. *)

From Stdlib Require Import Sorted ZArith Lia.
From stdpp Require Import base tactics numbers option list.
From S2P Require Import Prelude OrdMap.

Local Open Scope Z_scope.
Local Open Scope cs_scope.

Inductive Launch : Set := once | periodic.

Record Context := mkContext { id : Z; tp : Z; dt : Z; proc : Z }.
#[export] Instance eta_context : Eta Context := fun c => mkContext (id c) (tp c) (dt c) (proc c).

(** The counters of a tag, [uint32_t]. *)
Record ExeSync := mkExeSync { queued : Z; done_ : Z }.

Record State := mkState {
  _queue : list Context;
  _exe_sync : list (Z * ExeSync);
  _cnt_total : Z;
  _cnt_block_exe : Z;
  _cnt_block_que : Z;
  pending : list Context;
  running : option Context
}.
#[export] Instance eta_state : Eta State := fun s =>
  mkState (_queue s) (_exe_sync s) (_cnt_total s) (_cnt_block_exe s) (_cnt_block_que s) (pending s) (running s).

Definition no_tag : Z := 0.
Definition auto_tag : Z := no_tag.
(** Nanoseconds, the ticks of [steady_clock]. *)
Definition min_wait_for : Z := 5.
Definition ms : Z := 1000000.

Definition init : State := mkState [] [] 0 0 0 [] None.

Section scheduler.
Context (hash_code : Z -> Z).

(** [std::multiset::insert]: after the elements that are not later. *)
Fixpoint insert_ctx (c : Context) (q : list Context) : list Context :=
  match q with
  | [] => [c]
  | c' :: q' => if tp c <? tp c' then c :: q else c' :: insert_ctx c q'
  end.

(** [std::find] by tag, and [erase] of what it finds. *)
Fixpoint has_id (i : Z) (q : list Context) : bool :=
  match q with [] => false | c :: q' => (id c =? i) || has_id i q' end.
Fixpoint erase_id (i : Z) (q : list Context) : list Context :=
  match q with [] => [] | c :: q' => if id c =? i then q' else c :: erase_id i q' end.

Definition OnExeQueued (i : Z) (sync : list (Z * ExeSync)) : list (Z * ExeSync) :=
  match find i sync with
  | None => emplace i (mkExeSync 1 0) sync
  | Some e => assign i (mkExeSync (u32 (queued e + 1)) (done_ e)) sync
  end.

Definition OnExeDone (i : Z) (sync : list (Z * ExeSync)) : list (Z * ExeSync) :=
  match find i sync with
  | Some e => assign i (mkExeSync (queued e) (u32 (done_ e + 1))) sync
  | None => sync
  end.

Definition CanExe (i : Z) (sync : list (Z * ExeSync)) : bool :=
  match find i sync with Some e => done_ e =? queued e | None => true end.

Definition ConfirmExe (i : Z) (sync : list (Z * ExeSync)) : bool :=
  match find i sync with Some e => u32 (queued e - done_ e) =? 1 | None => false end.

(** [Insert]; [now] is the clock, [wait_for] a duration in nanoseconds. *)
Definition Insert (now wait_for proc : Z) (scheme : Launch) (replace_existing : bool) (tag : Z) (s : State)
  : Z * State :=
  let i := if tag =? auto_tag then hash_code proc else tag in
  let c := mkContext i (now + wait_for) (match scheme with once => 0 | periodic => Z.quot wait_for ms end) proc in
  if has_id i (_queue s) then
    if negb replace_existing then (i, s <| _cnt_block_que := u32 (_cnt_block_que s + 1) |>)
    else (i, s <| _queue := insert_ctx c (erase_id i (_queue s)) |>)
  else (i, s <| _queue := insert_ctx c (_queue s) |>).

Definition rollback (sync : ExeSync) : ExeSync := mkExeSync (done_ sync) (done_ sync).

Definition Remove (i : Z) (s : State) : bool * State :=
  let sync := match find i (_exe_sync s) with
              | Some e => assign i (rollback e) (_exe_sync s)
              | None => _exe_sync s
              end in
  if negb (has_id i (_queue s)) then (false, s <| _exe_sync := sync |>)
  else (true, s <| _exe_sync := sync |> <| _queue := erase_id i (_queue s) |>).

Definition RemoveAll (s : State) : State :=
  s <| _queue := [] |> <| _exe_sync := map (fun p => (p.1, rollback p.2)) (_exe_sync s) |>.

Definition Clear (s : State) : State := s <| _queue := [] |> <| _exe_sync := [] |>.

(** One turn of the inner loop of [SchedulerProc]: [None] when no call is
    due.  [now] and [now'] are the two readings of the clock. *)
Definition due (now now' : Z) (s : State) : option State :=
  match _queue s with
  | [] => None
  | run :: q =>
      if min_wait_for <=? tp run - now then None
      else
        let s := s <| _queue := q |> in
        let s :=
          if CanExe (id run) (_exe_sync s) then
            s <| _exe_sync := OnExeQueued (id run) (_exe_sync s) |> <| pending := run :: pending s |>
              <| _cnt_total := u32 (_cnt_total s + 1) |>
          else s <| _cnt_block_exe := u32 (_cnt_block_exe s + 1) |> in
        Some (if 0 <? dt run
              then s <| _queue := insert_ctx (run <| tp := now' + dt run * ms |>) (_queue s) |>
              else s)
  end.

(** The two locked sections of the [i]-th pending job. *)
Definition start (i : nat) (s : State) : option State :=
  match running s, pending s !! i with
  | None, Some run =>
      let s := s <| pending := take i (pending s) ++ drop (S i) (pending s) |> in
      Some (if ConfirmExe (id run) (_exe_sync s) then s <| running := Some run |> else s)
  | _, _ => None
  end.

Definition finish (s : State) : option State :=
  match running s with
  | Some run => Some (s <| running := None |> <| _exe_sync := OnExeDone (id run) (_exe_sync s) |>)
  | None => None
  end.

(** ** Steps *)

Inductive label : Set :=
  | LInsert (now wait_for proc : Z) (scheme : Launch) (replace_existing : bool) (tag : Z)
  | LRemove (i : Z) | LRemoveAll | LClear
  | LDue (now now' : Z) | LStart (i : nat) | LFinish.

Definition step (s : State) (l : label) : option State :=
  match l with
  | LInsert now wait_for proc scheme replace_existing tag =>
      Some (snd (Insert now wait_for proc scheme replace_existing tag s))
  | LRemove i => Some (snd (Remove i s))
  | LRemoveAll => Some (RemoveAll s)
  | LClear => Some (Clear s)
  | LDue now now' => due now now' s
  | LStart i => start i s
  | LFinish => finish s
  end.

(** The states reachable by labels that satisfy [P]. *)
Inductive reach (P : label -> Prop) (s0 : State) : State -> Prop :=
  | reach_refl : reach P s0 s0
  | reach_step s l s' : reach P s0 s -> P l -> step s l = Some s' -> reach P s0 s'.

(** Labels that cancel nothing, and labels that do not cancel tag [i]. *)
Definition no_cancel (l : label) : Prop :=
  match l with LRemove _ | LRemoveAll | LClear => False | _ => True end.
Definition not_cancelled (i : Z) (l : label) : Prop :=
  match l with LRemove j => j <> i | LRemoveAll | LClear => False | _ => True end.

(** The jobs of a tag that wait or run in [CallsQueue]. *)
Definition jobs (i : Z) (s : State) : Z :=
  Z.of_nat (length (filter (fun c => id c = i) (pending s)))
  + (match running s with Some c => if decide (id c = i) then 1 else 0 | None => 0 end).

(** ** The queue: ordered by time, one call of a tag *)

Definition by_time (q : list Context) : Prop := StronglySorted (fun c c' => tp c <= tp c') q.

Lemma insert_ctx_perm c q : insert_ctx c q ≡ₚ c :: q.
Proof.
  induction q as [|c' q IH]; cbn [insert_ctx]; [done|]. case_match; [done|].
  rewrite IH. apply Permutation_swap.
Qed.

Lemma insert_ctx_by_time c q : by_time q -> by_time (insert_ctx c q).
Proof.
  induction 1 as [|c' q Hs IH Hf]; cbn [insert_ctx]; [repeat constructor|].
  destruct (Z.ltb_spec (tp c) (tp c')).
  - constructor; [by constructor|]. constructor; [lia|]. eapply Forall_impl; [exact Hf|]. cbn. lia.
  - constructor; [done|]. rewrite insert_ctx_perm. by constructor.
Qed.

Lemma erase_id_sub i q : erase_id i q `sublist_of` q.
Proof.
  induction q as [|c q IH]; cbn [erase_id]; [done|]. case_match; [by apply sublist_cons|by apply sublist_skip].
Qed.

Lemma by_time_sub q q' : q `sublist_of` q' -> by_time q' -> by_time q.
Proof.
  induction 1 as [|c q q' Hq IH|c q q' Hq IH]; intros Hs; [done|..]; inversion Hs as [|? ? Hs' Hf]; subst.
  - constructor; [by apply IH|]. rewrite Forall_forall in *. intros c' Hc'. by eapply Hf, elem_of_sublist.
  - by apply IH.
Qed.

Lemma has_id_false i q : has_id i q = false -> i ∉ map id q.
Proof.
  induction q as [|c q IH]; cbn [has_id map]; [intros _; apply not_elem_of_nil|].
  intros [Hc Hq]%orb_false_iff. apply not_elem_of_cons. split; [|by apply IH].
  apply Z.eqb_neq in Hc. congruence.
Qed.

Lemma erase_id_gone i q : NoDup (map id q) -> i ∉ map id (erase_id i q).
Proof.
  induction q as [|c q IH]; cbn [erase_id map]; intros Hd; [apply not_elem_of_nil|].
  apply NoDup_cons in Hd as [Hn Hd]. destruct (Z.eqb_spec (id c) i) as [<-|Hne]; [done|].
  cbn [map]. apply not_elem_of_cons. split; [congruence|by apply IH].
Qed.

Lemma nodup_ids_sub q q' : q `sublist_of` q' -> NoDup (map id q') -> NoDup (map id q).
Proof. intros Hs Hd. eapply sublist_NoDup; [exact Hd|]. by apply (fmap_sublist id). Qed.

Definition queue_ok (s : State) : Prop := by_time (_queue s) /\ NoDup (map id (_queue s)).

Lemma insert_ctx_ok c q :
  by_time q -> NoDup (map id q) -> id c ∉ map id q ->
  by_time (insert_ctx c q) /\ NoDup (map id (insert_ctx c q)).
Proof.
  intros Hs Hd Hn. split; [by apply insert_ctx_by_time|].
  assert (map id (insert_ctx c q) ≡ₚ id c :: map id q) as -> by (change (id c :: map id q) with (map id (c :: q)); by apply Permutation_map, insert_ctx_perm).
  by constructor.
Qed.

Lemma step_queue_ok s l s' : queue_ok s -> step s l = Some s' -> queue_ok s'.
Proof.
  intros [Hs Hd] E. destruct l as [now w pr sch r tag|i| | |now now'|i|]; cbn [step] in E; unfold queue_ok.
  - injection E as <-. unfold Insert. destruct (has_id _ _) eqn:Eh; [destruct r; cbn [negb]|]; cbn [snd upd _queue];
      [|done|apply insert_ctx_ok; [done..|by apply has_id_false]].
    pose proof (erase_id_sub (if tag =? auto_tag then hash_code pr else tag) (_queue s)) as Hsub.
    apply insert_ctx_ok; [by eapply by_time_sub|by eapply nodup_ids_sub|by apply erase_id_gone].
  - injection E as <-. unfold Remove. destruct (has_id i (_queue s)); cbn [negb snd upd _queue]; [|done].
    pose proof (erase_id_sub i (_queue s)) as Hsub. split; [by eapply by_time_sub|by eapply nodup_ids_sub].
  - injection E as <-. cbn. split; constructor.
  - injection E as <-. cbn. split; constructor.
  - unfold due in E. destruct (_queue s) as [|run q] eqn:Eq; [done|]. destruct (_ <=? _); [done|].
    injection E as <-. inversion Hs as [|? ? Hs' _]; subst. apply NoDup_cons in Hd as [Hn Hd].
    destruct (CanExe _ _), (0 <? dt run); cbn [upd _queue]; try done; by apply insert_ctx_ok.
  - unfold start in E. destruct (running s); [done|]. destruct (pending s !! i); [|done]. injection E as <-.
    by destruct (ConfirmExe _ _).
  - unfold finish in E. destruct (running s); [|done]. by injection E as <-.
Qed.

(** In every reachable state of the scheduler, cancellations included, the queue is ordered by
    time and holds at most one call of a tag. *)
Theorem queue_ordered s : reach (fun _ => True) init s -> queue_ok s.
Proof.
  induction 1 as [|s l s' _ IH _ E]; [split; constructor|]. by eapply step_queue_ok.
Qed.

(** ** The counters, while nothing is cancelled *)

Definition sync_ok (s : State) : Prop :=
  sorted (_exe_sync s) /\
  forall i, match find i (_exe_sync s) with
            | Some e => u32 (queued e - done_ e) = jobs i s /\ in_u 32 (queued e) /\ in_u 32 (done_ e)
            | None => jobs i s = 0
            end /\ jobs i s <= 1.

Lemma jobs_nonneg i s : 0 <= jobs i s.
Proof. unfold jobs. destruct (running s); [case_decide|]; lia. Qed.

Lemma CanExe_jobs i s : sync_ok s -> CanExe i (_exe_sync s) = (jobs i s =? 0).
Proof.
  intros [_ H]. destruct (H i) as [Hi Hj]. unfold CanExe.
  destruct (find i (_exe_sync s)) as [e|]; [|by rewrite Hi]. destruct Hi as (E & Hq & Hd).
  rewrite <- E. destruct (Z.eqb_spec (done_ e) (queued e)) as [->|Hne].
  - by rewrite Z.sub_diag.
  - symmetry. apply Z.eqb_neq. intros E0. machine_lia.
Qed.

Lemma ConfirmExe_jobs i s : sync_ok s -> 0 < jobs i s -> ConfirmExe i (_exe_sync s) = true.
Proof.
  intros [_ H] Hp. destruct (H i) as [Hi Hj]. unfold ConfirmExe.
  destruct (find i (_exe_sync s)) as [e|]; [|lia]. destruct Hi as (-> & _). apply Z.eqb_eq. lia.
Qed.

Lemma jobs_pending i s c k :
  pending s !! k = Some c -> running s = None ->
  jobs i (s <| pending := take k (pending s) ++ drop (S k) (pending s) |>) = jobs i s - (if decide (id c = i) then 1 else 0)
  /\ (id c = i -> 0 < jobs i s).
Proof.
  intros Hk Hr. unfold jobs. cbn [upd pending running]. rewrite Hr.
  rewrite (length_filter_middle (fun c => id c = i) _ _ _ Hk). case_decide; split; (lia || done).
Qed.

Lemma step_sync_ok s l s' : sync_ok s -> no_cancel l -> step s l = Some s' -> sync_ok s'.
Proof.
  intros Hok Hl E. pose proof Hok as [Hso Hj].
  destruct l as [now w pr sch r tag|i| | |now now'|k|]; cbn [step no_cancel] in *; try done.
  - injection E as <-. unfold Insert. destruct (has_id _ _); [destruct r|]; exact Hok.
  - unfold due in E. destruct (_queue s) as [|run q]; [done|]. destruct (_ <=? _); [done|]. injection E as <-.
    set (s1 := if CanExe _ _ then _ else _).
    assert (sync_ok s1) as H1; [|by destruct (0 <? dt run)].
    unfold s1. cbn [upd _exe_sync]. destruct (CanExe (id run) (_exe_sync s)) eqn:Ec; [|exact Hok].
    rewrite CanExe_jobs in Ec by done. apply Z.eqb_eq in Ec.
    assert (forall i, jobs i (s <| pending := run :: pending s |>) = jobs i s + if decide (id run = i) then 1 else 0) as EJ.
    { intros i. unfold jobs. cbn [upd pending running]. rewrite filter_cons. case_decide; cbn [length]; lia. }
    split; cbn [upd _exe_sync].
    + unfold OnExeQueued. destruct (find _ _); auto with cs.
    + intros i. specialize (Hj i) as [Hi Hle]. unfold jobs in *. cbn [upd pending running] in *. rewrite EJ.
      unfold OnExeQueued. destruct (find (id run) (_exe_sync s)) as [e|] eqn:Ef;
        rewrite ?find_assign, ?find_emplace by done; destruct (Z.eqb_spec i (id run)) as [->|Hne].
      * rewrite Ef in Hi. destruct Hi as (Hi & Hq & Hd). rewrite decide_True by done. cbn [queued done_].
        split_and!; [machine_lia|apply uwrap_range; lia|exact Hd|lia].
      * rewrite decide_False by congruence. rewrite Z.add_0_r. done.
      * rewrite decide_True by done. cbn [queued done_]. rewrite Ec. split_and!; done.
      * rewrite decide_False by congruence. rewrite Z.add_0_r. done.
  - unfold start in E. destruct (running s) eqn:Er; [done|]. destruct (pending s !! k) as [c|] eqn:Ep; [|done].
    injection E as <-. destruct (jobs_pending (id c) s c k Ep Er) as [_ Hpos].
    cbn [upd _exe_sync]. rewrite ConfirmExe_jobs by auto. split; [exact Hso|]. intros i.
    assert (forall s1 c, running s1 = None -> jobs i (s1 <| running := Some c |>) = jobs i s1 + if decide (id c = i) then 1 else 0) as EJ.
    { intros s1 c1 Hr1. unfold jobs. cbn [upd pending running]. rewrite Hr1. lia. }
    rewrite EJ by (cbn; done). destruct (jobs_pending i s c k Ep Er) as [-> _].
    cbn [upd _exe_sync]. rewrite Z.sub_add. apply Hj.
  - unfold finish in E. destruct (running s) as [c|] eqn:Er; [|done]. injection E as <-.
    assert (forall i, jobs i (s <| running := None |>) = jobs i s - if decide (id c = i) then 1 else 0) as EJ.
    { intros i. unfold jobs. cbn [upd pending running]. rewrite Er. lia. }
    split; cbn [upd _exe_sync].
    + unfold OnExeDone. destruct (find _ _); auto with cs.
    + intros i. specialize (Hj i) as [Hi Hle]. pose proof (jobs_nonneg i (s <| running := None |>)) as Hnn.
      rewrite EJ in Hnn. unfold jobs in *. cbn [upd pending running] in *. rewrite EJ.
      unfold OnExeDone. destruct (find (id c) (_exe_sync s)) as [e|] eqn:Ef;
        rewrite ?find_assign by done; [destruct (Z.eqb_spec i (id c)) as [->|Hne]|].
      * rewrite Ef in Hi. destruct Hi as (Hi & Hq & Hd). rewrite decide_True in * by done. cbn [queued done_].
        split_and!; [machine_lia|exact Hq|apply uwrap_range; lia|lia].
      * rewrite decide_False by congruence. rewrite Z.sub_0_r. done.
      * destruct (decide (id c = i)) as [<-|Hne]; [|rewrite Z.sub_0_r; done]. rewrite Ef in Hi |- *. lia.
Qed.

Lemma reach_sync_ok s : reach no_cancel init s -> sync_ok s.
Proof.
  induction 1 as [|s l s' _ IH Hl E]; [|by eapply step_sync_ok].
  split; [constructor|]. intros i. by cbn.
Qed.

(** C39: As long as nothing is cancelled, in every interleaving of the scheduler's critical
    sections a tag has at most one job waiting or running, CanExe is true exactly when it has none
    (the uint32_t counters may wrap), and a waiting job that the queue picks is always confirmed
    and run. *)
Theorem no_overlap s :
  reach no_cancel init s ->
  (forall i, jobs i s <= 1 /\ CanExe i (_exe_sync s) = (jobs i s =? 0)) /\
  (forall k run, running s = None -> pending s !! k = Some run ->
     exists s', start k s = Some s' /\ running s' = Some run).
Proof.
  intros Hr. apply reach_sync_ok in Hr as Hok. split.
  - intros i. split; [apply Hok|by apply CanExe_jobs].
  - intros k run Hn Hk. unfold start. rewrite Hn, Hk. eexists; split; [done|].
    destruct (jobs_pending (id run) s run k Hk Hn) as [_ Hp]. cbn [upd _exe_sync].
    by rewrite ConfirmExe_jobs by auto.
Qed.

(** ** Cancelling a call while its job runs

    [Remove] rolls [queued] back to [done]; the job then adds one to [done],
    which is ahead of [queued] from then on. *)

Definition starved (i : Z) (s : State) : Prop :=
  sorted (_exe_sync s) /\ jobs i s = 0 /\
  exists e, find i (_exe_sync s) = Some e /\ in_u 32 (queued e) /\ done_ e = u32 (queued e + 1).

Lemma starved_CanExe i s : starved i s -> CanExe i (_exe_sync s) = false.
Proof.
  intros (_ & _ & e & He & Hq & Hd). unfold CanExe. rewrite He, Hd. apply Z.eqb_neq. machine_lia.
Qed.

Lemma jobs_zero i s :
  jobs i s = 0 <-> (forall k c, pending s !! k = Some c -> id c <> i) /\ (forall c, running s = Some c -> id c <> i).
Proof.
  unfold jobs. split.
  - intros E. assert (filter (fun c => id c = i) (pending s) = []) as Ef.
    { apply nil_length_inv. destruct (running s); [case_decide|]; lia. }
    split.
    + intros k c Hk Hc. apply list_elem_of_lookup_2 in Hk. assert (c ∈ filter (fun c => id c = i) (pending s)) as Hin.
      { by apply list_elem_of_filter. }
      rewrite Ef in Hin. by apply not_elem_of_nil in Hin.
    + intros c Hc Hi. rewrite Hc, decide_True in E by done. lia.
  - intros [Hp Hr]. assert (filter (fun c => id c = i) (pending s) = []) as ->.
    { destruct (filter _ _) as [|c l] eqn:Ef; [done|]. exfalso.
      assert (c ∈ filter (fun c => id c = i) (pending s)) as Hin by (rewrite Ef; by left).
      apply list_elem_of_filter in Hin as [Hc Hin]. apply list_elem_of_lookup_1 in Hin as [k Hk]. by eapply Hp. }
    destruct (running s) as [c|]; [|done]. rewrite decide_False by (by apply Hr). done.
Qed.

Lemma starved_step i s l s' : starved i s -> not_cancelled i l -> step s l = Some s' -> starved i s'.
Proof.
  intros Hst Hl E. pose proof (starved_CanExe i s Hst) as Hcan.
  pose proof Hst as (Hso & Hj & e & He & Hq & Hd). pose proof Hj as [Hp Hr]%jobs_zero.
  destruct l as [now w pr sch r tag|j| | |now now'|k|]; cbn [step not_cancelled] in *; try done.
  - injection E as <-. unfold Insert. destruct (has_id _ _); [destruct r|]; exact Hst.
  - injection E as <-. unfold Remove.
    assert (starved i (s <| _exe_sync := match find j (_exe_sync s) with
              | Some e => assign j (rollback e) (_exe_sync s) | None => _exe_sync s end |>)) as H1;
      [|by destruct (has_id _ _)].
    split; [|split; [exact Hj|]]; cbn [upd _exe_sync]; destruct (find j (_exe_sync s)); auto with cs; [|by exists e].
    exists e. rewrite find_assign, (proj2 (Z.eqb_neq i j)) by (done || congruence). done.
  - unfold due in E. destruct (_queue s) as [|run q]; [done|]. destruct (_ <=? _); [done|]. injection E as <-.
    set (s1 := if CanExe _ _ then _ else _).
    assert (starved i s1) as H1; [|by destruct (0 <? dt run)].
    unfold s1. cbn [upd _exe_sync]. destruct (CanExe (id run) (_exe_sync s)) eqn:Ec; [|exact Hst].
    assert (i <> id run) as Hne by congruence.
    split; [|split]; cbn [upd _exe_sync].
    + unfold OnExeQueued. destruct (find (id run) (_exe_sync s)); auto with cs.
    + apply jobs_zero. cbn [upd pending running]. split; [|done]. intros [|k] c Hk; [|by eapply Hp].
      injection Hk as <-. congruence.
    + exists e. unfold OnExeQueued. destruct (find (id run) (_exe_sync s)) eqn:Ef;
        rewrite ?find_assign, ?find_emplace by done; by rewrite (proj2 (Z.eqb_neq i (id run)) Hne).
  - unfold start in E. destruct (running s) eqn:Er; [done|]. destruct (pending s !! k) as [c|] eqn:Ep; [|done].
    injection E as <-.
    assert (forall k1 c1, (take k (pending s) ++ drop (S k) (pending s)) !! k1 = Some c1 -> id c1 <> i) as Hp'.
    { intros k1 c1 H1. apply list_elem_of_lookup_2, elem_of_app in H1 as [H1|H1];
        [apply subseteq_take in H1|apply subseteq_drop in H1];
        apply list_elem_of_lookup_1 in H1 as [k2 H2]; by eapply Hp. }
    destruct (ConfirmExe _ _); (split; [exact Hso|split; [|by exists e]]); apply jobs_zero; (split; [exact Hp'|]).
    + cbn [upd running]. intros c1 [= <-]. by eapply Hp.
    + cbn [upd running]. rewrite Er. done.
  - unfold finish in E. destruct (running s) as [c|] eqn:Er; [|done]. injection E as <-.
    assert (i <> id c) as Hne by (specialize (Hr c eq_refl); congruence).
    split; [|split]; cbn [upd _exe_sync].
    + unfold OnExeDone. destruct (find (id c) (_exe_sync s)); auto with cs.
    + apply jobs_zero. cbn [upd pending running]. done.
    + exists e. unfold OnExeDone. destruct (find (id c) (_exe_sync s)); [|done].
      by rewrite find_assign, (proj2 (Z.eqb_neq i (id c)) Hne).
Qed.

(** When a tag is removed while its job runs, the end of that job leaves its counters apart: until
    the tag is cancelled again, no later call of that tag is ever executed. *)
Theorem remove_running_starves s run b s1 s2 s3 :
  reach no_cancel init s -> running s = Some run ->
  Remove (id run) s = (b, s1) -> finish s1 = Some s2 ->
  reach (not_cancelled (id run)) s2 s3 ->
  jobs (id run) s3 = 0 /\ CanExe (id run) (_exe_sync s3) = false.
Proof.
  intros Hr Hrun Hrem Hfin H3.
  assert (starved (id run) s3) as Hst; [|split; [apply Hst|by apply starved_CanExe]].
  induction H3 as [|s3 l s4 _ IH Hl E]; [|by eapply starved_step].
  apply reach_sync_ok in Hr as [Hso Hj]. destruct (Hj (id run)) as [Hi Hle].
  assert (jobs (id run) s = 1) as Ej.
  { unfold jobs in *. rewrite Hrun, decide_True in * by done. lia. }
  rewrite Ej in Hi. destruct (find (id run) (_exe_sync s)) as [e|] eqn:Ef; [|done].
  assert (s1 = s <| _exe_sync := assign (id run) (rollback e) (_exe_sync s) |> <| _queue := _queue s1 |>) as Es1.
  { unfold Remove in Hrem. rewrite Ef in Hrem. destruct (has_id _ _); by injection Hrem as <- <-. }
  assert (running s1 = Some run) as Hr1 by (by rewrite Es1).
  assert (pending s1 = pending s) as Hp1 by (by rewrite Es1).
  assert (_exe_sync s1 = assign (id run) (rollback e) (_exe_sync s)) as Hx1 by (by rewrite Es1).
  unfold finish in Hfin. rewrite Hr1 in Hfin. injection Hfin as <-. unfold starved. cbn [upd _exe_sync].
  unfold OnExeDone. rewrite Hx1, find_assign, Z.eqb_refl by done. split_and!.
  - auto with cs.
  - unfold jobs in *. cbn [upd pending running]. rewrite Hp1. rewrite Hrun, decide_True in Ej by done. lia.
  - exists (mkExeSync (done_ e) (u32 (done_ e + 1))). rewrite find_assign, Z.eqb_refl by auto with cs.
    split_and!; [done|apply Hi|done].
Qed.
End scheduler.

(** ** Witnesses *)

Definition sample_hash (p : Z) : Z := p.

Fixpoint run_labels (ls : list label) (s : State) : option State :=
  match ls with
  | [] => Some s
  | l :: ls => match step sample_hash s l with Some s => run_labels ls s | None => None end
  end.

Lemma run_labels_reach P ls s0 s s' :
  reach sample_hash P s0 s -> Forall P ls -> run_labels ls s = Some s' -> reach sample_hash P s0 s'.
Proof.
  revert s. induction ls as [|l ls IH]; intros s Hr Hp E; cbn [run_labels] in E; [by injection E as <-|].
  destruct (step sample_hash s l) as [s1|] eqn:El; [|done]. inversion Hp; subst.
  eapply IH; [by eapply reach_step|done|done].
Qed.

(** A call of tag 7 every 1 ms and one of tag 3; both become due, tag 7 again
    while its job runs. *)
Definition sample_labels : list label :=
  [LInsert 0 ms 4 periodic false 7; LInsert 0 500 4 once false 3; LInsert 0 900 4 once false 3;
   LDue ms ms; LDue ms ms; LStart 0; LDue (3 * ms) (3 * ms)].
Definition sample_state : State := default init (run_labels sample_labels init).

Lemma sample_state_reach P : Forall P sample_labels -> reach sample_hash P init sample_state.
Proof.
  intros HP. apply (run_labels_reach P sample_labels init init); [apply reach_refl|exact HP|].
  vm_compute. reflexivity.
Qed.

Lemma no_overlap_witness :
  running sample_state = Some (mkContext 7 ms 1 4) /\ jobs 3 sample_state = 1 /\
  (forall i, jobs i sample_state <= 1 /\ CanExe i (_exe_sync sample_state) = (jobs i sample_state =? 0)) /\
  (forall k run, running sample_state = None -> pending sample_state !! k = Some run ->
     exists s', start k sample_state = Some s' /\ running s' = Some run).
Proof.
  split; [vm_compute; reflexivity|]. split; [vm_compute; reflexivity|]. apply (no_overlap sample_hash sample_state).
  apply sample_state_reach. repeat constructor.
Defined.

Lemma queue_ordered_witness : length (_queue sample_state) = 1%nat /\ queue_ok sample_state.
Proof.
  split; [vm_compute; reflexivity|]. apply (queue_ordered sample_hash sample_state). apply sample_state_reach. repeat constructor.
Defined.

Definition sample_removed : State := snd (Remove 7 sample_state).
Definition sample_finished : State := default init (finish sample_removed).
(** After the cancelled call's job is over the client schedules tag 7 again. *)
Definition sample_later : State :=
  default init (run_labels [LInsert (5 * ms) ms 4 once false 7; LDue (6 * ms) (6 * ms)] sample_finished).

Lemma remove_running_starves_witness : jobs 7 sample_later = 0 /\ CanExe 7 (_exe_sync sample_later) = false.
Proof.
  apply (remove_running_starves sample_hash sample_state (mkContext 7 ms 1 4) true sample_removed sample_finished sample_later).
  - apply sample_state_reach. repeat constructor.
  - vm_compute. reflexivity.
  - unfold sample_removed. vm_compute. reflexivity.
  - unfold sample_finished, sample_removed. vm_compute. reflexivity.
  - apply (run_labels_reach _ [LInsert (5 * ms) ms 4 once false 7; LDue (6 * ms) (6 * ms)] sample_finished sample_finished);
      [apply reach_refl| |vm_compute; reflexivity].
    repeat constructor.
Defined.
