(* ===== verification/SolverFsm.v ===== *)
(** * The state machine of the solver ([solver/src/solvercore.cpp], [solver/src/solvertransitions.cpp])

    [SolverCore] owns one object per state and a table from a state object to
    the transitions of that state.  The table is keyed by the objects
    ([std::map<StatePtr, Transitions>]), so the states are modelled by their
    identity: [Obj n] is the object that [InitTransitions] created for state
    [n], [Fresh] one created later, which is no key of the table.

    A state's [on] may raise an event at once; of those only
    [HandleRTState::on] is determined by the machine itself (the role of the
    node in the new round), the others are events like those that messages
    and timers raise later. *)

From Stdlib Require Import ZArith Lia.
From stdpp Require Import base tactics numbers option list.
From S2P Require Import Prelude.

Local Open Scope cs_scope.

Inductive Mode := Default | Debug | Monitor | WebWallet.

Inductive Event :=
  | Start | BigBang | RoundTable | Transactions | Hashes | Stage1Enough | Stage2Enough
  | FailConsensus | Stage3Enough | Stage3NonComplete | SmartDeploy | SmartResult | Expired
  | SetNormal | SetTrusted | SetWriter.

Inductive Role := RoleNormal | RoleTrusted | RoleWriter.

(** [Node::Level] *)
Inductive Level := LevelNormal | LevelConfidant | LevelMain | LevelWriter.

Inductive StateName :=
  | pNone | pNormal | pSync | pTrusted1 | pTrusted2 | pTrusted3 | pTrustedPost
  | pRTH | pBB | pWriting | pWaiting | pWrite.

(** [StatePtr]: object identity. *)
Inductive StatePtr := Obj (n : StateName) | Fresh (n : StateName).

#[export] Instance mode_eq_dec : EqDecision Mode. Proof. solve_decision. Defined.
#[export] Instance event_eq_dec : EqDecision Event. Proof. solve_decision. Defined.
#[export] Instance name_eq_dec : EqDecision StateName. Proof. solve_decision. Defined.
#[export] Instance ptr_eq_dec : EqDecision StatePtr. Proof. solve_decision. Defined.

(** ** The transition tables *)

Definition defaultRT : Event * StateName := (RoundTable, pRTH).
Definition defaultBB : Event * StateName := (BigBang, pBB).

(** [InitTransitions] *)
Definition default_transitions (n : StateName) : list (Event * StateName) :=
  match n with
  | pNone => [(Start, pNormal); (SetTrusted, pWrite); defaultRT]
  | pNormal => [defaultRT; defaultBB]
  | pSync => [defaultRT; defaultBB]
  | pTrusted1 => [defaultRT; defaultBB; (Transactions, pTrusted2); (Hashes, pTrusted2)]
  | pTrusted2 => [defaultRT; defaultBB; (Stage1Enough, pTrusted3)]
  | pTrusted3 => [defaultRT; defaultBB; (Stage2Enough, pTrustedPost); (FailConsensus, pNormal)]
  | pTrustedPost => [defaultRT; defaultBB; (Stage3Enough, pWaiting); (SetNormal, pNormal);
                     (Stage3NonComplete, pTrusted3)]
  | pWaiting => [defaultRT; defaultBB; (SetWriter, pWriting)]
  | pRTH => [(SetNormal, pNormal); (SetTrusted, pTrusted1)]
  | pBB => [defaultRT]
  | pWriting => [defaultRT; defaultBB]
  | pWrite => []
  end.

(** [InitDebugModeTransitions] *)
Definition debug_transitions (n : StateName) : list (Event * StateName) :=
  match n with
  | pNone => [(SetTrusted, pWrite); (SetNormal, pNormal)]
  | pNormal => [(RoundTable, pWrite)]
  | pWrite => [(RoundTable, pNormal)]
  | _ => []
  end.

(** [InitMonitorModeTransitions], [InitWebWalletModeTransitions] *)
Definition monitor_transitions (n : StateName) : list (Event * StateName) :=
  match n with
  | pNone => [(Start, pNormal)]
  | pNormal => [(Expired, pNormal)]
  | _ => []
  end.

Definition table (m : Mode) : StateName -> list (Event * StateName) :=
  match m with
  | Default => default_transitions
  | Debug => debug_transitions
  | Monitor | WebWallet => monitor_transitions
  end.

(** [transitions[pstate]]: empty for an object that is no key. *)
Definition transitions (m : Mode) (s : StatePtr) : list (Event * StateName) :=
  match s with Obj n => table m n | Fresh _ => [] end.

(** [variants.find(evt)] *)
Definition lookup_event (evt : Event) (variants : list (Event * StateName)) : option StatePtr :=
  Obj ∘ snd <$> List.find (fun p => bool_decide (p.1 = evt)) variants.

(** ** The core *)

Record SolverCore := mkCore {
  opt_mode : Mode;
  opt_repeat_state_enabled : bool;
  pstate : StatePtr;
  req_stop : bool;
  (** the state objects activated by [on], newest first *)
  activated : list StatePtr
}.
#[export] Instance eta_core : Eta SolverCore := fun c =>
  mkCore (opt_mode c) (opt_repeat_state_enabled c) (pstate c) (req_stop c) (activated c).

(** [SolverCore::SolverCore()] with the table of the given mode; the options
    are [RepeatStateEnabled] and no timeouts. *)
Definition construct (m : Mode) : SolverCore := mkCore m true (Obj pNone) true [].

(** [SolverContext::role()] *)
Definition role (level : Level) : Role :=
  match level with
  | LevelNormal | LevelMain => RoleNormal
  | LevelConfidant | LevelWriter => RoleTrusted
  end.

(** [HandleRTState::on] through [SolverContext::request_role]: the event raised. *)
Definition requested (r : Role) : option Event :=
  match r with
  | RoleTrusted => Some SetTrusted
  | RoleNormal => Some SetNormal
  | RoleWriter => None
  end.

(** [handleTransitions] and [setState]; [fuel] bounds the nesting through [on]. *)
Fixpoint handleTransitions (fuel : nat) (level : Level) (evt : Event) (c : SolverCore) : SolverCore :=
  match fuel with
  | O => c
  | S fuel =>
      match lookup_event evt (transitions (opt_mode c) (pstate c)) with
      | None => c
      | Some pState =>
          if negb (opt_repeat_state_enabled c) && bool_decide (pState = pstate c) then c
          else
            let c := c <| pstate := pState |> <| activated := pState :: activated c |> in
            match pState with
            | Obj pRTH =>
                match requested (role level) with
                | Some e => handleTransitions fuel level e c
                | None => c
                end
            | _ => c
            end
      end
  end.

(** Enough for any event: a round table is handled by at most one more. *)
Definition handle (level : Level) (evt : Event) (c : SolverCore) : SolverCore :=
  handleTransitions 2 level evt c.

Definition is_finished (c : SolverCore) : bool := req_stop c.

(** [ExecuteStart] *)
Definition ExecuteStart (level : Level) (start_event : Event) (c : SolverCore) : SolverCore :=
  if negb (is_finished c) then c
  else handle level start_event (c <| req_stop := false |>).

Definition startDefault (level : Level) (c : SolverCore) : SolverCore :=
  match opt_mode c with
  | Debug => ExecuteStart level SetNormal c
  | _ => ExecuteStart level Start c
  end.

Definition startAsMain (level : Level) (c : SolverCore) : SolverCore := ExecuteStart level SetTrusted c.

(** [finish]: the table is not touched, [NoState] is a new object. *)
Definition finish (c : SolverCore) : SolverCore := c <| pstate := Fresh pNone |> <| req_stop := true |>.

(** ** Executions

    The events that the rest of the node raises: all but [Start] (only
    [ExecuteStart]) and [SetTrusted] (only [HandleRTState::on] and
    [startAsMain]). *)

Definition raised (e : Event) : bool := match e with Start | SetTrusted => false | _ => true end.

Inductive step : SolverCore -> SolverCore -> Prop :=
  | step_start level c : step c (startDefault level c)
  | step_main level c : step c (startAsMain level c)
  | step_event level e c : raised e = true -> step c (handle level e c)
  | step_finish c : step c (finish c).

(** The steps of a node: it starts with [startDefault] and is never finished. *)
Inductive node_step : SolverCore -> SolverCore -> Prop :=
  | node_start level c : node_step c (startDefault level c)
  | node_event level e c : raised e = true -> node_step c (handle level e c).

Inductive reachable (R : SolverCore -> SolverCore -> Prop) (c0 : SolverCore) : SolverCore -> Prop :=
  | reach_refl : reachable R c0 c0
  | reach_step c c' : reachable R c0 c -> R c c' -> reachable R c0 c'.

(** ** Lemmas *)

Lemma handle_mode level e c : opt_mode (handle level e c) = opt_mode c /\
  opt_repeat_state_enabled (handle level e c) = opt_repeat_state_enabled c /\
  req_stop (handle level e c) = req_stop c.
Proof.
  unfold handle. generalize 2. intros n. revert e c.
  induction n as [|n IH]; intros e c; cbn [handleTransitions]; [done|].
  destruct (lookup_event _ _) as [p|]; [|done]. destruct (_ && _); [done|].
  destruct p as [[]|]; try done. destruct (requested _); [|done].
  destruct (IH e0 (c <| pstate := Obj pRTH |> <| activated := Obj pRTH :: activated c |>)) as (-> & -> & ->). done.
Qed.

(** Two levels of nesting are all that any event needs. *)
Theorem fuel_enough fuel level e c :
  handleTransitions (S (S fuel)) level e c = handle level e c.
Proof.
  unfold handle. cbn [handleTransitions]. destruct (lookup_event _ _) as [p|]; [|done].
  destruct (_ && _); [done|]. destruct p as [[]|]; try done. destruct (requested _) as [e'|] eqn:R; [|done].
  destruct (lookup_event e' _) as [p|] eqn:L; [|done]. destruct (_ && _); [done|].
  destruct p as [[]|]; try done. exfalso. revert L. cbn [upd opt_mode pstate].
  destruct c as [[] rep st stop act]; cbn; destruct (role level); inversion R; subst; done.
Qed.

(** What one event does in the default mode. *)
Lemma handle_default level e c :
  opt_mode c = Default -> opt_repeat_state_enabled c = true ->
  handle level e c =
  match lookup_event e (transitions Default (pstate c)) with
  | None => c
  | Some (Obj pRTH) =>
      let target := match role level with RoleTrusted => pTrusted1 | _ => pNormal end in
      mkCore Default true (Obj target) (req_stop c) (Obj target :: Obj pRTH :: activated c)
  | Some p => mkCore Default true p (req_stop c) (p :: activated c)
  end.
Proof.
  intros Hm Hr. destruct c as [m rep st stop act]. cbn in Hm, Hr. subst m rep.
  unfold handle. cbn [handleTransitions opt_mode opt_repeat_state_enabled pstate negb andb].
  destruct (lookup_event e (transitions Default st)) as [[[]|]|]; try reflexivity.
  by destruct level.
Qed.

(** ** The rounds of a node *)

(** The path of the confidant in the current round, newest state first:
    [retries] counts the returns from the post stage to stage 3. *)
Definition stage3_path (retries : nat) (rest : list StatePtr) : list StatePtr :=
  concat (replicate retries [Obj pTrustedPost; Obj pTrusted3]) ++ Obj pTrusted2 :: Obj pTrusted1 :: Obj pRTH :: rest.

(** How each state is entered. *)
Definition entered_well (n : StateName) (h : list StatePtr) : Prop :=
  match n with
  | pNone => h = []
  | pNormal | pBB => True
  | pTrusted1 => exists rest, h = Obj pTrusted1 :: Obj pRTH :: rest
  | pTrusted2 => exists rest, h = Obj pTrusted2 :: Obj pTrusted1 :: Obj pRTH :: rest
  | pTrusted3 => exists k rest, h = Obj pTrusted3 :: stage3_path k rest
  | pTrustedPost => exists k rest, h = stage3_path (S k) rest
  | pWaiting => exists k rest, h = Obj pWaiting :: stage3_path (S k) rest
  | pWriting => exists k rest, h = Obj pWriting :: Obj pWaiting :: stage3_path (S k) rest
  | pSync | pRTH | pWrite => False
  end.

Record node_inv (c : SolverCore) : Prop := {
  inv_mode : opt_mode c = Default;
  inv_repeat : opt_repeat_state_enabled c = true;
  inv_state : exists n, pstate c = Obj n /\ entered_well n (activated c)
}.

Lemma lookup_event_In e l p : lookup_event e l = Some p -> exists n, p = Obj n /\ In (e, n) l.
Proof.
  unfold lookup_event. intros H. destruct (List.find _ l) as [[e' n]|] eqn:F; [|done].
  apply find_some in F as [F E]. apply bool_decide_eq_true in E. cbn in H, E. subst.
  injection H as <-. by exists n.
Qed.

Lemma inv_intro n stop h : entered_well n h -> node_inv (mkCore Default true (Obj n) stop h).
Proof. intros Hw. split; [done|done|]. by exists n. Qed.

Lemma handle_inv level e c : e <> SetTrusted -> node_inv c -> node_inv (handle level e c).
Proof.
  intros He Hc. pose proof Hc as [Hm Hr (n & Hs & Hw)]. rewrite handle_default by done. rewrite Hs.
  cbn [transitions table].
  destruct (lookup_event e (default_transitions n)) as [p|] eqn:L; [|done].
  apply lookup_event_In in L as (t & -> & L).
  assert (forall rest, node_inv (mkCore Default true
    (Obj (match role level with RoleTrusted => pTrusted1 | _ => pNormal end)) (req_stop c)
    (Obj (match role level with RoleTrusted => pTrusted1 | _ => pNormal end) :: Obj pRTH :: rest))) as Hrt.
  { intros rest. apply inv_intro. destruct (role level); cbn; by eauto. }
  destruct n; cbn in L; repeat destruct L as [L|L]; try done; injection L as <- <-; try done;
    try apply Hrt; apply inv_intro; cbn in Hw |- *; try done.
  - destruct Hw as (rest & ->). by exists rest.
  - destruct Hw as (rest & ->). by exists rest.
  - destruct Hw as (rest & ->). by exists 0, rest.
  - destruct Hw as (k & rest & ->). by exists k, rest.
  - destruct Hw as (k & rest & ->). by exists k, rest.
  - destruct Hw as (k & rest & ->). by exists (S k), rest.
  - destruct Hw as (k & rest & ->). by exists k, rest.
Qed.

Lemma node_reachable_inv c : reachable node_step (construct Default) c -> node_inv c.
Proof.
  induction 1 as [|c c' _ IH Hst]; [split; [done|done|by exists pNone]|].
  destruct Hst as [level c|level e c He].
  - unfold startDefault. rewrite (inv_mode _ IH). unfold ExecuteStart. destruct (negb _); [done|].
    apply handle_inv; [done|]. destruct IH as [Hm Hr Hs]. by split.
  - apply handle_inv; [by intros ->|done].
Qed.

(** C37: In the default mode, in every execution of the node's state machine, the writing state is
    entered only from the waiting state, which is entered only from the post stage after stage 3
    (any number of stage 3 retries), after stage 2, after stage 1, after the round table of the
    same round. *)
Theorem writer_passed_all_stages c :
  reachable node_step (construct Default) c -> pstate c = Obj pWriting ->
  exists retries rest, activated c =
    [Obj pWriting; Obj pWaiting] ++
    concat (replicate (S retries) [Obj pTrustedPost; Obj pTrusted3]) ++
    [Obj pTrusted2; Obj pTrusted1; Obj pRTH] ++ rest.
Proof.
  intros Hr Hp. destruct (node_reachable_inv c Hr) as [_ _ (n & Hs & Hw)].
  rewrite Hp in Hs. injection Hs as <-. exact Hw.
Qed.

(** In the default mode a node is never stuck: in every reachable state a new round table puts it
    in the first trusted state when it is a confidant or a writer and in the normal state
    otherwise, and it is never in the primitive-write or round-table state. *)
Theorem round_table_recovers c level :
  reachable node_step (construct Default) c ->
  pstate (handle level RoundTable c) =
    Obj (match level with LevelConfidant | LevelWriter => pTrusted1 | _ => pNormal end) /\
  pstate c <> Obj pWrite /\ pstate c <> Obj pRTH.
Proof.
  intros Hr. destruct (node_reachable_inv c Hr) as [Hm Hrep (n & Hs & Hw)].
  rewrite handle_default by done. rewrite Hs. split; [by destruct n, level|].
  split; intros [= ->]; exact Hw.
Qed.

(** After SolverCore::finish the core stays in the state object finish created, whatever starts
    and events follow: that object is no key of the transition table. *)
Theorem finish_is_final c c' :
  reachable step (finish c) c' -> pstate c' = Fresh pNone.
Proof.
  assert (forall level e c, pstate c = Fresh pNone -> pstate (handle level e c) = Fresh pNone) as Hh.
  { intros level e c0 E. unfold handle. cbn [handleTransitions]. by rewrite E. }
  induction 1 as [|c1 c2 _ IH Hst]; [done|]. destruct Hst as [level c1|level c1|level e c1 _|c1]; [| | |done].
  - unfold startDefault, ExecuteStart. destruct (opt_mode c1), (negb (is_finished c1)); (done || by apply Hh).
  - unfold startAsMain, ExecuteStart. destruct (negb (is_finished c1)); [done|by apply Hh].
  - by apply Hh.
Qed.

(** A node started as main in the default mode stays in the primitive write state. *)
Theorem main_node_never_leaves_write level c :
  reachable node_step (startAsMain level (construct Default)) c -> pstate c = Obj pWrite.
Proof.
  intros Hr. enough (opt_mode c = Default /\ opt_repeat_state_enabled c = true /\ req_stop c = false /\ pstate c = Obj pWrite) by tauto.
  induction Hr as [|c c' _ (Hm & Hrep & Hf & Hp) Hst]; [done|].
  destruct Hst as [level' c|level' e c _].
  - unfold startDefault. rewrite Hm. unfold ExecuteStart, is_finished. by rewrite Hf.
  - destruct (handle_mode level' e c) as (-> & -> & ->). split; [done|]. split; [done|]. split; [done|].
    rewrite handle_default by done. by rewrite Hp.
Qed.

(** ** Witnesses *)

(** A node after its start and a sequence of events, as a confidant. *)
Fixpoint run_events (es : list Event) (c : SolverCore) : SolverCore :=
  match es with
  | [] => c
  | e :: es => run_events es (handle LevelConfidant e c)
  end.

Lemma run_events_reachable es c0 c :
  reachable node_step c0 c -> forallb raised es = true -> reachable node_step c0 (run_events es c).
Proof.
  revert c. induction es as [|e es IH]; intros c Hr He; [done|]. cbn [forallb run_events] in *.
  apply andb_true_iff in He as [He Hes]. apply IH; [|done].
  eapply reach_step; [exact Hr|by apply node_event].
Qed.

Definition sample_round : list Event :=
  [RoundTable; Transactions; Stage1Enough; Stage2Enough; Stage3NonComplete; Stage2Enough; Stage3Enough; SetWriter].
Definition sample_node (es : list Event) : SolverCore := run_events es (startDefault LevelConfidant (construct Default)).

Lemma sample_node_reachable es : forallb raised es = true -> reachable node_step (construct Default) (sample_node es).
Proof. apply run_events_reachable. eapply reach_step; [apply reach_refl|apply node_start]. Qed.

Lemma writer_passed_all_stages_witness :
  exists retries rest, activated (sample_node sample_round) =
    [Obj pWriting; Obj pWaiting] ++
    concat (replicate (S retries) [Obj pTrustedPost; Obj pTrusted3]) ++
    [Obj pTrusted2; Obj pTrusted1; Obj pRTH] ++ rest.
Proof. apply (writer_passed_all_stages (sample_node sample_round)); [by apply sample_node_reachable|done]. Defined.

Lemma round_table_recovers_witness :
  pstate (handle LevelConfidant RoundTable (sample_node [RoundTable; Hashes; Stage1Enough])) = Obj pTrusted1 /\
  pstate (sample_node [RoundTable; Hashes; Stage1Enough]) <> Obj pWrite /\
  pstate (sample_node [RoundTable; Hashes; Stage1Enough]) <> Obj pRTH.
Proof.
  apply (round_table_recovers (sample_node [RoundTable; Hashes; Stage1Enough]) LevelConfidant).
  by apply sample_node_reachable.
Defined.

Lemma finish_is_final_witness :
  pstate (handle LevelConfidant RoundTable (startDefault LevelNormal (finish (sample_node sample_round)))) = Fresh pNone.
Proof.
  apply (finish_is_final (sample_node sample_round)).
  eapply reach_step; [eapply reach_step; [apply reach_refl|apply step_start]|by apply step_event].
Defined.
