(* ===== verification/Stage.v ===== *)
(** * The stages of the consensus ([solver/include/solver/stage.hpp], [solver/src/stage.cpp])

    [TrustedMask]: the mask over the confidants; [Stage]: the messages of the
    three consensus stages and their [toBytes], the receiving side of
    [Node::getStageOne] ([csnode/src/node.cpp]), and the smart contracts'
    stage one. *)

From Stdlib Require Import ZArith Lia.
From stdpp Require Import base tactics numbers option list.
From S2P Require Import Prelude Text Math128 BinStream Amount Crypto DataStream.

Local Open Scope Z_scope.
Local Open Scope cs_scope.

(** ** [cs::ConfidantConsts] ([csnode/include/csnode/nodecore.hpp]) *)

Definition FirstWriterIndex : Z := 0.
Definition InvalidConfidantIndex : Z := 255.

(** [std::count(mask.cbegin(), mask.cend(), InvalidConfidantIndex)] *)
Definition count_invalid (mask : list Z) : Z :=
  Z.of_nat (length (filter (fun v => v = InvalidConfidantIndex) mask)).

Module TrustedMask.
Record TrustedMask := mkMask { mask_ : list Z; isReadOnly_ : bool }.

(** [TrustedMask(uint8_t size)], [init(uint8_t)] *)
Definition init (size : nat) : TrustedMask := mkMask (replicate size InvalidConfidantIndex) false.
(** [init(const std::vector<uint8_t>&)], [operator=] *)
Definition init_mask (newMask : list Z) : TrustedMask := mkMask newMask false.

(** ["[" + ... + "] "] for each confidant *)
Definition cell (i : Z) : bytes :=
  [91] ++ (if negb (i =? 255) then print_u i else [88]) ++ [93; 32].
Definition toString (mask : list Z) : bytes := concat (map cell mask).

Definition setMask (m : TrustedMask) (index value : Z) : TrustedMask :=
  if Z.of_nat (length (mask_ m)) <=? index then m
  else mkMask (<[Z.to_nat index := value]> (mask_ m)) (isReadOnly_ m).

Definition trustedSize (mask : list Z) : Z := u8 (Z.of_nat (length mask) - count_invalid mask).
Definition size (m : TrustedMask) : Z := u8 (Z.of_nat (length (mask_ m))).
Definition value (m : TrustedMask) (index : nat) : Z := default 255 (mask_ m !! index).
Definition toReadOnly (m : TrustedMask) : TrustedMask := mkMask (mask_ m) true.

Lemma length_setMask m i v : length (mask_ (setMask m i v)) = length (mask_ m).
Proof. unfold setMask. destruct (_ <=? _); [done|]. cbn. apply length_insert. Qed.

Lemma count_good mask :
  Z.of_nat (length mask) - count_invalid mask =
  Z.of_nat (length (filter (fun v => v <> InvalidConfidantIndex) mask)).
Proof.
  unfold count_invalid. induction mask as [|v mask IH]; [done|].
  rewrite !filter_cons. destruct (decide (v = InvalidConfidantIndex)) as [E|E].
  - rewrite decide_False by (intros H; by apply H). cbn [length] in *. lia.
  - rewrite decide_True by done. cbn [length] in *. lia.
Qed.

(** Setting a confidant of the mask to a valid value changes that entry only, and raises
    trustedSize by one exactly when the entry was invalid. *)
Theorem trustedSize_setMask m i v :
  Z.of_nat (length (mask_ m)) < 256 -> 0 <= i < Z.of_nat (length (mask_ m)) ->
  v <> InvalidConfidantIndex ->
  value (setMask m i v) (Z.to_nat i) = v /\
  (forall j, j <> Z.to_nat i -> value (setMask m i v) j = value m j) /\
  trustedSize (mask_ (setMask m i v)) =
    trustedSize (mask_ m) + (if value m (Z.to_nat i) =? InvalidConfidantIndex then 1 else 0).
Proof.
  intros Hl Hi Hv. unfold setMask. rewrite (proj2 (Z.leb_gt _ _)) by lia. cbn [mask_].
  assert (Z.to_nat i < length (mask_ m))%nat as Hin by lia.
  unfold value. cbn [mask_]. rewrite list_lookup_insert_eq by done. split; [done|].
  split; [intros j Hj; by rewrite list_lookup_insert_ne|].
  destruct (lookup_lt_is_Some_2 _ _ Hin) as [w Hw]. rewrite Hw. change (default 255 (Some w)) with w.
  unfold trustedSize. rewrite !count_good.
  rewrite (length_filter_middle _ (mask_ m) _ _ Hw).
  rewrite (length_filter_middle _ (<[_:=_]> (mask_ m)) (Z.to_nat i) v)
    by by apply list_lookup_insert_eq.
  rewrite take_insert_ge, drop_insert_lt by lia.
  pose proof (length_filter (fun v => v <> InvalidConfidantIndex)
    (take (Z.to_nat i) (mask_ m) ++ drop (S (Z.to_nat i)) (mask_ m))) as Hf.
  rewrite length_app, length_take, length_drop in Hf.
  rewrite (decide_True _ _ Hv). destruct (Z.eqb_spec w InvalidConfidantIndex) as [E|E].
  - rewrite decide_False by (intros H; by apply H). rewrite !uwrap_id by (unfold in_u; lia). lia.
  - rewrite decide_True by done. rewrite !uwrap_id by (unfold in_u; lia). lia.
Qed.
End TrustedMask.

Module Stage.
Section stage.
Context `{!Cscrypto}.

Definition Zero_hash : bytes := replicate kHashSize 0.
Definition Zero_signature : bytes := replicate kSignatureSize 0.

Record StageOne := mkStageOne {
  s1_sender : Z;
  s1_hash : bytes;
  roundTimeStamp : bytes;
  trustedCandidates : list bytes;
  hashesCandidates : list bytes;
  messageHash : bytes;
  s1_message : bytes;
  s1_signature : bytes
}.

Record StageTwo := mkStageTwo {
  s2_sender : Z;
  hashes : list bytes;
  signatures : list bytes;
  s2_message : bytes;
  s2_signature : bytes
}.

Record StageThree := mkStageThree {
  s3_sender : Z;
  writer : Z;
  iteration : Z;
  realTrustedMask : list Z;
  blockSignature : bytes;
  blockHash : bytes;
  roundSignature : bytes;
  roundHash : bytes;
  trustedHash : bytes;
  trustedSignature : bytes;
  s3_message : bytes;
  s3_signature : bytes
}.

(** [operator<<], [operator>>] of [cs::TransactionsPacketHash]: its bytes as
    a vector; [fromBinary] keeps only [hash_size] bytes. *)
Definition packetHash_fromBinary (data : bytes) : bytes :=
  if decide (length data = kHashSize) then data else [].
Definition get_packetHash : reader bytes := fun s =>
  let! (b, s) := parseVector s in
  Ok (match b with [] => [] | _ => packetHash_fromBinary b end, s).
Definition packetHash_ds : streamable bytes :=
  mkStreamable bytes addVector get_packetHash (fun b => b = [] \/ length b = kHashSize).

(** *** Stage one *)

(** [StageOne::toBytes] *)
Definition s1_toBytes (st : StageOne) : bytes :=
  let message := addValue 1 (s1_sender st) [] in
  let message := addArray (s1_hash st) message in
  let message := put_entities (array_ds kPublicKeySize) (trustedCandidates st) message in
  let message := put_entities packetHash_ds (hashesCandidates st) message in
  addVector (roundTimeStamp st) message.

(** The chain of [>>] of [Node::getStageOne], and the stream after it. *)
Definition s1_parse (message signature : bytes) : result (StageOne * istate) :=
  let s := open message in
  let! (sender, s) := ds_get (uint_ds 1) s in
  let! (hash, s) := ds_get (array_ds kHashSize) s in
  let! (candidates, s) := ds_get (entities_ds (array_ds kPublicKeySize)) s in
  let! (hashes, s) := ds_get (entities_ds packetHash_ds) s in
  let! (stamp, s) := ds_get vector_ds s in
  Ok (mkStageOne sender hash stamp candidates hashes (calculateHash message) message signature, s).

(** [Node::getStageOne] after the packet is unpacked: the stage given to
    [SolverCore::gotStageOne], if any.  [subRound] is the packet's. *)
Definition getStageOne (confidants : list bytes) (currentRound subRound_ subRound : Z)
    (signature message : bytes) : result (option StageOne) :=
  if negb (subRound =? subRound_) then Ok None
  else
    let signedMessage := addValue 8 currentRound [] in
    let signedMessage := addValue 1 subRound_ signedMessage in
    let signedMessage := addArray (calculateHash message) signedMessage in
    let! (stage, _) := s1_parse message signature in
    match confidants !! Z.to_nat (s1_sender stage) with
    | None => Ok None
    | Some confidant =>
        if negb (verifySignature signature confidant signedMessage) then Ok None
        else Ok (Some stage)
    end.

(** *** Stages two and three *)

(** [StageTwo::toBytes] *)
Definition s2_toBytes (st : StageTwo) : bytes :=
  let message := addValue 1 (s2_sender st) [] in
  let message := put_entities (array_ds kSignatureSize) (signatures st) message in
  put_entities (array_ds kHashSize) (hashes st) message.

(** The chain of [>>] of [Node::getStageTwo] *)
Definition s2_parse (message signature : bytes) : result (StageTwo * istate) :=
  let s := open message in
  let! (sender, s) := ds_get (uint_ds 1) s in
  let! (signatures, s) := ds_get (entities_ds (array_ds kSignatureSize)) s in
  let! (hashes, s) := ds_get (entities_ds (array_ds kHashSize)) s in
  Ok (mkStageTwo sender hashes signatures message signature, s).

(** [StageThree::toBytes] *)
Definition s3_toBytes (st : StageThree) : bytes :=
  let message := addValue 1 (s3_sender st) [] in
  let message := addValue 1 (writer st) message in
  let message := addValue 1 (iteration st) message in
  let message := addArray (blockSignature st) message in
  let message := addArray (roundSignature st) message in
  let message := addArray (trustedSignature st) message in
  addVector (realTrustedMask st) message.

(** The chain of [>>] of [Node::getStageThree] *)
Definition s3_parse (message signature : bytes) : result (StageThree * istate) :=
  let s := open message in
  let! (sender, s) := ds_get (uint_ds 1) s in
  let! (writer, s) := ds_get (uint_ds 1) s in
  let! (iteration, s) := ds_get (uint_ds 1) s in
  let! (blockSignature, s) := ds_get (array_ds kSignatureSize) s in
  let! (roundSignature, s) := ds_get (array_ds kSignatureSize) s in
  let! (trustedSignature, s) := ds_get (array_ds kSignatureSize) s in
  let! (mask, s) := ds_get vector_ds s in
  Ok (mkStageThree sender writer iteration mask blockSignature [] roundSignature [] [] trustedSignature
        message signature, s).

(** *** Stage one of the smart contracts' consensus *)

Record StageOneSmarts := mkSmarts {
  sm_sender : Z;
  sm_id : Z;
  fees : list Amount;
  sm_hash : bytes;
  sm_messageHash : bytes;
  sm_message : bytes
}.

Definition put_fee (f : Amount) (os : bytes) : bytes :=
  addValue 8 (fraction_ f) (addValue 4 (integral_ f) os).

(** [StageOneSmarts::fillBinary] *)
Definition fillBinary (st : StageOneSmarts) : bool * StageOneSmarts :=
  let st := mkSmarts (sm_sender st) (sm_id st) (fees st) (sm_hash st) Zero_hash [] in
  if sm_sender st =? InvalidConfidantIndex then (false, st)
  else if sm_id st =? 0 then (false, st)
  else if (length (fees st) =? 0)%nat then (false, st)
  else
    let message := addValue 1 (sm_sender st) (sm_message st) in
    let message := addValue 8 (sm_id st) message in
    let message := addValue 8 (Z.of_nat (length (fees st))) message in
    let message := fold_left (fun os f => put_fee f os) (fees st) message in
    let message := addArray (sm_hash st) message in
    (true, mkSmarts (sm_sender st) (sm_id st) (fees st) (sm_hash st) (calculateHash message) message).

(** The loop over the fees: [None] is [return false]. *)
Fixpoint read_fees (n : nat) (fees : list Amount) (s : istate)
  : result (option (list Amount * istate)) :=
  match n with
  | O => Ok (Some (fees, s))
  | S n' =>
      let '(i, s) := parseValue 4 s in
      let fee_integral := s32 i in
      let '(fee_fracture, s) := parseValue 8 s in
      if (fee_integral <? 0) || (AMOUNT_MAX_FRACTION <? fee_fracture) then Ok None
      else
        let! fee := of_fraction fee_integral fee_fracture AMOUNT_MAX_FRACTION in
        read_fees n' (fees ++ [fee]) s
  end.

(** [StageOneSmarts::fillFromBinary]: [None] is [return false]. *)
Definition fillFromBinary (st : StageOneSmarts) : result (option StageOneSmarts) :=
  let s := open (sm_message st) in
  let '(sender, s) := parseValue 1 s in
  let '(id, s) := parseValue 8 s in
  let '(fees_size, s) := parseValue 8 s in
  let! r := read_fees (Z.to_nat fees_size) (fees st) s in
  match r with
  | None => Ok None
  | Some (fees, s) =>
      let '(hash, _) := parseArray kHashSize s in
      Ok (Some (mkSmarts sender id fees hash (sm_messageHash st) (sm_message st)))
  end.

(** ** Lemmas *)

Context `{!CscryptoLaws _} `{!Small kPublicKeySize, !Small kSignatureSize}.

#[local] Instance small_hash : Small kHashSize.
Proof using Type*. unfold Small. pose proof hash_size_byte. lia. Qed.

#[local] Instance packetHash_ds_ok : Streamable packetHash_ds.
Proof using Type*.
  split; cbn [ds_get packetHash_ds].
  - apply (ds_put_app (c := vector_ds)).
  - intros a rest s Ha Hs E. unfold get_packetHash.
    rewrite (parseVector_enc a rest s); [|..|done|done].
    + cbn [rbind]. do 2 f_equal. destruct a; [done|]. unfold packetHash_fromBinary.
      destruct Ha; [done|]. by rewrite decide_True.
    + pose proof hash_size_byte. destruct Ha as [->| ->]; cbn [length]; lia.
  - intros s a s' Hs. unfold get_packetHash.
    destruct (parseVector s) as [[b s1]|] eqn:G; [|done]. cbn [rbind]. intros [= <- <-].
    by apply (ds_get_after (c := vector_ds)) in G.
Qed.

Record wf_stage1 (st : StageOne) : Prop := {
  wf1_sender : in_u 8 (s1_sender st);
  wf1_hash : length (s1_hash st) = kHashSize;
  wf1_candidates : Forall (fun k => length k = kPublicKeySize) (trustedCandidates st) /\
                   Z.of_nat (length (trustedCandidates st)) < 2 ^ 63;
  wf1_hashes : Forall (fun h => h = [] \/ length h = kHashSize) (hashesCandidates st) /\
               Z.of_nat (length (hashesCandidates st)) < 2 ^ 63;
  wf1_stamp : Z.of_nat (length (roundTimeStamp st)) < 2 ^ 63
}.

Lemma array_nonempty n k : (0 < n)%nat -> length k = n -> ds_enc (array_ds n) k <> [].
Proof. intros Hn <-. unfold ds_enc; cbn. by destruct k; [inversion Hn|]. Qed.

Lemma wf_arrays n (l : list bytes) :
  (0 < n)%nat -> Forall (fun k => length k = n) l /\ Z.of_nat (length l) < 2 ^ 63 ->
  ds_wf (entities_ds (array_ds n)) l.
Proof.
  intros Hn [Hl ?]. split; [|done]. eapply Forall_impl; [exact Hl|]. intros k Hk.
  split; [done|by apply array_nonempty].
Qed.

Lemma wf_hashes (l : list bytes) :
  Forall (fun h => h = [] \/ length h = kHashSize) l /\ Z.of_nat (length l) < 2 ^ 63 ->
  ds_wf (entities_ds packetHash_ds) l.
Proof.
  intros [Hl ?]. split; [|done]. eapply Forall_impl; [exact Hl|]. intros k Hk. split; [done|].
  unfold ds_enc, packetHash_ds; cbn [ds_put]; unfold addVector, addValue. intros E. apply (f_equal length) in E.
  rewrite !length_app, length_le_bytes in E. cbn in E. lia.
Qed.

Lemma s1_toBytes_enc st :
  s1_toBytes st = ds_enc (uint_ds 1) (s1_sender st) ++ ds_enc (array_ds kHashSize) (s1_hash st) ++
    ds_enc (entities_ds (array_ds kPublicKeySize)) (trustedCandidates st) ++
    ds_enc (entities_ds packetHash_ds) (hashesCandidates st) ++
    ds_enc vector_ds (roundTimeStamp st).
Proof using Type*.
  unfold s1_toBytes.
  change addVector with (ds_put vector_ds). change (addArray) with (ds_put (array_ds kHashSize)).
  change (put_entities packetHash_ds) with (ds_put (entities_ds packetHash_ds)).
  change (put_entities (array_ds kPublicKeySize)) with (ds_put (entities_ds (array_ds kPublicKeySize))).
  change (addValue 1) with (ds_put (uint_ds 1)).
  rewrite (ds_put_app (c := vector_ds)), (ds_put_app (c := entities_ds packetHash_ds)),
    (ds_put_app (c := entities_ds (array_ds kPublicKeySize))), (ds_put_app (c := array_ds kHashSize)).
  by rewrite <- !app_assoc.
Qed.

(** A stage-one message written by toBytes is read back by the chain of Node::getStageOne to the
    same sender, hash, candidates, packet hashes and time stamp, with a valid stream and no byte
    left. *)
Theorem s1_parse_toBytes st signature :
  wf_stage1 st -> bytes_ok (s1_toBytes st) -> Z.of_nat (length (s1_toBytes st)) < 2 ^ 62 ->
  exists s, s1_parse (s1_toBytes st) signature =
    Ok (mkStageOne (s1_sender st) (s1_hash st) (roundTimeStamp st) (trustedCandidates st)
          (hashesCandidates st) (calculateHash (s1_toBytes st)) (s1_toBytes st) signature, s) /\
    isValid s = true /\ unread s = [].
Proof using Type*.
  intros [Hse Hha Hca Hhs Hst] Hb Hl. unfold s1_parse.
  pose proof (sane_open _ Hb Hl) as Hs.
  pose proof (unread_open (s1_toBytes st)) as E. rewrite s1_toBytes_enc in E at 2.
  rewrite <- (app_nil_r (ds_enc vector_ds _)) in E.
  ds_run; [exact Hse|]. ds_run; [exact Hha|].
  ds_run; [apply wf_arrays; [pose proof public_key_size_4; lia|done]|].
  ds_run; [by apply wf_hashes|]. ds_run; [exact Hst|].
  eexists. split; [reflexivity|]. split; [|done].
  destruct (unread_nil _ Hs0 E0) as [_ ->]. ds_state.
Qed.

Record wf_stage3 (st : StageThree) : Prop := {
  wf3_sender : in_u 8 (s3_sender st);
  wf3_writer : in_u 8 (writer st);
  wf3_iteration : in_u 8 (iteration st);
  wf3_block : length (blockSignature st) = kSignatureSize;
  wf3_round : length (roundSignature st) = kSignatureSize;
  wf3_trusted : length (trustedSignature st) = kSignatureSize;
  wf3_mask : Z.of_nat (length (realTrustedMask st)) < 2 ^ 63
}.

Lemma s3_toBytes_enc st :
  s3_toBytes st = ds_enc (uint_ds 1) (s3_sender st) ++ ds_enc (uint_ds 1) (writer st) ++
    ds_enc (uint_ds 1) (iteration st) ++
    ds_enc (array_ds kSignatureSize) (blockSignature st) ++
    ds_enc (array_ds kSignatureSize) (roundSignature st) ++
    ds_enc (array_ds kSignatureSize) (trustedSignature st) ++
    ds_enc vector_ds (realTrustedMask st).
Proof using Type*.
  unfold s3_toBytes.
  change addVector with (ds_put vector_ds). change (addArray) with (ds_put (array_ds kSignatureSize)).
  change (addValue 1) with (ds_put (uint_ds 1)).
  rewrite (ds_put_app (c := vector_ds)), !(ds_put_app (c := array_ds kSignatureSize)),
    (ds_put_app (c := uint_ds 1) (iteration st)), (ds_put_app (c := uint_ds 1) (writer st)).
  by rewrite <- !app_assoc.
Qed.

(** A stage three read back from its bytes. *)
Theorem s3_parse_toBytes st signature :
  wf_stage3 st -> bytes_ok (s3_toBytes st) -> Z.of_nat (length (s3_toBytes st)) < 2 ^ 62 ->
  exists s, s3_parse (s3_toBytes st) signature =
    Ok (mkStageThree (s3_sender st) (writer st) (iteration st) (realTrustedMask st)
          (blockSignature st) [] (roundSignature st) [] [] (trustedSignature st)
          (s3_toBytes st) signature, s) /\
    isValid s = true /\ unread s = [].
Proof using Type*.
  intros [Hse Hwr Hit Hbl Hro Htr Hma] Hb Hl. unfold s3_parse.
  pose proof (sane_open _ Hb Hl) as Hs.
  pose proof (unread_open (s3_toBytes st)) as E. rewrite s3_toBytes_enc in E at 2.
  rewrite <- (app_nil_r (ds_enc vector_ds _)) in E.
  ds_run; [exact Hse|]. ds_run; [exact Hwr|]. ds_run; [exact Hit|]. ds_run; [exact Hbl|].
  ds_run; [exact Hro|]. ds_run; [exact Htr|]. ds_run; [exact Hma|].
  eexists. split; [reflexivity|]. split; [|done].
  destruct (unread_nil _ Hs0 E0) as [_ ->]. ds_state.
Qed.

(** Whatever bytes a message holds, a stage one that Node::getStageOne hands to the solver has the
    node's sub-round, its sender is one of the round's confidants, and the signature verifies with
    that confidant's key over the round, the sub-round and the hash of the whole message. *)
Theorem getStageOne_authentic confidants round sub sub' signature message st :
  getStageOne confidants round sub sub' signature message = Ok (Some st) ->
  sub' = sub /\ s1_message st = message /\ messageHash st = calculateHash message /\
  exists key, confidants !! Z.to_nat (s1_sender st) = Some key /\
    verifySignature signature key
      (le_bytes 8 round ++ le_bytes 1 sub ++ calculateHash message) = true.
Proof using Type*.
  unfold getStageOne. destruct (Z.eqb_spec sub' sub) as [->|]; [|done]. cbn [negb].
  destruct (s1_parse message signature) as [[stage s]|] eqn:P; [|done]. cbn [rbind].
  assert (s1_message stage = message /\ messageHash stage = calculateHash message) as [Hm Hh].
  { revert P. unfold s1_parse.
    repeat match goal with |- rbind ?m _ = _ -> _ => destruct m as [[? ?]|]; cbn [rbind]; [|done] end.
    by intros [= <- <-]. }
  destruct (confidants !! _) as [key|] eqn:Hk; [|done].
  destruct (verifySignature _ _ _) eqn:Hv; [|done]. cbn [negb]. intros [= <-].
  repeat split; [done|done|]. exists key. split; [done|]. by rewrite <- Hv.
Qed.

(** *** The smart contracts' stage one *)

Definition good_fee (f : Amount) : Prop :=
  0 <= integral_ f < 2 ^ 31 /\ 0 <= fraction_ f < AMOUNT_MAX_FRACTION.

Lemma put_fees_app l os :
  fold_left (fun os f => put_fee f os) l os =
  os ++ concat (map (fun f => le_bytes 4 (integral_ f) ++ le_bytes 8 (fraction_ f)) l).
Proof.
  revert os. induction l as [|f l IH]; intros os; cbn [fold_left map concat]; [by rewrite app_nil_r|].
  rewrite IH. unfold put_fee, addValue. by rewrite <- !app_assoc.
Qed.

Lemma read_fees_put l acc rest s :
  Forall good_fee l -> sane s ->
  unread s = concat (map (fun f => le_bytes 4 (integral_ f) ++ le_bytes 8 (fraction_ f)) l) ++ rest ->
  exists s', read_fees (length l) acc s = Ok (Some (acc ++ l, s')) /\
    sane s' /\ unread s' = rest /\ state_ s' = state_ s.
Proof.
  intros Hl. revert acc s. induction Hl as [|f l [Hi Hf] _ IH]; intros acc s Hs E.
  - exists s. cbn. by rewrite app_nil_r.
  - cbn [map concat] in E. rewrite <- !app_assoc in E. cbn [length read_fees].
    assert (in_u 32 (integral_ f) /\ in_u 64 (fraction_ f)) as [Hui Huf]
      by (unfold in_u, AMOUNT_MAX_FRACTION in *; lia).
    rewrite (parseValue_enc 4 (integral_ f) _ s) by (done || apply wf_u32, Hui).
    destruct (available_unread s _ _ Hs E) as [_ Ha]. rewrite length_le_bytes in Ha.
    assert (E1 := unread_advance s _ _ Hs E). rewrite length_le_bytes in E1.
    apply after_sane in Ha. rewrite (parseValue_enc 8 (fraction_ f) _ _) with (1 := Huf) (2 := Ha) (3 := E1).
    destruct (available_unread _ _ _ Ha E1) as [_ Hb]. rewrite length_le_bytes in Hb.
    assert (E2 := unread_advance _ _ _ Ha E1). rewrite length_le_bytes in E2. apply after_sane in Hb.
    rewrite (swrap_id 32 (integral_ f)) by (unfold in_s; lia).
    rewrite (proj2 (Z.ltb_ge (integral_ f) 0)), (proj2 (Z.ltb_ge AMOUNT_MAX_FRACTION _)) by lia.
    cbn [orb]. rewrite of_fraction_id by done. cbn [rbind].
    replace (mkAmount (integral_ f) (fraction_ f)) with f by by destruct f.
    destruct (IH (acc ++ [f]) _ Hb E2) as (s' & Hr & ? & ? & ?).
    exists s'. rewrite <- app_assoc in Hr. by split_and!.
Qed.

(** A smart contract's stage one that fillBinary writes is read back by fillFromBinary to the same
    sender, id, fees and hash. *)
Theorem fillFromBinary_fillBinary st st' :
  fillBinary st = (true, st') ->
  in_u 8 (sm_sender st) -> in_u 64 (sm_id st) -> Forall good_fee (fees st) ->
  length (sm_hash st) = kHashSize ->
  bytes_ok (sm_message st') -> Z.of_nat (length (sm_message st')) < 2 ^ 62 ->
  fillFromBinary (mkSmarts 0 0 [] [] (sm_messageHash st') (sm_message st')) = Ok (Some st').
Proof using Type*.
  intros F Hse Hid Hfe Hha Hb Hl. revert F. unfold fillBinary.
  cbn [sm_sender sm_id fees sm_hash sm_message].
  destruct (sm_sender st =? InvalidConfidantIndex); [done|].
  destruct (sm_id st =? 0); [done|]. destruct (length (fees st) =? 0)%nat; [done|].
  rewrite put_fees_app. unfold addArray, addValue. rewrite app_nil_l, <- !app_assoc.
  intros F. apply (f_equal snd) in F. cbn [snd] in F. rewrite <- F in *. clear F st'.
  cbn [sm_message sm_messageHash] in *. unfold fillFromBinary.
  cbn [sm_message sm_messageHash fees].
  pose proof (sane_open _ Hb Hl) as Hs. pose proof (unread_open
    (le_bytes 1 (sm_sender st) ++ le_bytes 8 (sm_id st) ++ le_bytes 8 (Z.of_nat (length (fees st))) ++
     concat (map (fun f => le_bytes 4 (integral_ f) ++ le_bytes 8 (fraction_ f)) (fees st)) ++
     sm_hash st)) as E.
  set (m := le_bytes 1 _ ++ _) in *. set (s := open m) in *.
  assert (Z.of_nat (length (fees st)) < 2 ^ 62) as Hn.
  { eapply Z.le_lt_trans; [|exact Hl]. apply Nat2Z.inj_le. unfold m.
    rewrite !length_app, !length_le_bytes.
    assert (length (fees st) <= length (concat (map (fun f => le_bytes 4 (integral_ f) ++ le_bytes 8 (fraction_ f)) (fees st))))%nat; [|lia].
    clear. induction (fees st) as [|f l IH]; [done|].
    cbn [map concat length]. rewrite !length_app, !length_le_bytes. lia. }
  rewrite (parseValue_enc 1 (sm_sender st) _ s) by (done || apply wf_u8, Hse).
  destruct (available_unread s _ _ Hs E) as [_ Ha]. apply after_sane in Ha.
  assert (E1 := unread_advance s _ _ Hs E). rewrite length_le_bytes in Ha, E1.
  rewrite (parseValue_enc 8 (sm_id st) _ _) with (1 := wf_u64 _ Hid) (2 := Ha) (3 := E1).
  destruct (available_unread _ _ _ Ha E1) as [_ Hb1]. apply after_sane in Hb1.
  assert (E2 := unread_advance _ _ _ Ha E1). rewrite length_le_bytes in Hb1, E2.
  erewrite (parseValue_enc 8 (Z.of_nat (length (fees st)))); [|lia|exact Hb1|exact E2].
  destruct (available_unread _ _ _ Hb1 E2) as [_ Hc]. apply after_sane in Hc.
  assert (E3 := unread_advance _ _ _ Hb1 E2). rewrite length_le_bytes in Hc, E3.
  rewrite Nat2Z.id.
  destruct (read_fees_put (fees st) [] _ _ Hfe Hc E3) as (s' & -> & Hs' & E4 & _). cbn [rbind app].
  rewrite <- (app_nil_r (sm_hash st)) in E4. rewrite <- Hha.
  destruct (available_unread _ _ _ Hs' E4) as [Hv _].
  unfold parseArray. rewrite Hv, slice_unread, E4, take_exact. done.
Qed.

Lemma read_fees_bad n acc s :
  isAvailable s 4 = false -> isAvailable s 8 = false ->
  exists s', read_fees n acc s = Ok (Some (acc ++ replicate n (mkAmount 0 0), s')).
Proof.
  revert acc s. induction n as [|n IH]; intros acc s H4 H8.
  - exists s. cbn. by rewrite app_nil_r.
  - cbn [read_fees]. unfold parseValue at 1. change (Z.of_nat 4) with 4. rewrite H4.
    unfold parseValue at 1. change (Z.of_nat 8) with 8.
    change (isAvailable (badState s) 8) with (isAvailable s 8). rewrite H8.
    change (s32 0) with 0. rewrite of_fraction_id by done. cbn [orb rbind].
    change ((0 <? 0) || (AMOUNT_MAX_FRACTION <? 0)) with false. cbv iota.
    destruct (IH (acc ++ [mkAmount 0 0]) (badState (badState s)) H4 H8) as [s' ->].
    exists s'. by rewrite <- app_assoc.
Qed.

(** A message may announce any number of fees: those that are not there are read as zero. *)
Theorem fillFromBinary_unbounded sender id n st :
  in_u 8 sender -> in_u 64 id -> in_u 64 (Z.of_nat n) ->
  sm_message st = le_bytes 1 sender ++ le_bytes 8 id ++ le_bytes 8 (Z.of_nat n) ->
  exists st', fillFromBinary st = Ok (Some st') /\
    fees st' = fees st ++ replicate n (mkAmount 0 0).
Proof using Type*.
  intros Hse Hid Hn Em. unfold fillFromBinary.
  assert (bytes_ok (sm_message st)) as Hb.
  { rewrite Em. apply Forall_app; split; [|apply Forall_app; split]; apply le_bytes_ok. }
  assert (Z.of_nat (length (sm_message st)) < 2 ^ 62) as Hl.
  { rewrite Em, !length_app, !length_le_bytes. done. }
  pose proof (sane_open _ Hb Hl) as Hs. pose proof (unread_open (sm_message st)) as E.
  rewrite Em in E at 2. rewrite <- (app_nil_r (le_bytes 8 (Z.of_nat n))) in E.
  set (s := open (sm_message st)) in *.
  rewrite (parseValue_enc 1 sender _ s) by (done || apply wf_u8, Hse).
  destruct (available_unread s _ _ Hs E) as [_ Ha]. apply after_sane in Ha.
  assert (E1 := unread_advance s _ _ Hs E). rewrite length_le_bytes in Ha, E1.
  rewrite (parseValue_enc 8 id _ _) with (1 := wf_u64 _ Hid) (2 := Ha) (3 := E1).
  destruct (available_unread _ _ _ Ha E1) as [_ Hb1]. apply after_sane in Hb1.
  assert (E2 := unread_advance _ _ _ Ha E1). rewrite length_le_bytes in Hb1, E2.
  rewrite (parseValue_enc 8 (Z.of_nat n) _ _) with (1 := wf_u64 _ Hn) (2 := Hb1) (3 := E2).
  destruct (available_unread _ _ _ Hb1 E2) as [_ Hc]. apply after_sane in Hc.
  assert (E3 := unread_advance _ _ _ Hb1 E2). rewrite length_le_bytes in Hc, E3.
  destruct (unread_nil _ Hc E3) as [Hix _].
  rewrite Nat2Z.id. set (s3 := advance (advance (advance _ _) _) (Z.of_nat 8)) in *.
  assert (forall k, 0 < k < 2 ^ 62 -> isAvailable s3 k = false) as Hno.
  { intros k Hk. rewrite isAvailable_exact by (done || lia). apply Z.leb_gt. lia. }
  destruct (read_fees_bad n (fees st) s3) as [s' ->]; [by apply Hno|by apply Hno|].
  cbn [rbind]. destruct (parseArray kHashSize s') as [h s'']. by eexists.
Qed.
End stage.
End Stage.

(** ** Witnesses *)

Lemma trustedSize_setMask_witness :
  let m := TrustedMask.init 4 in let m' := TrustedMask.setMask m 2 7 in
  TrustedMask.value m' 2 = 7 /\ (forall j, j <> 2%nat -> TrustedMask.value m' j = TrustedMask.value m j) /\
  TrustedMask.trustedSize (TrustedMask.mask_ m') = TrustedMask.trustedSize (TrustedMask.mask_ m) + 1.
Proof. apply (TrustedMask.trustedSize_setMask (TrustedMask.init 4) 2 7); unfold InvalidConfidantIndex; cbn; lia. Defined.

(** Confidant 1 proposes one candidate and two packets, one of them empty. *)
Definition sample_stage1 : Stage.StageOne :=
  Stage.mkStageOne 1 (le_bytes 32 9) [49; 50; 51] [le_bytes 32 5] [le_bytes 32 6; []] [] [] [].

Lemma sample_stage1_wf : Stage.wf_stage1 sample_stage1.
Proof.
  split; cbn [Stage.s1_sender Stage.s1_hash Stage.trustedCandidates Stage.hashesCandidates Stage.roundTimeStamp sample_stage1];
    [unfold in_u; lia|done| | |done].
  - split; [repeat constructor|done].
  - split; [|done]. constructor; [by right|]. constructor; [by left|constructor].
Qed.

Lemma s1_parse_toBytes_witness :
  exists s, Stage.s1_parse (Stage.s1_toBytes sample_stage1) [] =
    Ok (Stage.mkStageOne 1 (le_bytes 32 9) [49; 50; 51] [le_bytes 32 5] [le_bytes 32 6; []]
          (calculateHash (Stage.s1_toBytes sample_stage1)) (Stage.s1_toBytes sample_stage1) [], s) /\
    isValid s = true /\ unread s = [].
Proof.
  apply (Stage.s1_parse_toBytes sample_stage1 []);
    [apply sample_stage1_wf|by apply (bool_decide_unpack _); vm_compute|by vm_compute].
Defined.

(** The message of [sample_stage1] in round 8, signed by the confidant 1. *)
Definition sample_message : bytes := Stage.s1_toBytes sample_stage1.
Definition sample_key : bytes := le_bytes 32 71.
Definition sample_sig : bytes :=
  toy_hash (sample_key ++ le_bytes 8 8 ++ le_bytes 1 0 ++ calculateHash sample_message) ++ replicate 32 0.
Definition sample_received : Stage.StageOne :=
  match Stage.getStageOne [le_bytes 32 70; sample_key] 8 0 0 sample_sig sample_message with
  | Ok (Some st) => st
  | _ => sample_stage1
  end.

Lemma getStageOne_authentic_witness :
  0 = 0 /\ Stage.s1_message sample_received = sample_message /\
  Stage.messageHash sample_received = calculateHash sample_message /\
  exists key, [le_bytes 32 70; sample_key] !! Z.to_nat (Stage.s1_sender sample_received) = Some key /\
    verifySignature sample_sig key (le_bytes 8 8 ++ le_bytes 1 0 ++ calculateHash sample_message) = true.
Proof.
  apply (Stage.getStageOne_authentic [le_bytes 32 70; sample_key] 8 0 0 sample_sig sample_message sample_received).
  vm_compute. reflexivity.
Defined.

Definition sample_smarts : Stage.StageOneSmarts :=
  Stage.mkSmarts 2 77 [mkAmount 0 500; mkAmount 3 0] (le_bytes 32 4) [] [].
Definition sample_filled : Stage.StageOneSmarts := snd (Stage.fillBinary sample_smarts).

Lemma fillFromBinary_fillBinary_witness :
  Stage.fillFromBinary (Stage.mkSmarts 0 0 [] [] (Stage.sm_messageHash sample_filled) (Stage.sm_message sample_filled))
  = Ok (Some sample_filled).
Proof.
  apply (Stage.fillFromBinary_fillBinary sample_smarts sample_filled);
    [done|unfold in_u; cbn; lia|unfold in_u; cbn; lia| |done|by apply (bool_decide_unpack _); vm_compute|by vm_compute].
  repeat constructor; cbn; unfold AMOUNT_MAX_FRACTION; lia.
Defined.
