(* ===== verification/Random.v ===== *)
(** * The shuffle ([lib/include/lib/system/random.hpp])

    [cs::Random::shuffle], the deterministic shuffle all nodes must agree on.
    The generator is the sequence of its outputs, [rng : nat -> Z]; the state
    threaded through the loops is the number of outputs consumed. *)

From Stdlib Require Import ZArith Lia.
From stdpp Require Import base tactics numbers option list.
From S2P Require Import Prelude BinStream.

Local Open Scope Z_scope.
Local Open Scope cs_scope.

Section shuffle.
Context (rng : nat -> Z).

(** [bits], [bmask] for a 64-bit [udiff] *)
Definition bits : Z := 64.
Definition bmask : Z := 2 ^ 64 - 1.

(** [for (;;) { _Val = rng(); if (_Val <= bmask) ... }] *)
Fixpoint get_bits (fuel : nat) (g : nat) : option (Z * nat) :=
  match fuel with
  | O => None
  | S fuel => let _Val := u64 (rng g) in
      if _Val <=? bmask then Some (_Val, S g) else get_bits fuel (S g)
  end.

(** [while (mask < udiff(index - 1))] *)
Fixpoint more_bits (fuel : nat) (index ret mask : Z) (g : nat) : option (Z * Z * nat) :=
  if mask <? u64 (index - 1) then
    match fuel with
    | O => None
    | S fuel =>
        let ret := u64 (Z.shiftl (u64 (Z.shiftl ret (bits - 1))) 1) in
        let? (_Get_bits, g) := get_bits (S fuel) g in
        let ret := Z.lor ret _Get_bits in
        let mask := Z.lor (u64 (Z.shiftl (u64 (Z.shiftl mask (bits - 1))) 1)) bmask in
        more_bits fuel index ret mask g
    end
  else Some (ret, mask, g).

(** The outer [for (;;)]: resample until the value is unbiased. *)
Fixpoint sample (fuel : nat) (index : Z) (g : nat) : option (Z * nat) :=
  match fuel with
  | O => None
  | S fuel' =>
      let? (ret, mask, g) := more_bits fuel index 0 0 g in
      if (ret / index <? mask / index) || (mask mod index =? u64 (index - 1))
      then Some (ret mod index, g) else sample fuel' index g
  end.

(** [std::iter_swap] *)
Definition iter_swap {A} (i j : nat) (l : list A) : list A :=
  match l !! i, l !! j with
  | Some a, Some b => <[i := b]> (<[j := a]> l)
  | _, _ => l
  end.

(** [for (; ++target != uLast; ++targetIndex)] with [todo] elements left. *)
Fixpoint shuffle_loop {A} (fuel todo targetIndex g : nat) (l : list A) : option (list A) :=
  match todo with
  | O => Some l
  | S todo =>
      let? (off, g) := sample fuel (Z.of_nat targetIndex + 1) g in
      shuffle_loop fuel todo (S targetIndex) g (iter_swap targetIndex (Z.to_nat off) l)
  end.

Definition shuffle {A} (fuel : nat) (l : list A) : option (list A) :=
  match l with [] => Some [] | _ => shuffle_loop fuel (length l - 1) 1 0 l end.

(** The reference: one output per position. *)
Fixpoint fisher_yates {A} (todo i : nat) (l : list A) : list A :=
  match todo with
  | O => l
  | S todo => fisher_yates todo (S i)
                (iter_swap i (Z.to_nat (rng (i - 1)%nat mod (Z.of_nat i + 1))) l)
  end.

Lemma iter_swap_perm {A} i j (l : list A) : iter_swap i j l ≡ₚ l.
Proof.
  unfold iter_swap. destruct (l !! i) as [a|] eqn:Hi; [|done].
  destruct (l !! j) as [b|] eqn:Hj; [|done].
  destruct (decide (i = j)) as [->|Hne].
  - simplify_eq. by rewrite list_insert_insert_eq, list_insert_id.
  - set (l' := <[j:=a]> l).
    assert (l' !! i = Some a) as Hi' by by unfold l'; rewrite list_lookup_insert_ne.
    apply Permutation_inj. split; [by unfold l'; rewrite !length_insert|].
    exists (fun k => if decide (k = i) then j else if decide (k = j) then i else k). split.
    + intros k k'. repeat case_decide; congruence.
    + intros k. repeat case_decide; subst.
      * rewrite list_lookup_insert_eq; [done|]. apply lookup_lt_Some in Hi'. done.
      * rewrite list_lookup_insert_ne by done. unfold l'.
        rewrite list_lookup_insert_eq; [done|]. by apply lookup_lt_Some in Hj.
      * by unfold l'; rewrite !list_lookup_insert_ne by done.
Qed.

Lemma fisher_yates_perm {A} todo i (l : list A) : fisher_yates todo i l ≡ₚ l.
Proof.
  revert i l. induction todo as [|todo IH]; intros i l; cbn [fisher_yates]; [done|].
  by rewrite IH, iter_swap_perm.
Qed.

(** A 32-bit generator ([std::mt19937]). *)
Context (rng_range : forall g, 0 <= rng g < 2 ^ 32).

Lemma sample_first fuel i g :
  1 <= i < 2 ^ 62 -> sample (S (S fuel)) (i + 1) g = Some (rng g mod (i + 1), S g).
Proof using rng_range.
  intros Hi. cbn [sample more_bits]. pose proof (rng_range g) as Hr.
  rewrite !(uwrap_id 64 (i + 1 - 1)) by (unfold in_u; lia).
  rewrite (proj2 (Z.ltb_lt 0 (i + 1 - 1))) by lia. cbn [get_bits].
  rewrite (uwrap_id 64 (rng g)) by (unfold in_u; lia).
  rewrite (proj2 (Z.leb_le (rng g) bmask)) by (unfold bmask; lia).
  change (Z.lor (u64 (Z.shiftl (u64 (Z.shiftl 0 (bits - 1))) 1)) bmask) with bmask.
  change (u64 (Z.shiftl (u64 (Z.shiftl 0 (bits - 1))) 1)) with 0. rewrite Z.lor_0_l.
  rewrite (proj2 (Z.ltb_ge bmask (i + 1 - 1))) by (unfold bmask; lia).
  rewrite (proj2 (Z.ltb_lt (rng g / (i + 1)) (bmask / (i + 1)))); [done|].
  apply Z.lt_le_trans with (rng g / (i + 1) + 1); [lia|].
  rewrite <- Z.div_add with (c := i + 1) by lia. unfold bmask.
  apply Z.div_le_mono; lia.
Qed.

Lemma shuffle_loop_fisher {A} fuel todo i (l : list A) :
  (1 <= i)%nat -> Z.of_nat (i + todo) < 2 ^ 62 ->
  shuffle_loop (S (S fuel)) todo i (i - 1) l = Some (fisher_yates todo i l).
Proof using rng_range.
  revert i l. induction todo as [|todo IH]; intros i l Hi Hb; [done|].
  cbn [shuffle_loop fisher_yates]. rewrite sample_first by lia.
  replace (S (i - 1)) with (S i - 1)%nat by lia. apply IH; lia.
Qed.

(** For every generator of 32-bit values (std::mt19937) cs::Random::shuffle ends: no sample is
    rejected, so two levels of its unbounded loops are enough; it uses one output per position,
    equals the Fisher-Yates shuffle that these outputs select, and permutes its range. *)
Theorem shuffle_spec {A} fuel (l : list A) :
  Z.of_nat (length l) < 2 ^ 62 ->
  shuffle (S (S fuel)) l = Some (fisher_yates (length l - 1) 1 l) /\
  fisher_yates (length l - 1) 1 l ≡ₚ l.
Proof using rng_range.
  intros Hl. split; [|apply fisher_yates_perm]. unfold shuffle. destruct l as [|a l]; [done|].
  apply (shuffle_loop_fisher fuel _ 1); cbn [length] in *; lia.
Qed.
End shuffle.

(** ** Witnesses *)

Lemma shuffle_spec_witness :
  shuffle (fun g => 7 * Z.of_nat (g mod 4)%nat) 2 [1; 2; 3; 4] =
    Some (fisher_yates (fun g => 7 * Z.of_nat (g mod 4)%nat) 3 1 [1; 2; 3; 4]) /\
  fisher_yates (fun g => 7 * Z.of_nat (g mod 4)%nat) 3 1 [1; 2; 3; 4] ≡ₚ [1; 2; 3; 4].
Proof.
  apply (shuffle_spec (fun g => 7 * Z.of_nat (g mod 4)%nat)) with (fuel := 0%nat) (l := [1; 2; 3; 4]); [|done].
  intros g. pose proof (Nat.mod_upper_bound g 4). lia.
Defined.
