(* ===== verification/Stage3.v ===== *)
(** * Trusted stage 3: the decisions of the consensus

    [solver/src/states/trustedstage3state.cpp]: the election of the next
    confidants and of the next round's packets ([trusted_election]), the search
    for liars ([pool_solution_analysis]) and the choice of the writer
    ([take_urgent_decision]), over the votes collected in stage one.

    The floating-point size of the next round ([log_conf]), [std::sort] (any
    sorted permutation), the 32-bit generator and the balance of a key in the
    blockchain are parameters. *)

From Stdlib Require Import ZArith Lia Sorted.
From stdpp Require Import base tactics numbers option list sorting.
From S2P Require Import Prelude Math128 BinStream Amount Crypto Address DataStream Stage Random.

Local Open Scope Z_scope.
Local Open Scope cs_scope.

Definition MinTrustedNodes : Z := 3.
Definition MaxTrustedNodes : Z := 25.

(** ** [SolverContext::mark_untrusted], [untrusted_value] *)

(** [markUntrusted] is a [std::array<uint8_t, MaxTrustedNodes>]. *)
Definition mark_untrusted (markUntrusted : list Z) (sender : Z) : list Z :=
  if sender <? MaxTrustedNodes then
    match markUntrusted !! Z.to_nat sender with
    | Some v => if v <? 255 then <[Z.to_nat sender := u8 (v + 1)]> markUntrusted else markUntrusted
    | None => markUntrusted
    end
  else markUntrusted.

Definition untrusted_value (markUntrusted : list Z) (sender : Z) : Z :=
  if sender <? MaxTrustedNodes then default 0 (markUntrusted !! Z.to_nat sender) else 0.

Module Stage3.
Import Stage.

(** ** The search for liars *)

Section analysis.
Context `{!Cscrypto}.

(** [std::vector<HashWeight>] *)
Definition weights := list (bytes * Z).

Fixpoint add_weight (hash : bytes) (hWeight : weights) : weights :=
  match hWeight with
  | [] => [(hash, 1)]
  | (h, w) :: hWeight' =>
      if decide (h = hash) then (h, u8 (w + 1)) :: hWeight' else (h, w) :: add_weight hash hWeight'
  end.

(** The hash frequency table. *)
Definition hash_weights (stage1 : list StageOne) : weights :=
  fold_left (fun t st => add_weight (s1_hash st) t) stage1 [].

(** The search for the most frequent hash, from [(mostFrequentHash, maxWeight)]. *)
Definition most_frequent_step (best : bytes * Z) (it : bytes * Z) : bytes * Z :=
  if best.2 <? it.2 then it else best.
Definition most_frequent (hWeight : weights) : bytes :=
  (fold_left most_frequent_step hWeight (Zero_hash, 0)).1.

Inductive report := silent_report (sender : Z) | liar_report (sender : Z).

Record analysis := mkAnalysis {
  an_mask : list Z;        (* stage.realTrustedMask *)
  an_mark : list Z;        (* markUntrusted *)
  an_liars : Z;            (* liarNumber, uint8_t *)
  an_reports : list report (* the reports sent, in order *)
}.

(** One iteration of the loop over [stage1_data]; [None]: [return false]. *)
Definition judge (mostFrequentHash : bytes) (st : analysis) (it : StageOne) : option analysis :=
  if Z.of_nat (length (an_mask st)) <=? s1_sender it then None
  else
    let i := Z.to_nat (s1_sender it) in
    if bool_decide (s1_hash it = mostFrequentHash) &&
       negb (default 0 (an_mask st !! i) =? InvalidConfidantIndex)
    then Some st
    else Some (mkAnalysis (<[i := InvalidConfidantIndex]> (an_mask st))
           (mark_untrusted (an_mark st) (s1_sender it))
           (u8 (an_liars st + 1))
           (an_reports st ++
            [if bool_decide (s1_hash it = Zero_hash) then silent_report (s1_sender it)
             else liar_report (s1_sender it)])).

Fixpoint judge_all (mostFrequentHash : bytes) (st : analysis) (stage1 : list StageOne)
  : bool * analysis :=
  match stage1 with
  | [] => (true, st)
  | it :: stage1' =>
      match judge mostFrequentHash st it with
      | None => (false, st)
      | Some st => judge_all mostFrequentHash st stage1'
      end
  end.

(** [TrustedStage3State::pool_solution_analysis] *)
Definition pool_solution_analysis (cnt_trusted : Z) (stage1 : list StageOne) (mask mark : list Z)
  : bool * analysis :=
  let mostFrequentHash := most_frequent (hash_weights stage1) in
  let '(ok, st) := judge_all mostFrequentHash (mkAnalysis mask mark 0 []) stage1 in
  if negb ok then (false, st)
  else if cnt_trusted / 2 <? an_liars st then (false, st) else (true, st).

(** *** The frequency table *)

Definition votes (hash : bytes) (stage1 : list StageOne) : Z :=
  Z.of_nat (length (filter (fun st => s1_hash st = hash) stage1)).

Definition weight (hash : bytes) (t : weights) : Z :=
  default 0 (snd <$> find (fun p => bool_decide (p.1 = hash)) t).

Lemma weight_cons hash h w t :
  weight hash ((h, w) :: t) = if decide (h = hash) then w else weight hash t.
Proof. unfold weight. cbn [find fst]. by destruct (decide (h = hash)); [rewrite bool_decide_true|rewrite bool_decide_false]. Qed.

Lemma weight_add hash h t :
  weight hash (add_weight h t) =
  if decide (h = hash) then u8 (weight hash t + 1) else weight hash t.
Proof.
  induction t as [|[h' w] t IH]; cbn [add_weight].
  - rewrite weight_cons. by destruct (decide (h = hash)).
  - destruct (decide (h' = h)) as [->|Hne]; rewrite !weight_cons.
    + by destruct (decide (h = hash)).
    + rewrite IH. destruct (decide (h' = hash)) as [->|]; [|done].
      by rewrite decide_False by congruence.
Qed.

Lemma votes_app hash l st :
  votes hash (l ++ [st]) = votes hash l + (if decide (s1_hash st = hash) then 1 else 0).
Proof.
  unfold votes. rewrite filter_app, length_app, filter_cons. repeat case_decide; rewrite ?filter_nil; cbn [length]; try lia.
Qed.

Lemma votes_bound hash l : 0 <= votes hash l <= Z.of_nat (length l).
Proof. unfold votes. pose proof (length_filter (fun st => s1_hash st = hash) l). lia. Qed.

Lemma weight_votes hash l :
  Z.of_nat (length l) < 256 -> weight hash (hash_weights l) = votes hash l.
Proof.
  unfold hash_weights. induction l as [|st l IH] using rev_ind; intros Hl; [done|].
  rewrite length_app in Hl. cbn [length] in Hl.
  rewrite fold_left_app. cbn [fold_left]. rewrite weight_add, votes_app, IH by lia.
  pose proof (votes_bound hash l). case_decide; [|lia]. apply uwrap_id. unfold in_u. lia.
Qed.

Lemma most_frequent_step_spec t best :
  let r := fold_left most_frequent_step t best in
  best.2 <= r.2 /\ Forall (fun p => p.2 <= r.2) t /\ (r = best \/ In r t).
Proof.
  cbn zeta. revert best. induction t as [|p t IH]; intros best; cbn [fold_left In].
  - split; [lia|]. split; [constructor|by left].
  - destruct (IH (most_frequent_step best p)) as (H1 & H2 & H3).
    assert (best.2 <= (most_frequent_step best p).2 /\ p.2 <= (most_frequent_step best p).2 /\
      (most_frequent_step best p = best \/ most_frequent_step best p = p)) as (S1 & S2 & S3).
    { unfold most_frequent_step. destruct (Z.ltb_spec best.2 p.2); split_and!; (lia || tauto). }
    split; [lia|]. split; [constructor; [lia|done]|]. destruct S3, H3; subst; intuition congruence.
Qed.

Lemma add_weight_keys h t : NoDup (map fst t) -> NoDup (map fst (add_weight h t)) /\
  (forall k, k ∈ map fst (add_weight h t) -> k = h \/ k ∈ map fst t).
Proof.
  induction t as [|[h' w] t IH]; cbn [add_weight map fst]; intros Hn.
  - split; [apply NoDup_singleton|]. intros k Hk. left. by apply list_elem_of_singleton in Hk.
  - apply NoDup_cons in Hn as [Hni Hn]. destruct (IH Hn) as [IH1 IH2].
    destruct (decide (h' = h)) as [->|Hne]; cbn [map fst].
    + split; [by apply NoDup_cons|]. intros k Hk. by right.
    + split.
      * apply NoDup_cons. split; [|done]. intros Hin. by destruct (IH2 _ Hin).
      * intros k. rewrite !elem_of_cons. intros [->|Hk]; [by right; left|].
        destruct (IH2 _ Hk); [by left|by right; right].
Qed.

Lemma hash_weights_nodup l : NoDup (map fst (hash_weights l)).
Proof.
  unfold hash_weights. induction l as [|st l IH] using rev_ind; [apply NoDup_nil_2|].
  rewrite fold_left_app. cbn [fold_left]. by apply add_weight_keys.
Qed.

Lemma weight_In h w t : NoDup (map fst t) -> In (h, w) t -> weight h t = w.
Proof.
  induction t as [|[h' w'] t IH]; [done|]. cbn [map fst In]. intros Hn.
  apply NoDup_cons in Hn as [Hni Hn]. rewrite weight_cons. intros [[= -> ->]|Hin].
  - by rewrite decide_True.
  - rewrite decide_False; [by apply IH|]. intros ->. apply Hni.
    apply list_elem_of_In, in_map_iff. by exists (h, w).
Qed.

(** The hash found has the most votes. *)
Lemma most_frequent_max l hash :
  Z.of_nat (length l) < 256 -> votes hash l <= votes (most_frequent (hash_weights l)) l.
Proof.
  intros Hl. unfold most_frequent.
  destruct (most_frequent_step_spec (hash_weights l) (Zero_hash, 0)) as (H1 & H2 & H3).
  set (r := fold_left _ _ _) in *. cbn [snd] in H1.
  assert (votes hash l <= r.2) as Hle.
  { rewrite <- weight_votes by done. unfold weight.
    destruct (find _ (hash_weights l)) as [[h w]|] eqn:F; [|done].
    apply find_some in F as [F _]. rewrite Forall_forall in H2. by apply (H2 (h, w)), list_elem_of_In. }
  destruct H3 as [->|Hin].
  - cbn [snd] in Hle. pose proof (votes_bound (Zero_hash, 0).1 l). lia.
  - destruct r as [h w]. cbn [fst snd] in *.
    by rewrite <- (weight_votes h), (weight_In h w) by (done || apply hash_weights_nodup).
Qed.

(** A hash that more than half of the stages hold is the one found. *)
Lemma most_frequent_majority l hash :
  Z.of_nat (length l) < 256 -> Z.of_nat (length l) < 2 * votes hash l ->
  most_frequent (hash_weights l) = hash.
Proof.
  intros Hl Hm. destruct (decide (most_frequent (hash_weights l) = hash)) as [|Hne]; [done|exfalso].
  pose proof (most_frequent_max l hash Hl) as Hmax.
  set (m := most_frequent (hash_weights l)) in *.
  assert (votes hash l + votes m l <= Z.of_nat (length l)); [|lia].
  unfold votes. clearbody m. clear -Hne. induction l as [|st l IH]; [done|]. rewrite !filter_cons.
  repeat case_decide; cbn [length] in *; (lia || congruence).
Qed.

(** *** The verdict *)

(** The sender is found a liar: another hash than the winner, or already
    invalid in the mask. *)
Definition bad (mask : list Z) (winner : bytes) (it : StageOne) : bool :=
  negb (bool_decide (s1_hash it = winner) &&
        negb (default 0 (mask !! Z.to_nat (s1_sender it)) =? InvalidConfidantIndex)).

Definition liars (mask : list Z) (winner : bytes) (l : list StageOne) : list StageOne :=
  filter (fun it => bad mask winner it = true) l.

Definition senders_ok (mask : list Z) (l : list StageOne) : Prop :=
  NoDup (map s1_sender l) /\ Forall (fun it => 0 <= s1_sender it < Z.of_nat (length mask)) l.

Lemma judge_step winner st it :
  0 <= s1_sender it < Z.of_nat (length (an_mask st)) ->
  exists st', judge winner st it = Some st' /\
    an_mask st' = (if bad (an_mask st) winner it
                   then <[Z.to_nat (s1_sender it) := InvalidConfidantIndex]> (an_mask st)
                   else an_mask st) /\
    an_liars st' = if bad (an_mask st) winner it then u8 (an_liars st + 1) else an_liars st.
Proof.
  intros Hi. unfold judge, bad. rewrite (proj2 (Z.leb_gt _ _)) by lia.
  destruct (_ && _); cbn [negb]; by eexists.
Qed.

(** Judging one sender leaves the other senders' verdicts as they were. *)
Lemma bad_insert mask winner i v it :
  Z.to_nat (s1_sender it) <> i -> bad (<[i := v]> mask) winner it = bad mask winner it.
Proof. intros Hne. unfold bad. by rewrite list_lookup_insert_ne. Qed.

Lemma liars_cons mask winner it l :
  liars mask winner (it :: l) = (if bad mask winner it then [it] else []) ++ liars mask winner l.
Proof. unfold liars. rewrite filter_cons. by destruct (bad mask winner it). Qed.

Lemma liars_insert mask winner i v l :
  Forall (fun it => Z.to_nat (s1_sender it) <> i) l ->
  liars (<[i := v]> mask) winner l = liars mask winner l.
Proof.
  induction 1 as [|it l Hne _ IH]; [done|]. by rewrite !liars_cons, bad_insert, IH.
Qed.

Lemma liars_elem mask winner it l : it ∈ liars mask winner l -> it ∈ l.
Proof. unfold liars. rewrite list_elem_of_filter. tauto. Qed.

Lemma judge_all_spec winner l st :
  senders_ok (an_mask st) l -> 0 <= an_liars st -> an_liars st + Z.of_nat (length l) < 256 ->
  exists st', judge_all winner st l = (true, st') /\
    an_liars st' = an_liars st + Z.of_nat (length (liars (an_mask st) winner l)) /\
    length (an_mask st') = length (an_mask st) /\
    (forall i, (forall it, it ∈ liars (an_mask st) winner l -> Z.to_nat (s1_sender it) <> i) ->
       an_mask st' !! i = an_mask st !! i) /\
    (forall it, it ∈ liars (an_mask st) winner l ->
       an_mask st' !! Z.to_nat (s1_sender it) = Some InvalidConfidantIndex).
Proof.
  revert st. induction l as [|it l IH]; intros st [Hn Hr] Hz Hl.
  - exists st. cbn [judge_all]. unfold liars. rewrite filter_nil. cbn [length].
    split; [done|]. split; [lia|]. split; [done|]. split; [done|]. intros it Hit. by apply not_elem_of_nil in Hit.
  - cbn [map] in Hn. apply NoDup_cons in Hn as [Hni Hn]. apply Forall_cons in Hr as [Hi Hr].
    cbn [length] in Hl. destruct (judge_step winner st it Hi) as (st1 & J & M & L).
    cbn [judge_all]. rewrite J.
    assert (Forall (fun it' => Z.to_nat (s1_sender it') <> Z.to_nat (s1_sender it)) l) as Hne.
    { rewrite Forall_forall in Hr |- *. intros it' Hin E. apply Hni.
      apply Z2Nat.inj in E; [|apply (Hr _ Hin)|lia]. rewrite <- E. by apply list_elem_of_fmap_2. }
    assert (length (an_mask st1) = length (an_mask st)) as Hlen
      by (rewrite M; destruct (bad _ _ _); rewrite ?length_insert; done).
    assert (liars (an_mask st1) winner l = liars (an_mask st) winner l) as El
      by (rewrite M; destruct (bad _ _ _); [by apply liars_insert|done]).
    assert (an_liars st1 = an_liars st + if bad (an_mask st) winner it then 1 else 0) as L1.
    { rewrite L. destruct (bad _ _ _); [apply uwrap_id; unfold in_u; lia|lia]. }
    assert (0 <= an_liars st1 <= an_liars st + 1) as Hz1 by (rewrite L1; destruct (bad _ _ _); lia).
    destruct (IH st1) as (st' & R & L' & Hlen' & Ho & Hb); [split; [done|by rewrite Hlen]|lia|lia|].
    exists st'. rewrite El in *. rewrite liars_cons, length_app. split; [done|].
    rewrite Forall_forall in Hne.
    split; [rewrite L', L1; destruct (bad _ _ _); cbn [length]; lia|]. split; [congruence|]. split.
    + intros i Hi'. rewrite Ho by (intros; apply Hi', elem_of_app; by right).
      rewrite M. destruct (bad _ _ _) eqn:B; [|done]. rewrite list_lookup_insert_ne; [done|].
      apply Hi', elem_of_app. left. by apply list_elem_of_singleton.
    + intros it'. rewrite elem_of_app. intros [Hit|Hit]; [|by apply Hb].
      destruct (bad (an_mask st) winner it) eqn:B; [|by apply not_elem_of_nil in Hit].
      apply list_elem_of_singleton in Hit as ->.
      rewrite Ho by (intros j Hj; eapply Hne, liars_elem, Hj). rewrite M.
      apply list_lookup_insert_eq. lia.
Qed.

(** On any stage-one data with distinct in-range senders (fewer than 256, so that the uint8_t
    weights do not wrap), pool_solution_analysis picks a hash that no other hash outvotes, counts
    as liars exactly the senders of another hash or already invalid, invalidates exactly these in
    the mask, and succeeds when they are at most half of the confidants. *)
Theorem pool_solution_analysis_spec cnt_trusted stage1 mask mark :
  senders_ok mask stage1 -> Z.of_nat (length stage1) < 256 ->
  let winner := most_frequent (hash_weights stage1) in
  let found := liars mask winner stage1 in
  let '(ok, r) := pool_solution_analysis cnt_trusted stage1 mask mark in
  (forall hash, votes hash stage1 <= votes winner stage1) /\
  ok = (Z.of_nat (length found) <=? cnt_trusted / 2) /\
  an_liars r = Z.of_nat (length found) /\
  (forall i, (forall it, it ∈ found -> Z.to_nat (s1_sender it) <> i) -> an_mask r !! i = mask !! i) /\
  (forall it, it ∈ found -> an_mask r !! Z.to_nat (s1_sender it) = Some InvalidConfidantIndex).
Proof.
  intros Hs Hl winner found. unfold pool_solution_analysis. fold winner.
  destruct (judge_all_spec winner stage1 (mkAnalysis mask mark 0 [])) as (r & -> & L & _ & Ho & Hb);
    [done|done|done|]. cbn [an_liars an_mask negb] in *. fold found in L, Ho, Hb.
  destruct (Z.ltb_spec (cnt_trusted / 2) (an_liars r)).
  - split; [intros; by apply most_frequent_max|]. split; [symmetry; apply Z.leb_gt; lia|]. by split.
  - split; [intros; by apply most_frequent_max|]. split; [symmetry; apply Z.leb_le; lia|]. by split.
Qed.

(** When more than half of the confidants sent the same block hash in stage one,
    pool_solution_analysis succeeds, every sender of that hash keeps its place in the mask and
    every sender of another hash is marked invalid, whatever the minority sent. *)
Theorem pool_solution_majority cnt_trusted stage1 mask mark hash :
  senders_ok mask stage1 -> Z.of_nat (length stage1) <= cnt_trusted < 256 ->
  Forall (fun v => v <> InvalidConfidantIndex) mask ->
  cnt_trusted < 2 * votes hash stage1 ->
  let '(ok, r) := pool_solution_analysis cnt_trusted stage1 mask mark in
  ok = true /\
  forall it, it ∈ stage1 ->
    an_mask r !! Z.to_nat (s1_sender it) =
    if decide (s1_hash it = hash) then mask !! Z.to_nat (s1_sender it) else Some InvalidConfidantIndex.
Proof.
  intros Hs Hl Hm Hv. unfold pool_solution_analysis.
  rewrite (most_frequent_majority stage1 hash) by lia.
  destruct (judge_all_spec hash stage1 (mkAnalysis mask mark 0 [])) as (r & -> & L & _ & Ho & Hb);
    [done|done|cbn; lia|]. cbn [an_liars an_mask negb] in *.
  assert (forall it, it ∈ stage1 -> bad mask hash it = negb (bool_decide (s1_hash it = hash))) as Hbad.
  { intros it Hit. unfold bad. f_equal. destruct Hs as [_ Hr]. rewrite Forall_forall in Hr.
    destruct (lookup_lt_is_Some_2 mask (Z.to_nat (s1_sender it))) as [v Hv']; [specialize (Hr _ Hit); lia|].
    rewrite Hv'. rewrite Forall_forall in Hm. apply list_elem_of_lookup_2, Hm in Hv'.
    change (default 0 (Some v)) with v. rewrite (proj2 (Z.eqb_neq _ _) Hv'). apply andb_true_r. }
  assert (Z.of_nat (length (liars mask hash stage1)) + votes hash stage1 = Z.of_nat (length stage1)) as Hc.
  { unfold liars, votes. clear -Hbad. induction stage1 as [|it l IH]; [done|]. rewrite !filter_cons.
    specialize (IH ltac:(intros; apply Hbad; by right)).
    assert (Hb := Hbad it ltac:(by left)).
    destruct (decide (s1_hash it = hash)) as [E|E];
      [rewrite bool_decide_true in Hb by done|rewrite bool_decide_false in Hb by done];
      cbn [negb] in Hb; repeat case_decide; cbn [length]; (congruence || lia). }
  assert (an_liars r <= cnt_trusted / 2) as Hok by (rewrite L; Z.to_euclidean_division_equations; lia).
  rewrite (proj2 (Z.ltb_ge _ _)) by done. split; [done|]. intros it Hit.
  destruct (decide (s1_hash it = hash)) as [E|E].
  - apply Ho. intros it' Hit' Es. unfold liars in Hit'. apply list_elem_of_filter in Hit' as [B Hin].
    rewrite Hbad in B by done. destruct Hs as [Hn Hr]. rewrite Forall_forall in Hr.
    apply Z2Nat.inj in Es; [|apply (Hr _ Hin)|apply (Hr _ Hit)].
    assert (it' = it) as ->.
    { apply list_elem_of_lookup_1 in Hit as [i Hi], Hin as [j Hj].
      assert (i = j) as ->; [|congruence]. apply (NoDup_lookup (map s1_sender stage1) i j (s1_sender it)); [done|..];
        rewrite list_lookup_fmap, ?Hi, ?Hj; cbn; by f_equal. }
    by rewrite bool_decide_true in B.
  - apply Hb. unfold liars. apply list_elem_of_filter. rewrite Hbad by done.
    by rewrite bool_decide_false.
Qed.
End analysis.

(** ** The choice of the writer *)

Section decision.
(** [for (size_t i = 0; i < size_t(cnt); ++i)]: the writer is the good node
    number [idx_writer]; [at] throws out of the mask. *)
Fixpoint find_writer (todo i : nat) (idx idx_writer : Z) (mask : list Z) (writer : Z) : result Z :=
  match todo with
  | O => Ok writer
  | S todo =>
      match mask !! i with
      | None => Throw out_of_range
      | Some v =>
          if negb (v =? InvalidConfidantIndex)
          then find_writer todo (S i) (idx + 1) idx_writer mask
                 (if idx =? idx_writer then u8 (Z.of_nat i) else writer)
          else find_writer todo (S i) idx idx_writer mask writer
      end
  end.

(** [for (size_t i = stage.writer; i < size_t(cnt + stage.writer); ++i)] over
    the positions [c = i % size_t(cnt)] *)
Fixpoint renumber (positions : list nat) (idx : Z) (mask : list Z) : result (list Z) :=
  match positions with
  | [] => Ok mask
  | c :: positions =>
      match mask !! c with
      | None => Throw out_of_range
      | Some v =>
          if negb (v =? InvalidConfidantIndex)
          then renumber positions (idx + 1) (<[c := u8 idx]> mask)
          else renumber positions idx mask
      end
  end.

Definition rotation (writer cnt : nat) : list nat :=
  map (fun i => (i mod cnt)%nat) (seq writer cnt).

(** [int k = *(unsigned int* )hash_t.data(); if (k < 0) k = -k;] *)
Definition hash_number (hash_t : bytes) : Z :=
  let k := s32 (le_val (take 4 hash_t)) in
  if k <? 0 then s32 (- k) else k.

(** [TrustedStage3State::take_urgent_decision]: the mask and the writer are
    those of [stage]; [hash_t] is the previous block's hash. *)
Definition take_urgent_decision (hash_t : bytes) (cnt_trusted : Z) (mask : list Z) (writer : Z)
  : result (bool * (list Z * Z)) :=
  match hash_t with
  | [] => Ok (false, (mask, writer))
  | _ =>
      let k := hash_number hash_t in
      let cnt := Z.min cnt_trusted MaxTrustedNodes in
      let cnt_active := cnt - count_invalid mask in
      if cnt_active * 2 <? cnt + 1 then Ok (false, (mask, writer))
      else
        let idx_writer := Z.rem k cnt_active in
        let! writer := find_writer (Z.to_nat cnt) 0 0 idx_writer mask writer in
        let! mask := renumber (rotation (Z.to_nat writer) (Z.to_nat cnt)) 0 mask in
        Ok (negb (Z.of_nat (length mask) / 2 + 1 <? count_invalid mask), (mask, writer))
  end.

(** *** The good positions of a mask *)

Definition good (mask : list Z) (i : nat) : Prop := mask !! i <> Some InvalidConfidantIndex.
#[local] Instance good_dec mask i : Decision (good mask i).
Proof. unfold good. apply _. Defined.

Definition goods (mask : list Z) (positions : list nat) : list nat := filter (good mask) positions.

Lemma good_eqb mask i v : mask !! i = Some v -> good mask i <-> negb (v =? InvalidConfidantIndex) = true.
Proof.
  intros E. unfold good. rewrite E. destruct (Z.eqb_spec v InvalidConfidantIndex) as [->|Hne]; cbn [negb].
  - by split.
  - split; [done|]. congruence.
Qed.

Lemma goods_insert mask c v positions :
  c ∉ positions -> goods (<[c := v]> mask) positions = goods mask positions.
Proof.
  induction positions as [|p positions IH]; [done|]. intros Hni.
  apply not_elem_of_cons in Hni as [Hne Hni]. unfold goods in *. rewrite !filter_cons, IH by done.
  assert (good (<[c:=v]> mask) p <-> good mask p) as Hg by (unfold good; by rewrite list_lookup_insert_ne).
  repeat case_decide; tauto.
Qed.

Lemma renumber_spec positions idx mask :
  NoDup positions -> Forall (fun c => (c < length mask)%nat) positions ->
  0 <= idx -> idx + Z.of_nat (length positions) <= 255 ->
  exists mask', renumber positions idx mask = Ok mask' /\ length mask' = length mask /\
    (forall p, p ∉ goods mask positions -> mask' !! p = mask !! p) /\
    (forall j p, goods mask positions !! j = Some p -> mask' !! p = Some (idx + Z.of_nat j)).
Proof.
  revert idx mask. induction positions as [|c positions IH]; intros idx mask Hn Hr Hi Hb.
  - exists mask. by split_and!.
  - apply NoDup_cons in Hn as [Hni Hn]. apply Forall_cons in Hr as [Hc Hr]. cbn [length renumber] in *.
    destruct (lookup_lt_is_Some_2 _ _ Hc) as [v Hv]. rewrite Hv.
    pose proof (good_eqb mask c v Hv) as Hg. unfold goods. rewrite filter_cons.
    destruct (negb (v =? InvalidConfidantIndex)).
    + rewrite decide_True by tauto.
      destruct (IH (idx + 1) (<[c := u8 idx]> mask)) as (mask' & R & Hl & Ho & Hj); [done|..|lia|lia|].
      { by rewrite length_insert. }
      rewrite length_insert in Hl. rewrite goods_insert in Ho, Hj by done.
      exists mask'. split; [done|]. split; [done|]. split.
      * intros p Hp. apply not_elem_of_cons in Hp as [Hp1 Hp2]. rewrite Ho by done.
        by rewrite list_lookup_insert_ne.
      * intros [|j] p; cbn [lookup list_lookup].
        -- intros [= <-]. rewrite Ho.
           ++ rewrite list_lookup_insert_eq by done. f_equal. rewrite uwrap_id; [lia|unfold in_u; lia].
           ++ intros H. apply list_elem_of_filter in H as [_ H]. done.
        -- intros H. apply Hj in H. rewrite H. f_equal. lia.
    + rewrite decide_False by (intros H; by apply Hg in H). by apply IH; [..|lia].
Qed.

Lemma find_writer_spec todo i idx idx_writer mask writer :
  (i + todo <= length mask)%nat -> (i + todo < 256)%nat ->
  find_writer todo i idx idx_writer mask writer =
  Ok (match (if idx <=? idx_writer then goods mask (seq i todo) !! Z.to_nat (idx_writer - idx) else None) with
      | Some w => Z.of_nat w | None => writer end).
Proof.
  revert i idx writer. induction todo as [|todo IH]; intros i idx writer Hl Hb; cbn [find_writer seq].
  - by destruct (idx <=? idx_writer).
  - destruct (lookup_lt_is_Some_2 mask i) as [v Hv]; [lia|]. rewrite Hv.
    pose proof (good_eqb mask i v Hv) as Hg. unfold goods. rewrite filter_cons.
    destruct (negb (v =? InvalidConfidantIndex)).
    + rewrite decide_True by tauto. rewrite IH by lia.
      destruct (Z.leb_spec idx idx_writer), (Z.leb_spec (idx + 1) idx_writer), (Z.eqb_spec idx idx_writer); try lia; try done.
      * replace (Z.to_nat (idx_writer - idx)) with (S (Z.to_nat (idx_writer - (idx + 1)))) by lia. done.
      * subst. rewrite Z.sub_diag. change (Z.to_nat 0) with 0%nat. cbn. f_equal. apply uwrap_id. unfold in_u. lia.
    + rewrite decide_False by (intros H; by apply Hg in H). apply IH; lia.
Qed.

Lemma rotation_props writer cnt :
  (0 < cnt)%nat -> NoDup (rotation writer cnt) /\ Forall (fun c => (c < cnt)%nat) (rotation writer cnt) /\
  length (rotation writer cnt) = cnt.
Proof.
  intros Hc. unfold rotation. split; [|split].
  - apply NoDup_fmap_2_strong; [|apply NoDup_seq].
    intros x y Hx Hy E. apply elem_of_seq in Hx, Hy.
    pose proof (Nat.div_mod x cnt). pose proof (Nat.div_mod y cnt). 
    assert (x / cnt = y / cnt)%nat; [|lia].
    destruct (Nat.lt_trichotomy (x / cnt) (y / cnt)) as [?|[?|?]]; [exfalso|done|exfalso]; nia.
  - apply Forall_forall. intros c Hin. apply list_elem_of_fmap in Hin as (x & -> & _).
    apply Nat.mod_upper_bound. lia.
  - by rewrite length_map, length_seq.
Qed.

Lemma length_goods mask :
  Z.of_nat (length (goods mask (seq 0 (length mask)))) = Z.of_nat (length mask) - count_invalid mask.
Proof.
  rewrite TrustedMask.count_good. f_equal. unfold goods. induction mask as [|v mask IH] using rev_ind; [done|].
  rewrite length_app, seq_app, !filter_app, !length_app. cbn [length seq].
  assert (filter (good (mask ++ [v])) (seq 0 (length mask)) = filter (good mask) (seq 0 (length mask))) as ->.
  { apply filter_ext_elem. intros x Hx. apply elem_of_seq in Hx. unfold good. by rewrite lookup_app_l by lia. }
  rewrite IH. f_equal. rewrite !filter_cons, !filter_nil. cbn [Nat.add].
  assert (good (mask ++ [v]) (length mask) <-> v <> InvalidConfidantIndex) as Hg.
  { unfold good. rewrite list_lookup_middle by done. split; congruence. }
  repeat case_decide; (done || tauto).
Qed.

Lemma rotation_perm writer cnt : (0 < cnt)%nat -> rotation writer cnt ≡ₚ seq 0 cnt.
Proof.
  intros Hc. destruct (rotation_props writer cnt Hc) as (Hn & Hr & Hl).
  apply submseteq_length_Permutation; [|by rewrite length_seq, Hl].
  apply NoDup_submseteq; [done|]. intros x Hx. rewrite Forall_forall in Hr.
  apply elem_of_seq. specialize (Hr _ Hx). lia.
Qed.

(** What the two loops leave behind, whatever the index. *)
Record renumbered (mask mask' : list Z) (writer : nat) : Prop := {
  rn_length : length mask' = length mask;
  rn_bad : forall p, ~ good mask p -> mask' !! p = mask !! p;
  rn_rank : forall j p, goods mask (rotation writer (length mask)) !! j = Some p ->
    mask' !! p = Some (Z.of_nat j);
  rn_all : goods mask (rotation writer (length mask)) ≡ₚ goods mask (seq 0 (length mask))
}.

Lemma renumbered_invalid mask mask' writer :
  (0 < length mask < 255)%nat -> renumbered mask mask' writer -> count_invalid mask' = count_invalid mask.
Proof.
  intros Hl [L B R P]. pose proof (length_goods mask) as E. pose proof (length_goods mask') as E'.
  assert (goods mask' (seq 0 (length mask')) = goods mask (seq 0 (length mask))) as G; [|rewrite G, L in E'; lia].
  rewrite L. apply filter_ext_elem. intros p Hp. split; [|].
  - intros Hg Hbad. by apply Hg; rewrite B; [|intros H; by apply H].
  - intros Hg. assert (p ∈ goods mask (rotation writer (length mask))) as Hin.
    { rewrite P. by apply list_elem_of_filter. }
    apply list_elem_of_lookup_1 in Hin as [j Hj]. pose proof (R j p Hj) as E1. unfold good. rewrite E1.
    intros [= E2]. apply lookup_lt_Some in Hj. rewrite P in Hj.
    pose proof (length_filter (good mask) (seq 0 (length mask))) as Hf. rewrite length_seq in Hf.
    unfold goods, InvalidConfidantIndex in *. lia.
Qed.

(** The decision, with the writer the first loop leaves in [stage]. *)
Lemma decision_general hash_t mask writer :
  hash_t <> [] -> (0 < length mask <= 25)%nat -> 0 <= writer ->
  let cnt := Z.of_nat (length mask) in
  let active := cnt - count_invalid mask in
  cnt + 1 <= 2 * active ->
  let idx := Z.rem (hash_number hash_t) active in
  let w := match (if 0 <=? idx then goods mask (seq 0 (length mask)) !! Z.to_nat idx else None) with
           | Some w => Z.of_nat w | None => writer end in
  exists mask', take_urgent_decision hash_t cnt mask writer = Ok (true, (mask', w)) /\
    renumbered mask mask' (Z.to_nat w).
Proof.
  intros Hh Hl Hw cnt active Ha idx w. unfold take_urgent_decision.
  destruct hash_t as [|b hash_t]; [done|].
  replace (Z.min cnt MaxTrustedNodes) with cnt by (unfold MaxTrustedNodes; lia). fold active.
  rewrite (proj2 (Z.ltb_ge (active * 2) (cnt + 1))) by lia. fold idx.
  assert (Z.to_nat cnt = length mask) as En by (unfold cnt; lia). rewrite En.
  rewrite find_writer_spec by lia. rewrite Z.sub_0_r. fold w. cbn [rbind].
  destruct (rotation_props (Z.to_nat w) (length mask)) as (Hn & Hr & Hlen); [lia|].
  destruct (renumber_spec (rotation (Z.to_nat w) (length mask)) 0 mask Hn Hr) as (mask' & -> & L & B & R);
    [lia|rewrite Hlen; lia|]. cbn [rbind].
  assert (renumbered mask mask' (Z.to_nat w)) as Hren.
  { split; [done| |exact R|].
    - intros p Hp. apply B. intros H. by apply list_elem_of_filter in H as [? _].
    - unfold goods. by rewrite rotation_perm by lia. }
  exists mask'. split; [|done].
  rewrite (renumbered_invalid mask mask' (Z.to_nat w)) by (done || lia). rewrite L.
  rewrite (proj2 (Z.ltb_ge _ _)); [done|]. fold cnt. unfold active in Ha.
  Z.to_euclidean_division_equations; lia.
Qed.

(** With a majority the writer has the index 0. *)
Lemma decision_majority hash_t mask writer :
  hash_t <> [] -> (0 < length mask <= 25)%nat -> 0 <= writer -> 0 <= hash_number hash_t ->
  let cnt := Z.of_nat (length mask) in
  let active := cnt - count_invalid mask in
  cnt + 1 <= 2 * active ->
  exists mask' w, take_urgent_decision hash_t cnt mask writer = Ok (true, (mask', Z.of_nat w)) /\
    goods mask (seq 0 (length mask)) !! Z.to_nat (hash_number hash_t mod active) = Some w /\
    mask' !! w = Some 0 /\ renumbered mask mask' w.
Proof.
  intros Hh Hl Hw Hk cnt active Ha.
  destruct (decision_general hash_t mask writer Hh Hl Hw Ha) as (mask' & T & R).
  fold cnt active in T, R. rewrite Z.rem_mod_nonneg in T, R by lia.
  pose proof (Z.mod_pos_bound (hash_number hash_t) active) as Hm.
  rewrite (proj2 (Z.leb_le 0 _)) in T, R by lia.
  destruct (lookup_lt_is_Some_2 (goods mask (seq 0 (length mask)))
    (Z.to_nat (hash_number hash_t mod active))) as [w Ew].
  { pose proof (length_goods mask). fold cnt active in H. lia. }
  rewrite Ew in T, R. rewrite Nat2Z.id in R. exists mask', w. split; [done|]. split; [done|].
  split; [|done]. apply (rn_rank _ _ _ R 0).
  apply list_elem_of_lookup_2, list_elem_of_filter in Ew as [Hg Hin]. apply elem_of_seq in Hin.
  unfold goods, rotation. destruct (length mask) as [|n]; [lia|]. cbn [seq map].
  rewrite Nat.mod_small by lia. rewrite filter_cons, decide_True by done. done.
Qed.

Lemma decision_minority hash_t mask writer :
  hash_t <> [] -> (0 < length mask <= 25)%nat -> 2 * (Z.of_nat (length mask) - count_invalid mask) < Z.of_nat (length mask) + 1 ->
  take_urgent_decision hash_t (Z.of_nat (length mask)) mask writer = Ok (false, (mask, writer)).
Proof.
  intros Hh Hl Ha. unfold take_urgent_decision. destruct hash_t; [done|].
  rewrite Z.min_l by (unfold MaxTrustedNodes; lia). by rewrite (proj2 (Z.ltb_lt _ _)) by lia.
Qed.

(** What a mask after a decision says of the order: the writer is first, and no two have the same place. *)
Lemma decision_ranks hash_t mask writer mask' w :
  hash_t <> [] -> (0 < length mask <= 25)%nat -> 0 <= writer -> 0 <= hash_number hash_t ->
  take_urgent_decision hash_t (Z.of_nat (length mask)) mask writer = Ok (true, (mask', w)) ->
  0 <= w /\ mask' !! Z.to_nat w = Some 0 /\ length mask' = length mask /\
  (forall i v, mask' !! i = Some v -> v <> InvalidConfidantIndex -> 0 <= v < Z.of_nat (length mask)) /\
  (forall i j v, mask' !! i = Some v -> mask' !! j = Some v -> v <> InvalidConfidantIndex -> i = j).
Proof.
  intros Hh Hl Hw Hk E. destruct (Z.le_gt_cases (Z.of_nat (length mask) + 1) (2 * (Z.of_nat (length mask) - count_invalid mask))) as [Ha|Ha].
  2: { rewrite decision_minority in E by (done || lia). done. }
  destruct (decision_majority hash_t mask writer Hh Hl Hw Hk Ha) as (mask1 & w1 & E1 & _ & Hzero & R). rewrite E1 in E. injection E as -> <-.
  rewrite Nat2Z.id. split; [lia|]. split; [done|]. split; [apply R|].
  assert (forall i v, mask' !! i = Some v -> v <> InvalidConfidantIndex -> exists j, goods mask (rotation w1 (length mask)) !! j = Some i /\ v = Z.of_nat j) as Hj.
  { intros i v Hi Hv. destruct (decide (good mask i)) as [Hg|Hb].
    - assert (i ∈ goods mask (rotation w1 (length mask))) as Hin.
      { rewrite (rn_all _ _ _ R). apply list_elem_of_filter. split; [done|]. apply elem_of_seq. apply lookup_lt_Some in Hi. rewrite (rn_length _ _ _ R) in Hi. lia. }
      apply list_elem_of_lookup_1 in Hin as [j Ej]. exists j. split; [done|]. pose proof (rn_rank _ _ _ R j i Ej) as Ev. congruence.
    - exfalso. rewrite (rn_bad _ _ _ R i Hb) in Hi. apply Hb. unfold good. congruence. }
  split.
  - intros i v Hi Hv. destruct (Hj i v Hi Hv) as (j & Ej & ->). apply lookup_lt_Some in Ej. rewrite (rn_all _ _ _ R) in Ej.
    pose proof (length_filter (good mask) (seq 0 (length mask))) as Hf. rewrite length_seq in Hf. unfold goods in Ej. lia.
  - intros i j v Hi Hi' Hv. destruct (Hj i v Hi Hv) as (a & Ea & ->). destruct (Hj j _ Hi' Hv) as (b & Eb & E%Nat2Z.inj). congruence.
Qed.

(** C21: For a non-empty block hash whose leading number is not negative,
    TrustedStage3State::take_urgent_decision succeeds exactly when the confidants left in the mask
    are a strict majority; then the writer is the (number mod active)-th of them in mask order, it
    gets the index 0, the other good confidants are renumbered in rotation from it and the invalid
    ones stay 255. Otherwise mask and writer are left as they were and the result is false. *)
Theorem take_urgent_decision_spec hash_t mask writer :
  hash_t <> [] -> (0 < length mask <= 25)%nat -> 0 <= writer -> 0 <= hash_number hash_t ->
  let cnt := Z.of_nat (length mask) in
  let active := cnt - count_invalid mask in
  if cnt + 1 <=? 2 * active then
    exists mask' w, take_urgent_decision hash_t cnt mask writer = Ok (true, (mask', Z.of_nat w)) /\
      goods mask (seq 0 (length mask)) !! Z.to_nat (hash_number hash_t mod active) = Some w /\
      mask' !! w = Some 0 /\ renumbered mask mask' w
  else take_urgent_decision hash_t cnt mask writer = Ok (false, (mask, writer)).
Proof.
  intros Hh Hl Hw Hk cnt active. destruct (Z.leb_spec (cnt + 1) (2 * active)) as [Ha|Ha]; [by apply decision_majority|by apply decision_minority].
Qed.

(** A block hash that begins with the bytes of INT_MIN makes take_urgent_decision compute a
    negative index (the absolute value overflows): no writer is found, the function still succeeds
    and keeps the stale writer, unless the active count divides 2^31. *)
Theorem take_urgent_decision_int_min rest mask writer :
  (0 < length mask <= 25)%nat -> 0 <= writer ->
  let cnt := Z.of_nat (length mask) in
  let active := cnt - count_invalid mask in
  cnt + 1 <= 2 * active -> 2 ^ 31 mod active <> 0 ->
  exists mask', take_urgent_decision (0 :: 0 :: 0 :: 128 :: rest) cnt mask writer = Ok (true, (mask', writer)).
Proof.
  intros Hl Hw cnt active Ha Hd.
  destruct (decision_general (0 :: 0 :: 0 :: 128 :: rest) mask writer) as (mask' & T & _); [done..|].
  exists mask'. fold cnt active in T. change (hash_number _) with (- 2 ^ 31) in T.
  rewrite Z.rem_opp_l, Z.rem_mod_nonneg in T by lia.
  pose proof (Z.mod_pos_bound (2 ^ 31) active). rewrite (proj2 (Z.leb_gt 0 _)) in T by lia. done.
Qed.
End decision.


(** ** The election *)

Section election.
Context `{!Cscrypto}.

(** [std::map<Key, uint8_t>]: the pairs in key order. *)
Definition election := list (bytes * Z).

(** [if (m.count(k) > 0) m.at(k) += 1; else m.emplace(k, uint8_t(1));] *)
Fixpoint vote (k : bytes) (m : election) : election :=
  match m with
  | [] => [(k, 1)]
  | (h, n) :: m' =>
      if decide (k = h) then (h, u8 (n + 1)) :: m'
      else if lex_lt k h then (k, 1) :: m
      else (h, n) :: vote k m'
  end.

Definition vote_all (ks : list bytes) (m : election) : election :=
  fold_left (fun m k => vote k m) ks m.

Record StakeHolder := mkStake { key : bytes; stake : Amount }.

Record table := mkTable {
  t_mask : list Z;                 (* stage.realTrustedMask *)
  candidatesElection : election;
  hashesElection : election;
  myHashes : list bytes
}.

(** [context.stage1(i)]: the first stage of that sender. *)
Definition find_stage1 (stage1 : list StageOne) (i : Z) : option StageOne :=
  find (fun st => s1_sender st =? i) stage1.

(** The loop over the confidants [i < cnt_trusted], [todo] of them left. *)
Fixpoint election_loop (todo : nat) (i : Z) (stage1 : list StageOne) (mark : list Z) (own : Z)
    (t : table) : result table :=
  match todo with
  | O => Ok t
  | S todo =>
      if Z.of_nat (length (t_mask t)) <=? i then Throw out_of_range
      else if untrusted_value mark i =? 0 then
        let t := mkTable (<[Z.to_nat i := FirstWriterIndex]> (t_mask t)) (candidatesElection t)
                   (hashesElection t) (myHashes t) in
        match find_stage1 stage1 i with
        | None => election_loop todo (i + 1) stage1 mark own t
        | Some stage_i =>
            let candidates_amount := u8 (Z.of_nat (length (trustedCandidates stage_i))) in
            election_loop todo (i + 1) stage1 mark own
              (mkTable (t_mask t)
                 (vote_all (take (Z.to_nat candidates_amount) (trustedCandidates stage_i))
                    (candidatesElection t))
                 (vote_all (hashesCandidates stage_i) (hashesElection t))
                 (if s1_sender stage_i =? own then hashesCandidates stage_i else myHashes t))
        end
      else election_loop todo (i + 1) stage1 mark own
             (mkTable (<[Z.to_nat i := InvalidConfidantIndex]> (t_mask t)) (candidatesElection t)
                (hashesElection t) (myHashes t))
  end.

Definition cnt_confidants (cnt_trusted : Z) : Z := Z.min (u8 cnt_trusted) (u8 MaxTrustedNodes).

(** [if (it.second > cr) next_round_hashes.emplace_back(it.first)] *)
Definition accept_hashes (cr : Z) (m : election) : list bytes :=
  map fst (filter (fun p => cr < p.2) m).

(** The statistics on the own hashes: [(acceptedPacks, myRejectedHashes)] *)
Definition own_hashes (myHashes next_round_hashes : list bytes) : nat * list bytes :=
  fold_left (fun acc hash =>
    let differ := length (filter (fun h => h <> hash) next_round_hashes) in
    ((acc.1 + differ)%nat, if (differ =? 0)%nat then acc.2 ++ [hash] else acc.2))
    myHashes (0%nat, []).

(** *** The choice of the next confidants *)

Context (balance : bytes -> Amount).                      (* BlockChain::findWalletData *)
Context (log_conf : Z -> Z).                              (* size_t(4. + 1.85 * log(n / 4.)) *)
Context (sort : list StakeHolder -> list StakeHolder).    (* std::sort, by stake, descending *)
Context (rng : nat -> Z).                                 (* std::mt19937 seeded with the round *)

Definition max_confidants (candidates : Z) : Z :=
  if candidates <? 4 then candidates
  else if MaxTrustedNodes <? log_conf candidates then MaxTrustedNodes else log_conf candidates.

Definition estimated_liars (max_conf : Z) : Z := if 5 <? max_conf then max_conf / 4 else 0.

(** [while (itStake != stakers.end())]: the keys above and below the threshold. *)
Definition split_stakers (limit : Z) (stakers : list StakeHolder) : list bytes * list bytes :=
  (map key (take (Z.to_nat limit) stakers), map key (drop (Z.to_nat limit) stakers)).

(** From the votes to [next_round_trust]; [None]: an iterator runs past the
    end of [belowThreshold], or [aboveThreshold.at(i)] throws. *)
Definition next_trust (fuel : nat) (candidates : election) : option (list bytes) :=
  let max_conf := max_confidants (Z.of_nat (length candidates)) in
  let eLiars := estimated_liars max_conf in
  let stakers := sort (map (fun it => mkStake it.1 (balance it.1)) candidates) in
  let '(aboveThreshold, belowThreshold) := split_stakers (max_conf - eLiars) stakers in
  let? belowThreshold := shuffle rng fuel belowThreshold in
  if (length belowThreshold <? Z.to_nat eLiars)%nat then None
  else
    let aboveThreshold := aboveThreshold ++ take (Z.to_nat eLiars) belowThreshold in
    let? aboveThreshold := shuffle rng fuel aboveThreshold in
    if MinTrustedNodes <=? Z.of_nat (length aboveThreshold)
    then if (length aboveThreshold <? Z.to_nat max_conf)%nat then None
         else Some (take (Z.to_nat max_conf) aboveThreshold)
    else Some [].

Record elected := mkElected {
  el_mask : list Z;
  next_round_trust : list bytes;
  next_round_hashes : list bytes
}.

(** [TrustedStage3State::trusted_election]; [None] as in [next_trust]. *)
Definition trusted_election (fuel : nat) (cnt_trusted : Z) (stage1 : list StageOne) (mark mask : list Z)
    (own : Z) : result (option elected) :=
  let cnt := cnt_confidants cnt_trusted in
  let cr := cnt / 2 in
  let! t := election_loop (Z.to_nat cnt) 0 stage1 mark own (mkTable mask [] [] []) in
  Ok (let? trust := next_trust fuel (candidatesElection t) in
      Some (mkElected (t_mask t) trust (accept_hashes cr (hashesElection t)))).

(** *** The election table *)

Definition count (k : bytes) (ks : list bytes) : Z := Z.of_nat (length (filter (fun h => h = k) ks)).

Definition keys_sorted (m : election) : Prop := StronglySorted (fun a b => lex_lt a b = true) (map fst m).

Lemma vote_keys k m x : x ∈ map fst (vote k m) -> x = k \/ x ∈ map fst m.
Proof.
  induction m as [|[h n] m IH]; cbn [vote].
  - cbn. rewrite list_elem_of_singleton. tauto.
  - destruct (decide (k = h)) as [->|]; [cbn; tauto|]. destruct (lex_lt k h); cbn [map fst]; rewrite !elem_of_cons; [tauto|].
    intros [->|Hx]; [tauto|]. apply IH in Hx. tauto.
Qed.

Lemma vote_sorted k m : keys_sorted m -> keys_sorted (vote k m).
Proof.
  unfold keys_sorted. induction m as [|[h n] m IH]; cbn [vote map fst]; intros Hs.
  - repeat constructor.
  - inversion Hs as [|? ? Hs' Hf]; subst. destruct (decide (k = h)) as [->|Hne]; [done|].
    destruct (lex_lt k h) eqn:L; cbn [map fst].
    + constructor; [done|]. constructor; [done|]. eapply Forall_impl; [exact Hf|].
      intros x Hx. by apply lex_lt_trans with h.
    + constructor; [by apply IH|]. apply Forall_forall. intros x Hx.
      apply vote_keys in Hx as [->|Hx]; [|rewrite Forall_forall in Hf; by apply Hf].
      destruct (lex_lt_total k h Hne); congruence.
Qed.

Definition tally (k : bytes) (m : election) : option Z :=
  snd <$> find (fun p => bool_decide (p.1 = k)) m.

Lemma tally_cons k h n m : tally k ((h, n) :: m) = if decide (h = k) then Some n else tally k m.
Proof. unfold tally. cbn [find fst]. by destruct (decide (h = k)); [rewrite bool_decide_true|rewrite bool_decide_false]. Qed.

Lemma tally_None k m : tally k m = None <-> k ∉ map fst m.
Proof.
  induction m as [|[h n] m IH]; [split; [intros _; apply not_elem_of_nil|done]|].
  rewrite tally_cons. cbn [map fst]. rewrite not_elem_of_cons.
  destruct (decide (h = k)) as [->|Hne]; [split; [done|by intros [? _]]|]. rewrite IH.
  split; [intros ?; split; [congruence|done]|tauto].
Qed.

Lemma tally_vote k h m : keys_sorted m ->
  tally h (vote k m) = if decide (h = k) then Some (from_option (fun n => u8 (n + 1)) 1 (tally h m)) else tally h m.
Proof.
  unfold keys_sorted. induction m as [|[x n] m IH]; intros Hs; cbn [vote].
  - rewrite tally_cons. by repeat case_decide; try congruence.
  - cbn [map fst] in Hs. inversion Hs as [|? ? Hs' Hf]; subst.
    destruct (decide (k = x)) as [->|Hne].
    + rewrite !tally_cons. by repeat case_decide; try congruence.
    + destruct (lex_lt k x) eqn:L.
      * rewrite tally_cons. destruct (decide (k = h)) as [->|Hkh]; [|by rewrite decide_False by congruence].
        rewrite decide_True by done.
        assert (tally h ((x, n) :: m) = None) as ->; [|done]. apply tally_None. cbn [map fst].
        intros Hin. rewrite elem_of_cons in Hin. destruct Hin as [->|Hin]; [done|].
        rewrite Forall_forall in Hf. apply Hf in Hin.
        pose proof (lex_lt_trans _ _ _ L Hin) as C. by rewrite lex_lt_irrefl in C.
      * rewrite !tally_cons, IH by done. by repeat case_decide; try congruence.
Qed.

Lemma count_cons k h ks : count k (h :: ks) = count k ks + if decide (h = k) then 1 else 0.
Proof. unfold count. rewrite filter_cons. repeat case_decide; cbn [length]; (lia || congruence). Qed.

Lemma count_pos k ks : k ∈ ks -> 0 < count k ks.
Proof.
  intros Hin. unfold count. assert (k ∈ filter (fun h => h = k) ks) as Hf by by apply list_elem_of_filter.
  destruct (filter _ ks); [by apply not_elem_of_nil in Hf|cbn; lia].
Qed.

Lemma count_zero k ks : k ∉ ks -> count k ks = 0.
Proof.
  intros Hni. unfold count. destruct (filter _ ks) as [|x l] eqn:E; [done|]. exfalso. apply Hni.
  assert (x ∈ filter (fun h => h = k) ks) as Hf by (rewrite E; by left).
  by apply list_elem_of_filter in Hf as [-> Hf].
Qed.

Lemma u8_u8_add n m : u8 (u8 n + m) = u8 (n + m).
Proof. unfold uwrap. by rewrite Z.add_mod_idemp_l. Qed.

Lemma vote_all_spec ks m : keys_sorted m ->
  keys_sorted (vote_all ks m) /\
  forall k, tally k (vote_all ks m) =
    if decide (k ∈ ks) then Some (u8 (default 0 (tally k m) + count k ks)) else tally k m.
Proof.
  unfold vote_all. revert m. induction ks as [|h ks IH]; intros m Hs; cbn [fold_left].
  - split; [done|]. intros k. by rewrite decide_False by apply not_elem_of_nil.
  - destruct (IH (vote h m) (vote_sorted _ _ Hs)) as [Hs' Ht]. split; [done|]. intros k.
    rewrite Ht, tally_vote, count_cons by done.
    destruct (decide (h = k)) as [->|Hne].
    + rewrite (decide_True _ _ (eq_refl k)), (decide_True (P := k ∈ k :: ks)) by by left.
      destruct (decide (k ∈ ks)) as [Hin|Hin].
      * f_equal. destruct (tally k m) as [n|]; cbn [from_option default].
        -- change (id ?x) with x. rewrite u8_u8_add. f_equal. lia.
        -- f_equal. cbn. lia.
      * rewrite (count_zero k ks) by done. f_equal. destruct (tally k m) as [n|]; cbn; f_equal; lia.
    + rewrite (decide_False (P := k = h)) by congruence. rewrite Z.add_0_r.
      destruct (decide (k ∈ ks)) as [Hin|Hin].
      * by rewrite decide_True by by right.
      * rewrite decide_False; [done|]. rewrite elem_of_cons. intros [->|?]; done.
Qed.

Lemma elem_of_tally k n m : keys_sorted m -> (k, n) ∈ m <-> tally k m = Some n.
Proof.
  unfold keys_sorted. induction m as [|[h x] m IH]; intros Hs.
  - split; [intros Hx; by apply not_elem_of_nil in Hx|done].
  - cbn [map fst] in Hs. inversion Hs as [|? ? Hs' Hf]; subst. rewrite tally_cons, elem_of_cons.
    destruct (decide (h = k)) as [->|Hne].
    + split; [|intros [= ->]; by left]. intros [[= ->]|Hin]; [done|exfalso].
      assert (k ∈ map fst m) as Hk by (apply list_elem_of_In, in_map_iff; exists (k, n); by rewrite <- list_elem_of_In).
      rewrite Forall_forall in Hf. apply Hf in Hk. by rewrite lex_lt_irrefl in Hk.
    + rewrite IH by done. split; [intros [[= -> ->]|]; done|by right].
Qed.

Lemma vote_all_elem ks k n : (k, n) ∈ vote_all ks [] <-> k ∈ ks /\ n = u8 (count k ks).
Proof.
  destruct (vote_all_spec ks []) as [Hs Ht]; [constructor|].
  rewrite elem_of_tally, Ht by done. destruct (decide (k ∈ ks)) as [Hin|Hin]; cbn.
  - split; [intros [= <-]; done|intros [_ ->]; done].
  - split; [done|tauto].
Qed.

(** The hashes that are accepted. *)
Lemma elem_of_accept cr ks h : h ∈ accept_hashes cr (vote_all ks []) <-> h ∈ ks /\ cr < u8 (count h ks).
Proof.
  unfold accept_hashes. rewrite list_elem_of_fmap. split.
  - intros ([k n] & -> & Hin). apply list_elem_of_filter in Hin as [Hc Hin]. cbn in *.
    by apply vote_all_elem in Hin as [Hk ->].
  - intros [Hin Hc]. exists (h, u8 (count h ks)). split; [done|]. apply list_elem_of_filter.
    split; [done|]. by apply vote_all_elem.
Qed.

(** The stages that take part: those of the confidants not marked untrusted. *)
Definition trusted_stages (stage1 : list StageOne) (mark : list Z) (i todo : nat) : list StageOne :=
  omap (fun i => if untrusted_value mark (Z.of_nat i) =? 0 then find_stage1 stage1 (Z.of_nat i) else None)
    (seq i todo).

Definition candidates_of (st : StageOne) : list bytes :=
  take (Z.to_nat (u8 (Z.of_nat (length (trustedCandidates st))))) (trustedCandidates st).

Definition mask_of (mark : list Z) (i : nat) : Z :=
  if untrusted_value mark (Z.of_nat i) =? 0 then FirstWriterIndex else InvalidConfidantIndex.

Lemma vote_all_app ks ks' m : vote_all (ks ++ ks') m = vote_all ks' (vote_all ks m).
Proof. apply fold_left_app. Qed.

Lemma election_loop_spec todo i stage1 mark own t :
  (i + todo <= length (t_mask t))%nat ->
  exists t', election_loop todo (Z.of_nat i) stage1 mark own t = Ok t' /\
    candidatesElection t' = vote_all (concat (map candidates_of (trusted_stages stage1 mark i todo))) (candidatesElection t) /\
    hashesElection t' = vote_all (concat (map hashesCandidates (trusted_stages stage1 mark i todo))) (hashesElection t) /\
    length (t_mask t') = length (t_mask t) /\
    forall j, t_mask t' !! j = if decide (i <= j < i + todo)%nat then Some (mask_of mark j) else t_mask t !! j.
Proof.
  revert i t. induction todo as [|todo IH]; intros i t Hl; cbn [election_loop].
  - exists t. do 4 (split; [done|]). intros j. by rewrite decide_False by lia.
  - rewrite (proj2 (Z.leb_gt _ _)) by lia. replace (Z.of_nat i + 1) with (Z.of_nat (S i)) by lia.
    unfold trusted_stages. cbn [seq]. unfold mask_of.
    assert (forall m v, length m = length (t_mask t) -> m = <[i := v]> (t_mask t) ->
      v = mask_of mark i -> forall (t' : table),
      (forall j, t_mask t' !! j = if decide (S i <= j < S i + todo)%nat then Some (mask_of mark j) else m !! j) ->
      forall j, t_mask t' !! j = if decide (i <= j < i + S todo)%nat then Some (mask_of mark j) else t_mask t !! j) as Hm.
    { intros m v _ -> -> t' Ht' j. rewrite Ht'. destruct (decide (j = i)) as [->|Hne].
      - rewrite decide_False, decide_True by lia. apply list_lookup_insert_eq. lia.
      - rewrite list_lookup_insert_ne by done. do 2 case_decide; (done || lia). }
    destruct (untrusted_value mark (Z.of_nat i) =? 0) eqn:U; cbn [omap list_omap].
    + rewrite U, Nat2Z.id. destruct (find_stage1 stage1 (Z.of_nat i)) as [st|] eqn:F;
        (edestruct (IH (S i)) as (t' & R & C & Hh & L & M); [|exists t'; split; [exact R|]]);
        cbn [t_mask candidatesElection hashesElection map concat] in *; rewrite ?length_insert in *; try lia.
      * rewrite !vote_all_app. split; [exact C|]. split; [exact Hh|]. split; [done|].
        eapply Hm; [..|exact M]; [apply length_insert|done|]. unfold mask_of. by rewrite U.
      * split; [exact C|]. split; [exact Hh|]. split; [done|].
        eapply Hm; [..|exact M]; [apply length_insert|done|]. unfold mask_of. by rewrite U.
    + rewrite U, Nat2Z.id. edestruct (IH (S i)) as (t' & R & C & Hh & L & M); [|exists t'; split; [exact R|]];
        cbn [t_mask candidatesElection hashesElection] in *; rewrite ?length_insert in *; [lia|].
      split; [exact C|]. split; [exact Hh|]. split; [done|].
      eapply Hm; [..|exact M]; [apply length_insert|done|]. unfold mask_of. by rewrite U.
Qed.

(** The proposals of a hash, one per trusted stage that lists it. *)
Lemma count_concat h (sts : list StageOne) :
  Forall (fun st => NoDup (hashesCandidates st)) sts ->
  count h (concat (map hashesCandidates sts)) =
  Z.of_nat (length (filter (fun st => h ∈ hashesCandidates st) sts)).
Proof.
  induction 1 as [|st sts Hn _ IH]; [done|]. cbn [map concat]. unfold count in *.
  rewrite filter_app, length_app, filter_cons, Nat2Z.inj_add, IH.
  assert (Z.of_nat (length (filter (fun k => k = h) (hashesCandidates st))) =
    if decide (h ∈ hashesCandidates st) then 1 else 0) as ->; [|case_decide; cbn [length]; lia].
  clear IH. induction Hn as [|k ks Hni _ IH]; [done|]. rewrite filter_cons.
  destruct (decide (k = h)) as [->|Hne].
  - rewrite (decide_True (P := h ∈ h :: ks)) by by left. cbn [length].
    rewrite Nat2Z.inj_succ, IH, decide_False by done. done.
  - rewrite IH. apply decide_ext. rewrite elem_of_cons. split; [by right|]. by intros [->|?].
Qed.

Lemma length_trusted_stages stage1 mark i todo : (length (trusted_stages stage1 mark i todo) <= todo)%nat.
Proof.
  unfold trusted_stages. set (f := fun _ => _).
  assert (forall l : list nat, length (omap f l) <= length l)%nat as Hf.
  { induction l as [|x l IH]; [done|]. cbn [omap list_omap]. destruct (f x); cbn [length]; unfold omap in *; lia. }
  specialize (Hf (seq i todo)). by rewrite length_seq in Hf.
Qed.

Lemma election_hashes fuel cnt_trusted stage1 mark mask own e :
  cnt_confidants cnt_trusted <= Z.of_nat (length mask) ->
  trusted_election fuel cnt_trusted stage1 mark mask own = Ok (Some e) ->
  next_round_hashes e = accept_hashes (cnt_confidants cnt_trusted / 2)
    (vote_all (concat (map hashesCandidates
       (trusted_stages stage1 mark 0 (Z.to_nat (cnt_confidants cnt_trusted))))) []).
Proof.
  intros Hl. unfold trusted_election.
  destruct (election_loop_spec (Z.to_nat (cnt_confidants cnt_trusted)) 0 stage1 mark own
    (mkTable mask [] [] [])) as (t & R & _ & Hh & _); [cbn [t_mask]; lia|].
  change (Z.of_nat 0) with 0 in R. rewrite R. cbn [rbind]. cbn [hashesElection] in Hh. rewrite Hh.
  destruct (next_trust _ _); [|done]. by intros [= <-].
Qed.

Lemma cnt_confidants_range cnt_trusted : 0 <= cnt_confidants cnt_trusted <= 25.
Proof.
  unfold cnt_confidants. pose proof (uwrap_range 8 cnt_trusted) as Hr. unfold in_u in Hr.
  change (u8 MaxTrustedNodes) with 25. lia.
Qed.

(** When no trusted confidant repeats a packet hash in its stage-one message, the packets
    trusted_election accepts for the next round are exactly those that more than half of the
    confidants proposed. *)
Theorem hash_election_majority fuel cnt_trusted stage1 mark mask own e :
  let cnt := cnt_confidants cnt_trusted in
  let voters := trusted_stages stage1 mark 0 (Z.to_nat cnt) in
  cnt <= Z.of_nat (length mask) ->
  trusted_election fuel cnt_trusted stage1 mark mask own = Ok (Some e) ->
  Forall (fun st => NoDup (hashesCandidates st)) voters ->
  forall h, h ∈ next_round_hashes e <->
    cnt < 2 * Z.of_nat (length (filter (fun st => h ∈ hashesCandidates st) voters)).
Proof.
  intros cnt voters Hl He Hn h. rewrite (election_hashes _ _ _ _ _ _ _ Hl He). fold cnt voters.
  rewrite elem_of_accept, count_concat by done.
  pose proof (cnt_confidants_range cnt_trusted) as Hc. fold cnt in Hc.
  pose proof (length_filter (fun st => h ∈ hashesCandidates st) voters) as Hf.
  pose proof (length_trusted_stages stage1 mark 0 (Z.to_nat cnt)) as Ht. fold voters in Ht.
  rewrite uwrap_id by (unfold in_u; lia).
  assert (forall n, cnt / 2 < n <-> cnt < 2 * n) as Hd by (intros; Z.to_euclidean_division_equations; lia).
  rewrite Hd. split; [tauto|]. intros Hv. split; [|done].
  destruct (filter (fun st => h ∈ hashesCandidates st) voters) as [|st l] eqn:E; [cbn in Hv; lia|].
  assert (st ∈ filter (fun st => h ∈ hashesCandidates st) voters) as Hin by (rewrite E; by left).
  apply list_elem_of_filter in Hin as [Hh Hin]. apply list_elem_of_In, in_concat.
  exists (hashesCandidates st). split; [by apply in_map, list_elem_of_In|by apply list_elem_of_In].
Qed.

(** A confidant that repeats a hash in its message votes as many times: a hash only one confidant
    proposes is accepted exactly when the uint8_t count of its repetitions exceeds half the
    confidants. *)
Theorem hash_election_repeats fuel cnt_trusted stage1 mark mask own e before st after h :
  let cnt := cnt_confidants cnt_trusted in
  cnt <= Z.of_nat (length mask) ->
  trusted_election fuel cnt_trusted stage1 mark mask own = Ok (Some e) ->
  trusted_stages stage1 mark 0 (Z.to_nat cnt) = before ++ st :: after ->
  Forall (fun st => h ∉ hashesCandidates st) (before ++ after) ->
  h ∈ next_round_hashes e <->
    h ∈ hashesCandidates st /\ cnt / 2 < u8 (count h (hashesCandidates st)).
Proof.
  intros cnt Hl He Hs Hn. rewrite (election_hashes _ _ _ _ _ _ _ Hl He). fold cnt.
  rewrite Hs, elem_of_accept, map_app, concat_app. cbn [map concat].
  assert (forall l, Forall (fun st => h ∉ hashesCandidates st) l -> h ∉ concat (map hashesCandidates l)) as Hni.
  { induction 1 as [|x l Hx _ IH]; [apply not_elem_of_nil|]. cbn [map concat]. rewrite elem_of_app. tauto. }
  apply Forall_app in Hn as [Hb Ha]. apply Hni in Hb, Ha.
  unfold count in *. rewrite !filter_app, !length_app, !Nat2Z.inj_add.
  fold (count h (concat (map hashesCandidates before))). fold (count h (hashesCandidates st)).
  fold (count h (concat (map hashesCandidates after))).
  rewrite (count_zero h (concat (map hashesCandidates before))), (count_zero h (concat (map hashesCandidates after))) by done.
  rewrite !elem_of_app, Z.add_0_r, Z.add_0_l. tauto.
Qed.

(** *** The next confidants *)

Context (sort_perm : forall l, sort l ≡ₚ l).
Context (sort_sorted : forall l, StronglySorted (fun a b => op_gt (stake b) (stake a) = false) (sort l)).
Context (log_conf_range : forall n, 4 <= n -> 4 <= log_conf n <= n).
Context (rng_range : forall g, 0 <= rng g < 2 ^ 32).

Lemma shuffle_perm {A} fuel (l : list A) :
  Z.of_nat (length l) < 2 ^ 62 -> exists l', shuffle rng (S (S fuel)) l = Some l' /\ l' ≡ₚ l.
Proof using rng_range.
  intros Hl. unfold shuffle. destruct l as [|a l]; [by exists []|].
  eexists. split; [|apply (fisher_yates_perm rng (length (a :: l) - 1) 1)].
  apply (shuffle_loop_fisher rng rng_range fuel _ 1); cbn [length] in *; lia.
Qed.

Lemma max_confidants_range n : 0 <= n -> 0 <= max_confidants n <= n /\ max_confidants n <= 25 /\
  (3 <= n -> 3 <= max_confidants n).
Proof using log_conf_range.
  intros Hn. unfold max_confidants, MaxTrustedNodes. destruct (Z.ltb_spec n 4); [lia|].
  pose proof (log_conf_range n). destruct (Z.ltb_spec 25 (log_conf n)); lia.
Qed.

Lemma estimated_liars_range m : 0 <= m -> 0 <= estimated_liars m <= m.
Proof. intros Hm. unfold estimated_liars. destruct (5 <? m); Z.to_euclidean_division_equations; lia. Qed.

(** The richest candidates come first. *)
Lemma sorted_take_drop (R : StakeHolder -> StakeHolder -> Prop) l n a b :
  StronglySorted R l -> a ∈ take n l -> b ∈ drop n l -> R a b.
Proof.
  intros Hs. revert n. induction Hs as [|x l Hs IH Hf]; intros n; [by rewrite take_nil; intros ?%not_elem_of_nil|].
  destruct n as [|n]; cbn [take drop]; [by intros ?%not_elem_of_nil|].
  intros Ha Hb. apply elem_of_cons in Ha as [->|Ha]; [|by apply (IH n)].
  rewrite Forall_forall in Hf. apply Hf. eapply subseteq_drop, Hb.
Qed.

Definition stakers_of (candidates : election) : list StakeHolder :=
  sort (map (fun it => mkStake it.1 (balance it.1)) candidates).

Lemma stakers_keys candidates : map key (stakers_of candidates) ≡ₚ map fst candidates.
Proof using sort_perm.
  unfold stakers_of. rewrite (Permutation_map key (sort_perm _)), map_map. cbn [key]. done.
Qed.

Lemma stakers_stake candidates s : s ∈ stakers_of candidates -> stake s = balance (key s).
Proof using sort_perm.
  unfold stakers_of. rewrite sort_perm. intros Hs. apply list_elem_of_fmap in Hs as (it & -> & _). done.
Qed.

(** The threshold splits the candidates; the shuffles and the cut lose none
    of those above it. *)
Lemma next_trust_perm fuel candidates :
  Z.of_nat (length candidates) < 2 ^ 62 ->
  let n := Z.of_nat (length candidates) in
  let limit := Z.to_nat (max_confidants n - estimated_liars (max_confidants n)) in
  exists trust rest, next_trust (S (S fuel)) candidates = Some trust /\
    if 3 <=? n then trust ≡ₚ map key (take limit (stakers_of candidates)) ++ rest /\
      rest ⊆+ map key (drop limit (stakers_of candidates)) /\
      Z.of_nat (length trust) = max_confidants n
    else trust = [].
Proof using sort_perm log_conf_range rng_range.
  intros Hl n limit. destruct (max_confidants_range n) as (Hm & Hm25 & Hm3); [lia|].
  pose proof (estimated_liars_range (max_confidants n)) as He. set (m := max_confidants n) in *.
  set (el := estimated_liars m) in *. unfold next_trust. fold n m el.
  fold (stakers_of candidates). unfold split_stakers. fold limit.
  assert (length (stakers_of candidates) = length candidates) as Hsl
    by (rewrite <- (length_map key), (stakers_keys candidates); apply length_map).
  destruct (shuffle_perm fuel (map key (drop limit (stakers_of candidates)))) as (below & -> & Hb).
  { rewrite length_map, length_drop. lia. }
  pose proof (Permutation_length Hb) as Hbl. rewrite length_map, length_drop, Hsl in Hbl.
  destruct (Nat.ltb_spec (length below) (Z.to_nat el)) as [|_]; [lia|].
  set (above := map key (take limit (stakers_of candidates)) ++ take (Z.to_nat el) below).
  assert (Z.of_nat (length above) = m) as Hal.
  { unfold above. rewrite length_app, length_map, !length_take, Hsl. lia. }
  destruct (shuffle_perm fuel above) as (above' & -> & Ha); [lia|].
  pose proof (Permutation_length Ha) as Hal'.
  unfold MinTrustedNodes. destruct (Z.leb_spec 3 n) as [Hn|Hn].
  - rewrite (proj2 (Z.leb_le 3 _)) by lia.
    destruct (Nat.ltb_spec (length above') (Z.to_nat m)) as [|_]; [lia|].
    rewrite take_ge by lia. exists above', (take (Z.to_nat el) below).
    split; [done|]. split; [by rewrite Ha|]. split; [|lia].
    rewrite <- Hb. apply sublist_submseteq, sublist_take.
  - rewrite (proj2 (Z.leb_gt 3 _)) by lia. by exists [], [].
Qed.

(** The election of the next confidants, for any std::sort and any generator: with at least
    MinTrustedNodes candidates it yields max_conf distinct candidates (none below that), and a
    candidate that is not chosen has at least max_conf minus the estimated liars chosen confidants
    whose balance is not lower than its own: the richest positions cannot be taken by the shuffle. *)
Theorem next_trust_spec fuel candidates :
  NoDup (map fst candidates) -> Z.of_nat (length candidates) < 2 ^ 62 ->
  let n := Z.of_nat (length candidates) in
  let guaranteed := max_confidants n - estimated_liars (max_confidants n) in
  exists trust, next_trust (S (S fuel)) candidates = Some trust /\
    Z.of_nat (length trust) = (if 3 <=? n then max_confidants n else 0) /\
    NoDup trust /\ trust ⊆ map fst candidates /\
    (3 <= n -> forall c, c ∈ map fst candidates -> c ∉ trust ->
       guaranteed <= Z.of_nat (length (filter (fun k => op_gt (balance c) (balance k) = false) trust))).
Proof using sort_perm sort_sorted log_conf_range rng_range.
  intros Hn Hl n guaranteed. destruct (next_trust_perm fuel candidates Hl) as (trust & rest & E & Hx).
  fold n guaranteed in Hx. exists trust. split; [done|].
  destruct (Z.leb_spec 3 n) as [H3|H3]; [|subst trust; split; [done|]; split; [apply NoDup_nil_2|]; split; [by intros ? ?%not_elem_of_nil|lia]].
  destruct Hx as (Hp & Hr & Hlen). split; [done|].
  set (limit := Z.to_nat guaranteed) in *. set (st := stakers_of candidates) in *.
  assert (trust ⊆+ map key st) as Hsub.
  { rewrite Hp. rewrite <- (take_drop limit st) at 2. rewrite map_app. by apply submseteq_app. }
  pose proof (stakers_keys candidates) as Hk. fold st in Hk.
  destruct (submseteq_Permutation _ _ Hsub) as [k' Hk'].
  split.
  { rewrite <- Hk, Hk' in Hn. by apply NoDup_app in Hn as (? & _ & _). }
  split.
  { intros c Hc. rewrite <- Hk. by eapply elem_of_submseteq. }
  intros _ c Hc Hni. rewrite <- Hk in Hc.
  assert (c ∈ map key (drop limit st)) as Hd.
  { rewrite <- (take_drop limit st), map_app, elem_of_app in Hc. destruct Hc as [Hc|Hc]; [|done].
    exfalso. apply Hni. rewrite Hp. apply elem_of_app. by left. }
  rewrite Hp, filter_app, length_app, filter_all.
  - rewrite length_map, length_take.
    assert (length st = length candidates) as Hsl
      by (rewrite <- (length_map key), Hk; apply length_map).
    destruct (max_confidants_range n) as (Hm & _ & _); [lia|].
    pose proof (estimated_liars_range (max_confidants n)). lia.
  - apply Forall_forall. intros k Hin.
    apply list_elem_of_fmap in Hin as (sk & -> & Hsk), Hd as (sc & -> & Hsc).
    pose proof (sorted_take_drop _ _ limit sk sc (sort_sorted _) Hsk Hsc) as Ho. cbn beta in Ho.
    rewrite (stakers_stake candidates sk), (stakers_stake candidates sc) in Ho;
      [done|eapply subseteq_drop, Hsc|eapply subseteq_take, Hsk].
Qed.
End election.
End Stage3.

(** ** Witnesses *)

(** Four confidants, the second invalid; the hash selects the third good node. *)
Lemma take_urgent_decision_spec_witness :
  exists mask' w, Stage3.take_urgent_decision [5; 0; 0; 0] 4 [0; 255; 0; 0] 255 = Ok (true, (mask', Z.of_nat w)) /\
    Stage3.goods [0; 255; 0; 0] (seq 0 4) !! Z.to_nat (Stage3.hash_number [5; 0; 0; 0] mod 3) = Some w /\
    mask' !! w = Some 0 /\ Stage3.renumbered [0; 255; 0; 0] mask' w.
Proof.
  apply (Stage3.take_urgent_decision_spec [5; 0; 0; 0] [0; 255; 0; 0] 255); [done|cbn; lia|lia|done].
Defined.

Lemma take_urgent_decision_int_min_witness :
  exists mask', Stage3.take_urgent_decision [0; 0; 0; 128] 3 [0; 0; 0] 77 = Ok (true, (mask', 77)).
Proof. apply (Stage3.take_urgent_decision_int_min [] [0; 0; 0] 77); [cbn; lia|lia|done|done]. Defined.

(** Three stages with the hashes 1, 2, 1: the second sender is the liar. *)
Definition sample_hash (b : Z) : bytes := b :: replicate 31 0.
Definition sample_stage (sender hash : Z) (hashes : list bytes) : Stage.StageOne :=
  Stage.mkStageOne sender (sample_hash hash) [] [] hashes [] [] [].
Definition sample_stages : list Stage.StageOne :=
  [sample_stage 0 1 [[7]; [8]]; sample_stage 1 2 [[7]]; sample_stage 2 1 [[8]; [9]]].

Lemma sample_senders_ok : Stage3.senders_ok [0; 0; 0] sample_stages.
Proof. split; [by apply (bool_decide_unpack _); vm_compute|repeat constructor; cbn; lia]. Defined.

Lemma pool_solution_analysis_spec_witness :
  let winner := Stage3.most_frequent (Stage3.hash_weights sample_stages) in
  let found := Stage3.liars [0; 0; 0] winner sample_stages in
  let '(ok, r) := Stage3.pool_solution_analysis 3 sample_stages [0; 0; 0] (replicate 25 0) in
  (forall hash, Stage3.votes hash sample_stages <= Stage3.votes winner sample_stages) /\
  ok = (Z.of_nat (length found) <=? 3 / 2) /\
  Stage3.an_liars r = Z.of_nat (length found) /\
  (forall i, (forall it, it ∈ found -> Z.to_nat (Stage.s1_sender it) <> i) ->
     Stage3.an_mask r !! i = [0; 0; 0] !! i) /\
  (forall it, it ∈ found -> Stage3.an_mask r !! Z.to_nat (Stage.s1_sender it) = Some InvalidConfidantIndex).
Proof.
  apply (Stage3.pool_solution_analysis_spec 3 sample_stages [0; 0; 0] (replicate 25 0));
    [exact sample_senders_ok|done].
Defined.

Lemma pool_solution_majority_witness :
  let '(ok, r) := Stage3.pool_solution_analysis 3 sample_stages [0; 0; 0] (replicate 25 0) in
  ok = true /\
  forall it, it ∈ sample_stages ->
    Stage3.an_mask r !! Z.to_nat (Stage.s1_sender it) =
    if decide (Stage.s1_hash it = sample_hash 1) then [0; 0; 0] !! Z.to_nat (Stage.s1_sender it)
    else Some InvalidConfidantIndex.
Proof.
  apply (Stage3.pool_solution_majority 3 sample_stages [0; 0; 0] (replicate 25 0) (sample_hash 1));
    [exact sample_senders_ok|cbn; lia|repeat constructor; done|done].
Defined.

(** No balances, the candidates in the order given, a constant generator. *)
Definition sample_election (stages : list Stage.StageOne) : result (option Stage3.elected) :=
  Stage3.trusted_election (fun _ => of_int 0) (fun n => n) (fun l => l) (fun _ => 0) 2 3 stages
    (replicate 25 0) [0; 0; 0] 0.

Lemma hash_election_majority_witness :
  [8] ∈ [[7]; [8]] <->
  3 < 2 * Z.of_nat (length (filter (fun st => [8] ∈ Stage.hashesCandidates st) sample_stages)).
Proof.
  apply (Stage3.hash_election_majority (fun _ => of_int 0) (fun n => n) (fun l => l) (fun _ => 0)
    2 3 sample_stages (replicate 25 0) [0; 0; 0] 0 (Stage3.mkElected [0; 0; 0] [] [[7]; [8]]));
    [done|done|].
  repeat constructor; by apply (bool_decide_unpack _); vm_compute.
Defined.

(** The first confidant lists a hash twice, the others do not: it is accepted. *)
Lemma hash_election_repeats_witness :
  let st := sample_stage 0 1 [[7]; [7]] in
  [7] ∈ [[7]] <-> [7] ∈ Stage.hashesCandidates st /\ 3 / 2 < u8 (Stage3.count [7] (Stage.hashesCandidates st)).
Proof.
  apply (Stage3.hash_election_repeats (fun _ => of_int 0) (fun n => n) (fun l => l) (fun _ => 0)
    2 3 [sample_stage 0 1 [[7]; [7]]; sample_stage 1 1 []; sample_stage 2 1 []] (replicate 25 0) [0; 0; 0] 0
    (Stage3.mkElected [0; 0; 0] [] [[7]])
    [] (sample_stage 0 1 [[7]; [7]]) [sample_stage 1 1 []; sample_stage 2 1 []] [7]); [done|done|done|].
  repeat constructor; by apply (bool_decide_unpack _); vm_compute.
Defined.

(** [std::sort] by merge sort. *)
Definition by_stake (a b : Stage3.StakeHolder) : Prop := op_gt (Stage3.stake b) (Stage3.stake a) = false.
#[global] Instance by_stake_dec a b : Decision (by_stake a b).
Proof. unfold by_stake. apply _. Defined.

Lemma by_stake_spec a b :
  by_stake a b <->
  integral_ (Stage3.stake b) < integral_ (Stage3.stake a) \/
  integral_ (Stage3.stake b) = integral_ (Stage3.stake a) /\ fraction_ (Stage3.stake b) <= fraction_ (Stage3.stake a).
Proof.
  unfold by_stake, op_gt. rewrite !Z.gtb_ltb.
  repeat case_match; rewrite ?Z.ltb_lt, ?Z.ltb_ge in *; (split; [intros Hs|intros Hs]); (done || lia).
Qed.

#[global] Instance by_stake_trans : Transitive by_stake.
Proof. intros a b c. rewrite !by_stake_spec. lia. Qed.
#[global] Instance by_stake_total : Total by_stake.
Proof. intros a b. rewrite !by_stake_spec. lia. Qed.

(** Six candidates, one vote each, with the stakes 0..5. *)
Definition sample_candidates : Stage3.election := map (fun k => ([k], 1)) (seqZ 0 6).

Lemma next_trust_spec_witness :
  exists trust, Stage3.next_trust (fun k => of_int (le_val k)) (fun _ => 4) (merge_sort by_stake) (fun _ => 0)
      2 sample_candidates = Some trust /\
    Z.of_nat (length trust) = 4 /\ NoDup trust /\ trust ⊆ map fst sample_candidates /\
    (3 <= 6 -> forall c, c ∈ map fst sample_candidates -> c ∉ trust ->
      4 <= Z.of_nat (length (filter (fun k => op_gt (of_int (le_val c)) (of_int (le_val k)) = false) trust))).
Proof.
  apply (Stage3.next_trust_spec (fun k => of_int (le_val k)) (fun _ => 4) (merge_sort by_stake) (fun _ => 0)
    (merge_sort_Permutation by_stake) (StronglySorted_merge_sort by_stake)).
  - intros n Hn. lia.
  - done.
  - by apply (bool_decide_unpack _); vm_compute.
  - done.
Defined.
