(* ===== verification/OnStage2.v ===== *)
(** * Trusted stage 3: the state's reactions

    [TrustedStage3State::on] and [onStage2]
    ([solver/src/states/trustedstage3state.cpp]): when the last stage two is
    in, a confidant compares the signatures that the others relay with its
    own, marks the untrusted ones, elects the next round, looks for liars and
    decides on the writer.

    An [operator[]] out of bounds is undefined behaviour: the computations are
    in the monad [M], where [None] is undefined behaviour (or one of the cases
    in which [next_trust] has no result) and [Some (Throw e)] an exception.
    The context's effects after the decision (building the block, signing and
    sending stage three) are not part of the state. *)

From Stdlib Require Import ZArith Lia Sorted.
From stdpp Require Import base tactics numbers option list sorting.
From S2P Require Import Prelude Effect Math128 BinStream Amount Crypto Address DataStream Stage Random Stage3.

Local Open Scope Z_scope.
Local Open Scope cs_scope.

(** [Consensus::MinStakeValue], [Consensus::StartingDPOS] *)
Definition MinStakeValue : Amount := of_int 50000.
Definition StartingDPOS : Z := 10000.

Module OnStage2.
Import Stage Stage3.

Inductive Result := Finish | Ignore | Failure.

(** The members of the state and the parts of the core it changes. *)
Record State := mkState {
  cnt_recv_stages : Z;
  iteration_ : Z;
  realTrustedMask_ : list Z;
  writer_ : Z;
  next_trust_ : list bytes;
  next_hashes_ : list bytes;
  markUntrusted : list Z;
  reports : list report;
  tempRealTrusted_ : list Z
}.
#[global] Instance eta_on_state : Eta State := fun s =>
  mkState (cnt_recv_stages s) (iteration_ s) (realTrustedMask_ s) (writer_ s) (next_trust_ s) (next_hashes_ s)
    (markUntrusted s) (reports s) (tempRealTrusted_ s).

Section on_stage2.
Context `{!Cscrypto}.
Context (balance : bytes -> Amount) (log_conf : Z -> Z) (sort : list StakeHolder -> list StakeHolder)
  (rng : nat -> Z) (fuel : nat).
(** The confidants of the round, the round, the sub-round, and the hash of the last block. *)
Context (trusted : list bytes) (round subRound : Z) (hash_t : bytes).

Definition cnt_trusted : Z := Z.of_nat (length trusted).

(** [context.stage2(i)] *)
Definition find_stage2 (stage2 : list StageTwo) (i : Z) : option StageTwo :=
  List.find (fun st => s2_sender st =? i) stage2.

(** [SolverCore::checkNodeCache] *)
Definition checkNodeCache (sender : bytes) : bool :=
  if round <? StartingDPOS then true else negb (Amount.op_lt (balance sender) MinStakeValue).

(** What the signature of a stage one covers. *)
Definition signed_hash (h : bytes) : bytes := addArray h (addValue 1 subRound (addValue 8 round [])).

(** The loop over [j < cnt], [todo] of them left. *)
Fixpoint compare_signatures (todo j : nat) (mine it : StageTwo) (mark : list Z) : M (list Z) :=
  match todo with
  | O => ret mark
  | S todo =>
      do! a := index (signatures mine) j in
      do! b := index (signatures it) j in
      if decide (a = b) then compare_signatures todo (S j) mine it mark
      else
        do! h := index (hashes it) j in
        if decide (h = Zero_hash)
        then compare_signatures todo (S j) mine it (mark_untrusted mark (s2_sender it))
        else
          do! key := at_ trusted (Z.to_nat (s2_sender it)) in
          compare_signatures todo (S j) mine it
            (mark_untrusted mark (if verifySignature b key (signed_hash h) then u8 (Z.of_nat j) else s2_sender it))
  end.

(** The loop over [outer]: [true] when it marks the sender. *)
Fixpoint bad_candidates (candidates : list bytes) : bool :=
  match candidates with
  | [] | [_] => false
  | c :: rest =>
      if negb (checkNodeCache c) then true
      else if existsb (fun c' => bool_decide (c = c')) rest then true
      else bad_candidates rest
  end.

Definition check_candidates (stage1 : list StageOne) (it : StageTwo) (mark : list Z) : list Z :=
  let candidates := match find_stage1 stage1 (s2_sender it) with
                    | Some st => trustedCandidates st
                    | None => []
                    end in
  if (0 <? length candidates)%nat
  then if bad_candidates candidates then mark_untrusted mark (s2_sender it) else mark
  else mark_untrusted mark (s2_sender it).

(** The loop over [context.stage2_data()]. *)
Fixpoint compare_all (stage1 : list StageOne) (mine : StageTwo) (own : Z) (stage2 : list StageTwo) (mark : list Z)
  : M (list Z) :=
  match stage2 with
  | [] => ret mark
  | it :: stage2 =>
      if s2_sender it =? own then compare_all stage1 mine own stage2 mark
      else
        do! mark := compare_signatures (Z.to_nat cnt_trusted) 0 mine it mark in
        compare_all stage1 mine own stage2 (check_candidates stage1 it mark)
  end.

(** [TrustedStage3State::onStage2] *)
Definition onStage2 (own : Z) (stage1 : list StageOne) (stage2 : list StageTwo) (s : State) : M (Result * State) :=
  let s := s <| cnt_recv_stages := u64 (cnt_recv_stages s + 1) |> in
  match find_stage2 stage2 own with
  | Some mine =>
      if cnt_recv_stages s =? cnt_trusted then
        do! mark := compare_all stage1 mine own stage2 (markUntrusted s) in
        match trusted_election balance log_conf sort rng fuel cnt_trusted stage1 mark (realTrustedMask_ s) own with
        | Throw e => Some (Throw e)
        | Ok None => None
        | Ok (Some el) =>
            let s := s <| next_trust_ := next_round_trust el |> <| next_hashes_ := next_round_hashes el |> in
            let '(ok, a) := pool_solution_analysis cnt_trusted stage1 (el_mask el) mark in
            let s := s <| realTrustedMask_ := an_mask a |> <| markUntrusted := an_mark a |>
                       <| reports := reports s ++ an_reports a |> in
            if negb ok then ret (Failure, s)
            else
              match take_urgent_decision hash_t cnt_trusted (an_mask a) (writer_ s) with
              | Throw e => Some (Throw e)
              | Ok (decided, (mask, writer)) =>
                  let s := s <| realTrustedMask_ := mask |> <| writer_ := writer |> in
                  if negb decided then ret (Failure, s)
                  else ret (Finish, s <| tempRealTrusted_ := mask |>)
              end
        end
      else ret (Ignore, s)
  | None => ret (Ignore, s)
  end.

(** *** Entering the state *)

Inductive Entered := Complete | Fail | Wait.

(** [finalizeStageThree]: a further iteration, with a mask that has lost confidants. *)
Definition finalizeStageThree (s : State) : M (Result * State) :=
  match take_urgent_decision hash_t cnt_trusted (realTrustedMask_ s) (writer_ s) with
  | Throw e => Some (Throw e)
  | Ok (decided, (mask, writer)) =>
      ret (if decided then Finish else Failure, s <| realTrustedMask_ := mask |> <| writer_ := writer |>)
  end.

(** The loop over the stages two that are in already. *)
Fixpoint early_stages (own : Z) (stage1 : list StageOne) (stage2 todo : list StageTwo) (finish : Result) (s : State)
  : M (Result * State) :=
  match todo with
  | [] => ret (finish, s)
  | _ :: todo =>
      do! (r, s) := onStage2 own stage1 stage2 s in
      early_stages own stage1 stage2 todo (match r with Finish => Finish | _ => finish end) s
  end.

(** [on] up to the timers; [changed] and [getRealTrusted] are the core's. *)
Definition on (own : Z) (stage1 : list StageOne) (stage2 : list StageTwo) (changed : bool) (s : State)
  : M (Entered * State) :=
  let s := if negb changed
           then s <| iteration_ := 0 |> <| realTrustedMask_ := replicate (Z.to_nat cnt_trusted) 0 |>
           else s <| iteration_ := u8 (iteration_ s + 1) |> <| realTrustedMask_ := tempRealTrusted_ s |> in
  let s := s <| cnt_recv_stages := 0 |> in
  if 0 <? count_invalid (realTrustedMask_ s) then
    do! (r, s) := finalizeStageThree s in
    ret (match r with Finish => Complete | _ => Fail end, s)
  else
    match stage2 with
    | [] => ret (Wait, s)
    | _ =>
        do! (finish, s) := early_stages own stage1 stage2 stage2 Ignore s in
        ret (match finish with Finish => Complete | Failure => Fail | Ignore => Wait end, s)
    end.
End on_stage2.

(** ** The stages one by sender *)

Lemma find_stage1_Some l i st :
  NoDup (map s1_sender l) -> find_stage1 l i = Some st <-> st ∈ l /\ s1_sender st = i.
Proof.
  unfold find_stage1. induction l as [|st' l IH]; cbn [List.find map]; intros Hn.
  - split; [done|]. by intros [?%not_elem_of_nil _].
  - apply NoDup_cons in Hn as [Hni Hn]. rewrite elem_of_cons. destruct (Z.eqb_spec (s1_sender st') i) as [E|E].
    + split; [intros [= <-]; auto|]. intros [[->|Hin] Hi]; [done|]. exfalso. apply Hni.
      rewrite E, <- Hi. by apply (list_elem_of_fmap_2 s1_sender).
    + rewrite IH by done. split; [tauto|]. intros [[->|Hin] Hi]; done.
Qed.

Lemma find_stage1_perm l l' i :
  NoDup (map s1_sender l) -> l ≡ₚ l' -> find_stage1 l i = find_stage1 l' i.
Proof.
  intros Hn Hp. apply option_eq. intros st. assert (NoDup (map s1_sender l')) as Hn' by by rewrite <- Hp.
  by rewrite !find_stage1_Some, Hp.
Qed.

(** All the confidants' stages are there: one of each sender in [0, cnt). *)
Definition complete (cnt : nat) (l : list StageOne) : Prop :=
  NoDup (map s1_sender l) /\ Forall (fun st => 0 <= s1_sender st < Z.of_nat cnt) l /\ length l = cnt.

Lemma complete_perm cnt l l' : complete cnt l -> l ≡ₚ l' -> complete cnt l'.
Proof. unfold complete. intros (H1 & H2 & H3) Hp. by rewrite <- Hp. Qed.

Lemma complete_senders_ok mask l : complete (length mask) l -> senders_ok mask l.
Proof. intros (H1 & H2 & _). by split. Qed.

Lemma complete_sender cnt l i : complete cnt l -> (i < cnt)%nat -> exists st, st ∈ l /\ s1_sender st = Z.of_nat i.
Proof.
  intros (Hn & Hr & Hl) Hi.
  assert (map s1_sender l ≡ₚ map Z.of_nat (seq 0 cnt)) as Hp.
  { apply submseteq_length_Permutation; [|by rewrite !length_map, length_seq, Hl].
    apply NoDup_submseteq; [done|]. intros s Hs. apply (list_elem_of_fmap s1_sender) in Hs as (st & -> & Hst).
    rewrite Forall_forall in Hr. specialize (Hr _ Hst). apply list_elem_of_fmap. exists (Z.to_nat (s1_sender st)).
    split; [lia|]. apply elem_of_seq. lia. }
  assert (Z.of_nat i ∈ map s1_sender l) as Hin.
  { rewrite Hp. apply (list_elem_of_fmap_2 Z.of_nat). apply elem_of_seq. lia. }
  apply (list_elem_of_fmap s1_sender) in Hin as (st & E & Hst). by exists st.
Qed.

(** ** The search for liars does not depend on the order of arrival *)

Section analysis.
Context `{!Cscrypto}.

Lemma votes_perm hash l l' : l ≡ₚ l' -> votes hash l = votes hash l'.
Proof. unfold votes. by intros ->. Qed.

Lemma liars_perm mask winner l l' : l ≡ₚ l' -> liars mask winner l ≡ₚ liars mask winner l'.
Proof. unfold liars. by intros ->. Qed.

Definition analysis_mask (mask : list Z) (winner : bytes) (l : list StageOne) (r : list Z) : Prop :=
  length r = length mask /\
  forall i, r !! i = if decide (Exists (fun it => Z.to_nat (s1_sender it) = i) (liars mask winner l))
                     then Some InvalidConfidantIndex else mask !! i.

Lemma analysis_mask_fun mask winner l l' r r' :
  l ≡ₚ l' -> analysis_mask mask winner l r -> analysis_mask mask winner l' r' -> r = r'.
Proof.
  intros Hp [_ H1] [_ H2]. apply list_eq. intros i. rewrite H1, H2.
  assert (Exists (fun it => Z.to_nat (s1_sender it) = i) (liars mask winner l) <->
          Exists (fun it => Z.to_nat (s1_sender it) = i) (liars mask winner l')) as He.
  { by rewrite (liars_perm mask winner l l' Hp). }
  do 2 case_decide; tauto.
Qed.

Lemma analysis_result cnt stage1 mask mark :
  senders_ok mask stage1 -> Z.of_nat (length stage1) < 256 ->
  let winner := most_frequent (hash_weights stage1) in
  let '(ok, r) := pool_solution_analysis cnt stage1 mask mark in
  ok = (Z.of_nat (length (liars mask winner stage1)) <=? cnt / 2) /\ analysis_mask mask winner stage1 (an_mask r).
Proof.
  intros Hs Hl winner. unfold pool_solution_analysis. fold winner.
  destruct (judge_all_spec winner stage1 (mkAnalysis mask mark 0 [])) as (r & -> & L & Hlen & Ho & Hb);
    [done|done|done|]. cbn [an_liars an_mask negb] in *.
  assert (analysis_mask mask winner stage1 (an_mask r)) as Hm.
  { split; [done|]. intros i. case_decide as He.
    - apply Exists_exists in He as (it & Hit & <-). by apply Hb.
    - apply Ho. intros it Hit E. apply He, Exists_exists. by exists it. }
  destruct (Z.ltb_spec (cnt / 2) (an_liars r)); (split; [symmetry|done]); [apply Z.leb_gt|apply Z.leb_le]; lia.
Qed.

(** Who is left in the mask holds the winning hash. *)
Lemma active_votes cnt winner stage1 mask r :
  complete cnt stage1 -> length mask = cnt -> analysis_mask mask winner stage1 r ->
  Z.of_nat cnt - count_invalid r <= votes winner stage1.
Proof.
  intros Hc Hlen [Hr Hm]. rewrite <- Hlen, <- Hr, <- length_goods. unfold votes. apply Nat2Z.inj_le.
  rewrite <- (length_map (fun it => Z.to_nat (s1_sender it)) (filter _ stage1)).
  apply submseteq_length, NoDup_submseteq; [apply NoDup_filter, NoDup_seq|].
  intros i Hi. apply list_elem_of_filter in Hi as [Hg Hi]. apply elem_of_seq in Hi.
  destruct (complete_sender cnt stage1 i Hc) as (st & Hst & Es); [lia|].
  apply list_elem_of_fmap. exists st. split; [lia|]. apply list_elem_of_filter. split; [|done].
  unfold good in Hg. rewrite Hm in Hg. case_decide as He; [done|].
  destruct (decide (s1_hash st = winner)) as [|Hne]; [done|]. destruct He. apply Exists_exists. exists st.
  split; [|lia]. unfold liars. apply list_elem_of_filter. split; [|done].
  unfold bad. by rewrite bool_decide_false.
Qed.

Lemma analysis_agree cnt stage1 stage1' mask mark mark' r :
  complete cnt stage1 -> stage1 ≡ₚ stage1' -> length mask = cnt -> (cnt < 256)%nat ->
  pool_solution_analysis (Z.of_nat cnt) stage1 mask mark = (true, r) ->
  Z.of_nat cnt + 1 <= 2 * (Z.of_nat cnt - count_invalid (an_mask r)) ->
  exists r', pool_solution_analysis (Z.of_nat cnt) stage1' mask mark' = (true, r') /\ an_mask r' = an_mask r.
Proof.
  intros Hc Hp Hlen Hb E Ha. pose proof (complete_perm _ _ _ Hc Hp) as Hc'.
  pose proof Hc as (_ & _ & Hl). pose proof Hc' as (_ & _ & Hl').
  assert (senders_ok mask stage1) as Hs by (apply complete_senders_ok; by rewrite Hlen).
  assert (senders_ok mask stage1') as Hs' by (apply complete_senders_ok; by rewrite Hlen).
  pose proof (analysis_result (Z.of_nat cnt) stage1 mask mark Hs) as R. rewrite E in R.
  destruct R as [Eok Hm]; [lia|].
  pose proof (analysis_result (Z.of_nat cnt) stage1' mask mark' Hs') as R'.
  destruct (pool_solution_analysis _ stage1' mask mark') as [ok' r']. destruct R' as [Eok' Hm']; [lia|].
  set (w := most_frequent (hash_weights stage1)) in *.
  assert (most_frequent (hash_weights stage1') = w) as Ew.
  { apply most_frequent_majority; [lia|]. rewrite <- (votes_perm w _ _ Hp).
    pose proof (active_votes cnt w stage1 mask (an_mask r) Hc Hlen Hm). lia. }
  rewrite Ew in *. exists r'. rewrite Eok', <- (liars_perm mask w _ _ Hp), <- Eok. split; [done|].
  symmetry. by eapply analysis_mask_fun.
Qed.
End analysis.

(** ** Two confidants *)

Definition same_trust (cnt : nat) (mark mark' : list Z) : Prop :=
  forall i, (i < cnt)%nat -> untrusted_value mark (Z.of_nat i) = 0 <-> untrusted_value mark' (Z.of_nat i) = 0.

Section agreement.
Context `{!Cscrypto}.
Context (balance : bytes -> Amount) (log_conf : Z -> Z) (sort : list StakeHolder -> list StakeHolder)
  (rng : nat -> Z) (fuel : nat).
Context (trusted : list bytes) (round subRound : Z) (hash_t : bytes).
Context (cnt_small : (0 < length trusted <= 25)%nat).

Abbreviation cnt := (length trusted).
Abbreviation election := (trusted_election balance log_conf sort rng fuel (Z.of_nat cnt)).
Abbreviation react := (onStage2 balance log_conf sort rng fuel trusted round subRound hash_t).
Abbreviation compare := (compare_all balance trusted round subRound).

Lemma cnt_confidants_small : cnt_confidants (Z.of_nat cnt) = Z.of_nat cnt.
Proof using cnt_small. unfold cnt_confidants, MaxTrustedNodes. rewrite !uwrap_id by (unfold in_u; lia). lia. Qed.

Lemma trusted_stages_agree stage1 stage1' mark mark' i todo :
  (forall i, find_stage1 stage1 i = find_stage1 stage1' i) -> same_trust (i + todo) mark mark' ->
  trusted_stages stage1 mark i todo = trusted_stages stage1' mark' i todo.
Proof.
  intros Hf Hm. unfold trusted_stages. revert i Hm. induction todo as [|todo IH]; intros i Hm; [done|].
  cbn [seq omap list_omap]. pose proof (Hm i) as Hi. rewrite Hf, (IH (S i)) by (intros j Hj; apply Hm; lia).
  destruct (Z.eqb_spec (untrusted_value mark (Z.of_nat i)) 0), (Z.eqb_spec (untrusted_value mark' (Z.of_nat i)) 0);
    (done || (exfalso; lia)).
Qed.

Lemma mask_of_agree mark mark' i j : same_trust j mark mark' -> (i < j)%nat -> mask_of mark i = mask_of mark' i.
Proof.
  intros Hm Hi. unfold mask_of. pose proof (Hm i Hi).
  destruct (Z.eqb_spec (untrusted_value mark (Z.of_nat i)) 0), (Z.eqb_spec (untrusted_value mark' (Z.of_nat i)) 0);
    (done || (exfalso; lia)).
Qed.

(** The mask the election leaves. *)
Lemma election_mask stage1 mark mask own :
  length mask = cnt ->
  exists m cand hash, m = map (mask_of mark) (seq 0 cnt) /\
    cand = vote_all (concat (map candidates_of (trusted_stages stage1 mark 0 cnt))) [] /\
    hash = vote_all (concat (map hashesCandidates (trusted_stages stage1 mark 0 cnt))) [] /\
    election stage1 mark mask own =
      Ok (let? trust := next_trust balance log_conf sort rng fuel cand in
          Some (mkElected m trust (accept_hashes (Z.of_nat cnt / 2) hash))).
Proof using cnt_small.
  intros Hl. unfold trusted_election. rewrite cnt_confidants_small, Nat2Z.id.
  destruct (election_loop_spec cnt 0 stage1 mark own (mkTable mask [] [] [])) as (t & R & C & Hh & L & Hm);
    [cbn; lia|]. cbn [t_mask candidatesElection hashesElection] in *. change (Z.of_nat 0) with 0 in R. rewrite R.
  eexists (t_mask t), _, _. split; [|split; [exact C|split; [exact Hh|done]]].
  apply list_eq. intros i. rewrite Hm, list_lookup_fmap. case_decide as Hi.
  - rewrite lookup_seq_lt by lia. done.
  - rewrite !lookup_ge_None_2 by (rewrite ?length_fmap, ?length_seq; lia). done.
Qed.

Lemma election_agree stage1 stage1' mark mark' mask mask' own own' :
  (forall i, find_stage1 stage1 i = find_stage1 stage1' i) -> same_trust cnt mark mark' ->
  length mask = cnt -> length mask' = cnt -> election stage1 mark mask own = election stage1' mark' mask' own'.
Proof using cnt_small.
  intros Hf Hm Hl Hl'. destruct (election_mask stage1 mark mask own Hl) as (m & c & h & -> & -> & -> & ->).
  destruct (election_mask stage1' mark' mask' own' Hl') as (m' & c' & h' & -> & -> & -> & ->).
  rewrite (trusted_stages_agree stage1 stage1' mark mark') by done.
  assert (map (mask_of mark) (seq 0 cnt) = map (mask_of mark') (seq 0 cnt)) as ->; [|done].
  apply map_ext_in. intros i Hi. apply in_seq in Hi. apply (mask_of_agree _ _ _ cnt); [done|lia].
Qed.

(** The decision needs a majority and does not look at the old writer. *)
Lemma decision_agree mask writer writer' r :
  0 <= hash_number hash_t -> length mask = cnt ->
  take_urgent_decision hash_t (Z.of_nat cnt) mask writer = Ok (true, r) ->
  Z.of_nat cnt + 1 <= 2 * (Z.of_nat cnt - count_invalid mask) /\
  take_urgent_decision hash_t (Z.of_nat cnt) mask writer' = Ok (true, r).
Proof using cnt_small.
  intros Hn Hl. unfold take_urgent_decision. destruct hash_t as [|b h]; [done|].
  replace (Z.min (Z.of_nat cnt) MaxTrustedNodes) with (Z.of_nat cnt) by (unfold MaxTrustedNodes; lia).
  pose proof (length_goods mask) as Hg. rewrite Hl in Hg. rewrite <- Hg, Nat2Z.id.
  set (active := Z.of_nat (length (goods mask (seq 0 cnt)))) in *.
  destruct (Z.ltb_spec (active * 2) (Z.of_nat cnt + 1)) as [|Ha]; [done|]. intros E. split; [lia|]. revert E.
  rewrite !find_writer_spec, Z.sub_0_r by lia. rewrite Z.rem_mod_nonneg by lia.
  pose proof (Z.mod_pos_bound (hash_number (b :: h)) active) as Hm. rewrite (proj2 (Z.leb_le 0 _)) by lia.
  destruct (lookup_lt_is_Some_2 (goods mask (seq 0 cnt)) (Z.to_nat (hash_number (b :: h) mod active))) as [w ->]; [lia|].
  done.
Qed.

Lemma analysis_length ok a stage1 mask mark :
  complete cnt stage1 -> length mask = cnt ->
  pool_solution_analysis (Z.of_nat cnt) stage1 mask mark = (ok, a) -> length (an_mask a) = cnt.
Proof using cnt_small.
  intros Hc Hl E. pose proof (analysis_result (Z.of_nat cnt) stage1 mask mark) as R. rewrite E in R.
  destruct R as [_ [R _]]; [by apply complete_senders_ok; rewrite Hl|destruct Hc as (_ & _ & Hc); lia|]. congruence.
Qed.

(** A finished reaction, taken apart. *)
Lemma react_finish own stage1 stage2 s s' :
  react own stage1 stage2 s = Some (Ok (Finish, s')) ->
  exists mine mark el a, find_stage2 stage2 own = Some mine /\
    u64 (cnt_recv_stages s + 1) = Z.of_nat cnt /\
    compare stage1 mine own stage2 (markUntrusted s) = Some (Ok mark) /\
    election stage1 mark (realTrustedMask_ s) own = Ok (Some el) /\
    pool_solution_analysis (Z.of_nat cnt) stage1 (el_mask el) mark = (true, a) /\
    take_urgent_decision hash_t (Z.of_nat cnt) (an_mask a) (writer_ s) = Ok (true, (realTrustedMask_ s', writer_ s')) /\
    next_trust_ s' = next_round_trust el /\ next_hashes_ s' = next_round_hashes el.
Proof.
  unfold onStage2, cnt_trusted. destruct (find_stage2 stage2 own) as [mine|]; [|done].
  cbn [upd cnt_recv_stages markUntrusted realTrustedMask_ writer_].
  destruct (Z.eqb_spec (u64 (cnt_recv_stages s + 1)) (Z.of_nat cnt)) as [Ec|]; [|done].
  destruct (compare _ _ _ _ _) as [[mark|]|] eqn:C; cbn [mthen]; [|done..].
  destruct (trusted_election _ _ _ _ _ _ _ _ _ _) as [[el|]|] eqn:El; [|done..].
  destruct (pool_solution_analysis _ _ _ _) as [ok a] eqn:A. cbn [upd writer_]. destruct ok; cbn [negb]; [|done].
  destruct (take_urgent_decision _ _ _ _) as [[d [m w]]|] eqn:D; [|done]. destruct d; cbn [negb]; [|done].
  intros [= <-].
  exists mine, mark, el, a. by split_and!.
Qed.

(** The other confidant's reaction, when it got the same verdicts. *)
Lemma react_follow own stage1 stage2 mine mark el a mask writer s :
  find_stage2 stage2 own = Some mine -> u64 (cnt_recv_stages s + 1) = Z.of_nat cnt ->
  compare stage1 mine own stage2 (markUntrusted s) = Some (Ok mark) ->
  election stage1 mark (realTrustedMask_ s) own = Ok (Some el) ->
  pool_solution_analysis (Z.of_nat cnt) stage1 (el_mask el) mark = (true, a) ->
  take_urgent_decision hash_t (Z.of_nat cnt) (an_mask a) (writer_ s) = Ok (true, (mask, writer)) ->
  exists s', react own stage1 stage2 s = Some (Ok (Finish, s')) /\ realTrustedMask_ s' = mask /\ writer_ s' = writer /\
    next_trust_ s' = next_round_trust el /\ next_hashes_ s' = next_round_hashes el.
Proof.
  intros Hf Hc C El A D. unfold onStage2, cnt_trusted. rewrite Hf.
  cbn [upd cnt_recv_stages markUntrusted realTrustedMask_ writer_]. rewrite Hc, Z.eqb_refl, C. cbn [mthen].
  rewrite El, A. cbn [upd writer_ negb]. rewrite D. cbn [negb]. eexists. by split_and!.
Qed.

(** The marks after the comparison. *)
Definition compared (own : Z) (stage1 : list StageOne) (stage2 : list StageTwo) (s : State) : M (list Z) :=
  match find_stage2 stage2 own with
  | Some mine => compare stage1 mine own stage2 (markUntrusted s)
  | None => None
  end.

(** C18: Agreement: two confidants of at most 25 that both got the stage one of every confidant,
    the same ones in whatever order, have received equally many stages two, have masks of one
    entry per confidant, saw the same last block's hash, whose leading number is not INT_MIN, and
    found the same confidants untrusted, take the same decision at the last stage two: if one
    finishes, so does the other, with the same mask, writer, confidants and packets of the next
    round. *)
Theorem confidants_agree own own' stage1 stage1' stage2 stage2' s s' t mark mark' :
  complete cnt stage1 -> stage1 ≡ₚ stage1' -> 0 <= hash_number hash_t ->
  length (realTrustedMask_ s) = cnt -> length (realTrustedMask_ s') = cnt ->
  cnt_recv_stages s' = cnt_recv_stages s ->
  compared own stage1 stage2 s = Some (Ok mark) -> compared own' stage1' stage2' s' = Some (Ok mark') ->
  same_trust cnt mark mark' ->
  react own stage1 stage2 s = Some (Ok (Finish, t)) ->
  exists t', react own' stage1' stage2' s' = Some (Ok (Finish, t')) /\
    realTrustedMask_ t' = realTrustedMask_ t /\ writer_ t' = writer_ t /\
    next_trust_ t' = next_trust_ t /\ next_hashes_ t' = next_hashes_ t.
Proof using cnt_small.
  intros Hc Hp Hn Hl Hl' Er C C' Hm R. unfold compared in C, C'.
  destruct (find_stage2 stage2' own') as [mine'|] eqn:Hf'; [|done].
  apply react_finish in R as (mine & mark0 & el & a & F0 & Ec & C0 & El & A & D & -> & ->).
  rewrite F0, C0 in C. injection C as ->.
  assert (length (el_mask el) = cnt) as Hel.
  { destruct (election_mask stage1 mark (realTrustedMask_ s) own Hl) as (m & c & h & -> & _ & _ & E).
    rewrite E in El. destruct (next_trust _ _ _ _ _ _); [|done]. injection El as <-. cbn [el_mask].
    by rewrite length_map, length_seq. }
  destruct (decision_agree (an_mask a) (writer_ s) (writer_ s') _ Hn (analysis_length _ _ _ _ _ Hc Hel A) D) as [Ha D'].
  destruct (analysis_agree cnt stage1 stage1' (el_mask el) mark mark' a) as (a' & A' & Ea); [done..|lia|done|done|].
  rewrite <- Ea in D'.
  rewrite (election_agree stage1 stage1' mark mark' _ (realTrustedMask_ s') own own') in El;
    [|by intros i; apply find_stage1_perm; [apply Hc|]|done..].
  rewrite <- Er in Ec. by apply (react_follow own' stage1' stage2' mine' mark' el a').
Qed.

(** *** The comparison of what the confidants relay *)

Lemma bad_candidates_ok candidates :
  bad_candidates balance round candidates = false <->
  NoDup candidates /\ Forall (fun c => checkNodeCache balance round c = true) (take (length candidates - 1) candidates).
Proof.
  induction candidates as [|c [|c' rest] IH]; [split; [by repeat constructor|done]|by split; [repeat constructor; apply not_elem_of_nil|]|].
  set (l := c' :: rest) in *. change (bad_candidates balance round (c :: l)) with
    (if negb (checkNodeCache balance round c) then true
     else if existsb (fun c' => bool_decide (c = c')) l then true else bad_candidates balance round l).
  replace (take (length (c :: l) - 1) (c :: l)) with (c :: take (length l - 1) l)
    by (unfold l; cbn [length]; by rewrite !Nat.sub_succ, !Nat.sub_0_r).
  rewrite NoDup_cons, Forall_cons. destruct (checkNodeCache balance round c); cbn [negb]; [|split; [done|by intros (_ & ? & _)]].
  assert (existsb (fun c' => bool_decide (c = c')) l = true <-> c ∈ l) as He.
  { rewrite existsb_exists. setoid_rewrite bool_decide_eq_true. setoid_rewrite <- list_elem_of_In.
    split; [by intros (x & Hx & ->)|by exists c]. }
  destruct (existsb _ l).
  - split; [done|]. intros [[Hn _] _]. destruct Hn. by apply He.
  - rewrite IH. split; [intros [? ?]; split_and!; (done || by intros Hin; apply He in Hin)|tauto].
Qed.

(** The stages two that agree with one's own, from senders with proper candidates. *)
Definition consistent (stage1 : list StageOne) (mine it : StageTwo) : Prop :=
  (cnt <= length (signatures mine))%nat /\ take cnt (signatures it) = take cnt (signatures mine) /\
  exists st, find_stage1 stage1 (s2_sender it) = Some st /\ trustedCandidates st <> [] /\
    bad_candidates balance round (trustedCandidates st) = false.

Lemma compare_signatures_consistent todo j mine it mark :
  (j + todo <= length (signatures mine))%nat ->
  take (j + todo) (signatures it) = take (j + todo) (signatures mine) ->
  compare_signatures trusted round subRound todo j mine it mark = ret mark.
Proof.
  revert j. induction todo as [|todo IH]; intros j Hl E; cbn [compare_signatures]; [done|].
  assert (forall l : list bytes, take (j + S todo) l !! j = l !! j) as Ht.
  { intros l. by rewrite lookup_take_lt by lia. }
  destruct (lookup_lt_is_Some_2 (signatures mine) j) as [a Ha]; [lia|].
  pose proof (f_equal (.!! j) E) as Ej. cbn in Ej. rewrite !Ht in Ej.
  unfold index. rewrite Ej, Ha. cbn [mthen ret]. rewrite decide_True by done.
  apply IH; [lia|]. by replace (S j + todo)%nat with (j + S todo)%nat by lia.
Qed.

Lemma compare_consistent stage1 mine own stage2 mark :
  Forall (fun it => s2_sender it = own \/ consistent stage1 mine it) stage2 ->
  compare stage1 mine own stage2 mark = ret mark.
Proof.
  induction 1 as [|it stage2 Hit _ IH]; cbn [compare_all]; [done|].
  destruct (Z.eqb_spec (s2_sender it) own) as [|Hne]; [done|]. destruct Hit as [|(Hl & E & st & Hst & Hc & Hb)]; [done|].
  unfold cnt_trusted. rewrite Nat2Z.id. rewrite compare_signatures_consistent by done. cbn [mthen].
  unfold check_candidates. rewrite Hst. destruct (Nat.ltb_spec 0 (length (trustedCandidates st))) as [_|Hz].
  - by rewrite Hb.
  - destruct Hc. apply nil_length_inv. lia.
Qed.

(** *** The round of an honest majority *)

Context (sort_perm : forall l, sort l ≡ₚ l).
Context (log_conf_range : forall n, 4 <= n -> 4 <= log_conf n <= n).
Context (rng_range : forall g, 0 <= rng g < 2 ^ 32).

Lemma length_vote_all ks m : (length (vote_all ks m) <= length ks + length m)%nat.
Proof.
  revert m. induction ks as [|k ks IH]; intros m; [done|].
  change (vote_all (k :: ks) m) with (vote_all ks (vote k m)). specialize (IH (vote k m)).
  assert (length (vote k m) <= S (length m))%nat; [|cbn [length]; lia].
  clear IH. induction m as [|[h n] m IH]; cbn [vote]; [done|].
  destruct (decide (k = h)); [cbn [length]; lia|]. destruct (lex_lt k h); cbn [length]; lia.
Qed.

Lemma candidates_few stage1 mark : (length (vote_all (concat (map candidates_of (trusted_stages stage1 mark 0 cnt))) []) <= 25 * 255)%nat.
Proof using cnt_small.
  etrans; [apply length_vote_all|]. cbn [length]. rewrite Nat.add_0_r.
  pose proof (length_trusted_stages stage1 mark 0 cnt) as Hl.
  assert (forall l : list StageOne, (length (concat (map candidates_of l)) <= length l * 255)%nat) as Hc; [|pose proof (Hc (trusted_stages stage1 mark 0 cnt)); lia].
  induction l as [|st l IH]; [done|]. cbn [map concat length]. rewrite length_app.
  assert (length (candidates_of st) <= 255)%nat; [|lia]. unfold candidates_of. rewrite length_take.
  pose proof (uwrap_range 8 (Z.of_nat (length (trustedCandidates st)))). unfold in_u in *. lia.
Qed.

(** The verdict of the majority. *)
Lemma analysis_majority stage1 mark hash :
  complete cnt stage1 -> Z.of_nat cnt < 2 * votes hash stage1 ->
  exists a, pool_solution_analysis (Z.of_nat cnt) stage1 (replicate cnt 0) mark = (true, a) /\
    length (an_mask a) = cnt /\
    (forall st, st ∈ stage1 -> an_mask a !! Z.to_nat (s1_sender st) =
       Some (if decide (s1_hash st = hash) then 0 else InvalidConfidantIndex)) /\
    Z.of_nat cnt + 1 <= 2 * (Z.of_nat cnt - count_invalid (an_mask a)).
Proof using cnt_small.
  clear hash_t balance. intros Hc Hv. pose proof Hc as (Hn & Hr & Hl).
  assert (senders_ok (replicate cnt 0) stage1) as Hs by (apply complete_senders_ok; by rewrite length_replicate).
  pose proof (analysis_result (Z.of_nat cnt) stage1 (replicate cnt 0) mark Hs) as R.
  destruct (pool_solution_analysis _ _ _ _) as [ok a] eqn:E. destruct R as [Eok [Hal Hm]]; [lia|].
  rewrite length_replicate in Hal.
  rewrite (most_frequent_majority stage1 hash) in Eok, Hm by lia.
  assert (forall st, st ∈ stage1 -> bad (replicate cnt 0) hash st = negb (bool_decide (s1_hash st = hash))) as Hbad.
  { intros st Hst. rewrite Forall_forall in Hr. specialize (Hr _ Hst). unfold bad.
    rewrite lookup_replicate_2 by lia. cbn. by rewrite andb_true_r. }
  assert (forall st, st ∈ stage1 -> an_mask a !! Z.to_nat (s1_sender st) =
    Some (if decide (s1_hash st = hash) then 0 else InvalidConfidantIndex)) as Hmask.
  { intros st Hst. rewrite Hm. rewrite Forall_forall in Hr. pose proof (Hr _ Hst).
    rewrite lookup_replicate_2 by lia.
    assert (Exists (fun it => Z.to_nat (s1_sender it) = Z.to_nat (s1_sender st)) (liars (replicate cnt 0) hash stage1)
      <-> s1_hash st <> hash) as Hex; [|do 2 case_decide; tauto].
    rewrite Exists_exists. unfold liars. split.
    - intros (it & [Hb Hit]%list_elem_of_filter & Ei). rewrite Hbad in Hb by done.
      assert (it = st) as ->; [|by apply negb_true_iff, bool_decide_eq_false in Hb].
      pose proof (Hr _ Hit). assert (s1_sender it = s1_sender st) as Eq by lia.
      pose proof (proj2 (find_stage1_Some stage1 (s1_sender st) it Hn) (conj Hit Eq)).
      pose proof (proj2 (find_stage1_Some stage1 (s1_sender st) st Hn) (conj Hst eq_refl)). congruence.
    - intros Hne. exists st. split; [|done]. apply list_elem_of_filter. split; [|done].
      rewrite Hbad by done. by rewrite bool_decide_false. }
  assert (votes hash stage1 <= Z.of_nat cnt - count_invalid (an_mask a)) as Hact.
  { rewrite <- Hal at 1. rewrite <- length_goods, Hal. unfold votes. apply Nat2Z.inj_le.
    rewrite <- (length_map (fun it => Z.to_nat (s1_sender it)) (filter _ stage1)).
    apply submseteq_length, NoDup_submseteq.
    - assert (NoDup (map s1_sender (filter (fun st => s1_hash st = hash) stage1))) as Hnf
        by (eapply sublist_NoDup; [exact Hn|by apply (fmap_sublist s1_sender), sublist_filter]).
      rewrite <- (map_map s1_sender Z.to_nat). apply NoDup_fmap_2_strong; [|done].
      assert (forall x, x ∈ map s1_sender (filter (fun st => s1_hash st = hash) stage1) -> 0 <= x) as Hpos.
      { intros x (st & -> & [_ Hst]%list_elem_of_filter)%list_elem_of_fmap. rewrite Forall_forall in Hr. by apply Hr. }
      intros x y Hx Hy. apply Hpos in Hx, Hy. lia.
    - intros i (st & -> & [Hh Hst]%list_elem_of_filter)%list_elem_of_fmap. apply list_elem_of_filter. split.
      + unfold good. rewrite Hmask, decide_True by done. done.
      + apply elem_of_seq. rewrite Forall_forall in Hr. specialize (Hr _ Hst). lia. }
  exists a. rewrite Eok. split_and!; [|done|done|lia]. f_equal. apply Z.leb_le.
  assert (Z.of_nat (length (liars (replicate cnt 0) hash stage1)) + votes hash stage1 = Z.of_nat cnt) as Hsum;
    [|Z.to_euclidean_division_equations; lia].
  transitivity (Z.of_nat (length stage1)); [|by rewrite Hl]. unfold votes, liars. clear -Hbad. induction stage1 as [|st l IH]; [done|].
  rewrite !filter_cons. cbv beta. pose proof (Hbad st ltac:(by left)) as Hst.
  assert (forall st, st ∈ l -> bad (replicate cnt 0) hash st = negb (bool_decide (s1_hash st = hash))) as Hb'
    by (intros st' Hst'; apply Hbad; by right).
  specialize (IH Hb'). destruct (decide (s1_hash st = hash)).
  - rewrite bool_decide_true in Hst by done. rewrite decide_False by (rewrite Hst; done). cbn [length]. lia.
  - rewrite bool_decide_false in Hst by done. rewrite decide_True by (rewrite Hst; done). cbn [length]. lia.
Qed.

(** The renumbered mask is invalid where the mask was. *)
Lemma renumbered_invalid_at mask mask' w p :
  length mask = cnt -> renumbered mask mask' w -> (p < cnt)%nat ->
  mask' !! p = Some InvalidConfidantIndex <-> mask !! p = Some InvalidConfidantIndex.
Proof using cnt_small.
  intros Hl [L B R P] Hp. destruct (decide (good mask p)) as [Hg|Hg].
  - split; [|done]. intros E. exfalso.
    assert (p ∈ goods mask (rotation w (length mask))) as Hin.
    { rewrite P. apply list_elem_of_filter. split; [done|]. apply elem_of_seq. lia. }
    apply list_elem_of_lookup_1 in Hin as [j Hj]. rewrite (R j p Hj) in E. injection E as E.
    apply lookup_lt_Some in Hj. rewrite P in Hj.
    pose proof (length_goods mask) as Hf. unfold count_invalid, InvalidConfidantIndex in *. lia.
  - by rewrite B.
Qed.

(** C19: With at most 25 confidants whose stages one are all there, and a last block's hash that
    is not empty and whose leading number is not INT_MIN: when a majority of the confidants sent
    one hash, nobody was marked untrusted, and the senders of the stages two relay the signatures
    this confidant saw and proposed proper candidates in stage one (some, without repetitions,
    with enough stake), and the mask has one entry per confidant, the last stage two makes
    onStage2 finish (with the own stage two stored, a sort that permutes, a size of the next round
    between 4 and the number of candidates, and any generator of 32-bit values): the writer is a
    confidant with the majority's hash, and exactly the others are invalid in the mask. *)
Theorem honest_majority_finishes own stage1 stage2 mine s hash :
  complete cnt stage1 -> Z.of_nat cnt < 2 * votes hash stage1 ->
  (2 <= fuel)%nat -> hash_t <> [] -> 0 <= hash_number hash_t -> 0 <= writer_ s ->
  length (realTrustedMask_ s) = cnt -> cnt_recv_stages s = Z.of_nat cnt - 1 ->
  (forall i, (i < cnt)%nat -> untrusted_value (markUntrusted s) (Z.of_nat i) = 0) ->
  find_stage2 stage2 own = Some mine ->
  Forall (fun it => s2_sender it = own \/ consistent stage1 mine it) stage2 ->
  exists s' st, react own stage1 stage2 s = Some (Ok (Finish, s')) /\
    st ∈ stage1 /\ s1_sender st = writer_ s' /\ s1_hash st = hash /\
    forall it, it ∈ stage1 ->
      realTrustedMask_ s' !! Z.to_nat (s1_sender it) = Some InvalidConfidantIndex <-> s1_hash it <> hash.
Proof using cnt_small sort_perm log_conf_range rng_range.
  intros Hc Hv Hfuel Hh Hn Hw Hl Hr Hm Hf Hcons.
  destruct (election_mask stage1 (markUntrusted s) (realTrustedMask_ s) own Hl) as (m & cand & hs & -> & Ec & -> & El).
  assert (map (mask_of (markUntrusted s)) (seq 0 cnt) = replicate cnt 0) as Em.
  { apply list_eq. intros i. rewrite list_lookup_fmap. destruct (decide (i < cnt)%nat).
    - rewrite lookup_seq_lt, lookup_replicate_2 by done. cbn [fmap option_fmap option_map Nat.add].
      unfold mask_of. by rewrite Hm.
    - rewrite !lookup_ge_None_2 by (rewrite ?length_replicate, ?length_seq; lia). done. }
  destruct fuel as [|[|fuel']] eqn:Ef; [lia..|].
  destruct (next_trust_perm balance log_conf sort rng sort_perm log_conf_range rng_range fuel' cand) as (trust & rest & Et & _).
  { pose proof (candidates_few stage1 (markUntrusted s)) as Hfew. rewrite <- Ec in Hfew. lia. }
  rewrite Et, Em in El.
  destruct (analysis_majority stage1 (markUntrusted s) hash Hc Hv) as (a & A & Hal & Ha & Hact).
  destruct (decision_general hash_t (an_mask a) (writer_ s)) as (mask' & D & Hren); [done|lia|done|by rewrite Hal|].
  cbv zeta in D, Hren. rewrite Hal in D, Hren.
  set (active := Z.of_nat cnt - count_invalid (an_mask a)) in *.
  rewrite Z.rem_mod_nonneg in D, Hren by lia.
  pose proof (Z.mod_pos_bound (hash_number hash_t) active) as Hmod.
  rewrite (proj2 (Z.leb_le 0 _)) in D, Hren by lia.
  pose proof (length_goods (an_mask a)) as Hg. rewrite Hal in Hg.
  destruct (lookup_lt_is_Some_2 (goods (an_mask a) (seq 0 cnt)) (Z.to_nat (hash_number hash_t mod active))) as [w Ew]; [lia|].
  rewrite Ew in D, Hren.
  destruct (react_follow own stage1 stage2 mine (markUntrusted s) (mkElected (replicate cnt 0) trust
    (accept_hashes (Z.of_nat cnt / 2) (vote_all (concat (map hashesCandidates (trusted_stages stage1 (markUntrusted s) 0 cnt))) [])))
    a mask' (Z.of_nat w) s) as (s' & R & Emask & Ewr & _); [done| |by apply compare_consistent| |exact A|exact D|].
  { rewrite Hr. replace (Z.of_nat cnt - 1 + 1) with (Z.of_nat cnt) by lia. apply uwrap_id. unfold in_u. lia. }
  { by rewrite Ef. }
  apply list_elem_of_lookup_2, list_elem_of_filter in Ew as [Hgood Hw']. apply elem_of_seq in Hw'.
  destruct (complete_sender cnt stage1 w Hc) as (st & Hst & Es); [lia|].
  exists s', st. rewrite Ef in R. split; [exact R|]. split; [done|]. split; [congruence|]. split.
  - pose proof (Ha st Hst) as Hst'. rewrite Es, Nat2Z.id in Hst'. destruct (decide (s1_hash st = hash)); [done|].
    by destruct Hgood.
  - intros it Hit. rewrite Emask. destruct Hc as (_ & Hrange & _). rewrite Forall_forall in Hrange.
    rewrite (renumbered_invalid_at (an_mask a) mask' (Z.to_nat (Z.of_nat w))); [|done|done|specialize (Hrange _ Hit); lia].
    rewrite (Ha it Hit). case_decide as Hd; [split; [done|by intros []]|done].
Qed.
End agreement.

(** ** What goes wrong *)

Section flaws.
Context `{!Cscrypto}.
Context (balance : bytes -> Amount) (log_conf : Z -> Z) (sort : list StakeHolder -> list StakeHolder)
  (rng : nat -> Z) (fuel : nat).
Context (trusted : list bytes) (round subRound : Z) (hash_t : bytes).

Lemma compare_signatures_one todo i mine it j b h key mark :
  (i + todo <= length (signatures mine))%nat -> (i <= j < i + todo)%nat ->
  signatures it = <[j := b]> (signatures mine) -> signatures mine !! j <> Some b ->
  hashes it !! j = Some h -> h <> Zero_hash -> trusted !! Z.to_nat (s2_sender it) = Some key ->
  verifySignature b key (signed_hash round subRound h) = false ->
  compare_signatures trusted round subRound todo i mine it mark = ret (mark_untrusted mark (s2_sender it)).
Proof.
  intros Hl Hj Es Hb Hh Hz Hk Hv.
  assert (forall todo i, (i + todo <= length (signatures mine))%nat -> (j < i)%nat ->
    forall mark, compare_signatures trusted round subRound todo i mine it mark = ret mark) as Hafter.
  { clear -Es. induction todo as [|todo IH]; intros i Hl Hi mark; cbn [compare_signatures]; [done|].
    destruct (lookup_lt_is_Some_2 (signatures mine) i) as [a Ha]; [lia|].
    unfold index. rewrite Es, list_lookup_insert_ne, Ha by lia. cbn [mthen ret]. rewrite decide_True by done.
    apply IH; lia. }
  revert i Hl Hj. induction todo as [|todo IH]; intros i Hl Hj; [lia|]. cbn [compare_signatures].
  destruct (lookup_lt_is_Some_2 (signatures mine) i) as [a Ha]; [lia|].
  unfold index at 1 2. rewrite Es, Ha. destruct (decide (i = j)) as [->|Hne].
  - rewrite list_lookup_insert_eq by lia. cbn [mthen ret]. rewrite decide_False by congruence.
    unfold index. rewrite Hh. cbn [mthen ret]. rewrite decide_False by done. unfold at_. rewrite Hk. cbn [mthen].
    rewrite Hv. apply Hafter; lia.
  - rewrite list_lookup_insert_ne, Ha by done. cbn [mthen ret]. rewrite decide_True by done. apply IH; lia.
Qed.

(** A signature that differs from the one in this confidant's storage is verified with the key of
    the confidant that relays it, not of the one that made it: the relay is marked untrusted
    although the signature is the author's, so a confidant that signs two stages one makes honest
    confidants untrusted. *)
Theorem equivocation_blames_relay mine it j b h key mark :
  (length trusted <= length (signatures mine))%nat -> (j < length trusted)%nat ->
  signatures it = <[j := b]> (signatures mine) -> signatures mine !! j <> Some b ->
  hashes it !! j = Some h -> h <> Zero_hash -> trusted !! Z.to_nat (s2_sender it) = Some key ->
  verifySignature b key (signed_hash round subRound h) = false ->
  compare_signatures trusted round subRound (Z.to_nat (cnt_trusted trusted)) 0 mine it mark
  = ret (mark_untrusted mark (s2_sender it)).
Proof.
  intros Hl Hj Es Hb Hh Hz Hk Hv. unfold cnt_trusted. rewrite Nat2Z.id.
  apply (compare_signatures_one (length trusted) 0 mine it j b h key mark); (done || lia).
Qed.

Lemma early_stages_result own stage1 stage2 todo finish s r s' :
  finish <> Failure ->
  early_stages balance log_conf sort rng fuel trusted round subRound hash_t own stage1 stage2 todo finish s
    = Some (Ok (r, s')) -> r <> Failure.
Proof.
  revert finish s. induction todo as [|it todo IH]; intros finish s Hf; cbn [early_stages].
  - by intros [= <- <-].
  - destruct (onStage2 _ _ _ _ _ _ _ _ _ _ _ _ s) as [[[r1 s1]|]|]; cbn [mthen]; [|done..].
    apply IH. by destruct r1.
Qed.

(** Entering stage 3 with all stages two already in never reports a failed consensus: on never
    ends in the failure event, whatever onStage2 returned for them. *)
Theorem early_failure_is_lost own stage1 stage2 changed s r s' :
  (changed = true -> count_invalid (tempRealTrusted_ s) = 0) ->
  on balance log_conf sort rng fuel trusted round subRound hash_t own stage1 stage2 changed s = Some (Ok (r, s')) ->
  r <> Fail.
Proof.
  intros Hc. unfold on. set (s1 := if negb changed then _ else _).
  assert (count_invalid (realTrustedMask_ s1) = 0) as Hm.
  { unfold s1. destruct changed; cbn [negb upd realTrustedMask_]; [by apply Hc|].
    unfold count_invalid. induction (Z.to_nat (cnt_trusted trusted)) as [|n IH]; [done|].
    cbn [replicate]. rewrite filter_cons, decide_False by done. exact IH. }
  cbn [upd realTrustedMask_]. rewrite Hm. change (0 <? 0) with false. cbv iota.
  destruct stage2 as [|it stage2']; [by intros [= <- <-]|].
  destruct (early_stages _ _ _ _ _ _ _ _ _ _ _ _ _ _ _) as [[[f sf]|]|] eqn:E; cbn [mthen]; [|done..].
  apply early_stages_result in E; [|done]. intros [= <- <-]. by destruct f.
Qed.
End flaws.
End OnStage2.

(** ** Witnesses *)

Import Stage Stage3 OnStage2.

(** Three confidants; the third sends another hash. *)
Definition round_keys : list bytes := [le_bytes 32 61; le_bytes 32 62; le_bytes 32 63].
Definition round_stage1 (sender hash : Z) : StageOne :=
  mkStageOne sender (le_bytes 32 hash) [] [[1]; [2]; [3]] [[7]] [] [] [].
Definition round_stages1 : list StageOne := [round_stage1 0 5; round_stage1 1 5; round_stage1 2 6].
Definition round_stage2 (sender : Z) : StageTwo :=
  mkStageTwo sender [le_bytes 32 1; le_bytes 32 2; le_bytes 32 3] [le_bytes 64 1; le_bytes 64 2; le_bytes 64 3] [] [].
Definition round_stages2 : list StageTwo := [round_stage2 0; round_stage2 1; round_stage2 2].
Definition round_state : OnStage2.State := OnStage2.mkState 2 0 [0; 0; 0] 9 [] [] (replicate 25 0) [] [].

Definition round_react (own : Z) (stage1 : list StageOne) (stage2 : list StageTwo) : OnStage2.State -> M (Result * OnStage2.State) :=
  onStage2 (fun _ => of_int 0) (fun _ => 4) (merge_sort by_stake) (fun _ => 0) 2 round_keys 100 0 [4; 0; 0; 0] own stage1 stage2.
Definition round_final : OnStage2.State :=
  match round_react 0 round_stages1 round_stages2 round_state with Some (Ok (_, t)) => t | _ => round_state end.

Lemma round_complete : complete 3 round_stages1.
Proof. split; [by apply (bool_decide_unpack _); vm_compute|]. split; [repeat constructor; cbn; lia|done]. Qed.

Lemma confidants_agree_witness :
  exists t', round_react 1 (rev round_stages1) (rev round_stages2) round_state = Some (Ok (Finish, t')) /\
    realTrustedMask_ t' = [0; 1; 255] /\ writer_ t' = 0 /\
    next_trust_ t' = next_trust_ round_final /\ next_hashes_ t' = [[7]].
Proof.
  apply (confidants_agree (fun _ => of_int 0) (fun _ => 4) (merge_sort by_stake) (fun _ => 0) 2 round_keys 100 0 [4; 0; 0; 0]
    ltac:(cbn; lia) 0 1 round_stages1 (rev round_stages1) round_stages2 (rev round_stages2) round_state round_state round_final
    (replicate 25 0) (replicate 25 0)).
  - apply round_complete.
  - apply Permutation_rev.
  - by vm_compute.
  - done.
  - done.
  - done.
  - by vm_compute.
  - by vm_compute.
  - done.
  - by vm_compute.
Defined.

Lemma honest_majority_finishes_witness :
  exists s' st, round_react 0 round_stages1 round_stages2 round_state = Some (Ok (Finish, s')) /\
    st ∈ round_stages1 /\ s1_sender st = writer_ s' /\ s1_hash st = le_bytes 32 5 /\
    forall it, it ∈ round_stages1 ->
      realTrustedMask_ s' !! Z.to_nat (s1_sender it) = Some InvalidConfidantIndex <-> s1_hash it <> le_bytes 32 5.
Proof.
  apply (honest_majority_finishes (fun _ => of_int 0) (fun n => 4) (merge_sort by_stake) (fun _ => 0) 2 round_keys 100 0
    [4; 0; 0; 0] ltac:(cbn; lia) (merge_sort_Permutation by_stake) ltac:(intros; lia) ltac:(intros; lia)
    0 round_stages1 round_stages2 (round_stage2 0) round_state (le_bytes 32 5));
    [apply round_complete|by vm_compute|lia|done|by vm_compute|by vm_compute|done|done| |done|].
  - intros i Hi. cbn in Hi. destruct i as [|[|[|i]]]; [done..|lia].
  - constructor; [by left|]. constructor; [|constructor; [|constructor]]; right; (split; [cbn; lia|]); (split; [done|]);
      eexists; (split; [vm_compute; reflexivity|]); (split; [done|by vm_compute]).
Defined.

(** The third confidant signs two hashes; the second relays the other one. *)
Definition round_signed (key h : bytes) : bytes := toy_hash (key ++ signed_hash 100 0 h) ++ replicate 32 0.
Definition round_relayed : StageTwo :=
  mkStageTwo 1 [le_bytes 32 1; le_bytes 32 2; le_bytes 32 4]
    [le_bytes 64 1; le_bytes 64 2; round_signed (le_bytes 32 63) (le_bytes 32 4)] [] [].

Lemma equivocation_blames_relay_witness :
  verifySignature (round_signed (le_bytes 32 63) (le_bytes 32 4)) (le_bytes 32 63) (signed_hash 100 0 (le_bytes 32 4)) = true /\
  compare_signatures round_keys 100 0 (Z.to_nat (cnt_trusted round_keys)) 0 (round_stage2 0) round_relayed (replicate 25 0)
  = ret (mark_untrusted (replicate 25 0) 1).
Proof.
  split; [by vm_compute|].
  apply (equivocation_blames_relay round_keys 100 0 (round_stage2 0) round_relayed 2
    (round_signed (le_bytes 32 63) (le_bytes 32 4)) (le_bytes 32 4) (le_bytes 32 62) (replicate 25 0));
    [cbn; lia|cbn; lia|by vm_compute| |done| |done|by vm_compute];
    by apply (bool_decide_unpack _); vm_compute.
Defined.

(** All stages two are in and no hash has a majority: the consensus fails, the state waits. *)
Definition round_split : list StageOne := [round_stage1 0 5; round_stage1 1 6; round_stage1 2 7].
Definition round_enter : M (Entered * OnStage2.State) :=
  on (fun _ => of_int 0) (fun _ => 4) (merge_sort by_stake) (fun _ => 0) 2 round_keys 100 0 [4; 0; 0; 0]
    0 round_split round_stages2 false round_state.
Definition round_waiting : OnStage2.State := match round_enter with Some (Ok (_, t)) => t | _ => round_state end.

Lemma early_failure_is_lost_witness :
  (exists t, round_react 0 round_split round_stages2 round_state = Some (Ok (Failure, t))) /\ Wait <> Fail.
Proof.
  split; [eexists; vm_compute; reflexivity|].
  apply (early_failure_is_lost (fun _ => of_int 0) (fun _ => 4) (merge_sort by_stake) (fun _ => 0) 2 round_keys 100 0 [4; 0; 0; 0]
    0 round_split round_stages2 false round_state Wait round_waiting); [done|]. vm_compute. reflexivity.
Defined.
