(* ===== verification/StageStore.v ===== *)
(** * What the solver does with received stages ([solver/src/solverinterface.cpp])

    [StageOneStore]: [SolverCore::gotStageOne] with its time stamps, and the
    reaction of [TrustedStage2State] ([solver/src/states/trustedstage2state.cpp]),
    which collects the signatures for stage two.  [StageThreeStore]:
    [SolverCore::gotStageThree] with the final check of the signatures and
    [addRoundSignature], which gathers the signatures of the block.

    A node that its own mask leaves out can finish without the signature of a
    confidant ([left_out_finishes]); the computations are in the monad [M] of
    [Effect]. *)

From Stdlib Require Import Sorted ZArith Lia.
From stdpp Require Import base tactics numbers option list.
From S2P Require Import Prelude Effect Text BinStream Crypto DataStream Stage Stage3 OnStage2.

Local Open Scope Z_scope.
Local Open Scope cs_scope.

(** [std::stoll] *)
Definition stoll (s : bytes) : result Z :=
  let s1 := skip_spaces s in
  let '(neg, s2) :=
    match s1 with
    | 45 :: s' => (true, s')
    | 43 :: s' => (false, s')
    | _ => (false, s1)
    end in
  match s2 with
  | c :: _ =>
      if isdigit c then
        let v := fst (read_digits 0 s2) in
        let v := if neg then - v else v in
        if (- 2 ^ 63 <=? v) && (v <? 2 ^ 63) then Ok v else Throw out_of_range
      else Throw invalid_argument
  | [] => Throw invalid_argument
  end.

Lemma stoll_print z : 0 <= z < 2 ^ 63 -> stoll (print_u z) = Ok z.
Proof.
  intros Hz. pose proof (print_u_digits z) as Hd. unfold stoll, print_u in *.
  assert (read_digits 0 (print_digits 20 z []) = (z, [])) as Hr by (apply read_print_digits; lia).
  destruct (print_digits_nonempty 19 z) as (c & s & E). rewrite E in *.
  apply Forall_cons in Hd as [Hc _]. pose proof (digit_not_space c Hc) as (Hsp & H1 & H2 & _).
  cbn [skip_spaces]. rewrite Hsp.
  assert (match c :: s with | 45 :: s' => (true, s') | 43 :: s' => (false, s') | _ => (false, c :: s) end
    = (false, c :: s)) as ->.
  { unfold isdigit in Hc. apply andb_true_iff in Hc as [Hc1 Hc2]. apply Z.leb_le in Hc1, Hc2.
    assert (Hcs : In c [48;49;50;51;52;53;54;55;56;57]) by (cbn; lia).
    cbn in Hcs. repeat destruct Hcs as [<-|Hcs]; done. }
  rewrite Hc, Hr. cbn [fst]. rewrite (proj2 (Z.leb_le _ _)), (proj2 (Z.ltb_lt _ _)) by lia. done.
Qed.

(** [Consensus::DefaultTimeStampRange] *)
Definition DefaultTimeStampRange : Z := 30000.

Module StageOneStore.
Import Stage Stage3 OnStage2.

(** The first stage of that sender is erased, if any. *)
Fixpoint erase_sender (i : Z) (storage : list StageOne) : list StageOne :=
  match storage with
  | [] => []
  | st :: storage' => if s1_sender st =? i then storage' else st :: erase_sender i storage'
  end.

(** [SolverCore::gotStageOne] up to the state: the storage, and whether the stage was stored. *)
Definition gotStageOne (stage : StageOne) (storage : list StageOne) : list StageOne * bool :=
  match find_stage1 storage (s1_sender stage) with
  | None => (storage ++ [stage], true)
  | Some stored =>
      let '(lastTimeStamp, storage) :=
        match stoll (roundTimeStamp stored) with
        | Ok v => (u64 v, storage)
        | Throw _ => (0, erase_sender (s1_sender stage) storage)
        end in
      match stoll (roundTimeStamp stage) with
      | Throw _ => (storage, false)
      | Ok v =>
          if lastTimeStamp <? u64 v then (erase_sender (s1_sender stage) storage ++ [stage], true)
          else (storage, false)
      end
  end.

(** *** [TrustedStage2State] *)

Record State2 := mkState2 {
  cnt_recv : Z;
  hashes2 : list bytes;
  signatures2 : list bytes;
  mark2 : list Z
}.

(** The value of a time stamp: an empty one is zero, another may throw. *)
Definition stamp (s : bytes) : result Z :=
  match s with [] => Ok 0 | _ => let! v := stoll s in Ok (u64 v) end.

(** [vector::operator[]] on the left of an assignment *)
Definition store {A} (l : list A) (i : Z) (a : A) : M (list A) :=
  if i <? Z.of_nat (length l) then ret (<[Z.to_nat i := a]> l) else None.

Section stage_two_state.
Context (cnt_trusted own round lastTimeStamp : Z).

(** [onStage1]; [storage] is [context.stage1_data()]. *)
Definition onStage1 (storage : list StageOne) (st : StageOne) (s : State2) : M (Result * State2) :=
  do! sigs := store (signatures2 s) (s1_sender st) (s1_signature st) in
  do! hs := store (hashes2 s) (s1_sender st) (messageHash st) in
  if (lastTimeStamp =? 0) && (1 <? round) then ret (Ignore, mkState2 (cnt_recv s) hs sigs (mark2 s))
  else
    match find_stage1 storage own with
    | None => None
    | Some mine =>
        do! myStamp := Some (stamp (roundTimeStamp mine)) in
        do! otherStamp := Some (stamp (roundTimeStamp st)) in
        let mark := if (otherStamp <? lastTimeStamp) || (u64 (myStamp + DefaultTimeStampRange * 2) <? otherStamp)
                    then mark_untrusted (mark2 s) (s1_sender st) else mark2 s in
        let cnt := u64 (cnt_recv s + 1) in
        ret (if cnt =? cnt_trusted then Finish else Ignore, mkState2 cnt hs sigs mark)
    end.

(** [gotStageOne] in the state. *)
Definition receive (stage : StageOne) (storage : list StageOne) (s : State2) : M (Result * (list StageOne * State2)) :=
  match gotStageOne stage storage with
  | (storage, false) => ret (Ignore, (storage, s))
  | (storage, true) => do! (r, s) := onStage1 storage stage s in ret (r, (storage, s))
  end.

Fixpoint receive_all (stages : list StageOne) (storage : list StageOne) (s : State2) (last : Result)
  : M (Result * (list StageOne * State2)) :=
  match stages with
  | [] => ret (last, (storage, s))
  | st :: stages => do! (r, p) := receive st storage s in receive_all stages p.1 p.2 r
  end.
End stage_two_state.

(** *** One stage of a sender *)

Lemma erase_sender_sub i l : erase_sender i l `sublist_of` l.
Proof.
  induction l as [|st l IH]; cbn [erase_sender]; [done|]. case_match; [by apply sublist_cons|by apply sublist_skip].
Qed.

Lemma erase_sender_gone i l : NoDup (map s1_sender l) -> find_stage1 (erase_sender i l) i = None.
Proof.
  unfold find_stage1. induction l as [|st l IH]; cbn [erase_sender map]; intros Hn; [done|].
  apply NoDup_cons in Hn as [Hni Hn]. destruct (Z.eqb_spec (s1_sender st) i) as [E|E]; cbn [List.find].
  - destruct (List.find _ l) as [st'|] eqn:F; [|done]. exfalso. apply List.find_some in F as [Hin E'].
    apply Hni. rewrite E. apply Z.eqb_eq in E'. rewrite <- E'. apply (list_elem_of_fmap_2 s1_sender).
    by apply list_elem_of_In.
  - rewrite (proj2 (Z.eqb_neq _ _) E). by apply IH.
Qed.

Lemma erase_sender_other i j l : i <> j -> find_stage1 (erase_sender i l) j = find_stage1 l j.
Proof.
  intros Hne. unfold find_stage1. induction l as [|st l IH]; cbn [erase_sender List.find]; [done|].
  destruct (Z.eqb_spec (s1_sender st) i) as [E|E]; cbn [List.find].
  - rewrite (proj2 (Z.eqb_neq _ _)) by congruence. done.
  - by rewrite IH.
Qed.

Lemma erase_sender_nodup i l : NoDup (map s1_sender l) -> NoDup (map s1_sender (erase_sender i l)).
Proof. intros Hn. eapply sublist_NoDup; [exact Hn|]. apply (fmap_sublist s1_sender), erase_sender_sub. Qed.

Lemma find_stage1_snoc l st j :
  find_stage1 (l ++ [st]) j =
  match find_stage1 l j with Some x => Some x | None => if s1_sender st =? j then Some st else None end.
Proof. unfold find_stage1. induction l as [|x l IH]; cbn [app List.find]; [done|]. by destruct (s1_sender x =? j). Qed.

Lemma find_stage1_None l i : find_stage1 l i = None -> i ∉ map s1_sender l.
Proof.
  intros F Hin. apply (list_elem_of_fmap s1_sender) in Hin as (st & -> & Hst). apply list_elem_of_In in Hst.
  apply (List.find_none _ _ F) in Hst. cbn beta in Hst. by rewrite Z.eqb_refl in Hst.
Qed.

Lemma snoc_nodup l st :
  NoDup (map s1_sender l) -> find_stage1 l (s1_sender st) = None -> NoDup (map s1_sender (l ++ [st])).
Proof.
  intros Hn F. rewrite map_app. apply NoDup_app. split_and!; [done| |apply NoDup_singleton].
  intros x Hx Hs. apply list_elem_of_singleton in Hs as ->. by apply (find_stage1_None _ _ F).
Qed.

(** When the stage is stored: the sender is new, or its time stamp is a later
    number than that of the stage stored (zero when that is no number). *)
Definition accepted (stage : StageOne) (storage : list StageOne) : bool :=
  match find_stage1 storage (s1_sender stage) with
  | None => true
  | Some stored =>
      match stoll (roundTimeStamp stage) with
      | Throw _ => false
      | Ok v => (match stoll (roundTimeStamp stored) with Ok w => u64 w | Throw _ => 0 end) <? u64 v
      end
  end.

(** SolverCore::gotStageOne keeps at most one stage one of a sender and never touches the others':
    a stage is stored exactly when its sender is new or its time stamp is a number later than the
    stored one's (zero when that is no number), and the stored one disappears when its time stamp
    is no number. *)
Theorem gotStageOne_spec stage storage :
  NoDup (map s1_sender storage) ->
  let '(storage', stored) := gotStageOne stage storage in
  stored = accepted stage storage /\ NoDup (map s1_sender storage') /\
  (forall j, j <> s1_sender stage -> find_stage1 storage' j = find_stage1 storage j) /\
  find_stage1 storage' (s1_sender stage) =
    (if stored then Some stage
     else match find_stage1 storage (s1_sender stage) with
          | Some old => match stoll (roundTimeStamp old) with Ok _ => Some old | Throw _ => None end
          | None => None
          end).
Proof.
  intros Hn. unfold gotStageOne, accepted. set (i := s1_sender stage).
  assert (forall l, NoDup (map s1_sender l) -> find_stage1 l i = None ->
    (forall j, j <> i -> find_stage1 l j = find_stage1 storage j) ->
    NoDup (map s1_sender (l ++ [stage])) /\
    (forall j, j <> i -> find_stage1 (l ++ [stage]) j = find_stage1 storage j) /\
    find_stage1 (l ++ [stage]) i = Some stage) as Hadd.
  { intros l Hl F Ho. split; [by apply snoc_nodup|]. split.
    - intros j Hj. rewrite find_stage1_snoc, Ho by done. rewrite (proj2 (Z.eqb_neq _ _)) by done. by destruct (find_stage1 storage j).
    - rewrite find_stage1_snoc, F. by rewrite (proj2 (Z.eqb_eq (s1_sender stage) i) eq_refl). }
  pose proof (erase_sender_nodup i storage Hn) as Hen. pose proof (erase_sender_gone i storage Hn) as Heg.
  assert (forall j, j <> i -> find_stage1 (erase_sender i storage) j = find_stage1 storage j) as Heo
    by (intros j Hj; by apply erase_sender_other).
  destruct (find_stage1 storage i) as [old|] eqn:F; [|by split; [|apply Hadd]].
  assert (forall j, j <> i -> find_stage1 (erase_sender i (erase_sender i storage)) j = find_stage1 storage j) as Heo2
    by (intros j Hj; by rewrite erase_sender_other, Heo).
  destruct (stoll (roundTimeStamp old)) as [w|e], (stoll (roundTimeStamp stage)) as [v|e']; [|done| |done].
  - destruct (u64 w <? u64 v); [|done]. split; [done|]. by apply Hadd.
  - destruct (0 <? u64 v); [|done]. split; [done|]. apply Hadd; [by apply erase_sender_nodup|by apply erase_sender_gone|done].
Qed.

(** *** Messages that stop or shorten the collection *)

Section collection.
Context (cnt_trusted own round lastTimeStamp : Z).
Context (started : lastTimeStamp <> 0 \/ round <= 1).
Context (cnt_range : 0 < cnt_trusted < 256).

(** Room for every confidant in stage two. *)
Definition sized (s : State2) : Prop :=
  Z.of_nat (length (signatures2 s)) = cnt_trusted /\ Z.of_nat (length (hashes2 s)) = cnt_trusted.

Lemma onStage1_counts storage st s mine myStamp otherStamp :
  sized s -> 0 <= s1_sender st < cnt_trusted -> find_stage1 storage own = Some mine ->
  stamp (roundTimeStamp mine) = Ok myStamp -> stamp (roundTimeStamp st) = Ok otherStamp ->
  exists s', onStage1 cnt_trusted own round lastTimeStamp storage st s =
      Some (Ok (if u64 (cnt_recv s + 1) =? cnt_trusted then Finish else Ignore, s')) /\
    cnt_recv s' = u64 (cnt_recv s + 1) /\ sized s'.
Proof using started.
  intros [Hs Hh] Hi Hf Hm Ho. unfold onStage1, store. rewrite Hs, Hh, (proj2 (Z.ltb_lt _ _)) by lia. cbn [mthen ret].
  assert ((lastTimeStamp =? 0) && (1 <? round) = false) as ->
    by (destruct (Z.eqb_spec lastTimeStamp 0), (Z.ltb_spec 1 round); (done || (exfalso; destruct started; lia))).
  rewrite Hf, Hm, Ho. cbn [mthen]. eexists. split; [done|]. split; [done|].
  split; cbn [signatures2 hashes2]; by rewrite length_insert.
Qed.

(** A stage one of a new sender whose time stamp is not empty and no number makes the stage-two
    state throw out of gotStageOne: std::stoll is not caught there. *)
Theorem bad_timestamp_throws storage st s mine myStamp e :
  sized s -> 0 <= s1_sender st < cnt_trusted ->
  find_stage1 storage (s1_sender st) = None -> find_stage1 storage own = Some mine ->
  stamp (roundTimeStamp mine) = Ok myStamp ->
  roundTimeStamp st <> [] -> stoll (roundTimeStamp st) = Throw e ->
  receive cnt_trusted own round lastTimeStamp st storage s = Some (Throw e).
Proof using started.
  intros [Hs Hh] Hi Hn Hf Hm Hne Ht. unfold receive, gotStageOne. rewrite Hn. unfold onStage1, store.
  rewrite Hs, Hh, (proj2 (Z.ltb_lt _ _)) by lia. cbn [mthen ret].
  assert ((lastTimeStamp =? 0) && (1 <? round) = false) as ->
    by (destruct (Z.eqb_spec lastTimeStamp 0), (Z.ltb_spec 1 round); (done || (exfalso; destruct started; lia))).
  rewrite find_stage1_snoc, Hf, Hm. cbn [mthen].
  destruct (roundTimeStamp st) as [|c ts] eqn:E; [done|]. unfold stamp. rewrite Ht. done.
Qed.

Context (mine : StageOne) (mine_own : s1_sender mine = own).
Context (i : Z) (i_other : i <> own) (i_range : 0 <= i < cnt_trusted).
(** The messages of the confidant [i], by their time stamps. *)
Context (msg : Z -> StageOne) (msg_sender : forall t, s1_sender (msg t) = i)
  (msg_stamp : forall t, roundTimeStamp (msg t) = print_u t).

Lemma print_nonempty t : 0 <= t < 2 ^ 63 -> stamp (print_u t) = Ok t.
Proof.
  intros Ht. unfold stamp. destruct (print_digits_nonempty 19 t) as (c & r & E).
  pose proof (stoll_print t Ht) as Hs. unfold print_u in *. rewrite E in *. rewrite Hs. cbn [rbind].
  rewrite uwrap_id by (unfold in_u; lia). done.
Qed.

Lemma receive_next storage t s myStamp :
  storage = [mine] \/ (exists t0, storage = [mine; msg t0] /\ 0 <= t0 < t) -> 0 <= t < 2 ^ 63 -> sized s ->
  stamp (roundTimeStamp mine) = Ok myStamp ->
  exists s', receive cnt_trusted own round lastTimeStamp (msg t) storage s =
      Some (Ok (if u64 (cnt_recv s + 1) =? cnt_trusted then Finish else Ignore, ([mine; msg t], s'))) /\
    cnt_recv s' = u64 (cnt_recv s + 1) /\ sized s'.
Proof using All.
  intros Hst Ht Hs Hm.
  assert (gotStageOne (msg t) storage = ([mine; msg t], true)) as G.
  { unfold gotStageOne. rewrite msg_sender. unfold find_stage1. destruct Hst as [->|(t0 & -> & H0)]; cbn [List.find].
    - by rewrite mine_own, (proj2 (Z.eqb_neq _ _)) by congruence.
    - rewrite mine_own, (proj2 (Z.eqb_neq own i)) by congruence. rewrite msg_sender, Z.eqb_refl.
      rewrite !msg_stamp, !stoll_print by lia. rewrite !uwrap_id by (unfold in_u; lia).
      rewrite (proj2 (Z.ltb_lt _ _)) by lia. cbn [erase_sender].
      rewrite mine_own, (proj2 (Z.eqb_neq own i)) by congruence. by rewrite msg_sender, Z.eqb_refl. }
  unfold receive. rewrite G.
  destruct (onStage1_counts [mine; msg t] (msg t) s mine myStamp t) as (s' & R & Hc & Hs'); [done|by rewrite msg_sender| |done| |].
  - unfold find_stage1. cbn [List.find]. by rewrite mine_own, Z.eqb_refl.
  - rewrite msg_stamp. by apply print_nonempty.
  - rewrite R. cbn [mthen]. by exists s'.
Qed.

(** Stage two counts messages and not senders: one confidant alone that sends its stage one again
    with growing time stamps completes the collection, with nothing from the others in the
    storage. *)
Theorem repeated_sender_completes ts s myStamp :
  stamp (roundTimeStamp mine) = Ok myStamp -> sized s -> cnt_recv s = 1 ->
  StronglySorted Z.lt ts -> Forall (fun t => 0 <= t < 2 ^ 63) ts ->
  1 < cnt_trusted -> Z.of_nat (length ts) = cnt_trusted - 1 ->
  exists storage s', receive_all cnt_trusted own round lastTimeStamp (map msg ts) [mine] s Ignore
    = Some (Ok (Finish, (storage, s'))) /\ map s1_sender storage = [own; i].
Proof using All.
  intros Hm Hs Hc Hso Hr H1 Hl.
  assert (forall ts storage s r, ts <> [] \/ r = Finish /\ map s1_sender storage = [own; i] ->
    storage = [mine] \/ (exists t0, storage = [mine; msg t0] /\ 0 <= t0 /\ Forall (fun t => t0 < t) ts) ->
    StronglySorted Z.lt ts -> Forall (fun t => 0 <= t < 2 ^ 63) ts -> sized s ->
    cnt_recv s + Z.of_nat (length ts) = cnt_trusted -> 0 < cnt_recv s ->
    exists storage' s', receive_all cnt_trusted own round lastTimeStamp (map msg ts) storage s r
      = Some (Ok (Finish, (storage', s'))) /\ map s1_sender storage' = [own; i]) as Hall.
  { clear s ts Hs Hc Hso Hr H1 Hl. induction ts as [|t ts IH]; intros storage s r Hne Hst Hso Hr Hs Hl Hp.
    - destruct Hne as [|[-> Hmap]]; [done|]. by exists storage, s.
    - cbn [map receive_all length] in *. apply StronglySorted_inv in Hso as [Hso' Hlt]. apply Forall_cons in Hr as [Ht Hr].
      destruct (receive_next storage t s myStamp) as (s' & -> & Hc' & Hs'); [|done..|].
      { destruct Hst as [->|(t0 & -> & H0 & Hf)]; [by left|right]. exists t0. apply Forall_cons in Hf as [? _]. split; [done|lia]. }
      cbn [mthen fst snd]. assert (u64 (cnt_recv s + 1) = cnt_recv s + 1) as Eu by (apply uwrap_id; unfold in_u; lia).
      rewrite Eu in Hc' |- *. apply IH; [|right; exists t; split_and!; [done|lia|done]|done|done|done|lia|lia].
      destruct ts as [|t' ts']; [right|by left]. cbn [length] in Hl. rewrite (proj2 (Z.eqb_eq _ _)) by lia.
      split; [done|]. cbn [map]. by rewrite mine_own, msg_sender. }
  apply Hall; [left; intros ->; cbn in Hl; lia|by left|done|done|done|lia|lia].
Qed.
End collection.
End StageOneStore.

Module StageThreeStore.
Import Stage Stage3 OnStage2.

Inductive Result3 := Finish3 | Retry3 | Failure3 | Ignore3.

Record Store := mkStore {
  stageThreeStorage : list StageThree;
  trueStageThreeStorage : list StageThree;
  currentStage3iteration_ : Z;
  realTrustedChanged_ : bool;
  tempRealTrusted_ : list Z;
  (** [lastSentSignatures_] *)
  poolSignatures : list bytes;
  roundSignatures : list bytes;
  trustedConfirmation : list bytes
}.
#[global] Instance eta_store : Eta Store := fun s =>
  mkStore (stageThreeStorage s) (trueStageThreeStorage s) (currentStage3iteration_ s) (realTrustedChanged_ s)
    (tempRealTrusted_ s) (poolSignatures s) (roundSignatures s) (trustedConfirmation s).

Section store.
Context `{!Cscrypto}.
(** The confidants' keys and the index of the node among them. *)
Context (confidants : list bytes) (own : Z).

(** [find_stage3(sender)] and [find_stage3(sender, iteration)] *)
Definition find_stage3 (l : list StageThree) (i : Z) : option StageThree :=
  List.find (fun st => s3_sender st =? i) l.
Definition find_stage3_iteration (l : list StageThree) (i n : Z) : option StageThree :=
  List.find (fun st => (s3_sender st =? i) && (iteration st =? n)) l.

(** The loop of [addRoundSignature]: the valid entries before the sender. *)
Fixpoint position (mask : list Z) (sender : Z) : nat :=
  match mask with
  | [] => O
  | v :: mask =>
      if sender =? 0 then O
      else if negb (v =? InvalidConfidantIndex) then S (position mask (sender - 1))
      else position mask (sender - 1)
  end.

(** [vector::resize] *)
Definition resize_signatures (n : nat) (l : list bytes) : list bytes :=
  take n l ++ replicate (n - length l) Zero_signature.

(** [SolverCore::addRoundSignature]: [None] writes out of bounds. *)
Definition addRoundSignature (st3 : StageThree) (s : Store) : option Store :=
  let pos := position (realTrustedMask st3) (s3_sender st3) in
  let tCount := Z.to_nat (TrustedMask.trustedSize (realTrustedMask st3)) in
  if (pos <? tCount)%nat then
    Some (s <| poolSignatures := <[pos := blockSignature st3]> (resize_signatures tCount (poolSignatures s)) |>
            <| roundSignatures := <[pos := roundSignature st3]> (resize_signatures tCount (roundSignatures s)) |>
            <| trustedConfirmation := <[pos := trustedSignature st3]> (resize_signatures tCount (trustedConfirmation s)) |>)
  else None.

(** The checks of the lambda of [gotStageThree]; [None] reads out of bounds. *)
Definition final_check (stageFrom stageTo : StageThree) : option bool :=
  match realTrustedMask stageTo !! Z.to_nat (s3_sender stageFrom), confidants !! Z.to_nat (s3_sender stageFrom) with
  | Some v, Some key =>
      Some (negb (v =? InvalidConfidantIndex)
            && verifySignature (blockSignature stageFrom) key (blockHash stageTo)
            && verifySignature (roundSignature stageFrom) key (roundHash stageTo)
            && verifySignature (trustedSignature stageFrom) key (trustedHash stageTo)
            && bool_decide (realTrustedMask stageFrom = realTrustedMask stageTo)
            && (writer stageFrom =? writer stageTo))
  | _, _ => None
  end.

Definition realTrustedSetValue (pos value : Z) (s : Store) : Store :=
  s <| realTrustedChanged_ := true |> <| tempRealTrusted_ := <[Z.to_nat pos := value]> (tempRealTrusted_ s) |>.

Definition lamda (stageFrom stageTo : StageThree) (s : Store) : option Store :=
  match final_check stageFrom stageTo with
  | None => None
  | Some true =>
      addRoundSignature stageFrom (s <| trueStageThreeStorage := trueStageThreeStorage s ++ [stageFrom] |>)
  | Some false =>
      Some (if default InvalidConfidantIndex (realTrustedMask stageTo !! Z.to_nat (s3_sender stageFrom)) =? InvalidConfidantIndex
            then s else realTrustedSetValue (s3_sender stageFrom) InvalidConfidantIndex s)
  end.

Fixpoint check_stored (l : list StageThree) (stage : StageThree) (s : Store) : option Store :=
  match l with
  | [] => Some s
  | st :: l =>
      if iteration st =? currentStage3iteration_ s
      then match lamda st stage s with Some s => check_stored l stage s | None => None end
      else check_stored l stage s
  end.

(** [gotStageThree] up to the state; the flag of the result tells whether the stage was taken. *)
Definition gotStageThree (stage : StageThree) (flagg : Z) (s : Store) : option (Store * bool) :=
  if iteration stage <? currentStage3iteration_ s then Some (s, false)
  else
    match find_stage3_iteration (stageThreeStorage s) (s3_sender stage) (iteration stage) with
    | Some _ => Some (s, false)
    | None =>
        let checked :=
          if flagg =? 1 then
            match check_stored (stageThreeStorage s) stage s with
            | Some s => addRoundSignature stage (s <| trueStageThreeStorage := trueStageThreeStorage s ++ [stage] |>)
            | None => None
            end
          else if flagg =? 2 then
            match find_stage3 (stageThreeStorage s) own with
            | Some st => if iteration stage =? iteration st then lamda stage st s else Some s
            | None => Some s
            end
          else Some s in
        match checked with
        | Some s => Some (s <| stageThreeStorage := stageThreeStorage s ++ [stage] |>, true)
        | None => None
        end
    end.

(** [TrustedPostStageState::onStage3] *)
Definition onStage3 (s : Store) : option Result3 :=
  match find_stage3 (stageThreeStorage s) own with
  | None => None
  | Some mine =>
      let cnt_real_trusted := Z.of_nat (length (realTrustedMask mine)) - count_invalid (realTrustedMask mine) in
      if Z.of_nat (length (trueStageThreeStorage s)) =? cnt_real_trusted then Some Finish3
      else if realTrustedChanged_ s && (Z.of_nat (length (stageThreeStorage s)) =? cnt_real_trusted) then
        if Z.of_nat (length (tempRealTrusted_ s)) / 2 <? cnt_real_trusted then Some Retry3 else Some Failure3
      else Some Ignore3
  end.

(** [++currentStage3iteration_; adjustStageThreeStorage();] *)
Definition retry (s : Store) : Store :=
  let n := u8 (currentStage3iteration_ s + 1) in
  s <| currentStage3iteration_ := n |>
    <| stageThreeStorage := filter (fun st => iteration st = n) (stageThreeStorage s) |>
    <| trueStageThreeStorage := [] |>.
End store.

(** ** The positions of the signatures *)

Definition valid_at (mask : list Z) (i : Z) : Prop :=
  0 <= i /\ exists v, mask !! Z.to_nat i = Some v /\ v <> InvalidConfidantIndex.

Definition valid_count (mask : list Z) : nat := length (filter (fun v => v <> InvalidConfidantIndex) mask).

Lemma valid_at_cons v mask i :
  valid_at (v :: mask) i <-> i = 0 /\ v <> InvalidConfidantIndex \/ 0 < i /\ valid_at mask (i - 1).
Proof.
  unfold valid_at. split.
  - intros (Hi & w & Hw & Hv). destruct (Z.eq_dec i 0) as [->|Hne]; [left; by injection Hw as ->|right].
    split; [lia|]. split; [lia|]. exists w. split; [|done].
    replace (Z.to_nat i) with (S (Z.to_nat (i - 1))) in Hw by lia. done.
  - intros [[-> Hv]|(Hi & _ & w & Hw & Hv)]; (split; [lia|]); [by exists v|]. exists w. split; [|done].
    replace (Z.to_nat i) with (S (Z.to_nat (i - 1))) by lia. done.
Qed.

Lemma position_lt mask i : valid_at mask i -> (position mask i < valid_count mask)%nat.
Proof.
  revert i. induction mask as [|v mask IH]; intros i; [intros (_ & w & Hw & _); by rewrite lookup_nil in Hw|].
  rewrite valid_at_cons. unfold valid_count. cbn [position]. rewrite filter_cons.
  intros [[-> Hv]|[Hi Hm]].
  - rewrite decide_True by done. cbn. lia.
  - rewrite (proj2 (Z.eqb_neq i 0)) by lia. apply IH in Hm. unfold valid_count in Hm.
    destruct (Z.eqb_spec v InvalidConfidantIndex); case_decide; try done; cbn [negb length]; lia.
Qed.

Lemma position_inj mask i j : valid_at mask i -> valid_at mask j -> position mask i = position mask j -> i = j.
Proof.
  revert i j. induction mask as [|v mask IH]; intros i j; [intros (_ & w & Hw & _); by rewrite lookup_nil in Hw|].
  rewrite !valid_at_cons. cbn [position]. intros [[-> Hv]|[Hi Hm]] [[-> Hv']|[Hj Hm']]; [done|..].
  - rewrite (proj2 (Z.eqb_neq j 0)), (proj2 (Z.eqb_neq v _)) by (done || lia). by cbn.
  - rewrite (proj2 (Z.eqb_neq i 0)), (proj2 (Z.eqb_neq v _)) by (done || lia). by cbn.
  - rewrite (proj2 (Z.eqb_neq i 0)), (proj2 (Z.eqb_neq j 0)) by lia. intros E.
    assert (i - 1 = j - 1); [|lia]. apply IH; [done..|]. destruct (negb _); congruence.
Qed.

Lemma trustedSize_valid mask : Z.of_nat (length mask) < 256 -> Z.to_nat (TrustedMask.trustedSize mask) = valid_count mask.
Proof.
  intros Hl. unfold TrustedMask.trustedSize. rewrite TrustedMask.count_good.
  pose proof (length_filter (fun v => v <> InvalidConfidantIndex) mask).
  rewrite uwrap_id by (unfold in_u; lia). apply Nat2Z.id.
Qed.

(** The valid indices, as many as [valid_count]. *)
Lemma valid_senders mask (l : list Z) :
  NoDup l -> Forall (valid_at mask) l -> length l = valid_count mask -> forall i, valid_at mask i -> i ∈ l.
Proof.
  intros Hn Hv Hl i Hi.
  assert (forall k, NoDup k -> Forall (valid_at mask) k -> (length k <= valid_count mask)%nat) as Hmax.
  { clear. intros k Hn Hv. rewrite <- (length_seq (valid_count mask) 0), <- (length_map (position mask) k).
    apply submseteq_length, NoDup_submseteq.
    - apply NoDup_fmap_2_strong; [|done]. rewrite Forall_forall in Hv. intros x y Hx Hy. apply position_inj; by apply Hv.
    - intros p (x & -> & Hx)%list_elem_of_fmap. rewrite Forall_forall in Hv. apply elem_of_seq.
      pose proof (position_lt mask x (Hv x Hx)). lia. }
  destruct (decide (i ∈ l)) as [|Hni]; [done|exfalso].
  assert (length (i :: l) <= valid_count mask)%nat as Hc; [|cbn [length] in Hc; lia].
  apply Hmax; [by constructor|by constructor].
Qed.

(** ** The gathering of the signatures *)

Section gathering.
Context `{!Cscrypto}.
Context (confidants : list bytes) (own : Z).

(** The signatures of the stage [t] are its sender's, of the hashes of [mine]. *)
Definition signs (mine t : StageThree) : Prop :=
  exists key, confidants !! Z.to_nat (s3_sender t) = Some key /\
    verifySignature (blockSignature t) key (blockHash mine) = true /\
    verifySignature (roundSignature t) key (roundHash mine) = true /\
    verifySignature (trustedSignature t) key (trustedHash mine) = true.

(** The stage agrees with one's own [mine], whose hashes its signatures sign. *)
Definition agrees (mine t : StageThree) : Prop :=
  valid_at (realTrustedMask mine) (s3_sender t) /\ realTrustedMask t = realTrustedMask mine /\ signs mine t.

(** The slots of the checked stages, all of the size of the mask's valid part. *)
Record gathered (mine : StageThree) (s : Store) : Prop := {
  g_nodup : NoDup (map s3_sender (trueStageThreeStorage s));
  g_agree : Forall (agrees mine) (trueStageThreeStorage s);
  g_length : trueStageThreeStorage s <> [] ->
    length (poolSignatures s) = valid_count (realTrustedMask mine) /\
    length (roundSignatures s) = valid_count (realTrustedMask mine) /\
    length (trustedConfirmation s) = valid_count (realTrustedMask mine);
  g_slots t : t ∈ trueStageThreeStorage s ->
    poolSignatures s !! position (realTrustedMask mine) (s3_sender t) = Some (blockSignature t) /\
    roundSignatures s !! position (realTrustedMask mine) (s3_sender t) = Some (roundSignature t) /\
    trustedConfirmation s !! position (realTrustedMask mine) (s3_sender t) = Some (trustedSignature t)
}.

Lemma length_resize n l : length (resize_signatures n l) = n.
Proof. unfold resize_signatures. rewrite length_app, length_take, length_replicate. lia. Qed.

Lemma resize_same n l : length l = n -> resize_signatures n l = l.
Proof. intros <-. unfold resize_signatures. by rewrite take_ge, Nat.sub_diag, app_nil_r by lia. Qed.

(** One list of signatures, with a slot filled. *)
Lemma slot_fill mask (l : list bytes) (sig : StageThree -> bytes) ts t :
  valid_at mask (s3_sender t) -> s3_sender t ∉ map s3_sender ts ->
  Forall (fun u => valid_at mask (s3_sender u)) ts ->
  (ts <> [] -> length l = valid_count mask) ->
  (forall u, u ∈ ts -> l !! position mask (s3_sender u) = Some (sig u)) ->
  let l' := <[position mask (s3_sender t) := sig t]> (resize_signatures (valid_count mask) l) in
  length l' = valid_count mask /\ forall u, u ∈ ts ++ [t] -> l' !! position mask (s3_sender u) = Some (sig u).
Proof.
  intros Hv Hn Hts Hl Hs l'. unfold l'. split; [by rewrite length_insert, length_resize|].
  intros u [Hu| ->%list_elem_of_singleton]%elem_of_app.
  - rewrite list_lookup_insert_ne.
    + rewrite resize_same; [by apply Hs|]. apply Hl. intros ->. by apply not_elem_of_nil in Hu.
    + rewrite Forall_forall in Hts. intros E. apply position_inj in E; [|done|by apply Hts].
      apply Hn. rewrite E. by apply (list_elem_of_fmap_2 s3_sender).
  - apply list_lookup_insert_eq. rewrite length_resize. by apply position_lt.
Qed.

Lemma gathered_add mine t s s' :
  Z.of_nat (length (realTrustedMask mine)) < 256 -> gathered mine s -> agrees mine t ->
  s3_sender t ∉ map s3_sender (trueStageThreeStorage s) ->
  addRoundSignature t (s <| trueStageThreeStorage := trueStageThreeStorage s ++ [t] |>) = Some s' ->
  gathered mine s' /\ trueStageThreeStorage s' = trueStageThreeStorage s ++ [t] /\
  stageThreeStorage s' = stageThreeStorage s /\ currentStage3iteration_ s' = currentStage3iteration_ s.
Proof.
  intros Hb [Gn Ga Gl Gs] Ht Hni. pose proof Ht as (Hv & Em & _). unfold addRoundSignature. rewrite Em.
  rewrite trustedSize_valid by done. destruct (Nat.ltb_spec (position (realTrustedMask mine) (s3_sender t)) (valid_count (realTrustedMask mine))); [|done].
  intros [= <-]. cbn [upd trueStageThreeStorage stageThreeStorage currentStage3iteration_]. split; [|done].
  assert (Forall (fun u => valid_at (realTrustedMask mine) (s3_sender u)) (trueStageThreeStorage s)) as Hts
    by (eapply Forall_impl; [exact Ga|]; by intros u (? & _)).
  destruct (slot_fill (realTrustedMask mine) (poolSignatures s) blockSignature (trueStageThreeStorage s) t) as [L1 S1];
    [done..|intros; by apply Gl|intros; by apply Gs|].
  destruct (slot_fill (realTrustedMask mine) (roundSignatures s) roundSignature (trueStageThreeStorage s) t) as [L2 S2];
    [done..|intros; by apply Gl|intros; by apply Gs|].
  destruct (slot_fill (realTrustedMask mine) (trustedConfirmation s) trustedSignature (trueStageThreeStorage s) t) as [L3 S3];
    [done..|intros; by apply Gl|intros; by apply Gs|].
  split; cbn [upd trueStageThreeStorage poolSignatures roundSignatures trustedConfirmation].
  - rewrite map_app. apply NoDup_app. split_and!; [done| |apply NoDup_singleton].
    intros x Hx Hs. apply list_elem_of_singleton in Hs as ->. done.
  - apply Forall_app. split; [done|]. by constructor.
  - by intros _.
  - intros u Hu. by split_and!; [apply S1|apply S2|apply S3].
Qed.

(** The lambda leaves a check that failed without a trace in the storages. *)
Lemma lamda_gathered mine t s s' :
  Z.of_nat (length (realTrustedMask mine)) < 256 -> 0 <= s3_sender t -> gathered mine s ->
  s3_sender t ∉ map s3_sender (trueStageThreeStorage s) -> lamda confidants t mine s = Some s' ->
  gathered mine s' /\ stageThreeStorage s' = stageThreeStorage s /\
  currentStage3iteration_ s' = currentStage3iteration_ s /\
  (trueStageThreeStorage s' = trueStageThreeStorage s \/ trueStageThreeStorage s' = trueStageThreeStorage s ++ [t]).
Proof.
  intros Hb Hp G Hni. unfold lamda, final_check.
  destruct (realTrustedMask mine !! Z.to_nat (s3_sender t)) as [v|] eqn:Hv; [|done].
  destruct (confidants !! Z.to_nat (s3_sender t)) as [key|] eqn:Hk; [|done].
  destruct (_ && _) eqn:E.
  - rewrite !andb_true_iff, negb_true_iff, Z.eqb_neq, bool_decide_eq_true in E.
    destruct E as (((((Hne & V1) & V2) & V3) & Em) & _). intros A.
    apply (gathered_add mine) in A as (G' & Et & Es & Ei); [by split_and!; [..|right]|done..| |done].
    split_and!; [by split; [|exists v]|done|]. by exists key.
  - cbn [default]. intros [= <-]. destruct (v =? InvalidConfidantIndex); [by split_and!; [..|left]|].
    destruct G as [Gn Ga Gl Gs]. by split_and!; [split|..|left].
Qed.

(** Whatever the checks say, they leave the stored stages alone. *)
Lemma addRoundSignature_keeps t s s' :
  addRoundSignature t s = Some s' ->
  stageThreeStorage s' = stageThreeStorage s /\ currentStage3iteration_ s' = currentStage3iteration_ s.
Proof. unfold addRoundSignature. case_match; [|done]. by intros [= <-]. Qed.

Lemma lamda_keeps mine t s s' :
  lamda confidants t mine s = Some s' ->
  stageThreeStorage s' = stageThreeStorage s /\ currentStage3iteration_ s' = currentStage3iteration_ s.
Proof.
  unfold lamda. destruct (final_check _ _ _) as [[]|]; [|intros [= <-]; by case_match|done]. by intros ?%addRoundSignature_keeps.
Qed.

Lemma check_stored_keeps mine l s s' :
  check_stored confidants l mine s = Some s' ->
  stageThreeStorage s' = stageThreeStorage s /\ currentStage3iteration_ s' = currentStage3iteration_ s.
Proof.
  revert s. induction l as [|t l IH]; intros s; cbn [check_stored]; [by intros [= <-]|].
  destruct (_ =? _); [|by apply IH]. destruct (lamda _ _ _ _) as [s1|] eqn:L; [|done]. apply lamda_keeps in L as [<- <-]. by apply IH.
Qed.

(** The sender and the sub-round of a stage *)
Definition stage_key (t : StageThree) : Z * Z := (s3_sender t, iteration t).

Lemma check_stored_gathered mine l s s' :
  Z.of_nat (length (realTrustedMask mine)) < 256 -> Forall (fun t => 0 <= s3_sender t) l -> NoDup (map stage_key l) ->
  gathered mine s -> (forall t, t ∈ l -> iteration t = currentStage3iteration_ s -> s3_sender t ∉ map s3_sender (trueStageThreeStorage s)) ->
  check_stored confidants l mine s = Some s' ->
  gathered mine s' /\
  forall t, t ∈ trueStageThreeStorage s' -> t ∈ trueStageThreeStorage s \/ t ∈ l /\ iteration t = currentStage3iteration_ s.
Proof.
  intros Hb. revert s. induction l as [|t l IH]; intros s Hr Hn G Hd; cbn [check_stored].
  - intros [= <-]. split; [done|]. by left.
  - apply Forall_cons in Hr as [Ht Hr]. cbn [map] in Hn. apply NoDup_cons in Hn as [Hni Hn].
    destruct (Z.eqb_spec (iteration t) (currentStage3iteration_ s)) as [Hit|Hit].
    + destruct (lamda confidants t mine s) as [s1|] eqn:L; [|done].
      apply lamda_gathered in L as (G1 & _ & Ei1 & Et); [|done..|by apply Hd; [left|]]. intros C.
      apply IH in C as (G' & Ht'); [|done..|].
      * split; [done|]. intros u Hu. apply Ht' in Hu as [Hu|[Hu Ei]]; [|right; split; [by right|congruence]].
        destruct Et as [Et|Et]; rewrite Et in Hu; [by left|].
        apply elem_of_app in Hu as [Hu| ->%list_elem_of_singleton]; [by left|right; split; [by left|done]].
      * intros u Hu Eu. rewrite Ei1 in Eu. specialize (Hd u ltac:(by right) Eu). destruct Et as [->| ->]; [done|].
        rewrite map_app, elem_of_app. intros [Hin|Hin]; [done|]. apply list_elem_of_singleton in Hin. apply Hni.
        assert (stage_key t = stage_key u) as -> by (unfold stage_key; congruence). by apply (list_elem_of_fmap_2 stage_key).
    + intros C. apply IH in C as (G' & Ht'); [|done..|].
      * split; [done|]. intros u Hu. apply Ht' in Hu as [Hu|[Hu Ei]]; [by left|right; split; [by right|done]].
      * intros u Hu. apply Hd. by right.
Qed.

(** The solver's steps of a round: the node's own stage three, of the current sub-round, which its
    keys sign (its mask is whatever stage two gave, the node may be invalid in it); a received or
    faked stage of another confidant, of any sub-round; a retry. *)
Inductive step : Store -> Store -> Prop :=
  | step_own stage s s' b :
      s3_sender stage = own -> 0 <= own -> iteration stage = currentStage3iteration_ s -> signs stage stage ->
      Z.of_nat (length (realTrustedMask stage)) < 256 ->
      gotStageThree confidants own stage 1 s = Some (s', b) -> step s s'
  | step_other stage flagg s s' b :
      s3_sender stage <> own -> 0 <= s3_sender stage ->
      flagg = 0 \/ flagg = 2 -> gotStageThree confidants own stage flagg s = Some (s', b) -> step s s'
  | step_retry s : step s (retry s).

Inductive reachable (s0 : Store) : Store -> Prop :=
  | reach_refl : reachable s0 s0
  | reach_step s s' : reachable s0 s -> step s s' -> reachable s0 s'.

(** [nextRound] clears all but the signatures' capacity. *)
Definition cleared : Store := mkStore [] [] 0 false [] [] [] [].

Record store_inv (s : Store) : Prop := {
  i_nodup : NoDup (map stage_key (stageThreeStorage s));
  i_range : Forall (fun t => 0 <= s3_sender t) (stageThreeStorage s);
  i_own t : t ∈ stageThreeStorage s -> s3_sender t = own -> iteration t = currentStage3iteration_ s;
  i_none : find_stage3 (stageThreeStorage s) own = None -> trueStageThreeStorage s = [];
  i_mine mine : find_stage3 (stageThreeStorage s) own = Some mine ->
    Z.of_nat (length (realTrustedMask mine)) < 256 /\
    (valid_at (realTrustedMask mine) own -> gathered mine s /\ trueStageThreeStorage s <> [] /\
      forall t, t ∈ trueStageThreeStorage s -> t ∈ stageThreeStorage s /\ iteration t = currentStage3iteration_ s)
}.

Lemma find_stage3_snoc l t i :
  find_stage3 (l ++ [t]) i = match find_stage3 l i with Some x => Some x | None => if s3_sender t =? i then Some t else None end.
Proof. unfold find_stage3. induction l as [|x l IH]; cbn [app List.find]; [done|]. by destruct (s3_sender x =? i). Qed.

Lemma find_stage3_None l i : find_stage3 l i = None -> i ∉ map s3_sender l.
Proof.
  intros F Hin. apply (list_elem_of_fmap s3_sender) in Hin as (st & -> & Hst). apply list_elem_of_In in Hst.
  apply (List.find_none _ _ F) in Hst. cbn beta in Hst. by rewrite Z.eqb_refl in Hst.
Qed.

Lemma find_stage3_Some l i t : find_stage3 l i = Some t -> t ∈ l /\ s3_sender t = i.
Proof. intros [Ht%list_elem_of_In Hi%Z.eqb_eq]%List.find_some. by split. Qed.

Lemma find_iteration_None l i n : find_stage3_iteration l i n = None -> (i, n) ∉ map stage_key l.
Proof.
  intros F Hin. apply (list_elem_of_fmap stage_key) in Hin as (t & E & Ht). apply list_elem_of_In in Ht. injection E as -> ->.
  apply (List.find_none _ _ F) in Ht. cbn beta in Ht. by rewrite !Z.eqb_refl in Ht.
Qed.

Lemma gathered_nil mine s : trueStageThreeStorage s = [] -> gathered mine s.
Proof. intros E. split; rewrite E; [constructor|constructor|done|by intros t ?%not_elem_of_nil]. Qed.

(** Storing a stage after its checks. *)
Lemma store_inv_push stage s s1 :
  store_inv s -> 0 <= s3_sender stage -> (s3_sender stage = own -> iteration stage = currentStage3iteration_ s) ->
  find_stage3_iteration (stageThreeStorage s) (s3_sender stage) (iteration stage) = None ->
  stageThreeStorage s1 = stageThreeStorage s -> currentStage3iteration_ s1 = currentStage3iteration_ s ->
  (find_stage3 (stageThreeStorage s ++ [stage]) own = None -> trueStageThreeStorage s1 = []) ->
  (forall mine, find_stage3 (stageThreeStorage s ++ [stage]) own = Some mine ->
    Z.of_nat (length (realTrustedMask mine)) < 256 /\
    (valid_at (realTrustedMask mine) own -> gathered mine s1 /\ trueStageThreeStorage s1 <> [] /\
      forall t, t ∈ trueStageThreeStorage s1 -> t ∈ stageThreeStorage s ++ [stage] /\ iteration t = currentStage3iteration_ s)) ->
  store_inv (s1 <| stageThreeStorage := stageThreeStorage s1 ++ [stage] |>).
Proof.
  intros [In Ir Io _ _] Hp Hi Hf Es Ei Hn Hm.
  split; cbn [upd stageThreeStorage currentStage3iteration_ trueStageThreeStorage]; rewrite ?Es, ?Ei.
  - rewrite map_app. apply NoDup_app. split_and!; [done| |apply NoDup_singleton].
    intros x Hx Hs. apply list_elem_of_singleton in Hs as ->. by apply (find_iteration_None _ _ _ Hf).
  - apply Forall_app. split; [done|]. by constructor.
  - intros t [Ht| ->%list_elem_of_singleton]%elem_of_app; [by apply Io|exact Hi].
  - done.
  - intros mine F. apply Hm in F as (Hb & Hg). split; [done|]. intros Hv. destruct (Hg Hv) as ([Gn Ga Gl Gs] & Hne & Ht).
    by split_and!; [split| |].
Qed.

Lemma step_own_inv stage s s' b :
  store_inv s -> s3_sender stage = own -> 0 <= own -> iteration stage = currentStage3iteration_ s -> signs stage stage ->
  Z.of_nat (length (realTrustedMask stage)) < 256 -> gotStageThree confidants own stage 1 s = Some (s', b) -> store_inv s'.
Proof.
  intros I Hse Hpos Hi Ha Hb. unfold gotStageThree. rewrite Hi, Z.ltb_irrefl, Hse. pose proof I as [In Ir Io Ino Imi].
  destruct (find_stage3_iteration (stageThreeStorage s) own (currentStage3iteration_ s)) eqn:F; [by intros [= <- _]|]. rewrite Z.eqb_refl.
  destruct (check_stored _ _ _ _) as [s1|] eqn:C; [|done]. destruct (addRoundSignature _ _) as [s2|] eqn:A; [|done]. intros [= <- _].
  pose proof (find_iteration_None _ _ _ F) as Hni.
  assert (find_stage3 (stageThreeStorage s) own = None) as Fo.
  { destruct (find_stage3 _ own) as [t|] eqn:Ft; [|done]. exfalso. apply find_stage3_Some in Ft as [Ht Et]. apply Hni.
    rewrite <- Et at 1. rewrite <- (Io t Ht Et). by apply (list_elem_of_fmap_2 stage_key). }
  pose proof (Ino Fo) as E0. pose proof (check_stored_keeps _ _ _ _ C) as [Es1 Ei1]. pose proof (addRoundSignature_keeps _ _ _ A) as [Es2 Ei2].
  cbn [upd stageThreeStorage currentStage3iteration_] in Es2, Ei2.
  apply (store_inv_push stage s s2); [done|by rewrite Hse|done|by rewrite Hse, Hi|congruence|congruence|..];
    rewrite find_stage3_snoc, Fo, Hse, Z.eqb_refl; [done|].
  intros mine [= <-]. split; [done|]. intros Hv.
  apply check_stored_gathered in C as (G1 & Ht1); [|done..|by apply gathered_nil|rewrite E0; intros; apply not_elem_of_nil].
  assert (forall t, t ∈ trueStageThreeStorage s1 -> t ∈ stageThreeStorage s /\ iteration t = currentStage3iteration_ s) as Hsub.
  { intros t Ht. apply Ht1 in Ht as [Ht|Ht]; [|done]. rewrite E0 in Ht. by apply not_elem_of_nil in Ht. }
  apply (gathered_add stage) in A as (G2 & Et2 & _ & _); [|done|done|by split; [rewrite Hse|]|].
  - split; [done|]. split; [by rewrite Et2; destruct (trueStageThreeStorage s1)|].
    intros t. rewrite Et2, !elem_of_app. intros [Ht|Ht]; [destruct (Hsub t Ht); by split; [left|]|]. split; [by right|].
    apply list_elem_of_singleton in Ht as ->. exact Hi.
  - rewrite Hse. intros (t & E & Ht)%(list_elem_of_fmap s3_sender). apply Hsub in Ht as [Ht Et]. apply Hni. rewrite E, <- Et.
    by apply (list_elem_of_fmap_2 stage_key).
Qed.

Lemma step_other_inv stage flagg s s' b :
  store_inv s -> s3_sender stage <> own -> 0 <= s3_sender stage -> flagg = 0 \/ flagg = 2 ->
  gotStageThree confidants own stage flagg s = Some (s', b) -> store_inv s'.
Proof.
  intros I Hse Hp Hfl. unfold gotStageThree. pose proof I as [In Ir Io Ino Imi]. destruct (_ <? _); [by intros [= <- _]|].
  destruct (find_stage3_iteration (stageThreeStorage s) (s3_sender stage) (iteration stage)) eqn:F; [by intros [= <- _]|].
  assert (find_stage3 (stageThreeStorage s ++ [stage]) own = find_stage3 (stageThreeStorage s) own) as Hown.
  { rewrite find_stage3_snoc, (proj2 (Z.eqb_neq _ _)) by done. by destruct (find_stage3 _ own). }
  assert (store_inv (s <| stageThreeStorage := stageThreeStorage s ++ [stage] |>)) as I0.
  { apply (store_inv_push stage s s); try done; rewrite Hown; [done|]. intros mine Hmine.
    destruct (Imi mine Hmine) as (Hb & Hg). split; [done|]. intros Hv. destruct (Hg Hv) as (Gm & Hne & Ht). split_and!; [done..|].
    intros t [Hin Hit]%Ht. split; [|done]. apply elem_of_app. by left. }
  destruct Hfl as [->| ->]; cbn [Z.eqb Pos.eqb]; [by intros [= <- _]|].
  destruct (find_stage3 (stageThreeStorage s) own) as [mine|] eqn:Fo; [|by intros [= <- _]].
  destruct (Z.eqb_spec (iteration stage) (iteration mine)) as [Hit|]; [|by intros [= <- _]].
  destruct (lamda confidants stage mine s) as [s1|] eqn:L; [|done]. intros [= <- _].
  pose proof (find_stage3_Some _ _ _ Fo) as [Hm Em]. pose proof (Io mine Hm Em) as Ecur. pose proof (lamda_keeps _ _ _ _ L) as [Es1 Ei1].
  apply (store_inv_push stage s s1); try done; rewrite Hown; [done|]. intros mine' [= <-]. destruct (Imi mine eq_refl) as (Hb & Hg).
  split; [done|]. intros Hv. destruct (Hg Hv) as (Gm & Hne & Ht).
  apply lamda_gathered in L as (G1 & _ & _ & Et1); [|done..|].
  - split_and!; [done|by destruct Et1 as [->| ->]; [|destruct (trueStageThreeStorage s)]|].
    intros t Hin. rewrite elem_of_app. destruct Et1 as [Et1|Et1]; rewrite Et1 in Hin; [destruct (Ht t Hin); by split; [left|]|].
    apply elem_of_app in Hin as [Hin|Hin]; [destruct (Ht t Hin); by split; [left|]|]. split; [by right|].
    apply list_elem_of_singleton in Hin as ->. congruence.
  - intros (t & E & Hin)%(list_elem_of_fmap s3_sender). apply Ht in Hin as [Hin Eit]. apply (find_iteration_None _ _ _ F).
    replace (s3_sender stage, iteration stage) with (stage_key t) by (unfold stage_key; congruence). by apply (list_elem_of_fmap_2 stage_key).
Qed.

Lemma retry_inv s : store_inv s -> store_inv (retry s).
Proof.
  intros [In Ir Io _ _]. unfold retry. set (n := u8 (currentStage3iteration_ s + 1)). set (l := stageThreeStorage s) in *.
  assert (forall t, t ∈ filter (fun st => iteration st = n) l -> iteration t = n /\ t ∈ l) as Hf by (intros t; by rewrite list_elem_of_filter).
  assert (find_stage3 (filter (fun st => iteration st = n) l) own = None) as Fo.
  { destruct (find_stage3 _ own) as [t|] eqn:Ft; [|done]. exfalso. apply find_stage3_Some in Ft as [[Hn Ht]%Hf Et].
    rewrite (Io t Ht Et) in Hn. subst n. machine_lia. }
  split; cbn [upd stageThreeStorage trueStageThreeStorage currentStage3iteration_]; rewrite ?Fo; try done.
  - eapply sublist_NoDup; [exact In|]. apply (fmap_sublist stage_key), sublist_filter.
  - apply Forall_forall. intros t [_ Ht]%Hf. rewrite Forall_forall in Ir. by apply Ir.
  - by intros t [Hn _]%Hf _.
Qed.

Lemma step_inv s s' : store_inv s -> step s s' -> store_inv s'.
Proof. intros I Hst. destruct Hst; [by eapply step_own_inv|by eapply step_other_inv|by apply retry_inv]. Qed.

Lemma reachable_inv s : reachable cleared s -> store_inv s.
Proof.
  intros Hr. induction Hr as [|s s' _ IH Hst]; [|by eapply step_inv].
  split; cbn; [constructor|constructor|by intros t ?%not_elem_of_nil|done|done].
Qed.

(** What the storage holds when the post stage finishes *)
Lemma finished_gathered s mine :
  reachable cleared s -> onStage3 own s = Some Finish3 ->
  find_stage3 (stageThreeStorage s) own = Some mine -> valid_at (realTrustedMask mine) own ->
  store_inv s /\ gathered mine s /\ trueStageThreeStorage s <> [] /\
    forall i, valid_at (realTrustedMask mine) i -> exists t, i = s3_sender t /\ t ∈ trueStageThreeStorage s.
Proof.
  intros Hr Hf F Hv. assert (store_inv s) as I by by apply reachable_inv. revert Hf. unfold onStage3. rewrite F.
  rewrite TrustedMask.count_good. fold (valid_count (realTrustedMask mine)).
  destruct (Z.eqb_spec (Z.of_nat (length (trueStageThreeStorage s))) (Z.of_nat (valid_count (realTrustedMask mine)))) as [E|];
    [intros _|by repeat case_match].
  destruct (i_mine s I mine F) as (_ & Hg). destruct (Hg Hv) as (G & Hne & _). pose proof G as [Gn Ga _ _]. split_and!; try done.
  assert (forall i, valid_at (realTrustedMask mine) i -> i ∈ map s3_sender (trueStageThreeStorage s)) as Hall.
  { apply valid_senders; [done| |rewrite length_map; lia].
    apply Forall_forall. intros i (t & -> & Ht)%list_elem_of_fmap. rewrite Forall_forall in Ga. by apply Ga. }
  intros i Hi. apply Hall in Hi as (t & -> & Ht)%list_elem_of_fmap. by exists t.
Qed.

(** C20: In every state the stage-three storage reaches in a round (the own stage of the current
    sub-round, signed by the node's keys, whatever its mask of fewer than 256 confidants; stages
    of the others, of any sub-round, before or after it, and faked ones; retries), when the post
    stage finishes and the node is valid in its own mask, the gathered signatures have one slot
    for each valid confidant of that mask, and each slot holds that confidant's signatures of this
    node's block, round table and trusted list. *)
Theorem finish3_signatures s mine :
  reachable cleared s -> onStage3 own s = Some Finish3 ->
  find_stage3 (stageThreeStorage s) own = Some mine -> valid_at (realTrustedMask mine) own ->
  length (poolSignatures s) = valid_count (realTrustedMask mine) /\
  forall i, valid_at (realTrustedMask mine) i ->
    exists key pool round trusted, confidants !! Z.to_nat i = Some key /\
      poolSignatures s !! position (realTrustedMask mine) i = Some pool /\
      verifySignature pool key (blockHash mine) = true /\
      roundSignatures s !! position (realTrustedMask mine) i = Some round /\
      verifySignature round key (roundHash mine) = true /\
      trustedConfirmation s !! position (realTrustedMask mine) i = Some trusted /\
      verifySignature trusted key (trustedHash mine) = true.
Proof.
  intros Hr Hf F Hv. destruct (finished_gathered s mine Hr Hf F Hv) as (I & [Gn Ga Gl Gs] & Hne & Hall). split; [by apply Gl|].
  intros i Hi. apply Hall in Hi as (t & -> & Ht). rewrite Forall_forall in Ga.
  destruct (Ga t Ht) as (_ & _ & key & Hk & V1 & V2 & V3). destruct (Gs t Ht) as (S1 & S2 & S3).
  exists key, (blockSignature t), (roundSignature t), (trustedSignature t). by split_and!.
Qed.

Lemma position_all_invalid mask i :
  (i < length mask)%nat -> Forall (fun v => v = InvalidConfidantIndex) (drop i mask) ->
  position mask (Z.of_nat i) = valid_count mask.
Proof.
  assert (forall m, Forall (fun v => v = InvalidConfidantIndex) m -> valid_count m = 0%nat) as Hno.
  { unfold valid_count. induction 1 as [|v m -> _ IH]; [done|]. rewrite filter_cons, decide_False; [done|]. by intros []. }
  revert i. induction mask as [|v mask IH]; intros i Hi Hd; [cbn in Hi; lia|]. cbn [position].
  destruct i as [|i]; [by rewrite (Hno (v :: mask))|]. cbn [drop length] in *.
  rewrite (proj2 (Z.eqb_neq _ _)) by lia. replace (Z.of_nat (S i) - 1) with (Z.of_nat i) by lia.
  rewrite IH by (done || lia). unfold valid_count. rewrite filter_cons.
  destruct (Z.eqb_spec v InvalidConfidantIndex); case_decide; done.
Qed.

(** A node whose own stage three marks itself invalid, with no valid confidant after it, writes
    its signature past the end of the gathered signatures. *)
Theorem own_liar_overflows stage s :
  s3_sender stage = own -> 0 <= own < Z.of_nat (length (realTrustedMask stage)) ->
  Z.of_nat (length (realTrustedMask stage)) < 256 ->
  Forall (fun v => v = InvalidConfidantIndex) (drop (Z.to_nat own) (realTrustedMask stage)) ->
  currentStage3iteration_ s <= iteration stage ->
  find_stage3_iteration (stageThreeStorage s) own (iteration stage) = None ->
  gotStageThree confidants own stage 1 s = None.
Proof.
  intros Hs Ho Hb Hd Hi Hf. unfold gotStageThree. rewrite Hs, Hf, (proj2 (Z.ltb_ge _ _)) by lia.
  rewrite Z.eqb_refl. destruct (check_stored _ _ _ _) as [s1|]; [|done]. unfold addRoundSignature.
  rewrite Hs, trustedSize_valid by done. rewrite <- (Z2Nat.id own) at 1 by lia.
  rewrite position_all_invalid by (done || lia). by rewrite Nat.ltb_irrefl.
Qed.
End gathering.
End StageThreeStore.

(** ** Witnesses *)

Import Stage Stage3 OnStage2 StageOneStore StageThreeStore.

Definition stamped (sender t : Z) : StageOne := mkStageOne sender [] (print_u t) [] [] [] [] [].
Definition collecting : State2 := mkState2 1 (replicate 3 []) (replicate 3 []) (replicate 25 0).

Lemma gotStageOne_spec_witness :
  exists storage, gotStageOne (stamped 1 20) [stamped 0 7; stamped 1 10] = (storage, true) /\
    find_stage1 storage 1 = Some (stamped 1 20) /\ find_stage1 storage 0 = Some (stamped 0 7).
Proof.
  pose proof (gotStageOne_spec (stamped 1 20) [stamped 0 7; stamped 1 10] ltac:(by apply (bool_decide_unpack _); vm_compute)) as G.
  destruct (gotStageOne (stamped 1 20) [stamped 0 7; stamped 1 10]) as [storage stored]. destruct G as (-> & _ & Ho & Hs).
  exists storage. split; [f_equal; vm_compute; reflexivity|]. split; [exact Hs|]. rewrite Ho by done. vm_compute. reflexivity.
Defined.

Lemma bad_timestamp_throws_witness :
  receive 3 0 5 100 (mkStageOne 1 [] [120] [] [] [] [] []) [stamped 0 7] collecting = Some (Throw invalid_argument).
Proof.
  apply (bad_timestamp_throws 3 0 5 100 ltac:(left; lia) [stamped 0 7] (mkStageOne 1 [] [120] [] [] [] [] []) collecting
    (stamped 0 7) 7 invalid_argument); [done|cbn; lia|done|done|vm_compute; reflexivity|done|vm_compute; reflexivity].
Defined.

Lemma repeated_sender_completes_witness :
  exists storage s', receive_all 3 0 5 100 [stamped 1 10; stamped 1 20] [stamped 0 7] collecting Ignore
    = Some (Ok (Finish, (storage, s'))) /\ map s1_sender storage = [0; 1].
Proof.
  apply (repeated_sender_completes 3 0 5 100 ltac:(left; lia) ltac:(lia) (stamped 0 7) eq_refl 1 ltac:(lia) ltac:(lia)
    (stamped 1) ltac:(done) ltac:(done) [10; 20] collecting 7);
    [vm_compute; reflexivity|done|done|repeat constructor; lia|repeat constructor; lia|lia|done].
Defined.

(** Three confidants, the third is invalid; the others' stages three. *)
Definition s3_keys : list bytes := [le_bytes 32 61; le_bytes 32 62; le_bytes 32 63].
Definition s3_sign (i : Z) (h : bytes) : bytes := toy_hash (le_bytes 32 (61 + i) ++ h) ++ replicate 32 0.
Definition s3_stage (i : Z) : StageThree :=
  mkStageThree i 0 0 [0; 1; 255] (s3_sign i (le_bytes 32 1)) (le_bytes 32 1) (s3_sign i (le_bytes 32 2)) (le_bytes 32 2)
    (le_bytes 32 3) (s3_sign i (le_bytes 32 3)) [] [].
Definition s3_after_own : Store :=
  match gotStageThree s3_keys 1 (s3_stage 1) 1 cleared with Some (s, _) => s | None => cleared end.
Definition s3_finished : Store :=
  match gotStageThree s3_keys 1 (s3_stage 0) 2 s3_after_own with Some (s, _) => s | None => cleared end.

Lemma s3_signs i : (i < 3)%nat -> signs s3_keys (s3_stage (Z.of_nat i)) (s3_stage (Z.of_nat i)).
Proof.
  intros Hi. destruct (lookup_lt_is_Some_2 s3_keys i Hi) as [key Hk]. exists key.
  change (s3_sender (s3_stage (Z.of_nat i))) with (Z.of_nat i). rewrite Nat2Z.id. split; [done|].
  destruct i as [|[|[|]]]; [..|cbn in Hi; lia]; injection Hk as <-; (split; [|split]); vm_compute; reflexivity.
Qed.

Lemma s3_reachable : reachable s3_keys 1 cleared s3_finished.
Proof.
  apply (reach_step s3_keys 1 cleared s3_after_own).
  - apply (reach_step s3_keys 1 cleared cleared); [constructor|].
    apply (step_own s3_keys 1 (s3_stage 1) cleared s3_after_own true); [done|done|done|exact (s3_signs 1 ltac:(lia))|cbn; lia|vm_compute; reflexivity].
  - apply (step_other s3_keys 1 (s3_stage 0) 2 s3_after_own s3_finished true); [done|done|by right|vm_compute; reflexivity].
Qed.

Lemma finish3_signatures_witness :
  length (poolSignatures s3_finished) = 2%nat /\
  forall i, valid_at [0; 1; 255] i ->
    exists key pool round trusted, s3_keys !! Z.to_nat i = Some key /\
      poolSignatures s3_finished !! position [0; 1; 255] i = Some pool /\
      verifySignature pool key (le_bytes 32 1) = true /\
      roundSignatures s3_finished !! position [0; 1; 255] i = Some round /\
      verifySignature round key (le_bytes 32 2) = true /\
      trustedConfirmation s3_finished !! position [0; 1; 255] i = Some trusted /\
      verifySignature trusted key (le_bytes 32 3) = true.
Proof.
  apply (finish3_signatures s3_keys 1 s3_finished (s3_stage 1) s3_reachable); [vm_compute; reflexivity|vm_compute; reflexivity|].
  split; [done|by exists 1].
Defined.

(** A node that its own mask leaves out: the first of three, with the mask of the other two.  Its
    own signature takes the slot of the second confidant until that one's stage comes; with the
    third one's stage the post stage finishes, and the second slot's signature is the node's. *)
Definition left_out_stage (i : Z) : StageThree :=
  mkStageThree i 0 0 [255; 0; 1] (s3_sign i (le_bytes 32 1)) (le_bytes 32 1) (s3_sign i (le_bytes 32 2)) (le_bytes 32 2)
    (le_bytes 32 3) (s3_sign i (le_bytes 32 3)) [] [].
Definition left_out_own : Store :=
  match gotStageThree s3_keys 0 (left_out_stage 0) 1 cleared with Some (s, _) => s | None => cleared end.
Definition left_out_finished : Store :=
  match gotStageThree s3_keys 0 (left_out_stage 2) 2 left_out_own with Some (s, _) => s | None => cleared end.

Lemma left_out_finishes :
  reachable s3_keys 0 cleared left_out_finished /\ onStage3 0 left_out_finished = Some Finish3 /\
  valid_at [255; 0; 1] 1 /\
  exists pool, poolSignatures left_out_finished !! position [255; 0; 1] 1 = Some pool /\
    verifySignature pool (le_bytes 32 62) (le_bytes 32 1) = false.
Proof.
  split; [|split; [vm_compute; reflexivity|split; [split; [done|by exists 0]|]]].
  - apply (reach_step s3_keys 0 cleared left_out_own).
    + apply (reach_step s3_keys 0 cleared cleared); [constructor|].
      apply (step_own s3_keys 0 (left_out_stage 0) cleared left_out_own true); [done|done|done| |cbn; lia|vm_compute; reflexivity].
      exists (le_bytes 32 61). split; [done|]. split; [|split]; vm_compute; reflexivity.
    + apply (step_other s3_keys 0 (left_out_stage 2) 2 left_out_own left_out_finished true); [done|done|by right|vm_compute; reflexivity].
  - eexists. split; vm_compute; reflexivity.
Qed.

(** The third confidant finds itself in the minority. *)
Lemma own_liar_overflows_witness : gotStageThree s3_keys 2 (s3_stage 2) 1 cleared = None.
Proof.
  apply (own_liar_overflows s3_keys 2 (s3_stage 2) cleared); [done|cbn; lia|cbn; lia|repeat constructor|cbn; lia|done].
Defined.
