(* ===== verification/BlockValidator.v ===== *)
(** * The validator of blocks ([csnode/src/blockvalidator.cpp],
      [csnode/src/blockvalidatorplugins.cpp])

    When a node reads its blocks at the start, each is given to a list of
    plugins: the hash of the block before, the numbers, the time stamps, the
    signatures of the confidants and of the contracts' confidants, the balances,
    the signatures of the transactions, and the check of one account.  A plugin
    gives a kind of error, and the severity says which kinds stop the reading.

    The blocks that a plugin asks for by their number are looked up without a
    trace ([loadBlock]).  What the external executor answers, once a request
    reaches it, is an argument; the key of the account that the last plugin
    follows, decoded by the Base58 library, is an argument, and so is what the
    uninitialised balance of that plugin holds.  The log is left out. *)

From Stdlib Require Import ZArith Lia SpecFloat.
From stdpp Require Import base tactics numbers option list gmap.
From S2P Require Import Prelude Effect OrdMap BinStream Amount UserField Crypto DataStream Address Utils Transaction Packet MetaStorage Double Pool.
From S2P Require Import Database Storage ContractRef ContractState Conveyer Fee Tail WalletsIds WalletsCache BlockChain Chain Validator StageStore.

Local Open Scope Z_scope.
Local Open Scope cs_scope.

(** [BlockValidator::ErrorType] with its codes, [BlockValidator::SeverityLevel] *)
Inductive ErrorType := noError | warning | error | fatalError.
Definition error_code (e : ErrorType) : Z := match e with noError => 0 | warning => 2 | error => 4 | fatalError => 8 end.
Inductive SeverityLevel := warningsAsErrors | greaterThanWarnings | onlyFatalErrors.
Definition severity_level (s : SeverityLevel) : Z := match s with warningsAsErrors => 1 | greaterThanWarnings => 2 | onlyFatalErrors => 3 end.

(** [BlockValidator::ValidationLevel]: the bits of the flags, in the order of the map of the plugins *)
Inductive ValidationLevel :=
  | hashIntergrity | blockNum | timestamp | blockSignatures | smartSignatures | balances | transactionsSignatures | smartStates | accountBalance.
Definition level_bit (l : ValidationLevel) : Z :=
  match l with
  | hashIntergrity => 0 | blockNum => 1 | timestamp => 2 | blockSignatures => 3 | smartSignatures => 4 | balances => 5
  | transactionsSignatures => 6 | smartStates => 7 | accountBalance => 8
  end.

(** ** The account that the last plugin follows *)

(** [AccountBalanceChecker::Transaction], [ExtraFee], [Income] and [Expense], [InvalidOperation] *)
Record AccountTransaction := mkAccountTrx { at_seq : Z; at_idx : Z; at_t : Transaction }.
Inductive FeeComment := exec_fee | emitted_fee.
Record ExtraFee := mkExtraFee { fee : double; comment : FeeComment }.
Record Income := mkIncome { in_idx : Z; in_sum : double; in_extra_fee : list ExtraFee }.
Record InvalidOperation := mkInvalid { io_idx : Z; start_balance : double; io_sum : double; result_balance : double; io_extra_fee : list ExtraFee }.

(** [AccountBalanceChecker] *)
Record AccountBalanceChecker := mkAccount {
  abs_addr : Address;
  opt_addr : Address;
  all_transactions : list AccountTransaction;
  incomes : list Income;
  expenses : list Income;
  balance : double;
  invalid_ops : list InvalidOperation;
  iam_contract : bool;
  inprogress : list nat;
  balance_error : double
}.
#[export] Instance eta_account : Eta AccountBalanceChecker := fun a =>
  mkAccount (abs_addr a) (opt_addr a) (all_transactions a) (incomes a) (expenses a) (balance a) (invalid_ops a) (iam_contract a)
    (inprogress a) (balance_error a).

(** The members of [BlockValidator]: the storage of its [WalletsState], the block before, the state of the last plugin *)
Record BlockValidator := mkValidator { bv_wallets_ : gmap bytes Node; prevBlock_ : Pool.priv; bv_account : AccountBalanceChecker }.
#[export] Instance eta_validator : Eta BlockValidator := fun v => mkValidator (bv_wallets_ v) (prevBlock_ v) (bv_account v).

(** ** The request to the executor *)

Inductive MethodNameConvention := Default | PayableLegacy | Payable.
(** [ExecuteTransactionInfo] *)
Record ExecuteTransactionInfo := mkExecuteInfo {
  ei_transaction : Transaction; ei_deploy : Transaction; ei_convention : MethodNameConvention; ei_feeLimit : Amount; ei_sequence : Z
}.
(** Of [ExecuteResult], the states of each execution *)
Definition ExecuteResult : Type := list (list (Address * bytes)).
(** Whether there is an executor, and what it answers to a request with a transaction and its deployment *)
Record Executor := mkExecutor { executor_present : bool; execute_again : ExecuteTransactionInfo -> M (option ExecuteResult) }.

Module BlockValidator.

(** [return_]: whether the validation goes on *)
Definition return_ (e : ErrorType) (severity : SeverityLevel) : bool := Z.shiftr (error_code e) (severity_level severity) =? 0.

Section plugins.
Context `{!Cscrypto, !Libm} {D : Type} `{!MultiIndex D} (ids : WalletsIds D) (cache : Cache).
(** The states of the contracts in the database, the identifier of the chain, the blocks by their numbers *)
Context (get_contract_state : Address -> result bytes) (uuid : Z) (loadBlock : Z -> Pool.priv).
(** The decoder of contract invocations; whether a contract is known, when there is a solver; the executor *)
Context (invocation_method : bytes -> bytes) (known : option (Address -> bool)) (executor : Executor).
Implicit Types (block prev : Pool.priv) (t : Transaction).

(** *** [HashValidator], [BlockNumValidator], [TimestampValidator] *)

(** The hash is taken over [hashingLength()] bytes, whether there are as many or not. *)
Definition hash_validate prev block : M ErrorType :=
  let data := Pool.to_binary prev in
  if Z.of_nat (length data) <? Pool.hashingLength_ prev then None
  else
    let countedPrevHash := PoolHash.calc_from_data (take (Z.to_nat (Pool.hashingLength_ prev)) data) in
    ret (if PoolHash.op_eq (Pool.previous_hash_ block) countedPrevHash then noError else fatalError).

Definition num_validate prev block : ErrorType :=
  if u64 (Pool.sequence_ block - Pool.sequence_ prev) =? 1 then noError else error.

Definition time_validate prev block : result ErrorType :=
  let prevUf := Pool.user_field 0 prev in
  if negb (uf_is_valid prevUf) then Ok warning
  else
    let currentUf := Pool.user_field 0 block in
    if negb (uf_is_valid currentUf) then Ok warning
    else
      let! prevTimestamp := stoll (value_string prevUf) in
      let! currentTimestamp := stoll (value_string currentUf) in
      Ok (if currentTimestamp <? prevTimestamp then warning else noError).

(** *** [BlockSignaturesValidator] *)

(** The loop over the confidants from the number [i] on; [k] is [checkingSignature]. *)
Fixpoint signatures_loop (confidants : list bytes) (i : Z) (k : nat) (mask : Z) (signatures : list bytes) (signedData : bytes) : M ErrorType :=
  match confidants with
  | [] => ret noError
  | confidant :: confidants =>
      if Z.testbit mask i then
        do! signature := index signatures k in
        if verifySignature signature confidant signedData then signatures_loop confidants (i + 1) (S k) mask signatures signedData else ret error
      else signatures_loop confidants (i + 1) k mask signatures signedData
  end.
Definition signatures_validate block : M ErrorType :=
  let mask := Pool.realTrusted_ block in
  if negb (Z.of_nat (length (Pool.signatures_ block)) =? popcount mask) then ret error
  else if (64 <? length (Pool.confidants_ block))%nat then ret error
  else
    let data := Pool.to_binary block in
    if Z.of_nat (length data) <? Pool.hashingLength_ block then None
    else
      let signedData := calculateHash (take (Z.to_nat (Pool.hashingLength_ block)) data) in
      signatures_loop (Pool.confidants_ block) 0 0 mask (Pool.signatures_ block) signedData.

(** *** [SmartSourceSignaturesValidator] *)

Definition containsNewState (trxs : list Transaction) : bool := existsb Contracts.is_new_state trxs.

Definition switchCountedFee t : M Transaction :=
  do! initTrx := lift (Contracts.get_init_transaction loadBlock t) in
  if negb (Tx.is_valid initTrx) then ret t
  else
    let res := Tx.make (innerID_ t) (source_ t) (target_ t) (currency_ t) (amount_ t) (max_fee_ t) (counted_fee_ initTrx) (signature_ t) in
    ret (foldl (fun res id => (Tx.add_user_field id (Tx.user_field id t) res).2) res (Tx.user_field_ids t)).

(** The packet of a new state: the transactions after it with its source *)
Fixpoint pack_rest (switchFees : bool) (source : Address) (trxs : list Transaction) (pack : TransactionsPacket) : M TransactionsPacket :=
  match trxs with
  | [] => ret pack
  | t :: trxs =>
      if Address.op_eq (source_ t) source then
        do! t := (if switchFees then switchCountedFee t else ret t) in pack_rest switchFees source trxs (Packet.addTransaction t pack).2
      else pack_rest switchFees source trxs pack
  end.
Fixpoint grepNewStatesPacks (trxs : list Transaction) (switchFees : bool) : M (list TransactionsPacket) :=
  match trxs with
  | [] => ret []
  | t :: trxs =>
      if Contracts.is_new_state t then
        do! first := (if switchFees then switchCountedFee t else ret t) in
        do! pack := pack_rest switchFees (source_ t) trxs (Packet.addTransaction first Packet.empty).2 in
        do! res := grepNewStatesPacks trxs switchFees in
        ret ((Packet.makeHash pack).2 :: res)
      else grepNewStatesPacks trxs switchFees
  end.

Fixpoint smart_signatures_loop (signatures : list (Z * bytes)) (confidants : list bytes) (hash : bytes) : bool :=
  match signatures with
  | [] => true
  | (i, signature) :: signatures =>
      match confidants !! Z.to_nat i with
      | None => false
      | Some key => if verifySignature signature key hash then smart_signatures_loop signatures confidants hash else false
      end
  end.
Fixpoint packs_loop (sigs : list Pool.SmartSignature) (packs : list TransactionsPacket) : M bool :=
  match packs with
  | [] => ret true
  | pack :: packs =>
      do! first := index (transactions_ pack) 0 in
      match List.find (fun s => bool_decide (Address.public_key (source_ first) = Pool.smartKey s)) sigs with
      | None => ret false
      | Some it =>
          let initPool := loadBlock (Pool.smartConsensusPool it) in
          if smart_signatures_loop (Pool.smart_signatures it) (Pool.confidants_ initPool) (hash_ pack) then packs_loop sigs packs else ret false
      end
  end.
Definition checkSignatures (sigs : list Pool.SmartSignature) (smartPacks : list TransactionsPacket) : M bool :=
  if negb (length sigs =? length smartPacks)%nat then ret false else packs_loop sigs smartPacks.

Definition smart_validate block : M ErrorType :=
  let transactions := Pool.transactions_ block in
  match Pool.smartSignatures_ block with
  | [] => ret (if containsNewState transactions then error else noError)
  | sigs =>
      do! smartPacks := grepNewStatesPacks transactions (Pool.version_ block =? 0) in
      do! good := checkSignatures sigs smartPacks in
      ret (if good : bool then noError else error)
  end.

(** *** [BalanceChecker] *)

(** [WalletsState::getData] *)
Definition getData (address : Address) (wallets : gmap bytes Node) : Node * gmap bytes Node :=
  let k := Validator.pk ids address in
  match wallets !! k with
  | Some data => (data, wallets)
  | None => let data := Validator.from_cache cache k in (data, <[k := data]> wallets)
  end.

Fixpoint balances_loop (trxs : list Transaction) (wallets : gmap bytes Node) : ErrorType * gmap bytes Node :=
  match trxs with
  | [] => (noError, wallets)
  | t :: trxs =>
      let '(wallState, wallets) := getData (source_ t) wallets in
      if Amount.op_lt (node_balance_ wallState) (of_int 0) then (error, wallets) else balances_loop trxs wallets
  end.
Definition balance_validate prev (wallets : gmap bytes Node) : ErrorType * gmap bytes Node :=
  match Pool.transactions_ prev with [] => (noError, wallets) | trxs => balances_loop trxs ∅ end.

(** *** [TransactionsChecker] *)

Definition checkSignature t : bool :=
  if Address.is_wallet_id (source_ t) then Tx.verify_signature t (Address.public_key (Validator.absolute_address ids (source_ t)))
  else Tx.verify_signature t (Address.public_key (source_ t)).

(** [std::set::insert]: nothing when an element is neither before nor after the new one *)
Definition set_insert (a : Address) (l : list Address) : list Address :=
  if existsb (fun b => negb (Address.op_lt a b) && negb (Address.op_lt b a)) l then l else l ++ [a].

Fixpoint trxs_loop (trxs : list Transaction) (newStates : list Address) : ErrorType :=
  match trxs with
  | [] => noError
  | t :: trxs =>
      if Contracts.is_new_state t then trxs_loop trxs (set_insert (source_ t) newStates)
      else if existsb (fun a => Address.op_eq a (source_ t)) newStates then trxs_loop trxs newStates
      else if negb (checkSignature t) then error
      else trxs_loop trxs newStates
  end.
Definition trxs_validate block : ErrorType := trxs_loop (Pool.transactions_ block) [].

(** *** [SmartStateValidator] *)

(** [Executor::reexecuteContract]: what comes after the test drives the executor. *)
Definition reexecuteContract (info : ExecuteTransactionInfo) : M (option ExecuteResult) :=
  if negb (Tx.is_valid (ei_transaction info)) || negb (Tx.is_valid (ei_deploy info)) then ret None else execute_again executor info.

(** [is_smart] of api/src/apihandler.cpp *)
Definition is_smart t : bool := Contracts.is_string (Tx.user_field deploy_Code t).

Definition checkNewState t : M bool :=
  do! ref := lift (Ref.from_user_field (Tx.user_field new_state_RefStart t)) in
  if negb (Ref.is_valid ref) then ret false
  else
    let block := loadBlock (sequence ref) in
    if negb (Pool.is_valid_ block) then ret false
    else if negb (executor_present executor) then ret false
    else
      match Pool.transactions_ block !! Z.to_nat (transaction ref) with
      | None => ret false
      | Some transaction =>
          do! feeLimit := Double.of_double (commission_to_double (max_fee_ transaction)) in
          let convention := if negb (is_smart transaction) then PayableLegacy else Default in
          do! opt_result := reexecuteContract (mkExecuteInfo transaction Tx.default convention feeLimit (sequence ref)) in
          match opt_result with
          | None => ret false
          | Some [] => ret false
          | Some (main_result :: _) =>
              if negb (Contracts.is_state_updated t) then ret true
              else
                let abs_addr := Validator.absolute_address ids (target_ t) in
                match List.find (fun x => WalletsCache.equivalent x.1 abs_addr) main_result with
                | None => ret true
                | Some (_, state) => do! newState := lift (get_contract_state (target_ t)) in ret (bool_decide (newState = state))
                end
          end
      end.

Definition CreditsNet : Z := 11024959585341937636.
Fixpoint states_loop (trxs : list Transaction) : M ErrorType :=
  match trxs with
  | [] => ret noError
  | t :: trxs =>
      if Contracts.is_new_state t then do! good := checkNewState t in if negb good then ret error else states_loop trxs
      else states_loop trxs
  end.
Definition states_validate block : M ErrorType :=
  if (uuid =? CreditsNet) && ((Pool.sequence_ block <? 90728) || (Pool.sequence_ block <? 3302505)) then ret noError
  else states_loop (Pool.transactions_ block).

(** *** [AccountBalanceChecker] *)

Definition DBL_EPSILON : double := literal 1 (2 ^ 52).
Definition epsilon : double := literal 1 1000000.
Definition MaxRoundsCancelContract : Z := 100.
Definition dneg (x : double) : double := dopp x.

(** The account before any block; [balance] is not initialised. *)
Definition new_account (key : Address) (indeterminate : double) : AccountBalanceChecker :=
  mkAccount key default_address [] [] [] indeterminate [] false [] (of_Z 0).

Definition mine (a : AccountBalanceChecker) (addr : Address) : bool := Address.op_eq addr (opt_addr a) || Address.op_eq addr (abs_addr a).

Definition store_transaction (seq idx : Z) t (a : AccountBalanceChecker) : AccountBalanceChecker :=
  a <| all_transactions := all_transactions a ++ [mkAccountTrx seq idx (Tx.clone t)] |>.
Definition last_index (a : AccountBalanceChecker) : Z := u64 (Z.of_nat (length (all_transactions a)) - 1).

(** The first element of [inprogress] that is [idx] is erased. *)
Fixpoint erase_index (idx : nat) (l : list nat) : list nat :=
  match l with [] => [] | x :: l => if (x =? idx)%nat then l else x :: erase_index idx l end.

(** The loop over the calls in progress: those that timed out are rolled back.
    Every turn erases the front; a number past the end of the transactions
    would be read out of bounds, or never erased. *)
Fixpoint timeouts (seq : Z) (calls : list nat) (a : AccountBalanceChecker) : M AccountBalanceChecker :=
  match calls with
  | [] => ret (a <| inprogress := [] |>)
  | idx :: rest =>
      do! item := index (all_transactions a) idx in
      if (at_seq item <? seq) && (seq - at_seq item <? MaxRoundsCancelContract) then ret (a <| inprogress := calls |>)
      else
        let return_sum := Double.to_double (amount_ (at_t item)) in
        timeouts seq rest (a <| balance := dadd (balance a) return_sum |> <| incomes := incomes a ++ [mkIncome (Z.of_nat idx) return_sum []] |>)
  end.

(** [erase_inprogress]: the loop over the transactions from the number [idx] on *)
Fixpoint erase_loop (ref : SmartContractRef) (items : list AccountTransaction) (idx : nat) (calls : list nat) : list nat :=
  match items with
  | [] => calls
  | item :: items =>
      if (at_seq item =? sequence ref) && (at_idx item =? transaction ref) && existsb (Nat.eqb idx) calls then erase_index idx calls
      else erase_loop ref items (S idx) calls
  end.
Definition erase_inprogress (ref : SmartContractRef) (a : AccountBalanceChecker) : AccountBalanceChecker :=
  a <| inprogress := erase_loop ref (all_transactions a) 0 (inprogress a) |>.

(** The optimised address of the account, from the new wallets of the block *)
Fixpoint find_opt_addr (t_idx : Z) t (wallets : list Pool.NewWalletInfo) (a : AccountBalanceChecker) : AccountBalanceChecker :=
  match wallets with
  | [] => a
  | w :: wallets =>
      if negb (Pool.trxInd_ w =? t_idx) then find_opt_addr t_idx t wallets a
      else
        let found addr := if Address.op_eq addr (abs_addr a) then a <| opt_addr := Address.from_wallet_id (Pool.walletId_ w) |> else a in
        if Pool.addressType_ w =? Pool.AddressIsSource then found (source_ t)
        else if Pool.addressType_ w =? Pool.AddressIsTarget then found (target_ t)
        else find_opt_addr t_idx t wallets a
  end.

(** The call in progress that a new state rolls back: the amount and the others *)
Fixpoint rollback_call (ref : SmartContractRef) (items : list AccountTransaction) (calls : list nat) : option (Amount * list nat) :=
  match calls with
  | [] => None
  | idx :: calls =>
      let rest := match rollback_call ref items calls with Some (sum, l) => Some (sum, idx :: l) | None => None end in
      match items !! idx with
      | Some item => if (at_seq item =? sequence ref) && (at_idx item =? transaction ref) then Some (amount_ (at_t item), calls) else rest
      | None => rest
      end
  end.

(** The locals of the loop over the transactions of the block *)
Record EmittedState := mkEmitted { possible_emitted : bool; emitted_src_abs_addr : Address; emitted_src_opt_addr : Address }.
#[export] Instance eta_emitted : Eta EmittedState := fun e => mkEmitted (possible_emitted e) (emitted_src_abs_addr e) (emitted_src_opt_addr e).

(** The locals of one turn *)
Record Turn := mkTurn { new_balance : double; extra_fee : list ExtraFee; call_to_contract : bool }.
#[export] Instance eta_turn : Eta Turn := fun u => mkTurn (new_balance u) (extra_fee u) (call_to_contract u).

(** A new state, when the account is no contract *)
Definition account_new_state (seq t_idx : Z) t (u : Turn) (e : EmittedState) (a : AccountBalanceChecker) : M (Turn * EmittedState * AccountBalanceChecker) :=
  let fld := Tx.user_field new_state_RefStart t in
  if negb (uf_is_valid fld) then ret (u, e, a)
  else
    do! ref_start := lift (Ref.from_user_field fld) in
    do! starter := lift (Contracts.get_transaction loadBlock ref_start) in
    if negb (Tx.is_valid starter) || negb (mine a (source_ starter)) then ret (u, e, a)
    else
      let '(u, e, a) :=
        if negb (Contracts.is_state_updated t) then
          match rollback_call ref_start (all_transactions a) (inprogress a) with
          | Some (sum, calls) => (u <| new_balance := dadd (new_balance u) (Double.to_double sum) |>, e, a <| inprogress := calls |>)
          | None => (u, e, a)
          end
        else
          (u <| new_balance := dsub (new_balance u) (commission_to_double (counted_fee_ t)) |>,
           mkEmitted true (source_ t)
             (match WalletsIds.find (source_ t) ids with Some wid => Address.from_wallet_id wid | None => emitted_src_opt_addr e end),
           erase_inprogress ref_start (store_transaction seq t_idx t a)) in
      let fld := Tx.user_field new_state_Fee t in
      ret (if uf_is_valid fld then u <| extra_fee := extra_fee u ++ [mkExtraFee (Double.to_double (value_amount fld)) exec_fee] |> else u, e, a).

(** The part of a turn that looks at contracts *)
Definition account_contract (seq t_idx : Z) t (u : Turn) (e : EmittedState) (a : AccountBalanceChecker) : M (Turn * EmittedState * AccountBalanceChecker) :=
  if Contracts.is_smart_contract t then
    let e := e <| possible_emitted := false |> in
    let call := Contracts.is_executable t in
    let u := u <| call_to_contract := call |> in
    if call then
      ret (u, e, if negb (iam_contract a) && mine a (target_ t) && Contracts.is_deploy invocation_method t then a <| iam_contract := true |> else a)
    else if Contracts.is_new_state t && negb (iam_contract a) then account_new_state seq t_idx t u e a
    else ret (u, e, a)
  else if possible_emitted e then
    if Address.op_eq (source_ t) (emitted_src_abs_addr e) || Address.op_eq (source_ t) (emitted_src_opt_addr e) then
      ret (u <| extra_fee := extra_fee u ++ [mkExtraFee (commission_to_double (counted_fee_ t)) emitted_fee] |>, e,
           if negb (mine a (target_ t)) then store_transaction seq t_idx t a else a)
    else ret (u, e <| possible_emitted := false |>, a)
  else
    ret (match known with
         | Some is_known => if mine a (source_ t) && is_known (target_ t) then u <| call_to_contract := true |> else u
         | None => u
         end, e, a).

Definition add_call (u : Turn) (a : AccountBalanceChecker) : AccountBalanceChecker :=
  if call_to_contract u then a <| inprogress := inprogress a ++ [length (all_transactions a) - 1]%nat |> else a.

(** The account as target, then as source *)
Definition account_parties (seq t_idx : Z) t (u : Turn) (a : AccountBalanceChecker) : Turn * AccountBalanceChecker :=
  let sum := Double.to_double (amount_ t) in
  let '(u, a) :=
    if mine a (target_ t) then (u <| new_balance := dadd (balance a) sum |>, add_call u (store_transaction seq t_idx t a)) else (u, a) in
  if mine a (source_ t) then
    let rest := dsub (balance a) sum in
    let rest := if negb (iam_contract a) then dsub rest (commission_to_double (counted_fee_ t)) else rest in
    (u <| new_balance := rest |>, add_call u (store_transaction seq t_idx t a))
  else (u, a).

Definition account_finish (u : Turn) (a : AccountBalanceChecker) : AccountBalanceChecker :=
  let new_balance := foldl (fun b e => dsub b (fee e)) (new_balance u) (extra_fee u) in
  let change := dsub new_balance (balance a) in
  if dlt DBL_EPSILON (SFabs change) then
    let a :=
      if dlt new_balance (dneg DBL_EPSILON)
      then a <| invalid_ops := invalid_ops a ++ [mkInvalid (last_index a) (balance a) change new_balance (extra_fee u)] |> else a in
    let item := mkIncome (last_index a) change (extra_fee u) in
    (if dlt (balance a) new_balance then a <| incomes := incomes a ++ [item] |> else a <| expenses := expenses a ++ [item] |>) <| balance := new_balance |>
  else a.

Definition account_turn block (t_idx : Z) t (e : EmittedState) (a : AccountBalanceChecker) : M (EmittedState * AccountBalanceChecker) :=
  let a :=
    if negb (Address.is_wallet_id (opt_addr a)) && (Address.op_eq (target_ t) (abs_addr a) || Address.op_eq (source_ t) (abs_addr a))
    then find_opt_addr t_idx t (Pool.newWallets_ block) a else a in
  do! (u, e, a) := account_contract (Pool.sequence_ block) t_idx t (mkTurn (balance a) [] false) e a in
  let '(u, a) := account_parties (Pool.sequence_ block) t_idx t u a in
  ret (e, account_finish u a).

Fixpoint account_loop block (t_idx : Z) (trxs : list Transaction) (e : EmittedState) (a : AccountBalanceChecker) : M AccountBalanceChecker :=
  match trxs with
  | [] => ret a
  | t :: trxs => do! (e, a) := account_turn block t_idx t e a in account_loop block (t_idx + 1) trxs e a
  end.

Definition get_wallet_balance (a : AccountBalanceChecker) : double :=
  match WalletsCache.findWallet (Validator.pk ids (abs_addr a)) cache with Some data => Double.to_double (balance_ data) | None => of_Z 0 end.

Definition account_validate block (a : AccountBalanceChecker) : M (ErrorType * AccountBalanceChecker) :=
  do! a := timeouts (Pool.sequence_ block) (inprogress a) a in
  do! a := account_loop block 0 (Pool.transactions_ block) (mkEmitted false default_address default_address) a in
  let new_balance_error := dsub (get_wallet_balance a) (balance a) in
  ret (noError, if (length (inprogress a) =? 0)%nat && dlt epsilon (SFabs (dsub new_balance_error (balance_error a)))
                then a <| balance_error := new_balance_error |> else a).

(** *** The plugins in the order of their map *)

Definition validate_plugin (level : ValidationLevel) block (v : BlockValidator) : M (ErrorType * BlockValidator) :=
  let prev := prevBlock_ v in
  match level with
  | hashIntergrity => do! e := hash_validate prev block in ret (e, v)
  | blockNum => ret (num_validate prev block, v)
  | timestamp => do! e := lift (time_validate prev block) in ret (e, v)
  | blockSignatures => do! e := signatures_validate block in ret (e, v)
  | smartSignatures => do! e := smart_validate block in ret (e, v)
  | balances => let '(e, wallets) := balance_validate prev (bv_wallets_ v) in ret (e, v <| bv_wallets_ := wallets |>)
  | transactionsSignatures => ret (trxs_validate block, v)
  | smartStates => do! e := states_validate block in ret (e, v)
  | accountBalance => do! (e, a) := account_validate block (bv_account v) in ret (e, v <| bv_account := a |>)
  end.

Fixpoint run_plugins (plugins : list ValidationLevel) (flags : Z) (severity : SeverityLevel) block (v : BlockValidator) : M (bool * BlockValidator) :=
  match plugins with
  | [] => ret (true, v)
  | level :: plugins =>
      if Z.testbit flags (level_bit level) then
        do! (validationResult, v) := validate_plugin level block v in
        if negb (return_ validationResult severity) then ret (false, v) else run_plugins plugins flags severity block v
      else run_plugins plugins flags severity block v
  end.
End plugins.

Definition plugins : list ValidationLevel :=
  [hashIntergrity; blockNum; timestamp; blockSignatures; smartSignatures; balances; transactionsSignatures; smartStates; accountBalance].

Section validator.
Context `{!Cscrypto, !Libm} {B : Type} `{!Database B} {D : Type} `{!MultiIndex D}.
Context (begin : list PoolElement -> nat) (invocation_method : bytes -> bytes) (known : option (Address -> bool)) (executor : Executor).
Implicit Types (block : Pool.priv) (v : BlockValidator) (c : BlockChain B D).

(** [BlockValidator::validateBlock] *)
Definition validateBlock block (flags : Z) (severity : SeverityLevel) v c : M (bool * BlockValidator * BlockChain B D) :=
  if (flags =? 0) || (Pool.sequence_ block =? 0) then ret (true, v, c)
  else if negb (Pool.is_valid_ block) then ret (false, v, c)
  else
    do! (found, v, c) :=
      (if negb (Pool.is_valid_ (prevBlock_ v)) || negb (u64 (Pool.sequence_ block - Pool.sequence_ (prevBlock_ v)) =? 1) then
         do! (p, c) := BlockChain.loadBlockByHash begin (Pool.previous_hash_ block) c in
         ret (Pool.is_valid_ p, v <| prevBlock_ := p |>, c)
       else ret (true, v, c)) in
    if negb found then ret (false, v, c)
    else
      let loadBlock seq := match BlockChain.loadBlock begin seq c with Some (Ok (p, _)) => p | _ => Pool.default end in
      do! (good, v) := run_plugins (walletIds_ c) (walletsCache_ c) (fun address => ContractState.get_contract_state address (bc_storage_ c)) (uuid_ c) loadBlock invocation_method known executor plugins flags severity block v in
      ret (good, if good : bool then v <| prevBlock_ := block |> else v, c).

(** [Node::validateBlock]: whether the reading stops *)
Definition node_validateBlock (stopRequested : bool) block v c : M (bool * BlockValidator * BlockChain B D) :=
  if stopRequested then ret (true, v, c)
  else do! (good, v, c) := validateBlock block 1 onlyFatalErrors v c in ret (negb good, v, c).
End validator.
End BlockValidator.
