(* ===== verification/BlockValidatorSpec.v ===== *)
(** * What the validator of blocks promises

    A database that opens under the validator holds blocks that are linked by
    their hashes ([opened_database_is_linked]); a block that passes the plugins
    of the numbers and the signatures has the next number, the hash of the block
    before, a signature of every confidant its mask trusts, and transactions
    that their sources signed ([accepted_block_is_sound]); but the new state of a
    contract, and what follows it from the same source, passes without any
    signature when the block lists an empty set of them ([unsigned_new_state_passes]).
    The calls in progress of the followed account always point at stored
    transactions ([account_check_in_bounds]). *)

From Stdlib Require Import ZArith Lia SpecFloat.
From stdpp Require Import base tactics numbers option list gmap.
From S2P Require Import Prelude Effect OrdMap BinStream Amount UserField Crypto DataStream Address Utils Transaction Packet MetaStorage Double Pool.
From S2P Require Import Database Storage ContractRef ContractState Conveyer Fee Tail WalletsIds WalletsCache BlockChain Chain Validator StageStore BlockValidator.

Local Open Scope Z_scope.
Local Open Scope cs_scope.

Module ValidatorSpec.
Import BlockValidator.

(** [do!] with a known result *)
Ltac bind_ok H := let a := fresh "r" in let E := fresh "E" in apply mthen_ok in H as (a & E & H).

Lemma every_plugin level : level ∈ plugins.
Proof. unfold plugins. destruct level; repeat constructor. Qed.

Section plugins.
Context `{!Cscrypto, !Libm} {D : Type} `{!MultiIndex D} (ids : WalletsIds D) (cache : Cache) (get_contract_state : Address -> result bytes) (uuid : Z) (loadBlock : Z -> Pool.priv).
Context (invocation_method : bytes -> bytes) (known : option (Address -> bool)) (executor : Executor).
Implicit Types (block prev : Pool.priv) (t : Transaction) (v : BlockValidator) (a : AccountBalanceChecker).

Local Notation validate_plugin := (validate_plugin ids cache get_contract_state uuid loadBlock invocation_method known executor).
Local Notation run_plugins := (run_plugins ids cache get_contract_state uuid loadBlock invocation_method known executor).
Local Notation account_validate := (account_validate ids cache loadBlock invocation_method known).

(** *** The list of the plugins *)

Lemma validate_plugin_prev level block v e v' : validate_plugin level block v = ret (e, v') -> prevBlock_ v' = prevBlock_ v.
Proof.
  intros E. destruct level; cbn [BlockValidator.validate_plugin] in E.
  all: try (bind_ok E; try destruct r; by injection E as <- <-).
  - by injection E as <- <-.
  - destruct (balance_validate _ _ _ _) in E. by injection E as <- <-.
  - by injection E as <- <-.
Qed.

(** A plugin has let the block through. *)
Definition passed (severity : SeverityLevel) block prev (level : ValidationLevel) : Prop :=
  exists v e v', prevBlock_ v = prev /\ validate_plugin level block v = ret (e, v') /\ return_ e severity = true.

Lemma run_plugins_true plugins flags severity block v v' :
  run_plugins plugins flags severity block v = ret (true, v') ->
  prevBlock_ v' = prevBlock_ v /\
  Forall (fun level => Z.testbit flags (level_bit level) = true -> passed severity block (prevBlock_ v) level) plugins.
Proof.
  revert v. induction plugins as [|level plugins IH]; intros v E; cbn [BlockValidator.run_plugins] in E.
  - injection E as <-. by split.
  - destruct (Z.testbit flags (level_bit level)) eqn:Ebit.
    + bind_ok E. destruct r as [e v1]. destruct (return_ e severity) eqn:Er; cbn [negb] in E; [|done].
      apply IH in E as [E1 E2]. pose proof (validate_plugin_prev _ _ _ _ _ E0) as Ep. rewrite Ep in *. split; [done|].
      constructor; [|done]. intros _. by exists v, e, v1.
    + apply IH in E as [E1 E2]. split; [done|]. constructor; [congruence|done].
Qed.

(** *** The hash of the block before *)

(** [PoolHash::calc_from_data] over the hashed part *)
Definition counted_hash p : bytes := PoolHash.calc_from_data (take (Z.to_nat (Pool.hashingLength_ p)) (Pool.to_binary p)).

Lemma hash_validate_ok prev block e : hash_validate prev block = ret e -> e <> fatalError -> Pool.previous_hash_ block = counted_hash prev.
Proof.
  unfold hash_validate. destruct (_ <? _); [done|]. intros E Hne. destruct (PoolHash.op_eq _ _) eqn:Eq.
  - by apply bool_decide_eq_true in Eq.
  - injection E as <-. done.
Qed.

Lemma passed_hash severity block prev : passed severity block prev hashIntergrity -> Pool.previous_hash_ block = counted_hash prev.
Proof.
  intros (v & e & v' & <- & E & Hr). cbn [BlockValidator.validate_plugin] in E. bind_ok E. injection E as <- _.
  eapply hash_validate_ok; [exact E0|]. intros ->. by destruct severity.
Qed.

Lemma passed_number severity block prev :
  severity <> onlyFatalErrors -> passed severity block prev blockNum -> u64 (Pool.sequence_ block - Pool.sequence_ prev) = 1.
Proof.
  intros Hs (v & e & v' & <- & E & Hr). cbn [BlockValidator.validate_plugin] in E. injection E as <- _. unfold num_validate in Hr.
  destruct (u64 _ =? 1) eqn:Eq; [by apply Z.eqb_eq|]. by destruct severity.
Qed.

(** *** The signatures of the confidants *)

(** The confidants whose bit is set *)
Fixpoint signers (confidants : list bytes) (i : Z) (mask : Z) : list bytes :=
  match confidants with
  | [] => []
  | key :: confidants => if Z.testbit mask i then key :: signers confidants (i + 1) mask else signers confidants (i + 1) mask
  end.

Lemma signatures_loop_ok confidants i k mask signatures data :
  signatures_loop confidants i k mask signatures data = ret noError ->
  forall j key, signers confidants i mask !! j = Some key ->
    exists signature, signatures !! (k + j)%nat = Some signature /\ verifySignature signature key data = true.
Proof.
  revert i k. induction confidants as [|confidant confidants IH]; intros i k E; [done|]. cbn [signatures_loop signers] in *.
  destruct (Z.testbit mask i); [|by apply IH].
  bind_ok E. unfold index in E0. destruct (signatures !! k) as [s|] eqn:Es; [|done]. injection E0 as ->.
  destruct (verifySignature r confidant data) eqn:Ev; [|done]. intros [|j] key Hj.
  - injection Hj as <-. exists r. by rewrite Nat.add_0_r.
  - replace (k + S j)%nat with (S k + j)%nat by lia. by apply (IH _ _ E).
Qed.

(** No confidant more is trusted than the mask has bits. *)
Lemma signers_count confidants i n mask :
  0 <= i -> Z.of_nat (length confidants) <= Z.of_nat n -> Z.of_nat (length (signers confidants i mask)) <= popcount_n n (mask / 2 ^ i).
Proof.
  revert i n. induction confidants as [|key confidants IH]; intros i n Hi Hn; cbn [signers length] in *.
  - pose proof (popcount_n_range n (mask / 2 ^ i)). lia.
  - destruct n as [|n]; [lia|]. cbn [popcount_n]. specialize (IH (i + 1) n ltac:(lia) ltac:(lia)).
    rewrite Z.div_div in * by (try apply Z.pow_nonzero; lia). replace (2 ^ i * 2) with (2 ^ (i + 1)) by (rewrite Z.pow_add_r; lia).
    destruct (Z.testbit mask i) eqn:Eb; [apply Z.testbit_true in Eb|apply Z.testbit_false in Eb]; cbn [length]; lia.
Qed.

Lemma signatures_loop_total confidants i k mask signatures data :
  (k + length (signers confidants i mask) <= length signatures)%nat ->
  exists e, signatures_loop confidants i k mask signatures data = ret e.
Proof.
  revert i k. induction confidants as [|confidant confidants IH]; intros i k Hl; [by eexists|]. cbn [signatures_loop signers] in *.
  destruct (Z.testbit mask i); [|by apply IH]. cbn [length] in Hl.
  destruct (lookup_lt_is_Some_2 signatures k ltac:(lia)) as [s Es]. unfold index. rewrite Es. cbn [mthen ret].
  destruct (verifySignature _ _ _); [|by eexists]. apply IH. lia.
Qed.

Definition signed_hash p : bytes := calculateHash (take (Z.to_nat (Pool.hashingLength_ p)) (Pool.to_binary p)).

(** Every confidant that the mask trusts signed the block. *)
Definition fully_signed p : Prop :=
  Z.of_nat (length (Pool.signatures_ p)) = popcount (Pool.realTrusted_ p) /\ (length (Pool.confidants_ p) <= 64)%nat /\
  forall j key, signers (Pool.confidants_ p) 0 (Pool.realTrusted_ p) !! j = Some key ->
    exists signature, Pool.signatures_ p !! j = Some signature /\ verifySignature signature key (signed_hash p) = true.

Lemma signatures_validate_ok p : signatures_validate p = ret noError -> fully_signed p.
Proof.
  unfold signatures_validate. destruct (Z.eqb_spec (Z.of_nat (length (Pool.signatures_ p))) (popcount (Pool.realTrusted_ p))) as [Hn|]; [|done]. cbn [negb].
  destruct (64 <? length (Pool.confidants_ p))%nat eqn:Hl; [done|]. apply Nat.ltb_ge in Hl. destruct (_ <? _); [done|]. intros E.
  split; [done|]. split; [done|]. intros j key Hj. by destruct (signatures_loop_ok _ _ _ _ _ _ E j key Hj) as (s & Hs & Hv); exists s.
Qed.

(** The signatures are never read past their end. *)
Lemma signatures_validate_total p : Pool.hashingLength_ p <= Z.of_nat (length (Pool.to_binary p)) -> exists e, signatures_validate p = ret e.
Proof.
  intros Hb. unfold signatures_validate. destruct (Z.eqb_spec (Z.of_nat (length (Pool.signatures_ p))) (popcount (Pool.realTrusted_ p))) as [Hn|]; [|by eexists].
  cbn [negb]. destruct (64 <? length (Pool.confidants_ p))%nat eqn:Hl; [by eexists|]. apply Nat.ltb_ge in Hl.
  destruct (Z.ltb_spec (Z.of_nat (length (Pool.to_binary p))) (Pool.hashingLength_ p)); [lia|]. apply signatures_loop_total.
  pose proof (signers_count (Pool.confidants_ p) 0 64 (Pool.realTrusted_ p) ltac:(lia) ltac:(lia)) as Hc.
  rewrite Z.pow_0_r, Z.div_1_r in Hc. unfold popcount in Hn. lia.
Qed.

Lemma passed_signatures severity p prev : severity <> onlyFatalErrors -> passed severity p prev blockSignatures -> fully_signed p.
Proof.
  intros Hs (v & e & v' & _ & E & Hr). cbn [BlockValidator.validate_plugin] in E. bind_ok E. injection E as -> _.
  apply signatures_validate_ok. rewrite E0. f_equal. f_equal. unfold signatures_validate in E0.
  assert (e = noError \/ e = error) as [->| ->]; [|done|by destruct severity].
  repeat (case_match; [by injection E0 as <-; auto|]). case_match; [done|]. clear -E0. revert E0. generalize 0, 0%nat.
  induction (Pool.confidants_ p) as [|key confidants IH]; intros i k E; cbn [signatures_loop] in E; [injection E as <-; by left|].
  destruct (Z.testbit _ _); [|by eapply IH]. bind_ok E. destruct (verifySignature _ _ _); [by eapply IH|]. injection E as <-. by right.
Qed.

(** *** The signatures of the transactions *)

(** A new state before the [i]th transaction has its source. *)
Definition follows_new_state (trxs : list Transaction) (i : nat) t : Prop :=
  exists j u, (j < i)%nat /\ trxs !! j = Some u /\ Contracts.is_new_state u = true /\ Address.op_eq (source_ u) (source_ t) = true.

Lemma set_insert_elem x y l : x ∈ set_insert y l -> x = y \/ x ∈ l.
Proof. unfold set_insert. case_match; [by right|]. rewrite elem_of_app, list_elem_of_singleton. tauto. Qed.

Lemma trxs_loop_ok before trxs states :
  (forall x, x ∈ states -> exists j u, before !! j = Some u /\ Contracts.is_new_state u = true /\ source_ u = x) ->
  trxs_loop ids trxs states = noError ->
  forall i t, trxs !! i = Some t -> Contracts.is_new_state t = false -> ~ follows_new_state (before ++ trxs) (length before + i) t ->
    checkSignature ids t = true.
Proof.
  revert before states. induction trxs as [|t trxs IH]; intros before states Hs E i u Hi Hu Hn; [done|]. cbn [trxs_loop] in E.
  assert (forall states', (forall x, x ∈ states' -> x = source_ t /\ Contracts.is_new_state t = true \/ x ∈ states) -> trxs_loop ids trxs states' = noError ->
    forall i' , i = S i' -> checkSignature ids u = true) as Hrest.
  { intros states' Hs' E' i' ->. eapply (IH (before ++ [t]) states'); [|done..|].
    - intros x [[-> Hst]|(j & w & Hj & ?)%Hs]%Hs'.
      + exists (length before), t. by rewrite lookup_app_r, Nat.sub_diag by lia.
      + exists j, w. split; [|done]. by apply lookup_app_l_Some.
    - rewrite <- app_assoc, length_app. cbn [app length]. by replace (length before + 1 + i')%nat with (length before + S i')%nat by lia. }
  destruct (Contracts.is_new_state t) eqn:Est.
  - destruct i as [|i]; [injection Hi as ->; congruence|]. eapply Hrest; [|exact E|done]. intros x [->|]%set_insert_elem; tauto.
  - destruct (existsb _ states) eqn:Ex.
    + destruct i as [|i]; [|by eapply Hrest; [|exact E|done]; auto]. injection Hi as ->. exfalso. apply Hn.
      apply existsb_exists in Ex as (x & Hx%list_elem_of_In & Eq). apply Hs in Hx as (j & w & Hj & Hw & <-).
      exists j, w. pose proof (lookup_lt_Some _ _ _ Hj). split; [lia|]. split; [by apply lookup_app_l_Some|done].
    + destruct (checkSignature ids t) eqn:Ec; [|done]. destruct i as [|i]; [by injection Hi as ->|]. by eapply Hrest; [|exact E|done]; auto.
Qed.

(** Every transaction that is no new state and follows none of its source is signed by it. *)
Definition transactions_signed p : Prop :=
  forall i t, Pool.transactions_ p !! i = Some t -> Contracts.is_new_state t = false -> ~ follows_new_state (Pool.transactions_ p) i t ->
    checkSignature ids t = true.

Lemma passed_transactions severity p prev : severity <> onlyFatalErrors -> passed severity p prev transactionsSignatures -> transactions_signed p.
Proof.
  intros Hs (v & e & v' & _ & E & Hr). cbn [BlockValidator.validate_plugin] in E. injection E as <- _.
  assert (forall trxs states, trxs_loop ids trxs states = noError \/ trxs_loop ids trxs states = error) as Hcases.
  { clear. intros trxs. induction trxs as [|t trxs IH]; intros states; cbn [trxs_loop]; [by left|]. repeat (case_match; auto). }
  intros i t Hi. destruct (Hcases (Pool.transactions_ p) []) as [E|E]; [|unfold trxs_validate in Hr; rewrite E in Hr; by destruct severity].
  eapply (trxs_loop_ok [] _ []); [|exact E|exact Hi]. by intros x Hx%elem_of_nil.
Qed.

(** *** The request of the states' plugin *)

(** The plugin never sets the deployment, and a transaction without any data counts as valid: the
    executor is asked with it. *)
Lemma empty_deployment_is_executed info :
  Tx.is_valid (ei_transaction info) = true -> ei_deploy info = Tx.default -> reexecuteContract executor info = execute_again executor info.
Proof. unfold reexecuteContract. by intros -> ->. Qed.

(** *** The calls in progress of the followed account *)

(** Neither undefined nor with a result that breaks [P] *)
Definition safe {A} (P : A -> Prop) (m : M A) : Prop := exists r, m = Some r /\ forall x, r = Ok x -> P x.

Lemma safe_ret {A} (P : A -> Prop) x : P x -> safe P (ret x).
Proof. intros Hok. exists (Ok x). split; [done|]. by intros y [= <-]. Qed.

Lemma safe_bind {A B} (P : A -> Prop) (Q : B -> Prop) m k : safe P m -> (forall x, P x -> safe Q (k x)) -> safe Q (mthen m k).
Proof. intros (r & -> & Hr) Hk. destruct r as [x|ex]; cbn [mthen]; [by apply Hk, Hr|]. by exists (Throw ex). Qed.

Lemma safe_lift {A B} (Q : B -> Prop) (r : result A) k : (forall x, safe Q (k x)) -> safe Q (mthen (lift r) k).
Proof. intros Hk. apply (safe_bind (fun _ => True)); [by exists r|auto]. Qed.

Definition calls_ok a : Prop := Forall (fun idx => (idx < length (all_transactions a))%nat) (inprogress a).

Lemma calls_ok_frame a a' : calls_ok a -> all_transactions a' = all_transactions a -> inprogress a' ⊆ inprogress a -> calls_ok a'.
Proof. unfold calls_ok. rewrite !Forall_forall. intros Hok -> Hs idx Hi. by apply Hok, Hs. Qed.

Lemma calls_ok_store seq idx t a : calls_ok a -> calls_ok (store_transaction seq idx t a).
Proof. unfold calls_ok. cbn. intros Hok. eapply Forall_impl; [exact Hok|]. intros i Hi. cbn in *. rewrite length_app. lia. Qed.

Lemma calls_ok_add u seq idx t a : calls_ok a -> calls_ok (add_call u (store_transaction seq idx t a)).
Proof.
  intros Hok%(calls_ok_store seq idx t). unfold add_call. case_match; [|done]. unfold calls_ok. cbn [upd all_transactions inprogress].
  apply Forall_app. split; [done|]. apply Forall_singleton. cbn. rewrite length_app. cbn. lia.
Qed.

Lemma timeouts_safe seq calls a :
  Forall (fun idx => (idx < length (all_transactions a))%nat) calls -> safe calls_ok (timeouts seq calls a).
Proof.
  revert a. induction calls as [|idx calls IH]; intros a Hok; cbn [timeouts].
  - apply safe_ret. by constructor.
  - apply Forall_cons in Hok as [Hi Hok]. destruct (lookup_lt_is_Some_2 _ _ Hi) as [item E]. unfold index. rewrite E. cbn [mthen ret].
    case_match; [|by apply IH]. apply safe_ret. by constructor.
Qed.

Lemma erase_index_subset idx l : erase_index idx l ⊆ l.
Proof.
  induction l as [|x l IH]; cbn [erase_index]; [done|]. case_match; [intros y; by right|]. by apply list_subseteq_skip.
Qed.

Lemma erase_loop_subset ref items idx calls : erase_loop ref items idx calls ⊆ calls.
Proof. revert idx. induction items as [|item items IH]; intros idx; cbn [erase_loop]; [done|]. case_match; [apply erase_index_subset|apply IH]. Qed.

Lemma rollback_call_subset ref items calls sum rest : rollback_call ref items calls = Some (sum, rest) -> rest ⊆ calls.
Proof.
  revert sum rest. induction calls as [|idx calls IH]; intros sum rest E; cbn [rollback_call] in E; [done|].
  assert (match rollback_call ref items calls with Some (s, l) => Some (s, idx :: l) | None => None end = Some (sum, rest) -> rest ⊆ idx :: calls) as Hr.
  { destruct (rollback_call ref items calls) as [[s l]|] eqn:Er; [|done]. intros [= _ <-]. by apply list_subseteq_skip, (IH _ _ eq_refl). }
  destruct (items !! idx); [|by apply Hr]. destruct (_ && _) in E; [|by apply Hr]. injection E as _ <-. by intros x; right.
Qed.

Lemma find_opt_addr_frame t_idx t wallets a :
  all_transactions (find_opt_addr t_idx t wallets a) = all_transactions a /\ inprogress (find_opt_addr t_idx t wallets a) = inprogress a.
Proof. induction wallets as [|w wallets IH]; cbn [find_opt_addr]; [done|]. by repeat case_match. Qed.

Local Notation third := (fun r : Turn * EmittedState * AccountBalanceChecker => calls_ok r.2).

Lemma account_new_state_safe seq t_idx t u e a : calls_ok a -> safe third (account_new_state ids loadBlock seq t_idx t u e a).
Proof.
  intros Hok. unfold account_new_state. case_match; [by apply safe_ret|]. apply safe_lift. intros ref. apply safe_lift. intros starter.
  case_match; [by apply safe_ret|]. destruct (negb (Contracts.is_state_updated t)); [destruct (rollback_call _ _ _) as [[sum calls]|] eqn:Er|]; apply safe_ret; cbn [snd].
  - apply (calls_ok_frame a); [done..|]. by eapply rollback_call_subset.
  - done.
  - unfold erase_inprogress. apply (calls_ok_frame (store_transaction seq t_idx t a)); [by apply calls_ok_store|done|]. apply erase_loop_subset.
Qed.

Lemma account_contract_safe seq t_idx t u e a : calls_ok a -> safe third (account_contract ids loadBlock invocation_method known seq t_idx t u e a).
Proof.
  intros Hok. unfold account_contract. destruct (Contracts.is_smart_contract t).
  - destruct (Contracts.is_executable t); [apply safe_ret; cbn [snd]; by case_match|]. case_match; [by apply account_new_state_safe|by apply safe_ret].
  - destruct (possible_emitted e); [|by apply safe_ret]. case_match; apply safe_ret; [|done]. cbn [snd]. case_match; [by apply calls_ok_store|done].
Qed.

Lemma account_parties_ok seq t_idx t u a : calls_ok a -> calls_ok (account_parties seq t_idx t u a).2.
Proof.
  intros Hok. unfold account_parties. destruct (mine a (target_ t)).
  - case_match; cbn [snd]; [apply calls_ok_add|]; by apply calls_ok_add.
  - case_match; cbn [snd]; [by apply calls_ok_add|done].
Qed.

Lemma account_finish_ok u a : calls_ok a -> calls_ok (account_finish u a).
Proof. intros Hok. unfold account_finish. case_match; [|done]. by repeat case_match. Qed.

Lemma account_loop_safe block t_idx trxs e a : calls_ok a -> safe calls_ok (account_loop ids loadBlock invocation_method known block t_idx trxs e a).
Proof.
  revert t_idx e a. induction trxs as [|t trxs IH]; intros t_idx e a Hok; cbn [account_loop]; [by apply safe_ret|].
  eapply (safe_bind (fun r => calls_ok r.2)); [|intros [e' a'] Ha; by apply IH]. unfold account_turn.
  set (a0 := if _ && _ then _ else a). assert (calls_ok a0) as Ha0.
  { subst a0. case_match; [|done]. destruct (find_opt_addr_frame t_idx t (Pool.newWallets_ block) a) as [E1 E2]. eapply calls_ok_frame; [done..|by rewrite E2]. }
  clearbody a0. eapply safe_bind; [by apply account_contract_safe|]. intros [[u e'] a1] H1. cbn [snd] in H1.
  pose proof (account_parties_ok (Pool.sequence_ block) t_idx t u a1 H1) as H2. destruct (account_parties _ _ _ _ _) as [u' a2].
  apply safe_ret. by apply account_finish_ok.
Qed.

Lemma account_validate_safe block a : calls_ok a -> safe (fun r => calls_ok r.2) (account_validate block a).
Proof.
  intros Hok. unfold BlockValidator.account_validate. eapply safe_bind; [by apply timeouts_safe|]. intros a1 H1.
  eapply safe_bind; [by apply account_loop_safe|]. intros a2 H2. apply safe_ret. cbn [snd]. by case_match.
Qed.
(** *** A new state that nobody signed *)

Lemma pack_rest_plain switchFees source trxs pack :
  switchFees = false -> exists l, pack_rest loadBlock switchFees source trxs pack = ret (pack <| transactions_ := transactions_ pack ++ l |>).
Proof.
  intros ->. revert pack. induction trxs as [|t trxs IH]; intros pack; cbn [pack_rest].
  - exists []. rewrite app_nil_r. by destruct pack.
  - destruct (Address.op_eq _ _); [|apply IH]. cbn [mthen ret]. unfold Packet.addTransaction. destruct (_ || _); cbn [snd]; [apply IH|].
    destruct (IH (pack <| transactions_ := transactions_ pack ++ [t] |>)) as [l ->]. exists (t :: l). cbn [upd transactions_]. by rewrite <- app_assoc.
Qed.

Lemma grep_plain trxs switchFees : Forall (fun t => Contracts.is_new_state t = false) trxs -> grepNewStatesPacks loadBlock trxs switchFees = ret [].
Proof. induction 1 as [|t trxs Ht _ IH]; cbn [grepNewStatesPacks]; [done|]. by rewrite Ht. Qed.

Lemma new_state_valid t : Contracts.is_new_state t = true -> Tx.is_valid t = true.
Proof. unfold Contracts.is_new_state. by destruct (Tx.is_valid t). Qed.

Lemma transactions_makeHash pack : transactions_ (Packet.makeHash pack).2 = transactions_ pack.
Proof. unfold Packet.makeHash. by destruct (Packet.isHashEmpty pack). Qed.

Lemma empty_signatures_pass t l pack pool :
  transactions_ pack = t :: l -> checkSignatures loadBlock [Pool.mkSmartSignature (Address.public_key (source_ t)) pool []] [pack] = ret true.
Proof.
  intros E. unfold checkSignatures. cbn [length Nat.eqb negb packs_loop]. rewrite E. cbn [index lookup list_lookup mthen ret List.find Pool.smartKey].
  by rewrite bool_decide_true.
Qed.

(** The signatures of a contract's confidants are checked one by one, their number is not: a new
    state passes, with all that follows it from its source, signed by nobody, when the block names
    the contract with an empty list. *)
Theorem unsigned_new_state_passes block t trxs pool :
  Pool.version_ block <> 0 -> Pool.transactions_ block = t :: trxs -> Contracts.is_new_state t = true ->
  Forall (fun u => Contracts.is_new_state u = false /\ Address.op_eq (source_ t) (source_ u) = true) trxs ->
  Pool.smartSignatures_ block = [Pool.mkSmartSignature (Address.public_key (source_ t)) pool []] ->
  smart_validate loadBlock block = ret noError /\ trxs_validate ids block = noError.
Proof.
  intros Hv%Z.eqb_neq Ht Hst Hrest Hsig. split.
  - unfold smart_validate. rewrite Hsig, Ht, Hv. cbn [grepNewStatesPacks]. rewrite Hst. cbn [mthen ret].
    unfold Packet.addTransaction. rewrite (new_state_valid _ Hst). cbn [negb orb Packet.empty Packet.isHashEmpty].
    match goal with |- context [pack_rest _ _ _ _ ?p] => destruct (pack_rest_plain false (source_ t) trxs p eq_refl) as [l ->] end. cbn [mthen ret].
    rewrite grep_plain by (eapply Forall_impl; [exact Hrest|by intros u [? _]]). cbn [mthen ret].
    rewrite (empty_signatures_pass t l) by (by rewrite transactions_makeHash). done.
  - unfold trxs_validate. rewrite Ht. cbn [trxs_loop]. rewrite Hst. unfold set_insert. cbn [existsb app].
    clear -Hrest. induction Hrest as [|u trxs [Hu Hs] _ IH]; cbn [trxs_loop]; [done|]. rewrite Hu. cbn [existsb]. by rewrite Hs.
Qed.
End plugins.

(** *** The account over many blocks *)
Section account.
Context `{!Cscrypto, !Libm} {D : Type} `{!MultiIndex D}.

(** What the plugin sees of the node at a block *)
Record View := mkView {
  view_ids : WalletsIds D; view_cache : Cache; view_load : Z -> Pool.priv;
  view_method : bytes -> bytes; view_known : option (Address -> bool)
}.

Definition follow (blocks : list (View * Pool.priv)) (a : AccountBalanceChecker) : M AccountBalanceChecker :=
  mfold (fun x a =>
    do! r := account_validate (view_ids x.1) (view_cache x.1) (view_load x.1) (view_method x.1) (view_known x.1) x.2 a in ret r.2) blocks a.

(** C28: The check of the followed account reads no transaction out of bounds: over any blocks,
    from the account as it is made, it is defined, and the calls in progress are numbers of
    transactions that were stored; that the test of the source admits one number more never
    matters. *)
Theorem account_check_in_bounds key indeterminate blocks :
  exists r, follow blocks (new_account key indeterminate) = Some r /\
    forall a idx, r = Ok a -> idx ∈ inprogress a -> (idx < length (all_transactions a))%nat.
Proof.
  assert (forall a, calls_ok a -> safe calls_ok (follow blocks a)) as Hsafe.
  { induction blocks as [|x blocks IH]; intros a Ha; [by apply safe_ret|]. cbn [follow mfold].
    eapply safe_bind; [|exact IH]. eapply safe_bind; [by apply account_validate_safe|]. intros r Hr. by apply safe_ret. }
  destruct (Hsafe (new_account key indeterminate)) as (r & E & Hr); [by constructor|]. exists r. split; [done|].
  intros a idx Ea. apply Hr in Ea. unfold calls_ok in Ea. rewrite Forall_forall in Ea. apply Ea.
Qed.
End account.

(** *** The validator on a chain *)
Section validator.
Context `{!Cscrypto, !Libm} {B : Type} `{!Database B} {D : Type} `{!MultiIndex D}.
Context (begin : list PoolElement -> nat) (invocation_method : bytes -> bytes) (known : option (Address -> bool)) (executor : Executor).
Implicit Types (block p q : Pool.priv) (v : BlockValidator) (c : BlockChain B D) (s : Storage B).

Local Notation validateBlock := (validateBlock begin invocation_method known executor).
Local Notation node_validateBlock := (node_validateBlock begin invocation_method known executor).

Lemma load_keeps_ids ph c p c' : BlockChain.loadBlockByHash begin ph c = ret (p, c') -> walletIds_ c' = walletIds_ c /\ walletsCache_ c' = walletsCache_ c /\ uuid_ c' = uuid_ c.
Proof.
  unfold BlockChain.loadBlockByHash. case_match; [by intros [= _ <-]|]. intros E. bind_ok E. destruct r as [h d]. case_match; [by injection E as _ <-|].
  bind_ok E. destruct r as [q s]. by injection E as _ <-.
Qed.

(** The block that a block is compared with *)
Definition compared block v c prev : Prop :=
  prev = prevBlock_ v \/ exists c1, BlockChain.loadBlockByHash begin (Pool.previous_hash_ block) c = ret (prev, c1).

Lemma validateBlock_true block flags severity v c v' c' :
  validateBlock block flags severity v c = ret (true, v', c') -> flags <> 0 -> Pool.sequence_ block <> 0 ->
  prevBlock_ v' = block /\ Pool.is_valid_ block = true /\ exists prev states load,
    compared block v c prev /\ Pool.is_valid_ prev = true /\
    (Pool.is_valid_ (prevBlock_ v) = true -> u64 (Pool.sequence_ block - Pool.sequence_ (prevBlock_ v)) = 1 -> prev = prevBlock_ v) /\
    Forall (fun level => Z.testbit flags (level_bit level) = true ->
      passed (walletIds_ c) (walletsCache_ c) states (uuid_ c) load invocation_method known executor severity block prev level) plugins.
Proof.
  intros E Hf%Z.eqb_neq Hs%Z.eqb_neq. unfold BlockValidator.validateBlock in E. rewrite Hf, Hs in E. cbn [orb] in E.
  destruct (Pool.is_valid_ block) eqn:Hv; [|done]. cbn [negb] in E. bind_ok E. destruct r as [[found v1] c1].
  destruct found; [|done]. cbn [negb] in E. bind_ok E. destruct r as [good v2]. destruct good; [|done]. injection E as <- <-.
  apply run_plugins_true in E1 as [Ep Hall]. split; [done|]. split; [done|]. exists (prevBlock_ v1). do 2 eexists.
  destruct (Pool.is_valid_ (prevBlock_ v)) eqn:Hpv; [destruct (u64 _ =? 1) eqn:Hn in E0|]; cbn [negb orb] in E0.
  - injection E0 as <- <-. split; [by left|]. split; [done|]. by split.
  - bind_ok E0. destruct r as [p c2]. injection E0 as Hp <- <-. cbn [upd prevBlock_] in Hall |- *. destruct (load_keeps_ids _ _ _ _ E) as (<- & <- & <-).
    split; [right; by exists c2|]. split; [done|]. split; [|exact Hall]. intros _ Hn1. by rewrite Hn1 in Hn.
  - bind_ok E0. destruct r as [p c2]. injection E0 as Hp <- <-. cbn [upd prevBlock_] in Hall |- *. destruct (load_keeps_ids _ _ _ _ E) as (<- & <- & <-).
    split; [right; by exists c2|]. split; [done|]. by split.
Qed.

(** C8: A block that validateBlock accepts with the plugins of the hash, the numbers and the
    signatures, at a severity at which errors count, follows a valid block, the last one that was
    accepted or the one that its own hash names: it has the next number and that block's hash,
    there are as many signatures as its mask has bits, every confidant the mask trusts signed it,
    and every transaction that is no new state, and follows none of its source, is signed by its
    source. *)
Theorem accepted_block_is_sound block flags severity v c v' c' :
  validateBlock block flags severity v c = ret (true, v', c') -> severity <> onlyFatalErrors -> Pool.sequence_ block <> 0 ->
  Forall (fun level => Z.testbit flags (level_bit level) = true) [hashIntergrity; blockNum; blockSignatures; transactionsSignatures] ->
  prevBlock_ v' = block /\ Pool.is_valid_ block = true /\
  (exists prev, compared block v c prev /\ Pool.is_valid_ prev = true /\ u64 (Pool.sequence_ block - Pool.sequence_ prev) = 1 /\
    Pool.previous_hash_ block = counted_hash prev) /\
  fully_signed block /\ transactions_signed (walletIds_ c) block.
Proof.
  intros E Hsev Hseq Hflags. rewrite !Forall_cons in Hflags. destruct Hflags as (F1 & F2 & F3 & F4 & _).
  assert (flags <> 0) as Hf by (intros ->; by rewrite Z.testbit_0_l in F1).
  destruct (validateBlock_true _ _ _ _ _ _ _ E Hf Hseq) as (Hprev & Hv & prev & states & load & Hcmp & Hpv & _ & Hall).
  rewrite Forall_forall in Hall. assert (forall level, Z.testbit flags (level_bit level) = true ->
    passed (walletIds_ c) (walletsCache_ c) states (uuid_ c) load invocation_method known executor severity block prev level) as Hpass by auto using every_plugin.
  split; [done|]. split; [done|]. split; [exists prev; split_and!; try done|].
  - eapply passed_number; [done|]. by apply Hpass.
  - eapply passed_hash. by apply Hpass.
  - split.
    + eapply passed_signatures; [done|]. by apply Hpass.
    + eapply passed_transactions; [done|]. by apply Hpass.
Qed.

(** *** The reading at the start *)

(** The receivers of a block that is read: the others, with a state of theirs, and
    [Node::validateBlock], which looks at the chain as it is then; one of them may stop. *)
Definition reading {T} (others : Pool.priv -> T -> M (bool * T)) (chain : Pool.priv -> T -> BlockChain B D) (stopRequested : bool)
  p (t : T * BlockValidator) : M (bool * (T * BlockValidator)) :=
  do! (stop, t') := others p t.1 in
  do! (failed, v, _) := node_validateBlock stopRequested p t.2 (chain p t') in
  ret (stop || failed, (t', v)).

Lemma reading_goes_on {T} others (chain : Pool.priv -> T -> BlockChain B D) stopRequested p t t' :
  reading others chain stopRequested p t = ret (false, t') -> Pool.sequence_ p <> 0 ->
  prevBlock_ t'.2 = p /\ Pool.is_valid_ p = true /\
  (Pool.is_valid_ (prevBlock_ t.2) = true -> u64 (Pool.sequence_ p - Pool.sequence_ (prevBlock_ t.2)) = 1 ->
    Pool.previous_hash_ p = counted_hash (prevBlock_ t.2)).
Proof.
  unfold reading. intros E Hs. bind_ok E. destruct r as [stop t1]. bind_ok E. destruct r as [[failed v1] c1]. injection E as Hstop <-.
  apply orb_false_iff in Hstop as [_ ->]. unfold BlockValidator.node_validateBlock in E1. destruct stopRequested; [done|].
  bind_ok E1. destruct r as [[good v2] c2]. injection E1 as Hg <- <-. destruct good; [|done]. cbn [snd].
  destruct (validateBlock_true _ _ _ _ _ _ _ E ltac:(done) Hs) as (Hprev & Hv & prev & states & load & _ & _ & Hsame & Hall).
  split; [done|]. split; [done|]. intros Hpv Hn. rewrite <- (Hsame Hpv Hn). eapply passed_hash.
  rewrite Forall_forall in Hall. apply Hall; [apply every_plugin|done].
Qed.

(** A block of the database, as the receivers get it *)
Definition item_block (item : Z * bytes) p : Prop := exists q h, Pool.from_binary item.2 = Some q /\ Pool.hash q = Some (h, p).

(** The two blocks of successive items are linked, unless the first is the genesis. *)
Definition items_linked (items : list (Z * bytes)) : Prop :=
  forall i x y p q, items !! i = Some x -> items !! S i = Some y -> item_block x p -> item_block y q ->
    Pool.sequence_ p <> 0 -> Pool.sequence_ q <> 0 -> u64 (Pool.sequence_ q - Pool.sequence_ p) = 1 -> Pool.previous_hash_ q = counted_hash p.

Lemma item_block_det x p q : item_block x p -> item_block x q -> p = q.
Proof. intros (p1 & h1 & E1 & E2) (q1 & h2 & E3 & E4). congruence. Qed.

Lemma rescan_linked {T} others (chain : Pool.priv -> T -> BlockChain B D) stopRequested callback items progress s t s' t' :
  Storage.rescan_loop begin (reading others chain stopRequested) callback items progress s t = ret (true, s', t') ->
  items_linked items /\
  forall x p, items !! 0%nat = Some x -> item_block x p -> Pool.sequence_ p <> 0 -> Pool.is_valid_ (prevBlock_ t.2) = true ->
    u64 (Pool.sequence_ p - Pool.sequence_ (prevBlock_ t.2)) = 1 -> Pool.previous_hash_ p = counted_hash (prevBlock_ t.2).
Proof.
  revert progress s t. induction items as [|x items IH]; intros progress s t E; [by split; [intros i ? ? ? ? [=]|]|].
  destruct x as [key value]. cbn [Storage.rescan_loop] in E. bind_ok E. destruct (Pool.is_valid_ r) eqn:Hv; [|done]. cbn [negb] in E.
  bind_ok E. destruct r0 as [h p]. bind_ok E. destruct r0 as [failed t1]. destruct failed; [done|]. destruct (callback _); [done|].
  assert (item_block (key, value) p) as Hp.
  { exists r, h. cbn [snd]. unfold defined in E0, E1. destruct (Pool.from_binary value); [|done]. destruct (Pool.hash r) as [[? ?]|]; [|done].
    injection E0 as ->. by injection E1 as -> ->. }
  apply IH in E as [Hl Hfirst]. split.
  - intros [|i] x y p' q Hx Hy Hp' Hq Hsp Hsq Hn; [|by apply (Hl i x y p' q)]. injection Hx as <-. rewrite <- (item_block_det _ _ _ Hp Hp') in *.
    destruct (reading_goes_on _ _ _ _ _ _ E2 Hsp) as (Hprev & Hvp & _). rewrite <- Hprev in Hn |- *. apply (Hfirst y q); [done..| |done]. by rewrite Hprev.
  - intros x p' [= <-] Hp' Hs. rewrite <- (item_block_det _ _ _ Hp Hp') in *. by destruct (reading_goes_on _ _ _ _ _ _ E2 Hs) as (_ & _ & R).
Qed.

(** C12: When a database opens with Node::validateBlock among the receivers of the blocks, its
    successive blocks above the genesis are linked: each names the hash of the block before,
    counted anew over that block's bytes. *)
Theorem opened_database_is_linked {T} others (chain : Pool.priv -> T -> BlockChain B D) stopRequested callback fuel b s t s' t' :
  Storage.open begin fuel (reading others chain stopRequested) callback (Some b) kWrongSequence s t = ret (true, s', t') ->
  items_linked (db_items b).
Proof.
  unfold Storage.open. destruct (negb (db_is_open b)); [done|]. rewrite Z.eqb_refl. cbn [negb]. intros E. bind_ok E. destruct r as [[done s1] t1].
  injection E as -> _ _. unfold Storage.rescan in E0. by apply rescan_linked in E0 as [R _].
Qed.
End validator.
End ValidatorSpec.

(** ** Witnesses *)

#[local] Existing Instance toy_libm.
#[local] Abbreviation first_element := (fun _ : list PoolElement => 0%nat).
#[local] Abbreviation no_method := (fun _ : bytes => @nil Z).
#[local] Abbreviation no_executor := (mkExecutor false (fun _ => ret None)).

(** A contract's new state, and a payment of the contract, without signatures *)
Definition contract_state : Transaction :=
  (Tx.add_user_field new_state_Value (uf_of_string [1; 2])
    (Tx.add_user_field new_state_RefStart (Ref.to_user_field (mkRef 12 3))
      (Tx.make 1 (sample_public 9) (sample_public 9) 1 (of_int 0) 10 20 (replicate 64 0))).2).2.
Definition contract_payment : Transaction := Tx.make 2 (sample_public 9) (sample_public 50) 1 (of_int 1000) 10 20 (replicate 64 0).
Definition contract_block : Pool.priv :=
  Pool.make [] 5 0 <| Pool.version_ := 1 |> <| Pool.transactions_ := [contract_state; contract_payment] |>
    <| Pool.smartSignatures_ := [Pool.mkSmartSignature (Address.public_key (sample_public 9)) 4 []] |>.

Lemma unsigned_new_state_passes_witness :
  BlockValidator.smart_validate (fun _ => Pool.default) contract_block = ret noError /\ BlockValidator.trxs_validate sample_ids contract_block = noError.
Proof.
  apply (ValidatorSpec.unsigned_new_state_passes sample_ids (fun _ => Pool.default) contract_block contract_state [contract_payment] 4).
  - done.
  - reflexivity.
  - vm_compute. reflexivity.
  - constructor; [|constructor]. split; vm_compute; reflexivity.
  - reflexivity.
Defined.

(** A small chain: a genesis, and two blocks that nobody has to sign *)
Definition bare (previous : Pool.priv) (sequence : Z) : Pool.priv := Pool.composed (Pool.make (Pool.hash_ previous) sequence 0).
Definition bare_0 : Pool.priv := bare Pool.default 0.
Definition bare_1 : Pool.priv := bare bare_0 1.
Definition bare_2 : Pool.priv := bare bare_1 2.

(** The chain when its genesis has been read *)
Definition bare_chain : BlockChain BerkeleyDB.t (list Wallet) :=
  mkBlockChain Storage.closed ∅ ∅ sample_ids sample_cache 0 ∅ (mkNonEmpty 0 0) [] bare_0 0 0 0.
Definition bare_db : BerkeleyDB.t :=
  foldl (fun b p => (db_put (Pool.hash_ p) (Pool.sequence_ p) (Pool.to_binary p) b).2) (Some (BerkeleyDB.mkTables ∅ ∅ ∅)) [bare_0; bare_1; bare_2].
Definition fresh_validator : BlockValidator := mkValidator ∅ Pool.default (BlockValidator.new_account (sample_public 50) (of_Z 0)).

#[local] Abbreviation bare_reading := (ValidatorSpec.reading first_element no_method None no_executor (fun p (n : nat) => ret (false, S n)) (fun _ _ => bare_chain) false).

(** An opening, or a validation, that succeeds *)
Lemma opening {A B} (m : M (bool * A * B)) : match m with Some (Ok (true, _, _)) => true | _ => false end = true -> exists s t, m = ret (true, s, t).
Proof. destruct m as [[[[[] s] t]|]|]; try done. by exists s, t. Qed.

Lemma bare_opens : exists s t,
  Storage.open first_element 0 bare_reading (fun _ => false) (Some bare_db) kWrongSequence Storage.closed (0%nat, fresh_validator) = ret (true, s, t).
Proof. apply opening. vm_compute. reflexivity. Qed.

Lemma opened_database_is_linked_witness :
  length (db_items bare_db) = 3%nat /\ ValidatorSpec.items_linked (db_items bare_db).
Proof.
  split; [by vm_compute|]. destruct bare_opens as (s & t & E).
  exact (ValidatorSpec.opened_database_is_linked first_element no_method None no_executor _ _ _ _ _ _ _ _ _ _ E).
Defined.

(** A block with a payment, signed by the first and the third confidant *)
Definition payment : Transaction :=
  let signed := Tx.make 3 (sample_public 50) (sample_public 9) 1 (of_int 2) 10 20 in
  signed (toy_hash (le_bytes 32 50 ++ Tx.to_byte_stream_for_sig (signed [])) ++ replicate 32 0).
Definition payment_block : Pool.priv :=
  let p := Pool.composed (Pool.make (Pool.hash_ bare_1) 2 0 <| Pool.transactions_ := [payment] |>
             <| Pool.confidants_ := map (le_bytes 32) [1; 2; 3] |> <| Pool.realTrusted_ := 5 |>
             <| Pool.signatures_ := map (fun _ => replicate 64 0) [1; 3] |>) in
  p <| Pool.signatures_ := map (fun k => toy_hash (le_bytes 32 k ++ ValidatorSpec.signed_hash p) ++ replicate 32 0) [1; 3] |>.

#[local] Abbreviation validated block flags severity :=
  (BlockValidator.validateBlock first_element no_method None no_executor block flags severity (fresh_validator <| prevBlock_ := bare_1 |>) bare_chain).

Lemma payment_accepted : exists v c, validated payment_block 79 greaterThanWarnings = ret (true, v, c).
Proof. apply opening. vm_compute. reflexivity. Qed.

Lemma accepted_block_is_sound_witness :
  Pool.previous_hash_ payment_block = ValidatorSpec.counted_hash bare_1 /\ ValidatorSpec.fully_signed payment_block /\
  ValidatorSpec.transactions_signed sample_ids payment_block.
Proof.
  destruct payment_accepted as (v & c & E).
  destruct (ValidatorSpec.accepted_block_is_sound first_element no_method None no_executor _ _ _ _ _ _ _ E) as (_ & _ & _ & E2 & E3).
  - discriminate.
  - discriminate.
  - repeat constructor.
  - split; [|split; [exact E2|exact E3]]. vm_compute. reflexivity.
Defined.
