(* ===== verification/Stage1.v ===== *)
(** * The first stage of the consensus ([solver/src/states/trustedstage1state.cpp],
      [solver/src/solverinterface.cpp])

    A confidant validates the transactions of the round, chooses the packets that
    it proposes for the next one, collects the hashes of the last block from the
    other nodes, and when all of that is done and the least time has passed sends
    its stage one.  [SolverCore::gotHash] and [gotConveyerSync] bring it the
    events.

    The timer, the clock, the last block and the hash over two buffers are
    parameters; what the state asks of the node is the list of [Act]. *)

From Stdlib Require Import ZArith Lia.
From stdpp Require Import base tactics numbers option list gmap sorting.
From S2P Require Import Prelude Effect Text BinStream Amount UserField Crypto DataStream Address Transaction Packet MetaStorage Double Pool.
From S2P Require Import ContractRef Conveyer Fee WalletsIds WalletsCache Validator IterValidator Stage Stage3 OnStage2 StageStore.

Local Open Scope Z_scope.
Local Open Scope cs_scope.

Import Stage OnStage2.

(** The members of [TrustedStage1State] *)
Record Trusted1 := mkTrusted1 {
  enough_hashes : bool;
  transactions_checked : bool;
  min_time_expired : bool;
  stage_ : StageOne;
  likeMineHashes : Z;
  differentHashes : Z;
  differKeys : list bytes;
  pValidator_ : IterState
}.
#[global] Instance eta_trusted1 : Eta Trusted1 := fun s =>
  mkTrusted1 (enough_hashes s) (transactions_checked s) (min_time_expired s) (stage_ s) (likeMineHashes s) (differentHashes s) (differKeys s) (pValidator_ s).
#[global] Instance eta_stage1 : Eta StageOne := fun s =>
  mkStageOne (s1_sender s) (s1_hash s) (roundTimeStamp s) (trustedCandidates s) (hashesCandidates s) (messageHash s) (s1_message s) (s1_signature s).

(** What the state asks of its context *)
Inductive Act : Set :=
  | CompleteStage1
  | AddStage1 (stage : StageOne)
  | AskTrustedRound (round : Z) (keys : list bytes)
  | SendHashReply (hash respondent : bytes)
  | RejectedReport (mask : bytes).

(** [StageHash] *)
Record StageHash := mkStageHash { sh_hash : bytes; sh_sender : bytes; sh_trustedSize : Z; sh_realTrustedSize : Z; sh_timeStamp : Z; sh_round : Z }.

Module Stage1.

#[local] Abbreviation MaxTransactionSize := IterValidator.MaxTransactionSize.

Definition MaxStageOneHashes : nat := 100.
Definition MaxStageOneTransactions : Z := 1000.
Definition MaxPreliminaryBlockSize : Z := 1 * 1024 * 1024.
Definition MinTrustedNodes : nat := 3.

(** [std::atoll]: out of range is undefined. *)
Definition atoll (s : bytes) : M Z :=
  match stoll s with
  | Ok v => ret v
  | Throw e => match e with out_of_range => None | _ => ret 0 end
  end.

(** The packets of the table in the order of [std::map] *)
Definition hash_le (a b : bytes * TransactionsPacket) : Prop := PacketHash.op_lt b.1 a.1 = false.
#[export] Instance hash_le_dec : RelDecision hash_le := fun a b => decide (PacketHash.op_lt b.1 a.1 = false).
Definition sorted_table (t : gmap bytes TransactionsPacket) : list (bytes * TransactionsPacket) := merge_sort hash_le (map_to_list t).

Section stage1.
Context `{!Cscrypto, !Libm} {D : Type} `{!MultiIndex D} (ids : WalletsIds D) (loadBlock : Z -> Pool.priv) (cache : Cache).
Context (known closed : Address -> bool) (deserialize : bytes -> Invocation) (find_deploy_info : Address -> option Invocation) (is_payable_target : Transaction -> bool).
(** [cscrypto::calculateHash] over two buffers, and the signature of the data with the node's key *)
Context (calculateHash2 : bytes -> bytes -> bytes) (generateSignature : bytes -> bytes).

(** [init_zero(StageOne&)] *)
Definition init_zero (stage : StageOne) : StageOne :=
  mkStageOne InvalidConfidantIndex Zero_hash [] [] [] Zero_hash (s1_message stage) Zero_signature.

(** [on]; the timer is started. *)
Definition on (own_conf_number : Z) (s : Trusted1) : Trusted1 :=
  mkTrusted1 false false false (init_zero (stage_ s) <| s1_sender := own_conf_number |>) 0 0 [] (pValidator_ s).

(** The timer's callback *)
Definition min_time (s : Trusted1) : Trusted1 * list Act :=
  let s := s <| min_time_expired := true |> in
  (s, if transactions_checked s && enough_hashes s then [CompleteStage1] else []).

(** [finalizeStage] *)
Definition finalizeStage (lastBlockStamp clock : bytes) (round subRound : Z) (s : Trusted1) : M Trusted1 :=
  do! last := atoll lastBlockStamp in
  do! now := atoll clock in
  let lastTimeStamp := u64 last in
  let currentTimeStamp := u64 now in
  let currentTimeStamp := if currentTimeStamp <? lastTimeStamp then u64 (lastTimeStamp + 1) else currentTimeStamp in
  let stage := stage_ s <| roundTimeStamp := print_u currentTimeStamp |> in
  let stage := stage <| s1_message := s1_toBytes stage |> in
  let stage := stage <| messageHash := calculateHash (s1_message stage) |> in
  let messageToSign := addValue 8 round [] in
  let messageToSign := addValue 1 subRound messageToSign in
  let messageToSign := addArray (messageHash stage) messageToSign in
  ret (s <| stage_ := stage <| s1_signature := generateSignature messageToSign |> |>).

(** [off] *)
Definition off (lastBlockStamp clock : bytes) (round subRound : Z) (s : Trusted1) : M (Trusted1 * list Act) :=
  if min_time_expired s && transactions_checked s && enough_hashes s then
    do! s := finalizeStage lastBlockStamp clock round subRound s in
    ret (s, [AddStage1 (stage_ s)])
  else ret (s, []).

(** *** The transactions of the round *)

(** [formHashFromCharacteristic] in the round *)
Definition formHashFromCharacteristic (round : Z) (mask : bytes) : bytes :=
  match mask with
  | [] => calculateHash (le_bytes 8 round)
  | _ => calculateHash mask
  end.

(** [build_vector] *)
Definition build_vector (packet : TransactionsPacket) (smartsPackets : list TransactionsPacket) (s : Trusted1) (c : Impl)
  : M (bytes * Trusted1 * Impl * list Act) :=
  do! (mask, s) :=
    (if (0 <? length (transactions_ packet))%nat then
       do! r := IterValidator.formCharacteristic ids loadBlock cache known closed deserialize find_deploy_info is_payable_target
         (transactions_ packet) smartsPackets (pValidator_ s) in
       ret (map reason_byte r.1.1.2, s <| pValidator_ := r.2 |>)
     else ret ([], s)) in
  let acts := if existsb (fun item => negb (item =? reason_byte None_)) mask then [RejectedReport mask] else [] in
  let mask := IterValidator.normalizeCharacteristic mask in
  let round := currentRound_ c in
  ret (formHashFromCharacteristic round mask, s, Conveyer.setCharacteristic mask round c, acts).

(** The transactions of a packet: the size of all of them and of the block so far, and the two flags *)
Fixpoint sizes (l : list Transaction) (delta block : Z) (finish continue : bool) : Z * Z * bool * bool :=
  match l with
  | [] => (delta, block, finish, continue)
  | t :: l =>
      let tSize := Z.of_nat (length (Tx.to_byte_stream t)) in
      let block := block + tSize in
      sizes l (delta + tSize) block (finish || (MaxPreliminaryBlockSize <? block)) (continue || (MaxTransactionSize <? tSize))
  end.

(** The loop over the packets' table *)
Fixpoint pick (hashes : list bytes) (l : list (bytes * TransactionsPacket)) (trxCounter preliminaryBlockSize : Z) (candidates : list bytes) : list bytes :=
  match l with
  | [] => candidates
  | (hash, packet) :: l =>
      if bool_decide (hash ∈ hashes) then pick hashes l trxCounter preliminaryBlockSize candidates
      else
        let finish := (MaxStageOneHashes <? length candidates)%nat in
        let count := Packet.transactionsCount packet in
        let finish := finish || (MaxStageOneTransactions <? trxCounter + count) in
        let '(delta, block, finish, continue) := sizes (transactions_ packet) 0 preliminaryBlockSize finish false in
        if finish then candidates
        else if continue then pick hashes l (trxCounter + count - count) (block - delta) candidates
        else pick hashes l (trxCounter + count) block (candidates ++ [hash])
  end.

(** [onSyncTransactions] *)
Definition onSyncTransactions (round : Z) (s : Trusted1) (c : Impl) : M (Result * Trusted1 * Impl * list Act) :=
  if round <? currentRound_ c then ret (Ignore, s, c, [])
  else
    match Conveyer.createPacket round c with
    | None => ret (Ignore, s, c, [])
    | Some (packet, smartContractPackets) =>
        do! (hash, s, c, acts) := build_vector packet smartContractPackets s c in
        do! roundTable := Conveyer.currentRoundTable c in
        let candidates := pick (rt_hashes roundTable) (sorted_table (packetsTable_ c)) 0 0 (hashesCandidates (stage_ s)) in
        let s := s <| stage_ := stage_ s <| s1_hash := hash |> <| hashesCandidates := candidates |> |> <| transactions_checked := true |> in
        ret (if enough_hashes s && min_time_expired s then Finish else Ignore, s, c, acts)
    end.

(** *** The hashes of the last block *)

(** [Node::spoileHash(hash, key)] *)
Definition spoileHash (hashToSpoil pKey : bytes) : bytes := PoolHash.from_binary (calculateHash2 (PoolHash.to_binary hashToSpoil) pKey).

(** [onHash] *)
Definition onHash (lastHash pool_hash sender : bytes) (s : Trusted1) (c : Impl) : M (Result * Trusted1 * list Act) :=
  do! confidant := Conveyer.isConfidantKey sender c in
  do! count := Conveyer.confidantsCount c in
  let half := Z.of_nat (count / 2) in
  let round := currentRound_ c in
  if PoolHash.op_eq (spoileHash lastHash sender) pool_hash then
    let s := if confidant : bool then s <| likeMineHashes := likeMineHashes s + 1 |> else s in
    let known := trustedCandidates (stage_ s) in
    let s := if bool_decide (sender ∈ known) then s else s <| stage_ := stage_ s <| trustedCandidates := known ++ [sender] |> |> in
    if (MinTrustedNodes <=? length (trustedCandidates (stage_ s)))%nat then
      if half <=? likeMineHashes s then
        let s := s <| enough_hashes := true |> in
        ret (if transactions_checked s && min_time_expired s then Finish else Ignore, s, [])
      else if half <=? differentHashes s then ret (Ignore, s, [AskTrustedRound round (differKeys s)])
      else ret (Ignore, s, [])
    else ret (Ignore, s, [])
  else
    let '(s, acts) :=
      if confidant then (s <| differentHashes := differentHashes s + 1 |> <| differKeys := differKeys s ++ [sender] |>, [])
      else (s, [SendHashReply pool_hash sender]) in
    ret (Ignore, s, acts ++ if half <=? differentHashes s then [AskTrustedRound round (differKeys s)] else []).

(** *** The messages with the hashes *)

(** [std::stoull] *)
Definition stoull (s : bytes) : result Z :=
  let s1 := skip_spaces s in
  let '(neg, s2) :=
    match s1 with
    | 45 :: s' => (true, s')
    | 43 :: s' => (false, s')
    | _ => (false, s1)
    end in
  match s2 with
  | c :: _ =>
      if isdigit c then
        let v := fst (read_digits 0 s2) in
        if v <? 2 ^ 64 then Ok (if neg then u64 (- v) else v) else Throw out_of_range
      else Throw invalid_argument
  | [] => Throw invalid_argument
  end.

(** The two time stamps of [sendHash] and [getHash]: what follows an exception stays zero. *)
Definition time_stamps (lastBlockStamp clock : bytes) : Z * Z :=
  match stoull lastBlockStamp with
  | Throw _ => (0, 0)
  | Ok last => match stoull clock with Throw _ => (last, 0) | Ok now => (last, now) end
  end.

(** [Node::sendHash]: the message that is signed; without its last nine bytes it is sent. *)
Definition sendHash (lastHash publicKey lastBlockStamp clock lastRealTrusted : bytes) (currentRound round subRound : Z) : bytes * bytes :=
  let '(lastTimeStamp, currentTimeStamp) := time_stamps lastBlockStamp clock in
  let currentTimeStamp := if currentTimeStamp <? lastTimeStamp then u64 (lastTimeStamp + 1) else currentTimeStamp in
  let '(myTrustedSize, myRealTrustedSize) :=
    if 1 <? currentRound then (u8 (Z.of_nat (length lastRealTrusted)), TrustedMask.trustedSize lastRealTrusted) else (0, 0) in
  let message := addVector (PoolHash.to_binary (spoileHash lastHash publicKey)) [] in
  let message := addValue 1 myRealTrustedSize (addValue 1 myTrustedSize message) in
  let message := addValue 8 currentTimeStamp message in
  let message := addValue 1 subRound (addValue 8 round message) in
  (take (length message - 9) message, generateSignature message).

(** [Node::getHash] after the packet is unpacked: the hash given to [SolverCore::gotHash], if any *)
Definition getHash (lastBlockStamp clock message signature sender : bytes) (rNum subRound : Z) : result (option StageHash) :=
  let stream := open message in
  let! (tmp, stream) := parseVector stream in
  let '(trustedSize, stream) := parseValue 1 stream in
  let '(realTrustedSize, stream) := parseValue 1 stream in
  let '(timeStamp, _) := parseValue 8 stream in
  let '(lastTimeStamp, currentTimeStamp) := time_stamps lastBlockStamp clock in
  let deltaStamp := Z.min (u64 (currentTimeStamp - lastTimeStamp)) DefaultTimeStampRange in
  if timeStamp <? lastTimeStamp then Ok None
  else if u64 (currentTimeStamp + deltaStamp / 2 * 3) <? timeStamp then Ok None
  else if negb (verifySignature signature sender (addValue 1 subRound (addValue 8 rNum message))) then Ok None
  else Ok (Some (mkStageHash (PoolHash.from_binary tmp) sender trustedSize realTrustedSize timeStamp rNum)).

(** [SolverCore::gotHash]: the hashes kept, and whether the state gets the hash now.  A
    smaller stake is only logged. *)
Fixpoint erase_smaller (sHash : StageHash) (rNum : Z) (l : list StageHash) : list StageHash :=
  match l with
  | [] => []
  | sh :: l =>
      if bool_decide (sh_sender sHash = sh_sender sh) && (sh_realTrustedSize sh <? sh_realTrustedSize sHash) && (sh_round sHash =? rNum) then l
      else sh :: erase_smaller sHash rNum l
  end.
Definition gotHash (grayList_ : gset bytes) (balance : bytes -> Amount) (currentRound lastSeq : Z) (sHash : StageHash) (recv_hash : list StageHash)
  : list StageHash * bool :=
  if bool_decide (sh_sender sHash ∈ grayList_) then (recv_hash, false)
  else if negb (checkNodeCache balance currentRound (sh_sender sHash)) then (recv_hash, false)
  else (erase_smaller sHash currentRound recv_hash ++ [sHash], u64 (currentRound - lastSeq) <=? 1).
End stage1.
End Stage1.
