(* ===== verification/Stage1Spec.v ===== *)
(** * What the first stage guarantees

    The packets that it proposes respect the limits of a block
    ([candidates_bounded]), but one that exceeds them alone keeps all later ones
    out ([big_packet_blocks]); the state reports its completion exactly when its
    three conditions first hold ([stage_one_reports]); the other confidants take
    the message that it ends with ([stage_one_accepted]); the messages with the
    hashes are accepted in their round ([hash_message_accepted]),
    but repetitions of one confidant suffice
    ([repeated_hash_suffices]). *)

From Stdlib Require Import ZArith Lia Sorted.
From stdpp Require Import base tactics numbers option list gmap sorting.
From S2P Require Import Prelude Effect Text BinStream Amount UserField Crypto DataStream Address Transaction Packet MetaStorage Double Pool.
From S2P Require Import ContractRef Conveyer Fee WalletsIds WalletsCache Validator IterValidator Stage Stage3 OnStage2 StageStore Stage1.

Local Open Scope Z_scope.
Local Open Scope cs_scope.

Module StageOneSpec.
Import Stage OnStage2 Stage1.

(** ** The proposed packets *)

Definition tx_size (t : Transaction) : Z := Z.of_nat (length (Tx.to_byte_stream t)).
Definition size_sum (l : list Transaction) : Z := foldr (fun t s => tx_size t + s) 0 l.
Definition count_sum (l : list (bytes * TransactionsPacket)) : Z := foldr (fun x s => Packet.transactionsCount x.2 + s) 0 l.
Definition packets_size (l : list (bytes * TransactionsPacket)) : Z := foldr (fun x s => size_sum (transactions_ x.2) + s) 0 l.

Lemma size_sum_nonneg l : 0 <= size_sum l.
Proof. induction l as [|t l IH]; cbn; [done|]. unfold tx_size at 1. fold (size_sum l). lia. Qed.

Definition oversized (t : Transaction) : bool := MaxTransactionSize <? tx_size t.

Lemma sizes_spec l delta block finish continue :
  sizes l delta block finish continue =
    (delta + size_sum l, block + size_sum l, finish || (negb (length l =? 0)%nat && (MaxPreliminaryBlockSize <? block + size_sum l)),
     continue || existsb oversized l).
Proof.
  revert delta block finish continue. induction l as [|t l IH]; intros delta block finish continue; cbn [sizes size_sum foldr existsb length Nat.eqb negb andb].
  - by rewrite !Z.add_0_r, !orb_false_r.
  - fold (size_sum l). fold (tx_size t). rewrite IH, !Z.add_assoc, <- !orb_assoc. f_equal. f_equal. f_equal.
    destruct l as [|u l]; [cbn; by rewrite Z.add_0_r, orb_false_r|]. cbn [length Nat.eqb negb andb].
    pose proof (size_sum_nonneg (u :: l)). destruct (Z.ltb_spec MaxPreliminaryBlockSize (block + tx_size t)); [|done].
    by rewrite (proj2 (Z.ltb_lt _ _)) by lia.
Qed.

(** Within the limits of a block, a packet is left out only for its transactions; the first that exceeds them ends the loop. *)
Definition exceeds (trx block : Z) (candidates : list bytes) (p : TransactionsPacket) : bool :=
  (MaxStageOneHashes <? length candidates)%nat || (MaxStageOneTransactions <? trx + Packet.transactionsCount p)
  || (negb (length (transactions_ p) =? 0)%nat && (MaxPreliminaryBlockSize <? block + size_sum (transactions_ p))).

Lemma pick_step hashes h p l trx block candidates :
  pick hashes ((h, p) :: l) trx block candidates =
    if bool_decide (h ∈ hashes) then pick hashes l trx block candidates
    else if exceeds trx block candidates p then candidates
    else if existsb oversized (transactions_ p) then pick hashes l trx block candidates
    else pick hashes l (trx + Packet.transactionsCount p) (block + size_sum (transactions_ p)) (candidates ++ [h]).
Proof.
  cbn [pick]. case_bool_decide; [done|]. rewrite sizes_spec. cbn [orb]. unfold exceeds. rewrite <- !orb_assoc.
  destruct (_ || _); [done|]. destruct (existsb _ _); [|done]. f_equal; lia.
Qed.

(** What the loop adds *)
Record chosen_from (hashes : list bytes) (l : list (bytes * TransactionsPacket)) (trx block : Z) (n : nat) (c : list (bytes * TransactionsPacket)) : Prop := {
  chosen_sub : sublist c l;
  chosen_new : Forall (fun x => x.1 ∉ hashes /\ Forall (fun t => tx_size t <= MaxTransactionSize) (transactions_ x.2)) c;
  chosen_count : trx + count_sum c <= MaxStageOneTransactions;
  chosen_size : block + packets_size c <= MaxPreliminaryBlockSize;
  chosen_length : (n + length c <= S MaxStageOneHashes)%nat
}.

Lemma not_oversized l : existsb oversized l = false -> Forall (fun t => tx_size t <= MaxTransactionSize) l.
Proof.
  induction l as [|t l IH]; cbn [existsb]; [constructor|]. intros [E1 E2]%orb_false_iff. constructor; [|by apply IH]. by apply Z.ltb_ge in E1.
Qed.

Lemma pick_spec hashes l trx block candidates :
  trx <= MaxStageOneTransactions -> block <= MaxPreliminaryBlockSize -> (length candidates <= S MaxStageOneHashes)%nat ->
  exists c, pick hashes l trx block candidates = candidates ++ map fst c /\ chosen_from hashes l trx block (length candidates) c.
Proof.
  revert trx block candidates. induction l as [|[h p] l IH]; intros trx block candidates Ht Hb Hn.
  { exists []. rewrite app_nil_r. split; [done|]. split; [done|constructor|cbn; lia..]. }
  assert (exists c, candidates = candidates ++ map fst c /\ chosen_from hashes ((h, p) :: l) trx block (length candidates) c) as Hstop.
  { exists []. rewrite app_nil_r. split; [done|]. split; [apply sublist_nil_l|constructor|cbn; lia..]. }
  assert ((exists c, pick hashes l trx block candidates = candidates ++ map fst c /\ chosen_from hashes l trx block (length candidates) c) ->
    exists c, pick hashes l trx block candidates = candidates ++ map fst c /\ chosen_from hashes ((h, p) :: l) trx block (length candidates) c) as Hskip.
  { intros (c & E & [C1 C2 C3 C4 C5]). exists c. split; [done|]. split; [by apply sublist_cons|done..]. }
  rewrite pick_step. case_bool_decide as Hin; [apply Hskip; by apply IH|]. destruct (exceeds trx block candidates p) eqn:Ee; [exact Hstop|].
  destruct (existsb oversized (transactions_ p)) eqn:Eo; [apply Hskip; by apply IH|].
  apply orb_false_iff in Ee as [[E1 E2]%orb_false_iff E3]. apply Nat.ltb_ge in E1. apply Z.ltb_ge in E2.
  assert (block + size_sum (transactions_ p) <= MaxPreliminaryBlockSize) as E4.
  { destruct (transactions_ p); [cbn; lia|]. cbn [length Nat.eqb negb andb] in E3. by apply Z.ltb_ge in E3. }
  destruct (IH (trx + Packet.transactionsCount p) (block + size_sum (transactions_ p)) (candidates ++ [h])) as (c & E & [C1 C2 C3 C4 C5]);
    [done|done|rewrite length_app; cbn [length]; lia|].
  rewrite length_app in C5. cbn [length] in C5. exists ((h, p) :: c). rewrite E, <- app_assoc. split; [done|]. split.
  - by apply sublist_skip.
  - constructor; [|done]. split; [done|by apply not_oversized].
  - cbn [count_sum foldr snd]. fold (count_sum c). lia.
  - cbn [packets_size foldr snd]. fold (packets_size c). lia.
  - cbn [length]. lia.
Qed.

(** The table in the order of the hashes *)
#[local] Instance hash_le_total : Total hash_le.
Proof.
  intros [a p] [b q]. unfold hash_le, PacketHash.op_lt. cbn [fst]. destruct (lex_lt b a) eqn:E; [right|by left].
  destruct (lex_lt a b) eqn:E'; [|done]. pose proof (lex_lt_trans _ _ _ E E') as C. by rewrite lex_lt_irrefl in C.
Qed.
#[local] Instance hash_le_trans : Transitive hash_le.
Proof.
  intros [a p] [b q] [c r]. unfold hash_le, PacketHash.op_lt. cbn [fst]. intros H1 H2. destruct (lex_lt c a) eqn:E; [|done].
  destruct (decide (a = b)) as [->|Hne]; [congruence|]. destruct (lex_lt_total a b Hne) as [L|L]; [|congruence].
  pose proof (lex_lt_trans _ _ _ E L). congruence.
Qed.

Lemma sorted_table_elem t h p : (h, p) ∈ sorted_table t <-> t !! h = Some p.
Proof. unfold sorted_table. rewrite merge_sort_Permutation. apply elem_of_map_to_list. Qed.
Lemma sorted_table_nodup t : NoDup (map fst (sorted_table t)).
Proof. unfold sorted_table. rewrite merge_sort_Permutation. apply NoDup_fst_map_to_list. Qed.
Lemma sorted_table_sorted t : StronglySorted hash_le (sorted_table t).
Proof. apply StronglySorted_merge_sort; apply _. Qed.
Lemma pick_skip hashes l1 l2 trx block candidates :
  Forall (fun x => x.1 ∈ hashes) l1 -> pick hashes (l1 ++ l2) trx block candidates = pick hashes l2 trx block candidates.
Proof. induction 1 as [|[h p] l1 Hh _ IH]; [done|]. cbn [app]. rewrite pick_step. by rewrite bool_decide_true. Qed.

(** A packet that exceeds the limits of a block alone ends the selection: when it has the least
    hash nothing is proposed at all, though every other packet would fit. *)
Theorem big_packet_blocks t hashes h p :
  t !! h = Some p -> h ∉ hashes ->
  (forall h' q, t !! h' = Some q -> h' ∉ hashes -> PacketHash.op_lt h' h = false) ->
  MaxStageOneTransactions < Packet.transactionsCount p \/ MaxPreliminaryBlockSize < size_sum (transactions_ p) ->
  pick hashes (sorted_table t) 0 0 [] = [].
Proof.
  intros Ep Hh Hleast Hbig. apply sorted_table_elem in Ep. pose proof (sorted_table_sorted t) as Hs. pose proof (sorted_table_nodup t) as Hn.
  apply list_elem_of_split in Ep as (l1 & l2 & El). rewrite El in Hs, Hn. rewrite El.
  rewrite pick_skip.
  - rewrite pick_step, bool_decide_false by done. enough (exceeds 0 0 [] p = true) as -> by done. unfold exceeds. rewrite !Z.add_0_l.
    destruct Hbig as [Hb|Hb]; [by rewrite (proj2 (Z.ltb_lt _ _) Hb)|]. rewrite (proj2 (Z.ltb_lt _ _) Hb).
    destruct (transactions_ p); [cbn in Hb; by apply Z.ltb_lt in Hb|]. apply orb_true_r.
  - apply Forall_forall. intros [h' q] Hin. cbn [fst]. destruct (decide (h' ∈ hashes)) as [|Hnew]; [done|exfalso].
    assert (t !! h' = Some q) as Eq by (apply sorted_table_elem; rewrite El; apply elem_of_app; by left).
    pose proof (Hleast _ _ Eq Hnew) as L1. rewrite map_app in Hn. apply NoDup_app in Hn as (_ & Hd & _).
    assert (h' <> h) as Hne. { intros ->. apply (Hd h); [apply list_elem_of_fmap; by exists (h, q)|by left]. }
    assert (hash_le (h', q) (h, p)) as Hle.
    { clear -Hs Hin. induction l1 as [|x l1 IH]; [by apply not_elem_of_nil in Hin|]. apply StronglySorted_inv in Hs as [Hs Hx].
      apply elem_of_cons in Hin as [->|Hin]; [|by apply IH]. rewrite Forall_forall in Hx. apply Hx. apply elem_of_app. right. by left. }
    unfold hash_le, PacketHash.op_lt in Hle, L1. cbn [fst] in Hle. destruct (lex_lt_total h' h Hne) as [L|L]; congruence.
Qed.

Section guarantees.
Context `{!Cscrypto, !Libm} {D : Type} `{!MultiIndex D} (ids : WalletsIds D) (loadBlock : Z -> Pool.priv) (cache : Cache).
Context (known closed : Address -> bool) (deserialize : bytes -> Invocation) (find_deploy_info : Address -> option Invocation) (is_payable_target : Transaction -> bool).
Context (calculateHash2 : bytes -> bytes -> bytes) (generateSignature : bytes -> bytes).

#[local] Abbreviation onSync := (onSyncTransactions ids loadBlock cache known closed deserialize find_deploy_info is_payable_target).
#[local] Abbreviation onHash' := (onHash calculateHash2).
#[local] Abbreviation build := (build_vector ids loadBlock cache known closed deserialize find_deploy_info is_payable_target).

(** What the validation leaves alone *)
Lemma build_vector_frame packet smarts s c hash s' c' acts :
  build packet smarts s c = ret (hash, s', c', acts) ->
  (exists v, s' = s <| pValidator_ := v |>) /\ (exists mask, c' = Conveyer.setCharacteristic mask (currentRound_ c) c).
Proof.
  unfold build_vector. intros ([mask s1] & E1 & E)%mthen_ok. injection E as <- <- <- <-. split; [|by eexists].
  destruct (0 <? length (transactions_ packet))%nat; [apply mthen_ok in E1 as (r & _ & E1)|]; injection E1 as _ <-; [by eexists|].
  exists (pValidator_ s). by destruct s.
Qed.

Lemma sync_shape round s c r s' c' acts :
  onSync round s c = ret (r, s', c', acts) ->
  (r = Ignore /\ s' = s /\ c' = c /\ acts = []) \/
  (exists hash v mask table, c' = Conveyer.setCharacteristic mask (currentRound_ c) c /\ Conveyer.currentRoundTable c' = ret table /\
    s' = s <| pValidator_ := v |>
           <| stage_ := stage_ s <| s1_hash := hash |>
                <| hashesCandidates := pick (rt_hashes table) (sorted_table (packetsTable_ c)) 0 0 (hashesCandidates (stage_ s)) |> |>
           <| transactions_checked := true |> /\
    r = if enough_hashes s && min_time_expired s then Finish else Ignore).
Proof.
  unfold onSyncTransactions. destruct (round <? currentRound_ c); [intros [= <- <- <- <-]; by left|].
  destruct (Conveyer.createPacket round c) as [[packet smarts]|]; [|intros [= <- <- <- <-]; by left].
  intros ([[[hash s1] c1] acts1] & Eb & E)%mthen_ok. apply mthen_ok in E as (table & Et & E). injection E as <- <- <- <-. right.
  apply build_vector_frame in Eb as [[v ->] [mask ->]]. exists hash, v, mask, table. by split_and!.
Qed.

(** C29: What a start of stage one appends to a confidant's proposals for the next round, when
    these were at most 101 before (there are none at the first start of a round; a second start
    appends anew): packets of its own table that are not in this round's, each once among those
    appended, with at most 1000 transactions and one MiB together, and no transaction above 100
    KiB; all proposals together stay at most 101. *)
Theorem candidates_bounded round s c r s' c' acts :
  onSync round s c = ret (r, s', c', acts) -> (length (hashesCandidates (stage_ s)) <= 101)%nat ->
  exists chosen,
    hashesCandidates (stage_ s') = hashesCandidates (stage_ s) ++ map fst chosen /\ NoDup (map fst chosen) /\
    (length (hashesCandidates (stage_ s')) <= 101)%nat /\ count_sum chosen <= 1000 /\ packets_size chosen <= 1048576 /\
    Forall (fun x => packetsTable_ c' !! x.1 = Some x.2 /\ Forall (fun t => tx_size t <= 102400) (transactions_ x.2)) chosen /\
    forall table, Conveyer.currentRoundTable c' = ret table -> Forall (fun x => x.1 ∉ rt_hashes table) chosen.
Proof.
  intros E E0. apply sync_shape in E as [(_ & -> & _ & _)|(hash & v & mask & table & -> & Et & -> & _)].
  { exists []. rewrite app_nil_r. split_and!; [done|constructor|exact E0|by vm_compute|by vm_compute|constructor|constructor]. }
  destruct (pick_spec (rt_hashes table) (sorted_table (packetsTable_ c)) 0 0 (hashesCandidates (stage_ s))) as (ch & Ep & [C1 C2 C3 C4 C5]);
    [by vm_compute|by vm_compute|unfold MaxStageOneHashes; lia|].
  exists ch. cbn [upd stage_ hashesCandidates]. split_and!.
  - exact Ep.
  - eapply sublist_NoDup; [apply (sorted_table_nodup (packetsTable_ c))|]. by apply (fmap_sublist fst).
  - transitivity (length (hashesCandidates (stage_ s) ++ map fst ch)); [by rewrite <- Ep|]. rewrite length_app, length_map. unfold MaxStageOneHashes in C5. lia.
  - exact C3.
  - exact C4.
  - apply Forall_forall. intros [h p] Hx. split; [apply sorted_table_elem; by eapply elem_of_sublist|].
    rewrite Forall_forall in C2. exact (proj2 (C2 _ Hx)).
  - intros table'. rewrite Et. intros [= <-]. eapply Forall_impl; [exact C2|]. by intros x [? _].
Qed.

(** *** Completion *)

(** What reaches the state between [on] and [off] *)
Inductive event : Type :=
  | Timer
  | Sync (round : Z)
  | Hash (lastHash pool_hash sender : bytes).

(** The state, the conveyer, and whether the step reports the completion *)
Definition step (e : event) (s : Trusted1) (c : Impl) : M (Trusted1 * Impl * bool) :=
  match e with
  | Timer => let '(s, acts) := min_time s in ret (s, c, match acts with [] => false | _ => true end)
  | Sync round => do! (r, s, c, _) := onSync round s c in ret (s, c, match r with Finish => true | _ => false end)
  | Hash lastHash pool_hash sender => do! (r, s, _) := onHash' lastHash pool_hash sender s c in ret (s, c, match r with Finish => true | _ => false end)
  end.

Definition all_done (s : Trusted1) : bool := enough_hashes s && transactions_checked s && min_time_expired s.

Lemma hash_shape lastHash pool_hash sender s c r s' acts :
  onHash' lastHash pool_hash sender s c = ret (r, s', acts) ->
  transactions_checked s' = transactions_checked s /\ min_time_expired s' = min_time_expired s /\
  ((r = Ignore /\ enough_hashes s' = enough_hashes s) \/
   (enough_hashes s' = true /\ r = if transactions_checked s && min_time_expired s then Finish else Ignore)).
Proof.
  unfold onHash. intros (confidant & _ & E)%mthen_ok. apply mthen_ok in E as (count & _ & E).
  destruct (PoolHash.op_eq _ _).
  - set (s1 := if confidant then _ else s) in E.
    assert (transactions_checked s1 = transactions_checked s /\ min_time_expired s1 = min_time_expired s /\ enough_hashes s1 = enough_hashes s) as (T1 & M1 & H1)
      by (subst s1; by destruct confidant).
    set (s2 := if bool_decide _ then s1 else _) in E.
    assert (transactions_checked s2 = transactions_checked s /\ min_time_expired s2 = min_time_expired s /\ enough_hashes s2 = enough_hashes s) as (T2 & M2 & H2)
      by (subst s2; by case_bool_decide).
    clearbody s1 s2. destruct (MinTrustedNodes <=? _)%nat; [|injection E as <- <- _; split_and!; [done|done|by left]].
    destruct (_ <=? likeMineHashes s2).
    + injection E as <- <- _. cbn [upd transactions_checked min_time_expired enough_hashes]. split_and!; [done|done|right]. by rewrite T2, M2.
    + destruct (_ <=? differentHashes s2); injection E as <- <- _; (split_and!; [done|done|by left]).
  - destruct confidant; injection E as <- <- _; (split_and!; [done|done|by left]).
Qed.

(** C34: Transactions, hashes and the timer in any order: a step of the first stage reports its
    completion only when all three conditions hold, and the step with which they first hold
    reports it. *)
Theorem stage_one_reports e s c s' c' reported :
  step e s c = ret (s', c', reported) ->
  (reported = true -> all_done s' = true) /\ (all_done s = false -> all_done s' = true -> reported = true).
Proof.
  unfold all_done. destruct e as [|round|lastHash pool_hash sender]; cbn [step].
  - unfold min_time. cbn [upd transactions_checked enough_hashes min_time_expired]. intros [= <- <- <-].
    cbn [upd transactions_checked enough_hashes min_time_expired].
    destruct (transactions_checked s), (enough_hashes s); cbn [andb]; by split.
  - intros ([[[r s1] c1] acts] & E & Er)%mthen_ok. injection Er as <- <- <-.
    apply sync_shape in E as [(-> & -> & _ & _)|(hash & v & mask & table & _ & _ & -> & ->)]; [split; [done|congruence]|].
    cbn [upd transactions_checked enough_hashes min_time_expired]. destruct (enough_hashes s), (min_time_expired s); by cbn.
  - intros ([[r s1] acts] & E & Er)%mthen_ok. injection Er as <- <- <-. apply hash_shape in E as (T & M & [[-> H1]|[H1 ->]]).
    + rewrite T, M, H1. split; [done|congruence].
    + rewrite T, M, H1. destruct (transactions_checked s), (min_time_expired s); by cbn.
Qed.

(** *** Repetitions *)

(** The same hash message, [n] times *)
Fixpoint repeat_hash (n : nat) (lastHash pool_hash sender : bytes) (s : Trusted1) (c : Impl) : M Trusted1 :=
  match n with
  | O => ret s
  | S n => do! (_, s, _) := onHash' lastHash pool_hash sender s c in repeat_hash n lastHash pool_hash sender s c
  end.

Lemma onHash_again lastHash sender s c count :
  Conveyer.isConfidantKey sender c = ret true -> Conveyer.confidantsCount c = ret count ->
  sender ∈ trustedCandidates (stage_ s) -> (MinTrustedNodes <= length (trustedCandidates (stage_ s)))%nat ->
  exists r s' acts, onHash' lastHash (spoileHash calculateHash2 lastHash sender) sender s c = ret (r, s', acts) /\
    stage_ s' = stage_ s /\ likeMineHashes s' = likeMineHashes s + 1 /\
    enough_hashes s' = (Z.of_nat (count / 2) <=? likeMineHashes s + 1) || enough_hashes s.
Proof.
  intros Hc Hn Hin Hl. unfold onHash. rewrite Hc, Hn. cbn [mthen ret]. unfold PoolHash.op_eq. rewrite bool_decide_true by done.
  cbn [upd stage_]. rewrite bool_decide_true by done. cbn [upd stage_ likeMineHashes differentHashes]. rewrite (proj2 (Nat.leb_le _ _) Hl).
  destruct (_ <=? _); [do 3 eexists; split; [reflexivity|by split_and!]|].
  destruct (_ <=? _); do 3 eexists; (split; [reflexivity|by split_and!]).
Qed.

(** The hashes are counted, not their senders: half as many repetitions of one confidant's hash as
    there are confidants make the node take the last block as agreed. *)
Theorem repeated_hash_suffices lastHash sender s c count n :
  Conveyer.isConfidantKey sender c = ret true -> Conveyer.confidantsCount c = ret count ->
  sender ∈ trustedCandidates (stage_ s) -> (MinTrustedNodes <= length (trustedCandidates (stage_ s)))%nat ->
  0 <= likeMineHashes s -> (0 < n)%nat -> (count / 2 <= n)%nat ->
  exists s', repeat_hash n lastHash (spoileHash calculateHash2 lastHash sender) sender s c = ret s' /\
    enough_hashes s' = true /\ trustedCandidates (stage_ s') = trustedCandidates (stage_ s).
Proof.
  intros Hc Hn Hin Hl Hlike Hpos Hhalf.
  assert (forall n s, (0 < n)%nat -> Z.of_nat (count / 2) <= likeMineHashes s + Z.of_nat n -> sender ∈ trustedCandidates (stage_ s) ->
    (MinTrustedNodes <= length (trustedCandidates (stage_ s)))%nat ->
    exists s', repeat_hash n lastHash (spoileHash calculateHash2 lastHash sender) sender s c = ret s' /\ enough_hashes s' = true /\ stage_ s' = stage_ s) as Hrun.
  { clear -Hc Hn. induction n as [|n IH]; intros s Hpos Hhalf Hin Hl; [lia|]. cbn [repeat_hash].
    destruct (onHash_again lastHash sender s c count Hc Hn Hin Hl) as (r & s1 & acts & -> & E1 & E2 & E3). cbn [mthen ret].
    destruct n as [|n].
    - exists s1. split; [done|]. split; [|done]. rewrite E3. by rewrite (proj2 (Z.leb_le _ _)) by lia.
    - destruct (IH s1) as (s' & -> & Ee & Es); [lia|lia|by rewrite E1|by rewrite E1|]. exists s'. split_and!; [done|done|congruence]. }
  destruct (Hrun n s) as (s' & E & Ee & Es); [done|lia|done|done|]. exists s'. by rewrite E, Ee, Es.
Qed.

(** *** The messages *)

Context `{!CscryptoLaws _} `{!Small kPublicKeySize, !Small kSignatureSize}.
(** The node's public key verifies what it signs. *)
Context (publicKey : bytes) (generate_verifies : forall m, verifySignature (generateSignature m) publicKey m = true).

(** The stage one that finalizeStage makes and signs is accepted and read back unchanged by
    getStageOne of every node in the same round that has the sender's key at its number. *)
Theorem stage_one_accepted lastBlockStamp clock round subRound s s' confidants :
  finalizeStage generateSignature lastBlockStamp clock round subRound s = ret s' ->
  wf_stage1 (stage_ s') -> bytes_ok (s1_message (stage_ s')) -> Z.of_nat (length (s1_message (stage_ s'))) < 2 ^ 62 ->
  confidants !! Z.to_nat (s1_sender (stage_ s')) = Some publicKey ->
  getStageOne confidants round subRound subRound (s1_signature (stage_ s')) (s1_message (stage_ s')) = Ok (Some (stage_ s')).
Proof.
  unfold finalizeStage. intros (last & _ & E)%mthen_ok. apply mthen_ok in E as (now & _ & E). injection E as <-.
  cbn [upd stage_]. set (st := stage_ s <| roundTimeStamp := _ |>). cbn [upd s1_message s1_signature s1_sender messageHash].
  intros Hw Hb Hl Hk. assert (s1_toBytes (st <| s1_message := s1_toBytes st |>) = s1_toBytes st) as Em by reflexivity.
  unfold getStageOne. rewrite Z.eqb_refl. cbn [negb].
  assert (wf_stage1 st) as Hw' by (by destruct Hw as [W1 W2 W3 W4 W5]).
  match goal with |- context [s1_parse ?m ?sg] => change m with (s1_toBytes st); destruct (s1_parse_toBytes st sg Hw' Hb Hl) as (str & E & _) end.
  rewrite E. cbn [rbind s1_sender]. rewrite Hk. change (calculateHash (s1_message _)) with (calculateHash (s1_toBytes st)).
  by rewrite generate_verifies.
Qed.

(** The time stamp and the sizes that [sendHash] puts into the message *)
Definition sent_stamp (lastBlockStamp clock : bytes) : Z :=
  let '(last, now) := time_stamps lastBlockStamp clock in if now <? last then u64 (last + 1) else now.
Definition sent_sizes (lastRealTrusted : bytes) (currentRound : Z) : Z * Z :=
  if 1 <? currentRound then (u8 (Z.of_nat (length lastRealTrusted)), TrustedMask.trustedSize lastRealTrusted) else (0, 0).

(** The part of the message that is sent *)
Definition hash_body (spoiled : bytes) (sizes : Z * Z) (stamp : Z) : bytes :=
  ds_enc vector_ds spoiled ++ ds_enc (uint_ds 1) sizes.1 ++ ds_enc (uint_ds 1) sizes.2 ++ ds_enc (uint_ds 8) stamp.

Lemma sendHash_spec lastHash lastBlockStamp clock lastRealTrusted currentRound round subRound :
  let body := hash_body (spoileHash calculateHash2 lastHash publicKey) (sent_sizes lastRealTrusted currentRound) (sent_stamp lastBlockStamp clock) in
  sendHash calculateHash2 generateSignature lastHash publicKey lastBlockStamp clock lastRealTrusted currentRound round subRound
  = (body, generateSignature (body ++ le_bytes 8 round ++ le_bytes 1 subRound)).
Proof.
  unfold sendHash, sent_sizes, sent_stamp, hash_body. destruct (time_stamps lastBlockStamp clock) as [last now].
  set (stamp := if now <? last then _ else now). destruct (if 1 <? currentRound then _ else _) as [tsz rsz]. cbn [fst snd].
  unfold PoolHash.to_binary. set (m0 := addVector _ []). unfold ds_enc. cbn [ds_put vector_ds uint_ds]. fold m0. unfold addValue. rewrite !app_nil_l.
  rewrite <- !app_assoc. set (body := m0 ++ _ ++ _ ++ le_bytes 8 stamp).
  assert (m0 ++ le_bytes 1 tsz ++ le_bytes 1 rsz ++ le_bytes 8 stamp ++ le_bytes 8 round ++ le_bytes 1 subRound
    = body ++ le_bytes 8 round ++ le_bytes 1 subRound) as -> by (unfold body; by rewrite <- !app_assoc).
  f_equal. rewrite take_app_length'; [done|]. rewrite length_app. rewrite (length_app (le_bytes 8 round)), !length_le_bytes. lia.
Qed.

Lemma read_digits_nonneg acc l : 0 <= acc -> 0 <= fst (read_digits acc l).
Proof.
  revert acc. induction l as [|c l IH]; intros acc Ha; cbn [read_digits]; [done|]. destruct (isdigit c) eqn:E; [|done].
  apply IH. unfold isdigit in E. apply andb_true_iff in E as [E1%Z.leb_le E2%Z.leb_le]. lia.
Qed.

Lemma stoull_range l v : stoull l = Ok v -> in_u 64 v.
Proof.
  unfold stoull. destruct (match skip_spaces l with 45 :: s' => (true, s') | 43 :: s' => (false, s') | _ => (false, skip_spaces l) end) as [neg s2].
  destruct s2 as [|c s2]; [done|]. destruct (isdigit c); [|done]. pose proof (read_digits_nonneg 0 (c :: s2) ltac:(lia)) as Hn.
  set (r := fst _) in *. destruct (Z.ltb_spec r (2 ^ 64)); [|done]. intros [= <-]. destruct neg; [by apply uwrap_range|split; lia].
Qed.

Lemma time_stamps_range lastBlockStamp clock : in_u 64 (time_stamps lastBlockStamp clock).1 /\ in_u 64 (time_stamps lastBlockStamp clock).2.
Proof.
  assert (in_u 64 0) as Hz by (unfold in_u; lia).
  unfold time_stamps. destruct (stoull lastBlockStamp) eqn:E1; [|by split]. apply stoull_range in E1.
  destruct (stoull clock) eqn:E2; [|by split]. apply stoull_range in E2. by split.
Qed.

Lemma sent_stamp_range lastBlockStamp clock : in_u 64 (sent_stamp lastBlockStamp clock).
Proof.
  pose proof (time_stamps_range lastBlockStamp clock) as [H1 H2]. unfold sent_stamp. destruct (time_stamps _ _) as [last now].
  destruct (now <? last); [by apply uwrap_range|done].
Qed.

(** The message with the hash of the last block that sendHash makes is accepted by getHash of
    every node in the same round whose clock allows the time stamp, with the same hash, stakes and
    stamp. *)
Theorem hash_message_accepted lastHash lastBlockStamp clock lastRealTrusted currentRound round subRound lastBlockStamp' clock' :
  let stamp := sent_stamp lastBlockStamp clock in
  let '(last, now) := time_stamps lastBlockStamp' clock' in
  let spoiled := spoileHash calculateHash2 lastHash publicKey in
  length (calculateHash2 lastHash publicKey) = kHashSize -> bytes_ok (calculateHash2 lastHash publicKey) ->
  last <= stamp -> stamp <= now + Z.min (u64 (now - last)) DefaultTimeStampRange / 2 * 3 < 2 ^ 64 ->
  let '(message, signature) :=
    sendHash calculateHash2 generateSignature lastHash publicKey lastBlockStamp clock lastRealTrusted currentRound round subRound in
  getHash lastBlockStamp' clock' message signature publicKey round subRound =
    Ok (Some (mkStageHash spoiled publicKey (sent_sizes lastRealTrusted currentRound).1 (sent_sizes lastRealTrusted currentRound).2 stamp round)).
Proof.
  intros stamp. destruct (time_stamps lastBlockStamp' clock') as [last now] eqn:Et. intros spoiled Hlen Hok Hlast Hnow.
  rewrite sendHash_spec. fold stamp spoiled. set (sz := sent_sizes lastRealTrusted currentRound).
  assert (spoiled = calculateHash2 lastHash publicKey) as Esp.
  { unfold spoiled, spoileHash, PoolHash.from_binary, PoolHash.to_binary. by rewrite Hlen, Nat.eqb_refl, orb_true_r. }
  assert (in_u 8 sz.1 /\ in_u 8 sz.2) as [Hs1 Hs2].
  { unfold sz, sent_sizes. destruct (1 <? currentRound); [|unfold in_u; cbn; lia]. split; by apply uwrap_range. }
  pose proof (sent_stamp_range lastBlockStamp clock) as Hst. fold stamp in Hst. pose proof hash_size_byte as Hhs.
  set (body := hash_body spoiled sz stamp).
  assert (bytes_ok body) as Hb.
  { unfold body, hash_body, ds_enc. cbn [ds_put vector_ds uint_ds]. unfold addVector, addValue. rewrite !app_nil_l, Esp.
    repeat (apply Forall_app; split); try apply le_bytes_ok; done. }
  assert (Z.of_nat (length body) < 2 ^ 62) as Hl.
  { unfold body, hash_body, ds_enc. cbn [ds_put vector_ds uint_ds]. unfold addVector, addValue. rewrite !app_nil_l, !length_app, !length_le_bytes, Esp, Hlen. lia. }
  unfold getHash. pose proof (sane_open _ Hb Hl) as Hs.
  assert (unread (open body) = ds_enc vector_ds spoiled ++ ds_enc (uint_ds 1) sz.1 ++ ds_enc (uint_ds 1) sz.2 ++ ds_enc (uint_ds 8) stamp ++ []) as E
    by (rewrite app_nil_r; done).
  unfold in_u in Hs1, Hs2, Hst.
  destruct (ds_step vector_ds spoiled (ds_enc (uint_ds 1) sz.1 ++ ds_enc (uint_ds 1) sz.2 ++ ds_enc (uint_ds 8) stamp ++ []) (open body)) as (s0 & G0 & S0 & U0 & _); [cbn; rewrite Esp, Hlen; lia|done|exact E|].
  destruct (ds_step (uint_ds 1) sz.1 (ds_enc (uint_ds 1) sz.2 ++ ds_enc (uint_ds 8) stamp ++ []) s0) as (s1 & G1 & S1 & U1 & _); [cbn; lia|done|exact U0|].
  destruct (ds_step (uint_ds 1) sz.2 (ds_enc (uint_ds 8) stamp ++ []) s1) as (s2 & G2 & S2 & U2 & _); [cbn; lia|done|exact U1|].
  destruct (ds_step (uint_ds 8) stamp [] s2) as (s3 & G3 & S3 & U3 & _); [cbn; lia|done|exact U2|].
  cbn [ds_get vector_ds uint_ds] in G0, G1, G2, G3. injection G1 as G1. injection G2 as G2. injection G3 as G3.
  rewrite G0. cbn [rbind]. rewrite G1, G2, G3, Et. rewrite (proj2 (Z.ltb_ge _ _) Hlast).
  pose proof (time_stamps_range lastBlockStamp' clock') as [R1 R2]. rewrite Et in R1, R2. cbn [fst snd] in R1, R2. unfold in_u in R1, R2.
  pose proof (uwrap_range 64 (now - last) ltac:(lia)) as R3. unfold in_u in R3.
  assert (0 <= Z.min (u64 (now - last)) DefaultTimeStampRange / 2 * 3) as R4.
  { assert (0 <= Z.min (u64 (now - last)) DefaultTimeStampRange / 2); [|lia]. apply Z.div_pos; [|lia]. unfold DefaultTimeStampRange. lia. }
  rewrite (uwrap_id 64 (now + _)) by (unfold in_u; lia). rewrite (proj2 (Z.ltb_ge _ _)) by lia.
  unfold addValue. rewrite <- app_assoc, generate_verifies. cbn [negb]. do 3 f_equal.
  unfold PoolHash.from_binary. rewrite Esp. by rewrite Hlen, Nat.eqb_refl, orb_true_r.
Qed.
End guarantees.
End StageOneSpec.

(** ** Witnesses *)

#[local] Existing Instance toy_libm.
Import Stage OnStage2.

Definition own_public : bytes := le_bytes 32 71.
Definition own_sign (m : bytes) : bytes := toy_hash (own_public ++ m) ++ replicate 32 0.
Definition toy_hash2 (a b : bytes) : bytes := toy_hash (a ++ b).

Lemma own_sign_verifies m : verifySignature (own_sign m) own_public m = true.
Proof.
  apply bool_decide_eq_true. unfold own_sign. rewrite take_app_length'; [done|]. symmetry. apply length_le_bytes.
Qed.

Definition idle_validator : IterState := IterValidator.round_state.
Definition blank_stage : StageOne := mkStageOne 0 [] [] [] [] [] [] [].
Definition fresh_stage1 : Trusted1 := Stage1.on 1 (mkTrusted1 true true true blank_stage 5 5 [] idle_validator).

(** A packet with 1001 transactions keeps the small one after it out. *)
Definition big_packet : TransactionsPacket := mkPacket [1] (replicate 1001 Tx.default) [] [].
Definition small_packet (i : Z) : TransactionsPacket := mkPacket [i] [sample_tx 1] [] [(0, replicate 64 5)].

Lemma big_packet_blocks_witness : Stage1.pick [] (Stage1.sorted_table {[ [1] := big_packet; [2] := small_packet 2 ]}) 0 0 [] = [].
Proof.
  apply (StageOneSpec.big_packet_blocks _ [] [1] big_packet).
  - by vm_compute.
  - by apply not_elem_of_nil.
  - intros h' q [[<- _]|[_ [<- _]%lookup_singleton_Some]]%lookup_insert_Some _; by vm_compute.
  - left. by vm_compute.
Defined.

(** 102 packets wait: 101 are proposed. *)
Definition many_packets : list TransactionsPacket := map (fun i => small_packet (Z.of_nat i)) (seq 0 102).
Definition many_conveyer : Impl := Eval vm_compute in
  foldl (fun s p => Conveyer.addTransactionsPacket p s)
    (Conveyer.setTable (mkRoundTable 7 [own_public; replicate 32 2; replicate 32 3; replicate 32 4; replicate 32 6] []) (Conveyer.init 10 10 10 5)).1 many_packets.
#[local] Abbreviation sync_sample := (Stage1.onSyncTransactions sample_ids (fun _ => Pool.default) sample_cache no_contracts no_contracts no_invocation
  (fun _ => None) (fun _ => false) 7 fresh_stage1 many_conveyer).

Lemma sync_many : exists s' c', sync_sample = ret (Ignore, s', c', []) /\ length (hashesCandidates (stage_ s')) = 101%nat.
Proof. do 2 eexists. split; [vm_compute; reflexivity|by vm_compute]. Qed.

Lemma candidates_bounded_witness :
  exists s' c' chosen, sync_sample = ret (Ignore, s', c', []) /\ hashesCandidates (stage_ s') = map fst chosen /\ length chosen = 101%nat /\
    StageOneSpec.count_sum chosen <= 1000.
Proof.
  destruct sync_many as (s' & c' & E & El).
  destruct (StageOneSpec.candidates_bounded sample_ids (fun _ => Pool.default) sample_cache no_contracts no_contracts no_invocation
    (fun _ => None) (fun _ => false) 7 fresh_stage1 many_conveyer Ignore s' c' [] E ltac:(cbn; lia)) as (chosen & Ec & _ & _ & Hc & _).
  change (hashesCandidates (stage_ s') = map fst chosen) in Ec.
  exists s', c', chosen. split_and!; [exact E|exact Ec| |exact Hc]. rewrite Ec, length_map in El. exact El.
Defined.

Definition waiting_stage1 : Trusted1 := fresh_stage1 <| enough_hashes := true |> <| transactions_checked := true |>.

Lemma stage_one_reports_witness :
  exists s', StageOneSpec.step sample_ids (fun _ => Pool.default) sample_cache no_contracts no_contracts no_invocation (fun _ => None) (fun _ => false)
      toy_hash2 StageOneSpec.Timer waiting_stage1 many_conveyer = ret (s', many_conveyer, true) /\ StageOneSpec.all_done s' = true.
Proof.
  eexists. split; [reflexivity|].
  eapply (StageOneSpec.stage_one_reports sample_ids (fun _ => Pool.default) sample_cache no_contracts no_contracts no_invocation (fun _ => None)
    (fun _ => false) toy_hash2 StageOneSpec.Timer waiting_stage1 many_conveyer); reflexivity.
Defined.

(** Of five confidants one sends its hash twice; the two other candidates are no confidants. *)
Definition lonely_stage1 : Trusted1 :=
  fresh_stage1 <| stage_ := blank_stage <| trustedCandidates := [own_public; replicate 32 8; replicate 32 9] |> |>.

Lemma repeated_hash_suffices_witness :
  exists s', StageOneSpec.repeat_hash toy_hash2 2 [1] (Stage1.spoileHash toy_hash2 [1] own_public) own_public lonely_stage1 many_conveyer = ret s' /\
    enough_hashes s' = true /\ trustedCandidates (stage_ s') = [own_public; replicate 32 8; replicate 32 9].
Proof.
  apply (StageOneSpec.repeated_hash_suffices toy_hash2 [1] own_public lonely_stage1 many_conveyer 5 2); try (by vm_compute); [by left|cbn; lia..].
Defined.

(** The clock is behind the last block. *)
Lemma stage_one_accepted_witness :
  exists s', Stage1.finalizeStage own_sign [49; 48; 48] [57; 57] 7 0 fresh_stage1 = ret s' /\
    getStageOne [replicate 32 0; own_public] 7 0 0 (s1_signature (stage_ s')) (s1_message (stage_ s')) = Ok (Some (stage_ s')) /\
    roundTimeStamp (stage_ s') = [49; 48; 49].
Proof.
  destruct (Stage1.finalizeStage own_sign [49; 48; 48] [57; 57] 7 0 fresh_stage1) as [[s'|]|] eqn:E; [|by vm_compute in E..].
  exists s'. split; [reflexivity|].
  assert (roundTimeStamp (stage_ s') = [49; 48; 49]) as Ets by (vm_compute in E; by injection E as <-). split; [|exact Ets].
  apply (StageOneSpec.stage_one_accepted own_sign own_public own_sign_verifies [49; 48; 48] [57; 57] 7 0 fresh_stage1 s' [replicate 32 0; own_public] E);
    vm_compute in E; injection E as <-; [|by apply (bool_decide_unpack _); vm_compute|by vm_compute|by vm_compute].
  split; cbn; [unfold in_u; lia|done|by repeat constructor|by repeat constructor|lia].
Defined.

Lemma hash_message_accepted_witness :
  let '(message, signature) := Stage1.sendHash toy_hash2 own_sign [1] own_public [49; 48; 48] [49; 50; 48] [0; 255; 1] 7 7 0 in
  Stage1.getHash [49; 48; 48] [49; 49; 48] message signature own_public 7 0 =
    Ok (Some (mkStageHash (Stage1.spoileHash toy_hash2 [1] own_public) own_public 3 2 120 7)).
Proof.
  apply (StageOneSpec.hash_message_accepted toy_hash2 own_sign own_public own_sign_verifies [1] [49; 48; 48] [49; 50; 48] [0; 255; 1] 7 7 0
    [49; 48; 48] [49; 49; 48]); [by vm_compute|apply (bool_decide_unpack _); by vm_compute|by vm_compute|by vm_compute].
Defined.
