(* ===== verification/RoundPackage.v ===== *)
(** * Round packages and their bookkeeping

    [RoundPackage] ([csnode/src/roundpackage.cpp]): the table of the next round
    with the data of the block and the signatures of the confidants, its binary
    form and the part of it that is signed.  [ConfirmationList]
    ([csnode/src/confirmationlist.cpp]): what the confidants of the last rounds
    confirmed.  [RoundStat] ([csnode/src/roundstat.cpp]): the durations of the
    rounds, with the time since the start as an argument. *)

From Stdlib Require Import ZArith Lia Sorted.
From stdpp Require Import base tactics numbers option list gmap.
From S2P Require Import Prelude Effect OrdMap BinStream Crypto DataStream Packet Pool Conveyer Stage Stage3 Stage1.

Local Open Scope Z_scope.
Local Open Scope cs_scope.

(** [RoundPackage]; [poolMetaInfo_] with the mask of its characteristic.  The
    smart signatures are never set. *)
Record RoundPackage := mkPackage {
  roundTable_ : RoundTable;
  poolMetaInfo_ : PoolMetaInfo;
  characteristicMask_ : bytes;
  roundSignatures_ : list bytes;
  poolSignatures_ : list bytes;
  trustedSignatures_ : list bytes;
  binaryRepresentation_ : bytes;
  messageSize_ : nat;
  iteration_ : Z;
  subRound_ : Z;
  sender_ : option bytes
}.
#[export] Instance eta_package : Eta RoundPackage := fun p =>
  mkPackage (roundTable_ p) (poolMetaInfo_ p) (characteristicMask_ p) (roundSignatures_ p) (poolSignatures_ p) (trustedSignatures_ p)
    (binaryRepresentation_ p) (messageSize_ p) (iteration_ p) (subRound_ p) (sender_ p).

(** [RoundPackage::RoundPackage] *)
Definition new_package : RoundPackage := mkPackage (mkRoundTable 0 [] []) (mkPoolMetaInfo [] [] 0 []) [] [] [] [] [] 0 0 0 None.

Module RoundPackage.
Section package.
Context `{!Cscrypto}.
Implicit Types p : RoundPackage.

(** [operator<<], [operator>>] of [csdb::PoolHash], into an empty hash *)
Definition get_poolHash : reader bytes := fun s =>
  let! (b, s) := parseVector s in
  Ok (match b with [] => [] | _ => PoolHash.from_binary b end, s).
Definition put_poolHash (hash : bytes) (os : bytes) : bytes := addVector (PoolHash.to_binary hash) os.
Definition poolHash_ds : streamable bytes :=
  mkStreamable bytes put_poolHash get_poolHash (fun b => b = [] \/ length b = kHashSize).

Definition keys_ds : streamable (list bytes) := entities_ds (array_ds kPublicKeySize).
Definition hashes_ds : streamable (list bytes) := entities_ds Stage.packetHash_ds.
Definition signatures_ds : streamable (list bytes) := entities_ds (array_ds kSignatureSize).

(** [refillToSign] *)
Definition sign_bytes p : bytes :=
  let stream := ds_put keys_ds (rt_confidants (roundTable_ p)) [] in
  let stream := addVector (pm_realTrustedMask (poolMetaInfo_ p)) stream in
  let stream := addValue 1 (subRound_ p) stream in
  let stream := addValue 1 0 stream in
  let stream := ds_put hashes_ds (rt_hashes (roundTable_ p)) stream in
  let stream := addVector (pm_timestamp (poolMetaInfo_ p)) stream in
  let stream := addVector (characteristicMask_ p) stream in
  let stream := addValue 8 (pm_sequenceNumber (poolMetaInfo_ p)) stream in
  ds_put poolHash_ds (pm_previousHash (poolMetaInfo_ p)) stream.
Definition refillToSign p : RoundPackage :=
  let bytes := sign_bytes p in p <| binaryRepresentation_ := bytes |> <| messageSize_ := length bytes |>.

Definition bytesToSign p : bytes * RoundPackage :=
  let p := refillToSign p in (take (messageSize_ p) (binaryRepresentation_ p), p).

Definition toBinary p : bytes * RoundPackage :=
  let p := if (length (binaryRepresentation_ p) =? 0)%nat then refillToSign p else p in
  let p :=
    if (length (binaryRepresentation_ p) =? messageSize_ p)%nat then
      if (0 <? length (roundSignatures_ p))%nat && (0 <? length (poolSignatures_ p))%nat && (0 <? length (trustedSignatures_ p))%nat then
        let stream := ds_put signatures_ds (roundSignatures_ p) (binaryRepresentation_ p) in
        let stream := ds_put signatures_ds (poolSignatures_ p) stream in
        p <| binaryRepresentation_ := ds_put signatures_ds (trustedSignatures_ p) stream |>
      else p
    else p in
  (binaryRepresentation_ p, p).

Definition MaxMessageHashes : nat := Stage1.MaxStageOneHashes * 2.

(** [fromBinary] of a new package; [None] is [false], after which the callers
    drop the package.  The stream's flag is not looked at. *)
Definition fromBinary (data : bytes) (rNum subRound : Z) : result (option RoundPackage) :=
  let s := open data in
  let! (confidants, s) := ds_get keys_ds s in
  if (length confidants =? 0)%nat || (MaxTrustedNodes <? Z.of_nat (length confidants)) then Ok None
  else
    let! (realTrustedMask, s) := ds_get vector_ds s in
    let! (_, s) := ds_get (uint_ds 1) s in
    let! (iteration, s) := ds_get (uint_ds 1) s in
    if MaxTrustedNodes <? Z.of_nat (length realTrustedMask) then Ok None
    else
      let! (hashes, s) := ds_get hashes_ds s in
      if (MaxMessageHashes <? length hashes)%nat then Ok None
      else
        let! (timestamp, s) := ds_get vector_ds s in
        if (20 <? length timestamp)%nat then Ok None
        else
          let! (mask, s) := ds_get vector_ds s in
          if 1000000 <? Z.of_nat (length mask) then Ok None
          else
            let! (sequenceNumber, s) := ds_get (uint_ds 8) s in
            if negb (sequenceNumber =? u64 (rNum - 1)) then Ok None
            else
              let! (previousHash, s) := ds_get poolHash_ds s in
              let! (roundSignatures, s) := ds_get signatures_ds s in
              let tCount := TrustedMask.trustedSize realTrustedMask in
              if negb (tCount =? Z.of_nat (length roundSignatures)) then Ok None
              else
                let! (poolSignatures, s) := ds_get signatures_ds s in
                if negb (tCount =? Z.of_nat (length poolSignatures)) then Ok None
                else
                  let! (trustedSignatures, s) := ds_get signatures_ds s in
                  if negb (tCount =? Z.of_nat (length trustedSignatures)) then Ok None
                  else
                    Ok (Some (mkPackage (mkRoundTable rNum confidants hashes) (mkPoolMetaInfo timestamp previousHash sequenceNumber realTrustedMask)
                          mask roundSignatures poolSignatures trustedSignatures [] 0 iteration subRound None)).

Definition updatePoolMeta (meta : PoolMetaInfo) (mask : bytes) p : RoundPackage := p <| poolMetaInfo_ := meta |> <| characteristicMask_ := mask |>.
Definition updateRoundTable (rt : RoundTable) p : RoundPackage := p <| roundTable_ := rt |>.
Definition updateRoundSignatures (signatures : list bytes) p : RoundPackage := p <| roundSignatures_ := signatures |>.
Definition updatePoolSignatures (signatures : list bytes) p : RoundPackage := p <| poolSignatures_ := signatures |>.
Definition updateTrustedSignatures (signatures : list bytes) p : RoundPackage := p <| trustedSignatures_ := signatures |>.
Definition messageLength p : nat := length (binaryRepresentation_ p).

Definition setSenderNode (sender : bytes) p : RoundPackage := p <| sender_ := Some sender |>.
Definition hasSender p : bool := match sender_ p with Some _ => true | None => false end.
(** [getSender]: the sizes are those of the type *)
Definition getSender p : option bytes := sender_ p.

(** [RoundTable::toBinary] *)
Definition table_toBinary (t : RoundTable) : bytes := ds_put keys_ds (rt_confidants t) (addValue 8 (rt_round t) []).
End package.
End RoundPackage.

(** ** Confirmations *)

(** [TrustedConfirmation] *)
Record TrustedConfirmation := mkConfirmation { bigBang : bool; tc_confidants : list bytes; tc_mask : bytes; tc_signatures : list bytes }.

Module ConfirmationList.
Implicit Types l : list (Z * TrustedConfirmation).

(** [cs::values::kDefaultMetaStorageMaxSize] *)
Definition kDefaultMetaStorageMaxSize : Z := 5.

Definition remove (rNum : Z) l : list (Z * TrustedConfirmation) := List.filter (fun kv => negb (kv.1 =? rNum)) l.
Definition find (rNum : Z) l : option TrustedConfirmation := OrdMap.find rNum l.

Definition add (rNum : Z) (bang : bool) (confidants : list bytes) (confirmationsMask : bytes) (confirmation : list bytes) l : list (Z * TrustedConfirmation) :=
  let l := match OrdMap.find rNum l with Some _ => remove rNum l | None => l end in
  let l := OrdMap.emplace rNum (mkConfirmation bang confidants confirmationsMask confirmation) l in
  if kDefaultMetaStorageMaxSize <? rNum then List.filter (fun kv => negb (kv.1 <? rNum - kDefaultMetaStorageMaxSize)) l else l.
End ConfirmationList.

(** ** The durations of the rounds *)

(** [RoundStat]; the points of time in milliseconds *)
Record RoundStat := mkStat {
  totalAcceptedTransactions_ : Z;
  startPointMs_ : Z;
  totalDurationMs_ : Z;
  aveRoundMs_ : Z;
  nodeStartRound_ : Z;
  startSkipRounds_ : Z;
  lastRoundMs_ : Z;
  roundElapseTimePoint_ : Z;
  roundElapseSetting_ : Z
}.
#[export] Instance eta_stat : Eta RoundStat := fun s =>
  mkStat (totalAcceptedTransactions_ s) (startPointMs_ s) (totalDurationMs_ s) (aveRoundMs_ s) (nodeStartRound_ s) (startSkipRounds_ s)
    (lastRoundMs_ s) (roundElapseTimePoint_ s) (roundElapseSetting_ s).

Module RoundStat.
Implicit Types s : RoundStat.

Definition onRoundStart (now round : Z) s : RoundStat :=
  let s :=
    if 0 <? startSkipRounds_ s then
      s <| startSkipRounds_ := startSkipRounds_ s - 1 |> <| nodeStartRound_ := round |> <| startPointMs_ := now |> <| totalDurationMs_ := 0 |>
    else
      let newDurationMs := u64 (now - startPointMs_ s) in
      let counter := if nodeStartRound_ s <? round then round - nodeStartRound_ s else 1 in
      s <| totalDurationMs_ := newDurationMs |> <| aveRoundMs_ := newDurationMs / counter |> in
  s <| lastRoundMs_ := 0 |>.

Definition onStoreBlock (transactions_count : Z) s : RoundStat := s <| totalAcceptedTransactions_ := u64 (totalAcceptedTransactions_ s + transactions_count) |>.
Definition isCurrentRoundTooLong (long_duration_ms : Z) s : bool := long_duration_ms <=? lastRoundMs_ s.
(** [onPingReceived]: [point] is the time of the ping before *)
Definition onPingReceived (now point : Z) s : RoundStat * Z := (s <| lastRoundMs_ := u64 (lastRoundMs_ s + (now - point)) |>, now).
Definition onRoundChanged (now : Z) s : RoundStat := s <| roundElapseTimePoint_ := now |>.
(** [onMainThreadIterated]: whether [roundTimeElapsed] is emitted; [later] is the time when its receivers are done *)
Definition onMainThreadIterated (now later : Z) s : bool * RoundStat :=
  if u64 (now - roundElapseTimePoint_ s) <? roundElapseSetting_ s then (false, s) else (true, s <| roundElapseTimePoint_ := later |>).
End RoundStat.

(** * What a round package guarantees *)

Module PackageSpec.
Import RoundPackage.
Section spec.
Context `{!Cscrypto, !CscryptoLaws _} `{!Small kPublicKeySize, !Small kSignatureSize}.
Implicit Types p q : RoundPackage.

#[local] Instance small_hash : Small kHashSize.
Proof using Type*. unfold Small. pose proof hash_size_byte. lia. Qed.
#[local] Existing Instance Stage.packetHash_ds_ok.

#[local] Instance poolHash_ds_ok : Streamable poolHash_ds.
Proof using Type*.
  split; cbn [ds_get poolHash_ds].
  - apply (ds_put_app (c := vector_ds)).
  - intros a rest s Ha Hs E. unfold get_poolHash. rewrite (parseVector_enc a rest s); [|..|done|done].
    + cbn [rbind]. do 2 f_equal. destruct a; [done|]. destruct Ha as [Ha|Ha]; [done|].
      unfold PoolHash.from_binary. by rewrite Ha, (Nat.eqb_refl kHashSize), orb_true_r.
    + pose proof hash_size_byte. destruct Ha as [->| ->]; cbn [length]; lia.
  - intros s a s' Hs. unfold get_poolHash.
    destruct (parseVector s) as [[b s1]|] eqn:G; [|done]. cbn [rbind]. intros [= <- <-].
    by apply (ds_get_after (c := vector_ds)) in G.
Qed.

#[local] Instance keys_ds_ok : Streamable keys_ds. Proof using Type*. unfold keys_ds. apply _. Qed.
#[local] Instance hashes_ds_ok : Streamable hashes_ds. Proof using Type*. unfold hashes_ds. apply _. Qed.
#[local] Instance signatures_ds_ok : Streamable signatures_ds. Proof using Type*. unfold signatures_ds. apply _. Qed.

(** The fields have the sizes of their types. *)
Record wf_package p : Prop := {
  wfp_keys : ds_wf keys_ds (rt_confidants (roundTable_ p));
  wfp_mask : Z.of_nat (length (pm_realTrustedMask (poolMetaInfo_ p))) < 2 ^ 63;
  wfp_sub : in_u 8 (subRound_ p);
  wfp_hashes : ds_wf hashes_ds (rt_hashes (roundTable_ p));
  wfp_stamp : Z.of_nat (length (pm_timestamp (poolMetaInfo_ p))) < 2 ^ 63;
  wfp_char : Z.of_nat (length (characteristicMask_ p)) < 2 ^ 63;
  wfp_seq : in_u 64 (pm_sequenceNumber (poolMetaInfo_ p));
  wfp_prev : ds_wf poolHash_ds (pm_previousHash (poolMetaInfo_ p))
}.

Lemma sign_bytes_enc p :
  sign_bytes p = ds_enc keys_ds (rt_confidants (roundTable_ p)) ++ ds_enc vector_ds (pm_realTrustedMask (poolMetaInfo_ p)) ++
    ds_enc (uint_ds 1) (subRound_ p) ++ ds_enc (uint_ds 1) 0 ++ ds_enc hashes_ds (rt_hashes (roundTable_ p)) ++
    ds_enc vector_ds (pm_timestamp (poolMetaInfo_ p)) ++ ds_enc vector_ds (characteristicMask_ p) ++
    ds_enc (uint_ds 8) (pm_sequenceNumber (poolMetaInfo_ p)) ++ ds_enc poolHash_ds (pm_previousHash (poolMetaInfo_ p)).
Proof using Type*.
  unfold sign_bytes. change addVector with (ds_put vector_ds). change (addValue 1) with (ds_put (uint_ds 1)).
  change (addValue 8) with (ds_put (uint_ds 8)).
  rewrite (ds_put_app (c := poolHash_ds)), (ds_put_app (c := uint_ds 8)), !(ds_put_app (c := vector_ds)),
    (ds_put_app (c := hashes_ds)), !(ds_put_app (c := uint_ds 1)).
  fold (ds_enc keys_ds (rt_confidants (roundTable_ p))). by rewrite <- !app_assoc.
Qed.

(** What a full package consists of: the signed part and the signatures *)
Definition full p : Prop := roundSignatures_ p <> [] /\ poolSignatures_ p <> [] /\ trustedSignatures_ p <> [].
Definition package_bytes p : bytes :=
  sign_bytes p ++ ds_enc signatures_ds (roundSignatures_ p) ++ ds_enc signatures_ds (poolSignatures_ p) ++ ds_enc signatures_ds (trustedSignatures_ p).

Lemma full_test p :
  full p -> (0 <? length (roundSignatures_ p))%nat && (0 <? length (poolSignatures_ p))%nat && (0 <? length (trustedSignatures_ p))%nat = true.
Proof. intros (H1 & H2 & H3). by destruct (roundSignatures_ p), (poolSignatures_ p), (trustedSignatures_ p). Qed.

Lemma put_signatures p os :
  ds_put signatures_ds (trustedSignatures_ p) (ds_put signatures_ds (poolSignatures_ p) (ds_put signatures_ds (roundSignatures_ p) os)) =
  os ++ ds_enc signatures_ds (roundSignatures_ p) ++ ds_enc signatures_ds (poolSignatures_ p) ++ ds_enc signatures_ds (trustedSignatures_ p).
Proof using Type*. rewrite !(ds_put_app (c := signatures_ds)). by rewrite <- !app_assoc. Qed.

Lemma toBinary_full p : binaryRepresentation_ p = [] -> full p -> (toBinary p).1 = package_bytes p.
Proof using Type*.
  intros E F. unfold toBinary. rewrite E. cbn [length Nat.eqb].
  change (roundSignatures_ (refillToSign p)) with (roundSignatures_ p). change (poolSignatures_ (refillToSign p)) with (poolSignatures_ p).
  change (trustedSignatures_ (refillToSign p)) with (trustedSignatures_ p).
  change (messageSize_ (refillToSign p)) with (length (binaryRepresentation_ (refillToSign p))).
  rewrite Nat.eqb_refl, (full_test p F). cbn [fst upd binaryRepresentation_].
  change (binaryRepresentation_ (refillToSign p)) with (sign_bytes p). exact (put_signatures p (sign_bytes p)).
Qed.

(** The cached bytes are none, or those of the package as it is: the signed part that
    [bytesToSign] leaves, or all that [toBinary] leaves. *)
Definition current_bytes p : Prop :=
  binaryRepresentation_ p = [] \/
  messageSize_ p = length (sign_bytes p) /\ (binaryRepresentation_ p = sign_bytes p \/ binaryRepresentation_ p = package_bytes p).

Lemma bytesToSign_current p : current_bytes (bytesToSign p).2.
Proof. right. split; [done|by left]. Qed.

Lemma package_longer p : (length (sign_bytes p) < length (package_bytes p))%nat.
Proof using Type*.
  unfold package_bytes. rewrite !length_app. unfold ds_enc at 1, signatures_ds, entities_ds; cbn [ds_put]. unfold put_entities.
  rewrite (put_all_app (array_ds kSignatureSize)). unfold addValue. rewrite !length_app, length_le_bytes. lia.
Qed.

Lemma toBinary_kept p : binaryRepresentation_ p <> [] -> length (binaryRepresentation_ p) <> messageSize_ p -> (toBinary p).1 = binaryRepresentation_ p.
Proof.
  intros Hb Hm. unfold toBinary. destruct (binaryRepresentation_ p) as [|b l] eqn:E; [done|].
  change (length (b :: l) =? 0)%nat with false. cbn iota. rewrite E, (proj2 (Nat.eqb_neq _ _)) by exact Hm. exact E.
Qed.

Lemma toBinary_current p : full p -> current_bytes p -> (toBinary p).1 = package_bytes p.
Proof using Type*.
  intros F [E|[Em [E|E]]]; [by apply toBinary_full|..].
  - pose proof (toBinary_full (p <| binaryRepresentation_ := [] |>) eq_refl F) as Hp. change (package_bytes (p <| binaryRepresentation_ := [] |>)) with (package_bytes p) in Hp.
    rewrite <- Hp. unfold toBinary. rewrite E. change (length (binaryRepresentation_ (p <| binaryRepresentation_ := [] |>)) =? 0)%nat with true. cbn iota.
    assert ((if (length (sign_bytes p) =? 0)%nat then refillToSign p else p) = refillToSign (p <| binaryRepresentation_ := [] |>)) as ->; [|done].
    destruct (Nat.eqb_spec (length (sign_bytes p)) 0); destruct p; cbn in *; by subst.
  - rewrite toBinary_kept; [done|..]; pose proof (package_longer p); rewrite E; [by intros E0; rewrite E0 in *; cbn in *; lia|lia].
Qed.

(** What [fromBinary] checks *)
Record within_limits p : Prop := {
  wl_keys : rt_confidants (roundTable_ p) <> [] /\ Z.of_nat (length (rt_confidants (roundTable_ p))) <= MaxTrustedNodes;
  wl_mask : Z.of_nat (length (pm_realTrustedMask (poolMetaInfo_ p))) <= MaxTrustedNodes;
  wl_hashes : (length (rt_hashes (roundTable_ p)) <= MaxMessageHashes)%nat;
  wl_stamp : (length (pm_timestamp (poolMetaInfo_ p)) <= 20)%nat;
  wl_char : Z.of_nat (length (characteristicMask_ p)) <= 1000000;
  wl_seq : pm_sequenceNumber (poolMetaInfo_ p) = u64 (rt_round (roundTable_ p) - 1);
  wl_round : Z.of_nat (length (roundSignatures_ p)) = TrustedMask.trustedSize (pm_realTrustedMask (poolMetaInfo_ p));
  wl_pool : Z.of_nat (length (poolSignatures_ p)) = TrustedMask.trustedSize (pm_realTrustedMask (poolMetaInfo_ p));
  wl_trusted : Z.of_nat (length (trustedSignatures_ p)) = TrustedMask.trustedSize (pm_realTrustedMask (poolMetaInfo_ p))
}.

(** What a package keeps on its way *)
Definition received p : RoundPackage :=
  p <| binaryRepresentation_ := [] |> <| messageSize_ := 0%nat |> <| iteration_ := 0 |> <| sender_ := None |>.

Definition wf_signatures p : Prop :=
  ds_wf signatures_ds (roundSignatures_ p) /\ ds_wf signatures_ds (poolSignatures_ p) /\ ds_wf signatures_ds (trustedSignatures_ p).

Lemma no_keys_false (l : list bytes) : l <> [] -> (length l =? 0)%nat = false.
Proof. by destruct l. Qed.

(** One reader of the chain, then its checks *)
Ltac run_checks := ds_run; [eassumption|];
  repeat first [rewrite Z.eqb_refl | rewrite no_keys_false by assumption | rewrite (proj2 (Z.ltb_ge _ _)) by assumption | rewrite (proj2 (Nat.ltb_ge _ _)) by assumption];
  cbn [orb negb].

(** The bytes of a package within the limits are read back. *)
Lemma fromBinary_bytes p :
  wf_package p -> wf_signatures p -> within_limits p -> bytes_ok (package_bytes p) -> Z.of_nat (length (package_bytes p)) < 2 ^ 62 ->
  fromBinary (package_bytes p) (rt_round (roundTable_ p)) (subRound_ p) = Ok (Some (received p)).
Proof using Type*.
  intros [Hke Hma Hsu Hha Hst Hch Hse Hpr] (Hrs & Hps & Hts) [[Lk Lk'] Lm Lh Ls Lc Lq Lr Lp Lt] Hb Hl.
  pose proof (sane_open _ Hb Hl) as Hs.
  pose proof (unread_open (package_bytes p)) as Eu. unfold package_bytes in Eu at 2. rewrite sign_bytes_enc, <- !app_assoc in Eu.
  rewrite <- (app_nil_r (ds_enc signatures_ds (trustedSignatures_ p))) in Eu.
  assert (in_u 8 0) as H0 by done. unfold fromBinary. cbv zeta. do 7 run_checks.
  ds_run; [exact Hse|]. rewrite Lq, Z.eqb_refl. cbn [negb]. ds_run; [exact Hpr|].
  ds_run; [exact Hrs|]. rewrite Lr, Z.eqb_refl. cbn [negb].
  ds_run; [exact Hps|]. rewrite Lp, Z.eqb_refl. cbn [negb]. ds_run; [exact Hts|]. rewrite Lt, Z.eqb_refl. cbn [negb].
  unfold received. rewrite <- Lq. destruct p as [[] [] ? ? ? ? ? ? ? ? ?]; reflexivity.
Qed.

(** C31: A round package within the limits that is serialised with its signatures is read back by
    RoundPackage::fromBinary with the same table, block data, masks and signatures, when it has no
    cached bytes yet or those that bytesToSign or toBinary left for the package as it is; the
    iteration becomes 0 and the cached bytes and the sender are empty. *)
Theorem package_roundtrip p :
  wf_package p -> wf_signatures p -> within_limits p -> full p -> current_bytes p ->
  bytes_ok (package_bytes p) -> Z.of_nat (length (package_bytes p)) < 2 ^ 62 ->
  fromBinary (toBinary p).1 (rt_round (roundTable_ p)) (subRound_ p) = Ok (Some (received p)).
Proof using Type*.
  intros Hw Hws Hl F E Hb Hlen. rewrite (toBinary_current p F E). by apply fromBinary_bytes.
Qed.

(** The signed bytes fix the fields of the signed part. *)
Definition signed_fields p : list bytes * bytes * Z * list bytes * bytes * bytes * Z * bytes :=
  (rt_confidants (roundTable_ p), pm_realTrustedMask (poolMetaInfo_ p), subRound_ p, rt_hashes (roundTable_ p), pm_timestamp (poolMetaInfo_ p),
   characteristicMask_ p, pm_sequenceNumber (poolMetaInfo_ p), pm_previousHash (poolMetaInfo_ p)).

Lemma bytesToSign_bytes p : (bytesToSign p).1 = sign_bytes p.
Proof. unfold bytesToSign. cbn [fst]. change (messageSize_ (refillToSign p)) with (length (binaryRepresentation_ (refillToSign p))). by rewrite firstn_all. Qed.

(** The bytes that the confidants sign fix a round package: two packages with the same bytesToSign
    have the same confidants, trusted mask, sub-round, packet hashes, time stamp, characteristic,
    block number and previous hash. *)
Theorem bytesToSign_injective p q :
  wf_package p -> wf_package q -> bytes_ok (sign_bytes p) -> Z.of_nat (length (sign_bytes p)) < 2 ^ 62 ->
  (bytesToSign p).1 = (bytesToSign q).1 -> signed_fields p = signed_fields q.
Proof using Type*.
  rewrite !bytesToSign_bytes.
  intros [Pke Pma Psu Pha Pst Pch Pse Ppr] [Qke Qma Qsu Qha Qst Qch Qse Qpr] Hb Hl E.
  rewrite (sign_bytes_enc p) in Hb, Hl, E. rewrite (sign_bytes_enc q) in E.
  rewrite <- (app_nil_r (ds_enc poolHash_ds (pm_previousHash (poolMetaInfo_ p)))) in Hb, Hl, E.
  rewrite <- (app_nil_r (ds_enc poolHash_ds (pm_previousHash (poolMetaInfo_ q)))) in E.
  assert (in_u 8 0) as H0 by done.
  repeat match type of E with
  | ds_enc ?c ?a ++ ?r = ds_enc ?c ?b ++ ?r' =>
      let H := fresh "F" in
      assert (a = b /\ r = r') as [H E'] by (apply (enc_app_inj c); assumption);
      apply Forall_app in Hb as [_ Hb]; rewrite length_app in Hl;
      assert (Z.of_nat (length r) < 2 ^ 62) as Hl' by lia;
      clear E Hl; rename E' into E, Hl' into Hl
  end.
  unfold signed_fields. congruence.
Qed.

(** After toBinary a full package is frozen: what the table, the block data or the signatures are
    updated to afterwards never reaches the bytes that toBinary gives. *)
Theorem toBinary_frozen p table info mask rs ps ts :
  full p -> binaryRepresentation_ p = [] ->
  let q := updateTrustedSignatures ts (updatePoolSignatures ps (updateRoundSignatures rs (updatePoolMeta info mask (updateRoundTable table (toBinary p).2)))) in
  (toBinary q).1 = (toBinary p).1.
Proof using Type*.
  intros F E q. pose proof (toBinary_full p E F) as Ep.
  assert ((toBinary p).1 = binaryRepresentation_ (toBinary p).2) as E1 by done.
  assert (binaryRepresentation_ q = package_bytes p) as E2 by by rewrite <- Ep, E1.
  assert (messageSize_ q = length (sign_bytes p)) as E3.
  { unfold q. cbn -[toBinary]. unfold toBinary. rewrite E. cbn [length Nat.eqb].
    change (messageSize_ (refillToSign p)) with (length (binaryRepresentation_ (refillToSign p))).
    rewrite Nat.eqb_refl. by case_match. }
  pose proof (package_longer p) as L. rewrite Ep, toBinary_kept; [done|..]; rewrite E2; [|lia]. by intros E0; rewrite E0 in L; cbn in L; lia.
Qed.
End spec.
End PackageSpec.

(** ** Confirmations *)

Module ConfirmationSpec.
Import ConfirmationList.

(** The rounds that are still kept when the round comes *)
Definition kept (rNum k : Z) : bool := negb (kDefaultMetaStorageMaxSize <? rNum) || negb (k <? rNum - kDefaultMetaStorageMaxSize).

Lemma find_remove rNum l k : OrdMap.find k (remove rNum l) = if k =? rNum then None else OrdMap.find k l.
Proof. unfold remove. rewrite (OrdMap.find_filter (fun k => negb (k =? rNum))). by destruct (k =? rNum). Qed.

(** ConfirmationList::add replaces the confirmation of its round, keeps those of the five rounds
    before and of later rounds, and drops the older ones; the list stays a map. *)
Theorem confirmations_spec rNum bang confidants mask signatures l :
  OrdMap.sorted l ->
  let l' := add rNum bang confidants mask signatures l in
  OrdMap.sorted l' /\
  forall k, find k l' = if k =? rNum then Some (mkConfirmation bang confidants mask signatures) else if kept rNum k then find k l else None.
Proof.
  intros Hs l'. unfold l', add, find, kept, kDefaultMetaStorageMaxSize.
  set (l1 := match OrdMap.find rNum l with Some _ => _ | None => _ end).
  assert (OrdMap.sorted l1 /\ forall k, OrdMap.find k l1 = if k =? rNum then None else OrdMap.find k l) as [Hs1 Hf].
  { unfold l1. destruct (OrdMap.find rNum l) eqn:E; [split; [by apply OrdMap.sorted_filter|apply find_remove]|].
    split; [done|]. intros k. by destruct (Z.eqb_spec k rNum) as [->|]. }
  assert (OrdMap.find rNum l1 = None) as Hn by by rewrite Hf, Z.eqb_refl.
  destruct (Z.ltb_spec 5 rNum) as [Hlt|Hge]; cbn [negb orb].
  - split; [by apply OrdMap.sorted_filter, OrdMap.sorted_emplace|]. intros k.
    rewrite (OrdMap.find_filter (fun k => negb (k <? rNum - 5))), OrdMap.find_emplace, Hf by done.
    destruct (Z.eqb_spec k rNum) as [->|]; [|done]. by rewrite (proj2 (Z.ltb_ge _ _)) by lia.
  - split; [by apply OrdMap.sorted_emplace|]. intros k. rewrite OrdMap.find_emplace, Hf by done. by destruct (k =? rNum).
Qed.
End ConfirmationSpec.

(** ** Witnesses *)

(** A package of round 8 with three confidants, the second of whom did not sign. *)
Definition sample_package : RoundPackage :=
  mkPackage (mkRoundTable 8 [le_bytes 32 1; le_bytes 32 2; le_bytes 32 3] [le_bytes 32 6; []]) (mkPoolMetaInfo [49; 50] (le_bytes 32 5) 7 [0; 255; 0]) [1; 0; 1]
    [le_bytes 64 1; le_bytes 64 2] [le_bytes 64 3; le_bytes 64 4] [le_bytes 64 5; le_bytes 64 6] [] 0 9 2 (Some (le_bytes 32 1)).

Lemma keys_wf (n : nat) (l : list bytes) :
  (0 < n)%nat -> Forall (fun k => length k = n) l -> Z.of_nat (length l) < 2 ^ 63 -> ds_wf (entities_ds (array_ds n)) l.
Proof. intros. by apply Stage.wf_arrays. Qed.

Lemma sample_package_wf : PackageSpec.wf_package sample_package.
Proof.
  split; try done.
  - apply keys_wf; [cbn; lia|by repeat constructor|done].
  - apply Stage.wf_hashes. split; [|done]. constructor; [by right|]. constructor; [by left|constructor].
  - by right.
Qed.

Lemma sample_signatures_wf : PackageSpec.wf_signatures sample_package.
Proof. split_and!; (apply keys_wf; [cbn; lia|by repeat constructor|done]). Qed.

Lemma sample_within : PackageSpec.within_limits sample_package.
Proof. split; [split|..]; first [apply Z.leb_le; reflexivity | apply Nat.leb_le; reflexivity | reflexivity | discriminate]. Qed.

(** The package after bytesToSign, as a confidant sends it *)
Definition signed_sample : RoundPackage := (RoundPackage.bytesToSign sample_package).2.

Lemma package_roundtrip_witness :
  RoundPackage.fromBinary (RoundPackage.toBinary signed_sample).1 8 2 = Ok (Some (PackageSpec.received sample_package)).
Proof.
  apply (PackageSpec.package_roundtrip signed_sample);
    [destruct sample_package_wf; by split|apply sample_signatures_wf|destruct sample_within; by split|done|apply PackageSpec.bytesToSign_current
    |by apply (bool_decide_unpack _); vm_compute|by vm_compute].
Defined.

Lemma bytesToSign_injective_witness :
  PackageSpec.signed_fields sample_package = PackageSpec.signed_fields (sample_package <| iteration_ := 4 |> <| poolSignatures_ := [] |>).
Proof.
  apply (PackageSpec.bytesToSign_injective sample_package (sample_package <| iteration_ := 4 |> <| poolSignatures_ := [] |>));
    [apply sample_package_wf|destruct sample_package_wf; by split|by apply (bool_decide_unpack _); vm_compute|by vm_compute|done].
Defined.

Lemma toBinary_frozen_witness :
  (RoundPackage.toBinary (RoundPackage.updatePoolSignatures [le_bytes 64 9] (RoundPackage.toBinary sample_package).2)).1 = (RoundPackage.toBinary sample_package).1.
Proof.
  apply (PackageSpec.toBinary_frozen sample_package (mkRoundTable 8 [le_bytes 32 1; le_bytes 32 2; le_bytes 32 3] [le_bytes 32 6; []])
    (mkPoolMetaInfo [49; 50] (le_bytes 32 5) 7 [0; 255; 0]) [1; 0; 1] [le_bytes 64 1; le_bytes 64 2] [le_bytes 64 9] [le_bytes 64 5; le_bytes 64 6]); done.
Defined.

Lemma confirmations_spec_witness :
  let l' := ConfirmationList.add 9 false [] [1] [] [(3, mkConfirmation false [] [2] []); (8, mkConfirmation false [] [3] [])] in
  OrdMap.sorted l' /\ forall k, ConfirmationList.find k l' =
    if k =? 9 then Some (mkConfirmation false [] [1] []) else if ConfirmationSpec.kept 9 k then ConfirmationList.find k [(3, mkConfirmation false [] [2] []); (8, mkConfirmation false [] [3] [])] else None.
Proof. apply (ConfirmationSpec.confirmations_spec 9). repeat constructor. Defined.
