(* ===== verification/NodeRounds.v ===== *)
(** * How a node follows the rounds ([csnode/src/node.cpp])

    What the node does with a round package, with the signals of the starter node
    (BigBang, the first round table), with the other messages that move it from
    round to round, and with the requests for packages and blocks: the handlers,
    over the conveyer, the chain, the synchroniser of blocks and the list of
    confirmations.

    A message is given by the fields that its stream has, with whether the stream
    was good and at its end where the code asks; what is sent, what the solver and
    the transport are told and what only starts other work are outputs
    ([NodeEvent]).  The clock, the connections, what the solver answers and the
    stream flag of the message before are arguments.  The log is left out. *)

From Stdlib Require Import ZArith Lia.
From stdpp Require Import base tactics numbers option list gmap.
From S2P Require Import Prelude Effect OrdMap BinStream Amount UserField Crypto DataStream Address Utils Transaction Packet MetaStorage Double Pool.
From S2P Require Import Database Storage ContractRef Conveyer Fee Tail WalletsIds WalletsCache BlockChain PoolSync Stage Stage3 Stage1 RoundPackage.

Local Open Scope Z_scope.
Local Open Scope cs_scope.

(** [Node::Level] *)
Inductive Level := Normal | Confidant | Main | Writer.
#[export] Instance level_eq_dec : EqDecision Level.
Proof. solve_decision. Defined.

Inductive NodeEvent :=
  | EvConveyer (s : Signal)
  | EvRequest (r : Request)
  | EvAddToGraylist (key : bytes) (punishment : Z)
  | EvResetGrayList
  | EvUpdateBlackListCounter
  | EvNextRound (updateRound : bool)
  | EvSendingTimer
  | EvStop
  | EvPacketHashesRequest (hashes : list bytes) (round : Z)
  | EvStartConsensus (round : Z) (sendHash : bool)
  | EvZeroSmartSignatures (pool : Pool.priv)
  | EvSendRoundPackage (target : option bytes) (round subRound : Z) (data : bytes)
  | EvEmptyRoundPack (respondent : bytes) (sequence : Z) (signature : bytes)
  | EvRoundPackRequest (respondent : bytes) (round : Z)
  | EvBlockReply (target : bytes) (poolsBlock : list Pool.priv) (packetNum : Z)
  | EvRoundTableReply (target : bytes) (round : Z) (hasRequestedInfo : bool)
  | EvGotRoundInfoRequest (requester : bytes) (round : Z)
  | EvGotRoundInfoReply (hasRequestedInfo : bool) (respondent : bytes).

(** [RoundTableMessage] *)
Record RoundTableMessage := mkRtMessage { rm_round : Z; rm_sender : bytes; rm_message : bytes }.

(** The members of [Node] that the rounds use *)
Record NodeState (B D : Type) := mkNode {
  nd_conveyer : Impl;
  nd_chain : BlockChain B D;
  nd_sync : PoolSynchronizer;
  confirmationList_ : list (Z * TrustedConfirmation);
  stat_ : RoundStat;
  nd_subRound_ : Z;
  myLevel_ : Level;
  myConfidantIndex_ : Z;
  stageThreeSent_ : bool;
  roundPackageCache_ : list RoundPackage;
  currentRoundPackage_ : RoundPackage;
  currentRoundTableMessage_ : RoundTableMessage;
  lastRoundPackageTime_ : Z;
  roundPackRequests_ : Z;
  lastBlockRemoved_ : bool;
  badHashReplyCounter_ : list bool;
  receivedBangs : gmap Z Z;
  lastSentRoundData_ : Z * Z;
  stopRequested_ : bool
}.
Arguments mkNode {B D}.
Arguments nd_conveyer {B D}.
Arguments nd_chain {B D}.
Arguments nd_sync {B D}.
Arguments confirmationList_ {B D}.
Arguments stat_ {B D}.
Arguments nd_subRound_ {B D}.
Arguments myLevel_ {B D}.
Arguments myConfidantIndex_ {B D}.
Arguments stageThreeSent_ {B D}.
Arguments roundPackageCache_ {B D}.
Arguments currentRoundPackage_ {B D}.
Arguments currentRoundTableMessage_ {B D}.
Arguments lastRoundPackageTime_ {B D}.
Arguments roundPackRequests_ {B D}.
Arguments lastBlockRemoved_ {B D}.
Arguments badHashReplyCounter_ {B D}.
Arguments receivedBangs {B D}.
Arguments lastSentRoundData_ {B D}.
Arguments stopRequested_ {B D}.
#[export] Instance eta_node {B D} : Eta (NodeState B D) := fun n =>
  mkNode (nd_conveyer n) (nd_chain n) (nd_sync n) (confirmationList_ n) (stat_ n) (nd_subRound_ n) (myLevel_ n) (myConfidantIndex_ n)
    (stageThreeSent_ n) (roundPackageCache_ n) (currentRoundPackage_ n) (currentRoundTableMessage_ n) (lastRoundPackageTime_ n)
    (roundPackRequests_ n) (lastBlockRemoved_ n) (badHashReplyCounter_ n) (receivedBangs n) (lastSentRoundData_ n) (stopRequested_ n).

(** [MsgTypes] *)
Inductive MsgTypes :=
  | RoundTableSS | Transactions | FirstTransaction | NewBlock | BlockHash | BlockRequest | RequestedBlock | FirstStage | SecondStage | ThirdStage
  | FirstStageRequest | SecondStageRequest | ThirdStageRequest | RoundTableRequest | RoundTableReply | TransactionPacket | TransactionsPacketRequest
  | TransactionsPacketReply | NewCharacteristic | WriterNotification | FirstSmartStage | SecondSmartStage | RoundTable_ | ThirdSmartStage
  | SmartFirstStageRequest | SmartSecondStageRequest | SmartThirdStageRequest | HashReply | RejectedContracts | RoundPackRequest | StateRequest | StateReply
  | BigBang | Utility | EmptyRoundPack | BlockAlarm | EventReport | NodeStopRequest.
#[export] Instance msg_eq_dec : EqDecision MsgTypes.
Proof. solve_decision. Defined.

(** [Node::MessageActions] *)
Inductive MessageActions := Process | Postpone | Drop.

(** The constants of [Consensus] and [Conveyer] *)
Definition MaxRoundTimerFree : Z := 5.
Definition SpeedCheckRound : Z := 1000.
Definition GrayListPunishment : Z := 1000.
Definition UtilityMessageRoundInterval : Z := 50.
Definition MaxSubroundDelta : Z := 10.
Definition MinTrustedNodes : Z := 3.
Definition HashTablesStorageCapacity : Z := 100.
Definition kMaxRoundDelay : Z := 30000.

Module NodeRounds.
Section rounds.
Context `{!Cscrypto, !Libm} {B : Type} `{!Database B} {D : Type} `{!MultiIndex D}.
Context (begin : list PoolElement -> nat) (invocation_method : bytes -> bytes) (genesisAddress_ : Address).
Context (interrupted : Pool.priv -> bool -> Cache -> Pool.priv * Cache).
Context (sort : list NeighboursSetElemet -> list NeighboursSetElemet) (settings : PoolSyncData) (transport : list Connection).
(** [Utils::currentTimestamp()] and the steady clock in milliseconds *)
Context (clock : bytes) (now : Z).
(** The node's key, the starter's key, and the private key's signature *)
Context (nodeIdKey_ starterKey : bytes) (signOwn : bytes -> bytes).
(** The solver's deferred block and its own validation of a packet *)
Context (solverDeferred : Pool.priv) (ownValidation : TransactionsPacket -> list TransactionsPacket -> option bytes).
(** What uninitialised memory holds, and whether [istream_] is good *)
Context (indeterminate : Z) (indeterminateKey : bytes) (streamGood : bool).
Implicit Types (nd : NodeState B D) (rp : RoundPackage).

#[local] Abbreviation round_of nd := (currentRound_ (nd_conveyer nd)).
#[local] Abbreviation last_of nd := (BlockChain.getLastSeq (nd_chain nd)).

(** The receivers of the conveyer's signals: the round's statistics *)
Definition with_conveyer (r : Impl * list Signal) nd : NodeState B D * list NodeEvent :=
  let changed := existsb (fun s => match s with RoundChanged _ => true | _ => false end) r.2 in
  (nd <| nd_conveyer := r.1 |> <| stat_ := if changed then RoundStat.onRoundChanged now (stat_ nd) else stat_ nd |>, map EvConveyer r.2).

(** The receivers of the chain's signals: the synchroniser *)
Definition with_chain (c : BlockChain B D) (events : list ChainEvent) nd : NodeState B D :=
  nd <| nd_chain := c |> <| nd_sync := PoolSync.slots sort (round_of nd) events (nd_sync nd) |>.

(** ** Which messages are handled ([chooseMessageAction]): the action, and whether the package of the round is asked for *)

Definition always (type : MsgTypes) : bool :=
  match type with
  | FirstSmartStage | SecondSmartStage | ThirdSmartStage | NodeStopRequest | TransactionPacket | TransactionsPacketRequest | TransactionsPacketReply
  | RoundTableRequest | RejectedContracts | RoundPackRequest | EmptyRoundPack | StateRequest | StateReply | BlockAlarm | EventReport => true
  | _ => false
  end.
Definition block_message (type : MsgTypes) : bool := match type with BlockRequest | RequestedBlock => true | _ => false end.

Definition chooseMessageAction (good : bool) (rNum : Z) (type : MsgTypes) nd : MessageActions * bool :=
  let round := round_of nd in
  if negb good then (Drop, false)
  else if PoolSync.isFastMode settings round (nd_sync nd) (nd_chain nd) then (if block_message type then Process else Drop, false)
  else if always type then (Process, false)
  else if bool_decide (type = RoundTable_) then (if round <=? rNum then Process else Drop, false)
  else if bool_decide (type = BigBang) then (Process, false)
  else if bool_decide (type = Utility) then
    (if (round <? u64 (rNum + UtilityMessageRoundInterval)) && (rNum <? u64 (round + UtilityMessageRoundInterval)) then Process else Drop, false)
  else if block_message type then (Process, false)
  else if bool_decide (type = RoundTableReply) then (if round <=? rNum then Process else Drop, false)
  else if bool_decide (type = BlockHash) then
    (if rNum <? round then Drop
     else if u64 (last_of nd + HashTablesStorageCapacity) <? rNum then Drop
     else if round <? rNum then Postpone
     else if negb (Conveyer.isCurrentSyncCompleted (nd_conveyer nd)) then Postpone
     else Process, false)
  else if rNum <? round then (if bool_decide (type = NewBlock) then Process else Drop, false)
  else if round <? rNum then
    if rNum - round =? 1 then (Postpone, false) else (Drop, (1 <? round) && (nd_subRound_ nd =? 0))
  else (Process, false).

(** ** The signatures of a package *)

Definition receivingSignatures rp (currentConfidants : list bytes) : M bool :=
  let mask := pm_realTrustedMask (poolMetaInfo_ rp) in
  if negb (length mask =? length currentConfidants)%nat then ret false
  else
    let roundBytes := (RoundPackage.bytesToSign rp).1 in
    do! good := NodeUtils.checkGroupSignature currentConfidants mask (roundSignatures_ rp) (calculateHash roundBytes) in
    if negb good then ret false
    else
      NodeUtils.checkGroupSignature currentConfidants mask (trustedSignatures_ rp)
        (calculateHash (RoundPackage.table_toBinary (roundTable_ rp))).

(** ** Whether the packages come too fast *)

Definition rpSpeedOk rp nd : M (bool * NodeState B D) :=
  let round := round_of nd in
  if (MaxRoundTimerFree <? round) && (0 <? last_of nd) then
    do! (stamp, c) := BlockChain.getLastTimeStamp begin (nd_chain nd) in
    let nd := nd <| nd_chain := c |> in
    match Stage1.stoull stamp with
    | Throw _ => ret (false, nd)
    | Ok lastTimeStamp =>
        match Stage1.stoull clock with
        | Throw _ => ret (false, nd)
        | Ok currentTimeStamp =>
            match Stage1.stoull (pm_timestamp (poolMetaInfo_ rp)) with
            | Throw _ => ret (false, nd)
            | Ok _ =>
                let rpRound := rt_round (roundTable_ rp) in
                if u64 (round + 1) <? rpRound then
                  let delta := Z.abs (lastTimeStamp - currentTimeStamp) in
                  let speed := delta / u64 (rpRound - round) in
                  if (speed <? aveRoundMs_ (stat_ nd) / 10) && (SpeedCheckRound <? u64 (rpRound - nodeStartRound_ (stat_ nd)))
                  then ret (false, nd <| stat_ := RoundStat.onRoundStart now rpRound (stat_ nd) |>)
                  else ret (true, nd)
                else ret (true, nd)
            end
        end
    end
  else ret (true, nd).

Definition isLastRPStakeFull (rNum : Z) nd : bool :=
  match last (roundPackageCache_ nd) with
  | None => false
  | Some rp =>
      let mask := pm_realTrustedMask (poolMetaInfo_ rp) in
      (round_of nd =? rNum) && (TrustedMask.trustedSize mask =? Z.of_nat (length mask))
  end.

Definition clearRPCache (rNum : Z) nd : NodeState B D :=
  if rNum <? 6 then nd
  else nd <| roundPackageCache_ := List.filter (fun rp => negb (rt_round (roundTable_ rp) =? rNum - 5)) (roundPackageCache_ nd) |>.

(** ** Synchronisation *)

Definition processSync nd : M (NodeState B D * list NodeEvent) :=
  let last_seq := last_of nd in
  let round := round_of nd in
  if RoundStat.isCurrentRoundTooLong 120000 (stat_ nd) && (round <? u64 (last_seq + PoolSync.roundDifferentForSync)) then
    let '(s, requests) := PoolSync.syncLastPool transport (nd_sync nd) (nd_chain nd) in
    ret (nd <| nd_sync := s |>, map EvRequest requests)
  else
    do! (s, c, requests) := PoolSync.sync sort settings transport round round PoolSync.roundDifferentForSync false (nd_sync nd) (nd_chain nd) in
    ret (nd <| nd_sync := s |> <| nd_chain := c |>, map EvRequest requests).

(** ** The block of a package *)

Definition checkCharacteristic rp nd : bool :=
  let otherMask := characteristicMask_ rp in
  let calculated :=
    match Conveyer.createPacket (pm_sequenceNumber (poolMetaInfo_ rp)) (nd_conveyer nd) with
    | None => None
    | Some (packet, smartPackets) => Some (default [] (ownValidation packet smartPackets))
    end in
  let ownMask :=
    match Conveyer.characteristic (pm_sequenceNumber (poolMetaInfo_ rp)) (nd_conveyer nd) with
    | Some mask => if (length mask <? length otherMask)%nat then calculated else Some mask
    | None => calculated
    end in
  match ownMask with None => false | Some own => bool_decide (own = otherMask) end.

(** The solver's deferred block with the data of the package *)
Definition deferred_block rp : Pool.priv :=
  let tmpPool := Pool.clone solverDeferred in
  let tmpPool := (Pool.add_user_field 0 (uf_of_string (pm_timestamp (poolMetaInfo_ rp))) tmpPool).2 in
  let tmpPool := Pool.add_number_trusted (u8 (Z.of_nat (length (pm_realTrustedMask (poolMetaInfo_ rp))))) tmpPool in
  let tmpPool := Pool.add_real_trusted (Utils.maskToBits (pm_realTrustedMask (poolMetaInfo_ rp))) tmpPool in
  Pool.set_signatures (poolSignatures_ rp) tmpPool.

(** The confirmations of the round in the block *)
Definition confirm (round : Z) (pool : Pool.priv) nd : Pool.priv :=
  match (if negb (round =? 0) then ConfirmationList.find round (confirmationList_ nd) else None) with
  | Some confirmation =>
      if 1 <? round then
        let pool := Pool.add_number_confirmations (u8 (Z.of_nat (length (tc_mask confirmation)))) pool in
        let pool := Pool.add_confirmation_mask (Utils.maskToBits (tc_mask confirmation)) pool in
        Pool.add_round_confirmations (tc_signatures confirmation) pool
      else pool
  | None => pool
  end.

Definition getCharacteristic rp nd : M (NodeState B D * list NodeEvent) :=
  do! (updated, c) := BlockChain.updateLastBlock (poolMetaInfo_ rp) (poolSignatures_ rp) (nd_chain nd) in
  let nd := nd <| nd_chain := c |> in
  if updated : bool then ret (nd, [])
  else
    let mask := pm_realTrustedMask (poolMetaInfo_ rp) in
    let round := pm_sequenceNumber (poolMetaInfo_ rp) in
    if negb (Conveyer.isSyncCompleted round (nd_conveyer nd)) then
      ret (nd <| nd_conveyer := Conveyer.addCharacteristicMeta round (mkCharacteristicMeta (characteristicMask_ rp) indeterminateKey (poolSignatures_ rp) mask) (nd_conveyer nd) |>, [])
    else
      match Conveyer.roundTable round (nd_conveyer nd) with
      | None => ret (nd, [])
      | Some table =>
          if (length (rt_confidants table) <? length mask)%nat then ret (nd, [])
          else if negb streamGood then ret (nd, [])
          else if round <? last_of nd then ret (nd, [])
          else if (last_of nd <? round) && (round - last_of nd =? 1) && negb (checkCharacteristic rp nd) then ret (nd, [])
          else
            let conveyer := Conveyer.setCharacteristic (characteristicMask_ rp) round (nd_conveyer nd) in
            do! (pool, conveyer, signals) := Conveyer.applyCharacteristic indeterminate (poolMetaInfo_ rp) conveyer in
            let '(nd, events) := with_conveyer (conveyer, signals) nd in
            match pool with
            | None => ret (nd, events)
            | Some pool =>
                let pool := Pool.set_confidants (rt_confidants table) (Pool.set_signatures (poolSignatures_ rp) pool) in
                do! (created, nd) :=
                  (if Pool.is_valid_ solverDeferred && (Pool.sequence_ solverDeferred =? round) then
                     do! (res, c, chainEvents) := BlockChain.createBlock begin interrupted (deferred_block rp) (nd_chain nd) in
                     ret (match res with Some _ => true | None => false end, with_chain c chainEvents nd)
                   else ret (false, nd)) in
                if created : bool then ret (nd, events)
                else
                  let pool := confirm round pool nd in
                  do! (stored, pool, c, chainEvents) := BlockChain.storeBlock begin invocation_method genesisAddress_ interrupted pool false (nd_chain nd) in
                  let nd := with_chain c chainEvents nd in
                  if negb stored then ret (nd, events)
                  else
                    do! (c, more) := BlockChain.testCachedBlocks begin invocation_method genesisAddress_ interrupted (nd_chain nd) in
                    ret (with_chain c more nd, events ++ [EvZeroSmartSignatures pool])
            end
      end.

(** ** A round starts *)

Fixpoint confidant_index (i : Z) (l : list bytes) : option Z :=
  match l with [] => None | key :: l => if bool_decide (key = nodeIdKey_) then Some i else confidant_index (u8 (i + 1)) l end.

Definition onRoundStart (table : RoundTable) (updateRound : bool) nd : NodeState B D * list NodeEvent :=
  let '(nd, found) :=
    match confidant_index 0 (rt_confidants table) with
    | Some i => (nd <| myLevel_ := Confidant |> <| myConfidantIndex_ := i |>, true)
    | None => (nd <| myLevel_ := Normal |> <| myConfidantIndex_ := InvalidConfidantIndex |>, false)
    end in
  if negb found && stopRequested_ nd then (nd, [EvStop])
  else
    let nd := nd <| stageThreeSent_ := false |> <| roundPackRequests_ := 0 |> <| lastBlockRemoved_ := false |>
                 <| badHashReplyCounter_ := replicate (length (rt_confidants table)) false |>
                 <| stat_ := RoundStat.onRoundStart now (round_of nd) (stat_ nd) |> in
    (nd, [EvUpdateBlackListCounter; EvNextRound updateRound; EvSendingTimer]).

(** [startConsensus]: whether the hash is sent *)
Definition startConsensus nd : list NodeEvent := [EvStartConsensus (round_of nd) (round_of nd =? u64 (last_of nd + 1))].

Definition reviewConveyerHashes nd : M (list NodeEvent) :=
  do! table := Conveyer.currentRoundTable (nd_conveyer nd) in
  let isHashesEmpty := (length (rt_hashes table) =? 0)%nat in
  if negb isHashesEmpty && negb (Conveyer.isCurrentSyncCompleted (nd_conveyer nd)) then
    do! hashes := Conveyer.currentNeededHashes (nd_conveyer nd) in ret [EvPacketHashesRequest hashes (round_of nd)]
  else ret (startConsensus nd).

(** The confidants of the round before that the mask does not trust *)
Definition untrusted (mask : bytes) (prevConfidants : list bytes) : list bytes :=
  if (length mask =? length prevConfidants)%nat then map snd (List.filter (fun p => p.1 =? InvalidConfidantIndex) (zip mask prevConfidants)) else [].

Definition performRoundPackage rp (updateRound : bool) nd : M (NodeState B D * list NodeEvent) :=
  let table := roundTable_ rp in
  let realTrusted := pm_realTrustedMask (poolMetaInfo_ rp) in
  let nd := nd <| confirmationList_ := ConfirmationList.add (rt_round table) false (rt_confidants table) realTrusted (trustedSignatures_ rp) (confirmationList_ nd) |> in
  let gray :=
    match Conveyer.roundTable (u64 (rt_round table - 1)) (nd_conveyer nd) with
    | Some previous => map (fun key => EvAddToGraylist key GrayListPunishment) (untrusted realTrusted (rt_confidants previous))
    | None => []
    end in
  let nd := nd <| nd_subRound_ := subRound_ rp |> in
  let '(nd, events) := with_conveyer (Conveyer.setTable table (nd_conveyer nd)) nd in
  do! (nd, blockEvents) := getCharacteristic rp nd in
  match Stage1.stoull clock with
  | Throw _ => ret (nd, gray ++ events ++ blockEvents)
  | Ok time =>
      let nd := nd <| lastRoundPackageTime_ := time |> in
      do! current := Conveyer.currentRoundTable (nd_conveyer nd) in
      let '(nd, startEvents) := onRoundStart current updateRound nd in
      let nd := nd <| currentRoundPackage_ := new_package |> in
      do! review := reviewConveyerHashes nd in
      ret (nd, gray ++ events ++ blockEvents ++ startEvents ++ review)
  end.

(** ** A package comes *)

(** The cache of packages: what is in it then, the package that is used and whether it replaces one; [None] when the package is dropped *)
Definition cache_package rp nd : option (list RoundPackage * RoundPackage * bool) :=
  let cache := roundPackageCache_ nd in
  let size p := TrustedMask.trustedSize (pm_realTrustedMask (poolMetaInfo_ p)) in
  let round p := rt_round (roundTable_ p) in
  if round (currentRoundPackage_ nd) =? 0 then
    match last cache with
    | None => Some ([rp], rp, false)
    | Some back =>
        if (round rp =? round back) && negb (stageThreeSent_ nd) then
          if size back <? size rp then Some (removelast cache ++ [rp], rp, true) else None
        else if round back <? round rp then Some (cache ++ [rp], rp, false) else None
    end
  else
    let current := currentRoundPackage_ nd in
    if round rp =? round current then
      if size current <? size rp then Some (cache ++ [rp], rp, false) else Some (cache ++ [current], current, false)
    else if round current <? round rp then Some (cache ++ [rp], rp, false) else None.

(** The confidants that signed the package: those of the confirmation of the round before, or of its block.  [None] when there are none. *)
Definition signing_confidants rp nd : M (option (list bytes) * NodeState B D) :=
  let round := rt_round (roundTable_ rp) in
  let confirmed := ConfirmationList.find (round - 1) (confirmationList_ nd) in
  let nd := match confirmed with
            | Some _ => nd
            | None => nd <| confirmationList_ := ConfirmationList.add round false (rt_confidants (roundTable_ rp)) (pm_realTrustedMask (poolMetaInfo_ rp)) (trustedSignatures_ rp) (confirmationList_ nd) |>
            end in
  match (match confirmed with Some conf => tc_confidants conf | None => [] end) with
  | [] =>
      do! (tmp, c) := BlockChain.loadBlock begin (round - 1) (nd_chain nd) in
      let nd := nd <| nd_chain := c |> in
      ret (match Pool.confidants_ tmp with [] => None | keys => Some keys end, nd)
  | keys => ret (Some keys, nd)
  end.

(** The part of [getRoundTable] up to [performRoundPackage]: the package to perform, if any *)
Definition accept_package (rNum subRound : Z) (wellFormed : bool) (bytes_ : bytes) (sender : bytes) nd
  : M (option (RoundPackage * bool) * NodeState B D * list NodeEvent) :=
  if bool_decide (myLevel_ nd = Writer) then ret (None, nd, [])
  else if (round_of nd =? rNum) && (subRound <? nd_subRound_ nd) then ret (None, nd, [])
  else if isLastRPStakeFull rNum nd then ret (None, nd, [])
  else if negb wellFormed then ret (None, nd, [])
  else
    do! parsed := lift (RoundPackage.fromBinary bytes_ rNum subRound) in
    match parsed with
    | None => ret (None, nd, [])
    | Some rp =>
        do! (speedOk, nd) := rpSpeedOk rp nd in
        if negb speedOk then ret (None, nd, [])
        else
          let storedRound := round_of nd in
          let '(nd, events) := with_conveyer (Conveyer.setRound rNum (nd_conveyer nd)) nd in
          do! (nd, syncEvents) := processSync nd in
          do! (nd, blockEvents) := (if isSyncroStarted_ (nd_sync nd) then getCharacteristic rp nd else ret (nd, [])) in
          let events := events ++ syncEvents ++ blockEvents in
          let rp := RoundPackage.setSenderNode sender rp in
          match cache_package rp nd with
          | None => ret (None, nd, events)
          | Some (cache, rp, updateRound) =>
              let nd := clearRPCache (rt_round (roundTable_ rp)) (nd <| roundPackageCache_ := cache |>) in
              if 2 <? rt_round (roundTable_ rp) then
                do! (keys, nd) := signing_confidants rp nd in
                match keys with
                | None => ret (None, nd, events)
                | Some confidants =>
                    do! good := receivingSignatures rp confidants in
                    if negb good && (storedRound =? last_of nd) then ret (None, nd, events) else ret (Some (rp, updateRound), nd, events)
                end
              else ret (Some (rp, updateRound), nd, events)
          end
    end.

Definition getRoundTable (data : bytes) (rNum subRound : Z) (wellFormed : bool) (bytes_ : bytes) (sender : bytes) nd : M (NodeState B D * list NodeEvent) :=
  do! (accepted, nd, events) := accept_package rNum subRound wellFormed bytes_ sender nd in
  match accepted with
  | None => ret (nd, events)
  | Some (rp, updateRound) =>
      let nd := nd <| currentRoundTableMessage_ := mkRtMessage (rt_round (roundTable_ rp)) sender data |> in
      do! (nd, more) := performRoundPackage rp updateRound nd in
      ret (nd, events ++ more)
  end.

(** ** Packages for others *)

Definition setCurrentRP rp nd : NodeState B D := nd <| currentRoundPackage_ := rp |>.

Definition initCurrentRP nd : M (NodeState B D) :=
  if last_of nd =? 0 then ret (nd <| roundPackageCache_ := roundPackageCache_ nd ++ [new_package] |>)
  else
    do! (p, c) := BlockChain.getLastBlock begin (nd_chain nd) in
    let rp := RoundPackage.updateRoundTable (mkRoundTable (last_of nd) (Pool.confidants_ p) []) new_package in
    ret (nd <| nd_chain := c |> <| roundPackageCache_ := roundPackageCache_ nd ++ [rp] |>).

Definition sendRoundPackageToAll rp : RoundPackage * list NodeEvent :=
  let '(data, rp) := RoundPackage.toBinary rp in (rp, [EvSendRoundPackage None (rt_round (roundTable_ rp)) (subRound_ rp) data]).

(** [sendRoundPackage]: the first cached package of the round *)
Fixpoint send_cached (rNum : Z) (target : bytes) (cache : list RoundPackage) : option (list RoundPackage * list NodeEvent) :=
  match cache with
  | [] => None
  | rp :: cache =>
      if rt_round (roundTable_ rp) =? rNum then
        let '(data, rp) := RoundPackage.toBinary rp in
        Some (rp :: cache, [EvSendRoundPackage (Some target) (rt_round (roundTable_ rp)) (subRound_ rp) data])
      else match send_cached rNum target cache with Some (cache, events) => Some (rp :: cache, events) | None => None end
  end.
Definition sendRoundPackage (rNum : Z) (target : bytes) nd : bool * NodeState B D * list NodeEvent :=
  match send_cached rNum target (roundPackageCache_ nd) with
  | Some (cache, events) => (true, nd <| roundPackageCache_ := cache |>, events)
  | None => (false, nd, [])
  end.

Definition tryResendRoundTable (target : bytes) (rNum : Z) nd : bool * NodeState B D * list NodeEvent :=
  if negb ((lastSentRoundData_ nd).1 =? rNum) || negb ((lastSentRoundData_ nd).2 =? nd_subRound_ nd) then (false, nd, []) else sendRoundPackage rNum target nd.

Definition sendRoundTable rp nd : M (NodeState B D * list NodeEvent) :=
  let nd := nd <| myLevel_ := Writer |> in
  let '(nd, events) := with_conveyer (Conveyer.setRound (rt_round (roundTable_ rp)) (nd_conveyer nd)) nd in
  let nd := nd <| nd_subRound_ := 0 |> <| roundPackageCache_ := roundPackageCache_ nd ++ [rp] |> in
  let nd := clearRPCache (rt_round (roundTable_ rp)) nd in
  let '(rp, sent) := sendRoundPackageToAll rp in
  do! (nd, more) := performRoundPackage rp false nd in
  ret (nd, events ++ sent ++ more).

Definition emptyRoundPackReply (respondent : bytes) nd : list NodeEvent :=
  [EvEmptyRoundPack respondent (last_of nd) (signOwn (addValue 8 (last_of nd) []))].

Definition roundPackReply (respondent : bytes) nd : list NodeEvent :=
  match last (roundPackageCache_ nd) with
  | None => []
  | Some rp => [EvSendRoundPackage (Some respondent) (rt_round (roundTable_ rp)) (subRound_ rp) (RoundPackage.toBinary rp).1]
  end.

Definition getRoundPackRequest (rNum : Z) (sender : bytes) nd : NodeState B D * list NodeEvent :=
  match last (roundPackageCache_ nd) with
  | None => (nd, [])
  | Some rp =>
      let round := rt_round (roundTable_ rp) in
      if rNum <=? round then
        if negb (length (roundSignatures_ rp) =? 0)%nat then
          let nd := if round =? rNum then nd <| roundPackRequests_ := u64 (roundPackRequests_ nd + 1) |> else nd in
          let half := Z.of_nat (length (rt_confidants (roundTable_ rp)) / 2) in
          if (half <? roundPackRequests_ nd) && (roundPackRequests_ nd <=? half + 1) then
            let '(rp, events) := sendRoundPackageToAll rp in (nd <| roundPackageCache_ := removelast (roundPackageCache_ nd) ++ [rp] |>, events)
          else (nd, roundPackReply sender nd)
        else (nd, emptyRoundPackReply sender nd)
      else (nd, [])
  end.

Definition getEmptyRoundPack (signature : bytes) (rNum : Z) (sender : bytes) nd : M (NodeState B D * list NodeEvent) :=
  if rNum <=? last_of nd then ret (nd, [])
  else if negb (verifySignature signature sender (addValue 8 rNum [])) then ret (nd, [])
  else
    let '(nd, events) := with_conveyer (Conveyer.setRound (u64 (rNum + 1)) (nd_conveyer nd)) nd in
    do! (nd, more) := processSync nd in ret (nd, events ++ more).

(** [getRoundTableRequest], [sendRoundTableReply], [getRoundTableReply] *)
Definition getRoundTableRequest (requesterNumber rNum : Z) (wellFormed : bool) (requester : bytes) nd : M (list NodeEvent) :=
  if negb wellFormed then ret []
  else
    do! count := Conveyer.confidantsCount (nd_conveyer nd) in
    if Z.of_nat count <=? requesterNumber then ret [] else ret [EvGotRoundInfoRequest requester rNum].
Definition sendRoundTableReply (target : bytes) (hasRequestedInfo : bool) nd : list NodeEvent := [EvRoundTableReply target (round_of nd) hasRequestedInfo].
Definition getRoundTableReply (hasRequestedInfo wellFormed : bool) (respondent : bytes) nd : list NodeEvent :=
  if negb (bool_decide (myLevel_ nd = Confidant)) then [] else if negb wellFormed then [] else [EvGotRoundInfoReply hasRequestedInfo respondent].

(** ** The starter's signals *)

(** [readRoundData]: the confidants of the message; a BigBang is signed by the starter *)
Definition readRoundData (round : Z) (bang : bool) (confSize : Z) (confidants : list bytes) (sig : bytes) (good : bool) nd : option (list bytes) * NodeState B D :=
  if (confSize <? MinTrustedNodes) || (MaxTrustedNodes <? confSize) then (None, nd)
  else
    let trustedToHash := RoundPackage.table_toBinary (mkRoundTable round confidants []) in
    if bang && negb (verifySignature sig starterKey trustedToHash) then (None, nd)
    else
      let nd := if bang then nd <| confirmationList_ := ConfirmationList.add round bang confidants [0] [sig] (confirmationList_ nd) |> else nd in
      if negb good || (Z.of_nat (length confidants) <? confSize) then (None, nd) else (Some confidants, nd).

(** The loop that removes blocks *)
Fixpoint remove_blocks (fuel : nat) (first : bool) (rNum lastSequence : Z) nd : M (NodeState B D) :=
  match fuel with
  | O => None
  | S fuel =>
      if rNum <=? lastSequence then
        let nd := if first then nd <| nd_chain := BlockChain.setBlocksToBeRemoved (u64 (lastSequence - rNum + 1)) (nd_chain nd) |> else nd in
        do! (c, chainEvents) := BlockChain.removeLastBlock begin (nd_chain nd) in
        let nd := with_chain c chainEvents nd in
        if lastSequence =? last_of nd then ret nd else remove_blocks fuel false rNum (last_of nd) nd
      else ret nd
  end.

(** A BigBang: the fields of the stream; [time] when there are bytes for it *)
Record BangMessage := mkBang { bm_subRound : Z; bm_lastBlockHash : bytes; bm_confSize : Z; bm_confidants : list bytes; bm_signature : bytes; bm_good : bool; bm_time : option Z }.
Definition MaxBigBangAge_sec : Z := 180.

(** The checks of [getBigBang]; [timePassed] is [timePassedSinceBB]. *)
Definition bang_accepted (timePassed : Z -> Z) (msg : BangMessage) (rNum : Z) nd : option (list bytes) * NodeState B D :=
  let tmp := bm_subRound msg in
  let received := default 0 (receivedBangs nd !! rNum) in
  let nd := nd <| receivedBangs := <[rNum := received]> (receivedBangs nd) |> in
  if (tmp <=? received) && negb ((tmp <? MaxSubroundDelta) && (255 - MaxSubroundDelta <? received)) then (None, nd)
  else
    match readRoundData rNum true (bm_confSize msg) (bm_confidants msg) (bm_signature msg) (bm_good msg) nd with
    | (None, nd) => (None, nd)
    | (Some confidants, nd) =>
        match bm_time msg with
        | None => (None, nd)
        | Some timeSS => if MaxBigBangAge_sec <? timePassed timeSS then (None, nd) else (Some confidants, nd)
        end
    end.

Definition getBigBang (timePassed : Z -> Z) (msg : BangMessage) (rNum : Z) nd : M (NodeState B D * list NodeEvent) :=
  let cachedRound := round_of nd in
  match bang_accepted timePassed msg rNum nd with
  | (None, nd) => ret (nd, [])
  | (Some confidants, nd) =>
      let globalTable := mkRoundTable rNum confidants [] in
      let nd := nd <| nd_subRound_ := bm_subRound msg |> <| receivedBangs := <[rNum := bm_subRound msg]> (receivedBangs nd) |> in
      let '(s, requests) := (if RoundStat.isCurrentRoundTooLong kMaxRoundDelay (stat_ nd) then PoolSync.syncLastPool transport (nd_sync nd) (nd_chain nd) else (nd_sync nd, [])) in
      let nd := nd <| nd_sync := s |> <| roundPackageCache_ := [] |> in
      do! nd := remove_blocks (S (S (Z.to_nat (last_of nd)))) true rNum (last_of nd) nd in
      do! (conveyer, signals) := Conveyer.updateRoundTable (S (S (Z.to_nat (cachedRound - rNum)))) cachedRound globalTable (nd_conveyer nd) in
      let '(nd, events) := with_conveyer (conveyer, signals) nd in
      let '(nd, startEvents) := onRoundStart globalTable false nd in
      do! (s, c, more) := PoolSync.sync sort settings transport (round_of nd) rNum PoolSync.roundDifferentForSync true (nd_sync nd) (nd_chain nd) in
      let nd := nd <| nd_sync := s |> <| nd_chain := c |> in
      do! last := (if Conveyer.isCurrentSyncCompleted (nd_conveyer nd) then ret (startConsensus nd)
                   else do! hashes := Conveyer.currentNeededHashes (nd_conveyer nd) in ret [EvPacketHashesRequest hashes (round_of nd)]) in
      ret (nd, map EvRequest requests ++ [EvResetGrayList] ++ events ++ startEvents ++ map EvRequest more ++ last)
  end.

(** [getRoundTableSS] *)
Definition getRoundTableSS (rNum confSize : Z) (confidants : list bytes) (good : bool) nd : M (NodeState B D * list NodeEvent) :=
  if negb (round_of nd =? 0) then ret (nd, [])
  else
    let '(keys, nd) := readRoundData 0 false confSize confidants [] good nd in
    let lastSequence := last_of nd in
    let nd := if rNum <=? lastSequence then nd <| nd_chain := BlockChain.setBlocksToBeRemoved (u64 (lastSequence - rNum + 1)) (nd_chain nd) |> else nd in
    let table := mkRoundTable rNum (default [] keys) [] in
    let nd := nd <| nd_subRound_ := 0 |> in
    let '(nd, events) := with_conveyer (Conveyer.setRound rNum (nd_conveyer nd)) nd in
    let '(nd, more) := with_conveyer (Conveyer.setTable table (nd_conveyer nd)) nd in
    if rNum =? 1 then
      let '(nd, startEvents) := onRoundStart table false nd in
      do! review := reviewConveyerHashes nd in ret (nd, events ++ more ++ startEvents ++ review)
    else
      do! (s, c, requests) := PoolSync.sync sort settings transport (round_of nd) rNum PoolSync.roundDifferentForSync false (nd_sync nd) (nd_chain nd) in
      ret (nd <| nd_sync := s |> <| nd_chain := c |>, events ++ more ++ map EvRequest requests).

(** ** Hash replies *)

Definition getHashReply (subRound : Z) (signature : bytes) (senderNumber : Z) (hash : bytes) (rNum : Z) (sender : bytes) nd : M (NodeState B D) :=
  if bool_decide (myLevel_ nd = Confidant) then ret nd
  else if negb (round_of nd =? rNum) || negb (nd_subRound_ nd =? subRound) then ret nd
  else
    do! exists_ := Conveyer.isConfidantExists (Z.to_nat senderNumber) (nd_conveyer nd) in
    if negb exists_ then ret nd
    else
      do! replied := index (badHashReplyCounter_ nd) (Z.to_nat senderNumber) in
      if replied : bool then ret nd
      else
        let nd := nd <| badHashReplyCounter_ := <[Z.to_nat senderNumber := true]> (badHashReplyCounter_ nd) |> in
        if negb (verifySignature signature sender (PoolHash.to_binary hash)) then ret nd
        else
          do! count := Conveyer.confidantsCount (nd_conveyer nd) in
          let badHashReplySummary := length (List.filter (fun b => b) (badHashReplyCounter_ nd)) in
          if (count / 2 <? badHashReplySummary)%nat && negb (lastBlockRemoved_ nd) then
            match last (roundPackageCache_ nd) with
            | None => ret nd
            | Some back =>
                let mask := pm_realTrustedMask (poolMetaInfo_ back) in
                if TrustedMask.trustedSize mask <? Z.of_nat (length mask) then
                  let nd := nd <| nd_chain := BlockChain.setBlocksToBeRemoved 1 (nd_chain nd) |> in
                  do! (c, chainEvents) := BlockChain.removeLastBlock begin (nd_chain nd) in
                  ret (with_chain c chainEvents nd <| lastBlockRemoved_ := true |>)
                else ret nd
            end
          else ret nd.

(** ** Requests for blocks *)

(** [getBlockRequest]: the loop over the numbers *)
Fixpoint load_blocks (isOneBlockReply : bool) (sequences : list Z) (packetNum : Z) (sender : bytes) (poolsBlock : list Pool.priv) nd : M (NodeState B D * list Pool.priv * list NodeEvent) :=
  match sequences with
  | [] => ret (nd, poolsBlock, [])
  | sequence :: sequences =>
      do! (pool, c) := BlockChain.loadBlock begin sequence (nd_chain nd) in
      let nd := nd <| nd_chain := c |> in
      let poolsBlock := if Pool.is_valid_ pool then poolsBlock ++ [pool] else poolsBlock in
      let '(poolsBlock, events) :=
        if Pool.is_valid_ pool && isOneBlockReply then ([], [EvBlockReply sender poolsBlock packetNum]) else (poolsBlock, []) in
      do! (nd, poolsBlock, more) := load_blocks isOneBlockReply sequences packetNum sender poolsBlock nd in
      ret (nd, poolsBlock, events ++ more)
  end.
Definition getBlockRequest (sequences : list Z) (packetNum : Z) (sender : bytes) nd : M (NodeState B D * list NodeEvent) :=
  match sequences with
  | [] => ret (nd, [])
  | front :: _ =>
      if last_of nd <? front then ret (nd, [])
      else
        let isOneBlockReply := oneReplyBlock settings in
        do! (nd, poolsBlock, events) := load_blocks isOneBlockReply sequences packetNum sender [] nd in
        ret (nd, if isOneBlockReply then events else events ++ [EvBlockReply sender poolsBlock packetNum])
  end.

(** [getBlockReply]; the compressed region is decoded by the codec of the network. *)
Definition getBlockReply (poolsBlock : list Pool.priv) nd : M (NodeState B D) :=
  if negb (isSyncroStarted_ (nd_sync nd)) then ret nd
  else
    match poolsBlock with
    | [] => ret nd
    | _ =>
        do! (s, c) := PoolSync.getBlockReply begin invocation_method genesisAddress_ interrupted sort (round_of nd) poolsBlock (nd_sync nd) (nd_chain nd) in
        ret (nd <| nd_sync := s |> <| nd_chain := c |>)
    end.

(** [sendHashReply]: the signature over the hash *)
Definition sendHashReply (hash : bytes) nd : option bytes := if bool_decide (myLevel_ nd = Confidant) then Some (signOwn (PoolHash.to_binary hash)) else None.

(** [processTimer], with the conveyer's signature and its settings *)
Definition processTimer (generateSignature : bytes -> bytes -> bytes) (sendCacheValue maxResends : Z) nd : NodeState B D * list NodeEvent :=
  if bool_decide (myLevel_ nd = Writer) || (round_of nd <=? 2) then (nd, [])
  else with_conveyer (Conveyer.flushTransactions generateSignature sendCacheValue maxResends (nd_conveyer nd)) nd.

(** [isTransactionsInputAvailable] *)
Definition isTransactionsInputAvailable nd : bool :=
  match Stage1.stoull clock with
  | Throw _ => false
  | Ok justTime =>
      if lastRoundPackageTime_ nd <? justTime then
        if 300000 <? justTime - lastRoundPackageTime_ nd then false
        else negb (isSyncroStarted_ (nd_sync nd)) && (u64 (round_of nd - last_of nd) <? PoolSync.roundDifferentForSync)
      else false
  end.
End rounds.
End NodeRounds.
