(* ===== verification/NodeRoundsSpec.v ===== *)
(** * What a node guarantees when it follows the rounds

    With the chain at the round it was in, a node performs a round package only
    when the confidants of the round before signed it ([accepted_package_is_signed]),
    and it makes a block of the package only when its own validation gives the
    same characteristic ([stored_block_was_checked]).  Messages of a round are
    handled in that round ([processed_in_round]).

    Some theorems show what the handlers let through: a package that trusts
    nobody needs no signature ([unsigned_package_accepted]); a package moves the
    round before its signatures are looked at ([package_moves_round]), and so does
    an empty reply that anybody signed ([empty_pack_moves_round]); a reply about a
    bad hash counts for whatever confidant it names ([hash_reply_unbound]); an old
    BigBang is good again with another sub-round and time ([bang_replayed]). *)

From Stdlib Require Import ZArith Lia.
From stdpp Require Import base tactics numbers option list gmap.
From S2P Require Import Prelude Effect OrdMap BinStream Amount UserField Crypto DataStream Address Utils Transaction Packet MetaStorage Double Pool.
From S2P Require Import Database Storage StorageSpec ContractRef Conveyer ConveyerSpec Fee Tail WalletsIds AmountMod WalletsCache BlockChain BlockChainSpec PoolSync PoolSyncSpec Stage Stage3 Stage1 RoundPackage NodeRounds.

Local Open Scope Z_scope.
Local Open Scope cs_scope.

Module RoundsSpec.
Import NodeRounds GroupSpec.
Section spec.
Context `{!Cscrypto, !CscryptoLaws _, !Libm} {B : Type} `{!Database B} {D : Type} `{!MultiIndex D}.
Context (begin : list PoolElement -> nat) (invocation_method : bytes -> bytes) (genesisAddress_ : Address).
Context (interrupted : Pool.priv -> bool -> Cache -> Pool.priv * Cache).
Context (sort : list NeighboursSetElemet -> list NeighboursSetElemet) (settings : PoolSyncData) (transport : list Connection).
Context (clock : bytes) (now : Z) (nodeIdKey_ starterKey : bytes) (signOwn : bytes -> bytes).
Context (solverDeferred : Pool.priv) (ownValidation : TransactionsPacket -> list TransactionsPacket -> option bytes).
Context (indeterminate : Z) (indeterminateKey : bytes) (streamGood : bool).
Implicit Types (nd : NodeState B D) (rp : RoundPackage).

#[local] Abbreviation round_of nd := (currentRound_ (nd_conveyer nd)).
#[local] Abbreviation last_of nd := (BlockChain.getLastSeq (nd_chain nd)).
#[local] Abbreviation block_of := (getCharacteristic begin invocation_method genesisAddress_ interrupted sort now solverDeferred ownValidation indeterminate indeterminateKey streamGood).
#[local] Abbreviation accept := (accept_package begin invocation_method genesisAddress_ interrupted sort settings transport clock now solverDeferred ownValidation indeterminate indeterminateKey streamGood).
#[local] Abbreviation synchronise := (processSync sort settings transport).
#[local] Abbreviation speed := (rpSpeedOk begin clock now).

(** *** What the handlers leave alone *)

Record keeps nd nd' : Prop := {
  keeps_confirmations : confirmationList_ nd' = confirmationList_ nd;
  keeps_round : round_of nd' = round_of nd
}.

Lemma keeps_refl nd : keeps nd nd. Proof. by split. Qed.
Lemma keeps_trans nd nd1 nd2 : keeps nd nd1 -> keeps nd1 nd2 -> keeps nd nd2.
Proof. intros [H1 H2] [H3 H4]. split; congruence. Qed.

Lemma keeps_with_chain c events nd : keeps nd (with_chain sort c events nd).
Proof. by split. Qed.

Lemma removeHashes_round hashes s : currentRound_ (Conveyer.removeHashesFromTable hashes s) = currentRound_ s.
Proof. unfold Conveyer.removeHashesFromTable. revert s. induction hashes as [|h l IH]; intros s; cbn [foldl]; [done|]. by rewrite IH. Qed.

Lemma applyCharacteristic_round info s pool s' signals :
  Conveyer.applyCharacteristic indeterminate info s = ret (pool, s', signals) -> currentRound_ s' = currentRound_ s.
Proof.
  unfold Conveyer.applyCharacteristic. destruct (MetaStorage.get _ _) as [meta|]; [|by intros [= _ <- _]].
  intros ([a|] & _ & E)%mthen_ok; injection E as _ <- _; apply removeHashes_round.
Qed.

Lemma keeps_getCharacteristic rp nd nd' events : block_of rp nd = ret (nd', events) -> keeps nd nd'.
Proof.
  unfold getCharacteristic. intros ([updated c] & _ & E)%mthen_ok. cbv zeta in E.
  destruct updated; [by injection E as <- _|]. destruct (negb (Conveyer.isSyncCompleted _ _)).
  { injection E as <- _. split; [done|]. cbn [upd nd_conveyer]. unfold Conveyer.addCharacteristicMeta. by destruct (negb _). }
  destruct (Conveyer.roundTable _ _) as [table|]; [|by injection E as <- _].
  destruct (_ <? _)%nat; [by injection E as <- _|]. destruct (negb streamGood); [by injection E as <- _|].
  destruct (_ <? _); [by injection E as <- _|]. destruct (_ && negb _); [by injection E as <- _|].
  apply mthen_ok in E as ([[pool conveyer] signals] & Ea & E). apply applyCharacteristic_round in Ea. cbn beta iota in E.
  change (currentRound_ (Conveyer.setCharacteristic ?m ?r ?s)) with (currentRound_ s) in Ea.
  unfold with_conveyer at 1 in E. cbn [fst snd] in E. destruct pool as [pool|]; [|injection E as <- _; by split].
  apply mthen_ok in E as ([created nd1] & E1 & E).
  match type of E1 with context [with_chain sort _ _ ?n] => assert (keeps nd n) as Hk0 by (split; [done|exact Ea]); assert (keeps n nd1) as Hk1 end.
  { destruct (_ && _); [|by injection E1 as _ <-]. apply mthen_ok in E1 as ([[res c1] chainEvents] & _ & E1). by injection E1 as _ <-. }
  pose proof (keeps_trans _ _ _ Hk0 Hk1) as Hk. clear Hk0 Hk1 E1.
  destruct created; [by injection E as <- _|]. apply mthen_ok in E as ([[[stored p] c1] chainEvents] & _ & E). cbv zeta in E.
  apply (keeps_trans _ nd1); [done|]. destruct stored; cbn [negb] in E; [|by injection E as <- _].
  apply mthen_ok in E as ([c2 more] & _ & E). by injection E as <- _.
Qed.

Lemma keeps_processSync nd nd' events : synchronise nd = ret (nd', events) -> keeps nd nd'.
Proof.
  unfold processSync. cbv zeta. destruct (_ && _).
  - destruct (PoolSync.syncLastPool _ _ _) as [s requests]. by intros [= <- _].
  - intros ([[s c] requests] & _ & E)%mthen_ok. by injection E as <- _.
Qed.

Lemma keeps_rpSpeedOk rp nd b nd' : speed rp nd = ret (b, nd') -> keeps nd nd'.
Proof.
  unfold rpSpeedOk. cbv zeta. destruct (_ && _); [|by intros [= _ <-]]. intros ([stamp c] & _ & E)%mthen_ok. cbv zeta in E.
  repeat case_match; by injection E as _ <-.
Qed.

Lemma clearRPCache_keeps rNum nd : keeps nd (clearRPCache rNum nd).
Proof. unfold clearRPCache. by case_match. Qed.

Lemma setRound_round rNum nd : round_of (with_conveyer now (Conveyer.setRound rNum (nd_conveyer nd)) nd).1 = Z.max (round_of nd) rNum.
Proof. unfold with_conveyer, Conveyer.setRound. cbn. destruct (Z.ltb_spec (round_of nd) rNum); cbn; lia. Qed.

Lemma setRound_confirmations rNum nd : confirmationList_ (with_conveyer now (Conveyer.setRound rNum (nd_conveyer nd)) nd).1 = confirmationList_ nd.
Proof. done. Qed.

(** *** What a performed package was signed with *)

(** The confidants under whose keys a package of the round is checked, by a node in the state [nd]:
    those that its own confirmation of the round before names, and without one (or with an empty
    one) those of the block of that round in its own chain. *)
Definition known_confidants nd (round : Z) (keys : list bytes) : Prop :=
  match tc_confidants <$> ConfirmationList.find (round - 1) (confirmationList_ nd) with
  | Some (key :: rest) => keys = key :: rest
  | _ => exists tmp c, BlockChain.loadBlock begin (round - 1) (nd_chain nd) = ret (tmp, c) /\ keys = Pool.confidants_ tmp
  end.

Lemma signing_confidants_known rp nd keys nd' :
  signing_confidants begin rp nd = ret (Some keys, nd') -> known_confidants nd (rt_round (roundTable_ rp)) keys /\ keys <> [].
Proof.
  unfold signing_confidants, known_confidants. cbv zeta. destruct (ConfirmationList.find _ _) as [conf|]; cbn [fmap option_fmap option_map].
  - destruct (tc_confidants conf) as [|k l].
    + intros ([tmp c] & E1 & E)%mthen_ok. cbv zeta in E. destruct (Pool.confidants_ tmp) eqn:Ec; [done|]. injection E as <- _.
      split; [|done]. by exists tmp, c.
    + by intros [= <- _].
  - intros ([tmp c] & E1 & E)%mthen_ok. cbv zeta in E. destruct (Pool.confidants_ tmp) eqn:Ec; [done|]. injection E as <- _.
    split; [|done]. by exists tmp, c.
Qed.

(** The state with which the conveyer goes to the round of a package *)
Definition moved (rNum : Z) nd : NodeState B D * list NodeEvent := with_conveyer now (Conveyer.setRound rNum (nd_conveyer nd)) nd.

(** The node when it comes to the signatures of a package: it has gone to the package's round,
    synchronised, and taken the package's block when a synchronisation goes on. *)
Definition before_signatures rNum sub data nd nd2 : Prop :=
  exists rp nd1 nda ev2 ev3, RoundPackage.fromBinary data rNum sub = Ok (Some rp) /\ speed rp nd = ret (true, nd1) /\
    synchronise (moved rNum nd1).1 = ret (nda, ev2) /\
    (if isSyncroStarted_ (nd_sync nda) then block_of rp nda else ret (nda, [])) = ret (nd2, ev3).

Lemma clearRPCache_chain rNum nd : nd_chain (clearRPCache rNum nd) = nd_chain nd.
Proof. unfold clearRPCache. by case_match. Qed.

(** The way of a package that was parsed and is not too fast *)
Lemma accept_inv rNum sub wf data sender nd r nd' events :
  accept rNum sub wf data sender nd = ret (r, nd', events) ->
  (exists nd1, r = None /\ nd' = nd1 /\ keeps nd nd1) \/
  (exists rp nd1 nd2, RoundPackage.fromBinary data rNum sub = Ok (Some rp) /\ speed rp nd = ret (true, nd1) /\
    keeps (moved rNum nd1).1 nd2 /\ round_of nd2 = Z.max (round_of nd) rNum /\ confirmationList_ nd2 = confirmationList_ nd /\ before_signatures rNum sub data nd nd2 /\
    match cache_package (RoundPackage.setSenderNode sender rp) nd2 with
    | None => r = None /\ nd' = nd2
    | Some (cache, rp', updateRound) =>
        let nd3 := clearRPCache (rt_round (roundTable_ rp')) (nd2 <| roundPackageCache_ := cache |>) in
        if 2 <? rt_round (roundTable_ rp') then
          exists keys, signing_confidants begin rp' nd3 = ret (keys, nd') /\
          match keys with
          | None => r = None
          | Some confidants => exists good, receivingSignatures rp' confidants = ret good /\
              r = if negb good && (round_of nd1 =? last_of nd') then None else Some (rp', updateRound)
          end
        else r = Some (rp', updateRound) /\ nd' = nd3
    end).
Proof.
  unfold accept_package. destruct (bool_decide _); [intros [= <- <- _]; left; by exists nd|].
  destruct (_ && _); [intros [= <- <- _]; left; by exists nd|]. destruct (isLastRPStakeFull _ _); [intros [= <- <- _]; left; by exists nd|].
  destruct (negb wf); [intros [= <- <- _]; left; by exists nd|]. intros (parsed & Ep & E)%mthen_ok. injection Ep as Ep.
  destruct parsed as [rp|]; [|injection E as <- <- _; left; by exists nd].
  apply mthen_ok in E as ([speedOk nd1] & Es & E). destruct speedOk; cbn [negb] in E.
  2: { injection E as <- <- _. left. exists nd1. split_and!; [done..|]. by apply keeps_rpSpeedOk in Es. }
  right. cbv zeta in E. fold (moved rNum nd1) in E. destruct (moved rNum nd1) as [nd1' ev1] eqn:Em.
  apply mthen_ok in E as ([nd2 ev2] & E2 & E). apply mthen_ok in E as ([nd3 ev3] & E3 & E).
  assert (keeps nd1' nd3) as Hk.
  { apply keeps_processSync in E2. apply (keeps_trans _ nd2); [done|].
    destruct (isSyncroStarted_ _); [by apply keeps_getCharacteristic in E3|by injection E3 as <- _]. }
  exists rp, nd1, nd3. pose proof (keeps_rpSpeedOk _ _ _ _ Es) as [K1 K2]. rewrite Em. cbn [fst].
  split; [done|]. split; [done|]. split; [done|]. destruct Hk as [K3 K4]. split; [|split; [|split]].
  { rewrite K4. pose proof (setRound_round rNum nd1) as Hr. fold (moved rNum nd1) in Hr. rewrite Em in Hr. cbn [fst] in Hr. by rewrite Hr, K2. }
  { rewrite K3, <- K1. apply (f_equal fst) in Em. cbn [fst] in Em. by rewrite <- Em. }
  { exists rp, nd1, nd2, ev2, ev3. split_and!; [done|done|by rewrite Em|exact E3]. }
  destruct (cache_package _ nd3) as [[[cache rp'] upd]|]; [|by injection E as <- <- _]. cbv zeta in E |- *.
  destruct (2 <? _); [|by injection E as <- <- _]. apply mthen_ok in E as ([keys nd4] & E4 & E). cbn beta iota in E.
  destruct keys as [confidants|]; [|exists None; injection E as <- <- _; by split].
  apply mthen_ok in E as (good & Eg & E). exists (Some confidants).
  destruct (negb good && _) eqn:Eb; injection E as <- <- _; (split; [done|]); exists good; (split; [done|]); by rewrite Eb.
Qed.

Lemma receiving_signed rp keys :
  receivingSignatures rp keys = ret true ->
  let mask := pm_realTrustedMask (poolMetaInfo_ rp) in
  length mask = length keys /\
  all_signed mask keys (roundSignatures_ rp) (calculateHash (RoundPackage.sign_bytes rp)) /\
  all_signed mask keys (trustedSignatures_ rp) (calculateHash (RoundPackage.table_toBinary (roundTable_ rp))).
Proof.
  unfold receivingSignatures. destruct (Nat.eqb_spec (length (pm_realTrustedMask (poolMetaInfo_ rp))) (length keys)) as [El|]; cbn [negb]; [|done].
  intros (good & E1 & E)%mthen_ok. destruct good; cbn [negb] in E; [|done]. apply group_true in E1 as (_ & _ & _ & E1). apply group_true in E as (_ & _ & _ & E).
  rewrite PackageSpec.bytesToSign_bytes in E1. by split_and!.
Qed.

Lemma signing_round rp nd keys nd' : signing_confidants begin rp nd = ret (keys, nd') -> round_of nd' = round_of nd.
Proof.
  unfold signing_confidants. cbv zeta. destruct (ConfirmationList.find _ _) as [conf|].
  - destruct (tc_confidants conf); [|by intros [= _ <-]]. intros ([tmp c] & _ & E)%mthen_ok. by injection E as _ <-.
  - intros ([tmp c] & _ & E)%mthen_ok. by injection E as _ <-.
Qed.

(** C6: With the conveyer at the number of the chain's last block, getRoundTable goes on with a
    package above round 2 only when every confidant whom the package's mask trusts signed both the
    bytes of the package and its table of confidants. Whose keys these are the package does not
    decide: they are the confidants that the node's own confirmation of the round before names,
    which the package does not change, and without one those of the block of that round that the
    node's own chain loads. *)
Theorem accepted_package_is_signed rNum sub wf data sender nd rp upd nd' events :
  accept rNum sub wf data sender nd = ret (Some (rp, upd), nd', events) ->
  2 < rt_round (roundTable_ rp) -> round_of nd = last_of nd' ->
  let mask := pm_realTrustedMask (poolMetaInfo_ rp) in
  exists nd2 keys, before_signatures rNum sub data nd nd2 /\ confirmationList_ nd2 = confirmationList_ nd /\
    known_confidants nd2 (rt_round (roundTable_ rp)) keys /\ keys <> [] /\ length mask = length keys /\
    all_signed mask keys (roundSignatures_ rp) (calculateHash (RoundPackage.sign_bytes rp)) /\
    all_signed mask keys (trustedSignatures_ rp) (calculateHash (RoundPackage.table_toBinary (roundTable_ rp))).
Proof.
  intros E Hr Hl mask. apply accept_inv in E as [(nd1 & ? & _)|(rp0 & nd1 & nd2 & _ & Es & _ & _ & Hc & Hb & E)]; [done|].
  destruct (cache_package _ nd2) as [[[cache rp'] upd']|]; [|by destruct E]. cbv zeta in E.
  assert (rp' = rp) as ->.
  { destruct (2 <? _); [|by destruct E as [[= -> _] _]]. destruct E as (keys & _ & E). destruct keys; [|done]. destruct E as (good & _ & E).
    destruct (_ && _); [done|]. injection E as <- _. reflexivity. }
  rewrite (proj2 (Z.ltb_lt 2 _) Hr) in E. destruct E as (keys & Ek & E). destruct keys as [keys|]; [|done]. destruct E as (good & Eg & E).
  pose proof (keeps_rpSpeedOk _ _ _ _ Es) as [_ K2]. rewrite K2, Hl, Z.eqb_refl, andb_true_r in E. destruct good; [|done].
  apply signing_confidants_known in Ek as [Hk Hne]. exists nd2, keys. destruct (receiving_signed rp keys Eg) as (H1 & H2 & H3).
  split_and!; try done. unfold known_confidants in Hk |- *. rewrite clearRPCache_chain, (keeps_confirmations _ _ (clearRPCache_keeps _ _)) in Hk. exact Hk.
Qed.

(** A round package moves the node to its round before any signature is looked at: whatever
    signatures and sender it has, once it is parsed and not too fast the conveyer's round is the
    greater one, also when the package is dropped. *)
Theorem package_moves_round rNum sub data sender nd rp nd1 r nd' events :
  myLevel_ nd <> Writer -> round_of nd <> rNum -> RoundPackage.fromBinary data rNum sub = Ok (Some rp) ->
  speed rp nd = ret (true, nd1) -> accept rNum sub true data sender nd = ret (r, nd', events) ->
  round_of nd' = Z.max (round_of nd) rNum.
Proof.
  intros Hw Hne Ep Es E. unfold accept_package in E. rewrite bool_decide_eq_false_2 in E by done.
  rewrite (proj2 (Z.eqb_neq _ _) Hne) in E. cbn [andb negb] in E.
  replace (isLastRPStakeFull rNum nd) with false in E.
  2: { unfold isLastRPStakeFull. destruct (last _); [|done]. by rewrite (proj2 (Z.eqb_neq _ _) Hne). }
  unfold lift in E. rewrite Ep in E. cbn [mthen] in E. rewrite Es in E. cbn [mthen ret negb] in E. cbv zeta in E.
  pose proof (keeps_rpSpeedOk _ _ _ _ Es) as [_ K]. pose proof (setRound_round rNum nd1) as Hm. rewrite K in Hm.
  destruct (with_conveyer now _ nd1) as [nd2 ev2]. cbn [fst] in Hm.
  apply mthen_ok in E as ([nd3 ev3] & E3 & E). apply keeps_processSync in E3 as [_ K3].
  apply mthen_ok in E as ([nd4 ev4] & E4 & E).
  assert (round_of nd4 = Z.max (round_of nd) rNum) as H4.
  { destruct (isSyncroStarted_ _); [apply keeps_getCharacteristic in E4 as [_ ->]|injection E4 as <- _]; congruence. }
  destruct (cache_package _ nd4) as [[[cache rp'] upd]|]; [|injection E as _ <- _; exact H4].
  pose proof (keeps_round _ _ (clearRPCache_keeps (rt_round (roundTable_ rp')) (nd4 <| roundPackageCache_ := cache |>))) as H5.
  change (round_of (nd4 <| roundPackageCache_ := cache |>)) with (round_of nd4) in H5.
  destruct (2 <? _); [|injection E as _ <- _; congruence]. apply mthen_ok in E as ([ks nd6] & E6 & E). apply signing_round in E6.
  destruct ks; [apply mthen_ok in E as (good & _ & E); destruct (_ && _)|]; injection E as _ <- _; congruence.
Qed.

(** *** The block of a package *)

Lemma updateLastBlock_last info signatures (c : BlockChain B D) b c' :
  BlockChain.updateLastBlock info signatures c = ret (b, c') -> BlockChain.getLastSeq c' = BlockChain.getLastSeq c.
Proof.
  unfold BlockChain.updateLastBlock, BlockChain.updateLastBlockFrom. destruct (negb _); [by intros [= _ <-]|].
  destruct (_ <=? _)%nat; [by intros [= _ <-]|]. destruct (negb _); [by intros [= _ <-]|]. cbv zeta. unfold BlockChain.deferredBlockExchange. cbv zeta.
  intros ([ok1 d1] & _ & ([h d2] & _ & (c1 & E1 & (good & _ & E)%mthen_ok)%mthen_ok)%mthen_ok)%mthen_ok. injection E as _ <-.
  apply ChainSpec.update_same in E1 as [[_ _ E1 _ _] _]. exact E1.
Qed.

(** C7: When getCharacteristic stores the block that a package brings for the place right after
    the chain's last block, the mask of the package is what the node has: either the
    characteristic that the conveyer keeps for that round, or what the solver's own validation
    gives for the round's packet. *)
Theorem stored_block_was_checked rp nd nd' events pool :
  block_of rp nd = ret (nd', events) -> EvZeroSmartSignatures pool ∈ events -> pm_sequenceNumber (poolMetaInfo_ rp) = last_of nd + 1 ->
  Conveyer.characteristic (pm_sequenceNumber (poolMetaInfo_ rp)) (nd_conveyer nd) = Some (characteristicMask_ rp) \/
  exists packet smarts, Conveyer.createPacket (pm_sequenceNumber (poolMetaInfo_ rp)) (nd_conveyer nd) = Some (packet, smarts) /\
    default [] (ownValidation packet smarts) = characteristicMask_ rp.
Proof.
  intros E Hin Hseq. unfold getCharacteristic in E. apply mthen_ok in E as ([updated c] & E1 & E). apply updateLastBlock_last in E1. cbv zeta in E.
  destruct updated; [injection E as _ <-; by apply elem_of_nil in Hin|]. destruct (negb (Conveyer.isSyncCompleted _ _)); [injection E as _ <-; by apply elem_of_nil in Hin|].
  destruct (Conveyer.roundTable _ _) as [table|]; [|injection E as _ <-; by apply elem_of_nil in Hin].
  destruct (_ <? _)%nat; [injection E as _ <-; by apply elem_of_nil in Hin|]. destruct (negb streamGood); [injection E as _ <-; by apply elem_of_nil in Hin|].
  change (last_of (nd <| nd_chain := c |>)) with (BlockChain.getLastSeq c) in E. rewrite E1, Hseq in E.
  rewrite (proj2 (Z.ltb_ge _ _)), (proj2 (Z.ltb_lt _ _)), (proj2 (Z.eqb_eq _ 1)) in E by lia. cbn [andb] in E. rewrite Hseq.
  destruct (checkCharacteristic ownValidation rp (nd <| nd_chain := c |>)) eqn:Ec; cbn [negb] in E; [|injection E as _ <-; by apply elem_of_nil in Hin].
  unfold checkCharacteristic in Ec. change (nd_conveyer (nd <| nd_chain := c |>)) with (nd_conveyer nd) in Ec. rewrite Hseq in Ec.
  assert (forall own, match (match Conveyer.createPacket (last_of nd + 1) (nd_conveyer nd) with None => None | Some (packet, smartPackets) => Some (default [] (ownValidation packet smartPackets)) end) with
    None => false | Some own => bool_decide (own = characteristicMask_ rp) end = own -> own = true ->
    exists packet smarts, Conveyer.createPacket (last_of nd + 1) (nd_conveyer nd) = Some (packet, smarts) /\ default [] (ownValidation packet smarts) = characteristicMask_ rp) as Hcalc.
  { intros own <-. destruct (Conveyer.createPacket _ _) as [[packet smarts]|]; [|done]. intros Eb%bool_decide_eq_true. by exists packet, smarts. }
  destruct (Conveyer.characteristic _ _) as [mask|]; [|right; by eapply Hcalc].
  destruct (_ <? _)%nat; [right; by eapply Hcalc|]. apply bool_decide_eq_true in Ec. left. by rewrite Ec.
Qed.

(** A package for a later place is not compared with the node's own validation at all: whatever
    the solver would answer, getCharacteristic does the same with it. *)
Theorem ahead_block_unchecked ownValidation' rp nd :
  pm_sequenceNumber (poolMetaInfo_ rp) <> last_of nd + 1 ->
  block_of rp nd = getCharacteristic begin invocation_method genesisAddress_ interrupted sort now solverDeferred ownValidation' indeterminate indeterminateKey streamGood rp nd.
Proof.
  intros Hseq. unfold getCharacteristic. destruct (BlockChain.updateLastBlock _ _ _) as [[[updated c]|e]|] eqn:E1; [|done..]. cbn [mthen].
  apply updateLastBlock_last in E1. change (last_of (nd <| nd_chain := c |>)) with (BlockChain.getLastSeq c). rewrite E1.
  replace ((last_of nd <? pm_sequenceNumber (poolMetaInfo_ rp)) && (pm_sequenceNumber (poolMetaInfo_ rp) - last_of nd =? 1)) with false; [done|].
  symmetry. rewrite (proj2 (Z.eqb_neq _ 1)) by lia. apply andb_false_r.
Qed.

(** *** Packages that nobody signed *)

Lemma untrusted_value n : NodeUtils.realTrustedValue (replicate n 255) = 0%nat.
Proof. induction n as [|n IH]; [done|]. cbn [replicate]. by rewrite realTrustedValue_cons. Qed.

Lemma untrusted_check keys hash : NodeUtils.check_loop (replicate (length keys) 255) keys [] hash true = ret true.
Proof. induction keys as [|k l IH]; [done|]. exact IH. Qed.

Lemma untrusted_group keys hash : keys <> [] -> NodeUtils.checkGroupSignature keys (replicate (length keys) 255) [] hash = ret true.
Proof.
  intros Hne. unfold NodeUtils.checkGroupSignature. rewrite (proj2 (Nat.eqb_neq (length keys) 0)) by by destruct keys.
  rewrite length_replicate, Nat.eqb_refl, untrusted_value. cbn [negb length Nat.eqb]. apply untrusted_check.
Qed.

Context `{!Small kPublicKeySize, !Small kSignatureSize}.

(** C32: A package whose mask trusts nobody needs no signature: with the mask filled with 255, one
    entry for each confidant of the round, and empty lists of signatures, the bytes of the package
    are parsed and receivingSignatures accepts what comes out, whoever made them. *)
Theorem unsigned_package_accepted p keys :
  PackageSpec.wf_package p -> PackageSpec.within_limits p -> roundSignatures_ p = [] -> poolSignatures_ p = [] -> trustedSignatures_ p = [] ->
  keys <> [] -> pm_realTrustedMask (poolMetaInfo_ p) = replicate (length keys) 255 ->
  bytes_ok (PackageSpec.package_bytes p) -> Z.of_nat (length (PackageSpec.package_bytes p)) < 2 ^ 62 ->
  exists rp, RoundPackage.fromBinary (PackageSpec.package_bytes p) (rt_round (roundTable_ p)) (subRound_ p) = Ok (Some rp) /\
    roundTable_ rp = roundTable_ p /\ receivingSignatures rp keys = ret true.
Proof.
  intros Hw Hl Er Ep Et Hne Em Hb Hlen. exists (PackageSpec.received p). split; [|split; [done|]].
  - apply PackageSpec.fromBinary_bytes; [done| |done..]. unfold PackageSpec.wf_signatures. rewrite Er, Ep, Et. by split_and!; repeat constructor.
  - unfold receivingSignatures. change (poolMetaInfo_ (PackageSpec.received p)) with (poolMetaInfo_ p).
    change (roundSignatures_ (PackageSpec.received p)) with (roundSignatures_ p). change (trustedSignatures_ (PackageSpec.received p)) with (trustedSignatures_ p).
    rewrite Em, Er, Et, length_replicate, Nat.eqb_refl. cbn [negb]. by rewrite !untrusted_group.
Qed.

(** Anybody moves the round of a node: an empty package reply that its sender signed with its own
    key, with a number above the chain's last block, sets the conveyer to the round after that
    number. *)
Theorem empty_pack_moves_round signature rNum sender nd nd' events :
  last_of nd < rNum < 2 ^ 64 - 1 -> 0 <= last_of nd -> verifySignature signature sender (le_bytes 8 rNum) = true ->
  getEmptyRoundPack sort settings transport now signature rNum sender nd = ret (nd', events) ->
  round_of nd' = Z.max (round_of nd) (rNum + 1).
Proof.
  intros Hr Hl Hv. unfold getEmptyRoundPack. rewrite (proj2 (Z.leb_gt _ _)) by lia. change (addValue 8 rNum []) with (le_bytes 8 rNum). rewrite Hv. cbn [negb].
  rewrite uwrap_id by (unfold in_u; lia). pose proof (setRound_round (rNum + 1) nd) as Hm.
  destruct (with_conveyer now _ nd) as [nd1 ev1]. cbn [fst] in Hm. intros ([nd2 more] & E & E')%mthen_ok. injection E' as <- _.
  apply keeps_processSync in E as [_ ->]. done.
Qed.

(** A reply about a bad hash is counted for the confidant whose number it carries, whoever sent
    it: its signature is checked with the key of its sender, so that two replies with the same
    number and hash that are signed by any two keys have the same effect. *)
Theorem hash_reply_unbound subRound signature signature' senderNumber hash rNum sender sender' nd :
  verifySignature signature sender hash = true -> verifySignature signature' sender' hash = true ->
  getHashReply begin sort subRound signature senderNumber hash rNum sender nd = getHashReply begin sort subRound signature' senderNumber hash rNum sender' nd.
Proof. intros Hv Hv'. unfold getHashReply, PoolHash.to_binary. by rewrite Hv, Hv'. Qed.

(** A BigBang that was accepted once is accepted again with another sub-round, block hash and time
    and the same signature: the starter signs only the round and the confidants, so that anybody
    who saw it can make an old BigBang young again. *)
Theorem bang_replayed timePassed timePassed' msg rNum nd nd' keys sub hash time nd2 :
  bang_accepted starterKey timePassed msg rNum nd = (Some keys, nd') ->
  default 0 (receivedBangs nd2 !! rNum) < sub -> timePassed' time <= MaxBigBangAge_sec ->
  exists nd3, bang_accepted starterKey timePassed' (mkBang sub hash (bm_confSize msg) (bm_confidants msg) (bm_signature msg) (bm_good msg) (Some time)) rNum nd2 = (Some keys, nd3).
Proof.
  unfold bang_accepted. cbn [bm_subRound bm_confSize bm_confidants bm_signature bm_good bm_time]. intros E Hs Ht.
  destruct (_ && _); [done|]. rewrite (proj2 (Z.leb_gt _ _) Hs). cbn [andb]. revert E. unfold readRoundData.
  destruct (_ || (MaxTrustedNodes <? _)); [done|]. destruct (true && negb _); [done|]. destruct (negb _ || _); [done|].
  destruct (bm_time msg); [|done]. destruct (_ <? timePassed _); [done|]. intros [= <- _]. rewrite (proj2 (Z.ltb_ge _ _) Ht). by eexists.
Qed.

(** *** Which messages are handled *)

(** The messages that belong to one round *)
Definition round_bound (type : MsgTypes) : bool :=
  negb (always type) && negb (block_message type) &&
  negb (bool_decide (type ∈ [RoundTable_; BigBang; Utility; RoundTableReply; BlockHash; NewBlock])).

(** C36: Outside the fast synchronisation the messages that belong to a round, such as those of
    the stages, are handled exactly in that round, wait exactly for the next one, and are dropped
    otherwise; the package of the round is asked for exactly when the message is more than one
    round ahead, the node is past round 1 and in no sub-round. *)
Theorem processed_in_round rNum type nd :
  round_bound type = true -> PoolSync.isFastMode settings (round_of nd) (nd_sync nd) (nd_chain nd) = false ->
  chooseMessageAction settings true rNum type nd =
    (if rNum =? round_of nd then Process else if rNum =? round_of nd + 1 then Postpone else Drop,
     (round_of nd + 1 <? rNum) && (1 <? round_of nd) && (nd_subRound_ nd =? 0)).
Proof using Type.
  intros Ht Hf. unfold chooseMessageAction. rewrite Hf. cbn [negb]. unfold round_bound in Ht. apply andb_true_iff in Ht as [Ht Ho]. apply andb_true_iff in Ht as [Ha Hb].
  apply negb_true_iff in Ha, Hb, Ho. apply bool_decide_eq_false in Ho. rewrite Ha, Hb.
  rewrite !bool_decide_eq_false_2 by (clear -Ho; intros ->; apply Ho; set_solver).
  destruct (Z.ltb_spec rNum (round_of nd)); [rewrite (proj2 (Z.eqb_neq _ _)), (proj2 (Z.eqb_neq rNum (round_of nd + 1))), (proj2 (Z.ltb_ge _ _)) by lia; done|].
  destruct (Z.ltb_spec (round_of nd) rNum).
  - rewrite (proj2 (Z.eqb_neq rNum (round_of nd))) by lia.
    destruct (Z.eqb_spec (rNum - round_of nd) 1); destruct (Z.eqb_spec rNum (round_of nd + 1)); try lia;
      destruct (Z.ltb_spec (round_of nd + 1) rNum); try lia; done.
  - rewrite (proj2 (Z.eqb_eq rNum (round_of nd))), (proj2 (Z.ltb_ge _ rNum)) by lia. done.
Qed.
End spec.
End RoundsSpec.

(** ** Witnesses *)

#[local] Existing Instance toy_libm.

#[local] Abbreviation chain_t := (BlockChain BerkeleyDB.t (list Wallet)).
#[local] Abbreviation node_t := (NodeState BerkeleyDB.t (list Wallet)).
#[local] Abbreviation first_element := (fun _ : list PoolElement => 0%nat).
#[local] Abbreviation caught := (fun (p : Pool.priv) (_ : bool) (cache : Cache) => (p, cache)).
#[local] Abbreviation no_method := (fun _ : bytes => @nil Z).
#[local] Abbreviation genesis_address := (sample_public 200).
#[local] Abbreviation no_validation := (fun (_ : TransactionsPacket) (_ : list TransactionsPacket) => @None bytes).

Definition three_keys : list bytes := [le_bytes 32 1; le_bytes 32 2; le_bytes 32 3].
Definition sample_stat : RoundStat := mkStat 0 0 0 0 0 0 0 0 0.

(** A node with the chain and the conveyer *)
Definition node_at (s : Impl) (c : chain_t) (confirmations : list (Z * TrustedConfirmation)) : node_t :=
  mkNode s c SyncSpec.fresh_sync confirmations sample_stat 0 Normal 255 false [] new_package (mkRtMessage 0 [] []) 0 0 false [false; false; false] ∅ (0, 0) false.
Definition conveyer_at (round : Z) : Impl := (Conveyer.setTable (mkRoundTable round three_keys []) (Conveyer.init 10 10 10 5)).1.

(** The node in round 4 with the block 4 *)
Definition fourth_node : node_t := node_at (conveyer_at 4) (chain_at 4) [(4, mkConfirmation false three_keys [0; 1; 2] [])].

(** The package of the next round *)
Definition fifth_draft : RoundPackage :=
  mkPackage (mkRoundTable 5 three_keys []) (mkPoolMetaInfo [49; 50] (le_bytes 32 5) 4 [0; 255; 0]) [] [] [] [] [] 0 0 0 None.
Definition signed_hash (hash : bytes) : list bytes := map (fun k => sign_block (le_bytes 32 k) hash) [1; 3].
Definition fifth_package : RoundPackage :=
  fifth_draft <| roundSignatures_ := signed_hash (calculateHash (RoundPackage.sign_bytes fifth_draft)) |>
    <| poolSignatures_ := signed_hash [1] |> <| trustedSignatures_ := signed_hash (calculateHash (RoundPackage.table_toBinary (roundTable_ fifth_draft))) |>.

#[local] Abbreviation accept_sample := (NodeRounds.accept_package first_element no_method genesis_address caught sort_neighbours sync_settings [] [49] 0 Pool.default no_validation 99 [] true).

Lemma accepted_one (m : M (option (RoundPackage * bool) * node_t * list NodeEvent)) :
  match m with Some (Ok (Some (rp, _), nd, _)) => (2 <? rt_round (roundTable_ rp)) && (BlockChain.getLastSeq (nd_chain nd) =? 4) | _ => false end = true ->
  exists rp upd nd events, m = ret (Some (rp, upd), nd, events) /\ 2 < rt_round (roundTable_ rp) /\ BlockChain.getLastSeq (nd_chain nd) = 4.
Proof. destruct m as [[[[[[rp upd]|] nd] events]|e]|]; try done. intros [E1%Z.ltb_lt E2%Z.eqb_eq]%andb_true_iff. by exists rp, upd, nd, events. Qed.

Lemma fourth_round : currentRound_ (nd_conveyer fourth_node) = 4.
Proof. vm_compute. reflexivity. Qed.

Lemma fifth_accepted :
  exists rp upd nd events, accept_sample 5 0 true (PackageSpec.package_bytes fifth_package) (le_bytes 32 1) fourth_node = ret (Some (rp, upd), nd, events) /\
    2 < rt_round (roundTable_ rp) /\ BlockChain.getLastSeq (nd_chain nd) = 4.
Proof. apply accepted_one. vm_compute. reflexivity. Qed.

Lemma accepted_package_is_signed_witness :
  exists rp upd nd events, accept_sample 5 0 true (PackageSpec.package_bytes fifth_package) (le_bytes 32 1) fourth_node = ret (Some (rp, upd), nd, events) /\
    exists (nd2 : node_t) keys, confirmationList_ nd2 = confirmationList_ fourth_node /\
      RoundsSpec.known_confidants (D:=list Wallet) first_element nd2 (rt_round (roundTable_ rp)) keys /\ keys <> [] /\
      GroupSpec.all_signed (pm_realTrustedMask (poolMetaInfo_ rp)) keys (roundSignatures_ rp) (calculateHash (RoundPackage.sign_bytes rp)).
Proof.
  destruct fifth_accepted as (rp & upd & nd & events & E & Hr & Hl). exists rp, upd, nd, events. split; [exact E|].
  assert (currentRound_ (nd_conveyer fourth_node) = BlockChain.getLastSeq (nd_chain nd)) as Hround by (rewrite Hl; exact fourth_round).
  destruct (RoundsSpec.accepted_package_is_signed first_element no_method genesis_address caught sort_neighbours sync_settings [] [49] 0 Pool.default no_validation 99 [] true
    5 0 true (PackageSpec.package_bytes fifth_package) (le_bytes 32 1) fourth_node rp upd nd events E Hr Hround) as (nd2 & keys & _ & Hc & Hk & Hne & _ & Hs & _).
  exists nd2, keys. split; [exact Hc|]. split; [exact Hk|]. split; [exact Hne|exact Hs].
Defined.

(** A package of round 9 that nobody signed *)
Definition ninth_package : RoundPackage :=
  mkPackage (mkRoundTable 9 three_keys []) (mkPoolMetaInfo [49; 50] (le_bytes 32 5) 8 [0; 0; 0]) [] (replicate 3 (replicate 64 0)) (replicate 3 (replicate 64 0)) (replicate 3 (replicate 64 0)) [] 0 0 0 None.

Lemma moves_one (m : M (option (RoundPackage * bool) * node_t * list NodeEvent)) :
  match m with Some (Ok _) => true | _ => false end = true -> exists r nd events, m = ret (r, nd, events).
Proof. destruct m as [[[[r nd] events]|e]|]; try done. by exists r, nd, events. Qed.
Lemma ninth_parsed : exists rp, RoundPackage.fromBinary (PackageSpec.package_bytes ninth_package) 9 0 = Ok (Some rp) /\
  NodeRounds.rpSpeedOk first_element [49] 0 rp fourth_node = ret (true, fourth_node).
Proof.
  assert (forall m : result (option RoundPackage), match m with Ok (Some rp) => true | _ => false end = true -> exists rp, m = Ok (Some rp)) as Hm.
  { intros [[rp|]|e] E; try done. by exists rp. }
  destruct (Hm (RoundPackage.fromBinary (PackageSpec.package_bytes ninth_package) 9 0)) as [rp Hrp]; [vm_compute; reflexivity|].
  exists rp. split; [exact Hrp|]. unfold NodeRounds.rpSpeedOk. rewrite fourth_round. reflexivity.
Qed.
Lemma ninth_goes : exists r nd events, accept_sample 9 0 true (PackageSpec.package_bytes ninth_package) (le_bytes 32 1) fourth_node = ret (r, nd, events).
Proof. apply moves_one. vm_compute. reflexivity. Qed.

Lemma package_moves_round_witness :
  exists r nd events, accept_sample 9 0 true (PackageSpec.package_bytes ninth_package) (le_bytes 32 1) fourth_node = ret (r, nd, events) /\
    currentRound_ (nd_conveyer nd) = Z.max 4 9.
Proof.
  destruct ninth_goes as (r & nd & events & E). exists r, nd, events. split; [exact E|]. destruct ninth_parsed as (rp & Ep & Es). rewrite <- fourth_round at 1.
  apply (RoundsSpec.package_moves_round first_element no_method genesis_address caught sort_neighbours sync_settings [] [49] 0 Pool.default no_validation 99 [] true
    9 0 (PackageSpec.package_bytes ninth_package) (le_bytes 32 1) fourth_node rp fourth_node r nd events); [discriminate|rewrite fourth_round; discriminate|exact Ep|exact Es|exact E].
Defined.

(** A fresh node that gets the first block in the package of round 2 *)
Definition first_chain : chain_t := mkBlockChain empty_storage ∅ ∅ sample_ids sample_cache 0 ∅ (mkNonEmpty 0 0) [] (Pool.composed genesis) 0 0 0.
Definition first_node : node_t := node_at (conveyer_at 1) first_chain [].
Definition second_draft : RoundPackage :=
  mkPackage (mkRoundTable 2 three_keys []) (mkPoolMetaInfo [49; 50] genesis_hash 1 [0; 255; 0]) [] [] [] [] [] 0 0 0 None.
(** The block of the package with its wallets, as it is going to be signed *)
Definition first_block : Pool.priv :=
  match Conveyer.applyCharacteristic 99 (poolMetaInfo_ second_draft) (Conveyer.setCharacteristic [] 1 (conveyer_at 1)) with
  | Some (Ok (Some p, _, _)) =>
      match BlockChain.addNewWalletsToPool genesis_address (Pool.set_confidants three_keys (Pool.set_signatures [] p)) first_chain with Some (Ok (p, _)) => p | _ => Pool.default end
  | _ => Pool.default
  end.
Definition second_package : RoundPackage := second_draft <| poolSignatures_ := signed_hash (StorageSpec.hash_of first_block) |>.

#[local] Abbreviation block_sample := (NodeRounds.getCharacteristic first_element no_method genesis_address caught sort_neighbours 0 Pool.default no_validation 99 [] true).

Definition stores_one (m : M (node_t * list NodeEvent)) : bool :=
  match m with Some (Ok (nd, [EvZeroSmartSignatures _])) => BlockChain.getLastSeq (nd_chain nd) =? 1 | _ => false end.

Lemma stored_one (m : M (node_t * list NodeEvent)) : stores_one m = true -> exists nd pool, m = ret (nd, [EvZeroSmartSignatures pool]).
Proof. destruct m as [[[nd [|[] [|]]]|e]|]; try done. intros _. by exists nd, pool. Qed.
Lemma first_stored : exists nd pool, block_sample second_package first_node = ret (nd, [EvZeroSmartSignatures pool]).
Proof. apply stored_one. vm_compute. reflexivity. Qed.

Lemma stored_block_was_checked_witness :
  exists nd pool, block_sample second_package first_node = ret (nd, [EvZeroSmartSignatures pool]) /\
    (Conveyer.characteristic 1 (nd_conveyer first_node) = Some [] \/
     exists packet smarts, Conveyer.createPacket 1 (nd_conveyer first_node) = Some (packet, smarts) /\ default [] (no_validation packet smarts) = []).
Proof.
  destruct first_stored as (nd & pool & E). exists nd, pool. split; [exact E|].
  exact (RoundsSpec.stored_block_was_checked first_element no_method genesis_address caught sort_neighbours 0 Pool.default no_validation 99 [] true
    second_package first_node nd [EvZeroSmartSignatures pool] pool E ltac:(by apply list_elem_of_here) eq_refl).
Defined.

Lemma ahead_block_unchecked_witness :
  pm_sequenceNumber (poolMetaInfo_ ninth_package) <> BlockChain.getLastSeq (nd_chain first_node) + 1 /\
  block_sample ninth_package first_node =
    NodeRounds.getCharacteristic first_element no_method genesis_address caught sort_neighbours 0 Pool.default (fun _ _ => Some [1]) 99 [] true ninth_package first_node.
Proof.
  split; [discriminate|].
  apply (RoundsSpec.ahead_block_unchecked first_element no_method genesis_address caught sort_neighbours 0 Pool.default no_validation 99 [] true (fun _ _ => Some [1]) ninth_package first_node).
  discriminate.
Defined.

(** A package that trusts none of the three confidants *)
Definition nobody_package : RoundPackage :=
  mkPackage (mkRoundTable 8 [le_bytes 32 9] []) (mkPoolMetaInfo [49; 50] (le_bytes 32 5) 7 [255; 255; 255]) [1] [] [] [] [] 0 0 0 None.
Lemma nobody_wf : PackageSpec.wf_package nobody_package.
Proof.
  split; try reflexivity.
  - apply keys_wf; [cbn; lia|by repeat constructor|reflexivity].
  - done.
  - apply Stage.wf_hashes. split; [constructor|reflexivity].
  - done.
  - by right.
Qed.
Lemma nobody_within : PackageSpec.within_limits nobody_package.
Proof. split; [split|..]; first [apply Z.leb_le; reflexivity | apply Nat.leb_le; reflexivity | reflexivity | discriminate]. Qed.

Lemma unsigned_package_accepted_witness :
  exists rp, RoundPackage.fromBinary (PackageSpec.package_bytes nobody_package) 8 0 = Ok (Some rp) /\
    roundTable_ rp = mkRoundTable 8 [le_bytes 32 9] [] /\ NodeRounds.receivingSignatures rp three_keys = ret true.
Proof.
  apply (RoundsSpec.unsigned_package_accepted nobody_package three_keys);
    [apply nobody_wf|apply nobody_within|reflexivity|reflexivity|reflexivity|discriminate|reflexivity|by apply (bool_decide_unpack _); vm_compute|by vm_compute].
Defined.

#[local] Abbreviation empty_sample := (NodeRounds.getEmptyRoundPack sort_neighbours sync_settings [] 0).
Definition own_signature : bytes := sign_block (le_bytes 32 77) (le_bytes 8 1000).
Lemma empty_one (m : M (node_t * list NodeEvent)) : match m with Some (Ok _) => true | _ => false end = true -> exists nd events, m = ret (nd, events).
Proof. destruct m as [[[nd events]|e]|]; try done. by exists nd, events. Qed.
Lemma empty_goes : exists nd events, empty_sample own_signature 1000 (le_bytes 32 77) fourth_node = ret (nd, events).
Proof. apply empty_one. vm_compute. reflexivity. Qed.

Lemma empty_pack_moves_round_witness :
  exists nd events, empty_sample own_signature 1000 (le_bytes 32 77) fourth_node = ret (nd, events) /\ currentRound_ (nd_conveyer nd) = Z.max 4 1001.
Proof.
  destruct empty_goes as (nd & events & E). exists nd, events. split; [exact E|]. rewrite <- fourth_round at 1.
  apply (RoundsSpec.empty_pack_moves_round sort_neighbours sync_settings [] 0 own_signature 1000 (le_bytes 32 77) fourth_node nd events); [split; reflexivity|discriminate|vm_compute; reflexivity|exact E].
Defined.

Lemma hash_reply_unbound_witness :
  NodeRounds.getHashReply first_element sort_neighbours 0 (sign_block [7] [5]) 2 [5] 4 [7] fourth_node =
  NodeRounds.getHashReply first_element sort_neighbours 0 (sign_block [8] [5]) 2 [5] 4 [8] fourth_node.
Proof. apply (RoundsSpec.hash_reply_unbound first_element sort_neighbours 0 (sign_block [7] [5]) (sign_block [8] [5]) 2 [5] 4 [7] [8] fourth_node); vm_compute; reflexivity. Defined.

(** The starter's BigBang of round 9, which was 100 seconds old *)
Definition starter : bytes := le_bytes 32 50.
Definition sample_bang : NodeRounds.BangMessage :=
  NodeRounds.mkBang 1 [] 3 three_keys (sign_block starter (RoundPackage.table_toBinary (mkRoundTable 9 three_keys []))) true (Some 0).
Lemma bang_one (r : option (list bytes) * node_t) : match r.1 with Some k => bool_decide (k = three_keys) | None => false end = true -> exists nd, r = (Some three_keys, nd).
Proof. destruct r as [[k|] nd]; [|done]. intros ->%bool_decide_eq_true. by exists nd. Qed.
Lemma bang_good : exists nd, NodeRounds.bang_accepted starter (fun t => 100 - t) sample_bang 9 fourth_node = (Some three_keys, nd).
Proof. apply bang_one. vm_compute. reflexivity. Qed.

Lemma bang_replayed_witness :
  exists nd, NodeRounds.bang_accepted starter (fun t => 100000 - t) (NodeRounds.mkBang 2 [] 3 three_keys (NodeRounds.bm_signature sample_bang) true (Some 99990)) 9 fourth_node = (Some three_keys, nd).
Proof.
  destruct bang_good as (nd & E).
  apply (RoundsSpec.bang_replayed starter (fun t => 100 - t) (fun t => 100000 - t) sample_bang 9 fourth_node nd three_keys 2 [] 99990 fourth_node E); [reflexivity|discriminate].
Defined.

Lemma processed_in_round_witness :
  NodeRounds.chooseMessageAction sync_settings true 5 FirstStage fourth_node = (if 5 =? 4 then Process else if 5 =? 4 + 1 then Postpone else Drop, (4 + 1 <? 5) && (1 <? 4) && (0 =? 0)).
Proof. exact (RoundsSpec.processed_in_round sync_settings 5 FirstStage fourth_node eq_refl eq_refl). Defined.
