(* ===== verification/Round.v ===== *)
(** * A round from the packets to the ledger

    The parts put together, the way [TrustedStage1State::onSyncTransactions] and
    [SolverCore::spawn_next_round] ([solver/src/solvercore.cpp]) call them: the
    packet of the round ([Conveyer]), its characteristic ([IterValidator] through
    [Stage1.build_vector]), the block of the accepted transactions ([Conveyer]
    again), their fees ([Fee]), and the wallets ([WalletsCache]). *)

From Stdlib Require Import ZArith Lia.
From stdpp Require Import base tactics numbers option list gmap.
From S2P Require Import Prelude Effect BinStream Amount UserField Crypto DataStream Address Utils Transaction Packet MetaStorage Double Pool.
From S2P Require Import ContractRef Conveyer ConveyerSpec Fee Tail WalletsIds AmountMod WalletsCache Validator IterValidator Stage Stage1.

Local Open Scope Z_scope.
Local Open Scope cs_scope.

Module Round.
Import Guarantees.

(** ** The mask *)

(** The bytes of the characteristic: what [normalizeCharacteristic] makes of the reasons *)
Definition mask_bytes (mask : list Reason) : bytes := IterValidator.normalizeCharacteristic (map reason_byte mask).

Lemma reason_accepts r : accepting (if reason_byte r =? reason_byte None_ then 1 else 0) = bool_decide (r = None_).
Proof. by destruct r. Qed.

Section fees.
Context `{!Cscrypto, !Libm}.

Lemma chosen_fees method txs l mask :
  Fee.setCountedFees method txs = ret (map fst l) -> length mask = length l ->
  Fee.setCountedFees method (chosen accepting txs (mask_bytes mask)) = ret (map fst (Validator.accepted l mask)).
Proof.
  unfold chosen, mask_bytes, IterValidator.normalizeCharacteristic. revert l mask. induction txs as [|t txs IH]; intros l mask.
  - cbn [Fee.setCountedFees]. intros [= El] Hm. destruct l; [|done]. destruct mask; [|done]. done.
  - cbn [Fee.setCountedFees]. intros (fee & Ef & E)%mthen_ok Hm. apply mthen_ok in E as (txs' & Et & E). injection E as E.
    destruct l as [|p l]; [done|]. cbn [map] in E. injection E as E1 E2. destruct mask as [|r mask]; [done|]. injection Hm as Hm.
    specialize (IH l mask). rewrite Et, E2 in IH. specialize (IH eq_refl Hm).
    cbn [map zip zip_with List.filter snd Validator.accepted]. rewrite reason_accepts. case_bool_decide as Hr.
    + rewrite decide_True by done. cbn [map Fee.setCountedFees fst]. rewrite Ef, IH. cbn [mthen ret]. by rewrite E1.
    + rewrite decide_False by done. exact IH.
Qed.

End fees.

(** The trusted confidants of the pool's mask *)
Lemma finish_mask info b T S :
  (length (pm_realTrustedMask info) <= 64)%nat ->
  WalletsCache.mask (Conveyer.finish_pool info (content b T S)) = map (fun m => if m =? 255 then 255 else 0) (pm_realTrustedMask info).
Proof.
  intros Hl. unfold WalletsCache.mask.
  assert (Pool.numberTrusted_ (Conveyer.finish_pool info (content b T S)) = Z.of_nat (length (pm_realTrustedMask info))) as ->.
  { change (u8 (Z.of_nat (length (pm_realTrustedMask info))) = Z.of_nat (length (pm_realTrustedMask info))). apply uwrap_id. unfold in_u. lia. }
  change (Pool.realTrusted_ (Conveyer.finish_pool info (content b T S))) with (Utils.maskToBits (pm_realTrustedMask info)).
  unfold Utils.bitsToMask. rewrite Nat2Z.id, Utils.maskToBits_val, Utils.bits_loop_val by done. apply map_ext. intros m. unfold Utils.trusted.
  by destruct (m =? 255).
Qed.

(** The number of trusted confidants in a mask *)
Definition trusted_number (mask : bytes) : Z := Z.of_nat (length (filter (fun m => m <> 255) mask)).

Lemma trusted_number_spec mask : WalletsCache.getRealTrustedNum (map (fun m => if m =? 255 then 255 else 0) mask) = trusted_number mask.
Proof.
  unfold WalletsCache.getRealTrustedNum, trusted_number, WalletsCache.kUntrustedMarker. induction mask as [|m mask IH]; [done|]. cbn [map].
  rewrite !filter_cons. destruct (Z.eqb_spec m 255) as [->|Hne].
  - rewrite !decide_False by (intros Hd; by apply Hd). exact IH.
  - rewrite !decide_True by done. cbn [length]. lia.
Qed.

(** ** From the packets to the wallets *)

Section ledger.
Context `{!Cscrypto, !Libm} {D : Type} `{!MultiIndex D} (ids : WalletsIds D) (loadBlock : Z -> Pool.priv) (cache : Cache).
Context (known closed : Address -> bool) (known_none : forall a, known a = false).
Context (deserialize : bytes -> Invocation) (find_deploy_info : Address -> option Invocation) (is_payable_target : Transaction -> bool).
(** The transactions of the round with their fees as amounts *)
Context (l : list (Transaction * Amount)) (l_ok : Forall (fun p => Validator.transfer_ok p.1 p.2) l).
Context (l_len : Z.of_nat (length l) < noInd_).
Context (cache_ok : WalletsCache.ok cache).
Context (rich : forall k, 0 <= WalletsCache.bal k cache /\ WalletsCache.bal k cache + 2 * Validator.cost_of l < 2 ^ 31 * AMOUNT_MAX_FRACTION).
Context (history : bytes -> list Z).
Context (history_ok : forall k, node_tail_ (Validator.from_cache cache k) = TransactionsTail.pushed (history k) /\ Forall BitHeap.small (history k)).
Context (ids_small : Forall (fun p => BitHeap.small (innerID_ p.1)) l).
(** What an uninitialised integer holds *)
Context (indeterminate : Z).

#[local] Abbreviation method := (IterValidator.invocation_method deserialize).
#[local] Abbreviation build := (Stage1.build_vector ids loadBlock cache known closed deserialize find_deploy_info is_payable_target).

(** The block as it is loaded: the pool of [applyCharacteristic] with the fees of its
    transactions, the confidants of the round and the new wallets *)
Definition loaded (pool : Pool.priv) (txs : list Transaction) (confidants : list bytes) (wallets : list Pool.NewWalletInfo) : Pool.priv :=
  pool <| Pool.transactions_ := txs |> <| Pool.confidants_ := confidants |> <| Pool.newWallets_ := wallets |>.

Lemma finish_transactions info b T S : Pool.transactions_ (Conveyer.finish_pool info (content b T S)) = T.
Proof. reflexivity. Qed.

Lemma not_smart ps : List.filter Packet.isSmart ps = [] -> forall sg, Forall (signed_by indeterminate sg) ps.
Proof.
  intros E sg. induction ps as [|p ps IH]; constructor.
  - intros Hp. cbn [List.filter] in E. by rewrite Hp in E.
  - apply IH. cbn [List.filter] in E. by destruct (Packet.isSmart p).
Qed.

Lemma no_states ps m : List.filter Packet.isSmart ps = [] -> new_states (parts m ps) = [] /\ accepted_smarts (parts m ps) = [].
Proof.
  unfold accepted_smarts. revert m. induction ps as [|p ps IH]; intros m E; [done|]. cbn [List.filter] in E. cbn [parts new_states List.filter fst snd].
  destruct (Packet.isSmart p); [done|]. cbn [andb]. by apply IH.
Qed.

Lemma chosen_valid txs bits :
  Forall (fun t => Tx.is_valid t = true) txs -> List.filter Tx.is_valid (chosen accepting txs bits) = chosen accepting txs bits.
Proof.
  intros Hv. apply filter_shorter, filter_shorter. unfold chosen. apply Forall_forall. intros t (x & -> & Hx)%list_elem_of_fmap.
  apply list_elem_of_In, filter_In in Hx as [Hx _]. apply list_elem_of_In in Hx. destruct x as [t b]. apply elem_of_zip_l in Hx.
  rewrite Forall_forall in Hv. by apply Hv.
Qed.

Lemma loaded_mask pool txs confidants wallets : WalletsCache.mask (loaded pool txs confidants wallets) = WalletsCache.mask pool.
Proof. reflexivity. Qed.

(** The block of the accepted transactions is one that loads. *)
Lemma loaded_block info T S mask confidants wallets :
  (length (pm_realTrustedMask info) <= 64)%nat -> (length (pm_realTrustedMask info) <= length confidants)%nat ->
  0 < trusted_number (pm_realTrustedMask info) ->
  WalletsCache.transfer_block (loaded (Conveyer.finish_pool info (content true T S)) (map fst (Validator.accepted l mask)) confidants wallets)
    (Validator.accepted l mask) confidants.
Proof.
  intros H64 Hconf Htr. destruct (Validator.accepted_cost ids l mask l_ok) as [Hok Hcost].
  assert (Forall (fun p => WalletsCache.plain p.1 p.2) (Validator.accepted l mask)) as Hp.
  { eapply Forall_impl; [exact Hok|]. intros p. apply Validator.ok_plain. }
  destruct (WalletsCache.fees_from_mod (Validator.accepted l mask) (of_int 0) ltac:(by vm_compute) Hp) as [Nf Vf].
  change (value (of_int 0)) with 0 in Vf. rewrite Z.add_0_l in Vf. pose proof (IterValidator.fees_range l _ Hok) as Hfr.
  destruct (rich []) as [R0 R1].
  assert (WalletsCache.mask (loaded (Conveyer.finish_pool info (content true T S)) (map fst (Validator.accepted l mask)) confidants wallets)
    = map (fun m => if m =? 255 then 255 else 0) (pm_realTrustedMask info)) as Em by (rewrite loaded_mask; by apply finish_mask).
  split; [done|done| |by rewrite Em, length_map|].
  - enough (value (WalletsCache.fees_from (of_int 0) (Validator.accepted l mask)) = foldr (fun p s => value p.2 + s) 0 (Validator.accepted l mask)) by lia.
    apply eqm_range; [apply weak_range, normal_weak, Nf|unfold AMOUNT_MAX_FRACTION in *; lia|done].
  - rewrite Em, trusted_number_spec. split; [done|]. unfold trusted_number. pose proof (length_filter (fun m => m <> 255) (pm_realTrustedMask info)). lia.
Qed.

Lemma rich' k : 0 <= WalletsCache.bal k cache /\ WalletsCache.bal k cache + Validator.cost_of l < 2 ^ 31 * AMOUNT_MAX_FRACTION.
Proof.
  destruct (rich k) as [R1 R2]. split; [done|]. pose proof (IterValidator.fees_range l l l_ok). lia.
Qed.

(** C1: A round from the packets to the ledger, for plain transfers (no contract is called or
    known, no new state) whose amounts and fees are normal and not negative, whose amounts are
    exactly representable as doubles and whose greatest fees convert to amounts, at most 2^32 - 2
    of them, with inner ids below 2^61 in absolute value, wallets whose tails hold the ids of
    their history, balances that start at 0 or more and stay within the range of the amounts when
    twice the cost of the round (all amounts and fees) is added, and no new states pending in the
    validator, when the counted fees can be set: when the round is synchronised and its packet is
    not empty and of valid transactions only, build_vector ends, applyCharacteristic, with a mask
    of at most 64 entries, no more than there are confidants, that trusts at least one, makes the
    block of exactly the accepted transactions, their fees are the ones the validator charged, and
    loading the block, when the fees give each trusted confidant at least one unit, leaves no
    wallet below zero and the sum of all balances exactly as it was. *)
Theorem round_to_ledger info c packet s confidants wallets :
  rejectedNewStates_ (val_ (pValidator_ s)) = [] -> validNewStates_ (val_ (pValidator_ s)) = [] ->
  pm_sequenceNumber info = currentRound_ c ->
  Conveyer.createPacket (currentRound_ c) c = Some (packet, []) ->
  (forall ps, round_packets (currentRound_ c) c = Some ps -> Forall (fun t => Tx.is_valid t = true) (all_transactions ps)) ->
  Fee.setCountedFees method (transactions_ packet) = ret (map fst l) ->
  (length (pm_realTrustedMask info) <= 64)%nat -> (length (pm_realTrustedMask info) <= length confidants)%nat ->
  0 < trusted_number (pm_realTrustedMask info) ->
  exists hash s' c' acts mask,
    build packet [] s c = ret (hash, s', c', acts) /\ length mask = length l /\
    exists pool c'',
      Conveyer.applyCharacteristic indeterminate info c' = ret (Some pool, c'', []) /\
      Fee.setCountedFees method (Pool.transactions_ pool) = ret (map fst (Validator.accepted l mask)) /\
      (trusted_number (pm_realTrustedMask info) <= foldr (fun p s => value p.2 + s) 0 (Validator.accepted l mask) ->
       exists pool' cache',
         WalletsCache.loadNextBlock ids loadBlock (loaded pool (map fst (Validator.accepted l mask)) confidants wallets) confidants false cache
           = ret (pool', cache') /\
         WalletsCache.ok cache' /\ WalletsCache.total cache' = WalletsCache.total cache /\ forall k, 0 <= WalletsCache.bal k cache').
Proof.
  intros Hr Hv Hseq Hc Hvalid Hfee H64 Hconf Htr.
  destruct (IterValidator.formCharacteristic_spec ids loadBlock cache known closed known_none deserialize find_deploy_info is_payable_target
    l l_ok l_len cache_ok rich' history history_ok ids_small (transactions_ packet) [] [] (pValidator_ s) Hfee eq_refl Hr Hv)
    as (mask & v' & Eform & Hlen & _).
  set (bits := mask_bytes (if (0 <? length (transactions_ packet))%nat then mask else [])).
  assert (length (transactions_ packet) = length l) as Htx.
  { pose proof (Forall2_length _ _ _ (IterValidator.setCountedFees_spec _ _ _ Hfee)) as E. by rewrite length_map in E. }
  assert (bits = mask_bytes mask) as Ebits.
  { subst bits. destruct (Nat.ltb_spec 0 (length (transactions_ packet))); [done|]. destruct mask; [done|]. cbn [length] in Hlen. lia. }
  assert (exists hash s' acts, build packet [] s c = ret (hash, s', Conveyer.setCharacteristic bits (currentRound_ c) c, acts)) as (hash & s' & acts & Eb).
  { unfold Stage1.build_vector. subst bits. destruct (0 <? length (transactions_ packet))%nat; [rewrite Eform|]; cbn [mthen ret]; by do 3 eexists. }
  exists hash, s', (Conveyer.setCharacteristic bits (currentRound_ c) c), acts, mask. split; [exact Eb|]. split; [done|].
  destruct (createPacket_packets _ _ _ _ Hc) as (ps & Hps & Et & Esm). specialize (Hvalid ps Hps).
  assert (List.filter Tx.is_valid (all_transactions ps) = all_transactions ps) as Eall by (apply filter_shorter; by apply filter_shorter).
  rewrite Eall in Et.
  rewrite <- (round_packets_setCharacteristic bits) in Hps.
  destruct (MetaStorage.get (currentRound_ c) (metaStorage_ (Conveyer.setCharacteristic bits (currentRound_ c) c))) as [meta|] eqn:Em.
  2: { unfold round_packets in Hps. by rewrite Em in Hps. }
  assert (characteristic_ meta = bits) as Ech.
  { rewrite get_setCharacteristic in Em. destruct (MetaStorage.get _ (metaStorage_ c)); [|done]. by injection Em as <-. }
  rewrite <- Hseq in Em, Hps. set (sg := fun p => Pool.mkSmartSignature [] 0 (signatures_ p)).
  destruct (applyCharacteristic_open indeterminate info _ meta ps sg Em Hps (not_smart ps (eq_sym Esm) sg)) as (pool & c'' & signals & Ea & _ & R).
  rewrite Ech, <- Et in R. assert (length bits = length l) as Hbl by (rewrite Ebits; unfold mask_bytes, IterValidator.normalizeCharacteristic; by rewrite !length_map).
  rewrite Htx, Hbl, Nat.leb_refl in R. destruct R as (-> & -> & _).
  destruct (no_states ps bits (eq_sym Esm)) as [E1 E2]. rewrite E1, E2, Hseq in Ea. eexists _, c''. split; [exact Ea|].
  assert (Pool.transactions_ (Conveyer.finish_pool info (content true (List.filter Tx.is_valid (chosen accepting (transactions_ packet) bits)) (map sg [])))
    = chosen accepting (transactions_ packet) bits) as ->.
  { by rewrite finish_transactions, chosen_valid by (by rewrite Et). }
  split; [rewrite Ebits; by apply chosen_fees|]. intros Hn.
  assert (IterValidator.formCharacteristic ids loadBlock cache known closed deserialize find_deploy_info is_payable_target
    (transactions_ packet) [] (pValidator_ s) = ret (map fst l, mask, [], v')) as Eform' by exact Eform.
  eapply (IterValidator.accepted_block_stores ids loadBlock cache known closed known_none deserialize find_deploy_info is_payable_target
    l l_ok l_len cache_ok rich' history history_ok ids_small (transactions_ packet) [] [] (pValidator_ s) mask v' _ confidants Hfee eq_refl Hr Hv);
    [intros k; apply rich|exact Eform'|by apply loaded_block|].
  by rewrite loaded_mask, finish_mask, trusted_number_spec by done.
Qed.
End ledger.
End Round.

(** ** Witnesses *)

#[local] Existing Instance toy_libm.

(** The three transfers of [round_txs] are the packet of round 7; the third is refused. *)
Definition ledger_packet : TransactionsPacket := mkPacket [5] round_txs [] [(0, replicate 64 5)].
Definition ledger_conveyer : Impl := round_of [ledger_packet].
Definition ledger_info : PoolMetaInfo := mkPoolMetaInfo [49; 50] [9] 7 [0; 255; 1].
Definition ledger_stage : Trusted1 :=
  mkTrusted1 false false false (Stage.mkStageOne 0 [] [] [] [] [] [] []) 0 0 [] round_state.

Lemma ledger_valid ps :
  Guarantees.round_packets (currentRound_ ledger_conveyer) ledger_conveyer = Some ps ->
  Forall (fun t => Tx.is_valid t = true) (Guarantees.all_transactions ps).
Proof.
  assert (Guarantees.round_packets (currentRound_ ledger_conveyer) ledger_conveyer = Some [ledger_packet]) as -> by by vm_compute.
  intros [= <-]. repeat constructor; by vm_compute.
Qed.

Lemma ledger_rich k : 0 <= WalletsCache.bal k sample_cache /\ WalletsCache.bal k sample_cache + 2 * Validator.cost_of round_transfers < 2 ^ 31 * AMOUNT_MAX_FRACTION.
Proof. rewrite round_bal, round_cost. unfold AMOUNT_MAX_FRACTION. destruct (decide _); lia. Qed.

Lemma round_to_ledger_witness :
  exists hash s' c' acts mask pool c'',
    Stage1.build_vector sample_ids (fun _ => Pool.default) sample_cache no_contracts no_contracts no_invocation (fun _ => None) (fun _ => false)
      (mkPacket [] round_txs [] []) [] ledger_stage ledger_conveyer = ret (hash, s', c', acts) /\ length mask = 3%nat /\
    Conveyer.applyCharacteristic 99 ledger_info c' = ret (Some pool, c'', []) /\
    Fee.setCountedFees (IterValidator.invocation_method no_invocation) (Pool.transactions_ pool) = ret (map fst (Validator.accepted round_transfers mask)) /\
    (2 <= foldr (fun p s => value p.2 + s) 0 (Validator.accepted round_transfers mask) ->
     exists pool' cache',
       WalletsCache.loadNextBlock sample_ids (fun _ => Pool.default)
         (Round.loaded pool (map fst (Validator.accepted round_transfers mask)) sample_confidants []) sample_confidants false sample_cache = ret (pool', cache') /\
       WalletsCache.ok cache' /\ WalletsCache.total cache' = WalletsCache.total sample_cache /\ forall k, 0 <= WalletsCache.bal k cache').
Proof.
  destruct (Round.round_to_ledger sample_ids (fun _ => Pool.default) sample_cache no_contracts no_contracts (fun _ => eq_refl) no_invocation
    (fun _ => None) (fun _ => false) round_transfers round_ok ltac:(by vm_compute) sample_cache_ok ledger_rich round_history round_history_ok round_small
    99 ledger_info ledger_conveyer (mkPacket [] round_txs [] []) ledger_stage sample_confidants [])
    as (hash & s' & c' & acts & mask & E1 & E2 & pool & c'' & E3 & E4 & E5);
    [done|done|done|by vm_compute|exact ledger_valid|exact round_fees|cbn; lia|apply (bool_decide_unpack _); by vm_compute|by vm_compute|].
  exists hash, s', c', acts, mask, pool, c''. split; [exact E1|]. split; [exact E2|]. split; [exact E3|]. split; [exact E4|exact E5].
Defined.
