(* ===== verification/TimeStamp.v ===== *)
(** * The time stamp of a block ([SolverCore::chooseTimeStamp],
      [solver/src/solvercore.cpp])

    The writer takes the mean of the stamps that the trusted confidants sent in
    stage one, as distances in milliseconds from the last block; stamps that are
    more than three standard deviations away are dropped and the mean is taken
    anew.  The code computes in doubles ([Double]); conversions that do not fit
    and signed overflow are undefined ([None]).  The loop has one turn more than
    there are stamps: each turn but the last drops one ([settle_total]).

    [equal_stamps_lost] shows what the roundings do: after a pause of twelve
    hours seven equal stamps are all dropped. *)

From Stdlib Require Import ZArith Lia SpecFloat.
From stdpp Require Import base tactics numbers option list.
From S2P Require Import Prelude Effect Text BinStream Crypto Transaction Double Stage Stage3 OnStage2 StageStore.

Local Open Scope Z_scope.
Local Open Scope cs_scope.

Module TimeStamp.
Import Stage StageOneStore.

(** ** The operations of the language *)

Definition DBL_EPSILON : double := literal 1 (2 ^ 52).
(** [std::to_string] of a signed integer *)
Definition to_string (z : Z) : bytes := if z <? 0 then 45 :: print_u (- z) else print_u z.
(** An [int64_t] or [int] that does not overflow *)
Definition signed (w z : Z) : M Z := if (- 2 ^ (w - 1) <=? z) && (z <? 2 ^ (w - 1)) then ret z else None.
Definition to_int64 (x : double) : M Z := match trunc x with Some z => signed 64 z | None => None end.

(** [SolverCore::lastTimeStamp] *)
Definition lastTimeStamp (stamp : bytes) : Z := match stoll stamp with Ok v => u64 v | Throw _ => 0 end.

(** [stamps], [sx], [sx2], [N] *)
Record Stamps := mkStamps { stamps : list double; sx : double; sx2 : double; count : Z }.
Definition no_stamps : Stamps := mkStamps [] (of_Z 0) (of_Z 0) 0.

Section choose.
Context (confidantsCount : Z).

(** The first loop over [stageOneStorage] *)
Fixpoint collect (last : Z) (mask : bytes) (stages : list StageOne) (s : Stamps) : M Stamps :=
  match stages with
  | [] => ret s
  | it :: stages =>
      if confidantsCount <=? s1_sender it then collect last mask stages s
      else
        match roundTimeStamp it with
        | [] => collect last mask stages s
        | _ =>
            do! v := index mask (Z.to_nat (s1_sender it)) in
            if v =? InvalidConfidantIndex then collect last mask stages s
            else
              match stoll (roundTimeStamp it) with
              | Throw _ => collect last mask stages s
              | Ok tStamp =>
                  do! d := signed 64 (tStamp - last) in
                  let x := of_Z d in
                  collect last mask stages
                    (if dlt DBL_EPSILON x then mkStamps (stamps s ++ [x]) (dadd (sx s) x) (dadd (sx2 s) (dmul x x)) (count s + 1) else s)
              end
        end
  end.

(** The loop over [stamps], in one turn: what is left, and [isDrop] *)
Fixpoint drop_far (mean disp : double) (l : list double) (s : Stamps) : Stamps * bool :=
  match l with
  | [] => (mkStamps [] (sx s) (sx2 s) (count s), false)
  | x :: l =>
      let value := dsub x mean in
      if dlt (dmul (of_Z 9) disp) (dmul value value) then
        ((drop_far mean disp l (mkStamps [] (dsub (sx s) x) (dsub (sx2 s) (dmul x x)) (count s - 1))).1, true)
      else
        let '(r, isDrop) := drop_far mean disp l s in (mkStamps (x :: stamps r) (sx r) (sx2 r) (count r), isDrop)
  end.

(** [while (isDrop)]: no mean when no stamp is left; [None] is out of fuel *)
Fixpoint settle (fuel : nat) (s : Stamps) : option (option double) :=
  match fuel with
  | O => None
  | S fuel =>
      if count s =? 0 then Some None
      else
        let N_1 := ddiv (of_Z 1) (of_Z (count s)) in
        let mean := dmul (sx s) N_1 in
        let disp := dsub (dmul (sx2 s) N_1) (dmul mean mean) in
        let '(s, isDrop) := drop_far mean disp (stamps s) s in
        if isDrop then settle fuel s else Some (Some mean)
  end.

(** The loop when no stamp is left: [static_cast<int>] keeps the low bits, the sum is an [int] *)
Fixpoint sum_all (stages : list StageOne) (cnt0 sx0 : Z) : M (Z * Z) :=
  match stages with
  | [] => ret (cnt0, sx0)
  | it :: stages =>
      match stoll (roundTimeStamp it) with
      | Throw _ => sum_all stages cnt0 sx0
      | Ok tStamp => do! sum := signed 32 (sx0 + s32 tStamp) in sum_all stages (cnt0 + 1) sum
      end
  end.

(** [chooseTimeStamp]; [last] is the time stamp of the last block *)
Definition chooseTimeStamp (last : bytes) (storage : list StageOne) (mask : bytes) : M bytes :=
  match stoll last with
  | Throw _ => ret (to_string 0)
  | Ok last =>
      do! s := collect last mask storage no_stamps in
      match settle (S (length (stamps s))) s with
      | None => None
      | Some None =>
          do! (cnt0, sx0) := sum_all storage 0 0 in
          if 0 <? cnt0 then ret (to_string (Z.quot sx0 cnt0)) else do! z := signed 64 (last + 100) in ret (to_string z)
      | Some (Some mean) => do! z := to_int64 (dadd (dadd (of_Z last) mean) (literal 1 2)) in ret (to_string z)
      end
  end.

(** ** The loop ends *)

Lemma drop_far_sizes mean disp l s :
  let '(r, isDrop) := drop_far mean disp l s in
  count r - Z.of_nat (length (stamps r)) = count s - Z.of_nat (length l) /\
  (length (stamps r) <= length l)%nat /\ (isDrop = true -> (length (stamps r) < length l)%nat).
Proof.
  revert s. induction l as [|x l IH]; intros s; cbn [drop_far]; [by cbn|]. destruct (dlt _ _).
  - specialize (IH (mkStamps [] (dsub (sx s) x) (dsub (sx2 s) (dmul x x)) (count s - 1))).
    destruct (drop_far mean disp l _) as [r d]. cbn [fst count length] in *. destruct IH as (I1 & I2 & _). split_and!; lia.
  - specialize (IH s). destruct (drop_far mean disp l s) as [r d]. cbn [stamps count length]. destruct IH as (I1 & I2 & I3). split_and!; [lia..|]. intros Hd. specialize (I3 Hd). lia.
Qed.

Lemma settle_total fuel s : count s = Z.of_nat (length (stamps s)) -> (length (stamps s) < fuel)%nat -> settle fuel s <> None.
Proof.
  revert s. induction fuel as [|fuel IH]; intros s Hc Hf; [lia|]. cbn [settle]. destruct (count s =? 0); [done|].
  match goal with |- context [drop_far ?m ?d ?l ?u] => pose proof (drop_far_sizes m d l u) as Hd; destruct (drop_far m d l u) as [r isDrop] end.
  destruct isDrop; [|done]. destruct Hd as (H1 & H2 & H3). specialize (H3 eq_refl). apply IH; lia.
Qed.

Lemma collect_count last mask stages s s' :
  count s = Z.of_nat (length (stamps s)) -> collect last mask stages s = ret s' -> count s' = Z.of_nat (length (stamps s')).
Proof.
  revert s. induction stages as [|it stages IH]; intros s Hc; cbn [collect]; [by intros [= <-]|].
  destruct (_ <=? _); [by apply IH|]. destruct (roundTimeStamp it); [by apply IH|].
  intros (v & Ev & E)%mthen_ok. destruct (v =? _); [by eapply IH|]. destruct (stoll _); [|by eapply IH].
  apply mthen_ok in E as (d & Ed & E). eapply IH, E. destruct (dlt _ _); [|done]. cbn [count stamps]. rewrite length_app. cbn [length]. lia.
Qed.

(** The loop of chooseTimeStamp ends, whatever the confidants sent: the turns that the model allows, one
    more than there are stamps, are never used up. *)
Theorem loop_ends last mask storage s : collect last mask storage no_stamps = ret s -> settle (S (length (stamps s))) s <> None.
Proof. intros E. apply settle_total; [|lia]. by apply (collect_count last mask storage no_stamps). Qed.

(** ** Who has a say *)

(** A confidant of the round that the mask trusts *)
Definition heard (mask : bytes) (it : StageOne) : bool :=
  negb (confidantsCount <=? s1_sender it) && match mask !! Z.to_nat (s1_sender it) with Some v => negb (v =? InvalidConfidantIndex) | None => true end.

Lemma collect_heard last mask stages s : collect last mask (List.filter (heard mask) stages) s = collect last mask stages s.
Proof.
  revert s. induction stages as [|it stages IH]; intros s; [done|]. cbn [List.filter collect]. unfold heard at 1, index.
  destruct (Z.leb_spec confidantsCount (s1_sender it)) as [Hle|Hlt]; cbn [negb andb]; [apply IH|].
  destruct (mask !! Z.to_nat (s1_sender it)) as [v|] eqn:Ev.
  - destruct (Z.eqb_spec v InvalidConfidantIndex) as [->|Hne]; cbn [negb].
    + rewrite IH. cbn [mthen ret]. rewrite Z.eqb_refl. by destruct (roundTimeStamp it).
    + cbn [collect]. rewrite (proj2 (Z.leb_gt _ _) Hlt). unfold index. rewrite Ev. destruct (roundTimeStamp it); [apply IH|]. cbn [mthen ret].
      rewrite (proj2 (Z.eqb_neq _ _) Hne). destruct (stoll _); [|apply IH]. destruct (signed 64 _) as [[]|]; [|done..]. apply IH.
  - cbn [collect]. rewrite (proj2 (Z.leb_gt _ _) Hlt). unfold index. rewrite Ev. by destruct (roundTimeStamp it); [apply IH|].
Qed.
End choose.

(** ** A long pause *)

(** Twelve hours in milliseconds, nearly *)
Definition pause : Z := 42500001.

Lemma signed_ok w z r : signed w z = ret r -> r = z /\ - 2 ^ (w - 1) <= z < 2 ^ (w - 1).
Proof. unfold signed. destruct (Z.leb_spec (- 2 ^ (w - 1)) z), (Z.ltb_spec z (2 ^ (w - 1))); cbn [andb]; try done. by intros [= <-]. Qed.

Lemma sum_all_range stages n0 sum :
  - 2 ^ 31 <= sum < 2 ^ 31 -> Forall (fun it => exists v, stoll (roundTimeStamp it) = Ok v) stages ->
  sum_all stages n0 sum = None \/ exists s, sum_all stages n0 sum = ret (n0 + Z.of_nat (length stages), s) /\ - 2 ^ 31 <= s < 2 ^ 31.
Proof.
  intros Hs Hp. revert n0 sum Hs. induction Hp as [|it stages [v Hv] _ IH]; intros n0 sum Hs; cbn [sum_all length]; [right; exists sum; by rewrite Z.add_0_r|].
  rewrite Hv. destruct (signed 32 (sum + s32 v)) as [[r|e]|] eqn:Hr; [|by unfold signed in Hr; destruct (_ && _)|by left].
  apply signed_ok in Hr as [-> Hr]. cbn [mthen]. rewrite Nat2Z.inj_succ, <- Z.add_1_l, Z.add_assoc. by apply IH.
Qed.

Lemma quot_range a n : 0 < n -> - 2 ^ 31 <= a < 2 ^ 31 -> - 2 ^ 31 <= Z.quot a n < 2 ^ 31.
Proof. intros Hn Ha. Z.to_euclidean_division_equations. nia. Qed.

Lemma collect_stamp n T mask it v stages s :
  s1_sender it < n -> mask !! Z.to_nat (s1_sender it) = Some v -> v <> InvalidConfidantIndex ->
  0 <= T < 2 ^ 62 -> roundTimeStamp it = print_u (T + pause) ->
  collect n T mask (it :: stages) s =
    collect n T mask stages (mkStamps (stamps s ++ [of_Z pause]) (dadd (sx s) (of_Z pause)) (dadd (sx2 s) (dmul (of_Z pause) (of_Z pause))) (count s + 1)).
Proof.
  intros Hn Hm Hv HT Ht. cbn [collect]. rewrite (proj2 (Z.leb_gt _ _)) by done. unfold index. rewrite Hm. cbn [mthen ret].
  rewrite (proj2 (Z.eqb_neq _ _)) by done. rewrite Ht. rewrite stoll_print by (unfold pause; lia).
  destruct (print_digits_nonempty 19 (T + pause)) as (c & r & E). unfold print_u. rewrite E.
  replace (T + pause - T) with pause by lia. reflexivity.
Qed.

(** After a pause of twelve hours the agreement of all confidants is lost: when seven of them send the
    same stamp, 42500001 ms after the last block, the rounding of the squares makes the dispersion
    negative, all stamps are dropped, and the block gets a time of 1970, at most 2^31 ms after the epoch,
    or the sum of the truncated stamps overflows, which is undefined. *)
Theorem equal_stamps_lost T (stage : Z -> StageOne) mask :
  0 <= T < 2 ^ 62 -> (forall i, s1_sender (stage i) = i /\ roundTimeStamp (stage i) = print_u (T + pause)) ->
  length mask = 7%nat -> Forall (fun v => v <> InvalidConfidantIndex) mask ->
  let r := chooseTimeStamp 7 (print_u T) (map stage (seqZ 0 7)) mask in
  r = None \/ exists z, r = ret (to_string z) /\ z < 2 ^ 31.
Proof.
  intros HT Hs Hl Hm r. unfold r, chooseTimeStamp. rewrite stoll_print by lia.
  do 8 (destruct mask as [|? mask]; try done). clear Hl. rewrite !Forall_cons in Hm. destruct Hm as (? & ? & ? & ? & ? & ? & ? & _).
  replace (seqZ 0 7) with [0; 1; 2; 3; 4; 5; 6] by reflexivity. cbn [map].
  do 7 (erewrite collect_stamp; [|rewrite (proj1 (Hs _)); lia|by rewrite (proj1 (Hs _))|done|done|apply Hs]).
  cbn [collect]. change (mthen (ret ?a) ?k) with (k a). cbn beta.
  match goal with |- context [settle ?n ?s] => replace (settle n s) with (Some (@None double)) by (vm_compute; reflexivity) end.
  destruct (sum_all_range (map stage [0; 1; 2; 3; 4; 5; 6]) 0 0) as [E|(sum & E & Hr)]; [lia| |cbn [map] in E; rewrite E; by left|].
  - apply Forall_map, Forall_forall. intros i _. exists (T + pause). rewrite (proj2 (Hs i)). apply stoll_print. unfold pause. lia.
  - cbn [map] in E. rewrite E. right. cbn [mthen ret]. eexists. split; [done|]. by apply quot_range.
Qed.
End TimeStamp.

(** ** Witness *)

(** Noon of a day in 2023, and what seven confidants send *)
Definition noon : Z := 1700000000000.
Definition punctual (i : Z) : Stage.StageOne := Stage.mkStageOne i [] (print_u (noon + TimeStamp.pause)) [] [] [] [] [].

Lemma equal_stamps_lost_witness :
  let r := TimeStamp.chooseTimeStamp 7 (print_u noon) (map punctual (seqZ 0 7)) (replicate 7 0) in
  r = None \/ exists z, r = ret (TimeStamp.to_string z) /\ z < 2 ^ 31.
Proof.
  apply (TimeStamp.equal_stamps_lost noon punctual (replicate 7 0)); [unfold noon; lia|done|done|].
  apply (bool_decide_unpack _). vm_compute. reflexivity.
Defined.
