(* ===== verification/SolverBlock.v ===== *)
(** * The block of a round in the solver ([solver/src/solvercore.cpp],
      [solverinterface.cpp], [solvercontext.cpp], [states/waitingstate.cpp],
      [states/writingstate.cpp])

    What the core of the solver does after the decision of stage three: it makes
    the block of the round and signs it, the table and the list of the next
    confidants ([spawn_next_round]); when the signatures of the others are in,
    the waiting state puts them into the block, the chain records it, and the
    first confidant in the order of stage three becomes the writer while the
    others wait their turn.  Confidants that were missing in the consensus of a
    contract go to the gray list.

    The core works over the node ([NodeRounds]) and the storage of stages three
    ([StageStore]).  The transitions that the states ask for, messages and
    requests are outputs; the log and the reports for the monitor are left out. *)

From Stdlib Require Import ZArith Lia.
From stdpp Require Import base tactics numbers option list gmap.
From S2P Require Import Prelude Effect OrdMap Text BinStream Amount UserField Crypto DataStream Address Utils Transaction Packet MetaStorage Double Pool.
From S2P Require Import Database Storage ContractRef Conveyer Fee Tail WalletsIds WalletsCache Validator IterValidator BlockChain PoolSync Stage Stage3 StageStore.
From S2P Require Import RoundPackage NodeRounds TimeStamp Scheduler SolverFsm.

Local Open Scope Z_scope.
Local Open Scope cs_scope.

#[export] Instance eta_stage3 : Eta Stage.StageThree := fun s =>
  Stage.mkStageThree (Stage.s3_sender s) (Stage.writer s) (Stage.iteration s) (Stage.realTrustedMask s) (Stage.blockSignature s) (Stage.blockHash s)
    (Stage.roundSignature s) (Stage.roundHash s) (Stage.trustedHash s) (Stage.trustedSignature s) (Stage.s3_message s) (Stage.s3_signature s).

(** What leaves the core *)
Inductive SolverEvent :=
  | SoNode (e : NodeEvent)
  | SoTransition (e : SolverFsm.Event)
  | SoConfidants (keys : list bytes)
  | SoRoundTableRequest (respondent : Z)
  | SoStageReply (sender : Z) (signature : bytes) (requester : Z) (message : bytes).

(** The members of [SolverCore] that the block of a round goes through *)
Record SolverState (B D : Type) := mkSolver {
  so_node : NodeState B D;
  so_store : StageThreeStore.Store;
  stageOneStorage : list Stage.StageOne;
  stageTwoStorage : list Stage.StageTwo;
  so_deferredBlock_ : Pool.priv;
  justCreatedRoundPackage : RoundPackage;
  trusted_candidates : list bytes;
  hashes_candidates : list bytes;
  grayList_ : gmap bytes Z;
  lastGrayUpdated_ : Z
}.
Arguments mkSolver {B D}.
Arguments so_node {B D}.
Arguments so_store {B D}.
Arguments stageOneStorage {B D}.
Arguments stageTwoStorage {B D}.
Arguments so_deferredBlock_ {B D}.
Arguments justCreatedRoundPackage {B D}.
Arguments trusted_candidates {B D}.
Arguments hashes_candidates {B D}.
Arguments grayList_ {B D}.
Arguments lastGrayUpdated_ {B D}.
#[export] Instance eta_solver {B D} : Eta (SolverState B D) := fun s =>
  mkSolver (so_node s) (so_store s) (stageOneStorage s) (stageTwoStorage s) (so_deferredBlock_ s) (justCreatedRoundPackage s)
    (trusted_candidates s) (hashes_candidates s) (grayList_ s) (lastGrayUpdated_ s).

(** ** The gray list *)

Module GrayList.
Implicit Types (l : gmap bytes Z) (key : bytes).

Definition isInGrayList key l : bool := bool_decide (is_Some (l !! key)).
(** [addToGraylist]; [rounds] is a [uint32_t], the numbers in the list are of 16 bits. *)
Definition addToGraylist key (rounds : Z) l : gmap bytes Z :=
  match l !! key with
  | None => <[key := u16 rounds]> l
  | Some v => <[key := u16 (v + u16 (u32 (rounds * 2)))]> l
  end.
(** [updateGrayList]: the list and [lastGrayUpdated_] *)
Definition updateGrayList (round : Z) (l : gmap bytes Z) (last : Z) : gmap bytes Z * Z :=
  if round <=? last then (l, last)
  else
    let delta := u16 (round - last) in
    (omap (fun v => if v <=? delta then None else Some (v - delta)) l, round).
Definition resetGrayList : gmap bytes Z := ∅.
End GrayList.

(** ** Timers ([solver/src/timeouttracking.cpp]) *)

Module TimeoutTracking.
Section timers.
Context (hash_code : Z -> Z).

(** [start]: the tag that is kept, and the scheduler; times in nanoseconds *)
Definition start (now wait_for_ms proc : Z) (replace_existing : bool) (tag : Z) (s : Scheduler.State) : Z * Scheduler.State :=
  Scheduler.Insert hash_code now (wait_for_ms * Scheduler.ms) proc Scheduler.once replace_existing tag s.
(** The call that is scheduled: whether [proc] runs, and the tag *)
Definition fire (call_tag : Z) : bool * Z := if negb (call_tag =? Scheduler.no_tag) then (true, Scheduler.no_tag) else (false, call_tag).
Definition cancel (call_tag : Z) (s : Scheduler.State) : bool * Z * Scheduler.State :=
  if negb (call_tag =? Scheduler.no_tag) then (true, Scheduler.no_tag, (Scheduler.Remove call_tag s).2) else (false, call_tag, s).
Definition is_active (call_tag : Z) : bool := negb (call_tag =? Scheduler.no_tag).
End timers.
End TimeoutTracking.

Module SolverBlock.
Import Stage.
Section solver.
Context `{!Cscrypto, !Libm} {B : Type} `{!Database B} {D : Type} `{!MultiIndex D}.
Context (begin : list PoolElement -> nat) (invocation_method : bytes -> bytes) (genesisAddress_ : Address).
Context (interrupted : Pool.priv -> bool -> Cache -> Pool.priv * Cache).
Context (sort : list NeighboursSetElemet -> list NeighboursSetElemet).
Context (clock : bytes) (now : Z) (nodeIdKey_ : bytes) (signOwn : bytes -> bytes) (streamGood : bool) (indeterminate : Z) (indeterminateKey : bytes).
(** The node's own validation of a packet, which [IterValidator] models *)
Context (ownValidation : TransactionsPacket -> list TransactionsPacket -> option bytes).
Implicit Types (s : SolverState B D) (stage : StageThree) (pool : Pool.priv).

#[local] Abbreviation conveyer_of s := (nd_conveyer (so_node s)).
#[local] Abbreviation chain_of s := (nd_chain (so_node s)).
#[local] Abbreviation round_of s := (currentRound_ (nd_conveyer (so_node s))).
#[local] Abbreviation own_of s := (myConfidantIndex_ (so_node s)).

Definition with_node (nd : NodeState B D) s : SolverState B D := s <| so_node := nd |>.
Definition with_chain (c : BlockChain B D) s : SolverState B D := s <| so_node := so_node s <| nd_chain := c |> |>.

Definition stage1 (i : Z) s : option StageOne := Stage3.find_stage1 (stageOneStorage s) i.
Definition stage3 (i : Z) s : option StageThree := StageThreeStore.find_stage3 (StageThreeStore.stageThreeStorage (so_store s)) i.
Definition stage2 (i : Z) s : option StageTwo := List.find (fun st => s2_sender st =? i) (stageTwoStorage s).

(** ** The block *)

Definition add_confirmations (sequence round : Z) pool s : Pool.priv :=
  let '(mask, confirmations) :=
    match ConfirmationList.find round (confirmationList_ (so_node s)) with Some c => (tc_mask c, tc_signatures c) | None => ([], []) end in
  if 1 <? sequence then
    let pool := Pool.add_number_confirmations (u8 (Z.of_nat (length mask))) pool in
    let pool := Pool.add_confirmation_mask (Utils.maskToBits mask) pool in
    Pool.add_round_confirmations confirmations pool
  else pool.

(** The block of a further iteration: the same transactions under the new mask and time stamp.  The
    wallets of a block that is read only are a null pointer. *)
Definition rebuild (mask timestamp : bytes) (deferred : Pool.priv) : M Pool.priv :=
  let tmp := Pool.set_sequence (Pool.sequence_ deferred) Pool.default in
  let tmp := Pool.set_previous_hash (Pool.previous_hash_ deferred) tmp in
  let tmp := Pool.add_real_trusted (Utils.maskToBits mask) tmp in
  let tmp := Pool.add_number_trusted (u8 (Z.of_nat (length mask))) tmp in
  let tmp := Pool.setRoundCost (Pool.roundCost_ deferred) tmp in
  let tmp := Pool.set_confidants (Pool.confidants_ deferred) tmp in
  let tmp := foldl (fun tmp t => (Pool.add_transaction t tmp).2) tmp (Pool.transactions_ deferred) in
  let tmp := (Pool.add_user_field 0 (uf_of_string timestamp) tmp).2 in
  let tmp := foldl (fun tmp x => Pool.add_smart_signature x tmp) tmp (Pool.smartSignatures_ deferred) in
  if Pool.read_only_ deferred then None
  else ret (Pool.edit_newWallets (fun l => l ++ Pool.newWallets_ deferred) tmp).

(** The end of [spawn_next_round]: the three hashes with their signatures *)
Definition sign_stage stage s : M (StageThree * SolverState B D) :=
  let deferred := (Pool.to_byte_stream (so_deferredBlock_ s)).2 in
  do! (hash, deferred) := defined (Pool.hash deferred) in
  let s := s <| so_deferredBlock_ := deferred |> in
  let blockHash' := if PoolHash.is_empty hash then blockHash stage else hash in
  let stage := stage <| blockHash := blockHash' |> <| blockSignature := signOwn blockHash' |> in
  match Conveyer.characteristic (round_of s) (conveyer_of s) with
  | None => ret (stage, s)
  | Some _ =>
      let '(bytes, package) := RoundPackage.bytesToSign (justCreatedRoundPackage s) in
      let hash := calculateHash bytes in
      let stage := stage <| roundHash := hash |> <| roundSignature := signOwn hash |> in
      let table := roundTable_ package in
      let trusted := calculateHash (ds_put RoundPackage.keys_ds (rt_confidants table) (addValue 8 (rt_round table) [])) in
      ret (stage <| trustedHash := trusted |> <| trustedSignature := signOwn trusted |>, s <| justCreatedRoundPackage := package |>)
  end.

(** [SolverCore::spawn_next_round]: the stage, the core and the node's signals *)
Definition core_spawn_next_round (nodes hashes : list bytes) (currentTimeStamp : bytes) stage s : M (StageThree * SolverState B D * list NodeEvent) :=
  let round := round_of s in
  match Conveyer.roundTable round (conveyer_of s) with
  | None => ret (stage, s, [])
  | Some _ =>
      let package := RoundPackage.updateRoundTable (mkRoundTable (u64 (round + 1)) nodes hashes) (justCreatedRoundPackage s) in
      do! (timeStamp, s) :=
        (if round =? 1 then ret (currentTimeStamp, s)
         else
           do! (last, c) := BlockChain.getLastTimeStamp begin (chain_of s) in
           do! count := Conveyer.confidantsCount (conveyer_of s) in
           do! stamp := TimeStamp.chooseTimeStamp (Z.of_nat count) last (stageOneStorage s) (realTrustedMask stage) in
           ret (stamp, with_chain c s)) in
      do! previous := BlockChain.getLastHash (chain_of s) in
      let sequence := u64 (BlockChain.getLastSeq (chain_of s) + 1) in
      let info := mkPoolMetaInfo timeStamp previous sequence (realTrustedMask stage) in
      let mask := default [] (Conveyer.characteristic round (conveyer_of s)) in
      let s := s <| justCreatedRoundPackage := RoundPackage.updatePoolMeta info mask package |> in
      if iteration stage =? 0 then
        do! (pool, conveyer, signals) := Conveyer.applyCharacteristic indeterminate info (conveyer_of s) in
        let '(nd, events) := NodeRounds.with_conveyer now (conveyer, signals) (so_node s) in
        let s := with_node nd s in
        match pool with
        | None => ret (stage, s, events)
        | Some pool =>
            do! keys := Conveyer.confidants (conveyer_of s) in
            do! (pool, c) := BlockChain.addNewWalletsToPool genesisAddress_ (Pool.set_confidants keys pool) (chain_of s) in
            let s := with_chain c s in
            do! pool := BlockChain.setTransactionsFees invocation_method pool in
            do! (stage, s) := sign_stage stage (s <| so_deferredBlock_ := add_confirmations sequence round pool s |>) in
            ret (stage, s, events)
        end
      else
        do! pool := rebuild (realTrustedMask stage) timeStamp (so_deferredBlock_ s) in
        do! (stage, s) := sign_stage stage (s <| so_deferredBlock_ := add_confirmations sequence round pool s |>) in
        ret (stage, s, [])
  end.

(** [SolverContext::spawn_next_round] *)
Definition spawn_next_round stage s : M (StageThree * SolverState B D * list SolverEvent) :=
  if s3_sender stage =? InvalidConfidantIndex then ret (stage, s, [])
  else
    let sent := if writer stage =? s3_sender stage then [SoConfidants (trusted_candidates s)] else [] in
    let tStamp := if negb (writer stage =? InvalidConfidantIndex) then match stage1 (writer stage) s with Some st => roundTimeStamp st | None => [] end else [] in
    match tStamp with
    | [] => ret (stage, s, sent)
    | _ =>
        do! (stage, s, events) := core_spawn_next_round (trusted_candidates s) (hashes_candidates s) tStamp stage s in
        ret (stage, s, sent ++ map SoNode events)
    end.

(** [SolverContext::next_trusted_candidates] *)
Definition next_trusted_candidates (nodes hashes : list bytes) s : SolverState B D := s <| trusted_candidates := nodes |> <| hashes_candidates := hashes |>.

(** ** The signatures of the block *)

(** [checkZeroSmartSignatures]: the loop over the signatures of one contract *)
Fixpoint zero_loop (consensusPool : Z) (l : list (Z * bytes)) (metZeroSignature blockLoaded : bool) (smartConfidants : list bytes) s : M (SolverState B D) :=
  match l with
  | [] => ret s
  | (first, signature) :: l =>
      let zero := bool_decide (signature = Zero_signature) in
      let met := metZeroSignature || zero in
      do! (loaded, confidants, s) :=
        (if met && negb blockLoaded then
           do! (p, c) := BlockChain.loadBlock begin consensusPool (chain_of s) in
           ret (true, if negb (Pool.sequence_ p =? 0) then Pool.confidants_ p else smartConfidants, with_chain c s)
         else ret (blockLoaded, smartConfidants, s)) in
      let s :=
        if met && zero then
          match confidants !! Z.to_nat first with
          | Some key => s <| grayList_ := GrayList.addToGraylist key GrayListPunishment (grayList_ s) |>
          | None => s
          end
        else s in
      zero_loop consensusPool l met loaded confidants s
  end.
Definition checkZeroSmartSignatures pool s : M (SolverState B D) :=
  mfold (fun it s => zero_loop (Pool.smartConsensusPool it) (Pool.smart_signatures it) false false [] s) (Pool.smartSignatures_ pool) s.

Definition updateLastPackageSignatures s : SolverState B D :=
  let package := RoundPackage.updatePoolSignatures (StageThreeStore.poolSignatures (so_store s)) (justCreatedRoundPackage s) in
  let package := RoundPackage.updateRoundSignatures (StageThreeStore.roundSignatures (so_store s)) package in
  let package := RoundPackage.updateTrustedSignatures (StageThreeStore.trustedConfirmation (so_store s)) package in
  s <| justCreatedRoundPackage := package |> <| so_node := NodeRounds.setCurrentRP package (so_node s) |>.

Definition addSignaturesToDeferredBlock (blockSignatures : list bytes) s : M (bool * SolverState B D) :=
  if negb (Pool.is_valid_ (so_deferredBlock_ s)) then ret (false, s)
  else
    let s := s <| so_deferredBlock_ := Pool.set_signatures blockSignatures (so_deferredBlock_ s) |> in
    do! (res, c, events) := BlockChain.createBlock begin interrupted (so_deferredBlock_ s) (chain_of s) in
    let s := with_node (NodeRounds.with_chain sort c events (so_node s)) s in
    match res with
    | None => ret (false, s)
    | Some pool =>
        do! s := checkZeroSmartSignatures pool s in
        ret (true, updateLastPackageSignatures (s <| so_deferredBlock_ := Pool.default |>))
    end.

Definition removeDeferredBlock (seq : Z) s : SolverState B D :=
  if Pool.sequence_ (so_deferredBlock_ s) =? seq
  then with_chain (BlockChain.removeWalletsInPoolFromCache (so_deferredBlock_ s) (chain_of s)) s <| so_deferredBlock_ := Pool.default |>
  else s.

(** ** The waiting and the writing state *)

Definition sendRoundTableDelayMs_ : Z := 6000.

(** How [WaitingState::on] ends *)
Inductive Turn := NoTurn | NotWritten | BecomesWriter | Waits (ms : Z).

(** The signatures of those that the mask trusts, in its order; [None] is a null pointer. *)
Fixpoint gather (i : Z) (mask : bytes) s : M (list bytes) :=
  match mask with
  | [] => ret []
  | v :: mask =>
      if negb (v =? InvalidConfidantIndex) then
        do! sig := match stage3 (u8 i) s with Some st => ret (blockSignature st) | None => None end in
        do! l := gather (i + 1) mask s in ret (sig :: l)
      else gather (i + 1) mask s
  end.

(** [on]: how it ends, [writingQueueNumber_] and the core *)
Definition waiting_on s : M (Turn * Z * SolverState B D) :=
  match stage3 (own_of s) s with
  | None => None
  | Some mine =>
      do! number := at_ (realTrustedMask mine) (Z.to_nat (s3_sender mine)) in
      if number =? InvalidConfidantIndex then ret (NoTurn, number, s)
      else
        do! bSignatures := gather 0 (realTrustedMask mine) s in
        do! (added, s) := addSignaturesToDeferredBlock bSignatures s in
        if negb added then ret (NotWritten, number, s)
        else if number =? 0 then ret (BecomesWriter, number, s)
        else ret (Waits (u32 (sendRoundTableDelayMs_ * number)), number, s)
  end.

(** [activate_new_round], when the wait is over: whom the round table is asked for *)
Definition activate_new_round (number : Z) s : M (list SolverEvent) :=
  match stage3 (own_of s) s with
  | None => ret []
  | Some mine =>
      let w := u8 (writer mine + number) in
      do! count := Conveyer.confidantsCount (conveyer_of s) in
      if (count =? 0)%nat then None
      else ret [SoRoundTableRequest (u8 (u64 (w - 1) mod Z.of_nat count)); SoRoundTableRequest (u8 ((w + 1) mod Z.of_nat count))]
  end.

(** [WritingState::on], [SolverCore::sendRoundTable] *)
Definition sendRoundTable s : M (SolverState B D * list NodeEvent) :=
  do! (nd, events) := NodeRounds.sendRoundTable begin invocation_method genesisAddress_ interrupted sort clock now nodeIdKey_
    (so_deferredBlock_ s) ownValidation indeterminate indeterminateKey streamGood (justCreatedRoundPackage s) (so_node s) in
  ret (with_node nd s, events).

(** ** Requests of other confidants *)

Definition gotStageOneRequest (requester required : Z) s : list SolverEvent :=
  match stage1 required s with Some st => [SoStageReply (s1_sender st) (s1_signature st) requester (s1_message st)] | None => [] end.
Definition gotStageTwoRequest (requester required : Z) s : list SolverEvent :=
  match stage2 required s with Some st => [SoStageReply (s2_sender st) (s2_signature st) requester (s2_message st)] | None => [] end.
Definition gotStageThreeRequest (requester required iteration_ : Z) s : list SolverEvent :=
  match List.find (fun it => (iteration it =? iteration_) && (s3_sender it =? required)) (StageThreeStore.stageThreeStorage (so_store s)) with
  | Some it => [SoStageReply (s3_sender it) (s3_signature it) requester (s3_message it)]
  | None => []
  end.

Definition gotRoundInfoRequest (requester : bytes) (requester_round : Z) s : M (SolverState B D * list SolverEvent) :=
  let reply hasRequestedInfo s := map SoNode (NodeRounds.sendRoundTableReply requester hasRequestedInfo (so_node s)) in
  if requester_round =? round_of s then
    let '(sent, s, events) :=
      match stage3 (own_of s) s with
      | Some st =>
          if s3_sender st =? writer st then
            let '(sent, nd, events) := NodeRounds.tryResendRoundTable requester (round_of s) (so_node s) in (sent, with_node nd s, map SoNode events)
          else (false, s, [])
      | None => (false, s, [])
      end in
    ret (s, if sent : bool then events else events ++ reply false s)
  else if requester_round <? round_of s then
    do! isConfidant := Conveyer.isConfidantKey requester (conveyer_of s) in
    if isConfidant : bool then
      let '(_, nd, events) := NodeRounds.tryResendRoundTable requester (round_of s) (so_node s) in ret (with_node nd s, map SoNode events)
    else ret (s, reply true s)
  else ret (s, []).
Definition gotRoundInfoReply (next_round_started : bool) : list SolverEvent := if next_round_started then [] else [SoTransition SetWriter].

(** [getWriterPublicKey]: the index may be the size. *)
Definition getWriterPublicKey s : M bytes :=
  match stage3 (own_of s) s with
  | None => ret (replicate kPublicKeySize 0)
  | Some st =>
      do! trusted := Conveyer.confidants (conveyer_of s) in
      if writer st <=? Z.of_nat (length trusted) then index trusted (Z.to_nat (writer st)) else ret (replicate kPublicKeySize 0)
  end.

(** [nextRound]: what is cleared *)
Definition nextRound s : SolverState B D :=
  let '(grayList, last) := GrayList.updateGrayList (round_of s) (grayList_ s) (lastGrayUpdated_ s) in
  s <| so_deferredBlock_ := Pool.default |> <| stageOneStorage := [] |> <| stageTwoStorage := [] |> <| so_store := StageThreeStore.cleared |>
    <| trusted_candidates := [] |> <| grayList_ := grayList |> <| lastGrayUpdated_ := last |>.
End solver.

(** [ownValidation]: the characteristic of a packet, if it has an entry for each transaction *)
Section validation.
Context `{!Cscrypto, !Libm} {D : Type} `{!MultiIndex D} (ids : WalletsIds D) (loadBlock : Z -> Pool.priv) (cache : Cache) (known closed : Address -> bool).
Context (deserialize : bytes -> Invocation) (find_deploy_info : Address -> option Invocation) (is_payable_target : Transaction -> bool).

Definition ownValidation (packet : TransactionsPacket) (smartsPackets : list TransactionsPacket) (pVal_ : IterState) : M (option bytes * IterState) :=
  let transactionsCount := length (transactions_ packet) in
  do! (mask, pVal_) :=
    (if (0 <? transactionsCount)%nat then
       do! (_, mask, _, pVal_) :=
         IterValidator.formCharacteristic ids loadBlock cache known closed deserialize find_deploy_info is_payable_target (transactions_ packet) smartsPackets pVal_ in
       ret (IterValidator.normalizeCharacteristic (map reason_byte mask), pVal_)
     else ret ([], pVal_)) in
  ret (if negb (length mask =? transactionsCount)%nat then None else Some mask, pVal_).
End validation.
End SolverBlock.
