(* ===== verification/SolverBlockSpec.v ===== *)
(** * What the solver's block of a round guarantees

    [finished_block_passes]: when the post stage finishes, the signatures that the
    waiting state puts into the block, and those of the package, pass the checks
    of the chain and of the receivers.  [gray_list_expires]: a confidant stays in
    the gray list for as many rounds as it was put there for, unless 2^16 rounds
    pass without an update ([gray_list_wraps]). *)

From Stdlib Require Import ZArith Lia.
From stdpp Require Import base tactics numbers option list gmap.
From S2P Require Import Prelude Effect OrdMap Text BinStream Amount UserField Crypto DataStream Address Utils Transaction Packet MetaStorage Double Pool.
From S2P Require Import Database Storage StorageSpec ContractRef Conveyer ConveyerSpec Fee Tail WalletsIds WalletsCache Validator IterValidator BlockChain BlockChainSpec PoolSync Stage Stage3 StageStore.
From S2P Require Import RoundPackage NodeRounds PoolSyncSpec NodeRoundsSpec TimeStamp Scheduler SolverFsm SolverBlock.

Local Open Scope Z_scope.
Local Open Scope cs_scope.

(** ** Slots of signatures *)

Module SlotSpec.
Import NodeUtils GroupSpec StageThreeStore.
Section slots.
Context `{!Cscrypto}.

(** A signature of each trusted confidant at its position *)
Definition slots_signed (mask : bytes) (confidants signatures : list bytes) (hash : bytes) : Prop :=
  forall i, valid_at mask i -> exists key signature, confidants !! Z.to_nat i = Some key /\
    signatures !! position mask i = Some signature /\ verifySignature signature key hash = true.

Lemma all_signed_slots mask confidants signatures hash :
  length confidants = length mask -> length signatures = valid_count mask -> slots_signed mask confidants signatures hash ->
  all_signed mask confidants signatures hash.
Proof.
  revert confidants signatures. induction mask as [|v mask IH]; intros confidants signatures Hc Hs Hl; unfold all_signed.
  - destruct signatures; [|done]. by destruct confidants.
  - destruct confidants as [|key confidants]; [done|]. injection Hc as Hc. unfold valid_count in Hs. rewrite filter_cons in Hs. cbn [trusted_by].
    assert (forall i, valid_at mask i -> exists key' signature, confidants !! Z.to_nat i = Some key' /\
      signatures !! position (v :: mask) (i + 1) = Some signature /\ verifySignature signature key' hash = true) as Htail.
    { intros i Hi. pose proof Hi as [Hp _]. destruct (Hl (i + 1)) as (key' & sig & E1 & E2 & E3).
      - apply valid_at_cons. right. split; [lia|]. by replace (i + 1 - 1) with i by lia.
      - exists key', sig. replace (Z.to_nat (i + 1)) with (S (Z.to_nat i)) in E1 by lia. by split_and!. }
    assert (forall i, 0 <= i -> position (v :: mask) (i + 1) = if negb (v =? InvalidConfidantIndex) then S (position mask i) else position mask i) as Hpos.
    { intros i Hi. cbn [position]. rewrite (proj2 (Z.eqb_neq (i + 1) 0)) by lia. by replace (i + 1 - 1) with i by lia. }
    destruct (Z.eqb_spec v 255) as [->|Hv]; cbn [negb].
    + rewrite decide_False in Hs by (unfold InvalidConfidantIndex; tauto). apply IH; [done|done|].
      intros i Hi. destruct (Htail i Hi) as (key' & sig & E1 & E2 & E3). pose proof Hi as [Hp _]. rewrite Hpos in E2 by done. by exists key', sig.
    + rewrite decide_True in Hs by done. destruct signatures as [|signature signatures]; [done|]. injection Hs as Hs. apply Forall2_cons. split.
      * destruct (Hl 0) as (key' & sig & E1 & E2 & E3); [apply valid_at_cons; by left|]. injection E1 as <-. by injection E2 as <-.
      * apply IH; [done|done|]. intros i Hi. destruct (Htail i Hi) as (key' & sig & E1 & E2 & E3). pose proof Hi as [Hp _].
        rewrite Hpos in E2 by done. unfold InvalidConfidantIndex in *. rewrite (proj2 (Z.eqb_neq v 255)) in E2 by done. by exists key', sig.
Qed.

Lemma group_passes confidants mask signatures hash :
  confidants <> [] -> length confidants = length mask -> length signatures = valid_count mask -> slots_signed mask confidants signatures hash ->
  checkGroupSignature confidants mask signatures hash = ret true.
Proof.
  intros Hn Hc Hs Hl. destruct (checkGroupSignature_spec confidants mask signatures hash) as (b & -> & Hb). f_equal. f_equal. apply Hb.
  split_and!; [done|done|exact Hs|by apply all_signed_slots].
Qed.

(** The check looks only at which entries are 255. *)
Lemma group_bits confidants mask mask' signatures hash :
  map (fun v => v =? 255) mask = map (fun v => v =? 255) mask' ->
  checkGroupSignature confidants mask signatures hash = checkGroupSignature confidants mask' signatures hash.
Proof.
  intros E. assert (length mask = length mask') as El by (rewrite <- (length_map (fun v => v =? 255) mask), E; apply length_map).
  unfold checkGroupSignature. rewrite El.
  assert (realTrustedValue mask = realTrustedValue mask') as ->.
  { clear El. revert mask' E. induction mask as [|v mask IH]; intros [|v' mask'] E; try done. injection E as Ev E. by rewrite !realTrustedValue_cons, Ev, (IH mask'). }
  clear El. case_match; [done|]. case_match; [done|]. case_match; [done|]. clear -E. generalize true as b. revert mask' confidants signatures E.
  induction mask as [|v mask IH]; intros [|v' mask'] confidants signatures E b; try done. injection E as Ev E. cbn [check_loop]. rewrite Ev.
  destruct (negb _); [|by apply IH]. destruct signatures, confidants; try done. by apply IH.
Qed.
End slots.
End SlotSpec.

(** ** The gray list *)

Module GraySpec.
Import GrayList.
Implicit Types (l : gmap bytes Z) (key : bytes).

Lemma update_lookup round last l key :
  last < round -> (updateGrayList round l last).1 !! key =
    l !! key ≫= (fun v => if v <=? u16 (round - last) then None else Some (v - u16 (round - last))).
Proof. intros Hr. unfold updateGrayList. rewrite (proj2 (Z.leb_gt _ _) Hr). cbn [fst]. apply lookup_omap. Qed.

(** A confidant that is put into an empty place of the list for [rounds] rounds stays in it for
    exactly that many. *)
Theorem gray_list_expires key rounds last round l :
  l !! key = None -> in_u 16 rounds -> last < round -> round - last < 2 ^ 16 ->
  isInGrayList key (updateGrayList round (addToGraylist key rounds l) last).1 = (round - last <? rounds).
Proof.
  intros Hk Hr Hlt Hd. unfold isInGrayList. rewrite update_lookup by done. unfold addToGraylist. rewrite Hk, lookup_insert_eq. cbn [mbind option_bind].
  rewrite !uwrap_id by (unfold in_u in *; lia). destruct (Z.leb_spec rounds (round - last)).
  - rewrite bool_decide_false by (by intros []). symmetry. by apply Z.ltb_ge.
  - rewrite bool_decide_true by (by eexists). symmetry. by apply Z.ltb_lt.
Qed.

(** The difference of the rounds is kept in 16 bits: after 2^16 rounds everybody is still in the list. *)
Theorem gray_list_wraps last l key :
  (forall v, l !! key = Some v -> 0 < v) -> (updateGrayList (last + 2 ^ 16) l last).1 !! key = l !! key.
Proof.
  intros Hv. rewrite update_lookup by lia. replace (last + 2 ^ 16 - last) with (2 ^ 16) by lia. change (u16 (2 ^ 16)) with 0.
  destruct (l !! key) as [v|]; [|done]. cbn [mbind option_bind]. specialize (Hv v eq_refl). rewrite (proj2 (Z.leb_gt _ _)) by lia. by rewrite Z.sub_0_r.
Qed.
End GraySpec.

Module SolverSpec.
Import Stage StageThreeStore SlotSpec SolverBlock.

Section spec.
Context `{!Cscrypto, !CscryptoLaws _, !Libm} {B : Type} `{!Database B} {D : Type} `{!MultiIndex D}.
Context (begin : list PoolElement -> nat) (invocation_method : bytes -> bytes) (genesisAddress_ : Address).
Context (now : Z) (signOwn : bytes -> bytes) (indeterminate : Z).
Implicit Types (s : SolverState B D) (stage : StageThree) (p q : Pool.priv).

#[local] Abbreviation conveyer_of s := (nd_conveyer (so_node s)).
#[local] Abbreviation chain_of s := (nd_chain (so_node s)).
#[local] Abbreviation round_of s := (currentRound_ (nd_conveyer (so_node s))).
#[local] Abbreviation spawn := (core_spawn_next_round begin invocation_method genesisAddress_ now signOwn indeterminate).
#[local] Abbreviation sign := (sign_stage signOwn).

(** *** The block before it is signed *)

(** A block that has not been written out *)
Record open_pool p : Prop := {
  open_read_only : Pool.read_only_ p = false;
  open_hash : Pool.hash_ p = [];
  open_binary : Pool.binary_representation_ p = []
}.

Lemma open_default : open_pool Pool.default.
Proof. done. Qed.
Lemma open_add_transaction t p : open_pool p -> open_pool (Pool.add_transaction t p).2.
Proof. intros [H1 H2 H3]. unfold Pool.add_transaction. rewrite H1. by destruct (Tx.is_valid t). Qed.
Lemma open_user_field i f p : open_pool p -> open_pool (Pool.add_user_field i f p).2.
Proof. intros [H1 H2 H3]. unfold Pool.add_user_field. by destruct (_ || _). Qed.

Lemma apply_transactions_open mask l a : open_pool (Conveyer.newPool a) -> open_pool (Conveyer.newPool (foldl (Conveyer.apply_transaction mask) a l)).
Proof.
  revert a. induction l as [|t l IH]; intros a Ha; [done|]. cbn [foldl]. apply IH. unfold Conveyer.apply_transaction.
  destruct (mask !! Conveyer.maskIndex a) as [m|]; [|done]. destruct (negb _); [|done]. cbn [upd Conveyer.newPool]. by apply open_add_transaction.
Qed.

Lemma apply_smart_open mask packet a a' : open_pool (Conveyer.newPool a) -> Conveyer.apply_smart indeterminate mask packet a = ret a' -> open_pool (Conveyer.newPool a').
Proof.
  intros Ha. unfold Conveyer.apply_smart. destruct (Packet.isSmart packet); [|by intros [= <-]]. destruct (transactions_ packet) as [|t l]; [done|].
  intros (b & Eb & E)%mthen_ok. injection E as <-. assert (open_pool (Conveyer.newPool b)) as Hb.
  { destruct (mask !! Conveyer.maskIndex a) as [m|]; [|by injection Eb as <-]. destruct (negb _); [|by injection Eb as <-].
    apply mthen_ok in Eb as (x & _ & Eb). injection Eb as <-. by destruct Ha. }
  by destruct (negb _).
Qed.

Lemma apply_loop_open round mask conv hashes a a' :
  open_pool (Conveyer.newPool a) -> Conveyer.apply_loop indeterminate round mask conv hashes a = ret (Some a') -> open_pool (Conveyer.newPool a').
Proof.
  revert a. induction hashes as [|h hashes IH]; intros a Ha; cbn [Conveyer.apply_loop]; [by intros [= <-]|].
  destruct (Conveyer.findPacket h round conv) as [packet|]; [|done]. intros (b & Eb & E)%mthen_ok.
  destruct (_ <? _)%nat; [done|]. eapply IH, E. cbn [Conveyer.newPool upd]. by apply apply_transactions_open, (apply_smart_open _ _ _ _ Ha Eb).
Qed.

(** What the block is made of *)
Record made (info : PoolMetaInfo) (keys : list bytes) p : Prop := {
  made_open : open_pool p;
  made_valid : Pool.is_valid_ p = true;
  made_previous : Pool.previous_hash_ p = pm_previousHash info;
  made_number : Pool.numberTrusted_ p = u8 (Z.of_nat (length (pm_realTrustedMask info)));
  made_trusted : Pool.realTrusted_ p = Utils.maskToBits (pm_realTrustedMask info);
  made_confidants : Pool.confidants_ p = keys
}.

Lemma made_finished info keys p : open_pool p -> made info keys (Pool.set_confidants keys (Conveyer.finish_pool info p)).
Proof.
  intros Hp. unfold Conveyer.finish_pool.
  assert (open_pool (Pool.set_sequence (pm_sequenceNumber info) p)) as H1 by (destruct Hp as [H1 H2 H3]; unfold Pool.set_sequence; by rewrite H1).
  pose proof (open_user_field 0 (uf_of_string (pm_timestamp info)) _ H1) as H2.
  set (q := (Pool.add_user_field _ _ _).2) in *. destruct H2 as [E1 E2 E3]. unfold Pool.set_previous_hash, Pool.set_confidants, Pool.add_real_trusted, Pool.add_number_trusted.
  cbn [upd Pool.read_only_]. rewrite E1. cbn [upd Pool.read_only_]. by rewrite E1.
Qed.

Lemma made_wallets info keys p q (c c' : BlockChain B D) : made info keys p -> BlockChain.addNewWalletsToPool genesisAddress_ p c = ret (q, c') -> made info keys q.
Proof.
  intros [[H1 H2 H3] ? ? ? ? ?] E. unfold BlockChain.addNewWalletsToPool in E. rewrite H1 in E. apply mthen_ok in E as (st & _ & E). injection E as <- _.
  unfold Pool.edit_newWallets. by rewrite H1.
Qed.

Lemma made_fees info keys p q : made info keys p -> BlockChain.setTransactionsFees invocation_method p = ret q -> made info keys q.
Proof. intros [[H1 H2 H3] ? ? ? ? ?] (txs & _ & E)%mthen_ok. by injection E as <-. Qed.

Lemma made_confirmations info keys sequence round p (s : SolverState B D) : made info keys p -> made info keys (add_confirmations sequence round p s).
Proof. intros [[H1 H2 H3] ? ? ? ? ?]. unfold add_confirmations. destruct (ConfirmationList.find _ _); by destruct (1 <? sequence). Qed.

(** *** The hash that the confidants sign *)

Lemma hash_to_byte_stream p : open_pool p ->
  Pool.hash (Pool.to_byte_stream p).2 =
    Some (PoolHash.calc_from_data (Pool.hashed_enc p), (Pool.to_byte_stream p).2 <| Pool.hash_ := PoolHash.calc_from_data (Pool.hashed_enc p) |>).
Proof.
  intros [H1 H2 H3]. unfold Pool.to_byte_stream. rewrite H3. cbn [length Nat.eqb snd].
  unfold Pool.update_binary_representation, Pool.update_binary_representation_with. rewrite Pool.put_pool_app. unfold Pool.hash. cbn [upd Pool.hash_].
  rewrite H2. unfold PoolHash.is_empty. cbn [length Nat.eqb]. unfold Pool.updateHash. cbn [upd Pool.binary_representation_ Pool.hashingLength_].
  rewrite (proj2 (Z.ltb_ge _ _)) by (rewrite length_app; lia). by rewrite Nat2Z.id, take_app_exact.
Qed.

(** The block that the chain finishes: with the signatures, behind the same block *)
Definition finished (previous : bytes) (signatures : list bytes) p : Pool.priv := Pool.set_previous_hash previous (Pool.set_signatures signatures p).

Lemma compose_finished info keys p h signatures (d := (Pool.to_byte_stream p).2 <| Pool.hash_ := h |>) :
  made info keys p ->
  exists q, Pool.compose (finished (pm_previousHash info) signatures d) = Some (true, q) /\
    Pool.hash q = Some (PoolHash.calc_from_data (Pool.hashed_enc p), q) /\ Pool.confidants_ q = keys /\ Pool.signatures_ q = signatures /\
    Pool.numberTrusted_ q = u8 (Z.of_nat (length (pm_realTrustedMask info))) /\ Pool.realTrusted_ q = Utils.maskToBits (pm_realTrustedMask info).
Proof.
  intros [[H1 H2 H3] Hv Hp Hn Ht Hk]. unfold d, Pool.to_byte_stream. rewrite H3. cbn [length Nat.eqb snd].
  unfold Pool.update_binary_representation, Pool.update_binary_representation_with. rewrite Pool.put_pool_app.
  unfold finished, Pool.set_signatures, Pool.set_previous_hash. cbn [upd Pool.read_only_]. rewrite H1. cbn [upd Pool.read_only_]. rewrite H1.
  rewrite Pool.compose_valid by (cbn; done). eexists. split; [done|].
  split; [|unfold Pool.composed, Pool.update_binary_representation, Pool.update_binary_representation_with; rewrite Pool.put_pool_app; by cbn [upd Pool.confidants_ Pool.signatures_ Pool.numberTrusted_ Pool.realTrusted_]].
  match goal with |- Pool.hash (Pool.composed ?x) = _ => pose proof (StorageSpec.hash_copy x (Pool.composed x) (StorageSpec.copy_composed x eq_refl)) as Hh end.
  rewrite Hh. do 2 f_equal. unfold StorageSpec.hash_of, Pool.composed. cbn [upd Pool.hash_]. f_equal. unfold Pool.hashed_enc. cbn [upd Pool.version_ Pool.previous_hash_ Pool.sequence_ Pool.user_fields_ Pool.roundCost_ Pool.transactions_ Pool.newWallets_ Pool.numberTrusted_ Pool.realTrusted_ Pool.confidants_ Pool.numberConfirmations_ Pool.roundConfirmationMask_ Pool.roundConfirmations_].
  by rewrite Hp.
Qed.

Lemma calc_nonempty data : PoolHash.is_empty (PoolHash.calc_from_data data) = false.
Proof. unfold PoolHash.is_empty, PoolHash.calc_from_data. rewrite calculateHash_length. pose proof hash_size_pos. apply Nat.eqb_neq. lia. Qed.

(** What stage three says of the round's package and of the confidants to come *)
Definition signs_package stage package : Prop :=
  roundHash stage = calculateHash (RoundPackage.sign_bytes package) /\
  trustedHash stage = BlockChain.trusted_hash (rt_round (roundTable_ package)) (rt_confidants (roundTable_ package)).

Lemma sign_spec info keys stage s stage' s' (p := so_deferredBlock_ s) (h := PoolHash.calc_from_data (Pool.hashed_enc p)) :
  made info keys p -> sign stage s = ret (stage', s') -> Conveyer.characteristic (round_of s) (conveyer_of s) <> None ->
  so_deferredBlock_ s' = (Pool.to_byte_stream p).2 <| Pool.hash_ := h |> /\ blockHash stage' = h /\ realTrustedMask stage' = realTrustedMask stage /\
  so_node s' = so_node s /\ roundTable_ (justCreatedRoundPackage s') = roundTable_ (justCreatedRoundPackage s) /\
  poolMetaInfo_ (justCreatedRoundPackage s') = poolMetaInfo_ (justCreatedRoundPackage s) /\ signs_package stage' (justCreatedRoundPackage s').
Proof.
  intros Hm E Hc. unfold sign_stage in E. fold p in E. rewrite (hash_to_byte_stream p (made_open _ _ _ Hm)) in E. cbn [defined mthen ret] in E.
  fold h in E. assert (PoolHash.is_empty h = false) as Eh by apply calc_nonempty. rewrite Eh in E. cbn [upd so_node so_deferredBlock_ justCreatedRoundPackage] in E.
  destruct (Conveyer.characteristic _ _); [|done]. unfold RoundPackage.bytesToSign, RoundPackage.refillToSign in E. cbn [upd messageSize_ binaryRepresentation_] in E.
  rewrite firstn_all in E. injection E as <- <-. split_and!; try done.
Qed.

Lemma apply_keeps info conv pool conv' signals round :
  Conveyer.applyCharacteristic indeterminate info conv = ret (pool, conv', signals) -> Conveyer.roundTable round conv <> None ->
  currentRound_ conv' = currentRound_ conv /\ Conveyer.characteristic round conv' <> None /\
  forall p, pool = Some p -> exists a, open_pool (Conveyer.newPool a) /\ p = Conveyer.finish_pool info (Conveyer.newPool a).
Proof.
  intros E Hr. assert (forall hashes, currentRound_ (Conveyer.removeHashesFromTable hashes conv) = currentRound_ conv /\
    metaStorage_ (Conveyer.removeHashesFromTable hashes conv) = metaStorage_ conv) as Hrem.
  { intros hashes. unfold Conveyer.removeHashesFromTable. clear E Hr. revert conv. induction hashes as [|h hashes IH]; intros conv; [done|]. cbn [foldl].
    rewrite (proj1 (IH _)), (proj2 (IH _)). done. }
  unfold Conveyer.roundTable, Conveyer.characteristic in *. assert (MetaStorage.get round (metaStorage_ conv) <> None) as Hg by by intros Hg; rewrite Hg in Hr.
  assert (forall o : option ConveyerMeta, o <> None -> characteristic_ <$> o <> None) as Hmap by by intros [].
  unfold Conveyer.applyCharacteristic in E.
  destruct (MetaStorage.get (pm_sequenceNumber info) (metaStorage_ conv)) as [meta|]; [|injection E as <- <- _; split; [done|]; split; [by apply Hmap|done]].
  apply mthen_ok in E as (r & Er & E). destruct r as [a|]; [|injection E as <- <- _; rewrite (proj1 (Hrem _)), (proj2 (Hrem _)); split; [done|]; split; [by apply Hmap|done]].
  injection E as <- <- _. split; [by apply Hrem|]. split.
  - apply Hmap. rewrite Guarantees.get_write_meta, (proj2 (Hrem _)).
    destruct (round =? _); [|done]. by destruct (MetaStorage.get round (metaStorage_ conv)).
  - intros p [= <-]. exists a. split; [|done]. eapply apply_loop_open, Er. exact open_default.
Qed.

(** A block of a first iteration that was made and signed *)
Record spawned stage s stage' s' (info : PoolMetaInfo) (keys : list bytes) p : Prop := {
  sp_made : made info keys p;
  sp_block : so_deferredBlock_ s' = (Pool.to_byte_stream p).2 <| Pool.hash_ := PoolHash.calc_from_data (Pool.hashed_enc p) |>;
  sp_hash : blockHash stage' = PoolHash.calc_from_data (Pool.hashed_enc p);
  sp_mask : realTrustedMask stage' = pm_realTrustedMask info /\ pm_realTrustedMask info = realTrustedMask stage;
  sp_info : poolMetaInfo_ (justCreatedRoundPackage s') = info;
  sp_round : rt_round (roundTable_ (justCreatedRoundPackage s')) = u64 (round_of s + 1);
  sp_keys : Conveyer.confidants (conveyer_of s') = ret keys;
  sp_signs : signs_package stage' (justCreatedRoundPackage s')
}.

Lemma spawn_spec nodes hashes stamp stage s stage' s' events :
  iteration stage = 0 -> Pool.is_valid_ (so_deferredBlock_ s) = false ->
  spawn nodes hashes stamp stage s = ret (stage', s', events) -> Pool.is_valid_ (so_deferredBlock_ s') = true ->
  exists info keys p, spawned stage s stage' s' info keys p /\ rt_confidants (roundTable_ (justCreatedRoundPackage s')) = nodes.
Proof.
  intros Hi Hv E Hv'. unfold core_spawn_next_round in E. destruct (Conveyer.roundTable (round_of s) (conveyer_of s)) as [table|] eqn:Et; [|injection E as <- <- _; congruence].
  apply mthen_ok in E as ((stamp' & s1) & E1 & E).
  assert (nd_conveyer (so_node s1) = conveyer_of s /\ so_deferredBlock_ s1 = so_deferredBlock_ s) as [Ec1 Ed1].
  { destruct (round_of s =? 1); [by injection E1 as <- <-|]. apply mthen_ok in E1 as ((last & c) & _ & E1). apply mthen_ok in E1 as (count & _ & E1).
    apply mthen_ok in E1 as (ts & _ & E1). by injection E1 as <- <-. }
  apply mthen_ok in E as (previous & _ & E). rewrite Hi, Z.eqb_refl in E. apply mthen_ok in E as (((pool & conv) & signals) & Ea & E).
  cbn [upd so_node nd_conveyer nd_chain] in Ea, E. rewrite Ec1 in Ea.
  destruct (apply_keeps _ _ _ _ _ (round_of s) Ea) as (Hround & Hchar & Hpool); [congruence|].
  unfold NodeRounds.with_conveyer in E. destruct pool as [pool|]; [|injection E as <- <- _; cbn in Hv'; congruence].
  destruct (Hpool pool eq_refl) as (a & Hopen & ->).
  apply mthen_ok in E as (keys & Ek & E). apply mthen_ok in E as ((q & c) & Ew & E). apply mthen_ok in E as (q' & Ef & E). apply mthen_ok in E as ((st & s2) & Es & E).
  injection E as <- <- _. cbn [upd with_node SolverBlock.with_chain so_node nd_conveyer nd_chain] in *.
  eapply (sign_spec _ keys) in Es; [|cbn [upd so_deferredBlock_]; eapply made_confirmations, made_fees, Ef; eapply made_wallets, Ew; by apply made_finished|change (Conveyer.characteristic (currentRound_ conv) conv <> None); by rewrite Hround].
  cbn [upd so_node so_deferredBlock_ justCreatedRoundPackage RoundPackage.updatePoolMeta RoundPackage.updateRoundTable] in Es.
  destruct Es as (F1 & F2 & F3 & F4 & F5 & F6 & F7). eexists _, keys, _. split; [split|].
  - eapply made_confirmations, made_fees, Ef. eapply made_wallets, Ew. by apply made_finished.
  - exact F1.
  - exact F2.
  - split; [|reflexivity]. exact F3.
  - rewrite F6. reflexivity.
  - rewrite F5. reflexivity.
  - rewrite F4. exact Ek.
  - exact F7.
  - rewrite F5. reflexivity.
Qed.

(** *** The signatures that were gathered *)

Lemma find_in l t : NoDup (map s3_sender l) -> t ∈ l -> find_stage3 l (s3_sender t) = Some t.
Proof.
  unfold find_stage3. induction l as [|x l IH]; intros Hn Hin; [by apply not_elem_of_nil in Hin|]. cbn [map] in Hn. apply NoDup_cons in Hn as [Hx Hn]. cbn [List.find].
  apply elem_of_cons in Hin as [->|Hin]; [by rewrite Z.eqb_refl|]. destruct (Z.eqb_spec (s3_sender x) (s3_sender t)) as [E|_]; [|by apply IH].
  exfalso. apply Hx. rewrite E. by apply (list_elem_of_fmap_2 s3_sender).
Qed.

Lemma valid_count_app pre mask : valid_count (pre ++ mask) = (valid_count pre + valid_count mask)%nat.
Proof. unfold valid_count. by rewrite filter_app, length_app. Qed.

Lemma position_app pre v mask : position (pre ++ v :: mask) (Z.of_nat (length pre)) = valid_count pre.
Proof.
  induction pre as [|w pre IH]; [done|]. cbn [app length position]. rewrite (proj2 (Z.eqb_neq _ 0)) by lia.
  replace (Z.of_nat (S (length pre)) - 1) with (Z.of_nat (length pre)) by lia. rewrite IH. unfold valid_count. rewrite filter_cons.
  destruct (Z.eqb_spec w InvalidConfidantIndex) as [->|Hw]; [by rewrite decide_False by tauto|by rewrite decide_True].
Qed.

Lemma gather_slots pre mask signatures s :
  Z.of_nat (length (pre ++ mask)) < 256 -> length signatures = valid_count (pre ++ mask) ->
  (forall i, valid_at (pre ++ mask) i -> exists t, SolverBlock.stage3 i s = Some t /\ signatures !! position (pre ++ mask) i = Some (blockSignature t)) ->
  gather (Z.of_nat (length pre)) mask s = ret (drop (valid_count pre) signatures).
Proof.
  revert pre. induction mask as [|v mask IH]; intros pre Hl Hs Hv; cbn [gather].
  - rewrite app_nil_r in Hs. rewrite drop_ge by lia. done.
  - assert (pre ++ v :: mask = (pre ++ [v]) ++ mask) as Ea by by rewrite <- app_assoc.
    assert (gather (Z.of_nat (length pre) + 1) mask s = ret (drop (valid_count (pre ++ [v])) signatures)) as ->.
    { specialize (IH (pre ++ [v])). rewrite <- Ea in IH. replace (Z.of_nat (length pre) + 1) with (Z.of_nat (length (pre ++ [v]))) by (rewrite length_app; cbn [length]; lia).
      by apply IH. }
    assert (valid_count [v] = if v =? InvalidConfidantIndex then O else 1%nat) as E1.
    { unfold valid_count. rewrite filter_cons. destruct (Z.eqb_spec v InvalidConfidantIndex) as [->|Hne]; [by rewrite decide_False by tauto|by rewrite decide_True]. }
    rewrite valid_count_app, E1. destruct (Z.eqb_spec v InvalidConfidantIndex) as [->|Hne]; cbn [negb].
    + by rewrite Nat.add_0_r.
    +  destruct (Hv (Z.of_nat (length pre))) as (t & Et & E).
      { split; [lia|]. exists v. by rewrite Nat2Z.id, list_lookup_middle. }
      rewrite length_app in Hl. rewrite uwrap_id by (unfold in_u; lia). rewrite Et. cbn [mthen ret]. rewrite position_app in E.
      rewrite (drop_S _ _ _ E). by rewrite Nat.add_1_r.
Qed.

(** C40: The consensus yields a block that the others take: when spawn_next_round of the first
    iteration, with no valid deferred block before, made a valid one and the own stage three of it
    (for as many confidants as its mask has entries, between one and 64, the node valid in that
    mask), and the post stage later finishes in a state the stage-three storage reaches, with one
    stored stage per confidant and the same deferred block, then the waiting state gathers the
    signatures of the block and Pool::compose freezes it with the hash that was signed;
    checkGroupSignature accepts them for the block's own mask and hash, and accepts the signatures
    of the round package and of the trusted confidants for the package that the node sends out. *)
Theorem finished_block_passes nodes hashes stamp stage s stage' s1 events keys own m g s2 (mine := stage' <| s3_message := m |> <| s3_signature := g |>) :
  iteration stage = 0 -> Pool.is_valid_ (so_deferredBlock_ s) = false ->
  spawn nodes hashes stamp stage s = ret (stage', s1, events) -> Pool.is_valid_ (so_deferredBlock_ s1) = true ->
  Conveyer.confidants (conveyer_of s1) = ret keys -> keys <> [] -> length keys = length (realTrustedMask stage) -> (length keys <= 64)%nat ->
  reachable keys own cleared (so_store s2) -> onStage3 own (so_store s2) = Some Finish3 -> SolverBlock.stage3 own s2 = Some mine ->
  valid_at (realTrustedMask mine) own -> NoDup (map s3_sender (stageThreeStorage (so_store s2))) ->
  so_deferredBlock_ s2 = so_deferredBlock_ s1 ->
  let package := justCreatedRoundPackage s1 in
  exists signatures q,
    gather 0 (realTrustedMask mine) s2 = ret signatures /\
    Pool.compose (finished (pm_previousHash (poolMetaInfo_ package)) signatures (so_deferredBlock_ s2)) = Some (true, q) /\
    Pool.hash q = Some (blockHash mine, q) /\
    NodeUtils.checkGroupSignature (Pool.confidants_ q) (Utils.bitsToMask (Pool.numberTrusted_ q) (Pool.realTrusted_ q)) (Pool.signatures_ q) (blockHash mine) = ret true /\
    NodeUtils.checkGroupSignature keys (pm_realTrustedMask (poolMetaInfo_ package)) (roundSignatures (so_store s2)) (calculateHash (RoundPackage.sign_bytes package)) = ret true /\
    NodeUtils.checkGroupSignature keys (pm_realTrustedMask (poolMetaInfo_ package)) (trustedConfirmation (so_store s2))
      (BlockChain.trusted_hash (u64 (round_of s + 1)) nodes) = ret true.
Proof.
  intros Hi Hv Hsp Hv1 Hkeys Hne Hlen Hmax Hr Hf Hmine Hown Hn Hd package. unfold package. clear package.
  destruct (spawn_spec _ _ _ _ _ _ _ _ Hi Hv Hsp Hv1) as (info & keys' & p & [Hm Eb Eh [Em Ei] Einfo Eround Ekeys [Er Et]] & En).
  rewrite Hkeys in Ekeys. injection Ekeys as <-.
  destruct (finished_gathered keys own _ _ Hr Hf Hmine Hown) as ([_ _ _ _ Hmi] & [_ Ga Gl Gs] & Htrue & Hall).
  destruct (Hmi _ Hmine) as (Hb & Hg). destruct (Hg Hown) as (_ & _ & Hsub). destruct (Gl Htrue) as (L1 & L2 & L3).
  change (realTrustedMask mine) with (realTrustedMask stage') in *. rewrite Em, Ei in *.
  rewrite Forall_forall in Ga.
  assert (slots_signed (realTrustedMask stage) keys (poolSignatures (so_store s2)) (blockHash stage') /\
    slots_signed (realTrustedMask stage) keys (roundSignatures (so_store s2)) (roundHash stage') /\
    slots_signed (realTrustedMask stage) keys (trustedConfirmation (so_store s2)) (trustedHash stage')) as (S1 & S2 & S3).
  { split_and!; intros i Hvi; destruct (Hall i Hvi) as (t & -> & Ht); destruct (Ga t Ht) as (_ & _ & key & Hk & V1 & V2 & V3); destruct (Gs t Ht) as (P1 & P2 & P3);
      eexists _, _; (split; [exact Hk|]); (split; [eassumption|]); done. }
  destruct (compose_finished info keys p (PoolHash.calc_from_data (Pool.hashed_enc p)) (poolSignatures (so_store s2)) Hm) as (q & Ec & Ehq & Kq & Sq & Nq & Rq).
  exists (poolSignatures (so_store s2)), q. split_and!.
  - pose proof (gather_slots [] (realTrustedMask stage) (poolSignatures (so_store s2)) s2) as Hgat. cbn [length app Z.of_nat] in Hgat. change (valid_count []) with 0%nat in Hgat.
    rewrite drop_0 in Hgat. apply Hgat; [exact Hb|exact L1|]. intros i Hvi. destruct (Hall i Hvi) as (t & -> & Ht). exists t.
    split; [apply find_in; [done|by apply Hsub]|by apply Gs].
  - rewrite Hd, Eb, Einfo. exact Ec.
  - change (blockHash mine) with (blockHash stage'). rewrite Eh. exact Ehq.
  - rewrite Kq, Sq, Nq, Rq, Ei. change (blockHash mine) with (blockHash stage').
    rewrite (group_bits keys _ (realTrustedMask stage)); [by apply group_passes|].
    rewrite uwrap_id by (unfold in_u; lia). destruct (Utils.mask_bits_roundtrip (realTrustedMask stage)) as [-> _]; [lia|].
    rewrite map_map. apply map_ext. intros b. by destruct (Z.eqb_spec b 255) as [->|].
  - rewrite Einfo, Ei, <- Er. by apply group_passes.
  - rewrite Einfo, Ei. rewrite Eround, En in Et. rewrite <- Et. by apply group_passes.
Qed.

End spec.
End SolverSpec.

(** ** Witnesses *)

Import Stage StageThreeStore.

#[local] Existing Instance toy_libm.

(** The first of three confidants in the first round; the mask trusts it and the third one. *)
Definition solver_start : SolverState BerkeleyDB.t (list Wallet) :=
  mkSolver (node_at (Conveyer.setCharacteristic [] 1 (conveyer_at 1)) first_chain []) cleared [] [] Pool.default new_package [] [] ∅ 0.
Definition decided_stage : StageThree := mkStageThree 0 0 0 [0; 255; 1] [] [] [] [] [] [] [] [].

#[local] Abbreviation spawn_sample := (SolverBlock.core_spawn_next_round (fun _ : list PoolElement => 0%nat) (fun _ => []) (sample_public 200) 0
  (sign_block (le_bytes 32 1)) 99 three_keys [] [49; 50] decided_stage solver_start).

(** What comes out of it *)
Definition spawn_result : option (StageThree * SolverState BerkeleyDB.t (list Wallet) * list NodeEvent) :=
  match spawn_sample with Some (Ok r) => Some r | _ => None end.
Definition own_stage : StageThree := match spawn_result with Some (stage, _, _) => stage | None => decided_stage end.
Definition solver_signed : SolverState BerkeleyDB.t (list Wallet) := match spawn_result with Some (_, s, _) => s | None => solver_start end.

(** The third confidant signs the same hashes. *)
Definition third_stage : StageThree :=
  mkStageThree 2 0 0 [0; 255; 1] (sign_block (le_bytes 32 3) (blockHash own_stage)) (blockHash own_stage)
    (sign_block (le_bytes 32 3) (roundHash own_stage)) (roundHash own_stage) (trustedHash own_stage) (sign_block (le_bytes 32 3) (trustedHash own_stage)) [] [].
Definition store_own : Store := match gotStageThree three_keys 0 own_stage 1 cleared with Some (s, _) => s | None => cleared end.
Definition store_both : Store := match gotStageThree three_keys 0 third_stage 2 store_own with Some (s, _) => s | None => cleared end.
Definition solver_finished : SolverState BerkeleyDB.t (list Wallet) := solver_signed <| so_store := store_both |>.

Lemma spawn_computed : match spawn_sample with Some (Ok (_, s, _)) => Pool.is_valid_ (so_deferredBlock_ s) | _ => false end = true.
Proof. vm_compute. reflexivity. Qed.

Lemma spawn_one : exists events, spawn_sample = ret (own_stage, solver_signed, events) /\ Pool.is_valid_ (so_deferredBlock_ solver_signed) = true.
Proof.
  pose proof spawn_computed as H. unfold solver_signed, own_stage, spawn_result.
  destruct spawn_sample as [[[[stage s] events]|e]|]; [|done..]. by exists events.
Qed.

Lemma store_reachable : reachable three_keys 0 cleared store_both.
Proof.
  apply (reach_step three_keys 0 cleared store_own).
  - apply (reach_step three_keys 0 cleared cleared); [constructor|].
    apply (step_own three_keys 0 own_stage cleared store_own true); [vm_compute; reflexivity|done|vm_compute; reflexivity| | |vm_compute; reflexivity].
    + exists (le_bytes 32 1). split; [vm_compute; reflexivity|]. split; [|split]; vm_compute; reflexivity.
    + apply Z.ltb_lt. vm_compute. reflexivity.
  - apply (step_other three_keys 0 third_stage 2 store_own store_both true); [vm_compute; discriminate|vm_compute; discriminate|by right|vm_compute; reflexivity].
Qed.

Lemma deferred_kept (s : SolverState BerkeleyDB.t (list Wallet)) (store : Store) : so_deferredBlock_ (s <| so_store := store |>) = so_deferredBlock_ s.
Proof. reflexivity. Qed.

Lemma message_apart (stage : StageThree) m g :
  realTrustedMask (stage <| s3_message := m |> <| s3_signature := g |>) = realTrustedMask stage /\
  blockHash (stage <| s3_message := m |> <| s3_signature := g |>) = blockHash stage.
Proof. by split. Qed.

Lemma ret_inj {A} (x y : A) : ret x = ret y -> x = y.
Proof. by intros [= E]. Qed.

Lemma finished_block_passes_witness :
  exists signatures q,
    SolverBlock.gather 0 [0; 255; 1] solver_finished = ret signatures /\ length signatures = 2%nat /\
    Pool.compose (SolverSpec.finished (pm_previousHash (poolMetaInfo_ (justCreatedRoundPackage solver_signed))) signatures (so_deferredBlock_ solver_finished)) = Some (true, q) /\
    NodeUtils.checkGroupSignature (Pool.confidants_ q) (Utils.bitsToMask (Pool.numberTrusted_ q) (Pool.realTrusted_ q)) (Pool.signatures_ q) (blockHash own_stage) = ret true.
Proof.
  destruct spawn_one as (events & E & Ev).
  destruct (SolverSpec.finished_block_passes (fun _ : list PoolElement => 0%nat) (fun _ => []) (sample_public 200) 0 (sign_block (le_bytes 32 1)) 99
    three_keys [] [49; 50] decided_stage solver_start own_stage solver_signed events three_keys 0 [] [] solver_finished)
    as (signatures & q & Eg & Ec & _ & Ep & _).
  - reflexivity.
  - reflexivity.
  - exact E.
  - exact Ev.
  - vm_compute. reflexivity.
  - discriminate.
  - reflexivity.
  - cbn. lia.
  - exact store_reachable.
  - vm_compute. reflexivity.
  - vm_compute. reflexivity.
  - split; [done|]. exists 0. split; [vm_compute; reflexivity|done].
  - apply (bool_decide_unpack _). vm_compute. reflexivity.
  - unfold solver_finished. apply deferred_kept.
  - exists signatures, q. assert (realTrustedMask own_stage = [0; 255; 1]) as Em by (vm_compute; reflexivity).
    destruct (message_apart own_stage [] []) as [E1 E2]. rewrite E1, Em in Eg. rewrite E2 in Ep. split; [exact Eg|].
    assert (SolverBlock.gather 0 [0; 255; 1] solver_finished = ret (poolSignatures store_both)) as Eg' by (vm_compute; reflexivity).
    assert (length (poolSignatures store_both) = 2%nat) as El by (vm_compute; reflexivity).
    rewrite Eg' in Eg. apply ret_inj in Eg. rewrite <- Eg. split; [exact El|]. rewrite Eg. split; [exact Ec|exact Ep].
Defined.
